(* ===== verification/_CoqProject ===== *)
-Q . S2P
Prelude.v
Utf8.v
Decimal.v
PolicyPath.v
BreakerWord.v
CircuitBreaker.v
BreakerOutcome.v
BreakerConcurrency.v
RuntimeKeys.v
BreakerCache.v
RoutePath.v
RouteTable.v
RouterCache.v
HealthBitset.v
SmoothWrr.v
WrrSelect.v
Net.v
ProxyProtocol.v
Cidr.v
ClientIp.v
H1Signals.v
H1Head.v
H1HeadSpec.v
H1Chunked.v
H1Framing.v
H1Guard.v
H1Pipeline.v
LaneLimiter.v
LimiterKeys.v
BackendLimits.v
ReqwestLanes.v
ConnLimiter.v
UdpAmplification.v
ConfigDelta.v
ConsumerIndex.v
Upstream.v
PassiveRing.v
PassiveHealth.v
PassiveWindow.v
PassiveConcurrency.v
ActiveHealth.v
LbHealth.v
LbLocality.v
LbMetrics.v
LbAlgorithms.v
LbDispatch.v
HashOn.v
LbSelect.v
LbRetry.v
LbSelectSpec.v
LbRetrySpec.v
LbSticky.v
LbLocalityBuild.v
LbBuild.v
LbExamples.v
LbCache.v
LbCacheExamples.v
AdaptiveLimiter.v
AdaptiveSystem.v
AdaptiveSafety.v
AdaptiveExamples.v
Retry.v
BackendPath.v
RetryLoop.v
RetrySafety.v
RetrySlots.v
RetryExamples.v
Overload.v
