(* ===== verification/Prelude.v ===== *)
(** * Ferrum Edge: a verification development

    Ferrum Edge ([src/src]) is an API gateway and service-mesh data plane in
    Rust. A request is accepted on a listener, its peer address is replaced by
    the client a trusted proxy vouches for, its path is canonicalised, a route
    is found in the current request epoch, a target is picked by the load
    balancer, the destination's limiters and the target's circuit breaker admit
    or reject the call, a failed attempt is retried within its policy, and
    every outcome is reported back to the breaker and the adaptive limiter. On
    HTTP/1 connections an observer beside the parser watches the framing of
    every head; configuration reloads reach the running tables as deltas. This
    library models the parts that
    take those decisions, as executable definitions over integers of machine
    width and byte lists, and proves what each of them promises.

    ** Files and what they model

    - [Prelude.v] (this file): Rust's [Result], machine integers with their
      wrap-around, saturation and overflow checks, byte strings, cyclic reads,
      counting, tactics and the hint database shared by all files.
    - [Utf8.v], [Decimal.v], [Net.v]: the parts of the standard library the code
      relies on ([str::from_utf8], [str::trim], integer text, address text), and
      the client-identity folding of [util/client_identity.rs].
    - [PolicyPath.v]: [policy_path.rs], the canonicaliser every request target
      passes. The function is total and structural; no fuel.
    - [BreakerWord.v], [CircuitBreaker.v]: [circuit_breaker.rs], the packed state
      word and each method as a state-passing function run alone, refining an
      abstract breaker.
    - [BreakerConcurrency.v]: the same methods as small-step programs, one step
      per atomic access, interleaved arbitrarily between any number of requests;
      [exec] is the step relation, invariants hold on all reachable states. It
      proves that a solo run of a small-step program is the function of
      [CircuitBreaker.v].
    - [BreakerOutcome.v]: [proxy/backend_dispatch.rs], how an outcome becomes a
      success, neutral or failure report, immediately or deferred.
    - [RuntimeKeys.v], [BreakerCache.v]: the keys of proxies and targets
      ([config/types.rs], [config/db_backend.rs]) and the bounded cache of
      breakers with its prune operations; breakers are shared through a heap.
    - [RoutePath.v], [RouteTable.v]: [router_cache.rs], path folding and the
      lookup tiers (host, exact path, longest prefix, regex) with listener
      scoping. The [regex] crate is a parameter: the class [RegexEngine] with
      laws [RegexEngineLaws], inhabited by [literal_engine].
    - [RouterCache.v]: the route caches over [request_epoch.rs]: lookups,
      insertions, evictions, and the publications that change what a lookup
      should return.
    - [HealthBitset.v], [SmoothWrr.v], [WrrSelect.v]: [load_balancer.rs], the
      128-bit candidate set, smooth weighted round-robin schedules, and the lane
      that caches schedules and hands out tickets. The class [WrrPath] is what a
      lane needs from a candidate representation; the bitset and the [Vec] path
      are its instances, and the lane's theorems are proved once against it.
    - [Upstream.v], [HashOn.v]: targets and their text keys, and what a selection
      hashes ([config/types.rs], [load_balancer.rs]).
    - [PassiveRing.v], [PassiveHealth.v], [PassiveWindow.v],
      [PassiveConcurrency.v]: [health_check.rs], the ring of recent failures, the
      reports of the data path in both ejection modes, the recovery scan and the
      pruning; the window mode against a history-based specification; and the
      consecutive mode as small-step programs, one step per atomic access, with
      the lock of the map entry, interleaved arbitrarily with the recovery timer.
    - [ActiveHealth.v]: what a probe outcome does to the shared tables, with every
      point at which its generation may have been retired.
    - [LbHealth.v], [LbLocality.v], [LbMetrics.v], [LbAlgorithms.v],
      [LbDispatch.v]: the stages of a selection in [load_balancer.rs]: the health
      filter with the ejection cap and the SRV tiers, the locality preference, the
      measurements, the algorithms with the weighted locality buckets, and the
      dispatch over the configured algorithm; each for the bitset and the vector
      path. The unstable sort and the binary search are the classes
      [UnstableSort] and [RingSearch], inhabited by [stable_sort] and
      [linear_search].
    - [LbSelect.v], [LbRetry.v]: every selector built from these stages, for first
      attempts, for retries, and for targets named by a sticky token or by the
      original destination. [LbSelectSpec.v], [LbRetrySpec.v]: the well-formed
      balancer, the selection contract, and the proofs that all selectors
      implement it.
    - [LbSticky.v]: the identity a sticky token authenticates and its index; the
      keyed hash is a parameter. [LbLocalityBuild.v], [LbBuild.v]: the
      constructor of a balancer. [LbExamples.v]: one concrete upstream, on which
      the theorems of these files are applied.
    - [LbCache.v], [LbCacheExamples.v]: the cache of all balancers: the index of
      definitions, rebuilding and patching it on a reload or when discovery
      publishes targets, and every selector through the snapshot.
    - [AdaptiveLimiter.v], [AdaptiveSystem.v]: [adaptive_concurrency.rs] with
      the epoch writer of [request_epoch.rs]: rows, keys and the arithmetic of
      the limit, and then admissions, feedback, drops and the two-phase commits
      of policy and balancer generations as small-step programs, one step per
      atomic access, interleaved arbitrarily. A flag of [exec] delays the store
      of the feedback barrier as a store buffer would; the theorems are about
      the sequentially consistent case. [AdaptiveSafety.v]: the invariants.
      [AdaptiveExamples.v]: executions.
    - [Retry.v], [BackendPath.v]: [retry.rs] and [proxy/mod.rs], the retry
      decision, the per-target budgets, the backoff, and the path and URL put on
      the wire. [RetryLoop.v]: the HTTP dispatch of [proxy/mod.rs] from breaker
      admission through the retry loop to the final accounting, with the guard
      of the half-open slot, on the cache of [BreakerCache.v]; a round carries
      what the handler learns in one attempt and what other requests do to the
      cache meanwhile, and the future may be dropped at each await.
      [RetrySafety.v]: what every execution guarantees. [RetrySlots.v]: which
      breaker instance each slot goes back to. [RetryExamples.v]: executions.
    - [Overload.v]: [overload.rs], the flags the monitor writes, the connection
      and request guards, and the drain of a shutdown with its waiter, one
      atomic access per step.
    - [ProxyProtocol.v]: [proxy/proxy_protocol.rs], reading and writing PROXY
      headers over a byte stream.
    - [Cidr.v], [ClientIp.v]: [util/cidr.rs] and [proxy/client_ip.rs], address
      sets and the client behind trusted proxies.
    - [H1Signals.v], [H1Head.v], [H1Chunked.v], [H1Framing.v], [H1Guard.v]:
      [proxy/h1_framing_guard.rs], from the inside out: the packed queue of
      decisions, the byte-level scanners of heads and chunked bodies, the
      connection scanner with HTTP/2 detection, and the guarded socket that
      answers a rejected head itself. [H1HeadSpec.v] holds the line-by-line
      specification of a head, [H1Pipeline.v] the end-to-end theorems on a
      guarded, pipelined connection. Hyper and the handler are sequences of
      polls and queries; the socket is the class [AsyncIo] with its laws.
    - [LaneLimiter.v]: the counters shared by [backend_conn_limit.rs],
      [backend_active_request_limit.rs] and [backend_pending_limit.rs], with the
      lookup, the cold insertion and the guard drop as separate atomic steps.
      [LimiterKeys.v]: their text keys. [BackendLimits.v]: the three limiters
      against the permit contract [spec_step], through the class [LaneIdentity]
      that says when two scopes name one destination. [ReqwestLanes.v]: the
      dial-lane registry and the admission hook of the reqwest transport.
    - [ConnLimiter.v]: [util/conn_limit.rs], the accept-loop limiter, each of its
      shared cells a separate step; the [tokio] semaphore is the class
      [Semaphore], inhabited by [counting_semaphore].
    - [UdpAmplification.v]: [udp_amplification.rs], the response budget of a UDP
      session, its floating-point product and its compare-and-swap loops.
    - [ConfigDelta.v]: [config_delta.rs], with the trait
      [HasNamespacedIdAndTimestamp] as a class; [serde_json] is a parameter.
    - [ConsumerIndex.v]: [consumer_index.rs], building and patching the
      credential tables.

    ** What the theorems show

    - Breaker: refinement of the abstract breaker, tripping and recovery at the
      exact thresholds; under every interleaving no probe slot is leaked, the
      packed word stays well-formed, a deferred outcome is applied only to the
      cycle it belongs to; the concurrent probe limit can be exceeded only by
      stragglers of earlier cycles, and a concrete run shows that it is.
    - Breaker cache and keys: the counter is exact, distinct keys never share a
      breaker, pruning removes exactly the stale ones, keys are unambiguous.
    - Paths and routes: the canonicaliser accepts exactly its specification and
      is idempotent; prefix lookup is longest segment match; regex routes keep
      configuration order with and without the set matcher; listener-scoped
      routes fail closed; a cached lookup equals an uncached one in the current
      epoch.
    - Load balancing: one period serves every target its exact weight and no
      target runs a full pick ahead; a period that is too long is apportioned
      without starving a target; every selection returns a candidate of positive
      weight when there is one; each worker sees the exact ratio in the steady
      state; churn cannot force a rebuild per request. Every selector implements
      the selection contract (a target of its own scope, healthy unless flagged,
      refusing only what it must), retries add that the tried target is left
      out and that they give up exactly when nothing else is healthy, and the
      constructor establishes all the tables this relies on for every
      configuration with fewer than 2^32 targets, 32-bit weights and validated
      locality weights, an upstream without targets included. The bitset and the vector path agree stage by stage;
      consistent hashing is the nearest virtual node and moves no key it need
      not; least connections and least latency find a least-loaded candidate;
      locality buckets and endpoint shares are exactly proportional; the
      measurements are those of the target's history; the ejection cap holds.
      A sticky token names one backend identity and finds it again.
    - Health: for reports made one at a time in the order of their stamps, the
      window mode is the count of failures in the sliding window; the recovery
      scan readmits exactly what is due; active probes have the configured
      hysteresis; under every interleaving the consecutive mode comes to rest with
      an ejection entry exactly when its streak says so.
    - Network identity: header round trip, locality and agreement of the two
      PROXY parsers; membership and coverage of address sets; forged forwarding
      entries cannot change the resolved client or scheme.
    - HTTP/1 framing: the head scanner computes the specification on every head;
      a chunked body is skipped exactly; what the observer knows does not depend
      on how reads split the bytes; on a guarded, pipelined connection of requests
      that Hyper has no reason to reject, Hyper receives the bytes unchanged and
      each request gets its own verdict, in order, while for a rejected head
      behind good requests the split of the reads decides whether it is published;
      the decision queue is a bounded FIFO whose failures are sticky; when the
      guard answers for Hyper it sends the envelope of the hint its bytes raise, a
      prefix of it until it is out and nothing else, and the connection is closed
      to Hyper; all counters and buffers of the guard keep their widths; the loops
      terminate.
    - Limits: in every interleaving a lane's entry is the number of its live
      guards, grants stay below the cap, refusals report the true count, idle
      lanes are evicted; the limiters implement the permit contract and no
      operator text can forge a lane; a dial lane is the strictest of the newest
      generation since it was created; the accept limiter keeps both caps at
      every intermediate point and leaks nothing.
    - UDP: bytes and packets returned stay within the factor times the bytes
      received plus one for each empty request, and the budget of a datagram is exact.
    - Reloads: a delta is a patch from the old to the new snapshot and is empty
      only when nothing changed; a proxy that is not rebuilt has the same plugin
      configurations before and after; patching the credential index equals
      rebuilding it, so a revoked credential is gone; patching the cache of
      balancers keeps every untouched balancer and yields a coherent snapshot of
      the new configuration, through which selections keep their contract; a
      concrete run shows discovered targets forgotten by an unrelated reload.
    - Adaptive concurrency: in every interleaving a row counts exactly its
      permits and provisional admissions; outside shadow mode it stays within the
      configured maximum; a permit of a retired generation never stands on a row
      of the current space while admission is open; under sequentially consistent
      memory no feedback runs beside a commit.
      Concrete executions show a compatible reload refusing a request of the
      generation being committed, a stale clamp leaving the bounds, and the
      barrier failing behind a store buffer.
    - Retries: however a request ends, every half-open slot it took is returned
      exactly once, and to the breaker that granted it as long as no reload
      replaces the proxy's breakers meanwhile; a reload that does sends the slot to
      a breaker that never granted it; every replay is within the policy and the caps, follows a
      replayable response, and keeps the body and the authorized path; every
      response is charged once to the breaker of the target that gave it; the
      loop ends; a delay stays within half and one and a half steps of the
      ideal backoff.
    - Overload: a drain never hangs on a lost notification; a begun drain keeps
      refusing requests unless a tick of the monitor straddles its beginning,
      and a concrete run shows what such a tick does.

    ** Bounds and fuel

    Loops without a structural argument carry fuel that is proved sufficient:
    the gcd loop (66 rounds for 32-bit weights), [for_each_set_bit] (129 rounds
    for 128 bits), the v1 line reader (its cap of 109 bytes), binary search (one
    more than the length), the backward prefix walk (the path length), white
    space trimming (the text length). The small-step methods of the breaker
    finish within twelve steps when run alone. The chunk scanner has two units
    per input byte, the stream scanner one per byte, the envelope writer one per
    byte left to write and one more. The retry loop consumes one round per
    attempt and always ends within as many rounds as the policy has retries;
    the drain waiter ends within four steps of the last drop. Counters wrap at their width;
    theorems that need a counter not to wrap within a run say so.

    ** Limits of the model

    Memory is sequentially consistent: the relaxed orderings of the source are
    not distinguished. The breaker methods, the lane counters, the accept
    limiter, the UDP accumulator, the adaptive limiter and the overload state
    are split into their atomic accesses;
    weighted round-robin calls, selections, breaker-cache operations, route
    lookups, lane leases and the framing signals of a connection are atomic
    transitions; the consecutive mode of the health checker is split into its
    atomic accesses, its window mode is not. Time
    is an input (a clock value or an elapsed flag). An [Arc] is the value it
    points to, except for breakers, which live in a heap.

    ** Not modelled

    The transports (HTTP/2, HTTP/3, gRPC, WebSocket, TCP and UDP relays, HBONE),
    their connection pools and their own retry loops are asynchronous I/O over
    [tokio], [hyper] and [quinn]; the decisions they share are modelled, the
    byte movement is not, and the classification of transport errors depends on
    the error types of those crates. TLS, DTLS and kTLS are calls into
    cryptographic libraries. The plugins are dozens of independent
    handlers; of the plugin cache only the scope rule is modelled. The mesh
    (capture, eBPF, node agent, Istio and Gateway API translation), the control
    plane (databases, gRPC distribution, Kubernetes) and observability mostly
    move data between external systems. In the health checker the sending of
    probes is left out; in the router the construction of the index from
    configuration; in overload control the floating-point ratios and the
    sampling of descriptors. *)

From stdpp Require Export prelude gmap strings.
From Stdlib Require Export ZArith Lia.

Declare Scope ferrum_scope.
Delimit Scope ferrum_scope with ferrum.
Open Scope Z_scope.
Open Scope ferrum_scope.

(** ** Results

    Rust's [Result]: fallible code returns [Ok] or [Err]; the [?] operator is
    the bind of this error monad. *)

Inductive result (A E : Type) : Type :=
| Ok (a : A)
| Err (e : E).
Arguments Ok {A E} a.
Arguments Err {A E} e.

Definition rbind {A B E} (r : result A E) (k : A -> result B E) : result B E :=
  match r with
  | Ok a => k a
  | Err e => Err e
  end.

Notation "'let?' p := c 'in' k" := (rbind c (fun p => k))
  (at level 10, p pattern, c at level 100, k at level 200)
  : ferrum_scope.

Definition ok_or {A E} (o : option A) (e : E) : result A E :=
  match o with
  | Some a => Ok a
  | None => Err e
  end.

Definition is_ok {A E} (r : result A E) : bool :=
  match r with Ok _ => true | Err _ => false end.

Lemma rbind_Ok {A B E} (r : result A E) (k : A -> result B E) b :
  rbind r k = Ok b <-> exists a, r = Ok a /\ k a = Ok b.
Proof. destruct r; simpl; split; intros; destruct_and?; naive_solver. Qed.

Lemma ok_or_Ok {A E} (o : option A) (e : E) a : ok_or o e = Ok a <-> o = Some a.
Proof. destruct o; simpl; naive_solver. Qed.

(** ** Machine integers

    A [w]-bit unsigned integer is a [Z]; the wrap-around, saturation and
    overflow checks of Rust's integer methods are written out. *)

Definition in_width (w x : Z) : Prop := 0 <= x < 2 ^ w.

Abbreviation is_u8 := (in_width 8).
Abbreviation is_u16 := (in_width 16).
Abbreviation is_u32 := (in_width 32).
Abbreviation is_u64 := (in_width 64).
Abbreviation is_u128 := (in_width 128).

Definition umax (w : Z) : Z := 2 ^ w - 1.

Definition wrap (w x : Z) : Z := x mod 2 ^ w.
Definition wrapping_add (w a b : Z) : Z := wrap w (a + b).
Definition wrapping_mul (w a b : Z) : Z := wrap w (a * b).
Definition saturating_add (w a b : Z) : Z := Z.min (a + b) (umax w).
Definition saturating_sub (a b : Z) : Z := Z.max 0 (a - b).
Definition saturating_mul (w a b : Z) : Z := Z.min (a * b) (umax w).
Definition checked_add (w a b : Z) : option Z :=
  if a + b <=? umax w then Some (a + b) else None.
Definition checked_mul (w a b : Z) : option Z :=
  if a * b <=? umax w then Some (a * b) else None.

#[global] Instance in_width_dec w x : Decision (in_width w x).
Proof. unfold in_width. apply _. Defined.

Lemma wrap_small w x : in_width w x -> wrap w x = x.
Proof. intros; apply Z.mod_small; assumption. Qed.

Lemma saturating_add_small w a b : a + b <= umax w -> saturating_add w a b = a + b.
Proof. intros; unfold saturating_add; lia. Qed.

Lemma wrap_in_width w x : 0 <= w -> in_width w (wrap w x).
Proof. intros; apply Z.mod_pos_bound; lia. Qed.

Lemma lor_disjoint a b n : 0 <= n -> 0 <= b < 2 ^ n -> Z.lor (a * 2 ^ n) b = a * 2 ^ n + b.
Proof.
  intros Hn Hb. rewrite <- Z.shiftl_mul_pow2 by done.
  assert (Hland : Z.land (Z.shiftl a n) b = 0).
  { apply Z.bits_inj'; intros i Hi. rewrite Z.land_spec, Z.bits_0.
    destruct (Z.lt_ge_cases i n).
    - by rewrite Z.shiftl_spec_low.
    - rewrite <- (Z.mod_small b (2 ^ n)) by done.
      by rewrite Z.mod_pow2_bits_high, andb_false_r by lia. }
  by rewrite <- Z.lxor_lor, Z.add_nocarry_lxor.
Qed.

(** ** Bytes and byte strings *)

Abbreviation bytes := (list Z).

(** The bytes of an ASCII literal. *)
Definition bs (s : string) : bytes :=
  map (fun a => Z.of_N (Ascii.N_of_ascii a)) (String.list_ascii_of_string s).

Definition is_bytes (l : bytes) : Prop := Forall is_u8 l.

Definition is_ascii_digit (b : Z) : bool := (48 <=? b) && (b <=? 57).
Definition is_ascii_lower (b : Z) : bool := (97 <=? b) && (b <=? 122).
Definition is_ascii_upper (b : Z) : bool := (65 <=? b) && (b <=? 90).
Definition is_ascii_alphanumeric (b : Z) : bool :=
  is_ascii_digit b || is_ascii_lower b || is_ascii_upper b.
Definition to_ascii_lowercase (b : Z) : Z := if is_ascii_upper b then b + 32 else b.
Definition eq_ignore_ascii_case1 (a b : Z) : bool :=
  to_ascii_lowercase a =? to_ascii_lowercase b.

Fixpoint eqb_bytes (a b : bytes) : bool :=
  match a, b with
  | [], [] => true
  | x :: a, y :: b => (x =? y) && eqb_bytes a b
  | _, _ => false
  end.

Lemma eqb_bytes_spec a b : eqb_bytes a b = true <-> a = b.
Proof.
  revert b; induction a as [|x a IH]; intros [|y b]; simpl; try naive_solver.
  rewrite andb_true_iff, Z.eqb_eq, IH; naive_solver.
Qed.

(** [[u8]::eq_ignore_ascii_case] on whole strings. *)
Definition eq_ignore_ascii_case (a b : bytes) : bool :=
  eqb_bytes (map to_ascii_lowercase a) (map to_ascii_lowercase b).

(** [slice::split] on one separator byte: the pieces between separators, at
    least one, possibly empty. *)
Fixpoint split_on (sep : Z) (l : bytes) : list bytes :=
  match l with
  | [] => [[]]
  | b :: l' =>
    if b =? sep then [] :: split_on sep l'
    else match split_on sep l' with
         | [] => [[b]]
         | s :: ss => (b :: s) :: ss
         end
  end.

Lemma split_on_nonempty sep l : split_on sep l <> [].
Proof. destruct l as [|b l]; simpl; [done|]. case_match; [done|]. by case_match. Qed.

Lemma split_on_cons sep l : exists s ss, split_on sep l = s :: ss.
Proof. destruct (split_on sep l) eqn:E; [by destruct (split_on_nonempty sep l)|eauto]. Qed.

(** A separator-free prefix stays inside the first piece. *)
Lemma split_on_app_free sep p l :
  sep ∉ p ->
  split_on sep (p ++ l) =
    match split_on sep l with
    | s :: ss => (p ++ s) :: ss
    | [] => []
    end.
Proof.
  induction p as [|x p IH]; simpl; intros Hp.
  - by case_match.
  - apply not_elem_of_cons in Hp as [Hx Hp]. rewrite IH by done.
    destruct (Z.eqb_spec x sep); [by subst|]. case_match; [|done].
    by destruct (split_on_nonempty sep l).
Qed.

Lemma split_on_free sep p : sep ∉ p -> split_on sep p = [p].
Proof.
  intros. rewrite <- (app_nil_r p) at 1. rewrite split_on_app_free by done.
  simpl. by rewrite app_nil_r.
Qed.

Lemma split_on_sep sep p l :
  sep ∉ p -> split_on sep (p ++ sep :: l) = p :: split_on sep l.
Proof.
  intros. rewrite split_on_app_free by done. simpl.
  rewrite Z.eqb_refl. by rewrite app_nil_r.
Qed.

(** Induction for code that consumes a variable number of elements per step. *)
Lemma list_length_ind {A} (P : list A -> Prop) :
  P [] ->
  (forall b l, (forall l', (length l' <= length l)%nat -> P l') -> P (b :: l)) ->
  forall l, P l.
Proof.
  intros H0 H1 l. remember (length l) as n eqn:Hn.
  revert l Hn; induction n as [n IH] using lt_wf_ind; intros [|b l] Hn; [done|].
  apply H1; intros l' Hl'. eapply IH; [|done]. simpl in *; lia.
Qed.

(** ** Tactics *)

(** Decide the integer comparisons a program branches on. *)
Ltac zcase :=
  match goal with
  | |- context [Z.eqb ?a ?b] => destruct (Z.eqb_spec a b)
  | |- context [Z.ltb ?a ?b] => destruct (Z.ltb_spec a b)
  | |- context [Z.leb ?a ?b] => destruct (Z.leb_spec a b)
  | H : context [Z.eqb ?a ?b] |- _ => destruct (Z.eqb_spec a b)
  | H : context [Z.ltb ?a ?b] |- _ => destruct (Z.ltb_spec a b)
  | H : context [Z.leb ?a ?b] |- _ => destruct (Z.leb_spec a b)
  end.
Ltac zcases := repeat (zcase; simpl in *; try lia; try done).

(** Split every [match] and [if] the goal branches on, keeping the equation. *)
Ltac split_matches := repeat (case_match; simplify_eq/=).

Create HintDb ferrum.
#[export] Hint Unfold in_width umax saturating_add saturating_sub saturating_mul
  checked_add checked_mul : ferrum.

Lemma foldl_snoc {A} (l acc : list A) : foldl (fun l x => l ++ [x]) acc l = acc ++ l.
Proof.
  revert acc; induction l as [|x l IH]; intros acc; simpl; [by rewrite app_nil_r|].
  by rewrite IH, <- app_assoc.
Qed.

(** ** Cyclic reads

    A counter read modulo the length of a list visits every position once in
    every window of that length. *)

Definition cyclic {A} (l : list A) (t : Z) : option A :=
  l !! Z.to_nat (t mod Z.of_nat (length l)).

Lemma cyclic_positions n t :
  map (fun k => Z.to_nat ((t + Z.of_nat k) mod Z.of_nat n)) (seq 0 n) ≡ₚ seq 0 n.
Proof.
  apply Permutation_sym, submseteq_length_Permutation; [|by rewrite length_map].
  apply NoDup_submseteq; [apply NoDup_seq|]. intros i [_ Hi]%elem_of_seq.
  apply list_elem_of_fmap. exists (Z.to_nat ((Z.of_nat i - t) mod Z.of_nat n)).
  assert (Hm := Z.mod_pos_bound (Z.of_nat i - t) (Z.of_nat n)). split.
  - rewrite Z2Nat.id by lia. rewrite Zplus_mod_idemp_r. replace (t + (Z.of_nat i - t)) with (Z.of_nat i) by lia.
    rewrite Z.mod_small; lia.
  - apply elem_of_seq. lia.
Qed.

Lemma cyclic_window {A} (l : list A) (t : Z) :
  map (fun k => cyclic l (t + Z.of_nat k)) (seq 0 (length l)) ≡ₚ map Some l.
Proof.
  unfold cyclic.
  rewrite <- (map_map (fun k => Z.to_nat ((t + Z.of_nat k) mod Z.of_nat (length l))) (fun j => l !! j)).
  rewrite (Permutation_map _ (cyclic_positions (length l) t)). apply reflexive_eq.
  induction l as [|x l IH]; [done|]. cbn [length seq map]. f_equal. rewrite <- seq_shift, map_map. exact IH.
Qed.

Lemma cyclic_Some {A} (l : list A) (t : Z) :
  l <> [] -> exists x, cyclic l t = Some x /\ x ∈ l.
Proof.
  intros Hne. assert (Hl : (0 < length l)%nat) by (destruct l; simpl; [done|lia]).
  assert (Hm := Z.mod_pos_bound t (Z.of_nat (length l))).
  destruct (lookup_lt_is_Some_2 l (Z.to_nat (t mod Z.of_nat (length l)))) as [x Hx]; [lia|].
  exists x. split; [done|]. by eapply list_elem_of_lookup_2.
Qed.

Lemma split_on_Forall (P : Z -> Prop) sep l : Forall P l -> Forall (Forall P) (split_on sep l).
Proof.
  induction 1 as [|b l Hb HF IH]; simpl; [by repeat constructor|].
  destruct (split_on_cons sep l) as (s & ss & E). rewrite E in *.
  destruct (b =? sep); [by constructor|]. apply Forall_cons in IH as [Hs Hss]. by repeat constructor.
Qed.

Lemma split_on_app sep a b : split_on sep (a ++ sep :: b) = split_on sep a ++ split_on sep b.
Proof.
  induction a as [|x a IH]; simpl; [by rewrite Z.eqb_refl|]. rewrite IH.
  destruct (split_on_cons sep a) as (s & ss & E). rewrite E. simpl. by destruct (x =? sep).
Qed.

(** ** Counting the members of a list of threads or guards *)

Fixpoint number {A} (f : A -> bool) (l : list A) : Z :=
  match l with [] => 0 | t :: l => Z.b2z (f t) + number f l end.

Lemma number_app {A} (f : A -> bool) (l k : list A) : number f (l ++ k) = number f l + number f k.
Proof. induction l as [|t l IH]; cbn [number app]; lia. Qed.

Lemma number_insert {A} (f : A -> bool) (l : list A) i t t' : l !! i = Some t -> number f (<[i := t']> l) = number f l - Z.b2z (f t) + Z.b2z (f t').
Proof.
  revert i. induction l as [|u l IH]; intros [|i] H; simplify_eq/=; [lia|]. specialize (IH i H). lia.
Qed.

Lemma number_bounds {A} (f : A -> bool) (l : list A) : 0 <= number f l <= Z.of_nat (length l).
Proof. induction l as [|t l IH]; cbn [number length]; [lia|]. destruct (f t); cbn [Z.b2z]; lia. Qed.

Lemma number_zero {A} (f : A -> bool) (l : list A) i t : number f l = 0 -> l !! i = Some t -> f t = false.
Proof.
  revert i. induction l as [|u l IH]; intros [|i]; cbn; intros Hn H; try done; assert (Hb := number_bounds f l).
  - injection H as <-. destruct (f u); cbn [Z.b2z] in Hn; [lia|done].
  - apply (IH i); [|done]. destruct (f u); cbn [Z.b2z] in Hn; lia.
Qed.

Lemma number_pos {A} (f : A -> bool) (l : list A) i t : l !! i = Some t -> f t = true -> 1 <= number f l.
Proof.
  intros H Hf. assert (Hb := number_bounds f l). destruct (Z.eq_dec (number f l) 0) as [E|]; [|lia].
  by rewrite (number_zero f l i t E H) in Hf.
Qed.
