(* ===== verification/Utf8.v ===== *)
(** * UTF-8 validation

    [std::str::from_utf8] of the Rust standard library, which the gateway
    relies on wherever raw bytes become a [str]: the last step of
    [canonicalize] (policy paths), the v1 PROXY header line, and forwarded-address
    header entries.
    [utf8_check] follows the validation state machine of [core::str]
    sequence by sequence and reports what [Utf8Error::error_len] reports. *)

From S2P Require Import Prelude.

(** The outcome of validating a byte string: valid, or the [error_len] of the
    first error ([None]: the input ends inside a sequence). *)
Inductive utf8_result :=
| Utf8Valid
| Utf8Error (error_len : option Z).

Definition is_cont (b : Z) : bool := (128 <=? b) && (b <=? 191).

(** Second-byte ranges of the three-byte sequences. *)
Definition second_of_3 (b0 b1 : Z) : bool :=
  ((b0 =? 224) && ((160 <=? b1) && (b1 <=? 191)))
  || (((225 <=? b0) && (b0 <=? 236)) && is_cont b1)
  || ((b0 =? 237) && ((128 <=? b1) && (b1 <=? 159)))
  || (((238 <=? b0) && (b0 <=? 239)) && is_cont b1).

(** Second-byte ranges of the four-byte sequences. *)
Definition second_of_4 (b0 b1 : Z) : bool :=
  ((b0 =? 240) && ((144 <=? b1) && (b1 <=? 191)))
  || (((241 <=? b0) && (b0 <=? 243)) && is_cont b1)
  || ((b0 =? 244) && ((128 <=? b1) && (b1 <=? 143))).

(** [UTF8_CHAR_WIDTH]. *)
Definition utf8_char_width (b : Z) : Z :=
  if b <? 128 then 1
  else if (194 <=? b) && (b <=? 223) then 2
  else if (224 <=? b) && (b <=? 239) then 3
  else if (240 <=? b) && (b <=? 244) then 4
  else 0.

Fixpoint utf8_check (l : bytes) : utf8_result :=
  match l with
  | [] => Utf8Valid
  | b0 :: l1 =>
    let w := utf8_char_width b0 in
    if w =? 1 then utf8_check l1
    else if w =? 2 then
      match l1 with
      | [] => Utf8Error None
      | b1 :: l2 =>
        if is_cont b1 then utf8_check l2 else Utf8Error (Some 1)
      end
    else if w =? 3 then
      match l1 with
      | [] => Utf8Error None
      | b1 :: l2 =>
        if second_of_3 b0 b1 then
          match l2 with
          | [] => Utf8Error None
          | b2 :: l3 =>
            if is_cont b2 then utf8_check l3 else Utf8Error (Some 2)
          end
        else Utf8Error (Some 1)
      end
    else if w =? 4 then
      match l1 with
      | [] => Utf8Error None
      | b1 :: l2 =>
        if second_of_4 b0 b1 then
          match l2 with
          | [] => Utf8Error None
          | b2 :: l3 =>
            if is_cont b2 then
              match l3 with
              | [] => Utf8Error None
              | b3 :: l4 =>
                if is_cont b3 then utf8_check l4 else Utf8Error (Some 3)
              end
            else Utf8Error (Some 2)
          end
        else Utf8Error (Some 1)
      end
    else Utf8Error (Some 1)
  end.

(** The bytes of a Rust [str]. *)
Definition is_str (l : bytes) : Prop := utf8_check l = Utf8Valid.

Definition from_utf8 (l : bytes) : option bytes :=
  match utf8_check l with
  | Utf8Valid => Some l
  | Utf8Error _ => None
  end.

#[global] Instance utf8_result_eq_dec : EqDecision utf8_result.
Proof. solve_decision. Defined.

#[global] Instance is_str_dec l : Decision (is_str l).
Proof. unfold is_str. apply _. Defined.

Definition is_ascii (b : Z) : Prop := b < 128.

(** ** Facts the clients use *)

Lemma utf8_ascii_cons b l : is_ascii b -> utf8_check (b :: l) = utf8_check l.
Proof.
  unfold is_ascii; intros; simpl. unfold utf8_char_width.
  destruct (Z.ltb_spec b 128); [done | lia].
Qed.

Lemma is_str_ascii_cons b l : is_ascii b -> is_str (b :: l) <-> is_str l.
Proof. intros; unfold is_str. by rewrite utf8_ascii_cons. Qed.

Lemma is_str_ascii l : Forall is_ascii l -> is_str l.
Proof.
  induction 1; [done|]. by apply is_str_ascii_cons.
Qed.

(** A valid string starts with one complete sequence; the bytes of a
    multi-byte sequence are all non-ASCII. This is the induction principle for
    code that copies a [str] byte by byte. *)
Lemma is_str_inv b l :
  is_str (b :: l) ->
  (is_ascii b /\ is_str l) \/
  exists seq rest, l = seq ++ rest /\ seq <> [] /\ Forall (fun c => ~ is_ascii c) (b :: seq)
    /\ is_str rest
    /\ forall rest', is_str rest' -> is_str (b :: seq ++ rest').
Proof.
  unfold is_str, is_ascii; simpl.
  assert (Hc : forall c, is_cont c = true -> ~ c < 128)
    by (unfold is_cont; intros c; zcases; lia).
  assert (H3 : forall a c, second_of_3 a c = true -> ~ c < 128)
    by (unfold second_of_3, is_cont; intros a c; zcases).
  assert (H4 : forall a c, second_of_4 a c = true -> ~ c < 128)
    by (unfold second_of_4, is_cont; intros a c; zcases).
  assert (Hw : utf8_char_width b <> 1 -> ~ b < 128)
    by (unfold utf8_char_width; zcases).
  assert (Hw' : utf8_char_width b = 1 -> b < 128)
    by (unfold utf8_char_width; intros; zcases).
  destruct (Z.eqb_spec (utf8_char_width b) 1) as [E1|E1]; [auto|].
  intros H; right. repeat (case_match; try discriminate).
  - eexists [_], _; simpl; split_and!; eauto. repeat constructor; eauto.
    intros; by repeat (case_match; try congruence).
  - eexists [_; _], _; simpl; split_and!; eauto. repeat constructor; eauto.
    intros; by repeat (case_match; try congruence).
  - eexists [_; _; _], _; simpl; split_and!; eauto. repeat constructor; eauto.
    intros; by repeat (case_match; try congruence).
Qed.

Lemma is_str_app a b : is_str a -> is_str b -> is_str (a ++ b).
Proof.
  remember (length a) as n eqn:Hn.
  revert a Hn; induction n as [n IH] using lt_wf_ind; intros [|x a] Hn Ha Hb; [done|].
  simpl in *; apply is_str_inv in Ha as [[Hx Ha]|(seq & rest & -> & ? & ? & Hr & Hall)].
  - apply is_str_ascii_cons; [done|]. eapply IH; [|done..]. lia.
  - rewrite <- app_assoc. apply Hall. eapply IH; [|done..].
    rewrite length_app in Hn. lia.
Qed.

(** ** [str::trim]

    The encodings of the characters with the Unicode property [White_Space]. *)

Definition whitespace_encodings : list bytes :=
  [[9]; [10]; [11]; [12]; [13]; [32]; [194; 133]; [194; 160]; [225; 154; 128]]
  ++ map (fun x => [226; 128; 128 + x]) [0; 1; 2; 3; 4; 5; 6; 7; 8; 9; 10; 40; 41; 47]
  ++ [[226; 129; 159]; [227; 128; 128]].

(** Drop the longest run of patterns at the front; each round drops a byte at
    least, so the length is enough fuel. *)
Definition strip_one (patterns : list bytes) (l : bytes) : option bytes :=
  match list_find (fun p => p `prefix_of` l) patterns with
  | Some (_, p) => Some (drop (length p) l)
  | None => None
  end.

Fixpoint strip_front (fuel : nat) (patterns : list bytes) (l : bytes) : bytes :=
  match fuel with
  | O => l
  | S fuel =>
    match strip_one patterns l with
    | Some l => strip_front fuel patterns l
    | None => l
    end
  end.

Definition trim_start (l : bytes) : bytes := strip_front (length l) whitespace_encodings l.

Definition trim_end (l : bytes) : bytes :=
  rev (strip_front (length l) (map (@rev Z) whitespace_encodings) (rev l)).

Definition trim (l : bytes) : bytes := trim_end (trim_start l).

Example trim_examples :
  trim (bs " a b ") = bs "a b" /\ trim (bs "  ") = [] /\ trim (226 :: 128 :: 131 :: bs "x" ++ [194; 160]) = bs "x".
Proof. vm_compute. repeat split. Qed.

Lemma strip_front_sub fuel patterns l : exists n, strip_front fuel patterns l = drop n l.
Proof.
  revert l; induction fuel as [|fuel IH]; intros l; simpl; [by exists 0%nat|]. unfold strip_one.
  destruct (list_find (fun p => p `prefix_of` l) patterns) as [[i p]|]; [|by exists 0%nat].
  destruct (IH (drop (length p) l)) as [n Hn]. exists (length p + n)%nat. by rewrite Hn, drop_drop.
Qed.

Lemma trim_Forall (P : Z -> Prop) l : Forall P l -> Forall P (trim l).
Proof.
  intros H. unfold trim, trim_end, trim_start.
  destruct (strip_front_sub (length l) whitespace_encodings l) as [n ->].
  destruct (strip_front_sub (length (drop n l)) (map (@rev Z) whitespace_encodings) (rev (drop n l))) as [k ->].
  apply Forall_rev, Forall_drop, Forall_rev, Forall_drop, H.
Qed.

Lemma strip_front_keeps fuel patterns b l :
  (forall p, p ∈ patterns -> b ∉ p) -> b ∈ l -> b ∈ strip_front fuel patterns l.
Proof.
  intros Hp. revert l. induction fuel as [|fuel IH]; intros l Hin; simpl; [done|]. unfold strip_one.
  destruct (list_find (fun p => p `prefix_of` l) patterns) as [[i p]|] eqn:E; [|done].
  apply list_find_Some in E as (Hi & [k ->] & _). rewrite drop_app_length. apply IH.
  apply elem_of_app in Hin as [Hin|]; [|done]. exfalso. eapply Hp; [by eapply list_elem_of_lookup_2|done].
Qed.

(** Trimming keeps every byte that starts or continues no white space. *)
Lemma trim_keeps b l : Forall (fun p => b ∉ p) whitespace_encodings -> b ∈ l -> b ∈ trim l.
Proof.
  intros HF Hin. rewrite Forall_forall in HF. unfold trim, trim_end, trim_start.
  apply list_elem_of_In, in_rev. rewrite rev_involutive. apply list_elem_of_In. apply strip_front_keeps.
  - intros p (q & -> & Hq)%list_elem_of_fmap. intros Hb. apply (HF q Hq).
    apply list_elem_of_In. apply list_elem_of_In in Hb. by apply in_rev.
  - apply list_elem_of_In. rewrite <- in_rev. apply list_elem_of_In. apply strip_front_keeps; [done|done].
Qed.
