(* ===== verification/Decimal.v ===== *)
(** * Decimal text of unsigned integers

    [format!] of an unsigned integer and [str::parse] to one, as the Rust
    standard library defines them; shared by the runtime keys, the PROXY v1
    header and the address texts. *)

From S2P Require Import Prelude.

Fixpoint dec_digits (fuel : nat) (n : Z) (acc : bytes) : bytes :=
  match fuel with
  | O => acc
  | S fuel =>
    let acc := (48 + n mod 10) :: acc in
    if n <? 10 then acc else dec_digits fuel (n / 10) acc
  end.

(** [format!("{n}")] for an unsigned [n]; its bit length bounds its digits. *)
Definition show_dec (n : Z) : bytes := dec_digits (S (Z.to_nat (Z.log2 n))) n [].

(** [u*::from_str]: an optional plus sign, then digits accumulated with
    overflow checks against the type's maximum. *)
Fixpoint parse_digits (max acc : Z) (l : bytes) : option Z :=
  match l with
  | [] => Some acc
  | b :: l =>
    if is_ascii_digit b then
      let acc := acc * 10 + (b - 48) in
      if acc <=? max then parse_digits max acc l else None
    else None
  end.

Definition parse_uint (w : Z) (l : bytes) : option Z :=
  match l with
  | [] => None
  | b :: rest =>
    if b =? 43 then match rest with [] => None | _ => parse_digits (umax w) 0 rest end
    else parse_digits (umax w) 0 l
  end.

Definition all_digits (l : bytes) : bool := forallb is_ascii_digit l.

(** The number a digit string denotes, continuing from [acc]. *)
Definition dec_value (acc : Z) (l : bytes) : Z := foldl (fun a b => a * 10 + (b - 48)) acc l.

Lemma is_ascii_digit_spec b : is_ascii_digit b = true <-> 48 <= b <= 57.
Proof. unfold is_ascii_digit. rewrite andb_true_iff, !Z.leb_le. lia. Qed.

Lemma dec_value_ge acc l : 0 <= acc -> all_digits l = true -> acc <= dec_value acc l.
Proof.
  revert acc; induction l as [|b l IH]; simpl; intros acc H0 Hd; [lia|].
  apply andb_true_iff in Hd as [Hb%is_ascii_digit_spec Hl].
  unfold dec_value in *; simpl. etransitivity; [|apply IH; [lia|done]]. lia.
Qed.

Lemma parse_digits_spec max l : forall acc, 0 <= acc ->
  parse_digits max acc l =
    if all_digits l && ((dec_value acc l <=? max) || bool_decide (l = []))
    then Some (dec_value acc l) else None.
Proof.
  induction l as [|b l IH]; intros acc H0; simpl.
  { rewrite orb_true_r; done. }
  destruct (is_ascii_digit b) eqn:Hb; simpl; [|done]. apply is_ascii_digit_spec in Hb.
  rewrite IH by lia. change (dec_value acc (b :: l)) with (dec_value (acc * 10 + (b - 48)) l).
  destruct (all_digits l) eqn:Hl; simpl; [|by destruct (_ <=? _)].
  rewrite orb_false_r. assert (Hge := dec_value_ge (acc * 10 + (b - 48)) l).
  destruct (Z.leb_spec (acc * 10 + (b - 48)) max).
  - destruct l; simpl; [|by rewrite orb_false_r].
    unfold dec_value; simpl. destruct (Z.leb_spec (acc * 10 + (b - 48)) max); [done|lia].
  - destruct (Z.leb_spec (dec_value (acc * 10 + (b - 48)) l) max); [|done].
    assert (acc * 10 + (b - 48) <= dec_value (acc * 10 + (b - 48)) l) by (apply Hge; [lia|done]). lia.
Qed.

Lemma dec_digits_S fuel n acc :
  dec_digits (S fuel) n acc
  = if n <? 10 then (48 + n mod 10) :: acc else dec_digits fuel (n / 10) ((48 + n mod 10) :: acc).
Proof. done. Qed.

Lemma dec_digits_spec fuel : forall n acc, 0 <= n < 2 ^ Z.of_nat fuel ->
  exists ds, dec_digits fuel n acc = ds ++ acc /\ all_digits ds = true
  /\ dec_value 0 ds = n /\ (0 < Z.of_nat fuel -> ds <> []).
Proof.
  induction fuel as [|fuel IH]; intros n acc Hn.
  { exists []. assert (n = 0) by (simpl in Hn; lia). subst. by split_and!. }
  assert (Hd : 48 <= 48 + n mod 10 <= 57) by (assert (H := Z.mod_pos_bound n 10); lia).
  rewrite dec_digits_S. destruct (Z.ltb_spec n 10).
  - exists [48 + n mod 10]. split_and!; [done| | |done].
    + simpl. by rewrite (proj2 (is_ascii_digit_spec _) Hd).
    + unfold dec_value; simpl. rewrite Z.mod_small; lia.
  - destruct (IH (n / 10) ((48 + n mod 10) :: acc)) as (ds & -> & Hds & Hv & _).
    { rewrite Nat2Z.inj_succ, Z.pow_succ_r in Hn by lia.
      split; [apply Z.div_pos; lia|apply Z.div_lt_upper_bound; lia]. }
    exists (ds ++ [48 + n mod 10]). rewrite <- app_assoc. split_and!; [done| | |by destruct ds].
    + unfold all_digits in *. rewrite forallb_app, Hds; simpl.
      by rewrite (proj2 (is_ascii_digit_spec _) Hd).
    + unfold dec_value in *. rewrite foldl_app, Hv; simpl.
      assert (Hdm := Z.div_mod n 10). lia.
Qed.

Lemma show_dec_spec n :
  0 <= n -> all_digits (show_dec n) = true /\ dec_value 0 (show_dec n) = n /\ show_dec n <> [].
Proof.
  intros Hn. unfold show_dec.
  destruct (dec_digits_spec (S (Z.to_nat (Z.log2 n))) n []) as (ds & -> & Hd & Hv & Hne).
  - split; [done|]. rewrite Nat2Z.inj_succ, Z2Nat.id by apply Z.log2_nonneg.
    destruct (Z.eq_dec n 0) as [->|]; [done|]. apply Z.log2_spec; lia.
  - rewrite app_nil_r. split_and!; [done|done|]. apply Hne. lia.
Qed.

Lemma show_dec_inj a b : 0 <= a -> 0 <= b -> show_dec a = show_dec b -> a = b.
Proof.
  intros Ha Hb E. destruct (show_dec_spec a Ha) as (_ & Ea & _).
  destruct (show_dec_spec b Hb) as (_ & Eb & _). congruence.
Qed.

Lemma all_digits_not_in b l : is_ascii_digit b = false -> all_digits l = true -> b ∉ l.
Proof.
  intros Hb Hl Hin. unfold all_digits in Hl. rewrite forallb_forall in Hl.
  specialize (Hl b (proj1 (list_elem_of_In _ _) Hin)). congruence.
Qed.

(** Printing then parsing returns the number, when it fits the type. *)
Lemma parse_show w n : in_width w n -> parse_uint w (show_dec n) = Some n.
Proof.
  intros [H0 Hlt]. destruct (show_dec_spec n H0) as (Hd & Hv & Hne).
  unfold parse_uint. destruct (show_dec n) as [|b l] eqn:E; [done|].
  assert (Hb : is_ascii_digit b = true) by (simpl in Hd; by apply andb_true_iff in Hd as [? _]).
  destruct (Z.eqb_spec b 43) as [->|]; [done|].
  rewrite parse_digits_spec by lia. rewrite Hd, Hv; simpl. unfold umax.
  destruct (Z.leb_spec n (2 ^ w - 1)); [done|lia].
Qed.
