(* ===== verification/PolicyPath.v ===== *)
(** * Canonical policy paths ([src/src/policy_path.rs])

    The canonicalizer every request target passes before routing, policy and
    forwarding. A path is a list of bytes; [Cow] keeps whether the result
    borrows the input. The main results: acceptance is characterised exactly
    ([canonicalize] agrees with a specification over [percent_decode] and path
    segments), the canonical form carries no escape, backslash or dot segment
    and keeps the segment structure of the raw target, the function is
    idempotent, and the final UTF-8 conversion cannot fail. *)

From S2P Require Import Prelude Utf8.

Inductive PolicyPathRejection :=
| InvalidEscape
| DoubleEncoding
| EncodedSeparator
| EncodedBackslash
| LiteralBackslash
| EncodedControl
| UnrepresentableEscape
| AmbiguousDotSegment
| LiteralDotSegment.

#[global] Instance PolicyPathRejection_eq_dec : EqDecision PolicyPathRejection.
Proof. solve_decision. Defined.

Definition reason (r : PolicyPathRejection) : string :=
  match r with
  | InvalidEscape => "invalid_escape"
  | DoubleEncoding => "double_encoding"
  | EncodedSeparator => "encoded_separator"
  | EncodedBackslash => "encoded_backslash"
  | LiteralBackslash => "literal_backslash"
  | EncodedControl => "encoded_control"
  | UnrepresentableEscape => "unrepresentable_escape"
  | AmbiguousDotSegment => "ambiguous_dot_segment"
  | LiteralDotSegment => "literal_dot_segment"
  end.

(** ** Byte constants *)
Abbreviation PERCENT := 37.
Abbreviation SLASH := 47.
Abbreviation BACKSLASH := 92.
Abbreviation QUESTION := 63.
Abbreviation HASH := 35.
Abbreviation DOT := 46.

(** [build_decode_table]: the [pchar] bytes, entry by entry. The table is the
    predicate on the byte index. *)
Definition build_decode_table (byte : Z) : bool :=
  let unreserved :=
    is_ascii_alphanumeric byte
    || (byte =? 45) || (byte =? DOT) || (byte =? 95) || (byte =? 126) in
  let sub_delims :=
    (byte =? 33) || (byte =? 36) || (byte =? 38) || (byte =? 39) || (byte =? 40)
    || (byte =? 41) || (byte =? 42) || (byte =? 43) || (byte =? 44) || (byte =? 59)
    || (byte =? 61) in
  unreserved || sub_delims || (byte =? 58) || (byte =? 64).

Definition DECODE_TO_LITERAL (byte : Z) : bool := build_decode_table byte.

Definition hex_value (byte : Z) : option Z :=
  if is_ascii_digit byte then Some (byte - 48)
  else if (97 <=? byte) && (byte <=? 102) then Some (byte - 97 + 10)
  else if (65 <=? byte) && (byte <=? 70) then Some (byte - 65 + 10)
  else None.

Inductive LiteralStructure := Enforced | PatternOnly.

Definition is_enforced (s : LiteralStructure) : bool :=
  match s with Enforced => true | PatternOnly => false end.

Definition is_dot_segment (segment : bytes) : bool :=
  eqb_bytes segment [DOT] || eqb_bytes segment [DOT; DOT].

Definition check_segment (canonical : bytes) (segment_start : nat)
    (segment_has_escape : bool) (structure : LiteralStructure)
    : result unit PolicyPathRejection :=
  if is_enforced structure then
    if is_dot_segment (drop segment_start canonical) then
      Err (if segment_has_escape then AmbiguousDotSegment else LiteralDotSegment)
    else Ok tt
  else Ok tt.

Inductive Prescan := AlreadyCanonical | NeedsDecoding.

(** The body of the [while index < bytes.len()] scan; [rest] is
    [bytes[index..]]. *)
Fixpoint prescan_loop (bytes : bytes) (enforced : bool) (segment_start index : nat)
    (rest : list Z) : result Prescan PolicyPathRejection :=
  match rest with
  | [] =>
    if enforced && is_dot_segment (drop segment_start bytes)
    then Err LiteralDotSegment else Ok AlreadyCanonical
  | b :: rest' =>
    if b =? PERCENT then Ok NeedsDecoding
    else if (b =? BACKSLASH) && enforced then Err LiteralBackslash
    else if (b =? SLASH) && enforced then
      if is_dot_segment (take (index - segment_start) (drop segment_start bytes))
      then Err LiteralDotSegment
      else prescan_loop bytes enforced (index + 1) (index + 1) rest'
    else prescan_loop bytes enforced segment_start (index + 1) rest'
  end.

Definition prescan (bytes : bytes) (structure : LiteralStructure)
    : result Prescan PolicyPathRejection :=
  prescan_loop bytes (is_enforced structure) 0 0 bytes.

Inductive cow := Borrowed (s : bytes) | Owned (s : bytes).

Definition cow_str (c : cow) : bytes := match c with Borrowed s | Owned s => s end.

(** The [match value] of the decoding pass: which decoded byte is admitted. *)
Definition check_escape (value : Z) : result unit PolicyPathRejection :=
  if value =? PERCENT then Err DoubleEncoding
  else if (value =? SLASH) || (value =? QUESTION) || (value =? HASH) then Err EncodedSeparator
  else if value =? BACKSLASH then Err EncodedBackslash
  else if ((0 <=? value) && (value <=? 31)) || (value =? 127) then Err EncodedControl
  else if negb (DECODE_TO_LITERAL value) then Err UnrepresentableEscape
  else Ok tt.

(** The decoding pass; [rest] is [bytes[index..]]. *)
Fixpoint decode_loop (structure : LiteralStructure) (canonical : bytes)
    (segment_start : nat) (segment_has_escape : bool) (rest : list Z)
    : result bytes PolicyPathRejection :=
  match rest with
  | [] =>
    let? _ := check_segment canonical segment_start segment_has_escape structure in
    Ok canonical
  | byte :: rest1 =>
    if byte =? SLASH then
      let? _ := check_segment canonical segment_start segment_has_escape structure in
      let canonical' := canonical ++ [SLASH] in
      decode_loop structure canonical' (length canonical') false rest1
    else if (byte =? BACKSLASH) && is_enforced structure then Err LiteralBackslash
    else if negb (byte =? PERCENT) then
      decode_loop structure (canonical ++ [byte]) segment_start segment_has_escape rest1
    else
      match rest1 with
      | high :: low :: rest3 =>
        match hex_value high, hex_value low with
        | Some high, Some low =>
          let value := Z.lor (Z.shiftl high 4) low in
          let? _ := check_escape value in
          decode_loop structure (canonical ++ [value]) segment_start true rest3
        | _, _ => Err InvalidEscape
        end
      | _ => Err InvalidEscape
      end
  end.

Definition canonicalize (raw : bytes) (structure : LiteralStructure)
    : result cow PolicyPathRejection :=
  let? p := prescan raw structure in
  match p with
  | AlreadyCanonical => Ok (Borrowed raw)
  | NeedsDecoding =>
    let? canonical := decode_loop structure [] 0 false raw in
    match from_utf8 canonical with
    | Some s => Ok (Owned s)
    | None => Err UnrepresentableEscape
    end
  end.

Definition canonicalize_policy_path (raw : bytes) : result cow PolicyPathRejection :=
  canonicalize raw Enforced.

Definition reason_for (r : result cow PolicyPathRejection) : option string :=
  match r with
  | Ok (Borrowed _) => None
  | Ok (Owned _) => Some "percent-escapes that canonicalize to a different path"
  | Err rejection => Some (reason rejection)
  end.

Definition non_canonical_policy_path_reason (path : bytes) : option string :=
  reason_for (canonicalize path Enforced).

Definition non_canonical_policy_path_pattern_reason (pattern : bytes) : option string :=
  reason_for (canonicalize pattern PatternOnly).

Example canonicalize_admin :
  canonicalize_policy_path (bs "/%61dmin/x") = Ok (Owned (bs "/admin/x")).
Proof. reflexivity. Qed.
Example canonicalize_dots :
  canonicalize_policy_path (bs "/a/%2e%2E/b") = Err AmbiguousDotSegment
  /\ canonicalize_policy_path (bs "/a/../b") = Err LiteralDotSegment
  /\ canonicalize_policy_path (bs "/a%20/b") = Err UnrepresentableEscape
  /\ canonicalize_policy_path (bs "/a/b.c") = Ok (Borrowed (bs "/a/b.c")).
Proof. repeat split; reflexivity. Qed.

(** ** Specification

    [decode_checked] decodes a whole string, insisting that every escape is
    complete and names an admitted byte; [accept] adds the dot-segment rule
    over the segments of the decoded string. *)

Definition escape_byte (high low : Z) : option Z :=
  match hex_value high, hex_value low with
  | Some high, Some low =>
    let value := Z.lor (Z.shiftl high 4) low in
    if is_ok (check_escape value) then Some value else None
  | _, _ => None
  end.

Fixpoint decode_checked (enforced : bool) (l : bytes) : option bytes :=
  match l with
  | [] => Some []
  | b :: l1 =>
    if b =? PERCENT then
      match l1 with
      | high :: low :: l3 =>
        match escape_byte high low with
        | Some v => cons v <$> decode_checked enforced l3
        | None => None
        end
      | _ => None
      end
    else if (b =? BACKSLASH) && enforced then None
    else cons b <$> decode_checked enforced l1
  end.

Definition has_dot_segment (l : bytes) : bool := existsb is_dot_segment (split_on SLASH l).

(** What remains to be accepted after [seg], the open segment. *)
Definition accept_from (structure : LiteralStructure) (seg rest : bytes) : option bytes :=
  match decode_checked (is_enforced structure) rest with
  | Some d =>
    if is_enforced structure && has_dot_segment (seg ++ d) then None else Some d
  | None => None
  end.

Definition accept (structure : LiteralStructure) (raw : bytes) : option bytes :=
  accept_from structure [] raw.

(** ** The decoding pass refines the specification *)

Definition ok_option {A E} (r : result A E) : option A :=
  match r with Ok a => Some a | Err _ => None end.

Lemma has_dot_segment_sep p d :
  SLASH ∉ p -> has_dot_segment (p ++ SLASH :: d) = is_dot_segment p || has_dot_segment d.
Proof. intros; unfold has_dot_segment. by rewrite split_on_sep. Qed.

Lemma has_dot_segment_free p : SLASH ∉ p -> has_dot_segment p = is_dot_segment p.
Proof. intros; unfold has_dot_segment. rewrite split_on_free by done. simpl. by rewrite orb_false_r. Qed.

Lemma check_escape_ok v : is_ok (check_escape v) = true ->
  v <> SLASH /\ v <> PERCENT /\ v <> BACKSLASH /\ 32 <= v < 127.
Proof.
  unfold check_escape, DECODE_TO_LITERAL, build_decode_table, is_ascii_alphanumeric,
    is_ascii_digit, is_ascii_lower, is_ascii_upper.
  intros H. repeat (case_match; try discriminate). zcases.
Qed.

Lemma escape_byte_ok h l v : escape_byte h l = Some v ->
  v <> SLASH /\ v <> PERCENT /\ v <> BACKSLASH /\ 32 <= v < 127.
Proof.
  unfold escape_byte; intros; split_matches. by apply check_escape_ok.
Qed.

Lemma decode_loop_spec structure rest : forall pre seg esc,
  SLASH ∉ seg ->
  ok_option (decode_loop structure (pre ++ seg) (length pre) esc rest)
  = (fun d => pre ++ seg ++ d) <$> accept_from structure seg rest.
Proof.
  induction rest as [|b l IH] using list_length_ind; intros pre seg esc Hseg.
  - cbn [decode_loop]. unfold check_segment, accept_from; simpl. rewrite !app_nil_r, drop_app_length.
    rewrite has_dot_segment_free by done.
    destruct structure; simpl; [destruct (is_dot_segment seg)|]; simpl; by rewrite ?app_nil_r.
  - cbn [decode_loop]. unfold accept_from; simpl.
    destruct (Z.eqb_spec b SLASH) as [->|Hslash].
    + simpl. unfold check_segment. rewrite drop_app_length, length_app. simpl.
      assert (IH' := IH l ltac:(lia) ((pre ++ seg) ++ [SLASH]) [] false ltac:(set_solver)).
      rewrite app_nil_r, !length_app in IH'. simpl in IH'. unfold accept_from in IH'.
      destruct structure; simpl in *.
      * destruct (is_dot_segment seg) eqn:Hdot; simpl.
        { destruct (decode_checked true l); simpl; [|done].
          by rewrite has_dot_segment_sep, Hdot. }
        rewrite length_app. rewrite IH'. destruct (decode_checked true l); simpl; [|done].
        rewrite has_dot_segment_sep, Hdot by done; simpl.
        destruct (has_dot_segment _); simpl; [done|]. by rewrite <- !app_assoc.
      * rewrite length_app. rewrite IH'. destruct (decode_checked false l); simpl; [|done].
        by rewrite <- !app_assoc.
    + destruct (Z.eqb_spec b BACKSLASH) as [->|Hback]; simpl.
      { destruct structure; simpl; [done|].
        rewrite <- app_assoc, IH by (lia || set_solver). unfold accept_from; simpl.
        destruct (decode_checked false l); simpl; [|done]. by rewrite <- !app_assoc. }
      destruct (Z.eqb_spec b PERCENT) as [->|Hpct]; simpl.
      * destruct l as [|h [|lo l]]; simpl; [done..|].
        unfold escape_byte. destruct (hex_value h), (hex_value lo); simpl; try done.
        set (v := Z.lor _ _). destruct (check_escape v) eqn:Hv; simpl; [|done].
        assert (Hv' := check_escape_ok v). rewrite Hv in Hv'. simpl in Hv'.
        rewrite <- app_assoc, IH by (simpl; (lia || set_solver)).
        unfold accept_from. destruct (decode_checked _ l); simpl; [|done].
        rewrite <- app_assoc; simpl. case_match; simpl; [done|]. by rewrite <- !app_assoc.
      * rewrite <- app_assoc, IH by (lia || set_solver).
        unfold accept_from. destruct (decode_checked _ l); simpl; [|done].
        rewrite <- app_assoc; simpl. case_match; simpl; [done|]. by rewrite <- !app_assoc.
Qed.

(** ** The pre-scan agrees with the decoding pass *)

Lemma decode_checked_plain enforced l :
  PERCENT ∉ l -> (enforced = true -> BACKSLASH ∉ l) -> decode_checked enforced l = Some l.
Proof.
  induction l as [|b l IH]; simpl; intros Hp Hb; [done|].
  destruct (Z.eqb_spec b PERCENT); [set_solver|].
  rewrite IH by set_solver. destruct (Z.eqb_spec b BACKSLASH); [|done].
  destruct enforced; [set_solver|done].
Qed.

Lemma prescan_loop_pattern bytes start index rest :
  prescan_loop bytes false start index rest
  = Ok (if decide (PERCENT ∈ rest) then NeedsDecoding else AlreadyCanonical).
Proof.
  revert index; induction rest as [|b l IH]; intros; cbn [prescan_loop]; [done|].
  rewrite !andb_false_r, IH. destruct (Z.eqb_spec b PERCENT) as [->|].
  - by rewrite decide_True by set_solver.
  - f_equal. by apply decide_ext; set_solver.
Qed.

(** The outcome of the enforced scan over [rest] with open segment [seg]. *)
Definition prescan_ok (seg rest : bytes) (r : result Prescan PolicyPathRejection) : Prop :=
  match r with
  | Ok NeedsDecoding => PERCENT ∈ rest
  | Ok AlreadyCanonical => PERCENT ∉ rest /\ accept_from Enforced seg rest = Some rest
  | Err _ => accept_from Enforced seg rest = None
  end.

Lemma accept_from_cons seg b rest :
  b <> PERCENT -> b <> BACKSLASH ->
  accept_from Enforced seg (b :: rest) = cons b <$> accept_from Enforced (seg ++ [b]) rest.
Proof.
  intros. unfold accept_from; simpl.
  destruct (Z.eqb_spec b PERCENT); [done|]. destruct (Z.eqb_spec b BACKSLASH); [done|]. simpl.
  destruct (decode_checked true rest); simpl; [|done]. rewrite <- app_assoc. simpl.
  by case_match.
Qed.

Lemma accept_from_slash seg rest :
  SLASH ∉ seg ->
  accept_from Enforced seg (SLASH :: rest)
  = if is_dot_segment seg then None else cons SLASH <$> accept_from Enforced [] rest.
Proof.
  intros. unfold accept_from; simpl.
  destruct (decode_checked true rest); simpl; [|by case_match].
  rewrite has_dot_segment_sep by done. destruct (is_dot_segment seg); simpl; [done|].
  by case_match.
Qed.

Lemma prescan_loop_spec rest : forall bytes pre seg,
  bytes = pre ++ seg ++ rest -> SLASH ∉ seg ->
  prescan_ok seg rest
    (prescan_loop bytes true (length pre) (length pre + length seg) rest).
Proof.
  induction rest as [|b l IH]; intros bytes pre seg -> Hseg; cbn [prescan_loop].
  - rewrite app_nil_r, drop_app_length. simpl. unfold prescan_ok, accept_from; simpl.
    rewrite app_nil_r, has_dot_segment_free by done.
    destruct (is_dot_segment seg); set_solver.
  - destruct (Z.eqb_spec b PERCENT) as [->|Hpct]; [simpl; set_solver|].
    destruct (Z.eqb_spec b BACKSLASH) as [->|Hback]; [done|]. simpl.
    destruct (Z.eqb_spec b SLASH) as [->|Hslash]; simpl.
    + replace (length pre + length seg - length pre)%nat with (length seg) by lia.
      rewrite drop_app_length, take_app_length.
      unfold prescan_ok. rewrite !accept_from_slash by done.
      destruct (is_dot_segment seg); [done|].
      assert (IH' := IH ((pre ++ seg ++ [SLASH]) ++ [] ++ l) (pre ++ seg ++ [SLASH]) [] eq_refl
        ltac:(set_solver)).
      rewrite !length_app in IH'; simpl in IH'. rewrite <- !app_assoc in IH'; simpl in IH'.
      replace (length pre + (length seg + 1) + 0)%nat with (length pre + length seg + 1)%nat in IH' by lia.
      replace (length pre + (length seg + 1))%nat with (length pre + length seg + 1)%nat in IH' by lia.
      unfold prescan_ok in IH'. case_match; [case_match|]; simpl in *; [|set_solver|by rewrite IH'].
      destruct IH' as [? ->]. set_solver.
    + assert (IH' := IH (pre ++ (seg ++ [b]) ++ l) pre (seg ++ [b]) eq_refl ltac:(set_solver)).
      rewrite <- !app_assoc in IH'; simpl in IH'. rewrite length_app in IH'; simpl in IH'.
      replace (length pre + length seg + 1)%nat with (length pre + (length seg + 1))%nat by lia.
      unfold prescan_ok in *. rewrite accept_from_cons by done.
      case_match; [case_match|]; simpl in *; [|set_solver|by rewrite IH'].
      destruct IH' as [? ->]. set_solver.
Qed.

(** ** The UTF-8 conversion cannot fail *)

Lemma hex_value_ascii b v : hex_value b = Some v -> is_ascii b /\ 0 <= v < 16.
Proof.
  unfold hex_value, is_ascii_digit, is_ascii. intros; zcases; naive_solver lia.
Qed.

Lemma decode_checked_prefix enforced seq rest :
  Forall (fun c => ~ is_ascii c) seq ->
  decode_checked enforced (seq ++ rest) = (fun d => seq ++ d) <$> decode_checked enforced rest.
Proof.
  unfold is_ascii. induction 1 as [|c seq Hc Hseq IH]; simpl.
  - by destruct (decode_checked enforced rest).
  - destruct (Z.eqb_spec c PERCENT); [lia|]. destruct (Z.eqb_spec c BACKSLASH); [lia|]. simpl.
    rewrite IH. by destruct (decode_checked enforced rest).
Qed.

Lemma decode_checked_str enforced raw d :
  is_str raw -> decode_checked enforced raw = Some d -> is_str d.
Proof.
  revert d; induction raw as [|b l IH] using list_length_ind; intros d Hs Hd.
  - by simplify_eq/=.
  - apply is_str_inv in Hs as [[Hb Hl]|(seq & rest & -> & _ & Hna & Hrest & Hall)].
    + simpl in Hd. destruct (Z.eqb_spec b PERCENT).
      * destruct l as [|h [|lo l]]; try done.
        destruct (escape_byte h lo) as [v|] eqn:Ev; [|done].
        assert (Hv := escape_byte_ok _ _ _ Ev).
        destruct (decode_checked enforced l) eqn:El; simplify_eq/=.
        apply is_str_ascii_cons; [unfold is_ascii; lia|]. eapply (IH l); [simpl; lia| |done].
        unfold escape_byte in Ev. destruct (hex_value h) eqn:Eh, (hex_value lo) eqn:Elo; try done.
        apply hex_value_ascii in Eh as [? _], Elo as [? _].
        by rewrite !is_str_ascii_cons in Hl.
      * case_match; [done|]. destruct (decode_checked enforced l) eqn:El; simplify_eq/=.
        apply is_str_ascii_cons; [done|]. by eapply (IH l); [lia| |].
    + change (b :: seq ++ rest) with ((b :: seq) ++ rest) in Hd.
      rewrite decode_checked_prefix in Hd by done.
      destruct (decode_checked enforced rest) eqn:El; simplify_eq/=.
      apply Hall. eapply (IH rest); [rewrite length_app; lia|done|done].
Qed.

(** ** Properties of accepted paths *)

(** What a backend that percent-decodes reads, with no admission rule. *)
Fixpoint percent_decode (l : bytes) : option bytes :=
  match l with
  | [] => Some []
  | b :: l1 =>
    if b =? PERCENT then
      match l1 with
      | high :: low :: l3 =>
        match hex_value high, hex_value low with
        | Some high, Some low => cons (Z.lor (Z.shiftl high 4) low) <$> percent_decode l3
        | _, _ => None
        end
      | _ => None
      end
    else cons b <$> percent_decode l1
  end.

Lemma escape_byte_inv h lo v : escape_byte h lo = Some v ->
  exists vh vl, hex_value h = Some vh /\ hex_value lo = Some vl
    /\ v = Z.lor (Z.shiftl vh 4) vl /\ h <> SLASH /\ lo <> SLASH.
Proof.
  unfold escape_byte. destruct (hex_value h) eqn:Eh, (hex_value lo) eqn:El; try done.
  intros; split_matches. eexists _, _; split_and!; eauto.
  - intros ->; done.
  - intros ->; done.
Qed.

(** Segment [r] of the target decodes to segment [s] of the canonical path. *)
Definition decodes_to (r s : bytes) : Prop := percent_decode r = Some s.

Lemma decode_checked_segments enforced l d :
  decode_checked enforced l = Some d ->
  Forall2 decodes_to (split_on SLASH l) (split_on SLASH d).
Proof.
  unfold decodes_to.
  revert d; induction l as [|b l IH] using list_length_ind; intros d Hd; simpl in Hd.
  { simplify_eq. repeat constructor. }
  destruct (Z.eqb_spec b PERCENT) as [->|Hb].
  - destruct l as [|h [|lo l]]; try done.
    destruct (escape_byte h lo) as [v|] eqn:Ev; [|done].
    destruct (decode_checked enforced l) as [d'|] eqn:El; simplify_eq/=.
    destruct (escape_byte_inv _ _ _ Ev) as (vh & vl & Eh & Elo & -> & ? & ?).
    assert (Hv := escape_byte_ok _ _ _ Ev).
    assert (IH' := IH l ltac:(simpl; lia) _ El).
    repeat (rewrite (proj2 (Z.eqb_neq _ _)) by lia). simpl.
    destruct (split_on_cons SLASH l) as (s & ss & Es), (split_on_cons SLASH d') as (t & tt & Et).
    rewrite Es, Et in *. apply Forall2_cons in IH' as [IHs ?].
    constructor; [|done]. simpl. by rewrite Eh, Elo, IHs.
  - destruct ((b =? BACKSLASH) && enforced); [done|].
    destruct (decode_checked enforced l) as [d'|] eqn:El; simplify_eq/=.
    assert (IH' := IH l ltac:(lia) _ El).
    destruct (Z.eqb_spec b SLASH) as [->|].
    + by constructor.
    + destruct (split_on_cons SLASH l) as (s & ss & Es), (split_on_cons SLASH d') as (t & tt & Et).
      rewrite Es, Et in *. apply Forall2_cons in IH' as [IHs ?].
      constructor; [|done]. simpl. rewrite (proj2 (Z.eqb_neq _ _) Hb). by rewrite IHs.
Qed.

Lemma decode_checked_free enforced l d :
  decode_checked enforced l = Some d ->
  PERCENT ∉ d /\ (enforced = true -> BACKSLASH ∉ d).
Proof.
  revert d; induction l as [|b l IH] using list_length_ind; intros d Hd; simpl in Hd.
  { simplify_eq. set_solver. }
  destruct (Z.eqb_spec b PERCENT) as [->|Hb].
  - destruct l as [|h [|lo l]]; try done.
    destruct (escape_byte h lo) as [v|] eqn:Ev; [|done].
    destruct (decode_checked enforced l) as [d'|] eqn:El; simplify_eq/=.
    assert (Hv := escape_byte_ok _ _ _ Ev). apply IH in El; [|simpl; lia]. set_solver.
  - destruct (Z.eqb_spec b BACKSLASH), enforced; try done; simpl in Hd;
      destruct (decode_checked _ l) as [d'|] eqn:El; simplify_eq/=;
      apply IH in El; (lia || set_solver).
Qed.

Lemma accept_inv structure seg raw s :
  accept_from structure seg raw = Some s ->
  decode_checked (is_enforced structure) raw = Some s
  /\ (is_enforced structure = true -> has_dot_segment (seg ++ s) = false).
Proof.
  unfold accept_from. intros; split_matches.
  split; [done|]. intros E. by rewrite E in *.
Qed.

Lemma canonicalize_spec structure raw :
  is_str raw ->
  match canonicalize raw structure with
  | Ok (Borrowed s) => s = raw /\ PERCENT ∉ raw /\ accept structure raw = Some raw
  | Ok (Owned s) => PERCENT ∈ raw /\ accept structure raw = Some s
  | Err _ => accept structure raw = None
  end.
Proof.
  intros Hraw. unfold canonicalize, accept.
  assert (Hdec : forall (Hp : PERCENT ∈ raw),
    match (let? canonical := decode_loop structure [] 0 false raw in
           match from_utf8 canonical with
           | Some s => Ok (Owned s) | None => Err UnrepresentableEscape end) with
    | Ok (Borrowed s) => s = raw /\ PERCENT ∉ raw /\ accept_from structure [] raw = Some raw
    | Ok (Owned s) => PERCENT ∈ raw /\ accept_from structure [] raw = Some s
    | Err _ => accept_from structure [] raw = None
    end).
  { intros Hp. assert (H := decode_loop_spec structure raw [] [] false ltac:(set_solver)).
    simpl in H. destruct (decode_loop _ _ _ _ _) as [c|e]; simpl in *.
    - destruct (accept_from _ _ _) as [s|] eqn:Ha; simplify_eq/=.
      apply accept_inv in Ha as [Hd _]. unfold from_utf8.
      by rewrite (decode_checked_str _ _ _ Hraw Hd).
    - by destruct (accept_from _ _ _). }
  unfold prescan. destruct structure; simpl.
  - assert (H := prescan_loop_spec raw raw [] [] eq_refl ltac:(set_solver)). simpl in H.
    destruct (prescan_loop _ _ _ _ _) as [[]|]; simpl in *; [done|by apply Hdec|done].
  - rewrite prescan_loop_pattern; simpl. case_decide; [by apply Hdec|]. split_and!; [done..|].
    unfold accept_from; simpl. by rewrite decode_checked_plain.
Qed.

(** C19. Acceptance is exact: for a UTF-8 target, [canonicalize_policy_path]
    returns precisely the string the specification [accept] describes (every
    escape complete and naming an admitted [pchar], no literal backslash, no
    dot segment in the decoded string), and rejects in every other case; the
    result borrows the input exactly when the target has no [%]. In particular
    the fast-path scan and the decoding pass never disagree and the final UTF-8
    conversion never fails. *)
Theorem canonicalize_policy_path_exact raw :
  is_str raw ->
  match canonicalize_policy_path raw with
  | Ok (Borrowed s) => s = raw /\ PERCENT ∉ raw /\ accept Enforced raw = Some raw
  | Ok (Owned s) => PERCENT ∈ raw /\ accept Enforced raw = Some s
  | Err _ => accept Enforced raw = None
  end.
Proof. apply canonicalize_spec. Qed.

Lemma canonicalize_policy_path_exact_witness :
  is_str (bs "/%61/b") /\ accept Enforced (bs "/%61/b") = Some (bs "/a/b").
Proof.
  assert (H : is_str (bs "/%61/b")) by reflexivity.
  split; [exact H|]. apply (canonicalize_policy_path_exact _ H).
Defined.

(** An accepted path, whichever ownership it has. *)
Lemma canonicalize_accept raw c :
  is_str raw -> canonicalize_policy_path raw = Ok c -> accept Enforced raw = Some (cow_str c).
Proof.
  intros Hs Hc. assert (H := canonicalize_spec Enforced raw Hs).
  unfold canonicalize_policy_path in Hc. rewrite Hc in H. destruct c; naive_solver.
Qed.

(** The canonical form: an accepted path carries no [%], no backslash and
    no [.] or [..] segment, is valid UTF-8, and its segments are exactly the
    percent-decodings of the segments of the raw target, one for one, so the
    segment structure is preserved and a decoding backend reads the string
    policy read. *)
Theorem canonical_form raw c :
  is_str raw -> canonicalize_policy_path raw = Ok c ->
  PERCENT ∉ cow_str c /\ BACKSLASH ∉ cow_str c
  /\ Forall (fun seg => seg <> [DOT] /\ seg <> [DOT; DOT]) (split_on SLASH (cow_str c))
  /\ is_str (cow_str c)
  /\ Forall2 decodes_to (split_on SLASH raw) (split_on SLASH (cow_str c)).
Proof.
  intros Hs Hc. apply canonicalize_accept in Hc; [|done].
  apply accept_inv in Hc as [Hd Hdot]. specialize (Hdot eq_refl). simpl in *.
  destruct (decode_checked_free _ _ _ Hd) as [? Hb]. split_and!; [done|auto| | |].
  - apply Forall_forall; intros seg Hseg.
    assert (Hn : is_dot_segment seg = false).
    { destruct (is_dot_segment seg) eqn:E; [|done]. unfold has_dot_segment in Hdot.
      rewrite <- Hdot. symmetry. apply existsb_exists. exists seg; split; [|done].
      by apply list_elem_of_In. }
    unfold is_dot_segment in Hn. split; intros ->; done.
  - by eapply decode_checked_str.
  - by eapply decode_checked_segments.
Qed.

Lemma canonical_form_witness :
  PERCENT ∉ bs "/a/b" /\ canonicalize_policy_path (bs "/%61/b") = Ok (Owned (bs "/a/b")).
Proof.
  assert (H : canonicalize_policy_path (bs "/%61/b") = Ok (Owned (bs "/a/b"))) by reflexivity.
  split; [|exact H].
  exact (proj1 (canonical_form (bs "/%61/b") (Owned (bs "/a/b")) eq_refl H)).
Defined.

Lemma accept_canonical raw s : accept Enforced raw = Some s -> accept Enforced s = Some s.
Proof.
  unfold accept. intros Ha. apply accept_inv in Ha as [Hd Hdot]. specialize (Hdot eq_refl).
  destruct (decode_checked_free _ _ _ Hd) as [Hp Hb]. unfold accept_from.
  rewrite decode_checked_plain by auto. simpl in *. by rewrite Hdot.
Qed.

(** Idempotence: canonicalizing a canonical path returns it unchanged, and
    borrowed. *)
Theorem canonicalize_idempotent raw c :
  is_str raw -> canonicalize_policy_path raw = Ok c ->
  canonicalize_policy_path (cow_str c) = Ok (Borrowed (cow_str c)).
Proof.
  intros Hs Hc. assert (Hf := canonicalize_accept _ _ Hs Hc).
  assert (Hstr : is_str (cow_str c)).
  { apply accept_inv in Hf as [Hd _]. by eapply decode_checked_str. }
  assert (Hp : PERCENT ∉ cow_str c).
  { apply accept_inv in Hf as [Hd _]. by eapply decode_checked_free. }
  assert (H := canonicalize_spec Enforced (cow_str c) Hstr).
  unfold canonicalize_policy_path.
  apply accept_canonical in Hf. destruct (canonicalize (cow_str c) Enforced) as [[]|]; naive_solver.
Qed.

Lemma canonicalize_idempotent_witness :
  canonicalize_policy_path (bs "/a/b") = Ok (Borrowed (bs "/a/b")).
Proof. exact (canonicalize_idempotent (bs "/%61/b") (Owned (bs "/a/b")) eq_refl eq_refl). Defined.

(** Configuration admission and request handling share one alphabet: a
    configured path value passes [non_canonical_policy_path_reason] exactly
    when it is the canonical path of some request target, so an admitted value
    can match and a refused one never could. *)
Theorem admission_exact path :
  is_str path ->
  non_canonical_policy_path_reason path = None
  <-> exists raw c, is_str raw /\ canonicalize_policy_path raw = Ok c /\ cow_str c = path.
Proof.
  intros Hs. unfold non_canonical_policy_path_reason, reason_for. split.
  - intros H. destruct (canonicalize path Enforced) as [[s|]|] eqn:E; try done.
    exists path, (Borrowed s). split_and!; [done|done|].
    assert (H' := canonicalize_spec Enforced path Hs). rewrite E in H'. naive_solver.
  - intros (raw & c & Hr & Hc & <-). apply canonicalize_accept in Hc; [|done].
    apply accept_canonical in Hc. assert (H := canonicalize_spec Enforced _ Hs).
    destruct (canonicalize (cow_str c) Enforced) as [[]|]; try naive_solver.
    destruct H as [Hp Ha]. rewrite Ha in Hc; simplify_eq.
    apply accept_inv in Ha as [Hd _]. by apply decode_checked_free in Hd as [? _].
Qed.

Lemma admission_exact_witness :
  exists raw c, is_str raw /\ canonicalize_policy_path raw = Ok c /\ cow_str c = bs "/v1/items".
Proof. apply (admission_exact (bs "/v1/items") eq_refl). reflexivity. Defined.
