(* ===== verification/BreakerWord.v ===== *)
(** * The packed circuit-breaker word ([src/src/circuit_breaker.rs], lines 14-60)

    Generation (32 bits), state (2 bits) and half-open probe count (30 bits)
    fused into one [u64], so that a transition is one compare-exchange. The
    packing is a bijection with the well-formed triples, which the rest of the
    breaker development uses instead of bit arithmetic. *)

From S2P Require Import Prelude.

Definition STATE_CLOSED : Z := 0.
Definition STATE_OPEN : Z := 1.
Definition STATE_HALF_OPEN : Z := 2.

Definition STATE_SHIFT : Z := 30.
Definition COUNT_MASK : Z := Z.shiftl 1 STATE_SHIFT - 1.

Definition pack_full (generation state count : Z) : Z :=
  Z.lor
    (Z.lor (Z.shiftl generation 32) (wrap 32 (Z.shiftl state STATE_SHIFT)))
    (Z.land count COUNT_MASK).

Definition packed_generation (packed : Z) : Z := wrap 32 (Z.shiftr packed 32).

Definition packed_state (packed : Z) : Z := wrap 8 (Z.shiftr (wrap 32 packed) STATE_SHIFT).

Definition packed_count (packed : Z) : Z := Z.land (wrap 32 packed) COUNT_MASK.

(** A triple that fits its fields. *)
Definition fits (g st c : Z) : Prop := is_u32 g /\ 0 <= st < 4 /\ 0 <= c <= COUNT_MASK.

Lemma COUNT_MASK_ones : COUNT_MASK = Z.ones 30.
Proof. reflexivity. Qed.

Lemma COUNT_MASK_pos : 1 <= COUNT_MASK.
Proof. by change COUNT_MASK with 1073741823. Qed.

Lemma pack_full_value g st c :
  fits g st c -> pack_full g st c = g * 2 ^ 32 + st * 2 ^ 30 + c.
Proof.
  unfold fits, in_width, pack_full, wrap, STATE_SHIFT. intros (Hg & Hs & Hc).
  rewrite COUNT_MASK_ones, Z.land_ones by lia. change COUNT_MASK with (2 ^ 30 - 1) in Hc.
  rewrite !Z.shiftl_mul_pow2 by lia.
  rewrite (Z.mod_small c) by lia. rewrite (Z.mod_small (st * 2 ^ 30)) by lia.
  rewrite lor_disjoint by lia.
  replace (g * 2 ^ 32 + st * 2 ^ 30) with ((g * 4 + st) * 2 ^ 30) by lia.
  rewrite lor_disjoint by lia. lia.
Qed.

Lemma pack_full_u64 g st c : fits g st c -> is_u64 (pack_full g st c).
Proof.
  intros H. rewrite pack_full_value by done. unfold fits, in_width in *.
  change COUNT_MASK with (2 ^ 30 - 1) in H. lia.
Qed.

Lemma div_mod_split a b r : 0 <= r < b -> (a * b + r) / b = a /\ (a * b + r) mod b = r.
Proof.
  intros. split.
  - symmetry; apply (Z.div_unique _ _ _ r); lia.
  - symmetry; apply (Z.mod_unique _ _ a); lia.
Qed.

(** The three accessors as quotients and remainders. *)
Lemma accessors_value p :
  packed_generation p = (p / 2 ^ 32) mod 2 ^ 32
  /\ packed_state p = ((p mod 2 ^ 32) / 2 ^ 30) mod 2 ^ 8
  /\ packed_count p = (p mod 2 ^ 32) mod 2 ^ 30.
Proof.
  unfold packed_generation, packed_state, packed_count, wrap, STATE_SHIFT.
  by rewrite COUNT_MASK_ones, Z.land_ones, !Z.shiftr_div_pow2 by lia.
Qed.

Lemma packed_pack g st c :
  fits g st c ->
  packed_generation (pack_full g st c) = g /\ packed_state (pack_full g st c) = st
  /\ packed_count (pack_full g st c) = c.
Proof.
  intros H. rewrite pack_full_value by done.
  destruct (accessors_value (g * 2 ^ 32 + st * 2 ^ 30 + c)) as (-> & -> & ->).
  unfold fits, in_width in H. change COUNT_MASK with (2 ^ 30 - 1) in H.
  destruct H as (? & ? & ?). rewrite <- Z.add_assoc.
  destruct (div_mod_split g (2 ^ 32) (st * 2 ^ 30 + c)) as [-> ->]; [lia|].
  destruct (div_mod_split st (2 ^ 30) c) as [-> ->]; [lia|].
  split_and!; [apply Z.mod_small; lia..|done].
Qed.

Lemma packed_generation_pack g st c : fits g st c -> packed_generation (pack_full g st c) = g.
Proof. intros H. exact (proj1 (packed_pack _ _ _ H)). Qed.
Lemma packed_state_pack g st c : fits g st c -> packed_state (pack_full g st c) = st.
Proof. intros H. exact (proj1 (proj2 (packed_pack _ _ _ H))). Qed.
Lemma packed_count_pack g st c : fits g st c -> packed_count (pack_full g st c) = c.
Proof. intros H. exact (proj2 (proj2 (packed_pack _ _ _ H))). Qed.

Lemma state_bits_bound p : 0 <= (p mod 2 ^ 32) / 2 ^ 30 < 4.
Proof.
  assert (H := Z.mod_pos_bound p (2 ^ 32)). split.
  - apply Z.div_pos; lia.
  - apply Z.div_lt_upper_bound; lia.
Qed.

Lemma unpack_fits p : fits (packed_generation p) (packed_state p) (packed_count p).
Proof.
  destruct (accessors_value p) as (-> & -> & ->). assert (H := state_bits_bound p).
  unfold fits, in_width. change COUNT_MASK with (2 ^ 30 - 1). split_and!.
  1,2: apply Z.mod_pos_bound; lia.
  1,2: rewrite Z.mod_small; lia.
  all: assert (H' := Z.mod_pos_bound (p mod 2 ^ 32) (2 ^ 30)); lia.
Qed.

Lemma pack_unpack p :
  is_u64 p -> pack_full (packed_generation p) (packed_state p) (packed_count p) = p.
Proof.
  intros Hp. rewrite pack_full_value by apply unpack_fits.
  destruct (accessors_value p) as (-> & -> & ->). assert (H := state_bits_bound p).
  rewrite (Z.mod_small (_ / _) (2 ^ 8)) by lia.
  rewrite (Z.mod_small (p / _)).
  2: { unfold in_width in Hp. split; [apply Z.div_pos|apply Z.div_lt_upper_bound]; lia. }
  rewrite (Z.div_mod p (2 ^ 32)) at 4 by lia. rewrite (Z.div_mod (p mod 2 ^ 32) (2 ^ 30)) at 3 by lia.
  lia.
Qed.

#[export] Hint Rewrite packed_generation_pack packed_state_pack packed_count_pack
  using done : breaker.

(** The packed word loses nothing: unpacking a packed triple that fits its
    fields returns it, and packing the three fields of any 64-bit word returns
    the word, so a compare-exchange on the word is a compare-exchange on the
    whole (generation, state, in-flight count) triple. *)
Theorem packed_word_bijection :
  (forall g st c, fits g st c ->
     packed_generation (pack_full g st c) = g /\ packed_state (pack_full g st c) = st
     /\ packed_count (pack_full g st c) = c /\ is_u64 (pack_full g st c))
  /\ (forall p, is_u64 p ->
        pack_full (packed_generation p) (packed_state p) (packed_count p) = p).
Proof.
  split; [|exact pack_unpack]. intros g st c H.
  destruct (packed_pack _ _ _ H) as (? & ? & ?). split_and!; try done. by apply pack_full_u64.
Qed.

#[global] Opaque pack_full packed_generation packed_state packed_count COUNT_MASK.
