(* ===== verification/CircuitBreaker.v ===== *)
(** * The circuit breaker ([src/src/circuit_breaker.rs])

    One breaker: its atomics as a record and each method as a state-passing
    function, written in the order the code performs its loads, stores and
    compare-exchanges. This file is the behaviour of one call running alone
    (every compare-exchange loop then finishes in its first round, a fact
    [BreakerConcurrency.v] proves against the interleaved model; the [Err] arm
    of a compare-exchange whose expected value was just loaded is there only
    to make the [match] total). The abstract breaker at the end of the file
    forgets the bit packing and the stale counters; every method refines it. *)

From S2P Require Import Prelude BreakerWord.

Record CircuitBreakerConfig := {
  failure_threshold : Z;
  success_threshold : Z;
  timeout_seconds : Z;
  failure_status_codes : list Z;
  half_open_max_requests : Z;
  trip_on_connection_errors : bool;
}.

#[global] Instance CircuitBreakerConfig_eq_dec : EqDecision CircuitBreakerConfig.
Proof. solve_decision. Defined.

(** [CircuitBreakerConfig::default] ([src/src/config/types.rs]). *)
Definition default_config : CircuitBreakerConfig := {|
  failure_threshold := 5;
  success_threshold := 3;
  timeout_seconds := 30;
  failure_status_codes := [500; 502; 503; 504];
  half_open_max_requests := 1;
  trip_on_connection_errors := true;
|}.

(** The fields have the widths the source declares. *)
Definition config_ok (c : CircuitBreakerConfig) : Prop :=
  is_u32 (failure_threshold c) /\ is_u32 (success_threshold c)
  /\ is_u64 (timeout_seconds c) /\ is_u32 (half_open_max_requests c).

(** The atomics of [CircuitBreaker]; the configuration is immutable and is an
    argument of the methods. *)
Record breaker := Breaker {
  packed : Z;
  failure_count : Z;
  success_count : Z;
  last_failure_tick_ms : Z;
  last_failure_epoch_ms : Z;
}.

Definition with_packed (b : breaker) (p : Z) : breaker :=
  Breaker p (failure_count b) (success_count b) (last_failure_tick_ms b) (last_failure_epoch_ms b).
Definition with_failures (b : breaker) (n : Z) : breaker :=
  Breaker (packed b) n (success_count b) (last_failure_tick_ms b) (last_failure_epoch_ms b).
Definition with_successes (b : breaker) (n : Z) : breaker :=
  Breaker (packed b) (failure_count b) n (last_failure_tick_ms b) (last_failure_epoch_ms b).
Definition with_tick (b : breaker) (t : Z) : breaker :=
  Breaker (packed b) (failure_count b) (success_count b) t (last_failure_epoch_ms b).
Definition with_epoch_ms (b : breaker) (t : Z) : breaker :=
  Breaker (packed b) (failure_count b) (success_count b) (last_failure_tick_ms b) t.

Inductive CircuitOpenErr := CircuitOpenError.

(** The outcome of [can_execute]: [Ok true] admits a half-open probe. *)
Definition admission := result bool CircuitOpenErr.

(** [AtomicU64::compare_exchange] on the packed word: the updated breaker, or
    the value actually found. *)
Definition compare_exchange (b : breaker) (expected new : Z) : result breaker Z :=
  if packed b =? expected then Ok (with_packed b new) else Err (packed b).

Definition new : breaker := Breaker (pack_full 0 STATE_CLOSED 0) 0 0 0 0.

(** The probe limit, floored at one and capped at the count field. *)
Definition half_open_max (cfg : CircuitBreakerConfig) : Z :=
  Z.min (Z.max (half_open_max_requests cfg) 1) COUNT_MASK.

Definition try_acquire_half_open_slot (cfg : CircuitBreakerConfig) (b : breaker)
    : admission * breaker :=
  let max := half_open_max cfg in
  let p := packed b in
  if packed_state p =? STATE_HALF_OPEN then
    let count := packed_count p in
    if max <=? count then (Err CircuitOpenError, b)
    else
      match compare_exchange b p (pack_full (packed_generation p) STATE_HALF_OPEN (count + 1)) with
      | Ok b' => (Ok true, b')
      | Err _ => (Err CircuitOpenError, b)
      end
  else if packed_state p =? STATE_OPEN then (Err CircuitOpenError, b)
  else (Ok false, b).

(** [clock] is [socket_opts::monotonic_now_ms()], read only in the OPEN arm. *)
Definition can_execute_inner (cfg : CircuitBreakerConfig) (monotonic_now_ms : option Z)
    (clock : Z) (b : breaker) : admission * breaker :=
  let p := packed b in
  if packed_state p =? STATE_CLOSED then (Ok false, b)
  else if packed_state p =? STATE_OPEN then
    let now := default clock monotonic_now_ms in
    let last_failure := last_failure_tick_ms b in
    let timeout_ms := saturating_mul 64 (timeout_seconds cfg) 1000 in
    if timeout_ms <=? saturating_sub now last_failure then
      let generation := packed_generation p in
      match compare_exchange b (pack_full generation STATE_OPEN 0)
              (pack_full generation STATE_HALF_OPEN 1) with
      | Ok b' => (Ok true, with_successes b' 0)
      | Err actual =>
        if packed_state actual =? STATE_HALF_OPEN then try_acquire_half_open_slot cfg b
        else if packed_state actual =? STATE_CLOSED then (Ok false, b)
        else (Err CircuitOpenError, b)
      end
    else (Err CircuitOpenError, b)
  else if packed_state p =? STATE_HALF_OPEN then try_acquire_half_open_slot cfg b
  else (Ok false, b).

Definition can_execute (cfg : CircuitBreakerConfig) (clock : Z) (b : breaker)
    : admission * breaker := can_execute_inner cfg None clock b.

Definition release_half_open_slot (b : breaker) : breaker :=
  let p := packed b in
  let count := packed_count p in
  if count =? 0 then b
  else with_packed b (pack_full (packed_generation p) (packed_state p) (count - 1)).

Definition record_success (cfg : CircuitBreakerConfig) (is_half_open_probe : bool)
    (b : breaker) : breaker :=
  let st := packed_state (packed b) in
  if st =? STATE_HALF_OPEN then
    let b := if is_half_open_probe then release_half_open_slot b else b in
    if negb (packed_state (packed b) =? STATE_HALF_OPEN) then b
    else
      let successes := wrapping_add 32 (success_count b) 1 in
      let b := with_successes b successes in
      if success_threshold cfg <=? successes then
        let p := packed b in
        if negb (packed_state p =? STATE_HALF_OPEN) then b
        else
          match compare_exchange b p (pack_full (packed_generation p) STATE_CLOSED 0) with
          | Ok b => with_successes (with_failures b 0) 0
          | Err _ => b
          end
      else b
  else if (st =? STATE_OPEN) && is_half_open_probe then release_half_open_slot b
  else if st =? STATE_CLOSED then
    let b := if is_half_open_probe then release_half_open_slot b else b in
    if 0 <? failure_count b then with_failures b 0 else b
  else b.

Definition record_neutral (is_half_open_probe : bool) (b : breaker) : breaker :=
  if negb is_half_open_probe then b else release_half_open_slot b.

Definition reopen_after_probe_failure (b : breaker) : breaker :=
  let b := with_successes b 0 in
  let p := packed b in
  if packed_state p =? STATE_OPEN then b
  else
    match compare_exchange b p
            (pack_full (wrapping_add 32 (packed_generation p) 1) STATE_OPEN 0) with
    | Ok b => b
    | Err _ => b
    end.

(** Whether a reported failure counts, or is filtered to a neutral outcome. *)
Definition failure_counts (cfg : CircuitBreakerConfig) (status_code : Z)
    (connection_error : bool) : bool :=
  if connection_error then trip_on_connection_errors cfg
  else bool_decide (status_code ∈ failure_status_codes cfg).

(** [clocks] is [(monotonic_now_ms(), wall_now_epoch_ms())]. *)
Definition record_failure_inner (cfg : CircuitBreakerConfig) (status_code : Z)
    (connection_error is_half_open_probe : bool) (injected_time : option (Z * Z))
    (clocks : Z * Z) (b : breaker) : breaker :=
  if negb (failure_counts cfg status_code connection_error) then
    if is_half_open_probe then release_half_open_slot b else b
  else
    let p := packed b in
    let '(failure_tick_ms, failure_epoch_ms) := default clocks injected_time in
    if packed_state p =? STATE_CLOSED then
      let b := with_epoch_ms (with_tick b failure_tick_ms) failure_epoch_ms in
      let b := if is_half_open_probe then release_half_open_slot b else b in
      let failures := wrapping_add 32 (failure_count b) 1 in
      let b := with_failures b failures in
      if failure_threshold cfg <=? failures then
        if failure_count b <? failure_threshold cfg then b
        else
          let generation := packed_generation (packed b) in
          let next := wrapping_add 32 generation 1 in
          match compare_exchange b (pack_full generation STATE_CLOSED 0)
                  (pack_full next STATE_OPEN 0) with
          | Ok b =>
            if failure_count b <? failure_threshold cfg then
              match compare_exchange b (pack_full next STATE_OPEN 0)
                      (pack_full next STATE_CLOSED 0) with
              | Ok b => b
              | Err _ => b
              end
            else b
          | Err _ => b
          end
      else b
    else if packed_state p =? STATE_HALF_OPEN then
      let b := with_epoch_ms (with_tick b failure_tick_ms) failure_epoch_ms in
      reopen_after_probe_failure b
    else if (packed_state p =? STATE_OPEN) && is_half_open_probe then release_half_open_slot b
    else b.

Definition record_failure (cfg : CircuitBreakerConfig) (status_code : Z)
    (connection_error is_half_open_probe : bool) (clocks : Z * Z) (b : breaker) : breaker :=
  record_failure_inner cfg status_code connection_error is_half_open_probe None clocks b.

Definition open_epoch (b : breaker) : Z := packed_generation (packed b).

Definition half_open_in_flight (b : breaker) : Z := packed_count (packed b).

Definition state_name (b : breaker) : string :=
  let st := packed_state (packed b) in
  if st =? STATE_CLOSED then "closed"
  else if st =? STATE_OPEN then "open"
  else if st =? STATE_HALF_OPEN then "half_open"
  else "unknown".

(** ** Well-formed breakers *)

(** The word the code maintains: a known state, probes counted only while
    half-open and never beyond the limit. *)
Definition wf_word (max p : Z) : Prop :=
  is_u64 p /\ 0 <= packed_state p <= 2 /\ packed_count p <= max
  /\ (packed_state p <> STATE_HALF_OPEN -> packed_count p = 0).

Definition wf (cfg : CircuitBreakerConfig) (b : breaker) : Prop :=
  wf_word (half_open_max cfg) (packed b)
  /\ is_u32 (failure_count b) /\ is_u32 (success_count b).

Lemma half_open_max_bounds cfg : 1 <= half_open_max cfg <= COUNT_MASK.
Proof. unfold half_open_max. assert (Hm := COUNT_MASK_pos). lia. Qed.

Lemma wf_word_pack max g st c :
  fits g st c -> 0 <= st <= 2 -> c <= max -> (st <> STATE_HALF_OPEN -> c = 0) ->
  wf_word max (pack_full g st c).
Proof.
  intros H ? ? ?. unfold wf_word.
  rewrite packed_state_pack, packed_count_pack by done.
  split_and!; try done; try lia. by apply pack_full_u64.
Qed.

(** A well-formed word is one of the three shapes the code names. *)
Inductive word_view (max : Z) : Z -> Prop :=
| ViewClosed g : is_u32 g -> word_view max (pack_full g STATE_CLOSED 0)
| ViewOpen g : is_u32 g -> word_view max (pack_full g STATE_OPEN 0)
| ViewHalfOpen g c : is_u32 g -> 0 <= c <= max -> word_view max (pack_full g STATE_HALF_OPEN c).

Lemma wf_word_view max p : wf_word max p -> word_view max p.
Proof.
  intros (Hp & Hst & Hc & Hz). destruct (unpack_fits p) as (Hg & _ & Hc').
  rewrite <- (pack_unpack p Hp).
  assert (packed_state p = 0 \/ packed_state p = 1 \/ packed_state p = 2) as [E|[E|E]] by lia;
    rewrite E in *.
  - rewrite Hz by done. by apply (ViewClosed max).
  - rewrite Hz by done. by apply (ViewOpen max).
  - apply (ViewHalfOpen max); [done|lia].
Qed.

Lemma fits_intro g st c :
  is_u32 g -> 0 <= st < 4 -> 0 <= c <= COUNT_MASK -> fits g st c.
Proof. done. Qed.

Lemma fits_closed g : is_u32 g -> fits g STATE_CLOSED 0.
Proof. intros; apply fits_intro; [done|unfold STATE_CLOSED; lia|]. assert (Hm := COUNT_MASK_pos); lia. Qed.
Lemma fits_open g : is_u32 g -> fits g STATE_OPEN 0.
Proof. intros; apply fits_intro; [done|unfold STATE_OPEN; lia|]. assert (Hm := COUNT_MASK_pos); lia. Qed.
Lemma fits_half_open cfg g c : is_u32 g -> 0 <= c <= half_open_max cfg -> fits g STATE_HALF_OPEN c.
Proof.
  intros; apply fits_intro; [done|unfold STATE_HALF_OPEN; lia|].
  assert (H' := half_open_max_bounds cfg). lia.
Qed.

Lemma wrapping_add_u32 a b : is_u32 (wrapping_add 32 a b).
Proof. apply wrap_in_width. lia. Qed.

#[export] Hint Resolve fits_closed fits_open wrapping_add_u32 : breaker.

(** Compute the fields of packed words. *)
Ltac word_fields :=
  repeat match goal with
  | |- context [packed_generation (pack_full ?g ?s ?c)] =>
    rewrite (packed_generation_pack g s c) by eauto using fits_half_open with breaker
  | |- context [packed_state (pack_full ?g ?s ?c)] =>
    rewrite (packed_state_pack g s c) by eauto using fits_half_open with breaker
  | |- context [packed_count (pack_full ?g ?s ?c)] =>
    rewrite (packed_count_pack g s c) by eauto using fits_half_open with breaker
  end.

(** A well-formed breaker has one of three shapes. *)
Definition Closed g f s t e : breaker := Breaker (pack_full g STATE_CLOSED 0) f s t e.
Definition Opened g f s t e : breaker := Breaker (pack_full g STATE_OPEN 0) f s t e.
Definition HalfOpen g c f s t e : breaker := Breaker (pack_full g STATE_HALF_OPEN c) f s t e.

Inductive shape (cfg : CircuitBreakerConfig) : breaker -> Prop :=
| ShapeClosed g f s t e : is_u32 g -> is_u32 f -> is_u32 s -> shape cfg (Closed g f s t e)
| ShapeOpened g f s t e : is_u32 g -> is_u32 f -> is_u32 s -> shape cfg (Opened g f s t e)
| ShapeHalfOpen g c f s t e :
    is_u32 g -> 0 <= c <= half_open_max cfg -> is_u32 f -> is_u32 s ->
    shape cfg (HalfOpen g c f s t e).
#[export] Hint Constructors shape : breaker.

Lemma wf_shape cfg b : wf cfg b <-> shape cfg b.
Proof.
  split.
  - destruct b as [p f s t e]. intros (Hw & Hf & Hs); simpl in *.
    apply wf_word_view in Hw as [g Hg|g Hg|g c Hg Hc]; by constructor.
  - assert (Hm := half_open_max_bounds cfg).
    destruct 1; (split; [|done]); apply wf_word_pack; eauto using fits_half_open with breaker;
      unfold STATE_CLOSED, STATE_OPEN, STATE_HALF_OPEN in *; lia.
Qed.

(** ** The abstract breaker *)

Inductive abs_state :=
| AClosed (failures : Z)
| AOpen (opened_at : Z)
| AHalfOpen (in_flight successes : Z).

Record abs := Abs { abs_generation : Z; abs_st : abs_state }.

Definition abs_of (b : breaker) : abs :=
  let p := packed b in
  Abs (packed_generation p)
    (if packed_state p =? STATE_CLOSED then AClosed (failure_count b)
     else if packed_state p =? STATE_OPEN then AOpen (last_failure_tick_ms b)
     else AHalfOpen (packed_count p) (success_count b)).

#[global] Arguments abs_of : simpl never.

Definition abs_release (a : abs) : abs :=
  match abs_st a with
  | AHalfOpen n s => Abs (abs_generation a) (AHalfOpen (Z.max 0 (n - 1)) s)
  | _ => a
  end.

Definition abs_open (at_ms : Z) (a : abs) : abs :=
  Abs (wrapping_add 32 (abs_generation a) 1) (AOpen at_ms).

Definition abs_can_execute (cfg : CircuitBreakerConfig) (now : Z) (a : abs) : admission * abs :=
  match abs_st a with
  | AClosed _ => (Ok false, a)
  | AOpen t =>
    if saturating_mul 64 (timeout_seconds cfg) 1000 <=? saturating_sub now t
    then (Ok true, Abs (abs_generation a) (AHalfOpen 1 0))
    else (Err CircuitOpenError, a)
  | AHalfOpen n s =>
    if n <? half_open_max cfg
    then (Ok true, Abs (abs_generation a) (AHalfOpen (n + 1) s))
    else (Err CircuitOpenError, a)
  end.

Definition abs_record_success (cfg : CircuitBreakerConfig) (probe : bool) (a : abs) : abs :=
  match abs_st a with
  | AClosed _ => Abs (abs_generation a) (AClosed 0)
  | AOpen _ => a
  | AHalfOpen _ s =>
    let s' := wrapping_add 32 s 1 in
    if success_threshold cfg <=? s' then Abs (abs_generation a) (AClosed 0)
    else
      match abs_st (if probe then abs_release a else a) with
      | AHalfOpen n _ => Abs (abs_generation a) (AHalfOpen n s')
      | _ => a
      end
  end.

Definition abs_record_neutral (probe : bool) (a : abs) : abs :=
  if probe then abs_release a else a.

Definition abs_record_failure (cfg : CircuitBreakerConfig) (status : Z) (conn probe : bool)
    (now : Z) (a : abs) : abs :=
  if failure_counts cfg status conn then
    match abs_st a with
    | AClosed f =>
      let f' := wrapping_add 32 f 1 in
      if failure_threshold cfg <=? f' then abs_open now a
      else Abs (abs_generation a) (AClosed f')
    | AOpen _ => a
    | AHalfOpen _ _ => abs_open now a
    end
  else abs_record_neutral probe a.

(** ** Refinement *)

(** The methods on each shape; [breaker_shapes] collects the equations. *)
Create HintDb breaker_shapes.

Lemma abs_of_Closed g f s t e : is_u32 g -> abs_of (Closed g f s t e) = Abs g (AClosed f).
Proof. intros; unfold abs_of; simpl. by word_fields. Qed.
Lemma abs_of_Opened g f s t e : is_u32 g -> abs_of (Opened g f s t e) = Abs g (AOpen t).
Proof. intros; unfold abs_of; simpl. by word_fields. Qed.
Lemma abs_of_HalfOpen cfg g c f s t e :
  is_u32 g -> 0 <= c <= half_open_max cfg ->
  abs_of (HalfOpen g c f s t e) = Abs g (AHalfOpen c s).
Proof. intros; unfold abs_of; simpl. by word_fields. Qed.

Lemma release_Closed g f s t e :
  is_u32 g -> release_half_open_slot (Closed g f s t e) = Closed g f s t e.
Proof. intros; unfold release_half_open_slot; simpl. by word_fields. Qed.
Lemma release_Opened g f s t e :
  is_u32 g -> release_half_open_slot (Opened g f s t e) = Opened g f s t e.
Proof. intros; unfold release_half_open_slot; simpl. by word_fields. Qed.
Lemma release_HalfOpen cfg g c f s t e :
  is_u32 g -> 0 <= c <= half_open_max cfg ->
  release_half_open_slot (HalfOpen g c f s t e) = HalfOpen g (Z.max 0 (c - 1)) f s t e.
Proof.
  intros; unfold release_half_open_slot; simpl. word_fields.
  destruct (Z.eqb_spec c 0) as [->|]; [done|]. unfold with_packed, HalfOpen; simpl.
  do 2 f_equal. lia.
Qed.

Lemma compare_exchange_hit b new : compare_exchange b (packed b) new = Ok (with_packed b new).
Proof. unfold compare_exchange. by rewrite Z.eqb_refl. Qed.

Lemma compare_exchange_pack p f s t e new :
  compare_exchange (Breaker p f s t e) p new = Ok (Breaker new f s t e).
Proof. apply (compare_exchange_hit (Breaker p f s t e)). Qed.

Lemma refine_release cfg b :
  shape cfg b -> shape cfg (release_half_open_slot b)
  /\ abs_of (release_half_open_slot b) = abs_release (abs_of b).
Proof.
  destruct 1.
  - rewrite release_Closed, abs_of_Closed by done. auto with breaker.
  - rewrite release_Opened, abs_of_Opened by done. auto with breaker.
  - rewrite (release_HalfOpen cfg), !(abs_of_HalfOpen cfg) by (done || lia).
    split; [constructor; (done || lia)|done].
Qed.

Lemma refine_new cfg : shape cfg new /\ abs_of new = Abs 0 (AClosed 0).
Proof.
  assert (is_u32 0) by (unfold in_width; lia).
  split; [by apply (ShapeClosed cfg 0 0 0 0 0)|by apply (abs_of_Closed 0 0 0 0 0)].
Qed.

Lemma refine_can_execute cfg inj clock b :
  shape cfg b ->
  shape cfg (can_execute_inner cfg inj clock b).2
  /\ (let '(r, b') := can_execute_inner cfg inj clock b in (r, abs_of b'))
     = abs_can_execute cfg (default clock inj) (abs_of b).
Proof.
  assert (Hm := half_open_max_bounds cfg). assert (is_u32 0) by (unfold in_width; lia).
  destruct 1; unfold can_execute_inner, try_acquire_half_open_slot, abs_can_execute; simpl;
    word_fields; simpl.
  - rewrite abs_of_Closed by done. auto with breaker.
  - rewrite !abs_of_Opened by done; simpl. destruct (_ <=? _); simpl.
    + unfold Opened. rewrite compare_exchange_pack. fold (HalfOpen g 1 f s t e).
      unfold with_successes; simpl. fold (HalfOpen g 1 f 0 t e).
      rewrite !(abs_of_HalfOpen cfg) by (done || lia). split; [constructor; (done || lia)|done].
    + rewrite abs_of_Opened by done. auto with breaker.
  - rewrite !(abs_of_HalfOpen cfg) by done; simpl.
    destruct (Z.leb_spec (half_open_max cfg) c), (Z.ltb_spec c (half_open_max cfg)); try lia.
    + rewrite !(abs_of_HalfOpen cfg) by done. split; [by constructor|done].
    + unfold HalfOpen. rewrite compare_exchange_pack. fold (HalfOpen g (c + 1) f s t e).
      rewrite !(abs_of_HalfOpen cfg) by (done || lia). split; [constructor; (done || lia)|done].
Qed.

(** The methods release conditionally on the probe flag. *)
Lemma if_release_Closed (probe : bool) g f s t e :
  is_u32 g ->
  (if probe then release_half_open_slot (Closed g f s t e) else Closed g f s t e)
  = Closed g f s t e.
Proof. intros; destruct probe; [by apply release_Closed|done]. Qed.
Lemma if_release_Opened (probe : bool) g f s t e :
  is_u32 g ->
  (if probe then release_half_open_slot (Opened g f s t e) else Opened g f s t e)
  = Opened g f s t e.
Proof. intros; destruct probe; [by apply release_Opened|done]. Qed.
Lemma if_release_HalfOpen cfg (probe : bool) g c f s t e :
  is_u32 g -> 0 <= c <= half_open_max cfg ->
  (if probe then release_half_open_slot (HalfOpen g c f s t e) else HalfOpen g c f s t e)
  = HalfOpen g (if probe then Z.max 0 (c - 1) else c) f s t e.
Proof. intros; destruct probe; [by apply (release_HalfOpen cfg)|done]. Qed.

Lemma refine_record_success cfg probe b :
  shape cfg b ->
  shape cfg (record_success cfg probe b)
  /\ abs_of (record_success cfg probe b) = abs_record_success cfg probe (abs_of b).
Proof.
  assert (is_u32 0) by (unfold in_width; lia).
  destruct 1; unfold record_success, abs_record_success.
  - rewrite abs_of_Closed by done; simpl; word_fields; simpl. rewrite if_release_Closed by done.
    simpl. destruct (Z.ltb_spec 0 f); simpl.
    + change (with_failures (Closed g f s t e) 0) with (Closed g 0 s t e).
      rewrite abs_of_Closed by done. auto with breaker.
    + replace f with 0 by (unfold in_width in *; lia). rewrite abs_of_Closed by done.
      auto with breaker.
  - rewrite abs_of_Opened by done; simpl; word_fields; simpl. rewrite if_release_Opened by done.
    rewrite abs_of_Opened by done. auto with breaker.
  - rewrite (abs_of_HalfOpen cfg) by done; simpl; word_fields; simpl.
    rewrite (if_release_HalfOpen cfg) by done.
    set (n := if probe then Z.max 0 (c - 1) else c).
    assert (0 <= n <= half_open_max cfg) by (subst n; destruct probe; lia).
    simpl; word_fields; simpl. destruct (_ <=? _); simpl.
    + unfold HalfOpen, with_successes; simpl. rewrite compare_exchange_pack; simpl.
      fold (Closed g 0 0 t e). rewrite abs_of_Closed by done. auto with breaker.
    + change (with_successes (HalfOpen g n f s t e) (wrapping_add 32 s 1))
        with (HalfOpen g n f (wrapping_add 32 s 1) t e).
      rewrite (abs_of_HalfOpen cfg) by done.
      split; [constructor; auto with breaker|]. subst n; by destruct probe.
Qed.

Lemma refine_record_neutral cfg probe b :
  shape cfg b ->
  shape cfg (record_neutral probe b)
  /\ abs_of (record_neutral probe b) = abs_record_neutral probe (abs_of b).
Proof. intros. destruct probe; simpl; [by apply refine_release|done]. Qed.

Lemma refine_record_failure cfg status conn probe inj clocks b :
  shape cfg b ->
  shape cfg (record_failure_inner cfg status conn probe inj clocks b)
  /\ abs_of (record_failure_inner cfg status conn probe inj clocks b)
     = abs_record_failure cfg status conn probe (default clocks inj).1 (abs_of b).
Proof.
  intros Hs. unfold record_failure_inner, abs_record_failure.
  destruct (failure_counts cfg status conn); simpl; [|by destruct probe; [apply refine_release|]].
  destruct (default clocks inj) as [now wall]; simpl.
  destruct Hs.
  - rewrite abs_of_Closed by done; simpl; word_fields; simpl.
    unfold with_tick, with_epoch_ms; simpl. fold (Closed g f s now wall).
    rewrite if_release_Closed by done; simpl.
    destruct (Z.leb_spec (failure_threshold cfg) (wrapping_add 32 f 1)) as [Hle|Hgt]; simpl.
    + destruct (Z.ltb_spec (wrapping_add 32 f 1) (failure_threshold cfg)) as [|_]; [lia|].
      word_fields. unfold Closed, with_failures; simpl. rewrite compare_exchange_pack; simpl.
      destruct (Z.ltb_spec (wrapping_add 32 f 1) (failure_threshold cfg)) as [|_]; [lia|].
      fold (Opened (wrapping_add 32 g 1) (wrapping_add 32 f 1) s now wall).
      rewrite abs_of_Opened by auto with breaker. auto with breaker.
    + change (with_failures (Closed g f s now wall) (wrapping_add 32 f 1))
        with (Closed g (wrapping_add 32 f 1) s now wall).
      rewrite abs_of_Closed by done. auto with breaker.
  - rewrite abs_of_Opened by done; simpl; word_fields; simpl. rewrite if_release_Opened by done.
    rewrite abs_of_Opened by done. auto with breaker.
  - rewrite (abs_of_HalfOpen cfg) by done; simpl; word_fields; simpl.
    unfold reopen_after_probe_failure, HalfOpen, with_successes, with_tick, with_epoch_ms; simpl.
    word_fields; simpl. rewrite compare_exchange_pack.
    fold (Opened (wrapping_add 32 g 1) f 0 now wall).
    rewrite abs_of_Opened by auto with breaker.
    split; [constructor; auto with breaker; unfold in_width; lia|done].
Qed.

(** C21. Every method of the breaker, on the packed word and its atomics,
    keeps the breaker well-formed (a known state, probes counted only while
    half-open and at most [half_open_max]) and computes exactly the abstract
    breaker's transition and result. *)
Theorem breaker_refines_abstract cfg b :
  wf cfg b ->
  (forall inj clock,
     let '(r, b') := can_execute_inner cfg inj clock b in
     wf cfg b' /\ abs_can_execute cfg (default clock inj) (abs_of b) = (r, abs_of b'))
  /\ (forall probe, let b' := record_success cfg probe b in
        wf cfg b' /\ abs_of b' = abs_record_success cfg probe (abs_of b))
  /\ (forall probe, let b' := record_neutral probe b in
        wf cfg b' /\ abs_of b' = abs_record_neutral probe (abs_of b))
  /\ (forall status conn probe inj clocks,
        let b' := record_failure_inner cfg status conn probe inj clocks b in
        wf cfg b'
        /\ abs_of b' = abs_record_failure cfg status conn probe (default clocks inj).1 (abs_of b)).
Proof.
  intros Hb%wf_shape. split_and!; intros; cbv zeta; rewrite ?wf_shape.
  - destruct (refine_can_execute cfg inj clock b Hb) as [H1 H2].
    destruct (can_execute_inner cfg inj clock b) as [r b']. by rewrite wf_shape.
  - by apply refine_record_success.
  - by apply refine_record_neutral.
  - by apply refine_record_failure.
Qed.

(** ** The life of a breaker *)

Record failure_report := Failure {
  fr_status : Z; fr_connection : bool; fr_probe : bool; fr_tick : Z; fr_epoch : Z;
}.

Definition report_failure (cfg : CircuitBreakerConfig) (b : breaker) (r : failure_report) : breaker :=
  record_failure cfg (fr_status r) (fr_connection r) (fr_probe r) (fr_tick r, fr_epoch r) b.

Definition counted (cfg : CircuitBreakerConfig) (r : failure_report) : Prop :=
  failure_counts cfg (fr_status r) (fr_connection r) = true.

(** A request admitted at [now] that succeeds. *)
Definition probe_round (cfg : CircuitBreakerConfig) (now : Z) (b : breaker) : admission * breaker :=
  match can_execute cfg now b with
  | (Ok probe, b') => (Ok probe, record_success cfg probe b')
  | (Err e, b') => (Err e, b')
  end.

Fixpoint probe_rounds (cfg : CircuitBreakerConfig) (nows : list Z) (b : breaker)
    : list admission * breaker :=
  match nows with
  | [] => ([], b)
  | now :: nows =>
    let '(r, b) := probe_round cfg now b in
    let '(rs, b) := probe_rounds cfg nows b in
    (r :: rs, b)
  end.

Definition trip_point (cfg : CircuitBreakerConfig) : Z := Z.max 1 (failure_threshold cfg).
Definition close_point (cfg : CircuitBreakerConfig) : Z := Z.max 1 (success_threshold cfg).

Lemma report_failure_closed cfg b g n r :
  config_ok cfg -> shape cfg b -> counted cfg r ->
  abs_of b = Abs g (AClosed n) -> 0 <= n < trip_point cfg ->
  shape cfg (report_failure cfg b r)
  /\ abs_of (report_failure cfg b r)
     = if n + 1 <? trip_point cfg then Abs g (AClosed (n + 1))
       else Abs (wrapping_add 32 g 1) (AOpen (fr_tick r)).
Proof.
  intros (Hf & _) Hb Hc Ha Hn. unfold report_failure, record_failure.
  destruct (refine_record_failure cfg (fr_status r) (fr_connection r) (fr_probe r) None
              (fr_tick r, fr_epoch r) b Hb) as [H1 H2].
  split; [exact H1|]. rewrite H2, Ha. unfold abs_record_failure. rewrite Hc; simpl.
  unfold trip_point, in_width, wrapping_add in *. rewrite wrap_small by (unfold in_width; lia).
  unfold abs_open, wrapping_add; simpl. zcases.
Qed.

Lemma failures_below_threshold cfg g : forall rs b n,
  config_ok cfg -> shape cfg b -> Forall (counted cfg) rs ->
  abs_of b = Abs g (AClosed n) -> 0 <= n -> n + Z.of_nat (length rs) < trip_point cfg ->
  shape cfg (foldl (report_failure cfg) b rs)
  /\ abs_of (foldl (report_failure cfg) b rs) = Abs g (AClosed (n + Z.of_nat (length rs))).
Proof.
  induction rs as [|r rs IH]; intros b n Hcfg Hb Hrs Ha Hn Hlt; simpl in *.
  - by rewrite Z.add_0_r.
  - inversion Hrs; subst.
    destruct (report_failure_closed cfg b g n r) as [H1' H2']; try done; [lia|].
    destruct (Z.ltb_spec (n + 1) (trip_point cfg)); [|lia].
    destruct (IH (report_failure cfg b r) (n + 1)) as [H3' H4']; try done; try lia.
    split; [done|]. rewrite H4'. do 2 f_equal. lia.
Qed.

Lemma open_rejects cfg b g t now :
  shape cfg b -> abs_of b = Abs g (AOpen t) ->
  saturating_sub now t < saturating_mul 64 (timeout_seconds cfg) 1000 ->
  exists b', can_execute cfg now b = (Err CircuitOpenError, b') /\ abs_of b' = abs_of b
  /\ shape cfg b'.
Proof.
  intros Hb Ha Hlt. unfold can_execute. destruct (refine_can_execute cfg None now b Hb) as [H1 H2].
  destruct (can_execute_inner cfg None now b) as [r b']. rewrite Ha in H2 |- *.
  unfold abs_can_execute in H2; simpl in H2. destruct (Z.leb_spec
    (saturating_mul 64 (timeout_seconds cfg) 1000) (saturating_sub now t)); [lia|].
  apply pair_equal_spec in H2 as [-> H2]. exists b'. by split_and!.
Qed.

(** A closed breaker opens exactly when the failures counted since the
    last success reach the threshold (floored at one): before that it stays
    closed and admits; the failure that reaches it opens the circuit under
    the next generation, stamped with that failure's time; and the open
    breaker rejects every request until the timeout has elapsed. *)
Theorem breaker_trips_at_threshold cfg b g rs r :
  config_ok cfg -> wf cfg b -> abs_of b = Abs g (AClosed 0) ->
  Forall (counted cfg) (rs ++ [r]) -> Z.of_nat (length rs) + 1 = trip_point cfg ->
  let b1 := foldl (report_failure cfg) b rs in
  let b2 := foldl (report_failure cfg) b (rs ++ [r]) in
  abs_of b1 = Abs g (AClosed (Z.of_nat (length rs)))
  /\ (forall now, (can_execute cfg now b1).1 = Ok false)
  /\ abs_of b2 = Abs (wrapping_add 32 g 1) (AOpen (fr_tick r))
  /\ (forall now, saturating_sub now (fr_tick r) < saturating_mul 64 (timeout_seconds cfg) 1000 ->
        (can_execute cfg now b2).1 = Err CircuitOpenError).
Proof.
  intros Hcfg Hb%wf_shape Ha Hrs Hlen b1 b2.
  apply Forall_app in Hrs as [Hrs Hr]; inversion Hr; subst.
  destruct (failures_below_threshold cfg g rs b 0) as [Hs1 Ha1]; try done; [lia|].
  fold b1 in Hs1, Ha1. rewrite Z.add_0_l in Ha1.
  assert (Hb2 : b2 = report_failure cfg b1 r) by (unfold b2; by rewrite foldl_app).
  destruct (report_failure_closed cfg b1 g (Z.of_nat (length rs)) r) as [Hs2 Ha2]; try done; [lia|].
  rewrite <- Hb2 in Hs2, Ha2. destruct (Z.ltb_spec (Z.of_nat (length rs) + 1) (trip_point cfg)); [lia|].
  split_and!; try done.
  - intros now. destruct (refine_can_execute cfg None now b1 Hs1) as [_ Hce].
    unfold can_execute. destruct (can_execute_inner cfg None now b1). rewrite Ha1 in Hce.
    by apply pair_equal_spec in Hce as [-> _].
  - intros now Hlt. destruct (open_rejects cfg b2 _ _ now Hs2 Ha2 Hlt) as (b' & -> & _). done.
Qed.

Definition two_strikes : CircuitBreakerConfig := {|
  failure_threshold := 2; success_threshold := 2; timeout_seconds := 30;
  failure_status_codes := [500]; half_open_max_requests := 1; trip_on_connection_errors := true;
|}.

Lemma two_strikes_ok : config_ok two_strikes.
Proof. unfold config_ok, in_width; simpl; lia. Qed.

Lemma new_wf cfg : wf cfg new.
Proof. apply wf_shape, refine_new. Qed.

(** The default configuration refines the abstract breaker from the start. *)
Lemma breaker_refines_abstract_witness :
  wf default_config new
  /\ abs_of (record_success default_config true new) = Abs 0 (AClosed 0).
Proof.
  split; [apply new_wf|].
  destruct (breaker_refines_abstract default_config new (new_wf _)) as (_ & H & _).
  destruct (H true) as [_ E]. rewrite E. destruct (refine_new default_config) as [_ ->]. reflexivity.
Defined.

(** Two counted failures, a status and a connection error, open the breaker. *)
Lemma breaker_trips_at_threshold_witness :
  abs_of (foldl (report_failure two_strikes) new
            ([Failure 500 false false 10 20] ++ [Failure 0 true false 11 21]))
  = Abs 1 (AOpen 11).
Proof.
  refine (proj1 (proj2 (proj2 (breaker_trips_at_threshold two_strikes new 0
    [Failure 500 false false 10 20] (Failure 0 true false 11 21)
    two_strikes_ok (new_wf _) (proj2 (refine_new two_strikes)) _ _)))).
  - repeat constructor.
  - reflexivity.
Defined.

Lemma probe_round_half_open cfg b g s now :
  config_ok cfg -> shape cfg b -> abs_of b = Abs g (AHalfOpen 0 s) ->
  0 <= s < close_point cfg ->
  exists b', probe_round cfg now b = (Ok true, b') /\ shape cfg b'
  /\ abs_of b' = Abs g (if s + 1 <? close_point cfg then AHalfOpen 0 (s + 1) else AClosed 0).
Proof.
  intros (_ & Hs & _) Hb Ha Hlt. unfold probe_round, can_execute.
  destruct (refine_can_execute cfg None now b Hb) as [H1 H2].
  destruct (can_execute_inner cfg None now b) as [r b1]. rewrite Ha in H2.
  unfold abs_can_execute in H2; simpl in H1, H2. assert (Hm := half_open_max_bounds cfg).
  destruct (Z.ltb_spec 0 (half_open_max cfg)); [|lia].
  apply pair_equal_spec in H2 as [-> H2].
  destruct (refine_record_success cfg true b1 H1) as [H3 H4].
  eexists; split_and!; [done|done|]. rewrite H4, H2. unfold abs_record_success; simpl.
  unfold close_point, wrapping_add, in_width in *. rewrite wrap_small by (unfold in_width; lia). zcases.
Qed.

Lemma probe_round_open cfg b g t now :
  config_ok cfg -> shape cfg b -> abs_of b = Abs g (AOpen t) ->
  saturating_mul 64 (timeout_seconds cfg) 1000 <= saturating_sub now t ->
  exists b', probe_round cfg now b = (Ok true, b') /\ shape cfg b'
  /\ abs_of b' = Abs g (if 1 <? close_point cfg then AHalfOpen 0 1 else AClosed 0).
Proof.
  intros (_ & Hs & _) Hb Ha Hlt. unfold probe_round, can_execute.
  destruct (refine_can_execute cfg None now b Hb) as [H1 H2].
  destruct (can_execute_inner cfg None now b) as [r b1]. rewrite Ha in H2.
  unfold abs_can_execute in H2; simpl in H1, H2.
  destruct (Z.leb_spec (saturating_mul 64 (timeout_seconds cfg) 1000) (saturating_sub now t)); [|lia].
  apply pair_equal_spec in H2 as [-> H2].
  destruct (refine_record_success cfg true b1 H1) as [H3 H4].
  eexists; split_and!; [done|done|]. rewrite H4, H2. unfold abs_record_success; simpl.
  unfold close_point. change (wrapping_add 32 0 1) with 1. zcases.
Qed.

Lemma probe_rounds_half_open cfg g : forall nows b s,
  config_ok cfg -> shape cfg b -> abs_of b = Abs g (AHalfOpen 0 s) ->
  0 <= s -> s + Z.of_nat (length nows) <= close_point cfg -> s < close_point cfg ->
  let '(rs, b') := probe_rounds cfg nows b in
  rs = replicate (length nows) (Ok true)
  /\ abs_of b' = Abs g (if s + Z.of_nat (length nows) <? close_point cfg
                        then AHalfOpen 0 (s + Z.of_nat (length nows)) else AClosed 0).
Proof.
  induction nows as [|now nows IH]; intros b s Hcfg Hb Ha H0 Hle Hlt; simpl in *.
  - rewrite Ha, Z.add_0_r. destruct (Z.ltb_spec s (close_point cfg)); [done|lia].
  - destruct (probe_round_half_open cfg b g s now) as (b1 & -> & Hb1 & Ha1); try done.
    destruct (Z.ltb_spec (s + 1) (close_point cfg)).
    + specialize (IH b1 (s + 1) Hcfg Hb1 Ha1). destruct (probe_rounds cfg nows b1) as [rs b'].
      destruct IH as [-> ->]; try lia. split; [done|].
      by replace (s + 1 + Z.of_nat (length nows)) with (s + Z.of_nat (S (length nows))) by lia.
    + assert (nows = []) as -> by (destruct nows; simpl in *; [done|lia]). simpl.
      change (Z.of_nat 1) with 1. destruct (Z.ltb_spec (s + 1) (close_point cfg)); [lia|done].
Qed.

(** Once the timeout has elapsed an open breaker admits the next request
    as a probe; while successful probes come one after the other, every one is
    admitted, and the circuit closes with clean counters exactly at the
    [success_threshold]-th (floored at one), under the same generation. *)
Theorem breaker_recovers cfg b g t now nows :
  config_ok cfg -> wf cfg b -> abs_of b = Abs g (AOpen t) ->
  saturating_mul 64 (timeout_seconds cfg) 1000 <= saturating_sub now t ->
  1 + Z.of_nat (length nows) <= close_point cfg ->
  let n := 1 + Z.of_nat (length nows) in
  let '(rs, b') := probe_rounds cfg (now :: nows) b in
  rs = replicate (length (now :: nows)) (Ok true)
  /\ abs_of b' = Abs g (if n <? close_point cfg then AHalfOpen 0 n else AClosed 0).
Proof.
  intros Hcfg Hb%wf_shape Ha Hto Hle n. simpl.
  destruct (probe_round_open cfg b g t now Hcfg Hb Ha Hto) as (b1 & -> & Hb1 & Ha1).
  destruct (Z.ltb_spec 1 (close_point cfg)).
  - assert (H' := probe_rounds_half_open cfg g nows b1 1 Hcfg Hb1 Ha1).
    destruct (probe_rounds cfg nows b1) as [rs b']. by destruct H' as [-> ->]; [lia..|].
  - assert (nows = []) as -> by (destruct nows; simpl in *; [done|lia]). simpl.
    change n with 1. destruct (Z.ltb_spec 1 (close_point cfg)); [lia|done].
Qed.

Lemma opened_wf cfg g f s t e : is_u32 g -> is_u32 f -> is_u32 s -> wf cfg (Opened g f s t e).
Proof. intros. apply wf_shape. by constructor. Qed.

(** Thirty seconds after it opened, two successful probes close the breaker. *)
Lemma breaker_recovers_witness :
  abs_of (probe_rounds two_strikes [31000; 31001] (Opened 7 2 0 1000 0)).2 = Abs 7 (AClosed 0).
Proof.
  assert (H := breaker_recovers two_strikes (Opened 7 2 0 1000 0) 7 1000 31000 [31001]
    two_strikes_ok). cbv zeta in H.
  destruct (probe_rounds two_strikes [31000; 31001] (Opened 7 2 0 1000 0)) as [rs b'].
  refine (proj2 (H _ _ _ _)).
  - apply opened_wf; unfold in_width; lia.
  - apply abs_of_Opened; unfold in_width; lia.
  - vm_compute; discriminate.
  - vm_compute; discriminate.
Defined.
