(* ===== verification/BreakerOutcome.v ===== *)
(** * Backend outcomes and the breaker ([src/src/proxy/backend_dispatch.rs])

    How a finished request is classified and reported to its breaker, directly
    or, for a streaming response, at body completion with the open generation
    captured at admission. *)

From S2P Require Import Prelude BreakerWord CircuitBreaker.

(** [ErrorClass] ([src/src/retry.rs]). *)
Inductive ErrorClass :=
| ConnectionTimeout | ConnectionRefused | ConnectionReset | ConnectionClosed
| DnsLookupError | TlsError | ReadWriteTimeout | ClientDisconnect | ProtocolError
| ResponseBodyTooLarge | GatewayBufferCapacity | RequestBodyTooLarge
| ConnectionPoolError | PortExhaustion | GracefulRemoteClose | DispatchPolicyRejected
| BackendConnectionLimit | TrustWithdrawn | RequestError.

#[global] Instance ErrorClass_eq_dec : EqDecision ErrorClass.
Proof. solve_decision. Defined.

Definition client_side_no_backend_signal (error_class : option ErrorClass) : bool :=
  match error_class with
  | Some ClientDisconnect | Some RequestBodyTooLarge | Some DispatchPolicyRejected
  | Some GatewayBufferCapacity | Some BackendConnectionLimit | Some TrustWithdrawn => true
  | _ => false
  end.

Definition error_class_is_post_wire_backend_failure (error_class : option ErrorClass) : bool :=
  match error_class with
  | Some ReadWriteTimeout | Some ConnectionReset | Some ConnectionClosed
  | Some ProtocolError | Some ResponseBodyTooLarge => true
  | _ => false
  end.

(** The call a classification makes on the breaker. *)
Inductive record_call :=
| CallNeutral
| CallSuccess
| CallFailure (status : Z) (connection_error : bool).

Record outcome := Outcome {
  response_status : Z;
  connection_error : bool;
  error_class : option ErrorClass;
}.

Definition classify (failure_codes : list Z) (o : outcome) : record_call :=
  if client_side_no_backend_signal (error_class o) then CallNeutral
  else if connection_error o then CallFailure (response_status o) true
  else if bool_decide (response_status o ∈ failure_codes) then CallFailure (response_status o) false
  else if error_class_is_post_wire_backend_failure (error_class o)
  then CallFailure (response_status o) true
  else CallSuccess.

Definition apply_call (cfg : CircuitBreakerConfig) (call : record_call) (probe : bool)
    (clocks : Z * Z) (b : breaker) : breaker :=
  match call with
  | CallNeutral => record_neutral probe b
  | CallSuccess => record_success cfg probe b
  | CallFailure status conn => record_failure cfg status conn probe clocks b
  end.

Definition apply_circuit_breaker_outcome (cfg : CircuitBreakerConfig) (o : outcome)
    (is_half_open_probe : bool) (clocks : Z * Z) (b : breaker) : breaker :=
  apply_call cfg (classify (failure_status_codes cfg) o) is_half_open_probe clocks b.

Definition apply_deferred_circuit_breaker_outcome (cfg : CircuitBreakerConfig) (o : outcome)
    (is_half_open_probe : bool) (admission_open_epoch : Z) (clocks : Z * Z) (b : breaker)
    : breaker :=
  if negb (open_epoch b =? admission_open_epoch) then record_neutral is_half_open_probe b
  else apply_circuit_breaker_outcome cfg o is_half_open_probe clocks b.

Definition circuit_breaker_outcome_is_failure (failure_codes : list Z) (o : outcome) : bool :=
  if client_side_no_backend_signal (error_class o) then false
  else connection_error o || bool_decide (response_status o ∈ failure_codes)
       || error_class_is_post_wire_backend_failure (error_class o).

(** The predicate the gRPC recorder uses to report early agrees with what
    the full classification reports: it holds exactly when the outcome is
    recorded as a failure, and an outcome that is neither a failure nor
    client-side is recorded as a success. *)
Theorem outcome_is_failure_agrees codes o :
  (circuit_breaker_outcome_is_failure codes o = true
     <-> exists conn, classify codes o = CallFailure (response_status o) conn)
  /\ (client_side_no_backend_signal (error_class o) = true <-> classify codes o = CallNeutral)
  /\ (circuit_breaker_outcome_is_failure codes o = false
      /\ client_side_no_backend_signal (error_class o) = false
      <-> classify codes o = CallSuccess).
Proof.
  unfold circuit_breaker_outcome_is_failure, classify.
  destruct (client_side_no_backend_signal (error_class o)), (connection_error o),
    (bool_decide (response_status o ∈ codes)),
    (error_class_is_post_wire_backend_failure (error_class o)); simpl; naive_solver.
Qed.

(** A streaming outcome that settles after the breaker has opened a new
    generation changes no health: state, generation and both counters stay as
    they were, and at most one probe slot is given back. *)
Theorem deferred_stale_is_neutral cfg o probe epoch clocks b :
  wf cfg b -> open_epoch b <> epoch ->
  let b' := apply_deferred_circuit_breaker_outcome cfg o probe epoch clocks b in
  open_epoch b' = open_epoch b /\ state_name b' = state_name b
  /\ failure_count b' = failure_count b /\ success_count b' = success_count b
  /\ last_failure_tick_ms b' = last_failure_tick_ms b
  /\ half_open_in_flight b' =
       (if probe then Z.max 0 (half_open_in_flight b - 1) else half_open_in_flight b).
Proof.
  intros Hb%wf_shape He. unfold apply_deferred_circuit_breaker_outcome.
  destruct (Z.eqb_spec (open_epoch b) epoch); [done|]. simpl. unfold record_neutral.
  destruct probe; [|done]. simpl. unfold open_epoch, state_name, half_open_in_flight.
  destruct Hb.
  - rewrite release_Closed by done. simpl. by word_fields.
  - rewrite release_Opened by done. simpl. by word_fields.
  - rewrite (release_HalfOpen cfg) by done. simpl.
    assert (fits g STATE_HALF_OPEN (Z.max 0 (c - 1))) by (apply (fits_half_open cfg); [done|lia]).
    rewrite ?packed_generation_pack, ?packed_state_pack, ?packed_count_pack
      by eauto using fits_half_open. done.
Qed.

(** A probe of generation 3 that settles in the half-open cycle of generation 4. *)
Lemma deferred_stale_is_neutral_witness :
  half_open_in_flight (apply_deferred_circuit_breaker_outcome default_config
    (Outcome 500 false None) true 3 (0, 0) (HalfOpen 4 1 0 0 0 0)) = 0.
Proof.
  assert (H4 : is_u32 4) by (unfold in_width; lia).
  assert (H0 : is_u32 0) by (unfold in_width; lia).
  assert (H1 : 0 <= 1 <= half_open_max default_config)
    by (assert (H := half_open_max_bounds default_config); lia).
  destruct (deferred_stale_is_neutral default_config (Outcome 500 false None) true 3 (0, 0)
    (HalfOpen 4 1 0 0 0 0)) as (_ & _ & _ & _ & _ & E).
  - apply wf_shape. by constructor.
  - unfold open_epoch; simpl. rewrite packed_generation_pack; [lia|].
    by apply (fits_half_open default_config).
  - rewrite E. unfold half_open_in_flight; simpl.
    rewrite packed_count_pack by by apply (fits_half_open default_config). reflexivity.
Defined.
