(* ===== verification/BreakerConcurrency.v ===== *)
(** * Concurrent requests on one breaker ([src/src/circuit_breaker.rs])

    The methods as small-step programs: one step per atomic load, store or
    read-modify-write, in program order, interleaved arbitrarily between
    requests under sequential consistency. A weak compare-exchange may fail
    spuriously. [release_half_open_slot] is one step: [fetch_update] retries
    until its compare-exchange applies the pure closure to the current value.

    The system carries three ghost components the code does not store: the
    number of transitions into OPEN ([epoch]), the epoch in which a request
    acquired the probe slot it still holds ([slot]), and the number of slots
    that stragglers of earlier epochs have given back in this epoch ([stray]). *)

From S2P Require Import Prelude BreakerWord CircuitBreaker BreakerOutcome.

(** ** Programs *)

Inductive pc :=
(* can_execute_inner *)
| CeLoad
| CeTick (p : Z)
| CeCas (g : Z)
| CeStore
(* try_acquire_half_open_slot *)
| HoLoad
| HoCas (p : Z)
(* record_success *)
| RsLoad (probe : bool)
| RsRelease
| RsRecheck
| RsAdd
| RsCloseLoad
| RsCloseCas (p : Z)
| RsStoreF
| RsStoreS
| RsClosedRelease
| RsClosedLoad
| RsClosedStore
(* release_half_open_slot as the last action *)
| RelEnd
(* record_failure_inner *)
| RfLoad (probe : bool)
| RfCTick (probe : bool) (tick wall : Z)
| RfCEpoch (probe : bool) (wall : Z)
| RfCRelease
| RfCAdd
| RfCRecheck
| RfCGen
| RfCCas (g : Z)
| RfCVerify (g : Z)
| RfCRollback (g : Z)
| RfHTick (tick wall : Z)
| RfHEpoch (wall : Z)
(* reopen_after_probe_failure *)
| RoStore
| RoLoad
| RoCas (p : Z).

Inductive next := Goto (q : pc) | Admit (r : admission) | Return.

(** What the step did to the request's probe slot. *)
Inductive event := NoEvent | Acquired | Released.

(** What the environment supplies to one step. *)
Record oracle := Oracle { spurious : bool; clock : Z; wall_clock : Z }.

Definition weak_compare_exchange (o : oracle) (b : breaker) (expected new : Z)
    : result breaker Z :=
  if spurious o then Err (packed b) else compare_exchange b expected new.

Definition thread_step (cfg : CircuitBreakerConfig) (o : oracle) (b : breaker) (q : pc)
    : breaker * next * event :=
  match q with
  | CeLoad =>
    let p := packed b in
    if packed_state p =? STATE_CLOSED then (b, Admit (Ok false), NoEvent)
    else if packed_state p =? STATE_OPEN then (b, Goto (CeTick p), NoEvent)
    else if packed_state p =? STATE_HALF_OPEN then (b, Goto HoLoad, NoEvent)
    else (b, Admit (Ok false), NoEvent)
  | CeTick p =>
    if saturating_mul 64 (timeout_seconds cfg) 1000
         <=? saturating_sub (clock o) (last_failure_tick_ms b)
    then (b, Goto (CeCas (packed_generation p)), NoEvent)
    else (b, Admit (Err CircuitOpenError), NoEvent)
  | CeCas g =>
    match compare_exchange b (pack_full g STATE_OPEN 0) (pack_full g STATE_HALF_OPEN 1) with
    | Ok b' => (b', Goto CeStore, Acquired)
    | Err actual =>
      if packed_state actual =? STATE_HALF_OPEN then (b, Goto HoLoad, NoEvent)
      else if packed_state actual =? STATE_CLOSED then (b, Admit (Ok false), NoEvent)
      else (b, Admit (Err CircuitOpenError), NoEvent)
    end
  | CeStore => (with_successes b 0, Admit (Ok true), NoEvent)
  | HoLoad =>
    let p := packed b in
    if packed_state p =? STATE_HALF_OPEN then
      if half_open_max cfg <=? packed_count p then (b, Admit (Err CircuitOpenError), NoEvent)
      else (b, Goto (HoCas p), NoEvent)
    else if packed_state p =? STATE_OPEN then (b, Admit (Err CircuitOpenError), NoEvent)
    else (b, Admit (Ok false), NoEvent)
  | HoCas p =>
    match weak_compare_exchange o b p
            (pack_full (packed_generation p) STATE_HALF_OPEN (packed_count p + 1)) with
    | Ok b' => (b', Admit (Ok true), Acquired)
    | Err _ => (b, Goto HoLoad, NoEvent)
    end
  | RsLoad probe =>
    let st := packed_state (packed b) in
    if st =? STATE_HALF_OPEN then (b, Goto (if probe then RsRelease else RsRecheck), NoEvent)
    else if (st =? STATE_OPEN) && probe then (b, Goto RelEnd, NoEvent)
    else if st =? STATE_CLOSED
    then (b, Goto (if probe then RsClosedRelease else RsClosedLoad), NoEvent)
    else (b, Return, NoEvent)
  | RsRelease => (release_half_open_slot b, Goto RsRecheck, Released)
  | RsRecheck =>
    if negb (packed_state (packed b) =? STATE_HALF_OPEN) then (b, Return, NoEvent)
    else (b, Goto RsAdd, NoEvent)
  | RsAdd =>
    let successes := wrapping_add 32 (success_count b) 1 in
    (with_successes b successes,
     if success_threshold cfg <=? successes then Goto RsCloseLoad else Return, NoEvent)
  | RsCloseLoad =>
    let p := packed b in
    if negb (packed_state p =? STATE_HALF_OPEN) then (b, Return, NoEvent)
    else (b, Goto (RsCloseCas p), NoEvent)
  | RsCloseCas p =>
    match weak_compare_exchange o b p (pack_full (packed_generation p) STATE_CLOSED 0) with
    | Ok b' => (b', Goto RsStoreF, NoEvent)
    | Err _ => (b, Goto RsCloseLoad, NoEvent)
    end
  | RsStoreF => (with_failures b 0, Goto RsStoreS, NoEvent)
  | RsStoreS => (with_successes b 0, Return, NoEvent)
  | RsClosedRelease => (release_half_open_slot b, Goto RsClosedLoad, Released)
  | RsClosedLoad =>
    (b, if 0 <? failure_count b then Goto RsClosedStore else Return, NoEvent)
  | RsClosedStore => (with_failures b 0, Return, NoEvent)
  | RelEnd => (release_half_open_slot b, Return, Released)
  | RfLoad probe =>
    let st := packed_state (packed b) in
    if st =? STATE_CLOSED then (b, Goto (RfCTick probe (clock o) (wall_clock o)), NoEvent)
    else if st =? STATE_HALF_OPEN then (b, Goto (RfHTick (clock o) (wall_clock o)), NoEvent)
    else if (st =? STATE_OPEN) && probe then (b, Goto RelEnd, NoEvent)
    else (b, Return, NoEvent)
  | RfCTick probe tick wall => (with_tick b tick, Goto (RfCEpoch probe wall), NoEvent)
  | RfCEpoch probe wall =>
    (with_epoch_ms b wall, Goto (if probe then RfCRelease else RfCAdd), NoEvent)
  | RfCRelease => (release_half_open_slot b, Goto RfCAdd, Released)
  | RfCAdd =>
    let failures := wrapping_add 32 (failure_count b) 1 in
    (with_failures b failures,
     if failure_threshold cfg <=? failures then Goto RfCRecheck else Return, NoEvent)
  | RfCRecheck =>
    (b, if failure_count b <? failure_threshold cfg then Return else Goto RfCGen, NoEvent)
  | RfCGen => (b, Goto (RfCCas (packed_generation (packed b))), NoEvent)
  | RfCCas g =>
    match compare_exchange b (pack_full g STATE_CLOSED 0)
            (pack_full (wrapping_add 32 g 1) STATE_OPEN 0) with
    | Ok b' => (b', Goto (RfCVerify g), NoEvent)
    | Err _ => (b, Return, NoEvent)
    end
  | RfCVerify g =>
    (b, if failure_count b <? failure_threshold cfg then Goto (RfCRollback g) else Return, NoEvent)
  | RfCRollback g =>
    match compare_exchange b (pack_full (wrapping_add 32 g 1) STATE_OPEN 0)
            (pack_full (wrapping_add 32 g 1) STATE_CLOSED 0) with
    | Ok b' => (b', Return, NoEvent)
    | Err _ => (b, Return, NoEvent)
    end
  | RfHTick tick wall => (with_tick b tick, Goto (RfHEpoch wall), NoEvent)
  | RfHEpoch wall => (with_epoch_ms b wall, Goto RoStore, NoEvent)
  | RoStore => (with_successes b 0, Goto RoLoad, NoEvent)
  | RoLoad =>
    let p := packed b in
    if packed_state p =? STATE_OPEN then (b, Return, NoEvent) else (b, Goto (RoCas p), NoEvent)
  | RoCas p =>
    match weak_compare_exchange o b p
            (pack_full (wrapping_add 32 (packed_generation p) 1) STATE_OPEN 0) with
    | Ok b' => (b', Return, NoEvent)
    | Err _ => (b, Goto RoLoad, NoEvent)
    end
  end.

(** The first program point of the call an outcome makes. *)
Definition start_call (cfg : CircuitBreakerConfig) (call : record_call) (probe : bool) : next :=
  match call with
  | CallNeutral => if probe then Goto RelEnd else Return
  | CallSuccess => Goto (RsLoad probe)
  | CallFailure status conn =>
    if failure_counts cfg status conn then Goto (RfLoad probe)
    else if probe then Goto RelEnd else Return
  end.

(** ** The system *)

(** A request: its admission (with the generation read just before), its time
    in flight, and the recording of its outcome. *)
Inductive stage :=
| Arriving
| Admitting (admission_epoch : Z) (q : pc)
| InFlight (admission_epoch : Z) (probe : bool)
| Recording (q : pc)
| Finished.

Record request := Request { req_stage : stage; slot : option nat }.

Record sys := Sys { brk : breaker; epoch : nat; stray : nat; reqs : list request }.

Definition initial : sys := Sys new 0 0 [].

Inductive cmd :=
| Spawn
| Step (i : nat) (o : oracle)
| Complete (i : nat) (deferred : bool) (out : outcome).

(** The ghost slot after a step that ended in [n]. *)
Definition next_slot (e : nat) (ev : event) (n : next) (s : option nat) : option nat :=
  match ev, n with
  | Acquired, _ => Some e
  | Released, _ => None
  | NoEvent, Return => None
  | NoEvent, _ => s
  end.

Definition after_admission (ep : Z) (n : next) : stage :=
  match n with
  | Goto q => Admitting ep q
  | Admit (Ok probe) => InFlight ep probe
  | Admit (Err _) => Finished
  | Return => Finished
  end.

Definition after_recording (n : next) : stage :=
  match n with
  | Goto q => Recording q
  | _ => Finished
  end.

Definition opens (b b' : breaker) : bool :=
  (packed_state (packed b') =? STATE_OPEN) && negb (packed_state (packed b) =? STATE_OPEN).

(** A release takes effect on the current cycle's count though the releasing
    request holds no slot of that cycle. *)
Definition is_stray (s : sys) (r : request) (ev : event) : bool :=
  match ev with
  | Released => (0 <? packed_count (packed (brk s))) && negb (bool_decide (slot r = Some (epoch s)))
  | _ => false
  end.

Definition commit (s : sys) (i : nat) (r : request) (b' : breaker) (ev : event)
    (n : next) (after : next -> stage) : sys :=
  Sys b'
    (if opens (brk s) b' then S (epoch s) else epoch s)
    (if opens (brk s) b' then O else if is_stray s r ev then S (stray s) else stray s)
    (<[i := Request (after n) (next_slot (epoch s) ev n (slot r))]> (reqs s)).

Definition exec (cfg : CircuitBreakerConfig) (s : sys) (c : cmd) : option sys :=
  match c with
  | Spawn => Some (Sys (brk s) (epoch s) (stray s) (reqs s ++ [Request Arriving None]))
  | Step i o =>
    match reqs s !! i with
    | None => None
    | Some r =>
      match req_stage r with
      | Arriving =>
        Some (commit s i r (brk s) NoEvent (Goto CeLoad) (after_admission (open_epoch (brk s))))
      | Admitting ep q =>
        let '(b', n, ev) := thread_step cfg o (brk s) q in
        Some (commit s i r b' ev n (after_admission ep))
      | Recording q =>
        let '(b', n, ev) := thread_step cfg o (brk s) q in
        Some (commit s i r b' ev n after_recording)
      | _ => None
      end
    end
  | Complete i deferred out =>
    match reqs s !! i with
    | None => None
    | Some r =>
      match req_stage r with
      | InFlight ep probe =>
        let call :=
          if deferred && negb (open_epoch (brk s) =? ep) then CallNeutral
          else classify (failure_status_codes cfg) out in
        Some (commit s i r (brk s) NoEvent (start_call cfg call probe) after_recording)
      | _ => None
      end
    end
  end.

Inductive reachable (cfg : CircuitBreakerConfig) : sys -> Prop :=
| reachable_init : reachable cfg initial
| reachable_step s c s' : reachable cfg s -> exec cfg s c = Some s' -> reachable cfg s'.

(** The slots of epoch [e] that requests hold. *)
Definition tokens (e : nat) (rs : list request) : nat :=
  length (filter (fun r => slot r = Some e) rs).

Fixpoint exec_all (cfg : CircuitBreakerConfig) (s : sys) (cs : list cmd) : option sys :=
  match cs with
  | [] => Some s
  | c :: cs => match exec cfg s c with Some s' => exec_all cfg s' cs | None => None end
  end.

(** ** Typing of program points *)

Definition admission_pc (q : pc) : bool :=
  match q with
  | CeLoad | CeTick _ | CeCas _ | CeStore | HoLoad | HoCas _ => true
  | _ => false
  end.

(** Which program points hold a slot, and what the word they loaded was. *)
Definition pc_ok (cfg : CircuitBreakerConfig) (s : option nat) (q : pc) : Prop :=
  match q with
  | CeStore | RsRelease | RsClosedRelease | RelEnd | RfCRelease => is_Some s
  | HoCas p => s = None /\ packed_state p = STATE_HALF_OPEN /\ packed_count p < half_open_max cfg
  | CeCas g | RfCCas g | RfCVerify g | RfCRollback g => s = None /\ is_u32 g
  | RsCloseCas p => s = None /\ packed_state p = STATE_HALF_OPEN
  | RoCas p => packed_state p <> STATE_OPEN
  | RsLoad probe | RfLoad probe | RfCTick probe _ _ | RfCEpoch probe _ =>
    if probe then is_Some s else s = None
  | RfHTick _ _ | RfHEpoch _ | RoStore | RoLoad => True
  | _ => s = None
  end.

Definition next_ok (cfg : CircuitBreakerConfig) (admitting : bool) (s : option nat) (n : next) : Prop :=
  match n with
  | Goto q => pc_ok cfg s q /\ admission_pc q = admitting
  | Admit (Ok true) => is_Some s /\ admitting = true
  | Admit _ => s = None /\ admitting = true
  | Return => s = None /\ admitting = false
  end.

Definition stage_ok (cfg : CircuitBreakerConfig) (s : option nat) (g : stage) : Prop :=
  match g with
  | Arriving | Finished => s = None
  | Admitting _ q => pc_ok cfg s q /\ admission_pc q = true
  | InFlight _ probe => if probe then is_Some s else s = None
  | Recording q => pc_ok cfg s q /\ admission_pc q = false
  end.

(** ** The effect of a step on the word and the slot *)

Definition release_word (p : Z) : Z :=
  if packed_count p =? 0 then p
  else pack_full (packed_generation p) (packed_state p) (packed_count p - 1).

Inductive effect (cfg : CircuitBreakerConfig) (e : nat)
    : Z -> option nat -> event -> Z -> option nat -> Prop :=
| EffQuiet w s : effect cfg e w s NoEvent w s
| EffStart g : is_u32 g ->
    effect cfg e (pack_full g STATE_OPEN 0) None Acquired (pack_full g STATE_HALF_OPEN 1) (Some e)
| EffAcquire g c : is_u32 g -> 0 <= c < half_open_max cfg ->
    effect cfg e (pack_full g STATE_HALF_OPEN c) None Acquired
      (pack_full g STATE_HALF_OPEN (c + 1)) (Some e)
| EffRelease w e' : effect cfg e w (Some e') Released (release_word w) None
| EffDrop w s : packed_state w <> STATE_HALF_OPEN -> effect cfg e w s NoEvent w None
| EffOpen w s : packed_state w <> STATE_OPEN ->
    effect cfg e w s NoEvent (pack_full (wrapping_add 32 (packed_generation w) 1) STATE_OPEN 0) None
| EffClose g c : is_u32 g -> 0 <= c <= half_open_max cfg ->
    effect cfg e (pack_full g STATE_HALF_OPEN c) None NoEvent (pack_full g STATE_CLOSED 0) None
| EffRollback g : is_u32 g ->
    effect cfg e (pack_full g STATE_OPEN 0) None NoEvent (pack_full g STATE_CLOSED 0) None.
#[export] Hint Constructors effect : breaker.

Lemma packed_release b : packed (release_half_open_slot b) = release_word (packed b).
Proof. unfold release_half_open_slot, release_word. by destruct (_ =? 0). Qed.

Lemma compare_exchange_inv b p new :
  match compare_exchange b p new with
  | Ok b' => packed b = p /\ packed b' = new
  | Err actual => actual = packed b
  end.
Proof. unfold compare_exchange. by destruct (Z.eqb_spec (packed b) p). Qed.

Lemma weak_compare_exchange_inv o b p new :
  match weak_compare_exchange o b p new with
  | Ok b' => packed b = p /\ packed b' = new
  | Err _ => True
  end.
Proof.
  unfold weak_compare_exchange. destruct (spurious o); [done|].
  assert (H := compare_exchange_inv b p new). by destruct (compare_exchange b p new).
Qed.

(** The loaded word of a half-open compare-exchange, when it succeeds. *)
Lemma half_open_word cfg p :
  wf_word (half_open_max cfg) p -> packed_state p = STATE_HALF_OPEN ->
  p = pack_full (packed_generation p) STATE_HALF_OPEN (packed_count p)
  /\ is_u32 (packed_generation p) /\ 0 <= packed_count p <= half_open_max cfg.
Proof.
  intros (Hp & _ & Hc & _) Hst. destruct (unpack_fits p) as (Hg & _ & Hc').
  rewrite <- Hst, pack_unpack by done. split_and!; try done; lia.
Qed.

Lemma wf_word_state max p :
  wf_word max p ->
  packed_state p = STATE_CLOSED \/ packed_state p = STATE_OPEN \/ packed_state p = STATE_HALF_OPEN.
Proof. intros (_ & H & _). unfold STATE_CLOSED, STATE_OPEN, STATE_HALF_OPEN. lia. Qed.

Lemma generation_u32 p : is_u32 (packed_generation p).
Proof. by destruct (unpack_fits p). Qed.
#[export] Hint Resolve generation_u32 : breaker.

Definition step_spec (cfg : CircuitBreakerConfig) (e : nat) (b : breaker) (q : pc)
    (s : option nat) (out : breaker * next * event) : Prop :=
  let '(b', n, ev) := out in
  effect cfg e (packed b) s ev (packed b') (next_slot e ev n s)
  /\ next_ok cfg (admission_pc q) (next_slot e ev n s) n.

(** Discharge a program point that does not write the word: branch on what it
    read. *)
Ltac read_point :=
  unfold step_spec; simpl in *; repeat match goal with
  | H : _ /\ _ |- _ => destruct H
  | H : is_Some _ |- _ => destruct H as [? ->]
  | H : context [if ?c then _ else _] |- _ => is_var c; destruct c
  | |- context [if negb (?x =? ?y) then _ else _] => destruct (Z.eqb_spec x y)
  | |- context [if (?x =? ?y) && ?c then _ else _] => destruct (Z.eqb_spec x y)
  | |- context [if ?x =? ?y then _ else _] => destruct (Z.eqb_spec x y)
  | |- context [if ?x <=? ?y then _ else _] => destruct (Z.leb_spec x y)
  | |- context [if ?x <? ?y then _ else _] => destruct (Z.ltb_spec x y)
  end; simplify_eq/=; rewrite ?packed_release; eauto 6 with breaker.

Section Points.
Context (cfg : CircuitBreakerConfig) (o : oracle) (b : breaker) (s : option nat) (e : nat).
Hypothesis Hw : wf_word (half_open_max cfg) (packed b).

Lemma start_point g :
pc_ok cfg s (CeCas g) -> step_spec cfg e b (CeCas g) s (thread_step cfg o b (CeCas g)).
Proof.
intros [-> Hg]; simpl. assert (Hc := compare_exchange_inv b (pack_full g STATE_OPEN 0)
  (pack_full g STATE_HALF_OPEN 1)).
destruct (compare_exchange _ _ _) as [b'|actual].
- destruct Hc as [E E']. split; simpl; [rewrite E, E'|]; eauto with breaker.
- read_point.
Qed.

Lemma acquire_point p :
pc_ok cfg s (HoCas p) -> step_spec cfg e b (HoCas p) s (thread_step cfg o b (HoCas p)).
Proof.
intros (-> & Hst & Hlt); simpl. assert (Hc := weak_compare_exchange_inv o b p
  (pack_full (packed_generation p) STATE_HALF_OPEN (packed_count p + 1))).
destruct (weak_compare_exchange _ _ _ _) as [b'|actual]; [|read_point].
destruct Hc as [<- E']. destruct (half_open_word cfg _ Hw Hst) as (E & Hg & Hcnt).
split; simpl; [|eauto]. rewrite E', E at 1. constructor; [done|lia].
Qed.

Lemma close_point_ok p :
pc_ok cfg s (RsCloseCas p) ->
step_spec cfg e b (RsCloseCas p) s (thread_step cfg o b (RsCloseCas p)).
Proof.
intros (-> & Hst); simpl. assert (Hc := weak_compare_exchange_inv o b p
  (pack_full (packed_generation p) STATE_CLOSED 0)).
destruct (weak_compare_exchange _ _ _ _) as [b'|actual]; [|read_point].
destruct Hc as [<- E']. destruct (half_open_word cfg _ Hw Hst) as (E & Hg & Hcnt).
split; simpl; [|eauto]. rewrite E', E at 1. by constructor.
Qed.

Lemma trip_point_ok g :
pc_ok cfg s (RfCCas g) -> step_spec cfg e b (RfCCas g) s (thread_step cfg o b (RfCCas g)).
Proof.
intros [-> Hg]; simpl. assert (Hc := compare_exchange_inv b (pack_full g STATE_CLOSED 0)
  (pack_full (wrapping_add 32 g 1) STATE_OPEN 0)).
destruct (compare_exchange _ _ _) as [b'|actual]; [|read_point].
destruct Hc as [E E']. split; simpl; [rewrite E'|done].
assert (Hgen : packed_generation (packed b) = g) by (rewrite E; by word_fields).
rewrite <- Hgen. constructor. rewrite E. by word_fields.
Qed.

Lemma rollback_point g :
pc_ok cfg s (RfCRollback g) ->
step_spec cfg e b (RfCRollback g) s (thread_step cfg o b (RfCRollback g)).
Proof.
intros [-> Hg]; simpl. assert (Hc := compare_exchange_inv b
  (pack_full (wrapping_add 32 g 1) STATE_OPEN 0)
  (pack_full (wrapping_add 32 g 1) STATE_CLOSED 0)).
destruct (compare_exchange _ _ _) as [b'|actual]; [|read_point].
destruct Hc as [E E']. split; simpl; [rewrite E, E'|done]. eauto with breaker.
Qed.

Lemma reopen_point p :
pc_ok cfg s (RoCas p) -> step_spec cfg e b (RoCas p) s (thread_step cfg o b (RoCas p)).
Proof.
intros Hst; simpl. assert (Hc := weak_compare_exchange_inv o b p
  (pack_full (wrapping_add 32 (packed_generation p) 1) STATE_OPEN 0)).
destruct (weak_compare_exchange _ _ _ _) as [b'|actual]; [|read_point].
destruct Hc as [<- E']. split; simpl; [rewrite E'|done]. by constructor.
Qed.

(** Every program point, well-typed for its request's slot, has one of the
  effects and leads to a well-typed point. *)
Lemma thread_step_ok q : pc_ok cfg s q -> step_spec cfg e b q s (thread_step cfg o b q).
Proof.
intros Hq. destruct q; eauto using start_point, acquire_point, close_point_ok, trip_point_ok,
  rollback_point, reopen_point; try by read_point.
all: assert (Hst := wf_word_state _ _ Hw); read_point.
split; [|done]. constructor.
match goal with E : packed_state _ = STATE_OPEN |- _ => by rewrite E end.
Qed.
End Points.

(** ** Counting slots *)

Definition holds (e : nat) (s : option nat) : nat := if bool_decide (s = Some e) then 1 else 0.

Lemma tokens_app e rs rs' : tokens e (rs ++ rs') = (tokens e rs + tokens e rs')%nat.
Proof. unfold tokens. by rewrite filter_app, length_app. Qed.

Lemma tokens_cons e r rs : tokens e (r :: rs) = (holds e (slot r) + tokens e rs)%nat.
Proof.
  unfold tokens, holds. rewrite filter_cons. destruct (decide (slot r = Some e)) as [H|H].
  - by rewrite bool_decide_eq_true_2.
  - by rewrite bool_decide_eq_false_2.
Qed.

Lemma tokens_insert e i r r' rs :
  rs !! i = Some r ->
  (tokens e (<[i := r']> rs) + holds e (slot r) = tokens e rs + holds e (slot r'))%nat.
Proof.
  revert i; induction rs as [|x rs IH]; intros [|i] Hi; simplify_eq/=; rewrite !tokens_cons.
  - lia.
  - specialize (IH i Hi). lia.
Qed.

Lemma tokens_zero e rs : Forall (fun r => slot r <> Some e) rs -> tokens e rs = 0%nat.
Proof.
  induction 1 as [|r rs H _ IH]; [done|]. rewrite tokens_cons, IH. unfold holds.
  by rewrite bool_decide_eq_false_2.
Qed.

(** The ledger: what the word, the epoch [e], the slots [t] held in it and the
    stray releases [st] of it have to do with each other. *)
Definition ledger (cfg : CircuitBreakerConfig) (w : Z) (e t st : nat) : Prop :=
  wf_word (half_open_max cfg) w
  /\ packed_generation w = wrap 32 (Z.of_nat e)
  /\ packed_count w <= Z.of_nat t
  /\ (packed_state w = STATE_OPEN -> t = 0%nat /\ st = 0%nat)
  /\ (packed_state w = STATE_HALF_OPEN -> Z.of_nat t <= packed_count w + Z.of_nat st).

Definition word_opens (w w' : Z) : bool :=
  (packed_state w' =? STATE_OPEN) && negb (packed_state w =? STATE_OPEN).

Definition word_stray (e : nat) (w : Z) (s : option nat) (ev : event) : bool :=
  match ev with
  | Released => (0 <? packed_count w) && negb (bool_decide (s = Some e))
  | _ => false
  end.

Lemma wrapping_succ e : wrapping_add 32 (wrap 32 (Z.of_nat e)) 1 = wrap 32 (Z.of_nat (S e)).
Proof.
  unfold wrapping_add, wrap. rewrite Zplus_mod_idemp_l. f_equal. lia.
Qed.

Lemma wf_word_count max w : wf_word max w -> 0 <= packed_count w <= max.
Proof. intros (_ & _ & ? & _). destruct (unpack_fits w) as (_ & _ & ?). lia. Qed.

Lemma release_word_fields max w :
  wf_word max w ->
  packed_generation (release_word w) = packed_generation w
  /\ packed_state (release_word w) = packed_state w
  /\ packed_count (release_word w) = Z.max 0 (packed_count w - 1)
  /\ wf_word max (release_word w).
Proof.
  intros Hw. assert (Hc := wf_word_count _ _ Hw). unfold release_word.
  destruct (Z.eqb_spec (packed_count w) 0) as [E|E]; [rewrite E; by split_and!|].
  destruct Hw as (Hu & Hst & Hm & Hz). destruct (unpack_fits w) as (Hg & Hs & Hcm).
  assert (Hf : fits (packed_generation w) (packed_state w) (packed_count w - 1))
    by (apply fits_intro; [done|done|lia]).
  rewrite packed_generation_pack, packed_state_pack, packed_count_pack by done.
  split_and!; try done; [lia|]. apply wf_word_pack; [done|done|lia|]. intros; lia.
Qed.

Lemma holds_le e s : (holds e s <= 1)%nat.
Proof. unfold holds. by case_bool_decide; lia. Qed.

Lemma holds_self e : holds e (Some e) = 1%nat.
Proof. unfold holds. by rewrite bool_decide_eq_true_2. Qed.

Lemma holds_None e : holds e None = 0%nat.
Proof. unfold holds. by rewrite bool_decide_eq_false_2. Qed.

Lemma wf_word_half cfg g c :
  is_u32 g -> 0 <= c <= half_open_max cfg ->
  wf_word (half_open_max cfg) (pack_full g STATE_HALF_OPEN c).
Proof.
  intros. apply wf_word_pack; [by apply (fits_half_open cfg)|..]; unfold STATE_HALF_OPEN; lia.
Qed.
Lemma wf_word_closed cfg g : is_u32 g -> wf_word (half_open_max cfg) (pack_full g STATE_CLOSED 0).
Proof.
  intros. assert (H' := half_open_max_bounds cfg).
  apply wf_word_pack; [by apply fits_closed|..]; unfold STATE_CLOSED; lia.
Qed.
Lemma wf_word_open cfg g : is_u32 g -> wf_word (half_open_max cfg) (pack_full g STATE_OPEN 0).
Proof.
  intros. assert (H' := half_open_max_bounds cfg).
  apply wf_word_pack; [by apply fits_open|..]; unfold STATE_OPEN; lia.
Qed.

(** Fields of half-open words whose count is in range. *)
Ltac half_fields cfg :=
  repeat match goal with
  | H : context [pack_full ?g STATE_HALF_OPEN ?c] |- _ =>
    progress rewrite ?(packed_generation_pack g STATE_HALF_OPEN c),
      ?(packed_state_pack g STATE_HALF_OPEN c), ?(packed_count_pack g STATE_HALF_OPEN c)
      in H by (apply (fits_half_open cfg); [done|lia])
  | |- context [pack_full ?g STATE_HALF_OPEN ?c] =>
    progress rewrite ?(packed_generation_pack g STATE_HALF_OPEN c),
      ?(packed_state_pack g STATE_HALF_OPEN c), ?(packed_count_pack g STATE_HALF_OPEN c)
      by (apply (fits_half_open cfg); [done|lia])
  end.

Section Ledger.
Context (cfg : CircuitBreakerConfig) (e : nat).

Lemma ledger_acquire g c t st :
is_u32 g -> 0 <= c < half_open_max cfg ->
ledger cfg (pack_full g STATE_HALF_OPEN c) e t st ->
ledger cfg (pack_full g STATE_HALF_OPEN (c + 1)) e (t + 1) st.
Proof.
intros Hg Hc (Hw & Hgen & Hle & Ho & Hh). unfold ledger. half_fields cfg.
split_and!; try done; try lia. apply wf_word_half; [done|lia].
Qed.

Lemma ledger_start g t st :
is_u32 g -> ledger cfg (pack_full g STATE_OPEN 0) e t st ->
ledger cfg (pack_full g STATE_HALF_OPEN 1) e (t + 1) st.
Proof.
intros Hg (Hw & Hgen & Hle & Ho & Hh). assert (Hm := half_open_max_bounds cfg).
rewrite packed_generation_pack, packed_state_pack in * by by apply fits_open.
destruct Ho as [-> ->]; [done|]. unfold ledger. half_fields cfg.
split_and!; try done; try lia. apply wf_word_half; [done|lia].
Qed.

Lemma ledger_close g w t t' st st' :
is_u32 g -> packed_generation w = g -> ledger cfg w e t st ->
ledger cfg (pack_full g STATE_CLOSED 0) e t' st'.
Proof.
intros Hg Hw (_ & Hgen & _). unfold ledger.
rewrite packed_generation_pack, packed_state_pack, packed_count_pack by by apply fits_closed.
rewrite <- Hw at 2. split_and!; try done; [by apply wf_word_closed|lia].
Qed.

Lemma ledger_release w s t t' st :
(t' + holds e (Some s) = t)%nat -> ledger cfg w e t st ->
ledger cfg (release_word w) e t' (if word_stray e w (Some s) Released then S st else st).
Proof.
intros Ht (Hw & Hgen & Hle & Ho & Hh). assert (Hc := wf_word_count _ _ Hw).
destruct (release_word_fields _ _ Hw) as (Eg & Es & Ec & Hw').
unfold ledger. rewrite Eg, Es, Ec. unfold holds, word_stray in *.
case_bool_decide as Hs; simpl; rewrite ?andb_false_r, ?andb_true_r.
- split_and!; done || lia.
- assert (t' = t) as -> by lia. destruct (Z.ltb_spec 0 (packed_count w)).
  + split_and!; done || lia.
  + split_and!; done || lia.
Qed.

Lemma ledger_drop w s t t' st :
(t' + holds e s = t)%nat -> packed_state w <> STATE_HALF_OPEN ->
ledger cfg w e t st -> ledger cfg w e t' st.
Proof.
intros Ht Hst (Hw & Hgen & Hle & Ho & Hh).
assert (Hc : packed_count w = 0) by (destruct Hw as (_ & _ & _ & Hz); auto).
unfold ledger. rewrite Hc. split_and!; try done; [lia|]. intros H. destruct (Ho H). lia.
Qed.

(** A step that does not open the circuit keeps the ledger of the epoch. *)
Lemma ledger_step w s ev w' s' t t' st :
effect cfg e w s ev w' s' -> (t' + holds e s = t + holds e s')%nat ->
word_opens w w' = false -> ledger cfg w e t st ->
ledger cfg w' e t' (if word_stray e w s ev then S st else st).
Proof.
intros Heff Ht Hop HL. destruct Heff as [w s|g Hg|g c Hg Hc|w e'|w s Hst|w s Hst|g c Hg Hc|g Hg];
  rewrite ?holds_self, ?holds_None in Ht.
- by replace t' with t by lia.
- replace t' with (t + 1)%nat by lia. by apply ledger_start.
- replace t' with (t + 1)%nat by lia. by apply ledger_acquire.
- apply (ledger_release w e' t); [lia|done].
- apply (ledger_drop w s t); [lia|done..].
- unfold word_opens in Hop. rewrite packed_state_pack in Hop by auto with breaker.
  apply andb_false_iff in Hop as [Hop|Hop]; [done|].
  apply negb_false_iff, Z.eqb_eq in Hop. done.
- apply (ledger_close g (pack_full g STATE_HALF_OPEN c) t t' st); [done| |done].
  by half_fields cfg.
- apply (ledger_close g (pack_full g STATE_OPEN 0) t t' st); [done| |done].
  by rewrite packed_generation_pack by by apply fits_open.
Qed.

(** Opening starts the next epoch with an empty ledger. *)
Lemma ledger_opens w s ev w' s' t st :
effect cfg e w s ev w' s' -> word_opens w w' = true -> ledger cfg w e t st ->
ledger cfg w' (S e) 0 0.
Proof.
unfold word_opens. intros Heff Hop (Hw & Hgen & _).
apply andb_true_iff in Hop as [H1%Z.eqb_eq H2%negb_true_iff%Z.eqb_neq].
destruct Heff as [w s|g Hg|g c Hg Hc|w e'|w s Hst|w s Hst|g c Hg Hc|g Hg]; try done.
- assert (Hm := half_open_max_bounds cfg). by half_fields cfg.
- by half_fields cfg.
- by destruct (release_word_fields _ _ Hw) as (_ & Es & _); rewrite Es in H1.
- unfold ledger. rewrite packed_generation_pack, packed_state_pack, packed_count_pack
    by auto with breaker.
  rewrite Hgen, wrapping_succ. split_and!; try done. apply wf_word_open.
  apply wrap_in_width. lia.
- by rewrite packed_state_pack in H1 by by apply fits_closed.
- by rewrite packed_state_pack in H1 by by apply fits_closed.
Qed.
End Ledger.

(** ** The system invariant *)

Definition slot_le (e : nat) (s : option nat) : Prop :=
  match s with Some e' => (e' <= e)%nat | None => True end.

Definition req_ok (cfg : CircuitBreakerConfig) (e : nat) (r : request) : Prop :=
  stage_ok cfg (slot r) (req_stage r) /\ slot_le e (slot r).

Definition inv (cfg : CircuitBreakerConfig) (s : sys) : Prop :=
  ledger cfg (packed (brk s)) (epoch s) (tokens (epoch s) (reqs s)) (stray s)
  /\ Forall (req_ok cfg (epoch s)) (reqs s).

Lemma effect_slot_le cfg e w s ev w' s' :
  effect cfg e w s ev w' s' -> slot_le e s -> slot_le e s'.
Proof. destruct 1; simpl; auto. Qed.

Lemma req_ok_later cfg e r : req_ok cfg e r -> req_ok cfg (S e) r.
Proof. intros [? H]. split; [done|]. destruct (slot r); simpl in *; auto. Qed.

Lemma tokens_later cfg e rs : Forall (req_ok cfg e) rs -> tokens (S e) rs = 0%nat.
Proof.
  intros H. apply tokens_zero. eapply Forall_impl; [exact H|]. intros r [_ Hle] E.
  rewrite E in Hle; simpl in Hle. lia.
Qed.

Lemma commit_inv cfg s i r b' ev n after :
  inv cfg s -> reqs s !! i = Some r ->
  effect cfg (epoch s) (packed (brk s)) (slot r) ev (packed b') (next_slot (epoch s) ev n (slot r)) ->
  stage_ok cfg (next_slot (epoch s) ev n (slot r)) (after n) ->
  inv cfg (commit s i r b' ev n after).
Proof.
  intros [HL HR] Hi Heff Hok. unfold commit.
  set (r' := Request (after n) (next_slot (epoch s) ev n (slot r))).
  assert (Hr : req_ok cfg (epoch s) r) by (eapply Forall_lookup_1; eauto).
  assert (HR' : Forall (req_ok cfg (epoch s)) (<[i:=r']> (reqs s))).
  { apply Forall_insert; [done|]. split; [done|]. eapply effect_slot_le; [exact Heff|apply Hr]. }
  unfold opens. fold (word_opens (packed (brk s)) (packed b')).
  change (is_stray s r ev) with (word_stray (epoch s) (packed (brk s)) (slot r) ev).
  destruct (word_opens (packed (brk s)) (packed b')) eqn:Hop.
  - split; simpl.
    + rewrite (tokens_later cfg) by done. by eapply ledger_opens.
    + eapply Forall_impl; [exact HR'|]. intros ?; apply req_ok_later.
  - split; simpl; [|done]. eapply ledger_step; [exact Heff| |done|exact HL].
    by apply (tokens_insert (epoch s) i r r').
Qed.

Lemma start_call_ok cfg call probe s :
  (if probe : bool then is_Some s else s = None) ->
  next_ok cfg false (next_slot 0 NoEvent (start_call cfg call probe) s) (start_call cfg call probe)
  /\ (start_call cfg call probe = Return -> s = None).
Proof. destruct call, probe; simpl; intros ?; split_matches; by split. Qed.

Lemma after_admission_ok cfg ep n s :
  next_ok cfg true s n -> stage_ok cfg s (after_admission ep n).
Proof. destruct n as [q|[[]|]|]; simpl; naive_solver. Qed.

Lemma after_recording_ok cfg n s :
  next_ok cfg false s n -> stage_ok cfg s (after_recording n).
Proof. destruct n as [q|[[]|]|]; simpl; naive_solver. Qed.

Lemma exec_step_inv cfg s i o s' :
  inv cfg s -> exec cfg s (Step i o) = Some s' -> inv cfg s'.
Proof.
  intros HI; simpl. destruct (reqs s !! i) as [r|] eqn:Hi; [|done].
  assert (Hr : req_ok cfg (epoch s) r) by (eapply Forall_lookup_1; [apply HI|done]).
  assert (Hw : wf_word (half_open_max cfg) (packed (brk s))) by apply HI.
  destruct Hr as [Hst _]. destruct (req_stage r) as [|ep q| |q|] eqn:Hg; simpl in Hst; intros E.
  - simplify_eq. apply commit_inv; [done|done| |]; simpl; rewrite Hst; auto with breaker.
  - destruct Hst as [Hq Hk].
    assert (H := thread_step_ok cfg o (brk s) (slot r) (epoch s) Hw q Hq).
    destruct (thread_step cfg o (brk s) q) as [[b' n] ev]. destruct H as [H1 H2].
    simplify_eq. apply commit_inv; try done. rewrite Hk in H2. by apply after_admission_ok.
  - done.
  - destruct Hst as [Hq Hk].
    assert (H := thread_step_ok cfg o (brk s) (slot r) (epoch s) Hw q Hq).
    destruct (thread_step cfg o (brk s) q) as [[b' n] ev]. destruct H as [H1 H2].
    simplify_eq. apply commit_inv; try done. rewrite Hk in H2. by apply after_recording_ok.
  - done.
Qed.

Lemma exec_complete_inv cfg s i d out s' :
  inv cfg s -> exec cfg s (Complete i d out) = Some s' -> inv cfg s'.
Proof.
  intros HI; simpl. destruct (reqs s !! i) as [r|] eqn:Hi; [|done].
  assert (Hr : req_ok cfg (epoch s) r) by (eapply Forall_lookup_1; [apply HI|done]).
  destruct Hr as [Hst _]. destruct (req_stage r) as [| |ep probe| |] eqn:Hg; try done.
  simpl in Hst. match goal with |- context [start_call cfg ?c probe] => set (call := c) end.
  intros [= <-].
  destruct (start_call_ok cfg call probe (slot r) Hst) as [Hn Hret].
  apply commit_inv; [done|done| |].
  - simpl. destruct (start_call cfg call probe) eqn:Ec; [constructor..|].
    rewrite Hret by done. constructor.
  - by apply after_recording_ok.
Qed.

Lemma reachable_inv cfg s : reachable cfg s -> inv cfg s.
Proof.
  induction 1 as [|s c s' _ IH E].
  - split; [|by constructor]. unfold initial, ledger, new; simpl.
    rewrite packed_generation_pack, packed_state_pack, packed_count_pack
      by (apply fits_closed; unfold in_width; lia).
    split_and!; try done. apply wf_word_closed. unfold in_width; lia.
  - destruct c as [|i o|i d out].
    + simplify_eq/=. destruct IH as [HL HR]. split; simpl.
      * rewrite tokens_app. change (tokens (epoch s) [_]) with 0%nat. by rewrite Nat.add_0_r.
      * apply Forall_app; split; [done|]. by repeat constructor.
    + by eapply exec_step_inv.
    + by eapply exec_complete_inv.
Qed.

(** ** Admission epochs *)

(** A request's captured generation is that of an epoch no later than the one
    it acquired its slot in. *)
Definition captured (e : nat) (ep : Z) (s : option nat) : Prop :=
  exists k, ep = wrap 32 (Z.of_nat k) /\ (k <= e)%nat
            /\ match s with Some e' => (k <= e')%nat | None => True end.

Definition capture_ok (e : nat) (r : request) : Prop :=
  match req_stage r with
  | Admitting ep _ | InFlight ep _ => captured e ep (slot r)
  | _ => True
  end.

Lemma captured_next e ep ev n s : captured e ep s -> captured e ep (next_slot e ev n s).
Proof. intros (k & ? & ? & ?). exists k. by destruct ev, n, s. Qed.

Lemma captured_later e ep s : captured e ep s -> captured (S e) ep s.
Proof. intros (k & ? & ? & ?). exists k. split_and!; [done|lia|done]. Qed.

Lemma capture_ok_later e r : capture_ok e r -> capture_ok (S e) r.
Proof. unfold capture_ok. destruct (req_stage r); auto using captured_later. Qed.

Lemma commit_capture s i r b' ev n after :
  Forall (capture_ok (epoch s)) (reqs s) ->
  capture_ok (epoch s) (Request (after n) (next_slot (epoch s) ev n (slot r))) ->
  let s' := commit s i r b' ev n after in Forall (capture_ok (epoch s')) (reqs s').
Proof.
  intros HF Hr; simpl.
  assert (H : Forall (capture_ok (epoch s))
    (<[i:=Request (after n) (next_slot (epoch s) ev n (slot r))]> (reqs s)))
    by by apply Forall_insert.
  destruct (opens _ _); [|done]. eapply Forall_impl; [exact H|]. intros ?; apply capture_ok_later.
Qed.

Lemma capture_admission e ep ev n s :
  captured e ep s -> capture_ok e (Request (after_admission ep n) (next_slot e ev n s)).
Proof. intros H. destruct n as [|[]|]; try done; by apply captured_next. Qed.

Lemma capture_recording e n s : capture_ok e (Request (after_recording n) s).
Proof. by destruct n. Qed.

Lemma arriving_capture cfg s r ep :
  inv cfg s -> r ∈ reqs s -> req_stage r = Arriving -> ep = open_epoch (brk s) ->
  captured (epoch s) ep (slot r).
Proof.
  intros [(_ & Hgen & _) HR] Hr Hst ->. rewrite Forall_forall in HR.
  destruct (HR r Hr) as [Hok _]. rewrite Hst in Hok; simpl in Hok. rewrite Hok.
  exists (epoch s). by split_and!.
Qed.

Lemma reachable_capture cfg s : reachable cfg s -> Forall (capture_ok (epoch s)) (reqs s).
Proof.
  induction 1 as [|s c s' Hs IH E]; [by constructor|]. apply reachable_inv in Hs.
  destruct c as [|i o|i d out]; simpl in E;
    [simplify_eq/=; apply Forall_app; split; [done|by repeat constructor]|..];
    (destruct (reqs s !! i) as [r|] eqn:Hi; [|done]);
    assert (Hr : capture_ok (epoch s) r) by (eapply Forall_lookup_1; eauto);
    unfold capture_ok in Hr; destruct (req_stage r) as [|ep q|ep probe|q|] eqn:Hst; try done.
  - simplify_eq. apply commit_capture; [done|]. apply capture_admission.
    eapply arriving_capture; eauto. by eapply list_elem_of_lookup_2.
  - destruct (thread_step cfg o (brk s) q) as [[b' n] ev]. simplify_eq.
    apply commit_capture; [done|]. by apply capture_admission.
  - destruct (thread_step cfg o (brk s) q) as [[b' n] ev]. simplify_eq.
    apply commit_capture; [done|]. apply capture_recording.
  - simplify_eq. apply commit_capture; [done|]. apply capture_recording.
Qed.

(** ** Theorems *)

Definition outstanding (r : request) : bool :=
  match req_stage r with Arriving | Finished => false | _ => true end.

Lemma tokens_idle cfg s :
  inv cfg s -> forallb (fun r => negb (outstanding r)) (reqs s) = true ->
  tokens (epoch s) (reqs s) = 0%nat.
Proof.
  intros [_ HR] Hidle. apply tokens_zero. rewrite Forall_forall in HR |- *. intros r Hr.
  destruct (HR r Hr) as [Hok _]. assert (Hn : negb (outstanding r) = true).
  { rewrite forallb_forall in Hidle. apply Hidle. by apply list_elem_of_In. }
  unfold outstanding in Hn. destruct (req_stage r); simpl in *; by rewrite ?Hok.
Qed.

(** Under every interleaving of admissions and outcome reports, with
    spurious compare-exchange failures: the packed word is one of the three
    named states, counts probes only while half-open and at most
    [half_open_max] of them; and the generation it carries is the number of
    transitions into OPEN so far, modulo 2^32 (only an opening advances it). *)
Theorem concurrent_word_invariant cfg s :
  reachable cfg s ->
  wf_word (half_open_max cfg) (packed (brk s))
  /\ state_name (brk s) <> "unknown"%string
  /\ open_epoch (brk s) = wrap 32 (Z.of_nat (epoch s)).
Proof.
  intros [(Hw & Hgen & _) _]%reachable_inv. split_and!; try done.
  unfold state_name. by destruct (wf_word_state _ _ Hw) as [->|[->| ->]].
Qed.

(** C1. No probe slot leaks: at any moment the in-flight count is at most the
    number of requests that hold a slot acquired in the current open cycle.
    So once no request is outstanding the count is zero, and a half-open
    breaker admits the next request as a probe: it cannot stay wedged at
    capacity. *)
Theorem no_slot_leak cfg s :
  reachable cfg s ->
  half_open_in_flight (brk s) <= Z.of_nat (tokens (epoch s) (reqs s))
  /\ (forallb (fun r => negb (outstanding r)) (reqs s) = true ->
      half_open_in_flight (brk s) = 0
      /\ (packed_state (packed (brk s)) = STATE_HALF_OPEN ->
          forall now, (can_execute cfg now (brk s)).1 = Ok true)).
Proof.
  intros HI%reachable_inv. assert (HI' := HI). destruct HI' as [(Hw & _ & Hle & _) _].
  split; [exact Hle|]. intros Hidle. rewrite (tokens_idle cfg) in Hle by done.
  assert (Hc := wf_word_count _ _ Hw). assert (H0 : half_open_in_flight (brk s) = 0)
    by (unfold half_open_in_flight; lia).
  split; [done|]. intros Hst now. unfold half_open_in_flight in H0.
  unfold can_execute, can_execute_inner, try_acquire_half_open_slot. rewrite Hst, H0; simpl.
  assert (Hm := half_open_max_bounds cfg).
  destruct (Z.leb_spec (half_open_max cfg) 0); [lia|]. by rewrite compare_exchange_hit.
Qed.

(** The number of half-open probes of the current cycle that are in flight
    exceeds [half_open_max] by at most the number of slots that stragglers
    of earlier cycles have given back in this cycle; with no such release it
    is within the limit. *)
Theorem probe_bound cfg s :
  reachable cfg s -> packed_state (packed (brk s)) = STATE_HALF_OPEN ->
  Z.of_nat (tokens (epoch s) (reqs s)) <= half_open_max cfg + Z.of_nat (stray s).
Proof.
  intros [(Hw & _ & _ & _ & Hh) _]%reachable_inv Hst. specialize (Hh Hst).
  assert (Hc := wf_word_count _ _ Hw). lia.
Qed.

(** The stale check of a deferred streaming outcome is exact for probes:
    in the first 2^32 openings of a breaker, a probe whose captured
    generation is still current holds a slot of the current open cycle, so
    a stream admitted in one cycle never heals or reopens a later one. *)
Theorem deferred_outcome_is_current cfg s r ep e :
  reachable cfg s -> r ∈ reqs s -> req_stage r = InFlight ep true -> slot r = Some e ->
  Z.of_nat (epoch s) < 2 ^ 32 -> open_epoch (brk s) = ep -> e = epoch s.
Proof.
  intros Hs Hr Hst Hsl Hb Hep. assert (HC := reachable_capture cfg s Hs).
  rewrite Forall_forall in HC. specialize (HC r Hr). unfold capture_ok in HC.
  rewrite Hst, Hsl in HC. destruct HC as (k & Hk & Hle & Hle').
  destruct (reachable_inv cfg s Hs) as [(_ & Hgen & _) HR]. rewrite Forall_forall in HR.
  destruct (HR r Hr) as [_ Hslot]. rewrite Hsl in Hslot; simpl in Hslot.
  unfold open_epoch in Hep. rewrite Hgen, Hk in Hep.
  rewrite !wrap_small in Hep by (unfold in_width; lia). lia.
Qed.

(** ** A straggler over-admits *)

Definition calm : oracle := Oracle false 5 5.
Definition steps (i n : nat) : list cmd := replicate n (Step i calm).
Definition refused : outcome := Outcome 502 true (Some ConnectionRefused).

Definition trip_once : CircuitBreakerConfig := {|
  failure_threshold := 1; success_threshold := 2; timeout_seconds := 0;
  failure_status_codes := [502]; half_open_max_requests := 1; trip_on_connection_errors := true;
|}.

(** Requests 0 and 1 are admitted while closed; 0 fails and opens the breaker;
    2 is the probe of the first half-open cycle; 1 fails and reopens; 3 is the
    probe of the second cycle. *)
Definition second_cycle : list cmd :=
  [Spawn; Spawn] ++ steps 0 2 ++ steps 1 2 ++ [Complete 0 false refused] ++ steps 0 8
  ++ [Spawn] ++ steps 2 5 ++ [Complete 1 false refused] ++ steps 1 6
  ++ [Spawn] ++ steps 3 5.

(** Then the deferred outcome of request 2 settles as stale, and 4 arrives. *)
Definition straggler_run : list cmd :=
  second_cycle ++ [Complete 2 true refused] ++ steps 2 1 ++ [Spawn] ++ steps 4 4.

Lemma exec_all_reachable cfg cs s s' :
  reachable cfg s -> exec_all cfg s cs = Some s' -> reachable cfg s'.
Proof.
  revert s; induction cs as [|c cs IH]; intros s Hs E; simplify_eq/=; [done|].
  destruct (exec cfg s c) eqn:Ec; [|done]. eapply IH; [|done]. by eapply reachable_step.
Qed.

(** C39. The documented probe limit is not kept across cycles: a run of five
    requests on a breaker with [half_open_max_requests = 1] after which two
    probes of the same half-open cycle are in flight. The slot the second one
    took was given back by a probe of the previous cycle, whose stale deferred
    outcome released a slot without owning one in this cycle. *)
Theorem straggler_over_admits :
  exists s, exec_all trip_once initial straggler_run = Some s
  /\ reachable trip_once s
  /\ packed_state (packed (brk s)) = STATE_HALF_OPEN
  /\ half_open_max trip_once = 1
  /\ tokens (epoch s) (reqs s) = 2%nat
  /\ reqs s !! 3%nat = Some (Request (InFlight 2 true) (Some 2%nat))
  /\ reqs s !! 4%nat = Some (Request (InFlight 2 true) (Some 2%nat)).
Proof.
  eexists. split_and!; [vm_compute; reflexivity| |vm_compute; reflexivity..].
  apply (exec_all_reachable trip_once straggler_run initial); [constructor|]. vm_compute. reflexivity.
Qed.

(** ** A call that runs alone *)

Fixpoint solo (cfg : CircuitBreakerConfig) (o : oracle) (fuel : nat) (b : breaker) (n : next)
    : option (breaker * next) :=
  match n with
  | Goto q =>
    match fuel with
    | O => None
    | S fuel => let '(b', n', _) := thread_step cfg o b q in solo cfg o fuel b' n'
    end
  | _ => Some (b, n)
  end.

Lemma weak_calm now wall b p new :
  weak_compare_exchange (Oracle false now wall) b p new = compare_exchange b p new.
Proof. done. Qed.

Lemma compare_exchange_eq b p new :
  p = packed b -> compare_exchange b p new = Ok (with_packed b new).
Proof. intros ->. apply compare_exchange_hit. Qed.

Ltac solo_case :=
  match goal with
  | |- context [weak_compare_exchange (Oracle false ?t ?w) ?b ?p ?n] => rewrite (weak_calm t w b p n)
  | |- context [compare_exchange ?b ?p ?n] => rewrite (compare_exchange_eq b p n) by reflexivity
  | |- context [if ?c then _ else _] => destruct c eqn:?
  | |- context [match compare_exchange ?a ?b ?c with _ => _ end] =>
    destruct (compare_exchange a b c) eqn:?
  end; simpl in *; simplify_eq; try done.

Lemma solo_admission cfg now wall b :
  solo cfg (Oracle false now wall) 6 b (Goto CeLoad)
  = let '(r, b') := can_execute cfg now b in Some (b', Admit r).
Proof.
  unfold can_execute, can_execute_inner, try_acquire_half_open_slot; simpl. repeat solo_case.
Qed.

Lemma solo_success cfg now wall b probe :
  solo cfg (Oracle false now wall) 12 b (Goto (RsLoad probe))
  = Some (record_success cfg probe b, Return).
Proof. unfold record_success; simpl. repeat solo_case. Qed.

Lemma solo_failure cfg now wall b probe status conn :
  failure_counts cfg status conn = true ->
  solo cfg (Oracle false now wall) 12 b (Goto (RfLoad probe))
  = Some (record_failure cfg status conn probe (now, wall) b, Return).
Proof.
  intros H. unfold record_failure, record_failure_inner. rewrite H; simpl.
  unfold reopen_after_probe_failure. repeat solo_case.
Qed.

(** Without interference every call finishes within twelve atomic steps
    and computes what the sequential methods compute, so the sequential
    theorems speak of the same programs the interleaved ones do. *)
Theorem solo_runs_are_sequential cfg now wall b :
  solo cfg (Oracle false now wall) 6 b (Goto CeLoad)
    = (let '(r, b') := can_execute cfg now b in Some (b', Admit r))
  /\ forall call probe,
       solo cfg (Oracle false now wall) 12 b (start_call cfg call probe)
       = Some (apply_call cfg call probe (now, wall) b, Return).
Proof.
  split; [apply solo_admission|]. intros [| |status conn] probe; simpl start_call.
  - by destruct probe.
  - apply solo_success.
  - destruct (failure_counts cfg status conn) eqn:E; [by apply solo_failure|].
    simpl. unfold record_failure, record_failure_inner. rewrite E. by destruct probe.
Qed.

(** ** Witnesses: the state after the second half-open cycle has begun *)

Definition after (cs : list cmd) : sys := default initial (exec_all trip_once initial cs).

Lemma after_reachable cs : is_Some (exec_all trip_once initial cs) -> reachable trip_once (after cs).
Proof.
  intros [s E]. unfold after. rewrite E. by apply (exec_all_reachable _ cs initial); [constructor|].
Qed.

Lemma concurrent_word_invariant_witness : open_epoch (brk (after second_cycle)) = 2.
Proof.
  exact (proj2 (proj2 (concurrent_word_invariant trip_once (after second_cycle)
    (after_reachable second_cycle ltac:(vm_compute; eauto))))).
Defined.

Lemma no_slot_leak_witness :
  half_open_in_flight (brk (after second_cycle))
  <= Z.of_nat (tokens (epoch (after second_cycle)) (reqs (after second_cycle))).
Proof.
  exact (proj1 (no_slot_leak trip_once (after second_cycle)
    (after_reachable second_cycle ltac:(vm_compute; eauto)))).
Defined.

Lemma probe_bound_witness :
  Z.of_nat (tokens (epoch (after second_cycle)) (reqs (after second_cycle)))
  <= half_open_max trip_once + Z.of_nat (stray (after second_cycle)).
Proof.
  apply (probe_bound trip_once (after second_cycle)
    (after_reachable second_cycle ltac:(vm_compute; eauto))).
  vm_compute; reflexivity.
Defined.

Lemma deferred_outcome_is_current_witness : 2%nat = epoch (after second_cycle).
Proof.
  apply (deferred_outcome_is_current trip_once (after second_cycle)
    (Request (InFlight 2 true) (Some 2%nat)) 2 2%nat
    (after_reachable second_cycle ltac:(vm_compute; eauto))).
  - apply (list_elem_of_lookup_2 _ 3%nat). vm_compute; reflexivity.
  - reflexivity.
  - reflexivity.
  - vm_compute; reflexivity.
  - vm_compute; reflexivity.
Defined.
