(* ===== verification/RuntimeKeys.v ===== *)
(** * Namespaced runtime keys ([src/src/config/db_backend.rs],
    [src/src/circuit_breaker.rs], [src/src/config/types.rs])

    Resource identity is a (namespace, id) pair; runtime caches key their
    entries by text built from it. The theorems are that the admission rules
    for ids and namespaces make these keys unambiguous. *)

From S2P Require Import Prelude Decimal.

(** ** Admission of ids and namespaces *)

Definition MAX_ID_LENGTH : Z := 254.
Definition MAX_NAMESPACE_LENGTH : Z := 254.

(** The class of the characters after the first in
    [^[a-zA-Z0-9][a-zA-Z0-9._-]*$]. *)
Definition id_char (b : Z) : bool :=
  is_ascii_alphanumeric b || (b =? 46) || (b =? 95) || (b =? 45).

(** [ID_REGEX.is_match]. *)
Definition id_regex (id : bytes) : bool :=
  match id with
  | [] => false
  | b :: rest => is_ascii_alphanumeric b && forallb id_char rest
  end.

Inductive id_error := IdEmpty | IdTooLong | IdInvalid.

Definition validate_resource_id (id : bytes) : result unit id_error :=
  match id with
  | [] => Err IdEmpty
  | _ =>
    if MAX_ID_LENGTH <? Z.of_nat (length id) then Err IdTooLong
    else if negb (id_regex id) then Err IdInvalid
    else Ok tt
  end.

Definition validate_namespace (ns : bytes) : result unit id_error :=
  match ns with
  | [] => Err IdEmpty
  | _ =>
    if MAX_NAMESPACE_LENGTH <? Z.of_nat (length ns) then Err IdTooLong
    else if negb (id_regex ns) then Err IdInvalid
    else Ok tt
  end.

Record NamespacedResourceId := NsId { namespace : bytes; id : bytes }.

#[global] Instance NamespacedResourceId_eq_dec : EqDecision NamespacedResourceId.
Proof. solve_decision. Defined.

Definition valid_resource (r : NamespacedResourceId) : Prop :=
  validate_namespace (namespace r) = Ok tt /\ validate_resource_id (id r) = Ok tt.

(** ** Keys *)

(** [write_namespaced_runtime_key] clears [out], so its old content is lost. *)
Definition write_namespaced_runtime_key (out ns i : bytes) : bytes :=
  let out := [] in
  out ++ ns ++ [124] ++ i.

Definition namespaced_runtime_key (ns i : bytes) : bytes := write_namespaced_runtime_key [] ns i.

(** [runtime_key_matches_resource]; the slices are in range after the length
    checks, as in the code. *)
Definition runtime_key_matches_resource (key ns i : bytes) : bool :=
  let ns_len := length ns in
  let id_len := length i in
  let prefix_len := (ns_len + 1 + id_len)%nat in
  if (length key <? prefix_len)%nat then false
  else if negb (eqb_bytes (take ns_len key) ns)
          || negb (default 0 (key !! ns_len) =? 124) then false
  else
    let id_start := (ns_len + 1)%nat in
    let id_end := (id_start + id_len)%nat in
    if negb (eqb_bytes (take id_len (drop id_start key)) i) then false
    else
      (length key =? prefix_len)%nat
      || ((prefix_len + 1 <? length key)%nat && eqb_bytes (take 2 (drop id_end key)) (bs "::")).

Definition circuit_breaker_key (ns proxy_id : bytes) (target_key : option bytes) : bytes :=
  match target_key with
  | Some tk => ns ++ bs "|" ++ proxy_id ++ bs "::" ++ tk
  | None => namespaced_runtime_key ns proxy_id
  end.

Definition target_key (host : bytes) (port : Z) : bytes := host ++ bs ":" ++ show_dec port.

Definition scoped_cache_key (ns proxy_id host : bytes) (port : Z) : bytes :=
  circuit_breaker_key ns proxy_id (Some (target_key host port)).

(** ** Unambiguous decoding *)

Lemma id_char_not_sep b : id_char b = true -> b <> 124 /\ b <> 58.
Proof.
  unfold id_char, is_ascii_alphanumeric, is_ascii_digit, is_ascii_lower, is_ascii_upper.
  intros H; split; intros ->; discriminate.
Qed.

Lemma id_regex_chars i : id_regex i = true -> forallb id_char i = true.
Proof.
  destruct i as [|b i]; [done|]. simpl. rewrite !andb_true_iff. intros [Hb Hi]. split; [|done].
  unfold id_char. by rewrite Hb.
Qed.

Lemma id_regex_free i : id_regex i = true -> 124 ∉ i /\ 58 ∉ i.
Proof.
  intros H%id_regex_chars. rewrite forallb_forall in H.
  split; intros Hin%list_elem_of_In; apply H, id_char_not_sep in Hin as [? ?]; done.
Qed.

Lemma validate_resource_id_free i : validate_resource_id i = Ok tt -> 124 ∉ i /\ 58 ∉ i.
Proof.
  unfold validate_resource_id. intros H. apply id_regex_free.
  destruct i as [|b i]; [done|]. destruct (_ <? _); [done|]. by destruct (id_regex (b :: i)).
Qed.

Lemma validate_namespace_free i : validate_namespace i = Ok tt -> 124 ∉ i /\ 58 ∉ i.
Proof. apply validate_resource_id_free. Qed.

(** Splitting at the first separator. *)
Lemma app_sep_inj {A} (sep : A) p q l m :
  sep ∉ p -> sep ∉ q -> p ++ sep :: l = q ++ sep :: m -> p = q /\ l = m.
Proof.
  revert q; induction p as [|x p IH]; intros [|y q] Hp Hq E; simplify_eq/=.
  - done.
  - by apply not_elem_of_cons in Hq as [? _].
  - by apply not_elem_of_cons in Hp as [? _].
  - apply not_elem_of_cons in Hp as [? ?]. apply not_elem_of_cons in Hq as [? ?].
    destruct (IH q) as [-> ->]; done.
Qed.

(** Splitting at the last separator. *)
Lemma app_sep_inj_last {A} (sep : A) p q l m :
  sep ∉ l -> sep ∉ m -> p ++ sep :: l = q ++ sep :: m -> p = q /\ l = m.
Proof.
  intros Hl Hm E. apply (f_equal reverse) in E.
  rewrite !reverse_app, !reverse_cons, <- !app_assoc in E. simpl in E.
  apply app_sep_inj in E as [E1 E2].
  - apply (inj reverse) in E1, E2. done.
  - by rewrite elem_of_reverse.
  - by rewrite elem_of_reverse.
Qed.

(** What follows the id in a key: nothing, or a double colon and a target. *)
Definition key_tail (tk : option bytes) : bytes :=
  match tk with Some t => 58 :: 58 :: t | None => [] end.

Lemma circuit_breaker_key_shape ns i tk :
  circuit_breaker_key ns i tk = ns ++ 124 :: (i ++ key_tail tk).
Proof.
  destruct tk; simpl; unfold namespaced_runtime_key, write_namespaced_runtime_key; simpl;
    by rewrite ?app_nil_r.
Qed.

Lemma key_tail_inj a b : key_tail a = key_tail b -> a = b.
Proof. destruct a, b; simpl; naive_solver. Qed.

Lemma id_tail_inj i j a b :
  58 ∉ i -> 58 ∉ j -> i ++ key_tail a = j ++ key_tail b -> i = j /\ a = b.
Proof.
  intros Hi Hj. destruct a as [a|], b as [b|]; simpl; intros E.
  - apply app_sep_inj in E as [-> E]; [|done..]. by simplify_eq.
  - rewrite app_nil_r in E. subst j. set_solver.
  - rewrite app_nil_r in E. subst i. set_solver.
  - rewrite !app_nil_r in E. done.
Qed.

Lemma circuit_breaker_key_inj r r' tk tk' :
  valid_resource r -> valid_resource r' ->
  circuit_breaker_key (namespace r) (id r) tk = circuit_breaker_key (namespace r') (id r') tk' ->
  r = r' /\ tk = tk'.
Proof.
  intros [Hn Hi] [Hn' Hi'] E. rewrite !circuit_breaker_key_shape in E.
  apply validate_namespace_free in Hn as [? _], Hn' as [? _].
  apply validate_resource_id_free in Hi as [_ ?], Hi' as [_ ?].
  apply app_sep_inj in E as [E1 E2]; [|done..]. apply id_tail_inj in E2 as [E2 ->]; [|done..].
  destruct r, r'; simpl in *; by subst.
Qed.

Lemma target_key_inj h p h' p' :
  is_u16 p -> is_u16 p' -> target_key h p = target_key h' p' -> h = h' /\ p = p'.
Proof.
  intros [Hp _] [Hp' _] E. unfold target_key in E.
  apply (app_sep_inj_last 58) in E as [-> E].
  - by split; [|apply show_dec_inj].
  - apply all_digits_not_in; [done|]. by apply show_dec_spec.
  - apply all_digits_not_in; [done|]. by apply show_dec_spec.
Qed.

(** [runtime_key_matches_resource] as a statement about the key's shape. *)
Lemma matches_spec key ns i :
  runtime_key_matches_resource key ns i = true <->
  key = ns ++ 124 :: i \/ exists t, key = ns ++ 124 :: i ++ 58 :: 58 :: t.
Proof.
  unfold runtime_key_matches_resource. split.
  - destruct (Nat.ltb_spec (length key) (length ns + 1 + length i)) as [|Hlen]; [done|].
    destruct (eqb_bytes (take (length ns) key) ns) eqn:E1; simpl; [|done].
    apply eqb_bytes_spec in E1.
    destruct (Z.eqb_spec (default 0 (key !! length ns)) 124) as [E2|]; simpl; [|done].
    destruct (eqb_bytes (take (length i) (drop (length ns + 1) key)) i) eqn:E3; simpl; [|done].
    apply eqb_bytes_spec in E3.
    assert (Ekey : key = ns ++ 124 :: i ++ drop (length ns + 1 + length i) key).
    { rewrite <- (take_drop (length ns) key) at 1. rewrite E1. f_equal.
      destruct (key !! length ns) as [x|] eqn:Hx; simpl in E2; [subst x|by apply lookup_ge_None in Hx; lia].
      rewrite (drop_S _ _ _ Hx). f_equal.
      rewrite <- (take_drop (length i) (drop (S (length ns)) key)) at 1.
      replace (S (length ns)) with (length ns + 1)%nat by lia. by rewrite E3, drop_drop. }
    remember (drop (length ns + 1 + length i) key) as t eqn:Ht. clear Ht E1 E2 E3.
    rewrite orb_true_iff, andb_true_iff, Nat.eqb_eq, eqb_bytes_spec. intros [Hl|[_ Ht]].
    + left. rewrite Ekey in Hl. rewrite length_app in Hl. simpl in Hl. rewrite length_app in Hl.
      assert (t = []) as -> by (destruct t; simpl in *; [done|lia]). by rewrite app_nil_r in Ekey.
    + right. exists (drop 2 t). rewrite Ekey. do 3 f_equal.
      rewrite <- (take_drop 2 t) at 1. by rewrite Ht.
  - intros H. assert (Hshape : exists tl, key = ns ++ 124 :: i ++ tl /\ (tl = [] \/ exists t, tl = 58 :: 58 :: t)).
    { destruct H as [->|[t ->]]; [exists []; rewrite app_nil_r; auto|eauto]. }
    clear H. destruct Hshape as (tl & -> & Htl).
    rewrite length_app; simpl. rewrite length_app.
    destruct (Nat.ltb_spec (length ns + S (length i + length tl)) (length ns + 1 + length i)); [lia|].
    assert (Emid : (ns ++ 124 :: i ++ tl) !! length ns = Some 124) by by apply list_lookup_middle.
    rewrite Emid. rewrite take_app_length.
    rewrite (proj2 (eqb_bytes_spec ns ns)) by done. simpl.
    replace (length ns + 1)%nat with (length (ns ++ [124])) by (rewrite length_app; done).
    rewrite (app_assoc ns [124] (i ++ tl) : ns ++ 124 :: i ++ tl = (ns ++ [124]) ++ i ++ tl).
    rewrite drop_app_length, take_app_length, (proj2 (eqb_bytes_spec i i)) by done. simpl.
    destruct Htl as [->|[t ->]]; simpl.
    + rewrite length_app; simpl. apply orb_true_iff; left. apply Nat.eqb_eq. lia.
    + apply orb_true_iff; right. apply andb_true_iff. split.
      * rewrite length_app; simpl. apply Nat.ltb_lt. lia.
      * rewrite <- length_app, app_assoc, drop_app_length. done.
Qed.

Lemma matches_key r r' tk :
  valid_resource r -> valid_resource r' ->
  runtime_key_matches_resource (circuit_breaker_key (namespace r) (id r) tk) (namespace r') (id r')
  = true <-> r = r'.
Proof.
  intros Hr Hr'. rewrite matches_spec. split.
  - intros H. assert (exists tk', circuit_breaker_key (namespace r) (id r) tk
      = circuit_breaker_key (namespace r') (id r') tk') as [tk' E].
    { destruct H as [E|[t E]]; [exists None|exists (Some t)];
        rewrite E, circuit_breaker_key_shape; simpl; by rewrite ?app_nil_r. }
    by apply circuit_breaker_key_inj in E as [? _].
  - intros <-. rewrite circuit_breaker_key_shape. destruct tk as [t|]; simpl; [eauto|].
    rewrite app_nil_r; auto.
Qed.

(** For admitted namespaces and ids the runtime keys are unambiguous: a
    target-scoped key determines namespace, proxy, host (whatever text it is)
    and port; and a key is matched by the removal predicate of exactly the
    resource it was minted for, proxy-scoped or target-scoped, so pruning one
    tenant's proxy can never touch a neighbour's entry. *)
Theorem runtime_keys_unambiguous r r' :
  valid_resource r -> valid_resource r' ->
  (forall h p h' p', is_u16 p -> is_u16 p' ->
     scoped_cache_key (namespace r) (id r) h p = scoped_cache_key (namespace r') (id r') h' p' ->
     r = r' /\ h = h' /\ p = p')
  /\ (forall tk, runtime_key_matches_resource (circuit_breaker_key (namespace r) (id r) tk)
                   (namespace r') (id r') = true <-> r = r').
Proof.
  intros Hr Hr'. split; [|intros; by apply matches_key].
  intros h p h' p' Hp Hp' E. unfold scoped_cache_key in E.
  apply circuit_breaker_key_inj in E as [-> E]; [|done..].
  injection E as E. apply target_key_inj in E as [-> ->]; done.
Qed.

(** Two proxies of one tenant whose ids share a prefix. *)
Lemma runtime_keys_unambiguous_witness :
  runtime_key_matches_resource
    (circuit_breaker_key (bs "ns") (bs "api-2") (Some (bs "[::1]:80"))) (bs "ns") (bs "api") = false.
Proof.
  apply not_true_is_false. intros H.
  apply (proj2 (runtime_keys_unambiguous (NsId (bs "ns") (bs "api-2")) (NsId (bs "ns") (bs "api"))
    ltac:(split; vm_compute; reflexivity) ltac:(split; vm_compute; reflexivity))) in H.
  vm_compute in H. discriminate.
Defined.
