(* ===== verification/BreakerCache.v ===== *)
(** * The circuit-breaker cache ([src/src/circuit_breaker.rs], lines 625-987)

    [CircuitBreakerCache]: a map from runtime keys to shared breakers. A
    breaker behind an [Arc] is an identifier into a heap, so that two holders
    of one breaker see each other's updates and a replaced breaker lives on in
    the requests that still hold it. Each operation is one transition; the
    entry operations of the code hold the key's shard lock. *)

From S2P Require Import Prelude BreakerWord CircuitBreaker Decimal RuntimeKeys.

Record cell := Cell { cell_config : CircuitBreakerConfig; cell_breaker : breaker }.

Record cache := Cache {
  breakers : gmap bytes nat;
  entry_count : Z;
  max_entries : Z;
  admission_refused : Z;
  heap : gmap nat cell;
  next_id : nat;
}.

Definition with_max_entries (n : Z) : cache := Cache ∅ 0 n 0 ∅ 0.

(** [Arc::new(CircuitBreaker::new(config))]. *)
Definition alloc (config : CircuitBreakerConfig) (c : cache) : nat * cache :=
  (next_id c,
   Cache (breakers c) (entry_count c) (max_entries c) (admission_refused c)
     (<[next_id c := Cell config new]> (heap c)) (S (next_id c))).

Definition with_entry (c : cache) (key : bytes) (a : nat) : cache :=
  Cache (<[key := a]> (breakers c)) (entry_count c) (max_entries c) (admission_refused c)
    (heap c) (next_id c).

Definition with_count (c : cache) (n : Z) : cache :=
  Cache (breakers c) n (max_entries c) (admission_refused c) (heap c) (next_id c).

Definition with_refused (c : cache) (n : Z) : cache :=
  Cache (breakers c) (entry_count c) (max_entries c) n (heap c) (next_id c).

Definition try_reserve_entry_slot (c : cache) : option cache :=
  if entry_count c <? max_entries c then Some (with_count c (entry_count c + 1)) else None.

Definition release_entry_slot (c : cache) : cache :=
  if entry_count c <? 1 then c else with_count c (entry_count c - 1).

Definition config_matches (c : cache) (a : nat) (config : CircuitBreakerConfig) : bool :=
  match heap c !! a with
  | Some cl => bool_decide (cell_config cl = config)
  | None => false
  end.

Definition get_or_create (ns proxy_id : bytes) (tk : option bytes)
    (config : CircuitBreakerConfig) (c : cache) : nat * cache :=
  let key := circuit_breaker_key ns proxy_id tk in
  match breakers c !! key with
  | Some a =>
    if config_matches c a config then (a, c)
    else
      let '(cb, c) := alloc config c in
      (cb, with_entry c key cb)
  | None =>
    match try_reserve_entry_slot c with
    | None => alloc config (with_refused c (wrapping_add 64 (admission_refused c) 1))
    | Some c =>
      let '(cb, c) := alloc config c in
      (cb, with_entry c key cb)
    end
  end.

Definition peek (ns proxy_id : bytes) (tk : option bytes) (c : cache) : option nat :=
  breakers c !! circuit_breaker_key ns proxy_id tk.

(** Run a method of the breaker [a] points to. *)
Definition update_breaker (c : cache) (a : nat) (b : breaker) : cache :=
  match heap c !! a with
  | Some cl =>
    Cache (breakers c) (entry_count c) (max_entries c) (admission_refused c)
      (<[a := Cell (cell_config cl) b]> (heap c)) (next_id c)
  | None => c
  end.

Definition can_execute_with_admission_epoch (ns proxy_id : bytes) (tk : option bytes)
    (config : CircuitBreakerConfig) (now : Z) (c : cache)
    : result (nat * bool * Z) CircuitOpenErr * cache :=
  let '(a, c) := get_or_create ns proxy_id tk config c in
  match heap c !! a with
  | None => (Err CircuitOpenError, c)
  | Some cl =>
    let admission_open_epoch := open_epoch (cell_breaker cl) in
    let '(r, b) := CircuitBreaker.can_execute (cell_config cl) now (cell_breaker cl) in
    let c := update_breaker c a b in
    match r with
    | Ok probe => (Ok (a, probe, admission_open_epoch), c)
    | Err e => (Err e, c)
    end
  end.

Definition can_execute (ns proxy_id : bytes) (tk : option bytes)
    (config : CircuitBreakerConfig) (now : Z) (c : cache)
    : result (nat * bool) CircuitOpenErr * cache :=
  let '(a, c) := get_or_create ns proxy_id tk config c in
  match heap c !! a with
  | None => (Err CircuitOpenError, c)
  | Some cl =>
    let '(r, b) := CircuitBreaker.can_execute (cell_config cl) now (cell_breaker cl) in
    let c := update_breaker c a b in
    match r with
    | Ok probe => (Ok (a, probe), c)
    | Err e => (Err e, c)
    end
  end.

(** [DashMap::retain] with the slot release of every removed entry. *)
Definition retain (keep : bytes -> bool) (c : cache) : cache :=
  let removed := size (filter (fun kv : bytes * nat => keep kv.1 = false) (breakers c)) in
  let c' := Nat.iter removed release_entry_slot c in
  Cache (filter (fun kv : bytes * nat => keep kv.1 = true) (breakers c')) (entry_count c')
    (max_entries c') (admission_refused c') (heap c') (next_id c').

Definition prune (removed : list NamespacedResourceId) (c : cache) : cache :=
  retain (fun key =>
    negb (existsb (fun r => runtime_key_matches_resource key (namespace r) (id r)) removed)) c.

(** [str::contains] for a two-byte needle. *)
Fixpoint contains2 (x y : Z) (l : bytes) : bool :=
  match l with
  | a :: (b :: _) as l' => ((a =? x) && (b =? y)) || contains2 x y l'
  | _ => false
  end.

Definition prune_stale_targets (active : gset bytes) (c : cache) : cache :=
  retain (fun key => if negb (contains2 58 58 key) then true else bool_decide (key ∈ active)) c.

Fixpoint strip_prefix (p l : bytes) : option bytes :=
  match p, l with
  | [], _ => Some l
  | x :: p, y :: l => if x =? y then strip_prefix p l else None
  | _, [] => None
  end.

Definition prune_stale_targets_for_proxy (ns proxy_id : bytes) (live_targets : list (bytes * Z))
    (c : cache) : cache :=
  let scope_prefix := namespaced_runtime_key ns proxy_id ++ bs "::" in
  let live := map (fun t => target_key t.1 t.2) live_targets in
  retain (fun key =>
    match strip_prefix scope_prefix key with
    | None => true
    | Some host_port => bool_decide (host_port ∈ live)
    end) c.

Definition snapshot (c : cache) : list (bytes * option (string * Z * Z)) :=
  map (fun kv =>
         (kv.1, (fun cl => (state_name (cell_breaker cl), failure_count (cell_breaker cl),
                            success_count (cell_breaker cl))) <$> heap c !! kv.2))
      (map_to_list (breakers c)).

Definition len (c : cache) : Z := entry_count c.

(** ** Well-formed caches *)

Record cache_ok (c : cache) : Prop := {
  ok_count : entry_count c = Z.of_nat (size (breakers c));
  ok_bound : entry_count c <= max_entries c;
  ok_entries : forall k a, breakers c !! k = Some a -> is_Some (heap c !! a);
  ok_distinct : forall k k' a, breakers c !! k = Some a -> breakers c !! k' = Some a -> k = k';
  ok_fresh : forall a, (next_id c <= a)%nat -> heap c !! a = None;
  ok_cells : forall a cl, heap c !! a = Some cl -> wf (cell_config cl) (cell_breaker cl);
}.

(** The operations requests and reloads perform, including a report by a
    request that still holds a breaker the cache has dropped or replaced. *)
Inductive cache_step : cache -> cache -> Prop :=
| step_get ns i tk cfg c a c' : get_or_create ns i tk cfg c = (a, c') -> cache_step c c'
| step_admit ns i tk cfg now c r c' : can_execute ns i tk cfg now c = (r, c') -> cache_step c c'
| step_admit_epoch ns i tk cfg now c r c' :
    can_execute_with_admission_epoch ns i tk cfg now c = (r, c') -> cache_step c c'
| step_success a probe cl c : heap c !! a = Some cl ->
    cache_step c (update_breaker c a (record_success (cell_config cl) probe (cell_breaker cl)))
| step_neutral a probe cl c : heap c !! a = Some cl ->
    cache_step c (update_breaker c a (record_neutral probe (cell_breaker cl)))
| step_failure a status conn probe clocks cl c : heap c !! a = Some cl ->
    cache_step c (update_breaker c a
      (record_failure (cell_config cl) status conn probe clocks (cell_breaker cl)))
| step_prune removed c : cache_step c (prune removed c)
| step_prune_stale active c : cache_step c (prune_stale_targets active c)
| step_prune_proxy ns i live c : cache_step c (prune_stale_targets_for_proxy ns i live c).

Inductive cache_reachable (max : Z) : cache -> Prop :=
| cache_reachable_init : cache_reachable max (with_max_entries max)
| cache_reachable_step c c' : cache_reachable max c -> cache_step c c' -> cache_reachable max c'.

Lemma with_max_entries_ok n : 0 <= n -> cache_ok (with_max_entries n).
Proof. by constructor; intros; simplify_map_eq/=. Qed.

Lemma alloc_entry_ok cfg c key n :
  cache_ok c -> n = Z.of_nat (size (<[key := next_id c]> (breakers c))) -> n <= max_entries c ->
  cache_ok (with_entry (alloc cfg (with_count c n)).2 key (next_id c)).
Proof.
  intros [Hc Hb He Hd Hf Hw] Hn Hle. constructor; simpl; try done.
  - intros k a. rewrite lookup_insert_Some. intros [[-> <-]|[_ Ha]]; [by simplify_map_eq|].
    destruct (decide (a = next_id c)) as [->|]; simplify_map_eq; eauto.
  - intros k k' a. rewrite !lookup_insert_Some.
    assert (Hfresh : forall k, breakers c !! k = Some (next_id c) -> False).
    { intros k0 H0. destruct (He _ _ H0) as [cl Hcl]. by rewrite Hf in Hcl. }
    intros [[-> <-]|[? ?]] [[-> ?]|[? ?]]; simplify_eq; try done; try (by exfalso; eauto). eauto.
  - intros a Ha. rewrite lookup_insert_ne by (simpl in *; lia). apply Hf. simpl in *; lia.
  - intros a cl. rewrite lookup_insert_Some. intros [[<- <-]|[_ Hcl]]; [apply new_wf|eauto].
Qed.

Lemma alloc_transient_ok cfg c n : cache_ok c -> cache_ok (alloc cfg (with_refused c n)).2.
Proof.
  intros [Hc Hb He Hd Hf Hw]. constructor; simpl; try done.
  - intros k a Ha. destruct (decide (a = next_id c)) as [->|]; simplify_map_eq; eauto.
  - intros a Ha. rewrite lookup_insert_ne by (simpl in *; lia). apply Hf. simpl in *; lia.
  - intros a cl. rewrite lookup_insert_Some. intros [[<- <-]|[_ Hcl]]; [apply new_wf|eauto].
Qed.

Lemma with_count_same c : with_count c (entry_count c) = c.
Proof. by destruct c. Qed.

(** The three outcomes of [get_or_create]. *)
Inductive got (key : bytes) (cfg : CircuitBreakerConfig) (c : cache) : nat -> cache -> Prop :=
| GotHit a cl : breakers c !! key = Some a -> heap c !! a = Some cl -> cell_config cl = cfg ->
    got key cfg c a c
| GotNew n : n = Z.of_nat (size (<[key := next_id c]> (breakers c))) -> n <= max_entries c ->
    got key cfg c (next_id c) (with_entry (alloc cfg (with_count c n)).2 key (next_id c))
| GotTransient : breakers c !! key = None -> max_entries c <= entry_count c ->
    got key cfg c (next_id c)
      (alloc cfg (with_refused c (wrapping_add 64 (admission_refused c) 1))).2.

Lemma get_or_create_got ns i tk cfg c :
  cache_ok c ->
  let '(a, c') := get_or_create ns i tk cfg c in got (circuit_breaker_key ns i tk) cfg c a c'.
Proof.
  intros [Hc Hb He Hd Hf Hw]. unfold get_or_create. set (key := circuit_breaker_key ns i tk).
  destruct (breakers c !! key) as [a|] eqn:Hk.
  - unfold config_matches. destruct (He _ _ Hk) as [cl Hcl]. rewrite Hcl.
    case_bool_decide as Hcfg; [by econstructor|]. simpl.
    apply (GotNew key cfg c (entry_count c)); [|done]. by rewrite map_size_insert_Some.
  - unfold try_reserve_entry_slot. destruct (Z.ltb_spec (entry_count c) (max_entries c)); simpl.
    + apply (GotNew key cfg c (entry_count c + 1)); [|lia]. rewrite map_size_insert_None by done. lia.
    + by apply GotTransient.
Qed.

Lemma got_ok key cfg c a c' : cache_ok c -> got key cfg c a c' -> cache_ok c'.
Proof.
  intros Hok [|n Hn Hle|]; [done|by apply alloc_entry_ok|by apply alloc_transient_ok].
Qed.

Lemma got_config key cfg c a c' :
  cache_ok c -> got key cfg c a c' ->
  exists cl, heap c' !! a = Some cl /\ cell_config cl = cfg.
Proof. intros Hok [? cl Hk Hcl Hcfg|n Hn Hle|]; simpl; [eauto|..]; simplify_map_eq; eauto. Qed.

Lemma update_breaker_ok c a cl b :
  cache_ok c -> heap c !! a = Some cl -> wf (cell_config cl) b -> cache_ok (update_breaker c a b).
Proof.
  intros [Hc Hb He Hd Hf Hw] Ha Hwf. unfold update_breaker. rewrite Ha. constructor; simpl; try done.
  - intros k a' Hk. destruct (decide (a = a')) as [->|]; simplify_map_eq; eauto.
  - intros a' Ha'. rewrite lookup_insert_ne; [by apply Hf|]. intros ->. by rewrite Hf in Ha.
  - intros a' cl'. rewrite lookup_insert_Some. intros [[<- <-]|[_ ?]]; [done|eauto].
Qed.

Lemma release_iter n c :
  Z.of_nat n <= entry_count c ->
  Nat.iter n release_entry_slot c = with_count c (entry_count c - Z.of_nat n).
Proof.
  induction n as [|n IH]; intros Hn.
  { simpl. rewrite Z.sub_0_r. by rewrite with_count_same. }
  rewrite Nat.iter_succ, IH by lia. unfold release_entry_slot; simpl.
  destruct (Z.ltb_spec (entry_count c - Z.of_nat n) 1); [lia|]. unfold with_count; simpl. f_equal. lia.
Qed.

Lemma filter_split (keep : bytes -> bool) (m : gmap bytes nat) :
  size m = (size (filter (fun kv => keep kv.1 = true) m)
            + size (filter (fun kv => keep kv.1 = false) m))%nat.
Proof.
  rewrite <- (map_filter_union_complement (fun kv => keep kv.1 = true) m) at 1.
  rewrite map_size_disj_union by apply map_disjoint_filter_complement. do 2 f_equal.
  apply map_filter_ext. intros k a _; simpl. by destruct (keep k).
Qed.

(** [retain] drops exactly the entries its closure rejects and keeps the count
    exact. *)
Lemma retain_breakers keep c :
  breakers (retain keep c) = filter (fun kv => keep kv.1 = true) (breakers c).
Proof.
  unfold retain; simpl. f_equal. generalize (size (filter (fun kv => keep kv.1 = false) (breakers c))).
  induction n as [|n IH]; [done|]. rewrite Nat.iter_succ. unfold release_entry_slot at 1.
  by destruct (_ <? _).
Qed.

Lemma retain_lookup keep c key :
  breakers (retain keep c) !! key = if keep key then breakers c !! key else None.
Proof.
  rewrite retain_breakers. apply option_eq. intros a. rewrite map_lookup_filter_Some; simpl.
  destruct (keep key); naive_solver.
Qed.

Lemma retain_ok keep c : cache_ok c -> cache_ok (retain keep c).
Proof.
  intros [Hc Hb He Hd Hf Hw]. assert (Hsz := filter_split keep (breakers c)).
  unfold retain. rewrite release_iter by lia.
  constructor; simpl; try done; try lia.
  - intros k a [Hk _]%map_lookup_filter_Some. eauto.
  - intros k k' a [Hk _]%map_lookup_filter_Some [Hk' _]%map_lookup_filter_Some. eauto.
Qed.

Lemma get_or_create_ok ns i tk cfg c :
  cache_ok c ->
  cache_ok (get_or_create ns i tk cfg c).2
  /\ exists cl, heap (get_or_create ns i tk cfg c).2 !! (get_or_create ns i tk cfg c).1 = Some cl
                /\ cell_config cl = cfg.
Proof.
  intros Hok. assert (Hg := get_or_create_got ns i tk cfg c Hok).
  destruct (get_or_create ns i tk cfg c) as [a c']. simpl. split; [by eapply got_ok|by eapply got_config].
Qed.

Lemma can_execute_wf cfg now b :
  wf cfg b -> wf cfg (CircuitBreaker.can_execute cfg now b).2.
Proof.
  rewrite !wf_shape. intros Hb. unfold CircuitBreaker.can_execute. by apply refine_can_execute.
Qed.

Lemma can_execute_ok ns i tk cfg now c :
  cache_ok c -> cache_ok (can_execute ns i tk cfg now c).2.
Proof.
  intros Hok. destruct (get_or_create_ok ns i tk cfg c Hok) as [Hok' (cl & Hcl & _)].
  unfold can_execute. destruct (get_or_create ns i tk cfg c) as [a c1]; simpl in *. rewrite Hcl.
  assert (Hwf := can_execute_wf _ now _ (ok_cells _ Hok' _ _ Hcl)).
  destruct (CircuitBreaker.can_execute (cell_config cl) now (cell_breaker cl)) as [[probe|] b];
    simpl; by eapply update_breaker_ok.
Qed.

Lemma can_execute_epoch_ok ns i tk cfg now c :
  cache_ok c -> cache_ok (can_execute_with_admission_epoch ns i tk cfg now c).2.
Proof.
  intros Hok. destruct (get_or_create_ok ns i tk cfg c Hok) as [Hok' (cl & Hcl & _)].
  unfold can_execute_with_admission_epoch.
  destruct (get_or_create ns i tk cfg c) as [a c1]; simpl in *. rewrite Hcl.
  assert (Hwf := can_execute_wf _ now _ (ok_cells _ Hok' _ _ Hcl)).
  destruct (CircuitBreaker.can_execute (cell_config cl) now (cell_breaker cl)) as [[probe|] b];
    simpl; by eapply update_breaker_ok.
Qed.

Lemma record_wf cfg b :
  wf cfg b ->
  (forall probe, wf cfg (record_success cfg probe b))
  /\ (forall probe, wf cfg (record_neutral probe b))
  /\ (forall status conn probe clocks, wf cfg (record_failure cfg status conn probe clocks b)).
Proof.
  intros Hb%wf_shape. split_and!; intros; apply wf_shape;
    [by apply refine_record_success|by apply refine_record_neutral|by apply refine_record_failure].
Qed.

Lemma cache_step_ok c c' : cache_step c c' -> cache_ok c -> cache_ok c'.
Proof.
  intros [ns i tk cfg c0 a c1 E|ns i tk cfg now c0 r c1 E|ns i tk cfg now c0 r c1 E
    |a probe cl c0 Hcl|a probe cl c0 Hcl|a status conn probe clocks cl c0 Hcl| | |] Hok;
    try by apply retain_ok.
  - destruct (get_or_create_ok ns i tk cfg c0 Hok) as [H _]. by rewrite E in H.
  - assert (H := can_execute_ok ns i tk cfg now c0 Hok). by rewrite E in H.
  - assert (H := can_execute_epoch_ok ns i tk cfg now c0 Hok). by rewrite E in H.
  - eapply update_breaker_ok; [done..|]. by apply record_wf, (ok_cells _ Hok _ _ Hcl).
  - eapply update_breaker_ok; [done..|]. by apply record_wf, (ok_cells _ Hok _ _ Hcl).
  - eapply update_breaker_ok; [done..|]. by apply record_wf, (ok_cells _ Hok _ _ Hcl).
Qed.

Lemma cache_reachable_ok max c : 0 <= max -> cache_reachable max c -> cache_ok c.
Proof.
  intros Hm. induction 1; [by apply with_max_entries_ok|]. by eapply cache_step_ok.
Qed.

Lemma release_iter_max n c : max_entries (Nat.iter n release_entry_slot c) = max_entries c.
Proof.
  induction n as [|n IH]; [done|]. rewrite Nat.iter_succ. unfold release_entry_slot at 1.
  by destruct (_ <? _).
Qed.

Lemma get_or_create_max ns i tk cfg c :
  max_entries (get_or_create ns i tk cfg c).2 = max_entries c.
Proof. unfold get_or_create, try_reserve_entry_slot. by split_matches. Qed.

Lemma update_breaker_max c a b : max_entries (update_breaker c a b) = max_entries c.
Proof. unfold update_breaker. by case_match. Qed.

Lemma cache_step_max c c' : cache_step c c' -> max_entries c' = max_entries c.
Proof.
  intros [ns i tk cfg c0 a c1 E|ns i tk cfg now c0 r c1 E|ns i tk cfg now c0 r c1 E
    |a probe cl c0 Hcl|a probe cl c0 Hcl|a status conn probe clocks cl c0 Hcl| | |];
    try apply update_breaker_max; try apply release_iter_max.
  all: assert (H := get_or_create_max ns i tk cfg c0).
  - by rewrite E in H.
  - unfold can_execute in E. destruct (get_or_create ns i tk cfg c0) as [a c2]. simpl in H.
    rewrite <- H. split_matches; by rewrite ?update_breaker_max.
  - unfold can_execute_with_admission_epoch in E.
    destruct (get_or_create ns i tk cfg c0) as [a c2]. simpl in H.
    rewrite <- H. split_matches; by rewrite ?update_breaker_max.
Qed.

(** Whatever requests, outcome reports and reloads do, the entry counter
    that admission consults is the exact number of cached breakers and never
    exceeds the configured ceiling; distinct keys never share a breaker; and
    every breaker, cached or still held by a request, is well-formed. *)
Theorem cache_invariant max c :
  0 <= max -> cache_reachable max c ->
  len c = Z.of_nat (size (breakers c)) /\ len c <= max
  /\ (forall k k' a, breakers c !! k = Some a -> breakers c !! k' = Some a -> k = k')
  /\ (forall a cl, heap c !! a = Some cl -> wf (cell_config cl) (cell_breaker cl)).
Proof.
  intros Hm Hc. destruct (cache_reachable_ok max c Hm Hc) as [H1 H2 _ H4 _ H6].
  assert (Hmax : max_entries c = max).
  { clear -Hc. induction Hc as [|c c' _ IH H]; [done|]. by rewrite (cache_step_max _ _ H). }
  unfold len. rewrite Hmax in H2. by split_and!.
Qed.

Lemma cache_invariant_witness :
  len (get_or_create (bs "ns") (bs "p") None default_config (with_max_entries 1)).2 <= 1.
Proof.
  refine (proj1 (proj2 (cache_invariant 1 _ ltac:(lia) _))).
  eapply cache_reachable_step; [constructor|]. eapply step_get. by apply surjective_pairing.
Defined.

(** ** Sharing *)

Definition same_elsewhere (key : bytes) (c c' : cache) : Prop :=
  forall k, k <> key -> breakers c' !! k = breakers c !! k.

Lemma got_elsewhere key cfg c a c' : got key cfg c a c' -> same_elsewhere key c c'.
Proof. intros [| |] k Hk; simpl; [done| |done]. by rewrite lookup_insert_ne. Qed.

(** [get_or_create] hands every caller a breaker with the configuration it
    asked for and touches no other key. If the breaker is cached, asking
    again with the same configuration returns the same shared breaker and
    changes nothing, so consecutive requests accumulate into one state; it is
    not cached only when the key is new and the cache is full, and then the
    refusal is counted. *)
Theorem get_or_create_shares ns i tk cfg c :
  cache_ok c ->
  let key := circuit_breaker_key ns i tk in
  let '(a, c') := get_or_create ns i tk cfg c in
  (exists cl, heap c' !! a = Some cl /\ cell_config cl = cfg)
  /\ same_elsewhere key c c'
  /\ (breakers c' !! key = Some a /\ get_or_create ns i tk cfg c' = (a, c')
      \/ breakers c !! key = None /\ breakers c' = breakers c /\ len c = max_entries c
         /\ admission_refused c' = wrapping_add 64 (admission_refused c) 1).
Proof.
  intros Hok key. assert (Hg := get_or_create_got ns i tk cfg c Hok). fold key in Hg.
  destruct (get_or_create ns i tk cfg c) as [a c'].
  destruct (got_config key cfg c a c' Hok Hg) as (cl & Hcl & Hcfg).
  split_and!; [eauto|by eapply got_elsewhere|].
  assert (Hcase : breakers c' !! key = Some a \/ breakers c !! key = None
    /\ breakers c' = breakers c /\ max_entries c <= entry_count c
    /\ admission_refused c' = wrapping_add 64 (admission_refused c) 1).
  { destruct Hg as [? ? ? ? ?|n ? ?|? ?]; simpl; [auto|left; by simplify_map_eq|by right]. }
  destruct Hcase as [Hk|(? & ? & ? & ?)]; [left|right].
  - split; [done|]. unfold get_or_create. fold key. rewrite Hk. unfold config_matches.
    rewrite Hcl, bool_decide_eq_true_2 by done. done.
  - split_and!; try done. unfold len. assert (Hb := ok_bound _ Hok). lia.
Qed.

Lemma get_or_create_shares_witness :
  let '(a, c') := get_or_create (bs "ns") (bs "p") None default_config (with_max_entries 1) in
  breakers c' !! bs "ns|p" = Some a
  /\ get_or_create (bs "ns") (bs "p") None default_config c' = (a, c').
Proof.
  assert (H := get_or_create_shares (bs "ns") (bs "p") None default_config (with_max_entries 1)
    (with_max_entries_ok 1 ltac:(lia))).
  destruct (get_or_create (bs "ns") (bs "p") None default_config (with_max_entries 1)) as [a c'] eqn:E.
  destruct H as (_ & _ & [H|(_ & _ & H & _)]); [exact H|]. discriminate (H : 0 = 1).
Defined.

(** ** Pruning *)

Lemma strip_prefix_spec p l t : strip_prefix p l = Some t <-> l = p ++ t.
Proof.
  revert l; induction p as [|x p IH]; intros [|y l]; simpl; try naive_solver.
  destruct (Z.eqb_spec x y) as [->|]; [rewrite IH|]; naive_solver.
Qed.

Lemma contains2_app x y a b : contains2 x y (a ++ x :: y :: b) = true.
Proof.
  induction a as [|z a IH]; simpl.
  - by rewrite !Z.eqb_refl.
  - destruct a; simpl in *; rewrite IH; by rewrite orb_true_r.
Qed.

Lemma contains2_free x y l : x ∉ l -> contains2 x y l = false.
Proof.
  induction l as [|z l IH]; [done|]. intros [Hz Hl]%not_elem_of_cons. simpl.
  destruct l as [|w l]; [done|]. rewrite IH by done.
  destruct (Z.eqb_spec z x); [by subst|done].
Qed.

Lemma strip_scope r r' tk :
  valid_resource r -> valid_resource r' ->
  strip_prefix (namespaced_runtime_key (namespace r) (id r) ++ bs "::")
    (circuit_breaker_key (namespace r') (id r') tk)
  = if bool_decide (r' = r) then tk else None.
Proof.
  intros Hr Hr'.
  assert (Hscope : forall t, (namespaced_runtime_key (namespace r) (id r) ++ bs "::") ++ t
    = circuit_breaker_key (namespace r) (id r) (Some t)).
  { intros t. rewrite circuit_breaker_key_shape.
    unfold namespaced_runtime_key, write_namespaced_runtime_key. simpl. by repeat (rewrite <- app_assoc; simpl). }
  apply option_eq; intros t. rewrite strip_prefix_spec, Hscope. split.
  - intros E. apply circuit_breaker_key_inj in E as [-> ->]; [|done..].
    by rewrite bool_decide_eq_true_2.
  - case_bool_decide; [|done]. by intros ->; subst.
Qed.

(** Pruning is exact on minted keys. Removing proxies drops all and only
    the breakers of those proxies, in every scope; a service-discovery
    publication for one proxy drops all and only that proxy's breakers whose
    target is no longer live; and the global reconciliation drops target-scoped
    breakers that are not active and keeps every proxy-scoped one. *)
Theorem prune_exact removed r live active c r' tk :
  Forall valid_resource removed -> valid_resource r -> valid_resource r' ->
  let key := circuit_breaker_key (namespace r') (id r') tk in
  breakers (prune removed c) !! key
    = (if bool_decide (r' ∈ removed) then None else breakers c !! key)
  /\ breakers (prune_stale_targets_for_proxy (namespace r) (id r) live c) !! key
     = (match tk with
        | Some t => if bool_decide (r' = r /\ t ∉ map (fun h => target_key h.1 h.2) live)
                    then None else breakers c !! key
        | None => breakers c !! key
        end)
  /\ breakers (prune_stale_targets active c) !! key
     = (match tk with
        | Some _ => if bool_decide (key ∈ active) then breakers c !! key else None
        | None => breakers c !! key
        end).
Proof.
  intros Hrem Hr Hr' key. split_and!.
  - unfold prune. rewrite retain_lookup. destruct (existsb _ _) eqn:E; simpl.
    + apply existsb_exists in E as (x & Hx%list_elem_of_In & Hm).
      rewrite Forall_forall in Hrem. apply matches_key in Hm as ->; [|done|by apply Hrem].
      by rewrite bool_decide_eq_true_2.
    + rewrite bool_decide_eq_false_2; [done|]. intros Hin.
      assert (Hf : existsb (fun x => runtime_key_matches_resource key (namespace x) (id x)) removed = true);
        [|congruence].
      apply existsb_exists. exists r'. split; [by apply list_elem_of_In|]. by apply matches_key.
  - unfold prune_stale_targets_for_proxy. rewrite retain_lookup.
    unfold key. rewrite strip_scope by done. destruct tk as [t|]; case_bool_decide as H1; subst;
      try done; repeat case_bool_decide; naive_solver.
  - unfold prune_stale_targets. rewrite retain_lookup. unfold key.
    destruct Hr' as [Hn Hi]. apply validate_namespace_free in Hn as [_ Hn].
    apply validate_resource_id_free in Hi as [_ Hi]. destruct tk as [t|].
    + rewrite circuit_breaker_key_shape at 1; simpl.
      change (namespace r' ++ 124 :: id r' ++ 58 :: 58 :: t)
        with (namespace r' ++ (124 :: id r') ++ 58 :: 58 :: t).
      rewrite app_assoc, contains2_app. simpl. by case_bool_decide.
    + rewrite circuit_breaker_key_shape at 1; simpl. rewrite app_nil_r, contains2_free; [done|].
      set_solver.
Qed.

(** Pruning the proxy "p" of one tenant leaves the same id of another alone. *)
Lemma prune_exact_witness :
  let a := NsId (bs "a") (bs "p") in
  let b := NsId (bs "b") (bs "p") in
  let c := (get_or_create (bs "b") (bs "p") None default_config (with_max_entries 4)).2 in
  breakers (prune [a] c) !! circuit_breaker_key (bs "b") (bs "p") None
  = breakers c !! circuit_breaker_key (bs "b") (bs "p") None.
Proof.
  intros a b c.
  assert (Ha : valid_resource a) by (split; vm_compute; reflexivity).
  assert (Hb : valid_resource b) by (split; vm_compute; reflexivity).
  destruct (prune_exact [a] a [] ∅ c b None (proj2 (Forall_singleton _ _) Ha) Ha Hb) as [H _].
  rewrite bool_decide_eq_false_2 in H; [exact H|].
  intros E%list_elem_of_singleton. discriminate E.
Defined.
