(* ===== verification/RoutePath.v ===== *)
(** * Encoded slashes in route paths ([src/src/router_cache.rs],
    [normalize_encoded_slashes])

    The residual folding of [%2F] and [%252F] to a slash. *)

From S2P Require Import Prelude Utf8 PolicyPath.

Definition is_f (b : Z) : bool := (b =? 70) || (b =? 102).

(** The [while i < bytes.len()] loop: the output and the [modified] flag. *)
Fixpoint norm_loop (l : bytes) : bytes * bool :=
  match l with
  | [] => ([], false)
  | b :: l1 =>
    let push (_ : unit) := let '(out, m) := norm_loop l1 in (b :: out, m) in
    if b =? 37 then
      match l1 with
      | b1 :: b2 :: l3 =>
        match l3 with
        | b3 :: b4 :: l5 =>
          if (b1 =? 50) && (b2 =? 53) && (b3 =? 50) && is_f b4
          then (47 :: (norm_loop l5).1, true)
          else if (b1 =? 50) && is_f b2 then (47 :: (norm_loop l3).1, true)
          else push tt
        | _ => if (b1 =? 50) && is_f b2 then (47 :: (norm_loop l3).1, true) else push tt
        end
      | _ => push tt
      end
    else push tt
  end.

Definition normalize_encoded_slashes (path : bytes) : cow :=
  if negb (existsb (Z.eqb 37) path) then Borrowed path
  else
    let '(out, modified) := norm_loop path in
    if modified then
      match from_utf8 out with
      | Some s => Owned s
      | None => Borrowed path
      end
    else Borrowed path.

Example normalize_examples :
  cow_str (normalize_encoded_slashes (bs "/a%2Fb%252fc")) = bs "/a/b/c"
  /\ cow_str (normalize_encoded_slashes (bs "/a%25252Fb")) = bs "/a%25252Fb"
  /\ cow_str (normalize_encoded_slashes (bs "/%2")) = bs "/%2".
Proof. repeat split; reflexivity. Qed.

(** The rest after an encoded slash at the head, doubly or singly encoded. *)
Definition encoded_slash (l : bytes) : option bytes :=
  match l with
  | b :: b1 :: b2 :: l3 =>
    if (b =? 37) && (b1 =? 50) then
      if is_f b2 then Some l3
      else
        match l3 with
        | b3 :: b4 :: l5 => if (b2 =? 53) && (b3 =? 50) && is_f b4 then Some l5 else None
        | _ => None
        end
    else None
  | _ => None
  end.

Lemma is_f_spec b : is_f b = true <-> b = 70 \/ b = 102.
Proof. unfold is_f. rewrite orb_true_iff, !Z.eqb_eq. done. Qed.

Lemma norm_loop_cons b l :
  norm_loop (b :: l) =
    match encoded_slash (b :: l) with
    | Some rest => (47 :: (norm_loop rest).1, true)
    | None => let '(out, m) := norm_loop l in (b :: out, m)
    end.
Proof.
  destruct l as [|b1 [|b2 l3]]; [by simpl; destruct (b =? 37)..|].
  unfold encoded_slash. destruct (Z.eqb_spec b 37) as [->|Hb]; cycle 1.
  { cbn [norm_loop]. destruct (Z.eqb_spec b 37); [done|]. done. }
  destruct (is_f b2) eqn:Hf.
  - assert (H53 : (b2 =? 53) = false).
    { apply is_f_spec in Hf. destruct (Z.eqb_spec b2 53); [lia|done]. }
    destruct l3 as [|b3 [|b4 l5]]; cbn [norm_loop]; rewrite Hf, ?H53, ?andb_true_r, ?andb_false_r;
      simpl; by destruct (b1 =? 50).
  - destruct l3 as [|b3 [|b4 l5]]; cbn [norm_loop]; rewrite Hf, ?andb_false_r; simpl;
      destruct (b1 =? 50), (b2 =? 53); simpl; try done.
    by destruct ((b3 =? 50) && is_f b4).
Qed.

Lemma encoded_slash_inv l rest :
  encoded_slash l = Some rest ->
  exists esc, l = esc ++ rest /\ Forall is_ascii esc /\ (2 < length esc)%nat.
Proof.
  destruct l as [|b [|b1 [|b2 l3]]]; try done. unfold encoded_slash.
  destruct (Z.eqb_spec b 37), (Z.eqb_spec b1 50); simpl; try done. subst.
  destruct (is_f b2) eqn:Hf.
  - intros [= ->]. exists [37; 50; b2]. apply is_f_spec in Hf. split; [done|].
    split; [|simpl; lia]. repeat constructor; unfold is_ascii; lia.
  - destruct l3 as [|b3 [|b4 l5]]; try done.
    destruct (Z.eqb_spec b2 53), (Z.eqb_spec b3 50); simpl; try done. subst.
    destruct (is_f b4) eqn:Hf4; [|done]. intros [= ->]. exists [37; 50; 53; 50; b4].
    apply is_f_spec in Hf4. split; [done|]. split; [|simpl; lia].
    repeat constructor; unfold is_ascii; lia.
Qed.

Lemma encoded_slash_head l rest : encoded_slash l = Some rest -> exists l', l = 37 :: l'.
Proof.
  destruct l as [|b [|b1 [|b2 l3]]]; try done. unfold encoded_slash.
  destruct (Z.eqb_spec b 37); [|done]. subst; eauto.
Qed.

(** An encoded slash that remains would have been folded: output bytes up to
    the first folded slash are input bytes. *)
Lemma encoded_slash_norm b l :
  encoded_slash (b :: l) = None -> encoded_slash (b :: (norm_loop l).1) = None.
Proof.
  intros H. destruct (encoded_slash (b :: (norm_loop l).1)) as [r|] eqn:E; [|done]. exfalso.
  destruct l as [|b1 l]; [done|]. rewrite norm_loop_cons in E.
  destruct (encoded_slash (b1 :: l)) eqn:E1; [by destruct (norm_loop l0) as [[|? ?] ?]; simpl in E; rewrite ?andb_false_r in E|].
  destruct (norm_loop l) as [o1 m1] eqn:En; simpl in E.
  destruct l as [|b2 l]; [by simplify_eq/=|]. rewrite norm_loop_cons in En.
  destruct (encoded_slash (b2 :: l)) eqn:E2.
  { simplify_eq. simpl in E. by destruct ((b =? 37) && (b1 =? 50)); [destruct (norm_loop l0).1 as [|? [|? ?]]|]. }
  destruct (norm_loop l) as [o2 m2] eqn:En2; simplify_eq.
  unfold encoded_slash in H, E.
  destruct ((b =? 37) && (b1 =? 50)); [|done]. destruct (is_f b2); [done|].
  destruct l as [|b3 l]; [by simplify_eq/=|]. rewrite norm_loop_cons in En2.
  destruct (encoded_slash (b3 :: l)) eqn:E3.
  { simplify_eq. destruct (norm_loop l0).1; [done|]. by rewrite andb_false_r in E. }
  destruct (norm_loop l) as [o3 m3] eqn:En3; simplify_eq.
  destruct l as [|b4 l]; [by simplify_eq/=|]. rewrite norm_loop_cons in En3.
  destruct (encoded_slash (b4 :: l)) eqn:E4.
  { simplify_eq. by rewrite andb_false_r in E. }
  destruct (norm_loop l) as [o4 m4]; simplify_eq. by destruct ((b2 =? 53) && (b3 =? 50) && is_f b4).
Qed.

(** No suffix of the string is an encoded slash. *)
Definition slash_free_escapes (l : bytes) : Prop :=
  forall p s, l = p ++ s -> encoded_slash s = None.

Lemma slash_free_cons b l :
  encoded_slash (b :: l) = None -> slash_free_escapes l -> slash_free_escapes (b :: l).
Proof. intros Hb Hl [|x p] s E; simplify_eq/=; [done|eauto]. Qed.

Lemma norm_loop_free l : slash_free_escapes (norm_loop l).1.
Proof.
  induction l as [|b l IH] using list_length_ind; [by intros [|] [|]|].
  rewrite norm_loop_cons. destruct (encoded_slash (b :: l)) as [rest|] eqn:E.
  - apply slash_free_cons; simpl.
    + by destruct (norm_loop rest).1 as [|? [|? ?]].
    + apply IH. apply encoded_slash_inv in E as (esc & El & _ & Hlen).
      apply (f_equal length) in El. rewrite length_app in El. simpl in El. lia.
  - apply encoded_slash_norm in E. destruct (norm_loop l) as [o m] eqn:En; simpl in *.
    apply slash_free_cons; [done|]. specialize (IH l (le_n _)). by rewrite En in IH.
Qed.

Lemma norm_loop_id l : slash_free_escapes l -> norm_loop l = (l, false).
Proof.
  induction l as [|b l IH]; [done|]. intros Hf. rewrite norm_loop_cons.
  rewrite (Hf [] (b :: l) eq_refl), IH; [done|]. intros p s ->. by apply (Hf (b :: p) s).
Qed.

Lemma norm_loop_unmodified l : (norm_loop l).2 = false -> (norm_loop l).1 = l.
Proof.
  induction l as [|b l IH]; [done|]. rewrite norm_loop_cons. destruct (encoded_slash _); [done|].
  destruct (norm_loop l) as [o m]; simpl in *. intros ->. by rewrite IH.
Qed.

(** A sequence of non-ASCII bytes is copied. *)
Lemma norm_loop_nonascii seq rest :
  Forall (fun c => ~ is_ascii c) seq -> (norm_loop (seq ++ rest)).1 = seq ++ (norm_loop rest).1.
Proof.
  induction 1 as [|c seq Hc _ IH]; [done|]. simpl app. rewrite norm_loop_cons.
  destruct (encoded_slash (c :: seq ++ rest)) eqn:E.
  { apply encoded_slash_head in E as [l' ?]; simplify_eq. unfold is_ascii in Hc. lia. }
  destruct (norm_loop (seq ++ rest)); simpl in *. by rewrite IH.
Qed.

Lemma is_str_drop_ascii esc rest : Forall is_ascii esc -> is_str (esc ++ rest) -> is_str rest.
Proof.
  induction 1 as [|c esc Hc _ IH]; [done|]. simpl. rewrite is_str_ascii_cons by done. done.
Qed.

Lemma norm_loop_str l : is_str l -> is_str (norm_loop l).1.
Proof.
  induction l as [|b l IH] using list_length_ind; intros Hs; [done|].
  rewrite norm_loop_cons. destruct (encoded_slash (b :: l)) as [rest|] eqn:E.
  - apply encoded_slash_inv in E as (esc & El & Ha & Hlen). rewrite El in Hs. simpl.
    apply is_str_ascii_cons; [unfold is_ascii; lia|]. apply IH; [|by eapply is_str_drop_ascii].
    apply (f_equal length) in El. rewrite length_app in El. simpl in El. lia.
  - apply is_str_inv in Hs as [[Hb Hl]|(seq & rest & -> & _ & Hna & Hrest & Hall)].
    + specialize (IH l (le_n _) Hl). destruct (norm_loop l); simpl in *. by apply is_str_ascii_cons.
    + inversion Hna; subst. assert (Hn := norm_loop_nonascii seq rest).
      destruct (norm_loop (seq ++ rest)); simpl in *. rewrite Hn by done. apply Hall, IH; [|done].
      rewrite length_app. lia.
Qed.

Lemma normalize_norm_loop path :
  is_str path -> cow_str (normalize_encoded_slashes path) = (norm_loop path).1.
Proof.
  intros Hs. unfold normalize_encoded_slashes. destruct (existsb (Z.eqb 37) path) eqn:E; simpl.
  - assert (Hstr := norm_loop_str path Hs). assert (Hu := norm_loop_unmodified path).
    destruct (norm_loop path) as [out [|]]; simpl in *; [|by rewrite Hu].
    unfold from_utf8. by rewrite Hstr.
  - rewrite norm_loop_id; [done|]. intros p s ->.
    destruct (encoded_slash s) eqn:Es; [|done]. apply encoded_slash_head in Es as [l' ->].
    rewrite existsb_app in E. simpl in E. by rewrite orb_true_r in E.
Qed.

Lemma normalize_fixpoint l : slash_free_escapes l -> normalize_encoded_slashes l = Borrowed l.
Proof.
  intros Hf. unfold normalize_encoded_slashes. rewrite norm_loop_id by done.
  by destruct (negb _).
Qed.

(** Folding leaves no encoded slash behind, singly or doubly encoded and in
    either case, keeps the path valid text (the code's fallback for invalid
    output is unreachable) and is idempotent; and it is the identity on every
    path the canonicalizer lets through, so routing and policy see one string. *)
Theorem normalize_encoded_slashes_sound path :
  is_str path ->
  let out := cow_str (normalize_encoded_slashes path) in
  slash_free_escapes out /\ is_str out /\ normalize_encoded_slashes out = Borrowed out
  /\ (forall c, canonicalize_policy_path path = Ok c ->
        normalize_encoded_slashes (cow_str c) = Borrowed (cow_str c)).
Proof.
  intros Hs out. unfold out. rewrite normalize_norm_loop by done.
  split_and!; [apply norm_loop_free|by apply norm_loop_str|by apply normalize_fixpoint, norm_loop_free|].
  intros c Hc. apply normalize_fixpoint. intros p s E.
  apply canonicalize_accept in Hc; [|done]. apply accept_inv in Hc as [Hd _].
  apply decode_checked_free in Hd as [Hp _].
  destruct (encoded_slash s) eqn:Es; [|done]. apply encoded_slash_head in Es as [l' ->].
  exfalso. apply Hp. rewrite E. set_solver.
Qed.

Lemma normalize_encoded_slashes_sound_witness :
  normalize_encoded_slashes (bs "/a/b") = Borrowed (bs "/a/b").
Proof.
  exact (proj2 (proj2 (proj2 (normalize_encoded_slashes_sound (bs "/%61/b") eq_refl)))
    (Owned (bs "/a/b")) eq_refl).
Defined.
