(* ===== verification/RouteTable.v ===== *)
(** * Route matching ([src/src/router_cache.rs])

    The host-partitioned route table and its lookup: port-aware selection among
    listener-scoped siblings, literal exact paths, longest-prefix matching
    through a hash index, and regex routes (the [regex] crate is a parameter).
    A [Proxy] carries the fields routing reads. *)

From S2P Require Import Prelude Utf8 PolicyPath.

Inductive DispatchKind := HttpPool | HttpsPool | TcpRaw | TcpTls | UdpRaw | UdpDtls.

Definition is_stream (k : DispatchKind) : bool :=
  match k with TcpRaw | TcpTls | UdpRaw | UdpDtls => true | _ => false end.

Record Proxy := {
  proxy_id : bytes;
  proxy_namespace : bytes;
  listen_path : option bytes;
  proxy_listen_port : option Z;
  dispatch_kind : DispatchKind;
}.

Record RouteMatch := {
  proxy : Proxy;
  path_params : list (bytes * bytes);
  matched_prefix_len : nat;
}.

(** ** Listener admission *)

Record GatewayListenerAdmission := { pending : bool; refused_ports : gset Z }.

Definition pending_admission : GatewayListenerAdmission := {| pending := true; refused_ports := ∅ |}.
Definition decided (refused : gset Z) : GatewayListenerAdmission :=
  {| pending := false; refused_ports := refused |}.

Definition allows (a : GatewayListenerAdmission) (port : Z) : bool :=
  negb (pending a) && negb (bool_decide (port ∈ refused_ports a)).

Definition explicitly_refuses (a : GatewayListenerAdmission) (port : Z) : bool :=
  bool_decide (port ∈ refused_ports a).

Record HttpPortMatchContext := {
  frontend_port : option Z;
  frontend_is_tls : bool;
  ctx_single_nontls : option Z;
  ctx_single_tls : option Z;
  listener_admission : GatewayListenerAdmission;
}.

(** ** Candidates *)

Fixpoint starts_with (p l : bytes) : bool :=
  match p, l with
  | [], _ => true
  | x :: p, y :: l => (x =? y) && starts_with p l
  | _, [] => false
  end.

Definition is_mesh_ingress_bind_route_id (i : bytes) : bool := starts_with (bs "__mesh-ingress-bind:") i.

Record PortScopedProxy := {
  ps_proxy : Proxy;
  ps_listen_port : option Z;
  ps_listen_port_tls : bool;
  ps_allow_service_remap : bool;
}.

Definition port_scoped (p : Proxy) (tls_listen_ports : gset (bytes * Z)) : PortScopedProxy :=
  let listen_port := if is_stream (dispatch_kind p) then None else proxy_listen_port p in
  {| ps_proxy := p;
     ps_listen_port := listen_port;
     ps_listen_port_tls :=
       match listen_port with
       | Some port => bool_decide ((proxy_namespace p, port) ∈ tls_listen_ports)
       | None => false
       end;
     ps_allow_service_remap := negb (is_mesh_ingress_bind_route_id (proxy_id p)) |}.

Definition port_match_priority (listen_port : option Z) (listen_port_tls allow_service_remap : bool)
    (ctx : HttpPortMatchContext) : option Z :=
  match listen_port with
  | None => Some 2
  | Some port =>
    if negb (allows (listener_admission ctx) port) then None
    else if negb (Bool.eqb listen_port_tls (frontend_is_tls ctx)) then None
    else if bool_decide (frontend_port ctx = Some port) then Some 0
    else if negb allow_service_remap then None
    else
      let single_for_class :=
        if frontend_is_tls ctx then ctx_single_tls ctx else ctx_single_nontls ctx in
      if bool_decide (single_for_class = Some port) then Some 1 else None
  end.

Definition match_priority (c : PortScopedProxy) (ctx : HttpPortMatchContext) : option Z :=
  port_match_priority (ps_listen_port c) (ps_listen_port_tls c) (ps_allow_service_remap c) ctx.

Fixpoint select_loop (candidates : list PortScopedProxy) (ctx : HttpPortMatchContext)
    (best : option (Proxy * Z)) : option (Proxy * Z) :=
  match candidates with
  | [] => best
  | c :: rest =>
    match match_priority c ctx with
    | None => select_loop rest ctx best
    | Some prio =>
      if match best with None => true | Some (_, best_prio) => prio <? best_prio end then
        if prio =? 0 then Some (ps_proxy c, prio)
        else select_loop rest ctx (Some (ps_proxy c, prio))
      else select_loop rest ctx best
    end
  end.

Definition select_port_aware_proxy (candidates : list PortScopedProxy)
    (ctx : HttpPortMatchContext) : option Proxy :=
  fst <$> select_loop candidates ctx None.

(** ** Path indexes *)

(** Both indexes are a map from listen path to candidates in entry order. *)
Abbreviation path_index := (gmap bytes (list PortScopedProxy)).

Record RouteEntry := { entry_listen_path : bytes; entry_candidate : PortScopedProxy }.

Definition push_entry (m : path_index) (e : RouteEntry) : path_index :=
  <[entry_listen_path e := default [] (m !! entry_listen_path e) ++ [entry_candidate e]]> m.

(** [IndexedExactPathRoutes::from_entries], [IndexedPrefixRoutes::from_sorted]. *)
Definition from_entries (entries : list RouteEntry) : path_index := foldl push_entry ∅ entries.
Definition from_sorted (sorted : list RouteEntry) : path_index := foldl push_entry ∅ sorted.

(** The path without its query string ([find] of a question mark). *)
Fixpoint before_query (path : bytes) : bytes :=
  match path with
  | [] => []
  | b :: rest => if b =? 63 then [] else b :: before_query rest
  end.

Definition plain_match (p : Proxy) (n : nat) : RouteMatch :=
  {| proxy := p; path_params := []; matched_prefix_len := n |}.

Definition pick (routes : path_index) (ctx : HttpPortMatchContext) (key : bytes) : option RouteMatch :=
  match routes !! key with
  | Some candidates =>
    (fun p => plain_match p (length key)) <$> select_port_aware_proxy candidates ctx
  | None => None
  end.

Definition find_exact_path_match_indexed (routes : path_index) (path : bytes)
    (ctx : HttpPortMatchContext) : option RouteMatch :=
  if decide (routes = ∅) then None else pick routes ctx (before_query path).

(** [str::rfind] of a slash. *)
Fixpoint rfind_slash (l : bytes) : option nat :=
  match l with
  | [] => None
  | b :: rest =>
    match rfind_slash rest with
    | Some i => Some (S i)
    | None => if b =? 47 then Some O else None
    end
  end.

(** The backward walk over segment boundaries; [fuel] bounds the strictly
    decreasing [search_end]. *)
Fixpoint walk_back (fuel : nat) (routes : path_index) (ctx : HttpPortMatchContext)
    (match_path : bytes) (search_end : nat) : option RouteMatch :=
  match fuel with
  | O => None
  | S fuel =>
    match rfind_slash (take search_end match_path) with
    | Some O => pick routes ctx [47]
    | Some slash_pos =>
      match pick routes ctx (take (S slash_pos) match_path) with
      | Some route_match => Some route_match
      | None =>
        match pick routes ctx (take slash_pos match_path) with
        | Some route_match => Some route_match
        | None => walk_back fuel routes ctx match_path slash_pos
        end
      end
    | None => None
    end
  end.

Definition find_prefix_match_indexed (routes : path_index) (path : bytes)
    (ctx : HttpPortMatchContext) : option RouteMatch :=
  if decide (routes = ∅) then None
  else
    let match_path := before_query path in
    match pick routes ctx match_path with
    | Some route_match => Some route_match
    | None => walk_back (S (length match_path)) routes ctx match_path (length match_path)
    end.

(** ** Host patterns *)

Definition strip_suffix (suffix l : bytes) : option bytes :=
  let n := (length l - length suffix)%nat in
  if (length suffix <=? length l)%nat && eqb_bytes (drop n l) suffix then Some (take n l) else None.

Definition ends_with_dot (l : bytes) : bool :=
  match last l with Some b => b =? 46 | None => false end.

Definition wildcard_matches (pattern hostname : bytes) : bool :=
  match pattern with
  | 42 :: 46 :: suffix =>
    if eqb_bytes hostname suffix then false
    else
      match strip_suffix suffix hostname with
      | Some prefix => ends_with_dot prefix && (1 <? length prefix)%nat
      | None => false
      end
  | _ => eqb_bytes pattern hostname
  end.

(** ** Mesh direction *)

Inductive MeshTrafficDirection := Inbound | Outbound.

#[global] Instance MeshTrafficDirection_eq_dec : EqDecision MeshTrafficDirection.
Proof. solve_decision. Defined.

Inductive MeshRouteDirectionFilter :=
| Unfiltered
| MatchingDirection (req : option MeshTrafficDirection).

Definition is_mesh_inbound_route_id (i : bytes) : bool :=
  starts_with (bs "__mesh-inbound-") i || starts_with (bs "__mesh-ingress-") i.

Definition is_mesh_outbound_route_id (i : bytes) : bool := starts_with (bs "__mesh-outbound-") i.

Definition mesh_route_direction (i : bytes) : option MeshTrafficDirection :=
  if is_mesh_inbound_route_id i then Some Inbound
  else if is_mesh_outbound_route_id i then Some Outbound
  else None.

Definition admit_direction (f : MeshRouteDirectionFilter) (rm : RouteMatch) : bool :=
  match f with
  | Unfiltered => true
  | MatchingDirection req_dir =>
    match mesh_route_direction (proxy_id (proxy rm)) with
    | None => true
    | Some route_dir => bool_decide (req_dir = Some route_dir)
    end
  end.

(** ** Regex routes *)

(** What routing asks of a compiled pattern of the [regex] crate: whether it
    matches a path, and the end and the named groups of the leftmost match. *)
Class RegexEngine := {
  is_match : bytes -> bytes -> bool;
  captures : bytes -> bytes -> option (nat * (bytes -> option bytes));
}.

(** Documented behaviour: [captures] returns a match exactly when [is_match]. *)
Class RegexEngineLaws `(RegexEngine) := {
  captures_is_match : forall pattern path, is_match pattern path = true <-> is_Some (captures pattern path);
}.

Record RegexRouteEntry := {
  pattern : bytes;
  capture_names : list bytes;
  regex_candidate : PortScopedProxy;
}.

(** [set_compiled] tells whether the combined [RegexSet] compiled. *)
Record IndexedRegexRoutes := { regex_entries : list RegexRouteEntry; set_compiled : bool }.

Section Lookup.
Context `{RegexEngine}.

(** The scan over entries that match: among identical patterns the best
  listener scope wins, and different patterns keep configuration order. *)
Fixpoint regex_scan (entries : list RegexRouteEntry) (ctx : HttpPortMatchContext)
  (best : option (RegexRouteEntry * Z)) : option (RegexRouteEntry * Z) :=
match entries with
| [] => best
| entry :: rest =>
  match match_priority (regex_candidate entry) ctx with
  | None => regex_scan rest ctx best
  | Some priority =>
    if match best with
       | Some (current, _) => negb (eqb_bytes (pattern current) (pattern entry))
       | None => false
       end then regex_scan rest ctx best
    else if match best with None => true | Some (_, current) => priority <? current end then
      if priority =? 0 then Some (entry, priority)
      else regex_scan rest ctx (Some (entry, priority))
    else regex_scan rest ctx best
  end
end.

(** The fallback scan, which asks each pattern in turn. *)
Fixpoint regex_linear_scan (path : bytes) (entries : list RegexRouteEntry)
  (ctx : HttpPortMatchContext) (best : option (RegexRouteEntry * Z))
  : option (RegexRouteEntry * Z) :=
match entries with
| [] => best
| entry :: rest =>
  match match_priority (regex_candidate entry) ctx with
  | None => regex_linear_scan path rest ctx best
  | Some priority =>
    if negb (is_match (pattern entry) path) then regex_linear_scan path rest ctx best
    else if match best with
       | Some (current, _) => negb (eqb_bytes (pattern current) (pattern entry))
       | None => false
       end then regex_linear_scan path rest ctx best
    else if match best with None => true | Some (_, current) => priority <? current end then
      if priority =? 0 then Some (entry, priority)
      else regex_linear_scan path rest ctx (Some (entry, priority))
    else regex_linear_scan path rest ctx best
  end
end.

(** [RegexSet::matches(path).iter()]: the matching patterns by index. *)
Definition set_matches (path : bytes) (entries : list RegexRouteEntry) : list RegexRouteEntry :=
filter (fun e => is_match (pattern e) path = true) entries.

Definition find_regex_match_indexed (routes : IndexedRegexRoutes) (path : bytes)
  (ctx : HttpPortMatchContext) : option RouteMatch :=
match regex_entries routes with
| [] => None
| entries =>
  let best :=
    if set_compiled routes then regex_scan (set_matches path entries) ctx None
    else regex_linear_scan path entries ctx None in
  match best with
  | None => None
  | Some (entry, _) =>
    match captures (pattern entry) path with
    | None => None
    | Some (matched_len, group) =>
      Some {| proxy := ps_proxy (regex_candidate entry);
              path_params := omap (fun name => pair name <$> group name) (capture_names entry);
              matched_prefix_len := matched_len |}
    end
  end
end.

(** ** The host route table *)

Record HostRouteTable := {
exact_hosts_exact_paths : gmap bytes path_index;
exact_hosts : gmap bytes path_index;
wildcard_hosts_exact_paths : list (bytes * path_index);
wildcard_hosts : list (bytes * path_index);
catch_all_exact_paths : path_index;
catch_all : path_index;
exact_hosts_regex : gmap bytes IndexedRegexRoutes;
wildcard_hosts_regex : list (bytes * IndexedRegexRoutes);
catch_all_regex : IndexedRegexRoutes;
exact_hosts_host_only : gmap bytes (list PortScopedProxy);
wildcard_hosts_host_only : list (bytes * list PortScopedProxy);
has_exact_path_routes : bool;
has_regex_routes : bool;
has_host_only_routes : bool;
single_nontls_listen_port : option Z;
single_tls_listen_port : option Z;
}.

(** [a.or_else(|| b)]: the code's early returns, tier after tier. *)
Definition or_else {A} (a : option A) (b : unit -> option A) : option A :=
match a with Some x => Some x | None => b tt end.

Definition when {A} (c : bool) (a : unit -> option A) : option A := if c then a tt else None.

Definition filter_match (f : MeshRouteDirectionFilter) (o : option RouteMatch) : option RouteMatch :=
match o with
| Some rm => if admit_direction f rm then Some rm else None
| None => None
end.

(** The first entry of a wildcard list whose pattern matches the host and
  whose lookup succeeds. *)
Fixpoint first_wildcard {A} (host : bytes) (look : A -> option RouteMatch) (l : list (bytes * A))
  : option RouteMatch :=
match l with
| [] => None
| (pattern, routes) :: rest =>
  if wildcard_matches pattern host
  then or_else (look routes) (fun _ => first_wildcard host look rest)
  else first_wildcard host look rest
end.

Definition host_only (ctx : HttpPortMatchContext) (candidates : list PortScopedProxy) : option RouteMatch :=
(fun p => plain_match p 0) <$> select_port_aware_proxy candidates ctx.

Definition search_route_table (table : HostRouteTable) (host : option bytes) (path : bytes)
  (direction_filter : MeshRouteDirectionFilter) (ctx : HttpPortMatchContext) : option RouteMatch :=
let admitted := filter_match direction_filter in
let exact_path routes := admitted (find_exact_path_match_indexed routes path ctx) in
let prefix routes := admitted (find_prefix_match_indexed routes path ctx) in
let regex routes := admitted (find_regex_match_indexed routes path ctx) in
let hosted :=
  match host with
  | None => None
  | Some host =>
    or_else (when (has_exact_path_routes table) (fun _ =>
               exact_hosts_exact_paths table !! host ≫= exact_path)) (fun _ =>
    or_else (exact_hosts table !! host ≫= prefix) (fun _ =>
    or_else (when (has_regex_routes table) (fun _ =>
               exact_hosts_regex table !! host ≫= regex)) (fun _ =>
    or_else (when (has_host_only_routes table) (fun _ =>
               exact_hosts_host_only table !! host ≫= host_only ctx)) (fun _ =>
    or_else (when (has_exact_path_routes table) (fun _ =>
               first_wildcard host exact_path (wildcard_hosts_exact_paths table))) (fun _ =>
    or_else (first_wildcard host prefix (wildcard_hosts table)) (fun _ =>
    or_else (when (has_regex_routes table) (fun _ =>
               first_wildcard host regex (wildcard_hosts_regex table))) (fun _ =>
    when (has_host_only_routes table) (fun _ =>
      first_wildcard host (host_only ctx) (wildcard_hosts_host_only table)))))))))
  end in
or_else hosted (fun _ =>
or_else (when (has_exact_path_routes table) (fun _ => exact_path (catch_all_exact_paths table))) (fun _ =>
or_else (prefix (catch_all table)) (fun _ =>
when (has_regex_routes table) (fun _ => regex (catch_all_regex table))))).
End Lookup.

(** ** Selection among siblings *)

Lemma port_match_priority_range lp tls remap ctx prio :
  port_match_priority lp tls remap ctx = Some prio -> 0 <= prio <= 2.
Proof. unfold port_match_priority. intros. split_matches; lia. Qed.

(** The reference: the earliest candidate of least rank. *)
Fixpoint best_candidate (cs : list PortScopedProxy) (ctx : HttpPortMatchContext)
    : option (Proxy * Z) :=
  match cs with
  | [] => None
  | c :: cs =>
    match match_priority c ctx, best_candidate cs ctx with
    | None, r => r
    | Some prio, None => Some (ps_proxy c, prio)
    | Some prio, Some (p, prio') => if prio <=? prio' then Some (ps_proxy c, prio) else Some (p, prio')
    end
  end.

Definition better (best r : option (Proxy * Z)) : option (Proxy * Z) :=
  match best, r with
  | None, r => r
  | Some b, None => Some b
  | Some (b, bp), Some (p, prio) => if prio <? bp then Some (p, prio) else Some (b, bp)
  end.

Lemma best_candidate_range cs ctx p prio : best_candidate cs ctx = Some (p, prio) -> 0 <= prio.
Proof.
  revert p prio; induction cs as [|c cs IH]; simpl; [done|]. intros p prio H.
  destruct (match_priority c ctx) eqn:E; [|eauto]. apply port_match_priority_range in E.
  destruct (best_candidate cs ctx) as [[]|]; [|simplify_eq; lia].
  destruct (_ <=? _); simplify_eq; [lia|eauto].
Qed.

Lemma select_loop_best cs ctx : forall best,
  select_loop cs ctx best = better best (best_candidate cs ctx).
Proof.
  induction cs as [|c cs IH]; intros best; simpl; [by destruct best as [[]|]|].
  destruct (match_priority c ctx) as [prio|] eqn:E; [|apply IH].
  apply port_match_priority_range in E.
  destruct (best_candidate cs ctx) as [[p' prio']|] eqn:Eb; rewrite !IH;
    [apply best_candidate_range in Eb|]; destruct best as [[b bp]|]; simpl;
    repeat (zcase; simpl; try done; try lia).
  all: try (subst; by repeat (zcase; simpl; try done; try lia)).
Qed.

Lemma best_candidate_spec cs ctx :
  match best_candidate cs ctx with
  | Some (p, prio) =>
    exists i c, cs !! i = Some c /\ ps_proxy c = p /\ match_priority c ctx = Some prio
    /\ forall j c' prio', cs !! j = Some c' -> match_priority c' ctx = Some prio' ->
         prio <= prio' /\ (prio' = prio -> (i <= j)%nat)
  | None => forall c, c ∈ cs -> match_priority c ctx = None
  end.
Proof.
  induction cs as [|c cs IH]; simpl; [by intros c ?%not_elem_of_nil|].
  destruct (match_priority c ctx) as [prio|] eqn:E;
    destruct (best_candidate cs ctx) as [[p' prio']|] eqn:Eb.
  - destruct IH as (i & c' & Hi & Hp & Hm & Hall). destruct (Z.leb_spec prio prio').
    + exists 0%nat, c. split_and!; try done. intros [|j] c2 p2 H2 Hm2; simplify_eq/=; [by split; [|lia]|].
      destruct (Hall j c2 p2 H2 Hm2). split; lia.
    + exists (S i), c'. split_and!; try done. intros [|j] c2 p2 H2 Hm2; simplify_eq/=; [lia|].
      destruct (Hall j c2 p2 H2 Hm2). split; lia.
  - exists 0%nat, c. split_and!; try done. intros [|j] c2 p2 H2 Hm2; simplify_eq/=; [by split; [|lia]|].
    rewrite IH in Hm2; [done|]. by eapply list_elem_of_lookup_2.
  - destruct IH as (i & c' & Hi & Hp & Hm & Hall). exists (S i), c'. split_and!; try done.
    intros [|j] c2 p2 H2 Hm2; simplify_eq/=.
    destruct (Hall j c2 p2 H2 Hm2). split; lia.
  - intros c2 [->|H2]%elem_of_cons; [done|by apply IH].
Qed.

Lemma select_best cs ctx : select_port_aware_proxy cs ctx = fst <$> best_candidate cs ctx.
Proof. unfold select_port_aware_proxy. rewrite select_loop_best. done. Qed.

Definition eligible (c : PortScopedProxy) (ctx : HttpPortMatchContext) : Prop :=
  is_Some (match_priority c ctx).

Lemma select_eligible cs ctx p :
  select_port_aware_proxy cs ctx = Some p ->
  exists c, c ∈ cs /\ ps_proxy c = p /\ eligible c ctx.
Proof.
  rewrite select_best. intros H. assert (Hs := best_candidate_spec cs ctx).
  destruct (best_candidate cs ctx) as [[p' prio]|]; simplify_eq/=.
  destruct Hs as (i & c & Hi & Hp & Hm & _). exists c. split_and!; [|done|by eexists].
  by eapply list_elem_of_lookup_2.
Qed.

(** Among siblings that share a path, the listener-aware selection serves
    the earliest candidate of least rank: the exact listener before the
    single-listener remap before a port-agnostic route; and it serves none
    exactly when every candidate is refused. *)
Theorem select_port_aware_proxy_best cs ctx :
  match select_port_aware_proxy cs ctx with
  | Some p =>
    exists i c prio, cs !! i = Some c /\ ps_proxy c = p /\ match_priority c ctx = Some prio
    /\ forall j c' prio', cs !! j = Some c' -> match_priority c' ctx = Some prio' ->
         prio <= prio' /\ (prio' = prio -> (i <= j)%nat)
  | None => forall c, c ∈ cs -> match_priority c ctx = None
  end.
Proof.
  rewrite select_best. assert (H := best_candidate_spec cs ctx).
  destruct (best_candidate cs ctx) as [[p prio]|]; simpl; [|done].
  destruct H as (i & c & ?). by exists i, c, prio.
Qed.

(** ** Longest-prefix matching *)

(** [k] is the whole path or a nonempty prefix that ends at a segment
    boundary: with its slash, or just before one. *)
Definition segment_prefix (k path : bytes) : Prop :=
  k = path
  \/ k <> [] /\ exists rest, path = k ++ rest /\ (last k = Some 47 \/ head rest = Some 47).

(** The same, by length. *)
Definition boundary (n : nat) (path : bytes) : Prop :=
  (0 < n <= length path)%nat /\ (path !! (n - 1)%nat = Some 47 \/ path !! n = Some 47).

Lemma rfind_slash_spec l :
  match rfind_slash l with
  | Some i => l !! i = Some 47 /\ forall j, (i < j)%nat -> l !! j <> Some 47
  | None => forall j, l !! j <> Some 47
  end.
Proof.
  induction l as [|b l IH]; simpl; [done|].
  destruct (rfind_slash l) as [i|]; [|destruct (Z.eqb_spec b 47) as [->|]].
  - destruct IH as [H1 H2]. split; [done|]. intros [|j] Hj; [lia|]. apply H2. lia.
  - split; [done|]. intros [|j] Hj; [lia|]. apply IH.
  - intros [|j]; [naive_solver|]. apply IH.
Qed.

Lemma lookup_take_some {A} (l : list A) n j x : take n l !! j = Some x <-> (j < n)%nat /\ l !! j = Some x.
Proof.
  destruct (decide (j < n)%nat).
  - rewrite lookup_take_lt by done. naive_solver.
  - rewrite lookup_take_ge by lia. split; [done|]. intros [? _]. lia.
Qed.

Section Walk.
Context (routes : path_index) (ctx : HttpPortMatchContext) (path : bytes).

(** Every boundary strictly above [lo] and up to [hi] misses. *)
Definition misses (lo hi : nat) : Prop :=
forall m, (lo < m <= hi)%nat -> boundary m path -> pick routes ctx (take m path) = None.

Lemma misses_above se lo :
(boundary se path -> pick routes ctx (take se path) = None) ->
(forall i, (lo <= i)%nat -> take se path !! i <> Some 47) ->
misses lo se.
Proof.
intros Hse Hno m [Hlo Hhi] Hm. destruct (decide (m = se)) as [->|]; [by apply Hse|].
destruct Hm as [[Hm0 Hml] [H1|H1]].
- destruct (Hno (m - 1)%nat); [lia|]. apply lookup_take_some. split; [lia|done].
- destruct (Hno m); [lia|]. apply lookup_take_some. split; [lia|done].
Qed.

Lemma walk_back_spec fuel : forall se,
(se < fuel)%nat -> (se <= length path)%nat ->
(boundary se path -> pick routes ctx (take se path) = None) ->
match walk_back fuel routes ctx path se with
| Some rm => exists n, boundary n path /\ pick routes ctx (take n path) = Some rm /\ misses n se
| None => misses 0 se
end.
Proof.
induction fuel as [|fuel IH]; intros se Hf Hlen Hse; [lia|]. simpl.
assert (Hr := rfind_slash_spec (take se path)).
destruct (rfind_slash (take se path)) as [j|].
- destruct Hr as [Hj Hno]. apply lookup_take_some in Hj as [Hjlt Hj].
  assert (Habove := misses_above se (S j) Hse Hno).
  assert (Hb1 : boundary (S j) path).
  { split; [lia|]. left. by replace (S j - 1)%nat with j by lia. }
  destruct j as [|j].
  + assert (Et : take 1 path = [47]) by (destruct path; simplify_eq/=; by rewrite take_0).
    destruct (pick routes ctx [47]) as [rm|] eqn:E.
    * exists 1%nat. by rewrite Et.
    * intros m Hm Hbm. destruct (decide (m = 1%nat)) as [->|]; [by rewrite Et|].
      apply Habove; [lia|done].
  + destruct (pick routes ctx (take (S (S j)) path)) as [rm|] eqn:E1; [by exists (S (S j))|].
    assert (Hb2 : boundary (S j) path) by (split; [lia|by right]).
    assert (Hstep : forall n, misses n (S j) -> misses n se).
    { intros n Hn m Hm Hbm. destruct (decide (m <= S j)%nat); [apply Hn; [lia|done]|].
      destruct (decide (m = S (S j))) as [->|]; [done|]. apply Habove; [lia|done]. }
    destruct (pick routes ctx (take (S j) path)) as [rm|] eqn:E2.
    * exists (S j). split_and!; try done. apply Hstep. intros m; lia.
    * assert (H := IH (S j)). destruct (walk_back fuel routes ctx path (S j)).
      -- destruct H as (n & ? & ? & ?); [lia|lia|done|]. exists n. auto.
      -- apply Hstep, H; [lia|lia|done].
- apply misses_above; [done|]. intros i _; apply Hr.
Qed.

Lemma take_segment_prefix n : boundary n path -> segment_prefix (take n path) path.
Proof.
intros [[Hn Hl] Hb]. right. split.
- intros E. apply (f_equal length) in E. rewrite length_take in E. simpl in E. lia.
- exists (drop n path). split; [by rewrite take_drop|]. destruct Hb as [Hb|Hb].
  + left. rewrite last_lookup, length_take, Nat.min_l by done.
    replace (pred n) with (n - 1)%nat by lia. apply lookup_take_some. split; [lia|done].
  + right. by rewrite head_lookup, lookup_drop, Nat.add_0_r.
Qed.

Lemma segment_prefix_take k :
segment_prefix k path -> k = path \/ boundary (length k) path /\ take (length k) path = k.
Proof.
intros [->|(Hne & rest & E & Hb)]; [by left|right]. rewrite E at 2. rewrite take_app_length.
split; [|done]. rewrite E. split; [rewrite length_app; destruct k; simpl in *; [done|lia]|].
destruct Hb as [Hb|Hb].
- left. rewrite last_lookup in Hb. replace (length k - 1)%nat with (pred (length k)) by lia.
  by apply lookup_app_l_Some.
- right. rewrite lookup_app_r, Nat.sub_diag by lia. destruct rest; simplify_eq/=. done.
Qed.
End Walk.

Lemma pick_empty ctx key : pick ∅ ctx key = None.
Proof. unfold pick. by rewrite lookup_empty. Qed.

Lemma find_prefix_longest routes path ctx :
  let mp := before_query path in
  match find_prefix_match_indexed routes path ctx with
  | Some rm =>
    exists k, segment_prefix k mp /\ pick routes ctx k = Some rm /\ matched_prefix_len rm = length k
    /\ forall k', segment_prefix k' mp -> (length k < length k')%nat -> pick routes ctx k' = None
  | None => forall k, segment_prefix k mp -> pick routes ctx k = None
  end.
Proof.
  intros mp. unfold find_prefix_match_indexed. fold mp.
  assert (Hlen : forall k rm, pick routes ctx k = Some rm -> matched_prefix_len rm = length k).
  { intros k rm. unfold pick. destruct (routes !! k); [|done].
    destruct (select_port_aware_proxy _ _); [|done]. by intros [= <-]. }
  destruct (decide (routes = ∅)) as [->|_]; [intros; apply pick_empty|].
  destruct (pick routes ctx mp) as [rm|] eqn:E0.
  - exists mp. split_and!; [by left|done|eauto|]. intros k' Hk' Hl.
    apply segment_prefix_take in Hk' as [->|[[[_ ?] _] _]]; lia.
  - assert (H := walk_back_spec routes ctx mp (S (length mp)) (length mp)).
    rewrite firstn_all in H. specialize (H (le_n _) (le_n _) (fun _ => E0)).
    destruct (walk_back _ _ _ _ _) as [rm|].
    + destruct H as (n & Hb & Hp & Hm). exists (take n mp).
      split_and!; [by apply take_segment_prefix|done|eauto|]. intros k' Hk' Hl.
      apply segment_prefix_take in Hk' as [->|[Hb' <-]]; [done|].
      rewrite length_take in Hl. apply Hm; [|done]. destruct Hb as [? _], Hb' as [? _]. lia.
    + intros k Hk. apply segment_prefix_take in Hk as [->|[Hb <-]]; [done|].
      apply H; [|done]. destruct Hb as [? _]. lia.
Qed.

(** The hash-indexed backward walk is longest-prefix matching: it returns
    the route of the longest configured path that is a segment-boundary prefix
    of the request path (query stripped) and has a candidate eligible for the
    listener, with that path's length as the matched length; and it returns
    nothing only when no such path exists. *)
Theorem find_prefix_match_longest routes path ctx :
  let mp := before_query path in
  match find_prefix_match_indexed routes path ctx with
  | Some rm =>
    exists k, segment_prefix k mp /\ pick routes ctx k = Some rm /\ matched_prefix_len rm = length k
    /\ forall k', segment_prefix k' mp -> (length k < length k')%nat -> pick routes ctx k' = None
  | None => forall k, segment_prefix k mp -> pick routes ctx k = None
  end.
Proof. apply find_prefix_longest. Qed.

(** ** Regex routes *)

Section RegexLemmas.
Context `{RegexEngine}.

Lemma regex_set_scan path entries ctx : forall best,
regex_scan (set_matches path entries) ctx best = regex_linear_scan path entries ctx best.
Proof.
unfold set_matches. induction entries as [|e entries IH]; intros best; [done|].
rewrite filter_cons. destruct (is_match (pattern e) path) eqn:E.
- rewrite decide_True by done. simpl. rewrite E. destruct (match_priority _ _); [|apply IH].
  rewrite !IH. done.
- rewrite decide_False by done. simpl. rewrite E, IH. by destruct (match_priority _ _).
Qed.

(** The entries that match the path and may serve the frontend, in order. *)
Definition regex_eligible (path : bytes) (ctx : HttpPortMatchContext) (e : RegexRouteEntry) : Prop :=
is_match (pattern e) path = true /\ eligible (regex_candidate e) ctx.

Lemma linear_scan_keeps path entries ctx : forall cur prio,
exists e prio', regex_linear_scan path entries ctx (Some (cur, prio)) = Some (e, prio')
/\ pattern e = pattern cur
/\ (e = cur \/ e ∈ entries /\ regex_eligible path ctx e).
Proof.
induction entries as [|x entries IH]; intros cur prio; simpl; [eauto 6|].
assert (Hrec : exists e prio', regex_linear_scan path entries ctx (Some (cur, prio)) = Some (e, prio')
  /\ pattern e = pattern cur /\ (e = cur \/ e ∈ x :: entries /\ regex_eligible path ctx e)).
{ destruct (IH cur prio) as (e & p & ? & ? & [?|[? ?]]); exists e, p; split_and!; auto.
  right. split; [by apply elem_of_cons; right|done]. }
destruct (match_priority (regex_candidate x) ctx) as [px|] eqn:Ep; [|exact Hrec].
destruct (is_match (pattern x) path) eqn:Em; simpl; [|exact Hrec].
destruct (eqb_bytes (pattern cur) (pattern x)) eqn:Eb; simpl; [|exact Hrec].
apply eqb_bytes_spec in Eb. destruct (px <? prio); [|exact Hrec].
assert (Hx : regex_eligible path ctx x) by (split; [done|by eexists]).
destruct (px =? 0).
- exists x, px. split_and!; [done|done|]. right. split; [by apply elem_of_cons; left|done].
- destruct (IH x px) as (e & p & ? & ? & [->|[? ?]]); exists e, p || exists x, p; split_and!; try done;
    try congruence; right; (split; [apply elem_of_cons; auto|done]).
Qed.

(** The winner has the pattern of the first eligible entry. *)
Lemma linear_scan_first path entries ctx :
match regex_linear_scan path entries ctx None with
| Some (e, _) =>
  e ∈ entries /\ regex_eligible path ctx e
  /\ exists pre first post, entries = pre ++ first :: post
     /\ (forall x, x ∈ pre -> ~ regex_eligible path ctx x)
     /\ regex_eligible path ctx first /\ pattern e = pattern first
| None => forall x, x ∈ entries -> ~ regex_eligible path ctx x
end.
Proof.
induction entries as [|x entries IH]; simpl; [by intros x ?%not_elem_of_nil|].
assert (Hskip : ~ regex_eligible path ctx x ->
  match regex_linear_scan path entries ctx None with
  | Some (e, _) =>
    e ∈ x :: entries /\ regex_eligible path ctx e
    /\ exists pre first post, x :: entries = pre ++ first :: post
       /\ (forall y, y ∈ pre -> ~ regex_eligible path ctx y)
       /\ regex_eligible path ctx first /\ pattern e = pattern first
  | None => forall y, y ∈ x :: entries -> ~ regex_eligible path ctx y
  end).
{ intros Hx. destruct (regex_linear_scan path entries ctx None) as [[e p]|].
  - destruct IH as (Hin & He & pre & first & post & -> & Hpre & ? & ?).
    split_and!; [by apply elem_of_cons; right|done|]. exists (x :: pre), first, post.
    split_and!; [done| |done|done]. intros y [->|?]%elem_of_cons; auto.
  - intros y [->|?]%elem_of_cons; auto. }
destruct (match_priority (regex_candidate x) ctx) as [px|] eqn:Ep;
  [|apply Hskip; intros [_ [? ?]]; congruence].
destruct (is_match (pattern x) path) eqn:Em; simpl; [|apply Hskip; intros [? _]; congruence].
assert (Hx : regex_eligible path ctx x) by (split; [done|by eexists]).
assert (Hfirst : exists pre first post, x :: entries = pre ++ first :: post
  /\ (forall y, y ∈ pre -> ~ regex_eligible path ctx y)
  /\ regex_eligible path ctx first /\ pattern x = pattern first)
  by (exists [], x, entries; split_and!; try done; by intros y ?%not_elem_of_nil).
destruct (px =? 0); [split_and!; [by apply elem_of_cons; left|done|done]|].
destruct (linear_scan_keeps path entries ctx x px) as (e & p & -> & Hpat & Hwho).
split_and!.
- destruct Hwho as [->|[? _]]; apply elem_of_cons; auto.
- by destruct Hwho as [->|[_ ?]].
- by rewrite Hpat.
Qed.
End RegexLemmas.

(** Regex routing keeps configuration order: whether the combined set
    compiled or the code fell back to the linear scan, the same route wins;
    its pattern is that of the first configured entry that matches the path
    and may serve the listener, so a later, broader pattern never shadows an
    earlier one; and a match is found whenever such an entry exists. *)
Theorem regex_first_match `{RegexEngineLaws} entries path ctx :
  find_regex_match_indexed {| regex_entries := entries; set_compiled := true |} path ctx
    = find_regex_match_indexed {| regex_entries := entries; set_compiled := false |} path ctx
  /\ match find_regex_match_indexed {| regex_entries := entries; set_compiled := true |} path ctx with
     | Some rm =>
       exists e pre first post,
         e ∈ entries /\ proxy rm = ps_proxy (regex_candidate e) /\ regex_eligible path ctx e
         /\ entries = pre ++ first :: post /\ (forall x, x ∈ pre -> ~ regex_eligible path ctx x)
         /\ regex_eligible path ctx first /\ pattern e = pattern first
     | None => forall x, x ∈ entries -> ~ regex_eligible path ctx x
     end.
Proof.
  unfold find_regex_match_indexed; simpl. assert (Hs := linear_scan_first path entries ctx).
  destruct entries as [|x entries]; [split; [done|by intros ? ?%not_elem_of_nil]|].
  rewrite regex_set_scan. split; [done|].
  destruct (regex_linear_scan path (x :: entries) ctx None) as [[e p]|]; [|exact Hs].
  destruct Hs as (Hin & He & pre & first & post & Heq & Hpre & Hf & Hpat).
  destruct (captures (pattern e) path) as [[len group]|] eqn:Ec.
  - exists e, pre, first, post. by split_and!.
  - exfalso. destruct He as [Hm%captures_is_match _]. rewrite Ec in Hm. by destruct Hm.
Qed.

(** A literal engine: a pattern matches exactly itself. *)
Definition literal_engine : RegexEngine := {|
  is_match p path := eqb_bytes p path;
  captures p path := if eqb_bytes p path then Some (length path, fun _ => None) else None;
|}.

Lemma literal_engine_laws : RegexEngineLaws literal_engine.
Proof.
  constructor. intros p path; simpl. destruct (eqb_bytes p path); split; try done; by intros [? ?].
Qed.

Definition sample_proxy (path : bytes) (port : option Z) : Proxy := {|
  proxy_id := bs "p"; proxy_namespace := bs "ns"; listen_path := Some path;
  proxy_listen_port := port; dispatch_kind := HttpPool;
|}.

Definition plain_frontend (port : Z) : HttpPortMatchContext := {|
  frontend_port := Some port; frontend_is_tls := false; ctx_single_nontls := None;
  ctx_single_tls := None; listener_admission := decided ∅;
|}.

Lemma regex_first_match_witness :
  let e := {| pattern := bs "/a"; capture_names := [];
              regex_candidate := port_scoped (sample_proxy (bs "~/a") None) ∅ |} in
  exists rm, find_regex_match_indexed (H := literal_engine)
    {| regex_entries := [e]; set_compiled := false |} (bs "/a") (plain_frontend 80) = Some rm.
Proof.
  intros e. destruct (regex_first_match (H := literal_engine) (H0 := literal_engine_laws)
    [e] (bs "/a") (plain_frontend 80)) as [E _].
  rewrite <- E. eexists. reflexivity.
Defined.

(** ** Fail-closed listener scoping *)

Definition in_index (m : path_index) (c : PortScopedProxy) : Prop :=
  exists k cs, m !! k = Some cs /\ c ∈ cs.

Definition in_regex (r : IndexedRegexRoutes) (c : PortScopedProxy) : Prop :=
  exists e, e ∈ regex_entries r /\ regex_candidate e = c.

Inductive in_table (t : HostRouteTable) (c : PortScopedProxy) : Prop :=
| InExactExact h m : exact_hosts_exact_paths t !! h = Some m -> in_index m c -> in_table t c
| InExact h m : exact_hosts t !! h = Some m -> in_index m c -> in_table t c
| InWildExact h m : (h, m) ∈ wildcard_hosts_exact_paths t -> in_index m c -> in_table t c
| InWild h m : (h, m) ∈ wildcard_hosts t -> in_index m c -> in_table t c
| InCatchExact : in_index (catch_all_exact_paths t) c -> in_table t c
| InCatch : in_index (catch_all t) c -> in_table t c
| InExactRegex h r : exact_hosts_regex t !! h = Some r -> in_regex r c -> in_table t c
| InWildRegex h r : (h, r) ∈ wildcard_hosts_regex t -> in_regex r c -> in_table t c
| InCatchRegex : in_regex (catch_all_regex t) c -> in_table t c
| InExactOnly h cs : exact_hosts_host_only t !! h = Some cs -> c ∈ cs -> in_table t c
| InWildOnly h cs : (h, cs) ∈ wildcard_hosts_host_only t -> c ∈ cs -> in_table t c.

(** What a listener-scoped candidate needs to be served. *)
Definition listener_ok (c : PortScopedProxy) (ctx : HttpPortMatchContext) : Prop :=
  forall port, ps_listen_port c = Some port ->
  allows (listener_admission ctx) port = true
  /\ ps_listen_port_tls c = frontend_is_tls ctx
  /\ (frontend_port ctx = Some port
      \/ ps_allow_service_remap c = true
         /\ (if frontend_is_tls ctx then ctx_single_tls ctx else ctx_single_nontls ctx) = Some port).

Lemma eligible_listener_ok c ctx : eligible c ctx <-> listener_ok c ctx.
Proof.
  unfold eligible, listener_ok, match_priority, port_match_priority. split.
  - intros [prio E] port Hp. rewrite Hp in E. destruct (allows _ port); simpl in E; [|done].
    destruct (Bool.eqb _ _) eqn:Et; simpl in E; [|done]. apply eqb_prop in Et.
    split_and!; [done|done|]. case_bool_decide; [by left|right].
    destruct (ps_allow_service_remap c); simpl in E; [|done]. by case_bool_decide.
  - intros Hok. destruct (ps_listen_port c) as [port|]; [|by eexists].
    destruct (Hok port eq_refl) as (Ha & Ht & Hcase). rewrite Ha, Ht, eqb_reflx; simpl.
    case_bool_decide as Hf; [by eexists|]. destruct Hcase as [?|[Hr Hs]]; [done|].
    rewrite Hr, Hs, bool_decide_eq_true_2 by done. by eexists.
Qed.

(** Every result of a lookup satisfies [P]. *)
Definition yields (P : RouteMatch -> Prop) (o : option RouteMatch) : Prop :=
  forall rm, o = Some rm -> P rm.

Section Yields.
Context (P : RouteMatch -> Prop).

Lemma yields_or_else a b : yields P a -> yields P (b tt) -> yields P (or_else a b).
Proof. intros Ha Hb rm. unfold or_else. destruct a; [apply Ha|apply Hb]. Qed.

Lemma yields_when c a : yields P (a tt) -> yields P (when c a).
Proof. intros Ha. destruct c; [done|by intros ?]. Qed.

Lemma yields_filter f o : yields P o -> yields P (filter_match f o).
Proof.
intros Ho rm. unfold filter_match. destruct o as [rm'|]; [|done].
destruct (admit_direction f rm'); [|done]. intros [= <-]. by apply Ho.
Qed.

Lemma yields_bind {A} (o : option A) (f : A -> option RouteMatch) :
(forall a, o = Some a -> yields P (f a)) -> yields P (o ≫= f).
Proof. intros H. destruct o; simpl; [by apply H|by intros ?]. Qed.

Lemma yields_wildcard {A} host (look : A -> option RouteMatch) l :
(forall p a, (p, a) ∈ l -> yields P (look a)) -> yields P (first_wildcard host look l).
Proof.
induction l as [|[p a] l IH]; intros H; simpl; [by intros ?|].
assert (Hl : yields P (first_wildcard host look l))
  by (apply IH; intros q b ?; apply (H q); by apply elem_of_cons; right).
destruct (wildcard_matches p host); [|done]. apply yields_or_else; [|done].
apply (H p). by apply elem_of_cons; left.
Qed.
End Yields.

(** The indexes of a table, by kind of route. *)
Definition exact_path_index (t : HostRouteTable) (m : path_index) : Prop :=
  (exists h, exact_hosts_exact_paths t !! h = Some m)
  \/ (exists h, (h, m) ∈ wildcard_hosts_exact_paths t) \/ m = catch_all_exact_paths t.
Definition prefix_index (t : HostRouteTable) (m : path_index) : Prop :=
  (exists h, exact_hosts t !! h = Some m)
  \/ (exists h, (h, m) ∈ wildcard_hosts t) \/ m = catch_all t.
Definition regex_index (t : HostRouteTable) (r : IndexedRegexRoutes) : Prop :=
  (exists h, exact_hosts_regex t !! h = Some r)
  \/ (exists h, (h, r) ∈ wildcard_hosts_regex t) \/ r = catch_all_regex t.
Definition host_only_index (t : HostRouteTable) (cs : list PortScopedProxy) : Prop :=
  (exists h, exact_hosts_host_only t !! h = Some cs)
  \/ (exists h, (h, cs) ∈ wildcard_hosts_host_only t).

(** What every tier's lookup yields, the whole search yields. *)
Lemma search_yields `{RegexEngine} (P : RouteMatch -> Prop) t host path f ctx :
  (forall m, exact_path_index t m -> yields P (find_exact_path_match_indexed m path ctx)) ->
  (forall m, prefix_index t m -> yields P (find_prefix_match_indexed m path ctx)) ->
  (forall r, regex_index t r -> yields P (find_regex_match_indexed r path ctx)) ->
  (forall cs, host_only_index t cs -> yields P (host_only ctx cs)) ->
  yields P (search_route_table t host path f ctx).
Proof.
  intros He Hp Hr Ho. unfold search_route_table.
  apply yields_or_else; [destruct host as [host|]; [|by intros ?]|];
    repeat first
      [ apply yields_filter; (first [apply He|apply Hp|apply Hr]);
        unfold exact_path_index, prefix_index, regex_index; by eauto
      | apply Ho; unfold host_only_index; by eauto
      | apply yields_or_else | apply yields_when
      | apply yields_bind; intros ? ? | apply yields_wildcard; intros ? ? ? ].
Qed.

(** A served route comes from an eligible candidate of [S]. *)
Definition serves (S : PortScopedProxy -> Prop) (ctx : HttpPortMatchContext) (o : option RouteMatch) : Prop :=
  yields (fun rm => exists c, S c /\ ps_proxy c = proxy rm /\ eligible c ctx) o.

Lemma serves_mono (S S' : PortScopedProxy -> Prop) ctx o :
  (forall c, S c -> S' c) -> serves S ctx o -> serves S' ctx o.
Proof. intros HS H rm E. destruct (H rm E) as (c & ? & ? & ?). exists c. auto. Qed.

Lemma serves_select ctx cs n :
  serves (fun c => c ∈ cs) ctx ((fun p => plain_match p n) <$> select_port_aware_proxy cs ctx).
Proof.
  intros rm E. destruct (select_port_aware_proxy cs ctx) eqn:Es; simplify_eq/=.
  apply select_eligible in Es as (c & ? & ? & ?). by exists c.
Qed.

Lemma serves_pick ctx m key : serves (in_index m) ctx (pick m ctx key).
Proof.
  unfold pick. destruct (m !! key) as [cs|] eqn:E; [|by intros ?].
  eapply serves_mono; [|apply serves_select]. intros c Hc. by exists key, cs.
Qed.

Lemma serves_exact ctx m path : serves (in_index m) ctx (find_exact_path_match_indexed m path ctx).
Proof. unfold find_exact_path_match_indexed. destruct (decide _); [by intros ?|apply serves_pick]. Qed.

Lemma serves_prefix ctx m path : serves (in_index m) ctx (find_prefix_match_indexed m path ctx).
Proof.
  intros rm E. assert (H := find_prefix_longest m path ctx). simpl in H. rewrite E in H.
  destruct H as (k & _ & Hp & _). by eapply serves_pick.
Qed.

Create HintDb serves.
#[export] Hint Constructors in_table : serves.

Section Search.
Context `{RegexEngine}.

Lemma serves_regex ctx r path : serves (in_regex r) ctx (find_regex_match_indexed r path ctx).
Proof.
intros rm. unfold find_regex_match_indexed. destruct (regex_entries r) as [|x entries] eqn:Er; [done|].
assert (Hs := linear_scan_first path (x :: entries) ctx).
rewrite regex_set_scan, Tauto.if_same.
destruct (regex_linear_scan path (x :: entries) ctx None) as [[e p]|]; [|done].
destruct Hs as (Hin & [_ He] & _). destruct (captures (pattern e) path) as [[len g]|]; [|done].
intros [= <-]. exists (regex_candidate e). split_and!; [|done|done].
exists e. by rewrite Er.
Qed.

Lemma search_serves t host path f ctx :
serves (in_table t) ctx (search_route_table t host path f ctx).
Proof.
apply search_yields.
- intros m Hm. apply (serves_mono (in_index m)); [|apply serves_exact].
  intros c Hc. destruct Hm as [[? ?]|[[? ?]| ->]]; eauto with serves.
- intros m Hm. apply (serves_mono (in_index m)); [|apply serves_prefix].
  intros c Hc. destruct Hm as [[? ?]|[[? ?]| ->]]; eauto with serves.
- intros r Hr. apply (serves_mono (in_regex r)); [|apply serves_regex].
  intros c Hc. destruct Hr as [[? ?]|[[? ?]| ->]]; eauto with serves.
- intros cs Hcs. apply (serves_mono (fun c => c ∈ cs)); [|apply serves_select].
  intros c Hc. destruct Hcs as [[? ?]|[? ?]]; eauto with serves.
Qed.

(** Routing fails closed on listener scope: whatever tier answers, the
  route served comes from a candidate of the table that is port-agnostic, or
  whose listener is admitted in this generation, has the frontend's TLS class,
  and is the socket the request arrived on or the single remappable listener
  of that class. While admission is pending no listener-scoped route is
  served at all. *)
Theorem search_fails_closed t host path f ctx rm :
search_route_table t host path f ctx = Some rm ->
exists c, in_table t c /\ ps_proxy c = proxy rm /\ listener_ok c ctx
          /\ (pending (listener_admission ctx) = true -> ps_listen_port c = None).
Proof.
intros E. destruct (search_serves t host path f ctx rm E) as (c & Hc & Hp & He).
apply eligible_listener_ok in He. exists c. split_and!; try done. intros Hpend.
destruct (ps_listen_port c) as [port|] eqn:El; [|done].
destruct (He port El) as [Ha _]. unfold allows in Ha. by rewrite Hpend in Ha.
Qed.
End Search.

Definition sample_table (entries : list RouteEntry) : HostRouteTable := {|
  exact_hosts_exact_paths := ∅; exact_hosts := ∅; wildcard_hosts_exact_paths := [];
  wildcard_hosts := []; catch_all_exact_paths := ∅; catch_all := from_sorted entries;
  exact_hosts_regex := ∅; wildcard_hosts_regex := [];
  catch_all_regex := {| regex_entries := []; set_compiled := true |};
  exact_hosts_host_only := ∅; wildcard_hosts_host_only := []; has_exact_path_routes := false;
  has_regex_routes := false; has_host_only_routes := false; single_nontls_listen_port := None;
  single_tls_listen_port := None;
|}.

Definition api_route : RouteEntry := {|
  entry_listen_path := bs "/api";
  entry_candidate := port_scoped (sample_proxy (bs "/api") (Some 80)) ∅;
|}.

Lemma search_fails_closed_witness :
  exists c, in_table (sample_table [api_route]) c /\ ps_proxy c = sample_proxy (bs "/api") (Some 80)
            /\ listener_ok c (plain_frontend 80).
Proof.
  destruct (search_fails_closed (H := literal_engine) (sample_table [api_route]) None (bs "/api/v1")
    Unfiltered (plain_frontend 80) (plain_match (sample_proxy (bs "/api") (Some 80)) 4))
    as (c & Hc & Hp & Hl & _); [vm_compute; reflexivity|].
  exists c. split_and!; [exact Hc|exact Hp|exact Hl].
Defined.
