(* ===== verification/RouterCache.v ===== *)
(** * The route-lookup cache ([src/src/router_cache.rs], [src/src/request_epoch.rs])

    [RouterCache] keeps resolved routes, and misses, in two partitions keyed by
    host, path and frontend, stamped with the route generation of the request
    epoch that resolved them. Eviction (a sampled pass over the map) and the
    clearing of the caches are modelled as dropping any set of entries; the
    frequency sketch that steers the sample decides nothing else. *)

From S2P Require Import Prelude Utf8 PolicyPath Decimal RoutePath RouteTable.

(** ** Cache keys *)

Definition write_cache_key (buf : bytes) (host : option bytes) (path : bytes)
    (frontend_port : option Z) (frontend_is_tls : bool) : bytes :=
  let buf := [] in
  let buf := match host with Some h => buf ++ h | None => buf end in
  let buf := buf ++ [0] ++ path ++ [0] in
  let buf := buf ++ match frontend_port with Some port => show_dec port | None => bs "*" end in
  buf ++ [0] ++ (if frontend_is_tls then bs "t" else bs "p").

Definition make_cache_key (host : option bytes) (path : bytes) (frontend_port : option Z)
    (frontend_is_tls : bool) : bytes :=
  write_cache_key [] host path frontend_port frontend_is_tls.

(** ** The cache *)

Record PrefixCacheEntry := { pc_proxy : option Proxy; pc_generation : Z }.

Record RegexCacheEntry := {
  rc_proxy : Proxy;
  rc_path_params : list (bytes * bytes);
  rc_matched_len : nat;
  rc_generation : Z;
}.

Record router := {
  prefix_cache : gmap bytes PrefixCacheEntry;
  regex_cache : gmap bytes RegexCacheEntry;
}.

Definition empty_router : router := {| prefix_cache := ∅; regex_cache := ∅ |}.

Definition starts_with_byte (b : Z) (l : option bytes) : bool :=
  match l with Some (x :: _) => x =? b | _ => false end.

Definition is_regex_proxy (p : Proxy) : bool := starts_with_byte 126 (listen_path p).
Definition is_exact_path_proxy (p : Proxy) : bool := starts_with_byte 61 (listen_path p).

(** [proxy.listen_port.is_none_or(|port| admission.allows(port))]. *)
Definition port_allowed (a : GatewayListenerAdmission) (p : Proxy) : bool :=
  match proxy_listen_port p with Some port => allows a port | None => true end.

Definition listen_path_len (p : Proxy) : nat :=
  match listen_path p with Some l => length l | None => O end.

Section Lookup.
Context {Heng : RegexEngine}.

(** The two fast paths: [Some r] is a cache hit with result [r]. *)
Definition cache_hit (r : router) (route_generation : Z) (a : GatewayListenerAdmission) (key : bytes)
  : option (option RouteMatch) :=
let prefix_hit :=
  match prefix_cache r !! key with
  | Some cached =>
    if (pc_generation cached =? route_generation)
       && match pc_proxy cached with Some p => port_allowed a p | None => true end
    then Some ((fun p => plain_match p (listen_path_len p)) <$> pc_proxy cached)
    else None
  | None => None
  end in
match prefix_hit with
| Some result => Some result
| None =>
  match regex_cache r !! key with
  | Some cached =>
    if (rc_generation cached =? route_generation) && port_allowed a (rc_proxy cached)
    then Some (Some {| proxy := rc_proxy cached; path_params := rc_path_params cached;
                       matched_prefix_len := rc_matched_len cached |})
    else None
  | None => None
  end
end.

(** The insertion after a miss, in the partition the match belongs to. *)
Definition cache_insert (r : router) (route_generation : Z) (key : bytes)
  (result : option RouteMatch) : router :=
match result with
| Some rm =>
  if negb (bool_decide (path_params rm = [])) || is_regex_proxy (proxy rm)
     || is_exact_path_proxy (proxy rm) then
    {| prefix_cache := prefix_cache r;
       regex_cache := <[key := {| rc_proxy := proxy rm; rc_path_params := path_params rm;
                                  rc_matched_len := matched_prefix_len rm;
                                  rc_generation := route_generation |}]> (regex_cache r) |}
  else
    {| prefix_cache := <[key := {| pc_proxy := Some (proxy rm);
                                   pc_generation := route_generation |}]> (prefix_cache r);
       regex_cache := regex_cache r |}
| None =>
  {| prefix_cache := <[key := {| pc_proxy := None; pc_generation := route_generation |}]>
                       (prefix_cache r);
     regex_cache := regex_cache r |}
end.

Definition port_context (t : HostRouteTable) (a : GatewayListenerAdmission) (port : option Z)
  (tls : bool) : HttpPortMatchContext := {|
frontend_port := port;
frontend_is_tls := tls;
ctx_single_nontls := single_nontls_listen_port t;
ctx_single_tls := single_tls_listen_port t;
listener_admission := a;
|}.

Definition find_proxy_with_admission (r : router) (t : HostRouteTable) (route_generation : Z)
  (a : GatewayListenerAdmission) (host : option bytes) (path : bytes) (port : option Z)
  (tls : bool) : option RouteMatch * router :=
if match port with Some p => explicitly_refuses a p | None => false end then (None, r)
else
  let path := cow_str (normalize_encoded_slashes path) in
  let ctx := port_context t a port tls in
  let key := make_cache_key host path port tls in
  match cache_hit r route_generation a key with
  | Some result => (result, r)
  | None =>
    let result := search_route_table t host path Unfiltered ctx in
    (result, cache_insert r route_generation key result)
  end.

(** The same lookup without the cache. *)
Definition fresh_lookup (t : HostRouteTable) (a : GatewayListenerAdmission) (host : option bytes)
  (path : bytes) (port : option Z) (tls : bool) : option RouteMatch :=
if match port with Some p => explicitly_refuses a p | None => false end then None
else
  search_route_table t host (cow_str (normalize_encoded_slashes path)) Unfiltered
    (port_context t a port tls).

(** [resolve_route_excluding_wrong_direction_in_epoch]: uncached. *)
Definition resolve_route_excluding_wrong_direction (t : HostRouteTable)
  (a : GatewayListenerAdmission) (host : option bytes) (path : bytes)
  (req_direction : option MeshTrafficDirection) (port : option Z) (tls : bool)
  : option RouteMatch :=
search_route_table t host (cow_str (normalize_encoded_slashes path))
  (MatchingDirection req_direction) (port_context t a port tls).

(** ** Request epochs *)

Record RequestEpoch := {
route_table : HostRouteTable;
config_identity : Z;
config_generation : Z;
route_generation : Z;
gateway_listener_admission : GatewayListenerAdmission;
}.

(** What a staged configuration contributes to routing. The code clones the
  current table when the routes did not change. *)
Record StagedRequestEpoch := { staged_config : Z; new_route_table : option HostRouteTable }.

Definition update_config (current : RequestEpoch) (staged : StagedRequestEpoch) : RequestEpoch := {|
route_table := default (route_table current) (new_route_table staged);
config_identity := staged_config staged;
config_generation := saturating_add 64 (config_generation current) 1;
route_generation :=
  if bool_decide (is_Some (new_route_table staged))
  then saturating_add 64 (route_generation current) 1
  else route_generation current;
gateway_listener_admission := pending_admission;
|}.

#[global] Instance GatewayListenerAdmission_eq_dec : EqDecision GatewayListenerAdmission.
Proof. solve_decision. Defined.

Definition publish_gateway_listener_admission (current expected : RequestEpoch)
  (a : GatewayListenerAdmission) : option RequestEpoch :=
if negb (config_generation current =? config_generation expected)
   || negb (config_identity current =? config_identity expected) then None
else if bool_decide (gateway_listener_admission current = a) then Some current
else Some {|
  route_table := route_table current;
  config_identity := config_identity current;
  config_generation := config_generation current;
  route_generation := saturating_add 64 (route_generation current) 1;
  gateway_listener_admission := a;
|}.

Definition find_proxy_in_epoch (r : router) (e : RequestEpoch) (host : option bytes) (path : bytes)
  (port : option Z) (tls : bool) : option RouteMatch * router :=
find_proxy_with_admission r (route_table e) (route_generation e) (gateway_listener_admission e)
  host path port tls.
End Lookup.

(** ** Keys are injective on requests *)

(** NUL cannot occur in a host or a path of a request; ports are [u16]. *)
Definition request_ok (host : option bytes) (path : bytes) (port : option Z) : Prop :=
  0 ∉ default [] host /\ 0 ∉ path /\ match port with Some p => is_u16 p | None => True end.

Lemma make_cache_key_shape host path port tls :
  make_cache_key host path port tls
  = default [] host ++ 0 :: path ++ 0 :: match port with Some p => show_dec p | None => bs "*" end
    ++ 0 :: (if tls then bs "t" else bs "p").
Proof.
  unfold make_cache_key, write_cache_key. destruct host; simpl; by repeat (rewrite <- app_assoc; simpl).
Qed.

Lemma not_elem_port port :
  match port with Some p => is_u16 p | None => True end ->
  0 ∉ match port with Some p => show_dec p | None => bs "*" end.
Proof.
  destruct port as [p|]; [intros [Hp _]|intros _; vm_compute; set_solver].
  apply all_digits_not_in; [done|]. by apply show_dec_spec.
Qed.

Lemma app_nul_inj (p q l m : bytes) : 0 ∉ p -> 0 ∉ q -> p ++ 0 :: l = q ++ 0 :: m -> p = q /\ l = m.
Proof.
  revert q; induction p as [|x p IH]; intros [|y q] Hp Hq E; simplify_eq/=; [done|set_solver..|].
  destruct (IH q) as [-> ->]; try done; set_solver.
Qed.

Lemma make_cache_key_inj host path port tls host' path' port' tls' :
  request_ok host path port -> request_ok host' path' port' ->
  make_cache_key host path port tls = make_cache_key host' path' port' tls' ->
  default [] host = default [] host' /\ path = path' /\ port = port' /\ tls = tls'.
Proof.
  intros (Hh & Hp & Hq) (Hh' & Hp' & Hq') E. rewrite !make_cache_key_shape in E.
  apply app_nul_inj in E as [E1 E]; [|done..]. apply app_nul_inj in E as [E2 E]; [|done..].
  apply app_nul_inj in E as [E3 E4]; [|by apply not_elem_port..]. split_and!; try done.
  - destruct port as [p|], port' as [p'|]; [|exfalso..|done].
    + f_equal. destruct Hq, Hq'. by apply show_dec_inj.
    + destruct Hq as [Hq _]. destruct (show_dec_spec p Hq) as [Hd _]. by rewrite E3 in Hd.
    + destruct Hq' as [Hq' _]. destruct (show_dec_spec p' Hq') as [Hd _]. by rewrite <- E3 in Hd.
  - by destruct tls, tls'.
Qed.

Lemma norm_loop_elem x l : x ∈ (norm_loop l).1 -> x = 47 \/ x ∈ l.
Proof.
  induction l as [|b l IH] using list_length_ind; [by intros ?%not_elem_of_nil|]. rewrite norm_loop_cons.
  destruct (encoded_slash (b :: l)) as [rest|] eqn:E; simpl.
  - intros [->|Hx]%elem_of_cons; [by left|]. apply encoded_slash_inv in E as (esc & El & _ & Hlen).
    rewrite El. assert (Hl : (length rest <= length l)%nat)
      by (apply (f_equal length) in El; rewrite length_app in El; simpl in El; lia).
    destruct (IH rest Hl Hx); [by left|right]. apply elem_of_app. by right.
  - specialize (IH l (le_n _)). destruct (norm_loop l) as [o m]; simpl in *.
    intros [->|Hx]%elem_of_cons; [right; by apply elem_of_cons; left|].
    destruct (IH Hx); [by left|right]. by apply elem_of_cons; right.
Qed.

Lemma normalize_elem x path :
  x ∈ cow_str (normalize_encoded_slashes path) -> x = 47 \/ x ∈ path.
Proof.
  unfold normalize_encoded_slashes. destruct (negb _); [by right|].
  assert (H := norm_loop_elem x path). destruct (norm_loop path) as [out [|]]; [|by right].
  unfold from_utf8. destruct (utf8_check out); [exact H|by right..].
Qed.

Lemma request_ok_normalize host path port :
  request_ok host path port -> request_ok host (cow_str (normalize_encoded_slashes path)) port.
Proof.
  intros (? & Hp & ?). split_and!; try done. intros [?|?]%normalize_elem; [lia|done].
Qed.

(** ** Well-formed tables *)

Definition index_ok (P : bytes -> Proxy -> Prop) (m : path_index) : Prop :=
  forall k cs c, m !! k = Some cs -> c ∈ cs -> P k (ps_proxy c).

(** What [build_route_table] establishes: candidates carry the scope of their
    proxy, each index holds the routes of its kind under their own path, and
    no host pattern is empty. *)
Record table_ok (t : HostRouteTable) : Prop := {
  tbl_scope : forall c, in_table t c ->
    ps_listen_port c = if is_stream (dispatch_kind (ps_proxy c)) then None else proxy_listen_port (ps_proxy c);
  tbl_exact : forall m, exact_path_index t m -> index_ok (fun _ p => is_exact_path_proxy p = true) m;
  tbl_prefix : forall m, prefix_index t m -> index_ok (fun k p => listen_path p = Some k) m;
  tbl_regex : forall r c, regex_index t r -> in_regex r c -> is_regex_proxy (ps_proxy c) = true;
  tbl_only : forall cs c, host_only_index t cs -> c ∈ cs -> listen_path (ps_proxy c) = None;
  tbl_hosts : exact_hosts_exact_paths t !! [] = None /\ exact_hosts t !! [] = None
    /\ exact_hosts_regex t !! [] = None /\ exact_hosts_host_only t !! [] = None;
  tbl_wild : Forall (fun h => h.1 <> []) (wildcard_hosts_exact_paths t)
    /\ Forall (fun h => h.1 <> []) (wildcard_hosts t)
    /\ Forall (fun h => h.1 <> []) (wildcard_hosts_regex t)
    /\ Forall (fun h => h.1 <> []) (wildcard_hosts_host_only t);
}.

Lemma wildcard_empty_host p : p <> [] -> wildcard_matches p [] = false.
Proof.
  intros Hp. assert (Hd : forall q, q <> [] -> eqb_bytes q [] = false) by by intros [].
  unfold wildcard_matches. repeat (case_match; subst; try by apply Hd); simplify_eq; try done.
  match goal with H : strip_suffix ?suffix [] = _ |- _ => by destruct suffix end.
Qed.

Lemma first_wildcard_empty {A} (look : A -> option RouteMatch) l :
  Forall (fun h => h.1 <> []) l -> first_wildcard [] look l = None.
Proof.
  induction 1 as [|[p a] l Hp _ IH]; simpl; [done|]. by rewrite wildcard_empty_host.
Qed.

Section Transparency.
Context {Heng : RegexEngine} {Hlaws : RegexEngineLaws Heng}.

(** A request without a host and one with an empty host share a key, and
  resolve alike. *)
Lemma search_empty_host t path f ctx :
table_ok t -> search_route_table t (Some []) path f ctx = search_route_table t None path f ctx.
Proof.
intros Hok. destruct (tbl_hosts _ Hok) as (H1 & H2 & H3 & H4).
destruct (tbl_wild _ Hok) as (W1 & W2 & W3 & W4).
unfold search_route_table. rewrite H1, H2, H3, H4, !first_wildcard_empty by done. simpl.
by destruct (has_exact_path_routes t), (has_regex_routes t), (has_host_only_routes t).
Qed.

Lemma search_host t host host' path f ctx :
table_ok t -> default [] host = default [] host' ->
search_route_table t host path f ctx = search_route_table t host' path f ctx.
Proof.
intros Hok E. destruct host as [h|], host' as [h'|]; simpl in E; subst; try done;
  [|symmetry]; by apply search_empty_host.
Qed.

(** ** From a decided admission to a pending one

  A configuration change that leaves the routes alone resets the admission to
  pending under the same route generation, so entries resolved before it
  stay valid for lookups after it. They resolve alike: [stable o o'] says
  that a miss stays a miss, and a port-agnostic winner stays the winner. *)

Definition stable (o o' : option RouteMatch) : Prop :=
(o = None -> o' = None)
/\ (forall rm, o = Some rm -> proxy_listen_port (proxy rm) = None -> o' = Some rm).

Lemma stable_or_else a a' b b' :
stable a a' -> stable (b tt) (b' tt) -> stable (or_else a b) (or_else a' b').
Proof.
intros [Ha1 Ha2] Hb. destruct a as [rm|]; simpl.
- split; [done|]. intros rm' [= <-] Hl. by rewrite (Ha2 rm).
- by rewrite Ha1.
Qed.

Lemma stable_when c a a' : stable (a tt) (a' tt) -> stable (when c a) (when c a').
Proof. by destruct c. Qed.

Lemma stable_filter o o' : stable o o' -> stable (filter_match Unfiltered o) (filter_match Unfiltered o').
Proof. by destruct o, o'. Qed.

Lemma stable_bind {A} (o : option A) f f' :
(forall a, o = Some a -> stable (f a) (f' a)) -> stable (o ≫= f) (o ≫= f').
Proof. intros Hf. destruct o; simpl; [by apply Hf|done]. Qed.

Lemma stable_wildcard {A} host (f f' : A -> option RouteMatch) l :
(forall p a, (p, a) ∈ l -> stable (f a) (f' a)) ->
stable (first_wildcard host f l) (first_wildcard host f' l).
Proof.
induction l as [|[p a] l IH]; intros Hl; simpl; [done|].
assert (Hrec : stable (first_wildcard host f l) (first_wildcard host f' l))
  by (apply IH; intros q b ?; apply (Hl q); by apply elem_of_cons; right).
destruct (wildcard_matches p host); [|done]. apply stable_or_else; [|done].
apply (Hl p). by apply elem_of_cons; left.
Qed.

Section Pending.
  Context (t : HostRouteTable) (port : option Z) (tls : bool) (a a' : GatewayListenerAdmission).
  Hypothesis Hok : table_ok t.
  Hypothesis Hpend : pending a' = true.
  Notation ctx := (port_context t a port tls).
  Notation ctx' := (port_context t a' port tls).

Lemma priority_pending c :
  match_priority c ctx' = match ps_listen_port c with None => Some 2 | Some _ => None end.
Proof.
  unfold match_priority, port_match_priority, allows; simpl. rewrite Hpend. by destruct (ps_listen_port c).
Qed.

Lemma priority_agnostic c ctx0 : ps_listen_port c = None -> match_priority c ctx0 = Some 2.
Proof. unfold match_priority, port_match_priority. by intros ->. Qed.

Definition scoped_ok (c : PortScopedProxy) : Prop :=
  ps_listen_port c = if is_stream (dispatch_kind (ps_proxy c)) then None else proxy_listen_port (ps_proxy c).

Lemma scoped_agnostic c : scoped_ok c -> proxy_listen_port (ps_proxy c) = None -> ps_listen_port c = None.
Proof. unfold scoped_ok. intros -> ->. by destruct (is_stream _). Qed.

Lemma best_stable cs :
  Forall scoped_ok cs ->
  (best_candidate cs ctx = None -> best_candidate cs ctx' = None)
  /\ (forall p prio, best_candidate cs ctx = Some (p, prio) -> proxy_listen_port p = None ->
    best_candidate cs ctx' = Some (p, 2) /\ prio = 2).
Proof.
  induction 1 as [|c cs Hc _ [IH1 IH2]]; simpl; [done|]. rewrite priority_pending.
  destruct (ps_listen_port c) as [lp|] eqn:El.
  - destruct (match_priority c ctx) as [prio|] eqn:Ep; [|by split].
assert (Hcp : forall pr, Some (ps_proxy c, prio) = Some pr -> proxy_listen_port pr.1 <> None).
{ intros pr [= <-]; simpl. intros Hn. apply scoped_agnostic in Hn; [congruence|done]. }
destruct (best_candidate cs ctx) as [[p' prio']|] eqn:Eb.
+ split; [by destruct (_ <=? _)|]. intros p pr E Hn. destruct (_ <=? _); simplify_eq.
  * by destruct (Hcp (ps_proxy c, pr) eq_refl).
  * by apply IH2.
+ split; [done|]. intros p pr E Hn. simplify_eq. by destruct (Hcp (_, pr) eq_refl).
  - rewrite (priority_agnostic c ctx El). destruct (best_candidate cs ctx) as [[p' prio']|] eqn:Eb.
+ split; [by destruct (_ <=? _)|]. intros p pr E Hn.
  assert (Hmin : forall q x, best_candidate cs ctx' = Some (q, x) -> 2 <= x).
  { intros q x Ex. assert (Hs := best_candidate_spec cs ctx'). rewrite Ex in Hs.
    destruct Hs as (i & c2 & _ & _ & Hm & _). rewrite priority_pending in Hm.
    destruct (ps_listen_port c2); simplify_eq; lia. }
  destruct (Z.leb_spec 2 prio'); simplify_eq.
  * split; [|done]. destruct (best_candidate cs ctx') as [[q x]|] eqn:Ex; [|done].
    specialize (Hmin q x eq_refl). destruct (Z.leb_spec 2 x); [done|lia].
  * destruct (IH2 p pr eq_refl Hn) as [_ Hpr]. lia.
+ rewrite IH1 by done. split; [done|]. intros p pr E Hn. by simplify_eq.
Qed.

Lemma select_stable cs n :
  Forall scoped_ok cs ->
  stable ((fun p => plain_match p n) <$> select_port_aware_proxy cs ctx)
     ((fun p => plain_match p n) <$> select_port_aware_proxy cs ctx').
Proof.
  intros Hcs. destruct (best_stable cs Hcs) as [H1 H2]. rewrite !select_best.
  destruct (best_candidate cs ctx) as [[p prio]|]; simpl.
  - split; [done|]. intros rm [= <-] Hn. destruct (H2 p prio eq_refl Hn) as [-> _]. done.
  - by rewrite H1.
Qed.

Definition index_scoped (m : path_index) : Prop := forall c, in_index m c -> scoped_ok c.

Lemma pick_stable m key : index_scoped m -> stable (pick m ctx key) (pick m ctx' key).
Proof.
  intros Hm. unfold pick. destruct (m !! key) as [cs|] eqn:E; [|done]. apply select_stable.
  apply Forall_forall. intros c Hc. apply Hm. by exists key, cs.
Qed.

Lemma walk_stable m path fuel : index_scoped m -> forall se,
  stable (walk_back fuel m ctx path se) (walk_back fuel m ctx' path se).
Proof.
  intros Hm. induction fuel as [|fuel IH]; intros se; simpl; [done|].
  destruct (rfind_slash (take se path)) as [[|j]|]; [by apply pick_stable| |done].
  apply (stable_or_else _ _
(fun _ => match pick m ctx (take (S j) path) with Some rm => Some rm | None => walk_back fuel m ctx path (S j) end)
(fun _ => match pick m ctx' (take (S j) path) with Some rm => Some rm | None => walk_back fuel m ctx' path (S j) end));
[by apply pick_stable|].
  apply (stable_or_else _ _ (fun _ => walk_back fuel m ctx path (S j))
(fun _ => walk_back fuel m ctx' path (S j))); [by apply pick_stable|apply IH].
Qed.

Lemma prefix_stable m path :
  index_scoped m -> stable (find_prefix_match_indexed m path ctx) (find_prefix_match_indexed m path ctx').
Proof.
  intros Hm. unfold find_prefix_match_indexed. destruct (decide (m = ∅)); [done|].
  apply (stable_or_else _ _
(fun _ => walk_back (S (length (before_query path))) m ctx (before_query path) (length (before_query path)))
(fun _ => walk_back (S (length (before_query path))) m ctx' (before_query path) (length (before_query path))));
[by apply pick_stable|by apply walk_stable].
Qed.

Lemma exact_stable m path :
  index_scoped m ->
  stable (find_exact_path_match_indexed m path ctx) (find_exact_path_match_indexed m path ctx').
Proof.
  intros Hm. unfold find_exact_path_match_indexed. destruct (decide (m = ∅)); [done|by apply pick_stable].
Qed.
Lemma scan_prio path entries ctx0 : forall cur prio e p',
  regex_linear_scan path entries ctx0 (Some (cur, prio)) = Some (e, p') ->
  (e = cur /\ p' = prio) \/ p' < prio /\ match_priority (regex_candidate e) ctx0 = Some p'.
Proof.
  induction entries as [|x entries IH]; intros cur prio e p'; simpl; [intros [= <- <-]; by left|].
  destruct (match_priority (regex_candidate x) ctx0) as [px|] eqn:Ep; [|apply IH].
  destruct (is_match (pattern x) path); simpl; [|apply IH].
  destruct (eqb_bytes _ _); simpl; [|apply IH]. destruct (Z.ltb_spec px prio); [|apply IH].
  destruct (px =? 0); [intros [= <- <-]; by right|].
  intros [[-> ->]|[? ?]]%IH; right; (split; [lia|done]).
Qed.

Lemma scan_pending_keeps path entries cur :
  regex_linear_scan path entries ctx' (Some (cur, 2)) = Some (cur, 2).
Proof.
  induction entries as [|x entries IH]; simpl; [done|]. rewrite priority_pending.
  destruct (ps_listen_port _); [done|]. destruct (is_match _ _); simpl; [|done].
  by destruct (eqb_bytes _ _).
Qed.

Lemma scan_stable path entries :
  Forall (fun e => scoped_ok (regex_candidate e)) entries ->
  (regex_linear_scan path entries ctx None = None -> regex_linear_scan path entries ctx' None = None)
  /\ (forall e prio, regex_linear_scan path entries ctx None = Some (e, prio) ->
    proxy_listen_port (ps_proxy (regex_candidate e)) = None ->
    regex_linear_scan path entries ctx' None = Some (e, 2)).
Proof.
  induction 1 as [|x entries Hx Hrest IH]; simpl; [done|]. rewrite priority_pending.
  destruct (match_priority (regex_candidate x) ctx) as [px|] eqn:Ep; cycle 1.
  { destruct (ps_listen_port (regex_candidate x)) eqn:El; [done|].
by rewrite (priority_agnostic _ ctx El) in Ep. }
  destruct (is_match (pattern x) path); simpl; cycle 1.
  { by destruct (ps_listen_port (regex_candidate x)). }
  assert (Hpx := port_match_priority_range _ _ _ _ _ Ep).
  assert (Hfrom : forall e prio, proxy_listen_port (ps_proxy (regex_candidate e)) = None ->
(e = x /\ prio = px) \/ prio < px /\ match_priority (regex_candidate e) ctx = Some prio ->
scoped_ok (regex_candidate e) -> e = x /\ ps_listen_port (regex_candidate x) = None).
  { intros e prio Hn Hcase Hs. apply scoped_agnostic in Hn; [|done].
destruct Hcase as [[-> _]|[Hlt Hm]]; [done|]. rewrite (priority_agnostic _ ctx Hn) in Hm.
simplify_eq. lia. }
  destruct (linear_scan_keeps path entries ctx x px) as (e0 & p0 & E0 & _ & Hwho).
  destruct (Z.eqb_spec px 0) as [->|Hpx0].
  - split; [done|]. intros e prio [= <- <-] Hn. destruct (Hfrom x 0 Hn) as [_ El]; [by left|done|].
by rewrite (priority_agnostic _ ctx El) in Ep.
  - rewrite E0. split; [done|]. intros e prio [= <- <-] Hn.
assert (Hs : scoped_ok (regex_candidate e0)).
{ destruct Hwho as [->|[Hin _]]; [done|]. rewrite Forall_forall in Hrest. by apply Hrest. }
destruct (Hfrom e0 p0 Hn) as [-> El]; [by eapply scan_prio|done|]. rewrite El; simpl.
apply scan_pending_keeps.
Qed.

Lemma regex_stable r path :
  (forall c, in_regex r c -> scoped_ok c) ->
  stable (find_regex_match_indexed r path ctx) (find_regex_match_indexed r path ctx').
Proof.
  intros Hr. unfold find_regex_match_indexed. destruct (regex_entries r) as [|x entries] eqn:Er; [done|].
  rewrite !regex_set_scan, !Tauto.if_same.
  destruct (scan_stable path (x :: entries)) as [H1 H2].
  { apply Forall_forall. intros e He. apply Hr. exists e. by rewrite Er. }
  destruct (regex_linear_scan path (x :: entries) ctx None) as [[e prio]|] eqn:E.
  - split.
+ destruct (captures (pattern e) path) as [[? ?]|] eqn:Ec; [done|]. intros _.
  assert (Hs := linear_scan_first path (x :: entries) ctx).
  rewrite E in Hs. destruct Hs as (_ & [Hm _] & _).
  destruct (captures_is_match (pattern e) path) as [Hc _]. destruct (Hc Hm) as [? ?]. congruence.
+ intros rm. destruct (captures (pattern e) path) as [[? ?]|] eqn:Ec; [|done]. intros [= <-] Hn.
  simpl in Hn. rewrite (H2 e prio eq_refl Hn), Ec. done.
  - by rewrite H1.
Qed.

Lemma search_stable host path :
  stable (search_route_table t host path Unfiltered ctx) (search_route_table t host path Unfiltered ctx').
Proof.
  assert (Hs : forall c, in_table t c -> scoped_ok c) by apply (tbl_scope _ Hok).
  unfold search_route_table.
  apply stable_or_else; [destruct host as [host|]; [|done]|];
repeat first
  [ apply stable_filter, exact_stable; intros c Hc; apply Hs; by eauto with serves
  | apply stable_filter, prefix_stable; intros c Hc; apply Hs; by eauto with serves
  | apply stable_filter, regex_stable; intros c Hc; apply Hs; by eauto with serves
  | apply select_stable; apply Forall_forall; intros c Hc; apply Hs; by eauto with serves
  | apply stable_or_else | apply stable_when
  | apply stable_bind; intros ? ? | apply stable_wildcard; intros ? ? ? ].
Qed.
End Pending.

(** ** What a cached entry says *)

(** A match that goes to the prefix partition is determined by its proxy. *)
Lemma search_shape t host path ctx rm :
table_ok t -> search_route_table t host path Unfiltered ctx = Some rm ->
is_regex_proxy (proxy rm) = true \/ is_exact_path_proxy (proxy rm) = true
\/ rm = plain_match (proxy rm) (listen_path_len (proxy rm)).
Proof.
intros Hok. revert rm. apply search_yields.
- intros m Hm rm E. right; left. destruct (serves_exact ctx m path rm E) as (c & (k & cs & Hk & Hc) & <- & _).
  by eapply (tbl_exact _ Hok).
- intros m Hm rm E. right; right. assert (Hl := find_prefix_longest m path ctx). simpl in Hl.
  rewrite E in Hl. destruct Hl as (k & _ & Hp & _). unfold pick in Hp.
  destruct (m !! k) as [cs|] eqn:Ek; [|done].
  destruct (select_port_aware_proxy cs ctx) as [p|] eqn:Es; [|done]. simplify_eq/=.
  apply select_eligible in Es as (c & Hc & <- & _). unfold listen_path_len.
  by rewrite (tbl_prefix _ Hok m Hm k cs c Ek Hc).
- intros r Hr rm E. left. destruct (serves_regex ctx r path rm E) as (c & Hc & <- & _).
  by eapply (tbl_regex _ Hok).
- intros cs Hcs rm E. right; right. unfold host_only in E.
  destruct (select_port_aware_proxy cs ctx) as [p|] eqn:Es; [|done]. simplify_eq/=.
  apply select_eligible in Es as (c & Hc & <- & _). unfold listen_path_len.
  by rewrite (tbl_only _ Hok cs c Hcs Hc).
Qed.

(** [r] is what every request with this key resolves to under [a0], an
  admission from which the epoch's has not changed except to pending. *)
Definition resolves (e : RequestEpoch) (key : bytes) (r : option RouteMatch) : Prop :=
exists a0,
  (a0 = gateway_listener_admission e \/ pending (gateway_listener_admission e) = true)
  /\ forall host path port tls,
       request_ok host path port -> make_cache_key host path port tls = key ->
       search_route_table (route_table e) host path Unfiltered
         (port_context (route_table e) a0 port tls) = r.

Record cache_valid (e : RequestEpoch) (r : router) : Prop := {
valid_prefix : forall key c, prefix_cache r !! key = Some c ->
  pc_generation c <= route_generation e
  /\ (pc_generation c = route_generation e ->
      resolves e key ((fun p => plain_match p (listen_path_len p)) <$> pc_proxy c));
valid_regex : forall key c, regex_cache r !! key = Some c ->
  rc_generation c <= route_generation e
  /\ (rc_generation c = route_generation e ->
      resolves e key (Some {| proxy := rc_proxy c; path_params := rc_path_params c;
                              matched_prefix_len := rc_matched_len c |}));
}.

Lemma resolves_current e key res host path port tls :
table_ok (route_table e) -> resolves e key res ->
request_ok host path port -> make_cache_key host path port tls = key ->
match res with Some rm => port_allowed (gateway_listener_admission e) (proxy rm) = true | None => True end ->
search_route_table (route_table e) host path Unfiltered
  (port_context (route_table e) (gateway_listener_admission e) port tls) = res.
Proof.
intros Hok (a0 & Ha & Hall) Hreq Hkey Hport. specialize (Hall host path port tls Hreq Hkey).
destruct Ha as [->|Hpend]; [done|].
destruct (search_stable (route_table e) port tls a0 (gateway_listener_admission e) Hok Hpend host path)
  as [H1 H2].
rewrite Hall in H1, H2. destruct res as [rm|]; [|by apply H1]. apply H2; [done|].
unfold port_allowed, allows in Hport. rewrite Hpend in Hport. by destruct (proxy_listen_port _).
Qed.

Lemma cache_hit_current e r host path port tls res :
table_ok (route_table e) -> cache_valid e r -> request_ok host path port ->
cache_hit r (route_generation e) (gateway_listener_admission e) (make_cache_key host path port tls)
  = Some res ->
search_route_table (route_table e) host path Unfiltered
  (port_context (route_table e) (gateway_listener_admission e) port tls) = res.
Proof.
intros Hok [Hp Hr] Hreq. unfold cache_hit. set (key := make_cache_key host path port tls).
assert (Hregex : forall c, regex_cache r !! key = Some c ->
  (rc_generation c =? route_generation e) && port_allowed (gateway_listener_admission e) (rc_proxy c) = true ->
  search_route_table (route_table e) host path Unfiltered
    (port_context (route_table e) (gateway_listener_admission e) port tls)
  = Some {| proxy := rc_proxy c; path_params := rc_path_params c; matched_prefix_len := rc_matched_len c |}).
{ intros c Hc [Hg%Z.eqb_eq Ha]%andb_true_iff. destruct (Hr key c Hc) as [_ Hres].
  by apply (resolves_current e key _ host path port tls Hok (Hres Hg)). }
assert (Hsecond : match regex_cache r !! key with
  | Some cached =>
    if (rc_generation cached =? route_generation e) && port_allowed (gateway_listener_admission e) (rc_proxy cached)
    then Some (Some {| proxy := rc_proxy cached; path_params := rc_path_params cached;
                       matched_prefix_len := rc_matched_len cached |})
    else None
  | None => None
  end = Some res -> search_route_table (route_table e) host path Unfiltered
    (port_context (route_table e) (gateway_listener_admission e) port tls) = res).
{ destruct (regex_cache r !! key) as [c|] eqn:Ec; [|done].
  destruct (_ && _) eqn:Eb; [|done]. intros [= <-]. by apply Hregex. }
destruct (prefix_cache r !! key) as [c|] eqn:Ec; [|exact Hsecond].
destruct (_ && _) eqn:Eb; [|exact Hsecond]. intros [= <-].
apply andb_true_iff in Eb as [Hg%Z.eqb_eq Ha]. destruct (Hp key c Ec) as [_ Hres].
apply (resolves_current e key _ host path port tls Hok (Hres Hg) Hreq eq_refl).
by destruct (pc_proxy c).
Qed.

Lemma resolves_fresh e host path port tls :
table_ok (route_table e) -> request_ok host path port ->
resolves e (make_cache_key host path port tls)
  (search_route_table (route_table e) host path Unfiltered
     (port_context (route_table e) (gateway_listener_admission e) port tls)).
Proof.
intros Hok Hreq. exists (gateway_listener_admission e). split; [by left|].
intros host' path' port' tls' Hreq' Hkey.
destruct (make_cache_key_inj _ _ _ _ _ _ _ _ Hreq' Hreq Hkey) as (Eh & -> & -> & ->).
by apply search_host.
Qed.

Lemma insert_valid e r host path port tls :
table_ok (route_table e) -> cache_valid e r -> request_ok host path port ->
cache_valid e (cache_insert r (route_generation e) (make_cache_key host path port tls)
  (search_route_table (route_table e) host path Unfiltered
     (port_context (route_table e) (gateway_listener_admission e) port tls))).
Proof.
intros Hok Hv Hreq. assert (Hres := resolves_fresh e host path port tls Hok Hreq).
destruct Hv as [Hp Hr]. unfold cache_insert.
destruct (search_route_table _ _ _ _ _) as [rm|] eqn:Es.
- apply search_shape in Es; [|done].
  destruct (_ || _ || _) eqn:Eb; constructor; simpl; try done; intros key c;
    rewrite lookup_insert_Some; intros [[<- <-]|[_ Hc]]; simpl; try by eauto.
  + split; [lia|]. intros _. by destruct rm.
  + split; [lia|]. intros _. destruct Es as [E|[E|E]]; [by rewrite E, ?orb_true_r in Eb..|].
    by rewrite <- E.
- constructor; simpl; try done. intros key c.
  rewrite lookup_insert_Some; intros [[<- <-]|[_ Hc]]; simpl; [|by eauto]. split; [lia|done].
Qed.

(** ** Runs *)

Definition router_sub (r' r : router) : Prop :=
prefix_cache r' ⊆ prefix_cache r /\ regex_cache r' ⊆ regex_cache r.

Inductive route_step : RequestEpoch * router -> RequestEpoch * router -> Prop :=
| step_lookup e r host path port tls res r' :
  request_ok host path port -> find_proxy_in_epoch r e host path port tls = (res, r') ->
  route_step (e, r) (e, r')
| step_evict e r r' : router_sub r' r -> route_step (e, r) (e, r')
| step_config e r staged :
  (forall t, new_route_table staged = Some t -> table_ok t) ->
  route_step (e, r) (update_config e staged, r)
| step_publish_admission e r expected refused e' :
  publish_gateway_listener_admission e expected (decided refused) = Some e' ->
  route_step (e, r) (e', r).

Inductive route_reachable (e0 : RequestEpoch) : RequestEpoch * router -> Prop :=
| route_reachable_init : route_reachable e0 (e0, empty_router)
| route_reachable_step s s' : route_reachable e0 s -> route_step s s' -> route_reachable e0 s'.

Lemma cache_valid_newer e e' r :
cache_valid e r -> route_generation e < route_generation e' -> cache_valid e' r.
Proof.
intros [Hp Hr] Hlt. constructor; intros key c Hc.
- destruct (Hp key c Hc). split; [lia|]. intros. lia.
- destruct (Hr key c Hc). split; [lia|]. intros. lia.
Qed.

Lemma cache_valid_pending e e' r :
cache_valid e r -> route_generation e' = route_generation e -> route_table e' = route_table e ->
pending (gateway_listener_admission e') = true -> cache_valid e' r.
Proof.
intros [Hp Hr] Hg Ht Hpend.
assert (Hres : forall key x, resolves e key x -> resolves e' key x).
{ intros key x (a0 & _ & Hall). exists a0. split; [by right|]. by rewrite Ht. }
constructor; intros key c Hc; rewrite Hg; [destruct (Hp key c Hc)|destruct (Hr key c Hc)]; auto.
Qed.

Lemma cache_valid_sub e r r' : router_sub r' r -> cache_valid e r -> cache_valid e r'.
Proof.
intros [H1 H2] [Hp Hr]. constructor; intros key c Hc.
- apply Hp. by eapply lookup_weaken.
- apply Hr. by eapply lookup_weaken.
Qed.

Lemma route_reachable_inv e0 s :
table_ok (route_table e0) -> route_reachable e0 s ->
table_ok (route_table s.1) /\ (route_generation s.1 < umax 64 -> cache_valid s.1 s.2).
Proof.
intros H0. induction 1 as [|s s' _ [IHt IHv] Hstep]; [by split|].
destruct Hstep as [e r host path port tls res r' Hreq E|e r r' Hsub|e r staged Hst|e r expected refused e' E];
  cbn [fst snd] in *.
- split; [done|]. intros Hlt. specialize (IHv Hlt). revert E.
  unfold find_proxy_in_epoch, find_proxy_with_admission.
  destruct (match port with Some _ => _ | None => _ end); [by intros [= _ <-]|].
  destruct (cache_hit _ _ _ _); intros [= _ <-]; [done|].
  by apply insert_valid; [..|apply request_ok_normalize].
- split; [done|]. intros. by eapply cache_valid_sub; eauto.
- cbn [fst snd]. assert (Hp : pending (gateway_listener_admission (update_config e staged)) = true) by done.
  assert (Ht : route_table (update_config e staged) = default (route_table e) (new_route_table staged)) by done.
  assert (Hgen : route_generation (update_config e staged)
    = if new_route_table staged then saturating_add 64 (route_generation e) 1 else route_generation e)
    by (simpl; by destruct (new_route_table staged)).
  revert Hp Ht Hgen. generalize (update_config e staged). intros e1 Hp Ht Hgen.
  unfold saturating_add, umax in *. destruct (new_route_table staged) as [t|] eqn:En; simpl in Ht, Hgen; rewrite Ht.
  + split; [by apply Hst|]. intros Hlt. eapply cache_valid_newer; [apply IHv; lia|]. lia.
  + split; [done|]. intros Hlt. apply (cache_valid_pending e); [apply IHv; lia|lia|done|done].
- unfold publish_gateway_listener_admission in E. destruct (_ || _); [done|].
  case_bool_decide; simplify_eq; simpl in *; [done|]. split; [done|]. intros Hlt.
  unfold saturating_add, umax in *. eapply cache_valid_newer; [apply IHv; lia|]. simpl.
  unfold saturating_add, umax. lia.
Qed.

(** C13. The route cache is transparent: after any run of lookups, evictions,
  configuration reloads (with or without a route change, each of which resets
  the listener admission) and admission decisions, a lookup in the current
  request epoch returns exactly what an uncached search of that epoch's table
  under its admission returns, hit or miss, positive or negative. The bound
  says that the 64-bit generation has not saturated. *)
Theorem route_cache_transparent e0 e r host path port tls :
table_ok (route_table e0) -> route_reachable e0 (e, r) -> route_generation e < umax 64 ->
request_ok host path port ->
(find_proxy_in_epoch r e host path port tls).1
= fresh_lookup (route_table e) (gateway_listener_admission e) host path port tls.
Proof.
intros H0 Hr Hlt Hreq. destruct (route_reachable_inv e0 (e, r) H0 Hr) as [Ht Hv]. simpl in *.
unfold find_proxy_in_epoch, find_proxy_with_admission, fresh_lookup.
destruct (match port with Some _ => _ | None => _ end); [done|].
destruct (cache_hit _ _ _ _) as [res|] eqn:E; [|done]. simpl. symmetry.
apply (cache_hit_current e r _ _ port tls res Ht (Hv Hlt)); [by apply request_ok_normalize|done].
Qed.
End Transparency.

(** ** A concrete gateway: one route scoped to the listener on port 80 *)

Definition api_table : HostRouteTable := sample_table [api_route].
Definition api_match : RouteMatch := plain_match (sample_proxy (bs "/api") (Some 80)) 4.

Lemma api_index k cs c :
  catch_all api_table !! k = Some cs -> c ∈ cs -> k = bs "/api" /\ c = entry_candidate api_route.
Proof.
  change (catch_all api_table) with (<[bs "/api" := [entry_candidate api_route]]> (∅ : path_index)).
  rewrite lookup_insert_Some. intros [[<- <-]|[_ H]]; [|by rewrite lookup_empty in H].
  by intros ->%list_elem_of_singleton.
Qed.

Lemma api_in_table c : in_table api_table c -> c = entry_candidate api_route.
Proof.
  assert (Hempty : forall c0, ~ in_index ∅ c0).
  { intros c0 (k & cs & E & _). by rewrite lookup_empty in E. }
  destruct 1 as [? ? E|? ? E|? ? E|? ? E|E|E|? ? E|? ? E|E|? ? E|? ? E]; simpl in *;
    try (by rewrite lookup_empty in E); try (by apply not_elem_of_nil in E).
  - by destruct (Hempty c).
  - destruct E as (k & cs & Ek & Hc). by destruct (api_index k cs c Ek Hc).
  - destruct E as (? & E & _). by apply not_elem_of_nil in E.
Qed.

Lemma api_table_ok : table_ok api_table.
Proof.
  constructor.
  - intros c ->%api_in_table. reflexivity.
  - intros m [[h E]|[[h E]| ->]] k cs c Hk.
    + simpl in E; by rewrite lookup_empty in E.
    + simpl in E; by apply not_elem_of_nil in E.
    + simpl in Hk; by rewrite lookup_empty in Hk.
  - intros m [[h E]|[[h E]| ->]] k cs c Hk Hc.
    + simpl in E; by rewrite lookup_empty in E.
    + simpl in E; by apply not_elem_of_nil in E.
    + destruct (api_index k cs c Hk Hc) as [-> ->]. reflexivity.
  - intros r c [[h E]|[[h E]| ->]] Hc.
    + simpl in E; by rewrite lookup_empty in E.
    + simpl in E; by apply not_elem_of_nil in E.
    + destruct Hc as (e & E & _). simpl in E; by apply not_elem_of_nil in E.
  - intros cs c [[h E]|[h E]].
    + simpl in E; by rewrite lookup_empty in E.
    + simpl in E; by apply not_elem_of_nil in E.
  - by repeat split.
  - repeat split; constructor.
Qed.

Definition boot_epoch : RequestEpoch := {|
  route_table := api_table; config_identity := 7; config_generation := 1; route_generation := 1;
  gateway_listener_admission := pending_admission;
|}.

Definition admitted_epoch : RequestEpoch :=
  default boot_epoch (publish_gateway_listener_admission boot_epoch boot_epoch (decided ∅)).

(** After the listener is admitted, the lookup of a scoped route hits or misses
    the cache with one result. *)
Lemma route_cache_transparent_witness :
  (find_proxy_in_epoch (Heng := literal_engine) empty_router admitted_epoch None (bs "/api/v1")
     (Some 80) false).1 = Some api_match.
Proof.
  rewrite (route_cache_transparent (Heng := literal_engine) (Hlaws := literal_engine_laws)
    boot_epoch admitted_epoch empty_router None (bs "/api/v1") (Some 80) false api_table_ok).
  - vm_compute. reflexivity.
  - eapply route_reachable_step; [apply route_reachable_init|].
    apply (step_publish_admission _ _ boot_epoch ∅). vm_compute. reflexivity.
  - vm_compute. reflexivity.
  - split_and!; [set_solver| |unfold in_width; lia]. vm_compute. set_solver.
Defined.

(** Epochs that share a route generation are not interchangeable: after a
    reload that leaves the routes alone, the admission is pending under the old
    generation, and a lookup in the new epoch caches a miss; a request still
    holding the previous, admitted epoch then reads that miss, though its own
    table and admission serve the route. *)
Theorem stale_epoch_reads_pending_miss :
  let reloaded := update_config admitted_epoch {| staged_config := 8; new_route_table := None |} in
  let '(_, r) := find_proxy_in_epoch (Heng := literal_engine) empty_router reloaded None (bs "/api")
                   (Some 80) false in
  route_generation reloaded = route_generation admitted_epoch
  /\ (find_proxy_in_epoch (Heng := literal_engine) r admitted_epoch None (bs "/api") (Some 80) false).1
     = None
  /\ fresh_lookup (Heng := literal_engine) (route_table admitted_epoch)
       (gateway_listener_admission admitted_epoch) None (bs "/api") (Some 80) false = Some api_match.
Proof. vm_compute. repeat split. Qed.
