(* ===== verification/HealthBitset.v ===== *)
(** * The candidate bitset of the balancers ([src/src/load_balancer.rs])

    [HealthBitset]: up to 128 targets as a [u128] with a cached population
    count. The theorems say that every constructor keeps the count exact and
    denotes the intended set, and that the bit tricks ([x & (x - 1)],
    [trailing_zeros]) enumerate the members in ascending order. *)

From S2P Require Import Prelude.
From Stdlib Require Import Sorted.
Open Scope Z_scope.

Definition MAX_BITSET_TARGETS : Z := 128.

(** ** [u128] primitives of the standard library *)

Fixpoint pos_trailing_zeros (p : positive) : nat :=
  match p with
  | xO p => S (pos_trailing_zeros p)
  | _ => O
  end.

Definition trailing_zeros (x : Z) : nat :=
  match x with Zpos p => pos_trailing_zeros p | _ => 128%nat end.

Fixpoint pos_count_ones (p : positive) : Z :=
  match p with
  | xH => 1
  | xO p => pos_count_ones p
  | xI p => 1 + pos_count_ones p
  end.

Definition count_ones (x : Z) : Z :=
  match x with Zpos p => pos_count_ones p | _ => 0 end.

(** [1u128 << idx]: an optimised build masks the shift amount to seven bits. *)
Definition bit (idx : nat) : Z := Z.shiftl 1 (Z.of_nat idx mod 128).

(** ** The structure *)

Record HealthBitset := { bits : Z; len : Z }.

Definition all (n : nat) : HealthBitset :=
  {| bits := if (128 <=? n)%nat then umax 128 else if (n =? 0)%nat then 0 else bit n - 1;
     len := wrap 8 (Z.of_nat n) |}.

Definition empty_bitset : HealthBitset := {| bits := 0; len := 0 |}.

Definition set (h : HealthBitset) (idx : nat) : HealthBitset :=
  {| bits := Z.lor (bits h) (bit idx); len := wrapping_add 8 (len h) 1 |}.

Definition contains (h : HealthBitset) (idx : nat) : bool :=
  negb (Z.land (bits h) (bit idx) =? 0).

Definition clear (h : HealthBitset) (idx : nat) : HealthBitset :=
  if contains h idx then {| bits := Z.ldiff (bits h) (bit idx); len := wrap 8 (len h - 1) |}
  else h.

Definition count (h : HealthBitset) : Z := len h.
Definition is_empty (h : HealthBitset) : bool := len h =? 0.
Definition is_all (h : HealthBitset) (total : nat) : bool := len h =? Z.of_nat total.

(** [remaining &= remaining - 1], with [u128] wrap-around at zero. *)
Definition clear_lowest (r : Z) : Z := Z.land r (wrap 128 (r - 1)).

(** [None]: the remainder by a zero count panics. *)
Definition nth_set_bit (h : HealthBitset) (n : Z) : option nat :=
  if len h =? 0 then None
  else Some (trailing_zeros (Nat.iter (Z.to_nat (n mod len h)) clear_lowest (bits h))).

Definition from_bits (b : Z) : HealthBitset := {| bits := b; len := wrap 8 (count_ones b) |}.

Definition intersect (h other : HealthBitset) : HealthBitset :=
  from_bits (Z.land (bits h) (bits other)).

(** [while remaining != 0]; each round clears a bit, so 128 rounds suffice
    ([for_each_set_bit_spec]). *)
Fixpoint for_each_loop {S} (fuel : nat) (f : S -> nat -> S) (remaining : Z) (s : S) : S :=
  match fuel with
  | O => s
  | Datatypes.S fuel =>
    if remaining =? 0 then s
    else for_each_loop fuel f (clear_lowest remaining) (f s (trailing_zeros remaining))
  end.

Definition for_each_set_bit {S} (h : HealthBitset) (f : S -> nat -> S) (s : S) : S :=
  for_each_loop 129 f (bits h) s.

Definition bitset_for_indices (indices : list nat) : HealthBitset :=
  foldl (fun b idx => if Z.of_nat idx <? MAX_BITSET_TARGETS then set b idx else b)
    empty_bitset indices.

Example bitset_runs :
  let h := bitset_for_indices [5; 1; 127; 64]%nat in
  for_each_set_bit h (fun l i => l ++ [i]) [] = [1; 5; 64; 127]%nat
  /\ map (nth_set_bit h) [0; 1; 2; 3; 4; 7] = map Some [1; 5; 64; 127; 1; 127]%nat
  /\ all 128 = from_bits (umax 128).
Proof. vm_compute. repeat split. Qed.

(** ** The members, in ascending order *)

Fixpoint pos_members (p : positive) (i : nat) : list nat :=
  match p with
  | xH => [i]
  | xO p => pos_members p (S i)
  | xI p => i :: pos_members p (S i)
  end.

Definition members (x : Z) : list nat :=
  match x with Zpos p => pos_members p 0 | _ => [] end.

Lemma pos_members_shift p : forall i, pos_members p (S i) = map S (pos_members p i).
Proof. induction p as [p IH|p IH|]; intros i; simpl; [by rewrite IH|by rewrite IH|done]. Qed.

Lemma members_even p : members (2 * Z.pos p) = map S (members (Z.pos p)).
Proof. apply pos_members_shift. Qed.

Lemma members_odd x : 0 <= x -> members (2 * x + 1) = 0%nat :: map S (members x).
Proof. destruct x; [done| |lia]. intros _. simpl. by rewrite pos_members_shift. Qed.

Lemma members_double x : 0 <= x -> members (2 * x) = map S (members x).
Proof. destruct x; [done| |lia]. intros _. apply members_even. Qed.

(** Induction on the binary digits. *)
Lemma binary_ind (P : Z -> Prop) :
  P 0 -> (forall x, 0 < x -> P x -> P (2 * x)) -> (forall x, 0 <= x -> P x -> P (2 * x + 1)) ->
  forall x, 0 <= x -> P x.
Proof.
  intros H0 He Ho. destruct x as [|p|p]; [done| |lia]. intros _. induction p as [p IH|p IH|].
  - apply (Ho (Z.pos p)); [lia|done].
  - apply (He (Z.pos p)); [lia|done].
  - by apply (Ho 0).
Qed.

Lemma members_spec x : 0 <= x -> forall i, i ∈ members x <-> Z.testbit x (Z.of_nat i) = true.
Proof.
  revert x. apply (binary_ind (fun x => forall i, i ∈ members x <-> Z.testbit x (Z.of_nat i) = true)).
  - intros i. rewrite Z.testbit_0_l. split; [by intros ?%elem_of_nil|done].
  - intros x Hx IH i. rewrite members_double, list_elem_of_fmap by lia. destruct i as [|i].
    + rewrite Z.testbit_even_0. split; [by intros (? & ? & _)|done].
    + rewrite Nat2Z.inj_succ, Z.testbit_even_succ, <- IH by lia. naive_solver.
  - intros x Hx IH i. rewrite members_odd, elem_of_cons, list_elem_of_fmap by lia. destruct i as [|i].
    + rewrite Z.testbit_odd_0. naive_solver.
    + rewrite Nat2Z.inj_succ, Z.testbit_odd_succ, <- IH by lia. naive_solver.
Qed.

Lemma members_sorted x : 0 <= x -> StronglySorted lt (members x).
Proof.
  assert (Hmap : forall l, StronglySorted lt l -> StronglySorted lt (map S l)).
  { induction 1 as [|a l Hs IH HF]; simpl; constructor; [done|]. apply Forall_map.
    eapply Forall_impl; [exact HF|]. simpl; lia. }
  revert x. apply binary_ind; [constructor| |].
  - intros x Hx IH. rewrite members_double by lia. by apply Hmap.
  - intros x Hx IH. rewrite members_odd by lia. constructor; [by apply Hmap|].
    apply Forall_map, Forall_forall. simpl; lia.
Qed.

Lemma members_NoDup x : 0 <= x -> NoDup (members x).
Proof.
  intros Hx. assert (H := members_sorted x Hx). induction H as [|a l Hs IH HF]; constructor; [|done].
  intros Hin. rewrite Forall_forall in HF. specialize (HF a Hin). lia.
Qed.

(** A strictly ascending list is determined by its members. *)
Lemma sorted_ext (l k : list nat) :
  StronglySorted lt l -> StronglySorted lt k -> (forall i, i ∈ l <-> i ∈ k) -> l = k.
Proof.
  intros Hl. revert k. induction Hl as [|a l Hl IH HF]; intros k Hk He.
  { destruct k as [|b k]; [done|]. exfalso. assert (b ∈ []) by (apply He, list_elem_of_here).
    by eapply elem_of_nil. }
  destruct Hk as [|b k Hk HF'].
  { exfalso. assert (a ∈ []) by (apply He, list_elem_of_here). by eapply elem_of_nil. }
  rewrite Forall_forall in HF, HF'.
  assert (a = b) as ->.
  { destruct (decide (a = b)) as [|Hne]; [done|]. exfalso.
    assert (Ha : a ∈ b :: k) by (apply He, list_elem_of_here).
    assert (Hb : b ∈ a :: l) by (apply He, list_elem_of_here).
    apply elem_of_cons in Ha as [?|Ha]; [done|]. apply elem_of_cons in Hb as [?|Hb]; [done|].
    specialize (HF b Hb). specialize (HF' a Ha). lia. }
  f_equal. apply IH; [done|]. intros i. specialize (He i). rewrite !elem_of_cons in He. split; intros Hi.
  - destruct (proj1 He (or_intror Hi)) as [->|]; [|done]. specialize (HF b Hi). lia.
  - destruct (proj2 He (or_intror Hi)) as [->|]; [|done]. specialize (HF' b Hi). lia.
Qed.

Lemma count_ones_members x : count_ones x = Z.of_nat (length (members x)).
Proof.
  destruct x as [|p|p]; [done| |done]. simpl. generalize 0%nat.
  induction p as [p IH|p IH|]; intros i; simpl; [rewrite (IH (S i)); lia|apply IH|done].
Qed.

Lemma trailing_zeros_members x : 0 < x -> head (members x) = Some (trailing_zeros x).
Proof.
  destruct x as [|p|p]; [lia| |lia]. intros _. simpl.
  assert (H : forall i, head (pos_members p i) = Some (i + pos_trailing_zeros p)%nat).
  { induction p as [p IH|p IH|]; intros i; simpl; [f_equal; lia|rewrite IH; f_equal; lia|f_equal; lia]. }
  apply H.
Qed.

Lemma members_bound x i : 0 <= x < 2 ^ 128 -> i ∈ members x -> (i < 128)%nat.
Proof.
  intros Hx Hi. apply members_spec in Hi; [|lia]. destruct (Nat.lt_ge_cases i 128) as [|Hge]; [done|].
  rewrite Z.bits_above_log2 in Hi; [done|lia|].
  destruct (Z.eq_dec x 0) as [->|]; [simpl; lia|]. apply Z.log2_lt_pow2; [lia|].
  eapply Z.lt_le_trans; [apply Hx|]. apply Z.pow_le_mono_r; lia.
Qed.

(** ** Clearing the lowest bit *)

Lemma land_pred x : 0 < x -> members (Z.land x (x - 1)) = tail (members x).
Proof.
  intros Hx. assert (Hx0 : 0 <= x) by lia. revert Hx. revert x Hx0.
  apply (binary_ind (fun x => 0 < x -> members (Z.land x (x - 1)) = tail (members x))); [lia| |].
  - intros x Hx IH _. rewrite members_double by lia.
    assert (E : Z.land (2 * x) (2 * x - 1) = 2 * Z.land x (x - 1)).
    { replace (2 * x - 1) with (2 * (x - 1) + 1) by lia. apply Z.bits_inj'. intros n Hn.
      rewrite Z.land_spec. destruct (Z.eq_dec n 0) as [->|].
      - by rewrite !Z.testbit_even_0.
      - replace n with (Z.succ (n - 1)) by lia.
        rewrite !Z.testbit_even_succ, Z.testbit_odd_succ, Z.land_spec by lia. done. }
    rewrite E, members_double, IH by (done || (apply Z.land_nonneg; lia)). by destruct (members x).
  - intros x Hx IH _. rewrite members_odd by lia. simpl.
    replace (2 * x + 1 - 1) with (2 * x) by lia. rewrite <- members_double by lia. f_equal.
    apply Z.bits_inj'. intros n Hn. rewrite Z.land_spec. destruct (Z.eq_dec n 0) as [->|].
    + by rewrite Z.testbit_even_0, andb_false_r.
    + replace n with (Z.succ (n - 1)) by lia.
      rewrite Z.testbit_odd_succ, Z.testbit_even_succ by lia. apply andb_diag.
Qed.

Lemma clear_lowest_spec x :
  0 < x < 2 ^ 128 ->
  members (clear_lowest x) = tail (members x) /\ 0 <= clear_lowest x < 2 ^ 128.
Proof.
  intros Hx. unfold clear_lowest. rewrite wrap_small by (unfold in_width; lia). split; [apply land_pred; lia|].
  assert (0 <= Z.land x (x - 1)) by (apply Z.land_nonneg; lia).
  assert (Z.land x (x - 1) <= x); [|lia]. apply Z.ldiff_le; [lia|]. apply Z.bits_inj'. intros n Hn.
  rewrite Z.ldiff_spec, Z.land_spec, Z.testbit_0_l. by destruct (Z.testbit x n), (Z.testbit (x - 1) n).
Qed.

Lemma members_nil x : 0 <= x -> members x = [] -> x = 0.
Proof.
  intros Hx Hm. destruct (Z.eq_dec x 0) as [|]; [done|].
  assert (H : head (members x) = Some (trailing_zeros x)) by (apply trailing_zeros_members; lia).
  by rewrite Hm in H.
Qed.

Lemma iter_clear_lowest k x :
  0 <= x < 2 ^ 128 -> (k <= length (members x))%nat ->
  members (Nat.iter k clear_lowest x) = drop k (members x)
  /\ 0 <= Nat.iter k clear_lowest x < 2 ^ 128.
Proof.
  intros Hx. induction k as [|k IH]; intros Hk; [by rewrite drop_0|].
  destruct IH as [IH1 IH2]; [lia|]. rewrite Nat.iter_succ.
  assert (Hpos : 0 < Nat.iter k clear_lowest x).
  { destruct (Z.eq_dec (Nat.iter k clear_lowest x) 0) as [E|]; [|lia]. exfalso. rewrite E in IH1. simpl in IH1.
    assert (Hl : length (drop k (members x)) = 0%nat) by (by rewrite <- IH1). rewrite length_drop in Hl. lia. }
  destruct (clear_lowest_spec _ (conj Hpos (proj2 IH2))) as [H1 H2]. split; [|done].
  rewrite H1, IH1. replace (S k) with (k + 1)%nat by lia. rewrite <- drop_drop. by destruct (drop k (members x)).
Qed.

(** ** Well-formedness *)

Record bitset_wf (h : HealthBitset) : Prop := {
  wf_bits : 0 <= bits h < 2 ^ 128;
  wf_len : len h = Z.of_nat (length (members (bits h)));
}.

Abbreviation elements_of h := (members (bits h)).

Lemma length_members_le x : 0 <= x < 2 ^ 128 -> (length (members x) <= 128)%nat.
Proof.
  intros Hx. rewrite <- (length_seq 128 0). apply submseteq_length.
  apply NoDup_submseteq; [apply members_NoDup; lia|].
  intros i Hi. apply elem_of_seq. assert (H := members_bound x i Hx Hi). lia.
Qed.

Lemma from_bits_wf b : 0 <= b < 2 ^ 128 -> bitset_wf (from_bits b).
Proof.
  intros Hb. constructor; [done|]. simpl. rewrite count_ones_members. apply wrap_small.
  assert (H := length_members_le b Hb). unfold in_width. lia.
Qed.

Lemma bit_spec idx : (idx < 128)%nat -> bit idx = 2 ^ Z.of_nat idx.
Proof. intros. unfold bit. rewrite Z.mod_small, Z.shiftl_1_l by lia. done. Qed.

Lemma contains_spec h idx :
  0 <= bits h -> (idx < 128)%nat -> contains h idx = true <-> idx ∈ elements_of h.
Proof.
  intros Hb Hi. rewrite members_spec by done. unfold contains. rewrite bit_spec by done.
  rewrite negb_true_iff, Z.eqb_neq. split.
  - intros Hne. destruct (Z.testbit (bits h) (Z.of_nat idx)) eqn:E; [done|]. exfalso. apply Hne.
    apply Z.bits_inj'. intros n Hn. rewrite Z.land_spec, Z.pow2_bits_eqb, Z.testbit_0_l by lia.
    destruct (Z.eqb_spec (Z.of_nat idx) n) as [<-|]; [by rewrite E|apply andb_false_r].
  - intros Ht Hz. assert (H : Z.testbit (Z.land (bits h) (2 ^ Z.of_nat idx)) (Z.of_nat idx) = false)
      by (rewrite Hz; apply Z.testbit_0_l).
    rewrite Z.land_spec, Ht, Z.pow2_bits_true in H; [done|lia].
Qed.

(** Two sets that differ by one index differ by one in size. *)
Lemma members_length_insert x y idx :
  0 <= x -> 0 <= y -> idx ∉ members x ->
  (forall i, i ∈ members y <-> i = idx \/ i ∈ members x) ->
  length (members y) = S (length (members x)).
Proof.
  intros Hx Hy Hni He. change (S (length (members x))) with (length (idx :: members x)).
  apply Permutation_length, NoDup_Permutation.
  - by apply members_NoDup.
  - constructor; [done|by apply members_NoDup].
  - intros i. by rewrite elem_of_cons.
Qed.

Lemma set_spec h idx :
  bitset_wf h -> (idx < 128)%nat -> idx ∉ elements_of h ->
  bitset_wf (set h idx) /\ forall i, i ∈ elements_of (set h idx) <-> i = idx \/ i ∈ elements_of h.
Proof.
  intros [Hb Hl] Hi Hni. simpl. rewrite bit_spec by done.
  assert (Hp : 0 < 2 ^ Z.of_nat idx) by (apply Z.pow_pos_nonneg; lia).
  assert (Hnn : 0 <= Z.lor (bits h) (2 ^ Z.of_nat idx)) by (apply Z.lor_nonneg; lia).
  assert (Hmem : forall i, i ∈ members (Z.lor (bits h) (2 ^ Z.of_nat idx)) <-> i = idx \/ i ∈ elements_of h).
  { intros i. rewrite !members_spec, Z.lor_spec, orb_true_iff, Z.pow2_bits_eqb, Z.eqb_eq by lia.
    rewrite Nat2Z.inj_iff. naive_solver. }
  assert (Hlt : Z.lor (bits h) (2 ^ Z.of_nat idx) < 2 ^ 128).
  { destruct (Z.eq_dec (Z.lor (bits h) (2 ^ Z.of_nat idx)) 0) as [->|]; [done|].
    apply Z.log2_lt_pow2; [lia|]. rewrite Z.log2_lor, Z.log2_pow2 by lia.
    apply Z.max_lub_lt; [|lia]. destruct (Z.eq_dec (bits h) 0) as [->|]; [simpl; lia|].
    apply Z.log2_lt_pow2; lia. }
  split; [|exact Hmem]. unfold set. rewrite bit_spec by done. constructor; [simpl; lia|]. simpl.
  assert (E := members_length_insert (bits h) _ idx (proj1 Hb) Hnn Hni Hmem).
  assert (Hle := length_members_le _ (conj Hnn Hlt)). rewrite E in *. unfold wrapping_add.
  rewrite wrap_small by (unfold in_width; lia). lia.
Qed.

Lemma clear_spec h idx :
  bitset_wf h -> (idx < 128)%nat ->
  bitset_wf (clear h idx) /\ forall i, i ∈ elements_of (clear h idx) <-> i <> idx /\ i ∈ elements_of h.
Proof.
  intros [Hb Hl] Hi. assert (Hc := contains_spec h idx (proj1 Hb) Hi). unfold clear.
  destruct (contains h idx).
  - assert (Hin : idx ∈ elements_of h) by (by apply Hc). simpl. rewrite bit_spec by done.
    assert (Hnn : 0 <= Z.ldiff (bits h) (2 ^ Z.of_nat idx)) by (apply Z.ldiff_nonneg; lia).
    assert (Hmem : forall i, i ∈ members (Z.ldiff (bits h) (2 ^ Z.of_nat idx)) <-> i <> idx /\ i ∈ elements_of h).
    { intros i. rewrite !members_spec, Z.ldiff_spec, andb_true_iff, negb_true_iff, Z.pow2_bits_eqb, Z.eqb_neq by lia.
      rewrite Nat2Z.inj_iff. naive_solver. }
    assert (Hlt : Z.ldiff (bits h) (2 ^ Z.of_nat idx) <= bits h).
    { apply Z.ldiff_le; [lia|]. apply Z.bits_inj'. intros n Hn. rewrite !Z.ldiff_spec, Z.testbit_0_l.
      by destruct (Z.testbit (bits h) n), (Z.testbit (2 ^ Z.of_nat idx) n). }
    split; [|exact Hmem]. constructor; simpl; [lia|].
    assert (E : length (elements_of h) = S (length (members (Z.ldiff (bits h) (2 ^ Z.of_nat idx))))).
    { apply (members_length_insert _ _ idx); [lia|lia| |].
      - intros H. by apply Hmem in H as [? _].
      - intros i. rewrite Hmem. destruct (decide (i = idx)) as [->|]; naive_solver. }
    assert (Hle := length_members_le _ Hb). rewrite wrap_small by (unfold in_width; lia). lia.
  - split; [done|]. intros i. split; [|tauto]. intros Hin. split; [|done]. intros ->.
    apply Hc in Hin. done.
Qed.

Lemma all_spec n :
  (n <= 128)%nat -> bitset_wf (all n) /\ elements_of (all n) = seq 0 n.
Proof.
  intros Hn. assert (Hones : forall k : nat, members (Z.ones (Z.of_nat k)) = seq 0 k).
  { induction k as [|k IH]; [done|]. rewrite Nat2Z.inj_succ.
    replace (Z.ones (Z.succ (Z.of_nat k))) with (2 * Z.ones (Z.of_nat k) + 1)
      by (rewrite !Z.ones_equiv, Z.pow_succ_r by lia; lia).
    rewrite members_odd, IH by (rewrite Z.ones_equiv; assert (0 < 2 ^ Z.of_nat k) by (apply Z.pow_pos_nonneg; lia); lia).
    simpl. by rewrite seq_shift. }
  assert (Eb : bits (all n) = Z.ones (Z.of_nat n)).
  { unfold all. cbn [bits]. rewrite Z.ones_equiv. destruct (Nat.leb_spec 128 n).
    - assert (n = 128%nat) as -> by lia. done.
    - destruct (Nat.eqb_spec n 0) as [->|]; [done|]. rewrite bit_spec by lia. apply Z.sub_1_r. }
  assert (Hp : 0 < 2 ^ Z.of_nat n) by (apply Z.pow_pos_nonneg; lia).
  assert (Hle : 2 ^ Z.of_nat n <= 2 ^ 128) by (apply Z.pow_le_mono_r; lia).
  rewrite Eb, Hones. split; [|done]. constructor; rewrite Eb.
  - rewrite Z.ones_equiv. lia.
  - rewrite Hones, length_seq. simpl. apply wrap_small. unfold in_width. lia.
Qed.

Lemma intersect_spec h k :
  bitset_wf h -> bitset_wf k ->
  bitset_wf (intersect h k)
  /\ forall i, i ∈ elements_of (intersect h k) <-> i ∈ elements_of h /\ i ∈ elements_of k.
Proof.
  intros [Hh _] [Hk _]. assert (Hnn : 0 <= Z.land (bits h) (bits k)) by (apply Z.land_nonneg; lia). split.
  - apply from_bits_wf. split; [done|].
    assert (Z.land (bits h) (bits k) <= bits h); [|lia]. apply Z.ldiff_le; [lia|]. apply Z.bits_inj'.
    intros n Hn. rewrite Z.ldiff_spec, Z.land_spec, Z.testbit_0_l.
    by destruct (Z.testbit (bits h) n), (Z.testbit (bits k) n).
  - intros i. simpl. rewrite !members_spec, Z.land_spec, andb_true_iff by lia. done.
Qed.

Lemma bitset_for_indices_spec indices :
  NoDup indices -> Forall (fun i => i < 128)%nat indices ->
  bitset_wf (bitset_for_indices indices)
  /\ forall i, i ∈ elements_of (bitset_for_indices indices) <-> i ∈ indices.
Proof.
  unfold bitset_for_indices.
  assert (H : forall l b, NoDup l -> Forall (fun i => i < 128)%nat l -> bitset_wf b ->
    (forall i, i ∈ l -> i ∉ elements_of b) ->
    let r := foldl (fun b idx => if Z.of_nat idx <? MAX_BITSET_TARGETS then set b idx else b) b l in
    bitset_wf r /\ forall i, i ∈ elements_of r <-> i ∈ elements_of b \/ i ∈ l).
  { induction l as [|a l IH]; intros b Hnd HF Hb Hdis; simpl.
    { split; [done|]. intros i. rewrite elem_of_nil. tauto. }
    apply NoDup_cons in Hnd as [Ha Hnd]. apply Forall_cons in HF as [Ha' HF].
    rewrite (proj2 (Z.ltb_lt _ _)) by (unfold MAX_BITSET_TARGETS; lia).
    destruct (set_spec b a Hb Ha' (Hdis a (list_elem_of_here _ _))) as [Hw Hm].
    destruct (IH (set b a) Hnd HF Hw) as [Hw' Hm'].
    { intros i Hi Hin. apply Hm in Hin as [->|Hin]; [done|]. apply (Hdis i); [|done].
      by apply list_elem_of_further. }
    split; [done|]. intros i. rewrite Hm', Hm, elem_of_cons. tauto. }
  intros Hnd HF. destruct (H indices empty_bitset Hnd HF) as [Hw Hm].
  - by constructor.
  - intros i _. apply not_elem_of_nil.
  - split; [done|]. intros i. rewrite Hm. simpl. rewrite elem_of_nil. tauto.
Qed.

(** ** Enumeration *)

Lemma for_each_set_bit_spec {S} (h : HealthBitset) (f : S -> nat -> S) s :
  bitset_wf h -> for_each_set_bit h f s = foldl f s (elements_of h).
Proof.
  intros [Hb _]. unfold for_each_set_bit. assert (Hl := length_members_le _ Hb).
  assert (Hl' : (length (elements_of h) < 129)%nat) by lia. clear Hl. revert Hb Hl' s.
  generalize (bits h). induction (129)%nat as [|fuel IH]; intros x Hx Hl s; [lia|].
  cbn [for_each_loop]. destruct (Z.eqb_spec x 0) as [->|Hne]; [done|].
  destruct (clear_lowest_spec x) as [H1 H2]; [lia|].
  assert (Hh : head (members x) = Some (trailing_zeros x)) by (apply trailing_zeros_members; lia).
  destruct (members x) as [|a l]; [done|]. injection Hh as ->. simpl in *.
  rewrite IH, H1; [done|done|rewrite H1; lia].
Qed.

Lemma nth_set_bit_spec h n :
  bitset_wf h -> elements_of h <> [] -> 0 <= n ->
  nth_set_bit h n = elements_of h !! Z.to_nat (n mod Z.of_nat (length (elements_of h)))
  /\ is_Some (nth_set_bit h n).
Proof.
  intros [Hb Hl] Hne Hn. unfold nth_set_bit. rewrite Hl.
  assert (Hpos : (0 < length (elements_of h))%nat) by (destruct (elements_of h); simpl; [done|lia]).
  rewrite (proj2 (Z.eqb_neq _ _)) by lia.
  assert (Hmod := Z.mod_pos_bound n (Z.of_nat (length (elements_of h)))).
  set (k := Z.to_nat (n mod Z.of_nat (length (elements_of h)))).
  assert (Hk : (k < length (elements_of h))%nat) by (subst k; lia).
  destruct (iter_clear_lowest k (bits h) Hb) as [H1 H2]; [lia|]. split; [|by eexists].
  assert (Hx : 0 < Nat.iter k clear_lowest (bits h)).
  { destruct (Z.eq_dec (Nat.iter k clear_lowest (bits h)) 0) as [E|]; [|lia]. exfalso. rewrite E in H1.
    simpl in H1. assert (Hd : length (drop k (elements_of h)) = 0%nat) by (by rewrite <- H1).
    rewrite length_drop in Hd. lia. }
  rewrite <- (trailing_zeros_members _ Hx), H1, <- (Nat.add_0_r k), <- lookup_drop, Nat.add_0_r.
  by destruct (drop k (elements_of h)).
Qed.

(** ** The properties *)

(** The bitset denotes the set it is meant to: every constructor and update
    keeps the cached count equal to the number of members, and the members are
    the first [n] targets, the intersection, the set without or with an index,
    or the listed indices. *)
Theorem bitset_ops_exact h k idx indices n :
  bitset_wf h -> bitset_wf k -> (idx < 128)%nat -> (n <= 128)%nat ->
  NoDup indices -> Forall (fun i => i < 128)%nat indices ->
  (bitset_wf (all n) /\ elements_of (all n) = seq 0 n /\ is_all (all n) n = true)
  /\ (contains h idx = true <-> idx ∈ elements_of h)
  /\ (is_empty h = true <-> elements_of h = [])
  /\ (bitset_wf (intersect h k)
      /\ forall i, i ∈ elements_of (intersect h k) <-> i ∈ elements_of h /\ i ∈ elements_of k)
  /\ (bitset_wf (clear h idx)
      /\ forall i, i ∈ elements_of (clear h idx) <-> i <> idx /\ i ∈ elements_of h)
  /\ (contains h idx = false ->
      bitset_wf (set h idx)
      /\ forall i, i ∈ elements_of (set h idx) <-> i = idx \/ i ∈ elements_of h)
  /\ (bitset_wf (bitset_for_indices indices)
      /\ forall i, i ∈ elements_of (bitset_for_indices indices) <-> i ∈ indices).
Proof.
  intros Hh Hk Hi Hn Hnd HF. destruct (all_spec n Hn) as [Hall Eall].
  assert (Hc := contains_spec h idx (proj1 (wf_bits h Hh)) Hi). split_and!; try done.
  - unfold is_all. rewrite (wf_len _ Hall), Eall, length_seq. apply Z.eqb_refl.
  - unfold is_empty. rewrite (wf_len h Hh), Z.eqb_eq. destruct (elements_of h); simpl; split; (done || lia).
  - by apply intersect_spec.
  - by apply intersect_spec.
  - by apply clear_spec.
  - by apply clear_spec.
  - intros Hf. apply set_spec; [done..|]. intros Hin%Hc. congruence.
  - by apply bitset_for_indices_spec.
  - by apply bitset_for_indices_spec.
Qed.

Lemma bitset_ops_exact_witness : is_all (all 128) 128 = true.
Proof.
  apply (bitset_ops_exact (from_bits 5) (from_bits 4) 7 [3; 9]%nat 128).
  - by apply from_bits_wf.
  - by apply from_bits_wf.
  - lia.
  - lia.
  - apply (bool_decide_unpack _). vm_compute. exact I.
  - repeat constructor; lia.
Defined.

(** Round robin over a bitset is fair and total: [for_each_set_bit] visits
    the members once each in ascending order, every ticket selects a member,
    and any run of as many consecutive tickets as there are members selects
    each member exactly once. *)
Theorem nth_set_bit_cycle h t :
  bitset_wf h -> is_empty h = false -> 0 <= t ->
  for_each_set_bit h (fun l i => l ++ [i]) [] = elements_of h
  /\ StronglySorted lt (elements_of h)
  /\ map (fun k => nth_set_bit h (t + Z.of_nat k)) (seq 0 (Z.to_nat (count h)))
     ≡ₚ map Some (elements_of h).
Proof.
  intros Hh He Ht. assert (Hne : elements_of h <> []).
  { intros E. unfold is_empty in He. rewrite (wf_len h Hh), E in He. done. }
  split_and!.
  - rewrite for_each_set_bit_spec, foldl_snoc by done. done.
  - apply members_sorted, (wf_bits h Hh).
  - unfold count. rewrite (wf_len h Hh), Nat2Z.id, <- (cyclic_window (elements_of h) t). apply reflexive_eq.
    apply map_ext. intros k. apply nth_set_bit_spec; [done..|lia].
Qed.

Lemma nth_set_bit_cycle_witness :
  map (fun k => nth_set_bit (from_bits 38) (7 + Z.of_nat k)) (seq 0 3) ≡ₚ map Some [1; 2; 5]%nat.
Proof.
  apply (nth_set_bit_cycle (from_bits 38) 7).
  - by apply from_bits_wf.
  - reflexivity.
  - lia.
Defined.
