(* ===== verification/SmoothWrr.v ===== *)
(** * Smooth weighted round-robin schedules ([src/src/load_balancer.rs])

    [build_smooth_wrr_order]: weights are divided by their gcd, a period that is
    too long is apportioned by largest remainders, and the NGINX loop emits one
    period of target indices. The theorems say that one period serves every
    target exactly its (bounded) weight, that no target is ever a full pick
    ahead of its share, and that apportioning starves no target and misses the
    exact share by less than one slot. *)

From S2P Require Import Prelude HealthBitset.
From stdpp Require Import sorting.
Open Scope Z_scope.

Definition WRR_MAX_SCHEDULE_LEN : Z := 8192.
Definition WRR_SMOOTH_BUILD_MAX_WORK : Z := WRR_MAX_SCHEDULE_LEN * MAX_BITSET_TARGETS.

(** ** Greatest common divisor *)

(** The [while b != 0] loop; two rounds halve [b], so 66 rounds are enough for
    32-bit arguments ([wrr_gcd_spec]). *)
Fixpoint wrr_gcd_loop (fuel : nat) (a b : Z) : Z :=
  match fuel with
  | O => a
  | S fuel => if b =? 0 then a else wrr_gcd_loop fuel b (a mod b)
  end.

Definition wrr_gcd (a b : Z) : Z := wrr_gcd_loop 66 a b.

Lemma wrr_gcd_loop_spec k : forall fuel a b,
  0 <= a -> 0 <= b < 2 ^ Z.of_nat k -> (2 * k + 1 <= fuel)%nat ->
  wrr_gcd_loop fuel a b = Z.gcd a b.
Proof.
  induction k as [|k IH]; intros fuel a b Ha Hb Hf.
  { assert (b = 0) as -> by (simpl in Hb; lia). destruct fuel; [lia|]. simpl.
    rewrite Z.gcd_0_r, Z.abs_eq; lia. }
  rewrite Nat2Z.inj_succ, Z.pow_succ_r in Hb by lia.
  destruct fuel as [|[|fuel]]; try lia. cbn [wrr_gcd_loop].
  destruct (Z.eqb_spec b 0) as [->|Hb0]; [rewrite Z.gcd_0_r, Z.abs_eq; lia|].
  assert (Hr := Z.mod_pos_bound a b). set (r := a mod b) in *.
  assert (Eg : Z.gcd a b = Z.gcd b r).
  { rewrite (Z.gcd_comm b r). unfold r. rewrite Z.gcd_mod by lia. apply Z.gcd_comm. }
  destruct (Z.eqb_spec r 0) as [Er|Hr0].
  { rewrite Eg, Er, Z.gcd_0_r, Z.abs_eq; lia. }
  rewrite IH; [|lia| |lia].
  - rewrite Eg, (Z.gcd_comm r (b mod r)), Z.gcd_mod by lia. apply Z.gcd_comm.
  - assert (Hbr := Z.mod_pos_bound b r). split; [lia|].
    destruct (Z.lt_ge_cases r (2 ^ Z.of_nat k)); [lia|].
    replace (b mod r) with (b - r); [lia|].
    apply (Z.mod_unique b r 1); lia.
Qed.

Lemma wrr_gcd_spec a b : 0 <= a -> is_u32 b -> wrr_gcd a b = Z.gcd a b.
Proof. intros Ha Hb. apply (wrr_gcd_loop_spec 32); [done|exact Hb|lia]. Qed.

(** ** Apportioning a period *)

Definition list_sum_Z (l : list Z) : Z := foldr Z.add 0 l.

(** Largest remainder first, then original order. *)
Definition remainder_le (a b : nat * Z) : Prop := b.2 < a.2 \/ b.2 = a.2 /\ (a.1 <= b.1)%nat.

#[global] Instance remainder_le_dec a b : Decision (remainder_le a b).
Proof. unfold remainder_le. apply _. Defined.

(** [apportioned[slot].1.saturating_add(1)] on [i64]. *)
Definition bump (w : nat * Z) : nat * Z := (w.1, saturating_add 63 w.2 1).

Definition increment_slots (weights : list (nat * Z)) (slots : list (nat * Z)) : list (nat * Z) :=
  foldl (fun ws sr => alter bump sr.1 ws) weights slots.

Definition bound_wrr_weights (normalized : list (nat * Z)) (total_weight : Z) : list (nat * Z) :=
  let n := Z.of_nat (length normalized) in
  let schedule_len := Z.max WRR_MAX_SCHEDULE_LEN n in
  if total_weight <=? schedule_len then normalized
  else
    let remaining := saturating_sub schedule_len n in
    let denominator := Z.max total_weight 1 in
    let numerator w := saturating_mul 128 w remaining in
    let extra w := Z.min (numerator w / denominator) (umax 64) in
    let apportioned :=
      map (fun iw => (iw.1, Z.min (saturating_add 64 (extra iw.2) 1) (umax 63))) normalized in
    let remainders :=
      imap (fun slot iw => (slot, numerator iw.2 mod denominator)) normalized in
    let assigned := foldl (fun a iw => saturating_add 64 a (extra iw.2)) n normalized in
    let leftover := saturating_sub schedule_len assigned in
    increment_slots apportioned
      (take (Z.to_nat leftover) (merge_sort remainder_le remainders)).

(** ** The NGINX loop *)

Definition i64_min : Z := - 2 ^ 63.
Definition i64_max : Z := 2 ^ 63 - 1.
Definition sat64 (x : Z) : Z := Z.max i64_min (Z.min x i64_max).

(** One pass: add every weight, tracking the first slot of greatest value. *)
Fixpoint add_and_best (weights current : list Z) (slot best_slot : nat) (best_current : Z)
    : list Z * nat :=
  match weights, current with
  | w :: weights, c :: current =>
    let c := sat64 (c + w) in
    let '(best_slot, best_current) :=
      if best_current <? c then (slot, c) else (best_slot, best_current) in
    let '(current, best) := add_and_best weights current (S slot) best_slot best_current in
    (c :: current, best)
  | _, _ => ([], best_slot)
  end.

(** [steps] rounds; the slots picked, in order. *)
Fixpoint smooth_loop (steps : nat) (weights : list Z) (total : Z) (current : list Z) : list nat :=
  match steps with
  | O => []
  | S steps =>
    let '(current, best) := add_and_best weights current 0 0 i64_min in
    let current := alter (fun c => sat64 (c - total)) best current in
    best :: smooth_loop steps weights total current
  end.

Inductive WrrOrderBuild :=
| Smooth (order : list nat)
| ZeroWeight
| LotteryOnly.

Definition positive_gcd (weighted : list (nat * Z)) : Z :=
  foldl (fun gcd iw =>
    if iw.2 =? 0 then gcd else if gcd =? 0 then iw.2 else wrr_gcd gcd iw.2) 0 weighted.

Definition normalize_weights (weighted : list (nat * Z)) (gcd : Z) : list (nat * Z) :=
  map (fun iw => (iw.1, iw.2 / gcd)) (filter (fun iw => 0 < iw.2) weighted).

(** The period and per-slot weights the schedule is built from. *)
Definition bounded_weights (weighted : list (nat * Z)) : list (nat * Z) :=
  let normalized := normalize_weights weighted (positive_gcd weighted) in
  bound_wrr_weights normalized (list_sum_Z (map snd normalized)).

Definition build_smooth_wrr_order (weighted : list (nat * Z)) : WrrOrderBuild :=
  if positive_gcd weighted =? 0 then ZeroWeight
  else
    let bounded := bounded_weights weighted in
    let bounded_total := list_sum_Z (map snd bounded) in
    if bounded_total <=? 0 then ZeroWeight
    else
      match checked_mul 64 bounded_total (Z.of_nat (length bounded)) with
      | Some work =>
        if work <=? WRR_SMOOTH_BUILD_MAX_WORK then
          Smooth (omap (fun slot => fst <$> bounded !! slot)
                    (smooth_loop (Z.to_nat bounded_total) (map snd bounded) bounded_total
                       (replicate (length bounded) 0)))
        else LotteryOnly
      | None => LotteryOnly
      end.

(** The published example of the algorithm: weights 5, 1, 1. *)
Example nginx_example :
  build_smooth_wrr_order [(0%nat, 5); (1%nat, 1); (2%nat, 1)] = Smooth [0; 0; 1; 0; 2; 0; 0]%nat
  /\ build_smooth_wrr_order [(3%nat, 10); (4%nat, 20); (5%nat, 0)] = Smooth [4; 3; 4]%nat
  /\ build_smooth_wrr_order [(3%nat, 0)] = ZeroWeight.
Proof. vm_compute. repeat split. Qed.

(** ** Sums *)

Lemma list_sum_app a b : list_sum_Z (a ++ b) = list_sum_Z a + list_sum_Z b.
Proof. unfold list_sum_Z. induction a as [|x a IH]; simpl in *; [lia|]. lia. Qed.

Lemma list_sum_zip_add a b :
  length a = length b -> list_sum_Z (zip_with Z.add a b) = list_sum_Z a + list_sum_Z b.
Proof.
  revert b; induction a as [|x a IH]; intros [|y b] E; simplify_eq/=; [done|]. rewrite IH by done. lia.
Qed.

Lemma list_sum_alter (f : Z -> Z) i l x :
  l !! i = Some x -> list_sum_Z (alter f i l) = list_sum_Z l + f x - x.
Proof.
  revert i; induction l as [|y l IH]; intros [|i] Hi; simplify_eq/=; [lia|]. rewrite (IH _ Hi). lia.
Qed.

Lemma list_sum_le l b : Forall (fun x => x <= b) l -> list_sum_Z l <= Z.of_nat (length l) * b.
Proof. induction 1; simpl; lia. Qed.

Lemma list_sum_ge l b : Forall (fun x => b <= x) l -> Z.of_nat (length l) * b <= list_sum_Z l.
Proof. induction 1; simpl; lia. Qed.

(** An element of a list bounded below is bounded above by the sum. *)
Lemma element_upper l b i x :
  0 <= b -> Forall (fun y => - b <= y) l -> l !! i = Some x ->
  x <= list_sum_Z l + Z.of_nat (length l) * b.
Proof.
  intros Hb HF. revert i; induction HF as [|y l Hy HF IH]; intros [|i] Hi; simplify_eq/=.
  - assert (H := list_sum_ge l (- b) HF). lia.
  - specialize (IH _ Hi). lia.
Qed.

(** ** Picking the greatest *)

Lemma add_and_best_spec ws : forall cs slot bs bc,
  length ws = length cs ->
  let '(cur, best) := add_and_best ws cs slot bs bc in
  cur = zip_with (fun w c => sat64 (c + w)) ws cs
  /\ ((best = bs /\ Forall (fun x => x <= bc) cur)
      \/ exists i m, best = (slot + i)%nat /\ cur !! i = Some m /\ bc < m /\ Forall (fun x => x <= m) cur).
Proof.
  induction ws as [|w ws IH]; intros [|c cs] slot bs bc E; simplify_eq/=; [by split; [|left]|].
  destruct (Z.ltb_spec bc (sat64 (c + w))) as [Hlt|Hge].
  - specialize (IH cs (S slot) slot (sat64 (c + w)) E).
    destruct (add_and_best ws cs (S slot) slot (sat64 (c + w))) as [cur best].
    destruct IH as [-> Hb]. split; [done|]. right. destruct Hb as [[-> Hall]|(i & m & -> & Hi & Hm & Hall)].
    + exists 0%nat, (sat64 (c + w)). split_and!; [lia|done|done|]. by constructor.
    + exists (S i), m. split_and!; [lia|done|lia|]. constructor; [lia|done].
  - specialize (IH cs (S slot) bs bc E).
    destruct (add_and_best ws cs (S slot) bs bc) as [cur best].
    destruct IH as [-> Hb]. split; [done|]. destruct Hb as [[-> Hall]|(i & m & -> & Hi & Hm & Hall)].
    + left. split; [done|]. by constructor.
    + right. exists (S i), m. split_and!; [lia|done|lia|]. constructor; [lia|done].
Qed.

Lemma multiple_above W d : 1 <= W -> - W < W * d -> 0 <= d.
Proof. intros. destruct (Z.lt_ge_cases d 0); [|done]. nia. Qed.

(** ** The loop invariant *)

Definition picks (i : nat) (p : list nat) : Z := Z.of_nat (length (filter (fun j => j = i) p)).

Lemma picks_app i p q : picks i (p ++ q) = picks i p + picks i q.
Proof. unfold picks. rewrite filter_app, length_app. lia. Qed.

Lemma picks_one i j : picks i [j] = if decide (j = i) then 1 else 0.
Proof. unfold picks. rewrite filter_cons. by destruct (decide (j = i)). Qed.

Section Loop.
Context (ws : list Z) (W : Z).
Hypothesis Hpos : Forall (fun w => 1 <= w) ws.
Hypothesis HW : W = list_sum_Z ws.
Hypothesis Hne : ws <> [].
Hypothesis Hwork : W * Z.of_nat (length ws) <= WRR_SMOOTH_BUILD_MAX_WORK.

Record smooth_inv (t : Z) (p : list nat) (cs : list Z) : Prop := {
inv_len : length cs = length ws;
inv_value : forall i w, ws !! i = Some w -> cs !! i = Some (t * w - W * picks i p);
inv_low : Forall (fun c => - W < c) cs;
inv_sum : list_sum_Z cs = 0;
inv_slots : Forall (fun j => j < length ws)%nat p;
}.

Lemma weight_le i w : ws !! i = Some w -> 1 <= w <= W.
Proof.
intros Hi. split; [by eapply (Forall_lookup_1 (fun w => 1 <= w))|].
rewrite HW. assert (H := element_upper ws 0 i w (Z.le_refl 0)). rewrite Z.mul_0_r, Z.add_0_r in H.
apply H; [|done]. eapply Forall_impl; [exact Hpos|]. simpl; lia.
Qed.

Lemma W_bounds : 1 <= W /\ W <= WRR_SMOOTH_BUILD_MAX_WORK.
Proof.
assert (Hlen : (0 < length ws)%nat) by (clear -Hne; destruct ws; simpl; [done|lia]).
destruct (lookup_lt_is_Some_2 ws 0 Hlen) as [w Hw]. assert (Hb := weight_le 0 w Hw).
split; [lia|]. nia.
Qed.

Lemma no_saturation t p cs :
smooth_inv t p cs ->
zip_with (fun w c => sat64 (c + w)) ws cs = zip_with Z.add cs ws.
Proof.
intros [Hl Hv Hlow Hsum _]. assert (HWb := W_bounds). apply list_eq. intros i.
rewrite !lookup_zip_with.
destruct (ws !! i) as [w|] eqn:Ew; [|by destruct (cs !! i)]. simpl.
destruct (cs !! i) as [c|] eqn:Ec; [|done]. simpl. f_equal.
assert (Hw := weight_le i w Ew).
assert (Hlo : - W < c) by (by eapply (Forall_lookup_1 (fun c => - W < c))).
assert (Hup : c <= list_sum_Z cs + Z.of_nat (length cs) * W).
{ apply (element_upper cs W i c); [lia| |done]. eapply Forall_impl; [exact Hlow|]. simpl; lia. }
rewrite Hsum, Hl in Hup. unfold sat64, i64_min, i64_max.
change WRR_SMOOTH_BUILD_MAX_WORK with (2 ^ 20) in *. lia.
Qed.

Lemma smooth_round t p cs :
smooth_inv t p cs ->
let '(cur, best) := add_and_best ws cs 0 0 i64_min in
smooth_inv (t + 1) (p ++ [best]) (alter (fun c => sat64 (c - W)) best cur).
Proof.
intros Hinv. assert (Hns := no_saturation t p cs Hinv). destruct Hinv as [Hl Hv Hlow Hsum Hslots].
assert (HWb := W_bounds). assert (Hs := add_and_best_spec ws cs 0 0 i64_min (eq_sym Hl)).
destruct (add_and_best ws cs 0 0 i64_min) as [cur best]. destruct Hs as [Ecur Hbest].
rewrite Hns in Ecur. subst cur.
assert (Hcursum : list_sum_Z (zip_with Z.add cs ws) = W).
{ rewrite list_sum_zip_add by done. lia. }
destruct Hbest as [[_ Hall]|(i & m & -> & Hi & Hm & Hall)].
{ exfalso. apply list_sum_le in Hall. rewrite Hcursum in Hall. unfold i64_min in Hall.
  assert (0 <= Z.of_nat (length (zip_with Z.add cs ws))) by lia. nia. }
simpl. assert (Hm0 : 0 < m).
{ destruct (Z.lt_ge_cases 0 m) as [|Hle]; [done|]. exfalso.
  apply list_sum_le in Hall. rewrite Hcursum in Hall. nia. }
assert (Hmsat : sat64 (m - W) = m - W).
{ unfold sat64, i64_min, i64_max. apply lookup_zip_with_Some in Hi as (c & w & -> & Hc & Hw).
  assert (Hwb := weight_le i w Hw).
  assert (Hup : c <= list_sum_Z cs + Z.of_nat (length cs) * W).
  { apply (element_upper cs W i c); [lia| |done]. eapply Forall_impl; [exact Hlow|]. simpl; lia. }
  rewrite Hsum, Hl in Hup. change WRR_SMOOTH_BUILD_MAX_WORK with (2 ^ 20) in *. lia. }
constructor.
- rewrite length_alter, length_zip_with. lia.
- intros j w Hj. specialize (Hv j w Hj). rewrite picks_app, picks_one.
  assert (Hz : zip_with Z.add cs ws !! j = Some (t * w - W * picks j p + w))
    by (rewrite lookup_zip_with, Hv, Hj; done).
  destruct (decide (i = j)) as [->|Hne'].
  + rewrite list_lookup_alter, Hi, decide_True by done. simpl. rewrite Hmsat. rewrite Hz in Hi. injection Hi as Hi.
    f_equal. rewrite <- Hi. lia.
  + rewrite list_lookup_alter_ne, Hz by done. f_equal. lia.
- apply Forall_lookup_2. intros j x. destruct (decide (i = j)) as [->|Hne'].
  + rewrite list_lookup_alter, Hi, decide_True by done. simpl. intros [= <-]. rewrite Hmsat. lia.
  + rewrite list_lookup_alter_ne by done. intros (c & w & -> & Hc & Hw)%lookup_zip_with_Some.
    assert (Hwb := weight_le j w Hw).
    assert (- W < c) by (by eapply (Forall_lookup_1 (fun c => - W < c))). lia.
- rewrite (list_sum_alter _ _ _ _ Hi), Hmsat, Hcursum. lia.
- apply Forall_app. split; [done|]. apply Forall_singleton.
  apply lookup_lt_Some in Hi. rewrite length_zip_with in Hi. lia.
Qed.

Lemma smooth_loop_inv k : forall t p cs,
smooth_inv t p cs ->
length (smooth_loop k ws W cs) = k
/\ exists cs', smooth_inv (t + Z.of_nat k) (p ++ smooth_loop k ws W cs) cs'.
Proof.
induction k as [|k IH]; intros t p cs Hinv; simpl.
{ split; [done|]. exists cs. by rewrite Z.add_0_r, app_nil_r. }
assert (Hr := smooth_round t p cs Hinv).
destruct (add_and_best ws cs 0 0 i64_min) as [cur best].
destruct (IH _ _ _ Hr) as [Hlen (cs' & Hinv')]. split; [simpl; by rewrite Hlen|].
exists cs'. rewrite <- app_assoc in Hinv'. simpl in Hinv'.
replace (t + Z.of_nat (S k)) with (t + 1 + Z.of_nat k) by lia. done.
Qed.

Lemma smooth_init : smooth_inv 0 [] (replicate (length ws) 0).
Proof.
assert (HWb := W_bounds). constructor.
- by rewrite length_replicate.
- intros i w Hi. rewrite lookup_replicate_2; [f_equal; unfold picks; simpl; lia|].
  by apply lookup_lt_Some in Hi.
- apply Forall_replicate. lia.
- clear. induction (length ws); simpl; [done|]. lia.
- constructor.
Qed.

Definition schedule (k : nat) : list nat := smooth_loop k ws W (replicate (length ws) 0).

Lemma schedule_slots k : Forall (fun j => j < length ws)%nat (schedule k).
Proof. by destruct (smooth_loop_inv k 0 [] _ smooth_init) as [_ (cs' & [_ _ _ _ ?])]. Qed.

Lemma schedule_length k : length (schedule k) = k.
Proof. apply (smooth_loop_inv k 0 [] _ smooth_init). Qed.

Lemma schedule_prefix k n : (k <= n)%nat -> take k (schedule n) = schedule k.
Proof.
unfold schedule. generalize (replicate (length ws) 0). revert n.
induction k as [|k IH]; intros [|n] cs Hle; simpl; [done..|lia|].
destruct (add_and_best ws cs 0 0 i64_min). simpl. f_equal. apply IH. lia.
Qed.

(** No slot is ever a full pick ahead of its share. *)
Lemma schedule_smooth k i w :
ws !! i = Some w -> W * picks i (schedule k) < Z.of_nat k * w + W.
Proof.
intros Hi. destruct (smooth_loop_inv k 0 [] _ smooth_init) as [_ (cs' & [_ Hv Hlow _ _])].
simpl in Hv. rewrite Z.add_0_l in Hv. specialize (Hv i w Hi).
assert (- W < Z.of_nat k * w - W * picks i (schedule k))
  by (by eapply (Forall_lookup_1 (fun c => - W < c))). lia.
Qed.

(** One period serves every slot exactly its weight. *)
Lemma schedule_exact i w : ws !! i = Some w -> picks i (schedule (Z.to_nat W)) = w.
Proof.
intros Hi. assert (HWb := W_bounds).
destruct (smooth_loop_inv (Z.to_nat W) 0 [] _ smooth_init) as [_ (cs' & [Hl Hv Hlow Hsum _])].
rewrite Z.add_0_l, Z2Nat.id in Hv by lia. simpl in Hv. fold (schedule (Z.to_nat W)) in Hv.
assert (Hge : Forall (fun c => 0 <= c) cs').
{ apply Forall_lookup_2. intros j c Hc.
  destruct (lookup_lt_is_Some_2 ws j) as [wj Hj]; [rewrite <- Hl; by eapply lookup_lt_Some|].
  rewrite (Hv j wj Hj) in Hc. injection Hc as <-.
  assert (- W < W * wj - W * picks j (schedule (Z.to_nat W)))
    by (eapply (Forall_lookup_1 (fun c => - W < c)); [exact Hlow|by apply Hv]).
  rewrite <- Z.mul_sub_distr_l in *.
  assert (0 <= wj - picks j (schedule (Z.to_nat W))) by (apply (multiple_above W); lia). nia. }
assert (Hle : W * w - W * picks i (schedule (Z.to_nat W)) <= list_sum_Z cs' + Z.of_nat (length cs') * 0).
{ apply (element_upper cs' 0 i); [lia|exact Hge|by apply Hv]. }
assert (0 <= W * w - W * picks i (schedule (Z.to_nat W)))
  by (eapply (Forall_lookup_1 (fun c => 0 <= c)); [exact Hge|by apply Hv]).
rewrite Hsum in Hle. nia.
Qed.
End Loop.

(** ** Apportioning *)

Lemma alter_bump s x w ws :
  ws !! s = Some (x, w) -> w < umax 63 ->
  map fst (alter bump s ws) = map fst ws
  /\ list_sum_Z (map snd (alter bump s ws)) = list_sum_Z (map snd ws) + 1
  /\ alter bump s ws !! s = Some (x, w + 1).
Proof.
  revert s; induction ws as [|y ws IH]; intros [|s] Hs Hw; simplify_eq/=.
  - unfold bump, saturating_add; simpl. rewrite Z.min_l by lia. split_and!; [done|lia|done].
  - destruct (IH s Hs Hw) as (H1 & H2 & H3). split_and!; [by f_equal|lia|done].
Qed.

Lemma increment_slots_spec slots : forall ws,
  NoDup (map fst slots) ->
  (forall s, s ∈ map fst slots -> exists w, ws !! s = Some w /\ w.2 < umax 63) ->
  let r := increment_slots ws slots in
  map fst r = map fst ws
  /\ list_sum_Z (map snd r) = list_sum_Z (map snd ws) + Z.of_nat (length slots)
  /\ forall i w, ws !! i = Some w ->
       r !! i = Some (w.1, w.2 + if decide (i ∈ map fst slots) then 1 else 0).
Proof.
  induction slots as [|[s rem] slots IH]; intros ws Hnd Hin; cbn [increment_slots foldl map fst].
  { split_and!; [done|simpl; lia|]. intros i [x w] Hi. rewrite decide_False by apply not_elem_of_nil.
    simpl. by rewrite Z.add_0_r. }
  apply NoDup_cons in Hnd as [Hs Hnd].
  destruct (Hin s) as ([x w] & Hw & Hlt); [by apply elem_of_cons; left|].
  destruct (alter_bump s x w ws Hw Hlt) as (H1 & H2 & H3).
  assert (Hother : forall j, j <> s -> alter bump s ws !! j = ws !! j)
    by (intros; by apply list_lookup_alter_ne).
  destruct (IH (alter bump s ws) Hnd) as (I1 & I2 & I3).
  { intros j Hj. rewrite Hother by set_solver. apply Hin. by apply elem_of_cons; right. }
  unfold increment_slots in *.
  split_and!.
  - by rewrite I1.
  - rewrite I2, H2. simpl. lia.
  - intros i wi Hi. destruct (decide (i = s)) as [->|Hne].
    + rewrite (I3 s _ H3), (decide_False (P := s ∈ map fst slots)) by done.
      rewrite decide_True by (by apply elem_of_cons; left). rewrite Hw in Hi. simplify_eq/=.
      by rewrite Z.add_0_r.
    + rewrite (I3 i wi) by (by rewrite Hother). destruct (decide (i ∈ map fst slots)).
      * by rewrite decide_True by (by apply elem_of_cons; right).
      * by rewrite decide_False by (intros [?|?]%elem_of_cons; done).
Qed.

Lemma map_fst_imap {A} (f : A -> Z) (l : list A) :
  map fst (imap (fun slot x => (slot, f x)) l) = seq 0 (length l).
Proof.
  apply list_eq. intros i. rewrite list_lookup_fmap, list_lookup_imap.
  destruct (l !! i) as [x|] eqn:E; simpl.
  - symmetry. apply lookup_seq. split; [done|by eapply lookup_lt_Some].
  - symmetry. apply lookup_ge_None_2. rewrite length_seq. by apply lookup_ge_None_1.
Qed.

Section Bound.
Context (nl : list (nat * Z)) (total : Z).
Hypothesis Hw : Forall (fun iw : nat * Z => 1 <= iw.2 < 2 ^ 32) nl.
Hypothesis Hn : Z.of_nat (length nl) < 2 ^ 32.
Hypothesis Ht : total = list_sum_Z (map snd nl).

Definition schedule_len : Z := Z.max WRR_MAX_SCHEDULE_LEN (Z.of_nat (length nl)).
Notation len := schedule_len.
Notation R := (len - Z.of_nat (length nl)).
Hypothesis Hbig : len < total.

Lemma R_bounds : 0 <= R <= 2 ^ 13.
Proof. unfold schedule_len, WRR_MAX_SCHEDULE_LEN. lia. Qed.

Lemma total_pos : 0 < total.
Proof. revert Hbig. unfold schedule_len, WRR_MAX_SCHEDULE_LEN. lia. Qed.

Lemma weight_total iw : iw ∈ nl -> iw.2 <= total.
Proof.
intros [i Hi]%list_elem_of_lookup_1.
assert (H := element_upper (map snd nl) 0 i iw.2 (Z.le_refl 0)).
rewrite Z.mul_0_r, Z.add_0_r, <- Ht in H. apply H.
- apply Forall_map. eapply Forall_impl; [exact Hw|]. simpl; lia.
- rewrite list_lookup_fmap, Hi. done.
Qed.

Definition share (w : Z) : Z := w * R / total.

Lemma share_bounds iw : iw ∈ nl -> 0 <= share iw.2 <= R.
Proof.
intros Hin. assert (HR := R_bounds). assert (Hp := total_pos). assert (Hwt := weight_total iw Hin).
rewrite Forall_forall in Hw. specialize (Hw iw Hin). unfold share. split.
- apply Z.div_pos; nia.
- apply Z.div_le_upper_bound; nia.
Qed.

Lemma numerator_exact iw : iw ∈ nl -> saturating_mul 128 iw.2 R = iw.2 * R.
Proof.
intros Hin. assert (HR := R_bounds). rewrite Forall_forall in Hw. specialize (Hw iw Hin).
unfold saturating_mul, umax. apply Z.min_l. nia.
Qed.

(** What the largest-remainder method has left over. *)
Lemma leftover_exact :
let shares := map (fun iw => share iw.2) nl in
let rems := map (fun iw => (iw.2 * R) mod total) nl in
total * (R - list_sum_Z shares) = list_sum_Z rems.
Proof.
assert (Hp := total_pos).
assert (H : forall l, list_sum_Z (map snd l) * R
  = total * list_sum_Z (map (fun iw => share iw.2) l)
    + list_sum_Z (map (fun iw : nat * Z => (iw.2 * R) mod total) l)).
{ induction l as [|[x w] l IH]; simpl; [lia|]. unfold share at 1.
  assert (Hdm := Z.div_mod (w * R) total). lia. }
specialize (H nl). rewrite <- Ht in H. simpl. lia.
Qed.

Lemma leftover_bounds :
0 <= R - list_sum_Z (map (fun iw => share iw.2) nl) < Z.of_nat (length nl).
Proof.
assert (Hp := total_pos). assert (He := leftover_exact). simpl in He.
set (L := R - list_sum_Z (map (fun iw => share iw.2) nl)) in *.
set (rems := map (fun iw : nat * Z => (iw.2 * R) mod total) nl) in *.
assert (Hmod : Forall (fun x => 0 <= x <= total - 1) rems).
{ apply Forall_map, Forall_forall. intros iw _. assert (H := Z.mod_pos_bound (iw.2 * R) total). lia. }
assert (H0 := list_sum_ge rems 0). assert (H1 := list_sum_le rems (total - 1)).
assert (Hlen : length rems = length nl) by (subst rems; apply length_map).
assert (0 < Z.of_nat (length nl)).
{ destruct nl; [|simpl; lia]. simpl in Ht. lia. }
assert (0 <= list_sum_Z rems).
{ rewrite Z.mul_0_r in H0. apply H0. eapply Forall_impl; [exact Hmod|]. simpl; lia. }
assert (list_sum_Z rems <= Z.of_nat (length rems) * (total - 1)).
{ apply H1. eapply Forall_impl; [exact Hmod|]. simpl; lia. }
rewrite Hlen in *. nia.
Qed.

Lemma assigned_exact : forall l acc,
(forall iw, iw ∈ l -> iw ∈ nl) -> 0 <= acc ->
acc + list_sum_Z (map (fun iw => share iw.2) l) <= umax 64 ->
foldl (fun a iw => saturating_add 64 a (Z.min (saturating_mul 128 iw.2 R / Z.max total 1) (umax 64)))
  acc l = acc + list_sum_Z (map (fun iw => share iw.2) l).
Proof.
assert (Hp := total_pos). assert (HR := R_bounds). rewrite (Z.max_l total) by lia.
induction l as [|iw l IH]; intros acc Hin Hacc Hle; simpl in *; [lia|].
assert (Hiw : iw ∈ nl) by (apply Hin; by apply elem_of_cons; left).
rewrite numerator_exact by done. fold (share iw.2).
assert (Hs := share_bounds iw Hiw).
assert (Hrest : 0 <= list_sum_Z (map (fun iw => share iw.2) l)).
{ assert (H := list_sum_ge (map (fun iw => share iw.2) l) 0). rewrite Z.mul_0_r in H. apply H.
  apply Forall_map, Forall_forall. intros x Hx. apply share_bounds, Hin. by apply elem_of_cons; right. }
assert (Hstep : saturating_add 64 acc (Z.min (share iw.2) (umax 64)) = acc + share iw.2).
{ unfold saturating_add. rewrite (Z.min_l (share iw.2)) by lia. apply Z.min_l. lia. }
rewrite Hstep, IH; [lia| |lia|lia]. intros x Hx. apply Hin. by apply elem_of_cons; right.
Qed.

(** What [bound_wrr_weights] computes on a period that is too long, with the
  saturations and casts out of the way. *)
Lemma bound_unfold :
bound_wrr_weights nl total
= increment_slots (map (fun iw => (iw.1, 1 + share iw.2)) nl)
    (take (Z.to_nat (R - list_sum_Z (map (fun iw => share iw.2) nl)))
       (merge_sort remainder_le (imap (fun slot iw => (slot, (iw.2 * R) mod total)) nl))).
Proof.
assert (HR := R_bounds). assert (Hp := total_pos). assert (Hl := leftover_bounds).
unfold bound_wrr_weights. fold len. rewrite (proj2 (Z.leb_gt total len)) by lia.
cbv zeta. unfold saturating_sub. rewrite (Z.max_r 0 R) by lia. f_equal.
- apply map_ext_in. intros iw Hin%list_elem_of_In. assert (Hs := share_bounds iw Hin).
  rewrite numerator_exact, (Z.max_l total) by (done || lia). fold (share iw.2).
  unfold saturating_add, umax. rewrite (Z.min_l (share iw.2)) by lia. f_equal. lia.
- rewrite assigned_exact; [|done|lia|unfold umax; lia]. f_equal; [lia|]. f_equal. apply imap_ext.
  intros i iw Hi. simpl. rewrite numerator_exact, Z.max_l; [done|lia|by eapply list_elem_of_lookup_2].
Qed.

(** Every target keeps a slot, gets its rounded-down share of the other slots
  and at most one more; the slots handed out are all of them. *)
Lemma bound_spec :
map fst (bound_wrr_weights nl total) = map fst nl
/\ list_sum_Z (map snd (bound_wrr_weights nl total)) = len
/\ forall i iw, nl !! i = Some iw ->
     exists e, 0 <= e <= 1 /\ bound_wrr_weights nl total !! i = Some (iw.1, 1 + share iw.2 + e).
Proof.
assert (HR := R_bounds). assert (Hl := leftover_bounds). rewrite bound_unfold.
set (rems := imap _ nl). set (L := R - _) in *. set (base := map (fun iw => (iw.1, 1 + share iw.2)) nl).
assert (Hperm : merge_sort remainder_le rems ≡ₚ rems) by apply merge_sort_Permutation.
assert (Hmap : map fst rems = seq 0 (length nl)) by apply map_fst_imap.
assert (Hnd : NoDup (map fst (merge_sort remainder_le rems))).
{ rewrite (Permutation_map fst Hperm), Hmap. apply NoDup_seq. }
destruct (increment_slots_spec (take (Z.to_nat L) (merge_sort remainder_le rems)) base)
  as (H1 & H2 & H3).
- rewrite <- firstn_map. rewrite <- (take_drop (Z.to_nat L) (map fst _)) in Hnd.
  by apply NoDup_app in Hnd as [? _].
- intros s Hs. assert (Hs' : s ∈ seq 0 (length nl)).
  { rewrite <- Hmap, <- (Permutation_map fst Hperm). rewrite <- firstn_map in Hs.
    rewrite <- (take_drop (Z.to_nat L) (map fst _)). apply elem_of_app. by left. }
  apply elem_of_seq in Hs'. destruct (lookup_lt_is_Some_2 nl s) as [iw Hi]; [lia|].
  exists (iw.1, 1 + share iw.2). unfold base. rewrite list_lookup_fmap, Hi. split; [done|].
  assert (Hsb := share_bounds iw (list_elem_of_lookup_2 _ _ _ Hi)). unfold umax. simpl. lia.
- split_and!.
  + rewrite H1. unfold base. by rewrite map_map.
  + rewrite H2. unfold base. rewrite map_map, length_take, Hperm. simpl.
    unfold rems. rewrite length_imap, Nat.min_l by lia.
    assert (Hsum : forall l : list (nat * Z), list_sum_Z (map (fun x => 1 + share x.2) l)
      = Z.of_nat (length l) + list_sum_Z (map (fun x => share x.2) l))
      by (clear; induction l; simpl in *; lia).
    rewrite Hsum. subst L. lia.
  + intros i iw Hi. eexists. split; cycle 1.
    * rewrite (H3 i (iw.1, 1 + share iw.2)); [reflexivity|]. unfold base. by rewrite list_lookup_fmap, Hi.
    * case_decide; lia.
Qed.
End Bound.

(** ** From slots to targets *)

Section Targets.
Context (bounded : list (nat * Z)).
Hypothesis Hnd : NoDup (map fst bounded).

Definition slot_targets (slots : list nat) : list nat :=
omap (fun slot => fst <$> bounded !! slot) slots.

Lemma slot_targets_length slots :
Forall (fun j => j < length bounded)%nat slots ->
length (slot_targets slots) = length slots
/\ forall k, take k (slot_targets slots) = slot_targets (take k slots).
Proof.
induction 1 as [|j slots Hj HF [IH1 IH2]]; [split; [done|by intros []]|].
destruct (lookup_lt_is_Some_2 bounded j Hj) as [x Hx].
unfold slot_targets in *. split.
- simpl. rewrite Hx. simpl. exact (f_equal S IH1).
- intros [|k]; [done|]. simpl. rewrite Hx. simpl. exact (f_equal (cons x.1) (IH2 k)).
Qed.

Lemma slot_targets_picks i x slots :
bounded !! i = Some x -> picks x.1 (slot_targets slots) = picks i slots.
Proof.
intros Hi. induction slots as [|j slots IH]; [done|]. unfold picks, slot_targets in *. simpl.
rewrite (filter_cons _ j). destruct (decide (j = i)) as [->|Hne].
- rewrite Hi. simpl. rewrite filter_cons, decide_True by done. cbn [length]. rewrite !Nat2Z.inj_succ. exact (f_equal Z.succ IH).
- destruct (bounded !! j) as [y|] eqn:Ej; simpl; [|done].
  rewrite filter_cons, decide_False; [done|]. intros Heq. apply Hne.
  eapply (NoDup_lookup _ _ _ x.1 Hnd); rewrite list_lookup_fmap; [by rewrite Ej; simpl; f_equal|by rewrite Hi].
Qed.
End Targets.

(** ** Normalisation *)

Definition list_gcd (l : list Z) : Z := foldr Z.gcd 0 l.

Definition weights_ok (weighted : list (nat * Z)) : Prop :=
  Forall (fun iw => is_u32 iw.2) weighted
  /\ NoDup (map fst weighted) /\ Z.of_nat (length weighted) < 2 ^ 32.

#[global] Instance weights_ok_dec weighted : Decision (weights_ok weighted).
Proof. unfold weights_ok. apply _. Defined.

Lemma positive_gcd_spec weighted :
  Forall (fun iw => is_u32 iw.2) weighted -> positive_gcd weighted = list_gcd (map snd weighted).
Proof.
  intros HF. unfold positive_gcd.
  assert (H : forall acc, 0 <= acc ->
    foldl (fun gcd iw => if iw.2 =? 0 then gcd else if gcd =? 0 then iw.2 else wrr_gcd gcd iw.2)
      acc weighted = Z.gcd acc (list_gcd (map snd weighted))).
  { induction HF as [|[x w] l Hw HF IH]; intros acc Hacc; simpl.
    - rewrite Z.gcd_0_r, Z.abs_eq; lia.
    - unfold in_width in Hw. simpl in Hw. rewrite Z.gcd_assoc. destruct (Z.eqb_spec w 0) as [->|].
      { rewrite Z.gcd_0_r, Z.abs_eq by lia. by apply IH. }
      destruct (Z.eqb_spec acc 0) as [->|].
      { rewrite Z.gcd_0_l, Z.abs_eq by lia. apply IH. lia. }
      rewrite wrr_gcd_spec by done. apply IH, Z.gcd_nonneg. }
  rewrite H by lia. rewrite Z.gcd_0_l. apply Z.abs_eq. destruct weighted; simpl; [lia|apply Z.gcd_nonneg].
Qed.

Lemma list_gcd_divide l x : x ∈ l -> (list_gcd l | x).
Proof.
  induction l as [|y l IH]; [by intros ?%elem_of_nil|]. intros [->|Hx]%elem_of_cons; simpl.
  - apply Z.gcd_divide_l.
  - etransitivity; [apply Z.gcd_divide_r|]. by apply IH.
Qed.

Lemma list_gcd_nonneg l : 0 <= list_gcd l.
Proof. destruct l; simpl; [lia|apply Z.gcd_nonneg]. Qed.

Lemma list_gcd_zero l : list_gcd l = 0 <-> Forall (fun x => x = 0) l.
Proof.
  induction l as [|y l IH]; simpl; [by split|]. rewrite Z.gcd_eq_0, IH. split.
  - intros []. by constructor.
  - by intros [? ?]%Forall_cons.
Qed.

Definition positive (weighted : list (nat * Z)) : list (nat * Z) :=
  filter (fun iw => 0 < iw.2) weighted.

Abbreviation normalized weighted := (normalize_weights weighted (positive_gcd weighted)).

Section Build.
Context (weighted : list (nat * Z)).
Hypothesis Hok : weights_ok weighted.

Lemma positive_lookup i iw :
positive weighted !! i = Some iw -> iw ∈ weighted /\ 0 < iw.2 < 2 ^ 32.
Proof.
intros [Hp Hin]%list_elem_of_lookup_2%list_elem_of_filter. split; [done|].
destruct Hok as [Hu _]. rewrite Forall_forall in Hu. specialize (Hu _ Hin). unfold in_width in Hu. lia.
Qed.

Lemma gcd_pos iw : iw ∈ positive weighted -> 0 < positive_gcd weighted.
Proof.
intros [i Hi]%list_elem_of_lookup_1. destruct (positive_lookup i iw Hi) as [Hin Hp].
rewrite positive_gcd_spec by apply Hok. assert (Hn := list_gcd_nonneg (map snd weighted)).
destruct (Z.eq_dec (list_gcd (map snd weighted)) 0) as [E|]; [|lia]. exfalso.
apply list_gcd_zero in E. rewrite Forall_map, Forall_forall in E. specialize (E iw Hin). simpl in E. lia.
Qed.

Lemma normalized_weight iw :
iw ∈ positive weighted ->
1 <= iw.2 / positive_gcd weighted < 2 ^ 32
/\ iw.2 = iw.2 / positive_gcd weighted * positive_gcd weighted.
Proof.
intros Hin. assert (Hg := gcd_pos iw Hin). apply list_elem_of_lookup_1 in Hin as [i Hi].
destruct (positive_lookup i iw Hi) as [Hin Hp].
assert (Hd : (positive_gcd weighted | iw.2)).
{ rewrite positive_gcd_spec by apply Hok. apply list_gcd_divide, list_elem_of_fmap_2. done. }
destruct Hd as [q Hq]. assert (Hdiv : iw.2 / positive_gcd weighted = q) by (rewrite Hq; apply Z.div_mul; lia).
rewrite Hdiv. split; [nia|done].
Qed.

Lemma normalized_facts :
Forall (fun iw : nat * Z => 1 <= iw.2 < 2 ^ 32) (normalized weighted)
/\ map fst (normalized weighted) = map fst (positive weighted)
/\ NoDup (map fst (normalized weighted))
/\ Z.of_nat (length (normalized weighted)) < 2 ^ 32.
Proof.
destruct Hok as (_ & Hnd & Hlen). unfold normalize_weights. fold (positive weighted).
rewrite map_map, length_map. simpl. split_and!.
- apply Forall_map, Forall_forall. intros iw Hin. simpl. by apply normalized_weight.
- done.
- clear -Hnd. unfold positive. induction weighted as [|[x w] l IH]; [constructor|]. simpl in Hnd.
  apply NoDup_cons in Hnd as [Hx Hnd]. rewrite filter_cons. case_decide; [|by apply IH]. simpl.
  apply NoDup_cons. split; [|by apply IH]. intros (y & Hy1 & Hy2)%list_elem_of_fmap. apply Hx.
  apply list_elem_of_fmap. exists y. split; [done|]. by apply list_elem_of_filter in Hy2 as [_ ?].
- assert (H := length_filter (fun iw : nat * Z => 0 < iw.2) weighted). unfold positive. lia.
Qed.

(** Every slot of the bounded weights is positive, and the targets are those of
  positive weight, once each and in order. *)
Lemma bounded_facts :
map fst (bounded_weights weighted) = map fst (positive weighted)
/\ NoDup (map fst (bounded_weights weighted))
/\ Forall (fun w => 1 <= w) (map snd (bounded_weights weighted)).
Proof.
destruct normalized_facts as (Hw & Hf & Hnd & Hlen). unfold bounded_weights.
destruct (Z.le_gt_cases (list_sum_Z (map snd (normalized weighted))) (schedule_len (normalized weighted)))
  as [Hle|Hgt].
- unfold bound_wrr_weights. fold (schedule_len (normalized weighted)).
  rewrite (proj2 (Z.leb_le _ _)) by done. split_and!; [done..|].
  apply Forall_map. eapply Forall_impl; [exact Hw|]. simpl; lia.
- destruct (bound_spec _ _ Hw Hlen eq_refl Hgt) as (H1 & H2 & H3). rewrite H1. split_and!; [done..|].
  apply Forall_map, Forall_lookup_2. intros i b Hb.
  destruct (lookup_lt_is_Some_2 (normalized weighted) i) as [iw Hi].
  { apply lookup_lt_Some in Hb. rewrite <- (length_map fst), H1, length_map in Hb. done. }
  destruct (H3 i iw Hi) as (e & He & Hb'). rewrite Hb in Hb'. injection Hb' as ->. simpl.
  assert (Hs := share_bounds _ _ Hw eq_refl Hgt iw (list_elem_of_lookup_2 _ _ _ Hi)). lia.
Qed.

Lemma bounded_nonempty :
positive_gcd weighted <> 0 -> bounded_weights weighted <> [].
Proof.
intros Hg Hb. destruct bounded_facts as (Hf & _). rewrite Hb in Hf. symmetry in Hf.
apply fmap_nil_inv in Hf. apply Hg. rewrite positive_gcd_spec by apply Hok. apply list_gcd_zero.
apply Forall_map, Forall_forall. intros iw Hin.
destruct Hok as [Hu _]. rewrite Forall_forall in Hu. specialize (Hu _ Hin). unfold in_width in Hu.
destruct (Z.eq_dec iw.2 0); [done|]. exfalso.
assert (Hc : iw ∈ positive weighted) by (apply list_elem_of_filter; split; [lia|done]).
rewrite Hf in Hc. by apply elem_of_nil in Hc.
Qed.
End Build.

(** ** The properties *)

Definition period (weighted : list (nat * Z)) : Z := list_sum_Z (map snd (bounded_weights weighted)).

Lemma smooth_is_schedule weighted order :
  weights_ok weighted -> build_smooth_wrr_order weighted = Smooth order ->
  order = slot_targets (bounded_weights weighted)
            (schedule (map snd (bounded_weights weighted)) (period weighted) (Z.to_nat (period weighted)))
  /\ bounded_weights weighted <> []
  /\ period weighted * Z.of_nat (length (map snd (bounded_weights weighted))) <= WRR_SMOOTH_BUILD_MAX_WORK.
Proof.
  intros Hok. unfold build_smooth_wrr_order. destruct (Z.eqb_spec (positive_gcd weighted) 0) as [|Hg]; [done|].
  fold (period weighted). destruct (Z.leb_spec (period weighted) 0) as [|Hp]; [done|].
  unfold checked_mul. destruct (Z.leb_spec (period weighted * Z.of_nat (length (bounded_weights weighted))) (umax 64));
    [|done].
  destruct (Z.leb_spec (period weighted * Z.of_nat (length (bounded_weights weighted))) WRR_SMOOTH_BUILD_MAX_WORK);
    [|done].
  intros [= <-]. unfold schedule. rewrite !length_map. split_and!; [done| |done]. by apply bounded_nonempty.
Qed.

Lemma smooth_period_counts weighted order :
  weights_ok weighted -> build_smooth_wrr_order weighted = Smooth order ->
  Z.of_nat (length order) = period weighted
  /\ (forall x, x ∈ order -> x ∈ map fst (positive weighted))
  /\ forall x w, (x, w) ∈ bounded_weights weighted ->
       picks x order = w
       /\ forall k, (k <= length order)%nat ->
            period weighted * picks x (take k order) < Z.of_nat k * w + period weighted.
Proof.
  intros Hok Hb. destruct (smooth_is_schedule weighted order Hok Hb) as (-> & Hne & Hwork).
  destruct (bounded_facts weighted Hok) as (Hf & Hnd & Hpos).
  set (b := bounded_weights weighted) in *. set (ws := map snd b) in *.
  assert (Hwne : ws <> []) by (intros Hc; by apply fmap_nil_inv in Hc).
  assert (HP := W_bounds ws (period weighted) Hpos eq_refl Hwne Hwork).
  assert (Hslots := schedule_slots ws (period weighted) Hpos eq_refl Hwne Hwork (Z.to_nat (period weighted))).
  assert (Hslots' : Forall (fun j => j < length b)%nat (schedule ws (period weighted) (Z.to_nat (period weighted)))).
  { unfold ws in Hslots at 1. by rewrite length_map in Hslots. }
  destruct (slot_targets_length b _ Hslots') as [Hlen Htake].
  rewrite Hlen, schedule_length by done. split_and!.
  - lia.
  - intros x (s & Hs & Hx)%list_elem_of_omap. apply fmap_Some in Hx as ([y w] & Hy & ->).
    rewrite <- Hf. apply list_elem_of_fmap. exists (y, w). split; [done|]. by eapply list_elem_of_lookup_2.
  - intros x w [i Hi]%list_elem_of_lookup_1.
    assert (Hwi : ws !! i = Some w) by (unfold ws; by rewrite list_lookup_fmap, Hi).
    split.
    + rewrite (slot_targets_picks b Hnd i (x, w)) by done. by apply schedule_exact.
    + intros k Hk. rewrite Htake, schedule_prefix by done.
      rewrite (slot_targets_picks b Hnd i (x, w)) by done. by apply schedule_smooth.
Qed.

(** One period of a smooth schedule serves every target exactly its bounded
    weight, serves nothing else, and at no point of the period is a target a
    full pick ahead of its share: after [k] picks a target of weight [w] out of
    a period [P] has been picked fewer than [k * w / P + 1] times. *)
Theorem smooth_wrr_period weighted order :
  weights_ok weighted -> build_smooth_wrr_order weighted = Smooth order ->
  Z.of_nat (length order) = period weighted
  /\ (forall x, x ∈ order -> x ∈ map fst (positive weighted))
  /\ forall x w, (x, w) ∈ bounded_weights weighted ->
       picks x order = w
       /\ forall k, (k <= length order)%nat ->
            period weighted * picks x (take k order) < Z.of_nat k * w + period weighted.
Proof. apply smooth_period_counts. Qed.

Lemma smooth_wrr_period_witness :
  picks 0 [0; 0; 1; 0; 2; 0; 0]%nat = 5.
Proof.
  destruct (smooth_wrr_period [(0%nat, 5); (1%nat, 1); (2%nat, 1)] [0; 0; 1; 0; 2; 0; 0]%nat)
    as (_ & _ & H).
  - apply (bool_decide_unpack _). vm_compute. exact I.
  - vm_compute. reflexivity.
  - apply (H 0%nat 5). vm_compute. apply list_elem_of_here.
Defined.

(** Bounding a period is fair. A period that fits keeps the exact ratio of
    the configured weights (each divided by their greatest common divisor). A
    longer one fills the schedule exactly, keeps at least one slot for every
    target of positive weight, and gives each target its rounded-down
    proportional share of the other slots or one more. *)
Theorem wrr_apportion_fair weighted :
  weights_ok weighted ->
  let n := Z.of_nat (length (positive weighted)) in
  let g := list_gcd (map snd weighted) in
  let total := list_sum_Z (map (fun iw => iw.2 / g) (positive weighted)) in
  let len := Z.max WRR_MAX_SCHEDULE_LEN n in
  map fst (bounded_weights weighted) = map fst (positive weighted)
  /\ (total <= len ->
      bounded_weights weighted = map (fun iw => (iw.1, iw.2 / g)) (positive weighted))
  /\ (len < total ->
      period weighted = len
      /\ forall i iw, positive weighted !! i = Some iw ->
           exists b, bounded_weights weighted !! i = Some (iw.1, b)
             /\ 1 + iw.2 / g * (len - n) / total <= b <= 2 + iw.2 / g * (len - n) / total).
Proof.
  intros Hok. simpl. destruct (bounded_facts weighted Hok) as (Hf & _).
  destruct (normalized_facts weighted Hok) as (Hw & _ & _ & Hlen).
  rewrite <- positive_gcd_spec by apply Hok. split; [done|].
  assert (Et : list_sum_Z (map (fun iw => iw.2 / positive_gcd weighted) (positive weighted))
    = list_sum_Z (map snd (normalized weighted))).
  { unfold normalize_weights. by rewrite map_map. }
  assert (En : length (positive weighted) = length (normalized weighted))
    by (unfold normalize_weights; by rewrite length_map).
  rewrite Et, En. split.
  - intros Hle. unfold bounded_weights, bound_wrr_weights. by rewrite (proj2 (Z.leb_le _ _)).
  - intros Hgt. destruct (bound_spec _ _ Hw Hlen eq_refl Hgt) as (_ & H2 & H3). split; [done|].
    intros i iw Hi. destruct (H3 i (iw.1, iw.2 / positive_gcd weighted)) as (e & He & Hb).
    { unfold normalize_weights. rewrite list_lookup_fmap. fold (positive weighted). by rewrite Hi. }
    exists (1 + share (normalized weighted) (list_sum_Z (map snd (normalized weighted)))
              (iw.2 / positive_gcd weighted) + e).
    split; [exact Hb|]. unfold share, schedule_len. lia.
Qed.

Lemma wrr_apportion_fair_witness :
  bounded_weights [(3%nat, 10); (4%nat, 20); (5%nat, 0)] = [(3%nat, 1); (4%nat, 2)].
Proof.
  destruct (wrr_apportion_fair [(3%nat, 10); (4%nat, 20); (5%nat, 0)]) as (_ & H & _).
  - apply (bool_decide_unpack _). vm_compute. exact I.
  - apply H. vm_compute. discriminate.
Defined.

(** What a build returns: the all-zero schedule exactly when no target has
    a positive weight, the lottery sentinel exactly when the quadratic loop
    would exceed the work budget, and otherwise a smooth order. *)
Theorem wrr_build_outcome weighted :
  weights_ok weighted ->
  match build_smooth_wrr_order weighted with
  | ZeroWeight => Forall (fun iw => iw.2 = 0) weighted
  | LotteryOnly =>
      positive weighted <> []
      /\ WRR_SMOOTH_BUILD_MAX_WORK < period weighted * Z.of_nat (length (positive weighted))
  | Smooth order =>
      positive weighted <> [] /\ order <> []
      /\ Z.of_nat (length order) * Z.of_nat (length (positive weighted)) <= WRR_SMOOTH_BUILD_MAX_WORK
  end.
Proof.
  intros Hok. assert (Hs := smooth_is_schedule weighted). revert Hs. unfold build_smooth_wrr_order.
  destruct (bounded_facts weighted Hok) as (Hf & _ & Hpos).
  assert (Elen : length (positive weighted) = length (bounded_weights weighted))
    by (by rewrite <- (length_map fst), <- Hf, length_map).
  destruct (Z.eqb_spec (positive_gcd weighted) 0) as [E|Hg].
  { intros _. rewrite positive_gcd_spec in E by apply Hok. apply list_gcd_zero in E. by apply Forall_map in E. }
  assert (Hne := bounded_nonempty weighted Hok Hg). fold (period weighted).
  assert (Hlen : (0 < length (bounded_weights weighted))%nat) by (destruct (bounded_weights weighted); simpl; [done|lia]).
  assert (Hp : Z.of_nat (length (bounded_weights weighted)) * 1 <= period weighted).
  { unfold period. rewrite <- (length_map snd). by apply list_sum_ge. }
  rewrite (proj2 (Z.leb_gt _ _)) by lia.
  set (work := period weighted * Z.of_nat (length (bounded_weights weighted))) in *.
  assert (Hb : WRR_SMOOTH_BUILD_MAX_WORK < umax 64) by done.
  assert (Hpne : positive weighted <> []) by (intros Hc; rewrite Hc in Elen; simpl in Elen; lia).
  unfold checked_mul. fold work.
  destruct (Z.leb_spec work (umax 64)); [|intros _; split; [done|rewrite Elen; fold work; lia]].
  destruct (Z.leb_spec work WRR_SMOOTH_BUILD_MAX_WORK) as [Hw|];
    [|intros _; split; [done|rewrite Elen; fold work; lia]].
  intros Hs. destruct (Hs _ Hok eq_refl) as (Eo & _ & Hwork). clear Hs. rewrite Eo.
  set (ws := map snd (bounded_weights weighted)) in *.
  assert (Hwne : ws <> []) by (intros Hc; by apply fmap_nil_inv in Hc).
  assert (Hsl := schedule_slots ws (period weighted) Hpos eq_refl Hwne Hwork (Z.to_nat (period weighted))).
  assert (Hl := schedule_length ws (period weighted) Hpos eq_refl Hwne Hwork (Z.to_nat (period weighted))).
  unfold ws in Hsl at 1. rewrite length_map in Hsl.
  destruct (slot_targets_length (bounded_weights weighted) _ Hsl) as [Hlen' _]. rewrite Hl in Hlen'.
  split; [done|]. split.
  - intros Hc. rewrite Hc in Hlen'. simpl in Hlen'. lia.
  - rewrite Hlen', Elen, Z2Nat.id by lia. exact Hw.
Qed.

Lemma wrr_build_outcome_witness :
  positive [(3%nat, 10); (4%nat, 20); (5%nat, 0)] <> []
  /\ [4; 3; 4]%nat <> []
  /\ Z.of_nat (length [4; 3; 4]%nat)
     * Z.of_nat (length (positive [(3%nat, 10); (4%nat, 20); (5%nat, 0)])) <= WRR_SMOOTH_BUILD_MAX_WORK.
Proof.
  assert (Hok : weights_ok [(3%nat, 10); (4%nat, 20); (5%nat, 0)])
    by (apply (bool_decide_unpack _); vm_compute; exact I).
  assert (E : build_smooth_wrr_order [(3%nat, 10); (4%nat, 20); (5%nat, 0)] = Smooth [4; 3; 4]%nat)
    by (vm_compute; reflexivity).
  assert (H := wrr_build_outcome [(3%nat, 10); (4%nat, 20); (5%nat, 0)] Hok).
  rewrite E in H. exact H.
Defined.
