(* ===== verification/WrrSelect.v ===== *)
(** * Weighted round-robin selection ([src/src/load_balancer.rs])

    [WrrLaneState] and the selection paths over it: the bounded cache of
    precomputed schedules, the sharded tickets, the rate-limited rebuild and
    the weighted lottery, for the bitset path (up to 128 targets) and for the
    [Vec] path. A schedule lives behind an [Arc]: the store maps addresses to
    schedules, the cache slots hold addresses, and a ticket drawn through any
    reference advances the one shared counter. A call is atomic; whether its
    [try_lock] succeeds and which counter shard its thread owns are inputs. *)

From S2P Require Import Prelude HealthBitset SmoothWrr.
From Stdlib Require Import Sorted.
Open Scope Z_scope.

Definition WRR_SCHEDULE_CACHE_SLOTS : nat := 8.
Definition WRR_MISS_PUBLISH_SAMPLE : Z := 64.
Definition WRR_COUNTER_SHARDS : nat := 16.
Definition GOLDEN_STRIDE : Z := 0x9E3779B97F4A7C15.

Definition golden_ratio_hash (val : Z) : Z := wrapping_mul 64 val GOLDEN_STRIDE.

Inductive WrrScheduleKey :=
| Invalid
| Bitset (value : Z)
| Indices (indices : list nat).

#[global] Instance key_eq_dec : EqDecision WrrScheduleKey.
Proof. solve_decision. Defined.

Record WrrSchedule := {
  key : WrrScheduleKey;
  counters : list Z;
  order : list nat;
  zero_weight : bool;
}.

Definition invalid : WrrSchedule :=
  {| key := Invalid; counters := replicate WRR_COUNTER_SHARDS 0; order := []; zero_weight := false |}.

Definition with_seed (k : WrrScheduleKey) (o : list nat) (zw : bool) (seed : Z) (healthy_count : Z)
    : WrrSchedule :=
  let zero_phase_stride := Z.max (healthy_count / Z.of_nat WRR_COUNTER_SHARDS) 1 in
  {| key := k;
     counters :=
       map (fun i => wrapping_add 64 seed
                       (wrapping_mul 64 (Z.of_nat i) (if zw then zero_phase_stride else GOLDEN_STRIDE)))
         (seq 0 WRR_COUNTER_SHARDS);
     order := o;
     zero_weight := zw |}.

Definition is_lottery_only (s : WrrSchedule) : bool :=
  bool_decide (order s = []) && negb (zero_weight s) && bool_decide (key s <> Invalid).

(** ** The lane *)

Record WrrLaneState := {
  store : list WrrSchedule;
  slots : list nat;
  publish_cursor : Z;
  target_len : nat;
  rebuilds : Z;
  miss_fallbacks : Z;
  miss_publish_tickets : Z;
  schedule_seed : Z;
}.

Definition inactive : WrrLaneState :=
  {| store := []; slots := []; publish_cursor := 0; target_len := 0; rebuilds := 0;
     miss_fallbacks := 0; miss_publish_tickets := 0; schedule_seed := 0 |}.

Definition new (n : nat) : WrrLaneState :=
  if (n =? 0)%nat then inactive
  else
    {| store := replicate WRR_SCHEDULE_CACHE_SLOTS invalid;
       slots := seq 0 WRR_SCHEDULE_CACHE_SLOTS; publish_cursor := 0; target_len := n; rebuilds := 0;
       miss_fallbacks := 0; miss_publish_tickets := 0; schedule_seed := 0 |}.

Definition is_active (st : WrrLaneState) : bool := (0 <? target_len st)%nat.

(** [for slot in self.slots.iter()]: the address in the first slot whose
    schedule's key satisfies [p]. *)
Fixpoint find_slot (p : WrrScheduleKey -> bool) (heap : list WrrSchedule) (addrs : list nat) : option nat :=
  match addrs with
  | [] => None
  | a :: addrs =>
    match heap !! a with
    | Some s => if p (key s) then Some a else find_slot p heap addrs
    | None => find_slot p heap addrs
    end
  end.

Definition lookup_bitset_schedule (st : WrrLaneState) (fingerprint : Z) : option nat :=
  find_slot (fun k => match k with Bitset value => value =? fingerprint | _ => false end)
    (store st) (slots st).

Definition lookup_vec_schedule (st : WrrLaneState) (candidates : list (nat * Z)) : option nat :=
  find_slot
    (fun k =>
       match k with
       | Indices indices =>
         (length indices =? length candidates)%nat && bool_decide (indices = map fst candidates)
       | _ => false
       end)
    (store st) (slots st).

Definition has_free_slot (st : WrrLaneState) : bool :=
  match find_slot (fun k => match k with Invalid => true | _ => false end) (store st) (slots st) with
  | Some _ => true
  | None => false
  end.

(** The shard of the calling thread: [cell] is its thread-local slot
    ([usize::MAX] before the first use), [next] the global assignment counter. *)
Definition wrr_counter_shard (cell next : Z) : nat * (Z * Z) :=
  if cell <? Z.of_nat WRR_COUNTER_SHARDS then (Z.to_nat cell, (cell, next))
  else
    let assigned := Z.land next (Z.of_nat WRR_COUNTER_SHARDS - 1) in
    (Z.to_nat assigned, (assigned, wrapping_add 64 next 1)).

(** A thread gets a valid shard and keeps it. *)
Lemma wrr_counter_shard_stable cell next next' :
  0 <= cell -> 0 <= next ->
  let '(shard, (cell', _)) := wrr_counter_shard cell next in
  (shard < WRR_COUNTER_SHARDS)%nat /\ (wrr_counter_shard cell' next').1 = shard.
Proof.
  intros Hc Hn. unfold wrr_counter_shard at 1.
  destruct (Z.ltb_spec cell (Z.of_nat WRR_COUNTER_SHARDS)) as [Hlt|Hge].
  - unfold wrr_counter_shard. rewrite (proj2 (Z.ltb_lt _ _)) by done. split; [lia|done].
  - change (Z.of_nat WRR_COUNTER_SHARDS - 1) with (Z.ones 4). rewrite Z.land_ones by lia.
    assert (Hm := Z.mod_pos_bound next (2 ^ 4)). unfold wrr_counter_shard.
    change (Z.of_nat WRR_COUNTER_SHARDS) with 16. unfold WRR_COUNTER_SHARDS.
    rewrite (proj2 (Z.ltb_lt _ _)) by lia. split; [lia|done].
Qed.

(** Atomic counters: the value before the increment, and the new state. *)
Definition next_schedule_seed (st : WrrLaneState) : Z * WrrLaneState :=
  (schedule_seed st,
   {| store := store st; slots := slots st; publish_cursor := publish_cursor st;
      target_len := target_len st; rebuilds := rebuilds st; miss_fallbacks := miss_fallbacks st;
      miss_publish_tickets := miss_publish_tickets st;
      schedule_seed := wrapping_add 64 (schedule_seed st) 1 |}).

Definition next_miss_fallback (st : WrrLaneState) : Z * WrrLaneState :=
  (miss_fallbacks st,
   {| store := store st; slots := slots st; publish_cursor := publish_cursor st;
      target_len := target_len st; rebuilds := rebuilds st;
      miss_fallbacks := wrapping_add 64 (miss_fallbacks st) 1;
      miss_publish_tickets := miss_publish_tickets st; schedule_seed := schedule_seed st |}).

Definition should_publish_on_miss (st : WrrLaneState) : bool * WrrLaneState :=
  if has_free_slot st then (true, st)
  else
    (miss_publish_tickets st mod WRR_MISS_PUBLISH_SAMPLE =? 0,
     {| store := store st; slots := slots st; publish_cursor := publish_cursor st;
        target_len := target_len st; rebuilds := rebuilds st; miss_fallbacks := miss_fallbacks st;
        miss_publish_tickets := wrapping_add 64 (miss_publish_tickets st) 1;
        schedule_seed := schedule_seed st |}).

(** [Arc::new]: a fresh address. *)
Definition alloc (s : WrrSchedule) (st : WrrLaneState) : nat * WrrLaneState :=
  (length (store st),
   {| store := store st ++ [s]; slots := slots st; publish_cursor := publish_cursor st;
      target_len := target_len st; rebuilds := rebuilds st; miss_fallbacks := miss_fallbacks st;
      miss_publish_tickets := miss_publish_tickets st; schedule_seed := schedule_seed st |}).

Definition publish_schedule (addr : nat) (st : WrrLaneState) : WrrLaneState :=
  let slot_count := length (slots st) in
  if (slot_count =? 0)%nat then st
  else
    let idx := Z.to_nat (publish_cursor st mod Z.of_nat slot_count) in
    {| store := store st; slots := <[idx := addr]> (slots st);
       publish_cursor := wrapping_add 64 (publish_cursor st) 1;
       target_len := target_len st; rebuilds := wrapping_add 64 (rebuilds st) 1;
       miss_fallbacks := miss_fallbacks st; miss_publish_tickets := miss_publish_tickets st;
       schedule_seed := schedule_seed st |}.

(** [schedule.counters[shard].fetch_add(1)] through an address. *)
Definition bump_counter (shard : nat) (s : WrrSchedule) : WrrSchedule :=
  {| key := key s; counters := alter (fun c => wrapping_add 64 c 1) shard (counters s);
     order := order s; zero_weight := zero_weight s |}.

Definition ticket (shard addr : nat) (st : WrrLaneState) : Z * WrrLaneState :=
  (match store st !! addr with
   | Some s => default 0 (counters s !! shard)
   | None => 0
   end,
   {| store := alter (bump_counter shard) addr (store st); slots := slots st;
      publish_cursor := publish_cursor st; target_len := target_len st; rebuilds := rebuilds st;
      miss_fallbacks := miss_fallbacks st; miss_publish_tickets := miss_publish_tickets st;
      schedule_seed := schedule_seed st |}).

Definition pick_from_wrr_schedule (shard addr : nat) (s : WrrSchedule) (resolve : nat -> option nat)
    (st : WrrLaneState) : option nat * WrrLaneState :=
  if bool_decide (order s = []) then (None, st)
  else
    let '(t, st) := ticket shard addr st in
    (order s !! Z.to_nat (t mod Z.of_nat (length (order s))) ≫= resolve, st).

(** A freshly built schedule for [weighted] under key [k]. *)
Definition schedule_of (k : WrrScheduleKey) (weighted : list (nat * Z)) (seed healthy_count : Z)
    : WrrSchedule :=
  match build_smooth_wrr_order weighted with
  | Smooth o => with_seed k o false seed 0
  | ZeroWeight => with_seed k [] true seed healthy_count
  | LotteryOnly => with_seed k [] false seed 0
  end.

(** ** The bitset path

    A target is its index; [self.targets[idx].weight] is [weight targets idx]. *)

Definition weight (targets : list Z) (idx : nat) : Z := default 0 (targets !! idx).

Section Bitset.
Context (targets : list Z).

Definition pick_wrr_lottery_bitset (healthy : HealthBitset) (tick : Z) : option nat :=
if count healthy =? 0 then None
else
  let total_weight :=
    for_each_set_bit healthy (fun t idx => saturating_add 64 t (weight targets idx)) 0 in
  if total_weight =? 0 then nth_set_bit healthy (tick mod count healthy)
  else
    fst (for_each_set_bit healthy
      (fun cc idx =>
         match cc with
         | (Some _, _) => cc
         | (None, cursor) =>
           let w := weight targets idx in
           if w =? 0 then (None, cursor)
           else if cursor <? w then (Some idx, cursor)
           else (None, saturating_sub cursor w)
         end)
      (None, golden_ratio_hash tick mod total_weight)).

Definition pick_wrr_bitset_schedule (shard : nat) (healthy : HealthBitset) (addr : nat) (st : WrrLaneState)
  : option nat * WrrLaneState :=
match store st !! addr with
| None => (None, st)
| Some s =>
  if zero_weight s then
    let '(t, st) := ticket shard addr st in (nth_set_bit healthy t, st)
  else if is_lottery_only s then
    let '(t, st) := ticket shard addr st in (pick_wrr_lottery_bitset healthy t, st)
  else
    pick_from_wrr_schedule shard addr s
      (fun idx => if contains healthy idx then Some idx else None) st
end.

Definition pick_wrr_miss_fallback_bitset (healthy : HealthBitset) (st : WrrLaneState)
  : option nat * WrrLaneState :=
let '(t, st) := next_miss_fallback st in (pick_wrr_lottery_bitset healthy t, st).

Definition build_wrr_schedule_bitset (healthy : HealthBitset) (fingerprint : Z) (st : WrrLaneState)
  : WrrSchedule * WrrLaneState :=
let weighted := for_each_set_bit healthy (fun l idx => l ++ [(idx, weight targets idx)]) [] in
let '(seed, st) := next_schedule_seed st in
(schedule_of (Bitset fingerprint) weighted seed (count healthy), st).

Definition rebuild_wrr_schedule_bitset (shard : nat) (locked : bool) (healthy : HealthBitset)
  (fingerprint : Z) (st : WrrLaneState) : option nat * WrrLaneState :=
if locked then
  match lookup_bitset_schedule st fingerprint with
  | Some addr => pick_wrr_bitset_schedule shard healthy addr st
  | None =>
    let '(publish, st) := should_publish_on_miss st in
    if publish then
      let '(new_schedule, st) := build_wrr_schedule_bitset healthy fingerprint st in
      let '(addr, st) := alloc new_schedule st in
      pick_wrr_bitset_schedule shard healthy addr (publish_schedule addr st)
    else pick_wrr_miss_fallback_bitset healthy st
  end
else
  match lookup_bitset_schedule st fingerprint with
  | Some addr => pick_wrr_bitset_schedule shard healthy addr st
  | None => pick_wrr_miss_fallback_bitset healthy st
  end.

Definition select_wrr_bitset (shard : nat) (locked : bool) (healthy : HealthBitset) (st : WrrLaneState)
  : option nat * WrrLaneState :=
if negb (is_active st) || is_empty healthy then (None, st)
else
  let fingerprint := bits healthy in
  match lookup_bitset_schedule st fingerprint with
  | Some addr =>
    let '(r, st) := pick_wrr_bitset_schedule shard healthy addr st in
    match r with
    | Some target => (Some target, st)
    | None => rebuild_wrr_schedule_bitset shard locked healthy fingerprint st
    end
  | None => rebuild_wrr_schedule_bitset shard locked healthy fingerprint st
  end.
End Bitset.

(** ** The [Vec] path: candidates are (original index, weight) pairs *)

(** [binary_search_by_key] on ascending indices. *)
Fixpoint binary_search (fuel : nat) (l : list (nat * Z)) (k lo hi : nat) : option nat :=
  match fuel with
  | O => None
  | S fuel =>
    if (lo <? hi)%nat then
      let mid := (lo + (hi - lo) / 2)%nat in
      match l !! mid with
      | None => None
      | Some (i, _) =>
        if (i =? k)%nat then Some mid
        else if (i <? k)%nat then binary_search fuel l k (S mid) hi
        else binary_search fuel l k lo mid
      end
    else None
  end.

Definition resolve_wrr_vec_candidate (candidates : list (nat * Z)) (orig_idx : nat) : option nat :=
  match binary_search (S (length candidates)) candidates orig_idx 0 (length candidates) with
  | Some pos => fst <$> candidates !! pos
  | None => None
  end.

Fixpoint lottery_scan (candidates : list (nat * Z)) (cursor : Z) : option nat :=
  match candidates with
  | [] => None
  | (idx, w) :: candidates =>
    if w =? 0 then lottery_scan candidates cursor
    else if cursor <? w then Some idx
    else lottery_scan candidates (saturating_sub cursor w)
  end.

Definition pick_wrr_lottery_vec (candidates : list (nat * Z)) (tick : Z) : option nat :=
  if bool_decide (candidates = []) then None
  else
    let total_weight := foldl (fun t iw => saturating_add 64 t iw.2) 0 candidates in
    if total_weight =? 0 then fst <$> cyclic candidates tick
    else lottery_scan candidates (golden_ratio_hash tick mod total_weight).

Definition pick_wrr_vec_schedule (shard : nat) (candidates : list (nat * Z)) (addr : nat)
    (st : WrrLaneState) : option nat * WrrLaneState :=
  match store st !! addr with
  | None => (None, st)
  | Some s =>
    if zero_weight s then
      let '(t, st) := ticket shard addr st in (fst <$> cyclic candidates t, st)
    else if is_lottery_only s then
      let '(t, st) := ticket shard addr st in (pick_wrr_lottery_vec candidates t, st)
    else
      pick_from_wrr_schedule shard addr s (resolve_wrr_vec_candidate candidates) st
  end.

Definition pick_wrr_miss_fallback_vec (candidates : list (nat * Z)) (st : WrrLaneState)
    : option nat * WrrLaneState :=
  let '(t, st) := next_miss_fallback st in (pick_wrr_lottery_vec candidates t, st).

Definition build_wrr_schedule_vec (candidates : list (nat * Z)) (st : WrrLaneState)
    : WrrSchedule * WrrLaneState :=
  let '(seed, st) := next_schedule_seed st in
  (schedule_of (Indices (map fst candidates)) candidates seed (Z.of_nat (length candidates)), st).

Definition rebuild_wrr_schedule_vec (shard : nat) (locked : bool) (candidates : list (nat * Z))
    (st : WrrLaneState) : option nat * WrrLaneState :=
  if locked then
    match lookup_vec_schedule st candidates with
    | Some addr => pick_wrr_vec_schedule shard candidates addr st
    | None =>
      let '(publish, st) := should_publish_on_miss st in
      if publish then
        let '(new_schedule, st) := build_wrr_schedule_vec candidates st in
        let '(addr, st) := alloc new_schedule st in
        pick_wrr_vec_schedule shard candidates addr (publish_schedule addr st)
      else pick_wrr_miss_fallback_vec candidates st
    end
  else
    match lookup_vec_schedule st candidates with
    | Some addr => pick_wrr_vec_schedule shard candidates addr st
    | None => pick_wrr_miss_fallback_vec candidates st
    end.

Definition select_wrr_vec (shard : nat) (locked : bool) (candidates : list (nat * Z)) (st : WrrLaneState)
    : option nat * WrrLaneState :=
  if bool_decide (candidates = []) || negb (is_active st) then (None, st)
  else
    match lookup_vec_schedule st candidates with
    | Some addr =>
      let '(r, st) := pick_wrr_vec_schedule shard candidates addr st in
      match r with
      | Some target => (Some target, st)
      | None => rebuild_wrr_schedule_vec shard locked candidates st
      end
    | None => rebuild_wrr_schedule_vec shard locked candidates st
    end.

(** Eight calls on three healthy targets of weights 5, 1, 2: the first call
    publishes, and shard 0 walks the schedule from seed 0. *)
Example wrr_run :
  let call st := select_wrr_bitset [5; 1; 2] 0 true (from_bits 7) st in
  let run := Nat.iter 8 (fun '(l, st) => let '(r, st) := call st in (l ++ [r], st)) ([], new 3) in
  run.1 = map Some [0; 2; 0; 0; 1; 0; 2; 0]%nat /\ rebuilds run.2 = 1.
Proof. vm_compute. split; reflexivity. Qed.

(** ** Specification of a pick

    [good cs idx]: [idx] is a candidate, of positive weight unless every
    candidate has weight zero. *)

Definition weigh (targets : list Z) (idxs : list nat) : list (nat * Z) :=
  map (fun i => (i, weight targets i)) idxs.

Definition good (cs : list (nat * Z)) (idx : nat) : Prop :=
  exists w, (idx, w) ∈ cs /\ (0 < w \/ Forall (fun iw => iw.2 = 0) cs).

Record cand_ok (cs : list (nat * Z)) : Prop := {
  cand_weights : weights_ok cs;
  cand_nonempty : cs <> [];
  cand_sorted : StronglySorted lt (map fst cs);
}.

Lemma total_weight_exact cs :
  weights_ok cs ->
  foldl (fun t iw => saturating_add 64 t iw.2) 0 cs = list_sum_Z (map snd cs)
  /\ 0 <= list_sum_Z (map snd cs) < 2 ^ 64.
Proof.
  intros (Hu & _ & Hlen).
  assert (Hb : forall l, Forall (fun iw : nat * Z => is_u32 iw.2) l ->
    0 <= list_sum_Z (map snd l) <= Z.of_nat (length l) * (2 ^ 32 - 1)).
  { intros l Hl. rewrite <- (length_map snd). split.
    - assert (H := list_sum_ge (map snd l) 0). rewrite Z.mul_0_r in H. apply H, Forall_map.
      eapply Forall_impl; [exact Hl|]. intros ? [? _]. done.
    - apply list_sum_le, Forall_map. eapply Forall_impl; [exact Hl|].
      intros x Hx. unfold in_width in Hx. simpl. lia. }
  assert (H : forall l acc, Forall (fun iw : nat * Z => is_u32 iw.2) l -> 0 <= acc ->
    acc + list_sum_Z (map snd l) <= umax 64 ->
    foldl (fun t iw => saturating_add 64 t iw.2) acc l = acc + list_sum_Z (map snd l)).
  { induction l as [|[x w] l IH]; intros acc Hl Hacc Hle; simpl in *; [lia|].
    apply Forall_cons in Hl as [Hw Hl]. unfold in_width in Hw. simpl in Hw. specialize (Hb l Hl).
    assert (E : saturating_add 64 acc w = acc + w) by (apply Z.min_l; lia).
    rewrite E, IH; [lia|done|lia|lia]. }
  specialize (Hb cs Hu). split; [|nia]. rewrite H; [lia|done|lia|unfold umax; nia].
Qed.

Lemma lottery_scan_good cs : forall cursor,
  Forall (fun iw => 0 <= iw.2) cs -> 0 <= cursor < list_sum_Z (map snd cs) ->
  exists idx w, lottery_scan cs cursor = Some idx /\ (idx, w) ∈ cs /\ 0 < w.
Proof.
  induction cs as [|[x w] cs IH]; intros cursor HF Hc; simpl in *; [lia|].
  apply Forall_cons in HF as [Hw HF]. simpl in Hw.
  destruct (Z.eqb_spec w 0) as [->|].
  { destruct (IH cursor HF) as (i & v & ? & ? & ?); [lia|]. exists i, v. split_and!; [done| |done].
    by apply list_elem_of_further. }
  destruct (Z.ltb_spec cursor w).
  { exists x, w. split_and!; [done|apply list_elem_of_here|lia]. }
  unfold saturating_sub. rewrite Z.max_r by lia.
  destruct (IH (cursor - w) HF) as (i & v & ? & ? & ?); [lia|]. exists i, v. split_and!; [done| |done].
  by apply list_elem_of_further.
Qed.

Lemma sum_zero_iff cs :
  Forall (fun iw : nat * Z => 0 <= iw.2) cs ->
  list_sum_Z (map snd cs) = 0 -> Forall (fun iw : nat * Z => iw.2 = 0) cs.
Proof.
  induction 1 as [|[x w] cs Hw HF IH]; intros Hs; [done|]. simpl in *.
  assert (H := list_sum_ge (map snd cs) 0). rewrite Z.mul_0_r in H.
  assert (0 <= list_sum_Z (map snd cs)) by (apply H; by apply Forall_map). constructor; [simpl; lia|].
  apply IH. lia.
Qed.

Lemma weights_nonneg cs : weights_ok cs -> Forall (fun iw : nat * Z => 0 <= iw.2) cs.
Proof. intros [Hu _]. eapply Forall_impl; [exact Hu|]. intros ? [? _]. done. Qed.

Lemma cyclic_good cs t :
  cs <> [] -> Forall (fun iw => iw.2 = 0) cs ->
  exists idx, fst <$> cyclic cs t = Some idx /\ good cs idx.
Proof.
  intros Hne Hz. destruct (cyclic_Some cs t Hne) as ([x w] & -> & Hin). exists x. split; [done|].
  exists w. split; [done|by right].
Qed.

Lemma lottery_vec_good cs tick :
  weights_ok cs -> cs <> [] ->
  exists idx, pick_wrr_lottery_vec cs tick = Some idx /\ good cs idx.
Proof.
  intros Hok Hne. unfold pick_wrr_lottery_vec. rewrite bool_decide_eq_false_2 by done.
  destruct (total_weight_exact cs Hok) as [-> Hb]. assert (Hnn := weights_nonneg cs Hok).
  destruct (Z.eqb_spec (list_sum_Z (map snd cs)) 0) as [E|].
  - apply cyclic_good; [done|]. by apply sum_zero_iff.
  - destruct (lottery_scan_good cs (golden_ratio_hash tick mod list_sum_Z (map snd cs)) Hnn)
      as (idx & w & -> & Hin & Hw); [apply Z.mod_pos_bound; lia|].
    exists idx. split; [done|]. exists w. split; [done|by left].
Qed.

(** ** Binary search *)

Lemma sorted_lookup_lt (l : list nat) i j x y :
  StronglySorted lt l -> l !! i = Some x -> l !! j = Some y -> (i < j)%nat -> (x < y)%nat.
Proof.
  intros Hs. revert i j. induction Hs as [|a l Hs IH HF]; intros [|i] [|j] Hx Hy Hij; simplify_eq/=; try lia.
  - rewrite Forall_forall in HF. apply HF. by eapply list_elem_of_lookup_2.
  - eapply IH; [done..|lia].
Qed.

Lemma binary_search_finds l k pos w : forall fuel lo hi,
  StronglySorted lt (map fst l) -> l !! pos = Some (k, w) ->
  (lo <= pos < hi)%nat -> (hi <= length l)%nat -> (hi - lo < fuel)%nat ->
  binary_search fuel l k lo hi = Some pos.
Proof.
  induction fuel as [|fuel IH]; intros lo hi Hs Hp Hr Hh Hf; [lia|]. cbn [binary_search].
  rewrite (proj2 (Nat.ltb_lt lo hi)) by lia.
  assert (Hmid : ((hi - lo) / 2 <= hi - lo /\ 2 * ((hi - lo) / 2) <= hi - lo)%nat)
    by (split; [apply Nat.Div0.div_le_upper_bound; lia|apply Nat.Div0.mul_div_le]).
  set (mid := (lo + (hi - lo) / 2)%nat) in *. assert (Hm : (lo <= mid < hi)%nat) by lia.
  destruct (lookup_lt_is_Some_2 l mid) as [[i v] Hi]; [lia|]. rewrite Hi.
  assert (Hlt : forall a b x y, l !! a = Some x -> l !! b = Some y -> (a < b)%nat -> (x.1 < y.1)%nat).
  { intros a b x y Ha Hb. apply (sorted_lookup_lt (map fst l)); [done|by rewrite list_lookup_fmap, Ha|].
    by rewrite list_lookup_fmap, Hb. }
  destruct (Nat.eqb_spec i k) as [->|Hne].
  { destruct (Nat.lt_trichotomy mid pos) as [Hc|[->|Hc]]; [|done|].
    - specialize (Hlt _ _ _ _ Hi Hp Hc). simpl in Hlt. lia.
    - specialize (Hlt _ _ _ _ Hp Hi Hc). simpl in Hlt. lia. }
  destruct (Nat.ltb_spec i k) as [Hik|Hik].
  - apply IH; [done|done| |lia|lia]. split; [|lia].
    destruct (Nat.lt_trichotomy mid pos) as [Hc|[->|Hc]]; [lia|congruence|].
    specialize (Hlt _ _ _ _ Hp Hi Hc). simpl in Hlt. lia.
  - apply IH; [done|done| |lia|lia]. split; [lia|].
    destruct (Nat.lt_trichotomy mid pos) as [Hc|[->|Hc]]; [|congruence|lia].
    specialize (Hlt _ _ _ _ Hi Hp Hc). simpl in Hlt. lia.
Qed.

Lemma resolve_candidate cs idx :
  StronglySorted lt (map fst cs) -> idx ∈ map fst cs -> resolve_wrr_vec_candidate cs idx = Some idx.
Proof.
  intros Hs ([k w] & -> & Hin)%list_elem_of_fmap. apply list_elem_of_lookup_1 in Hin as [pos Hpos].
  unfold resolve_wrr_vec_candidate. assert (Hl := lookup_lt_Some _ _ _ Hpos).
  rewrite (binary_search_finds cs k pos w) by (done || lia). by rewrite Hpos.
Qed.

(** ** A schedule that fits its candidates *)

Definition sched_for (cs : list (nat * Z)) (s : WrrSchedule) : Prop :=
  match build_smooth_wrr_order cs with
  | Smooth o => order s = o /\ zero_weight s = false
  | ZeroWeight => order s = [] /\ zero_weight s = true
  | LotteryOnly => order s = [] /\ zero_weight s = false
  end.

Lemma schedule_of_for k cs seed n : sched_for cs (schedule_of k cs seed n).
Proof. unfold sched_for, schedule_of. by destruct (build_smooth_wrr_order cs). Qed.

Lemma schedule_of_key k cs seed n : key (schedule_of k cs seed n) = k.
Proof. unfold schedule_of. by destruct (build_smooth_wrr_order cs). Qed.

Lemma positive_good cs x : weights_ok cs -> x ∈ map fst (positive cs) -> good cs x.
Proof.
  intros Hok ([y w] & -> & [Hw Hin]%list_elem_of_filter)%list_elem_of_fmap.
  exists w. split; [done|by left].
Qed.

Lemma order_good cs o x :
  weights_ok cs -> build_smooth_wrr_order cs = Smooth o -> x ∈ o -> good cs x.
Proof.
  intros Hok Hb Hx. apply positive_good; [done|].
  destruct (smooth_is_schedule cs o Hok Hb) as (-> & _). destruct (bounded_facts cs Hok) as (<- & _).
  unfold slot_targets in Hx. apply list_elem_of_omap in Hx as (sl & _ & ([y w] & Hy & ->)%fmap_Some).
  apply list_elem_of_fmap. exists (y, w). split; [done|]. by eapply list_elem_of_lookup_2.
Qed.

(** Which ticket is drawn and what is read with it. *)
Definition read_schedule (cs : list (nat * Z)) (s : WrrSchedule) (t : Z) : option nat :=
  if zero_weight s then fst <$> cyclic cs t
  else if bool_decide (order s = []) then pick_wrr_lottery_vec cs t
  else cyclic (order s) t.

Lemma smooth_order_nonempty cs o :
  weights_ok cs -> build_smooth_wrr_order cs = Smooth o -> o <> [].
Proof.
  intros Hok Hb ->. destruct (smooth_is_schedule cs [] Hok Hb) as (Ho & Hne & Hw).
  destruct (bounded_facts cs Hok) as (_ & _ & Hpos).
  assert (Hwne : map snd (bounded_weights cs) <> []) by (intros Hc; by apply fmap_nil_inv in Hc).
  assert (HP := W_bounds _ (period cs) Hpos eq_refl Hwne Hw).
  assert (Hsl := schedule_slots _ (period cs) Hpos eq_refl Hwne Hw (Z.to_nat (period cs))).
  rewrite length_map in Hsl. destruct (slot_targets_length _ _ Hsl) as [Hl _].
  rewrite <- Ho, (schedule_length _ (period cs)) in Hl by done. simpl in Hl. lia.
Qed.

Lemma read_good cs s t :
  weights_ok cs -> cs <> [] -> sched_for cs s ->
  exists idx, read_schedule cs s t = Some idx /\ good cs idx.
Proof.
  intros Hok Hne Hs. unfold sched_for in Hs. unfold read_schedule.
  destruct (build_smooth_wrr_order cs) as [o| |] eqn:Eb; destruct Hs as [Ho Hz]; rewrite Ho, Hz.
  - assert (Hon := smooth_order_nonempty cs o Hok Eb). rewrite bool_decide_eq_false_2 by done.
    destruct (cyclic_Some o t Hon) as (x & Hx & Hin). exists x. split; [done|]. by eapply order_good.
  - apply cyclic_good; [done|]. unfold build_smooth_wrr_order in Eb.
    destruct (Z.eqb_spec (positive_gcd cs) 0) as [E|Hg].
    + rewrite positive_gcd_spec in E by apply Hok. apply list_gcd_zero in E. by apply Forall_map in E.
    + exfalso. assert (Hbn := bounded_nonempty cs Hok Hg). destruct (bounded_facts cs Hok) as (_ & _ & Hpos).
      apply list_sum_ge in Hpos. rewrite length_map in Hpos.
      assert (length (bounded_weights cs) <> 0%nat) by (intros Hc; by apply length_zero_iff_nil in Hc).
      destruct (Z.leb_spec (list_sum_Z (map snd (bounded_weights cs))) 0); [lia|].
      destruct (checked_mul _ _ _); [case_match|]; done.
  - simpl. by apply lottery_vec_good.
Qed.

(** ** Both pick functions read the schedule *)

Lemma pick_vec_reads shard cs addr s st :
  cand_ok cs -> store st !! addr = Some s -> key s <> Invalid -> sched_for cs s ->
  pick_wrr_vec_schedule shard cs addr st
  = (read_schedule cs s (ticket shard addr st).1, (ticket shard addr st).2).
Proof.
  intros [Hok Hne Hsort] Ha Hk Hs. unfold pick_wrr_vec_schedule, read_schedule. rewrite Ha.
  destruct (ticket shard addr st) as [t st'] eqn:Et. simpl in *.
  destruct (zero_weight s) eqn:Ez; [done|]. unfold is_lottery_only. rewrite Ez.
  rewrite (bool_decide_eq_true_2 (key s <> Invalid)), andb_true_r by done. simpl. rewrite andb_true_r.
  case_bool_decide as Ho; [done|]. unfold pick_from_wrr_schedule.
  rewrite bool_decide_eq_false_2, Et by done. simpl. f_equal.
  fold (cyclic (order s) t). destruct (cyclic_Some (order s) t Ho) as (x & -> & Hx). simpl.
  apply resolve_candidate; [done|]. unfold sched_for in Hs.
  destruct (build_smooth_wrr_order cs) as [o| |] eqn:Eb; destruct Hs as [Ho' Hz]; try congruence.
  rewrite Ho' in Hx. destruct (order_good cs o x Hok Eb Hx) as (w & Hin & _).
  apply list_elem_of_fmap. by exists (x, w).
Qed.

Section BitsetPath.
Context (targets : list Z) (h : HealthBitset).
Hypothesis Hh : bitset_wf h.
Hypothesis Hcand : cand_ok (weigh targets (elements_of h)).

Lemma map_fst_weigh idxs : map fst (weigh targets idxs) = idxs.
Proof. unfold weigh. rewrite map_map. apply map_id. Qed.

Lemma elements_nonempty : elements_of h <> [].
Proof. intros E. apply (cand_nonempty _ Hcand). by rewrite E. Qed.

Lemma cyclic_weigh idxs t : fst <$> cyclic (weigh targets idxs) t = cyclic idxs t.
Proof.
unfold cyclic, weigh. rewrite length_map, list_lookup_fmap.
by destruct (idxs !! Z.to_nat (t mod Z.of_nat (length idxs))).
Qed.

Lemma nth_set_bit_cyclic t : 0 <= t -> nth_set_bit h t = cyclic (elements_of h) t.
Proof. intros. apply nth_set_bit_spec; [done|apply elements_nonempty|done]. Qed.

Lemma lottery_bitset_eq tick :
0 <= tick ->
pick_wrr_lottery_bitset targets h tick = pick_wrr_lottery_vec (weigh targets (elements_of h)) tick.
Proof.
intros Ht. unfold pick_wrr_lottery_bitset, pick_wrr_lottery_vec.
rewrite (bool_decide_eq_false_2 (weigh targets (elements_of h) = [])) by apply Hcand.
assert (Hn : (0 < length (elements_of h))%nat).
{ assert (H := elements_nonempty). destruct (elements_of h); simpl; [done|lia]. }
unfold count. rewrite (wf_len h Hh), (proj2 (Z.eqb_neq _ _)) by lia.
rewrite !for_each_set_bit_spec by done.
assert (Etot : forall l acc, foldl (fun t idx => saturating_add 64 t (weight targets idx)) acc l
  = foldl (fun t iw => saturating_add 64 t iw.2) acc (weigh targets l)).
{ induction l as [|x l IH]; intros acc; simpl; [done|]. apply IH. }
rewrite Etot. set (total := foldl _ 0 (weigh _ _)). destruct (Z.eqb_spec total 0).
- assert (Hm := Z.mod_pos_bound tick (Z.of_nat (length (elements_of h)))).
  rewrite nth_set_bit_cyclic, cyclic_weigh by lia. unfold cyclic. by rewrite Z.mod_mod by lia.
- generalize (golden_ratio_hash tick mod total). clear. induction (elements_of h) as [|x l IH]; intros cursor; [done|].
  simpl. destruct (Z.eqb_spec (weight targets x) 0); [apply IH|]. destruct (Z.ltb_spec cursor (weight targets x)); [|apply IH].
  clear. induction l as [|y l IH]; [done|]. exact IH.
Qed.

Lemma pick_bitset_reads shard addr s st :
store st !! addr = Some s -> key s <> Invalid -> sched_for (weigh targets (elements_of h)) s ->
0 <= (ticket shard addr st).1 ->
pick_wrr_bitset_schedule targets shard h addr st
= (read_schedule (weigh targets (elements_of h)) s (ticket shard addr st).1, (ticket shard addr st).2).
Proof.
intros Ha Hk Hs Ht. unfold pick_wrr_bitset_schedule, read_schedule. rewrite Ha.
destruct (ticket shard addr st) as [t st'] eqn:Et. simpl in *.
destruct (zero_weight s) eqn:Ez; [by rewrite nth_set_bit_cyclic, cyclic_weigh|].
unfold is_lottery_only. rewrite Ez.
rewrite (bool_decide_eq_true_2 (key s <> Invalid)), andb_true_r by done. simpl. rewrite andb_true_r.
case_bool_decide as Ho; [by rewrite lottery_bitset_eq|]. unfold pick_from_wrr_schedule.
rewrite bool_decide_eq_false_2, Et by done. simpl. f_equal.
fold (cyclic (order s) t). destruct (cyclic_Some (order s) t Ho) as (x & -> & Hx). simpl.
unfold sched_for in Hs.
destruct (build_smooth_wrr_order (weigh targets (elements_of h))) as [o| |] eqn:Eb; destruct Hs as [Ho' Hz]; try congruence.
rewrite Ho' in Hx. destruct (order_good _ o x (cand_weights _ Hcand) Eb Hx) as (w & Hin & _).
assert (Hin' : x ∈ elements_of h).
{ rewrite <- (map_fst_weigh (elements_of h)). apply list_elem_of_fmap. by exists (x, w). }
rewrite (proj2 (contains_spec h x (proj1 (wf_bits h Hh)) (members_bound _ x (wf_bits h Hh) Hin'))); done.
Qed.

Lemma build_bitset_weighted :
for_each_set_bit h (fun l idx => l ++ [(idx, weight targets idx)]) [] = weigh targets (elements_of h).
Proof.
rewrite for_each_set_bit_spec by done.
assert (H : forall l acc, foldl (fun l idx => l ++ [(idx, weight targets idx)]) acc l = acc ++ weigh targets l).
{ induction l as [|x l IH]; intros acc; simpl; [by rewrite app_nil_r|]. by rewrite IH, <- app_assoc. }
apply H.
Qed.
End BitsetPath.

(** ** The interface of a selection path

    What the lane needs from a candidate representation: a cache key, a lookup
    by that key, a pick from a schedule and a lottery. *)

Class WrrPath := {
  path_key : WrrScheduleKey;
  path_cands : list (nat * Z);
  path_lookup : WrrLaneState -> option nat;
  path_pick : nat -> nat -> WrrLaneState -> option nat * WrrLaneState;
  path_lottery : Z -> option nat;
}.

Definition key_indices (k : WrrScheduleKey) : option (list nat) :=
  match k with
  | Invalid => None
  | Bitset value => Some (members value)
  | Indices indices => Some indices
  end.

Class WrrPathLaws (targets : list Z) (P : WrrPath) : Prop := {
  path_cand_ok : cand_ok path_cands;
  path_key_cands : exists idxs, key_indices path_key = Some idxs /\ path_cands = weigh targets idxs;
  path_lookup_key : exists p, (forall k, p k = true <-> k = path_key)
    /\ forall st, path_lookup st = find_slot p (store st) (slots st);
  path_pick_reads : forall shard addr s st,
    store st !! addr = Some s -> key s <> Invalid -> sched_for path_cands s ->
    0 <= (ticket shard addr st).1 ->
    path_pick shard addr st = (read_schedule path_cands s (ticket shard addr st).1, (ticket shard addr st).2);
  path_lottery_vec : forall t, 0 <= t -> path_lottery t = pick_wrr_lottery_vec path_cands t;
}.

Definition fallback_via {P : WrrPath} (st : WrrLaneState) : option nat * WrrLaneState :=
  let '(t, st) := next_miss_fallback st in (path_lottery t, st).

Definition build_via {P : WrrPath} (n : Z) (st : WrrLaneState) : WrrSchedule * WrrLaneState :=
  let '(seed, st) := next_schedule_seed st in (schedule_of path_key path_cands seed n, st).

Definition rebuild_via {P : WrrPath} (shard : nat) (locked : bool) (n : Z) (st : WrrLaneState)
    : option nat * WrrLaneState :=
  if locked then
    match path_lookup st with
    | Some addr => path_pick shard addr st
    | None =>
      let '(publish, st) := should_publish_on_miss st in
      if publish then
        let '(new_schedule, st) := build_via n st in
        let '(addr, st) := alloc new_schedule st in
        path_pick shard addr (publish_schedule addr st)
      else fallback_via st
    end
  else
    match path_lookup st with
    | Some addr => path_pick shard addr st
    | None => fallback_via st
    end.

Definition select_via {P : WrrPath} (shard : nat) (locked : bool) (n : Z) (st : WrrLaneState)
    : option nat * WrrLaneState :=
  match path_lookup st with
  | Some addr =>
    let '(r, st) := path_pick shard addr st in
    match r with
    | Some target => (Some target, st)
    | None => rebuild_via shard locked n st
    end
  | None => rebuild_via shard locked n st
  end.

(** The two instances. *)

#[export] Instance bitset_path (targets : list Z) (h : HealthBitset) : WrrPath := {|
  path_key := Bitset (bits h);
  path_cands := weigh targets (elements_of h);
  path_lookup := fun st => lookup_bitset_schedule st (bits h);
  path_pick := fun shard addr st => pick_wrr_bitset_schedule targets shard h addr st;
  path_lottery := pick_wrr_lottery_bitset targets h;
|}.

#[export] Instance vec_path (cs : list (nat * Z)) : WrrPath := {|
  path_key := Indices (map fst cs);
  path_cands := cs;
  path_lookup := fun st => lookup_vec_schedule st cs;
  path_pick := fun shard addr st => pick_wrr_vec_schedule shard cs addr st;
  path_lottery := pick_wrr_lottery_vec cs;
|}.

#[export] Instance bitset_path_laws targets h :
  bitset_wf h -> cand_ok (weigh targets (elements_of h)) -> WrrPathLaws targets (bitset_path targets h).
Proof.
  intros Hh Hc. constructor; simpl.
  - done.
  - by eexists.
  - exists (fun k => match k with Bitset value => value =? bits h | _ => false end). split; [|done].
    intros []; try done. rewrite Z.eqb_eq. split; [by intros ->|by intros [= ->]].
  - intros. by apply pick_bitset_reads.
  - intros. by apply lottery_bitset_eq.
Qed.

#[export] Instance vec_path_laws targets idxs :
  cand_ok (weigh targets idxs) -> WrrPathLaws targets (vec_path (weigh targets idxs)).
Proof.
  intros Hc. constructor; simpl.
  - done.
  - rewrite map_fst_weigh. by eexists.
  - exists (fun k => match k with
      | Indices indices => (length indices =? length (weigh targets idxs))%nat
          && bool_decide (indices = map fst (weigh targets idxs))
      | _ => false end).
    split; [|done]. intros [| |indices]; try done.
    rewrite andb_true_iff, Nat.eqb_eq, bool_decide_eq_true. split.
    + by intros [_ ->].
    + intros [= ->]. split; [by rewrite length_map|done].
  - intros. by apply pick_vec_reads.
  - done.
Qed.

Lemma select_bitset_via targets shard locked h st :
  bitset_wf h -> is_active st = true -> is_empty h = false ->
  select_wrr_bitset targets shard locked h st
  = select_via (P := bitset_path targets h) shard locked (count h) st.
Proof.
  intros Hh Ha He. unfold select_wrr_bitset. rewrite Ha, He. simpl.
  unfold rebuild_wrr_schedule_bitset, build_wrr_schedule_bitset. rewrite build_bitset_weighted by done. done.
Qed.

Lemma select_vec_via shard locked cs st :
  is_active st = true -> cs <> [] ->
  select_wrr_vec shard locked cs st
  = select_via (P := vec_path cs) shard locked (Z.of_nat (length cs)) st.
Proof.
  intros Ha Hne. unfold select_wrr_vec. rewrite Ha, bool_decide_eq_false_2 by done. done.
Qed.

(** ** The lane invariant *)

Record sched_wf (targets : list Z) (s : WrrSchedule) : Prop := {
  sched_counters : Forall is_u64 (counters s);
  sched_key : forall idxs, key_indices (key s) = Some idxs -> sched_for (weigh targets idxs) s;
}.

Definition addr_wf (targets : list Z) (heap : list WrrSchedule) (a : nat) : Prop :=
  exists s, heap !! a = Some s /\ sched_wf targets s.

Record lane_ok (targets : list Z) (st : WrrLaneState) : Prop := {
  lane_active : is_active st = true;
  lane_slots : Forall (addr_wf targets (store st)) (slots st);
  lane_miss : 0 <= miss_fallbacks st;
}.

Lemma bump_wf targets shard s : sched_wf targets s -> sched_wf targets (bump_counter shard s).
Proof.
  intros [Hc Hk]. constructor; [|done]. simpl. apply Forall_alter; [done|].
  intros c _ _. apply wrap_in_width. lia.
Qed.

Lemma addr_wf_ticket targets shard addr heap a :
  addr_wf targets heap a -> addr_wf targets (alter (bump_counter shard) addr heap) a.
Proof.
  intros (s & Hs & Hwf). unfold addr_wf. destruct (decide (addr = a)) as [->|Hne].
  - exists (bump_counter shard s). split; [|by apply bump_wf].
    by rewrite list_lookup_alter, Hs, decide_True.
  - exists s. by rewrite list_lookup_alter_ne.
Qed.

Lemma ticket_ok targets shard addr st :
  lane_ok targets st -> lane_ok targets (ticket shard addr st).2.
Proof.
  intros [Ha Hs Hm]. constructor; [done| |done]. simpl. eapply Forall_impl; [exact Hs|].
  intros a. apply addr_wf_ticket.
Qed.

Lemma ticket_nonneg targets shard addr st :
  addr_wf targets (store st) addr -> 0 <= (ticket shard addr st).1.
Proof.
  intros (s & Hs & Hwf). simpl. rewrite Hs. destruct (counters s !! shard) as [c|] eqn:Ec; [|done].
  apply (Forall_lookup_1 is_u64 _ shard c (sched_counters _ _ Hwf) Ec).
Qed.

Lemma schedule_of_wf targets k idxs seed n :
  key_indices k = Some idxs -> sched_wf targets (schedule_of k (weigh targets idxs) seed n).
Proof.
  intros Hk. constructor.
  - assert (H : forall zw o hc, Forall is_u64 (counters (with_seed k o zw seed hc))).
    { intros. apply Forall_map, Forall_forall. intros i _. apply wrap_in_width. lia. }
    unfold schedule_of. by destruct (build_smooth_wrr_order _).
  - intros idxs' Hk'. rewrite schedule_of_key, Hk in Hk'. injection Hk' as <-. apply schedule_of_for.
Qed.

Lemma publish_ok targets s st :
  lane_ok targets st -> sched_wf targets s ->
  lane_ok targets (publish_schedule (alloc s st).1 (alloc s st).2)
  /\ store (publish_schedule (alloc s st).1 (alloc s st).2) !! (alloc s st).1 = Some s.
Proof.
  intros [Ha Hs Hm] Hwf. unfold publish_schedule. simpl.
  assert (Hnew : (store st ++ [s]) !! length (store st) = Some s) by (by apply list_lookup_middle).
  assert (Hold : Forall (addr_wf targets (store st ++ [s])) (slots st)).
  { eapply Forall_impl; [exact Hs|]. intros a (s' & Hs' & Hw). exists s'. split; [|done].
    by apply lookup_app_l_Some. }
  destruct (Nat.eqb_spec (length (slots st)) 0); simpl; (split; [constructor; [done| |done]|done]); [done|].
  apply Forall_insert; [done|]. by exists s.
Qed.

Lemma find_slot_Some p heap addrs a :
  find_slot p heap addrs = Some a -> a ∈ addrs /\ exists s, heap !! a = Some s /\ p (key s) = true.
Proof.
  induction addrs as [|b addrs IH]; simpl; [done|].
  destruct (heap !! b) as [s|] eqn:E; [destruct (p (key s)) eqn:Ep|]; intros H.
  - injection H as ->. split; [apply list_elem_of_here|]. by exists s.
  - destruct (IH H) as [? ?]. split; [by apply list_elem_of_further|done].
  - destruct (IH H) as [? ?]. split; [by apply list_elem_of_further|done].
Qed.

Section Via.
Context {targets : list Z} {P : WrrPath} {HP : WrrPathLaws targets P}.

Lemma key_valid : path_key <> Invalid.
Proof. destruct path_key_cands as (idxs & Hk & _). by intros E; rewrite E in Hk. Qed.

Lemma wf_for s : sched_wf targets s -> key s = path_key -> sched_for path_cands s.
Proof.
intros Hwf Hk. destruct path_key_cands as (idxs & Hki & ->). apply (sched_key _ _ Hwf). by rewrite Hk.
Qed.

Lemma path_lookup_Some st addr :
lane_ok targets st -> path_lookup st = Some addr ->
addr ∈ slots st
/\ exists s, store st !! addr = Some s /\ key s = path_key /\ sched_for path_cands s
     /\ 0 <= (ticket 0 addr st).1.
Proof.
intros Hok Hl. destruct path_lookup_key as (p & Hp & Hf). rewrite Hf in Hl.
apply find_slot_Some in Hl as [Hin (s & Hs & Hk)]. split; [done|]. exists s.
assert (Haw : addr_wf targets (store st) addr).
{ assert (HF := lane_slots _ _ Hok). rewrite Forall_forall in HF. by apply HF. }
destruct Haw as (s' & Hs' & Hwf). rewrite Hs in Hs'. injection Hs' as <-. apply Hp in Hk.
split_and!; [done|done|by apply wf_for|]. eapply ticket_nonneg. by exists s.
Qed.

(** Picking through a well-formed address with this path's key. *)
Lemma path_pick_good shard addr s st :
lane_ok targets st -> store st !! addr = Some s -> key s = path_key -> sched_wf targets s ->
exists idx, path_pick shard addr st = (Some idx, (ticket shard addr st).2)
  /\ read_schedule path_cands s (ticket shard addr st).1 = Some idx
  /\ good path_cands idx /\ lane_ok targets (ticket shard addr st).2.
Proof.
intros Hok Hs Hk Hwf. assert (Hf := wf_for s Hwf Hk).
assert (Ht : 0 <= (ticket shard addr st).1) by (eapply ticket_nonneg; by exists s).
destruct (read_good path_cands s (ticket shard addr st).1) as (idx & Hr & Hg);
  [apply path_cand_ok|apply path_cand_ok|done|].
exists idx. split_and!; [|done|done|by apply ticket_ok].
rewrite (path_pick_reads shard addr s st Hs); [by rewrite Hr|rewrite Hk; apply key_valid|done|done].
Qed.

Lemma fallback_good st :
lane_ok targets st ->
exists idx, fallback_via st = (Some idx, (next_miss_fallback st).2)
  /\ good path_cands idx /\ lane_ok targets (next_miss_fallback st).2.
Proof.
intros Hok. unfold fallback_via. simpl.
destruct (lottery_vec_good path_cands (miss_fallbacks st)) as (idx & Hi & Hg);
  [apply path_cand_ok|apply path_cand_ok|].
exists idx. rewrite path_lottery_vec by apply Hok. rewrite Hi. split_and!; [done|done|].
destruct Hok as [Ha Hs Hm]. constructor; [done|done|]. apply wrap_in_width. lia.
Qed.

(** A hit: the cached schedule is read and its counter advanced. *)
Lemma select_hit shard locked n st addr :
lane_ok targets st -> path_lookup st = Some addr ->
exists s idx, store st !! addr = Some s /\ key s = path_key /\ sched_wf targets s
  /\ select_via shard locked n st = (Some idx, (ticket shard addr st).2)
  /\ read_schedule path_cands s (ticket shard addr st).1 = Some idx
  /\ good path_cands idx /\ lane_ok targets (ticket shard addr st).2.
Proof.
intros Hok Hl. destruct (path_lookup_Some st addr Hok Hl) as (Hin & s & Hs & Hk & _).
assert (Hwf : sched_wf targets s).
{ assert (HF := lane_slots _ _ Hok). rewrite Forall_forall in HF.
  destruct (HF addr Hin) as (s' & Hs' & ?). congruence. }
destruct (path_pick_good shard addr s st Hok Hs Hk Hwf) as (idx & Hp & Hr & Hg & Hok').
exists s, idx. split_and!; try done. unfold select_via. by rewrite Hl, Hp.
Qed.

(** The state a miss that publishes leaves before its pick. *)
Definition published (n : Z) (st : WrrLaneState) : WrrLaneState :=
let s := schedule_of path_key path_cands (schedule_seed st) n in
publish_schedule (alloc s (next_schedule_seed st).2).1 (alloc s (next_schedule_seed st).2).2.

Lemma select_miss shard locked n st :
lane_ok targets st -> path_lookup st = None ->
exists idx st', select_via shard locked n st = (Some idx, st')
  /\ good path_cands idx /\ lane_ok targets st'
  /\ (if locked && (should_publish_on_miss st).1
      then st' = (ticket shard (length (store st)) (published n (should_publish_on_miss st).2)).2
      else st' = (next_miss_fallback (if locked then (should_publish_on_miss st).2 else st)).2).
Proof.
intros Hok Hl. unfold select_via, rebuild_via. rewrite Hl.
assert (Hok' : lane_ok targets (should_publish_on_miss st).2).
{ unfold should_publish_on_miss. destruct Hok. by destruct (has_free_slot st). }
assert (Est : store (should_publish_on_miss st).2 = store st)
  by (unfold should_publish_on_miss; by destruct (has_free_slot st)).
destruct locked; cbn [andb].
2:{ destruct (fallback_good st Hok) as (idx & -> & Hg & Hok''). by exists idx, (next_miss_fallback st).2. }
destruct (should_publish_on_miss st) as [publish st1]. cbn [fst snd] in *. destruct publish.
2:{ destruct (fallback_good st1 Hok') as (idx & -> & Hg & Hok''). by exists idx, (next_miss_fallback st1).2. }
unfold build_via. cbn [next_schedule_seed]. rewrite <- Est. fold (published n st1).
set (s := schedule_of path_key path_cands (schedule_seed st1) n).
assert (Hwf : sched_wf targets s).
{ destruct path_key_cands as (idxs & Hki & Hc). unfold s. rewrite Hc. by apply schedule_of_wf. }
destruct (publish_ok targets s (next_schedule_seed st1).2) as [Hpub Hnew];
  [by destruct Hok'; constructor|done|].
destruct (path_pick_good shard (length (store st1)) s (published n st1))
  as (idx & Hp & _ & Hg & Hok''); [exact Hpub|exact Hnew|apply schedule_of_key|done|].
exists idx, (ticket shard (length (store st1)) (published n st1)).2. split_and!; [exact Hp|done|done|done].
Qed.

Lemma select_via_good shard locked n st :
lane_ok targets st ->
exists idx st', select_via shard locked n st = (Some idx, st')
  /\ good path_cands idx /\ lane_ok targets st'.
Proof.
intros Hok. destruct (path_lookup st) as [addr|] eqn:El.
- destruct (select_hit shard locked n st addr Hok El) as (s & idx & _ & _ & _ & Hs & _ & Hg & Hok').
  by exists idx, (ticket shard addr st).2.
- destruct (select_miss shard locked n st Hok El) as (idx & st' & Hs & Hg & Hok' & _). by exists idx, st'.
Qed.
End Via.

(** ** Runs *)

Inductive call :=
| BitsetCall (shard : nat) (locked : bool) (healthy : HealthBitset)
| VecCall (shard : nat) (locked : bool) (idxs : list nat).

Definition call_cands (targets : list Z) (c : call) : list (nat * Z) :=
  match c with
  | BitsetCall _ _ h => weigh targets (elements_of h)
  | VecCall _ _ idxs => weigh targets idxs
  end.

Definition call_ok (targets : list Z) (c : call) : Prop :=
  cand_ok (call_cands targets c)
  /\ match c with BitsetCall _ _ h => bitset_wf h | VecCall _ _ _ => True end.

Definition select (targets : list Z) (c : call) (st : WrrLaneState) : option nat * WrrLaneState :=
  match c with
  | BitsetCall shard locked h => select_wrr_bitset targets shard locked h st
  | VecCall shard locked idxs => select_wrr_vec shard locked (weigh targets idxs) st
  end.

Fixpoint run (targets : list Z) (calls : list call) (st : WrrLaneState)
    : list (option nat) * WrrLaneState :=
  match calls with
  | [] => ([], st)
  | c :: calls =>
    let '(r, st) := select targets c st in
    let '(rs, st) := run targets calls st in
    (r :: rs, st)
  end.

Definition call_path (targets : list Z) (c : call) : WrrPath :=
  match c with
  | BitsetCall _ _ h => bitset_path targets h
  | VecCall _ _ idxs => vec_path (weigh targets idxs)
  end.

Definition call_shard (c : call) : nat :=
  match c with BitsetCall s _ _ | VecCall s _ _ => s end.
Definition call_locked (c : call) : bool :=
  match c with BitsetCall _ l _ | VecCall _ l _ => l end.

Lemma call_path_laws targets c : call_ok targets c -> WrrPathLaws targets (call_path targets c).
Proof. destruct c; intros [Hc Hw]; [by apply bitset_path_laws|by apply vec_path_laws]. Qed.

Lemma call_path_cands targets c : @path_cands (call_path targets c) = call_cands targets c.
Proof. by destruct c. Qed.

Lemma select_is_via targets c st :
  call_ok targets c -> is_active st = true ->
  exists n, select targets c st = select_via (P := call_path targets c) (call_shard c) (call_locked c) n st.
Proof.
  destruct c as [s l h|s l idxs]; intros [Hc Hw] Ha; simpl.
  - exists (count h). apply select_bitset_via; [done..|]. unfold is_empty. rewrite (wf_len h Hw).
    apply Z.eqb_neq. intros E. apply (cand_nonempty _ Hc). simpl in *.
    destruct (elements_of h); [done|simpl in E; lia].
  - eexists. apply select_vec_via; [done|apply Hc].
Qed.

Lemma new_ok targets n : (0 < n)%nat -> lane_ok targets (new n).
Proof.
  intros Hn. unfold new. rewrite (proj2 (Nat.eqb_neq n 0)) by lia. constructor; [by apply Nat.ltb_lt| |done].
  apply Forall_forall. intros a [_ Ha]%elem_of_seq. exists invalid. split.
  - by apply lookup_replicate_2.
  - constructor; [|done]. apply Forall_replicate. done.
Qed.

Lemma run_good targets calls : forall st,
  lane_ok targets st -> Forall (call_ok targets) calls ->
  lane_ok targets (run targets calls st).2
  /\ Forall2 (fun c r => exists idx, r = Some idx /\ good (call_cands targets c) idx)
       calls (run targets calls st).1.
Proof.
  induction calls as [|c calls IH]; intros st Hok HF; [by split|].
  apply Forall_cons in HF as [Hc HF]. assert (HL := call_path_laws targets c Hc).
  destruct (select_is_via targets c st Hc (lane_active _ _ Hok)) as [n Hs].
  destruct (select_via_good (HP := HL) (call_shard c) (call_locked c) n st Hok)
    as (idx & st' & Hr & Hg & Hok').
  cbn [run]. rewrite Hs, Hr. destruct (IH st' Hok' HF) as [H1 H2].
  destruct (run targets calls st') as [rs st'']. split; [done|]. simpl. constructor; [|done].
  exists idx. by rewrite <- (call_path_cands targets c).
Qed.

(** Selection never fails and never picks what it should not: over any
    sequence of calls on one lane, from any threads, through either path, with
    or without winning the publish lock, every call with a candidate returns
    one of its own candidates, and one of positive weight unless all its
    candidates have weight zero. *)
Theorem wrr_select_total targets n calls :
  (0 < n)%nat -> Forall (call_ok targets) calls ->
  Forall2 (fun c r => exists idx, r = Some idx /\ good (call_cands targets c) idx)
    calls (run targets calls (new n)).1.
Proof. intros Hn HF. apply run_good; [by apply new_ok|done]. Qed.

Lemma cand_ok_weigh targets idxs :
  bool_decide (Forall is_u32 targets) = true -> idxs <> [] -> StronglySorted lt idxs ->
  Z.of_nat (length idxs) < 2 ^ 32 -> cand_ok (weigh targets idxs).
Proof.
  intros Hu%bool_decide_eq_true Hne Hs Hl. constructor.
  - split_and!.
    + apply Forall_map, Forall_forall. intros i _. simpl. unfold weight.
      destruct (targets !! i) as [w|] eqn:E; [|done]. by eapply Forall_lookup_1.
    + rewrite map_fst_weigh. clear -Hs. induction Hs as [|a l Hs IH HF]; constructor; [|done].
      intros Hin. rewrite Forall_forall in HF. specialize (HF a Hin). lia.
    + unfold weigh. by rewrite length_map.
  - intros E. apply Hne. unfold weigh in E. by apply fmap_nil_inv in E.
  - by rewrite map_fst_weigh.
Qed.

Lemma bitset_call_ok targets shard locked h :
  bitset_wf h -> is_empty h = false -> bool_decide (Forall is_u32 targets) = true ->
  call_ok targets (BitsetCall shard locked h).
Proof.
  intros Hh He Hu. split; [|done]. simpl. apply cand_ok_weigh; [done| | |].
  - intros E. unfold is_empty in He. rewrite (wf_len h Hh), E in He. done.
  - apply members_sorted, Hh.
  - assert (H := length_members_le _ (wf_bits h Hh)). lia.
Qed.

Lemma wrr_select_total_witness :
  Forall2 (fun c r => exists idx, r = Some idx /\ good (call_cands [5; 0; 2] c) idx)
    [BitsetCall 0 true (from_bits 7); VecCall 3 false [0; 1]%nat]
    (run [5; 0; 2] [BitsetCall 0 true (from_bits 7); VecCall 3 false [0; 1]%nat] (new 3)).1.
Proof.
  apply (wrr_select_total [5; 0; 2] 3); [lia|]. constructor; [|constructor; [|constructor]].
  - apply bitset_call_ok; [by apply from_bits_wf|reflexivity|reflexivity].
  - split; [|exact I]. apply cand_ok_weigh; [reflexivity|discriminate| |reflexivity].
    repeat constructor.
Defined.

(** ** Steady state *)

Lemma find_slot_keys p heap heap' addrs :
  (forall a, key <$> heap !! a = key <$> heap' !! a) ->
  find_slot p heap addrs = find_slot p heap' addrs.
Proof.
  intros Hk. induction addrs as [|a addrs IH]; simpl; [done|]. specialize (Hk a).
  destruct (heap !! a), (heap' !! a); simplify_eq/=; [by rewrite Hk, IH|done].
Qed.

Lemma bump_keys shard addr (heap : list WrrSchedule) a :
  key <$> alter (bump_counter shard) addr heap !! a = key <$> heap !! a.
Proof.
  destruct (decide (addr = a)) as [->|Hne]; [|by rewrite list_lookup_alter_ne].
  rewrite list_lookup_alter, decide_True by done. by destruct (heap !! a).
Qed.

(** The picks of one shard in a run of calls on one candidate set. *)
Definition shard_picks (k : nat) (shards : list (nat * bool)) (results : list (option nat)) : list nat :=
  omap (fun sr => if decide (sr.1.1 = k) then sr.2 else None) (zip shards results).

Definition calls_of (k : nat) (shards : list (nat * bool)) : nat :=
  length (filter (fun sl => sl.1 = k) shards).

Definition bitset_calls (h : HealthBitset) (shards : list (nat * bool)) : list call :=
  map (fun sl => BitsetCall sl.1 sl.2 h) shards.

Lemma counter_after_ticket k shard addr st s c :
  store st !! addr = Some s -> counters s !! k = Some c ->
  counters (bump_counter shard s) !! k
  = Some (if decide (shard = k) then wrapping_add 64 c 1 else c).
Proof.
  intros Hs Hc. simpl. destruct (decide (shard = k)) as [->|Hne].
  - by rewrite list_lookup_alter, Hc, decide_True.
  - by rewrite list_lookup_alter_ne.
Qed.

Lemma steady_run targets h k addr o :
  call_ok targets (BitsetCall 0 true h) ->
  build_smooth_wrr_order (weigh targets (elements_of h)) = Smooth o ->
  forall shards st s c,
    lane_ok targets st -> lookup_bitset_schedule st (bits h) = Some addr ->
    store st !! addr = Some s -> counters s !! k = Some c ->
    0 <= c -> c + Z.of_nat (calls_of k shards) <= 2 ^ 64 ->
    shard_picks k shards (run targets (bitset_calls h shards) st).1
    = omap id (map (fun j => cyclic o (c + Z.of_nat j)) (seq 0 (calls_of k shards))).
Proof.
  intros Hcall Hb. assert (HL := call_path_laws targets _ Hcall). simpl in HL.
  induction shards as [|[sh lk] shards IH]; intros st s c Hok Hl Hs Hc Hc0 Hle; [done|].
  assert (Hcall' : call_ok targets (BitsetCall sh lk h)) by exact Hcall.
  destruct (select_is_via targets _ st Hcall' (lane_active _ _ Hok)) as [n Hsel]. simpl in Hsel.
  destruct (select_hit (HP := HL) sh lk n st addr Hok Hl)
    as (s' & idx & Hs' & Hk & Hwf & Hvia & Hread & _ & Hok').
  rewrite Hs in Hs'. injection Hs' as <-.
  assert (Hf : sched_for (weigh targets (elements_of h)) s) by (by apply (wf_for (HP := HL))).
  unfold sched_for in Hf. rewrite Hb in Hf. destruct Hf as [Ho Hz].
  assert (Hon := smooth_order_nonempty _ o (cand_weights _ (proj1 Hcall)) Hb).
  set (st' := (ticket sh addr st).2) in *.
  assert (Hs2 : store st' !! addr = Some (bump_counter sh s))
    by (unfold st'; simpl; by rewrite list_lookup_alter, Hs, decide_True).
  assert (Hl2 : lookup_bitset_schedule st' (bits h) = Some addr).
  { rewrite <- Hl. apply find_slot_keys. intros a. apply bump_keys. }
  assert (Hc2 := counter_after_ticket k sh addr st s c Hs Hc).
  change (bitset_calls h ((sh, lk) :: shards)) with (BitsetCall sh lk h :: bitset_calls h shards).
  cbn [run select]. rewrite Hsel, Hvia.
  specialize (IH st' (bump_counter sh s) (if decide (sh = k) then wrapping_add 64 c 1 else c) Hok' Hl2 Hs2 Hc2).
  destruct (run targets (bitset_calls h shards) st') as [rs st'']. simpl in IH.
  unfold shard_picks, calls_of in *. cbn [zip zip_with fst snd omap list_omap]. rewrite filter_cons in *. cbn [fst] in *.
  destruct (decide (sh = k)) as [->|Hne].
  - cbn [length seq map omap list_omap] in *. rewrite Z.add_0_r.
    assert (Ec : wrapping_add 64 c 1 = if c + 1 =? 2 ^ 64 then 0 else c + 1).
    { unfold wrapping_add, wrap. destruct (Z.eqb_spec (c + 1) (2 ^ 64)) as [->|]; [done|]. apply Z.mod_small. lia. }
    unfold read_schedule in Hread. rewrite Ho, Hz, bool_decide_eq_false_2 in Hread by done.
    simpl in Hread. rewrite Hs, Hc in Hread. simpl in Hread. rewrite Hread. simpl. f_equal.
    destruct (Z.eqb_spec (c + 1) (2 ^ 64)) as [E|].
    + assert (En : length (filter (fun sl : nat * bool => sl.1 = k) shards) = 0%nat) by lia.
      rewrite En in *. rewrite Ec in IH. simpl in IH. rewrite IH by lia. done.
    + rewrite Ec in IH. rewrite IH by lia. f_equal. rewrite <- seq_shift, map_map. apply map_ext. intros j.
      f_equal. lia.
  - apply IH; lia.
Qed.

Lemma picks_Permutation x l l' : l ≡ₚ l' -> picks x l = picks x l'.
Proof. intros H. unfold picks. by rewrite H. Qed.

Lemma omap_id_Some {A} (l : list A) : omap id (map Some l) = l.
Proof. induction l as [|x l IH]; [done|]. simpl. by f_equal. Qed.

(** In the steady state every worker sees the exact ratio. Once a smooth
    schedule for a healthy set is cached, calls on that set from any mix of
    threads leave each counter shard a private walk: whenever one shard has
    made as many calls as a period has slots, each target has received exactly
    its bounded weight from that shard, wherever in the period the shard
    started and however the other shards' calls interleave. *)
Theorem wrr_steady_state_exact targets n calls h o k addr s c shards :
  (0 < n)%nat -> Forall (call_ok targets) calls -> call_ok targets (BitsetCall 0 true h) ->
  build_smooth_wrr_order (weigh targets (elements_of h)) = Smooth o ->
  let st := (run targets calls (new n)).2 in
  lookup_bitset_schedule st (bits h) = Some addr ->
  store st !! addr = Some s -> counters s !! k = Some c ->
  0 <= c -> c + Z.of_nat (length o) <= 2 ^ 64 -> calls_of k shards = length o ->
  forall x w, (x, w) ∈ bounded_weights (weigh targets (elements_of h)) ->
    picks x (shard_picks k shards (run targets (bitset_calls h shards) st).1) = w.
Proof.
  intros Hn HF Hcall Hb st Hl Hs Hc Hc0 Hle Hcalls x w Hx.
  destruct (run_good targets calls (new n) (new_ok targets n Hn) HF) as [Hok _]. fold st in Hok.
  rewrite (steady_run targets h k addr o Hcall Hb shards st s c) by (done || lia).
  rewrite Hcalls. rewrite (picks_Permutation x _ o).
  - by apply (smooth_period_counts _ o (cand_weights _ (proj1 Hcall)) Hb).
  - rewrite <- (omap_id_Some o) at 2. by rewrite (cyclic_window o c).
Qed.

Lemma wrr_steady_state_exact_witness :
  let st := (run [2; 1] [BitsetCall 0 true (from_bits 3)] (new 2)).2 in
  let shards := [(0%nat, true); (5%nat, false); (0%nat, false); (0%nat, true)] in
  picks 0 (shard_picks 0 shards (run [2; 1] (bitset_calls (from_bits 3) shards) st).1) = 2.
Proof.
  assert (Hc : forall s l, call_ok [2; 1] (BitsetCall s l (from_bits 3))).
  { intros. apply bitset_call_ok; [by apply from_bits_wf|reflexivity|reflexivity]. }
  eapply (wrr_steady_state_exact [2; 1] 2 [BitsetCall 0 true (from_bits 3)] (from_bits 3) [0; 1; 0]%nat 0 8 _ 1
    [(0%nat, true); (5%nat, false); (0%nat, false); (0%nat, true)]).
  - lia.
  - constructor; [apply Hc|constructor].
  - apply Hc.
  - vm_compute. reflexivity.
  - vm_compute. reflexivity.
  - vm_compute. reflexivity.
  - vm_compute. reflexivity.
  - lia.
  - vm_compute. discriminate.
  - vm_compute. reflexivity.
  - vm_compute. apply list_elem_of_here.
Defined.

(** ** The rate of rebuilds *)

Definition slot_keys (st : WrrLaneState) : list (option WrrScheduleKey) :=
  map (fun a => key <$> store st !! a) (slots st).

Record rate_inv (m : Z) (st : WrrLaneState) : Prop := {
  rate_slots : length (slots st) = WRR_SCHEDULE_CACHE_SLOTS;
  rate_cursor : publish_cursor st = rebuilds st;
  rate_rebuilds : 0 <= rebuilds st <= m;
  rate_tickets : 0 <= miss_publish_tickets st <= m;
  rate_free : forall i, (i < WRR_SCHEDULE_CACHE_SLOTS)%nat ->
    slot_keys st !! i = Some (Some Invalid) <-> rebuilds st <= Z.of_nat i;
  rate_count : if rebuilds st <? 8 then miss_publish_tickets st = 0
    else rebuilds st = 8 + (miss_publish_tickets st + 63) / 64;
}.

Lemma find_slot_None p heap addrs :
  find_slot p heap addrs = None ->
  forall a s, a ∈ addrs -> heap !! a = Some s -> p (key s) = false.
Proof.
  induction addrs as [|b addrs IH]; intros Hf a s Hin Ha; [by apply elem_of_nil in Hin|]. simpl in Hf.
  apply elem_of_cons in Hin as [->|Hin].
  - rewrite Ha in Hf. by destruct (p (key s)).
  - destruct (heap !! b) as [s'|]; [destruct (p (key s')); [done|]|]; by eapply IH.
Qed.

Lemma slot_keys_lookup st i k :
  slot_keys st !! i = Some (Some k) <->
  exists a s, slots st !! i = Some a /\ store st !! a = Some s /\ key s = k.
Proof.
  unfold slot_keys. rewrite list_lookup_fmap. split.
  - intros (a & Ha & Hk)%fmap_Some. symmetry in Hk. apply fmap_Some in Hk as (s & Hs & ->). by exists a, s.
  - intros (a & s & -> & Hs & <-). simpl. by rewrite Hs.
Qed.

Lemma free_slot_iff m st : rate_inv m st -> has_free_slot st = (rebuilds st <? 8).
Proof.
  intros Hr. unfold has_free_slot.
  destruct (find_slot _ (store st) (slots st)) as [a|] eqn:E; symmetry.
  - apply find_slot_Some in E as [Hin (s & Hs & Hp)]. apply list_elem_of_lookup_1 in Hin as [i Hi].
    assert (Hlt := lookup_lt_Some _ _ _ Hi). rewrite (rate_slots _ _ Hr) in Hlt.
    assert (Hle : rebuilds st <= Z.of_nat i).
    { apply (rate_free _ _ Hr); [done|]. apply slot_keys_lookup. exists a, s. split_and!; [done..|].
      by destruct (key s). }
    apply Z.ltb_lt. unfold WRR_SCHEDULE_CACHE_SLOTS in Hlt. lia.
  - apply Z.ltb_ge. destruct (Z.lt_ge_cases (rebuilds st) 8) as [Hlt|]; [exfalso|done].
    assert (H0 := rate_rebuilds _ _ Hr).
    assert (Hk : slot_keys st !! Z.to_nat (rebuilds st) = Some (Some Invalid))
      by (apply (rate_free _ _ Hr); unfold WRR_SCHEDULE_CACHE_SLOTS; lia).
    apply slot_keys_lookup in Hk as (a & s & Ha & Hs & Hk).
    apply (find_slot_None _ _ _ E a s) in Hs; [by rewrite Hk in Hs|]. by eapply list_elem_of_lookup_2.
Qed.

(** A change that leaves keys, cursor and tickets alone. *)
Lemma rate_same m st st' :
  rate_inv m st -> length (slots st') = length (slots st) -> slot_keys st' = slot_keys st ->
  publish_cursor st' = publish_cursor st -> rebuilds st' = rebuilds st ->
  miss_publish_tickets st' = miss_publish_tickets st -> rate_inv (m + 1) st'.
Proof.
  intros [H1 H2 H3 H4 H5 H6] E1 E2 E3 E4 E5.
  constructor; rewrite ?E1, ?E2, ?E3, ?E4, ?E5; [done|done|lia|lia|done|done].
Qed.

Lemma slot_keys_ticket shard addr st : slot_keys (ticket shard addr st).2 = slot_keys st.
Proof. apply map_ext. intros a. apply bump_keys. Qed.

Lemma ceil_step t : (t + 1 + 63) / 64 = (t + 63) / 64 + (if t mod 64 =? 0 then 1 else 0).
Proof. zcases; Z.div_mod_to_equations; lia. Qed.

Section RateVia.
Context {targets : list Z} {P : WrrPath} {HP : WrrPathLaws targets P}.

Lemma publish_keys n st :
lane_ok targets st -> slots st <> [] ->
slot_keys (published n st)
= <[Z.to_nat (publish_cursor st mod Z.of_nat (length (slots st))) := Some path_key]> (slot_keys st).
Proof.
intros Hok Hne. unfold published, publish_schedule. simpl.
assert (length (slots st) <> 0%nat) by (intros E; by apply length_zero_iff_nil in E).
rewrite (proj2 (Nat.eqb_neq _ _)) by done. unfold slot_keys. simpl. rewrite list_fmap_insert. f_equal.
- rewrite list_lookup_middle by done. simpl. f_equal. apply schedule_of_key.
- apply map_ext_in. intros a Ha%list_elem_of_In. assert (HF := lane_slots _ _ Hok).
  rewrite Forall_forall in HF. destruct (HF a Ha) as (s & Hs & _). by rewrite (lookup_app_l_Some _ _ _ _ Hs), Hs.
Qed.

Lemma rate_publish m n st st1 shard addr :
lane_ok targets st1 -> rate_inv m st -> m + 1 < 2 ^ 64 ->
store st1 = store st -> slots st1 = slots st -> publish_cursor st1 = publish_cursor st ->
rebuilds st1 = rebuilds st ->
(rebuilds st < 8 /\ miss_publish_tickets st1 = miss_publish_tickets st
 \/ 8 <= rebuilds st /\ miss_publish_tickets st1 = miss_publish_tickets st + 1
    /\ miss_publish_tickets st mod 64 = 0) ->
rate_inv (m + 1) (ticket shard addr (published n st1)).2.
Proof.
intros Hok Hr Hm E1 E2 E3 E4 Hcase. assert (Hr' := Hr). destruct Hr' as [H1 H2 H3 H4 H5 H6].
assert (Hlen : length (slots st1) = 8%nat) by (by rewrite E2).
assert (Hne : slots st1 <> []) by (intros E; by rewrite E in Hlen).
assert (Hk := publish_keys n st1 Hok Hne). rewrite Hlen, E3, H2 in Hk.
assert (Eks : slot_keys st1 = slot_keys st) by (unfold slot_keys; by rewrite E1, E2). rewrite Eks in Hk.
assert (Ereb : rebuilds (published n st1) = rebuilds st + 1).
{ unfold published, publish_schedule. simpl. rewrite (proj2 (Nat.eqb_neq _ _)) by lia. simpl. rewrite E4.
  apply wrap_small. unfold in_width. lia. }
assert (Etk : miss_publish_tickets (published n st1) = miss_publish_tickets st1).
{ unfold published, publish_schedule. simpl. by rewrite (proj2 (Nat.eqb_neq _ _)) by lia. }
assert (Hmod := Z.mod_pos_bound (rebuilds st) (Z.of_nat 8)).
constructor.
- simpl. unfold published, publish_schedule. simpl. rewrite (proj2 (Nat.eqb_neq _ _)) by lia. simpl.
  by rewrite length_insert.
- change (publish_cursor (published n st1) = rebuilds (published n st1)). rewrite Ereb.
  unfold published, publish_schedule. simpl. rewrite (proj2 (Nat.eqb_neq _ _)) by lia. simpl. rewrite E3, H2.
  apply wrap_small. unfold in_width. lia.
- change (0 <= rebuilds (published n st1) <= m + 1). lia.
- change (0 <= miss_publish_tickets (published n st1) <= m + 1). lia.
- intros i Hi. rewrite slot_keys_ticket, Hk. change (rebuilds (ticket shard addr (published n st1)).2)
    with (rebuilds (published n st1)). rewrite Ereb. unfold WRR_SCHEDULE_CACHE_SLOTS in Hi.
  destruct (decide (Z.to_nat (rebuilds st mod Z.of_nat 8) = i)) as [Ei|Hne'].
  + rewrite Ei, list_lookup_insert_eq by (unfold slot_keys; rewrite length_map, H1; done).
    split; [intros [= Hinv]; by apply key_valid in Hinv|]. intros Hle. exfalso.
    rewrite Z.mod_small in Ei by lia. lia.
  + rewrite list_lookup_insert_ne, (H5 i Hi) by done. split; [|lia]. intros Hle.
    destruct (Z.eq_dec (rebuilds st) (Z.of_nat i)) as [Eq|]; [|lia]. exfalso. apply Hne'.
    rewrite Eq, Z.mod_small by lia. lia.
- change (if rebuilds (published n st1) <? 8 then miss_publish_tickets (published n st1) = 0
    else rebuilds (published n st1) = 8 + (miss_publish_tickets (published n st1) + 63) / 64).
  rewrite Ereb, Etk. destruct Hcase as [[Hlt ->]|(Hge & -> & Hz)].
  + rewrite (proj2 (Z.ltb_lt _ _)) in H6 by done. rewrite H6. zcases. change ((0 + 63) / 64) with 0. lia.
  + rewrite (proj2 (Z.ltb_ge _ _)) in H6 by done. rewrite (proj2 (Z.ltb_ge _ _)) by lia.
    rewrite ceil_step, Hz. simpl. lia.
Qed.

Lemma rate_select m shard locked n st :
lane_ok targets st -> rate_inv m st -> m + 1 < 2 ^ 64 ->
rate_inv (m + 1) (select_via shard locked n st).2.
Proof.
intros Hok Hr Hm. destruct (path_lookup st) as [addr|] eqn:El.
{ destruct (select_hit shard locked n st addr Hok El) as (s & idx & _ & _ & _ & -> & _).
  apply (rate_same m st); try done. apply slot_keys_ticket. }
destruct (select_miss shard locked n st Hok El) as (idx & st' & -> & _ & _ & Hst). simpl.
destruct locked; [|rewrite Hst; by apply (rate_same m st)].
assert (Hf := free_slot_iff m st Hr). assert (H4 := rate_tickets _ _ Hr). assert (H6 := rate_count _ _ Hr).
unfold should_publish_on_miss in Hst. rewrite Hf in Hst.
destruct (Z.ltb_spec (rebuilds st) 8) as [Hlt|Hge]; simpl in Hst.
{ rewrite Hst. apply (rate_publish m n st st); [done..|]. by left. }
assert (Hw : wrapping_add 64 (miss_publish_tickets st) 1 = miss_publish_tickets st + 1)
  by (apply wrap_small; unfold in_width; lia).
unfold WRR_MISS_PUBLISH_SAMPLE in Hst. destruct (Z.eqb_spec (miss_publish_tickets st mod 64) 0) as [Hz|Hz].
- rewrite Hst. apply (rate_publish m n st); try done; [|right; by rewrite <- Hw].
  destruct Hok. by constructor.
- rewrite Hst. destruct Hr as [H1 H2 H3 _ H5 _]. constructor; simpl; try done; rewrite ?Hw; try lia.
  rewrite (proj2 (Z.ltb_ge _ _)) by done. rewrite ceil_step, (proj2 (Z.eqb_neq _ _)) by done. lia.
Qed.
End RateVia.

Lemma new_rate n : (0 < n)%nat -> rate_inv 0 (new n).
Proof.
  intros Hn. unfold new. rewrite (proj2 (Nat.eqb_neq n 0)) by lia. constructor; simpl; try done.
  intros i Hi. unfold WRR_SCHEDULE_CACHE_SLOTS in Hi. split; [lia|]. intros _.
  do 8 (destruct i as [|i]; [done|]). lia.
Qed.

Lemma run_rate targets calls : forall m st,
  lane_ok targets st -> rate_inv m st -> Forall (call_ok targets) calls ->
  m + Z.of_nat (length calls) < 2 ^ 64 ->
  rate_inv (m + Z.of_nat (length calls)) (run targets calls st).2.
Proof.
  induction calls as [|c calls IH]; intros m st Hok Hr HF Hm; [by rewrite Z.add_0_r|].
  apply Forall_cons in HF as [Hc HF]. assert (HL := call_path_laws targets c Hc). simpl length in *.
  destruct (select_is_via targets c st Hc (lane_active _ _ Hok)) as [n Hs].
  destruct (select_via_good (HP := HL) (call_shard c) (call_locked c) n st Hok) as (idx & st' & Er & _ & Hok').
  assert (Hr' := rate_select (HP := HL) m (call_shard c) (call_locked c) n st Hok Hr).
  rewrite Er in Hr'. cbn [run]. rewrite Hs, Er.
  specialize (IH (m + 1) st' Hok' (Hr' ltac:(lia)) HF ltac:(lia)).
  destruct (run targets calls st') as [rs st'']. cbn [snd] in *.
  replace (m + Z.of_nat (S (length calls))) with (m + 1 + Z.of_nat (length calls)) by lia. done.
Qed.

(** Churn cannot force a rebuild per request: over any run of calls the lane
    keeps exactly eight cache slots, the first eight publishes fill empty ones,
    and after that a schedule is built for at most one in 64 of the locked
    misses. *)
Theorem wrr_rebuilds_bounded targets n calls :
  (0 < n)%nat -> Forall (call_ok targets) calls -> Z.of_nat (length calls) < 2 ^ 64 ->
  let st := (run targets calls (new n)).2 in
  length (slots st) = WRR_SCHEDULE_CACHE_SLOTS
  /\ rebuilds st <= 8 + (miss_publish_tickets st + 63) / 64
  /\ (rebuilds st < 8 -> miss_publish_tickets st = 0)
  /\ rebuilds st <= Z.of_nat (length calls) /\ miss_publish_tickets st <= Z.of_nat (length calls).
Proof.
  intros Hn HF Hl st. assert (H := run_rate targets calls 0 (new n) (new_ok targets n Hn) (new_rate n Hn) HF Hl).
  fold st in H. destruct H as [H1 _ H3 H4 _ H6]. rewrite Z.add_0_l in *.
  assert (0 <= (miss_publish_tickets st + 63) / 64) by (apply Z.div_pos; lia).
  destruct (Z.ltb_spec (rebuilds st) 8); split_and!; (done || lia).
Qed.

Lemma wrr_rebuilds_bounded_witness :
  let st := (run [5; 0; 2] [BitsetCall 0 true (from_bits 7)] (new 3)).2 in
  length (slots st) = WRR_SCHEDULE_CACHE_SLOTS.
Proof.
  apply (wrr_rebuilds_bounded [5; 0; 2] 3 [BitsetCall 0 true (from_bits 7)]).
  - lia.
  - constructor; [|constructor]. apply bitset_call_ok; [by apply from_bits_wf|reflexivity|reflexivity].
  - reflexivity.
Defined.
