(* ===== verification/Net.v ===== *)
(** * Internet addresses

    [std::net]: addresses as 32- and 128-bit integers, their octets, their text
    (the parser of [core::net::parser] and the [Display] implementations), and
    the identity folding of [src/src/util/client_identity.rs]. Shared by the
    PROXY protocol, the address sets and the forwarded-address resolution. *)

From S2P Require Import Prelude Decimal.
Open Scope Z_scope.

(** ** Big-endian integers *)

Fixpoint be_bytes (n : nat) (v : Z) : bytes :=
  match n with
  | O => []
  | S n => be_bytes n (v / 256) ++ [v mod 256]
  end.

Definition be_value (l : bytes) : Z := foldl (fun a b => a * 256 + b) 0 l.

Lemma be_value_snoc l b : be_value (l ++ [b]) = be_value l * 256 + b.
Proof. unfold be_value. by rewrite foldl_app. Qed.

Lemma length_be_bytes n v : length (be_bytes n v) = n.
Proof. revert v; induction n as [|n IH]; intros v; simpl; [done|]. rewrite length_app, IH. simpl. lia. Qed.

Lemma be_bytes_is_bytes n v : is_bytes (be_bytes n v).
Proof.
  revert v; induction n as [|n IH]; intros v; simpl; [constructor|].
  apply Forall_app. split; [apply IH|]. apply Forall_singleton. apply Z.mod_pos_bound. lia.
Qed.

Lemma be_value_bytes n v : 0 <= v < 256 ^ Z.of_nat n -> be_value (be_bytes n v) = v.
Proof.
  revert v; induction n as [|n IH]; intros v Hv; [simpl in *; unfold be_value; simpl; lia|].
  rewrite Nat2Z.inj_succ, Z.pow_succ_r in Hv by lia. cbn [be_bytes]. rewrite be_value_snoc, IH.
  - assert (H := Z.div_mod v 256). lia.
  - split; [apply Z.div_pos; lia|]. apply Z.div_lt_upper_bound; lia.
Qed.

Lemma be_value_bounds l : is_bytes l -> 0 <= be_value l < 256 ^ Z.of_nat (length l).
Proof.
  induction l as [|b l IH] using rev_ind; intros Hb; [simpl; unfold be_value; simpl; lia|].
  apply Forall_app in Hb as [Hl [Hb _]%Forall_cons]. specialize (IH Hl).
  rewrite be_value_snoc, length_app. simpl. rewrite Nat.add_1_r, Nat2Z.inj_succ, Z.pow_succ_r by lia.
  unfold in_width in Hb. lia.
Qed.

Lemma be_bytes_value l : is_bytes l -> be_bytes (length l) (be_value l) = l.
Proof.
  induction l as [|b l IH] using rev_ind; intros Hb; [done|].
  apply Forall_app in Hb as [Hl [Hb _]%Forall_cons]. unfold in_width in Hb.
  rewrite be_value_snoc, length_app. simpl. rewrite Nat.add_1_r. cbn [be_bytes].
  rewrite Z.div_add_l, (Z.div_small b 256), Z.add_0_r, IH by (done || lia).
  f_equal. f_equal. rewrite Z.add_comm, Z.mod_add, Z.mod_small by lia. done.
Qed.

(** ** Addresses *)

Inductive IpAddr :=
| V4 (bits : Z)
| V6 (bits : Z).

#[global] Instance IpAddr_eq_dec : EqDecision IpAddr.
Proof. solve_decision. Defined.

Record SocketAddr := { ip : IpAddr; port : Z }.

Definition ip_wf (a : IpAddr) : Prop :=
  match a with V4 v => is_u32 v | V6 v => is_u128 v end.

Definition addr_wf (a : SocketAddr) : Prop := ip_wf (ip a) /\ is_u16 (port a).

Definition octets (a : IpAddr) : bytes :=
  match a with V4 v => be_bytes 4 v | V6 v => be_bytes 16 v end.

(** [Ipv6Addr::to_ipv4_mapped] and [Ipv4Addr::to_ipv6_mapped]. *)
Definition to_ipv4_mapped (v : Z) : option Z :=
  if v / 2 ^ 32 =? 65535 then Some (v mod 2 ^ 32) else None.

Definition to_ipv6_mapped (v : Z) : Z := 65535 * 2 ^ 32 + v.

Lemma mapped_back v : is_u32 v -> to_ipv4_mapped (to_ipv6_mapped v) = Some v.
Proof.
  intros Hv. unfold to_ipv4_mapped, to_ipv6_mapped, in_width in *.
  rewrite Z.div_add_l, Z.div_small by lia. simpl.
  rewrite Z.add_comm, Z.mod_add, Z.mod_small by lia. done.
Qed.

Lemma to_ipv4_mapped_Some v w : to_ipv4_mapped v = Some w -> is_u32 w /\ v = to_ipv6_mapped w.
Proof.
  unfold to_ipv4_mapped, to_ipv6_mapped. destruct (Z.eqb_spec (v / 2 ^ 32) 65535) as [E|]; [|done].
  intros [= <-]. split; [apply Z.mod_pos_bound; lia|].
  rewrite <- E, Z.mul_comm. apply Z.div_mod. lia.
Qed.

(** ** Client identity *)

Definition canonical_ip (a : IpAddr) : IpAddr :=
  match a with
  | V4 v => V4 v
  | V6 v => match to_ipv4_mapped v with Some w => V4 w | None => V6 v end
  end.

Definition canonical_socket_addr (a : SocketAddr) : SocketAddr :=
  {| ip := canonical_ip (ip a); port := port a |}.

Lemma canonical_ip_wf a : ip_wf a -> ip_wf (canonical_ip a).
Proof.
  destruct a as [v|v]; simpl; [done|]. intros Hv.
  destruct (to_ipv4_mapped v) as [w|] eqn:E; [|done]. by apply to_ipv4_mapped_Some in E as [? _].
Qed.

Lemma canonical_ip_idemp a : canonical_ip (canonical_ip a) = canonical_ip a.
Proof. destruct a as [v|v]; simpl; [done|]. destruct (to_ipv4_mapped v) eqn:E; simpl; [done|]. by rewrite E. Qed.

(** ** Text *)

Definition dot : Z := 46.
Definition colon : Z := 58.

Fixpoint join (sep : bytes) (l : list bytes) : bytes :=
  match l with
  | [] => []
  | [x] => x
  | x :: l => x ++ sep ++ join sep l
  end.

Fixpoint hex_digits (fuel : nat) (n : Z) (acc : bytes) : bytes :=
  match fuel with
  | O => acc
  | S fuel =>
    let d := n mod 16 in
    let acc := (if d <? 10 then 48 + d else 87 + d) :: acc in
    if n <? 16 then acc else hex_digits fuel (n / 16) acc
  end.

(** [format!("{:x}")] of a [u16]. *)
Definition show_hex (n : Z) : bytes := hex_digits 4 n [].

Definition show_ipv4 (v : Z) : bytes := join [dot] (map show_dec (be_bytes 4 v)).

Definition segments (v : Z) : list Z :=
  map (fun i => (v / 2 ^ (16 * i)) mod 2 ^ 16) [7; 6; 5; 4; 3; 2; 1; 0].

(** The first longest run of zero segments: (start, length). *)
Fixpoint longest_zeroes (segs : list Z) (i : nat) (current longest : nat * nat) : nat * nat :=
  match segs with
  | [] => longest
  | s :: segs =>
    if s =? 0 then
      let current := (if (current.2 =? 0)%nat then i else current.1, S current.2) in
      longest_zeroes segs (S i) current (if (longest.2 <? current.2)%nat then current else longest)
    else longest_zeroes segs (S i) (0, 0)%nat longest
  end.

Definition show_ipv6 (v : Z) : bytes :=
  match to_ipv4_mapped v with
  | Some w => bs "::ffff:" ++ show_ipv4 w
  | None =>
    let segs := segments v in
    let zeroes := longest_zeroes segs 0 (0, 0)%nat (0, 0)%nat in
    let fmt l := join [colon] (map show_hex l) in
    if (1 <? zeroes.2)%nat then
      fmt (take zeroes.1 segs) ++ [colon; colon] ++ fmt (drop (zeroes.1 + zeroes.2) segs)
    else fmt segs
  end.

Definition show_ip (a : IpAddr) : bytes :=
  match a with V4 v => show_ipv4 v | V6 v => show_ipv6 v end.

Definition canonical_ip_string (a : IpAddr) : bytes := show_ip (canonical_ip a).

(** ** The address parser

    A reader consumes a prefix of the text or fails; [core::net::parser]'s
    [read_atomically] is the functional reading. *)

Definition reader A := bytes -> option (A * bytes).

Definition to_digit (radix b : Z) : option Z :=
  let d :=
    if is_ascii_digit b then Some (b - 48)
    else if is_ascii_lower b then Some (b - 87)
    else if is_ascii_upper b then Some (b - 55)
    else None in
  match d with Some d => if d <? radix then Some d else None | None => None end.

(** The digits at the front, their value and count. *)
Fixpoint read_digits (radix : Z) (l : bytes) (value : Z) (count : nat) : Z * nat * bytes :=
  match l with
  | b :: l' =>
    match to_digit radix b with
    | Some d => read_digits radix l' (value * radix + d) (S count)
    | None => (value, count, l)
    end
  | [] => (value, count, [])
  end.

Definition read_number (radix : Z) (max_digits : option nat) (allow_zero_prefix : bool) (w : Z)
    : reader Z := fun l =>
  let '(value, count, rest) := read_digits radix l 0 0 in
  if (count =? 0)%nat then None
  else if match max_digits with Some m => (m <? count)%nat | None => false end then None
  else if negb allow_zero_prefix && bool_decide (head l = Some 48) && (1 <? count)%nat then None
  else if value <=? umax w then Some (value, rest) else None.

Definition read_given_char (c : Z) : reader unit := fun l =>
  match l with
  | b :: l => if b =? c then Some (tt, l) else None
  | [] => None
  end.

Definition read_separator {A} (sep : Z) (index : nat) (inner : reader A) : reader A := fun l =>
  if (index =? 0)%nat then inner l
  else match read_given_char sep l with Some (_, l) => inner l | None => None end.

Fixpoint read_octets (n index : nat) : reader bytes := fun l =>
  match n with
  | O => Some ([], l)
  | S n =>
    match read_separator dot index (read_number 10 (Some 3%nat) false 8) l with
    | Some (b, l) =>
      match read_octets n (S index) l with Some (bs, l) => Some (b :: bs, l) | None => None end
    | None => None
    end
  end.

Definition read_ipv4_addr : reader Z := fun l =>
  match read_octets 4 0 l with Some (o, l) => Some (be_value o, l) | None => None end.

(** Up to [limit - i] groups; an embedded IPv4 address ends them. *)
Fixpoint read_groups (fuel limit i : nat) (l : bytes) : list Z * bool * bytes :=
  match fuel with
  | O => ([], false, l)
  | S fuel =>
    match (if (S i <? limit)%nat then read_separator colon i read_ipv4_addr l else None) with
    | Some (v, l) => ([v / 2 ^ 16; v mod 2 ^ 16], true, l)
    | None =>
      match read_separator colon i (read_number 16 (Some 4%nat) true 16) l with
      | Some (g, l) =>
        let '(gs, v4, l) := read_groups fuel limit (S i) l in (g :: gs, v4, l)
      | None => ([], false, l)
      end
    end
  end.

Definition of_segments (segs : list Z) : Z := foldl (fun a s => a * 2 ^ 16 + s) 0 segs.

Definition read_ipv6_addr : reader Z := fun l =>
  let '(head, head_v4, l) := read_groups 8 8 0 l in
  if (length head =? 8)%nat then Some (of_segments head, l)
  else if head_v4 then None
  else
    match read_given_char colon l with
    | Some (_, l) =>
      match read_given_char colon l with
      | Some (_, l) =>
        let limit := (8 - (length head + 1))%nat in
        let '(tail, _, l) := read_groups limit limit 0 l in
        Some (of_segments (head ++ replicate (8 - length head - length tail) 0 ++ tail), l)
      | None => None
      end
    | None => None
    end.

(** [IpAddr::from_str]: the whole text must be consumed. *)
Definition parse_ip (l : bytes) : option IpAddr :=
  match read_ipv4_addr l with
  | Some (v, rest) => if bool_decide (rest = []) then Some (V4 v) else None
  | None =>
    match read_ipv6_addr l with
    | Some (v, rest) => if bool_decide (rest = []) then Some (V6 v) else None
    | None => None
    end
  end.

(** [SocketAddr::from_str]. *)
Definition read_port : reader Z := fun l =>
  match read_given_char colon l with Some (_, l) => read_number 10 None true 16 l | None => None end.

Definition read_scope_id (l : bytes) : bytes :=
  match read_given_char 37 l with
  | Some (_, l') => match read_number 10 None true 32 l' with Some (_, l') => l' | None => l end
  | None => l
  end.

Definition read_socket_addr_v6 : reader SocketAddr := fun l =>
  match read_given_char 91 l with
  | Some (_, l) =>
    match read_ipv6_addr l with
    | Some (v, l) =>
      match read_given_char 93 (read_scope_id l) with
      | Some (_, l) =>
        match read_port l with Some (p, l) => Some ({| ip := V6 v; port := p |}, l) | None => None end
      | None => None
      end
    | None => None
    end
  | None => None
  end.

Definition read_socket_addr_v4 : reader SocketAddr := fun l =>
  match read_ipv4_addr l with
  | Some (v, l) =>
    match read_port l with Some (p, l) => Some ({| ip := V4 v; port := p |}, l) | None => None end
  | None => None
  end.

Definition parse_socket_addr (l : bytes) : option SocketAddr :=
  match (match read_socket_addr_v4 l with Some r => Some r | None => read_socket_addr_v6 l end) with
  | Some (a, rest) => if bool_decide (rest = []) then Some a else None
  | None => None
  end.

Example parse_ip_examples :
  parse_ip (bs "192.0.2.10") = Some (V4 3221225994)
  /\ parse_ip (bs "192.0.02.10") = None
  /\ parse_ip (bs "256.0.0.1") = None
  /\ parse_ip (bs "::1") = Some (V6 1)
  /\ parse_ip (bs "::") = Some (V6 0)
  /\ parse_ip (bs "2001:db8::8a2e:370:7334") = Some (V6 0x20010db80000000000008a2e03707334)
  /\ parse_ip (bs "::ffff:192.0.2.10") = Some (V6 (to_ipv6_mapped 3221225994))
  /\ parse_ip (bs "1:2:3:4:5:6:7:8") = Some (V6 0x00010002000300040005000600070008)
  /\ parse_ip (bs "1:2:3:4:5:6:7:8:9") = None
  /\ parse_ip (bs "1:2:3:4:5:6:7::") = Some (V6 0x00010002000300040005000600070000)
  /\ parse_ip (bs "12345::") = None
  /\ parse_ip (bs "1.2.3.4 ") = None
  /\ parse_socket_addr (bs "[::1]:80") = Some {| ip := V6 1; port := 80 |}
  /\ parse_socket_addr (bs "1.2.3.4:8080") = Some {| ip := V4 16909060; port := 8080 |}
  /\ map show_ip [V6 0; V6 1; V6 0x20010db80000000000008a2e03707334; V6 (to_ipv6_mapped 16909060); V4 16909060]
     = map bs ["::"; "::1"; "2001:db8::8a2e:370:7334"; "::ffff:1.2.3.4"; "1.2.3.4"]%string.
Proof. vm_compute. repeat split. Qed.

(** ** Parsed addresses are well-formed *)

Lemma to_digit_bounds radix b d : is_u8 b -> to_digit radix b = Some d -> 0 <= d < radix.
Proof.
  unfold to_digit, is_ascii_digit, is_ascii_lower, is_ascii_upper. intros _.
  zcases; intros [= <-]; lia.
Qed.

Lemma read_digits_nonneg radix l : forall v c,
  0 <= radix -> is_bytes l -> 0 <= v ->
  let '(v', _, rest) := read_digits radix l v c in 0 <= v' /\ is_bytes rest.
Proof.
  induction l as [|b l IH]; intros v c Hr Hb Hv; simpl; [done|].
  apply Forall_cons in Hb as [Hb Hl]. destruct (to_digit radix b) as [d|] eqn:Ed.
  - apply to_digit_bounds in Ed; [|done]. apply IH; [done|done|lia].
  - split; [done|]. by constructor.
Qed.

Lemma read_number_wf radix m z w l v rest :
  0 <= radix -> is_bytes l -> read_number radix m z w l = Some (v, rest) -> in_width w v /\ is_bytes rest.
Proof.
  intros Hr Hb. unfold read_number. assert (H := read_digits_nonneg radix l 0 0 Hr Hb (Z.le_refl 0)).
  destruct (read_digits radix l 0 0) as [[v' c] rest']. destruct H as [Hv Hrest].
  destruct (c =? 0)%nat; [done|]. destruct (match m with Some m0 => _ | None => _ end); [done|].
  destruct (negb z && bool_decide (head l = Some 48) && (1 <? c)%nat); [done|].
  destruct (Z.leb_spec v' (umax w)); [|done]. intros [= <- <-]. unfold umax, in_width in *. split; [lia|done].
Qed.

Lemma read_separator_wf {A} sep i (inner : reader A) (Q : A -> bytes -> Prop) l a rest :
  is_bytes l -> (forall l a rest, is_bytes l -> inner l = Some (a, rest) -> Q a rest) ->
  read_separator sep i inner l = Some (a, rest) -> Q a rest.
Proof.
  intros Hb HQ. unfold read_separator. destruct (i =? 0)%nat; [by apply HQ|].
  destruct l as [|b l]; [done|]. simpl. destruct (b =? sep); [|done].
  apply HQ. by apply Forall_cons in Hb as [_ ?].
Qed.

Lemma read_octets_wf n : forall i l o rest,
  is_bytes l -> read_octets n i l = Some (o, rest) -> is_bytes o /\ length o = n /\ is_bytes rest.
Proof.
  induction n as [|n IH]; intros i l o rest Hb; simpl; [intros [= <- <-]; split_and!; [constructor|done|done]|].
  destruct (read_separator _ _ _ l) as [[b l1]|] eqn:E1; [|done].
  apply (read_separator_wf _ _ _ (fun v r => is_u8 v /\ is_bytes r)) in E1 as [Hb1 Hl1]; [|done|].
  2:{ intros. by eapply (read_number_wf 10). }
  destruct (read_octets n (S i) l1) as [[o' l2]|] eqn:E2; [|done]. intros [= <- <-].
  apply IH in E2 as (? & ? & ?); [|done]. split_and!; [by constructor|simpl; lia|done].
Qed.

Lemma read_ipv4_wf l v rest : is_bytes l -> read_ipv4_addr l = Some (v, rest) -> is_u32 v /\ is_bytes rest.
Proof.
  intros Hb. unfold read_ipv4_addr. destruct (read_octets 4 0 l) as [[o l1]|] eqn:E; [|done].
  intros [= <- <-]. apply read_octets_wf in E as (Ho & Hl & ?); [|done]. split; [|done].
  apply be_value_bounds in Ho. by rewrite Hl in Ho.
Qed.

Lemma read_groups_wf fuel : forall limit i l,
  is_bytes l -> (fuel + i)%nat = limit ->
  let '(gs, _, rest) := read_groups fuel limit i l in
  Forall is_u16 gs /\ (length gs <= fuel)%nat /\ is_bytes rest.
Proof.
  induction fuel as [|fuel IH]; intros limit i l Hb Hl; simpl; [by split_and!|].
  destruct (if (S i <? limit)%nat then read_separator colon i read_ipv4_addr l else None) as [[v l1]|] eqn:E4.
  { destruct (Nat.ltb_spec (S i) limit); [|done].
    apply (read_separator_wf _ _ _ (fun v r => is_u32 v /\ is_bytes r)) in E4 as [Hv ?]; [|done|].
    2:{ intros. by eapply read_ipv4_wf. }
    unfold in_width in Hv. split_and!; [|simpl; lia|done].
    repeat constructor; [apply Z.div_pos; lia|apply Z.div_lt_upper_bound; lia|apply Z.mod_pos_bound; lia..]. }
  destruct (read_separator colon i (read_number 16 (Some 4%nat) true 16) l) as [[g l1]|] eqn:Eg; [|simpl; split_and!; [constructor|simpl; lia|done]].
  apply (read_separator_wf _ _ _ (fun v r => is_u16 v /\ is_bytes r)) in Eg as [Hg Hl1]; [|done|].
  2:{ intros. by eapply (read_number_wf 16). }
  specialize (IH limit (S i) l1 Hl1). destruct (read_groups fuel limit (S i) l1) as [[gs v4] l2].
  destruct IH as (? & ? & ?); [lia|]. split_and!; [by constructor|simpl; lia|done].
Qed.

Lemma of_segments_bounds segs :
  Forall is_u16 segs -> 0 <= of_segments segs < 2 ^ (16 * Z.of_nat (length segs)).
Proof.
  unfold of_segments. induction segs as [|s segs IH] using rev_ind; intros HF; [simpl; lia|].
  apply Forall_app in HF as [HF [Hs _]%Forall_cons]. specialize (IH HF). rewrite foldl_app, length_app. simpl.
  unfold in_width in Hs.
  replace (16 * Z.of_nat (length segs + 1)) with (16 + 16 * Z.of_nat (length segs)) by lia.
  rewrite Z.pow_add_r by lia. lia.
Qed.

Lemma read_ipv6_wf l v rest : is_bytes l -> read_ipv6_addr l = Some (v, rest) -> is_u128 v.
Proof.
  intros Hb. unfold read_ipv6_addr. assert (H := read_groups_wf 8 8 0 l Hb eq_refl).
  destruct (read_groups 8 8 0 l) as [[hd v4] l1]. destruct H as (Hh & Hlen & Hb1).
  destruct (Nat.eqb_spec (length hd) 8) as [E8|Hne].
  { intros [= <- <-]. apply of_segments_bounds in Hh. by rewrite E8 in Hh. }
  destruct v4; [done|]. destruct l1 as [|b1 l1]; [done|]. simpl. destruct (b1 =? colon); [|done].
  destruct l1 as [|b2 l1]; [done|]. simpl. destruct (b2 =? colon); [|done].
  apply Forall_cons in Hb1 as [_ [_ Hb1]%Forall_cons].
  set (limit := (8 - (length hd + 1))%nat). assert (Ht := read_groups_wf limit limit 0 l1 Hb1 (Nat.add_0_r _)).
  destruct (read_groups limit limit 0 l1) as [[tl tv4] l2]. destruct Ht as (Ht & Htl & _). intros [= <- <-].
  assert (Hall : Forall is_u16 (hd ++ replicate (8 - length hd - length tl) 0 ++ tl)).
  { rewrite !Forall_app. split_and!; [done| |done]. by apply Forall_replicate. }
  apply of_segments_bounds in Hall. rewrite !length_app, length_replicate in Hall.
  replace (length hd + (8 - length hd - length tl + length tl))%nat with 8%nat in Hall by (subst limit; lia).
  exact Hall.
Qed.

Lemma parse_ip_wf l a : is_bytes l -> parse_ip l = Some a -> ip_wf a.
Proof.
  intros Hb. unfold parse_ip. destruct (read_ipv4_addr l) as [[v rest]|] eqn:E4.
  { case_bool_decide; [|done]. intros [= <-]. by apply read_ipv4_wf in E4 as [? _]. }
  destruct (read_ipv6_addr l) as [[v rest]|] eqn:E6; [|done]. case_bool_decide; [|done].
  intros [= <-]. by eapply read_ipv6_wf.
Qed.
