(* ===== verification/ProxyProtocol.v ===== *)
(** * The PROXY protocol ([src/src/proxy/proxy_protocol.rs])

    The v1 and v2 header readers, the v2 encoder and the identity derived from
    a header. The peer's byte stream is a list of bytes: a read consumes a
    prefix, and reading past the end is the I/O error of [read_exact]. The
    theorems: a header this gateway writes is read back with the same client
    and destination; a reader consumes exactly its header, of bounded size, and
    the result does not depend on what follows; the in-memory parser used for
    fuzzing agrees with the stream reader on complete headers. *)

From S2P Require Import Prelude Utf8 Decimal Net.
Open Scope Z_scope.

Inductive ProxyProtocolResult :=
| Forwarded (src dst : SocketAddr)
| NoAddress.

(** The message of [Malformed] by what it reports. *)
Inductive malformed_reason :=
| NonUtf8 | BadKeyword | MissingProtocol | UnsupportedProtocol | MissingSrc | MissingDst
| MissingSrcPort | BadSrcPort | MissingDstPort | BadDstPort | BadSrcIp | BadDstIp
| NotIpv4 | NotIpv6 | BadVersion (version : Z) | BadCommand (command : Z)
| InetTooShort | Inet6TooShort | BadFamily (af : Z)
| MissingCrlf | TruncatedFixed | TruncatedBlock | TrailingBytes.

Inductive ProxyProtocolError :=
| InputTooLong (cap : Z)
| InvalidSignature
| V1TooLong
| V2LengthExceeded (len : Z)
| Malformed (reason : malformed_reason)
| Io
| Timeout.

Abbreviation outcome := (result ProxyProtocolResult ProxyProtocolError).

(** The twelve bytes CR LF CR LF NUL CR LF [QUIT] LF. *)
Definition V2_SIG : bytes := [13; 10; 13; 10; 0; 13; 10; 81; 85; 73; 84; 10].
Definition V1_PREFIX : bytes := bs "PROXY ".
Definition V2_MAX_ADDR_LEN : Z := 512.
Definition V1_MAX_LEN : nat := 109.
Definition V2_INET_ADDR_LEN : nat := 12.
Definition V2_INET6_ADDR_LEN : nat := 36.
Definition PROXY_PROTOCOL_MAX_HEADER_BYTES : nat :=
  let v2_max := (length V2_SIG + 4 + Z.to_nat V2_MAX_ADDR_LEN)%nat in
  if (v2_max <? V1_MAX_LEN)%nat then V1_MAX_LEN else v2_max.

(** ** Reading *)

Definition read_exact (n : nat) (s : bytes) : result (bytes * bytes) ProxyProtocolError :=
  if (length s <? n)%nat then Err Io else Ok (take n s, drop n s).

(** The pieces of [split_ascii_whitespace]. *)
Definition is_ascii_whitespace (b : Z) : bool :=
  (b =? 32) || (b =? 9) || (b =? 10) || (b =? 12) || (b =? 13).

Fixpoint ws_pieces (l acc : bytes) : list bytes :=
  match l with
  | [] => if bool_decide (acc = []) then [] else [acc]
  | b :: l =>
    if is_ascii_whitespace b then
      if bool_decide (acc = []) then ws_pieces l [] else acc :: ws_pieces l []
    else ws_pieces l (acc ++ [b])
  end.

Definition split_ascii_whitespace (l : bytes) : list bytes := ws_pieces l [].

Definition is_v4 (a : IpAddr) : bool := match a with V4 _ => true | V6 _ => false end.

(** The [TCP4]/[TCP6] fields after the protocol name. *)
Definition parse_v1_fields (tcp4 : bool) (parts : list bytes) : outcome :=
  let? src_addr := ok_or (parts !! 0%nat) (Malformed MissingSrc) in
  let? dst_addr := ok_or (parts !! 1%nat) (Malformed MissingDst) in
  let? src_port := ok_or (parts !! 2%nat) (Malformed MissingSrcPort) in
  let? src_port := ok_or (parse_uint 16 src_port) (Malformed BadSrcPort) in
  let? dst_port := ok_or (parts !! 3%nat) (Malformed MissingDstPort) in
  let? dst_port := ok_or (parse_uint 16 dst_port) (Malformed BadDstPort) in
  let? src_ip := ok_or (parse_ip src_addr) (Malformed BadSrcIp) in
  let? dst_ip := ok_or (parse_ip dst_addr) (Malformed BadDstIp) in
  if tcp4 && (negb (is_v4 src_ip) || negb (is_v4 dst_ip)) then Err (Malformed NotIpv4)
  else if negb tcp4 && (is_v4 src_ip || is_v4 dst_ip) then Err (Malformed NotIpv6)
  else Ok (Forwarded {| ip := src_ip; port := src_port |} {| ip := dst_ip; port := dst_port |}).

Definition parse_v1_line (line : bytes) : outcome :=
  let parts := split_ascii_whitespace line in
  let keyword := default [] (parts !! 0%nat) in
  if negb (eqb_bytes keyword (bs "PROXY")) then Err (Malformed BadKeyword)
  else
    let? proto := ok_or (parts !! 1%nat) (Malformed MissingProtocol) in
    if eqb_bytes proto (bs "UNKNOWN") then Ok NoAddress
    else if eqb_bytes proto (bs "TCP4") then parse_v1_fields true (drop 2 parts)
    else if eqb_bytes proto (bs "TCP6") then parse_v1_fields false (drop 2 parts)
    else Err (Malformed UnsupportedProtocol).

Definition ends_crlf (l : bytes) : bool :=
  let n := length l in
  (2 <=? n)%nat && bool_decide (l !! (n - 2)%nat = Some 13) && bool_decide (l !! (n - 1)%nat = Some 10).

(** Read byte by byte until CRLF; the cap on [rest] bounds the rounds. *)
Fixpoint read_v1_line (fuel : nat) (rest s : bytes) : result (bytes * bytes) ProxyProtocolError :=
  match fuel with
  | O => Err V1TooLong
  | S fuel =>
    if (V1_MAX_LEN <=? length rest)%nat then Err V1TooLong
    else
      let? (buf, s) := read_exact 1 s in
      let rest := rest ++ buf in
      if ends_crlf rest then Ok (rest, s) else read_v1_line fuel rest s
  end.

Definition parse_v1 (prefix s : bytes) : result (ProxyProtocolResult * bytes) ProxyProtocolError :=
  let? (rest, s) := read_v1_line (S V1_MAX_LEN) prefix s in
  let? line := ok_or (from_utf8 (take (length rest - 2) rest)) (Malformed NonUtf8) in
  let? r := parse_v1_line line in
  Ok (r, s).

(** Big-endian fields of an address block. *)
Definition be_at (block : bytes) (offset n : nat) : Z := be_value (take n (drop offset block)).

Definition parse_v2_addresses (af transport : Z) (block : bytes) : outcome :=
  if af =? 0 then Ok NoAddress
  else if af =? 1 then
    if (length block <? V2_INET_ADDR_LEN)%nat then Err (Malformed InetTooShort)
    else if negb (transport =? 1) then Ok NoAddress
    else
      Ok (Forwarded {| ip := V4 (be_at block 0 4); port := be_at block 8 2 |}
                    {| ip := V4 (be_at block 4 4); port := be_at block 10 2 |})
  else if af =? 2 then
    if (length block <? V2_INET6_ADDR_LEN)%nat then Err (Malformed Inet6TooShort)
    else if negb (transport =? 1) then Ok NoAddress
    else
      Ok (Forwarded {| ip := V6 (be_at block 0 16); port := be_at block 32 2 |}
                    {| ip := V6 (be_at block 16 16); port := be_at block 34 2 |})
  else if af =? 3 then Ok NoAddress
  else Err (Malformed (BadFamily af)).

Definition dispatch_command (ver_cmd fam_transport : Z) (block : bytes) : outcome :=
  let command := Z.land ver_cmd 15 in
  let af := Z.shiftr fam_transport 4 in
  let transport := Z.land fam_transport 15 in
  if command =? 0 then Ok NoAddress
  else if command =? 1 then parse_v2_addresses af transport block
  else Err (Malformed (BadCommand command)).

Definition byte_at (l : bytes) (i : nat) : Z := default 0 (l !! i).

Definition parse_v2 (prefix s : bytes) : result (ProxyProtocolResult * bytes) ProxyProtocolError :=
  let? (sig_rest, s) := read_exact 6 s in
  if negb (eqb_bytes (prefix ++ sig_rest) V2_SIG) then Err InvalidSignature
  else
    let? (fixed, s) := read_exact 4 s in
    let ver_cmd := byte_at fixed 0 in
    let fam_transport := byte_at fixed 1 in
    let addr_len := be_at fixed 2 2 in
    let version := Z.shiftr ver_cmd 4 in
    if negb (version =? 2) then Err (Malformed (BadVersion version))
    else if V2_MAX_ADDR_LEN <? addr_len then Err (V2LengthExceeded addr_len)
    else
      let? (addr_block, s) := read_exact (Z.to_nat addr_len) s in
      let? r := dispatch_command ver_cmd fam_transport addr_block in
      Ok (r, s).

Definition parse_proxy_header (s : bytes) : result (ProxyProtocolResult * bytes) ProxyProtocolError :=
  let? (prefix, s) := read_exact 6 s in
  if eqb_bytes prefix V1_PREFIX then parse_v1 prefix s
  else if eqb_bytes prefix (take 6 V2_SIG) then parse_v2 prefix s
  else Err InvalidSignature.

(** The deadline is the environment's choice. *)
Definition read_proxy_header (elapsed : bool) (s : bytes)
    : result (ProxyProtocolResult * bytes) ProxyProtocolError :=
  if elapsed then Err Timeout else parse_proxy_header s.

(** ** The in-memory parser *)

Definition parse_proxy_protocol_header_bytes (data : bytes) : outcome :=
  if (PROXY_PROTOCOL_MAX_HEADER_BYTES <? length data)%nat then
    Err (InputTooLong (Z.of_nat PROXY_PROTOCOL_MAX_HEADER_BYTES))
  else if eqb_bytes (take 6 data) V1_PREFIX then
    if (V1_MAX_LEN <? length data)%nat then Err V1TooLong
    else if negb (ends_crlf data) then Err (Malformed MissingCrlf)
    else
      let? line := ok_or (from_utf8 (take (length data - 2) data)) (Malformed NonUtf8) in
      parse_v1_line line
  else if (length data <? 6)%nat then Err InvalidSignature
  else if negb (eqb_bytes (take 6 data) (take 6 V2_SIG)) then Err InvalidSignature
  else if (length data <? length V2_SIG + 4)%nat then Err (Malformed TruncatedFixed)
  else if negb (eqb_bytes (take (length V2_SIG) data) V2_SIG) then Err InvalidSignature
  else
    let fixed := take 4 (drop (length V2_SIG) data) in
    let ver_cmd := byte_at fixed 0 in
    let fam_transport := byte_at fixed 1 in
    let addr_len := be_at fixed 2 2 in
    let version := Z.shiftr ver_cmd 4 in
    if negb (version =? 2) then Err (Malformed (BadVersion version))
    else if V2_MAX_ADDR_LEN <? addr_len then Err (V2LengthExceeded addr_len)
    else
      let total := (length V2_SIG + 4 + Z.to_nat addr_len)%nat in
      if (length data <? total)%nat then Err (Malformed TruncatedBlock)
      else if (total <? length data)%nat then Err (Malformed TrailingBytes)
      else dispatch_command ver_cmd fam_transport (drop (length V2_SIG + 4) data).

(** ** Writing and applying *)

Definition apply_proxy_result (r : ProxyProtocolResult) (socket_peer : SocketAddr) : bytes * bytes :=
  let direct := canonical_ip_string (ip socket_peer) in
  match r with
  | Forwarded src _ => (canonical_ip_string (ip src), direct)
  | NoAddress => (direct, direct)
  end.

Definition outbound_v2_addrs (client_ip : IpAddr) (client_port : Z)
    (destination_ip : option IpAddr) (destination_port : option Z) (local_fallback : option SocketAddr)
    : option (SocketAddr * SocketAddr) :=
  let src := {| ip := canonical_ip client_ip; port := client_port |} in
  match destination_ip, destination_port with
  | Some i, Some p => Some (src, {| ip := canonical_ip i; port := p |})
  | None, None => (fun l => (src, canonical_socket_addr l)) <$> local_fallback
  | _, _ => None
  end.

Definition ip_to_v6 (a : IpAddr) : Z :=
  match a with V4 v => to_ipv6_mapped v | V6 v => v end.

Definition encode_v2_inet (src dst src_port dst_port : Z) : bytes :=
  V2_SIG ++ [33] ++ [17] ++ be_bytes 2 12 ++ be_bytes 4 src ++ be_bytes 4 dst
    ++ be_bytes 2 src_port ++ be_bytes 2 dst_port.

Definition encode_v2_inet6 (src dst src_port dst_port : Z) : bytes :=
  V2_SIG ++ [33] ++ [33] ++ be_bytes 2 36 ++ be_bytes 16 src ++ be_bytes 16 dst
    ++ be_bytes 2 src_port ++ be_bytes 2 dst_port.

Definition encode_v2_proxy_header (src dst : SocketAddr) : bytes :=
  match canonical_ip (ip src), canonical_ip (ip dst) with
  | V4 s, V4 d => encode_v2_inet s d (port src) (port dst)
  | s, d => encode_v2_inet6 (ip_to_v6 s) (ip_to_v6 d) (port src) (port dst)
  end.

Definition V2_ENCODED_MAX_LEN : nat := (length V2_SIG + 4 + V2_INET6_ADDR_LEN)%nat.

Definition crlf : bytes := [13; 10].

Example v1_examples :
  parse_proxy_header (bs "PROXY TCP4 192.0.2.1 198.51.100.7 56324 443" ++ crlf ++ bs "GET")
    = Ok (Forwarded {| ip := V4 0xC0000201; port := 56324 |} {| ip := V4 0xC6336407; port := 443 |}, bs "GET")
  /\ parse_proxy_header (bs "PROXY UNKNOWN ignored" ++ crlf) = Ok (NoAddress, [])
  /\ parse_proxy_header (bs "PROXY TCP6 192.0.2.1 ::1 1 2" ++ crlf) = Err (Malformed NotIpv6)
  /\ parse_proxy_header (bs "GET / HTTP/1.1") = Err InvalidSignature
  /\ parse_proxy_header (bs "PROXY TCP4 1.2.3.4") = Err Io
  /\ parse_proxy_header (bs "PROXY " ++ replicate 200 65) = Err V1TooLong.
Proof. vm_compute. repeat split. Qed.

(** ** Reads *)

Lemma read_exact_Ok n s a b : read_exact n s = Ok (a, b) <-> s = a ++ b /\ length a = n.
Proof.
  unfold read_exact. destruct (Nat.ltb_spec (length s) n) as [Hlt|Hge]; split.
  - done.
  - intros [-> <-]. rewrite length_app in Hlt. lia.
  - intros [= <- <-]. by rewrite take_drop, length_take_le.
  - intros [-> <-]. by rewrite take_app_length, drop_app_length.
Qed.

Lemma read_exact_app n a s : length a = n -> read_exact n (a ++ s) = Ok (a, s).
Proof. intros. by apply read_exact_Ok. Qed.

(** The prefixes of a v1 line after which reading goes on. *)
Definition unterminated (acc p : bytes) : Prop :=
  forall n, (0 < n < length p)%nat -> ends_crlf (acc ++ take n p) = false.

Lemma read_v1_line_iff fuel : forall acc s line rest,
  (V1_MAX_LEN - length acc < fuel)%nat ->
  read_v1_line fuel acc s = Ok (line, rest) <->
  exists p, s = p ++ rest /\ line = acc ++ p /\ p <> [] /\ ends_crlf line = true
    /\ (length line <= V1_MAX_LEN)%nat /\ unterminated acc p.
Proof.
  induction fuel as [|fuel IH]; intros acc s line rest Hf; [lia|]. cbn [read_v1_line].
  destruct (Nat.leb_spec V1_MAX_LEN (length acc)) as [Hle|Hgt].
  { split; [done|]. intros (p & _ & -> & Hp & _ & Hl & _). rewrite length_app in Hl.
    destruct p; [done|]. simpl in Hl. lia. }
  rewrite rbind_Ok. split.
  - intros ([buf s'] & (-> & Hb)%read_exact_Ok & Hk).
    destruct buf as [|b [|]]; simpl in Hb; try lia. destruct (ends_crlf (acc ++ [b])) eqn:Ee.
    + injection Hk as <- <-. exists [b]. split_and!; try done.
      * rewrite length_app. simpl. lia.
      * intros n Hn. simpl in Hn. lia.
    + apply IH in Hk as (p & -> & -> & Hp & He & Hl & Hu); [|rewrite length_app; simpl; lia].
      exists (b :: p). rewrite <- app_assoc in *. split_and!; try done.
      intros [|[|n]] Hn; [lia| |]; simpl; [done|].
      specialize (Hu (S n)). rewrite <- app_assoc in Hu. apply Hu. simpl in Hn. lia.
  - intros (p & -> & -> & Hp & He & Hl & Hu). destruct p as [|b p]; [done|].
    exists ([b], p ++ rest). split; [by apply (read_exact_app 1 [b])|]. destruct p as [|c p].
    + by rewrite He.
    + assert (E1 : ends_crlf (acc ++ [b]) = false) by (apply (Hu 1%nat); simpl; lia). rewrite E1. apply IH.
      { rewrite length_app. simpl. lia. }
      exists (c :: p). rewrite <- app_assoc. split_and!; try done.
      intros n Hn. rewrite <- app_assoc. apply (Hu (S n)). simpl in *. lia.
Qed.

(** ** v2 frames *)

Definition v2_frame (ver_cmd fam_transport : Z) (len_bytes block : bytes) : bytes :=
  V2_SIG ++ [ver_cmd; fam_transport] ++ len_bytes ++ block.

Lemma parse_v2_frame ver_cmd fam_transport len_bytes block s :
  length len_bytes = 2%nat -> Z.shiftr ver_cmd 4 = 2 ->
  be_value len_bytes = Z.of_nat (length block) -> Z.of_nat (length block) <= V2_MAX_ADDR_LEN ->
  parse_proxy_header (v2_frame ver_cmd fam_transport len_bytes block ++ s)
  = (let? r := dispatch_command ver_cmd fam_transport block in Ok (r, s)).
Proof.
  intros Hl Hv Hb Hm. destruct len_bytes as [|x [|y [|]]]; simpl in Hl; try lia.
  unfold parse_proxy_header, v2_frame. rewrite <- !app_assoc.
  change V2_SIG with (take 6 V2_SIG ++ drop 6 V2_SIG). rewrite <- app_assoc.
  rewrite read_exact_app by done. cbn [rbind].
  change (eqb_bytes (take 6 V2_SIG) V1_PREFIX) with false. cbv match.
  change (eqb_bytes (take 6 V2_SIG) (take 6 (take 6 V2_SIG ++ drop 6 V2_SIG))) with true. cbv match.
  unfold parse_v2. rewrite read_exact_app by done. cbn [rbind].
  rewrite (proj2 (eqb_bytes_spec (take 6 V2_SIG ++ drop 6 V2_SIG) V2_SIG)) by done. cbn [negb].
  change ([ver_cmd; fam_transport] ++ [x; y] ++ block ++ s)
    with ([ver_cmd; fam_transport; x; y] ++ block ++ s).
  rewrite read_exact_app by done. cbn [rbind].
  change (byte_at [ver_cmd; fam_transport; x; y] 0) with ver_cmd.
  change (byte_at [ver_cmd; fam_transport; x; y] 1) with fam_transport.
  change (be_at [ver_cmd; fam_transport; x; y] 2 2) with (be_value [x; y]).
  rewrite Hv, Hb. cbn [Z.eqb Pos.eqb negb]. rewrite (proj2 (Z.ltb_ge _ _)), Nat2Z.id by done.
  by rewrite read_exact_app.
Qed.

Lemma parse_v2_inv s r rest :
  (let? (prefix, s) := read_exact 6 s in
   if eqb_bytes prefix (take 6 V2_SIG) then parse_v2 prefix s else Err InvalidSignature) = Ok (r, rest) ->
  exists ver_cmd fam_transport len_bytes block,
    s = v2_frame ver_cmd fam_transport len_bytes block ++ rest
    /\ length len_bytes = 2%nat /\ Z.shiftr ver_cmd 4 = 2
    /\ Z.of_nat (length block) = Z.max 0 (be_value len_bytes) /\ be_value len_bytes <= V2_MAX_ADDR_LEN
    /\ dispatch_command ver_cmd fam_transport block = Ok r.
Proof.
  rewrite rbind_Ok. intros ([prefix s1] & (-> & H6)%read_exact_Ok & H).
  destruct (eqb_bytes prefix (take 6 V2_SIG)); [|done]. unfold parse_v2 in H.
  apply rbind_Ok in H as ([sig s2] & (-> & Hs6)%read_exact_Ok & H).
  destruct (eqb_bytes (prefix ++ sig) V2_SIG) eqn:Esig; [|done]. apply eqb_bytes_spec in Esig. simpl in H.
  apply rbind_Ok in H as ([fixed s3] & (-> & H4)%read_exact_Ok & H).
  destruct fixed as [|a [|b [|x [|y [|]]]]]; simpl in H4; try lia.
  change (byte_at [a; b; x; y] 0) with a in H. change (byte_at [a; b; x; y] 1) with b in H.
  change (be_at [a; b; x; y] 2 2) with (be_value [x; y]) in H.
  destruct (Z.eqb_spec (Z.shiftr a 4) 2) as [Hv|]; [|done]. simpl in H.
  destruct (Z.ltb_spec V2_MAX_ADDR_LEN (be_value [x; y])) as [|Hm]; [done|].
  apply rbind_Ok in H as ([block s4] & (-> & Hbl)%read_exact_Ok & H).
  apply rbind_Ok in H as (r' & Hd & [= -> ->]).
  exists a, b, [x; y], block. split_and!; try done; [|lia].
  unfold v2_frame. rewrite <- Esig, <- !app_assoc. done.
Qed.

(** ** The encoder *)

Lemma be_at_app a b c : be_at (a ++ b ++ c) (length a) (length b) = be_value b.
Proof. unfold be_at. by rewrite drop_app_length, take_app_length. Qed.

(** The fields of a block of two [n]-byte addresses and two ports. *)
Lemma block_fields n x y p q :
  0 <= x < 256 ^ Z.of_nat n -> 0 <= y < 256 ^ Z.of_nat n -> is_u16 p -> is_u16 q ->
  let block := be_bytes n x ++ be_bytes n y ++ be_bytes 2 p ++ be_bytes 2 q in
  length block = (n + (n + 4))%nat
  /\ be_at block 0 n = x /\ be_at block n n = y
  /\ be_at block (n + n) 2 = p /\ be_at block (n + (n + 2)) 2 = q.
Proof.
  intros Hx Hy Hp Hq block. unfold block.
  assert (Hp' : 0 <= p < 256 ^ Z.of_nat 2) by exact Hp.
  assert (Hq' : 0 <= q < 256 ^ Z.of_nat 2) by exact Hq.
  assert (E1 := be_at_app [] (be_bytes n x) (be_bytes n y ++ be_bytes 2 p ++ be_bytes 2 q)).
  assert (E2 := be_at_app (be_bytes n x) (be_bytes n y) (be_bytes 2 p ++ be_bytes 2 q)).
  assert (E3 := be_at_app (be_bytes n x ++ be_bytes n y) (be_bytes 2 p) (be_bytes 2 q)).
  assert (E4 := be_at_app (be_bytes n x ++ be_bytes n y ++ be_bytes 2 p) (be_bytes 2 q) []).
  rewrite <- !app_assoc, app_nil_r in E4. rewrite <- !app_assoc in E3.
  rewrite !length_be_bytes in E1. rewrite !length_be_bytes in E2.
  rewrite !length_app, !length_be_bytes in E3. rewrite !length_app, !length_be_bytes in E4.
  rewrite be_value_bytes in E1 by exact Hx. rewrite be_value_bytes in E2 by exact Hy.
  rewrite be_value_bytes in E3 by exact Hp'. rewrite be_value_bytes in E4 by exact Hq'.
  rewrite ?length_app, !length_be_bytes. split_and!; [lia|done|done|done|done].
Qed.

Lemma read_inet s d sp dp payload :
  is_u32 s -> is_u32 d -> is_u16 sp -> is_u16 dp ->
  parse_proxy_header (encode_v2_inet s d sp dp ++ payload)
  = Ok (Forwarded {| ip := V4 s; port := sp |} {| ip := V4 d; port := dp |}, payload).
Proof.
  intros Hs Hd Hsp Hdp. destruct (block_fields 4 s d sp dp Hs Hd Hsp Hdp) as (Hl & E1 & E2 & E3 & E4).
  change (encode_v2_inet s d sp dp)
    with (v2_frame 33 17 (be_bytes 2 12) (be_bytes 4 s ++ be_bytes 4 d ++ be_bytes 2 sp ++ be_bytes 2 dp)).
  set (block := be_bytes 4 s ++ _) in *. rewrite parse_v2_frame; [|done|done|by rewrite Hl|by rewrite Hl].
  change (dispatch_command 33 17 block) with (parse_v2_addresses 1 1 block).
  unfold parse_v2_addresses. rewrite Hl. cbn [rbind]. simpl in E3, E4. simpl. by rewrite E1, E2, E3, E4.
Qed.

Lemma read_inet6 s d sp dp payload :
  is_u128 s -> is_u128 d -> is_u16 sp -> is_u16 dp ->
  parse_proxy_header (encode_v2_inet6 s d sp dp ++ payload)
  = Ok (Forwarded {| ip := V6 s; port := sp |} {| ip := V6 d; port := dp |}, payload).
Proof.
  intros Hs Hd Hsp Hdp. destruct (block_fields 16 s d sp dp Hs Hd Hsp Hdp) as (Hl & E1 & E2 & E3 & E4).
  change (encode_v2_inet6 s d sp dp)
    with (v2_frame 33 33 (be_bytes 2 36) (be_bytes 16 s ++ be_bytes 16 d ++ be_bytes 2 sp ++ be_bytes 2 dp)).
  set (block := be_bytes 16 s ++ _) in *. rewrite parse_v2_frame; [|done|done|by rewrite Hl|by rewrite Hl].
  change (dispatch_command 33 33 block) with (parse_v2_addresses 2 1 block).
  unfold parse_v2_addresses. rewrite Hl. cbn [rbind]. simpl in E3, E4. simpl. by rewrite E1, E2, E3, E4.
Qed.

Lemma ip_to_v6_wf a : ip_wf a -> is_u128 (ip_to_v6 a).
Proof.
  destruct a as [v|v]; [|done]. simpl. unfold to_ipv6_mapped, in_width. lia.
Qed.

Lemma ip_to_v6_canonical a : ip_wf a -> canonical_ip a = a -> canonical_ip (V6 (ip_to_v6 a)) = a.
Proof. destruct a as [v|v]; simpl; intros Hw Hc; [by rewrite mapped_back|exact Hc]. Qed.

Lemma length_encode_inet s d sp dp : length (encode_v2_inet s d sp dp) = 28%nat.
Proof. unfold encode_v2_inet. by rewrite !length_app, !length_be_bytes. Qed.

Lemma length_encode_inet6 s d sp dp : length (encode_v2_inet6 s d sp dp) = 52%nat.
Proof. unfold encode_v2_inet6. by rewrite !length_app, !length_be_bytes. Qed.

(** ** The properties *)

(** What the gateway writes is what the next hop reads: the encoded header
    followed by any payload is parsed back to the same client and destination
    up to identity folding, with the ports exact, both addresses of one family,
    the payload untouched, and at most 52 header bytes; the identity derived
    from the parsed header is the canonical text of the original client. *)
Theorem v2_header_round_trip src dst payload peer :
  addr_wf src -> addr_wf dst ->
  exists src' dst',
    parse_proxy_header (encode_v2_proxy_header src dst ++ payload) = Ok (Forwarded src' dst', payload)
    /\ canonical_socket_addr src' = canonical_socket_addr src
    /\ canonical_socket_addr dst' = canonical_socket_addr dst
    /\ is_v4 (ip src') = is_v4 (ip dst')
    /\ (length (encode_v2_proxy_header src dst) <= V2_ENCODED_MAX_LEN)%nat
    /\ apply_proxy_result (Forwarded src' dst') peer
       = (canonical_ip_string (ip src), canonical_ip_string (ip peer)).
Proof.
  intros [Hs Hsp] [Hd Hdp]. apply canonical_ip_wf in Hs, Hd.
  assert (Is := canonical_ip_idemp (ip src)). assert (Id := canonical_ip_idemp (ip dst)).
  assert (Ss := ip_to_v6_canonical _ Hs Is). assert (Sd := ip_to_v6_canonical _ Hd Id).
  assert (Ws := ip_to_v6_wf _ Hs). assert (Wd := ip_to_v6_wf _ Hd).
  assert (H6 := read_inet6 _ _ _ _ payload Ws Wd Hsp Hdp).
  unfold encode_v2_proxy_header, canonical_socket_addr, apply_proxy_result, canonical_ip_string.
  destruct (canonical_ip (ip src)) as [s|s].
  1: destruct (canonical_ip (ip dst)) as [d|d].
  - eexists _, _. split; [exact (read_inet s d _ _ payload Hs Hd Hsp Hdp)|].
    rewrite length_encode_inet. split_and!; [done..|by apply Nat.leb_le|done].
  - eexists _, _. split; [exact H6|]. cbn [ip port]. rewrite Ss, Sd, length_encode_inet6.
    split_and!; [done..|by apply Nat.leb_le|done].
  - eexists _, _. split; [exact H6|]. cbn [ip port]. rewrite Ss, Sd, length_encode_inet6.
    split_and!; [done..|by apply Nat.leb_le|done].
Qed.

Lemma v2_header_round_trip_witness :
  exists src' dst',
    parse_proxy_header
      (encode_v2_proxy_header {| ip := V4 16909060; port := 5000 |} {| ip := V6 1; port := 443 |} ++ bs "hi")
    = Ok (Forwarded src' dst', bs "hi").
Proof.
  destruct (v2_header_round_trip {| ip := V4 16909060; port := 5000 |} {| ip := V6 1; port := 443 |}
    (bs "hi") {| ip := V4 1; port := 1 |}) as (src' & dst' & H & _).
  - split; apply (bool_decide_unpack _); vm_compute; exact I.
  - split; apply (bool_decide_unpack _); vm_compute; exact I.
  - by exists src', dst'.
Defined.

(** ** What a reader consumes *)

(** A v1 header: the prefix, then the line up to its first CRLF. *)
Definition v1_header (hdr : bytes) : Prop :=
  take 6 hdr = V1_PREFIX /\ (6 < length hdr <= V1_MAX_LEN)%nat /\ ends_crlf hdr = true
  /\ forall n, (n < length hdr)%nat -> ends_crlf (take n hdr) = false.

Definition v1_result (hdr : bytes) : outcome :=
  let? line := ok_or (from_utf8 (take (length hdr - 2) hdr)) (Malformed NonUtf8) in
  parse_v1_line line.

(** The prefix itself holds no line end. *)
Lemma prefix_unterminated n : ends_crlf (take n V1_PREFIX) = false.
Proof. do 7 (destruct n as [|n]; [reflexivity|]). reflexivity. Qed.

Lemma unterminated_header p :
  unterminated V1_PREFIX p <->
  forall n, (n < length (V1_PREFIX ++ p))%nat -> ends_crlf (take n (V1_PREFIX ++ p)) = false.
Proof.
  split; intros H n Hn.
  - destruct (Nat.le_gt_cases n 6) as [Hle|Hgt].
    + rewrite take_app_le by (change (length V1_PREFIX) with 6%nat; lia). apply prefix_unterminated.
    + rewrite length_app in Hn. change (length V1_PREFIX) with 6%nat in Hn.
      replace n with (length V1_PREFIX + (n - 6))%nat by (change (length V1_PREFIX) with 6%nat; lia).
      rewrite take_app_add. apply H. lia.
  - rewrite <- take_app_add. apply H. rewrite length_app. lia.
Qed.

Lemma parse_v1_iff s r rest :
  parse_v1 V1_PREFIX s = Ok (r, rest) <->
  exists p, s = p ++ rest /\ v1_header (V1_PREFIX ++ p) /\ v1_result (V1_PREFIX ++ p) = Ok r.
Proof.
  unfold parse_v1, v1_result. rewrite rbind_Ok. split.
  - intros ([line s'] & Hl & H).
    apply read_v1_line_iff in Hl as (p & -> & -> & Hp & He & Hlen & Hu); [|lia].
    apply rbind_Ok in H as (t & Ht & H). apply rbind_Ok in H as (r' & Hr & [= -> ->]).
    exists p. split; [done|]. split; [|by rewrite Ht].
    split_and!; [by rewrite take_app_length'| | |done|by apply unterminated_header].
    + rewrite length_app. change (length V1_PREFIX) with 6%nat. destruct p; [done|simpl; lia].
    + done.
  - intros (p & -> & (_ & Hl & He & Hu) & Hr). exists (V1_PREFIX ++ p, rest). split.
    + apply read_v1_line_iff; [lia|]. exists p. split_and!; try done; [|lia|by apply unterminated_header].
      intros ->. rewrite app_nil_r in Hl. change (length V1_PREFIX) with 6%nat in Hl. lia.
    + apply rbind_Ok in Hr as (t & Ht & Hr). apply rbind_Ok. exists t. split; [done|].
      by rewrite Hr.
Qed.

(** A v2 header: signature, fixed part and the declared address block. *)
Definition v2_header (hdr : bytes) (r : ProxyProtocolResult) : Prop :=
  exists ver_cmd fam_transport len_bytes block,
    hdr = v2_frame ver_cmd fam_transport len_bytes block
    /\ length len_bytes = 2%nat /\ Z.shiftr ver_cmd 4 = 2
    /\ be_value len_bytes = Z.of_nat (length block) /\ Z.of_nat (length block) <= V2_MAX_ADDR_LEN
    /\ dispatch_command ver_cmd fam_transport block = Ok r.

Definition header (hdr : bytes) (r : ProxyProtocolResult) : Prop :=
  v1_header hdr /\ v1_result hdr = Ok r \/ v2_header hdr r.

Lemma v1_header_cons hdr : v1_header hdr -> exists p, hdr = V1_PREFIX ++ p.
Proof. intros (H6 & _). exists (drop 6 hdr). by rewrite <- H6, take_drop. Qed.

(** The stream reader, relationally: it accepts a stream exactly when the stream
    starts with a header, and then it consumes that header. *)
Lemma parse_proxy_header_iff s r rest :
  is_bytes s ->
  parse_proxy_header s = Ok (r, rest) <-> exists hdr, s = hdr ++ rest /\ header hdr r.
Proof.
  intros Hb. split.
  - unfold parse_proxy_header. rewrite rbind_Ok. intros ([prefix s1] & Hr & H).
    destruct (eqb_bytes prefix V1_PREFIX) eqn:E1.
    + apply eqb_bytes_spec in E1 as ->. apply read_exact_Ok in Hr as [-> _].
      apply parse_v1_iff in H as (p & -> & Hh & Hres). exists (V1_PREFIX ++ p).
      split; [by rewrite app_assoc|]. by left.
    + destruct (parse_v2_inv s r rest) as (a & b & lb & block & -> & Hl & Hv & Hlen & Hm & Hd).
      { rewrite Hr. exact H. }
      exists (v2_frame a b lb block). split; [done|]. right.
      assert (Hlb : is_bytes lb).
      { unfold v2_frame in Hb. unfold is_bytes in *. rewrite !Forall_app in Hb. naive_solver. }
      apply be_value_bounds in Hlb. exists a, b, lb, block. split_and!; (done || lia).
  - intros (hdr & -> & [[Hh Hres]|(a & b & lb & block & -> & Hl & Hv & Hlen & Hm & Hd)]).
    + destruct (v1_header_cons hdr Hh) as [p ->]. rewrite <- app_assoc. unfold parse_proxy_header.
      rewrite read_exact_app by done. cbn [rbind].
      rewrite (proj2 (eqb_bytes_spec V1_PREFIX V1_PREFIX)) by done. apply parse_v1_iff. by exists p.
    + rewrite parse_v2_frame by done. by rewrite Hd.
Qed.

Lemma header_length hdr r :
  header hdr r ->
  (length hdr <= PROXY_PROTOCOL_MAX_HEADER_BYTES)%nat
  /\ (take 6 hdr = V1_PREFIX /\ (length hdr <= V1_MAX_LEN)%nat \/ take 12 hdr = V2_SIG).
Proof.
  change PROXY_PROTOCOL_MAX_HEADER_BYTES with 528%nat.
  intros [[(H6 & Hl & _) _]|(a & b & lb & block & -> & Hl & _ & _ & Hm & _)].
  - unfold V1_MAX_LEN in *. split; [lia|]. left. split; [done|lia].
  - unfold v2_frame, V2_MAX_ADDR_LEN in *. rewrite !length_app, Hl. simpl. split; [lia|by right].
Qed.

(** A reader takes its header and nothing else. When a stream is accepted,
    it starts with a v1 or v2 signature, at most 528 bytes are consumed (109 for
    v1), the rest of the stream is handed on untouched, and the result is the
    same whatever follows the header. *)
Theorem proxy_header_local s r rest :
  is_bytes s -> parse_proxy_header s = Ok (r, rest) ->
  exists hdr, s = hdr ++ rest
    /\ (length hdr <= PROXY_PROTOCOL_MAX_HEADER_BYTES)%nat
    /\ (take 6 hdr = V1_PREFIX /\ (length hdr <= V1_MAX_LEN)%nat \/ take 12 hdr = V2_SIG)
    /\ forall rest', is_bytes rest' -> parse_proxy_header (hdr ++ rest') = Ok (r, rest').
Proof.
  intros Hb Hp. apply parse_proxy_header_iff in Hp as (hdr & -> & Hh); [|done].
  destruct (header_length hdr r Hh) as [Hl Hs]. exists hdr. split_and!; [done..|].
  intros rest' Hr'. apply parse_proxy_header_iff; [|by exists hdr].
  unfold is_bytes in *. apply Forall_app in Hb as [Hb _]. by apply Forall_app.
Qed.

Lemma proxy_header_local_witness :
  exists hdr, bs "PROXY UNKNOWN" ++ crlf ++ bs "GET" = hdr ++ bs "GET"
    /\ (length hdr <= PROXY_PROTOCOL_MAX_HEADER_BYTES)%nat.
Proof.
  destruct (proxy_header_local (bs "PROXY UNKNOWN" ++ crlf ++ bs "GET") NoAddress (bs "GET"))
    as (hdr & H1 & H2 & _).
  - apply (bool_decide_unpack _). vm_compute. exact I.
  - vm_compute. reflexivity.
  - by exists hdr.
Defined.

Lemma v2_sig_not_v1 l : eqb_bytes (take 6 (V2_SIG ++ l)) V1_PREFIX = false.
Proof. reflexivity. Qed.

Lemma bytes_parser_v2_sound data r :
  is_bytes data -> take 6 data <> V1_PREFIX ->
  parse_proxy_protocol_header_bytes data = Ok r -> v2_header data r.
Proof.
  intros Hb Hn. unfold parse_proxy_protocol_header_bytes.
  change PROXY_PROTOCOL_MAX_HEADER_BYTES with 528%nat.
  change (length V2_SIG) with 12%nat. change (12 + 4)%nat with 16%nat.
  destruct (Nat.ltb_spec 528 (length data)) as [|Hmax]; [done|].
  destruct (eqb_bytes (take 6 data) V1_PREFIX) eqn:E1; [by apply eqb_bytes_spec in E1|].
  destruct (Nat.ltb_spec (length data) 6); [done|].
  destruct (eqb_bytes (take 6 data) (take 6 V2_SIG)); [|done]. cbn [negb].
  destruct (Nat.ltb_spec (length data) 16) as [|H16]; [done|].
  destruct (eqb_bytes (take 12 data) V2_SIG) eqn:E2; [|done]. apply eqb_bytes_spec in E2. cbn [negb].
  assert (H4 : length (take 4 (drop 12 data)) = 4%nat) by (rewrite length_take, length_drop; lia).
  assert (Hdec : data = V2_SIG ++ take 4 (drop 12 data) ++ drop 16 data).
  { rewrite <- E2. change (drop 16 data) with (drop (12 + 4) data). by rewrite <- drop_drop, !take_drop. }
  destruct (take 4 (drop 12 data)) as [|a [|b [|x [|y [|]]]]]; simpl in H4; try lia.
  change (byte_at [a; b; x; y] 0) with a. change (byte_at [a; b; x; y] 1) with b.
  change (be_at [a; b; x; y] 2 2) with (be_value [x; y]).
  destruct (Z.eqb_spec (Z.shiftr a 4) 2) as [Hv|]; [|done]. cbn [negb].
  destruct (Z.ltb_spec V2_MAX_ADDR_LEN (be_value [x; y])) as [|Hm]; [done|].
  destruct (Nat.ltb_spec (length data) (16 + Z.to_nat (be_value [x; y]))) as [|Hge]; [done|].
  destruct (Nat.ltb_spec (16 + Z.to_nat (be_value [x; y])) (length data)) as [|Hle]; [done|].
  intros Hd. exists a, b, [x; y], (drop 16 data).
  assert (Hxy : is_bytes [x; y]).
  { rewrite Hdec in Hb. unfold is_bytes in *. rewrite !Forall_app in Hb. destruct Hb as (_ & Hfix & _).
    by apply Forall_cons in Hfix as [_ [_ ?]%Forall_cons]. }
  apply be_value_bounds in Hxy.
  assert (Hlen : length (drop 16 data) = Z.to_nat (be_value [x; y])) by (rewrite length_drop; lia).
  split_and!; [exact Hdec|done|done|lia|lia|exact Hd].
Qed.

Lemma bytes_parser_v2_complete data r :
  v2_header data r -> parse_proxy_protocol_header_bytes data = Ok r.
Proof.
  unfold parse_proxy_protocol_header_bytes.
  change PROXY_PROTOCOL_MAX_HEADER_BYTES with 528%nat.
  change (length V2_SIG) with 12%nat. change (12 + 4)%nat with 16%nat.
  intros (a & b & lb & block & -> & Hl & Hv & Hlen & Hm & Hd).
  destruct lb as [|x [|y [|]]]; simpl in Hl; try lia. unfold v2_frame.
  assert (EL : length (V2_SIG ++ [a; b] ++ [x; y] ++ block) = (16 + length block)%nat) by reflexivity.
  rewrite EL, v2_sig_not_v1. unfold V2_MAX_ADDR_LEN in *.
  rewrite (proj2 (Nat.ltb_ge 528 _)) by lia. rewrite (proj2 (Nat.ltb_ge _ 6)) by lia.
  rewrite (proj2 (Nat.ltb_ge _ 16)) by lia.
  change (take 6 (V2_SIG ++ [a; b] ++ [x; y] ++ block)) with (take 6 V2_SIG).
  change (take 12 (V2_SIG ++ [a; b] ++ [x; y] ++ block)) with V2_SIG.
  change (take 4 (drop 12 (V2_SIG ++ [a; b] ++ [x; y] ++ block))) with [a; b; x; y].
  change (drop 16 (V2_SIG ++ [a; b] ++ [x; y] ++ block)) with block.
  rewrite !(proj2 (eqb_bytes_spec _ _) eq_refl). cbn [negb].
  change (byte_at [a; b; x; y] 0) with a. change (byte_at [a; b; x; y] 1) with b.
  change (be_at [a; b; x; y] 2 2) with (be_value [x; y]).
  rewrite Hv, Hlen, Nat2Z.id. cbn [Z.eqb Pos.eqb negb]. rewrite (proj2 (Z.ltb_ge _ _)) by lia.
  rewrite Nat.ltb_irrefl. exact Hd.
Qed.

Lemma bytes_parser_v2 data r :
  is_bytes data -> take 6 data <> V1_PREFIX ->
  parse_proxy_protocol_header_bytes data = Ok r <-> v2_header data r.
Proof. intros. split; [by apply bytes_parser_v2_sound|apply bytes_parser_v2_complete]. Qed.

Lemma bytes_parser_v1 data r :
  take 6 data = V1_PREFIX ->
  parse_proxy_protocol_header_bytes data = Ok r <->
  (length data <= V1_MAX_LEN)%nat /\ ends_crlf data = true /\ v1_result data = Ok r.
Proof.
  intros H6. unfold parse_proxy_protocol_header_bytes, v1_result. change PROXY_PROTOCOL_MAX_HEADER_BYTES with 528%nat.
  rewrite H6, (proj2 (eqb_bytes_spec _ _) eq_refl). unfold V1_MAX_LEN.
  destruct (Nat.ltb_spec 528 (length data)); [split; [done|intros (? & _); lia]|].
  destruct (Nat.ltb_spec 109 (length data)); [split; [done|intros (? & _); lia]|].
  destruct (ends_crlf data); simpl; [naive_solver lia|]. split; [done|]. by intros (_ & ? & _).
Qed.

(** The parser the fuzzer exercises is the parser that runs: a byte string is
    a complete header for the stream reader exactly when the in-memory parser
    accepts it with the same result, except that the in-memory parser must also
    be given a v1 line without an earlier CRLF (the stream reader stops at the
    first one). *)
Theorem bytes_parser_agrees data r :
  is_bytes data ->
  parse_proxy_header data = Ok (r, []) <->
  parse_proxy_protocol_header_bytes data = Ok r
  /\ (take 6 data = V1_PREFIX -> forall n, (n < length data)%nat -> ends_crlf (take n data) = false).
Proof.
  intros Hb. rewrite parse_proxy_header_iff by done.
  assert (Heq : (exists hdr, data = hdr ++ [] /\ header hdr r) <-> header data r).
  { split; [intros (hdr & -> & ?); by rewrite app_nil_r|]. intros ?. exists data. by rewrite app_nil_r. }
  rewrite Heq. destruct (decide (take 6 data = V1_PREFIX)) as [H6|H6].
  - rewrite bytes_parser_v1 by done. split.
    + intros [[(_ & Hl & He & Hu) Hr]|(a & b & lb & block & -> & _)]; [|done].
      split_and!; [lia|done|done|done].
    + intros [(Hl & He & Hr) Hu]. left. split; [|done]. split_and!; [done| |lia|done|by apply Hu].
      assert (Hlen : (6 <= length data)%nat).
      { assert (H := f_equal length H6). rewrite length_take in H. change (length V1_PREFIX) with 6%nat in H. lia. }
      destruct (decide (length data = 6%nat)) as [E|]; [|lia]. exfalso.
      assert (E' : data = V1_PREFIX) by (rewrite <- H6; by rewrite take_ge by lia).
      rewrite E' in He. vm_compute in He. done.
  - rewrite bytes_parser_v2 by done. split.
    + intros [[(? & _) _]|Hv]; [done|]. split; [done|]. by intros.
    + intros [Hv _]. by right.
Qed.

Lemma bytes_parser_agrees_witness :
  parse_proxy_protocol_header_bytes (bs "PROXY UNKNOWN" ++ crlf) = Ok NoAddress.
Proof.
  apply (bytes_parser_agrees (bs "PROXY UNKNOWN" ++ crlf) NoAddress).
  - apply (bool_decide_unpack _). vm_compute. exact I.
  - vm_compute. reflexivity.
Defined.
