(* ===== verification/Cidr.v ===== *)
(** * Address sets ([src/src/util/cidr.rs])

    [CidrSet]: parsing of comma-separated networks and addresses, membership by
    masking, and the test whether a list admits a whole address family. The
    theorems give the meaning of a parsed set as a union of address intervals
    and show that the interval sweep of [permits_all_family] decides coverage. *)

From S2P Require Import Prelude Utf8 Decimal Net.
From stdpp Require Import sorting.
Open Scope Z_scope.

Record CidrEntry := { network : IpAddr; prefix_len : Z }.

Definition CidrSet := list CidrEntry.

(** [uN::MAX.checked_shl(shift).unwrap_or(0)]. *)
Definition max_shl (w shift : Z) : Z := if shift <? w then wrap w (Z.shiftl (umax w) shift) else 0.

(** The shift amount [w - prefix_len as u32]. *)
Definition host_bits (w p : Z) : Z := wrap 32 (w - p).

Definition prefix_mask (w p : Z) : Z := if p =? 0 then 0 else max_shl w (host_bits w p).

Definition mask_network (net : IpAddr) (p : Z) : IpAddr :=
  match net with
  | V4 v => V4 (Z.land v (prefix_mask 32 p))
  | V6 v => V6 (Z.land v (prefix_mask 128 p))
  end.

Definition canonicalize_cidr_network (a : IpAddr) (p : Z) : option (IpAddr * Z) :=
  match a with
  | V6 v =>
    match to_ipv4_mapped v with
    | Some w => if p <? 96 then None else Some (V4 w, p - 96)
    | None => Some (V6 v, p)
    end
  | V4 v => Some (V4 v, p)
  end.

Definition max_prefix (a : IpAddr) : Z := match a with V4 _ => 32 | V6 _ => 128 end.

(** [str::split_once('/')]. *)
Fixpoint split_once (sep : Z) (l : bytes) : option (bytes * bytes) :=
  match l with
  | [] => None
  | b :: l =>
    if b =? sep then Some ([], l)
    else match split_once sep l with Some (x, y) => Some (b :: x, y) | None => None end
  end.

Definition parse_entry (entry : bytes) : option CidrEntry :=
  match split_once 47 entry with
  | Some (network_str, prefix_str) =>
    match parse_ip (trim network_str) with
    | None => None
    | Some a =>
      match parse_uint 8 (trim prefix_str) with
      | None => None
      | Some p =>
        match canonicalize_cidr_network a p with
        | None => None
        | Some (net, p) =>
          if max_prefix net <? p then None
          else Some {| network := mask_network net p; prefix_len := p |}
        end
      end
    end
  | None =>
    match parse_ip (trim entry) with
    | None => None
    | Some a => let a := canonical_ip a in Some {| network := a; prefix_len := max_prefix a |}
    end
  end.

(** The valid entries, and the texts of the invalid ones. *)
Fixpoint parse_entries_list (reject_empty : bool) (pieces : list bytes) : CidrSet * list bytes :=
  match pieces with
  | [] => ([], [])
  | piece :: pieces =>
    let '(entries, invalid) := parse_entries_list reject_empty pieces in
    let entry := trim piece in
    if bool_decide (entry = []) then
      (entries, if reject_empty then bs "<empty>" :: invalid else invalid)
    else
      match parse_entry entry with
      | Some c => (c :: entries, invalid)
      | None => (entries, entry :: invalid)
      end
  end.

Definition comma : Z := 44.

Definition parse_entries (raw : bytes) (reject_empty : bool) : CidrSet * list bytes :=
  parse_entries_list reject_empty (split_on comma raw).

(** The error carries the invalid entries. *)
Definition parse_strict (raw : bytes) : result CidrSet (list bytes) :=
  if bool_decide (trim raw = []) then Ok []
  else
    let '(entries, invalid) := parse_entries raw true in
    if bool_decide (invalid = []) then Ok entries else Err invalid.

Definition parse_lenient (raw : bytes) : CidrSet * list bytes := parse_entries raw false.

Definition matches_bits (w net a p : Z) : bool :=
  if p =? 0 then true
  else Z.land net (max_shl w (host_bits w p)) =? Z.land a (max_shl w (host_bits w p)).

Definition matches_ipv4 (net a p : Z) : bool := matches_bits 32 net a p.
Definition matches_ipv6 (net a p : Z) : bool := matches_bits 128 net a p.

Definition matches (e : CidrEntry) (a : IpAddr) : bool :=
  match network e, a with
  | V4 net, V4 v => matches_ipv4 net v (prefix_len e)
  | V4 net, V6 v =>
    match to_ipv4_mapped v with Some w => matches_ipv4 net w (prefix_len e) | None => false end
  | V6 net, V6 v => matches_ipv6 net v (prefix_len e)
  | V6 _, V4 _ => false
  end.

Definition cidr_contains (s : CidrSet) (a : IpAddr) : bool := existsb (fun e => matches e a) s.

(** ** Coverage of a family *)

Definition range_le (a b : Z * Z) : Prop := a.1 < b.1 \/ a.1 = b.1 /\ a.2 <= b.2.

#[global] Instance range_le_dec a b : Decision (range_le a b).
Proof. unfold range_le. apply _. Defined.

(** The sweep after the first range. *)
Fixpoint sweep (ranges : list (Z * Z)) (max covered : Z) : bool :=
  match ranges with
  | [] => max <=? covered
  | (start, fin) :: ranges =>
    if max <=? covered then true
    else if saturating_add 128 covered 1 <? start then false
    else sweep ranges max (if covered <? fin then fin else covered)
  end.

Definition ranges_cover_full (ranges : list (Z * Z)) (max : Z) : bool :=
  match merge_sort range_le ranges with
  | [] => false
  | (start, fin) :: rest => if negb (start =? 0) then false else sweep rest max fin
  end.

Definition v4_range (net p : Z) : Z * Z :=
  let prefix := Z.min p 32 in
  let host := Z.shiftl 1 (32 - prefix) - 1 in
  let start := Z.ldiff net host in
  (start, Z.lor start host).

Definition v6_range (net p : Z) : Z * Z :=
  let prefix := Z.min p 128 in
  if prefix =? 0 then (0, umax 128)
  else
    let host := Z.shiftl 1 (128 - prefix) - 1 in
    let start := Z.ldiff net host in
    (start, Z.lor start host).

Definition v4_ranges (s : CidrSet) : list (Z * Z) :=
  omap (fun e => match network e with V4 net => Some (v4_range net (prefix_len e)) | V6 _ => None end) s.
Definition v6_ranges (s : CidrSet) : list (Z * Z) :=
  omap (fun e => match network e with V6 net => Some (v6_range net (prefix_len e)) | V4 _ => None end) s.

Definition permits_all_family (s : CidrSet) : bool :=
  ranges_cover_full (v4_ranges s) (umax 32) || ranges_cover_full (v6_ranges s) (umax 128).

Definition cidr_list_permits_all (raw : bytes) : bool := permits_all_family (parse_lenient raw).1.

Example cidr_examples :
  (exists s, parse_strict (bs "10.0.0.0/8, ::1,::ffff:192.168.0.0/112") = Ok s
     /\ cidr_contains s (V4 0x0A010203) = true /\ cidr_contains s (V6 1) = true
     /\ cidr_contains s (V6 (to_ipv6_mapped 0xC0A80101)) = true /\ cidr_contains s (V4 1) = false)
  /\ parse_strict (bs "10.0.0.0/8,") = Err [bs "<empty>"]
  /\ parse_strict (bs "10.0.0.0/33,x") = Err [bs "10.0.0.0/33"; bs "x"]
  /\ cidr_list_permits_all (bs "0.0.0.0/1,128.0.0.0/1") = true
  /\ cidr_list_permits_all (bs "0.0.0.0/1,128.0.0.0/2") = false
  /\ cidr_list_permits_all (bs "::/0") = true.
Proof. split_and!; [eexists; split; [vm_compute; reflexivity|]|..]; vm_compute; repeat split. Qed.

(** ** Masks and intervals *)

Lemma testbit_aligned x s i :
  0 <= s -> 0 <= i -> Z.testbit (x / 2 ^ s * 2 ^ s) i = (s <=? i) && Z.testbit x i.
Proof.
  intros Hs Hi. rewrite <- Z.shiftr_div_pow2, <- Z.shiftl_mul_pow2 by lia.
  destruct (Z.leb_spec s i); simpl.
  - rewrite Z.shiftl_spec, Z.shiftr_spec by lia. f_equal. lia.
  - apply Z.shiftl_spec_low. lia.
Qed.

Lemma testbit_above w x i : 0 <= w -> in_width w x -> w <= i -> Z.testbit x i = false.
Proof.
  intros Hw Hx Hi. rewrite <- (Z.mod_small x (2 ^ w)) by exact Hx.
  apply Z.mod_pow2_bits_high. lia.
Qed.

Lemma testbit_umax w i : 0 <= w -> 0 <= i -> Z.testbit (umax w) i = (i <? w).
Proof.
  intros Hw Hi. unfold umax. rewrite Z.sub_1_r, <- Z.ones_equiv. destruct (Z.ltb_spec i w).
  - apply Z.ones_spec_low. lia.
  - apply Z.ones_spec_high. lia.
Qed.

Lemma mask_land w s x :
  0 <= s < w -> in_width w x -> Z.land x (max_shl w s) = x / 2 ^ s * 2 ^ s.
Proof.
  intros Hs Hx. unfold max_shl. rewrite (proj2 (Z.ltb_lt _ _)) by lia. apply Z.bits_inj'. intros i Hi.
  rewrite Z.land_spec, testbit_aligned by lia. unfold wrap.
  destruct (Z.lt_ge_cases i w).
  - rewrite Z.mod_pow2_bits_low, Z.shiftl_spec by lia. destruct (Z.leb_spec s i); simpl.
    + rewrite testbit_umax by lia. rewrite (proj2 (Z.ltb_lt _ _)) by lia. apply andb_true_r.
    + rewrite (Z.testbit_neg_r (umax w)) by lia. apply andb_false_r.
  - by rewrite (testbit_above w x i), andb_false_r by (done || lia).
Qed.

Lemma matches_bits_spec w net a p :
  w <= 128 -> 0 <= p <= w -> in_width w net -> in_width w a ->
  matches_bits w net a p = (net / 2 ^ (w - p) =? a / 2 ^ (w - p)).
Proof.
  intros Hw Hp Hn Ha. unfold matches_bits. destruct (Z.eqb_spec p 0) as [->|Hp0].
  - rewrite Z.sub_0_r, !Z.div_small by assumption. done.
  - unfold host_bits. rewrite (wrap_small 32) by (unfold in_width; lia).
    rewrite !mask_land by (done || lia).
    assert (0 < 2 ^ (w - p)) by (apply Z.pow_pos_nonneg; lia).
    destruct (Z.eqb_spec (net / 2 ^ (w - p)) (a / 2 ^ (w - p))) as [->|Hne]; [apply Z.eqb_refl|].
    apply Z.eqb_neq. nia.
Qed.

(** The addresses of a network: those that share its leading bits. *)
Definition net_lo (w net p : Z) : Z := net / 2 ^ (w - p) * 2 ^ (w - p).
Definition net_hi (w net p : Z) : Z := net_lo w net p + 2 ^ (w - p) - 1.

Lemma matches_interval w net a p :
  w <= 128 -> 0 <= p <= w -> in_width w net -> in_width w a ->
  matches_bits w net a p = true <-> net_lo w net p <= a <= net_hi w net p.
Proof.
  intros Hw Hp Hn Ha. rewrite matches_bits_spec, Z.eqb_eq by done. unfold net_hi, net_lo.
  assert (H2 : 0 < 2 ^ (w - p)) by (apply Z.pow_pos_nonneg; lia). set (B := 2 ^ (w - p)) in *. split.
  - intros ->. assert (Hd := Z.div_mod a B). assert (Hm := Z.mod_pos_bound a B). lia.
  - intros [Hlo Hhi]. apply (Z.div_unique a B (net / B) (a - net / B * B)); lia.
Qed.

Lemma net_bounds w net p :
  0 <= p <= w -> in_width w net -> 0 <= net_lo w net p /\ net_lo w net p <= net_hi w net p <= umax w.
Proof.
  intros Hp Hn. unfold net_hi, net_lo, umax, in_width in *.
  assert (H2 : 0 < 2 ^ (w - p)) by (apply Z.pow_pos_nonneg; lia).
  assert (Hw : 2 ^ w = 2 ^ p * 2 ^ (w - p)) by (rewrite <- Z.pow_add_r by lia; f_equal; lia).
  set (B := 2 ^ (w - p)) in *.
  assert (Hq : 0 <= net / B) by (apply Z.div_pos; lia).
  assert (Hlt : net / B < 2 ^ p) by (apply Z.div_lt_upper_bound; lia). nia.
Qed.

(** [permits_all_family]'s ranges are these intervals. *)
Lemma range_interval w net p :
  0 <= p <= w -> in_width w net ->
  let host := Z.shiftl 1 (w - p) - 1 in
  Z.ldiff net host = net_lo w net p /\ Z.lor (Z.ldiff net host) host = net_hi w net p.
Proof.
  intros Hp Hn host. assert (Hh : host = Z.ones (w - p)).
  { unfold host. rewrite Z.shiftl_1_l, Z.ones_equiv. lia. }
  assert (Hlo : Z.ldiff net host = net_lo w net p).
  { rewrite Hh. unfold net_lo. rewrite Z.ldiff_ones_r, Z.shiftr_div_pow2, Z.shiftl_mul_pow2 by lia. done. }
  split; [done|]. rewrite Hlo, Hh. unfold net_hi.
  assert (Hdis : Z.land (net_lo w net p) (Z.ones (w - p)) = 0).
  { rewrite <- Hlo, Hh. apply Z.bits_inj'. intros i Hi.
    rewrite Z.land_spec, Z.ldiff_spec, Z.testbit_0_l. by destruct (Z.testbit net i), (Z.testbit _ i). }
  rewrite <- Z.lxor_lor, <- Z.add_nocarry_lxor, Z.ones_equiv by done. lia.
Qed.

(** ** The sweep decides coverage *)

Definition covers (ranges : list (Z * Z)) (x : Z) : Prop := exists r, r ∈ ranges /\ r.1 <= x <= r.2.

Lemma covers_cons r ranges x : covers (r :: ranges) x <-> r.1 <= x <= r.2 \/ covers ranges x.
Proof.
  unfold covers. setoid_rewrite elem_of_cons. naive_solver.
Qed.

Lemma sweep_spec ranges : forall max covered,
  StronglySorted range_le ranges -> max <= umax 128 ->
  sweep ranges max covered = true <-> forall x, covered < x <= max -> covers ranges x.
Proof.
  induction ranges as [|[s f] ranges IH]; intros max covered Hs Hmax; simpl.
  { rewrite Z.leb_le. split; [lia|]. intros H. destruct (Z.le_gt_cases max covered) as [|Hgt]; [done|].
    destruct (H max) as ([? ?] & Hin & _); [lia|]. by apply elem_of_nil in Hin. }
  apply StronglySorted_inv in Hs as [Hs HF]. destruct (Z.leb_spec max covered).
  { split; [intros _ x Hx; lia|done]. }
  unfold saturating_add. rewrite Z.min_l by lia. destruct (Z.ltb_spec (covered + 1) s) as [Hlt|Hge].
  - split; [done|]. intros H'. exfalso. destruct (H' (covered + 1)) as ([s' f'] & Hin & Hb); [lia|].
    simpl in Hb. apply elem_of_cons in Hin as [[= -> ->]|Hin]; [lia|].
    rewrite Forall_forall in HF. specialize (HF _ Hin). unfold range_le in HF. simpl in HF. lia.
  - rewrite IH by done. split.
    + intros H' x Hx. apply covers_cons. simpl. destruct (Z.le_gt_cases x f); [left; lia|]. right.
      apply H'. destruct (Z.ltb_spec covered f); lia.
    + intros H' x Hx. destruct (H' x) as (r & Hin & Hb).
      { destruct (Z.ltb_spec covered f); lia. }
      apply elem_of_cons in Hin as [->|Hin]; [|by exists r]. simpl in Hb.
      destruct (Z.ltb_spec covered f); lia.
Qed.

#[global] Instance range_le_total : Total range_le.
Proof. intros [a b] [c d]. unfold range_le. simpl. lia. Qed.
#[global] Instance range_le_trans : Transitive range_le.
Proof. intros [a b] [c d] [e f]. unfold range_le. simpl. lia. Qed.

Lemma ranges_cover_full_spec ranges max :
  0 <= max <= umax 128 -> Forall (fun r => 0 <= r.1 <= r.2) ranges ->
  ranges_cover_full ranges max = true <-> forall x, 0 <= x <= max -> covers ranges x.
Proof.
  intros Hm HF. unfold ranges_cover_full.
  assert (Hp : merge_sort range_le ranges ≡ₚ ranges) by apply merge_sort_Permutation.
  assert (Hs : StronglySorted range_le (merge_sort range_le ranges)) by (apply StronglySorted_merge_sort; apply _).
  assert (Hc : forall x, covers ranges x <-> covers (merge_sort range_le ranges) x).
  { intros x. unfold covers. by setoid_rewrite Hp. }
  setoid_rewrite Hc. rewrite <- Hp in HF. destruct (merge_sort range_le ranges) as [|[s f] rest].
  { split; [done|]. intros H. destruct (H 0) as (r & Hin & _); [lia|]. by apply elem_of_nil in Hin. }
  apply Forall_cons in HF as [Hs0 HF]. simpl in Hs0. apply StronglySorted_inv in Hs as [Hs Hfirst].
  destruct (Z.eqb_spec s 0) as [->|Hne]; simpl.
  - rewrite sweep_spec by (done || lia). split.
    + intros H x Hx. apply covers_cons. simpl. destruct (Z.le_gt_cases x f); [left; lia|right; apply H; lia].
    + intros H x Hx. assert (Hx' : covers ((0, f) :: rest) x) by (apply H; lia).
      apply covers_cons in Hx' as [Hx'|]; [simpl in Hx'; lia|done].
  - split; [done|]. intros H. exfalso. destruct (H 0) as (r & Hin & Hb); [lia|].
    apply elem_of_cons in Hin as [->|Hin]; [simpl in Hb; lia|].
    rewrite Forall_forall in Hfirst. specialize (Hfirst _ Hin). unfold range_le in Hfirst. simpl in Hfirst. lia.
Qed.

(** ** Parsed sets *)

Definition bit_width (a : IpAddr) : Z := match a with V4 _ => 32 | V6 _ => 128 end.
Definition ip_bits (a : IpAddr) : Z := match a with V4 v | V6 v => v end.

(** The network of an entry is the first address of its interval. *)
Record entry_wf (e : CidrEntry) : Prop := {
  entry_ip : ip_wf (network e);
  entry_prefix : 0 <= prefix_len e <= bit_width (network e);
  entry_first : ip_bits (network e) = net_lo (bit_width (network e)) (ip_bits (network e)) (prefix_len e);
}.

Lemma aligned_wf w v p :
  0 <= p <= w -> in_width w v ->
  in_width w (net_lo w v p) /\ net_lo w (net_lo w v p) p = net_lo w v p.
Proof.
  intros Hp Hv. assert (Hb := net_bounds w v p Hp Hv). split; [unfold in_width, umax in *; lia|].
  unfold net_lo. rewrite Z.div_mul; [done|]. assert (0 < 2 ^ (w - p)) by (apply Z.pow_pos_nonneg; lia). lia.
Qed.

Lemma mask_wf w v p :
  w <= 128 -> 0 <= p <= w -> in_width w v -> Z.land v (prefix_mask w p) = net_lo w v p.
Proof.
  intros Hw Hp Hv. unfold prefix_mask. destruct (Z.eqb_spec p 0) as [->|].
  - rewrite Z.land_0_r. unfold net_lo. rewrite Z.sub_0_r, Z.div_small by exact Hv. done.
  - unfold host_bits. rewrite (wrap_small 32) by (unfold in_width; lia). by apply mask_land; [lia|].
Qed.

Lemma masked_entry_wf net p :
  ip_wf net -> 0 <= p <= max_prefix net ->
  entry_wf {| network := mask_network net p; prefix_len := p |}.
Proof.
  destruct net as [v|v]; simpl; intros Hv Hp; rewrite mask_wf by (done || lia);
    (destruct (aligned_wf _ v p Hp Hv) as [H1 H2]; constructor; simpl; [exact H1|exact Hp|by rewrite H2]).
Qed.

Lemma parse_uint_nonneg w l v : parse_uint w l = Some v -> 0 <= v.
Proof.
  assert (H : forall l acc v max, 0 <= acc -> parse_digits max acc l = Some v -> 0 <= v).
  { induction l0 as [|b l0 IH]; intros acc v' max Ha; simpl; [by intros [= <-]|].
    destruct (is_ascii_digit b) eqn:E; [|done]. apply is_ascii_digit_spec in E.
    destruct (acc * 10 + (b - 48) <=? max); [|done]. apply IH. lia. }
  unfold parse_uint. destruct l as [|b l]; [done|]. destruct (b =? 43); [destruct l; [done|]|]; by apply H.
Qed.

Lemma split_once_Forall (P : Z -> Prop) sep l x y :
  Forall P l -> split_once sep l = Some (x, y) -> Forall P x /\ Forall P y.
Proof.
  intros HF. revert x y. induction HF as [|b l Hb HF IH]; intros x y; simpl; [done|].
  destruct (b =? sep); [intros [= <- <-]; by split|].
  destruct (split_once sep l) as [[x' y']|]; [|done]. intros [= <- <-].
  destruct (IH x' y' eq_refl). split; [by constructor|done].
Qed.

Lemma parse_entry_wf t e : is_bytes t -> parse_entry t = Some e -> entry_wf e.
Proof.
  intros Hb. unfold parse_entry. destruct (split_once 47 t) as [[ns ps]|] eqn:Es.
  - apply (split_once_Forall is_u8) in Es as [Hns Hps]; [|done].
    destruct (parse_ip (trim ns)) as [a|] eqn:Ea; [|done].
    apply parse_ip_wf in Ea; [|by apply trim_Forall].
    destruct (parse_uint 8 (trim ps)) as [p|] eqn:Ep; [|done]. apply parse_uint_nonneg in Ep.
    destruct (canonicalize_cidr_network a p) as [[net p']|] eqn:Ec; [|done].
    assert (Hn : ip_wf net /\ 0 <= p').
    { unfold canonicalize_cidr_network in Ec. destruct a as [v|v]; [by injection Ec as <- <-|].
      destruct (to_ipv4_mapped v) as [w|] eqn:Em; [|by injection Ec as <- <-].
      destruct (Z.ltb_spec p 96); [done|]. injection Ec as <- <-. apply to_ipv4_mapped_Some in Em as [? _].
      split; [done|lia]. }
    destruct (Z.ltb_spec (max_prefix net) p'); [done|]. intros [= <-]. apply masked_entry_wf; [apply Hn|lia].
  - destruct (parse_ip (trim t)) as [a|] eqn:Ea; [|done].
    apply parse_ip_wf in Ea; [|by apply trim_Forall]. intros [= <-]. apply canonical_ip_wf in Ea.
    destruct (canonical_ip a) as [v|v]; (constructor; [exact Ea|simpl; lia|]);
      simpl; unfold net_lo; rewrite Z.sub_diag, Z.div_1_r, Z.mul_1_r; done.
Qed.

(** What an entry means: the addresses of its interval, IPv4-mapped addresses
    counting as the embedded IPv4 address for IPv4 entries. *)
Definition in_entry (e : CidrEntry) (a : IpAddr) : Prop :=
  match network e with
  | V4 net => exists v, canonical_ip a = V4 v /\ net_lo 32 net (prefix_len e) <= v <= net_hi 32 net (prefix_len e)
  | V6 net => exists v, a = V6 v /\ net_lo 128 net (prefix_len e) <= v <= net_hi 128 net (prefix_len e)
  end.

Lemma entry_matches_spec e a : entry_wf e -> ip_wf a -> matches e a = true <-> in_entry e a.
Proof.
  intros [Hn Hp _] Ha. unfold matches, matches_ipv4, matches_ipv6, in_entry. destruct (network e) as [net|net]; simpl in Hn, Hp.
  - destruct a as [v|v]; simpl in *.
    + rewrite matches_interval by (done || lia). naive_solver.
    + destruct (to_ipv4_mapped v) as [w|] eqn:Em; [|naive_solver].
      apply to_ipv4_mapped_Some in Em as [Hw _]. rewrite matches_interval by (done || lia). naive_solver.
  - destruct a as [v|v]; simpl in *; [naive_solver|].
    rewrite matches_interval by (done || lia). naive_solver.
Qed.

Lemma cidr_contains_spec s a :
  Forall entry_wf s -> ip_wf a -> cidr_contains s a = true <-> exists e, e ∈ s /\ in_entry e a.
Proof.
  intros Hs Ha. unfold cidr_contains. rewrite existsb_exists. setoid_rewrite <- list_elem_of_In.
  rewrite Forall_forall in Hs. split; intros (e & He & Hm); exists e; (split; [done|]);
    by apply entry_matches_spec; [apply Hs| |].
Qed.

Lemma parse_entries_wf b pieces :
  Forall is_bytes pieces -> Forall entry_wf (parse_entries_list b pieces).1.
Proof.
  induction 1 as [|piece pieces Hp HF IH]; simpl; [constructor|].
  destruct (parse_entries_list b pieces) as [entries invalid]. simpl in IH.
  case_bool_decide; [done|]. destruct (parse_entry (trim piece)) as [e|] eqn:E; simpl; [|done].
  constructor; [|done]. eapply parse_entry_wf; [|exact E]. by apply trim_Forall.
Qed.

(** No invalid entry: every piece contributed one entry, in order. *)
Lemma parse_entries_strict pieces s :
  parse_entries_list true pieces = (s, []) ->
  Forall2 (fun piece e => parse_entry (trim piece) = Some e) pieces s.
Proof.
  revert s. induction pieces as [|piece pieces IH]; intros s; simpl; [by intros [= <-]|].
  destruct (parse_entries_list true pieces) as [entries invalid]. case_bool_decide; [done|].
  destruct (parse_entry (trim piece)) as [e|] eqn:E; [|done]. intros [= <- ->]. constructor; [done|by apply IH].
Qed.

(** ** The properties *)

(** A strictly parsed address list means what it says: either the list is
    blank and the set empty, or every comma-separated piece is a valid entry and
    none is dropped; and an address is in the set exactly when it lies in the
    interval of some entry, an IPv4-mapped address being the embedded IPv4
    address for an IPv4 entry. *)
Theorem cidr_set_exact raw s :
  is_bytes raw -> parse_strict raw = Ok s ->
  (trim raw = [] /\ s = []
   \/ Forall2 (fun piece e => parse_entry (trim piece) = Some e) (split_on comma raw) s)
  /\ Forall entry_wf s
  /\ forall a, ip_wf a -> cidr_contains s a = true <-> exists e, e ∈ s /\ in_entry e a.
Proof.
  intros Hb. unfold parse_strict. case_bool_decide as Ht.
  { intros [= <-]. split_and!; [by left|constructor|]. intros a Ha. by apply cidr_contains_spec. }
  assert (Hwf := parse_entries_wf true _ (split_on_Forall is_u8 comma raw Hb)).
  unfold parse_entries. destruct (parse_entries_list true (split_on comma raw)) as [entries invalid] eqn:E.
  case_bool_decide as Hi; [|done]. intros [= <-]. subst invalid. simpl in Hwf.
  split_and!; [right; by apply parse_entries_strict|done|]. intros a Ha. by apply cidr_contains_spec.
Qed.

Lemma cidr_set_exact_witness :
  exists s, parse_strict (bs "10.0.0.0/8,::1") = Ok s /\ Forall entry_wf s.
Proof.
  eexists. split; [vm_compute; reflexivity|].
  eapply (cidr_set_exact (bs "10.0.0.0/8,::1")).
  - apply (bool_decide_unpack _). vm_compute. exact I.
  - vm_compute. reflexivity.
Defined.

Lemma v4_range_spec net p :
  is_u32 net -> 0 <= p <= 32 -> v4_range net p = (net_lo 32 net p, net_hi 32 net p).
Proof.
  intros Hn Hp. unfold v4_range. rewrite Z.min_l by lia.
  destruct (range_interval 32 net p Hp Hn) as [H1 H2]. simpl in H1, H2. by rewrite H2, H1.
Qed.

Lemma v6_range_spec net p :
  is_u128 net -> 0 <= p <= 128 -> v6_range net p = (net_lo 128 net p, net_hi 128 net p).
Proof.
  intros Hn Hp. unfold v6_range. rewrite Z.min_l by lia. destruct (Z.eqb_spec p 0) as [->|].
  - unfold net_hi, net_lo. rewrite Z.div_small by exact Hn. done.
  - destruct (range_interval 128 net p Hp Hn) as [H1 H2]. simpl in H1, H2. by rewrite H2, H1.
Qed.

Lemma v4_ranges_spec s x :
  Forall entry_wf s -> is_u32 x -> covers (v4_ranges s) x <-> exists e, e ∈ s /\ in_entry e (V4 x).
Proof.
  intros Hs Hx. rewrite Forall_forall in Hs. unfold covers, v4_ranges. setoid_rewrite list_elem_of_omap. split.
  - intros (r & (e & He & Hr) & Hb). exists e. split; [done|]. destruct (Hs e He) as [Hn Hp _].
    unfold in_entry. destruct (network e) as [net|net]; [|done]. simpl in *.
    rewrite v4_range_spec in Hr by done. injection Hr as <-. simpl in Hb. naive_solver.
  - intros (e & He & Hin). destruct (Hs e He) as [Hn Hp _]. unfold in_entry in Hin.
    destruct (network e) as [net|net] eqn:En; [|by destruct Hin as (? & [=] & _)].
    destruct Hin as (v & [= <-] & Hb). simpl in *. eexists. split; [exists e; split; [done|by rewrite En]|].
    by rewrite v4_range_spec.
Qed.

Lemma v6_ranges_spec s x :
  Forall entry_wf s -> is_u128 x ->
  covers (v6_ranges s) x <-> exists e net, e ∈ s /\ network e = V6 net /\ in_entry e (V6 x).
Proof.
  intros Hs Hx. rewrite Forall_forall in Hs. unfold covers, v6_ranges. setoid_rewrite list_elem_of_omap. split.
  - intros (r & (e & He & Hr) & Hb). destruct (Hs e He) as [Hn Hp _].
    destruct (network e) as [net|net] eqn:En; [done|]. exists e, net. split_and!; [done..|].
    unfold in_entry. rewrite En. simpl in *. rewrite v6_range_spec in Hr by done. injection Hr as <-.
    simpl in Hb. naive_solver.
  - intros (e & net & He & En & Hin). destruct (Hs e He) as [Hn Hp _]. unfold in_entry in Hin.
    rewrite En in *. destruct Hin as (v & [= <-] & Hb). simpl in *.
    eexists. split; [exists e; split; [done|by rewrite En]|]. by rewrite v6_range_spec.
Qed.

Lemma ranges_nonneg s :
  Forall entry_wf s ->
  Forall (fun r => 0 <= r.1 <= r.2) (v4_ranges s) /\ Forall (fun r => 0 <= r.1 <= r.2) (v6_ranges s).
Proof.
  intros Hs. rewrite !Forall_forall. rewrite Forall_forall in Hs. unfold v4_ranges, v6_ranges.
  split; intros r (e & He & Hr)%list_elem_of_omap; destruct (Hs e He) as [Hn Hp _];
    destruct (network e) as [net|net]; try done; injection Hr as <-; simpl in Hn, Hp;
    rewrite ?v4_range_spec, ?v6_range_spec by done; simpl.
  - assert (H := net_bounds 32 net (prefix_len e) Hp Hn). lia.
  - assert (H := net_bounds 128 net (prefix_len e) Hp Hn). lia.
Qed.

(** The check for a trust list that restricts nothing is exact: a list is
    reported as permitting a whole family exactly when its entries match every
    IPv4 address, or its IPv6 entries match every IPv6 address, however the
    family is cut into overlapping or adjacent networks. *)
Theorem permits_all_exact raw :
  is_bytes raw ->
  cidr_list_permits_all raw = true <->
  (forall v, is_u32 v -> cidr_contains (parse_lenient raw).1 (V4 v) = true)
  \/ (forall v, is_u128 v -> exists e net,
        e ∈ (parse_lenient raw).1 /\ network e = V6 net /\ matches e (V6 v) = true).
Proof.
  intros Hb. unfold cidr_list_permits_all, permits_all_family.
  assert (Hwf := parse_entries_wf false _ (split_on_Forall is_u8 comma raw Hb)).
  change (parse_entries_list false (split_on comma raw)) with (parse_lenient raw) in Hwf.
  set (s := (parse_lenient raw).1) in *. destruct (ranges_nonneg s Hwf) as [H4 H6].
  rewrite orb_true_iff, !ranges_cover_full_spec by (done || (unfold umax; lia)).
  assert (Hw : forall w x, 0 <= x <= umax w <-> in_width w x) by (intros; unfold umax, in_width; lia).
  setoid_rewrite Hw. f_equiv.
  - split; intros H v Hv; specialize (H v Hv).
    + rewrite v4_ranges_spec in H by done. by apply cidr_contains_spec.
    + apply v4_ranges_spec; [done..|]. by apply cidr_contains_spec in H.
  - rewrite Forall_forall in Hwf. split; intros H v Hv; specialize (H v Hv).
    + rewrite v6_ranges_spec in H by (done || by apply Forall_forall).
      destruct H as (e & net & He & En & Hin). exists e, net. split_and!; [done..|].
      apply entry_matches_spec; [by apply Hwf|done|done].
    + destruct H as (e & net & He & En & Hm). apply v6_ranges_spec; [by apply Forall_forall|done|].
      exists e, net. split_and!; [done..|]. by apply entry_matches_spec in Hm; [|apply Hwf|].
Qed.

Lemma permits_all_exact_witness :
  (forall v, is_u32 v -> cidr_contains (parse_lenient (bs "0.0.0.0/1,128.0.0.0/1")).1 (V4 v) = true)
  \/ (forall v, is_u128 v -> exists e net,
        e ∈ (parse_lenient (bs "0.0.0.0/1,128.0.0.0/1")).1 /\ network e = V6 net /\ matches e (V6 v) = true).
Proof.
  apply (permits_all_exact (bs "0.0.0.0/1,128.0.0.0/1")).
  - apply (bool_decide_unpack _). vm_compute. exact I.
  - vm_compute. reflexivity.
Defined.
