(* ===== verification/ClientIp.v ===== *)
(** * Forwarded client identity ([src/src/proxy/client_ip.rs])

    Who the client is behind trusted proxies: the right-to-left walk over
    [X-Forwarded-For], the single-valued real-IP header, and the forwarded
    request scheme. The theorems: the walk returns the rightmost untrusted
    address and nothing to its left can change the answer; the one-pass scan
    for the scheme finds the same boundary as the walk. *)

From S2P Require Import Prelude Utf8 Decimal Net Cidr.
Open Scope Z_scope.

(** [TrustedProxies] wraps a [CidrSet]. *)
Definition TrustedProxies := CidrSet.

Definition trusted (t : TrustedProxies) (a : IpAddr) : bool := cidr_contains t a.

(** ** The real client address *)

(** The [rsplit(',')] loop; [None]: the walk ended or stopped without a client. *)
Fixpoint xff_walk (t : TrustedProxies) (entries : list bytes) : option IpAddr :=
  match entries with
  | [] => None
  | e :: entries =>
    let e := trim e in
    if bool_decide (e = []) then xff_walk t entries
    else
      match parse_ip e with
      | Some a => if trusted t a then xff_walk t entries else Some a
      | None => None
      end
  end.

Definition resolve_client_ip_parsed (socket_addr : IpAddr) (xff_header : option bytes)
    (t : TrustedProxies) : bytes :=
  match xff_header with
  | None => canonical_ip_string socket_addr
  | Some xff =>
    if bool_decide (trim xff = []) then canonical_ip_string socket_addr
    else if negb (trusted t socket_addr) then canonical_ip_string socket_addr
    else
      match xff_walk t (rev (split_on comma xff)) with
      | Some a => canonical_ip_string a
      | None => canonical_ip_string socket_addr
      end
  end.

Definition resolve_client_ip (socket_ip : bytes) (xff_header : option bytes) (t : TrustedProxies) : bytes :=
  match parse_ip socket_ip with
  | None => socket_ip
  | Some socket_addr =>
    if bool_decide (t = []) then canonical_ip_string socket_addr
    else resolve_client_ip_parsed socket_addr xff_header t
  end.

(** ** The configured real-IP header *)

Inductive RealIpHeaderOutcome :=
| Absent
| Accepted (ip : bytes)
| Rejected.

Definition parse_single_real_ip_value (value : bytes) : option IpAddr :=
  match parse_ip value with
  | Some a => Some a
  | None => ip <$> parse_socket_addr value
  end.

Definition parse_single_real_ip_field_line (field_line : bytes) : option IpAddr :=
  match from_utf8 field_line with
  | None => None
  | Some text =>
    let value := trim text in
    if bool_decide (value = []) || bool_decide (comma ∈ value) then None
    else parse_single_real_ip_value value
  end.

Definition resolve_real_ip_header_field_lines (socket_addr : IpAddr) (field_lines : list bytes)
    (t : TrustedProxies) : RealIpHeaderOutcome :=
  match field_lines with
  | [] => Absent
  | first :: others =>
    if negb (trusted t socket_addr) then Rejected
    else
      match others with
      | _ :: _ => Rejected
      | [] =>
        match parse_single_real_ip_field_line first with
        | Some a => Accepted (canonical_ip_string a)
        | None => Rejected
        end
      end
  end.

Definition resolve_forwarded_client_ip (socket_ip : bytes) (socket_addr : IpAddr)
    (real_ip_field_lines : list bytes) (xff_header : option bytes) (t : TrustedProxies) : option bytes :=
  if bool_decide (t = []) then None
  else
    match resolve_real_ip_header_field_lines socket_addr real_ip_field_lines t with
    | Accepted a => Some a
    | Rejected => None
    | Absent =>
      let resolved := resolve_client_ip_parsed socket_addr xff_header t in
      if eqb_bytes resolved socket_ip then None else Some resolved
    end.

(** ** The forwarded scheme *)

Inductive Scheme := Http | Https.

Definition recognized_forwarded_proto (value : bytes) : option Scheme :=
  if eq_ignore_ascii_case value (bs "http") then Some Http
  else if eq_ignore_ascii_case value (bs "https") then Some Https
  else None.

Definition is_ows (b : Z) : bool := (b =? 32) || (b =? 9).

Fixpoint drop_ows (l : bytes) : bytes :=
  match l with
  | b :: l' => if is_ows b then drop_ows l' else l
  | [] => []
  end.

Definition trim_header_ows (value : bytes) : bytes := rev (drop_ows (rev (drop_ows value))).

Definition parse_entry_ip (entry : bytes) : option IpAddr :=
  match from_utf8 (trim_header_ows entry) with
  | Some text => parse_ip text
  | None => None
  end.

(** The list entries of all field-lines, in order. *)
Definition header_entries (values : list bytes) : list bytes :=
  concat (map (split_on comma) values).

(** One entry: the index counter and the boundary after it. *)
Definition boundary_step (t : TrustedProxies) (st : nat * option nat) (entry : bytes) : nat * option nat :=
  let '(index, boundary) := st in
  (S index,
   match parse_entry_ip entry with
   | Some a => if trusted t a then boundary else Some index
   | None => None
   end).

Definition client_boundary (t : TrustedProxies) (values : list bytes) : nat * option nat :=
  foldl (fun st value => foldl (boundary_step t) st (split_on comma value)) (0%nat, None) values.

Record proto_scan := {
  proto_count : nat;
  singleton_proto : option Scheme;
  boundary_proto : option Scheme;
  suffix_valid : bool;
}.

Definition proto_step (boundary : option nat) (st : proto_scan) (entry : bytes) : proto_scan :=
  let index := proto_count st in
  let proto := recognized_forwarded_proto (trim_header_ows entry) in
  {| proto_count := S index;
     singleton_proto := if (index =? 0)%nat then proto else singleton_proto st;
     boundary_proto :=
       if bool_decide (boundary = Some index) then proto else boundary_proto st;
     suffix_valid :=
       if match boundary with Some b => (b <=? index)%nat | None => false end
          && bool_decide (proto = None)
       then false else suffix_valid st |}.

Definition scan_protos (boundary : option nat) (values : list bytes) : proto_scan :=
  foldl (fun st value => foldl (proto_step boundary) st (split_on comma value))
    {| proto_count := 0; singleton_proto := None; boundary_proto := None; suffix_valid := true |} values.

Definition trusted_forwarded_request_scheme (socket_addr : IpAddr)
    (forwarded_for_values forwarded_proto_values : list bytes) (t : TrustedProxies) : option Scheme :=
  if negb (trusted t socket_addr) then None
  else
    let '(forwarded_for_count, boundary) := client_boundary t forwarded_for_values in
    let scan := scan_protos boundary forwarded_proto_values in
    if (proto_count scan =? 1)%nat then singleton_proto scan
    else if (proto_count scan =? forwarded_for_count)%nat && suffix_valid scan then boundary_proto scan
    else None.

Definition example_trust : TrustedProxies := (parse_lenient (bs "10.0.0.0/8")).1.

Example client_ip_examples :
  resolve_client_ip (bs "10.0.0.1") (Some (bs "6.6.6.6, 1.2.3.4, 10.0.0.7")) example_trust = bs "1.2.3.4"
  /\ resolve_client_ip (bs "10.0.0.1") (Some (bs "6.6.6.6, junk, 10.0.0.7")) example_trust = bs "10.0.0.1"
  /\ resolve_client_ip (bs "9.9.9.9") (Some (bs "1.2.3.4")) example_trust = bs "9.9.9.9"
  /\ resolve_client_ip (bs "::ffff:10.0.0.1") (Some (bs "::ffff:1.2.3.4")) example_trust = bs "1.2.3.4"
  /\ resolve_forwarded_client_ip (bs "10.0.0.1") (V4 0x0A000001) [bs "1.2.3.4"; bs "1.2.3.4"]
       (Some (bs "5.6.7.8")) example_trust = None
  /\ resolve_forwarded_client_ip (bs "10.0.0.1") (V4 0x0A000001) [bs "1.2.3.4:99"] None example_trust
     = Some (bs "1.2.3.4")
  /\ trusted_forwarded_request_scheme (V4 0x0A000001) [bs "1.2.3.4, 10.0.0.2"] [bs "https, http"] example_trust
     = Some Https
  /\ trusted_forwarded_request_scheme (V4 0x0A000001) [bs "1.2.3.4"; bs "10.0.0.2"] [bs "HTTP"] example_trust
     = Some Http.
Proof. vm_compute. repeat split. Qed.

(** ** The walk, declaratively *)

(** An entry the walk passes over. *)
Definition passed (t : TrustedProxies) (e : bytes) : Prop :=
  trim e = [] \/ exists a, trim e <> [] /\ parse_ip (trim e) = Some a /\ trusted t a = true.

(** An entry that ends the walk, and what it yields: an untrusted address, or
    nothing for a malformed one. *)
Definition stops (t : TrustedProxies) (e : bytes) (r : option IpAddr) : Prop :=
  trim e <> []
  /\ match r with
     | Some a => parse_ip (trim e) = Some a /\ trusted t a = false
     | None => parse_ip (trim e) = None
     end.

(** Entry [i] is the rightmost one that is not passed over. *)
Definition decided_at (t : TrustedProxies) (entries : list bytes) (i : nat) (r : option IpAddr) : Prop :=
  (exists e, entries !! i = Some e /\ stops t e r)
  /\ forall j e, (i < j)%nat -> entries !! j = Some e -> passed t e.

Lemma entry_cases t e : passed t e \/ exists r, stops t e r.
Proof.
  unfold passed, stops. destruct (decide (trim e = [])) as [|Hne]; [by left; left|].
  destruct (parse_ip (trim e)) as [a|] eqn:Ep; [|by right; exists None].
  destruct (trusted t a) eqn:Et; [left; right; by exists a|right; by exists (Some a)].
Qed.

Lemma walk_passed t e l : passed t e -> xff_walk t (e :: l) = xff_walk t l.
Proof.
  intros [E|(a & Hne & Hp & Ht)]; simpl.
  - by rewrite bool_decide_eq_true_2.
  - by rewrite bool_decide_eq_false_2, Hp, Ht.
Qed.

Lemma walk_stops t e r l : stops t e r -> xff_walk t (e :: l) = r.
Proof.
  intros [Hne Hr]; simpl. rewrite bool_decide_eq_false_2 by done.
  destruct r as [a|]; [destruct Hr as [-> ->]; done|by rewrite Hr].
Qed.

Lemma walk_all_passed t l : Forall (passed t) l -> xff_walk t l = None.
Proof. induction 1 as [|e l He HF IH]; [done|]. by rewrite walk_passed. Qed.

(** The walk over the reversed entries stops at the deciding one. *)
Lemma walk_decided t left entries i r :
  decided_at t entries i r -> xff_walk t (rev (left ++ entries)) = r.
Proof.
  intros [(e & He & Hs) Hp]. rewrite <- (take_drop_middle entries i e He), !rev_app_distr.
  assert (HF : Forall (passed t) (rev (drop (S i) entries))).
  { apply Forall_rev, Forall_lookup_2. intros j x Hx. rewrite lookup_drop in Hx. apply (Hp (S i + j)%nat); [lia|done]. }
  cbn [rev]. rewrite <- !app_assoc.
  induction HF as [|x l Hx HF IH]; simpl app; [by apply walk_stops|]. by rewrite walk_passed.
Qed.

(** Either every entry is passed over, or one decides. *)
Lemma decided_or_passed t entries :
  Forall (passed t) entries \/ exists i r, decided_at t entries i r.
Proof.
  induction entries as [|e entries IH]; [by left|]. destruct IH as [HF|(i & r & (x & Hx & Hs) & Hp)].
  - destruct (entry_cases t e) as [He|[r Hr]]; [left; by constructor|]. right. exists 0%nat, r. split; [by exists e|].
    intros [|j] y Hj Hy; [lia|]. by eapply Forall_lookup_1.
  - right. exists (S i), r. split; [by exists x|]. intros [|j] y Hj Hy; [lia|]. apply (Hp j); [lia|done].
Qed.

Lemma comma_not_space : Forall (fun p => comma ∉ p) whitespace_encodings.
Proof. apply (bool_decide_unpack _). vm_compute. exact I. Qed.

(** ** The properties *)

(** C18. The resolved client cannot be forged. From an untrusted peer the header
    is ignored. From a trusted one, the answer is the rightmost entry that is
    neither blank nor a trusted proxy: that address if it is one, the peer's own
    address if it is malformed; and no text put to the left of the deciding
    entry changes the answer. With no deciding entry the answer is the peer. *)
Theorem xff_resolution_exact socket_addr xff t :
  trim xff <> [] ->
  (trusted t socket_addr = false ->
   resolve_client_ip_parsed socket_addr (Some xff) t = canonical_ip_string socket_addr)
  /\ (trusted t socket_addr = true ->
      (forall i r, decided_at t (split_on comma xff) i r ->
         resolve_client_ip_parsed socket_addr (Some xff) t = canonical_ip_string (default socket_addr r)
         /\ forall forged,
              resolve_client_ip_parsed socket_addr (Some (forged ++ comma :: xff)) t
              = canonical_ip_string (default socket_addr r))
      /\ (Forall (passed t) (split_on comma xff) ->
          resolve_client_ip_parsed socket_addr (Some xff) t = canonical_ip_string socket_addr)
      /\ (Forall (passed t) (split_on comma xff) \/ exists i r, decided_at t (split_on comma xff) i r)).
Proof.
  intros Hne. unfold resolve_client_ip_parsed. rewrite bool_decide_eq_false_2 by done.
  split; [by intros ->|]. intros Ht. rewrite Ht. cbn [negb]. split_and!.
  - intros i r Hd. split.
    + rewrite <- (app_nil_l (split_on comma xff)), (walk_decided t [] _ i r Hd). by destruct r.
    + intros forged. rewrite bool_decide_eq_false_2.
      * rewrite split_on_app, (walk_decided t _ _ i r Hd). by destruct r.
      * intros E. assert (Hin : comma ∈ trim (forged ++ comma :: xff)).
        { apply trim_keeps; [apply comma_not_space|]. apply elem_of_app. right. apply list_elem_of_here. }
        rewrite E in Hin. by apply elem_of_nil in Hin.
  - intros HF. rewrite walk_all_passed; [done|]. by apply Forall_rev.
  - apply decided_or_passed.
Qed.

Lemma xff_resolution_exact_witness :
  resolve_client_ip_parsed (V4 0x0A000001) (Some (bs "6.6.6.6" ++ comma :: bs "1.2.3.4,10.0.0.7")) example_trust
  = canonical_ip_string (V4 0x01020304).
Proof.
  destruct (xff_resolution_exact (V4 0x0A000001) (bs "1.2.3.4,10.0.0.7") example_trust) as [_ H].
  - vm_compute. discriminate.
  - destruct H as (H & _); [vm_compute; reflexivity|].
    apply (H 0%nat (Some (V4 0x01020304))). split.
    + exists (bs "1.2.3.4"). split; [vm_compute; reflexivity|].
      split; [vm_compute; discriminate|split; vm_compute; reflexivity].
    + intros j e Hj He. destruct j as [|[|j]]; [lia| |].
      * vm_compute in He. injection He as <-. right. exists (V4 0x0A000007).
        split; [vm_compute; discriminate|split; vm_compute; reflexivity].
      * vm_compute in He. discriminate.
Defined.

(** ** The scheme scan *)

Lemma foldl_concat {A B} (f : A -> B -> A) (g : bytes -> list B) values : forall a,
  foldl (fun st value => foldl f st (g value)) a values = foldl f a (concat (map g values)).
Proof.
  induction values as [|v values IH]; intros a; simpl; [done|]. by rewrite IH, foldl_app.
Qed.

(** Entry [i] is the rightmost one that is not a trusted proxy, and it is an
    address. *)
Definition is_boundary (t : TrustedProxies) (entries : list bytes) (i : nat) : Prop :=
  (exists e a, entries !! i = Some e /\ parse_entry_ip e = Some a /\ trusted t a = false)
  /\ forall j e, (i < j)%nat -> entries !! j = Some e ->
       exists a, parse_entry_ip e = Some a /\ trusted t a = true.

Lemma client_boundary_spec t values :
  let entries := header_entries values in
  (client_boundary t values).1 = length entries
  /\ forall i, (client_boundary t values).2 = Some i <-> is_boundary t entries i.
Proof.
  unfold client_boundary. rewrite foldl_concat. fold (header_entries values). cbv zeta.
  induction (header_entries values) as [|e entries IH] using rev_ind.
  { split; [done|]. intros i. split; [done|]. by intros [(e & a & ? & _) _]. }
  rewrite foldl_app. destruct (foldl (boundary_step t) (0%nat, None) entries) as [n b] eqn:E.
  simpl in IH. destruct IH as [-> IH]. cbn [foldl boundary_step fst snd]. rewrite length_app. split; [simpl; lia|].
  assert (Hlast : (entries ++ [e]) !! length entries = Some e) by (by apply list_lookup_middle).
  assert (Hold : forall i x, entries !! i = Some x -> (entries ++ [e]) !! i = Some x)
    by (intros; by apply lookup_app_l_Some).
  assert (Hi : forall i x, (entries ++ [e]) !! i = Some x -> i = length entries /\ x = e \/ entries !! i = Some x).
  { intros i x Hx. destruct (decide (i < length entries)%nat) as [Hlt|Hge].
    - right. by rewrite lookup_app_l in Hx.
    - left. assert (Hl := lookup_lt_Some _ _ _ Hx). rewrite length_app in Hl. simpl in Hl.
      assert (i = length entries) as -> by lia. by rewrite Hlast in Hx; simplify_eq. }
  intros i. destruct (parse_entry_ip e) as [a|] eqn:Ep; [destruct (trusted t a) eqn:Et|].
  - rewrite IH. split.
    + intros [(x & y & Hx & Hy) Hp]. split; [exists x, y; split; [by apply Hold|done]|].
      intros j z Hj Hz. destruct (Hi j z Hz) as [[-> ->]|Hz']; [by exists a|by apply (Hp j)].
    + intros [(x & y & Hx & Hy & Hu) Hp]. destruct (Hi i x Hx) as [[-> ->]|Hx'].
      * rewrite Ep in Hy. congruence.
      * split; [by exists x, y|]. intros j z Hj Hz. apply (Hp j); [done|by apply Hold].
  - split.
    + intros [= <-]. split; [by exists e, a|]. intros j z Hj Hz. exfalso.
      apply lookup_lt_Some in Hz. rewrite length_app in Hz. simpl in Hz. lia.
    + intros [(x & y & Hx & Hy & Hu) Hp]. destruct (Hi i x Hx) as [[-> ->]|Hx']; [done|]. exfalso.
      apply lookup_lt_Some in Hx' as Hlt. destruct (Hp _ e Hlt Hlast) as (y' & Hy' & Ht'). congruence.
  - split; [done|]. intros [(x & y & Hx & Hy & Hu) Hp]. exfalso. destruct (Hi i x Hx) as [[-> ->]|Hx'].
    + congruence.
    + apply lookup_lt_Some in Hx' as Hlt. destruct (Hp _ e Hlt Hlast) as (y' & Hy' & _). congruence.
Qed.

(** The recognised schemes of the entries, in order. *)
Definition protos_of (values : list bytes) : list (option Scheme) :=
  map (fun e => recognized_forwarded_proto (trim_header_ows e)) (header_entries values).

Lemma scan_protos_spec b values :
  let scan := scan_protos b values in
  let protos := protos_of values in
  proto_count scan = length protos
  /\ singleton_proto scan = mjoin (protos !! 0%nat)
  /\ boundary_proto scan = match b with Some i => mjoin (protos !! i) | None => None end
  /\ (suffix_valid scan = true <->
      forall i j, b = Some i -> (i <= j)%nat -> protos !! j <> Some None).
Proof.
  unfold scan_protos. rewrite foldl_concat. unfold protos_of. fold (header_entries values). cbv zeta.
  induction (header_entries values) as [|e entries IH] using rev_ind.
  { split_and!; [done|done|by destruct b|]. split; [by intros _ i j _ _|done]. }
  rewrite foldl_app. set (st := foldl _ _ entries) in *. destruct IH as (H1 & H2 & H3 & H4). cbn [foldl].
  rewrite map_app. cbn [map]. set (protos := map _ entries) in *. set (p := recognized_forwarded_proto _).
  assert (Hlast : (protos ++ [p]) !! length protos = Some p) by (by apply list_lookup_middle).
  unfold proto_step. cbn [proto_count singleton_proto boundary_proto suffix_valid]. fold p. rewrite H1. clearbody p protos. split_and!.
  - rewrite length_app. simpl. lia.
  - destruct (Nat.eqb_spec (length protos) 0) as [E|Hne].
    + apply length_zero_iff_nil in E. by rewrite E.
    + rewrite H2, lookup_app_l by lia. done.
  - rewrite H3. case_bool_decide as Hb.
    + subst b. by rewrite Hlast.
    + destruct b as [i|]; [|done]. destruct (decide (i < length protos)%nat) as [Hlt|Hge].
      * by rewrite lookup_app_l.
      * rewrite (lookup_ge_None_2 protos) by lia. rewrite lookup_ge_None_2; [done|].
        rewrite length_app. simpl. assert (i <> length protos) by congruence. lia.
  - assert (Hj : forall j, (protos ++ [p]) !! j = Some None <-> protos !! j = Some None \/ j = length protos /\ p = None).
    { intros j. destruct (decide (j < length protos)%nat) as [Hlt|Hge].
      - rewrite lookup_app_l by done. split; [by left|]. intros [|[-> _]]; [done|lia].
      - rewrite (lookup_ge_None_2 protos) by lia. destruct (decide (j = length protos)) as [->|].
        + rewrite Hlast. split; [intros [= ->]; by right|]. by intros [?|[_ ->]].
        + rewrite lookup_ge_None_2; [split; [done|by intros [?|[? _]]]|]. rewrite length_app. simpl. lia. }
    setoid_rewrite Hj. destruct b as [i|].
    + destruct (Nat.leb_spec i (length protos)) as [Hle|Hgt]; cbn [andb].
      * case_bool_decide as Hp.
        -- split; [done|]. intros H. exfalso. apply (H i (length protos)); [done|done|by right].
        -- rewrite H4. split; intros H i' j E Hij.
           ++ intros [Hn|[_ ?]]; [by apply (H i' j)|done].
           ++ intros Hn. apply (H i' j); [done|done|by left].
      * rewrite H4. split; intros H i' j [= <-] Hij.
        -- intros [Hn|[-> _]]; [by apply (H i j)|lia].
        -- intros Hn. apply (H i j); [done|done|by left].
    + rewrite H4. split; intros _ i' j E; done.
Qed.

(** The forwarded scheme is the one the trust chain vouches for. A scheme is
    returned exactly when the peer is a trusted proxy and either the protocol
    list is one recognised value, or it has as many entries as the address list
    and the entry at the rightmost untrusted address is that scheme, with every
    entry to its right recognised. *)
Theorem forwarded_scheme_exact socket_addr ff fp t sch :
  let protos := protos_of fp in
  trusted_forwarded_request_scheme socket_addr ff fp t = Some sch <->
  trusted t socket_addr = true
  /\ (protos = [Some sch]
      \/ length protos <> 1%nat /\ length protos = length (header_entries ff)
         /\ exists i, is_boundary t (header_entries ff) i /\ protos !! i = Some (Some sch)
              /\ forall j, (i <= j)%nat -> protos !! j <> Some None).
Proof.
  intros protos. unfold trusted_forwarded_request_scheme.
  destruct (trusted t socket_addr); cbn [negb]; [|by split; [|intros [? _]]].
  destruct (client_boundary_spec t ff) as [Hc Hb]. destruct (client_boundary t ff) as [n b]. cbn [fst snd] in *.
  assert (Hsp := scan_protos_spec b fp). cbv zeta in Hsp. change (protos_of fp) with protos in Hsp.
  destruct Hsp as (H1 & H2 & H3 & H4). rewrite H1, H2, H3, Hc.
  clearbody protos.
  destruct (Nat.eqb_spec (length protos) 1) as [E1|Hn1].
  { destruct protos as [|p [|]]; simpl in E1; try lia. simpl.
    split; [intros ->; by split; [|left]|]. by intros [_ [[= ->]|(? & _)]]. }
  destruct (Nat.eqb_spec (length protos) (length (header_entries ff))) as [E2|Hn2]; cbn [andb].
  2:{ split; [done|]. intros [_ [->|(_ & ? & _)]]; [simpl in Hn1; lia|done]. }
  split.
  - intros H. split; [done|]. right. split_and!; [done..|].
    destruct (suffix_valid (scan_protos b fp)); [|done]. destruct b as [i|]; [|done]. exists i. split_and!.
    + by apply Hb.
    + destruct (protos !! i) as [[s|]|]; simpl in H; [by rewrite H|done|done].
    + intros j Hj. by apply (proj1 H4 eq_refl i j).
  - intros [_ [->|(_ & _ & i & Hi & Hp & Hs)]]; [simpl in Hn1; lia|]. apply Hb in Hi. subst b.
    rewrite (proj2 H4); [by rewrite Hp|]. intros i' j [= <-]. apply Hs.
Qed.
