(* ===== verification/H1Signals.v ===== *)
(** * HTTP/1 framing signals

    [proxy/h1_framing_guard.rs], the part shared between the wire observer and
    the request handler: the parse-reject hints and their precomputed
    envelopes, and [H1FramingSignals], the connection-local queue of
    "Content-Length together with Transfer-Encoding" decisions.

    The queue is a ring of 1024 bits in 16 words with two free-running
    counters. [Decisions] is its specification, a bounded FIFO of booleans
    that fails closed; the file proves the refinement. A connection is driven
    by one task, so producer and consumer calls interleave but never overlap:
    an execution is a sequence of whole operations. *)

From S2P Require Import Prelude.

(** ** Parse-reject hints and envelopes *)

Definition PARSE_HINT_NONE : Z := 0.
Definition PARSE_HINT_CONFLICTING_CONTENT_LENGTH : Z := 1.
Definition PARSE_HINT_HTTP10_TRANSFER_ENCODING : Z := 2.
Definition PARSE_HINT_INVALID_REQUEST_TARGET_UTF8 : Z := 3.
Definition PARSE_HINT_PRIOR_HEAD : Z := 128.

Definition crlf : bytes := [13; 10].
Definition quote : bytes := [34].

(** [{"error":"<text>"}]. *)
Definition json_error (text : string) : bytes :=
  bs "{" ++ quote ++ bs "error" ++ quote ++ bs ":" ++ quote ++ bs text ++ quote ++ bs "}".

Definition JSON_CONFLICTING_CONTENT_LENGTH : bytes :=
  json_error "Multiple Content-Length headers with conflicting values".
Definition JSON_HTTP10_TRANSFER_ENCODING : bytes :=
  json_error "HTTP/1.0 does not support Transfer-Encoding".
Definition JSON_MALFORMED_HTTP_REQUEST : bytes := json_error "Malformed HTTP request".

Definition envelope_head (content_length : string) : bytes :=
  bs "HTTP/1.1 400 Bad Request" ++ crlf ++ bs "content-type: application/json" ++ crlf
  ++ bs "content-length: " ++ bs content_length ++ crlf ++ bs "connection: close" ++ crlf ++ crlf.

Definition ENVELOPE_CONFLICTING_CONTENT_LENGTH : bytes :=
  envelope_head "67" ++ JSON_CONFLICTING_CONTENT_LENGTH.
Definition ENVELOPE_HTTP10_TRANSFER_ENCODING : bytes :=
  envelope_head "55" ++ JSON_HTTP10_TRANSFER_ENCODING.
Definition ENVELOPE_MALFORMED_HTTP_REQUEST : bytes :=
  envelope_head "34" ++ JSON_MALFORMED_HTTP_REQUEST.

Definition envelope_for_hint (hint : Z) : bytes :=
  if hint =? PARSE_HINT_CONFLICTING_CONTENT_LENGTH then ENVELOPE_CONFLICTING_CONTENT_LENGTH
  else if hint =? PARSE_HINT_HTTP10_TRANSFER_ENCODING then ENVELOPE_HTTP10_TRANSFER_ENCODING
  else ENVELOPE_MALFORMED_HTTP_REQUEST.

(** The compile-time assertions of the source on the advertised lengths. *)
Example json_lengths :
  length JSON_CONFLICTING_CONTENT_LENGTH = 67%nat
  /\ length JSON_HTTP10_TRANSFER_ENCODING = 55%nat
  /\ length JSON_MALFORMED_HTTP_REQUEST = 34%nat.
Proof. repeat split. Qed.

(** ** The signals *)

Definition SIGNAL_WORDS : Z := 16.
Definition SIGNAL_CAPACITY : Z := SIGNAL_WORDS * 64.

Inductive H1FramingResult := NotObserved | Clear | Conflict | ObserverFailed.

#[global] Instance H1FramingResult_eq_dec : EqDecision H1FramingResult.
Proof. solve_decision. Defined.

Record H1FramingSignals := Signals {
  produced : Z;
  consumed : Z;
  conflicts : option (list Z);
  overflowed : bool;
  unknown : bool;
  observation_disabled : bool;
  parse_reject_hint : Z;
  parse_rejects : Z;
}.

Definition new_signals : H1FramingSignals :=
  {| produced := 0; consumed := 0; conflicts := None; overflowed := false; unknown := false;
     observation_disabled := false; parse_reject_hint := PARSE_HINT_NONE; parse_rejects := 0 |}.

Section Stores.
Context (s : H1FramingSignals).
Definition set_produced n :=
  Signals n (consumed s) (conflicts s) (overflowed s) (unknown s) (observation_disabled s)
    (parse_reject_hint s) (parse_rejects s).
Definition set_consumed n :=
  Signals (produced s) n (conflicts s) (overflowed s) (unknown s) (observation_disabled s)
    (parse_reject_hint s) (parse_rejects s).
Definition set_conflicts r :=
  Signals (produced s) (consumed s) r (overflowed s) (unknown s) (observation_disabled s)
    (parse_reject_hint s) (parse_rejects s).
Definition set_hint h :=
  Signals (produced s) (consumed s) (conflicts s) (overflowed s) (unknown s)
    (observation_disabled s) h (parse_rejects s).
Definition set_parse_rejects n :=
  Signals (produced s) (consumed s) (conflicts s) (overflowed s) (unknown s)
    (observation_disabled s) (parse_reject_hint s) n.
Definition mark_unknown :=
  Signals (produced s) (consumed s) (conflicts s) (overflowed s) true true
    (parse_reject_hint s) (parse_rejects s).
Definition mark_overflowed :=
  Signals (produced s) (consumed s) (conflicts s) true (unknown s) true
    (parse_reject_hint s) (parse_rejects s).
Definition disable_observation :=
  Signals (produced s) (consumed s) (conflicts s) (overflowed s) (unknown s) true
    (parse_reject_hint s) (parse_rejects s).
End Stores.

(** The first hint wins (a compare-exchange from [PARSE_HINT_NONE]); it
    carries the prior-head bit when an earlier head was already published. *)
Definition store_parse_reject_hint (s : H1FramingSignals) (hint : Z) : H1FramingSignals :=
  if hint =? PARSE_HINT_NONE then s
  else
    let hint := if 0 <? produced s then Z.lor hint PARSE_HINT_PRIOR_HEAD else hint in
    if parse_reject_hint s =? PARSE_HINT_NONE then set_hint s hint else s.

Definition record_parse_reject (s : H1FramingSignals) : H1FramingSignals :=
  set_parse_rejects s (wrapping_add 64 (parse_rejects s) 1).

Definition take_parse_rejects (s : H1FramingSignals) : Z * H1FramingSignals :=
  (parse_rejects s, set_parse_rejects s 0).

Definition take_parse_reject_hint (s : H1FramingSignals) : Z * H1FramingSignals :=
  (parse_reject_hint s, set_hint s PARSE_HINT_NONE).

(** [conflict_ring]: the ring, allocated on first use. *)
Definition conflict_ring (s : H1FramingSignals) : list Z :=
  match conflicts s with
  | Some ring => ring
  | None => replicate 16 0
  end.

Definition word_index (slot : Z) : nat := Z.to_nat (slot / 64).
Definition slot_mask (slot : Z) : Z := Z.shiftl 1 (slot mod 64).

Definition push (s : H1FramingSignals) (conflict : bool) : H1FramingSignals * bool :=
  if observation_disabled s then (s, false)
  else
    let sequence := produced s in
    if SIGNAL_CAPACITY <=? saturating_sub sequence (consumed s) then (mark_overflowed s, false)
    else
      let slot := sequence mod SIGNAL_CAPACITY in
      let ring := conflict_ring s in
      match ring !! word_index slot with
      | None => (mark_unknown (set_conflicts s (Some ring)), false)
      | Some word =>
        let mask := slot_mask slot in
        let word :=
          if conflict then Z.lor word mask else Z.land word (Z.lxor mask (umax 64)) in
        let s := set_conflicts s (Some (<[word_index slot := word]> ring)) in
        match checked_add 64 sequence 1 with
        | None => (mark_overflowed s, false)
        | Some next_sequence => (set_produced s next_sequence, true)
        end
      end.

Definition next_conflict (s : H1FramingSignals) : H1FramingResult * H1FramingSignals :=
  if overflowed s || unknown s then (ObserverFailed, s)
  else
    let sequence := consumed s in
    if produced s <=? sequence then (ObserverFailed, mark_unknown s)
    else
      let slot := sequence mod SIGNAL_CAPACITY in
      match conflicts s with
      | None => (ObserverFailed, mark_unknown s)
      | Some ring =>
        match ring !! word_index slot with
        | None => (ObserverFailed, mark_unknown s)
        | Some word =>
          let conflict := negb (Z.land word (slot_mask slot) =? 0) in
          match checked_add 64 sequence 1 with
          | None => (ObserverFailed, mark_overflowed s)
          | Some next_sequence =>
            (if conflict then Conflict else Clear, set_consumed s next_sequence)
          end
        end
      end.

(** ** Specification: a bounded FIFO that fails closed *)

Module Decisions.
Record fifo := Fifo { items : list bool; closed : bool; failed : bool }.

Definition empty : fifo := Fifo [] false false.

Definition offer (f : fifo) (b : bool) : fifo * bool :=
  if closed f then (f, false)
  else if 1024 <=? Z.of_nat (length (items f)) then (Fifo (items f) true true, false)
  else (Fifo (items f ++ [b]) false (failed f), true).

Definition take_next (f : fifo) : H1FramingResult * fifo :=
  if failed f then (ObserverFailed, f)
  else match items f with
       | [] => (ObserverFailed, Fifo [] true true)
       | b :: rest => (if b then Conflict else Clear, Fifo rest (closed f) false)
       end.

Definition disable (f : fifo) : fifo := Fifo (items f) true (failed f).
Definition fail (f : fifo) : fifo := Fifo (items f) true true.
End Decisions.

(** Executions: the producer pushes, the consumer pops, the guard disables the
    observation, the observer reports a divergence, hints come and go. *)
Inductive signal_op :=
| OpPush (conflict : bool)
| OpNext
| OpDisable
| OpUnknown
| OpHint (hint : Z)
| OpTakeHint
| OpReject.

Inductive signal_out :=
| OutPushed (accepted : bool)
| OutResult (r : H1FramingResult)
| OutUnit.

Definition signal_step (s : H1FramingSignals) (op : signal_op) : H1FramingSignals * signal_out :=
  match op with
  | OpPush b => let '(s', ok) := push s b in (s', OutPushed ok)
  | OpNext => let '(r, s') := next_conflict s in (s', OutResult r)
  | OpDisable => (disable_observation s, OutUnit)
  | OpUnknown => (mark_unknown s, OutUnit)
  | OpHint h => (store_parse_reject_hint s h, OutUnit)
  | OpTakeHint => (snd (take_parse_reject_hint s), OutUnit)
  | OpReject => (record_parse_reject s, OutUnit)
  end.

Definition fifo_step (f : Decisions.fifo) (op : signal_op) : Decisions.fifo * signal_out :=
  match op with
  | OpPush b => let '(f', ok) := Decisions.offer f b in (f', OutPushed ok)
  | OpNext => let '(r, f') := Decisions.take_next f in (f', OutResult r)
  | OpDisable => (Decisions.disable f, OutUnit)
  | OpUnknown => (Decisions.fail f, OutUnit)
  | OpHint _ | OpTakeHint | OpReject => (f, OutUnit)
  end.

(** Run a list of operations, collecting the outputs. *)
Fixpoint run_ops {S} (step : S -> signal_op -> S * signal_out) (s : S) (ops : list signal_op)
  : S * list signal_out :=
  match ops with
  | [] => (s, [])
  | op :: ops =>
    let '(s1, o) := step s op in
    let '(s2, os) := run_ops step s1 ops in (s2, o :: os)
  end.

(** ** The ring as a bit vector *)

Definition ring_wf (ring : list Z) : Prop := length ring = 16%nat /\ Forall is_u64 ring.

Definition ring_bit (ring : list Z) (slot : Z) : bool :=
  Z.testbit (default 0 (ring !! word_index slot)) (slot mod 64).

Lemma slot_mask_testbit slot i :
  0 <= i -> Z.testbit (slot_mask slot) i = (i =? slot mod 64).
Proof.
  intros Hi. unfold slot_mask. pose proof (Z.mod_pos_bound slot 64 ltac:(lia)).
  rewrite Z.shiftl_1_l. destruct (Z.eqb_spec i (slot mod 64)) as [->|].
  - apply Z.pow2_bits_true. lia.
  - apply Z.pow2_bits_false. lia.
Qed.

Lemma slot_mask_u64 slot : is_u64 (slot_mask slot).
Proof.
  unfold slot_mask, in_width. pose proof (Z.mod_pos_bound slot 64 ltac:(lia)).
  rewrite Z.shiftl_1_l. split; [lia|]. apply Z.pow_lt_mono_r; lia.
Qed.

Lemma ring_lookup ring slot :
  ring_wf ring -> 0 <= slot < SIGNAL_CAPACITY -> is_Some (ring !! word_index slot).
Proof.
  intros [Hl _] Hs. apply lookup_lt_is_Some. unfold word_index, SIGNAL_CAPACITY, SIGNAL_WORDS in *.
  rewrite Hl. pose proof (Z.div_lt_upper_bound slot 64 16 ltac:(lia) ltac:(lia)).
  pose proof (Z.div_pos slot 64 ltac:(lia) ltac:(lia)). lia.
Qed.

(** The word a push writes. *)
Definition set_slot (word slot : Z) (conflict : bool) : Z :=
  if conflict then Z.lor word (slot_mask slot)
  else Z.land word (Z.lxor (slot_mask slot) (umax 64)).

Lemma set_slot_testbit word slot conflict i :
  0 <= i < 64 ->
  Z.testbit (set_slot word slot conflict) i
  = if i =? slot mod 64 then conflict else Z.testbit word i.
Proof.
  intros Hi. unfold set_slot.
  destruct conflict.
  - rewrite Z.lor_spec, slot_mask_testbit by lia.
    destruct (i =? slot mod 64); [apply orb_true_r | apply orb_false_r].
  - rewrite Z.land_spec, Z.lxor_spec, slot_mask_testbit by lia.
    replace (Z.testbit (umax 64) i) with true
      by (symmetry; apply (Z.ones_spec_low 64); lia).
    destruct (i =? slot mod 64); [apply andb_false_r | apply andb_true_r].
Qed.

Lemma u64_bits x : 0 <= x -> (forall i, 64 <= i -> Z.testbit x i = false) -> is_u64 x.
Proof.
  intros Hx H. split; [done|]. destruct (Z.lt_ge_cases x (2 ^ 64)) as [|Hge]; [done|].
  assert (0 < x) by lia. pose proof (Z.log2_spec x ltac:(done)) as [_ Hlt].
  assert (64 <= Z.log2 x) by (apply Z.log2_le_pow2; lia).
  specialize (H (Z.log2 x) ltac:(done)). by rewrite Z.bit_log2 in H.
Qed.

Lemma u64_high x i : is_u64 x -> 64 <= i -> Z.testbit x i = false.
Proof.
  intros [Hx Hlt] Hi. destruct (Z.eq_dec x 0) as [->|]; [apply Z.bits_0|].
  apply Z.bits_above_log2; [done|]. pose proof (Z.log2_lt_pow2 x 64 ltac:(lia)) as [E _].
  specialize (E Hlt). lia.
Qed.

Lemma set_slot_u64 word slot conflict : is_u64 word -> is_u64 (set_slot word slot conflict).
Proof.
  intros Hw. pose proof (slot_mask_u64 slot) as Hm. pose proof Hw as [? _]. pose proof Hm as [? _].
  unfold set_slot. destruct conflict; apply u64_bits.
  - apply Z.lor_nonneg; lia.
  - intros i Hi. by rewrite Z.lor_spec, !u64_high.
  - apply Z.land_nonneg; lia.
  - intros i Hi. by rewrite Z.land_spec, (u64_high word).
Qed.

Lemma slot_index_inj a b :
  0 <= a -> 0 <= b -> word_index a = word_index b -> a mod 64 = b mod 64 -> a = b.
Proof.
  unfold word_index; intros Ha Hb E Em.
  pose proof (Z.div_pos a 64 ltac:(lia) ltac:(lia)).
  pose proof (Z.div_pos b 64 ltac:(lia) ltac:(lia)).
  assert (a / 64 = b / 64) by lia.
  pose proof (Z.div_mod a 64 ltac:(lia)). pose proof (Z.div_mod b 64 ltac:(lia)). lia.
Qed.

Lemma ring_set ring word slot conflict :
  ring_wf ring -> 0 <= slot < SIGNAL_CAPACITY -> ring !! word_index slot = Some word ->
  let ring' := <[word_index slot := set_slot word slot conflict]> ring in
  ring_wf ring'
  /\ forall i, 0 <= i < SIGNAL_CAPACITY ->
       ring_bit ring' i = if decide (i = slot) then conflict else ring_bit ring i.
Proof.
  intros [Hlen Hu] Hs Hw ring'. split; [split|].
  - unfold ring'. by rewrite length_insert.
  - apply Forall_insert; [done|]. apply set_slot_u64.
    by eapply Forall_lookup_1 in Hu.
  - intros i Hi. unfold ring_bit, ring'.
    destruct (decide (word_index i = word_index slot)) as [E|E].
    + rewrite E, list_lookup_insert_eq by (by eapply lookup_lt_Some); simpl.
      rewrite set_slot_testbit, Hw by (apply Z.mod_pos_bound; lia); simpl.
      destruct (Z.eqb_spec (i mod 64) (slot mod 64)).
      * rewrite decide_True; [done|]. apply slot_index_inj; auto; lia.
      * rewrite decide_False; [done|congruence].
    + rewrite list_lookup_insert_ne by done. rewrite decide_False; [done|congruence].
Qed.

Lemma mask_test word slot :
  negb (Z.land word (slot_mask slot) =? 0) = Z.testbit word (slot mod 64).
Proof.
  pose proof (Z.mod_pos_bound slot 64 ltac:(lia)).
  destruct (Z.testbit word (slot mod 64)) eqn:Hb.
  - destruct (Z.eqb_spec (Z.land word (slot_mask slot)) 0) as [E|]; [|done].
    apply (f_equal (fun x => Z.testbit x (slot mod 64))) in E.
    rewrite Z.land_spec, slot_mask_testbit, Hb, Z.eqb_refl, Z.bits_0 in E by lia. done.
  - apply negb_false_iff, Z.eqb_eq, Z.bits_inj_iff'. intros i Hi.
    rewrite Z.land_spec, slot_mask_testbit, Z.bits_0 by done.
    destruct (Z.eqb_spec i (slot mod 64)) as [->|]; [by rewrite Hb | apply andb_false_r].
Qed.

(** ** Invariant and abstraction *)

Record signals_wf (s : H1FramingSignals) : Prop := {
  wf_consumed : 0 <= consumed s;
  wf_order : consumed s <= produced s;
  wf_lead : produced s <= consumed s + SIGNAL_CAPACITY;
  wf_u64 : produced s < 2 ^ 64;
  wf_ring : ring_wf (conflict_ring s);
  wf_alloc : conflicts s = None -> produced s = 0;
}.

(** The published, unread decisions, oldest first. *)
Definition decisions (s : H1FramingSignals) : list bool :=
  map (fun i => ring_bit (conflict_ring s) (i mod SIGNAL_CAPACITY))
    (seqZ (consumed s) (produced s - consumed s)).

Definition abs_fifo (s : H1FramingSignals) : Decisions.fifo :=
  Decisions.Fifo (decisions s) (observation_disabled s) (overflowed s || unknown s).

Lemma length_decisions s : length (decisions s) = Z.to_nat (produced s - consumed s).
Proof. unfold decisions. by rewrite length_map, length_seqZ. Qed.

Lemma new_signals_wf : signals_wf new_signals.
Proof.
  constructor; try done. split; [done|]. apply Forall_replicate. by vm_compute.
Qed.

Lemma push_full s b :
  signals_wf s -> observation_disabled s = false ->
  produced s - consumed s = SIGNAL_CAPACITY ->
  push s b = (mark_overflowed s, false).
Proof.
  intros Hwf Hd Hl. unfold push, saturating_sub. rewrite Hd, Hl. reflexivity.
Qed.

Lemma push_room s b :
  signals_wf s -> observation_disabled s = false -> produced s < 2 ^ 64 - 1 ->
  produced s - consumed s < SIGNAL_CAPACITY ->
  exists word ring',
    conflict_ring s !! word_index (produced s mod SIGNAL_CAPACITY) = Some word
    /\ ring' = <[word_index (produced s mod SIGNAL_CAPACITY) :=
                   set_slot word (produced s mod SIGNAL_CAPACITY) b]> (conflict_ring s)
    /\ push s b = (set_produced (set_conflicts s (Some ring')) (produced s + 1), true).
Proof.
  intros Hwf Hd Hp Hl.
  destruct (ring_lookup (conflict_ring s) (produced s mod SIGNAL_CAPACITY)) as [word Hw];
    [apply Hwf | apply Z.mod_pos_bound; done |].
  exists word; eexists; split_and!; [done..|].
  unfold push. rewrite Hd. unfold saturating_sub.
  destruct (Z.leb_spec SIGNAL_CAPACITY (Z.max 0 (produced s - consumed s)));
    [unfold SIGNAL_CAPACITY, SIGNAL_WORDS in *; lia|].
  rewrite Hw. unfold checked_add, umax.
  destruct (Z.leb_spec (produced s + 1) (2 ^ 64 - 1)); [done|lia].
Qed.

Lemma push_room_wf s b :
  signals_wf s -> observation_disabled s = false -> produced s < 2 ^ 64 - 1 ->
  produced s - consumed s < SIGNAL_CAPACITY ->
  let s' := fst (push s b) in
  signals_wf s' /\ decisions s' = decisions s ++ [b].
Proof.
  intros Hwf Hd Hp Hl.
  destruct (push_room s b) as (word & ring' & Hw & -> & ->); [done..|].
  destruct (ring_set (conflict_ring s) word (produced s mod SIGNAL_CAPACITY) b) as [Hrw Hbits];
    [apply Hwf | apply Z.mod_pos_bound; done | done |].
  destruct Hwf; simpl. split.
  - constructor; simpl; try done; try lia.
  - unfold decisions; simpl.
    replace (produced s + 1 - consumed s) with ((produced s - consumed s) + 1) by lia.
    rewrite seqZ_app, map_app by lia. f_equal.
    + apply map_ext_in. intros i Hi%list_elem_of_In%elem_of_seqZ.
      rewrite Hbits by (apply Z.mod_pos_bound; done). rewrite decide_False; [done|].
      intros E. unfold SIGNAL_CAPACITY, SIGNAL_WORDS in *.
      pose proof (Z.div_mod i 1024 ltac:(lia)). pose proof (Z.div_mod (produced s) 1024 ltac:(lia)).
      change (16 * 64) with 1024 in *. lia.
    + replace (consumed s + (produced s - consumed s)) with (produced s) by lia.
      change (seqZ (produced s) 1) with [produced s]; simpl.
      rewrite Hbits by (apply Z.mod_pos_bound; done).
      by rewrite decide_True.
Qed.

Lemma next_some s :
  signals_wf s -> overflowed s || unknown s = false -> consumed s < produced s ->
  next_conflict s
  = (if ring_bit (conflict_ring s) (consumed s mod SIGNAL_CAPACITY) then Conflict else Clear,
     set_consumed s (consumed s + 1)).
Proof.
  intros Hwf Hf Hlt. unfold next_conflict. rewrite Hf.
  destruct (Z.leb_spec (produced s) (consumed s)); [lia|].
  destruct (ring_lookup (conflict_ring s) (consumed s mod SIGNAL_CAPACITY)) as [word Hw];
    [apply Hwf | apply Z.mod_pos_bound; done |].
  destruct Hwf. unfold conflict_ring in *. destruct (conflicts s) as [ring|];
    [|rewrite wf_alloc0 in Hlt by done; lia].
  rewrite Hw, mask_test. unfold checked_add, umax.
  destruct (Z.leb_spec (consumed s + 1) (2 ^ 64 - 1)); [|lia].
  unfold ring_bit. by rewrite Hw.
Qed.

Lemma decisions_cons s :
  consumed s < produced s ->
  decisions s = ring_bit (conflict_ring s) (consumed s mod SIGNAL_CAPACITY)
                :: decisions (set_consumed s (consumed s + 1)).
Proof.
  intros. unfold decisions; simpl. rewrite seqZ_cons by lia; simpl.
  do 3 f_equal; lia.
Qed.

(** Every operation preserves the invariant and commutes with the abstraction,
    as long as the 64-bit sequence number has room. *)
Lemma signal_step_refines s op :
  signals_wf s -> produced s < 2 ^ 64 - 1 ->
  let '(s', out) := signal_step s op in
  signals_wf s' /\ produced s' <= produced s + 1
  /\ fifo_step (abs_fifo s) op = (abs_fifo s', out).
Proof.
  intros Hwf Hp. pose proof Hwf as [? ? ? ? ? ?].
  destruct op as [b| | | |h| |]; simpl.
  - destruct (observation_disabled s) eqn:Hd.
    { unfold push, Decisions.offer, abs_fifo; simpl. rewrite Hd; simpl. rewrite Hd.
      split_and!; [done|lia|done]. }
    destruct (Z.eq_dec (produced s - consumed s) SIGNAL_CAPACITY) as [Hfull|Hroom].
    + rewrite push_full by done. split_and!; [by constructor|simpl; lia|].
      unfold Decisions.offer, abs_fifo; simpl. rewrite Hd, length_decisions, Hfull. done.
    + pose proof (push_room_wf s b Hwf Hd Hp ltac:(lia)) as [Hwf' Hdec].
      destruct (push_room s b Hwf Hd Hp ltac:(lia)) as (word & ring' & _ & _ & E).
      rewrite E in *; simpl in *. split_and!; [done|lia|].
      unfold Decisions.offer, abs_fifo; simpl. rewrite Hd, length_decisions, Hdec.
      destruct (Z.leb_spec 1024 (Z.of_nat (Z.to_nat (produced s - consumed s)))); [|done].
      unfold SIGNAL_CAPACITY, SIGNAL_WORDS in *; lia.
  - destruct (overflowed s || unknown s) eqn:Hf.
    { unfold next_conflict, Decisions.take_next, abs_fifo; simpl. rewrite Hf; simpl. rewrite Hf.
      split_and!; [done|lia|done]. }
    unfold Decisions.take_next, abs_fifo; simpl. rewrite Hf.
    destruct (Z.eq_dec (consumed s) (produced s)) as [Hempty|Hne].
    + assert (Hn : decisions s = []) by (apply nil_length_inv; rewrite length_decisions; lia).
      unfold next_conflict. rewrite Hf. destruct (Z.leb_spec (produced s) (consumed s)); [|lia].
      rewrite Hn. split_and!; [by constructor|simpl; lia|]. simpl.
      change (decisions (mark_unknown s)) with (decisions s). by rewrite Hn, orb_true_r.
    + rewrite next_some, decisions_cons by (done || lia). simpl. rewrite Hf.
      split_and!; [constructor; simpl; done || lia|lia|done].
  - split_and!; [by constructor|lia|done].
  - split_and!; [by constructor|lia|]. unfold abs_fifo, Decisions.fail; simpl.
    by rewrite orb_true_r.
  - unfold store_parse_reject_hint. repeat case_match; (split_and!; [by try constructor|simpl; lia|done]).
  - split_and!; [by constructor|lia|done].
  - split_and!; [by constructor|lia|done].
Qed.

Lemma run_ops_refines ops : forall s,
  signals_wf s -> produced s + Z.of_nat (length ops) < 2 ^ 64 ->
  let '(s', outs) := run_ops signal_step s ops in
  signals_wf s' /\ run_ops fifo_step (abs_fifo s) ops = (abs_fifo s', outs).
Proof.
  induction ops as [|op ops IH]; intros s Hwf Hlen; simpl; [done|].
  simpl in Hlen. pose proof (signal_step_refines s op Hwf ltac:(lia)) as H.
  destruct (signal_step s op) as [s1 o]. destruct H as (Hwf1 & Hp1 & ->).
  specialize (IH s1 Hwf1 ltac:(lia)).
  destruct (run_ops signal_step s1 ops) as [s2 os]. destruct IH as [Hwf2 ->]. done.
Qed.

(** Refinement of the signal queue. Whatever sequence of pushes, reads,
    disable requests, divergence reports and hint operations a connection
    performs from its start (fewer than 2^64 of them), the 16-word bit ring with
    its free-running counters returns exactly what a FIFO of at most 1024
    booleans returns: decisions come out in publication order and unaltered
    across wrap-around, a push into a full queue is refused and fails the
    queue, and reading an empty queue fails it, permanently. *)
Theorem signals_refine_fifo ops :
  Z.of_nat (length ops) < 2 ^ 64 ->
  snd (run_ops signal_step new_signals ops) = snd (run_ops fifo_step Decisions.empty ops).
Proof.
  intros H. pose proof (run_ops_refines ops new_signals new_signals_wf) as R.
  specialize (R ltac:(simpl; lia)). change (abs_fifo new_signals) with Decisions.empty in R.
  destruct (run_ops signal_step new_signals ops) as [s outs]. by destruct R as [_ ->].
Qed.

Lemma signals_refine_fifo_witness :
  snd (run_ops signal_step new_signals [OpPush true; OpPush false; OpNext; OpNext; OpNext; OpPush true])
  = [OutPushed true; OutPushed true; OutResult Conflict; OutResult Clear;
     OutResult ObserverFailed; OutPushed false].
Proof.
  rewrite (signals_refine_fifo [OpPush true; OpPush false; OpNext; OpNext; OpNext; OpPush true])
    by (vm_compute; reflexivity).
  reflexivity.
Defined.

(** ** Fail closed *)

Definition failed_signals (s : H1FramingSignals) : bool := overflowed s || unknown s.

Lemma failed_step s op :
  failed_signals s = true ->
  failed_signals (fst (signal_step s op)) = true
  /\ (op = OpNext -> snd (signal_step s op) = OutResult ObserverFailed).
Proof.
  unfold failed_signals; intros Hf.
  destruct op; simpl; unfold push, next_conflict, store_parse_reject_hint; rewrite ?Hf;
    repeat (case_match; simplify_eq/=); rewrite ?orb_true_r; auto; naive_solver.
Qed.

(** Error behaviour of the queue: failure is sticky. Once a push has
    overflowed the ring, the observer has diverged or the consumer has
    underflowed, every later read on the connection answers [ObserverFailed],
    whatever else happens in between. No operation clears the failure. *)
Theorem observer_failure_sticky s ops :
  failed_signals s = true ->
  Forall (fun o => forall r, o = OutResult r -> r = ObserverFailed)
    (snd (run_ops signal_step s ops)).
Proof.
  revert s; induction ops as [|op ops IH]; intros s Hf; simpl; [constructor|].
  pose proof (failed_step s op Hf) as [Hf1 Ho].
  destruct (signal_step s op) as [s1 o] eqn:E; simpl in *.
  specialize (IH s1 Hf1). destruct (run_ops signal_step s1 ops) as [s2 os]; simpl in *.
  constructor; [|done]. intros r ->. destruct op; simpl in E; repeat case_match; simplify_eq.
  naive_solver.
Qed.

Lemma observer_failure_sticky_witness :
  Forall (fun o => forall r, o = OutResult r -> r = ObserverFailed)
    (snd (run_ops signal_step (snd (next_conflict new_signals)) [OpPush true; OpNext])).
Proof. apply observer_failure_sticky. reflexivity. Defined.
