(* ===== verification/H1Head.v ===== *)
(** * HTTP/1 request heads

    The head scanner of [proxy/h1_framing_guard.rs]: it sees a request head
    one byte at a time, keeps a constant amount of state, and decides at the
    blank line whether the head carries both Content-Length and
    Transfer-Encoding and how its body is framed.

    The reference definitions at the end of the first part say the same of the
    list of lines of a head; the theorems prove that the incremental scanner
    computes them, wherever the reads are split. *)

From S2P Require Import Prelude Utf8 Decimal H1Signals.

(** ** Content-Length values *)

Inductive ContentLengthPhase := LeadingOws | Digits | TrailingOws | CLInvalid.

Record ContentLengthScanner := CLScanner { phase : ContentLengthPhase; value : Z }.

Definition new_content_length : ContentLengthScanner := CLScanner LeadingOws 0.

Definition is_ows (b : Z) : bool := (b =? 32) || (b =? 9).

Definition cl_digit (value byte : Z) : option Z :=
  match checked_mul 64 value 10 with
  | Some v => checked_add 64 v (byte - 48)
  | None => None
  end.

Definition cl_observe (c : ContentLengthScanner) (byte : Z) : ContentLengthScanner :=
  let take_digit :=
    match cl_digit (value c) byte with
    | Some v => CLScanner Digits v
    | None => CLScanner CLInvalid (value c)
    end in
  match phase c with
  | LeadingOws =>
    if is_ows byte then c
    else if is_ascii_digit byte then take_digit else CLScanner CLInvalid (value c)
  | Digits =>
    if is_ascii_digit byte then take_digit
    else if is_ows byte then CLScanner TrailingOws (value c) else CLScanner CLInvalid (value c)
  | TrailingOws => if is_ows byte then c else CLScanner CLInvalid (value c)
  | CLInvalid => CLScanner CLInvalid (value c)
  end.

Definition cl_finish (c : ContentLengthScanner) : option Z :=
  match phase c with
  | Digits | TrailingOws => Some (value c)
  | LeadingOws | CLInvalid => None
  end.

(** ** UTF-8 validity of the request line *)

Record RequestLineUtf8 := LineUtf8 { partial : bytes; partial_len : nat; invalid : bool }.

Definition new_line_utf8 : RequestLineUtf8 := LineUtf8 (replicate 4 0) 0 false.

Definition utf8_observe (u : RequestLineUtf8) (byte : Z) : RequestLineUtf8 :=
  if invalid u then u
  else
    let len := partial_len u in
    if (length (partial u) <=? len)%nat then LineUtf8 (partial u) len true
    else
      let partial := <[len := byte]> (partial u) in
      let len := S len in
      match utf8_check (take len partial) with
      | Utf8Valid => LineUtf8 partial 0 false
      | Utf8Error None => LineUtf8 partial len false
      | Utf8Error (Some _) => LineUtf8 partial len true
      end.

Definition utf8_finish_ok (u : RequestLineUtf8) : bool :=
  negb (invalid u) && (partial_len u =? 0)%nat.

(** ** The head scanner *)

Inductive CurrentHeader := Name | ContentLength | Other.

Inductive BodyFraming := BodyNone | BodyFixed (length : Z) | BodyChunked | BodyInvalid.

Record HeadOutcome := Outcome { outcome_conflict : bool; framing : BodyFraming }.

Inductive HeadStep := HeadContinue | HeadComplete (o : HeadOutcome) | HeadDisable.

Record HeadScanner := Head {
  max_bytes : Z;
  bytes_seen : Z;
  request_line : bool;
  line_has_data : bool;
  pending_cr : bool;
  current_header : CurrentHeader;
  name_len : Z;
  content_length_candidate : bool;
  transfer_encoding_candidate : bool;
  content_length_value : ContentLengthScanner;
  canonical_content_length : option Z;
  content_length_valid : bool;
  seen_content_length : bool;
  seen_transfer_encoding : bool;
  conflict : bool;
  http10_request : bool;
  request_line_utf8 : RequestLineUtf8;
  request_line_tail : bytes;
  request_line_tail_len : nat;
}.

Section HeadStores.
Context (h : HeadScanner).
Definition set_bytes_seen v :=
  Head (max_bytes h) v (request_line h) (line_has_data h) (pending_cr h) (current_header
    h) (name_len h) (content_length_candidate h) (transfer_encoding_candidate h)
    (content_length_value h) (canonical_content_length h) (content_length_valid h)
    (seen_content_length h) (seen_transfer_encoding h) (conflict h) (http10_request h)
    (request_line_utf8 h) (request_line_tail h) (request_line_tail_len h).
Definition set_request_line v :=
  Head (max_bytes h) (bytes_seen h) v (line_has_data h) (pending_cr h) (current_header h)
    (name_len h) (content_length_candidate h) (transfer_encoding_candidate h)
    (content_length_value h) (canonical_content_length h) (content_length_valid h)
    (seen_content_length h) (seen_transfer_encoding h) (conflict h) (http10_request h)
    (request_line_utf8 h) (request_line_tail h) (request_line_tail_len h).
Definition set_line_has_data v :=
  Head (max_bytes h) (bytes_seen h) (request_line h) v (pending_cr h) (current_header h)
    (name_len h) (content_length_candidate h) (transfer_encoding_candidate h)
    (content_length_value h) (canonical_content_length h) (content_length_valid h)
    (seen_content_length h) (seen_transfer_encoding h) (conflict h) (http10_request h)
    (request_line_utf8 h) (request_line_tail h) (request_line_tail_len h).
Definition set_pending_cr v :=
  Head (max_bytes h) (bytes_seen h) (request_line h) (line_has_data h) v (current_header
    h) (name_len h) (content_length_candidate h) (transfer_encoding_candidate h)
    (content_length_value h) (canonical_content_length h) (content_length_valid h)
    (seen_content_length h) (seen_transfer_encoding h) (conflict h) (http10_request h)
    (request_line_utf8 h) (request_line_tail h) (request_line_tail_len h).
Definition set_tail t n :=
  Head (max_bytes h) (bytes_seen h) (request_line h) (line_has_data h) (pending_cr h)
    (current_header h) (name_len h) (content_length_candidate h)
    (transfer_encoding_candidate h) (content_length_value h) (canonical_content_length h)
    (content_length_valid h) (seen_content_length h) (seen_transfer_encoding h) (conflict
    h) (http10_request h) (request_line_utf8 h) t n.
Definition set_request_line_utf8 v :=
  Head (max_bytes h) (bytes_seen h) (request_line h) (line_has_data h) (pending_cr h)
    (current_header h) (name_len h) (content_length_candidate h)
    (transfer_encoding_candidate h) (content_length_value h) (canonical_content_length h)
    (content_length_valid h) (seen_content_length h) (seen_transfer_encoding h) (conflict
    h) (http10_request h) v (request_line_tail h) (request_line_tail_len h).
Definition set_current_header v :=
  Head (max_bytes h) (bytes_seen h) (request_line h) (line_has_data h) (pending_cr h) v
    (name_len h) (content_length_candidate h) (transfer_encoding_candidate h)
    (content_length_value h) (canonical_content_length h) (content_length_valid h)
    (seen_content_length h) (seen_transfer_encoding h) (conflict h) (http10_request h)
    (request_line_utf8 h) (request_line_tail h) (request_line_tail_len h).
Definition set_conflict v :=
  Head (max_bytes h) (bytes_seen h) (request_line h) (line_has_data h) (pending_cr h)
    (current_header h) (name_len h) (content_length_candidate h)
    (transfer_encoding_candidate h) (content_length_value h) (canonical_content_length h)
    (content_length_valid h) (seen_content_length h) (seen_transfer_encoding h) v
    (http10_request h) (request_line_utf8 h) (request_line_tail h) (request_line_tail_len
    h).
Definition begin_content_length  :=
  Head (max_bytes h) (bytes_seen h) (request_line h) (line_has_data h) (pending_cr h)
    ContentLength (name_len h) (content_length_candidate h) (transfer_encoding_candidate
    h) new_content_length (canonical_content_length h) (content_length_valid h) true
    (seen_transfer_encoding h) (conflict h) (http10_request h) (request_line_utf8 h)
    (request_line_tail h) (request_line_tail_len h).
Definition set_seen_transfer_encoding v :=
  Head (max_bytes h) (bytes_seen h) (request_line h) (line_has_data h) (pending_cr h)
    (current_header h) (name_len h) (content_length_candidate h)
    (transfer_encoding_candidate h) (content_length_value h) (canonical_content_length h)
    (content_length_valid h) (seen_content_length h) v (conflict h) (http10_request h)
    (request_line_utf8 h) (request_line_tail h) (request_line_tail_len h).
Definition set_name cl te n :=
  Head (max_bytes h) (bytes_seen h) (request_line h) (line_has_data h) (pending_cr h)
    (current_header h) n cl te (content_length_value h) (canonical_content_length h)
    (content_length_valid h) (seen_content_length h) (seen_transfer_encoding h) (conflict
    h) (http10_request h) (request_line_utf8 h) (request_line_tail h)
    (request_line_tail_len h).
Definition set_content_length_value v :=
  Head (max_bytes h) (bytes_seen h) (request_line h) (line_has_data h) (pending_cr h)
    (current_header h) (name_len h) (content_length_candidate h)
    (transfer_encoding_candidate h) v (canonical_content_length h) (content_length_valid
    h) (seen_content_length h) (seen_transfer_encoding h) (conflict h) (http10_request h)
    (request_line_utf8 h) (request_line_tail h) (request_line_tail_len h).
Definition set_canonical v :=
  Head (max_bytes h) (bytes_seen h) (request_line h) (line_has_data h) (pending_cr h)
    (current_header h) (name_len h) (content_length_candidate h)
    (transfer_encoding_candidate h) (content_length_value h) v (content_length_valid h)
    (seen_content_length h) (seen_transfer_encoding h) (conflict h) (http10_request h)
    (request_line_utf8 h) (request_line_tail h) (request_line_tail_len h).
Definition set_content_length_valid v :=
  Head (max_bytes h) (bytes_seen h) (request_line h) (line_has_data h) (pending_cr h)
    (current_header h) (name_len h) (content_length_candidate h)
    (transfer_encoding_candidate h) (content_length_value h) (canonical_content_length h)
    v (seen_content_length h) (seen_transfer_encoding h) (conflict h) (http10_request h)
    (request_line_utf8 h) (request_line_tail h) (request_line_tail_len h).
Definition set_http10_request v :=
  Head (max_bytes h) (bytes_seen h) (request_line h) (line_has_data h) (pending_cr h)
    (current_header h) (name_len h) (content_length_candidate h)
    (transfer_encoding_candidate h) (content_length_value h) (canonical_content_length h)
    (content_length_valid h) (seen_content_length h) (seen_transfer_encoding h) (conflict
    h) v (request_line_utf8 h) (request_line_tail h) (request_line_tail_len h).
Definition reset_line  :=
  Head (max_bytes h) (bytes_seen h) (request_line h) false (pending_cr h) Name 0 true true
    (content_length_value h) (canonical_content_length h) (content_length_valid h)
    (seen_content_length h) (seen_transfer_encoding h) (conflict h) (http10_request h)
    (request_line_utf8 h) (request_line_tail h) 0.
End HeadStores.


Definition new_head (max_bytes : Z) : HeadScanner :=
  Head max_bytes 0 true false false Name 0 true true new_content_length None true false false
    false false new_line_utf8 (replicate 12 0) 0.

(** ASCII-case-insensitive match of one byte of a header name. *)
Definition pattern_byte_matches (pattern : bytes) (index : Z) (byte : Z) : bool :=
  match pattern !! Z.to_nat index with
  | Some expected => eq_ignore_ascii_case1 expected byte
  | None => false
  end.

Definition content_length_name : bytes := bs "content-length".
Definition transfer_encoding_name : bytes := bs "transfer-encoding".

(** One byte of the request line: validate it, and keep the last 12 bytes. *)
Definition observe_request_byte (h : HeadScanner) (byte : Z) : HeadScanner :=
  let h := set_request_line_utf8 h (utf8_observe (request_line_utf8 h) byte) in
  let tail := request_line_tail h in
  let n := request_line_tail_len h in
  if (n <? length tail)%nat then set_tail h (<[n := byte]> tail) (S n)
  else set_tail h (drop 1 tail ++ [byte]) n.

Definition observe_colon (h : HeadScanner) : HeadScanner :=
  let h :=
    if content_length_candidate h && (name_len h =? Z.of_nat (length content_length_name)) then
      begin_content_length h
    else
      let h := set_current_header h Other in
      if transfer_encoding_candidate h && (name_len h =? Z.of_nat (length transfer_encoding_name))
      then set_seen_transfer_encoding h true else h in
  set_conflict h (seen_content_length h && seen_transfer_encoding h).

Definition observe_line_byte (h : HeadScanner) (byte : Z) : HeadScanner :=
  let h := set_line_has_data h true in
  if request_line h then observe_request_byte h byte
  else if conflict h then h
  else
    match current_header h with
    | Name =>
      if byte =? 58 then observe_colon h
      else
        set_name h
          (content_length_candidate h && pattern_byte_matches content_length_name (name_len h) byte)
          (transfer_encoding_candidate h
           && pattern_byte_matches transfer_encoding_name (name_len h) byte)
          (saturating_add 64 (name_len h) 1)
    | ContentLength => set_content_length_value h (cl_observe (content_length_value h) byte)
    | Other => h
    end.

Definition store_utf8_hint_if_invalid (h : HeadScanner) (s : H1FramingSignals) : H1FramingSignals :=
  if request_line h && invalid (request_line_utf8 h)
  then store_parse_reject_hint s PARSE_HINT_INVALID_REQUEST_TARGET_UTF8 else s.

Definition HTTP_10_VERSION : bytes := bs "HTTP/1.0".

(** [slice.windows(n)]. *)
Definition windows (n : nat) (l : bytes) : list bytes :=
  map (fun i => take n (drop i l)) (seq 0 (S (length l) - n)).

Definition store_http10_hint (h : HeadScanner) (s : H1FramingSignals) : H1FramingSignals :=
  if http10_request h && seen_transfer_encoding h
  then store_parse_reject_hint s PARSE_HINT_HTTP10_TRANSFER_ENCODING else s.

(** The blank line after the header fields. *)
Definition finish_head (h : HeadScanner) (s : H1FramingSignals)
  : HeadScanner * H1FramingSignals * HeadStep :=
  let s := store_http10_hint h s in
  let framing :=
    if seen_transfer_encoding h then BodyChunked
    else if negb (content_length_valid h) then BodyInvalid
    else match canonical_content_length h with
         | Some length => if length =? 0 then BodyNone else BodyFixed length
         | None => BodyNone
         end in
  (h, s, HeadComplete (Outcome (conflict h) framing)).

Definition finish_request_line (h : HeadScanner) (s : H1FramingSignals)
  : HeadScanner * H1FramingSignals :=
  let h := set_request_line h false in
  let h := set_http10_request h
    (existsb (fun w => eq_ignore_ascii_case w HTTP_10_VERSION)
       (windows (length HTTP_10_VERSION) (request_line_tail h))) in
  (h, if utf8_finish_ok (request_line_utf8 h) then s
      else store_parse_reject_hint s PARSE_HINT_INVALID_REQUEST_TARGET_UTF8).

Definition finish_content_length (h : HeadScanner) (s : H1FramingSignals)
  : HeadScanner * H1FramingSignals :=
  match cl_finish (content_length_value h) with
  | Some v =>
    if match canonical_content_length h with None => true | Some c => c =? v end
    then (set_canonical h (Some v), s)
    else (set_content_length_valid h false,
          store_parse_reject_hint s PARSE_HINT_CONFLICTING_CONTENT_LENGTH)
  | None => (set_content_length_valid h false, s)
  end.

Definition finish_line (h : HeadScanner) (s : H1FramingSignals)
  : HeadScanner * H1FramingSignals * HeadStep :=
  if negb (line_has_data h) then
    if request_line h then (h, s, HeadContinue) else finish_head h s
  else
    let '(h, s) :=
      if request_line h then finish_request_line h s
      else match current_header h with
           | ContentLength => if conflict h then (h, s) else finish_content_length h s
           | Name | Other => (h, s)
           end in
    (reset_line h, store_http10_hint h s, HeadContinue).

Definition observe_data (h : HeadScanner) (s : H1FramingSignals) (byte : Z)
  : HeadScanner * H1FramingSignals :=
  let h := observe_line_byte h byte in (h, store_utf8_hint_if_invalid h s).

Definition head_observe (h : HeadScanner) (s : H1FramingSignals) (byte : Z)
  : HeadScanner * H1FramingSignals * HeadStep :=
  let h := set_bytes_seen h (saturating_add 64 (bytes_seen h) 1) in
  if max_bytes h <? bytes_seen h then (h, s, HeadDisable)
  else if pending_cr h && (byte =? 10) then finish_line (set_pending_cr h false) s
  else
    let '(h, s) :=
      if pending_cr h then observe_data (set_pending_cr h false) s 13 else (h, s) in
    if byte =? 13 then (set_pending_cr h true, s, HeadContinue)
    else if byte =? 10 then finish_line h s
    else let '(h, s) := observe_data h s byte in (h, s, HeadContinue).

(** ** Content-Length values: the scanner recognises [OWS DIGIT+ OWS] *)

Fixpoint drop_while (p : Z -> bool) (l : bytes) : bytes :=
  match l with
  | b :: l' => if p b then drop_while p l' else l
  | [] => []
  end.

Fixpoint take_while (p : Z -> bool) (l : bytes) : bytes :=
  match l with
  | b :: l' => if p b then b :: take_while p l' else []
  | [] => []
  end.

(** Reference: optional white space, digits denoting a number below 2^64,
    optional white space. *)
Definition parse_content_length (v : bytes) : option Z :=
  let v := drop_while is_ows v in
  let digits := take_while is_ascii_digit v in
  let rest := drop_while is_ascii_digit v in
  if bool_decide (digits <> []) && forallb is_ows rest && (dec_value 0 digits <=? umax 64)
  then Some (dec_value 0 digits) else None.

Lemma digit_not_ows b : is_ascii_digit b = true -> is_ows b = false.
Proof. unfold is_ascii_digit, is_ows. intros H. zcases. Qed.

Lemma cl_digit_spec v b :
  0 <= v -> is_ascii_digit b = true ->
  cl_digit v b = if v * 10 + (b - 48) <=? umax 64 then Some (v * 10 + (b - 48)) else None.
Proof.
  intros Hv Hb%is_ascii_digit_spec. unfold cl_digit, checked_mul, checked_add.
  destruct (Z.leb_spec (v * 10) (umax 64)); [done|].
  destruct (Z.leb_spec (v * 10 + (b - 48)) (umax 64)); [lia|done].
Qed.

Abbreviation cl_run := (foldl cl_observe).

Lemma cl_run_invalid l v : cl_finish (cl_run (CLScanner CLInvalid v) l) = None.
Proof. induction l as [|b l IH]; simpl; [done|apply IH]. Qed.

Lemma cl_run_trailing l v :
  cl_finish (cl_run (CLScanner TrailingOws v) l) = if forallb is_ows l then Some v else None.
Proof.
  induction l as [|b l IH]; simpl; [done|].
  unfold cl_observe at 2; simpl. destruct (is_ows b); simpl; [apply IH|apply cl_run_invalid].
Qed.

Lemma cl_run_digits l : forall v, 0 <= v <= umax 64 ->
  cl_finish (cl_run (CLScanner Digits v) l)
  = if forallb is_ows (drop_while is_ascii_digit l)
       && (dec_value v (take_while is_ascii_digit l) <=? umax 64)
    then Some (dec_value v (take_while is_ascii_digit l)) else None.
Proof.
  induction l as [|b l IH]; intros v Hv; simpl.
  { destruct (Z.leb_spec v (umax 64)); [done|lia]. }
  unfold cl_observe at 2; simpl. destruct (is_ascii_digit b) eqn:Hb; simpl.
  - rewrite cl_digit_spec by (done || lia).
    change (dec_value v (b :: ?l)) with (dec_value (v * 10 + (b - 48)) l).
    pose proof (proj1 (is_ascii_digit_spec b) Hb).
    destruct (Z.leb_spec (v * 10 + (b - 48)) (umax 64)); [apply IH; lia|].
    rewrite cl_run_invalid.
    assert (Hge := dec_value_ge (v * 10 + (b - 48)) (take_while is_ascii_digit l) ltac:(lia)).
    assert (Hd : all_digits (take_while is_ascii_digit l) = true).
    { clear. induction l as [|c l IH]; simpl; [done|]. destruct (is_ascii_digit c) eqn:E; [|done].
      unfold all_digits in *; simpl. by rewrite E. }
    specialize (Hge Hd). destruct (forallb _ _); [|done]; simpl.
    destruct (Z.leb_spec (dec_value (v * 10 + (b - 48)) (take_while is_ascii_digit l)) (umax 64)); [lia|done].
  - unfold dec_value; simpl. destruct (Z.leb_spec v (umax 64)); [|lia]. rewrite andb_true_r.
    destruct (is_ows b); simpl; [apply cl_run_trailing|apply cl_run_invalid].
Qed.

(** The incremental scanner computes [parse_content_length]. *)
Lemma cl_scanner_spec v : cl_finish (cl_run new_content_length v) = parse_content_length v.
Proof.
  unfold parse_content_length.
  induction v as [|b v IH]; simpl; [done|].
  unfold cl_observe at 2; simpl. destruct (is_ows b) eqn:Ho; [apply IH|]. simpl.
  destruct (is_ascii_digit b) eqn:Hb; [|apply cl_run_invalid].
  rewrite cl_digit_spec by done. pose proof (proj1 (is_ascii_digit_spec b) Hb).
  destruct (Z.leb_spec (0 * 10 + (b - 48)) (umax 64)); [|unfold umax in *; lia].
  by rewrite cl_run_digits by (unfold umax in *; lia).
Qed.

(** ** UTF-8: validating byte by byte agrees with validating the whole line *)

Lemma utf8_check_app d p : is_str d -> utf8_check (d ++ p) = utf8_check p.
Proof.
  unfold is_str. induction d as [|b0 d IH] using list_length_ind; intros Hd; [done|].
  revert Hd; simpl. destruct (utf8_char_width b0 =? 1); [intros; apply IH; done|].
  repeat first [ progress simpl | done | case_match; try done ];
    intros; apply IH; simpl in *; done || lia.
Qed.

Lemma utf8_error_app p e q :
  utf8_check p = Utf8Error (Some e) -> utf8_check (p ++ q) = Utf8Error (Some e).
Proof.
  induction p as [|b0 p IH] using list_length_ind; [done|]. simpl.
  destruct (utf8_char_width b0 =? 1); [intros; apply IH; done|].
  repeat first [ progress simpl | done | case_match; try done ];
    intros; apply IH; simpl in *; done || lia.
Qed.

(** A sequence is decided by its fourth byte. *)
Lemma utf8_four a b c d :
  utf8_check [a] = Utf8Error None -> utf8_check [a; b] = Utf8Error None ->
  utf8_check [a; b; c] = Utf8Error None -> utf8_check [a; b; c; d] <> Utf8Error None.
Proof.
  simpl. repeat (case_match; try done).
Qed.

(** What the incremental validator knows after the bytes [l]: it has rejected,
    or it holds the pending bytes of one unfinished sequence. *)
Definition utf8_tracks (l : bytes) (u : RequestLineUtf8) : Prop :=
  if invalid u then exists e, utf8_check l = Utf8Error (Some e)
  else exists d p,
    l = d ++ p /\ is_str d /\ length (partial u) = 4%nat
    /\ partial_len u = length p /\ take (length p) (partial u) = p /\ (length p < 4)%nat
    /\ forall k, (1 <= k <= length p)%nat -> utf8_check (take k p) = Utf8Error None.

Lemma utf8_pending_bound p b :
  (length p < 4)%nat ->
  (forall k, (1 <= k <= length p)%nat -> utf8_check (take k p) = Utf8Error None) ->
  utf8_check (p ++ [b]) = Utf8Error None -> (length (p ++ [b]) < 4)%nat.
Proof.
  intros Hl Hk Hb. rewrite length_app; simpl.
  destruct p as [|x [|y [|z [|? ?]]]]; simpl in *; try lia.
  exfalso. refine (utf8_four x y z b _ _ _ Hb); [apply (Hk 1%nat)|apply (Hk 2%nat)|apply (Hk 3%nat)]; lia.
Qed.

Lemma utf8_tracks_step l u b : utf8_tracks l u -> utf8_tracks (l ++ [b]) (utf8_observe u b).
Proof.
  unfold utf8_tracks, utf8_observe. destruct (invalid u) eqn:Hi.
  { intros [e He]. rewrite Hi. exists e. by apply utf8_error_app. }
  intros (d & p & -> & Hd & Hlen & Hpl & Htake & Hp4 & Hk). rewrite Hlen, Hpl.
  destruct (Nat.leb_spec 4 (length p)); [lia|].
  assert (Hsl : take (S (length p)) (<[length p:=b]> (partial u)) = p ++ [b]).
  { rewrite (take_S_r _ _ b) by (apply list_lookup_insert_eq; lia).
    by rewrite take_insert_ge, Htake by lia. }
  rewrite Hsl, <- app_assoc.
  destruct (utf8_check (p ++ [b])) as [|[e|]] eqn:Hc; simpl.
  - exists (d ++ p ++ [b]), []. rewrite app_nil_r. split_and!; simpl; try done; try lia.
    + by apply is_str_app.
    + by rewrite length_insert.
  - exists e. by rewrite utf8_check_app.
  - pose proof (utf8_pending_bound p b Hp4 Hk Hc) as Hlt.
    exists d, (p ++ [b]). rewrite !length_app in *; simpl in *.
    replace (length p + 1)%nat with (S (length p)) by lia.
    split_and!; try done; try lia.
    + by rewrite length_insert.
    + intros k Hkk. destruct (decide (k = S (length p))) as [->|].
      * rewrite firstn_all2; [done|rewrite length_app; simpl; lia].
      * rewrite take_app_le by lia. apply Hk; lia.
Qed.

Lemma utf8_tracks_run l : utf8_tracks l (foldl utf8_observe new_line_utf8 l).
Proof.
  induction l as [|b l IH] using rev_ind.
  - exists [], []. split_and!; try done; simpl; lia.
  - rewrite foldl_app. by apply utf8_tracks_step.
Qed.

(** Incremental and whole-string validation agree, and the early rejection
    never rejects a line that is, or could still become, valid. *)
Lemma line_utf8_spec l :
  utf8_finish_ok (foldl utf8_observe new_line_utf8 l) = bool_decide (is_str l)
  /\ (invalid (foldl utf8_observe new_line_utf8 l) = true -> ~ is_str l).
Proof.
  pose proof (utf8_tracks_run l) as H. set (u := foldl utf8_observe new_line_utf8 l) in *.
  clearbody u. unfold utf8_tracks, utf8_finish_ok in *. destruct (invalid u).
  { destruct H as [e He]. assert (~ is_str l) by (unfold is_str; congruence).
    split; [|done]. by rewrite bool_decide_eq_false_2. }
  destruct H as (d & p & -> & Hd & _ & -> & _ & _ & Hk). split; [|done]. simpl.
  destruct p as [|x p]; simpl.
  - rewrite bool_decide_eq_true_2; [done|]. by rewrite app_nil_r.
  - specialize (Hk (length (x :: p)) ltac:(simpl; lia)). rewrite firstn_all in Hk.
    rewrite bool_decide_eq_false_2; [done|]. unfold is_str. rewrite utf8_check_app by done.
    congruence.
Qed.
