(* ===== verification/H1HeadSpec.v ===== *)
(** * HTTP/1 request heads: reference and correctness

    What the head scanner of [H1Head] is for, said of the lines of a head
    instead of its bytes: which header fields frame the body, when a head
    carries both Content-Length and Transfer-Encoding, how the body is framed,
    and which of the three shapes Hyper rejects is hinted. The theorems show that
    the byte-at-a-time scanner decides exactly that, for every head. *)

From S2P Require Import Prelude Utf8 Decimal H1Signals H1Head.

(** ** Reference *)

(** Field name and value, at the first colon. *)
Fixpoint split_colon (line : bytes) : option (bytes * bytes) :=
  match line with
  | [] => None
  | b :: l =>
    if b =? 58 then Some ([], l)
    else match split_colon l with
         | Some (n, v) => Some (b :: n, v)
         | None => None
         end
  end.

Definition field_named (name line : bytes) : bool :=
  match split_colon line with
  | Some (n, _) => eq_ignore_ascii_case name n
  | None => false
  end.

Definition is_content_length : bytes -> bool := field_named content_length_name.
Definition is_transfer_encoding : bytes -> bool := field_named transfer_encoding_name.

Definition field_value (line : bytes) : bytes :=
  match split_colon line with Some (_, v) => v | None => [] end.

Definition head_conflict (headers : list bytes) : bool :=
  existsb is_content_length headers && existsb is_transfer_encoding headers.

(** The Content-Length values of a head, [None] for a malformed one. *)
Definition content_lengths (headers : list bytes) : list (option Z) :=
  map (fun l => parse_content_length (field_value l)) (filter (fun l => is_content_length l = true) headers).

Definition head_framing (headers : list bytes) : BodyFraming :=
  if existsb is_transfer_encoding headers then BodyChunked
  else match content_lengths headers with
       | [] => BodyNone
       | v :: vs =>
         if forallb (fun w => bool_decide (w = v)) vs then
           match v with
           | None => BodyInvalid
           | Some n => if n =? 0 then BodyNone else BodyFixed n
           end
         else BodyInvalid
       end.

(** The header lines up to the first Transfer-Encoding field. *)
Fixpoint before_te (headers : list bytes) : list bytes :=
  match headers with
  | [] => []
  | l :: rest => if is_transfer_encoding l then [] else l :: before_te rest
  end.

(** Two well-formed Content-Length values that differ. *)
Definition lengths_disagree (headers : list bytes) : bool :=
  match omap id (content_lengths headers) with
  | [] => false
  | v :: vs => negb (forallb (Z.eqb v) vs)
  end.

(** The last twelve bytes of the request line contain [HTTP/1.0]. *)
Definition http10_line (line : bytes) : bool :=
  existsb (fun w => eq_ignore_ascii_case w HTTP_10_VERSION)
    (windows (length HTTP_10_VERSION) (drop (length line - 12) line)).

Definition head_hint (request_line : bytes) (headers : list bytes) : Z :=
  if negb (bool_decide (is_str request_line)) then PARSE_HINT_INVALID_REQUEST_TARGET_UTF8
  else if lengths_disagree (before_te headers) then PARSE_HINT_CONFLICTING_CONTENT_LENGTH
  else if http10_line request_line && existsb is_transfer_encoding headers
       then PARSE_HINT_HTTP10_TRANSFER_ENCODING
  else PARSE_HINT_NONE.

(** Lines on the wire end in CRLF or in a bare LF. *)
Inductive terminator := Lf | CrLf.

Definition term_bytes (t : terminator) : bytes :=
  match t with Lf => [10] | CrLf => [13; 10] end.

Definition encode_line (l : bytes * terminator) : bytes := fst l ++ term_bytes (snd l).

(** A line is determined by its bytes: no LF inside, and a bare LF is not
    preceded by the CR that would belong to the terminator. *)
Definition line_ok (l : bytes * terminator) : Prop :=
  10 ∉ fst l /\ (snd l = Lf -> last (fst l) <> Some 13).

(** A complete head: blank lines, the request line, header lines, a blank line. *)
Record head_text := HeadText {
  blanks : list terminator;
  request : bytes * terminator;
  headers : list (bytes * terminator);
  final : terminator;
}.

Definition encode_head (t : head_text) : bytes :=
  concat (map term_bytes (blanks t)) ++ encode_line (request t)
  ++ concat (map encode_line (headers t)) ++ term_bytes (final t).

Definition head_ok (t : head_text) : Prop :=
  line_ok (request t) /\ fst (request t) <> []
  /\ Forall (fun l => line_ok l /\ fst l <> []) (headers t).

#[global] Instance terminator_eq_dec : EqDecision terminator.
Proof. solve_decision. Defined.

#[global] Instance line_ok_dec l : Decision (line_ok l).
Proof. unfold line_ok. apply _. Defined.

#[global] Instance head_ok_dec t : Decision (head_ok t).
Proof. unfold head_ok. apply _. Defined.

(** Feed bytes until the head completes or the scanner gives up. *)
Fixpoint head_run (h : HeadScanner) (s : H1FramingSignals) (l : bytes)
  : HeadScanner * H1FramingSignals * HeadStep * bytes :=
  match l with
  | [] => (h, s, HeadContinue, [])
  | b :: l =>
    match head_observe h s b with
    | (h, s, HeadContinue) => head_run h s l
    | (h, s, step) => (h, s, step, l)
    end
  end.

(** ** Stored hints: the first one wins *)

Lemma store_store s a b :
  store_parse_reject_hint (store_parse_reject_hint s a) b
  = store_parse_reject_hint s (if a =? PARSE_HINT_NONE then b else a).
Proof.
  unfold store_parse_reject_hint, PARSE_HINT_NONE, PARSE_HINT_PRIOR_HEAD.
  destruct (Z.eqb_spec a 0) as [->|Ha]; [done|].
  destruct (Z.eqb_spec a 0) as [|_]; [done|].
  destruct (Z.eqb_spec (parse_reject_hint s) 0) as [E|E].
  - destruct (b =? 0); [done|]. simpl.
    destruct (0 <? produced s); simpl.
    + destruct (Z.eqb_spec (Z.lor a 128) 0) as [E0|]; [|done].
      apply Z.lor_eq_0_iff in E0. lia.
    + destruct (Z.eqb_spec a 0); done.
  - destruct (b =? 0); [done|]. destruct (Z.eqb_spec (parse_reject_hint s) 0); done.
Qed.

Lemma store_idem s a :
  store_parse_reject_hint (store_parse_reject_hint s a) a = store_parse_reject_hint s a.
Proof. rewrite store_store. by destruct (a =? PARSE_HINT_NONE). Qed.

Lemma store_none s : store_parse_reject_hint s 0 = s.
Proof. done. Qed.

Lemma store_id s a : a <> 0 -> parse_reject_hint s <> 0 -> store_parse_reject_hint s a = s.
Proof.
  intros Ha Hs. unfold store_parse_reject_hint, PARSE_HINT_NONE.
  destruct (Z.eqb_spec a 0); [done|]. destruct (Z.eqb_spec (parse_reject_hint s) 0); done.
Qed.

(** ** Lines: a carriage return belongs to the terminator or to the line *)

Definition observe_all (h : HeadScanner) (s : H1FramingSignals) (l : bytes)
  : HeadScanner * H1FramingSignals :=
  foldl (fun hs b => observe_data hs.1 hs.2 b) (h, s) l.

(** The scanner after [n] more bytes of the budget. *)
Definition bump (h : HeadScanner) (n : nat) : HeadScanner :=
  set_bytes_seen h (bytes_seen h + Z.of_nat n).

Lemma observe_line_byte_pending h b p :
  observe_line_byte (set_pending_cr h p) b = set_pending_cr (observe_line_byte h b) p.
Proof.
  unfold observe_line_byte, observe_request_byte, observe_colon.
  destruct h; cbn. repeat case_match; reflexivity.
Qed.

Lemma observe_line_byte_seen h b n :
  observe_line_byte (set_bytes_seen h n) b = set_bytes_seen (observe_line_byte h b) n.
Proof.
  unfold observe_line_byte, observe_request_byte, observe_colon.
  destruct h; cbn. repeat case_match; reflexivity.
Qed.

(** Reading a data byte does not touch the terminator state or the budget. *)
Lemma observe_data_frame h s b :
  let '(h', _) := observe_data h s b in
  pending_cr h' = pending_cr h /\ bytes_seen h' = bytes_seen h /\ max_bytes h' = max_bytes h
  /\ request_line h' = request_line h.
Proof.
  unfold observe_data, observe_line_byte, observe_request_byte, observe_colon.
  destruct h; cbn. repeat case_match; cbn; auto.
Qed.

Lemma observe_data_pending h s b p :
  observe_data (set_pending_cr h p) s b
  = (set_pending_cr (observe_data h s b).1 p, (observe_data h s b).2).
Proof. unfold observe_data; cbn. by rewrite observe_line_byte_pending. Qed.

Lemma observe_data_bump h s b n :
  observe_data (bump h n) s b = (bump (observe_data h s b).1 n, (observe_data h s b).2).
Proof.
  pose proof (observe_data_frame h s b) as F. unfold observe_data, bump in *; cbn in *.
  destruct F as (_ & -> & _). by rewrite observe_line_byte_seen.
Qed.

Lemma bump_bump h n m : bump (bump h n) m = bump h (n + m).
Proof. unfold bump; cbn. f_equal. lia. Qed.

Lemma set_pending_false h : pending_cr h = false -> set_pending_cr h false = h.
Proof. destruct h; cbn. by intros ->. Qed.

Section Budget.
Context (h : HeadScanner) (s : H1FramingSignals).
Context (Hpending : pending_cr h = false).
Context (Hseen : 0 <= bytes_seen h < max_bytes h) (Hmax : max_bytes h <= umax 64).

Lemma in_budget p :
  set_bytes_seen (set_pending_cr h p) (saturating_add 64 (bytes_seen h) 1)
  = set_pending_cr (bump h 1) p
  /\ max_bytes h <? bytes_seen h + 1 = false.
Proof.
  unfold saturating_add, bump. rewrite Z.min_l by lia. split; [done|].
  apply Z.ltb_ge; lia.
Qed.

(** The budget check and the terminator state at the start of [head_observe]. *)
Lemma head_observe_budget p b :
  head_observe (set_pending_cr h p) s b
  = if p && (b =? 10) then finish_line (bump h 1) s
    else
      let '(h', s') := if p then observe_data (bump h 1) s 13 else (bump h 1, s) in
      if b =? 13 then (set_pending_cr h' true, s', HeadContinue)
      else if b =? 10 then finish_line h' s'
      else let '(h', s') := observe_data h' s' b in (h', s', HeadContinue).
Proof.
  pose proof (in_budget p) as [E1 E2].
  assert (E : set_pending_cr (bump h 1) false = bump h 1) by (by apply set_pending_false).
  unfold head_observe.
  change (bytes_seen (set_pending_cr h p)) with (bytes_seen h). rewrite E1.
  change (max_bytes (set_pending_cr (bump h 1) p)) with (max_bytes h).
  change (bytes_seen (set_pending_cr (bump h 1) p)) with (bytes_seen h + 1). rewrite E2.
  change (pending_cr (set_pending_cr (bump h 1) p)) with p.
  change (set_pending_cr (set_pending_cr (bump h 1) p) false) with (set_pending_cr (bump h 1) false).
  rewrite E. destruct p; [done|]. by rewrite E.
Qed.

Lemma step_data b :
  b <> 10 -> b <> 13 ->
  head_observe h s b
  = ((observe_data (bump h 1) s b).1, (observe_data (bump h 1) s b).2, HeadContinue).
Proof.
  intros H10 H13. pose proof (head_observe_budget false b) as E.
  rewrite set_pending_false in E by done. rewrite E. simpl.
  destruct (Z.eqb_spec b 13); [done|]. destruct (Z.eqb_spec b 10); [done|].
  by destruct (observe_data (bump h 1) s b).
Qed.

Lemma step_cr : head_observe h s 13 = (set_pending_cr (bump h 1) true, s, HeadContinue).
Proof.
  pose proof (head_observe_budget false 13) as E. by rewrite set_pending_false in E by done.
Qed.

Lemma step_lf p : head_observe (set_pending_cr h p) s 10 = finish_line (bump h 1) s.
Proof. rewrite head_observe_budget. by destruct p. Qed.
End Budget.

Lemma step_pending h s b :
  pending_cr h = false -> 0 <= bytes_seen h < max_bytes h -> max_bytes h <= umax 64 ->
  b <> 10 ->
  head_observe (set_pending_cr h true) s b
  = head_observe (observe_data h s 13).1 (observe_data h s 13).2 b.
Proof.
  intros Hp Hs Hm Hb. rewrite head_observe_budget by done.
  pose proof (observe_data_frame h s 13) as F. rewrite observe_data_bump.
  destruct (observe_data h s 13) as [h1 s1]. cbn [fst snd]. destruct F as (F1 & F2 & F3 & _).
  pose proof (head_observe_budget h1 s1 ltac:(congruence) ltac:(congruence) ltac:(congruence) false b) as E.
  rewrite set_pending_false in E by congruence. rewrite E.
  destruct (Z.eqb_spec b 10); done.
Qed.

(** What follows a line: its [finish_line], then the rest of the input. *)
Definition after_line (hs : HeadScanner * H1FramingSignals) (rest : bytes)
  : HeadScanner * H1FramingSignals * HeadStep * bytes :=
  match finish_line hs.1 hs.2 with
  | (h, s, HeadContinue) => head_run h s rest
  | (h, s, step) => (h, s, step, rest)
  end.

Definition pending_bytes (p : bool) : bytes := if p then [13] else [].

Lemma observe_all_cons h s b l :
  observe_all h s (b :: l) = observe_all (observe_data h s b).1 (observe_data h s b).2 l.
Proof. unfold observe_all; cbn [foldl fst snd]. by rewrite <- surjective_pairing. Qed.

(** Feeding a line and its terminator is observing the line's bytes and
    finishing the line. *)
Lemma head_line l t : forall p h s rest,
  pending_cr h = false -> 0 <= bytes_seen h ->
  10 ∉ l -> (t = Lf -> last (pending_bytes p ++ l) <> Some 13) ->
  bytes_seen h + Z.of_nat (length l + length (term_bytes t)) <= max_bytes h <= umax 64 ->
  head_run (set_pending_cr h p) s (l ++ term_bytes t ++ rest)
  = after_line (observe_all (bump h (length l + length (term_bytes t))) s (pending_bytes p ++ l)) rest.
Proof.
  induction l as [|b l IH]; intros p h s rest Hp H0 Hlf Hcr Hb.
  - destruct t; simpl in *.
    + rewrite step_lf by (done || lia). destruct p; simpl in *; [by destruct Hcr|].
      unfold after_line; simpl. by destruct (finish_line (bump h 1) s) as [[? ?] []].
    + destruct p; simpl.
      * rewrite step_pending by (done || lia).
        pose proof (observe_data_frame h s 13) as F.
        rewrite observe_all_cons, observe_data_bump.
        destruct (observe_data h s 13) as [h1 s1]; cbn [fst snd]. destruct F as (F1 & F2 & F3 & _).
        rewrite step_cr by (congruence || lia).
        rewrite step_lf by (cbn; congruence || lia). rewrite bump_bump.
        unfold after_line; simpl. by destruct (finish_line (bump h1 2) s1) as [[? ?] []].
      * rewrite set_pending_false, step_cr by (done || lia).
        rewrite step_lf by (cbn; congruence || lia). rewrite bump_bump.
        unfold after_line; simpl. by destruct (finish_line (bump h 2) s) as [[? ?] []].
  - apply not_elem_of_cons in Hlf as [Hb10 Hlf]. cbn [app length] in *.
    assert (Hlast : forall q, pending_bytes q = [] \/ pending_bytes q = [13] ->
              (t = Lf -> last (b :: l) <> Some 13)).
    { intros q _ Ht. specialize (Hcr Ht). destruct p; simpl in *; done. }
    assert (Hmain : forall h s, pending_cr h = false -> 0 <= bytes_seen h ->
              bytes_seen h + Z.of_nat (S (length l + length (term_bytes t))) <= max_bytes h <= umax 64 ->
              head_run h s (b :: l ++ term_bytes t ++ rest)
              = after_line (observe_all (bump h (S (length l + length (term_bytes t)))) s (b :: l)) rest).
    { clear h s Hp H0 Hb. intros h s Hp H0 Hb. cbn [head_run].
      destruct (Z.eq_dec b 13) as [->|H13].
      - rewrite step_cr by (done || lia). rewrite IH; cbn; try done; try lia.
        + by rewrite bump_bump.
        + intros Ht. by specialize (Hlast true (or_intror eq_refl) Ht).
      - rewrite step_data by (done || lia). rewrite observe_data_bump; cbn [fst snd].
        rewrite observe_all_cons, observe_data_bump; cbn [fst snd].
        pose proof (observe_data_frame h s b) as F.
        destruct (observe_data h s b) as [h1 s1]; cbn [fst snd]. destruct F as (F1 & F2 & F3 & _).
        rewrite <- (set_pending_false (bump h1 1)) by (cbn; congruence).
        rewrite IH; cbn; try done; try lia; [|congruence|].
        + rewrite bump_bump. done.
        + intros Ht. specialize (Hlast false (or_introl eq_refl) Ht). by destruct l. }
    destruct p.
    + cbn [head_run]. rewrite step_pending by (done || lia).
      pose proof (observe_data_frame h s 13) as F. cbn [pending_bytes app].
      rewrite observe_all_cons, observe_data_bump; cbn [fst snd].
      destruct (observe_data h s 13) as [h1 s1]; cbn [fst snd]. destruct F as (F1 & F2 & F3 & _).
      rewrite <- Hmain by (congruence || lia). done.
    + rewrite set_pending_false by done. by apply Hmain.
Qed.

(** ** Header lines *)

(** What is remembered across header lines. *)
Record fields_seen := Seen {
  has_cl : bool;
  has_te : bool;
  canonical : option Z;
  lengths_valid : bool;
}.

Definition no_fields : fields_seen := Seen false false None true.

Definition see_line (a : fields_seen) (line : bytes) : fields_seen :=
  if has_cl a && has_te a then a
  else if is_content_length line then
    if has_te a then Seen true true (canonical a) (lengths_valid a)
    else match parse_content_length (field_value line) with
         | Some v =>
           if match canonical a with None => true | Some c => c =? v end
           then Seen true false (Some v) (lengths_valid a)
           else Seen true false (canonical a) false
         | None => Seen true false (canonical a) false
         end
  else if is_transfer_encoding line then Seen (has_cl a) true (canonical a) (lengths_valid a)
  else a.

(** The conflicting-lengths hint of a header line. *)
Definition line_hint (a : fields_seen) (line : bytes) : Z :=
  if negb (has_te a) && is_content_length line then
    match parse_content_length (field_value line), canonical a with
    | Some v, Some c => if c =? v then 0 else PARSE_HINT_CONFLICTING_CONTENT_LENGTH
    | _, _ => 0
    end
  else 0.

Definition te_hint (v10 : bool) (a : fields_seen) : Z :=
  if v10 && has_te a then PARSE_HINT_HTTP10_TRANSFER_ENCODING else 0.

(** The scanner at the start of a header line, having seen [n] bytes. *)
Record at_line (max n : Z) (v10 : bool) (a : fields_seen) (h : HeadScanner) : Prop := {
  at_max : max_bytes h = max;
  at_seen : bytes_seen h = n;
  at_request : request_line h = false;
  at_data : line_has_data h = false;
  at_pending : pending_cr h = false;
  at_current : current_header h = Name;
  at_name : name_len h = 0;
  at_cl_cand : content_length_candidate h = true;
  at_te_cand : transfer_encoding_candidate h = true;
  at_cl : seen_content_length h = has_cl a;
  at_te : seen_transfer_encoding h = has_te a;
  at_canon : canonical_content_length h = canonical a;
  at_valid : content_length_valid h = lengths_valid a;
  at_conflict : conflict h = has_cl a && has_te a;
  at_v10 : http10_request h = v10;
}.

Lemma observe_all_headers h s l :
  request_line h = false -> observe_all h s l = (foldl observe_line_byte h l, s).
Proof.
  revert h; induction l as [|b l IH]; intros h Hr; [done|].
  rewrite observe_all_cons. pose proof (observe_data_frame h s b) as F.
  unfold observe_data in *; cbn [fst snd] in *. destruct F as (_ & _ & _ & F).
  unfold store_utf8_hint_if_invalid. rewrite F, Hr. simpl. apply IH. congruence.
Qed.

Lemma set_data_true h : line_has_data h = true -> set_line_has_data h true = h.
Proof. destruct h; cbn. by intros ->. Qed.

(** Bytes after the decision is settled, or in a value nobody reads, change nothing. *)
Lemma fold_ignored h l :
  request_line h = false -> line_has_data h = true ->
  conflict h = true \/ current_header h = Other ->
  foldl observe_line_byte h l = h.
Proof.
  intros Hr Hd Hc. induction l as [|b l IH]; [done|]. simpl.
  replace (observe_line_byte h b) with h; [done|].
  pose proof (set_data_true h Hd) as E.
  unfold observe_line_byte. rewrite E, Hr. destruct (conflict h); [done|].
  destruct Hc as [|Hc]; [done|]. by rewrite Hc.
Qed.

Lemma fold_value h l :
  request_line h = false -> line_has_data h = true -> conflict h = false ->
  current_header h = ContentLength ->
  foldl observe_line_byte h l
  = set_content_length_value h (foldl cl_observe (content_length_value h) l).
Proof.
  revert h; induction l as [|b l IH]; intros h Hr Hd Hc Hh; simpl.
  { by destruct h. }
  pose proof (set_data_true h Hd) as E.
  unfold observe_line_byte at 2. rewrite E, Hr, Hc, Hh. by rewrite IH by done.
Qed.

(** Header-name matching, one byte at a time. *)
Fixpoint matches_from (pattern : bytes) (i : Z) (name : bytes) : bool :=
  match name with
  | [] => true
  | b :: name => pattern_byte_matches pattern i b && matches_from pattern (i + 1) name
  end.

Lemma matches_from_spec pattern name : forall i : nat,
  (i <= length pattern)%nat ->
  matches_from pattern (Z.of_nat i) name
    && (Z.of_nat i + Z.of_nat (length name) =? Z.of_nat (length pattern))
  = eq_ignore_ascii_case (drop i pattern) name.
Proof.
  unfold eq_ignore_ascii_case.
  induction name as [|b name IH]; intros i Hi; cbn [matches_from length].
  - destruct (drop i pattern) as [|c r] eqn:Ed; simpl;
      apply (f_equal length) in Ed; rewrite length_drop in Ed; simpl in Ed;
      [apply Z.eqb_eq; lia|apply Z.eqb_neq; lia].
  - unfold pattern_byte_matches. rewrite Nat2Z.id.
    destruct (pattern !! i) as [c|] eqn:Hc.
    + rewrite (drop_S pattern c i Hc). cbn [map eqb_bytes].
      apply lookup_lt_Some in Hc. rewrite <- IH by lia.
      rewrite <- andb_assoc. unfold eq_ignore_ascii_case1. f_equal. f_equal; [f_equal; lia|].
      f_equal; lia.
    + apply lookup_ge_None in Hc. rewrite drop_ge by done. done.
Qed.

Lemma fold_name name : forall h,
  request_line h = false -> line_has_data h = true -> conflict h = false ->
  current_header h = Name -> 58 ∉ name ->
  0 <= name_len h -> name_len h + Z.of_nat (length name) <= umax 64 ->
  foldl observe_line_byte h name
  = set_name h
      (content_length_candidate h && matches_from content_length_name (name_len h) name)
      (transfer_encoding_candidate h && matches_from transfer_encoding_name (name_len h) name)
      (name_len h + Z.of_nat (length name)).
Proof.
  induction name as [|b name IH]; intros h Hr Hd Hc Hh Hcol H0 Hlen; cbn [foldl length matches_from].
  { rewrite !andb_true_r, Z.add_0_r. by destruct h. }
  apply not_elem_of_cons in Hcol as [Hb Hcol].
  pose proof (set_data_true h Hd) as E.
  unfold observe_line_byte at 2. rewrite E, Hr, Hc, Hh.
  destruct (Z.eqb_spec b 58); [congruence|].
  cbn [length] in Hlen. rewrite saturating_add_small by lia.
  rewrite IH; cbn; try done; try lia.
  rewrite <- !andb_assoc.
  replace (name_len h + 1 + Z.of_nat (length name)) with (name_len h + Z.of_nat (S (length name))) by lia.
  done.
Qed.

#[local] Opaque content_length_name transfer_encoding_name.

Lemma split_colon_spec line :
  match split_colon line with
  | Some (n, v) => line = n ++ 58 :: v /\ 58 ∉ n
  | None => 58 ∉ line
  end.
Proof.
  induction line as [|b l IH]; simpl; [set_solver|].
  destruct (Z.eqb_spec b 58) as [->|Hb]; [split; [done|set_solver]|].
  destruct (split_colon l) as [[n v]|]; [destruct IH as [-> ?]|]; set_solver.
Qed.

Lemma fold_nonempty h l :
  l <> [] -> foldl observe_line_byte h l = foldl observe_line_byte (set_line_has_data h true) l.
Proof. by destruct l. Qed.

(** The scanner at the colon that ends a field name. *)
Lemma fold_name_colon h name :
  request_line h = false -> line_has_data h = true -> conflict h = false ->
  current_header h = Name -> name_len h = 0 ->
  content_length_candidate h = true -> transfer_encoding_candidate h = true ->
  58 ∉ name -> Z.of_nat (length name) <= umax 64 ->
  exists cl te n,
    foldl observe_line_byte h (name ++ [58])
    = if eq_ignore_ascii_case content_length_name name then
        set_conflict (begin_content_length (set_name h cl te n)) (seen_transfer_encoding h)
      else if eq_ignore_ascii_case transfer_encoding_name name then
        set_conflict (set_seen_transfer_encoding (set_current_header (set_name h cl te n) Other) true)
          (seen_content_length h)
      else
        set_conflict (set_current_header (set_name h cl te n) Other)
          (seen_content_length h && seen_transfer_encoding h).
Proof.
  intros Hr Hd Hc Hh Hn Hcl Hte Hcol Hlen. do 3 eexists.
  rewrite foldl_app, (fold_name name) by (done || lia). cbn [foldl].
  rewrite Hn, Hcl, Hte, !andb_true_l, Z.add_0_l.
  unfold observe_line_byte. rewrite set_data_true by done. cbn -[observe_colon].
  rewrite Hr, Hc, Hh. unfold observe_colon.
  cbn -[Z.eqb Z.of_nat length matches_from content_length_name transfer_encoding_name].
  pose proof (matches_from_spec content_length_name name 0 ltac:(lia)) as M1.
  pose proof (matches_from_spec transfer_encoding_name name 0 ltac:(lia)) as M2.
  rewrite Z.add_0_l in M1, M2. rewrite drop_0 in M1, M2.
  change (Z.of_nat 0) with 0 in M1, M2. rewrite M1.
  destruct (eq_ignore_ascii_case content_length_name name); [done|].
  rewrite M2. destruct (eq_ignore_ascii_case transfer_encoding_name name); cbn; [|done].
  by rewrite andb_true_r.
Qed.

(** [finish_line] on a non-empty header line. *)
Lemma finish_header h s :
  line_has_data h = true -> request_line h = false ->
  finish_line h s
  = let '(h, s) :=
      match current_header h with
      | ContentLength => if conflict h then (h, s) else finish_content_length h s
      | _ => (h, s)
      end in
    (reset_line h, store_http10_hint h s, HeadContinue).
Proof. intros Hd Hr. unfold finish_line. by rewrite Hd, Hr. Qed.

Lemma store_http10_te v10 a h s :
  http10_request h = v10 -> seen_transfer_encoding h = has_te a ->
  store_http10_hint h s = store_parse_reject_hint s (te_hint v10 a).
Proof.
  intros E1 E2. unfold store_http10_hint, te_hint. rewrite E1, E2. by destruct (v10 && has_te a).
Qed.

Definition line_done max n v10 a line s (r : HeadScanner * H1FramingSignals * HeadStep) : Prop :=
  exists h',
    r = (h', store_parse_reject_hint (store_parse_reject_hint s (line_hint a line))
               (te_hint v10 (see_line a line)), HeadContinue)
    /\ at_line max n v10 (see_line a line) h'.

Lemma header_line_content_length max n v10 a h s line name v :
  at_line max n v10 a h -> split_colon line = Some (name, v) ->
  has_cl a && has_te a = false ->
  eq_ignore_ascii_case content_length_name name = true ->
  Z.of_nat (length line) <= umax 64 ->
  line_done max n v10 a line s (finish_line (foldl observe_line_byte h line) s).
Proof.
  intros Hat Hsp Hnc Hcl Hlen. pose proof (split_colon_spec line) as Sp. rewrite Hsp in Sp.
  destruct Sp as [-> Hcol]. rewrite fold_nonempty by (by destruct name).
  rewrite length_app in Hlen; cbn in Hlen.
  assert (Eis : is_content_length (name ++ 58 :: v) = true)
    by (unfold is_content_length, field_named; by rewrite Hsp).
  assert (Ev : field_value (name ++ 58 :: v) = v) by (unfold field_value; by rewrite Hsp).
  unfold line_done, see_line, line_hint. rewrite Hnc, Eis, Ev. clear Hsp Eis Ev.
  destruct Hat. rewrite (app_assoc name [58] v : name ++ 58 :: v = _), foldl_app.
  destruct (fold_name_colon (set_line_has_data h true) name) as (cl & te & m & E);
    cbn; try done; try lia; [by rewrite at_conflict0|].
  rewrite E, Hcl. clear E. cbn -[finish_line]. rewrite at_te0.
  destruct (has_te a) eqn:Ete.
  - rewrite fold_ignored by (cbn; auto). rewrite finish_header by done. cbn.
    eexists; split; [f_equal; f_equal; by apply store_http10_te|].
    constructor; cbn; try done. 
  - rewrite fold_value by (cbn; auto). rewrite finish_header by done. cbn -[finish_content_length].
    unfold finish_content_length; cbn -[foldl]. rewrite cl_scanner_spec, at_canon0.
    destruct (parse_content_length v) as [w|]; cbn;
      [destruct (canonical a) as [c|]; [destruct (Z.eqb_spec c w) as [->|]|]|];
      (eexists; split; [f_equal; f_equal; apply store_http10_te; cbn; done|constructor; cbn; done]).
Qed.

Lemma header_line_done max n v10 a h s line :
  at_line max n v10 a h -> line <> [] -> Z.of_nat (length line) <= umax 64 ->
  line_done max n v10 a line s (finish_line (foldl observe_line_byte h line) s).
Proof.
  intros Hat Hne Hlen. pose proof (split_colon_spec line) as Sp.
  destruct (has_cl a && has_te a) eqn:Hconf.
  { destruct Hat. rewrite fold_nonempty, fold_ignored by (done || left; cbn; congruence).
    rewrite finish_header by done. unfold line_done, see_line. rewrite Hconf.
    apply andb_true_iff in Hconf as [_ Hte]. unfold line_hint. rewrite Hte. cbn. rewrite at_current0.
    eexists; split; [f_equal; f_equal; by apply store_http10_te|]. constructor; cbn; congruence. }
  destruct (split_colon line) as [[name v]|] eqn:Hsp.
  - destruct Sp as [El Hcol].
    destruct (eq_ignore_ascii_case content_length_name name) eqn:Hcl;
      [by eapply header_line_content_length|].
    assert (Eis : is_content_length line = false)
      by (unfold is_content_length, field_named; by rewrite Hsp).
    assert (Ete : is_transfer_encoding line = eq_ignore_ascii_case transfer_encoding_name name)
      by (unfold is_transfer_encoding, field_named; by rewrite Hsp).
    unfold line_done, see_line, line_hint. rewrite Hconf, Eis, Ete, andb_false_r.
    clear Hsp Eis Ete. subst line. rewrite length_app in Hlen; cbn in Hlen.
    destruct Hat. rewrite fold_nonempty by done.
    rewrite (app_assoc name [58] v : name ++ 58 :: v = _), foldl_app.
    destruct (fold_name_colon (set_line_has_data h true) name) as (cl & te & m & E);
      cbn; try done; try lia; [by rewrite at_conflict0|].
    rewrite E, Hcl. clear E. cbn -[finish_line]. rewrite at_te0, at_cl0.
    destruct (eq_ignore_ascii_case transfer_encoding_name name);
      rewrite fold_ignored by (cbn; auto); rewrite finish_header by done; cbn;
      (eexists; split; [f_equal; f_equal; by apply store_http10_te|
        constructor; cbn; try done; by rewrite ?andb_true_r]).
  - assert (Eis : is_content_length line = false)
      by (unfold is_content_length, field_named; by rewrite Hsp).
    assert (Ete : is_transfer_encoding line = false)
      by (unfold is_transfer_encoding, field_named; by rewrite Hsp).
    destruct Hat. rewrite fold_nonempty, fold_name by (cbn; done || lia || congruence).
    rewrite finish_header by done. unfold line_done, see_line, line_hint.
    rewrite Hconf, Eis, Ete, andb_false_r. cbn. rewrite at_current0.
    eexists; split; [f_equal; f_equal; by apply store_http10_te|]. constructor; cbn; congruence.
Qed.

(** ** From remembered fields to the reference *)

Lemma eqb_bytes_length a b : eqb_bytes a b = true -> length a = length b.
Proof. by intros ->%eqb_bytes_spec. Qed.

Lemma field_names_exclusive line : is_content_length line = true -> is_transfer_encoding line = false.
Proof.
  unfold is_content_length, is_transfer_encoding, field_named, eq_ignore_ascii_case.
  destruct (split_colon line) as [[n v]|]; [|done]. intros H%eqb_bytes_length.
  destruct (eqb_bytes _ _) eqn:E; [|done]. apply eqb_bytes_length in E.
  rewrite !length_map in *. rewrite <- H in E. vm_compute in E. done.
Qed.

Abbreviation see_lines := (foldl see_line).

Lemma see_lines_flags hs :
  has_cl (see_lines no_fields hs) = existsb is_content_length hs
  /\ has_te (see_lines no_fields hs) = existsb is_transfer_encoding hs.
Proof.
  induction hs as [|l hs [IHc IHt]] using rev_ind; [done|].
  rewrite foldl_app, !existsb_app; simpl. rewrite !orb_false_r, <- IHc, <- IHt.
  set (a := see_lines no_fields hs). clearbody a. unfold see_line.
  destruct (has_cl a) eqn:Ec, (has_te a) eqn:Et; simpl;
    destruct (is_content_length l) eqn:El; rewrite ?(field_names_exclusive _ El), ?orb_true_r; simpl;
    repeat case_match; simpl; auto; congruence.
Qed.

Lemma content_lengths_snoc hs l :
  content_lengths (hs ++ [l])
  = content_lengths hs
    ++ if is_content_length l then [parse_content_length (field_value l)] else [].
Proof.
  unfold content_lengths. rewrite filter_app, map_app. f_equal.
  rewrite filter_cons, filter_nil. destruct (is_content_length l) eqn:E.
  - by rewrite decide_True.
  - by rewrite decide_False by congruence.
Qed.

Lemma see_lines_lengths hs :
  existsb is_transfer_encoding hs = false ->
  canonical (see_lines no_fields hs) = head (omap id (content_lengths hs))
  /\ (lengths_valid (see_lines no_fields hs) = true <->
      Forall (fun w => w <> None /\ w = canonical (see_lines no_fields hs)) (content_lengths hs)).
Proof.
  induction hs as [|l hs IH] using rev_ind.
  { intros _. split; [done|]. simpl. split; [constructor|done]. }
  rewrite existsb_app, orb_false_iff; simpl. rewrite orb_false_r. intros [Hte Hl].
  destruct (IH Hte) as [IHc IHv]. destruct (see_lines_flags hs) as [_ Et]. rewrite Hte in Et.
  rewrite content_lengths_snoc, foldl_app, omap_app, Forall_app. simpl.
  revert IHc IHv Et. generalize (see_lines no_fields hs); intros a IHc IHv Et.
  unfold see_line. rewrite Et, Hl, andb_false_r.
  destruct (is_content_length l); [|by rewrite !app_nil_r, Forall_nil; naive_solver].
  destruct (parse_content_length (field_value l)) as [w|]; simpl.
  - destruct (canonical a) as [c|] eqn:Ec; simpl.
    + destruct (omap id (content_lengths hs)) as [|c' cs] eqn:Eo; simplify_eq/=.
      destruct (Z.eqb_spec c' w) as [->|Hne]; simpl.
      * split; [done|]. rewrite IHv, Forall_singleton. naive_solver.
      * split; [done|]. rewrite Forall_singleton. naive_solver.
    + destruct (omap id (content_lengths hs)) as [|c' cs] eqn:Eo; simplify_eq/=.
      split; [done|]. rewrite IHv, Forall_singleton.
      destruct (content_lengths hs) as [|[x|] vs]; simplify_eq/=; [|rewrite !Forall_cons; tauto].
      rewrite !Forall_nil. split; [split; [done|by split]|done].
  - rewrite app_nil_r. split; [done|]. rewrite Forall_singleton. naive_solver.
Qed.

(** The framing the scanner announces from what it remembers. *)
Definition framing_of (a : fields_seen) : BodyFraming :=
  if has_te a then BodyChunked
  else if negb (lengths_valid a) then BodyInvalid
  else match canonical a with
       | Some length => if length =? 0 then BodyNone else BodyFixed length
       | None => BodyNone
       end.

Lemma framing_of_spec hs : framing_of (see_lines no_fields hs) = head_framing hs.
Proof.
  destruct (see_lines_flags hs) as [_ Et]. unfold framing_of, head_framing. rewrite Et.
  destruct (existsb is_transfer_encoding hs) eqn:Hte; [done|].
  destruct (see_lines_lengths hs Hte) as [Hc Hv].
  revert Hc Hv. generalize (see_lines no_fields hs); intros a Hc Hv.
  destruct (content_lengths hs) as [|v vs]; simpl in *.
  { rewrite Hc. replace (lengths_valid a) with true; [done|]. symmetry. by apply Hv. }
  rewrite Forall_cons in Hv. destruct (lengths_valid a); simpl.
  - destruct Hv as [[[Hn Hv] Hvs] _]; [done|]. rewrite <- Hv in *.
    replace (forallb _ vs) with true; [by destruct v|].
    symmetry. apply forallb_forall. intros w Hw%list_elem_of_In.
    rewrite Forall_forall in Hvs. apply bool_decide_eq_true. by apply Hvs.
  - destruct (forallb (fun w => bool_decide (w = v)) vs) eqn:Ha; [|done].
    destruct v as [n|]; [|done]. exfalso. assert (false = true); [|done]. apply Hv.
    simpl in Hc. rewrite Hc. split; [done|]. apply Forall_forall. intros w Hw%list_elem_of_In.
    rewrite forallb_forall in Ha. specialize (Ha w Hw). apply bool_decide_eq_true in Ha. by subst.
Qed.

(** The hints a head stores, in order; the first one counts. *)
Fixpoint run_hint (v10 : bool) (a : fields_seen) (hs : list bytes) : Z :=
  match hs with
  | [] => te_hint v10 a
  | l :: rest =>
    if line_hint a l =? 0 then
      let a := see_line a l in
      if te_hint v10 a =? 0 then run_hint v10 a rest else te_hint v10 a
    else line_hint a l
  end.

Definition disagree_from (c : option Z) (hs : list bytes) : bool :=
  match c with
  | None => lengths_disagree hs
  | Some v => negb (forallb (Z.eqb v) (omap id (content_lengths hs)))
  end.

Lemma run_hint_te hs : forall a, has_te a = true -> run_hint false a hs = 0.
Proof.
  induction hs as [|l hs IH]; intros a Ha; simpl; [done|].
  unfold line_hint. rewrite Ha. simpl. apply IH. unfold see_line. rewrite Ha.
  by repeat case_match.
Qed.

Lemma content_lengths_cons l hs :
  content_lengths (l :: hs)
  = if is_content_length l then parse_content_length (field_value l) :: content_lengths hs
    else content_lengths hs.
Proof.
  unfold content_lengths. rewrite filter_cons. destruct (is_content_length l) eqn:E.
  - by rewrite decide_True.
  - by rewrite decide_False by congruence.
Qed.

Lemma te_hint_none v10 a : has_te a = false -> te_hint v10 a = 0.
Proof. intros E. unfold te_hint. by rewrite E, andb_false_r. Qed.

Lemma run_hint_spec v10 hs : forall a, has_te a = false ->
  run_hint v10 a hs
  = if disagree_from (canonical a) (before_te hs) then PARSE_HINT_CONFLICTING_CONTENT_LENGTH
    else if v10 && existsb is_transfer_encoding hs then PARSE_HINT_HTTP10_TRANSFER_ENCODING else 0.
Proof.
  induction hs as [|l hs IH]; intros a Ha; simpl.
  { rewrite te_hint_none, andb_false_r by done. by destruct (canonical a). }
  unfold line_hint, see_line. rewrite Ha, andb_false_r. simpl.
  destruct (is_content_length l) eqn:Hcl.
  - rewrite (field_names_exclusive _ Hcl). simpl.
    unfold disagree_from, lengths_disagree. rewrite content_lengths_cons, Hcl. simpl.
    destruct (parse_content_length (field_value l)) as [w|]; simpl.
    + destruct (canonical a) as [c|]; simpl;
        [destruct (Z.eqb_spec c w) as [->|]; simpl; [|done]|];
        by rewrite te_hint_none, IH by done.
    + rewrite te_hint_none, IH by done. done.
  - destruct (is_transfer_encoding l) eqn:Hte; simpl.
    + replace (disagree_from (canonical a) []) with false by (by destruct (canonical a)).
      rewrite andb_true_r. destruct v10; simpl; [done|]. by apply run_hint_te.
    + rewrite te_hint_none, IH by done. simpl.
      unfold disagree_from, lengths_disagree. by rewrite content_lengths_cons, Hcl.
Qed.

(** ** The request line *)

Definition tail_step (t : bytes * nat) (b : Z) : bytes * nat :=
  if (snd t <? length (fst t))%nat then (<[snd t := b]> (fst t), S (snd t))
  else (drop 1 (fst t) ++ [b], snd t).

Definition tail_of (l : bytes) : bytes * nat := foldl tail_step (replicate 12 0, 0%nat) l.

(** The tail buffer holds the line, zero padded, or its last twelve bytes. *)
Lemma tail_of_spec l :
  tail_of l = if (length l <=? 12)%nat then (l ++ replicate (12 - length l) 0, length l)
              else (drop (length l - 12) l, 12%nat).
Proof.
  unfold tail_of. induction l as [|b l IH] using rev_ind; [done|].
  rewrite foldl_app, IH, length_app; cbn [length foldl]. clear IH.
  destruct (Nat.leb_spec (length l) 12) as [Hle|Hgt]; unfold tail_step; cbn [fst snd].
  - rewrite length_app, length_replicate.
    destruct (Nat.ltb_spec (length l) (length l + (12 - length l))).
    + destruct (Nat.leb_spec (length l + 1) 12); [|lia]. f_equal; [|lia].
      replace (12 - length l)%nat with (S (12 - (length l + 1))) by lia. cbn [replicate].
      by rewrite insert_app_r_alt, Nat.sub_diag, <- app_assoc by lia.
    + destruct (Nat.leb_spec (length l + 1) 12); [lia|].
      replace (12 - length l)%nat with 0%nat by lia. cbn [replicate]. rewrite app_nil_r.
      f_equal; [|lia]. rewrite drop_app_le by lia. f_equal. f_equal. lia.
  - rewrite length_drop.
    destruct (Nat.ltb_spec 12 (length l - (length l - 12))); [lia|].
    destruct (Nat.leb_spec (length l + 1) 12); [lia|].
    rewrite drop_drop. f_equal. rewrite drop_app_le by lia. f_equal. f_equal. lia.
Qed.

Lemma last_byte_mismatch w :
  w !! 7%nat = Some 0 -> eq_ignore_ascii_case w HTTP_10_VERSION = false.
Proof.
  intros Hw. destruct (eq_ignore_ascii_case w HTTP_10_VERSION) eqn:E; [|done].
  apply eqb_bytes_spec in E. apply (f_equal (fun l => l !! 7%nat)) in E.
  change (map ?f w !! 7%nat) with ((f <$> w) !! 7%nat) in E.
  rewrite list_lookup_fmap, Hw in E. by vm_compute in E.
Qed.

(** Zero padding never matches the version. *)
Lemma windows_padding l k :
  existsb (fun w => eq_ignore_ascii_case w HTTP_10_VERSION) (windows 8 (l ++ replicate k 0))
  = existsb (fun w => eq_ignore_ascii_case w HTTP_10_VERSION) (windows 8 l).
Proof.
  apply eq_bool_prop_intro. rewrite !Is_true_true, !existsb_exists.
  unfold windows. split; intros (w & Hw & Em);
    apply list_elem_of_In, list_elem_of_In, in_map_iff in Hw as (i & <- & Hi%in_seq).
  - rewrite length_app, length_replicate in Hi.
    destruct (decide (i + 8 <= length l)%nat) as [Hin|Hout].
    + exists (take 8 (drop i l)). split.
      * apply in_map_iff. exists i. split; [done|]. apply in_seq. lia.
      * rewrite drop_app_le, take_app_le in Em by (rewrite ?length_drop; lia). done.
    + exfalso. rewrite last_byte_mismatch in Em; [done|].
      rewrite lookup_take_lt, lookup_drop, lookup_app_r by lia. apply lookup_replicate. lia.
  - exists (take 8 (drop i (l ++ replicate k 0))). split.
    + apply in_map_iff. exists i. split; [done|]. apply in_seq. rewrite length_app. lia.
    + rewrite drop_app_le, take_app_le by (rewrite ?length_drop; lia). done.
Qed.

Lemma http10_tail l :
  existsb (fun w => eq_ignore_ascii_case w HTTP_10_VERSION)
    (windows (length HTTP_10_VERSION) (fst (tail_of l)))
  = http10_line l.
Proof.
  unfold http10_line. change (length HTTP_10_VERSION) with 8%nat. rewrite tail_of_spec.
  destruct (Nat.leb_spec (length l) 12); cbn [fst]; [|done].
  replace (length l - 12)%nat with 0%nat by lia. apply windows_padding.
Qed.

(** The scanner inside the request line, after the bytes [l]. *)
Definition in_request (h : HeadScanner) (l : bytes) : HeadScanner :=
  set_tail (set_request_line_utf8 (set_line_has_data h (bool_decide (l <> [])))
              (foldl utf8_observe new_line_utf8 l))
    (fst (tail_of l)) (snd (tail_of l)).

Definition fresh_head (h : HeadScanner) : Prop :=
  exists max n, h = set_bytes_seen (new_head max) n.

Lemma utf8_invalid_sticky u b : invalid u = true -> invalid (utf8_observe u b) = true.
Proof. intros E. unfold utf8_observe. by rewrite E. Qed.

Lemma observe_all_request h s l :
  fresh_head h ->
  observe_all h s l
  = (in_request h l,
     store_parse_reject_hint s
       (if invalid (foldl utf8_observe new_line_utf8 l)
        then PARSE_HINT_INVALID_REQUEST_TARGET_UTF8 else 0)).
Proof.
  intros (max & n & ->). induction l as [|b l IH] using rev_ind; [done|].
  unfold observe_all in *. rewrite foldl_app, IH. clear IH. cbn [foldl fst snd].
  unfold in_request, tail_of. rewrite !foldl_app; cbn [foldl].
  rewrite (bool_decide_eq_true_2 (l ++ [b] <> [])) by (by destruct l).
  set (u := foldl utf8_observe new_line_utf8 l). destruct (foldl tail_step _ l) as [t k].
  unfold observe_data, observe_line_byte, observe_request_byte, store_utf8_hint_if_invalid, tail_step.
  cbn -[utf8_observe store_parse_reject_hint Nat.ltb].
  destruct (k <? length t)%nat; cbn -[utf8_observe store_parse_reject_hint Nat.ltb].
  all: f_equal; destruct (invalid u) eqn:Eu;
    [rewrite utf8_invalid_sticky by done; by rewrite store_store|].
  all: rewrite store_none; by destruct (invalid (utf8_observe u b)).
Qed.

Lemma request_line_done h s l :
  fresh_head h -> l <> [] -> pending_cr h = false ->
  exists h',
    finish_line (in_request h l)
      (store_parse_reject_hint s
         (if invalid (foldl utf8_observe new_line_utf8 l)
          then PARSE_HINT_INVALID_REQUEST_TARGET_UTF8 else 0))
    = (h', store_parse_reject_hint s
             (if bool_decide (is_str l) then 0 else PARSE_HINT_INVALID_REQUEST_TARGET_UTF8),
       HeadContinue)
    /\ at_line (max_bytes h) (bytes_seen h) (http10_line l) no_fields h'.
Proof.
  intros (max & n & ->) Hne Hp. destruct (line_utf8_spec l) as [Hok Hinv].
  unfold finish_line, in_request. rewrite bool_decide_eq_true_2 by done.
  cbn -[finish_request_line store_parse_reject_hint].
  unfold finish_request_line. cbn -[store_parse_reject_hint windows utf8_finish_ok length].
  rewrite http10_tail, Hok. eexists; split.
  - f_equal. f_equal. unfold store_http10_hint.
    cbn -[store_parse_reject_hint]. rewrite andb_false_r.
    destruct (bool_decide_reflect (is_str l)) as [Hs|Hs].
    + destruct (invalid _); [by destruct (Hinv eq_refl)|done].
    + rewrite store_store. by destruct (invalid _).
  - constructor; cbn; done.
Qed.

(** ** Whole heads *)

Lemma head_line' l t h s rest :
  pending_cr h = false -> 0 <= bytes_seen h -> line_ok (l, t) ->
  bytes_seen h + Z.of_nat (length (encode_line (l, t))) <= max_bytes h <= umax 64 ->
  head_run h s (encode_line (l, t) ++ rest)
  = after_line (observe_all (bump h (length (encode_line (l, t)))) s l) rest.
Proof.
  intros Hp H0 [Hl Ht] Hb. unfold encode_line in *; cbn [fst snd] in *.
  rewrite length_app in *. rewrite <- app_assoc.
  rewrite <- (set_pending_false h) at 1 by done. by rewrite head_line.
Qed.

Lemma blank_lines ts : forall max n s rest,
  0 <= n -> n + Z.of_nat (length (concat (map term_bytes ts))) <= max <= umax 64 ->
  head_run (set_bytes_seen (new_head max) n) s (concat (map term_bytes ts) ++ rest)
  = head_run (set_bytes_seen (new_head max)
                (n + Z.of_nat (length (concat (map term_bytes ts))))) s rest.
Proof.
  induction ts as [|t ts IH]; intros max n s rest Hn Hb; cbn [map concat] in *.
  { cbn [length app]. by rewrite Z.add_0_r. }
  rewrite length_app in *. rewrite <- app_assoc.
  rewrite (head_line' [] t _ s (concat (map term_bytes ts) ++ rest)); cbn; try done; try lia;
    [|by split; [set_solver|]].
  unfold after_line; cbn -[new_head]. change (bump (set_bytes_seen (new_head max) n) ?k)
    with (set_bytes_seen (new_head max) (n + Z.of_nat k)). cbn -[head_run].
  change (Head max ?m true _ _ _ _ _ _ _ _ _ _ _ _ _ _ _ _) with (set_bytes_seen (new_head max) m).
  rewrite IH by lia. do 2 f_equal. lia.
Qed.

(** A run of header lines; [s] already holds what [a] calls for. *)
Lemma header_lines hs : forall max n v10 a h s rest,
  at_line max n v10 a h -> 0 <= n ->
  Forall (fun l => line_ok l /\ fst l <> []) hs ->
  n + Z.of_nat (length (concat (map encode_line hs))) <= max <= umax 64 ->
  store_parse_reject_hint s (te_hint v10 a) = s ->
  exists h',
    head_run h s (concat (map encode_line hs) ++ rest)
    = head_run h' (store_parse_reject_hint s (run_hint v10 a (map fst hs))) rest
    /\ at_line max (n + Z.of_nat (length (concat (map encode_line hs)))) v10
         (see_lines a (map fst hs)) h'.
Proof.
  induction hs as [|[l t] hs IH]; intros max n v10 a h s rest Hat Hn Hok Hb Hs.
  { exists h. cbn. by rewrite Hs, Z.add_0_r. }
  apply Forall_cons in Hok as [[Hl Hne] Hok]. cbn [map concat fst foldl run_hint] in *.
  pose proof (at_pending _ _ _ _ _ Hat) as Hp. pose proof (at_seen _ _ _ _ _ Hat) as Hseen.
  pose proof (at_max _ _ _ _ _ Hat) as Hm.
  rewrite <- app_assoc in *. rewrite length_app in Hb |- *.
  rewrite (head_line' l t h s (concat (map encode_line hs) ++ rest)); try done;
    [|rewrite Hseen; lia|rewrite Hseen, Hm; lia].
  set (k := length (encode_line (l, t))) in *.
  assert (Hat' : at_line max (n + Z.of_nat k) v10 a (bump h k))
    by (destruct Hat; constructor; cbn; congruence).
  rewrite observe_all_headers by apply Hat'. unfold after_line; cbn [fst snd].
  assert (Z.of_nat (length l) <= umax 64).
  { subst k. unfold encode_line in Hb. rewrite length_app in Hb. cbn in Hb. lia. }
  destruct (header_line_done max (n + Z.of_nat k) v10 a (bump h k) s l) as (h' & -> & Hat''); try done.
  set (s1 := store_parse_reject_hint _ (te_hint _ _)).
  destruct (IH max (n + Z.of_nat k) v10 (see_line a l) h' s1 rest) as (h'' & E & Hat3); [done|lia|done|lia|apply store_idem|].
  rewrite E. exists h''. subst s1. rewrite !store_store. rewrite Nat2Z.inj_add, Z.add_assoc. done.
Qed.

Lemma run_hint_te_absorbed v10 hs : forall a,
  run_hint v10 a hs = 0 -> te_hint v10 (see_lines a hs) = 0.
Proof.
  induction hs as [|l hs IH]; intros a; cbn [run_hint foldl]; [done|].
  intros E. apply IH. destruct (Z.eqb_spec (line_hint a l) 0); [|done].
  by destruct (Z.eqb_spec (te_hint v10 (see_line a l)) 0).
Qed.

(** The blank line that ends a head. *)
Lemma final_line final max n v10 a h s rest :
  at_line max n v10 a h -> 0 <= n -> n + Z.of_nat (length (term_bytes final)) <= max <= umax 64 ->
  exists h',
    head_run h s (term_bytes final ++ rest)
    = (h', store_parse_reject_hint s (te_hint v10 a),
       HeadComplete (Outcome (has_cl a && has_te a) (framing_of a)), rest).
Proof.
  intros Hat Hn Hb.
  pose proof (at_pending _ _ _ _ _ Hat) as Hp. pose proof (at_seen _ _ _ _ _ Hat) as Hs.
  pose proof (at_max _ _ _ _ _ Hat) as Hm. rewrite <- Hs, <- Hm in *.
  change (term_bytes final) with (encode_line ([], final)) in *.
  rewrite head_line' by (done || by split; [set_solver|]).
  unfold after_line; cbn [observe_all foldl fst snd]. unfold finish_line.
  destruct Hat. cbn -[finish_head]. rewrite at_data0, at_request0; cbn -[finish_head].
  unfold finish_head. eexists. f_equal. f_equal; [f_equal|].
  - by apply store_http10_te.
  - cbn. f_equal. f_equal; [done|]. unfold framing_of. cbn. by rewrite at_te0, at_valid0, at_canon0.
Qed.

(** A head without its final blank line. *)
Definition head_lines (t : head_text) : bytes :=
  concat (map term_bytes (blanks t)) ++ encode_line (request t) ++ concat (map encode_line (headers t)).

Lemma encode_head_lines t : encode_head t = head_lines t ++ term_bytes (final t).
Proof. unfold encode_head, head_lines. by rewrite <- !app_assoc. Qed.

(** Before the blank line the hint is stored and nothing is decided. *)
Lemma head_lines_spec t max s rest :
  head_ok t -> Z.of_nat (length (encode_head t)) <= max <= umax 64 ->
  let hs := map fst (headers t) in
  exists h',
    head_run (new_head max) s (head_lines t ++ rest)
    = head_run h' (store_parse_reject_hint s (head_hint (fst (request t)) hs)) rest
    /\ at_line max (Z.of_nat (length (head_lines t))) (http10_line (fst (request t)))
         (see_lines no_fields hs) h'
    /\ (head_hint (fst (request t)) hs = 0 ->
        te_hint (http10_line (fst (request t))) (see_lines no_fields hs) = 0).
Proof.
  destruct t as [bl [rl rt] hds fin]. intros (Hrl & Hrne & Hhs) Hb hs.
  unfold encode_head, head_lines in *; cbn [blanks request headers final fst snd] in *.
  rewrite <- !app_assoc in *. rewrite !length_app in *.
  change (new_head max) with (set_bytes_seen (new_head max) 0).
  rewrite blank_lines by lia.
  set (h0 := set_bytes_seen _ _).
  rewrite head_line'; [|done|cbn; lia|done|cbn -[encode_line]; lia].
  set (h1 := bump h0 _).
  assert (Hf : fresh_head h1) by (by eexists _, _).
  rewrite observe_all_request by done. unfold after_line; cbn [fst snd].
  destruct (request_line_done h1 s rl Hf Hrne eq_refl) as (h2 & -> & Hat).
  set (sr := store_parse_reject_hint s _).
  assert (Eh : head_hint rl hs
    = if bool_decide (is_str rl) then run_hint (http10_line rl) no_fields hs
      else PARSE_HINT_INVALID_REQUEST_TARGET_UTF8).
  { unfold head_hint. rewrite run_hint_spec by done. by destruct (bool_decide (is_str rl)). }
  destruct (header_lines hds max (bytes_seen h1) (http10_line rl) no_fields h2 sr rest) as (h3 & E & Hat3);
    [done|cbn; lia|done|cbn -[encode_line]; lia|by unfold te_hint; rewrite andb_false_r|].
  rewrite E. exists h3. subst sr. rewrite store_store, Eh. split_and!.
  - by destruct (bool_decide (is_str rl)).
  - replace (Z.of_nat _) with (bytes_seen h1 + Z.of_nat (length (concat (map encode_line hds)))); [exact Hat3|].
    cbn -[encode_line]. lia.
  - destruct (bool_decide (is_str rl)); [|done]. apply run_hint_te_absorbed.
Qed.

(** The scanner decides every head as the reference does. *)
Lemma head_scanner_spec t max s rest :
  head_ok t -> Z.of_nat (length (encode_head t)) <= max <= umax 64 ->
  let hs := map fst (headers t) in
  exists h',
    head_run (new_head max) s (encode_head t ++ rest)
    = (h', store_parse_reject_hint s (head_hint (fst (request t)) hs),
       HeadComplete (Outcome (head_conflict hs) (head_framing hs)), rest).
Proof.
  intros Hok Hb hs.
  destruct (head_lines_spec t max s (term_bytes (final t) ++ rest) Hok Hb) as (h1 & E & Hat & Hte).
  fold hs in E, Hat, Hte. rewrite encode_head_lines, length_app in Hb. rewrite encode_head_lines, <- app_assoc, E.
  destruct (final_line (final t) max _ _ _ h1 (store_parse_reject_hint s (head_hint (fst (request t)) hs))
              rest Hat ltac:(lia) ltac:(lia)) as (h2 & E2).
  rewrite E2. exists h2. rewrite store_store. destruct (see_lines_flags hs) as [Ec Et].
  f_equal. f_equal; [f_equal; f_equal|f_equal; f_equal].
  - destruct (Z.eqb_spec (head_hint (fst (request t)) hs) PARSE_HINT_NONE) as [E0|]; [|done].
    rewrite E0. by apply Hte.
  - unfold head_conflict. by rewrite <- Ec, <- Et.
  - apply framing_of_spec.
Qed.

(** C17. The head scanner is correct for every head. For any blank lines,
    request line and header lines, with CRLF or bare-LF terminators, stray
    carriage returns and arbitrary bytes inside the lines, feeding the head byte
    by byte completes exactly at its final blank line. The decision says
    "conflict" exactly when some field is named Content-Length and some field
    Transfer-Encoding (in any case, in any order, however often); the framing is
    chunked with a Transfer-Encoding, otherwise the single length all well-formed
    Content-Length fields agree on, and invalid when one is malformed or two
    differ; and the stored parse-reject hint is the first of invalid UTF-8,
    disagreeing lengths and HTTP/1.0 with Transfer-Encoding. *)
Theorem head_scanner_correct t max s rest :
  head_ok t -> Z.of_nat (length (encode_head t)) <= max <= umax 64 ->
  exists h',
    head_run (new_head max) s (encode_head t ++ rest)
    = (h',
       store_parse_reject_hint s (head_hint (fst (request t)) (map fst (headers t))),
       HeadComplete (Outcome (head_conflict (map fst (headers t))) (head_framing (map fst (headers t)))),
       rest).
Proof. apply head_scanner_spec. Qed.

Definition smuggling_head : head_text :=
  HeadText [CrLf; Lf] (bs "POST / HTTP/1.1", CrLf)
    [(bs "Transfer-Encoding: chunked", CrLf); (bs "Host: a", Lf); (bs "content-LENGTH: 5", CrLf)] CrLf.

Lemma head_scanner_correct_witness :
  exists h',
    head_run (new_head 1000) new_signals (encode_head smuggling_head ++ bs "0")
    = (h', new_signals, HeadComplete (Outcome true BodyChunked), bs "0").
Proof.
  destruct (head_scanner_correct smuggling_head 1000 new_signals (bs "0")) as [h' E].
  - apply (bool_decide_unpack _). by vm_compute.
  - by vm_compute.
  - exists h'. rewrite E. by vm_compute.
Defined.

(** ** The version window *)

Lemma last_twelve p v :
  length v = 8%nat ->
  exists q, (length q <= 3)%nat
    /\ drop (length (p ++ 32 :: v) - 12) (p ++ 32 :: v) = q ++ 32 :: v.
Proof.
  intros Hv. exists (drop (length p - 3) p). rewrite length_app; cbn [length]. rewrite Hv.
  split; [rewrite length_drop; lia|].
  replace (length p + 9 - 12)%nat with (length p - 3)%nat by lia. by rewrite drop_app_le by lia.
Qed.

(** The HTTP/1.0 test looks for the version anywhere in the last twelve
    bytes of the request line, yet it is exact: for a request line that ends in
    a space and an eight-byte version token, it holds exactly when that token
    is HTTP/1.0 in any case, whatever the method and target before it. *)
Theorem http10_line_exact p v :
  length v = 8%nat ->
  http10_line (p ++ 32 :: v) = eq_ignore_ascii_case v HTTP_10_VERSION.
Proof.
  intros Hv. destruct (last_twelve p v Hv) as (q & Hq & E).
  unfold http10_line. rewrite E. clear E.
  destruct v as [|v0 [|v1 [|v2 [|v3 [|v4 [|v5 [|v6 [|v7 [|? ?]]]]]]]]]; simpl in Hv; try lia.
  unfold eq_ignore_ascii_case.
  destruct q as [|q0 [|q1 [|q2 [|? ?]]]]; simpl in Hq; try lia; cbn -[to_ascii_lowercase Z.eqb];
    change (to_ascii_lowercase 32) with 32;
    repeat match goal with |- context [32 =? to_ascii_lowercase ?n] =>
      change (32 =? to_ascii_lowercase n) with false end;
    by rewrite ?andb_false_r, ?andb_false_l, ?orb_false_l, ?orb_false_r.
Qed.

Lemma http10_line_exact_witness :
  http10_line (bs "GET /HTTP/1.0 HTTP/1.1") = false /\ http10_line (bs "GET / http/1.0") = true.
Proof.
  split;
    [apply (http10_line_exact (bs "GET /HTTP/1.0") (bs "HTTP/1.1"))
    |apply (http10_line_exact (bs "GET /") (bs "http/1.0"))]; reflexivity.
Defined.
