(* ===== verification/H1Chunked.v ===== *)
(** * Chunked request bodies

    [ChunkedScanner] of [proxy/h1_framing_guard.rs]: the observer skips a
    chunked body to find the next request head. It mirrors Hyper's decoder
    (sizes, white space, extensions, trailers and their limits) without keeping
    any payload. Chunk data is skipped in bulk; the reference [chunk_run] takes
    one byte at a time. *)

From S2P Require Import Prelude Utf8 Decimal H1Signals H1Head.

Definition CHUNK_EXTENSION_LIMIT : Z := 16 * 1024.
Definition HYPER_TRAILER_LIMIT : Z := 16 * 1024.

(** [usize] is 64 bits wide. *)
Definition u64_to_usize (value : Z) : Z := Z.min value (umax 64).

Definition hex_value (byte : Z) : option Z :=
  if (48 <=? byte) && (byte <=? 57) then Some (byte - 48)
  else if (97 <=? byte) && (byte <=? 102) then Some (byte + 10 - 97)
  else if (65 <=? byte) && (byte <=? 70) then Some (byte + 10 - 65)
  else None.

Inductive ChunkState :=
| SizeStart | Size | SizeLws | Extension | SizeLf | Data (remaining : Z) | DataCr | DataLf
| EndCr | Trailer | TrailerLf | EndLf.

Record ChunkedScanner := Chunked {
  state : ChunkState;
  chunk_size : Z;
  extension_bytes : Z;
  trailer_bytes : Z;
}.

Definition new_chunked : ChunkedScanner := Chunked SizeStart 0 0 0.

Inductive ChunkStep := ChunkContinue | ChunkComplete | ChunkDisable.

Section ChunkStores.
Context (c : ChunkedScanner).
Definition goto st := Chunked st (chunk_size c) (extension_bytes c) (trailer_bytes c).
Definition set_chunk_size n := Chunked (state c) n (extension_bytes c) (trailer_bytes c).
Definition set_extension_bytes n := Chunked (state c) (chunk_size c) n (trailer_bytes c).
Definition set_trailer_bytes n := Chunked (state c) (chunk_size c) (extension_bytes c) n.
End ChunkStores.

Definition is_hex (byte : Z) : bool :=
  is_ascii_digit byte || ((97 <=? byte) && (byte <=? 102)) || ((65 <=? byte) && (byte <=? 70)).

(** One byte outside chunk data. *)
Definition chunk_byte (c : ChunkedScanner) (byte : Z) : ChunkedScanner * ChunkStep :=
  match state c with
  | SizeStart =>
    match hex_value byte with
    | Some v => (goto (set_chunk_size c v) Size, ChunkContinue)
    | None => (c, ChunkDisable)
    end
  | Size =>
    if is_hex byte then
      match hex_value byte with
      | None => (c, ChunkDisable)
      | Some v =>
        match match checked_mul 64 (chunk_size c) 16 with
              | Some n => checked_add 64 n v
              | None => None
              end with
        | None => (c, ChunkDisable)
        | Some size => (set_chunk_size c size, ChunkContinue)
        end
      end
    else if is_ows byte then (goto c SizeLws, ChunkContinue)
    else if byte =? 59 then (goto c Extension, ChunkContinue)
    else if byte =? 13 then (goto c SizeLf, ChunkContinue)
    else (c, ChunkDisable)
  | SizeLws =>
    if is_ows byte then (c, ChunkContinue)
    else if byte =? 59 then (goto c Extension, ChunkContinue)
    else if byte =? 13 then (goto c SizeLf, ChunkContinue)
    else (c, ChunkDisable)
  | Extension =>
    if byte =? 13 then (goto c SizeLf, ChunkContinue)
    else if byte =? 10 then (c, ChunkDisable)
    else
      let c := set_extension_bytes c (saturating_add 64 (extension_bytes c) 1) in
      if CHUNK_EXTENSION_LIMIT <=? extension_bytes c then (c, ChunkDisable) else (c, ChunkContinue)
  | SizeLf =>
    if negb (byte =? 10) then (c, ChunkDisable)
    else if chunk_size c =? 0 then (goto c EndCr, ChunkContinue)
    else (goto c (Data (chunk_size c)), ChunkContinue)
  | Data _ => (c, ChunkContinue)
  | DataCr => if byte =? 13 then (goto c DataLf, ChunkContinue) else (c, ChunkDisable)
  | DataLf =>
    if byte =? 10 then (goto (set_chunk_size c 0) SizeStart, ChunkContinue) else (c, ChunkDisable)
  | EndCr =>
    if byte =? 13 then (goto c EndLf, ChunkContinue)
    else (goto (set_trailer_bytes c (saturating_add 64 (trailer_bytes c) 1)) Trailer, ChunkContinue)
  | Trailer =>
    let c := set_trailer_bytes c (saturating_add 64 (trailer_bytes c) 1) in
    if HYPER_TRAILER_LIMIT <=? trailer_bytes c then (c, ChunkDisable)
    else if byte =? 13 then (goto c TrailerLf, ChunkContinue) else (c, ChunkContinue)
  | TrailerLf => if byte =? 10 then (goto c EndCr, ChunkContinue) else (c, ChunkDisable)
  | EndLf => if byte =? 10 then (c, ChunkComplete) else (c, ChunkDisable)
  end.

(** The loop of [ChunkedScanner::observe]; [offset] bytes are behind, [l] is
    ahead. [None]: the fuel ran out. *)
Fixpoint chunk_loop (fuel : nat) (c : ChunkedScanner) (l : bytes) (offset : Z)
  : option (ChunkedScanner * Z * ChunkStep) :=
  match l with
  | [] => Some (c, offset, ChunkContinue)
  | byte :: l' =>
    match fuel with
    | O => None
    | S fuel =>
      match state c with
      | Data remaining =>
        let consumed := Z.min (Z.of_nat (length l)) (u64_to_usize remaining) in
        let remaining := remaining - consumed in
        let next := if remaining =? 0 then DataCr else Data remaining in
        chunk_loop fuel (goto c next) (drop (Z.to_nat consumed) l) (offset + consumed)
      | _ =>
        match chunk_byte c byte with
        | (c, ChunkContinue) => chunk_loop fuel c l' (offset + 1)
        | (c, step) => Some (c, offset + 1, step)
        end
      end
    end
  end.

(** Every round consumes a byte, except leaving a chunk with no data left. *)
Definition chunk_fuel (l : bytes) : nat := 2 * length l + 1.

Definition chunk_observe (c : ChunkedScanner) (l : bytes) : ChunkedScanner * Z * ChunkStep :=
  default (c, 0, ChunkDisable) (chunk_loop (chunk_fuel l) c l 0).

(** ** Reference: one byte at a time *)

Definition chunk_feed (c : ChunkedScanner) (byte : Z) : ChunkedScanner * ChunkStep :=
  match state c with
  | Data n => (goto c (if n =? 1 then DataCr else Data (n - 1)), ChunkContinue)
  | _ => chunk_byte c byte
  end.

Fixpoint chunk_run (c : ChunkedScanner) (l : bytes) (offset : Z)
  : ChunkedScanner * Z * ChunkStep :=
  match l with
  | [] => (c, offset, ChunkContinue)
  | b :: l =>
    match chunk_feed c b with
    | (c, ChunkContinue) => chunk_run c l (offset + 1)
    | (c, step) => (c, offset + 1, step)
    end
  end.

(** Reachable scanners: pending data is at least one byte, counters are words. *)
Record chunked_wf (c : ChunkedScanner) : Prop := {
  wf_data : forall n, state c = Data n -> 1 <= n <= umax 64;
  wf_size : 0 <= chunk_size c <= umax 64;
  wf_extension : 0 <= extension_bytes c <= umax 64;
  wf_trailer : 0 <= trailer_bytes c <= umax 64;
}.

Lemma new_chunked_wf : chunked_wf new_chunked.
Proof. by constructor. Qed.

Lemma hex_value_bound b v : hex_value b = Some v -> 0 <= v < 16.
Proof. unfold hex_value. intros H. zcases; simplify_eq; lia. Qed.

Lemma chunk_feed_wf c b : chunked_wf c -> chunked_wf (fst (chunk_feed c b)).
Proof.
  intros [Hd Hs He Ht]. unfold chunk_feed, chunk_byte, checked_mul, checked_add, saturating_add.
  destruct (state c) eqn:Est; repeat (case_match; simplify_eq/=);
    constructor; simpl; rewrite ?Est; intros; simplify_eq; try done; try lia;
    repeat match goal with H : hex_value _ = Some _ |- _ => apply hex_value_bound in H end;
    try (unfold umax in *; lia).
  all: try (specialize (Hd _ eq_refl); repeat case_match; simplify_eq; zcases; lia).
Qed.

(** ** Termination of the loop *)

Definition chunk_weight (c : ChunkedScanner) (l : bytes) : nat :=
  2 * length l + match state c with Data n => if n <=? 0 then 1 else 0 | _ => 0 end.

Lemma chunk_loop_total fuel : forall c l offset,
  (chunk_weight c l <= fuel)%nat -> is_Some (chunk_loop fuel c l offset).
Proof.
  induction fuel as [|fuel IH]; intros c l offset Hw; destruct l as [|b l]; try done.
  { unfold chunk_weight in Hw; simpl in Hw; lia. }
  unfold chunk_weight in Hw. cbn [chunk_loop].
  destruct (state c) as [| | | | |n| | | | | | ] eqn:Est;
    try (destruct (chunk_byte c b) as [c' []] eqn:Eb; [|done..]; apply IH;
         unfold chunk_weight; cbn [length] in Hw |- *; case_match; try case_match; lia).
  apply IH. unfold chunk_weight, u64_to_usize, umax. cbn [state goto].
  rewrite length_drop. cbn [length] in Hw |- *. unfold umax in *.
  destruct (Z.leb_spec n 0) as [Hn|Hn].
  - replace (Z.min (Z.of_nat (S (length l))) (Z.min n (2 ^ 64 - 1))) with n by lia.
    rewrite Z.sub_diag. simpl. lia.
  - set (k := Z.min (Z.of_nat (S (length l))) (Z.min n (2 ^ 64 - 1))).
    assert (1 <= k <= Z.of_nat (S (length l))) by lia. clearbody k.
    destruct (n - k =? 0); [|destruct (n - k <=? 0)]; lia.
Qed.

(** ** Bulk skipping is byte-by-byte skipping *)

Lemma goto_state c : goto c (state c) = c.
Proof. by destruct c. Qed.

Lemma chunk_run_data l : forall c n offset, 1 <= n ->
  chunk_run (goto c (Data n)) l offset
  = if Z.of_nat (length l) <? n then (goto c (Data (n - Z.of_nat (length l))), offset + Z.of_nat (length l), ChunkContinue)
    else chunk_run (goto c DataCr) (drop (Z.to_nat n) l) (offset + n).
Proof.
  induction l as [|b l IH]; intros c n offset Hn; cbn [chunk_run length].
  { destruct (Z.ltb_spec (Z.of_nat 0) n); [|lia]. by rewrite Z.sub_0_r, Z.add_0_r. }
  unfold chunk_feed; cbn [state goto].
  destruct (Z.eqb_spec n 1) as [->|Hne].
  { destruct (Z.ltb_spec (Z.of_nat (S (length l))) 1); [lia|]. done. }
  change (goto (goto c (Data n)) (Data (n - 1))) with (goto c (Data (n - 1))).
  rewrite IH by lia.
  destruct (Z.ltb_spec (Z.of_nat (length l)) (n - 1)),
    (Z.ltb_spec (Z.of_nat (S (length l))) n); try lia.
  - replace (n - 1 - Z.of_nat (length l)) with (n - Z.of_nat (S (length l))) by lia.
    by replace (offset + 1 + Z.of_nat (length l)) with (offset + Z.of_nat (S (length l))) by lia.
  - replace (Z.to_nat n) with (S (Z.to_nat (n - 1))) by lia. cbn [drop]. f_equal. lia.
Qed.

Lemma chunk_loop_run fuel : forall c l offset,
  chunked_wf c -> (length l <= fuel)%nat ->
  chunk_loop fuel c l offset = Some (chunk_run c l offset).
Proof.
  induction fuel as [|fuel IH]; intros c l offset Hwf Hf; destruct l as [|b l]; try done;
    cbn [length] in Hf; [lia|]. cbn [chunk_loop].
  pose proof (chunk_feed_wf c b Hwf) as Hwf'.
  destruct (state c) as [| | | | |n| | | | | | ] eqn:Est;
    try (cbn [chunk_run]; unfold chunk_feed in *; rewrite Est in *;
         destruct (chunk_byte c b) as [c' []]; [|done..]; apply IH; [done|lia]).
  pose proof (wf_data c Hwf n Est) as Hn. unfold u64_to_usize.
  rewrite (Z.min_l n) by lia.
  rewrite <- (goto_state c) at 2. rewrite Est, chunk_run_data by lia.
  destruct (Z.ltb_spec (Z.of_nat (length (b :: l))) n).
  - rewrite Z.min_l by lia. rewrite Nat2Z.id, drop_all.
    destruct (Z.eqb_spec (n - Z.of_nat (length (b :: l))) 0); [lia|]. by destruct fuel.
  - rewrite Z.min_r, Z.sub_diag by lia. simpl (0 =? 0).
    apply IH; [by destruct Hwf; constructor|].
    rewrite length_drop. cbn [length]. lia.
Qed.

Lemma chunk_observe_run c l : chunked_wf c -> chunk_observe c l = chunk_run c l 0.
Proof.
  intros Hwf. unfold chunk_observe. rewrite chunk_loop_run; [done|done|]. unfold chunk_fuel. lia.
Qed.

(** C37. Termination of the chunk loop. Whatever state the scanner is in and
    whatever bytes it is given, the loop of [observe] ends within two rounds per
    byte plus one: each round consumes input or leaves an exhausted chunk. *)
Theorem chunk_loop_terminates c l :
  exists c' consumed step, chunk_loop (chunk_fuel l) c l 0 = Some (c', consumed, step).
Proof.
  destruct (chunk_loop_total (chunk_fuel l) c l 0) as [[[c' n] st] E]; [|by eauto].
  unfold chunk_fuel, chunk_weight. repeat case_match; lia.
Qed.

(** Skipping chunk data in bulk is the same as stepping over it byte by
    byte: on every reachable scanner the optimised loop returns the state,
    consumed count and verdict of the one-byte-at-a-time reference. *)
Theorem chunk_observe_bytewise c l :
  chunked_wf c -> chunk_observe c l = chunk_run c l 0.
Proof. apply chunk_observe_run. Qed.

Lemma chunk_observe_bytewise_witness :
  chunk_observe new_chunked (bs "3" ++ [13; 10] ++ bs "abc" ++ [13; 10])
  = chunk_run new_chunked (bs "3" ++ [13; 10] ++ bs "abc" ++ [13; 10]) 0.
Proof. apply chunk_observe_bytewise. exact new_chunked_wf. Defined.

(** ** Well-formed chunked bodies *)

(** Size line: hexadecimal digits, white space, an optional extension. *)
Record size_line := SizeLine { digits : bytes; lws : bytes; extension : option bytes }.

Definition hex_number (acc : Z) (l : bytes) : Z :=
  foldl (fun a b => a * 16 + default 0 (hex_value b)) acc l.

Definition encode_size (z : size_line) : bytes :=
  digits z ++ lws z ++ match extension z with Some e => 59 :: e | None => [] end ++ crlf.

Definition size_ok (z : size_line) : Prop :=
  digits z <> [] /\ forallb is_hex (digits z) = true /\ hex_number 0 (digits z) <= umax 64
  /\ forallb is_ows (lws z) = true
  /\ match extension z with Some e => 13 ∉ e /\ 10 ∉ e | None => True end.

Definition extension_length (z : size_line) : Z :=
  match extension z with Some e => Z.of_nat (length e) | None => 0 end.

(** A body: data chunks, the last-chunk line of size zero, trailer lines. *)
Record chunked_body := Body {
  chunks : list (size_line * bytes);
  last_size : size_line;
  trailers : list bytes;
}.

Definition encode_chunk (c : size_line * bytes) : bytes := encode_size (fst c) ++ snd c ++ crlf.

Definition encode_body (b : chunked_body) : bytes :=
  concat (map encode_chunk (chunks b)) ++ encode_size (last_size b)
  ++ concat (map (fun t => t ++ crlf) (trailers b)) ++ crlf.

Definition chunk_ok (c : size_line * bytes) : Prop :=
  size_ok (fst c) /\ snd c <> [] /\ hex_number 0 (digits (fst c)) = Z.of_nat (length (snd c)).

(** Trailer lines have no CR inside; their bytes and the extensions stay
    within Hyper's limits. *)
Definition total_extensions (b : chunked_body) : Z :=
  foldr Z.add 0 (map (fun c => extension_length (fst c)) (chunks b)) + extension_length (last_size b).
Definition total_trailers (b : chunked_body) : Z :=
  foldr Z.add 0 (map (fun t => Z.of_nat (length t) + 1) (trailers b)).

Definition body_ok (b : chunked_body) : Prop :=
  Forall chunk_ok (chunks b)
  /\ size_ok (last_size b) /\ hex_number 0 (digits (last_size b)) = 0
  /\ Forall (fun t => t <> [] /\ 13 ∉ t) (trailers b)
  /\ total_extensions b < CHUNK_EXTENSION_LIMIT
  /\ total_trailers b < HYPER_TRAILER_LIMIT.

#[global] Instance size_ok_dec z : Decision (size_ok z).
Proof. unfold size_ok. destruct (extension z); apply _. Defined.

#[global] Instance body_ok_dec b : Decision (body_ok b).
Proof. unfold body_ok, chunk_ok. apply _. Defined.

(** ** The scanner follows a well-formed body

    [moves c x c']: from [c], the bytes [x] are consumed and lead to [c'],
    whatever comes next. *)

Definition moves (c : ChunkedScanner) (x : bytes) (c' : ChunkedScanner) : Prop :=
  forall rest offset,
    chunk_run c (x ++ rest) offset = chunk_run c' rest (offset + Z.of_nat (length x)).

Lemma moves_nil c : moves c [] c.
Proof. intros rest offset. by rewrite Z.add_0_r. Qed.

Lemma moves_app c x c1 y c2 : moves c x c1 -> moves c1 y c2 -> moves c (x ++ y) c2.
Proof.
  intros H1 H2 rest offset. rewrite <- app_assoc, H1, H2, length_app. f_equal. lia.
Qed.

Lemma moves_one c b c' : chunk_feed c b = (c', ChunkContinue) -> moves c [b] c'.
Proof. intros E rest offset. simpl. rewrite E. done. Qed.

Lemma moves_cons c b c1 x c2 :
  chunk_feed c b = (c1, ChunkContinue) -> moves c1 x c2 -> moves c (b :: x) c2.
Proof. intros E H. apply (moves_app c [b] c1 x c2); [by apply moves_one|done]. Qed.

Lemma is_hex_value b : is_hex b = true -> exists v, hex_value b = Some v /\ 0 <= v < 16.
Proof.
  unfold is_hex, hex_value, is_ascii_digit. intros H. zcases; eexists; split; done || lia.
Qed.

Lemma hex_number_ge l : forall acc, 0 <= acc -> forallb is_hex l = true -> acc <= hex_number acc l.
Proof.
  induction l as [|b l IH]; intros acc H0 Hl; simpl in *; [done|].
  apply andb_true_iff in Hl as [(v & Hv & ?)%is_hex_value Hl].
  unfold hex_number in *; simpl. rewrite Hv; simpl. etransitivity; [|apply IH; [lia|done]]. lia.
Qed.

Lemma moves_digits l : forall c,
  state c = Size -> 0 <= chunk_size c -> forallb is_hex l = true ->
  hex_number (chunk_size c) l <= umax 64 ->
  moves c l (set_chunk_size c (hex_number (chunk_size c) l)).
Proof.
  induction l as [|b l IH]; intros c Hst H0 Hl Hb; simpl in Hl.
  { replace (set_chunk_size c _) with c by (by destruct c). apply moves_nil. }
  apply andb_true_iff in Hl as [Hx Hl]. pose proof Hx as (v & Hv & ?)%is_hex_value.
  unfold hex_number in Hb; simpl in Hb; rewrite Hv in Hb; simpl in Hb.
  pose proof (hex_number_ge l (chunk_size c * 16 + v) ltac:(lia) Hl) as Hge.
  unfold hex_number in Hge.
  eapply moves_cons.
  - unfold chunk_feed, chunk_byte. rewrite Hst, Hx, Hv. unfold checked_mul, checked_add.
    destruct (Z.leb_spec (chunk_size c * 16) (umax 64)); [|lia].
    destruct (Z.leb_spec (chunk_size c * 16 + v) (umax 64)); [done|lia].
  - pose proof (IH (set_chunk_size c (chunk_size c * 16 + v))) as IH'.
    unfold hex_number in *; simpl in *. rewrite Hv; simpl. apply IH'; done || lia.
Qed.

Lemma moves_size_digits c l :
  state c = SizeStart -> l <> [] -> forallb is_hex l = true -> hex_number 0 l <= umax 64 ->
  moves c l (goto (set_chunk_size c (hex_number 0 l)) Size).
Proof.
  intros Hst Hne Hl Hb. destruct l as [|b l]; [done|]. simpl in Hl.
  apply andb_true_iff in Hl as [(v & Hv & ?)%is_hex_value Hl].
  eapply moves_cons.
  - unfold chunk_feed, chunk_byte. by rewrite Hst, Hv.
  - unfold hex_number in *; simpl in *. rewrite Hv in *; simpl in *.
    apply (moves_digits l (goto (set_chunk_size c v) Size)); [done|simpl; lia|done|exact Hb].
Qed.

(** The states from which a size line may end. *)
Definition in_size (c : ChunkedScanner) : Prop := state c = Size \/ state c = SizeLws.

Lemma ows_not_hex b : is_ows b = true -> is_hex b = false.
Proof. unfold is_ows, is_hex, is_ascii_digit. intros H. zcases. Qed.

Lemma moves_lws l : forall c, in_size c -> forallb is_ows l = true ->
  exists c', moves c l c' /\ in_size c' /\ exists st, c' = goto c st.
Proof.
  induction l as [|b l IH]; intros c Hc Hl; simpl in Hl.
  { exists c. split; [apply moves_nil|]. split; [done|]. exists (state c). by destruct c. }
  apply andb_true_iff in Hl as [Hb Hl]. pose proof (ows_not_hex b Hb) as Hx.
  destruct (IH (goto c SizeLws)) as (c' & Hm & Hin & st & ->); [by right|done|].
  exists (goto c st). split; [|split; [done|by exists st]].
  eapply moves_cons; [|exact Hm]. unfold chunk_feed, chunk_byte.
  destruct Hc as [Hc|Hc]; rewrite Hc, ?Hx, Hb; [done|].
  by rewrite <- (goto_state c) at 1; rewrite Hc.
Qed.

Lemma moves_extension l : forall c,
  state c = Extension -> 13 ∉ l -> 10 ∉ l -> 0 <= extension_bytes c ->
  extension_bytes c + Z.of_nat (length l) < CHUNK_EXTENSION_LIMIT ->
  moves c l (set_extension_bytes c (extension_bytes c + Z.of_nat (length l))).
Proof.
  unfold CHUNK_EXTENSION_LIMIT.
  induction l as [|b l IH]; intros c Hst H13 H10 H0 Hlim; cbn [length] in *.
  { rewrite Z.add_0_r. replace (set_extension_bytes _ _) with c by (by destruct c). apply moves_nil. }
  apply not_elem_of_cons in H13 as [Hb13 H13]. apply not_elem_of_cons in H10 as [Hb10 H10].
  eapply moves_cons.
  - unfold chunk_feed, chunk_byte. rewrite Hst.
    destruct (Z.eqb_spec b 13); [congruence|]. destruct (Z.eqb_spec b 10); [congruence|].
    rewrite saturating_add_small by (unfold umax; lia). unfold CHUNK_EXTENSION_LIMIT. cbn [extension_bytes set_extension_bytes].
    destruct (Z.leb_spec (16 * 1024) (extension_bytes c + 1)); [lia|done].
  - replace (set_extension_bytes c (extension_bytes c + Z.of_nat (S (length l))))
      with (set_extension_bytes (set_extension_bytes c (extension_bytes c + 1))
              ((extension_bytes c + 1) + Z.of_nat (length l)))
      by (unfold set_extension_bytes; simpl; f_equal; lia).
    apply (IH (set_extension_bytes c (extension_bytes c + 1))); simpl; try done; lia.
Qed.

(** A whole size line, from [SizeStart] to the data or to the trailers. *)
Lemma moves_size_line c z :
  state c = SizeStart -> size_ok z -> 0 <= extension_bytes c ->
  extension_bytes c + extension_length z < CHUNK_EXTENSION_LIMIT ->
  let n := hex_number 0 (digits z) in
  moves c (encode_size z)
    (Chunked (if n =? 0 then EndCr else Data n) n (extension_bytes c + extension_length z)
       (trailer_bytes c)).
Proof.
  intros Hst (Hne & Hhex & Hmax & Hlws & Hext) H0 Hlim n. unfold encode_size.
  eapply moves_app; [by apply moves_size_digits|].
  set (c1 := goto (set_chunk_size c (hex_number 0 (digits z))) Size).
  destruct (moves_lws (lws z) c1) as (c2 & Hm2 & Hin2 & st & E2); [by left|done|].
  eapply moves_app; [exact Hm2|]. subst c2.
  assert (Hend : forall c3, state c3 = SizeLf -> chunk_size c3 = n ->
            moves c3 [10] (goto c3 (if n =? 0 then EndCr else Data n))).
  { intros c3 E3 En. apply moves_one. unfold chunk_feed, chunk_byte. rewrite E3, En.
    destruct (n =? 0); done. }
  unfold extension_length in *. destruct (extension z) as [e|]; simpl.
  - destruct Hext as [He13 He10].
    apply (moves_cons _ 59 (goto c1 Extension)).
    { unfold chunk_feed, chunk_byte. by destruct Hin2 as [->| ->]. }
    eapply moves_app; [apply moves_extension; simpl; done|].
    eapply moves_cons; [done|]. apply Hend; done.
  - rewrite Z.add_0_r. apply (moves_cons _ 13 (goto c1 SizeLf)).
    { unfold chunk_feed, chunk_byte. by destruct Hin2 as [->| ->]. }
    apply (Hend (goto c1 SizeLf)); done.
Qed.

Lemma moves_data c data n :
  state c = Data n -> n = Z.of_nat (length data) -> data <> [] ->
  moves c data (goto c DataCr).
Proof.
  intros Hst -> Hne rest offset. rewrite <- (goto_state c) at 1. rewrite Hst.
  rewrite chunk_run_data, length_app by (destruct data; [done|simpl; lia]).
  destruct (Z.ltb_spec (Z.of_nat (length data + length rest)) (Z.of_nat (length data))); [lia|].
  by rewrite Nat2Z.id, drop_app_length.
Qed.

Lemma moves_chunk c ch :
  state c = SizeStart -> chunk_ok ch -> 0 <= extension_bytes c ->
  extension_bytes c + extension_length (fst ch) < CHUNK_EXTENSION_LIMIT ->
  moves c (encode_chunk ch)
    (Chunked SizeStart 0 (extension_bytes c + extension_length (fst ch)) (trailer_bytes c)).
Proof.
  intros Hst (Hsz & Hne & Hn) H0 Hlim. unfold encode_chunk.
  eapply moves_app; [by apply moves_size_line|].
  destruct (Z.eqb_spec (hex_number 0 (digits (fst ch))) 0); [destruct (snd ch); simpl in *; [done|lia]|].
  eapply moves_app; [by eapply moves_data|].
  eapply moves_cons; [done|]. by apply moves_one.
Qed.

Lemma moves_chunks chs : forall c,
  state c = SizeStart -> chunk_size c = 0 -> Forall chunk_ok chs -> 0 <= extension_bytes c ->
  let total := foldr Z.add 0 (map (fun c => extension_length (fst c)) chs) in
  extension_bytes c + total < CHUNK_EXTENSION_LIMIT ->
  moves c (concat (map encode_chunk chs))
    (Chunked SizeStart 0 (extension_bytes c + total) (trailer_bytes c)).
Proof.
  induction chs as [|ch chs IH]; intros c Hst Hsz Hok H0 total Hlim.
  { subst total; simpl. rewrite Z.add_0_r. destruct c; simpl in *; subst. apply moves_nil. }
  apply Forall_cons in Hok as [Hch Hok]. subst total; cbn [map foldr concat] in *.
  assert (He : forall z, 0 <= extension_length z)
    by (intros z; unfold extension_length; case_match; lia).
  assert (Ht : 0 <= foldr Z.add 0 (map (fun c => extension_length (fst c)) chs)).
  { clear -He. induction chs as [|x chs IH]; simpl; [done|]. specialize (He (fst x)). lia. }
  pose proof (He (fst ch)).
  eapply moves_app; [apply moves_chunk; done || lia|].
  rewrite Z.add_assoc.
  apply (IH (Chunked SizeStart 0 (extension_bytes c + extension_length (fst ch)) (trailer_bytes c)));
    simpl; done || lia.
Qed.

Lemma moves_trailer_bytes l : forall c,
  state c = Trailer -> 13 ∉ l -> 0 <= trailer_bytes c ->
  trailer_bytes c + Z.of_nat (length l) < HYPER_TRAILER_LIMIT ->
  moves c l (set_trailer_bytes c (trailer_bytes c + Z.of_nat (length l))).
Proof.
  unfold HYPER_TRAILER_LIMIT.
  induction l as [|b l IH]; intros c Hst H13 H0 Hlim; cbn [length] in *.
  { rewrite Z.add_0_r. replace (set_trailer_bytes _ _) with c by (by destruct c). apply moves_nil. }
  apply not_elem_of_cons in H13 as [Hb13 H13].
  eapply moves_cons.
  - unfold chunk_feed, chunk_byte. rewrite Hst.
    rewrite saturating_add_small by (unfold umax; lia). unfold HYPER_TRAILER_LIMIT.
    cbn [trailer_bytes set_trailer_bytes].
    destruct (Z.leb_spec (16 * 1024) (trailer_bytes c + 1)); [lia|].
    destruct (Z.eqb_spec b 13); [congruence|done].
  - replace (set_trailer_bytes c (trailer_bytes c + Z.of_nat (S (length l))))
      with (set_trailer_bytes (set_trailer_bytes c (trailer_bytes c + 1))
              ((trailer_bytes c + 1) + Z.of_nat (length l)))
      by (unfold set_trailer_bytes; simpl; f_equal; lia).
    apply (IH (set_trailer_bytes c (trailer_bytes c + 1))); simpl; try done; lia.
Qed.

Lemma moves_trailer c t :
  state c = EndCr -> t <> [] -> 13 ∉ t -> 0 <= trailer_bytes c ->
  trailer_bytes c + (Z.of_nat (length t) + 1) < HYPER_TRAILER_LIMIT ->
  moves c (t ++ crlf) (set_trailer_bytes c (trailer_bytes c + (Z.of_nat (length t) + 1))).
Proof.
  intros Hst Hne H13 H0 Hlim. destruct t as [|b t]; [done|]. cbn [length app] in *.
  apply not_elem_of_cons in H13 as [Hb H13].
  eapply moves_cons.
  { unfold chunk_feed, chunk_byte. rewrite Hst. destruct (Z.eqb_spec b 13); [congruence|].
    by rewrite saturating_add_small by (unfold umax, HYPER_TRAILER_LIMIT in *; lia). }
  eapply moves_app; [apply moves_trailer_bytes; simpl; done || lia|].
  eapply moves_cons.
  { unfold chunk_feed, chunk_byte; simpl. rewrite saturating_add_small
      by (unfold umax, HYPER_TRAILER_LIMIT in *; lia).
    destruct (Z.leb_spec HYPER_TRAILER_LIMIT (trailer_bytes c + 1 + Z.of_nat (length t) + 1)); [lia|done]. }
  eapply (moves_app _ [10] _ []); [|apply moves_nil]. apply moves_one.
  unfold chunk_feed, chunk_byte, goto, set_trailer_bytes; simpl. rewrite Hst. do 2 f_equal. lia.
Qed.

Lemma moves_trailers ts : forall c,
  state c = EndCr -> Forall (fun t => t <> [] /\ 13 ∉ t) ts -> 0 <= trailer_bytes c ->
  trailer_bytes c + foldr Z.add 0 (map (fun t => Z.of_nat (length t) + 1) ts) < HYPER_TRAILER_LIMIT ->
  exists c', moves c (concat (map (fun t => t ++ crlf) ts)) c' /\ state c' = EndCr.
Proof.
  induction ts as [|t ts IH]; intros c Hst Hok H0 Hlim.
  { exists c. split; [apply moves_nil|done]. }
  apply Forall_cons in Hok as [[Hne H13] Hok]. cbn [map foldr concat] in *.
  assert (Ht : 0 <= foldr Z.add 0 (map (fun t : bytes => Z.of_nat (length t) + 1) ts)).
  { clear. induction ts as [|x ts IH]; simpl; lia. }
  destruct (IH (set_trailer_bytes c (trailer_bytes c + (Z.of_nat (length t) + 1))))
    as (c' & Hm & Hc'); [done|done|simpl; lia|simpl; lia|].
  exists c'. split; [|done]. eapply moves_app; [|exact Hm]. apply moves_trailer; done || lia.
Qed.

(** The whole body: the scanner completes on its last byte. *)
Lemma chunk_run_body b rest :
  body_ok b ->
  exists c', chunk_run new_chunked (encode_body b ++ rest) 0
             = (c', Z.of_nat (length (encode_body b)), ChunkComplete).
Proof.
  intros (Hch & Hls & Hz & Htr & Hext & Htl). unfold total_extensions, total_trailers in *.
  assert (0 <= extension_length (last_size b)) by (unfold extension_length; case_match; lia).
  pose proof (moves_chunks (chunks b) new_chunked eq_refl eq_refl Hch ltac:(simpl; lia)
                ltac:(simpl; lia)) as M1.
  simpl in M1. set (e := foldr Z.add 0 _) in *.
  assert (0 <= e).
  { subst e. clear. induction (chunks b) as [|x l IH]; simpl; [done|].
    assert (0 <= extension_length (fst x)) by (unfold extension_length; case_match; lia). lia. }
  pose proof (moves_size_line (Chunked SizeStart 0 e 0) (last_size b) eq_refl Hls
                ltac:(simpl; lia) ltac:(simpl; lia)) as M2.
  rewrite Hz in M2. simpl in M2.
  destruct (moves_trailers (trailers b) (Chunked EndCr 0 (e + extension_length (last_size b)) 0))
    as (c' & M3 & Hc'); [done|done|done|done|].
  assert (M4 : moves c' [13] (goto c' EndLf))
    by (apply moves_one; unfold chunk_feed, chunk_byte; by rewrite Hc').
  pose proof (moves_app _ _ _ _ _ (moves_app _ _ _ _ _ (moves_app _ _ _ _ _ M1 M2) M3) M4) as M.
  exists (goto c' EndLf). unfold encode_body. 
  replace (_ ++ rest) with
    ((((concat (map encode_chunk (chunks b)) ++ encode_size (last_size b)) ++
        concat (map (fun t => t ++ crlf) (trailers b))) ++ [13]) ++ 10 :: rest)
    by (unfold crlf; rewrite <- !app_assoc; done).
  rewrite M. simpl. f_equal. f_equal. unfold crlf. rewrite !length_app. simpl. lia.
Qed.

(** A chunked body is skipped exactly. For every well-formed body (any
    chunks with white space and extensions, a last chunk, trailers, within
    Hyper's limits) followed by anything, the scanner reports completion having
    consumed precisely the bytes of the body, so the next request head is
    found where it starts. *)
Theorem chunked_body_exact b rest :
  body_ok b ->
  exists c', chunk_observe new_chunked (encode_body b ++ rest)
             = (c', Z.of_nat (length (encode_body b)), ChunkComplete).
Proof.
  intros Hb. rewrite chunk_observe_run by apply new_chunked_wf. by apply chunk_run_body.
Qed.

Definition sample_body : chunked_body :=
  Body [(SizeLine (bs "0a") (bs " ") (Some (bs "x=1")), bs "0123456789");
        (SizeLine (bs "1") [] None, [13])]
    (SizeLine (bs "00") [] None) [bs "Trailer: v"].

Lemma chunked_body_exact_witness :
  exists c', chunk_observe new_chunked (encode_body sample_body ++ bs "GET / HTTP/1.1")
             = (c', 45, ChunkComplete).
Proof.
  destruct (chunked_body_exact sample_body (bs "GET / HTTP/1.1")) as [c' E].
  - apply (bool_decide_unpack _). by vm_compute.
  - exists c'. rewrite E. by vm_compute.
Defined.
