(* ===== verification/H1Framing.v ===== *)
(** * The HTTP/1 wire observer

    [H1StreamScanner] and [WireScanner] of [proxy/h1_framing_guard.rs]: heads,
    fixed and chunked bodies of one connection, and the detection of the HTTP/2
    preface before them. The observer sees whatever each socket read returns;
    the theorems show that what the scanner knows does not depend on where the
    reads are split, and which hint the bytes raise. Draining that hint after
    each read, and what follows from it, is the guard's part ([H1Guard.v]). *)

From S2P Require Import Prelude Utf8 Decimal H1Signals H1Head H1HeadSpec H1Chunked.

Definition OBSERVED_READ_CAP : Z := 8 * 1024.

(** ** The stream scanner *)

Inductive H1State :=
| StHead (head : HeadScanner)
| StFixedBody (remaining : Z)
| StChunked (chunked : ChunkedScanner)
| StDisabled.

Record H1StreamScanner := Stream { h1_state : H1State; max_head_bytes : Z }.

Definition new_stream (max_head_bytes : Z) : H1StreamScanner :=
  Stream (StHead (new_head max_head_bytes)) max_head_bytes.

Definition body_boundary_read_cap (requested remaining : Z) : Z :=
  Z.min requested (saturating_add 64 (u64_to_usize remaining) OBSERVED_READ_CAP).

Definition stream_read_cap (h1 : H1StreamScanner) (requested : Z) : Z :=
  match h1_state h1 with
  | StFixedBody remaining => body_boundary_read_cap requested remaining
  | StChunked (Chunked (Data remaining) _ _ _) => body_boundary_read_cap requested remaining
  | StHead _ | StChunked _ => Z.min requested OBSERVED_READ_CAP
  | StDisabled => requested
  end.

(** A complete head: [stop] is the early return for conflicting lengths. *)
Definition complete_head (max : Z) (s : H1FramingSignals) (o : HeadOutcome)
  : H1State * H1FramingSignals * bool :=
  if match framing o with BodyInvalid => true | _ => false end
     && (Z.land (parse_reject_hint s) (Z.lxor PARSE_HINT_PRIOR_HEAD (umax 8))
         =? PARSE_HINT_CONFLICTING_CONTENT_LENGTH)
  then (StDisabled, disable_observation s, true)
  else
    let '(s, ok) := push s (outcome_conflict o) in
    if negb ok then (StDisabled, s, false)
    else
      (match framing o with
       | BodyNone => StHead (new_head max)
       | BodyFixed length => StFixedBody length
       | BodyChunked => StChunked new_chunked
       | BodyInvalid => StDisabled
       end, s, false).

Definition is_disabled (st : H1State) : bool :=
  match st with StDisabled => true | _ => false end.

(** The loop of [H1StreamScanner::observe]; [None]: the fuel ran out. *)
Fixpoint stream_loop (fuel : nat) (max : Z) (st : H1State) (s : H1FramingSignals) (l : bytes)
  : option (H1State * H1FramingSignals * bool) :=
  match l with
  | [] => Some (st, s, negb (is_disabled st))
  | b :: l' =>
    match fuel with
    | O => None
    | S fuel =>
      match st with
      | StHead h =>
        match head_observe h s b with
        | (h, s, HeadContinue) => stream_loop fuel max (StHead h) s l'
        | (_, s, HeadComplete o) =>
          let '(st, s, stop) := complete_head max s o in
          if stop then Some (st, s, true) else stream_loop fuel max st s l'
        | (_, s, HeadDisable) => stream_loop fuel max StDisabled s l'
        end
      | StFixedBody remaining =>
        let consumed := Z.min (Z.of_nat (length l)) (u64_to_usize remaining) in
        let remaining := remaining - consumed in
        stream_loop fuel max
          (if remaining =? 0 then StHead (new_head max) else StFixedBody remaining) s
          (drop (Z.to_nat consumed) l)
      | StChunked c =>
        let '(c, consumed, step) := chunk_observe c l in
        stream_loop fuel max
          (match step with
           | ChunkContinue => StChunked c
           | ChunkComplete => StHead (new_head max)
           | ChunkDisable => StDisabled
           end) s (drop (Z.to_nat consumed) l)
      | StDisabled => Some (StDisabled, s, false)
      end
    end
  end.

(** On reachable states every round consumes a byte. *)
Definition stream_observe (h1 : H1StreamScanner) (s : H1FramingSignals) (l : bytes)
  : H1StreamScanner * H1FramingSignals * bool :=
  let '(st, s, ok) :=
    default (StDisabled, s, false) (stream_loop (length l) (max_head_bytes h1) (h1_state h1) s l) in
  (Stream st (max_head_bytes h1), s, ok).

(** ** The wire scanner *)

Definition H2_PREFACE : bytes :=
  bs "PRI * HTTP/2.0" ++ crlf ++ crlf ++ bs "SM" ++ crlf ++ crlf.

Inductive Protocol := Detect | Http1 | Http2 | Disabled.

#[global] Instance Protocol_eq_dec : EqDecision Protocol.
Proof. solve_decision. Defined.

Record WireScanner := Wire {
  protocol : Protocol;
  preface : bytes;
  preface_len : nat;
  h1 : H1StreamScanner;
}.

Definition new_wire (max_head_bytes : Z) : WireScanner :=
  Wire Detect (replicate (length H2_PREFACE) 0) 0 (new_stream max_head_bytes).

Definition set_protocol (w : WireScanner) (p : Protocol) : WireScanner :=
  Wire p (preface w) (preface_len w) (h1 w).
Definition set_h1 (w : WireScanner) (h : H1StreamScanner) : WireScanner :=
  Wire (protocol w) (preface w) (preface_len w) h.

Definition read_cap (w : WireScanner) (requested : Z) : Z :=
  if requested =? 0 then 0
  else match protocol w with
       | Detect => Z.min requested OBSERVED_READ_CAP
       | Http1 => stream_read_cap (h1 w) requested
       | Http2 | Disabled => requested
       end.

Definition observation_active (w : WireScanner) : bool :=
  match protocol w with Detect | Http1 => true | _ => false end.

Definition disable_if_requested (w : WireScanner) (s : H1FramingSignals) : WireScanner :=
  if observation_active w && observation_disabled s then set_protocol w Disabled else w.

(** Hand bytes to the HTTP/1 scanner; a refusal is a divergence. *)
Definition observe_h1 (w : WireScanner) (s : H1FramingSignals) (l : bytes)
  : WireScanner * H1FramingSignals * bool :=
  let '(h, s, ok) := stream_observe (h1 w) s l in
  if ok then (set_h1 w h, s, true)
  else (set_protocol (set_h1 w h) Disabled, mark_unknown s, false).

(** The detection loop: the scanner, the bytes left, and whether [observe]
    returns from inside the loop. *)
Fixpoint detect_loop (w : WireScanner) (s : H1FramingSignals) (l : bytes)
  : WireScanner * H1FramingSignals * bytes * bool :=
  match l with
  | [] => (w, s, [], false)
  | byte :: l =>
    match H2_PREFACE !! preface_len w with
    | None => (set_protocol w Disabled, mark_unknown s, l, true)
    | Some expected =>
      if (length (preface w) <=? preface_len w)%nat
      then (set_protocol w Disabled, mark_unknown s, l, true)
      else
        let w := Wire (protocol w) (<[preface_len w := byte]> (preface w)) (S (preface_len w)) (h1 w) in
        if negb (byte =? expected) then
          let w := set_protocol w Http1 in
          match observe_h1 w s (take (preface_len w) (preface w)) with
          | (w, s, true) => (w, s, l, false)
          | (w, s, false) => (w, s, l, true)
          end
        else if (preface_len w =? length H2_PREFACE)%nat then (set_protocol w Http2, s, l, true)
        else detect_loop w s l
    end
  end.

Definition observe (w : WireScanner) (s : H1FramingSignals) (l : bytes)
  : WireScanner * H1FramingSignals :=
  let '(w, s, l, returned) :=
    if decide (protocol w = Detect) then detect_loop w s l else (w, s, l, false) in
  if returned then (w, s)
  else if decide (protocol w = Http1) then fst (observe_h1 w s l)
  else (w, s).

(** What one socket read does to the observer ([poll_read]). *)
Definition wire_read (ws : WireScanner * H1FramingSignals) (l : bytes)
  : WireScanner * H1FramingSignals :=
  let '(w, s) := ws in
  let w := disable_if_requested w s in
  if observation_active w then observe w s l else (w, s).

(** ** Reference: one byte at a time *)

Definition stream_feed (max : Z) (st : H1State) (s : H1FramingSignals) (b : Z)
  : H1State * H1FramingSignals * bool :=
  match st with
  | StHead h =>
    match head_observe h s b with
    | (h, s, HeadContinue) => (StHead h, s, false)
    | (_, s, HeadComplete o) => complete_head max s o
    | (_, s, HeadDisable) => (StDisabled, s, false)
    end
  | StFixedBody n => (if n =? 1 then StHead (new_head max) else StFixedBody (n - 1), s, false)
  | StChunked c =>
    match chunk_feed c b with
    | (c, ChunkContinue) => (StChunked c, s, false)
    | (_, ChunkComplete) => (StHead (new_head max), s, false)
    | (_, ChunkDisable) => (StDisabled, s, false)
    end
  | StDisabled => (StDisabled, s, false)
  end.

Fixpoint stream_run (max : Z) (st : H1State) (s : H1FramingSignals) (l : bytes)
  : H1State * H1FramingSignals * bool :=
  match l with
  | [] => (st, s, negb (is_disabled st))
  | b :: l =>
    let '(st, s, stop) := stream_feed max st s b in
    if is_disabled st then (st, s, stop) else stream_run max st s l
  end.

(** ** Type invariant *)

Definition in_u64 (n : Z) : Prop := 0 <= n <= umax 64.

Definition line_utf8_wf (u : RequestLineUtf8) : Prop :=
  length (partial u) = 4%nat /\ (partial_len u <= 4)%nat.

(** The lengths are words, the byte counters saturate at a word, and the two
    fixed buffers are filled within their size. *)
Record head_wf (h : HeadScanner) : Prop := {
  wf_value : in_u64 (value (content_length_value h));
  wf_canonical : forall n, canonical_content_length h = Some n -> in_u64 n;
  wf_seen : in_u64 (bytes_seen h);
  wf_name_len : in_u64 (name_len h);
  wf_utf8 : line_utf8_wf (request_line_utf8 h);
  wf_tail : length (request_line_tail h) = 12%nat;
  wf_tail_len : (request_line_tail_len h <= 12)%nat;
}.

Definition state_wf (st : H1State) : Prop :=
  match st with
  | StHead h => head_wf h
  | StFixedBody n => 1 <= n <= umax 64
  | StChunked c => chunked_wf c
  | StDisabled => True
  end.

Lemma new_head_wf max : head_wf (new_head max).
Proof. split; try done; cbn; [split; cbn; lia|lia]. Qed.

Lemma in_u64_succ n : in_u64 n -> in_u64 (saturating_add 64 n 1).
Proof. unfold in_u64, saturating_add. lia. Qed.

Lemma utf8_observe_wf u b : line_utf8_wf u -> line_utf8_wf (utf8_observe u b).
Proof.
  intros [Hl Hn]. unfold utf8_observe.
  destruct (invalid u); [done|]. rewrite Hl.
  destruct (Nat.leb_spec 4 (partial_len u)); [by split|].
  repeat case_match; split; cbn; rewrite ?length_insert; done || lia.
Qed.

Lemma cl_digit_wf v b n : in_u64 v -> is_ascii_digit b = true -> cl_digit v b = Some n -> in_u64 n.
Proof.
  unfold in_u64. intros Hv Hb Hd. rewrite cl_digit_spec in Hd by (done || lia).
  apply is_ascii_digit_spec in Hb.
  destruct (Z.leb_spec (v * 10 + (b - 48)) (umax 64)); simplify_eq. lia.
Qed.

Lemma cl_observe_wf c b : in_u64 (value c) -> in_u64 (value (cl_observe c b)).
Proof.
  intros H. unfold cl_observe.
  destruct (phase c), (is_ows b), (is_ascii_digit b) eqn:Hb; try exact H;
    destruct (cl_digit (value c) b) eqn:Hd; try exact H; by eapply cl_digit_wf.
Qed.

Lemma observe_request_byte_wf h b : head_wf h -> head_wf (observe_request_byte h b).
Proof.
  intros [Hv Hc Hs Hn Hu Ht Hl]. unfold observe_request_byte.
  cbn [request_line_tail request_line_tail_len set_request_line_utf8]. rewrite Ht.
  destruct (Nat.ltb_spec (request_line_tail_len h) 12); constructor; cbn; auto using utf8_observe_wf.
  - by rewrite length_insert.
  - rewrite length_app, length_drop, Ht. cbn. lia.
Qed.

Lemma observe_line_byte_wf h b : head_wf h -> head_wf (observe_line_byte h b).
Proof.
  intros Hwf. unfold observe_line_byte, observe_colon.
  assert (H1 : head_wf (set_line_has_data h true)) by (by destruct Hwf).
  set (h1 := set_line_has_data h true) in *. clearbody h1.
  destruct (request_line h1); [by apply observe_request_byte_wf|]. destruct H1.
  repeat case_match; constructor; cbn; auto using cl_observe_wf, in_u64_succ; done.
Qed.

Lemma finish_content_length_wf h s : head_wf h -> head_wf (fst (finish_content_length h s)).
Proof.
  intros []. unfold finish_content_length, cl_finish.
  destruct (phase (content_length_value h)); try by split.
  all: case_match; split; simpl; auto; intros n E; simplify_eq; done.
Qed.

Lemma reset_line_wf h : head_wf h -> head_wf (reset_line h).
Proof. intros []. constructor; cbn; done || lia. Qed.

Definition outcome_wf (step : HeadStep) : Prop :=
  forall o n, step = HeadComplete o -> framing o = BodyFixed n -> 1 <= n <= umax 64.

Lemma finish_line_wf h s :
  head_wf h -> head_wf (fst (fst (finish_line h s))) /\ outcome_wf (snd (finish_line h s)).
Proof.
  intros Hwf. pose proof (finish_content_length_wf h s Hwf) as Hcl.
  pose proof (wf_canonical h Hwf) as Hc.
  unfold finish_line. destruct (line_has_data h); simpl.
  - split; [|by destruct (request_line h); simpl; [|destruct (current_header h), (conflict h)];
      try destruct (finish_content_length h s)].
    destruct (request_line h); [apply reset_line_wf; by destruct Hwf; constructor|].
    destruct (current_header h), (conflict h); try by apply reset_line_wf.
    destruct (finish_content_length h s). by apply reset_line_wf.
  - destruct (request_line h); [by split|]. split; [done|].
    intros o n [= <-]; simpl. destruct (seen_transfer_encoding h); [done|].
    destruct (content_length_valid h); [simpl|done].
    destruct (canonical_content_length h) as [m|] eqn:E; [|done].
    destruct (Z.eqb_spec m 0); [done|]. intros [= <-]. specialize (Hc m eq_refl).
    unfold in_u64 in Hc. lia.
Qed.

Lemma set_pending_cr_wf h p : head_wf h -> head_wf (set_pending_cr h p).
Proof. by intros []. Qed.

Lemma head_observe_wf h s b :
  head_wf h -> head_wf (fst (fst (head_observe h s b))) /\ outcome_wf (snd (head_observe h s b)).
Proof.
  intros Hwf. unfold head_observe.
  set (h1 := set_bytes_seen h _).
  assert (H1 : head_wf h1) by (destruct Hwf; constructor; cbn; auto using in_u64_succ). clearbody h1.
  destruct (max_bytes h1 <? bytes_seen h1); [done|].
  destruct (pending_cr h1 && (b =? 10)); [by apply finish_line_wf, set_pending_cr_wf|].
  assert (H2 : head_wf (fst (if pending_cr h1 then observe_data (set_pending_cr h1 false) s 13 else (h1, s)))).
  { destruct (pending_cr h1); [|done]. by apply observe_line_byte_wf, set_pending_cr_wf. }
  destruct (if pending_cr h1 then _ else _) as [h2 s2]; simpl in H2.
  destruct (b =? 13); [by split; [apply set_pending_cr_wf|]|]. destruct (b =? 10); [by apply finish_line_wf|].
  split; [by apply observe_line_byte_wf|done].
Qed.

Lemma complete_head_wf max s o :
  outcome_wf (HeadComplete o) -> state_wf (fst (fst (complete_head max s o))).
Proof.
  intros Ho. unfold complete_head. case_match; [done|].
  destruct (push s (outcome_conflict o)) as [s' []]; simpl; [|done].
  destruct (framing o) eqn:E; simpl; auto using new_head_wf, new_chunked_wf.
  by eapply Ho.
Qed.

(** Every byte keeps the invariant. *)
Lemma stream_feed_wf max st s b :
  state_wf st -> state_wf (fst (fst (stream_feed max st s b))).
Proof.
  intros Hst. destruct st as [h|n|c|]; simpl in *.
  - pose proof (head_observe_wf h s b Hst) as [Hh Ho].
    destruct (head_observe h s b) as [[h' s'] [|o|]]; simpl in *; [done| |done].
    by apply complete_head_wf.
  - destruct (Z.eqb_spec n 1); simpl; [by apply new_head_wf|lia].
  - pose proof (chunk_feed_wf c b Hst). destruct (chunk_feed c b) as [c' []]; simpl in *; done || apply new_head_wf.
  - done.
Qed.

(** ** The loop is the byte-at-a-time run *)

Lemma stream_run_disabled max s l : stream_run max StDisabled s l = (StDisabled, s, false).
Proof. by destruct l. Qed.

Lemma stream_run_fixed max s l : forall n, 1 <= n ->
  stream_run max (StFixedBody n) s l
  = if Z.of_nat (length l) <? n then (StFixedBody (n - Z.of_nat (length l)), s, true)
    else stream_run max (StHead (new_head max)) s (drop (Z.to_nat n) l).
Proof.
  induction l as [|b l IH]; intros n Hn; cbn [stream_run length stream_feed].
  { destruct (Z.ltb_spec (Z.of_nat 0) n); [|lia]. by rewrite Z.sub_0_r. }
  destruct (Z.eqb_spec n 1) as [->|Hne]; cbn [is_disabled].
  { destruct (Z.ltb_spec (Z.of_nat (S (length l))) 1); [lia|]. done. }
  rewrite IH by lia.
  destruct (Z.ltb_spec (Z.of_nat (length l)) (n - 1)),
    (Z.ltb_spec (Z.of_nat (S (length l))) n); try lia.
  - by replace (n - 1 - Z.of_nat (length l)) with (n - Z.of_nat (S (length l))) by lia.
  - by replace (Z.to_nat n) with (S (Z.to_nat (n - 1))) by lia.
Qed.

(** What [chunk_run] consumes. *)
Lemma chunk_run_consumed l : forall c offset,
  let '(_, k, step) := chunk_run c l offset in
  match step with
  | ChunkContinue => k = offset + Z.of_nat (length l)
  | _ => offset < k <= offset + Z.of_nat (length l)
  end.
Proof.
  induction l as [|b l IH]; intros c offset; cbn [chunk_run length]; [lia|].
  destruct (chunk_feed c b) as [c' []]; [|lia..].
  specialize (IH c' (offset + 1)). destruct (chunk_run c' l (offset + 1)) as [[? k] []]; lia.
Qed.

Lemma stream_run_chunked max s l : forall c offset,
  stream_run max (StChunked c) s l
  = let '(c', k, step) := chunk_run c l offset in
    match step with
    | ChunkContinue => (StChunked c', s, true)
    | ChunkComplete => stream_run max (StHead (new_head max)) s (drop (Z.to_nat (k - offset)) l)
    | ChunkDisable => (StDisabled, s, false)
    end.
Proof.
  induction l as [|b l IH]; intros c offset; cbn [stream_run stream_feed chunk_run]; [done|].
  destruct (chunk_feed c b) as [c' []]; cbn [is_disabled].
  - rewrite (IH c' (offset + 1)).
    pose proof (chunk_run_consumed l c' (offset + 1)) as Hk.
    destruct (chunk_run c' l (offset + 1)) as [[c'' k] []]; try done.
    replace (Z.to_nat (k - offset)) with (S (Z.to_nat (k - (offset + 1)))) by lia. done.
  - replace (Z.to_nat (offset + 1 - offset)) with 1%nat by lia. done.
  - done.
Qed.

Lemma chunk_run_wf l : forall c offset, chunked_wf c -> chunked_wf (fst (fst (chunk_run c l offset))).
Proof.
  induction l as [|b l IH]; intros c offset Hc; simpl; [done|].
  pose proof (chunk_feed_wf c b Hc). destruct (chunk_feed c b) as [c' []]; simpl in *; auto.
Qed.

Lemma stream_loop_fixed fuel max s n l :
  1 <= n <= umax 64 -> (length l <= S fuel)%nat -> l <> [] ->
  (forall st l', state_wf st -> (length l' <= fuel)%nat ->
     stream_loop fuel max st s l' = Some (stream_run max st s l')) ->
  stream_loop (S fuel) max (StFixedBody n) s l = Some (stream_run max (StFixedBody n) s l).
Proof.
  intros Hn Hf Hne IH. destruct l as [|b l]; [done|]. cbn [stream_loop].
  rewrite stream_run_fixed by lia. unfold u64_to_usize. rewrite (Z.min_l n) by lia.
  cbn [length] in *. destruct (Z.ltb_spec (Z.of_nat (S (length l))) n).
  - rewrite Z.min_l, Nat2Z.id by lia. rewrite drop_ge by done.
    destruct (Z.eqb_spec (n - Z.of_nat (S (length l))) 0); [lia|]. by destruct fuel.
  - rewrite Z.min_r, Z.sub_diag by lia. cbn [Z.eqb]. apply IH; [apply new_head_wf|].
    rewrite length_drop. cbn [length]. lia.
Qed.

Lemma stream_loop_run fuel : forall max st s l,
  state_wf st -> (length l <= fuel)%nat ->
  stream_loop fuel max st s l = Some (stream_run max st s l).
Proof.
  induction fuel as [|fuel IH]; intros max st s l Hst Hf; destruct l as [|b l]; try done;
    cbn [length] in Hf; [lia|].
  destruct st as [h|n|c|]; cbn [stream_loop stream_run].
  - pose proof (stream_feed_wf max (StHead h) s b Hst) as Hwf. cbn [stream_feed] in *.
    pose proof (head_observe_wf h s b Hst) as [Hh Ho].
    destruct (head_observe h s b) as [[h' s'] [|o|]]; cbn [fst snd is_disabled] in *.
    + apply IH; [done|lia].
    + destruct (complete_head max s' o) as [[st'' s''] stop] eqn:Ec; cbn [fst snd] in *.
      assert (stop = true -> is_disabled st'' = true).
      { revert Ec. unfold complete_head. repeat (case_match; simplify_eq/=); naive_solver. }
      destruct stop; [by rewrite H by done|]. rewrite IH by (done || lia).
      destruct st''; try done. by rewrite stream_run_disabled.
    + rewrite IH by (done || lia). by rewrite stream_run_disabled.
  - apply (stream_loop_fixed fuel max s n (b :: l)); [done|simpl; lia|done|]. intros; by apply IH.
  - change (Some ?x) with (Some (stream_run max (StChunked c) s (b :: l))).
    rewrite chunk_observe_run by done. rewrite (stream_run_chunked max s (b :: l) c 0).
    pose proof (chunk_run_consumed (b :: l) c 0) as Hk. pose proof (chunk_run_wf (b :: l) c 0 Hst) as Hc.
    destruct (chunk_run c (b :: l) 0) as [[c' k] step]; cbn [fst length] in *. rewrite ?Z.sub_0_r.
    assert (Hl : step <> ChunkContinue -> (length (drop (Z.to_nat k) (b :: l)) <= fuel)%nat).
    { intros. rewrite length_drop. cbn [length]. destruct step; [done|lia..]. }
    destruct step.
    + subst k. rewrite Z.add_0_l, Nat2Z.id, drop_ge by (simpl; lia). by destruct fuel.
    + apply IH; [apply new_head_wf|]. by apply Hl.
    + rewrite IH by (done || by apply Hl). by rewrite stream_run_disabled.
  - done.
Qed.

Lemma stream_observe_run h s l :
  state_wf (h1_state h) ->
  stream_observe h s l
  = let '(st, s', ok) := stream_run (max_head_bytes h) (h1_state h) s l in
    (Stream st (max_head_bytes h), s', ok).
Proof. intros Hst. unfold stream_observe. by rewrite stream_loop_run by done. Qed.

Lemma stream_run_app max l1 : forall st s l2,
  stream_run max st s (l1 ++ l2)
  = let '(st', s', ok) := stream_run max st s l1 in
    if is_disabled st' then (st', s', if is_disabled st then false else ok)
    else stream_run max st' s' l2.
Proof.
  induction l1 as [|b l1 IH]; intros st s l2; cbn [app stream_run].
  - destruct st; try done. apply stream_run_disabled.
  - destruct (stream_feed max st s b) as [[st' s'] stop] eqn:E.
    destruct (is_disabled st') eqn:Ed.
    + rewrite Ed. destruct st; try done. cbn in E. simplify_eq. done.
    + rewrite IH. destruct st; cbn in E; simplify_eq; cbn [is_disabled] in *; try done.
      all: by rewrite Ed.
Qed.

Lemma stream_run_wf max l : forall st s, state_wf st -> state_wf (fst (fst (stream_run max st s l))).
Proof.
  induction l as [|b l IH]; intros st s Hst; simpl; [done|].
  pose proof (stream_feed_wf max st s b Hst) as Hf.
  destruct (stream_feed max st s b) as [[st' s'] stop]; simpl in *. case_match; [done|by apply IH].
Qed.

(** ** Observation stays enabled until the scanner is disabled *)

Lemma store_hint_disabled s h :
  observation_disabled (store_parse_reject_hint s h) = observation_disabled s.
Proof. unfold store_parse_reject_hint. by repeat case_match. Qed.

Lemma finish_line_disabled h s :
  observation_disabled (snd (fst (finish_line h s))) = observation_disabled s.
Proof.
  unfold finish_line, finish_head, finish_request_line, finish_content_length, store_http10_hint.
  repeat (case_match; simplify_eq/=); by rewrite ?store_hint_disabled.
Qed.

Lemma head_observe_disabled h s b :
  observation_disabled (snd (fst (head_observe h s b))) = observation_disabled s.
Proof.
  unfold head_observe, observe_data, store_utf8_hint_if_invalid.
  repeat (case_match; simplify_eq/=); rewrite ?finish_line_disabled, ?store_hint_disabled; done.
Qed.

Lemma push_enabled s b s' : push s b = (s', true) -> observation_disabled s' = false.
Proof. unfold push. intros E. repeat (case_match; simplify_eq/=); done. Qed.

Lemma stream_feed_enabled max st s b :
  observation_disabled s = false ->
  let '(st', s', stop) := stream_feed max st s b in
  (is_disabled st' = false -> observation_disabled s' = false)
  /\ (stop = true -> is_disabled st' = true /\ observation_disabled s' = true).
Proof.
  intros Hs. destruct st as [h|n|c|]; simpl.
  - pose proof (head_observe_disabled h s b) as Hd.
    destruct (head_observe h s b) as [[h' s'] [|o|]]; simpl in *; [by rewrite Hd| |done].
    unfold complete_head. destruct (_ && _); [done|].
    destruct (push s' (outcome_conflict o)) as [s'' []] eqn:Ep; simpl; [|done].
    split; [|done]. intros _. by eapply push_enabled.
  - by case_match.
  - by destruct (chunk_feed c b) as [c' []].
  - done.
Qed.

Lemma stream_run_enabled max l : forall st s,
  observation_disabled s = false -> is_disabled st = false ->
  let '(st', s', ok) := stream_run max st s l in
  (is_disabled st' = false -> observation_disabled s' = false /\ ok = true)
  /\ (is_disabled st' = true -> ok = true -> observation_disabled s' = true).
Proof.
  induction l as [|b l IH]; intros st s Hs Hst; simpl; [by rewrite Hst|].
  pose proof (stream_feed_enabled max st s b Hs) as Hf.
  destruct (stream_feed max st s b) as [[st' s'] stop]. destruct Hf as [Hf1 Hf2].
  destruct (is_disabled st') eqn:Hd.
  - rewrite Hd. split; [done|]. intros _ ->. by apply Hf2.
  - by apply IH; [apply Hf1|].
Qed.

(** ** A prefix without a colon cannot be refused for its lengths *)

Definition plain_head (h : HeadScanner) : Prop :=
  current_header h = Name /\ content_length_valid h = true
  /\ canonical_content_length h = None /\ seen_transfer_encoding h = false.

Lemma observe_line_byte_plain h b : b <> 58 -> plain_head h -> plain_head (observe_line_byte h b).
Proof.
  intros Hb (H1 & H2 & H3 & H4). unfold observe_line_byte, observe_request_byte, plain_head.
  simpl. rewrite H1. destruct (Z.eqb_spec b 58); [done|]. repeat case_match; done.
Qed.

Lemma finish_line_plain h s :
  plain_head h ->
  plain_head (fst (fst (finish_line h s)))
  /\ forall o, snd (finish_line h s) = HeadComplete o -> framing o = BodyNone.
Proof.
  intros (H1 & H2 & H3 & H4). unfold finish_line, finish_head, finish_request_line, plain_head.
  rewrite H1, H2, H3, H4. repeat (case_match; simplify_eq/=);
    (split; [by rewrite ?H1, ?H2, ?H3, ?H4|intros; by simplify_eq/=]).
Qed.

Lemma head_observe_plain h s b :
  b <> 58 -> plain_head h ->
  plain_head (fst (fst (head_observe h s b)))
  /\ forall o, snd (head_observe h s b) = HeadComplete o -> framing o = BodyNone.
Proof.
  intros Hb Hp. unfold head_observe.
  set (h1 := set_bytes_seen h _). assert (H1 : plain_head h1) by done. clearbody h1.
  destruct (max_bytes h1 <? bytes_seen h1); [done|].
  destruct (pending_cr h1 && (b =? 10)); [by apply finish_line_plain|].
  assert (H2 : plain_head (fst (if pending_cr h1 then observe_data (set_pending_cr h1 false) s 13 else (h1, s)))).
  { destruct (pending_cr h1); [|done].
    by apply (observe_line_byte_plain (set_pending_cr h1 false)). }
  destruct (if pending_cr h1 then _ else _) as [h2 s2]; simpl in H2.
  destruct (b =? 13); [done|]. destruct (b =? 10); [by apply finish_line_plain|].
  split; [by apply observe_line_byte_plain|done].
Qed.

Lemma head_observe_not_lf h s b o : b <> 10 -> snd (head_observe h s b) <> HeadComplete o.
Proof.
  intros Hb. unfold head_observe. destruct (Z.eqb_spec b 10); [done|].
  rewrite andb_false_r. repeat case_match; done.
Qed.

Definition plain_state (st : H1State) : Prop :=
  match st with StHead h => plain_head h | _ => False end.

(** Feeding colon-free bytes and then one arbitrary byte never takes the early
    return. *)
Lemma stream_run_plain max l : forall st s,
  58 ∉ l -> plain_state st ->
  let '(st', _, ok) := stream_run max st s l in
  (is_disabled st' = true -> ok = false) /\ (is_disabled st' = false -> plain_state st').
Proof.
  induction l as [|b l IH]; intros st s Hl Hst; simpl; [by destruct st|].
  apply not_elem_of_cons in Hl as [Hb Hl].
  assert (Hf : let '(st', s', stop) := stream_feed max st s b in
            stop = false /\ (is_disabled st' = false -> plain_state st')).
  { destruct st as [h| | |]; try done. simpl in *.
    pose proof (head_observe_plain h s b ltac:(done) Hst) as [Hh Ho].
    destruct (head_observe h s b) as [[h' s'] [|o|]]; simpl in *; [done| |done].
    unfold complete_head. rewrite (Ho o eq_refl). simpl.
    by destruct (push s' (outcome_conflict o)) as [s'' []]. }
  destruct (stream_feed max st s b) as [[st' s'] stop]. destruct Hf as [-> Hp].
  destruct (is_disabled st') eqn:Hd; [by rewrite Hd|]. apply IH; auto.
Qed.

Lemma stream_run_plain_snoc max l b st s :
  58 ∉ l -> plain_state st ->
  let '(st', _, ok) := stream_run max st s (l ++ [b]) in is_disabled st' = true -> ok = false.
Proof.
  intros Hl Hst. destruct (Z.eq_dec b 58) as [->|Hb].
  - rewrite stream_run_app. pose proof (stream_run_plain max l st s Hl Hst) as H.
    destruct (stream_run max st s l) as [[st' s'] ok]. destruct H as [H1 H2].
    destruct (is_disabled st') eqn:Hd.
    + rewrite Hd. by destruct st.
    + specialize (H2 eq_refl). destruct st' as [h| | |]; try done. simpl.
      pose proof (head_observe_not_lf h s' 58) as Hn.
      destruct (head_observe h s' 58) as [[h' s''] [|o|]]; simpl in *; [done| |done].
      by destruct (Hn o).
  - assert (Hlb : 58 ∉ l ++ [b]) by set_solver.
    pose proof (stream_run_plain max (l ++ [b]) st s Hlb Hst) as H.
    destruct (stream_run max st s (l ++ [b])) as [[st' s'] ok]. apply H.
Qed.

(** ** The observer depends on the bytes alone

    [wire_spec]: what the observer should know after the bytes [l] of a
    connection, as a function of the bytes. HTTP/2 is the exact preface; until
    the first difference nothing is published; otherwise it is the
    byte-at-a-time run over all of [l]. *)

Definition wire_view : Type := Protocol * H1FramingSignals * option H1State.

Definition stream_view (r : H1State * H1FramingSignals * bool) : wire_view :=
  let '(st, s, ok) := r in
  if is_disabled st then (Disabled, if ok then s else mark_unknown s, None)
  else (Http1, s, Some st).

Definition wire_spec (max : Z) (s : H1FramingSignals) (l : bytes) : wire_view :=
  if decide (H2_PREFACE `prefix_of` l) then (Http2, s, None)
  else if decide (l `prefix_of` H2_PREFACE) then (Detect, s, None)
  else stream_view (stream_run max (StHead (new_head max)) s l).

Lemma wire_spec_detect max s l :
  l `prefix_of` H2_PREFACE -> l <> H2_PREFACE -> wire_spec max s l = (Detect, s, None).
Proof.
  intros Hp Hne. unfold wire_spec.
  rewrite (decide_False (P := H2_PREFACE `prefix_of` l))
    by (intros Hq; apply Hne; by apply (anti_symm prefix)).
  by rewrite decide_True.
Qed.

Lemma wire_spec_http2 max s l : H2_PREFACE `prefix_of` l -> wire_spec max s l = (Http2, s, None).
Proof. intros Hp. unfold wire_spec. by rewrite decide_True. Qed.

Lemma wire_spec_http1 max s l :
  ~ l `prefix_of` H2_PREFACE -> ~ H2_PREFACE `prefix_of` l ->
  wire_spec max s l = stream_view (stream_run max (StHead (new_head max)) s l).
Proof. intros. unfold wire_spec. by rewrite !decide_False by done. Qed.

(** The observer's own state, a pending disable request applied. *)
Definition view (ws : WireScanner * H1FramingSignals) : wire_view :=
  let '(w, s) := ws in
  let p := protocol (disable_if_requested w s) in
  (p, s, if decide (p = Http1) then Some (h1_state (h1 w)) else None).

(** A scanner that has consumed the bytes [l], starting from signals [s0]. *)
Inductive tracks (max : Z) (s0 : H1FramingSignals) (l : bytes)
  : WireScanner * H1FramingSignals -> Prop :=
| TracksDetect pre :
    l `prefix_of` H2_PREFACE -> l <> H2_PREFACE ->
    length pre = length H2_PREFACE -> take (length l) pre = l ->
    tracks max s0 l (Wire Detect pre (length l) (new_stream max), s0)
| TracksHttp2 w :
    H2_PREFACE `prefix_of` l -> protocol w = Http2 -> tracks max s0 l (w, s0)
| TracksHttp1 w st s ok :
    ~ l `prefix_of` H2_PREFACE -> ~ H2_PREFACE `prefix_of` l ->
    stream_run max (StHead (new_head max)) s0 l = (st, s, ok) ->
    is_disabled st = false -> protocol w = Http1 -> h1 w = Stream st max ->
    tracks max s0 l (w, s)
| TracksStopped w st s :
    ~ l `prefix_of` H2_PREFACE -> ~ H2_PREFACE `prefix_of` l ->
    stream_run max (StHead (new_head max)) s0 l = (st, s, true) ->
    is_disabled st = true -> protocol w = Http1 \/ protocol w = Disabled ->
    tracks max s0 l (w, s)
| TracksFailed w st s :
    ~ l `prefix_of` H2_PREFACE -> ~ H2_PREFACE `prefix_of` l ->
    stream_run max (StHead (new_head max)) s0 l = (st, s, false) ->
    is_disabled st = true -> protocol w = Disabled ->
    tracks max s0 l (w, mark_unknown s).

Section Tracking.
Context (max : Z) (s0 : H1FramingSignals) (Hs0 : observation_disabled s0 = false).

Lemma tracks_view l ws : tracks max s0 l ws -> view ws = wire_spec max s0 l.
Proof.
  intros Ht. unfold view, disable_if_requested, observation_active.
  pose proof (stream_run_enabled max l (StHead (new_head max)) s0 Hs0 eq_refl) as He.
  destruct Ht as [pre Hp Hne Hlen Htake|w Hp Hw|w st s ok Hn1 Hn2 Hr Hd Hw Hh|w st s Hn1 Hn2 Hr Hd Hw|w st s Hn1 Hn2 Hr Hd Hw].
  - rewrite wire_spec_detect by done. by rewrite Hs0.
  - rewrite wire_spec_http2 by done. rewrite Hw; simpl. by rewrite Hw.
  - rewrite wire_spec_http1 by done. rewrite Hr in *; simpl. rewrite Hd.
    destruct He as [He _]. destruct (He Hd) as [Hs _].
    rewrite Hs, andb_false_r, Hw, Hh. done.
  - rewrite wire_spec_http1 by done. rewrite Hr in *; simpl. rewrite Hd.
    destruct He as [_ He]. rewrite (He Hd eq_refl).
    by destruct Hw as [Hw|Hw]; rewrite Hw; simpl; rewrite ?Hw.
  - rewrite wire_spec_http1 by done. rewrite Hr; simpl. rewrite Hd.
    rewrite Hw; simpl. by rewrite Hw.
Qed.

(** Handing more bytes to a running HTTP/1 scanner. *)
Lemma observe_h1_tracks w l l' st s ok :
  ~ l `prefix_of` H2_PREFACE -> ~ H2_PREFACE `prefix_of` l ->
  stream_run max (StHead (new_head max)) s0 l = (st, s, ok) -> is_disabled st = false ->
  protocol w = Http1 -> h1 w = Stream st max ->
  tracks max s0 (l ++ l') (fst (observe_h1 w s l')).
Proof.
  intros Hn1 Hn2 Hr Hd Hw Hh.
  assert (Hn1' : ~ (l ++ l') `prefix_of` H2_PREFACE)
    by (intros [k E]; apply Hn1; exists (l' ++ k); by rewrite app_assoc).
  assert (Hn2' : ~ H2_PREFACE `prefix_of` l ++ l').
  { intros Hp. destruct (prefix_weak_total H2_PREFACE l (l ++ l')); try done.
    by apply prefix_app_r. }
  pose proof (stream_run_wf max l (StHead (new_head max)) s0 (new_head_wf max)) as Hwf.
  pose proof (stream_run_app max l (StHead (new_head max)) s0 l') as Happ.
  rewrite Hr in Hwf, Happ. rewrite Hd in Happ. simpl in Hwf.
  unfold observe_h1. rewrite Hh, stream_observe_run by done. cbn [h1_state max_head_bytes].
  pose proof (stream_run_enabled max (l ++ l') (StHead (new_head max)) s0 Hs0 eq_refl) as He.
  rewrite Happ in He.
  destruct (stream_run max st s l') as [[st' s'] ok']. destruct He as [He1 He2].
  destruct (is_disabled st') eqn:Hd'; destruct ok'; simpl.
  - eapply TracksStopped; eauto.
  - eapply TracksFailed; eauto.
  - eapply TracksHttp1; eauto.
  - by destruct (He1 eq_refl).
Qed.

Lemma preface_no_colon l : l `prefix_of` H2_PREFACE -> 58 ∉ l.
Proof.
  intros [k E] Hin. assert (H : 58 ∈ H2_PREFACE) by (rewrite E; set_solver). revert H.
  by apply (bool_decide_unpack _).
Qed.

(** The mismatch: the buffered prefix is replayed, then the rest follows. *)
Lemma mismatch_tracks w l b l' :
  l `prefix_of` H2_PREFACE -> l <> H2_PREFACE ->
  ~ (l ++ [b]) `prefix_of` H2_PREFACE ->
  protocol w = Http1 -> h1 w = new_stream max ->
  tracks max s0 (l ++ b :: l')
    (let '(w, s, ok) := observe_h1 w s0 (l ++ [b]) in
     if ok then fst (observe_h1 w s l') else (w, s)).
Proof.
  intros Hp Hne Hn1 Hw Hh.
  assert (Hn2 : ~ H2_PREFACE `prefix_of` l ++ [b]).
  { intros Hq. apply Hn1.
    assert (Hl : (length l < length H2_PREFACE)%nat).
    { destruct (Nat.lt_ge_cases (length l) (length H2_PREFACE)); [done|].
      by destruct Hne; apply prefix_length_eq. }
    rewrite <- (prefix_length_eq _ _ Hq); [done|]. rewrite length_app. change (length [b]) with 1%nat. lia. }
  replace (l ++ b :: l') with ((l ++ [b]) ++ l') by (by rewrite <- app_assoc).
  pose proof (stream_run_plain_snoc max l b (StHead (new_head max)) s0 (preface_no_colon l Hp)
                ltac:(by split_and!)) as Hplain.
  pose proof (stream_run_enabled max (l ++ [b]) (StHead (new_head max)) s0 Hs0 eq_refl) as He.
  pose proof (stream_run_app max (l ++ [b]) (StHead (new_head max)) s0 l') as Happ.
  unfold observe_h1 at 1. rewrite Hh, stream_observe_run by apply new_head_wf.
  cbn [new_stream h1_state max_head_bytes].
  destruct (stream_run max (StHead (new_head max)) s0 (l ++ [b])) as [[st s] ok] eqn:Hr.
  destruct He as [He1 He2]. destruct ok.
  - destruct (is_disabled st) eqn:Hd; [by specialize (Hplain eq_refl)|].
    by eapply observe_h1_tracks.
  - destruct (is_disabled st) eqn:Hd; [|by destruct (He1 eq_refl)].
    cbn [is_disabled] in Happ. eapply TracksFailed; try done.
    + intros Hq. apply Hn1. etransitivity; [by apply prefix_app_r|exact Hq].
    + intros Hq. apply Hn2. destruct (prefix_weak_total H2_PREFACE (l ++ [b]) ((l ++ [b]) ++ l')); try done.
      by apply prefix_app_r.
Qed.
(** [observe] after its detection loop. *)
Definition finish_detect (r : WireScanner * H1FramingSignals * bytes * bool)
  : WireScanner * H1FramingSignals :=
  let '(w, s, l, returned) := r in
  if returned then (w, s)
  else if decide (protocol w = Http1) then fst (observe_h1 w s l)
  else (w, s).

Lemma finish_detect_mismatch w s0' l l' :
  protocol w = Http1 ->
  finish_detect
    (match observe_h1 w s0' l with
     | (w, s, true) => (w, s, l', false)
     | (w, s, false) => (w, s, l', true)
     end)
  = let '(w, s, ok) := observe_h1 w s0' l in if ok then fst (observe_h1 w s l') else (w, s).
Proof.
  intros Hw. unfold observe_h1 at 1 2. destruct (stream_observe (h1 w) s0' l) as [[h' s'] []]; [|done].
  unfold finish_detect. by rewrite decide_True.
Qed.

Lemma detect_loop_tracks l' : forall l pre,
  l `prefix_of` H2_PREFACE -> l <> H2_PREFACE ->
  length pre = length H2_PREFACE -> take (length l) pre = l ->
  tracks max s0 (l ++ l')
    (finish_detect (detect_loop (Wire Detect pre (length l) (new_stream max)) s0 l')).
Proof.
  induction l' as [|b l' IH]; intros l pre Hp Hne Hlen Htake.
  { rewrite app_nil_r. cbn. by constructor. }
  assert (Hl : (length l < length H2_PREFACE)%nat).
  { destruct (Nat.lt_ge_cases (length l) (length H2_PREFACE)); [done|].
    by destruct Hne; apply prefix_length_eq. }
  destruct (lookup_lt_is_Some_2 H2_PREFACE (length l) Hl) as [e He].
  assert (Hpe : l ++ [e] `prefix_of` H2_PREFACE).
  { destruct Hp as [k Hk]. rewrite Hk in *. rewrite lookup_app_r, Nat.sub_diag in He by done.
    destruct k as [|e' k]; simplify_eq/=. exists k. by rewrite <- app_assoc. }
  assert (Hsl : take (S (length l)) (<[length l:=b]> pre) = l ++ [b]).
  { rewrite (take_S_r _ _ b) by (apply list_lookup_insert_eq; lia).
    by rewrite take_insert_ge, Htake by lia. }
  cbn [detect_loop preface_len preface protocol h1]. rewrite He, Hlen.
  destruct (Nat.leb_spec (length H2_PREFACE) (length l)); [lia|].
  destruct (Z.eqb_spec b e) as [->|Hb]; cbn [negb].
  - destruct (Nat.eqb_spec (S (length l)) (length H2_PREFACE)) as [Hfull|Hpart].
    + apply TracksHttp2; [|done]. replace (l ++ e :: l') with ((l ++ [e]) ++ l') by (by rewrite <- app_assoc).
      apply prefix_app_r. rewrite (prefix_length_eq _ _ Hpe); [done|].
      rewrite length_app. change (length [e]) with 1%nat. lia.
    + replace (l ++ e :: l') with ((l ++ [e]) ++ l') by (by rewrite <- app_assoc).
      replace (S (length l)) with (length (l ++ [e]))
        by (rewrite length_app; change (length [e]) with 1%nat; lia).
      apply IH; [done| |by rewrite length_insert|].
      * intros E. apply Hpart. rewrite <- E, length_app. change (length [e]) with 1%nat. lia.
      * rewrite length_app, Nat.add_1_r. exact Hsl.
  - cbn [set_protocol preface_len preface h1]. rewrite Hsl, finish_detect_mismatch by done.
    apply mismatch_tracks; try done.
    intros [k Hk]. rewrite Hk in He. rewrite <- app_assoc, lookup_app_r, Nat.sub_diag in He by done.
    by simplify_eq/=.
Qed.

Lemma wire_read_tracks l l' ws :
  tracks max s0 l ws -> tracks max s0 (l ++ l') (wire_read ws l').
Proof.
  intros Ht.
  pose proof (stream_run_enabled max l (StHead (new_head max)) s0 Hs0 eq_refl) as He.
  assert (Hpre : ~ l `prefix_of` H2_PREFACE -> ~ (l ++ l') `prefix_of` H2_PREFACE)
    by (intros Hn [k E]; apply Hn; exists (l' ++ k); by rewrite app_assoc).
  assert (Hpre' : ~ l `prefix_of` H2_PREFACE -> ~ H2_PREFACE `prefix_of` l ->
                  ~ H2_PREFACE `prefix_of` l ++ l').
  { intros Hn1 Hn2 Hp. destruct (prefix_weak_total H2_PREFACE l (l ++ l')); try done.
    by apply prefix_app_r. }
  pose proof (stream_run_app max l (StHead (new_head max)) s0 l') as Happ.
  destruct Ht as [pre Hp Hne Hlen Htake|w Hp Hw|w st s ok Hn1 Hn2 Hr Hd Hw Hh|w st s Hn1 Hn2 Hr Hd Hw|w st s Hn1 Hn2 Hr Hd Hw];
    unfold wire_read, disable_if_requested, observation_active; cbn [protocol].
  - rewrite Hs0, andb_false_r. unfold observe; cbn [protocol]. rewrite decide_True by done.
    by apply (detect_loop_tracks l' l pre).
  - rewrite Hw; cbn. rewrite Hw. apply TracksHttp2; [|done]. by apply prefix_app_r.
  - rewrite Hr in He. destruct He as [He _]. destruct (He Hd) as [Hs _].
    rewrite Hs, andb_false_r, Hw. unfold observe. rewrite Hw, decide_False, decide_True by done.
    by eapply observe_h1_tracks.
  - rewrite Hr in He, Happ. destruct He as [_ He]. rewrite (He Hd eq_refl), Hd in *.
    replace (if (match protocol w with Detect | Http1 => true | _ => false end) && true
             then set_protocol w Disabled else w) with (set_protocol w Disabled)
      by (destruct w, Hw as [E|E]; simpl in *; subst; done).
    cbn. eapply TracksStopped; eauto.
  - rewrite Hr, Hd in Happ. rewrite Hw; cbn. rewrite Hw. eapply TracksFailed; eauto.
Qed.

Lemma wire_reads_tracks reads : forall l ws,
  tracks max s0 l ws -> tracks max s0 (l ++ concat reads) (foldl wire_read ws reads).
Proof.
  induction reads as [|r reads IH]; intros l ws Ht; simpl; [by rewrite app_nil_r|].
  rewrite app_assoc. apply IH. by apply wire_read_tracks.
Qed.

Lemma disable_tracks l w s : tracks max s0 l (w, s) -> tracks max s0 l (disable_if_requested w s, s).
Proof.
  intros Ht. unfold disable_if_requested, observation_active.
  pose proof (stream_run_enabled max l (StHead (new_head max)) s0 Hs0 eq_refl) as He.
  inversion Ht as [pre Hp Hne Hlen Htake|? Hp Hw|? st ? ok Hn1 Hn2 Hr Hd Hw Hh
                  |? st ? Hn1 Hn2 Hr Hd Hw|? st s' Hn1 Hn2 Hr Hd Hw]; subst; cbn [protocol].
  - rewrite Hs0. by constructor.
  - by rewrite Hw.
  - rewrite Hr in He. destruct He as [He _]. destruct (He Hd) as [-> _]. by rewrite andb_false_r.
  - destruct (_ && _); [|done]. eapply TracksStopped; eauto.
  - by rewrite Hw.
Qed.

Lemma new_wire_tracks : tracks max s0 [] (new_wire max, s0).
Proof. apply TracksDetect; done || apply prefix_nil. Qed.
End Tracking.

Lemma tracks_http1 max s0 l w s st s' ok :
  tracks max s0 l (w, s) ->
  ~ l `prefix_of` H2_PREFACE -> ~ H2_PREFACE `prefix_of` l ->
  stream_run max (StHead (new_head max)) s0 l = (st, s', ok) -> is_disabled st = false ->
  s = s' /\ protocol w = Http1 /\ h1 w = Stream st max.
Proof.
  intros Ht Hn1 Hn2 Hr Hd. inversion Ht; subst; try done;
    match goal with H : stream_run _ _ _ _ = _ |- _ => rewrite Hr in H; simplify_eq; congruence || done end.
Qed.

(** The observer's knowledge depends only on the bytes of the connection,
    never on how the socket reads split them. After any sequence of reads, the
    protocol verdict, every published signal and the scanner state are those
    [wire_spec] computes from the concatenated bytes: HTTP/2 exactly when they
    begin with the 24-byte preface, undecided (and nothing published) while they
    are a proper prefix of it, and otherwise the one-byte-at-a-time HTTP/1 run
    over all of them, including the buffered bytes replayed at the first
    difference from the preface. *)
Theorem reads_split_independent max s0 reads :
  observation_disabled s0 = false ->
  view (foldl wire_read (new_wire max, s0) reads) = wire_spec max s0 (concat reads).
Proof.
  intros Hs0. apply tracks_view; [done|]. apply (wire_reads_tracks max s0 Hs0 reads []).
  by apply new_wire_tracks.
Qed.

Lemma reads_split_independent_witness :
  view (foldl wire_read (new_wire 100, new_signals) [bs "PRI"; bs " / HTTP/1.1" ++ [13]; [10; 13; 10]])
  = wire_spec 100 new_signals (bs "PRI / HTTP/1.1" ++ [13; 10; 13; 10]).
Proof.
  apply (reads_split_independent 100 new_signals [bs "PRI"; bs " / HTTP/1.1" ++ [13]; [10; 13; 10]]).
  reflexivity.
Defined.

(** ** The type of the wire scanner *)

(** Every counter fits its machine type, and the preface buffer is never
    indexed out of range. *)
Definition wire_wf (w : WireScanner) : Prop :=
  state_wf (h1_state (h1 w))
  /\ length (preface w) = length H2_PREFACE /\ (preface_len w <= length H2_PREFACE)%nat
  /\ (protocol w = Detect -> (preface_len w < length H2_PREFACE)%nat).

Lemma observe_h1_wf w s l :
  wire_wf w -> protocol w <> Detect ->
  wire_wf (fst (fst (observe_h1 w s l))) /\ protocol (fst (fst (observe_h1 w s l))) <> Detect.
Proof.
  intros (Hst & Hp & Hl & Hd) Hn. unfold observe_h1.
  destruct (h1 w) as [st mx] eqn:E. cbn [h1_state] in Hst.
  rewrite stream_observe_run by done. cbn [h1_state max_head_bytes].
  pose proof (stream_run_wf mx l st s Hst) as Hr.
  destruct (stream_run mx st s l) as [[st' s'] []]; cbn in *; unfold wire_wf; cbn; split_and!; done || naive_solver.
Qed.

Lemma detect_loop_wf l : forall w s,
  wire_wf w -> protocol w = Detect -> wire_wf (fst (fst (fst (detect_loop w s l)))).
Proof.
  induction l as [|b l IH]; intros w s Hw Hd; [done|]. destruct Hw as (Hst & Hp & Hl & Hlt).
  specialize (Hlt Hd). cbn [detect_loop].
  destruct (H2_PREFACE !! preface_len w) as [e|]; [|by split_and!].
  destruct (Nat.leb_spec (length (preface w)) (preface_len w)); [by split_and!|].
  set (w1 := Wire (protocol w) _ _ _).
  assert (H1 : state_wf (h1_state (h1 w1)) /\ length (preface w1) = length H2_PREFACE
               /\ (preface_len w1 <= length H2_PREFACE)%nat).
  { subst w1. cbn [h1 preface preface_len]. rewrite length_insert. split_and!; done || lia. }
  destruct H1 as (H1a & H1b & H1c). destruct (b =? e); cbn [negb].
  - destruct (Nat.eqb_spec (preface_len w1) (length H2_PREFACE)); [by split_and!|].
    apply IH; [split_and!; try done; intros _; lia|done].
  - assert (Hw1 : wire_wf (set_protocol w1 Http1)) by (by split_and!).
    pose proof (observe_h1_wf _ s (take (preface_len (set_protocol w1 Http1)) (preface (set_protocol w1 Http1)))
                  Hw1 ltac:(done)) as [Ho _].
    destruct (observe_h1 _ _ _) as [[w2 s2] []]; exact Ho.
Qed.

Lemma disable_wf w s : wire_wf w -> wire_wf (disable_if_requested w s).
Proof.
  intros (? & ? & ? & ?). unfold disable_if_requested. destruct (_ && _); by split_and!.
Qed.

Lemma wire_read_wf ws l : wire_wf (fst ws) -> wire_wf (fst (wire_read ws l)).
Proof.
  destruct ws as [w s]. cbn [fst]. intros Hw. unfold wire_read.
  pose proof (disable_wf w s Hw) as Hd.
  destruct (observation_active _); [|done]. unfold observe.
  destruct (decide (protocol (disable_if_requested w s) = Detect)) as [E|E].
  - pose proof (detect_loop_wf l _ s Hd E) as Hl.
    destruct (detect_loop _ _ _) as [[[w1 s1] l1] []]; [done|]. cbn in Hl.
    destruct (decide (protocol w1 = Http1)) as [E1|]; [|done].
    apply (observe_h1_wf w1 s1 l1 Hl). congruence.
  - destruct (decide (protocol _ = Http1)); [|done]. by apply observe_h1_wf.
Qed.

Lemma new_wire_wf max : wire_wf (new_wire max).
Proof. split_and!; [apply new_head_wf|apply length_replicate|cbn; lia|cbn; lia]. Qed.

(** ** What the observer does to the signals

    The observer touches the shared signals through four operations only: it
    stores one of the three hints, publishes a decision, marks a divergence,
    and disables observation. What these keep, every read keeps. *)

Record signals_closed (P : H1FramingSignals -> Prop) : Prop := {
  closed_store s hint : 0 <= hint <= 3 -> P s -> P (store_parse_reject_hint s hint);
  closed_push s b : P s -> P (fst (push s b));
  closed_unknown s : P s -> P (mark_unknown s);
  closed_disable s : P s -> P (disable_observation s);
}.

Section Kept.
Context (P : H1FramingSignals -> Prop) (HP : signals_closed P).

Lemma store_kept s hint : 0 <= hint <= 3 -> P s -> P (store_parse_reject_hint s hint).
Proof. apply HP. Qed.

Lemma finish_line_kept h s : P s -> P (snd (fst (finish_line h s))).
Proof.
  intros Hs. unfold finish_line, finish_head, finish_request_line, finish_content_length, store_http10_hint.
  repeat (case_match; simplify_eq/=); repeat (apply store_kept; [done|]); done.
Qed.

Lemma head_observe_kept h s b : P s -> P (snd (fst (head_observe h s b))).
Proof.
  intros Hs. unfold head_observe, observe_data, store_utf8_hint_if_invalid.
  repeat (case_match; simplify_eq/=); try apply finish_line_kept; repeat (apply store_kept; [done|]); done.
Qed.

Lemma complete_head_kept max s o : P s -> P (snd (fst (complete_head max s o))).
Proof.
  intros Hs. unfold complete_head. destruct (_ && _); [by apply HP|].
  pose proof (closed_push P HP s (outcome_conflict o) Hs).
  by destruct (push s (outcome_conflict o)) as [s' []].
Qed.

Lemma stream_loop_kept fuel : forall max st s l r,
  P s -> stream_loop fuel max st s l = Some r -> P (snd (fst r)).
Proof.
  induction fuel as [|fuel IH]; intros max st s [|b l] r Hs E;
    cbn [stream_loop] in E; simplify_eq; try done.
  destruct st as [h|n|c|]; [| | |by simplify_eq].
  - pose proof (head_observe_kept h s b Hs) as Hh.
    destruct (head_observe h s b) as [[h' s'] [|o|]]; cbn in Hh;
      [eapply IH; [|exact E]; done| |eapply IH; [|exact E]; done].
    pose proof (complete_head_kept max s' o Hh) as Hc.
    destruct (complete_head max s' o) as [[st' s''] []]; [by simplify_eq|eapply IH; [|exact E]; done].
  - eapply IH; [|exact E]; done.
  - destruct (chunk_observe c (b :: l)) as [[c' k] step]. eapply IH; [|exact E]; done.
Qed.

Lemma observe_h1_kept w s l : P s -> P (snd (fst (observe_h1 w s l))).
Proof.
  intros Hs. unfold observe_h1, stream_observe.
  destruct (stream_loop _ _ _ s l) as [[[st s'] ok]|] eqn:E; cbn; [|by apply HP].
  apply stream_loop_kept in E; [|done]. destruct ok; [done|by apply HP].
Qed.

Lemma detect_loop_kept l : forall w s, P s -> P (snd (fst (fst (detect_loop w s l)))).
Proof.
  induction l as [|b l IH]; intros w s Hs; cbn [detect_loop]; [done|].
  destruct (H2_PREFACE !! preface_len w) as [e|]; [|by apply HP]. case_match; [by apply HP|].
  set (w1 := Wire (protocol w) _ _ _). destruct (negb (b =? e)).
  - pose proof (observe_h1_kept (set_protocol w1 Http1) s
      (take (preface_len (set_protocol w1 Http1)) (preface (set_protocol w1 Http1))) Hs).
    by destruct (observe_h1 _ _ _) as [[? ?] []].
  - case_match; [done|]. by apply IH.
Qed.

Lemma wire_read_kept w s l : P s -> P (snd (wire_read (w, s) l)).
Proof.
  intros Hs. unfold wire_read. destruct (observation_active _); [|done]. unfold observe.
  set (w1 := disable_if_requested w s).
  assert (Hd : P (snd (fst (fst (if decide (protocol w1 = Detect) then detect_loop w1 s l else (w1, s, l, false))))))
    by (destruct (decide (protocol w1 = Detect)); [by apply detect_loop_kept|done]).
  destruct (if decide (protocol w1 = Detect) then _ else _) as [[[w2 s2] l2] ret]; cbn in Hd.
  destruct ret; [done|]. destruct (decide (protocol w2 = Http1)); [|done].
  pose proof (observe_h1_kept w2 s2 l2 Hd). by destruct (observe_h1 w2 s2 l2) as [[? ?] ?].
Qed.

Lemma wire_reads_kept reads : forall ws, P (snd ws) -> P (snd (foldl wire_read ws reads)).
Proof.
  induction reads as [|l reads IH]; intros [w s] Hs; cbn [foldl]; [done|]. by apply IH, wire_read_kept.
Qed.
End Kept.

(** The hint that the bytes [l] of a connection leave behind. *)
Definition wire_hint (max : Z) (l : bytes) : Z :=
  parse_reject_hint (snd (fst (wire_spec max new_signals l))).

Lemma tracks_hint max l w s :
  tracks max new_signals l (w, s) -> wire_hint max l = parse_reject_hint s.
Proof.
  intros Ht. unfold wire_hint. by rewrite <- (tracks_view max new_signals eq_refl l (w, s) Ht).
Qed.

(** A stored hint stays until it is drained. *)
Lemma hint_stored_closed hint : hint <> 0 -> signals_closed (fun s => parse_reject_hint s = hint).
Proof.
  intros Hne. split; [| |done..].
  - intros s h _ Hs. unfold store_parse_reject_hint, PARSE_HINT_NONE.
    destruct (h =? 0); [done|]. rewrite Hs. by destruct (Z.eqb_spec hint 0).
  - intros s b Hs. unfold push, checked_add. by repeat (case_match; simplify_eq/=).
Qed.

Lemma wire_hint_app max l l' : wire_hint max l <> 0 -> wire_hint max (l ++ l') = wire_hint max l.
Proof.
  pose proof (wire_read_tracks max new_signals eq_refl [] l _ (new_wire_tracks max new_signals)) as Ht.
  cbn [app] in Ht. pose proof (wire_read_tracks max new_signals eq_refl l l' _ Ht) as Ht'.
  destruct (wire_read _ l) as [w s]. rewrite (tracks_hint _ _ _ _ Ht). intros Hs.
  pose proof (wire_read_kept _ (hint_stored_closed _ Hs) w s l' eq_refl) as Hk.
  destruct (wire_read (w, s) l') as [w' s']. by rewrite (tracks_hint _ _ _ _ Ht').
Qed.

(** The shared counters and the ring at their machine widths. *)
Record signals_typed (s : H1FramingSignals) : Prop := {
  typed_produced : in_u64 (produced s);
  typed_consumed : in_u64 (consumed s);
  typed_ring : ring_wf (conflict_ring s);
  typed_hint : 0 <= parse_reject_hint s <= umax 8;
  typed_rejects : in_u64 (parse_rejects s);
}.

Lemma new_signals_typed : signals_typed new_signals.
Proof. split; try done. split; [done|]. apply Forall_replicate. by vm_compute. Qed.

Lemma store_typed s h : 0 <= h <= 3 -> signals_typed s -> signals_typed (store_parse_reject_hint s h).
Proof.
  intros Hh []. unfold store_parse_reject_hint. case_match; [done|].
  case_match; [|done]. constructor; try done. cbn. clear -Hh.
  assert (h = 0 \/ h = 1 \/ h = 2 \/ h = 3) as [-> | [-> | [-> | ->]]] by lia; by case_match.
Qed.

Lemma push_typed s b : signals_typed s -> signals_typed (fst (push s b)).
Proof.
  intros [Hp Hc Hr Hh Hj]. unfold push. destruct (observation_disabled s); [done|].
  case_match; [done|].
  set (slot := produced s mod SIGNAL_CAPACITY).
  destruct (conflict_ring s !! word_index slot) as [word|] eqn:Ew; [|done].
  destruct (ring_set (conflict_ring s) word slot b) as [Hr' _];
    [done|by apply Z.mod_pos_bound|done|].
  unfold checked_add. destruct (Z.leb_spec (produced s + 1) (umax 64)); [|done].
  constructor; try done. cbn. unfold in_u64 in *. lia.
Qed.

Lemma signals_typed_closed : signals_closed signals_typed.
Proof.
  split; [apply store_typed|apply push_typed| |].
  all: intros s []; by constructor.
Qed.

Lemma next_conflict_typed s : signals_typed s -> signals_typed (snd (next_conflict s)).
Proof.
  intros [Hp Hc Hr Hh Hj]. unfold next_conflict, checked_add. repeat (case_match; simplify_eq/=); try done.
  constructor; try done. cbn. zcases. unfold in_u64 in *. lia.
Qed.

(** ** Read caps *)

(** Bytes known to belong to the body the scanner is in. *)
Definition known_body (st : H1State) : Z :=
  match st with
  | StFixedBody remaining => remaining
  | StChunked (Chunked (Data remaining) _ _ _) => remaining
  | _ => 0
  end.

(** Bounds of the read cap. For a reader with room, the observer never asks
    the socket for zero bytes (which would look like the end of the stream),
    never for more than the caller wants, and while it observes, never for more
    than 8 KiB beyond the body bytes it already knows are coming; reads wholly
    inside a body are not limited. *)
Theorem read_cap_bounds w requested :
  1 <= requested <= umax 64 -> state_wf (h1_state (h1 w)) ->
  let cap := read_cap w requested in
  1 <= cap <= requested
  /\ (protocol w = Detect -> cap <= OBSERVED_READ_CAP)
  /\ (protocol w = Http1 -> h1_state (h1 w) <> StDisabled ->
      cap <= known_body (h1_state (h1 w)) + OBSERVED_READ_CAP
      /\ (requested <= known_body (h1_state (h1 w)) -> cap = requested)).
Proof.
  intros Hreq Hwf. unfold read_cap, OBSERVED_READ_CAP.
  destruct (Z.eqb_spec requested 0); [lia|].
  assert (Hb : forall r, 1 <= r <= umax 64 ->
            let cap := body_boundary_read_cap requested r in
            1 <= cap <= requested /\ cap <= r + 8 * 1024 /\ (requested <= r -> cap = requested)).
  { intros r Hr. unfold body_boundary_read_cap, saturating_add, u64_to_usize, OBSERVED_READ_CAP, umax in *. lia. }
  destruct (protocol w); try (split_and!; done || lia).
  unfold stream_read_cap, OBSERVED_READ_CAP.
  destruct (h1_state (h1 w)) as [h|m|c|]; cbn [known_body]; simpl in Hwf;
    try (split_and!; done || lia).
  - destruct (Hb m Hwf) as (? & ? & ?). split_and!; done || lia.
  - destruct c as [st sz e t]. pose proof (wf_data _ Hwf) as Hd. simpl in Hd.
    destruct st; try (split_and!; done || lia).
    destruct (Hb remaining (Hd _ eq_refl)) as (? & ? & ?). split_and!; done || lia.
Qed.

Lemma read_cap_bounds_witness :
  let w := Wire Http1 [] 0 (Stream (StFixedBody 3) 100) in
  1 <= read_cap w 100000 <= 100000 /\ read_cap w 100000 = 8195.
Proof.
  intros w. split; [|reflexivity].
  apply (read_cap_bounds w 100000); vm_compute; split; discriminate.
Defined.
