(* ===== verification/H1Guard.v ===== *)
(** * The framing guard on the socket

    [H1FramingGuardIo] of [proxy/h1_framing_guard.rs]: the adapter between the
    client socket and Hyper. Reads pass through the wire observer; the first
    head's parse rejects are answered with a precomputed envelope written to the
    socket directly, after which Hyper neither receives nor sends another byte.

    The socket is not part of this program: it is a parameter, the class
    [AsyncIo], with the documented behaviour of [AsyncRead] and [AsyncWrite] as
    the laws [AsyncIoLaws]. [sent] is what the socket has accepted so far. *)

From S2P Require Import Prelude H1Signals H1Head H1HeadSpec H1Chunked H1Framing.

Inductive poll (A : Type) := Pending | Ready (a : A).
Arguments Pending {A}.
Arguments Ready {A} a.

Inductive io_error := WriteZero | InnerError (code : Z).

Definition io (A : Type) : Type := poll (result A io_error).

(** ** The inner stream *)

Class AsyncIo (T : Type) := {
  inner_read : T -> Z -> T * io bytes;           (** at most this many bytes *)
  inner_write : T -> bytes -> T * io Z;
  inner_write_vectored : T -> list bytes -> T * io Z;
  inner_flush : T -> T * io unit;
  inner_shutdown : T -> T * io unit;
}.

(** A write that returns [n] has taken the first [n] bytes; anything else has
    taken nothing. Reads, flushes and shutdowns send nothing. *)
Class AsyncIoLaws (T : Type) `{AsyncIo T} := {
  sent : T -> bytes;
  read_law t cap :
    let '(t', r) := inner_read t cap in
    sent t' = sent t
    /\ forall d, r = Ready (Ok d) -> Z.of_nat (length d) <= Z.max 0 cap;
  write_law t buf :
    let '(t', r) := inner_write t buf in
    match r with
    | Ready (Ok n) => 0 <= n <= Z.of_nat (length buf) /\ sent t' = sent t ++ take (Z.to_nat n) buf
    | _ => sent t' = sent t
    end;
  write_vectored_law t bufs :
    let '(t', r) := inner_write_vectored t bufs in
    match r with
    | Ready (Ok n) =>
      0 <= n <= Z.of_nat (length (concat bufs)) /\ sent t' = sent t ++ take (Z.to_nat n) (concat bufs)
    | _ => sent t' = sent t
    end;
  flush_law t : sent (fst (inner_flush t)) = sent t;
  shutdown_law t : sent (fst (inner_shutdown t)) = sent t;
}.

Inductive ParseRejectWrite :=
| Idle
| Writing (envelope : bytes) (offset : Z)
| Written.

Definition is_idle (p : ParseRejectWrite) : bool :=
  match p with Idle => true | _ => false end.

Section Guard.
Context {T : Type} `{AsyncIo T}.

Record H1FramingGuardIo := GuardIo {
  inner : T;
  scanner : WireScanner;
  signals : H1FramingSignals;
  parse_reject : ParseRejectWrite;
  wrote_response_bytes : bool;
}.

Definition new_guard (t : T) (max_head_bytes : Z) : H1FramingGuardIo :=
  GuardIo t (new_wire max_head_bytes) new_signals Idle false.

Definition set_inner (g : H1FramingGuardIo) (t : T) : H1FramingGuardIo :=
  GuardIo t (scanner g) (signals g) (parse_reject g) (wrote_response_bytes g).
Definition set_reject (g : H1FramingGuardIo) (p : ParseRejectWrite) : H1FramingGuardIo :=
  GuardIo (inner g) (scanner g) (signals g) p (wrote_response_bytes g).
Definition set_signals (g : H1FramingGuardIo) (s : H1FramingSignals) : H1FramingGuardIo :=
  GuardIo (inner g) (scanner g) s (parse_reject g) (wrote_response_bytes g).
Definition set_wrote (g : H1FramingGuardIo) (b : bool) : H1FramingGuardIo :=
  GuardIo (inner g) (scanner g) (signals g) (parse_reject g) b.

Definition begin_parse_reject (g : H1FramingGuardIo) (hint : Z) : H1FramingGuardIo :=
  if negb (is_idle (parse_reject g)) then g
  else
    let s := disable_observation (record_parse_reject (signals g)) in
    set_reject (set_signals g s) (Writing (envelope_for_hint hint) 0).

(** The loop of [poll_write_envelope]; [None]: the fuel ran out. *)
Fixpoint write_envelope_loop (fuel : nat) (g : H1FramingGuardIo)
  : option (H1FramingGuardIo * io unit) :=
  match fuel with
  | O => None
  | S fuel =>
    match parse_reject g with
    | Idle | Written => Some (g, Ready (Ok tt))
    | Writing envelope offset =>
      if Z.of_nat (length envelope) <=? offset then Some (set_reject g Written, Ready (Ok tt))
      else
        let '(t, r) := inner_write (inner g) (drop (Z.to_nat offset) envelope) in
        let g := set_inner g t in
        match r with
        | Pending => Some (g, Pending)
        | Ready (Err e) => Some (g, Ready (Err e))
        | Ready (Ok wrote) =>
          if wrote =? 0 then Some (g, Ready (Err WriteZero))
          else write_envelope_loop fuel (set_reject g (Writing envelope (offset + wrote)))
        end
    end
  end.

(** A round writes a byte at least, so the bytes left bound the rounds. *)
Definition envelope_fuel (g : H1FramingGuardIo) : nat :=
  match parse_reject g with
  | Writing envelope offset => S (Z.to_nat (Z.of_nat (length envelope) - offset))
  | _ => 1
  end.

Definition poll_write_envelope (g : H1FramingGuardIo) : H1FramingGuardIo * io unit :=
  default (g, Pending) (write_envelope_loop (envelope_fuel g) g).

(** What a read asks of the socket: the observer's cap where it is smaller than
    the room in the caller's buffer. *)
Definition read_request (g : H1FramingGuardIo) (remaining : Z) : Z :=
  let cap := read_cap (disable_if_requested (scanner g) (signals g)) remaining in
  if cap <? remaining then cap else remaining.

(** A read while the guard answers for Hyper: the envelope first, then the
    end of the stream. *)
Definition poll_finish_parse_reject (g : H1FramingGuardIo) : H1FramingGuardIo * io bytes :=
  match poll_write_envelope g with
  | (g, Ready (Ok _)) => (g, Ready (Ok []))
  | (g, Ready (Err e)) => (g, Ready (Err e))
  | (g, Pending) => (g, Pending)
  end.

(** [poll_read]: [remaining] is the room in the caller's buffer; the bytes
    returned are those added to it. *)
Definition poll_read (g : H1FramingGuardIo) (remaining : Z) : H1FramingGuardIo * io bytes :=
  if negb (is_idle (parse_reject g)) then poll_finish_parse_reject g
  else
    let w := disable_if_requested (scanner g) (signals g) in
    let '(t, r) := inner_read (inner g) (read_request g remaining) in
    let g := GuardIo t w (signals g) (parse_reject g) (wrote_response_bytes g) in
    match r with
    | Ready (Ok data) =>
      let '(w, s) := wire_read (scanner g, signals g) data in
      let '(stored_hint, s) := take_parse_reject_hint s in
      let g := GuardIo (inner g) w s (parse_reject g) (wrote_response_bytes g) in
      let hint := Z.land stored_hint (Z.lxor PARSE_HINT_PRIOR_HEAD (umax 8)) in
      if negb (hint =? PARSE_HINT_NONE) then
        if wrote_response_bytes g || negb (Z.land stored_hint PARSE_HINT_PRIOR_HEAD =? 0)
        then (g, Ready (Ok data))
        else poll_finish_parse_reject (begin_parse_reject g hint)
      else (g, Ready (Ok data))
    | _ => (g, r)
    end.

Definition poll_write (g : H1FramingGuardIo) (buf : bytes) : H1FramingGuardIo * io Z :=
  if negb (is_idle (parse_reject g)) then
    match poll_write_envelope g with
    | (g, Ready (Ok _)) => (g, Ready (Ok (Z.of_nat (length buf))))
    | (g, Ready (Err e)) => (g, Ready (Err e))
    | (g, Pending) => (g, Pending)
    end
  else
    let '(t, r) := inner_write (inner g) buf in
    let g := set_inner g t in
    match r with
    | Ready (Ok wrote) => (if 0 <? wrote then set_wrote g true else g, Ready (Ok wrote))
    | _ => (g, r)
    end.

Definition poll_write_vectored (g : H1FramingGuardIo) (bufs : list bytes)
  : H1FramingGuardIo * io Z :=
  if negb (is_idle (parse_reject g)) then
    match poll_write_envelope g with
    | (g, Ready (Ok _)) => (g, Ready (Ok (Z.of_nat (length (concat bufs)))))
    | (g, Ready (Err e)) => (g, Ready (Err e))
    | (g, Pending) => (g, Pending)
    end
  else
    let '(t, r) := inner_write_vectored (inner g) bufs in
    let g := set_inner g t in
    match r with
    | Ready (Ok wrote) => (if 0 <? wrote then set_wrote g true else g, Ready (Ok wrote))
    | _ => (g, r)
    end.

(** [poll_flush] and [poll_shutdown] first finish the envelope. *)
Definition poll_after_envelope (op : T -> T * io unit) (g : H1FramingGuardIo)
  : H1FramingGuardIo * io unit :=
  let forward g := let '(t, r) := op (inner g) in (set_inner g t, r) in
  if negb (is_idle (parse_reject g)) then
    match poll_write_envelope g with
    | (g, Ready (Ok _)) => forward g
    | (g, r) => (g, r)
    end
  else forward g.

Definition poll_flush : H1FramingGuardIo -> H1FramingGuardIo * io unit :=
  poll_after_envelope inner_flush.
Definition poll_shutdown : H1FramingGuardIo -> H1FramingGuardIo * io unit :=
  poll_after_envelope inner_shutdown.

(** Everything that can happen to a guard: Hyper's polls and the request
    handler's query of the shared signals. *)
Inductive guard_op :=
| GRead (remaining : Z)
| GWrite (buf : bytes)
| GWriteVectored (bufs : list bytes)
| GFlush
| GShutdown
| GNext
| GTakeRejects.

Definition guard_step (g : H1FramingGuardIo) (op : guard_op) : H1FramingGuardIo :=
  match op with
  | GRead n => fst (poll_read g n)
  | GWrite b => fst (poll_write g b)
  | GWriteVectored bs => fst (poll_write_vectored g bs)
  | GFlush => fst (poll_flush g)
  | GShutdown => fst (poll_shutdown g)
  | GNext => set_signals g (snd (next_conflict (signals g)))
  | GTakeRejects => set_signals g (snd (take_parse_rejects (signals g)))
  end.

(** The bytes one operation takes from the socket, and over a run: a guard
    that answers for Hyper reads no more. *)
Definition read_by (g : H1FramingGuardIo) (op : guard_op) : bytes :=
  match op with
  | GRead n =>
    if is_idle (parse_reject g) then
      match snd (inner_read (inner g) (read_request g n)) with Ready (Ok d) => d | _ => [] end
    else []
  | _ => []
  end.

Fixpoint arrived (g : H1FramingGuardIo) (ops : list guard_op) : bytes :=
  match ops with
  | [] => []
  | op :: ops => read_by g op ++ arrived (guard_step g op) ops
  end.

(** The bytes Hyper is given. *)
Definition handed_by (g : H1FramingGuardIo) (op : guard_op) : bytes :=
  match op with
  | GRead n => match snd (poll_read g n) with Ready (Ok d) => d | _ => [] end
  | _ => []
  end.

Fixpoint delivered (g : H1FramingGuardIo) (ops : list guard_op) : bytes :=
  match ops with
  | [] => []
  | op :: ops => handed_by g op ++ delivered (guard_step g op) ops
  end.

End Guard.
Arguments H1FramingGuardIo T : clear implicits.

(** ** The envelope is never mixed with a response *)

Section Safety.
Context {T : Type} `{AsyncIoLaws T}.

Implicit Types g : H1FramingGuardIo T.

(** [Answer]: the envelope that may be on the wire. *)
Definition guard_inv (Answer : bytes -> Prop) g : Prop :=
  match parse_reject g with
  | Idle => wrote_response_bytes g = false -> sent (inner g) = []
  | Writing e offset =>
    Answer e /\ 0 <= offset <= Z.of_nat (length e) /\ sent (inner g) = take (Z.to_nat offset) e
  | Written => Answer (sent (inner g))
  end.

Section Envelope.
Context (Answer : bytes -> Prop).

(** The envelope loop ends, and moves the envelope forward only. *)
Lemma write_envelope_total fuel : forall g,
  guard_inv Answer g -> (envelope_fuel g <= fuel)%nat ->
  exists g' r, write_envelope_loop fuel g = Some (g', r)
    /\ guard_inv Answer g'
    /\ (is_idle (parse_reject g') = is_idle (parse_reject g))
    /\ (is_idle (parse_reject g) = false -> r = Ready (Ok tt) -> parse_reject g' = Written).
Proof.
  induction fuel as [|fuel IH]; intros g Hinv Hf; unfold envelope_fuel in Hf.
  { destruct (parse_reject g); lia. }
  cbn [write_envelope_loop]. unfold guard_inv in Hinv.
  destruct (parse_reject g) as [|e off|] eqn:Ep.
  - eexists _, _. split; [done|]. unfold guard_inv. by rewrite Ep.
  - destruct Hinv as (Hh & Hoff & Hsent).
    destruct (Z.leb_spec (Z.of_nat (length e)) off).
    { eexists _, _. split; [done|]. cbn. split; [|done]. unfold guard_inv; cbn.
      by rewrite Hsent, take_ge by lia. }
    pose proof (write_law (inner g) (drop (Z.to_nat off) e)) as Hw.
    assert (Hkeep : forall t, sent t = sent (inner g) -> guard_inv Answer (set_inner g t)).
    { intros t Ht. unfold guard_inv, set_inner; cbn. rewrite Ep. split_and!; [done|lia|lia|congruence]. }
    destruct (inner_write (inner g) (drop (Z.to_nat off) e)) as [t [|[n|err]]].
    + eexists _, _. split; [done|]. split; [by apply Hkeep|]. cbn. by rewrite Ep.
    + destruct Hw as [Hn Hs]. destruct (Z.eqb_spec n 0) as [->|Hn0].
      { eexists _, _. split; [done|]. split; [apply Hkeep; by rewrite Hs, app_nil_r|]. cbn. by rewrite Ep. }
      rewrite length_drop in Hn.
      destruct (IH (set_reject (set_inner g t) (Writing e (off + n)))) as (g' & r & E & Hi & Hidle & Hr).
      * unfold guard_inv; cbn. split_and!; [done|lia|lia|].
        rewrite Hs, Hsent. rewrite Z2Nat.inj_add by lia. by rewrite take_take_drop.
      * unfold envelope_fuel; cbn. lia.
      * by exists g', r.
    + eexists _, _. split; [done|]. split; [by apply Hkeep|]. cbn. by rewrite Ep.
  - eexists _, _. split; [done|]. unfold guard_inv. by rewrite Ep.
Qed.

Lemma poll_write_envelope_spec g :
  guard_inv Answer g ->
  let '(g', r) := poll_write_envelope g in
  guard_inv Answer g' /\ is_idle (parse_reject g') = is_idle (parse_reject g)
  /\ (is_idle (parse_reject g) = false -> r = Ready (Ok tt) -> parse_reject g' = Written).
Proof.
  intros Hinv. unfold poll_write_envelope.
  destruct (write_envelope_total (envelope_fuel g) g Hinv ltac:(lia)) as (g' & r & -> & ?).
  done.
Qed.

(** Termination of the envelope writer. While the guard holds its invariant
    the write loop of [poll_write_envelope] ends within one round per envelope
    byte left plus one, whatever partial writes, stalls and errors the socket
    answers with. *)
Theorem envelope_loop_terminates g :
  guard_inv Answer g -> exists g' r, write_envelope_loop (envelope_fuel g) g = Some (g', r).
Proof.
  intros Hinv. destruct (write_envelope_total (envelope_fuel g) g Hinv ltac:(lia)) as (g' & r & E & _).
  by exists g', r.
Qed.

Lemma inv_idle_inner g t :
  parse_reject g = Idle -> guard_inv Answer g -> sent t = sent (inner g) -> guard_inv Answer (set_inner g t).
Proof.
  unfold guard_inv, set_inner; cbn. intros ->. intros Hg Ht Hw. rewrite Ht. by apply Hg.
Qed.

Lemma begin_inv g hint :
  parse_reject g = Idle -> wrote_response_bytes g = false -> guard_inv Answer g ->
  Answer (envelope_for_hint hint) -> guard_inv Answer (begin_parse_reject g hint).
Proof.
  unfold begin_parse_reject. intros Ep Hw. unfold guard_inv at 1. rewrite Ep. intros Hs Ha. cbn.
  unfold guard_inv; cbn. split_and!; [done|lia|lia|]. by rewrite Hs.
Qed.

Lemma finish_reject_inv g :
  guard_inv Answer g ->
  guard_inv Answer (fst (poll_finish_parse_reject g))
  /\ is_idle (parse_reject (fst (poll_finish_parse_reject g))) = is_idle (parse_reject g)
  /\ (is_idle (parse_reject g) = false -> forall d, snd (poll_finish_parse_reject g) = Ready (Ok d) ->
        d = [] /\ parse_reject (fst (poll_finish_parse_reject g)) = Written).
Proof.
  intros Hg. pose proof (poll_write_envelope_spec g Hg) as Hs.
  unfold poll_finish_parse_reject. destruct (poll_write_envelope g) as [g' [|[[]|]]]; cbn; naive_solver.
Qed.

(** Writing on Hyper's behalf keeps the invariant. *)
Lemma write_inv g t n data :
  parse_reject g = Idle -> guard_inv Answer g ->
  sent t = sent (inner g) ++ take (Z.to_nat n) data -> 0 <= n ->
  guard_inv Answer (if 0 <? n then set_wrote (set_inner g t) true else set_inner g t).
Proof.
  intros Ep Hinv Hs Hn. unfold guard_inv in *. rewrite Ep in Hinv.
  destruct (Z.ltb_spec 0 n); cbn; rewrite Ep; [done|].
  intros Hw. assert (n = 0) by lia. subst n. cbn in Hs. rewrite Hs, app_nil_r. by apply Hinv.
Qed.

Lemma poll_after_envelope_inv op g :
  (forall t, sent (fst (op t)) = sent t) -> guard_inv Answer g -> guard_inv Answer (fst (poll_after_envelope op g)).
Proof.
  intros Hop Hinv. unfold poll_after_envelope.
  assert (Hfwd : forall g, guard_inv Answer g ->
    guard_inv Answer (fst (let '(t, r) := op (inner g) in (set_inner g t, r)))).
  { intros g0 Hg0. specialize (Hop (inner g0)). destruct (op (inner g0)) as [t r]; cbn in *.
    unfold guard_inv in *; cbn. by rewrite Hop. }
  destruct (negb _); [|by apply Hfwd].
  pose proof (poll_write_envelope_spec g Hinv) as Hs.
  destruct (poll_write_envelope g) as [g' [|[|]]]; try apply Hs. by apply Hfwd, Hs.
Qed.

Lemma write_step_inv g t (r : io Z) data k :
  parse_reject g = Idle -> guard_inv Answer g ->
  match r with
  | Ready (Ok n) => 0 <= n <= k /\ sent t = sent (inner g) ++ take (Z.to_nat n) data
  | _ => sent t = sent (inner g)
  end ->
  guard_inv Answer (fst (match r with
                  | Ready (Ok wrote) =>
                    (if 0 <? wrote then set_wrote (set_inner g t) true else set_inner g t, Ready (Ok wrote))
                  | _ => (set_inner g t, r)
                  end)).
Proof.
  intros Ep Hinv Hw. destruct r as [|[n|e]]; cbn [fst]; try by apply inv_idle_inner.
  destruct Hw as [Hn Hs]. eapply write_inv; eauto; lia.
Qed.

Lemma reject_step_inv g op :
  guard_inv Answer g -> is_idle (parse_reject g) = false ->
  guard_inv Answer (guard_step g op) /\ is_idle (parse_reject (guard_step g op)) = false.
Proof.
  intros Hinv Hi. pose proof (poll_write_envelope_spec g Hinv) as He.
  pose proof (finish_reject_inv g Hinv) as (Hf1 & Hf2 & _).
  destruct op as [n|b|bs| | | |]; cbn [guard_step]; [| | | | |done..].
  - unfold poll_read. rewrite Hi; cbn [negb]. by rewrite Hf2.
  - unfold poll_write. rewrite Hi; cbn [negb].
    destruct (poll_write_envelope g) as [g' [|[|]]]; cbn [fst]; destruct He as (? & -> & _); done.
  - unfold poll_write_vectored. rewrite Hi; cbn [negb].
    destruct (poll_write_envelope g) as [g' [|[|]]]; cbn [fst]; destruct He as (? & -> & _); done.
  - split; [apply poll_after_envelope_inv; [apply flush_law|done]|].
    unfold poll_flush, poll_after_envelope. rewrite Hi; cbn [negb].
    destruct (poll_write_envelope g) as [g' [|[|]]]; destruct He as (_ & He & _); cbn;
      try (destruct (inner_flush (inner g')); cbn); congruence.
  - split; [apply poll_after_envelope_inv; [apply shutdown_law|done]|].
    unfold poll_shutdown, poll_after_envelope. rewrite Hi; cbn [negb].
    destruct (poll_write_envelope g) as [g' [|[|]]]; destruct He as (_ & He & _); cbn;
      try (destruct (inner_shutdown (inner g')); cbn); congruence.
Qed.

Lemma idle_step_inv g op :
  parse_reject g = Idle -> (forall n, op <> GRead n) ->
  guard_inv Answer g -> guard_inv Answer (guard_step g op).
Proof.
  intros Ep Hr Hinv. destruct op as [n|b|bs| | | |]; cbn [guard_step]; [by destruct (Hr n)|..]; [| | | |done..].
  - unfold poll_write. rewrite Ep. cbn [is_idle negb].
    pose proof (write_law (inner g) b) as Hw. destruct (inner_write (inner g) b) as [t r].
    by eapply write_step_inv.
  - unfold poll_write_vectored. rewrite Ep. cbn [is_idle negb].
    pose proof (write_vectored_law (inner g) bs) as Hw.
    destruct (inner_write_vectored (inner g) bs) as [t r]. by eapply write_step_inv.
  - apply poll_after_envelope_inv; [apply flush_law|done].
  - apply poll_after_envelope_inv; [apply shutdown_law|done].
Qed.

(** Answering for Hyper is final. *)
Lemma reject_run_inv ops : forall g,
  guard_inv Answer g -> is_idle (parse_reject g) = false ->
  let g' := foldl guard_step g ops in guard_inv Answer g' /\ is_idle (parse_reject g') = false.
Proof.
  induction ops as [|op ops IH]; intros g Hg Hi; cbn [foldl]; [done|].
  by apply IH; apply reject_step_inv.
Qed.

(** A rejected connection is closed to Hyper. Once the guard has begun to
    answer a parse reject, no later poll hands Hyper another request byte
    (a read yields end of stream, a stall or the socket's error), and a write by
    Hyper that reports success reports the whole buffer as taken, so Hyper
    neither retries nor blocks, while nothing but the envelope is sent. *)
Theorem reject_closes_to_hyper g ops n buf :
  guard_inv Answer g -> is_idle (parse_reject g) = false ->
  let g' := foldl guard_step g ops in
  (forall d, snd (poll_read g' n) = Ready (Ok d) -> d = [])
  /\ (forall k, snd (poll_write g' buf) = Ready (Ok k) ->
        k = Z.of_nat (length buf) /\ parse_reject (fst (poll_write g' buf)) = Written).
Proof.
  intros Hinv Hi g'. destruct (reject_run_inv ops g Hinv Hi) as [Hinv' Hi']. fold g' in Hinv', Hi'.
  clearbody g'. pose proof (poll_write_envelope_spec g' Hinv') as Hs.
  unfold poll_read, poll_write, poll_finish_parse_reject. rewrite Hi'. cbn [negb].
  destruct (poll_write_envelope g') as [g1 [|[[]|]]]; cbn in *; try done.
  destruct Hs as (_ & _ & Hs). split; [naive_solver|].
  intros k [= <-]. split; [done|]. by apply Hs.
Qed.

End Envelope.
End Safety.

(** ** Later malformed heads are left to Hyper *)

(** A published head marks every later hint. *)
Definition marked (s : H1FramingSignals) : Prop :=
  0 < produced s /\ (parse_reject_hint s = 0 \/ Z.land (parse_reject_hint s) PARSE_HINT_PRIOR_HEAD <> 0).

Lemma marked_closed : signals_closed marked.
Proof.
  split; [| |done..].
  - intros s h _ [Hp Hh]. unfold store_parse_reject_hint.
    destruct (h =? PARSE_HINT_NONE); [done|]. destruct (Z.ltb_spec 0 (produced s)); [|lia].
    case_match; [|done]. split; [done|right]. cbn. rewrite Z.land_lor_distr_l.
    change (Z.land PARSE_HINT_PRIOR_HEAD PARSE_HINT_PRIOR_HEAD) with 128.
    intros E%Z.lor_eq_0_iff. lia.
  - intros s b [Hp Hh]. unfold push, checked_add. repeat (case_match; simplify_eq/=); try done.
    all: split; cbn; done || lia.
Qed.

Section Later.
Context {T : Type} `{AsyncIo T}.

Implicit Types g : H1FramingGuardIo T.

(** Between polls an idle guard holds no hint. *)
Definition drained g : Prop :=
  parse_reject g = Idle -> parse_reject_hint (signals g) = PARSE_HINT_NONE.

Lemma envelope_loop_idle fuel : forall g g' r,
  write_envelope_loop fuel g = Some (g', r) -> is_idle (parse_reject g) = false ->
  is_idle (parse_reject g') = false.
Proof.
  induction fuel as [|fuel IH]; intros g g' r E Hi; cbn in E; [done|].
  destruct (parse_reject g) as [|e off|] eqn:Ep; [done| |by simplify_eq; rewrite Ep].
  destruct (_ <=? off); [by simplify_eq|].
  destruct (inner_write (inner g) _) as [t [|[n|err]]]; simplify_eq; cbn; rewrite ?Ep; try done.
  destruct (n =? 0); simplify_eq; cbn; rewrite ?Ep; try done. by eapply IH.
Qed.

Lemma poll_envelope_idle g :
  is_idle (parse_reject g) = false -> is_idle (parse_reject (fst (poll_write_envelope g))) = false.
Proof.
  intros Hi. unfold poll_write_envelope.
  destruct (write_envelope_loop (envelope_fuel g) g) as [[g' r]|] eqn:E; cbn; [|done].
  by eapply envelope_loop_idle.
Qed.

Lemma not_idle_drained g : is_idle (parse_reject g) = false -> drained g.
Proof. intros Hi E. by rewrite E in Hi. Qed.

Lemma next_conflict_hint s : parse_reject_hint (snd (next_conflict s)) = parse_reject_hint s.
Proof. unfold next_conflict. by repeat (case_match; simplify_eq/=). Qed.

(** Whether a drained hint makes the guard answer. *)
Definition answers g (stored_hint : Z) : bool :=
  negb (Z.land stored_hint (Z.lxor PARSE_HINT_PRIOR_HEAD (umax 8)) =? PARSE_HINT_NONE)
  && negb (wrote_response_bytes g) && (Z.land stored_hint PARSE_HINT_PRIOR_HEAD =? 0).

(** One read of an idle guard, case by case. *)
Lemma poll_read_idle g n :
  parse_reject g = Idle ->
  let w := disable_if_requested (scanner g) (signals g) in
  poll_read g n
  = match inner_read (inner g) (read_request g n) with
    | (t, Ready (Ok data)) =>
      let '(w, s) := wire_read (w, signals g) data in
      let g1 := GuardIo t w (set_hint s PARSE_HINT_NONE) Idle (wrote_response_bytes g) in
      if answers g (parse_reject_hint s)
      then poll_finish_parse_reject
             (begin_parse_reject g1 (Z.land (parse_reject_hint s) (Z.lxor PARSE_HINT_PRIOR_HEAD (umax 8))))
      else (g1, Ready (Ok data))
    | (t, r) => (GuardIo t w (signals g) Idle (wrote_response_bytes g), r)
    end.
Proof.
  intros Ep w. unfold poll_read, answers. rewrite Ep. cbn [is_idle negb].
  destruct (inner_read (inner g) (read_request g n)) as [t [|[data|e]]]; [done| |done].
  cbn [scanner signals inner wrote_response_bytes parse_reject]. fold w.
  destruct (wire_read (w, signals g) data) as [w1 s]. cbn [take_parse_reject_hint].
  destruct (negb (Z.land _ _ =? PARSE_HINT_NONE)); [|done].
  destruct (wrote_response_bytes g); [done|]. cbn [orb andb negb].
  by destruct (Z.land _ PARSE_HINT_PRIOR_HEAD =? 0).
Qed.

Lemma begin_not_idle g hint : is_idle (parse_reject (begin_parse_reject g hint)) = false.
Proof. unfold begin_parse_reject. by destruct (parse_reject g) eqn:Ep; cbn; rewrite ?Ep. Qed.

Lemma finish_not_idle g :
  is_idle (parse_reject g) = false -> is_idle (parse_reject (fst (poll_finish_parse_reject g))) = false.
Proof.
  intros Hi%poll_envelope_idle. unfold poll_finish_parse_reject.
  by destruct (poll_write_envelope g) as [g' [|[|]]].
Qed.

Lemma step_not_idle g op :
  is_idle (parse_reject g) = false -> is_idle (parse_reject (guard_step g op)) = false.
Proof.
  intros Hi. pose proof (poll_envelope_idle g Hi) as Hp. pose proof (finish_not_idle g Hi) as Hf.
  destruct op as [n|b|bs| | | |]; cbn [guard_step]; try done;
    unfold poll_read, poll_write, poll_write_vectored, poll_flush, poll_shutdown, poll_after_envelope;
    rewrite Hi; cbn [negb]; try done;
    destruct (poll_write_envelope g) as [g' [|[|]]]; cbn in *; try done.
  - by destruct (inner_flush (inner g')).
  - by destruct (inner_shutdown (inner g')).
Qed.

Lemma run_not_idle ops : forall g,
  is_idle (parse_reject g) = false -> is_idle (parse_reject (foldl guard_step g ops)) = false.
Proof.
  induction ops as [|op ops IH]; intros g Hi; cbn [foldl]; [done|]. by apply IH, step_not_idle.
Qed.

(** What an idle guard's other operations touch. *)
Lemma idle_step_frame g op :
  parse_reject g = Idle -> (forall n, op <> GRead n) ->
  let g' := guard_step g op in
  parse_reject g' = Idle /\ scanner g' = scanner g
  /\ (wrote_response_bytes g = true -> wrote_response_bytes g' = true)
  /\ signals g' = match op with
                  | GNext => snd (next_conflict (signals g))
                  | GTakeRejects => snd (take_parse_rejects (signals g))
                  | _ => signals g
                  end.
Proof.
  intros Ep Hr. destruct op as [n|b|bs| | | |]; cbn [guard_step]; [by destruct (Hr n)| | | | |done..].
  all: unfold poll_write, poll_write_vectored, poll_flush, poll_shutdown, poll_after_envelope;
    rewrite Ep; cbn [is_idle negb].
  - destruct (inner_write (inner g) b) as [t [|[k|e]]]; try destruct (0 <? k); done.
  - destruct (inner_write_vectored (inner g) bs) as [t [|[k|e]]]; try destruct (0 <? k); done.
  - by destruct (inner_flush (inner g)).
  - by destruct (inner_shutdown (inner g)).
Qed.

Lemma is_idle_true g : is_idle (parse_reject g) = true -> parse_reject g = Idle.
Proof. by destruct (parse_reject g). Qed.

Lemma guard_step_drained g op : drained g -> drained (guard_step g op).
Proof.
  intros Hd. destruct (is_idle (parse_reject g)) eqn:Hi;
    [|by apply not_idle_drained, step_not_idle].
  apply is_idle_true in Hi. specialize (Hd Hi).
  destruct op as [n|b|bs| | | |];
    try (match goal with |- drained (guard_step g ?op) =>
           destruct (idle_step_frame g op Hi ltac:(done)) as (_ & _ & _ & Es) end;
         intros _; rewrite Es; by rewrite ?next_conflict_hint).
  cbn [guard_step]. rewrite poll_read_idle by done.
  destruct (inner_read (inner g) (read_request g n)) as [t [|[data|e]]]; [by intros _| |by intros _].
  destruct (wire_read _ data) as [w s]. destruct (answers g _); [|by intros _].
  apply not_idle_drained, finish_not_idle, begin_not_idle.
Qed.

Lemma guard_run_drained ops : forall g, drained g -> drained (foldl guard_step g ops).
Proof.
  induction ops as [|op ops IH]; intros g Hg; cbn [foldl]; [done|]. by apply IH, guard_step_drained.
Qed.

(** Hints behind a head or a response are not answered. *)
Lemma later_not_answered g w data :
  parse_reject_hint (signals g) = PARSE_HINT_NONE ->
  wrote_response_bytes g = true \/ 0 < produced (signals g) ->
  answers g (parse_reject_hint (snd (wire_read (w, signals g) data))) = false.
Proof.
  intros Hh Hlater. unfold answers. destruct Hlater as [->|Hp]; [by rewrite andb_false_r|].
  pose proof (wire_read_kept _ marked_closed w (signals g) data) as [_ [->|Hb]];
    [by split; [|left]|done|]. apply Z.eqb_neq in Hb. by rewrite Hb, andb_false_r.
Qed.

(** Only the first head is answered by the guard. Once a request head has
    been published or Hyper has written response bytes, a poll of an idle guard
    passes the socket's answer to Hyper unchanged, malformed heads included, and
    the guard stays idle: the answers to earlier requests are never cut off. *)
Theorem later_heads_left_to_hyper (t : T) max ops n :
  let g := foldl guard_step (new_guard t max) ops in
  parse_reject g = Idle ->
  wrote_response_bytes g = true \/ 0 < produced (signals g) ->
  snd (poll_read g n) = snd (inner_read (inner g) (read_request g n))
  /\ inner (fst (poll_read g n)) = fst (inner_read (inner g) (read_request g n))
  /\ parse_reject (fst (poll_read g n)) = Idle.
Proof.
  intros g Ep Hlater.
  assert (Hh : parse_reject_hint (signals g) = PARSE_HINT_NONE) by (by apply guard_run_drained).
  rewrite poll_read_idle by done.
  destruct (inner_read (inner g) _) as [t' [|[data|e]]]; [done| |done].
  pose proof (later_not_answered g (disable_if_requested (scanner g) (signals g)) data Hh Hlater) as Ha.
  destruct (wire_read _ data) as [w s]. cbn [snd] in Ha. by rewrite Ha.
Qed.

(** While the guard ends up idle, Hyper has been given every byte read. *)
Lemma idle_delivers ops : forall g,
  parse_reject (foldl guard_step g ops) = Idle -> delivered g ops = arrived g ops.
Proof.
  induction ops as [|op ops IH]; intros g Hf; cbn [foldl delivered arrived] in *; [done|].
  rewrite (IH _ Hf). f_equal.
  destruct (is_idle (parse_reject (guard_step g op))) eqn:Hs; cycle 1.
  { pose proof (run_not_idle ops _ Hs) as Hn. by rewrite Hf in Hn. }
  destruct (is_idle (parse_reject g)) eqn:Hi; cycle 1.
  { by rewrite step_not_idle in Hs. }
  destruct op as [n|b|bs| | | |]; try done. cbn [handed_by read_by guard_step] in *.
  rewrite Hi. apply is_idle_true in Hi. rewrite poll_read_idle in Hs |- * by done.
  destruct (inner_read (inner g) _) as [t' [|[data|e]]]; [done| |done].
  destruct (wire_read _ data) as [w s]. destruct (answers g _); [|done].
  by rewrite finish_not_idle in Hs by apply begin_not_idle.
Qed.

End Later.

(** ** The envelope answers the hint of the bytes read *)

(** A hint of the first head. *)
Definition first_head_hint (hint : Z) : Prop :=
  hint <> PARSE_HINT_NONE /\ Z.land hint PARSE_HINT_PRIOR_HEAD = 0.

(** The envelope due after the bytes [l]. *)
Definition due (max : Z) (l e : bytes) : Prop :=
  first_head_hint (wire_hint max l) /\ e = envelope_for_hint (wire_hint max l).

(** Hints are marked only behind a published head. *)
Definition mark_sound (s : H1FramingSignals) : Prop :=
  Z.land (parse_reject_hint s) PARSE_HINT_PRIOR_HEAD <> 0 -> 0 < produced s.

Lemma mark_sound_closed : signals_closed mark_sound.
Proof.
  split; [| |done..].
  - intros s h Hh Hs. unfold store_parse_reject_hint. case_match; [done|]. case_match; [|done].
    unfold mark_sound; cbn. destruct (Z.ltb_spec 0 (produced s)); [done|].
    assert (h = 0 \/ h = 1 \/ h = 2 \/ h = 3) as [-> | [-> | [-> | ->]]] by lia; done.
  - intros s b Hs. unfold push, checked_add. repeat (case_match; simplify_eq/=); try done.
    all: intros Hm; specialize (Hs Hm); cbn; lia.
Qed.

Lemma no_rejects_closed : signals_closed (fun s => parse_rejects s = 0).
Proof.
  split; [| |done..].
  - intros s h _ Hs. unfold store_parse_reject_hint. by repeat case_match.
  - intros s b Hs. unfold push, checked_add. by repeat (case_match; simplify_eq/=).
Qed.

(** What is known of an idle guard that has read [l]. Until a hint appears the
    signals are those of the observer alone; a hint that was passed over was
    behind a response or a head; and once the handler has queried ([q]) the
    guard may also have been told to stop observing. *)
Definition unanswerable (g_wrote : bool) (s : H1FramingSignals) : Prop :=
  g_wrote = true \/ 0 < produced s.

Definition observing (max : Z) (l : bytes) (ws : WireScanner * H1FramingSignals) : Prop :=
  tracks max new_signals l ws /\ signals_typed (snd ws) /\ parse_rejects (snd ws) = 0.

Definition quiet (q : Prop) (max : Z) (l : bytes) (wrote : bool) (ws : WireScanner * H1FramingSignals) : Prop :=
  observing max l ws
  \/ wire_hint max l <> 0
     /\ (wrote = true
         \/ Z.land (wire_hint max l) PARSE_HINT_PRIOR_HEAD <> 0 /\ 0 < produced (snd ws))
  \/ q /\ (unanswerable wrote (snd ws) \/ observation_disabled (snd ws) = true).

Section Connection.
Context {T : Type} `{AsyncIoLaws T}.
Context (q : Prop) (max : Z).

Implicit Types g : H1FramingGuardIo T.

Definition conn_inv (l : bytes) g : Prop :=
  guard_inv (due max l) g
  /\ (parse_reject g = Idle ->
      parse_reject_hint (signals g) = PARSE_HINT_NONE
      /\ quiet q max l (wrote_response_bytes g) (scanner g, signals g)).

Lemma guard_inv_idle A B g : parse_reject g = Idle -> guard_inv A g -> guard_inv B g.
Proof. unfold guard_inv. by intros ->. Qed.

Lemma set_hint_same s : parse_reject_hint s = 0 -> set_hint s PARSE_HINT_NONE = s.
Proof. destruct s; cbn. by intros ->. Qed.

(** Masking the prior-head bit off an unmarked byte changes nothing. *)
Lemma unmarked_hint h :
  0 <= h <= umax 8 -> Z.land h PARSE_HINT_PRIOR_HEAD = 0 ->
  Z.land h (Z.lxor PARSE_HINT_PRIOR_HEAD (umax 8)) = h.
Proof.
  intros Hh Hm. apply Z.bits_inj'. intros i Hi.
  rewrite Z.land_spec. change (Z.lxor PARSE_HINT_PRIOR_HEAD (umax 8)) with (Z.ones 7).
  rewrite Z.testbit_ones_nonneg by lia. destruct (Z.ltb_spec i 7); [by rewrite andb_true_r|].
  rewrite andb_false_r. symmetry. destruct (Z.eq_dec i 7) as [->|Hne].
  - assert (E : Z.testbit (Z.land h PARSE_HINT_PRIOR_HEAD) 7 = false) by (by rewrite Hm).
    rewrite Z.land_spec in E. by rewrite andb_true_r in E.
  - apply Z.bits_above_log2; [lia|]. destruct (Z.eq_dec h 0) as [->|]; [cbn; lia|].
    assert (Z.log2 h < 8) by (apply Z.log2_lt_pow2; unfold umax in *; lia). lia.
Qed.

Lemma observing_read l w s data :
  observing max l (w, s) -> parse_reject_hint s = 0 ->
  observing max (l ++ data) (wire_read (disable_if_requested w s, s) data)
  /\ mark_sound (snd (wire_read (disable_if_requested w s, s) data)).
Proof.
  intros (Ht & Hy & Hj) Hh. cbn in Hy, Hj. unfold observing. split_and!.
  - apply wire_read_tracks; [done|]. by apply disable_tracks.
  - by apply (wire_read_kept _ signals_typed_closed).
  - by apply (wire_read_kept _ no_rejects_closed).
  - apply (wire_read_kept _ mark_sound_closed). unfold mark_sound. by rewrite Hh.
Qed.

(** A guard told to stop observing stores nothing. *)
Lemma disabled_read w s data :
  observation_disabled s = true -> snd (wire_read (disable_if_requested w s, s) data) = s.
Proof.
  intros Hd. unfold wire_read, disable_if_requested. rewrite Hd, !andb_true_r.
  destruct (observation_active w) eqn:Ea; [done|]. by rewrite Ea, Ea.
Qed.

Lemma unanswerable_read wrote w s data :
  parse_reject_hint s = PARSE_HINT_NONE -> unanswerable wrote s ->
  unanswerable wrote (snd (wire_read (w, s) data)).
Proof.
  intros Hh [Hw|Hp]; [by left|right].
  by apply (wire_read_kept _ marked_closed w s data); split; [|left].
Qed.

(** A hint that is not answered. *)
Lemma passed_over g s :
  mark_sound s -> 0 <= parse_reject_hint s <= umax 8 -> parse_reject_hint s <> 0 ->
  answers g (parse_reject_hint s) = false ->
  wrote_response_bytes g = true
  \/ Z.land (parse_reject_hint s) PARSE_HINT_PRIOR_HEAD <> 0 /\ 0 < produced s.
Proof.
  unfold answers. intros Hm Hb Hn Ha.
  destruct (wrote_response_bytes g); [by left|right].
  destruct (Z.eq_dec (Z.land (parse_reject_hint s) PARSE_HINT_PRIOR_HEAD) 0) as [E|E];
    [|by split; [|apply Hm]].
  rewrite unmarked_hint, E in Ha by done. apply Z.eqb_neq in Hn. unfold PARSE_HINT_NONE in Ha.
  by rewrite Hn in Ha.
Qed.

(** The state after a read whose hint is not answered. *)
Lemma quiet_read g l data :
  let ws := wire_read (disable_if_requested (scanner g) (signals g), signals g) data in
  parse_reject_hint (signals g) = PARSE_HINT_NONE ->
  quiet q max l (wrote_response_bytes g) (scanner g, signals g) ->
  answers g (parse_reject_hint (snd ws)) = false ->
  quiet q max (l ++ data) (wrote_response_bytes g) (fst ws, set_hint (snd ws) PARSE_HINT_NONE).
Proof.
  intros ws Hh Hq Ha. destruct Hq as [Ho|[[Hn Hu]|[Hq [Hu|Hd]]]]; cbn [snd] in *.
  - destruct (observing_read l _ _ data Ho Hh) as [Ho' Hm]. fold ws in Ho', Hm.
    destruct (Z.eq_dec (parse_reject_hint (snd ws)) 0) as [E|E].
    + left. rewrite set_hint_same by done. by rewrite <- surjective_pairing.
    + right; left. destruct Ho' as (Ht & Hy & _). rewrite (surjective_pairing ws) in Ht.
      rewrite (tracks_hint _ _ _ _ Ht). split; [done|]. apply (passed_over g (snd ws)); try done. apply Hy.
  - right; left. rewrite wire_hint_app by done. split; [done|].
    destruct Hu as [Hu|[Hm Hu]]; [by left|right]. split; [done|].
    by destruct (unanswerable_read false (disable_if_requested (scanner g) (signals g))
                   (signals g) data Hh (or_intror Hu)).
  - right; right. split; [done|left]. by apply (unanswerable_read _ _ _ data Hh Hu).
  - right; right. split; [done|right].
    change (observation_disabled (snd ws) = true). subst ws. by rewrite disabled_read.
Qed.

(** A read whose hint is answered: it is the hint of all the bytes so far. *)
Lemma answered_read g l data :
  let ws := wire_read (disable_if_requested (scanner g) (signals g), signals g) data in
  parse_reject_hint (signals g) = PARSE_HINT_NONE ->
  quiet q max l (wrote_response_bytes g) (scanner g, signals g) ->
  answers g (parse_reject_hint (snd ws)) = true ->
  wrote_response_bytes g = false
  /\ due max (l ++ data)
       (envelope_for_hint (Z.land (parse_reject_hint (snd ws)) (Z.lxor PARSE_HINT_PRIOR_HEAD (umax 8)))).
Proof.
  intros ws Hh Hq Ha.
  assert (Hno : ~ unanswerable (wrote_response_bytes g) (signals g)).
  { intros Hu. subst ws. by rewrite later_not_answered in Ha. }
  destruct Hq as [Ho|[[_ [Hu|[_ Hu]]]|[_ [Hu|Hd]]]]; cbn [snd] in *;
    [|by destruct Hno; left|by destruct Hno; right|by destruct Hno|].
  2: { subst ws. rewrite disabled_read, Hh in Ha by done. done. }
  destruct (observing_read l _ _ data Ho Hh) as [(Ht & Hy & _) _]. fold ws in Ht, Hy.
  rewrite (surjective_pairing ws) in Ht. unfold due. rewrite (tracks_hint _ _ _ _ Ht).
  unfold answers in Ha. apply andb_true_iff in Ha as [Ha Hp]. apply andb_true_iff in Ha as [Hn Hw].
  apply Z.eqb_eq in Hp. apply negb_true_iff in Hw. rewrite unmarked_hint in Hn |- * by (done || apply Hy).
  split; [done|]. split; [split; [|done]|done]. by apply negb_true_iff, Z.eqb_neq in Hn.
Qed.

Lemma conn_read g n l :
  conn_inv l g -> parse_reject g = Idle ->
  conn_inv (l ++ read_by g (GRead n)) (guard_step g (GRead n)).
Proof.
  intros [Hg Hi] Ep. destruct (Hi Ep) as [Hh Hq]. cbn [read_by guard_step].
  rewrite Ep. cbn [is_idle]. rewrite poll_read_idle by done.
  pose proof (read_law (inner g) (read_request g n)) as Hr.
  destruct (inner_read (inner g) (read_request g n)) as [t r]. destruct Hr as [Hs _].
  assert (Hg' : forall A w s, guard_inv A (GuardIo t w s Idle (wrote_response_bytes g))).
  { intros A w s. revert Hg. unfold guard_inv; cbn. by rewrite Ep, Hs. }
  assert (Hst : conn_inv (l ++ []) (GuardIo t (disable_if_requested (scanner g) (signals g)) (signals g) Idle
                              (wrote_response_bytes g))).
  { rewrite app_nil_r. split; [apply Hg'|]. intros _. split; [done|].
    destruct Hq as [(Ht & Hy)|Hq]; [left|by right]. split; [by apply disable_tracks|done]. }
  destruct r as [|[data|e]]; cbn [snd fst]; [done| |done].
  pose proof (quiet_read g l data Hh Hq) as Hquiet. pose proof (answered_read g l data Hh Hq) as Hans.
  destruct (wire_read _ data) as [w s]; cbn [fst snd] in *.
  destruct (answers g (parse_reject_hint s)).
  - destruct (Hans eq_refl) as [Hw Hdue].
    set (g1 := GuardIo t w _ Idle _).
    pose proof (begin_inv (due max (l ++ data)) g1 _ eq_refl Hw (Hg' _ _ _) Hdue) as Hb.
    destruct (finish_reject_inv _ _ Hb) as (Hf & Hni & _).
    split; [exact Hf|]. intros E. by rewrite E, begin_not_idle in Hni.
  - split; [apply Hg'|]. intros _. split; [done|by apply Hquiet].
Qed.

(** The handler's query. *)
Lemma quiet_next l wrote w s :
  q -> quiet q max l wrote (w, s) -> quiet q max l wrote (w, snd (next_conflict s)).
Proof.
  intros Hq Hs.
  assert (Hp : produced (snd (next_conflict s)) = produced s)
    by (unfold next_conflict; by repeat (case_match; simplify_eq/=)).
  assert (Hd : observation_disabled s = true -> observation_disabled (snd (next_conflict s)) = true)
    by (unfold next_conflict; by repeat (case_match; simplify_eq/=)).
  unfold quiet, unanswerable in *; cbn [snd] in *. rewrite Hp.
  destruct Hs as [(Ht & Hy & Hj)|Hs]; [|naive_solver]. cbn in Hy.
  destruct (overflowed s || unknown s) eqn:Ef.
  { left. unfold next_conflict. by rewrite Ef. }
  right; right. split; [done|]. destruct (Z.leb_spec (produced s) (consumed s)) as [Hle|Hlt].
  - right. unfold next_conflict. rewrite Ef. by destruct (Z.leb_spec (produced s) (consumed s)); [|lia].
  - left; right. destruct (typed_consumed s Hy). lia.
Qed.

Lemma conn_step g op l :
  (op = GNext -> q) -> conn_inv l g -> conn_inv (l ++ read_by g op) (guard_step g op).
Proof.
  intros Hnext Hc. destruct (is_idle (parse_reject g)) eqn:Hi; cycle 1.
  { destruct Hc as [Hg _]. destruct (reject_step_inv _ g op Hg Hi) as [Hg' Hi'].
    assert (E : read_by g op = []) by (unfold read_by; rewrite Hi; by destruct op).
    rewrite E, app_nil_r. split; [done|]. intros E'. by rewrite E' in Hi'. }
  apply is_idle_true in Hi. destruct op as [n|b|bs| | | |]; [by apply conn_read|..]; cbn [read_by];
    rewrite app_nil_r; destruct Hc as [Hg Hc]; destruct (Hc Hi) as [Hh Hq];
    match goal with |- conn_inv _ (guard_step g ?op) =>
      destruct (idle_step_frame g op Hi ltac:(done)) as (_ & Ew & Hw & Es);
      split; [by apply idle_step_inv|intros _; rewrite Ew, Es] end.
  1-4: split; [done|]; destruct Hq as [Ho|[[Hn [Hu|[Hm Hu]]]|[Hq [[Hu|Hu]|Hu]]]];
    [by left|right; left|right; left|right; right|right; right|right; right];
    unfold unanswerable; naive_solver.
  - split; [by rewrite next_conflict_hint|]. apply quiet_next; [by apply Hnext|].
    exact Hq.
  - split; [done|]. destruct Hq as [(Ht & Hy & Hj)|Hq]; [left|right; exact Hq].
    unfold observing, take_parse_rejects; cbn [snd] in *. by destruct (signals g); cbn in *; subst.
Qed.

Lemma conn_run ops : forall g l,
  (GNext ∈ ops -> q) -> conn_inv l g ->
  conn_inv (l ++ arrived g ops) (foldl guard_step g ops).
Proof.
  induction ops as [|op ops IH]; intros g l Hn Hg; cbn [foldl arrived]; [by rewrite app_nil_r|].
  rewrite app_assoc. apply IH; [intros Hin; apply Hn; set_solver|].
  apply conn_step; [intros ->; apply Hn; set_solver|done].
Qed.

Lemma new_guard_conn t : sent t = [] -> conn_inv [] (new_guard t max).
Proof.
  intros Ht. split; [by intros _|]. intros _. split; [done|]. left.
  split; [apply new_wire_tracks|]. split; [apply new_signals_typed|done].
Qed.

End Connection.

Section Theorems.
Context {T : Type} `{AsyncIoLaws T}.





(** *** Machine widths *)

Definition guard_typed (g : H1FramingGuardIo T) : Prop :=
  wire_wf (scanner g) /\ signals_typed (signals g).

Lemma envelope_loop_frame fuel : forall (g g' : H1FramingGuardIo T) r,
  write_envelope_loop fuel g = Some (g', r) -> scanner g' = scanner g /\ signals g' = signals g.
Proof.
  induction fuel as [|fuel IH]; intros g g' r E; cbn in E; [done|].
  destruct (parse_reject g) as [|e off|]; [by simplify_eq| |by simplify_eq].
  destruct (_ <=? off); [by simplify_eq|].
  destruct (inner_write (inner g) _) as [t [|[n|err]]]; simplify_eq; try done.
  destruct (n =? 0); simplify_eq; try done. by apply IH in E.
Qed.

Lemma poll_envelope_typed (g : H1FramingGuardIo T) :
  guard_typed g -> guard_typed (fst (poll_write_envelope g)).
Proof.
  intros Hg. unfold poll_write_envelope.
  destruct (write_envelope_loop _ g) as [[g' r]|] eqn:E; [|done].
  apply envelope_loop_frame in E as [E1 E2]. unfold guard_typed. cbn. by rewrite E1, E2.
Qed.

Lemma finish_typed (g : H1FramingGuardIo T) :
  guard_typed g -> guard_typed (fst (poll_finish_parse_reject g)).
Proof.
  intros Hg%poll_envelope_typed. unfold poll_finish_parse_reject.
  by destruct (poll_write_envelope g) as [g' [|[|]]].
Qed.

Lemma begin_typed (g : H1FramingGuardIo T) hint : guard_typed g -> guard_typed (begin_parse_reject g hint).
Proof.
  intros [Hw []]. unfold begin_parse_reject. case_match; [by split|]. split; [done|].
  constructor; try done. cbn. unfold in_u64, wrapping_add, wrap, umax.
  pose proof (Z.mod_pos_bound (parse_rejects (signals g) + 1) (2 ^ 64) ltac:(lia)). lia.
Qed.

Lemma poll_read_typed (g : H1FramingGuardIo T) n : guard_typed g -> guard_typed (fst (poll_read g n)).
Proof.
  intros Hg. destruct (is_idle (parse_reject g)) eqn:Hi; cycle 1.
  { unfold poll_read. rewrite Hi. by apply finish_typed. }
  apply is_idle_true in Hi. destruct Hg as [Hw Hs]. rewrite poll_read_idle by done.
  pose proof (disable_wf (scanner g) (signals g) Hw) as Hw'.
  destruct (inner_read (inner g) _) as [t [|[data|e]]]; [by split| |by split].
  pose proof (wire_read_wf (disable_if_requested (scanner g) (signals g), signals g) data Hw') as Hr.
  pose proof (wire_read_kept _ signals_typed_closed (disable_if_requested (scanner g) (signals g)) _ data Hs) as Hk.
  destruct (wire_read _ data) as [w s]; cbn [fst snd] in *.
  assert (Hy : signals_typed (set_hint s PARSE_HINT_NONE)) by (by destruct Hk; constructor).
  destruct (answers g _); [|done]. by apply finish_typed, begin_typed.
Qed.

Lemma guard_step_typed (g : H1FramingGuardIo T) op : guard_typed g -> guard_typed (guard_step g op).
Proof.
  intros Hg. pose proof (poll_envelope_typed g Hg) as He.
  destruct op as [n|b|bs| | | |]; cbn [guard_step]; [by apply poll_read_typed| | | | | |].
  1-4: unfold poll_write, poll_write_vectored, poll_flush, poll_shutdown, poll_after_envelope;
    destruct (negb _); [destruct (poll_write_envelope g) as [g' [|[|]]]; cbn [fst] in He |- *; try done|].
  - by destruct (inner_write (inner g) b) as [t [|[k|e]]]; [|destruct (0 <? k)|].
  - by destruct (inner_write_vectored (inner g) bs) as [t [|[k|e]]]; [|destruct (0 <? k)|].
  - by destruct (inner_flush (inner g')).
  - by destruct (inner_flush (inner g)).
  - by destruct (inner_shutdown (inner g')).
  - by destruct (inner_shutdown (inner g)).
  - destruct Hg as [Hw Hs]. split; [done|]. by apply next_conflict_typed.
  - destruct Hg as [Hw []]. split; [done|]. by constructor.
Qed.

(** C38. The guard keeps its type on every input: whatever bytes the peer sends,
    however they are split over reads, and however reads, writes and the
    handler's queries interleave, with the hints drained and the reject
    answered in between. Every counter of the scanner stays within its machine
    width (content lengths, bytes seen, header-name length, body, chunk, extension
    and trailer counts), the preface buffer, the UTF-8 buffer and the
    request-line tail are filled within their 24, 4 and 12 bytes, the shared
    counters and ring words fit 64 bits and the hint 8, and the envelope offset
    never passes the end of the envelope. *)
Theorem guard_state_typed (t : T) max ops :
  sent t = [] ->
  let g := foldl guard_step (new_guard t max) ops in
  wire_wf (scanner g) /\ signals_typed (signals g)
  /\ forall e offset, parse_reject g = Writing e offset -> 0 <= offset <= Z.of_nat (length e).
Proof.
  intros Ht g.
  assert (Hy : guard_typed g).
  { subst g. assert (H1 : guard_typed (new_guard t max))
      by (split; [apply new_wire_wf|apply new_signals_typed]).
    revert H1. generalize (new_guard t max). induction ops as [|op ops IH]; intros g Hg; [done|].
    cbn [foldl]. by apply IH, guard_step_typed. }
  pose proof (conn_run (GNext ∈ ops) max ops _ [] id (new_guard_conn _ max t Ht)) as [Hg _].
  fold g in Hg. destruct Hy as [Hw Hs]. split_and!; [done..|].
  intros e off Ep. unfold guard_inv in Hg. rewrite Ep in Hg. apply Hg.
Qed.

End Theorems.

(** ** A socket in memory

    An instance of the interface: segments arrive in order, a write takes as
    many bytes as the next quota allows (a negative quota is a stall). It shows
    that the laws can hold and drives the concrete runs. *)

Record memory_socket := Socket { incoming : list bytes; outgoing : bytes; quotas : list Z }.

Definition socket_read (m : memory_socket) (cap : Z) : memory_socket * io bytes :=
  match incoming m with
  | [] => (m, Ready (Ok []))
  | d :: rest =>
    let k := Z.to_nat cap in
    (Socket (if (length d <=? k)%nat then rest else drop k d :: rest) (outgoing m) (quotas m),
     Ready (Ok (take k d)))
  end.

Definition socket_write (m : memory_socket) (buf : bytes) : memory_socket * io Z :=
  match quotas m with
  | [] => (Socket (incoming m) (outgoing m ++ buf) [], Ready (Ok (Z.of_nat (length buf))))
  | q :: qs =>
    if q <? 0 then (Socket (incoming m) (outgoing m) qs, Pending)
    else
      let n := Z.min q (Z.of_nat (length buf)) in
      (Socket (incoming m) (outgoing m ++ take (Z.to_nat n) buf) qs, Ready (Ok n))
  end.

#[export] Instance memory_io : AsyncIo memory_socket := {
  inner_read := socket_read;
  inner_write := socket_write;
  inner_write_vectored m bufs := socket_write m (concat bufs);
  inner_flush m := (m, Ready (Ok tt));
  inner_shutdown m := (m, Ready (Ok tt));
}.

Lemma socket_write_law m buf :
  let '(m', r) := socket_write m buf in
  match r with
  | Ready (Ok n) => 0 <= n <= Z.of_nat (length buf) /\ outgoing m' = outgoing m ++ take (Z.to_nat n) buf
  | _ => outgoing m' = outgoing m
  end.
Proof.
  unfold socket_write. destruct (quotas m) as [|q qs]; cbn.
  - split; [lia|]. by rewrite Nat2Z.id, firstn_all.
  - destruct (Z.ltb_spec q 0); cbn; [done|]. split; [lia|done].
Qed.

#[export] Instance memory_io_laws : AsyncIoLaws memory_socket.
Proof.
  refine {| sent := outgoing |}; try done.
  - intros m cap. cbn. unfold socket_read. destruct (incoming m) as [|d rest]; cbn.
    + split; [done|]. intros d [= <-]. cbn. lia.
    + split; [done|]. intros d' [= <-]. rewrite length_take. lia.
  - apply socket_write_law.
  - intros m bufs. apply socket_write_law.
Defined.

(** A head whose two lengths differ, on its own and behind a good request. *)
Definition good_head : bytes := bs "GET /a HTTP/1.1" ++ crlf ++ crlf.
Definition bad_lines : bytes :=
  bs "GET /b HTTP/1.1" ++ crlf ++ bs "Content-Length: 1" ++ crlf ++ bs "Content-Length: 2" ++ crlf.

Definition rejecting_guard : H1FramingGuardIo memory_socket :=
  foldl guard_step (new_guard (Socket [bad_lines ++ crlf] [] [10; -1; 3]) 1000) [GRead 4096].

(** What the three lines above leave behind. *)
Definition bad_envelope : bytes -> Prop := due 1000 (bad_lines ++ crlf).

Lemma rejecting_guard_inv : guard_inv bad_envelope rejecting_guard.
Proof.
  assert (H0 : conn_inv True 1000 [] (new_guard (Socket [bad_lines ++ crlf] [] [10; -1; 3]) 1000))
    by (by apply new_guard_conn).
  apply (conn_run True 1000 [GRead 4096] _ [] (fun _ => I) H0).
Qed.

Lemma envelope_loop_terminates_witness :
  guard_inv bad_envelope rejecting_guard /\ exists g' r,
    write_envelope_loop (envelope_fuel rejecting_guard) rejecting_guard = Some (g', r).
Proof.
  split; [exact rejecting_guard_inv|].
  exact (envelope_loop_terminates bad_envelope rejecting_guard rejecting_guard_inv).
Defined.


Lemma guard_state_typed_witness :
  wire_wf (scanner (foldl guard_step (new_guard (Socket [bad_lines; crlf] [] [10]) 1000)
                      [GRead 20; GNext; GRead 4096; GFlush])).
Proof.
  pose proof (guard_state_typed (Socket [bad_lines; crlf] [] [10]) 1000
                [GRead 20; GNext; GRead 4096; GFlush]) as Hw.
  cbv zeta in Hw. exact (proj1 (Hw eq_refl)).
Defined.

Lemma reject_closes_to_hyper_witness :
  is_idle (parse_reject rejecting_guard) = false
  /\ forall d, snd (poll_read (foldl guard_step rejecting_guard [GFlush]) 64) = Ready (Ok d) -> d = [].
Proof.
  split; [vm_compute; reflexivity|].
  apply (reject_closes_to_hyper bad_envelope rejecting_guard [GFlush] 64 [] rejecting_guard_inv).
  vm_compute. reflexivity.
Defined.

Lemma later_heads_left_to_hyper_witness :
  let g := foldl guard_step (new_guard (Socket [good_head; bad_lines ++ crlf] [] []) 1000) [GRead 4096] in
  snd (poll_read g 4096) = Ready (Ok (bad_lines ++ crlf)).
Proof.
  intros g.
  assert (E : snd (poll_read g 4096) = snd (inner_read (inner g) (read_request g 4096))).
  { apply (later_heads_left_to_hyper (Socket [good_head; bad_lines ++ crlf] [] []) 1000 [GRead 4096] 4096).
    - vm_compute. reflexivity.
    - right. vm_compute. reflexivity. }
  rewrite E. vm_compute. reflexivity.
Defined.
