(* ===== verification/H1Pipeline.v ===== *)
(** * Pipelined requests through the observer

    The composition of the parts: a guarded connection that carries a sequence
    of well-formed requests, split over socket reads in any way and with
    Hyper's writes in between, passes every byte to Hyper, publishes one
    decision per request, in order, and the request handler reads exactly those
    decisions back. The last part shows where the split does matter: a rejected
    head behind a good request. *)

From S2P Require Import Prelude Utf8 H1Signals H1Head H1HeadSpec H1Chunked H1Framing H1Guard.

(** ** Messages *)

Inductive body := NoBody | FixedData (data : bytes) | ChunkedData (b : chunked_body).

Record message := Message { m_head : head_text; m_body : body }.

Definition m_headers (m : message) : list bytes := map fst (headers (m_head m)).

Definition encode_message_body (b : body) : bytes :=
  match b with NoBody => [] | FixedData d => d | ChunkedData c => encode_body c end.

Definition encode_message (m : message) : bytes :=
  encode_head (m_head m) ++ encode_message_body (m_body m).

(** The head fits the budget, Hyper has no reason to reject it (valid UTF-8 in
    the request line, agreeing lengths, no HTTP/1.0 with Transfer-Encoding), and
    the body is framed as the head says. *)
Definition message_ok (max : Z) (m : message) : Prop :=
  head_ok (m_head m) /\ Z.of_nat (length (encode_head (m_head m))) <= max
  /\ head_hint (fst (request (m_head m))) (m_headers m) = PARSE_HINT_NONE
  /\ match head_framing (m_headers m), m_body m with
     | BodyNone, NoBody => True
     | BodyFixed n, FixedData d => Z.of_nat (length d) = n
     | BodyChunked, ChunkedData c => body_ok c
     | _, _ => False
     end.

#[global] Instance message_ok_dec max m : Decision (message_ok max m).
Proof. unfold message_ok. destruct (head_framing (m_headers m)), (m_body m); apply _. Defined.

(** ** One head inside the stream *)

Lemma stream_run_head max l : forall h s h' s' o rest,
  head_run h s l = (h', s', HeadComplete o, rest) ->
  stream_run max (StHead h) s l
  = let '(st, s'', stop) := complete_head max s' o in
    if is_disabled st then (st, s'', stop) else stream_run max st s'' rest.
Proof.
  induction l as [|b l IH]; intros h s h' s' o rest E; cbn in E; [done|].
  cbn [stream_run stream_feed].
  destruct (head_observe h s b) as [[h1 s1] [|o1|]]; [| |done].
  - cbn [is_disabled]. by eapply IH.
  - by simplify_eq.
Qed.

(** Room for [k] more decisions. *)
Definition room (s : H1FramingSignals) (k : nat) : Prop :=
  signals_wf s /\ observation_disabled s = false
  /\ produced s - consumed s + Z.of_nat k <= SIGNAL_CAPACITY
  /\ produced s + Z.of_nat k < 2 ^ 64.

Lemma push_with_room s b k :
  room s (S k) ->
  exists s', push s b = (s', true) /\ decisions s' = decisions s ++ [b] /\ room s' k
    /\ overflowed s' = overflowed s /\ unknown s' = unknown s
    /\ parse_reject_hint s' = parse_reject_hint s /\ produced s' = produced s + 1.
Proof.
  intros (Hwf & Ho & Hc & Hp).
  destruct (push_room s b Hwf Ho ltac:(lia) ltac:(lia)) as (w & ring & _ & _ & E).
  pose proof (push_room_wf s b Hwf Ho ltac:(lia) ltac:(lia)) as [Hwf' Hd]. rewrite E in *.
  eexists; split; [done|]. split_and!; try done.
  split_and!; try done; cbn [produced consumed set_produced set_conflicts]; lia.
Qed.

Lemma head_framing_fixed hs n : head_framing hs = BodyFixed n -> n <> 0.
Proof. unfold head_framing. intros E. repeat case_match; simplify_eq; zcases; done. Qed.

(** The signals after [n] more good requests with decisions [ds]. *)
Definition advanced (s s' : H1FramingSignals) (ds : list bool) : Prop :=
  decisions s' = decisions s ++ ds /\ overflowed s' = overflowed s /\ unknown s' = unknown s
  /\ parse_reject_hint s' = parse_reject_hint s /\ produced s' = produced s + Z.of_nat (length ds).

(** A message before [k] more: one decision. *)
Lemma stream_run_message max m s rest k :
  max <= umax 64 -> message_ok max m -> room s (S k) ->
  exists s',
    stream_run max (StHead (new_head max)) s (encode_message m ++ rest)
    = stream_run max (StHead (new_head max)) s' rest
    /\ advanced s s' [head_conflict (m_headers m)] /\ room s' k.
Proof.
  intros Hmax (Hh & Hlen & Hhint & Hbody) Hroom. unfold encode_message. rewrite <- app_assoc.
  destruct (head_scanner_spec (m_head m) max s (encode_message_body (m_body m) ++ rest)) as [h' E];
    [done|lia|]. fold (m_headers m) in E. rewrite Hhint in E.
  rewrite (stream_run_head max _ _ _ _ _ _ _ E). change (store_parse_reject_hint s PARSE_HINT_NONE) with s.
  destruct (push_with_room s (head_conflict (m_headers m)) k Hroom) as (s' & Hp & Hd & Hr & Hs).
  exists s'. split; [|done]. unfold complete_head; cbn [framing outcome_conflict].
  rewrite Hp. cbn [negb].
  destruct (head_framing (m_headers m)) as [|n| |] eqn:E4, (m_body m) as [|d|c]; try done;
    cbn [andb is_disabled].
  - pose proof (head_framing_fixed (m_headers m) n E4) as Hn.
    rewrite stream_run_fixed by lia. cbn [encode_message_body]. rewrite length_app.
    destruct (Z.ltb_spec (Z.of_nat (length d + length rest)) n); [lia|].
    by rewrite <- Hbody, Nat2Z.id, drop_app_length.
  - destruct (chunk_run_body c rest Hbody) as [c' Ec]. cbn [encode_message_body].
    by rewrite (stream_run_chunked max s' _ new_chunked 0), Ec, Z.sub_0_r, Nat2Z.id, drop_app_length.
Qed.

Lemma stream_run_messages max k ms : forall s rest,
  max <= umax 64 -> Forall (message_ok max) ms -> room s (length ms + k) ->
  exists s',
    stream_run max (StHead (new_head max)) s (concat (map encode_message ms) ++ rest)
    = stream_run max (StHead (new_head max)) s' rest
    /\ advanced s s' (map (fun m => head_conflict (m_headers m)) ms) /\ room s' k.
Proof.
  induction ms as [|m ms IH]; intros s rest Hmax Hok Hroom; cbn [map concat length] in *.
  { exists s. split; [done|]. split; [|done]. unfold advanced. rewrite app_nil_r. cbn. split_and!; done || lia. }
  apply Forall_cons in Hok as [Hm Hok]. rewrite <- app_assoc.
  destruct (stream_run_message max m s (concat (map encode_message ms) ++ rest) (length ms + k))
    as (s1 & -> & (Hd1 & Ho1 & Hu1 & Hh1 & Hp1) & Hr1); [done..|].
  destruct (IH s1 rest) as (s' & -> & (Hd & Ho & Hu & Hh & Hp) & Hr); [done..|].
  exists s'. split; [done|]. split; [|done]. unfold advanced. rewrite Hd, Hd1, <- app_assoc.
  split_and!; [done|congruence..|]. rewrite Hp, Hp1. cbn [length]. rewrite length_map. lia.
Qed.

(** ** The handler's side *)

(** [next_conflict] once per request. *)
Fixpoint drain (n : nat) (s : H1FramingSignals) : list H1FramingResult * H1FramingSignals :=
  match n with
  | O => ([], s)
  | S n =>
    let '(r, s) := next_conflict s in
    let '(rs, s) := drain n s in (r :: rs, s)
  end.

Definition result_of (conflict : bool) : H1FramingResult := if conflict then Conflict else Clear.

Lemma drain_decisions n : forall s,
  signals_wf s -> overflowed s || unknown s = false -> length (decisions s) = n ->
  fst (drain n s) = map result_of (decisions s).
Proof.
  induction n as [|n IH]; intros s Hwf Hf Hn; cbn [drain].
  { apply nil_length_inv in Hn. by rewrite Hn. }
  assert (Hlt : consumed s < produced s) by (rewrite length_decisions in Hn; lia).
  rewrite next_some by done. rewrite decisions_cons in Hn |- * by done. cbn [length map] in *.
  specialize (IH (set_consumed s (consumed s + 1))).
  destruct (drain n (set_consumed s (consumed s + 1))) as [rs s']; cbn [fst] in *.
  rewrite IH; [done| |done|lia]. destruct Hwf. constructor; simpl; done || lia.
Qed.

(** ** The guarded connection *)

Lemma new_signals_room n : (n <= 1024)%nat -> room new_signals n.
Proof.
  intros Hn. split_and!;
    [apply new_signals_wf|done|simpl; unfold SIGNAL_CAPACITY, SIGNAL_WORDS; lia|simpl; lia].
Qed.

(** What the observer makes of good requests and nothing else. *)
Lemma wire_spec_messages max ms :
  max <= umax 64 -> Forall (message_ok max) ms -> (length ms <= 1024)%nat ->
  let l := concat (map encode_message ms) in
  ~ l `prefix_of` H2_PREFACE -> ~ H2_PREFACE `prefix_of` l ->
  exists s, wire_spec max new_signals l = (Http1, s, Some (StHead (new_head max)))
    /\ advanced new_signals s (map (fun m => head_conflict (m_headers m)) ms) /\ room s 0.
Proof.
  intros Hmax Hok Hlen l Hn1 Hn2.
  destruct (stream_run_messages max 0 ms new_signals [] Hmax Hok (new_signals_room (length ms + 0) ltac:(lia)))
    as (s & Er & Ha & Hr). rewrite app_nil_r in Er. fold l in Er.
  exists s. split; [|done]. by rewrite wire_spec_http1, Er by done.
Qed.

Section Guarded.
Context {T : Type} `{AsyncIoLaws T}.

(** A guard whose bytes carry no hint is a transparent observer. *)
Lemma guard_transparent (t : T) max ops :
  let l := arrived (new_guard t max) ops in
  let g := foldl guard_step (new_guard t max) ops in
  sent t = [] -> GNext ∉ ops -> wire_hint max l = 0 ->
  parse_reject g = Idle /\ delivered (new_guard t max) ops = l
  /\ view (scanner g, signals g) = wire_spec max new_signals l.
Proof.
  intros l g Ht Hn Hz.
  pose proof (conn_run (GNext ∈ ops) max ops _ [] id (new_guard_conn _ max t Ht)) as [Hg Hi].
  cbn [app] in *. fold l g in Hg, Hi.
  assert (Ep : parse_reject g = Idle).
  { unfold guard_inv, due, first_head_hint in Hg. rewrite Hz in Hg.
    destruct (parse_reject g); [done|by destruct Hg as [[[]]]|by destruct Hg as [[]]]. }
  split; [done|]. split; [by apply idle_delivers|].
  destruct (Hi Ep) as [_ [[Hq _]|[[? _]|[? _]]]]; try done. by apply tracks_view.
Qed.

(** C3. End to end on a guarded, pipelined connection. Take up to 1024
    requests, each a head within the head budget that Hyper has no reason to
    reject, followed by the body its own framing announces (none, fixed, or
    chunked), whose concatenation is not taken for an HTTP/2 preface. However the
    bytes are split over reads, and whatever Hyper writes, flushes or finds
    stalled in between, the guard hands Hyper exactly those bytes and leaves the
    connection to it, the observer ends at the start of the next head, and, when
    the handler starts querying only after these reads, its i-th query answers [Conflict] exactly when the i-th head
    carries both Content-Length and Transfer-Encoding, and [Clear] otherwise:
    payload bytes are never mistaken for heads. *)
Theorem pipelined_decisions (t : T) max ms ops :
  let g0 := new_guard t max in
  sent t = [] -> GNext ∉ ops ->
  max <= umax 64 -> Forall (message_ok max) ms -> (length ms <= 1024)%nat ->
  arrived g0 ops = concat (map encode_message ms) ->
  ~ arrived g0 ops `prefix_of` H2_PREFACE -> ~ H2_PREFACE `prefix_of` arrived g0 ops ->
  let g := foldl guard_step g0 ops in
  parse_reject g = Idle /\ delivered g0 ops = concat (map encode_message ms)
  /\ protocol (scanner g) = Http1
  /\ h1_state (h1 (scanner g)) = StHead (new_head max)
  /\ fst (drain (length ms) (signals g))
     = map (fun m => result_of (head_conflict (m_headers m))) ms.
Proof.
  intros g0 Ht Hn Hmax Hok Hlen Hcat Hn1 Hn2 g. rewrite Hcat in Hn1, Hn2.
  destruct (wire_spec_messages max ms Hmax Hok Hlen Hn1 Hn2) as (s & Es & (Hd & Ho & Hu & Hh & _) & Hr).
  destruct (guard_transparent t max ops Ht Hn) as (Ep & Ed & Ev).
  { fold g0. rewrite Hcat. unfold wire_hint. by rewrite Es. }
  fold g0 in Ed, Ev. fold g in Ep, Ev. rewrite Hcat in Ed, Ev. rewrite Es in Ev. unfold view in Ev.
  assert (Hs : signals g = s) by congruence.
  assert (Hp : protocol (disable_if_requested (scanner g) (signals g)) = Http1) by congruence.
  rewrite Hp, decide_True in Ev by done. split_and!; [done..| | |].
  - revert Hp. unfold disable_if_requested. by case_match.
  - congruence.
  - change (decisions new_signals) with (@nil bool) in Hd. cbn in Hd. rewrite Hs, drain_decisions.
    + by rewrite Hd, map_map.
    + apply Hr.
    + by rewrite Ho, Hu.
    + by rewrite Hd, length_map.
Qed.

End Guarded.

Definition sample_messages : list message :=
  [Message (HeadText [] (bs "POST / HTTP/1.1", CrLf) [(bs "Content-Length: 5", CrLf)] CrLf)
     (FixedData (bs "a: b" ++ [10]));
   Message smuggling_head (ChunkedData sample_body);
   Message (HeadText [Lf] (bs "GET / HTTP/1.1", Lf) [] Lf) NoBody].

(** The three requests in two segments, the first read short, with a response
    written between the reads. *)
Definition sample_socket : memory_socket :=
  let l := concat (map encode_message sample_messages) in
  Socket [take 30 l; drop 30 l] [] [4; -1].

Definition sample_ops : list guard_op :=
  [GRead 20; GRead 4096; GWrite (bs "HTTP/1.1 200 OK"); GRead 4096; GFlush].

Lemma sample_ops_no_query : GNext ∉ sample_ops.
Proof. unfold sample_ops. set_solver. Qed.

Lemma pipelined_decisions_witness :
  fst (drain 3 (signals (foldl guard_step (new_guard sample_socket 200) sample_ops)))
  = [Clear; Conflict; Clear].
Proof.
  pose proof (pipelined_decisions sample_socket 200 sample_messages sample_ops eq_refl) as H.
  cbv zeta in H. destruct H as (_ & _ & _ & _ & H).
  - exact sample_ops_no_query.
  - by vm_compute.
  - apply (bool_decide_unpack _). by vm_compute.
  - simpl. lia.
  - by vm_compute.
  - apply (bool_decide_unpack _). by vm_compute.
  - apply (bool_decide_unpack _). by vm_compute.
  - rewrite (H : fst (drain 3 _) = _). by vm_compute.
Defined.

(** ** A rejected head behind good requests *)

(** A head whose Content-Length values disagree, with nothing else to reject. *)
Definition disagreeing_head (max : Z) (r : head_text) : Prop :=
  head_ok r /\ Z.of_nat (length (encode_head r)) <= max
  /\ existsb is_transfer_encoding (map fst (headers r)) = false
  /\ head_hint (fst (request r)) (map fst (headers r)) = PARSE_HINT_CONFLICTING_CONTENT_LENGTH.

#[global] Instance disagreeing_head_dec max r : Decision (disagreeing_head max r).
Proof. unfold disagreeing_head. apply _. Defined.

Lemma before_te_id hs : existsb is_transfer_encoding hs = false -> before_te hs = hs.
Proof.
  induction hs as [|l hs IH]; cbn; [done|]. intros [-> E]%orb_false_iff. by rewrite IH.
Qed.

Lemma disagreeing_invalid max r :
  disagreeing_head max r -> head_framing (map fst (headers r)) = BodyInvalid.
Proof.
  intros (_ & _ & Hte & Hh). unfold head_hint in Hh. rewrite Hte, andb_false_r, before_te_id in Hh by done.
  destruct (lengths_disagree _) eqn:Hd; [|by repeat case_match]. unfold head_framing. rewrite Hte.
  unfold lengths_disagree in Hd. destruct (content_lengths _) as [|v vs]; [done|].
  destruct (forallb _ vs) eqn:Ef; [exfalso|done]. rewrite forallb_forall in Ef.
  assert (Hall : forall w, w ∈ vs -> w = v)
    by (intros w Hw; specialize (Ef w); rewrite <- list_elem_of_In in Ef; by apply bool_decide_eq_true in Ef).
  destruct v as [n|]; cbn in Hd.
  - apply negb_true_iff, not_true_iff_false in Hd. apply Hd, forallb_forall.
    intros w Hw. apply list_elem_of_In, list_elem_of_omap in Hw as (x & Hx & E).
    rewrite (Hall x Hx) in E. cbn in E. simplify_eq. by apply Z.eqb_eq.
  - replace (omap id vs) with (@nil Z) in Hd; [done|]. clear -Hall.
    induction vs as [|w vs IH]; [done|]. cbn. rewrite (Hall w) by set_solver. apply IH. set_solver.
Qed.

Lemma stream_run_open max l : forall h s h' s',
  head_run h s l = (h', s', HeadContinue, []) -> stream_run max (StHead h) s l = (StHead h', s', true).
Proof.
  induction l as [|b l IH]; intros h s h' s' E; cbn in E; [by simplify_eq|].
  cbn [stream_run stream_feed]. destruct (head_observe h s b) as [[h1 s1] [|o|]]; [|done..].
  by apply IH.
Qed.

(** The hint of a head behind others: marked, so that it is passed over. *)
Lemma marked_conflict s :
  0 < produced s -> parse_reject_hint s = 0 ->
  store_parse_reject_hint s PARSE_HINT_CONFLICTING_CONTENT_LENGTH = set_hint s 129.
Proof.
  intros Hp Hh. unfold store_parse_reject_hint. rewrite Hh. by destruct (Z.ltb_spec 0 (produced s)); [|lia].
Qed.

Section Rejected.
Context {T : Type} `{AsyncIo T}.
Context (max : Z) (ms : list message) (r : head_text).
Context (Hmax : max <= umax 64) (Hms : Forall (message_ok max) ms) (Hr : disagreeing_head max r).
Context (Hne : ms <> []) (Hlen : (length ms < 1024)%nat).

Let good : bytes := concat (map encode_message ms).

(** The signals after the good requests. *)
Lemma after_good rest :
  exists s,
    stream_run max (StHead (new_head max)) new_signals (good ++ rest)
    = stream_run max (StHead (new_head max)) s rest
    /\ advanced new_signals s (map (fun m => head_conflict (m_headers m)) ms)
    /\ room s 1 /\ 0 < produced s.
Proof using Hmax Hms Hne Hlen.
  destruct (stream_run_messages max 1 ms new_signals rest Hmax Hms (new_signals_room (length ms + 1) ltac:(lia)))
    as (s & E & Ha & Hr0). exists s. split_and!; try done.
  destruct Ha as (_ & _ & _ & _ & ->). cbn. rewrite length_map. destruct ms; [done|cbn; lia].
Qed.

(** What a first read of the good requests and [rest] leaves in the guard. *)
Lemma first_read t1 t2 n rest :
  inner_read t1 (read_request (new_guard t1 max) n) = (t2, Ready (Ok (good ++ rest))) ->
  forall st s ok, stream_run max (StHead (new_head max)) new_signals (good ++ rest) = (st, s, ok) ->
  ~ good ++ rest `prefix_of` H2_PREFACE -> ~ H2_PREFACE `prefix_of` good ++ rest ->
  parse_reject_hint s = 129 ->
  exists w, guard_step (new_guard t1 max) (GRead n) = GuardIo t2 w
      (set_hint (if is_disabled st && negb ok then mark_unknown s else s) PARSE_HINT_NONE) Idle false
    /\ (is_disabled st = false -> protocol w = Http1 /\ h1 w = Stream st max).
Proof.
  intros Hread st s ok Er Hn1 Hn2 Hh. cbn [guard_step]. rewrite poll_read_idle by done.
  change (inner (new_guard t1 max)) with t1. rewrite Hread.
  change (disable_if_requested _ _) with (new_wire max). change (signals _) with new_signals.
  pose proof (wire_read_tracks max new_signals eq_refl [] (good ++ rest) _ (new_wire_tracks max new_signals)) as Ht.
  change ([] ++ good ++ rest) with (good ++ rest) in Ht.
  pose proof (tracks_view max new_signals eq_refl _ _ Ht) as Hv. rewrite wire_spec_http1, Er in Hv by done.
  destruct (wire_read _ _) as [w s']. unfold view, stream_view in Hv.
  assert (Es : s' = if is_disabled st && negb ok then mark_unknown s else s)
    by (destruct (is_disabled st), ok; cbn; congruence).
  assert (Eh : parse_reject_hint s' = 129) by (rewrite Es; by case_match).
  rewrite Eh, Es. exists w. split; [done|]. intros Hd.
  by destruct (tracks_http1 _ _ _ _ _ _ _ _ Ht Hn1 Hn2 Er Hd) as (_ & ? & ?).
Qed.

(** All in one read: the rejected head is not published. *)
Lemma unsplit_read t1 t2 n :
  inner_read t1 (read_request (new_guard t1 max) n) = (t2, Ready (Ok (good ++ encode_head r))) ->
  ~ good ++ encode_head r `prefix_of` H2_PREFACE -> ~ H2_PREFACE `prefix_of` good ++ encode_head r ->
  let g := guard_step (new_guard t1 max) (GRead n) in
  produced (signals g) = Z.of_nat (length ms)
  /\ fst (drain (length ms) (signals g)) = map (fun m => result_of (head_conflict (m_headers m))) ms.
Proof using Hmax Hms Hr Hne Hlen.
  intros Hread Hn1 Hn2 g.
  destruct (after_good (encode_head r)) as (s & Es & (Hd & Ho & Hu & Hh & Hp) & (Hwf & Hen & _) & Hpos).
  pose proof (disagreeing_invalid max r Hr) as Hinv. destruct Hr as (Hok & Hlen' & Hte & Hhint).
  destruct (head_scanner_spec r max s [] Hok ltac:(lia)) as [h' E]. rewrite app_nil_r in E.
  rewrite (stream_run_head max _ _ _ _ _ _ _ E), Hinv, Hhint, marked_conflict in Es by done.
  cbn in Es.
  destruct (first_read t1 t2 n (encode_head r) Hread _ _ _ Es Hn1 Hn2 eq_refl) as (w & Eg & _).
  subst g. rewrite Eg. cbn in Hp. rewrite length_map in Hp. split; [exact Hp|].
  change (decisions new_signals) with (@nil bool) in Hd. cbn in Hd.
  cbn [signals is_disabled negb andb]. rewrite drain_decisions.
  - change (decisions (set_hint _ _)) with (decisions s). by rewrite Hd, map_map.
  - destruct Hwf. by constructor.
  - cbn. by rewrite Ho, Hu.
  - change (decisions (set_hint _ _)) with (decisions s). by rewrite Hd, length_map.
Qed.

(** A read that makes the running scanner refuse, without a hint. *)
Lemma refused_read t2 t3 w s h data n st s' :
  let g := GuardIo t2 w s Idle false in
  inner_read t2 (read_request g n) = (t3, Ready (Ok data)) ->
  protocol w = Http1 -> h1 w = Stream (StHead h) max -> head_wf h -> observation_disabled s = false ->
  stream_run max (StHead h) s data = (st, s', false) -> parse_reject_hint s' = 0 ->
  exists w', guard_step g (GRead n) = GuardIo t3 w' (mark_unknown s') Idle false.
Proof.
  intros g Hread Hw1 Hw2 Hwf Hen Hrun Hh. cbn [guard_step]. rewrite poll_read_idle by done.
  change (inner g) with t2. rewrite Hread. change (signals g) with s. change (scanner g) with w.
  assert (Ed : disable_if_requested w s = w)
    by (unfold disable_if_requested; by rewrite Hen, andb_false_r).
  unfold wire_read. rewrite !Ed. unfold observation_active, observe.
  rewrite Hw1. rewrite decide_False, decide_True by done.
  unfold observe_h1. rewrite Hw2, stream_observe_run by done. cbn [h1_state max_head_bytes].
  rewrite Hrun. cbn [fst].
  assert (Ea : answers g (parse_reject_hint (mark_unknown s')) = false)
    by (change (answers g (parse_reject_hint s') = false); by rewrite Hh).
  rewrite Ea. rewrite set_hint_same by done. by eexists.
Qed.

(** The blank line in a read of its own: the rejected head is published. *)
Lemma split_read t1 t2 t3 n n' :
  let g1 := guard_step (new_guard t1 max) (GRead n) in
  inner_read t1 (read_request (new_guard t1 max) n) = (t2, Ready (Ok (good ++ head_lines r))) ->
  inner_read t2 (read_request g1 n') = (t3, Ready (Ok (term_bytes (final r)))) ->
  ~ good ++ head_lines r `prefix_of` H2_PREFACE -> ~ H2_PREFACE `prefix_of` good ++ head_lines r ->
  let g := guard_step g1 (GRead n') in
  parse_reject g = Idle /\ produced (signals g) = Z.of_nat (length ms) + 1
  /\ unknown (signals g) = true.
Proof using Hmax Hms Hr Hne Hlen.
  intros g1 Hread Hread' Hn1 Hn2 g.
  destruct (after_good (head_lines r)) as (s & Es & (Hd & Ho & Hu & Hh & Hp) & Hroom & Hpos).
  pose proof (disagreeing_invalid max r Hr) as Hinv. destruct Hr as (Hok & Hlen' & Hte & Hhint).
  destruct (head_lines_spec r max s [] Hok ltac:(lia)) as (h' & E & Hat & _).
  rewrite app_nil_r, Hhint, marked_conflict in E by done. cbn [head_run] in E.
  rewrite (stream_run_open max _ _ _ _ _ E) in Es.
  destruct (first_read t1 t2 n (head_lines r) Hread _ _ _ Es Hn1 Hn2 eq_refl) as (w & Eg & Hw).
  destruct (Hw eq_refl) as [Hw1 Hw2]. cbn [is_disabled andb] in Eg.
  change (set_hint (set_hint s 129) PARSE_HINT_NONE) with (set_hint s PARSE_HINT_NONE) in Eg.
  rewrite set_hint_same in Eg by done. fold g1 in Eg. rewrite Eg in Hread'. subst g. rewrite Eg.
  destruct (see_lines_flags (map fst (headers r))) as [_ Et]. rewrite Hte in Et.
  rewrite encode_head_lines, length_app in Hlen'.
  destruct (final_line (final r) max _ _ _ h' s [] Hat ltac:(lia) ltac:(lia)) as (h2 & E2).
  rewrite app_nil_r, te_hint_none, framing_of_spec, Hinv in E2 by done.
  set (conflict := has_cl _ && has_te _) in E2.
  destruct (push_with_room s conflict 0 Hroom) as (s' & Hpush & _ & _ & _ & _ & Hh' & Hp').
  destruct (refused_read t2 t3 w s h' (term_bytes (final r)) n' StDisabled s') as [w' Eg']; try done.
  - pose proof (stream_run_wf max (good ++ head_lines r) (StHead (new_head max)) new_signals (new_head_wf max)) as Hwf.
    by rewrite Es in Hwf.
  - apply Hroom.
  - rewrite (stream_run_head max _ _ _ _ _ _ _ E2). unfold complete_head.
    change (store_parse_reject_hint s 0) with s. rewrite Hh. cbn [framing andb outcome_conflict].
    change (Z.land _ _ =? _) with false. by rewrite Hpush.
  - by rewrite Hh', Hh.
  - rewrite Eg'. cbn in *. rewrite Hp', Hp, length_map. split_and!; done || lia.
Qed.

End Rejected.

(** C40. Where the reads are split does matter for a rejected head: the hint
    that two lengths disagree is drained after each read, and the check that
    keeps a rejected head from being published reads it when the head completes.
    Take any 1 to 1023 good requests and behind them any head within the budget
    whose Content-Length values disagree and that has nothing else to reject and no
    Transfer-Encoding, none of it taken for an HTTP/2 preface. When everything arrives in one read, exactly the good
    requests are published and the handler reads their decisions. When the blank
    line that ends the rejected head arrives in a read of its own, the rejected
    head is published too, the observer is marked as diverged, and the handler's
    query for the first good request answers [ObserverFailed]. *)
Theorem split_read_publishes_rejected_head {T} `{AsyncIo T} max ms r (t1 t2 u1 u2 u3 : T) n m m' :
  max <= umax 64 -> Forall (message_ok max) ms -> disagreeing_head max r ->
  ms <> [] -> (length ms < 1024)%nat ->
  let good := concat (map encode_message ms) in
  ~ good ++ head_lines r `prefix_of` H2_PREFACE -> ~ H2_PREFACE `prefix_of` good ++ encode_head r ->
  (* in one read *)
  let whole := guard_step (new_guard t1 max) (GRead n) in
  inner_read t1 (read_request (new_guard t1 max) n) = (t2, Ready (Ok (good ++ encode_head r))) ->
  (* the blank line in a second read *)
  let first := guard_step (new_guard u1 max) (GRead m) in
  let split := guard_step first (GRead m') in
  inner_read u1 (read_request (new_guard u1 max) m) = (u2, Ready (Ok (good ++ head_lines r))) ->
  inner_read u2 (read_request first m') = (u3, Ready (Ok (term_bytes (final r)))) ->
  (produced (signals whole) = Z.of_nat (length ms)
   /\ fst (drain (length ms) (signals whole)) = map (fun m => result_of (head_conflict (m_headers m))) ms)
  /\ (parse_reject split = Idle /\ produced (signals split) = Z.of_nat (length ms) + 1
      /\ fst (next_conflict (signals split)) = ObserverFailed).
Proof.
  intros Hmax Hms Hr Hne Hlen good Hn1 Hn2 whole Hw first split Hf Hs.
  assert (Ehead : good ++ encode_head r = (good ++ head_lines r) ++ term_bytes (final r))
    by (by rewrite encode_head_lines, app_assoc).
  split.
  - apply (unsplit_read max ms r Hmax Hms Hr Hne Hlen t1 t2 n Hw); [|done].
    intros Hp. apply Hn1. transitivity (good ++ encode_head r); [|exact Hp].
    rewrite Ehead. by apply prefix_app_r.
  - destruct (split_read max ms r Hmax Hms Hr Hne Hlen u1 u2 u3 m m' Hf Hs Hn1) as (Hi & Hp & Hu).
    { intros Hp. apply Hn2. transitivity (good ++ head_lines r); [exact Hp|].
      rewrite Ehead. by apply prefix_app_r. }
    fold first in Hi, Hp, Hu. fold split in Hi, Hp, Hu.
    split_and!; [done..|]. unfold next_conflict. by rewrite Hu, orb_true_r.
Qed.

Definition good_request : message :=
  Message (HeadText [] (bs "GET /a HTTP/1.1", CrLf) [] CrLf) NoBody.
Definition bad_head : head_text :=
  HeadText [] (bs "GET /b HTTP/1.1", CrLf)
    [(bs "Content-Length: 1", CrLf); (bs "Content-Length: 2", CrLf)] CrLf.

Lemma split_read_publishes_rejected_head_witness :
  let whole := foldl guard_step (new_guard (Socket [encode_message good_request ++ encode_head bad_head] [] []) 1000)
                 [GRead 4096] in
  let split := foldl guard_step
    (new_guard (Socket [encode_message good_request ++ head_lines bad_head; crlf] [] []) 1000)
    [GRead 4096; GRead 4096] in
  produced (signals whole) = 1 /\ fst (next_conflict (signals split)) = ObserverFailed.
Proof.
  destruct (split_read_publishes_rejected_head 1000 [good_request] bad_head
    (Socket [encode_message good_request ++ encode_head bad_head] [] []) (Socket [] [] [])
    (Socket [encode_message good_request ++ head_lines bad_head; crlf] [] [])
    (Socket [crlf] [] []) (Socket [] [] []) 4096 4096 4096) as ((Hp & _) & (_ & _ & Hf)).
  - by vm_compute.
  - apply (bool_decide_unpack _). by vm_compute.
  - apply (bool_decide_unpack _). by vm_compute.
  - done.
  - simpl. lia.
  - apply (bool_decide_unpack _). by vm_compute.
  - apply (bool_decide_unpack _). by vm_compute.
  - by vm_compute.
  - by vm_compute.
  - by vm_compute.
  - split; [exact Hp|exact Hf].
Defined.
