(* ===== verification/LaneLimiter.v ===== *)
(** * Lane counters

    The admission algorithm shared by [backend_conn_limit.rs],
    [backend_active_request_limit.rs] and [backend_pending_limit.rs]: a map from
    a destination lane to a count, check-and-reserve under the lock of the
    lane's shard, and a guard whose drop decrements and evicts the lane at zero
    under the same lock.

    An acquisition is one atomic step on a resident lane, and two on a missing
    one: the lookup, then [entry(..).or_insert_with(..)], between which other
    threads may insert, fill or evict the lane. [lane_step] interleaves these
    steps with guard drops; the theorems hold in every interleaving. *)

From S2P Require Import Prelude.

(** The refusal of the three limiters: the count seen and the cap applied. *)
Record limit_exceeded := Exceeded { current : Z; exceeded_cap : Z }.

Section Lanes.
Context {K : Type} `{Countable K}.

(** Check the cap against a resident count, then reserve. *)
Definition reserve (m : gmap K Z) (k : K) (count cap : Z) : gmap K Z * result K limit_exceeded :=
  if cap <=? count then (m, Err (Exceeded count cap))
  else (<[k := wrapping_add 64 count 1]> m, Ok k).

(** The hit path ([get_mut]); [None]: the lane is not resident. *)
Definition acquire_hit (m : gmap K Z) (k : K) (cap : Z)
  : option (gmap K Z * result K limit_exceeded) :=
  match m !! k with
  | Some count => Some (reserve m k count cap)
  | None => None
  end.

(** The cold path: [entry] re-resolves the lane, inserting it at zero. *)
Definition acquire_cold (m : gmap K Z) (k : K) (cap : Z) : gmap K Z * result K limit_exceeded :=
  match m !! k with
  | Some count => reserve m k count cap
  | None => reserve (<[k := 0]> m) k 0 cap
  end.

Definition acquire_slot (m : gmap K Z) (k : K) (cap : Z) : gmap K Z * result K limit_exceeded :=
  if cap =? 0 then (m, Err (Exceeded 0 0))
  else match acquire_hit m k cap with
       | Some r => r
       | None => acquire_cold m k cap
       end.

(** Without a configured cap the map is not touched. *)
Definition try_acquire (m : gmap K Z) (k : K) (cap : option Z)
  : gmap K Z * result (option K) limit_exceeded :=
  match cap with
  | None => (m, Ok None)
  | Some cap =>
    match acquire_slot m k cap with
    | (m, Ok g) => (m, Ok (Some g))
    | (m, Err e) => (m, Err e)
    end
  end.

(** Dropping a guard: [remove_if] with the decrement as its predicate. *)
Definition release (m : gmap K Z) (k : K) : gmap K Z :=
  match m !! k with
  | None => m
  | Some count => if count =? 1 then delete k m else <[k := wrap 64 (count - 1)]> m
  end.

Definition lane_current (m : gmap K Z) (k : K) : Z := default 0 (m !! k).
Definition resident (m : gmap K Z) : nat := size m.

(** ** Interleaved executions *)

(** The shared map, the guards alive, and the threads between the lookup miss
    and the [entry] call. *)
Record lane_state := Lanes { lanes : gmap K Z; guards : list K; cold : list (K * Z) }.

Definition no_lanes : lane_state := Lanes ∅ [] [].

Inductive lane_label :=
| Granted (k : K) (cap : Z)
| Refused (k : K) (cap count : Z)
| Missed (k : K) (cap : Z)
| Dropped (k : K).

Definition settle (st : lane_state) (cs : list (K * Z)) (r : gmap K Z * result K limit_exceeded)
  : lane_state :=
  Lanes (fst r) (match snd r with Ok g => g :: guards st | Err _ => guards st end) cs.

Definition label_of (k : K) (cap : Z) (r : gmap K Z * result K limit_exceeded) : lane_label :=
  match snd r with Ok _ => Granted k cap | Err e => Refused k (exceeded_cap e) (current e) end.

(** Configured caps are 32-bit and zero is refused before the map is touched. *)
Definition cap_ok (cap : Z) : Prop := 1 <= cap < 2 ^ 32.

Inductive lane_step : lane_state -> lane_label -> lane_state -> Prop :=
| StepHit st k cap r :
    cap_ok cap -> acquire_hit (lanes st) k cap = Some r ->
    lane_step st (label_of k cap r) (settle st (cold st) r)
| StepMiss st k cap :
    cap_ok cap -> acquire_hit (lanes st) k cap = None ->
    lane_step st (Missed k cap) (Lanes (lanes st) (guards st) ((k, cap) :: cold st))
| StepCold m gs k cap cs1 cs2 :
    lane_step (Lanes m gs (cs1 ++ (k, cap) :: cs2)) (label_of k cap (acquire_cold m k cap))
      (settle (Lanes m gs (cs1 ++ (k, cap) :: cs2)) (cs1 ++ cs2) (acquire_cold m k cap))
| StepDrop m k gs1 gs2 cs :
    lane_step (Lanes m (gs1 ++ k :: gs2) cs) (Dropped k) (Lanes (release m k) (gs1 ++ gs2) cs).

Inductive lane_reachable : lane_state -> Prop :=
| ReachStart : lane_reachable no_lanes
| ReachStep st l st' : lane_reachable st -> lane_step st l st' -> lane_reachable st'.

(** Guards alive on a lane. *)
Definition held (k : K) (gs : list K) : Z := Z.of_nat (length (filter (fun x => x = k) gs)).

Lemma held_cons k x gs : held k (x :: gs) = (if decide (x = k) then 1 else 0) + held k gs.
Proof. unfold held. rewrite filter_cons. destruct (decide (x = k)); simpl; lia. Qed.

Lemma held_app k gs1 gs2 : held k (gs1 ++ gs2) = held k gs1 + held k gs2.
Proof. unfold held. rewrite filter_app, length_app. lia. Qed.

Lemma held_nonneg k gs : 0 <= held k gs.
Proof. unfold held. lia. Qed.

(** The map holds exactly the lanes with live guards, at their number. *)
Record lane_inv (st : lane_state) : Prop := {
  inv_count : forall k,
    lanes st !! k = if decide (held k (guards st) = 0) then None else Some (held k (guards st));
  inv_bound : forall k, held k (guards st) < 2 ^ 32;
  inv_cold : Forall (fun c => cap_ok (snd c)) (cold st);
}.

Lemma lane_current_inv st k : lane_inv st -> lane_current (lanes st) k = held k (guards st).
Proof.
  intros Hi. unfold lane_current. rewrite (inv_count _ Hi).
  destruct (decide (held k (guards st) = 0)) as [->|]; done.
Qed.

Lemma wrapping_add_small w a b : 0 <= a + b < 2 ^ w -> wrapping_add w a b = a + b.
Proof. intros. unfold wrapping_add. by apply wrap_small. Qed.

(** One more guard on [k], as [reserve] records it. *)
Lemma reserve_inv m gs cs k cap count m0 :
  (forall k', k' <> k -> m !! k' = m0 !! k') ->
  lane_inv (Lanes m0 gs cs) -> cap_ok cap -> count = held k gs ->
  forall m', reserve m k count cap = (m', Ok k) ->
  count < cap /\ lane_inv (Lanes m' (k :: gs) cs).
Proof.
  intros Hm Hi [Hc1 Hc2] -> m' E. unfold reserve in E.
  destruct (Z.leb_spec cap (held k gs)); simplify_eq. split; [done|].
  pose proof (held_nonneg k gs).
  constructor; cbn [lanes guards cold].
  - intros k'. rewrite held_cons. destruct (decide (k = k')) as [<-|Hne].
    + rewrite lookup_insert_eq, decide_False by lia.
      rewrite wrapping_add_small by lia. f_equal. lia.
    + rewrite lookup_insert_ne by done. rewrite Hm by done. rewrite Z.add_0_l.
      exact (inv_count _ Hi k').
  - intros k'. rewrite held_cons. pose proof (inv_bound _ Hi k') as Hb. cbn in Hb.
    destruct (decide (k = k')) as [<-|]; lia.
  - exact (inv_cold _ Hi).
Qed.

Lemma reserve_result m k count cap m' r :
  reserve m k count cap = (m', r) ->
  (r = Ok k /\ count < cap) \/ (r = Err (Exceeded count cap) /\ m' = m /\ cap <= count).
Proof. unfold reserve. intros E. destruct (Z.leb_spec cap count); simplify_eq; auto. Qed.

Lemma hit_inv st k cap r :
  lane_inv st -> cap_ok cap -> acquire_hit (lanes st) k cap = Some r ->
  lane_inv (settle st (cold st) r)
  /\ match snd r with
     | Ok g => g = k /\ held k (guards st) < cap
     | Err e => e = Exceeded (held k (guards st)) cap /\ cap <= held k (guards st)
     end.
Proof.
  intros Hi Hc E. destruct st as [m gs cs]. cbn in *. unfold acquire_hit in E.
  rewrite (inv_count _ Hi) in E. cbn in E. destruct (decide (held k gs = 0)); [done|].
  destruct (reserve m k (held k gs) cap) as [m' r'] eqn:Er. simplify_eq. cbn.
  destruct (reserve_result _ _ _ _ _ _ Er) as [[-> Hlt]|(-> & -> & Hge)]; [|by split; [exact Hi|]].
  eapply (reserve_inv m gs cs k cap) in Er as [_ Hi']; eauto.
Qed.

Lemma cold_inv m gs cs k cap :
  lane_inv (Lanes m gs cs) -> cap_ok cap ->
  lane_inv (settle (Lanes m gs cs) cs (acquire_cold m k cap))
  /\ match snd (acquire_cold m k cap) with
     | Ok g => g = k /\ held k gs < cap
     | Err e => e = Exceeded (held k gs) cap /\ cap <= held k gs
     end.
Proof.
  intros Hi Hc. unfold acquire_cold. pose proof (inv_count _ Hi k) as Hk. cbn in Hk. rewrite Hk.
  destruct (decide (held k gs = 0)) as [E0|E0].
  - destruct (reserve (<[k:=0]> m) k 0 cap) as [m' r'] eqn:Er.
    destruct (reserve_result _ _ _ _ _ _ Er) as [[-> Hlt]|(-> & -> & Hge)];
      [|unfold cap_ok in Hc; lia].
    cbn. eapply (reserve_inv (<[k:=0]> m) gs cs k cap 0 m) in Er as [_ Hi']; eauto; [split; [done|]|].
    + split; [done|lia].
    + intros k' Hne. by rewrite lookup_insert_ne.
  - destruct (reserve m k (held k gs) cap) as [m' r'] eqn:Er.
    destruct (reserve_result _ _ _ _ _ _ Er) as [[-> Hlt]|(-> & -> & Hge)]; [|by split; [exact Hi|]].
    cbn. eapply (reserve_inv m gs cs k cap) in Er as [_ Hi']; eauto.
Qed.

Lemma release_inv m k gs1 gs2 cs :
  lane_inv (Lanes m (gs1 ++ k :: gs2) cs) -> lane_inv (Lanes (release m k) (gs1 ++ gs2) cs).
Proof.
  intros Hi. pose proof (held_nonneg k gs1). pose proof (held_nonneg k gs2).
  assert (Hh : forall k', held k' (gs1 ++ k :: gs2) = (if decide (k = k') then 1 else 0) + held k' (gs1 ++ gs2)).
  { intros k'. rewrite !held_app, held_cons. lia. }
  assert (Hk : m !! k = Some (1 + (held k gs1 + held k gs2))).
  { pose proof (inv_count _ Hi k) as Hk. cbn in Hk. rewrite Hh, held_app in Hk.
    rewrite (decide_True (P := k = k)) in Hk by done. by rewrite decide_False in Hk by lia. }
  unfold release. rewrite Hk. constructor; cbn [lanes guards cold]; [|
    intros k'; pose proof (inv_bound _ Hi k') as Hb; cbn in Hb; rewrite Hh in Hb; case_decide; lia |
    exact (inv_cold _ Hi)].
  intros k'. pose proof (inv_count _ Hi k') as Hk'. pose proof (inv_bound _ Hi k') as Hb.
  cbn in Hk', Hb. rewrite Hh in Hk', Hb. rewrite held_app in *.
  destruct (decide (k = k')) as [<-|Hne].
  - destruct (Z.eqb_spec (1 + (held k gs1 + held k gs2)) 1).
    + rewrite lookup_delete_eq, decide_True by lia. done.
    + rewrite lookup_insert_eq, decide_False by lia.
      rewrite wrap_small by (unfold in_width; lia). f_equal. lia.
  - rewrite Z.add_0_l in Hk'.
    destruct (_ =? 1); [by rewrite lookup_delete_ne|by rewrite lookup_insert_ne].
Qed.

Lemma step_inv st l st' : lane_step st l st' -> lane_inv st -> lane_inv st'.
Proof.
  intros Hs Hi. destruct Hs as [st k cap r Hc E|st k cap Hc E|m gs k cap cs1 cs2|m k gs1 gs2 cs].
  - by eapply hit_inv.
  - destruct Hi. constructor; cbn; [done|done|]. by constructor.
  - assert (Hc : cap_ok cap /\ lane_inv (Lanes m gs (cs1 ++ cs2))).
    { destruct Hi as [? ? Hf]. cbn in Hf. apply Forall_app in Hf as [Hf1 Hf2].
      apply Forall_cons in Hf2 as [Hc Hf2]. split; [done|]. constructor; cbn; try done.
      by apply Forall_app. }
    destruct Hc as [Hc Hi']. pose proof (cold_inv m gs (cs1 ++ cs2) k cap Hi' Hc) as [Hr _].
    exact Hr.
  - by apply release_inv.
Qed.

Lemma lane_reachable_inv st : lane_reachable st -> lane_inv st.
Proof.
  induction 1; [|by eapply step_inv].
  constructor; cbn; [|done|constructor]. intros k. by rewrite lookup_empty.
Qed.

(** What one acquisition attempt does to a state the invariant holds in. *)
Lemma acquire_outcome st cs k cap r :
  lane_inv st -> cap_ok cap ->
  acquire_hit (lanes st) k cap = Some r \/ r = acquire_cold (lanes st) k cap ->
  match label_of k cap r with
  | Granted k' cap' => k' = k /\ cap' = cap /\ held k (guards st) < cap
      /\ guards (settle st cs r) = k :: guards st
  | Refused k' cap' n => k' = k /\ cap' = cap /\ n = held k (guards st) /\ cap <= n
      /\ guards (settle st cs r) = guards st
  | _ => False
  end.
Proof.
  intros Hi Hc Hr.
  assert (Ho : match snd r with
     | Ok g => g = k /\ held k (guards st) < cap
     | Err e => e = Exceeded (held k (guards st)) cap /\ cap <= held k (guards st)
     end).
  { destruct Hr as [Hr| ->]; [by eapply hit_inv|]. destruct st as [m gs cs0].
    by eapply (cold_inv m gs cs0). }
  unfold label_of, settle. destruct (snd r) as [g|e]; cbn; destruct Ho as [-> Ho]; cbn; auto.
Qed.

Lemma step_outcome st l st' :
  lane_inv st -> lane_step st l st' ->
  match l with
  | Granted k cap => held k (guards st) < cap /\ guards st' = k :: guards st
  | Refused k cap n => n = held k (guards st) /\ cap <= n /\ guards st' = guards st
  | Missed k _ => held k (guards st) = 0 /\ lanes st' = lanes st /\ guards st' = guards st
  | Dropped k => guards st ≡ₚ k :: guards st'
  end.
Proof.
  intros Hi Hs. destruct Hs as [st k cap r Hc E|st k cap Hc E|m gs k cap cs1 cs2|m k gs1 gs2 cs].
  - pose proof (acquire_outcome st (cold st) k cap r Hi Hc (or_introl E)) as Ho.
    destruct (label_of k cap r); naive_solver.
  - unfold acquire_hit in E. rewrite (inv_count _ Hi) in E. case_decide; done.
  - assert (Hc : cap_ok cap).
    { pose proof (inv_cold _ Hi) as Hf. cbn in Hf. apply Forall_app in Hf as [_ Hf].
      by apply Forall_cons in Hf as [Hc _]. }
    pose proof (acquire_outcome (Lanes m gs (cs1 ++ (k, cap) :: cs2)) (cs1 ++ cs2) k cap _
                  Hi Hc (or_intror eq_refl)) as Ho.
    cbn [lanes] in Ho. destruct (label_of k cap _); naive_solver.
  - cbn. by rewrite Permutation_middle.
Qed.

(** C16. In every interleaving of lookups, cold insertions and guard drops on
    any number of threads, the map holds an entry exactly for the lanes with a
    live guard, each at the number of its live guards: a drop never strands a
    zero entry, and a cold insertion never splits a count or revives an evicted
    one. *)
Theorem lane_counts_exact st :
  lane_reachable st ->
  (forall k, lane_current (lanes st) k = held k (guards st))
  /\ dom (lanes st) = list_to_set (guards st).
Proof.
  intros Hr. apply lane_reachable_inv in Hr as Hi. split; [intros; by apply lane_current_inv|].
  apply set_eq. intros k. rewrite elem_of_dom, elem_of_list_to_set, (inv_count _ Hi).
  unfold held. split.
  - intros Hs. case_decide as Hd; [by apply is_Some_None in Hs|].
    destruct (filter (fun x => x = k) (guards st)) as [|x xs] eqn:Ef; [done|].
    assert (Hx : x ∈ filter (fun x => x = k) (guards st)) by (rewrite Ef; left).
    apply list_elem_of_filter in Hx as [-> Hx]. done.
  - intros Hk. rewrite decide_False; [by eexists|].
    assert (Hx : k ∈ filter (fun x => x = k) (guards st)) by by apply list_elem_of_filter.
    destruct (filter _ _); [by apply not_elem_of_nil in Hx|cbn; lia].
Qed.

(** Admission is exact in every interleaving: a permit is granted only
    below the cap of the requesting configuration, so the lane then holds at
    most that many; a refusal reports the true number of live permits, which
    has reached the cap; nothing but a grant or a drop changes who holds
    permits. *)
Theorem lane_admission_exact st l st' :
  lane_reachable st -> lane_step st l st' ->
  match l with
  | Granted k cap => held k (guards st) < cap /\ held k (guards st') = held k (guards st) + 1
      /\ held k (guards st') <= cap
  | Refused k cap n => n = held k (guards st) /\ cap <= n /\ guards st' = guards st
  | Missed k _ => held k (guards st) = 0 /\ guards st' = guards st
  | Dropped k => held k (guards st') = held k (guards st) - 1
  end.
Proof.
  intros Hr Hs. pose proof (step_outcome st l st' (lane_reachable_inv _ Hr) Hs) as Ho.
  destruct l; destruct_and?; repeat (split; [done|]); try done.
  - match goal with E : guards st' = _ |- _ => rewrite E end.
    rewrite held_cons, decide_True by done. lia.
  - unfold held. rewrite Ho, filter_cons_True by done. cbn. lia.
Qed.

(** The uninterrupted acquisition is the hit step, or the miss step followed by
    the cold step. *)
Lemma acquire_slot_steps st k cap :
  cap_ok cap ->
  lane_step st (label_of k cap (acquire_slot (lanes st) k cap))
    (settle st (cold st) (acquire_slot (lanes st) k cap))
  \/ exists mid, lane_step st (Missed k cap) mid
      /\ lane_step mid (label_of k cap (acquire_slot (lanes st) k cap))
           (settle st (cold st) (acquire_slot (lanes st) k cap)).
Proof.
  intros Hc. unfold acquire_slot. replace (cap =? 0) with false by (unfold cap_ok in Hc; lia).
  destruct (acquire_hit (lanes st) k cap) as [r|] eqn:E; [left; by apply StepHit|].
  right. eexists. split; [by apply StepMiss|]. exact (StepCold _ _ k cap [] (cold st)).
Qed.
End Lanes.
Arguments lane_state K {_ _}.

(** Two threads race on lane 7 with a cap of 2: both miss, both take the cold
    path, then a third is refused. *)
Lemma race_reachable :
  lane_reachable (Lanes (<[7%positive := 2]> ∅) [7%positive; 7%positive] []).
Proof.
  eapply ReachStep; [|exact (StepCold (<[7%positive := 1]> ∅) [7%positive] 7%positive 2 [] [])].
  eapply ReachStep; [|exact (StepCold ∅ [] 7%positive 2 [] [(7%positive, 2)])].
  eapply ReachStep; [|apply (StepMiss (Lanes ∅ [] [(7%positive, 2)]) 7%positive 2); [done|reflexivity]].
  eapply ReachStep; [|apply (StepMiss no_lanes 7%positive 2); [done|reflexivity]].
  apply ReachStart.
Qed.

Lemma lane_counts_exact_witness :
  let st := Lanes (<[7%positive := 2]> ∅) [7%positive; 7%positive] [] in
  (forall k, lane_current (lanes st) k = held k (guards st))
  /\ dom (lanes st) = list_to_set (guards st).
Proof. apply lane_counts_exact. exact race_reachable. Defined.

Lemma lane_admission_exact_witness :
  let st := Lanes (<[7%positive := 2]> ∅) [7%positive; 7%positive] [] in
  2 = held 7%positive (guards st) /\ 2 <= 2 /\ guards st = guards st.
Proof.
  intros st.
  apply (lane_admission_exact st (Refused 7%positive 2 2) st race_reachable).
  apply (StepHit st 7%positive 2 (reserve (lanes st) 7%positive 2 2)); done.
Defined.
