(* ===== verification/LimiterKeys.v ===== *)
(** * Lane keys ([src/src/backend_active_request_limit.rs],
    [src/src/backend_pending_limit.rs], [src/src/backend_conn_limit.rs])

    The text keys under which the three backend limiters count. The theorems:
    no operator-controlled component can forge the key of another destination,
    and every spelling of a host meets in one key. *)

From S2P Require Import Prelude Decimal RuntimeKeys.

(** ** Active requests *)

Record DestinationScope := Scope {
  scope_namespace : bytes; destination : bytes; policy_port : Z; subset : option bytes }.

Definition write_active_key (buf : bytes) (scope : DestinationScope) : bytes :=
  let buf := buf ++ bs "n" ++ show_dec (Z.of_nat (length (scope_namespace scope))) ++ bs ":" in
  let buf := buf ++ scope_namespace scope in
  let buf := buf ++ bs "|d" ++ show_dec (Z.of_nat (length (destination scope))) ++ bs ":" in
  let buf := buf ++ destination scope in
  let buf := buf ++ bs "|" ++ show_dec (policy_port scope) ++ bs "|" in
  match subset scope with
  | Some s => (buf ++ bs "s" ++ show_dec (Z.of_nat (length s)) ++ bs ":") ++ s
  | None => buf ++ bs "n"
  end.

(** ** Pending requests *)

Definition write_length_prefixed (buf tag value : bytes) : bytes :=
  let buf := buf ++ tag in
  let buf := buf ++ show_dec (Z.of_nat (length value)) ++ bs ":" in
  buf ++ value.

Definition FNV_OFFSET : Z := 0xcbf29ce484222325.
Definition FNV_PRIME : Z := 0x00000100000001B3.

Definition fnv1a64 (data : bytes) : Z :=
  foldl (fun h byte => wrapping_mul 64 (Z.lxor h byte) FNV_PRIME) FNV_OFFSET data.

Record BackendPendingScopeBase := PendingScope { prefix : bytes; digest : Z }.

(** [k8s_service_uid.filter(|u| !u.is_empty())]. *)
Definition present_uid (uid : option bytes) : option bytes :=
  match uid with Some [] => None | u => u end.

Definition pending_scope_new (namespace upstream_id : bytes)
    (k8s_service_uid subset : option bytes) : BackendPendingScopeBase :=
  let buf := write_length_prefixed [] (bs "ns") namespace in
  let buf := buf ++ bs "|" in
  let buf := write_length_prefixed buf (bs "id") upstream_id in
  let buf := match present_uid k8s_service_uid with
             | Some uid => write_length_prefixed (buf ++ bs "|") (bs "uid") uid
             | None => buf
             end in
  let buf := buf ++ bs "|" in
  let buf := match subset with
             | Some name => write_length_prefixed buf (bs "s") name
             | None => buf ++ bs "n"
             end in
  let buf := buf ++ bs "|" in
  PendingScope buf (fnv1a64 buf).

Definition write_pending_key (buf : bytes) (scope : BackendPendingScopeBase) (port : Z) : bytes :=
  (buf ++ prefix scope) ++ show_dec port.

(** ** Connections *)

Definition strip_prefix_char (c : Z) (l : bytes) : option bytes :=
  match l with b :: rest => if b =? c then Some rest else None | [] => None end.
Definition strip_suffix_char (c : Z) (l : bytes) : option bytes :=
  reverse <$> strip_prefix_char c (reverse l).

Section Hosts.

(** [char::to_lowercase], which reads the Unicode tables; hosts are the lists
    of their characters. *)
Variable char_to_lowercase : Z -> list Z.

Definition push_normalized_host (buf host : list Z) : list Z :=
  let host := default host (strip_prefix_char 91 host) in
  let host := default host (strip_suffix_char 93 host) in
  foldl (fun buf ch => buf ++ char_to_lowercase ch) buf host.

Definition conn_key_new (host : list Z) (port : Z) : list Z * Z :=
  (push_normalized_host [] host, port).

Definition write_lane_key (buf host : list Z) (dial_port : Z) : list Z :=
  push_normalized_host buf host ++ bs "|" ++ show_dec dial_port.
End Hosts.

(** ** Length-prefixed fields decode *)

Lemma show_dec_free b n : 0 <= n -> is_ascii_digit b = false -> b ∉ show_dec n.
Proof. intros Hn Hb. apply all_digits_not_in; [done|]. by apply show_dec_spec. Qed.

(** A decimal number up to its terminator. *)
Lemma dec_field_inj c a b l m :
  0 <= a -> 0 <= b -> is_ascii_digit c = false ->
  show_dec a ++ c :: l = show_dec b ++ c :: m -> a = b /\ l = m.
Proof.
  intros Ha Hb Hc E. apply app_sep_inj in E as [E ->]; [|by apply show_dec_free..].
  by apply show_dec_inj in E.
Qed.

(** A value behind its length. *)
Lemma sized_field_inj (u v l m : bytes) :
  show_dec (Z.of_nat (length u)) ++ 58 :: u ++ l = show_dec (Z.of_nat (length v)) ++ 58 :: v ++ m ->
  u = v /\ l = m.
Proof.
  intros E. apply dec_field_inj in E as [E1 E2]; [|lia|lia|done].
  apply app_inj_1 in E2; [done|lia].
Qed.

(** A tagged optional value closed by [|]: [s<len>:<value>] or [n]. *)
Definition optional_field (o : option bytes) : bytes :=
  match o with
  | Some s => bs "s" ++ show_dec (Z.of_nat (length s)) ++ bs ":" ++ s
  | None => bs "n"
  end.

Lemma optional_field_inj o1 o2 l m :
  optional_field o1 ++ l = optional_field o2 ++ m -> o1 = o2 /\ l = m.
Proof.
  destruct o1 as [u|], o2 as [v|]; cbn; rewrite <- ?app_assoc; cbn; rewrite <- ?app_assoc;
    intros E; simplify_eq/=; [|done].
  by apply sized_field_inj in E as [-> ->].
Qed.

Ltac flatten_key := cbn; rewrite <- ?app_assoc; cbn; rewrite <- ?app_assoc; cbn.

Lemma active_key_shape scope :
  write_active_key [] scope =
    110 :: show_dec (Z.of_nat (length (scope_namespace scope))) ++ 58 :: scope_namespace scope
    ++ 124 :: 100 :: show_dec (Z.of_nat (length (destination scope))) ++ 58 :: destination scope
    ++ 124 :: show_dec (policy_port scope) ++ 124 :: optional_field (subset scope).
Proof.
  unfold write_active_key, optional_field. destruct (subset scope); flatten_key; reflexivity.
Qed.

Lemma active_key_inj s1 s2 :
  0 <= policy_port s1 -> 0 <= policy_port s2 ->
  write_active_key [] s1 = write_active_key [] s2 -> s1 = s2.
Proof.
  intros H1 H2 E. rewrite !active_key_shape in E. injection E as E.
  apply sized_field_inj in E as [En E]. injection E as E.
  apply sized_field_inj in E as [Ed E]. injection E as E.
  apply dec_field_inj in E as [Ep E]; [|done..].
  rewrite <- (app_nil_r (optional_field (subset s1))),
    <- (app_nil_r (optional_field (subset s2))) in E.
  apply optional_field_inj in E as [Es _].
  destruct s1, s2; cbn in *. congruence.
Qed.

(** The UID component, present only when the UID is not empty. *)
Definition uid_field (uid : option bytes) : bytes :=
  match present_uid uid with
  | Some u => bs "|uid" ++ show_dec (Z.of_nat (length u)) ++ bs ":" ++ u
  | None => []
  end.

Lemma pending_key_shape ns i uid sub port :
  write_pending_key [] (pending_scope_new ns i uid sub) port =
    110 :: 115 :: show_dec (Z.of_nat (length ns)) ++ 58 :: ns
    ++ 124 :: 105 :: 100 :: show_dec (Z.of_nat (length i)) ++ 58 :: i
    ++ uid_field uid ++ 124 :: optional_field sub ++ 124 :: show_dec port.
Proof.
  unfold write_pending_key, pending_scope_new, write_length_prefixed, uid_field, optional_field.
  destruct (present_uid uid), sub; flatten_key; reflexivity.
Qed.

Lemma uid_field_inj uid1 uid2 o1 o2 l m :
  uid_field uid1 ++ 124 :: optional_field o1 ++ l = uid_field uid2 ++ 124 :: optional_field o2 ++ m ->
  present_uid uid1 = present_uid uid2
  /\ 124 :: optional_field o1 ++ l = 124 :: optional_field o2 ++ m.
Proof.
  unfold uid_field. destruct (present_uid uid1) as [u|], (present_uid uid2) as [v|];
    flatten_key; intros E.
  - injection E as E. apply sized_field_inj in E as [-> E]. by rewrite E.
  - by destruct o2.
  - by destruct o1.
  - done.
Qed.

Lemma pending_key_inj ns1 i1 uid1 sub1 p1 ns2 i2 uid2 sub2 p2 :
  0 <= p1 -> 0 <= p2 ->
  write_pending_key [] (pending_scope_new ns1 i1 uid1 sub1) p1
    = write_pending_key [] (pending_scope_new ns2 i2 uid2 sub2) p2 ->
  ns1 = ns2 /\ i1 = i2 /\ present_uid uid1 = present_uid uid2 /\ sub1 = sub2 /\ p1 = p2.
Proof.
  intros H1 H2 E. rewrite !pending_key_shape in E. injection E as E.
  apply sized_field_inj in E as [-> E]. injection E as E.
  apply sized_field_inj in E as [-> E]. apply uid_field_inj in E as [-> E]. injection E as E.
  apply optional_field_inj in E as [-> E]. injection E as E. by apply show_dec_inj in E as ->.
Qed.

(** The active-request and pending-request lanes are unforgeable: whatever
    bytes a namespace, destination, UID or subset contains, two destinations
    share a counter only when every component of their identity is equal (an
    empty UID being no UID), and equal identities always share one. *)
Theorem limiter_keys_unforgeable :
  (forall s1 s2, 0 <= policy_port s1 -> 0 <= policy_port s2 ->
     write_active_key [] s1 = write_active_key [] s2 <-> s1 = s2)
  /\ (forall ns1 i1 uid1 sub1 p1 ns2 i2 uid2 sub2 p2, 0 <= p1 -> 0 <= p2 ->
     write_pending_key [] (pending_scope_new ns1 i1 uid1 sub1) p1
       = write_pending_key [] (pending_scope_new ns2 i2 uid2 sub2) p2
     <-> ns1 = ns2 /\ i1 = i2 /\ present_uid uid1 = present_uid uid2 /\ sub1 = sub2 /\ p1 = p2).
Proof.
  split; intros; split; [by apply active_key_inj|congruence|by apply pending_key_inj|].
  intros (-> & -> & Hu & -> & ->). rewrite !pending_key_shape. unfold uid_field. by rewrite Hu.
Qed.

(** A subset named [1:x] does not reach the lane of a subset [x]. *)
Lemma limiter_keys_unforgeable_witness :
  write_active_key [] (Scope (bs "a") (bs "b") 80 (Some (bs "1:x")))
    = write_active_key [] (Scope (bs "a") (bs "b") 80 (Some (bs "1:x")))
  <-> Scope (bs "a") (bs "b") 80 (Some (bs "1:x")) = Scope (bs "a") (bs "b") 80 (Some (bs "1:x")).
Proof. apply limiter_keys_unforgeable; cbn; lia. Defined.

(** ** Hosts *)

Section HostLemmas.
Variable char_to_lowercase : Z -> list Z.

(** Documented behaviour of [char::to_lowercase] on ASCII. *)
Hypothesis lowercase_ascii : forall c, 0 <= c < 128 -> char_to_lowercase c = [to_ascii_lowercase c].

Lemma foldl_extend (buf host : list Z) :
  foldl (fun buf ch => buf ++ char_to_lowercase ch) buf host
  = buf ++ (host ≫= char_to_lowercase).
Proof.
  revert buf. induction host as [|c host IH]; intros buf; cbn; [by rewrite app_nil_r|].
  rewrite IH. by rewrite app_assoc.
Qed.

(** The text between the optional brackets. *)
Definition unbracket (host : list Z) : list Z :=
  let host := default host (strip_prefix_char 91 host) in
  default host (strip_suffix_char 93 host).

Lemma normalized_host_spec buf host :
  push_normalized_host char_to_lowercase buf host = buf ++ (unbracket host ≫= char_to_lowercase).
Proof. apply foldl_extend. Qed.

Lemma lowercase_ascii_map host :
  Forall (fun c => 0 <= c < 128) host -> host ≫= char_to_lowercase = map to_ascii_lowercase host.
Proof. induction 1; cbn; [done|]. rewrite lowercase_ascii by done. cbn. by f_equal. Qed.

Lemma strip_suffix_snoc c l : strip_suffix_char c (l ++ [c]) = Some l.
Proof.
  unfold strip_suffix_char. rewrite reverse_snoc. cbn. rewrite Z.eqb_refl. cbn.
  by rewrite reverse_involutive.
Qed.

Lemma strip_suffix_free c l : c ∉ l -> strip_suffix_char c l = None.
Proof.
  intros Hc. unfold strip_suffix_char. destruct (reverse l) as [|b r] eqn:E; [done|]. cbn.
  destruct (Z.eqb_spec b c) as [->|]; [|done]. exfalso. apply Hc. apply elem_of_reverse.
  rewrite E. left.
Qed.

Lemma unbracket_plain host : 91 ∉ host -> 93 ∉ host -> unbracket host = host.
Proof.
  intros H1 H2. unfold unbracket. destruct host as [|b host]; [done|].
  apply not_elem_of_cons in H1 as [Hb _]. cbn [strip_prefix_char].
  destruct (Z.eqb_spec b 91); [congruence|]. cbn [default]. by rewrite strip_suffix_free.
Qed.

Lemma unbracket_bracketed host : unbracket (91 :: host ++ [93]) = host.
Proof. unfold unbracket. cbn. by rewrite strip_suffix_snoc. Qed.

Lemma lane_key_inj h1 p1 h2 p2 :
  0 <= p1 -> 0 <= p2 ->
  write_lane_key char_to_lowercase [] h1 p1 = write_lane_key char_to_lowercase [] h2 p2 <->
  conn_key_new char_to_lowercase h1 p1 = conn_key_new char_to_lowercase h2 p2.
Proof.
  intros H1 H2. unfold write_lane_key, conn_key_new. cbn [bs app]. split; intros E; [|congruence].
  apply app_sep_inj_last in E as [-> E]; [|by apply show_dec_free..].
  by apply show_dec_inj in E as ->.
Qed.

(** One destination, one counter: an ASCII host and any case variant of it,
    bracketed or not, give the same key in the connection counter and in the
    dial-lane registry, and the text key of the registry separates exactly the
    (host, port) pairs the counter separates. *)
Theorem host_spellings_share_key host variant port :
  Forall (fun c => 0 <= c < 128) host -> 91 ∉ host -> 93 ∉ host ->
  map to_ascii_lowercase variant = map to_ascii_lowercase host ->
  Forall (fun c => 0 <= c < 128) variant -> 91 ∉ variant -> 93 ∉ variant ->
  let norm := map to_ascii_lowercase host in
  conn_key_new char_to_lowercase host port = (norm, port)
  /\ conn_key_new char_to_lowercase variant port = (norm, port)
  /\ conn_key_new char_to_lowercase (91 :: variant ++ [93]) port = (norm, port)
  /\ forall h1 p1 h2 p2, 0 <= p1 -> 0 <= p2 ->
     write_lane_key char_to_lowercase [] h1 p1 = write_lane_key char_to_lowercase [] h2 p2 <->
     conn_key_new char_to_lowercase h1 p1 = conn_key_new char_to_lowercase h2 p2.
Proof.
  intros Ha Hl Hr Hv Hva Hvl Hvr norm. unfold conn_key_new at 1 2 3.
  rewrite !normalized_host_spec, unbracket_bracketed, !unbracket_plain by done. cbn [app].
  rewrite !lowercase_ascii_map, Hv by done.
  repeat (split; [done|]). intros. by apply lane_key_inj.
Qed.
End HostLemmas.

Lemma host_spellings_share_key_witness :
  let lower := fun c => [to_ascii_lowercase c] in
  conn_key_new lower (bs "backend.example") 80 = (bs "backend.example", 80)
  /\ conn_key_new lower (bs "Backend.Example") 80 = (bs "backend.example", 80)
  /\ conn_key_new lower (91 :: bs "Backend.Example" ++ [93]) 80 = (bs "backend.example", 80)
  /\ forall h1 p1 h2 p2, 0 <= p1 -> 0 <= p2 ->
     write_lane_key lower [] h1 p1 = write_lane_key lower [] h2 p2 <->
     conn_key_new lower h1 p1 = conn_key_new lower h2 p2.
Proof.
  intros lower.
  apply (host_spellings_share_key lower (fun c _ => eq_refl)
           (bs "backend.example") (bs "Backend.Example") 80);
    apply (bool_decide_unpack _); vm_compute; reflexivity.
Defined.
