(* ===== verification/BackendLimits.v ===== *)
(** * Backend admission limiters ([src/src/backend_active_request_limit.rs],
    [src/src/backend_pending_limit.rs], [src/src/backend_conn_limit.rs])

    The three limiters over the lane counters of [LaneLimiter] and the keys of
    [LimiterKeys]. What they promise is stated without keys or maps, as a
    collection of live permits ([spec_step]); the refinement theorem says that
    every sequence of acquisitions and guard drops gives the same answers, so
    the text keys, the thread-local buffer and the eviction are invisible. *)

From S2P Require Import Prelude Decimal RuntimeKeys LaneLimiter LimiterKeys.

(** What a limiter's scope type promises: its keys coincide exactly when the
    destinations they name do. *)
Class LaneIdentity (S I K : Type) := {
  lane_key : S -> K;
  ident : S -> I;
  valid_scope : S -> Prop;
  lane_key_ident s1 s2 : valid_scope s1 -> valid_scope s2 ->
    lane_key s1 = lane_key s2 <-> ident s1 = ident s2;
}.

(** ** Operations *)

Inductive limiter_op (S : Type) :=
| Acquire (s : S) (cap : option Z)
| DropGuard (i : nat).
Arguments Acquire {S} s cap.
Arguments DropGuard {S} i.

(** The answer of an acquisition: uncapped, granted, or refused. *)
Definition answer := result (option unit) limit_exceeded.

Definition as_answer {A} (r : result (option A) limit_exceeded) : answer :=
  match r with
  | Ok (Some _) => Ok (Some tt)
  | Ok None => Ok None
  | Err e => Err e
  end.

(** Removing the guard at an index; ownership allows it only while it lives. *)
Definition drop_at {A} (i : nat) (l : list A) : list A := take i l ++ drop (S i) l.

Section Limiter.
Context {S I K : Type} `{Countable K} `{EqDecision I} {LI : LaneIdentity S I K}.

(** The limiter: its map, and the keys of the guards handed out, newest first. *)
Record limiter := Limiter { counters : gmap K Z; live : list K }.
Definition limiter_new : limiter := Limiter ∅ [].

Definition limiter_try_acquire (st : limiter) (s : S) (cap : option Z) : limiter * answer :=
  let '(m, r) := try_acquire (counters st) (lane_key s) cap in
  (Limiter m (match r with Ok (Some g) => g :: live st | _ => live st end), as_answer r).

Definition limiter_drop (st : limiter) (i : nat) : limiter :=
  match live st !! i with
  | Some k => Limiter (release (counters st) k) (drop_at i (live st))
  | None => st
  end.

Definition limiter_current (st : limiter) (s : S) : Z := lane_current (counters st) (lane_key s).

Definition limiter_step (st : limiter) (op : limiter_op S) : limiter * option answer :=
  match op with
  | Acquire s cap => let '(st', r) := limiter_try_acquire st s cap in (st', Some r)
  | DropGuard i => (limiter_drop st i, None)
  end.

(** ** The contract *)

(** Live permits to the destination of [s]. *)
Definition active (s : S) (gs : list S) : Z :=
  Z.of_nat (length (filter (fun g => ident g = ident s) gs)).

Definition spec_acquire (gs : list S) (s : S) (cap : option Z) : list S * answer :=
  match cap with
  | None => (gs, Ok None)
  | Some cap =>
    if cap =? 0 then (gs, Err (Exceeded 0 0))
    else if active s gs <? cap then (s :: gs, Ok (Some tt))
    else (gs, Err (Exceeded (active s gs) cap))
  end.

Definition spec_step (gs : list S) (op : limiter_op S) : list S * option answer :=
  match op with
  | Acquire s cap => let '(gs', r) := spec_acquire gs s cap in (gs', Some r)
  | DropGuard i => (drop_at i gs, None)
  end.

Fixpoint run {T} (step : T -> limiter_op S -> T * option answer) (st : T) (ops : list (limiter_op S))
  : T * list (option answer) :=
  match ops with
  | [] => (st, [])
  | op :: ops =>
    let '(st, r) := step st op in
    let '(st, rs) := run step st ops in (st, r :: rs)
  end.

Definition valid_op (op : limiter_op S) : Prop :=
  match op with
  | Acquire s cap => valid_scope s /\ match cap with Some c => 0 <= c < 2 ^ 32 | None => True end
  | DropGuard _ => True
  end.

(** ** Refinement *)

(** The map is that of some interleaving of the lane counters in which the
    live guards are those of the contract. *)
Record refines (st : limiter) (gs : list S) : Prop := {
  ref_live : live st = map lane_key gs;
  ref_valid : Forall valid_scope gs;
  ref_inv : lane_inv (Lanes (counters st) (live st) []);
}.

Lemma held_active s gs :
  valid_scope s -> Forall valid_scope gs -> held (lane_key s) (map lane_key gs) = active s gs.
Proof.
  intros Hs. induction 1 as [|g gs Hg Hgs IH]; [done|]. cbn [map]. rewrite held_cons, IH.
  unfold active. rewrite filter_cons.
  pose proof (lane_key_ident g s Hg Hs) as Hk.
  destruct (decide (lane_key g = lane_key s)), (decide (ident g = ident s)); cbn [length];
    naive_solver lia.
Qed.

Lemma drop_at_map {A B} (f : A -> B) i l : drop_at i (map f l) = map f (drop_at i l).
Proof. unfold drop_at. change (map f) with (fmap (M := list) f). by rewrite fmap_app, fmap_take, fmap_drop. Qed.

Lemma drop_at_split {A} i (l : list A) x :
  l !! i = Some x -> exists l1 l2, l = l1 ++ x :: l2 /\ drop_at i l = l1 ++ l2.
Proof. intros E. exists (take i l), (drop (Datatypes.S i) l). split; [by rewrite take_drop_middle|done]. Qed.

Lemma drop_at_none {A} i (l : list A) : l !! i = None -> drop_at i l = l.
Proof.
  intros Hn%lookup_ge_None. unfold drop_at. rewrite take_ge, drop_ge by lia. apply app_nil_r.
Qed.

Lemma acquire_refines st gs s cap :
  refines st gs -> valid_op (Acquire s cap) ->
  snd (limiter_try_acquire st s cap) = snd (spec_acquire gs s cap)
  /\ refines (fst (limiter_try_acquire st s cap)) (fst (spec_acquire gs s cap)).
Proof.
  intros [Hl Hv Hi] [Hs Hc]. destruct cap as [cap|]; [|done].
  unfold limiter_try_acquire, spec_acquire, try_acquire, acquire_slot.
  destruct (Z.eqb_spec cap 0) as [->|Hz]; [done|].
  set (st0 := Lanes (counters st) (live st) []).
  assert (Hck : cap_ok cap) by (unfold cap_ok; lia).
  assert (Hr : exists r, match acquire_hit (counters st) (lane_key s) cap with
            | Some r => r | None => acquire_cold (counters st) (lane_key s) cap end = r
            /\ lane_inv (settle st0 [] r)
            /\ match snd r with
               | Ok g => g = lane_key s /\ active s gs < cap
               | Err e => e = Exceeded (active s gs) cap /\ cap <= active s gs
               end).
  { eexists. split; [reflexivity|].
    rewrite <- (held_active s gs Hs Hv), <- Hl.
    destruct (acquire_hit _ _ _) as [r|] eqn:E;
      [exact (hit_inv st0 (lane_key s) cap r Hi Hck E)|
       exact (cold_inv (counters st) (live st) [] (lane_key s) cap Hi Hck)]. }
  destruct Hr as ([m r] & -> & Hinv & Ho). cbn [snd] in Ho.
  destruct r as [g|e]; destruct Ho as [-> Ho]; cbn.
  - replace (active s gs <? cap) with true by lia. split; [done|].
    constructor; [cbn; by rewrite Hl|by constructor|exact Hinv].
  - replace (active s gs <? cap) with false by lia. split; [done|]. by constructor.
Qed.

Lemma drop_refines st gs i : refines st gs -> refines (limiter_drop st i) (drop_at i gs).
Proof.
  intros [Hl Hv Hi]. unfold limiter_drop.
  destruct (live st !! i) as [k|] eqn:E.
  - constructor; cbn [counters live].
    + by rewrite Hl, drop_at_map.
    + apply Forall_app. split; [by apply Forall_take|by apply Forall_drop].
    + destruct (drop_at_split i (live st) k E) as (l1 & l2 & El & ->). rewrite El in Hi.
      by apply release_inv.
  - rewrite (drop_at_none i gs); [by constructor|].
    rewrite Hl, list_lookup_fmap in E. by destruct (gs !! i).
Qed.

Lemma step_refines st gs op :
  refines st gs -> valid_op op ->
  snd (limiter_step st op) = snd (spec_step gs op)
  /\ refines (fst (limiter_step st op)) (fst (spec_step gs op)).
Proof.
  intros Hr Hv. destruct op as [s cap|i]; cbn.
  - pose proof (acquire_refines st gs s cap Hr Hv) as [Ha Hr'].
    destruct (limiter_try_acquire _ _ _), (spec_acquire _ _ _). cbn in *. by subst.
  - split; [done|]. by apply drop_refines.
Qed.

Lemma run_refines ops : forall st gs,
  refines st gs -> Forall valid_op ops ->
  snd (run limiter_step st ops) = snd (run spec_step gs ops)
  /\ refines (fst (run limiter_step st ops)) (fst (run spec_step gs ops)).
Proof.
  induction ops as [|op ops IH]; intros st gs Hr Hv; [done|].
  apply Forall_cons in Hv as [Hop Hv]. pose proof (step_refines st gs op Hr Hop) as [Ha Hr'].
  cbn. destruct (limiter_step st op) as [st' a], (spec_step gs op) as [gs' b]. cbn in *.
  pose proof (IH st' gs' Hr' Hv) as [Hb Hr''].
  destruct (run limiter_step st' ops), (run spec_step gs' ops). cbn in *. by subst.
Qed.

Lemma limiter_new_refines : refines limiter_new [].
Proof.
  constructor; [done|constructor|]. constructor; cbn; [|done|constructor].
  intros k. by rewrite lookup_empty.
Qed.

Lemma refines_current st gs s :
  refines st gs -> valid_scope s -> limiter_current st s = active s gs.
Proof.
  intros [Hl Hv Hi] Hs. unfold limiter_current. rewrite <- (held_active s gs Hs Hv), <- Hl.
  exact (lane_current_inv (Lanes (counters st) (live st) []) (lane_key s) Hi).
Qed.
End Limiter.

(** ** The pending and the connection limiter *)

(** The arguments of [BackendPendingScopeBase::new] and the policy port. *)
Record pending_scope := PendingArgs {
  pend_namespace : bytes; pend_upstream_id : bytes;
  pend_uid : option bytes; pend_subset : option bytes; pend_port : Z }.

Definition pending_key (s : pending_scope) : bytes :=
  write_pending_key [] (pending_scope_new (pend_namespace s) (pend_upstream_id s) (pend_uid s) (pend_subset s))
    (pend_port s).

(** An empty UID names the same destination as no UID. *)
Definition pending_ident (s : pending_scope) : pending_scope :=
  PendingArgs (pend_namespace s) (pend_upstream_id s) (present_uid (pend_uid s)) (pend_subset s)
    (pend_port s).

#[global] Program Instance pending_identity : LaneIdentity pending_scope pending_scope bytes := {
  lane_key := pending_key;
  ident := pending_ident;
  valid_scope s := in_width 16 (pend_port s);
}.
Next Obligation.
  intros [ns1 i1 u1 b1 p1] [ns2 i2 u2 b2 p2] H1 H2. unfold in_width in *.
  unfold pending_key, pending_ident. cbn [pend_namespace pend_upstream_id pend_uid pend_subset pend_port] in *.
  split; intros E.
  - apply pending_key_inj in E as (-> & -> & -> & -> & ->); [done|lia|lia].
  - injection E as -> -> Hu -> ->. rewrite !pending_key_shape. unfold uid_field. by rewrite Hu.
Qed.

#[global] Instance pending_scope_eq_dec : EqDecision pending_scope.
Proof. solve_decision. Defined.

#[global] Instance DestinationScope_eq_dec : EqDecision DestinationScope.
Proof. solve_decision. Defined.

#[global] Program Instance active_identity : LaneIdentity DestinationScope DestinationScope bytes := {
  lane_key := write_active_key [];
  ident s := s;
  valid_scope s := in_width 16 (policy_port s);
}.
Next Obligation.
  intros s1 s2 H1 H2. unfold in_width in *. cbn in *. split; [apply active_key_inj; lia|congruence].
Qed.

(** A connection lane is its normalised (host, policy port). *)
Definition conn_identity (lower : Z -> list Z)
  : LaneIdentity (list Z * Z) (list Z * Z) (list Z * Z) := {|
  lane_key := fun s => conn_key_new lower (fst s) (snd s);
  ident := fun s => conn_key_new lower (fst s) (snd s);
  valid_scope := fun _ => True;
  lane_key_ident := fun _ _ _ _ => iff_refl _;
|}.

(** ** The active-request limiter and its process totals *)

Record active_limiter := ActiveLimiter {
  inner : limiter (K := bytes);
  ACTIVE_PERMITS : Z; ADMITTED_TOTAL : Z; REJECTED_TOTAL : Z }.

Definition active_new : active_limiter := ActiveLimiter limiter_new 0 0 0.

Definition active_try_acquire (st : active_limiter) (scope : DestinationScope) (cap : option Z)
  : active_limiter * answer :=
  match cap with
  | None => (st, Ok None)
  | Some c =>
    match limiter_try_acquire (inner st) scope (Some c) with
    | (l, Err e) =>
      (ActiveLimiter l (ACTIVE_PERMITS st) (ADMITTED_TOTAL st) (wrapping_add 64 (REJECTED_TOTAL st) 1), Err e)
    | (l, Ok g) =>
      (ActiveLimiter l (wrapping_add 64 (ACTIVE_PERMITS st) 1) (wrapping_add 64 (ADMITTED_TOTAL st) 1)
         (REJECTED_TOTAL st), Ok g)
    end
  end.

(** Dropping the [i]-th live guard. *)
Definition active_drop (st : active_limiter) (i : nat) : active_limiter :=
  match live (inner st) !! i with
  | Some _ => ActiveLimiter (limiter_drop (inner st) i) (wrap 64 (ACTIVE_PERMITS st - 1))
                (ADMITTED_TOTAL st) (REJECTED_TOTAL st)
  | None => st
  end.

Definition active_step (st : active_limiter) (op : limiter_op DestinationScope)
  : active_limiter * option answer :=
  match op with
  | Acquire s cap => let '(st', r) := active_try_acquire st s cap in (st', Some r)
  | DropGuard i => (active_drop st i, None)
  end.

Definition is_granted (a : option answer) : bool :=
  match a with Some (Ok (Some _)) => true | _ => false end.
Definition is_refused (a : option answer) : bool :=
  match a with Some (Err _) => true | _ => false end.
Definition tally (p : option answer -> bool) (l : list (option answer)) : Z :=
  Z.of_nat (length (filter (fun a => p a = true) l)).

Lemma wrap_add_l w x y : wrap w (wrap w x + y) = wrap w (x + y).
Proof. unfold wrap. apply Zplus_mod_idemp_l. Qed.

Lemma tally_cons p a l : tally p (a :: l) = (if p a then 1 else 0) + tally p l.
Proof. unfold tally. rewrite filter_cons. destruct (p a); case_decide; done || (cbn; lia). Qed.

(** One step of the active limiter: the limiter's step, and what it adds to the
    totals. *)
Lemma active_step_spec st op :
  let '(l, a) := limiter_step (inner st) op in
  exists permits,
    active_step st op = (ActiveLimiter l permits
      (if is_granted a then wrapping_add 64 (ADMITTED_TOTAL st) 1 else ADMITTED_TOTAL st)
      (if is_refused a then wrapping_add 64 (REJECTED_TOTAL st) 1 else REJECTED_TOTAL st), a)
    /\ (ACTIVE_PERMITS st = wrap 64 (Z.of_nat (length (live (inner st)))) ->
        permits = wrap 64 (Z.of_nat (length (live l)))).
Proof.
  destruct op as [s cap|i]; cbn.
  - destruct cap as [c|]; [|exists (ACTIVE_PERMITS st); split; [by destruct st as [[]]|done]].
    unfold active_try_acquire, limiter_try_acquire.
    destruct (try_acquire _ _ (Some c)) as [m [[g|]|e]] eqn:E; cbn.
    + eexists; split; [done|]. intros ->. unfold wrapping_add. rewrite wrap_add_l. f_equal. lia.
    + exfalso. unfold try_acquire in E. by destruct (acquire_slot _ _ _) as [? []].
    + eexists; split; [done|]. auto.
  - unfold active_drop, limiter_drop. destruct (live (inner st) !! i) eqn:E; cbn.
    + eexists; split; [done|]. intros ->. rewrite <- Z.add_opp_r, wrap_add_l. f_equal.
      destruct (drop_at_split i _ _ E) as (l1 & l2 & -> & ->). rewrite !length_app. cbn. lia.
    + exists (ACTIVE_PERMITS st); split; [by destruct st|done].
Qed.

Lemma active_run_spec ops : forall st,
  ACTIVE_PERMITS st = wrap 64 (Z.of_nat (length (live (inner st)))) ->
  let '(l, rs) := run limiter_step (inner st) ops in
  let '(st', rs') := run active_step st ops in
  rs' = rs /\ inner st' = l
  /\ ACTIVE_PERMITS st' = wrap 64 (Z.of_nat (length (live l)))
  /\ wrap 64 (ADMITTED_TOTAL st') = wrap 64 (ADMITTED_TOTAL st + tally is_granted rs)
  /\ wrap 64 (REJECTED_TOTAL st') = wrap 64 (REJECTED_TOTAL st + tally is_refused rs).
Proof.
  induction ops as [|op ops IH]; intros st Hp; cbn.
  - by rewrite !Z.add_0_r.
  - pose proof (active_step_spec st op) as Hs.
    destruct (limiter_step (inner st) op) as [l a]. destruct Hs as (permits & -> & Hp').
    set (st1 := ActiveLimiter _ _ _ _). pose proof (IH st1 (Hp' Hp)) as Hr.
    change (inner st1) with l in Hr.
    destruct (run limiter_step l ops) as [l' rs], (run active_step st1 ops) as [st2 rs2].
    destruct Hr as (-> & Hl & Ha & Hd & Hj). repeat (split; [done|]).
    rewrite !tally_cons, Hd, Hj. subst st1. cbn [ADMITTED_TOTAL REJECTED_TOTAL].
    unfold wrapping_add. destruct (is_granted a), (is_refused a); rewrite ?wrap_add_l;
      split; apply (f_equal (wrap 64)); lia.
Qed.

(** The refinement the limiters share, at any scope type. *)
Lemma limiter_refines {S I K} `{Countable K} `{EqDecision I} {LI : LaneIdentity S I K}
    (ops : list (limiter_op S)) :
  Forall valid_op ops ->
  snd (run limiter_step limiter_new ops) = snd (run spec_step [] ops)
  /\ forall s, valid_scope s ->
     limiter_current (fst (run limiter_step limiter_new ops)) s = active s (fst (run spec_step [] ops)).
Proof.
  intros Hv. destruct (run_refines ops limiter_new [] limiter_new_refines Hv) as [Ha Hr].
  split; [done|]. intros s Hs. by apply refines_current.
Qed.

Section Conn.
Variable lower : Z -> list Z.
#[local] Instance conn_lanes : LaneIdentity (list Z * Z) (list Z * Z) (list Z * Z) := conn_identity lower.

(** The pending-request and the connection limiter implement their
    contract: after any sequence of acquisitions and guard drops, with any mix
    of destinations and of caps (raised, lowered, removed or zero), each answer
    is the one determined by the number of live permits to that destination,
    and the diagnostic count reads that number. *)
Theorem pending_and_conn_limiters_refine
    (ops : list (limiter_op pending_scope)) (cops : list (limiter_op (list Z * Z))) :
  Forall valid_op ops -> Forall valid_op cops ->
  (snd (run limiter_step limiter_new ops) = snd (run spec_step [] ops)
   /\ forall s, valid_scope s ->
      limiter_current (fst (run limiter_step limiter_new ops)) s
      = active s (fst (run spec_step [] ops)))
  /\ (snd (run limiter_step limiter_new cops) = snd (run spec_step [] cops)
   /\ forall s, limiter_current (fst (run limiter_step limiter_new cops)) s
      = active s (fst (run spec_step [] cops))).
Proof.
  intros Hv Hcv. split; [by apply limiter_refines|].
  destruct (limiter_refines cops Hcv) as [Ha Hc].
  split; [done|]. intros s. by apply Hc.
Qed.
End Conn.

(** The active-request limiter implements the same contract, and its
    process totals are exact: the gauge is the number of live permits, and the
    two counters are the numbers of granted and refused acquisitions (modulo
    2^64, as the atomics wrap). *)
Theorem active_limiter_refines (ops : list (limiter_op DestinationScope)) :
  Forall valid_op ops ->
  let '(gs, answers) := run spec_step [] ops in
  let '(st, results) := run active_step active_new ops in
  results = answers
  /\ (forall s, valid_scope s -> limiter_current (inner st) s = active s gs)
  /\ ACTIVE_PERMITS st = wrap 64 (Z.of_nat (length gs))
  /\ wrap 64 (ADMITTED_TOTAL st) = wrap 64 (tally is_granted answers)
  /\ wrap 64 (REJECTED_TOTAL st) = wrap 64 (tally is_refused answers).
Proof.
  intros Hv. destruct (run_refines ops limiter_new [] limiter_new_refines Hv) as [Ha Hr].
  pose proof (active_run_spec ops active_new eq_refl) as Hs. cbn [inner active_new] in Hs.
  destruct (run limiter_step limiter_new ops) as [l rs], (run spec_step [] ops) as [gs answers].
  destruct (run active_step active_new ops) as [st results]. cbn [fst snd] in *.
  destruct Hs as (-> & Hl & Hp & Hd & Hj). subst l rs.
  split; [done|]. split; [intros s Hs; by apply refines_current|].
  rewrite Hp, (ref_live _ _ Hr), length_map. done.
Qed.

(** Cap 1 on one destination written twice (no UID, empty UID): the second
    acquisition is refused, and granted after the first guard drops. *)
Definition pending_demo : list (limiter_op pending_scope) :=
  let a := PendingArgs (bs "ns") (bs "svc") None None 80 in
  let b := PendingArgs (bs "ns") (bs "svc") (Some []) None 80 in
  [Acquire a (Some 1); Acquire b (Some 1); DropGuard 0; Acquire b (Some 1)].

Definition conn_demo : list (limiter_op (list Z * Z)) :=
  [Acquire (bs "H", 80) (Some 1); Acquire (bs "[h]", 80) (Some 1); Acquire (bs "h", 80) None].

Lemma pending_and_conn_limiters_refine_witness :
  let LI := conn_identity (fun c => [to_ascii_lowercase c]) in
  snd (run limiter_step limiter_new pending_demo)
    = [Some (Ok (Some tt)); Some (Err (Exceeded 1 1)); None; Some (Ok (Some tt))]
  /\ snd (run limiter_step limiter_new conn_demo)
    = [Some (Ok (Some tt)); Some (Err (Exceeded 1 1)); Some (Ok None)].
Proof.
  intros LI.
  pose proof (pending_and_conn_limiters_refine (fun c => [to_ascii_lowercase c]) pending_demo conn_demo)
    as H.
  destruct H as [[Hp _] [Hc _]].
  - repeat constructor; cbn; lia.
  - repeat constructor; cbn; lia.
  - split; [refine (eq_trans Hp _)|refine (eq_trans Hc _)]; vm_compute; reflexivity.
Defined.

Definition active_demo : list (limiter_op DestinationScope) :=
  let a := Scope (bs "ns") (bs "svc") 80 (Some (bs "v1")) in
  [Acquire a (Some 2); Acquire a (Some 1); Acquire a None; DropGuard 0; Acquire a (Some 0)].

Lemma active_limiter_refines_witness :
  ACTIVE_PERMITS (fst (run active_step active_new active_demo)) = 0
  /\ wrap 64 (REJECTED_TOTAL (fst (run active_step active_new active_demo))) = 2.
Proof.
  assert (Hv : Forall valid_op active_demo) by (repeat constructor; cbn; lia).
  pose proof (active_limiter_refines active_demo Hv) as H.
  destruct (run spec_step [] active_demo) as [gs answers] eqn:Es.
  destruct (run active_step active_new active_demo) as [st results].
  destruct H as (_ & _ & Hp & _ & Hj). cbn [fst]. rewrite Hp, Hj.
  vm_compute in Es. injection Es as <- <-. split; reflexivity.
Defined.
