(* ===== verification/ReqwestLanes.v ===== *)
(** * Dial lanes of the reqwest transport ([src/src/backend_conn_limit.rs])

    The registry that binds a dial address to the connection cap governing it
    while capped dispatches are in flight: [ReqwestDialLaneEntry],
    [lease_lane], the drop of a lease, [lane_for] and [admit], and
    [PooledConnectionAdmission] for the other pools.

    [lease_lane] folds its publication into the entry under the shard lock on
    the hit path and on the [entry] path alike, and a lookup miss changes
    nothing, so a lease is one atomic step at the point where it folds. *)

From S2P Require Import Prelude Decimal RuntimeKeys LaneLimiter LimiterKeys BackendLimits.

(** ** Data *)

Record ReqwestLane := Lane { lane_cap : Z; lane_port : Z }.

#[global] Instance ReqwestLane_eq_dec : EqDecision ReqwestLane.
Proof. solve_decision. Defined.

(** The derived [Ord]: lexicographic in (cap, policy port). *)
Definition lane_lt (a b : ReqwestLane) : bool :=
  (lane_cap a <? lane_cap b) || ((lane_cap a =? lane_cap b) && (lane_port a <? lane_port b)).

Record ReqwestDialLaneState := LaneState { generation : Z; lane : ReqwestLane; leases : Z }.

(** ** Operations *)

(** [ReqwestDialLaneEntry::acquire]. *)
Definition entry_acquire (state : ReqwestDialLaneState) (g : Z) (l : ReqwestLane)
  : ReqwestDialLaneState :=
  let n := wrapping_add 64 (leases state) 1 in
  if (n =? 1) || (generation state <? g) then LaneState g l n
  else if (g =? generation state) && lane_lt l (lane state) then LaneState (generation state) l n
  else LaneState (generation state) (lane state) n.

(** [release_is_idle]: the entry after the decrement, and whether it is idle. *)
Definition release_is_idle (state : ReqwestDialLaneState) : ReqwestDialLaneState * bool :=
  let n := wrap 64 (leases state - 1) in
  (LaneState (generation state) (lane state) n, n =? 0).

Notation registry := (gmap (list Z) ReqwestDialLaneState).

(** [lease_lane] on the key of the dial address. *)
Definition lease_lane (lanes : registry) (config_generation : Z) (key : list Z) (l : ReqwestLane)
  : registry :=
  match lanes !! key with
  | Some existing => <[key := entry_acquire existing config_generation l]> lanes
  | None => <[key := entry_acquire (LaneState config_generation l 0) config_generation l]> lanes
  end.

(** Dropping a lease: [remove_if] with [release_is_idle]. *)
Definition lease_drop (lanes : registry) (key : list Z) : registry :=
  match lanes !! key with
  | None => lanes
  | Some e => let '(e', idle) := release_is_idle e in
              if idle then delete key lanes else <[key := e']> lanes
  end.

Definition lane_for (lanes : registry) (key : list Z) : option ReqwestLane :=
  lane <$> lanes !! key.

(** ** Admission of a new socket *)

Inductive token := Unlimited | Slot.

Section Admission.
Variable lower : Z -> list Z.
#[local] Instance admission_lanes : LaneIdentity (list Z * Z) (list Z * Z) (list Z * Z) :=
  conn_identity lower.

Notation conn_limiter := (limiter (K := (list Z * Z)%type)).

(** [acquire_slot] behind [try_acquire_shared]: the cap is mandatory. *)
Definition try_acquire_shared (lim : conn_limiter) (host : list Z) (port cap : Z) : conn_limiter * answer :=
  limiter_try_acquire lim (host, port) (Some cap).

(** [admit], on the authority and scheme of the destination URI. *)
Definition reqwest_check (lanes : registry) (lim : conn_limiter)
    (uri_host : option (list Z)) (uri_port : option Z) (uri_scheme : option bytes)
  : conn_limiter * result token limit_exceeded :=
  match uri_host with
  | None => (lim, Ok Unlimited)
  | Some host =>
    let port := match uri_port with
                | Some port => port
                | None => if decide (uri_scheme = Some (bs "https")) then 443 else 80
                end in
    match lane_for lanes (write_lane_key lower [] host port) with
    | None => (lim, Ok Unlimited)
    | Some l =>
      match try_acquire_shared lim host (lane_port l) (lane_cap l) with
      | (lim, Ok _) => (lim, Ok Slot)
      | (lim, Err e) => (lim, Err e)
      end
    end
  end.

(** The fields of [ResolvedPortOverride] that admission reads. *)
Record ResolvedPortOverride := PortOverride { max_connections : option Z; override_policy_port : option Z }.

Record PooledConnectionAdmission := Pooled { pooled_host : list Z; pooled_port : Z; pooled_cap : Z }.

(** [PooledConnectionAdmission::resolve]; [has_limiter]: the pool has one. *)
Definition pooled_resolve (has_limiter : bool) (dispatch_port_overrides : option (gmap Z ResolvedPortOverride))
    (dial_host : list Z) (override_port : Z) : option PooledConnectionAdmission :=
  if has_limiter then
    entry ← dispatch_port_overrides ≫= (fun o => o !! override_port);
    cap ← max_connections entry;
    Some (Pooled dial_host (default override_port (override_policy_port entry)) cap)
  else None.

Definition pooled_acquire (lim : conn_limiter) (p : PooledConnectionAdmission) : conn_limiter * answer :=
  try_acquire_shared lim (pooled_host p) (pooled_port p) (pooled_cap p).
End Admission.

(** ** Executions of the registry *)

(** The map, the leases alive, and every publication folded into a lane since
    its entry was created. *)
Record reg_state := Reg {
  reg : registry;
  leased : list (list Z * (Z * ReqwestLane));
  published : gmap (list Z) (list (Z * ReqwestLane)) }.

Definition history (st : reg_state) (key : list Z) : list (Z * ReqwestLane) :=
  default [] (published st !! key).

Definition no_leases : reg_state := Reg ∅ [] ∅.

Definition lease (st : reg_state) (g : Z) (key : list Z) (l : ReqwestLane) : reg_state :=
  Reg (lease_lane (reg st) g key l) ((key, (g, l)) :: leased st)
      (<[key := (g, l) :: history st key]> (published st)).

Definition unlease (st : reg_state) (key : list Z) (rest : list (list Z * (Z * ReqwestLane)))
  : reg_state :=
  let lanes := lease_drop (reg st) key in
  Reg lanes rest (if lanes !! key then published st else delete key (published st)).

(** A lease is a live object, of which fewer than 2^64 exist. *)
Inductive reg_step : reg_state -> reg_state -> Prop :=
| StepLease st g key l :
    Z.of_nat (length (leased st)) + 1 < 2 ^ 64 -> reg_step st (lease st g key l)
| StepUnlease st key p l1 l2 :
    leased st = l1 ++ (key, p) :: l2 -> reg_step st (unlease st key (l1 ++ l2)).

Inductive reg_reachable : reg_state -> Prop :=
| RegStart : reg_reachable no_leases
| RegStep st st' : reg_reachable st -> reg_step st st' -> reg_reachable st'.

(** The leases of one key. *)
Definition leases_of (key : list Z) (ls : list (list Z * (Z * ReqwestLane)))
  : list (Z * ReqwestLane) := map snd (filter (fun x => fst x = key) ls).

(** The newest generation of a history, and its strictest lane. *)
Definition strictest (h : list (Z * ReqwestLane)) (g : Z) (l : ReqwestLane) : Prop :=
  (g, l) ∈ h
  /\ (forall g' l', (g', l') ∈ h -> g' <= g)
  /\ (forall l', (g, l') ∈ h -> lane_lt l' l = false).

Record reg_inv (st : reg_state) : Prop := {
  reg_entry : forall key, match reg st !! key with
    | Some e => leases e = Z.of_nat (length (leases_of key (leased st))) /\ 0 < leases e
                /\ strictest (history st key) (generation e) (lane e)
    | None => leases_of key (leased st) = []
    end;
  reg_subset : forall key x, x ∈ leases_of key (leased st) -> x ∈ history st key;
  reg_fresh : forall key, reg st !! key = None -> history st key = [];
  reg_bound : Z.of_nat (length (leased st)) < 2 ^ 64;
}.

(** ** Lemmas *)

Lemma lane_lt_irrefl l : lane_lt l l = false.
Proof. unfold lane_lt. rewrite !Z.ltb_irrefl. lia. Qed.

Lemma lane_lt_trans_false a b c : lane_lt c b = false -> lane_lt a b = true -> lane_lt c a = false.
Proof. unfold lane_lt. intros. lia. Qed.

Lemma leases_of_cons key k x ls :
  leases_of key ((k, x) :: ls) = (if decide (k = key) then [x] else []) ++ leases_of key ls.
Proof. unfold leases_of. rewrite filter_cons. cbn. by destruct (decide (k = key)). Qed.

Lemma leases_of_app key l1 l2 : leases_of key (l1 ++ l2) = leases_of key l1 ++ leases_of key l2.
Proof. unfold leases_of. rewrite filter_app. apply map_app. Qed.

Lemma leases_of_length key ls : (length (leases_of key ls) <= length ls)%nat.
Proof. unfold leases_of. rewrite length_map. apply length_filter. Qed.

(** Folding one publication into a history. *)
Lemma entry_acquire_strictest h e g l :
  0 <= leases e < 2 ^ 64 - 1 -> (leases e = 0 -> h = []) ->
  (0 < leases e -> strictest h (generation e) (lane e)) ->
  let e' := entry_acquire e g l in
  leases e' = leases e + 1 /\ strictest ((g, l) :: h) (generation e') (lane e').
Proof.
  intros Hb Hz Hs. cbn. unfold entry_acquire.
  rewrite wrapping_add_small by lia.
  destruct (Z.eqb_spec (leases e + 1) 1) as [E1|E1]; cbn [orb].
  - rewrite Hz by lia. split; [done|]. cbn. split_and!; [left|..].
    + intros g' l' [=]%list_elem_of_singleton; lia.
    + intros l' [= ->]%list_elem_of_singleton. apply lane_lt_irrefl.
  - destruct Hs as (Hin & Hg & Hl); [lia|].
    destruct (Z.ltb_spec (generation e) g) as [E2|E2]; cbn [orb andb];
      [|destruct (Z.eqb_spec g (generation e)) as [->|E3]; cbn [andb];
        [destruct (lane_lt l (lane e)) eqn:E4|]];
      (split; [done|]); cbn; split_and!;
      try (left; done); try (right; done); intros;
      match goal with H : _ ∈ _ :: _ |- _ => apply elem_of_cons in H as [H|H]; simplify_eq end;
      try match goal with H : (_, _) ∈ h |- _ => pose proof (Hg _ _ H) end;
      try lia; eauto using lane_lt_irrefl, lane_lt_trans_false.
Qed.

Lemma lease_lane_lookup lanes g key l :
  exists e, lease_lane lanes g key l = <[key := entry_acquire e g l]> lanes
  /\ (lanes !! key = Some e \/ lanes !! key = None /\ e = LaneState g l 0).
Proof. unfold lease_lane. destruct (lanes !! key) as [e|]; eauto. Qed.

Lemma lease_inv st g key l :
  reg_inv st -> Z.of_nat (length (leased st)) + 1 < 2 ^ 64 -> reg_inv (lease st g key l).
Proof.
  intros [He Hs Hf Hb] Hn. destruct (lease_lane_lookup (reg st) g key l) as (e & El & Hk).
  assert (Hold : 0 <= leases e < 2 ^ 64 - 1 /\ (leases e = 0 -> history st key = [])
    /\ (0 < leases e -> strictest (history st key) (generation e) (lane e))
    /\ leases e = Z.of_nat (length (leases_of key (leased st)))).
  { pose proof (leases_of_length key (leased st)). specialize (He key).
    destruct Hk as [Hk|[Hk ->]]; rewrite Hk in He; cbn;
      [destruct He as (? & ? & ?); split_and!; done || lia|].
    rewrite He. rewrite Hf by done. cbn. split_and!; lia || done. }
  destruct Hold as (H0 & H1 & H2 & H3).
  destruct (entry_acquire_strictest (history st key) e g l H0 H1 H2) as [H4 H5].
  set (e' := entry_acquire e g l) in *.
  constructor; unfold history; cbn [lease reg leased published length].
  - intros k. rewrite El, leases_of_cons. destruct (decide (key = k)) as [<-|Hne].
    + rewrite !lookup_insert_eq. cbv iota beta. rewrite H4, length_app. cbn [length]. split_and!; [lia|lia|done].
    + rewrite !lookup_insert_ne by done. exact (He k).
  - intros k x. rewrite leases_of_cons. destruct (decide (key = k)) as [<-|Hne].
    + rewrite lookup_insert_eq. cbn. rewrite !elem_of_cons. intros [->|Hx]; [by left|right; by apply Hs].
    + rewrite lookup_insert_ne by done. exact (Hs k x).
  - intros k. rewrite El. destruct (decide (key = k)) as [<-|Hne]; [by rewrite lookup_insert_eq|].
    rewrite !lookup_insert_ne by done. exact (Hf k).
  - lia.
Qed.

(** The entry of a dropped lease: its count is that of the remaining leases,
    plus one. *)
Lemma leased_entry st key p l1 l2 :
  reg_inv st -> leased st = l1 ++ (key, p) :: l2 ->
  exists e, reg st !! key = Some e
  /\ leases e = Z.of_nat (length (leases_of key (l1 ++ l2))) + 1
  /\ strictest (history st key) (generation e) (lane e) /\ leases e < 2 ^ 64.
Proof.
  intros Hi El. pose proof (reg_entry _ Hi key) as Hek. pose proof (reg_bound _ Hi) as Hb.
  pose proof (leases_of_length key (leased st)) as Hlen. rewrite El in *.
  rewrite leases_of_app, leases_of_cons, decide_True in * by done. cbn [app] in *.
  destruct (reg st !! key) as [e|]; [|by destruct (leases_of key l1)].
  destruct Hek as (Hc & Hp & Hst). exists e.
  rewrite !length_app in *. cbn [length] in *. split_and!; done || lia.
Qed.

Lemma leases_of_dropped k key p l1 l2 x :
  x ∈ leases_of k (l1 ++ l2) -> x ∈ leases_of k (l1 ++ (key, p) :: l2).
Proof. rewrite !leases_of_app, leases_of_cons, !elem_of_app. tauto. Qed.

Lemma leases_of_other k key p l1 l2 :
  key <> k -> leases_of k (l1 ++ (key, p) :: l2) = leases_of k (l1 ++ l2).
Proof. intros Hne. rewrite !leases_of_app, leases_of_cons. by rewrite decide_False by done. Qed.

Lemma unlease_inv st key p l1 l2 :
  reg_inv st -> leased st = l1 ++ (key, p) :: l2 -> reg_inv (unlease st key (l1 ++ l2)).
Proof.
  intros Hi El. destruct (leased_entry st key p l1 l2 Hi El) as (e & Er & Hc & Hst & Hu).
  destruct Hi as [He Hs Hf Hb]. rewrite El in *.
  unfold unlease, lease_drop. rewrite Er. cbn [release_is_idle].
  rewrite (wrap_small 64) by (unfold in_width; lia).
  assert (Hb' : Z.of_nat (length (l1 ++ l2)) < 2 ^ 64)
    by (rewrite length_app in *; cbn [length] in Hb; lia).
  destruct (Z.eqb_spec (leases e - 1) 0) as [E0|E0].
  - assert (Hnil : leases_of key (l1 ++ l2) = []) by (apply length_zero_iff_nil; lia).
    rewrite lookup_delete_eq. constructor; unfold history; cbn [reg leased published]; [..|done];
      intros k; destruct (decide (key = k)) as [<-|Hne];
      rewrite ?lookup_delete_eq, ?(lookup_delete_ne _ key k) by done; try done.
    + pose proof (He k) as Hk. by rewrite leases_of_other in Hk by done.
    + intros x Hx. rewrite Hnil in Hx. by apply not_elem_of_nil in Hx.
    + intros x Hx. apply (Hs k x). by apply leases_of_dropped.
    + exact (Hf k).
  - rewrite lookup_insert_eq. constructor; unfold history; cbn [reg leased published]; [..|done];
      intros k; destruct (decide (key = k)) as [<-|Hne];
      rewrite ?lookup_insert_eq, ?(lookup_insert_ne _ key k) by done; try done.
    + cbn. split_and!; [lia|lia|exact Hst].
    + pose proof (He k) as Hk. by rewrite leases_of_other in Hk by done.
    + intros x Hx. apply (Hs key x). by apply leases_of_dropped.
    + intros x Hx. apply (Hs k x). by apply leases_of_dropped.
    + exact (Hf k).
Qed.

Lemma reg_reachable_inv st : reg_reachable st -> reg_inv st.
Proof.
  induction 1 as [|st st' _ IH Hs].
  - constructor; cbn; [|intros ? ? Hx; by apply not_elem_of_nil in Hx|done|lia].
    intros k. by rewrite lookup_empty.
  - destruct Hs; [by apply lease_inv|by eapply unlease_inv].
Qed.

(** The lane of a dial address, in every reachable state of the registry:
    it exists exactly while a lease on the address is held, and is the
    strictest of the newest generation among the publications since the entry
    was created, in whatever order they arrived; in particular no lease of a
    newer generation exists and none of that generation has a stricter lane. *)
Theorem dial_lane_strictest st key :
  reg_reachable st ->
  match reg st !! key with
  | None => leases_of key (leased st) = []
  | Some e =>
    leases e = Z.of_nat (length (leases_of key (leased st))) /\ 0 < leases e
    /\ strictest (history st key) (generation e) (lane e)
    /\ forall g l, (g, l) ∈ leases_of key (leased st) ->
       g <= generation e /\ (g = generation e -> lane_cap (lane e) <= lane_cap l)
  end.
Proof.
  intros Hr. pose proof (reg_reachable_inv _ Hr) as Hi. pose proof (reg_entry _ Hi key) as He.
  destruct (reg st !! key) as [e|]; [|done]. destruct He as (Hc & Hp & Hst).
  split_and!; try done. intros g l Hin%(reg_subset _ Hi).
  destruct Hst as (_ & Hg & Hl). split; [by eapply Hg|]. intros ->. specialize (Hl _ Hin).
  unfold lane_lt in Hl. lia.
Qed.

(** One acquisition against the contract. *)
Lemma shared_acquire_spec lower (LI := conn_identity lower) lim gs host port cap :
  refines lim gs -> 0 <= cap < 2 ^ 32 ->
  match try_acquire_shared lower lim host port cap with
  | (lim', Ok _) => active (host, port) gs < cap
      /\ limiter_current lim' (host, port) = active (host, port) gs + 1
  | (lim', Err x) => refines lim' gs /\ exceeded_cap x = cap /\ cap <= active (host, port) gs
  end.
Proof.
  intros Hr Hc. unfold try_acquire_shared.
  destruct (acquire_refines lim gs (host, port) (Some cap) Hr (conj Logic.I Hc)) as [Ha Hr'].
  change (admission_lanes lower) with LI.
  destruct (limiter_try_acquire lim (host, port) (Some cap)) as [lim' a]. cbn [fst snd] in *.
  unfold spec_acquire in *.
  destruct (Z.eqb_spec cap 0) as [->|]; [subst a; cbn in *; split_and!; [done|done|unfold active; lia]|].
  destruct (Z.ltb_spec (active (host, port) gs) cap); subst a; cbn [fst snd] in *; [|done].
  split; [done|]. rewrite (refines_current lim' _ (host, port) Hr' Logic.I).
  unfold active. rewrite filter_cons_True by done. cbn [length]. lia.
Qed.

(** A new reqwest socket to an address with live leases is counted on the
    policy lane of the strictest one: it is granted only below that cap, and
    the number of live sockets on the lane then stays within the cap of every
    live lease of the newest configuration generation; without a lease the
    dial is not counted. *)
Theorem reqwest_socket_within_cap lower st lim gs host port :
  let key := write_lane_key lower [] host port in
  let LI := conn_identity lower in
  reg_reachable st -> refines lim gs ->
  (forall g l, (g, l) ∈ history st key -> 0 <= lane_cap l < 2 ^ 32) ->
  match reg st !! key, reqwest_check lower (reg st) lim (Some host) (Some port) None with
  | None, (lim', r) => lim' = lim /\ r = Ok Unlimited
  | Some e, (lim', Ok r) =>
    r = Slot
    /\ limiter_current lim' (host, lane_port (lane e)) = active (host, lane_port (lane e)) gs + 1
    /\ forall l, (generation e, l) ∈ leases_of key (leased st) ->
       limiter_current lim' (host, lane_port (lane e)) <= lane_cap l
  | Some e, (lim', Err x) =>
    refines lim' gs /\ exceeded_cap x = lane_cap (lane e)
    /\ (lane_cap (lane e) <= active (host, lane_port (lane e)) gs)
  end.
Proof.
  intros key LI Hr Href Hcaps. subst LI. pose proof (reg_reachable_inv _ Hr) as Hi.
  pose proof (reg_entry _ Hi key) as He. unfold reqwest_check, lane_for. fold key.
  destruct (reg st !! key) as [e|]; [|done]. cbn. destruct He as (_ & _ & Hin & _ & Hst).
  pose proof (shared_acquire_spec lower lim gs host (lane_port (lane e)) (lane_cap (lane e))
                Href (Hcaps _ _ Hin)) as Ha.
  destruct (try_acquire_shared _ _ _ _ _) as [lim' [a|x]]; [|exact Ha].
  destruct Ha as [Hlt Hn]. split_and!; [done|exact Hn|]. intros l Hl%(reg_subset _ Hi).
  specialize (Hst _ Hl). unfold lane_lt in Hst. cbv zeta in *. rewrite Hn. lia.
Qed.

(** Two leases of one generation, caps 1 and 10, and the stricter one dropped:
    its lane still governs the address. *)
Definition strict_then_dropped : reg_state :=
  let key := bs "h|80" in
  unlease (lease (lease no_leases 1 key (Lane 10 80)) 1 key (Lane 1 80)) key [(key, (1, Lane 10 80))].

Lemma strict_then_dropped_reachable : reg_reachable strict_then_dropped.
Proof.
  eapply RegStep; [|by apply (StepUnlease _ (bs "h|80") (1, Lane 1 80) [] [(bs "h|80", (1, Lane 10 80))])].
  eapply RegStep; [|apply StepLease; cbn; lia].
  eapply RegStep; [|apply StepLease; cbn; lia]. apply RegStart.
Qed.

(** The strictest lane is the strictest since the entry was created, not the
    strictest with a live lease: it governs the address for as long as other
    leases overlap. *)
Theorem strict_lane_outlives_lease :
  reg_reachable strict_then_dropped
  /\ leased strict_then_dropped = [(bs "h|80", (1, Lane 10 80))]
  /\ lane_for (reg strict_then_dropped) (bs "h|80") = Some (Lane 1 80).
Proof. split; [exact strict_then_dropped_reachable|]. split; vm_compute; reflexivity. Qed.

Lemma dial_lane_strictest_witness :
  exists e, reg strict_then_dropped !! bs "h|80" = Some e
  /\ leases e = 1 /\ strictest (history strict_then_dropped (bs "h|80")) (generation e) (lane e).
Proof.
  pose proof (dial_lane_strictest strict_then_dropped (bs "h|80") strict_then_dropped_reachable) as H.
  destruct (reg strict_then_dropped !! bs "h|80") as [e|] eqn:E.
  - exists e. split; [done|]. destruct H as (H1 & _ & H2 & _). split; [exact H1|exact H2].
  - exfalso. vm_compute in H. discriminate H.
Defined.

Lemma reqwest_socket_within_cap_witness :
  let lower := fun c => [to_ascii_lowercase c] in
  match reg strict_then_dropped !! write_lane_key lower [] (bs "H") 80,
        reqwest_check lower (reg strict_then_dropped) limiter_new (Some (bs "H")) (Some 80) None with
  | None, (lim', r) => lim' = limiter_new /\ r = Ok Unlimited
  | Some e, (lim', Ok r) => r = Slot
      /\ limiter_current (LI := conn_identity lower) lim' (bs "H", lane_port (lane e)) = 1
  | Some e, (lim', Err x) => False
  end.
Proof.
  intros lower.
  pose proof (reqwest_socket_within_cap lower strict_then_dropped limiter_new [] (bs "H") 80
    strict_then_dropped_reachable (limiter_new_refines (LI := conn_identity lower))) as H.
  cbv zeta in H. change (write_lane_key lower [] (bs "H") 80) with (bs "h|80") in *.
  change (history strict_then_dropped (bs "h|80")) with [(1, Lane 1 80); (1, Lane 10 80)] in H.
  destruct (reg strict_then_dropped !! bs "h|80") as [e|] eqn:E; [|by vm_compute in E].
  vm_compute in E. injection E as <-.
  destruct (reqwest_check lower (reg strict_then_dropped) limiter_new _ _ None) as [lim' [r|x]] eqn:Er.
  - destruct H as (H1 & H2 & _); [|split; [exact H1|exact H2]].
    intros g l [[= -> ->]|[[= -> ->]|[]%not_elem_of_nil]%elem_of_cons]%elem_of_cons; cbn; lia.
  - vm_compute in Er. discriminate Er.
Defined.
