(* ===== verification/ConnLimiter.v ===== *)
(** * Pre-authentication connection admission ([src/src/util/conn_limit.rs])

    The limiter the accept loops share: a global slot pool, a per-source-IP
    count and a gauge. The pool is a [tokio::sync::Semaphore], a parameter
    ([Semaphore]) with the behaviour its documentation states.

    [try_acquire] and the drop of a permit touch three shared cells one after
    the other, so the model runs them as sequences of atomic steps of many
    connections ([conn_step]); the whole functions are the compositions
    [try_acquire_conn] and [drop_permit]. *)

From S2P Require Import Prelude Net.

(** The counting semaphore: what a non-blocking acquisition and the drop of an
    owned permit do to the number of available permits. *)
Class Semaphore := {
  sem : Type;
  MAX_PERMITS : Z;
  sem_new : Z -> sem;
  available : sem -> Z;
  try_acquire_owned : sem -> option sem;
  add_permit : sem -> sem;
  max_permits_pos : 0 < MAX_PERMITS;
  sem_new_ok n : 0 <= n <= MAX_PERMITS -> available (sem_new n) = n;
  try_acquire_some s s' : try_acquire_owned s = Some s' -> 0 < available s /\ available s' = available s - 1;
  try_acquire_none s : try_acquire_owned s = None -> available s <= 0;
  add_permit_ok s : available (add_permit s) = available s + 1;
}.

Inductive ConnRejectReason := MaxConnections | MaxConnectionsPerIp.

Definition as_label (r : ConnRejectReason) : bytes :=
  match r with
  | MaxConnections => bs "max_connections"
  | MaxConnectionsPerIp => bs "max_connections_per_ip"
  end.

#[global] Instance IpAddr_countable : Countable IpAddr.
Proof.
  refine (inj_countable' (fun a => match a with V4 v => inl v | V6 v => inr v end)
            (fun x => match x with inl v => V4 v | inr v => V6 v end) _).
  by intros [].
Defined.

Section ConnLimiter.
Context `{Semaphore}.

Record ConnLimiter := Limits {
  semaphore : option sem;
  max_connections : Z;
  max_connections_per_ip : Z;
  per_ip_active : gmap IpAddr Z;
  active : Z;
  rejected_max_connections : Z;
  rejected_max_connections_per_ip : Z }.

Definition with_per_ip_map (max_conns max_per_ip : Z) (m : gmap IpAddr Z) : ConnLimiter :=
  let semaphore :=
    if 0 <? max_conns then Some (sem_new (Z.min max_conns MAX_PERMITS)) else None in
  Limits semaphore max_conns max_per_ip m 0 0 0.

Definition conn_limiter_new (max_conns max_per_ip : Z) : ConnLimiter :=
  with_per_ip_map max_conns max_per_ip ∅.

Definition set_semaphore (l : ConnLimiter) (s : option sem) : ConnLimiter :=
  Limits s (max_connections l) (max_connections_per_ip l) (per_ip_active l) (active l)
    (rejected_max_connections l) (rejected_max_connections_per_ip l).
Definition set_per_ip (l : ConnLimiter) (m : gmap IpAddr Z) : ConnLimiter :=
  Limits (semaphore l) (max_connections l) (max_connections_per_ip l) m (active l)
    (rejected_max_connections l) (rejected_max_connections_per_ip l).
Definition set_active (l : ConnLimiter) (n : Z) : ConnLimiter :=
  Limits (semaphore l) (max_connections l) (max_connections_per_ip l) (per_ip_active l) n
    (rejected_max_connections l) (rejected_max_connections_per_ip l).

Definition count_rejected (l : ConnLimiter) (r : ConnRejectReason) : ConnLimiter :=
  match r with
  | MaxConnections =>
    Limits (semaphore l) (max_connections l) (max_connections_per_ip l) (per_ip_active l) (active l)
      (wrapping_add 64 (rejected_max_connections l) 1) (rejected_max_connections_per_ip l)
  | MaxConnectionsPerIp =>
    Limits (semaphore l) (max_connections l) (max_connections_per_ip l) (per_ip_active l) (active l)
      (rejected_max_connections l) (wrapping_add 64 (rejected_max_connections_per_ip l) 1)
  end.

(** ** The atomic parts of an acquisition and of a drop *)

(** The global slot; [false]: none is free. *)
Definition take_slot (l : ConnLimiter) : ConnLimiter * bool :=
  match semaphore l with
  | Some s =>
    match try_acquire_owned s with
    | Some s' => (set_semaphore l (Some s'), true)
    | None => (count_rejected l MaxConnections, false)
    end
  | None => (l, true)
  end.

(** The per-IP check and increment, under the shard lock. *)
Definition take_ip (l : ConnLimiter) (ip : IpAddr) : ConnLimiter * bool :=
  if 0 <? max_connections_per_ip l then
    match per_ip_active l !! ip with
    | Some n =>
      if max_connections_per_ip l <=? n then (count_rejected l MaxConnectionsPerIp, false)
      else (set_per_ip l (<[ip := wrapping_add 32 n 1]> (per_ip_active l)), true)
    | None => (set_per_ip l (<[ip := 1]> (per_ip_active l)), true)
    end
  else (l, true).

Definition gauge_up (l : ConnLimiter) : ConnLimiter := set_active l (wrapping_add 64 (active l) 1).
Definition gauge_down (l : ConnLimiter) : ConnLimiter := set_active l (wrap 64 (active l - 1)).

(** The per-IP part of [release]. *)
Definition give_ip (l : ConnLimiter) (ip : IpAddr) (per_ip_tracked : bool) : ConnLimiter :=
  if per_ip_tracked then
    match per_ip_active l !! ip with
    | Some n =>
      let n := saturating_sub n 1 in
      if n =? 0 then set_per_ip l (delete ip (per_ip_active l))
      else set_per_ip l (<[ip := n]> (per_ip_active l))
    | None => l
    end
  else l.

(** Dropping the owned semaphore permit. *)
Definition give_slot (l : ConnLimiter) : ConnLimiter :=
  set_semaphore l (add_permit <$> semaphore l).

(** ** The whole operations *)

Record ConnPermit := Permit { remote_ip : IpAddr; tracked : bool }.

Definition try_acquire_conn (l : ConnLimiter) (ip : IpAddr)
  : ConnLimiter * result ConnPermit ConnRejectReason :=
  let '(l, ok) := take_slot l in
  if negb ok then (l, Err MaxConnections)
  else
    let '(l, ok) := take_ip l ip in
    if negb ok then (give_slot l, Err MaxConnectionsPerIp)
    else (gauge_up l, Ok (Permit ip (0 <? max_connections_per_ip l))).

Definition conn_release (l : ConnLimiter) (ip : IpAddr) (per_ip_tracked : bool) : ConnLimiter :=
  give_ip (gauge_down l) ip per_ip_tracked.

(** [Drop for ConnPermit], then its semaphore permit. *)
Definition drop_permit (l : ConnLimiter) (p : ConnPermit) : ConnLimiter :=
  give_slot (conn_release l (remote_ip p) (tracked p)).

Definition tracked_source_ips (l : ConnLimiter) : nat := size (per_ip_active l).

(** [snapshot().rejected_total()]. *)
Definition rejected_total (l : ConnLimiter) : Z :=
  saturating_add 64 (rejected_max_connections l) (rejected_max_connections_per_ip l).

(** ** Concurrent executions *)

(** Where one connection is: after the slot, after the per-IP count, admitted,
    refused by the per-IP cap, and in the two later parts of its drop. *)
Inductive phase := HasSlot | Counted | Live | Denied | Ungauged | Uncounted.

#[global] Instance phase_eq_dec : EqDecision phase.
Proof. solve_decision. Defined.

Record conn_state := Conns { lim : ConnLimiter; conns : list (IpAddr * phase) }.

Inductive conn_step : conn_state -> conn_state -> Prop :=
| SlotTaken l l' cs ip : take_slot l = (l', true) -> conn_step (Conns l cs) (Conns l' ((ip, HasSlot) :: cs))
| SlotRefused l l' cs : take_slot l = (l', false) -> conn_step (Conns l cs) (Conns l' cs)
| IpTaken l l' ip cs1 cs2 : take_ip l ip = (l', true) ->
    conn_step (Conns l (cs1 ++ (ip, HasSlot) :: cs2)) (Conns l' (cs1 ++ (ip, Counted) :: cs2))
| IpRefused l l' ip cs1 cs2 : take_ip l ip = (l', false) ->
    conn_step (Conns l (cs1 ++ (ip, HasSlot) :: cs2)) (Conns l' (cs1 ++ (ip, Denied) :: cs2))
| Gauged l ip cs1 cs2 :
    conn_step (Conns l (cs1 ++ (ip, Counted) :: cs2)) (Conns (gauge_up l) (cs1 ++ (ip, Live) :: cs2))
| DeniedDone l ip cs1 cs2 :
    conn_step (Conns l (cs1 ++ (ip, Denied) :: cs2)) (Conns (give_slot l) (cs1 ++ cs2))
| DropGauge l ip cs1 cs2 :
    conn_step (Conns l (cs1 ++ (ip, Live) :: cs2)) (Conns (gauge_down l) (cs1 ++ (ip, Ungauged) :: cs2))
| DropIp l ip cs1 cs2 :
    conn_step (Conns l (cs1 ++ (ip, Ungauged) :: cs2))
      (Conns (give_ip l ip (0 <? max_connections_per_ip l)) (cs1 ++ (ip, Uncounted) :: cs2))
| DropSlot l ip cs1 cs2 :
    conn_step (Conns l (cs1 ++ (ip, Uncounted) :: cs2)) (Conns (give_slot l) (cs1 ++ cs2)).

Inductive conn_reachable (max_conns max_per_ip : Z) : conn_state -> Prop :=
| ConnStart : conn_reachable max_conns max_per_ip (Conns (conn_limiter_new max_conns max_per_ip) [])
| ConnStep st st' : conn_reachable max_conns max_per_ip st -> conn_step st st' ->
    conn_reachable max_conns max_per_ip st'.

(** The phases that count in the per-IP map, and on one address. *)
Definition counted (p : phase) : bool :=
  match p with Counted | Live | Ungauged => true | _ => false end.
Definition ip_held (ip : IpAddr) (cs : list (IpAddr * phase)) : Z :=
  Z.of_nat (length (filter (fun c => fst c = ip /\ counted (snd c) = true) cs)).
Definition live_count (cs : list (IpAddr * phase)) : Z :=
  Z.of_nat (length (filter (fun c => snd c = Live) cs)).

Record conn_inv (max_conns max_per_ip : Z) (st : conn_state) : Prop := {
  inv_caps : max_connections (lim st) = max_conns /\ max_connections_per_ip (lim st) = max_per_ip;
  inv_slots : match semaphore (lim st) with
    | Some s => 0 < max_conns
        /\ available s + Z.of_nat (length (conns st)) = Z.min max_conns MAX_PERMITS
        /\ 0 <= available s
    | None => max_conns <= 0
    end;
  inv_ips : forall ip, per_ip_active (lim st) !! ip =
      if decide (max_per_ip <= 0 \/ ip_held ip (conns st) = 0) then None else Some (ip_held ip (conns st));
  inv_ip_cap : forall ip, 0 < max_per_ip -> ip_held ip (conns st) <= max_per_ip;
  inv_gauge : active (lim st) = wrap 64 (live_count (conns st));
}.

(** ** Preservation *)

Lemma ip_held_mid k ip p cs1 cs2 :
  ip_held k (cs1 ++ (ip, p) :: cs2)
  = ip_held k (cs1 ++ cs2) + (if decide (ip = k) then if counted p then 1 else 0 else 0).
Proof.
  unfold ip_held. rewrite !filter_app, filter_cons, !length_app. cbn [fst snd].
  destruct (decide (ip = k)), (counted p); case_decide; naive_solver (cbn [length]; lia).
Qed.

Lemma live_count_mid ip p cs1 cs2 :
  live_count (cs1 ++ (ip, p) :: cs2)
  = live_count (cs1 ++ cs2) + (if decide (p = Live) then 1 else 0).
Proof.
  unfold live_count. rewrite !filter_app, filter_cons, !length_app. cbn [snd].
  destruct (decide (p = Live)); cbn [length]; lia.
Qed.

Lemma ip_held_nonneg k cs : 0 <= ip_held k cs.
Proof. unfold ip_held. lia. Qed.

Lemma wrap_add_step w x y z : wrap w x = z -> wrap w (z + y) = wrap w (x + y).
Proof. intros <-. unfold wrap. apply Zplus_mod_idemp_l. Qed.

(** A step that changes the phase of one connection without touching the slots
    keeps the first two clauses. *)
Lemma phase_inv maxc maxi l l' ip p p' cs1 cs2 :
  conn_inv maxc maxi (Conns l (cs1 ++ (ip, p) :: cs2)) ->
  semaphore l' = semaphore l -> max_connections l' = max_connections l ->
  max_connections_per_ip l' = max_connections_per_ip l ->
  (forall k, per_ip_active l' !! k =
     if decide (maxi <= 0 \/ ip_held k (cs1 ++ (ip, p') :: cs2) = 0) then None
     else Some (ip_held k (cs1 ++ (ip, p') :: cs2))) ->
  (forall k, 0 < maxi -> ip_held k (cs1 ++ (ip, p') :: cs2) <= maxi) ->
  active l' = wrap 64 (live_count (cs1 ++ (ip, p') :: cs2)) ->
  conn_inv maxc maxi (Conns l' (cs1 ++ (ip, p') :: cs2)).
Proof.
  intros [[Hc1 Hc2] Hs _ _ _] Es Em Ei Hip Hcap Ha. cbn in *.
  constructor; cbn; [by rewrite Em, Ei| |done|done|done].
  rewrite Es. rewrite !length_app in *. exact Hs.
Qed.

(** The per-IP map when no count changes. *)
Lemma same_ips k ip p p' cs1 cs2 :
  counted p = counted p' -> ip_held k (cs1 ++ (ip, p') :: cs2) = ip_held k (cs1 ++ (ip, p) :: cs2).
Proof. intros E. by rewrite !ip_held_mid, E. Qed.

(** The count of one address moves by one. *)
Lemma recount_inv maxc maxi l m ip p p' cs1 cs2 :
  conn_inv maxc maxi (Conns l (cs1 ++ (ip, p) :: cs2)) -> 0 < maxi ->
  let n := ip_held ip (cs1 ++ (ip, p') :: cs2) in
  n <= maxi ->
  m = (if decide (n = 0) then delete ip (per_ip_active l) else <[ip := n]> (per_ip_active l)) ->
  (p = Live <-> p' = Live) ->
  conn_inv maxc maxi (Conns (set_per_ip l m) (cs1 ++ (ip, p') :: cs2)).
Proof.
  intros Hi Hpos n Hle -> Hlive.
  assert (Hother : forall k, ip <> k ->
    ip_held k (cs1 ++ (ip, p') :: cs2) = ip_held k (cs1 ++ (ip, p) :: cs2)).
  { intros k Hne. by rewrite !ip_held_mid, !decide_False by done. }
  eapply phase_inv; [exact Hi|done..| | |]; cbn [per_ip_active set_per_ip active].
  - intros k. destruct (decide (ip = k)) as [<-|Hne].
    + fold n. destruct (decide (n = 0)) as [E|E].
      * rewrite lookup_delete_eq. by rewrite decide_True by auto.
      * rewrite lookup_insert_eq. by rewrite decide_False by lia.
    + rewrite Hother by done. refine (eq_trans _ (inv_ips _ _ _ Hi k)). cbn [lim].
      destruct (decide (n = 0)); [by rewrite lookup_delete_ne|by rewrite lookup_insert_ne].
  - intros k _. destruct (decide (ip = k)) as [<-|Hne]; [done|].
    rewrite Hother by done. by apply (inv_ip_cap _ _ _ Hi).
  - refine (eq_trans (inv_gauge _ _ _ Hi) _). cbn [conns]. rewrite !live_count_mid.
    by destruct (decide (p = Live)), (decide (p' = Live)); naive_solver.
Qed.

(** The phase changes and nothing else does, or nothing is tracked per IP. *)
Lemma relabel_inv maxc maxi l l' ip p p' cs1 cs2 :
  conn_inv maxc maxi (Conns l (cs1 ++ (ip, p) :: cs2)) ->
  counted p = counted p' \/ maxi <= 0 ->
  semaphore l' = semaphore l -> max_connections l' = max_connections l ->
  max_connections_per_ip l' = max_connections_per_ip l -> per_ip_active l' = per_ip_active l ->
  active l' = wrap 64 (live_count (cs1 ++ (ip, p') :: cs2)) ->
  conn_inv maxc maxi (Conns l' (cs1 ++ (ip, p') :: cs2)).
Proof.
  intros Hi Hp E1 E2 E3 E4 E5. eapply phase_inv; try done.
  - intros k. rewrite E4. pose proof (inv_ips _ _ _ Hi k) as Hk. cbn [lim conns] in Hk.
    destruct Hp as [Hp|Hp].
    + by rewrite (same_ips k ip p p').
    + rewrite decide_True by auto. by rewrite decide_True in Hk by auto.
  - intros k Hpos. destruct Hp as [Hp|]; [|lia]. rewrite (same_ips k ip p p') by done.
    by apply (inv_ip_cap _ _ _ Hi).
Qed.

Lemma ip_entry maxc maxi l cs k :
  conn_inv maxc maxi (Conns l cs) -> 0 < maxi ->
  per_ip_active l !! k = (if decide (ip_held k cs = 0) then None else Some (ip_held k cs))
  /\ 0 <= ip_held k cs <= maxi.
Proof.
  intros Hi Hpos. pose proof (inv_ips _ _ _ Hi k) as Hk. cbn in Hk. rewrite Hk.
  split; [|split; [apply ip_held_nonneg|by apply (inv_ip_cap _ _ _ Hi)]].
  repeat case_decide; tauto || lia.
Qed.

Lemma take_ip_inv maxc maxi l l' ip cs1 cs2 ok :
  maxi < 2 ^ 32 ->
  conn_inv maxc maxi (Conns l (cs1 ++ (ip, HasSlot) :: cs2)) -> take_ip l ip = (l', ok) ->
  conn_inv maxc maxi (Conns l' (cs1 ++ (ip, if ok then Counted else Denied) :: cs2))
  /\ (ok = false -> ip_held ip (cs1 ++ cs2) = maxi).
Proof.
  intros Hb Hi E. pose proof (inv_caps _ _ _ Hi) as [_ Hmi]. pose proof (inv_gauge _ _ _ Hi) as Hg.
  cbn in Hmi, Hg. unfold take_ip in E. rewrite Hmi in E.
  assert (Hn : forall p, ip_held ip (cs1 ++ (ip, p) :: cs2)
    = ip_held ip (cs1 ++ cs2) + (if counted p then 1 else 0))
    by (intros p; by rewrite ip_held_mid, decide_True by done).
  destruct (Z.ltb_spec 0 maxi) as [Hpos|Hnon].
  - destruct (ip_entry _ _ _ _ ip Hi Hpos) as [Hip Hbd]. rewrite Hn in Hip, Hbd. cbn [counted] in Hip, Hbd.
    rewrite Z.add_0_r in Hip, Hbd. rewrite Hip in E. case_decide as Hd.
    + injection E as <- <-. split; [|done]. eapply recount_inv; [exact Hi|done|..|done];
        rewrite Hn; cbn [counted]; [lia|]. rewrite decide_False by lia. by rewrite Hd.
    + destruct (Z.leb_spec maxi (ip_held ip (cs1 ++ cs2))); injection E as <- <-.
      * split; [|lia]. eapply relabel_inv; [exact Hi|by left|done..|]. cbn. rewrite Hg, !live_count_mid. done.
      * split; [|done]. eapply recount_inv; [exact Hi|done|..|done]; rewrite Hn; cbn [counted]; [lia|].
        rewrite decide_False by lia. unfold wrapping_add. by rewrite wrap_small by (unfold in_width; lia).
  - injection E as <- <-. split; [|done]. eapply relabel_inv; [exact Hi|by right|done..|].
    rewrite Hg, !live_count_mid. done.
Qed.

Lemma give_ip_inv maxc maxi l ip cs1 cs2 :
  conn_inv maxc maxi (Conns l (cs1 ++ (ip, Ungauged) :: cs2)) ->
  conn_inv maxc maxi
    (Conns (give_ip l ip (0 <? max_connections_per_ip l)) (cs1 ++ (ip, Uncounted) :: cs2)).
Proof.
  intros Hi. pose proof (inv_caps _ _ _ Hi) as [_ Hmi]. pose proof (inv_gauge _ _ _ Hi) as Hg.
  cbn in Hmi, Hg. unfold give_ip. rewrite Hmi. destruct (Z.ltb_spec 0 maxi) as [Hpos|Hnon].
  - destruct (ip_entry _ _ _ _ ip Hi Hpos) as [Hip Hbd].
    pose proof (ip_held_nonneg ip (cs1 ++ cs2)).
    assert (Hu : ip_held ip (cs1 ++ (ip, Ungauged) :: cs2) = ip_held ip (cs1 ++ cs2) + 1)
      by (by rewrite ip_held_mid, decide_True by done).
    assert (Hv : ip_held ip (cs1 ++ (ip, Uncounted) :: cs2) = ip_held ip (cs1 ++ cs2))
      by (rewrite ip_held_mid, decide_True by done; cbn; lia).
    rewrite Hip, decide_False by lia. cbv zeta.
    replace (saturating_sub _ 1) with (ip_held ip (cs1 ++ cs2)) by (unfold saturating_sub; lia).
    destruct (Z.eqb_spec (ip_held ip (cs1 ++ cs2)) 0);
      (eapply recount_inv; [exact Hi|done|..|done]; rewrite Hv; [lia|]).
    + by rewrite decide_True.
    + by rewrite decide_False.
  - eapply relabel_inv; [exact Hi|by right|done..|]. rewrite Hg, !live_count_mid. done.
Qed.

(** Slots: one more connection, or one less. *)
Lemma take_slot_inv maxc maxi l l' cs ip :
  conn_inv maxc maxi (Conns l cs) -> take_slot l = (l', true) ->
  conn_inv maxc maxi (Conns l' ((ip, HasSlot) :: cs)).
Proof.
  intros [Hc Hs Hip Hcap Hg] E. unfold take_slot in E. cbn in *.
  assert (Hsame : forall k, ip_held k ((ip, HasSlot) :: cs) = ip_held k cs).
  { intros k. pose proof (ip_held_mid k ip HasSlot [] cs) as Hm. cbn [app counted] in Hm.
    rewrite Hm. case_decide; lia. }
  assert (Hl : live_count ((ip, HasSlot) :: cs) = live_count cs) by done.
  destruct (semaphore l) as [s|] eqn:Es.
  - destruct (try_acquire_owned s) as [s'|] eqn:Et; simplify_eq.
    apply try_acquire_some in Et as [Hpos He].
    constructor; cbn; [done|split_and!; lia| | |by rewrite Hl];
      intros k; rewrite Hsame; [apply Hip|apply Hcap].
  - simplify_eq. constructor; cbn; [done|by rewrite Es| | |by rewrite Hl];
      intros k; rewrite Hsame; [apply Hip|apply Hcap].
Qed.

Lemma give_slot_inv maxc maxi l ip p cs1 cs2 :
  p = Denied \/ p = Uncounted ->
  conn_inv maxc maxi (Conns l (cs1 ++ (ip, p) :: cs2)) ->
  conn_inv maxc maxi (Conns (give_slot l) (cs1 ++ cs2)).
Proof.
  intros Hp [Hc Hs Hip Hcap Hg].
  assert (Hsame : forall k, ip_held k (cs1 ++ (ip, p) :: cs2) = ip_held k (cs1 ++ cs2)).
  { intros k. rewrite ip_held_mid. destruct Hp as [-> | ->], (decide (ip = k)); cbn [counted]; lia. }
  assert (Hl : live_count (cs1 ++ (ip, p) :: cs2) = live_count (cs1 ++ cs2)).
  { rewrite live_count_mid. destruct Hp as [-> | ->], (decide (_ = Live)); done || lia. }
  cbn in *. constructor; cbn; [done| |intros k; by rewrite <- Hsame|intros k; rewrite <- Hsame; auto|by rewrite <- Hl].
  destruct (semaphore l) as [s|]; cbn; [|done]. rewrite add_permit_ok.
  rewrite !length_app in *. cbn [length] in Hs. lia.
Qed.

Lemma gauge_inv maxc maxi l ip p p' (d : Z) cs1 cs2 :
  conn_inv maxc maxi (Conns l (cs1 ++ (ip, p) :: cs2)) -> counted p = counted p' ->
  d = (if decide (p' = Live) then 1 else 0) - (if decide (p = Live) then 1 else 0) ->
  conn_inv maxc maxi (Conns (set_active l (wrap 64 (active l + d))) (cs1 ++ (ip, p') :: cs2)).
Proof.
  intros Hi Hp ->. eapply relabel_inv; [exact Hi|by left|done..|]. cbn [set_active active].
  pose proof (inv_gauge _ _ _ Hi) as Hg. cbn in Hg.
  rewrite (wrap_add_step 64 _ _ _ (eq_sym Hg)). rewrite !live_count_mid.
  apply (f_equal (wrap 64)). lia.
Qed.

Lemma conn_step_inv maxc maxi st st' :
  maxi < 2 ^ 32 -> conn_step st st' -> conn_inv maxc maxi st -> conn_inv maxc maxi st'.
Proof.
  intros Hb Hs Hi. destruct Hs.
  - by eapply take_slot_inv.
  - unfold take_slot in *. destruct (semaphore l) as [s|] eqn:Es; [|done].
    destruct (try_acquire_owned s); simplify_eq. destruct Hi. by constructor.
  - match goal with E : take_ip _ _ = _ |- _ => exact (proj1 (take_ip_inv _ _ _ _ _ _ _ _ Hb Hi E)) end.
  - match goal with E : take_ip _ _ = _ |- _ => exact (proj1 (take_ip_inv _ _ _ _ _ _ _ _ Hb Hi E)) end.
  - by apply (gauge_inv maxc maxi l ip Counted Live 1).
  - eapply give_slot_inv; [by left|exact Hi].
  - by apply (gauge_inv maxc maxi l ip Live Ungauged (-1)).
  - by apply give_ip_inv.
  - eapply give_slot_inv; [by right|exact Hi].
Qed.

Lemma conn_reachable_inv maxc maxi st :
  0 <= maxc -> maxi < 2 ^ 32 -> conn_reachable maxc maxi st -> conn_inv maxc maxi st.
Proof.
  intros Hm Hb. induction 1; [|by eapply conn_step_inv]. pose proof max_permits_pos.
  constructor; cbn; [done| |intros k; rewrite lookup_empty; by case_decide; tauto|
    intros; unfold ip_held; cbn; lia|done].
  destruct (Z.ltb_spec 0 maxc); [|lia]. rewrite sem_new_ok by lia. lia.
Qed.

Lemma size_list_to_set_bound (l : list IpAddr) : (size (list_to_set (C := gset IpAddr) l) <= length l)%nat.
Proof.
  induction l as [|x l IH]; cbn; [by rewrite size_empty|].
  rewrite size_union_alt, size_singleton.
  pose proof (subseteq_size (list_to_set (C := gset IpAddr) l ∖ {[x]}) (list_to_set l) ltac:(set_solver)). lia.
Qed.

Lemma tracked_bound maxc maxi st :
  conn_inv maxc maxi st -> (tracked_source_ips (lim st) <= length (conns st))%nat.
Proof.
  intros Hi. unfold tracked_source_ips. rewrite <- size_dom.
  transitivity (size (list_to_set (C := gset IpAddr) (map fst (conns st)))).
  - apply subseteq_size. intros k Hk. apply elem_of_dom in Hk as [n Hk].
    rewrite (inv_ips _ _ _ Hi) in Hk. case_decide as Hd; [done|].
    apply elem_of_list_to_set. apply list_elem_of_fmap. unfold ip_held in Hd.
    destruct (filter _ (conns st)) as [|c cs] eqn:Ef; [cbn in Hd; tauto|].
    assert (Hc : c ∈ filter (fun c => fst c = k /\ counted (snd c) = true) (conns st)) by (rewrite Ef; left).
    apply list_elem_of_filter in Hc as [[<- _] Hc]. eauto.
  - etransitivity; [apply size_list_to_set_bound|]. by rewrite length_map.
Qed.

(** C23. Both caps hold in every interleaving of accepts and drops, at every
    point between the atomic steps: the connections that hold anything are at
    most the global cap, those counted on one address at most the per-IP cap,
    the per-IP map has at most one entry per such connection, and the gauge is
    the number of admitted connections. When the last connection is gone,
    every slot is free and the map is empty. *)
Theorem conn_caps_hold maxc maxi st :
  0 <= maxc -> maxi < 2 ^ 32 -> conn_reachable maxc maxi st ->
  (0 < maxc -> Z.of_nat (length (conns st)) <= Z.min maxc MAX_PERMITS)
  /\ (0 < maxi -> forall ip, ip_held ip (conns st) <= maxi)
  /\ (tracked_source_ips (lim st) <= length (conns st))%nat
  /\ active (lim st) = wrap 64 (live_count (conns st))
  /\ (conns st = [] -> per_ip_active (lim st) = ∅
      /\ forall s, semaphore (lim st) = Some s -> available s = Z.min maxc MAX_PERMITS).
Proof.
  intros Hm Hb Hr. pose proof (conn_reachable_inv _ _ _ Hm Hb Hr) as Hi.
  pose proof (inv_slots _ _ _ Hi) as Hs. split_and!.
  - intros Hpos. destruct (semaphore (lim st)); lia.
  - intros Hpos ip. by apply (inv_ip_cap _ _ _ Hi).
  - by eapply tracked_bound.
  - apply (inv_gauge _ _ _ Hi).
  - intros En. rewrite En in *. split.
    + apply map_eq. intros k. rewrite (inv_ips _ _ _ Hi), En, lookup_empty.
      by rewrite decide_True by (right; done).
    + intros s Es. rewrite Es in Hs. cbn in Hs. lia.
Qed.

(** A connection is refused for the reason it is told: the global reason
    only when every slot is held by another connection, the per-IP reason only
    when its address already has the full per-IP share. *)
Theorem conn_refusal_exact maxc maxi l cs ip r l' :
  0 <= maxc -> maxi < 2 ^ 32 -> conn_reachable maxc maxi (Conns l cs) ->
  try_acquire_conn l ip = (l', Err r) ->
  match r with
  | MaxConnections => 0 < maxc /\ Z.of_nat (length cs) = Z.min maxc MAX_PERMITS
  | MaxConnectionsPerIp => 0 < maxi /\ ip_held ip cs = maxi
  end.
Proof.
  intros Hm Hb Hr E. pose proof (conn_reachable_inv _ _ _ Hm Hb Hr) as Hi.
  unfold try_acquire_conn in E. destruct (take_slot l) as [l1 ok] eqn:Es. destruct ok; cbn [negb] in E.
  - pose proof (take_slot_inv _ _ _ _ _ ip Hi Es) as Hi1.
    destruct (take_ip l1 ip) as [l2 ok] eqn:Et. destruct ok; cbn [negb] in E; [done|].
    injection E as _ <-. destruct (take_ip_inv maxc maxi l1 l2 ip [] cs false Hb Hi1 Et) as [_ Hh].
    split; [|by apply Hh]. pose proof (inv_caps _ _ _ Hi1) as [_ Hc]. cbn in Hc.
    unfold take_ip in Et. rewrite Hc in Et. destruct (Z.ltb_spec 0 maxi); [done|by simplify_eq].
  - injection E as _ <-. pose proof (inv_slots _ _ _ Hi) as Hs. cbn in Hs.
    unfold take_slot in Es. destruct (semaphore l) as [s|]; [|done].
    destruct (try_acquire_owned s) eqn:Ea; [done|]. apply try_acquire_none in Ea. lia.
Qed.
End ConnLimiter.

(** The counting semaphore. *)
#[export] Program Instance counting_semaphore : Semaphore := {
  sem := Z;
  MAX_PERMITS := 2 ^ 61 - 1;
  sem_new n := n;
  available s := s;
  try_acquire_owned s := if 0 <? s then Some (s - 1) else None;
  add_permit s := s + 1;
}.
Next Obligation. lia. Qed.
Next Obligation. done. Qed.
Next Obligation. intros s s'. cbn. destruct (Z.ltb_spec 0 s); [intros [= <-]; lia|done]. Qed.
Next Obligation. intros s. cbn. destruct (Z.ltb_spec 0 s); [done|lia]. Qed.
Next Obligation. done. Qed.

(** Caps of 2 and 1, one admitted connection from 10.0.0.1. *)
Definition one_conn : conn_state :=
  Conns (fst (try_acquire_conn (conn_limiter_new 2 1) (V4 167772161))) [(V4 167772161, Live)].

Lemma one_conn_reachable : conn_reachable 2 1 one_conn.
Proof.
  pose (l1 := fst (take_slot (conn_limiter_new 2 1))). pose (l2 := fst (take_ip l1 (V4 167772161))).
  eapply ConnStep; [|exact (Gauged l2 (V4 167772161) [] [])].
  eapply ConnStep; [|exact (IpTaken l1 l2 (V4 167772161) [] [] eq_refl)].
  eapply ConnStep; [|exact (SlotTaken (conn_limiter_new 2 1) l1 [] (V4 167772161) eq_refl)].
  apply ConnStart.
Qed.

Lemma conn_caps_hold_witness :
  active (lim one_conn) = wrap 64 (live_count (conns one_conn)).
Proof. apply (conn_caps_hold 2 1 one_conn); [lia|lia|exact one_conn_reachable]. Defined.

Lemma conn_refusal_exact_witness :
  snd (try_acquire_conn (lim one_conn) (V4 167772161)) = Err MaxConnectionsPerIp
  /\ ip_held (V4 167772161) (conns one_conn) = 1.
Proof.
  split; [reflexivity|].
  apply (conn_refusal_exact 2 1 (lim one_conn) (conns one_conn) (V4 167772161) MaxConnectionsPerIp
           (fst (try_acquire_conn (lim one_conn) (V4 167772161))));
    [lia|lia|exact one_conn_reachable|reflexivity].
Defined.
