(* ===== verification/UdpAmplification.v ===== *)
(** * UDP response amplification ([src/src/udp_amplification.rs])

    The byte budget of a UDP session. The factor is an [f32] and the budget of a
    request is computed in [f64]; both are modelled as dyadic numbers
    [m * 2^e], with the rounding of [f64] written out ([round_f64]). Products
    lie between 2^-149 and 2^74, inside the normal range of [f64], so
    rounding to 53 bits is the whole of it.

    The accumulator is an atomic updated by compare-and-swap loops; the model
    interleaves the loads and the swaps of any number of threads, spurious
    failures of [compare_exchange_weak] included. *)

From S2P Require Import Prelude.

(** ** Numbers *)

(** A finite [f32] is [m * 2^e] with a 24-bit mantissa. *)
Inductive f32 :=
| NaN
| Infinite (negative : bool)
| Finite (m e : Z).

Definition f32_wf (x : f32) : Prop :=
  match x with Finite m e => - 2 ^ 24 < m < 2 ^ 24 /\ -149 <= e <= 104 | _ => True end.

(** A non-negative dyadic [m * 2^e]. *)
Record dyadic := Dyadic { man : Z; ex : Z }.

(** [m1 * 2^e1 <= m2 * 2^e2]. *)
Definition dyadic_le (a b : dyadic) : bool :=
  let lo := Z.min (ex a) (ex b) in
  man a * 2 ^ (ex a - lo) <=? man b * 2 ^ (ex b - lo).

(** Round to nearest, ties to even, at 53 bits. *)
Definition round_f64 (x : dyadic) : dyadic :=
  let d := Z.log2 (man x) + 1 in
  if d <=? 53 then x
  else
    let s := d - 53 in
    let q := Z.shiftr (man x) s in
    let r := man x - Z.shiftl q s in
    let half := 2 ^ (s - 1) in
    let q := if (half <? r) || ((half =? r) && Z.odd q) then q + 1 else q in
    Dyadic q (ex x + s).

Definition u64_as_f64 (n : Z) : dyadic := round_f64 (Dyadic n 0).
Definition f64_mul (a b : dyadic) : dyadic := round_f64 (Dyadic (man a * man b) (ex a + ex b)).

(** [as u64] of a non-negative value below 2^64: truncation. *)
Definition f64_as_u64 (x : dyadic) : Z := Z.shiftl (man x) (ex x).

(** ** The budget of a request *)

Definition DEFAULT_UDP_AMPLIFICATION_FACTOR : f32 := Finite 8 0.
Definition MAX_UDP_AMPLIFICATION_FACTOR : dyadic := Dyadic 1024 0.
Definition UDP_AMPLIFICATION_BUDGET_CAP_MULTIPLE : Z := 16.

Definition factor_is_valid (factor : f32) : bool :=
  match factor with
  | NaN | Infinite _ => false
  | Finite m e => (0 <? m) && dyadic_le (Dyadic m e) MAX_UDP_AMPLIFICATION_FACTOR
  end.

Definition is_zero (factor : f32) : bool :=
  match factor with Finite m _ => m =? 0 | _ => false end.

Definition factor_is_valid_or_unlimited (factor : f32) : bool := is_zero factor || factor_is_valid factor.

Definition factor_is_unlimited (factor : option f32) : bool :=
  match factor with None => true | Some configured => is_zero configured end.

(** [f64::from(factor)] is exact. The product is never infinite or negative. *)
Definition udp_amplification_response_budget (request_size : Z) (factor : f32) : Z :=
  if negb (factor_is_valid factor) then 0
  else if request_size =? 0 then 1
  else
    match factor with
    | Finite m e =>
      let product := f64_mul (u64_as_f64 request_size) (Dyadic m e) in
      if dyadic_le (Dyadic 1 64) product then umax 64 else f64_as_u64 product
    | _ => 0
    end.

(** ** The accumulator *)

(** The value a publication swaps in. *)
Definition accrue (current budget : Z) : Z :=
  let cap := saturating_mul 64 budget UDP_AMPLIFICATION_BUDGET_CAP_MULTIPLE in
  Z.max (Z.min (saturating_add 64 current budget) cap) current.

(** [publish_request_budget] when no other thread interferes: the accumulator
    and the returned value. *)
Definition publish_request_budget (remaining request_size : Z) (factor : f32) : Z * Z :=
  let budget := udp_amplification_response_budget request_size factor in
  if budget =? 0 then (remaining, 0)
  else let next := accrue remaining budget in (next, next).

(** [charge_response_budget] when no other thread interferes. *)
Definition charge_response_budget (remaining nbytes : Z) : Z * bool :=
  let charge := Z.max nbytes 1 in
  if remaining <? charge then (remaining, false) else (remaining - charge, true).

(** ** The exact ratio *)

Lemma round_f64_exact m e : 0 <= m < 2 ^ 53 -> round_f64 (Dyadic m e) = Dyadic m e.
Proof.
  intros Hm. unfold round_f64. cbn [man].
  destruct (Z.leb_spec (Z.log2 m + 1) 53) as [|Hl]; [done|]. exfalso.
  destruct (Z.eq_dec m 0) as [->|]; [done|].
  assert (Z.log2 m < 53) by (apply Z.log2_lt_pow2; lia). lia.
Qed.

Lemma factor_valid_bounds m e :
  f32_wf (Finite m e) -> factor_is_valid (Finite m e) = true ->
  0 < m < 2 ^ 24 /\ -149 <= e <= 10 /\ m * 2 ^ (e + 149) <= 1024 * 2 ^ 149.
Proof.
  intros [Hm He] Hv. unfold factor_is_valid, dyadic_le in Hv. cbn [man ex MAX_UDP_AMPLIFICATION_FACTOR] in Hv.
  apply andb_true_iff in Hv as [H0 Hle]. apply Z.ltb_lt in H0. apply Z.leb_le in Hle.
  destruct (Z.le_ge_cases 0 e) as [Hp|Hn].
  - rewrite Z.min_r, !Z.sub_0_r in Hle by lia. rewrite Z.mul_1_r in Hle.
    assert (e <= 10).
    { destruct (Z.le_gt_cases e 10) as [|Hgt]; [done|].
      pose proof (Z.pow_le_mono_r 2 11 e ltac:(lia) ltac:(lia)). change (2 ^ 11) with 2048 in *. nia. }
    split_and!; try lia. rewrite Z.pow_add_r by lia. nia.
  - rewrite Z.min_l, Z.sub_diag, Z.mul_1_r in Hle by lia.
    split_and!; try lia. 
    replace (2 ^ 149) with (2 ^ (0 - e) * 2 ^ (e + 149)) by (rewrite <- Z.pow_add_r by lia; f_equal; lia).
    nia.
Qed.

(** The factor in units of the smallest [f32], 2^-149. *)
Definition units (factor : f32) : Z :=
  match factor with Finite m e => m * 2 ^ (e + 149) | _ => 0 end.

(** The floor of [size * factor]. *)
Definition ratio_floor (size : Z) (factor : f32) : Z := size * units factor / 2 ^ 149.

Lemma shiftl_floor x e : -149 <= e -> Z.shiftl x e = x * 2 ^ (e + 149) / 2 ^ 149.
Proof.
  intros He. destruct (Z.le_ge_cases 0 e) as [Hp|Hn].
  - rewrite Z.shiftl_mul_pow2 by lia. rewrite Z.pow_add_r, Z.mul_assoc by lia.
    symmetry. apply Z.div_mul. lia.
  - rewrite Z.shiftl_div_pow2 by lia.
    replace (2 ^ 149) with (2 ^ (- e) * 2 ^ (e + 149)) by (rewrite <- Z.pow_add_r by lia; f_equal; lia).
    symmetry. apply Z.div_mul_cancel_r; lia.
Qed.

Lemma budget_exact size factor :
  f32_wf factor -> factor_is_valid factor = true -> 0 < size < 2 ^ 29 ->
  udp_amplification_response_budget size factor = ratio_floor size factor.
Proof.
  intros Hwf Hv Hs. destruct factor as [| |m e]; [done..|].
  pose proof (factor_valid_bounds m e Hwf Hv) as (Hm & He & Hle).
  unfold udp_amplification_response_budget. rewrite Hv. cbn [negb].
  replace (size =? 0) with false by lia.
  unfold f64_mul, u64_as_f64. rewrite (round_f64_exact size 0) by lia. cbn [man ex].
  rewrite round_f64_exact by nia. rewrite Z.add_0_l.
  replace (dyadic_le (Dyadic 1 64) (Dyadic (size * m) e)) with false.
  - unfold f64_as_u64, ratio_floor, units. cbn [man ex]. rewrite Z.mul_assoc. apply shiftl_floor; lia.
  - symmetry. unfold dyadic_le. cbn [man ex]. rewrite Z.min_r by lia. apply Z.leb_gt.
    rewrite Z.sub_diag, Z.mul_1_r, Z.mul_1_l.
    assert (2 ^ 54 <= 2 ^ (64 - e)) by (apply Z.pow_le_mono_r; lia). nia.
Qed.

Lemma budget_small size factor :
  f32_wf factor -> factor_is_valid factor = true -> 0 <= size < 2 ^ 29 ->
  let b := udp_amplification_response_budget size factor in
  0 <= b <= umax 64 /\ b * 2 ^ 149 <= size * units factor + (if size =? 0 then 2 ^ 149 else 0).
Proof.
  intros Hwf Hv Hs b. destruct (Z.eqb_spec size 0) as [->|Hne].
  - subst b. unfold udp_amplification_response_budget. rewrite Hv. cbn [negb Z.eqb]. unfold umax. lia.
  - subst b. rewrite budget_exact by (done || lia). unfold ratio_floor.
    destruct factor as [| |m e]; [done..|].
    pose proof (factor_valid_bounds m e Hwf Hv) as (Hm & He & Hle). cbn [units].
    assert (Hpos : 0 < 2 ^ (e + 149)) by (apply Z.pow_pos_nonneg; lia).
    set (F := m * 2 ^ (e + 149)) in *. assert (0 < F) by (unfold F; nia).
    pose proof (Z.mul_div_le (size * F) (2 ^ 149) ltac:(lia)).
    assert (0 <= size * F / 2 ^ 149) by (apply Z.div_pos; nia).
    assert (size * F / 2 ^ 149 <= 2 ^ 29 * 1024).
    { apply Z.div_le_upper_bound; [lia|]. nia. }
    unfold umax. lia.
Qed.

(** ** Concurrent executions *)

Section Sessions.
Variable factor : f32.
Hypothesis factor_wf : f32_wf factor.
Hypothesis factor_valid : factor_is_valid factor = true.

(** A thread inside one of the two loops, with the value it loaded. *)
Inductive attempt :=
| Publishing (request_size loaded : Z)
| Charging (nbytes loaded : Z).

Record session := Session {
  remaining : Z;
  attempts : list attempt;
  inbound : Z;         (** payload bytes of the requests published so far *)
  empties : Z;         (** how many of them were empty *)
  sent : Z;            (** payload bytes of the responses let through *)
  replies : Z;         (** how many responses were let through *)
  largest : Z          (** the largest budget published *)
}.

Definition new_session : session := Session 0 [] 0 0 0 0 0.

Definition reload (s : session) (a : list attempt) : session :=
  Session (remaining s) a (inbound s) (empties s) (sent s) (replies s) (largest s).

Definition swap_published (s : session) (a : list attempt) (size : Z) : session :=
  let b := udp_amplification_response_budget size factor in
  Session (accrue (remaining s) b) a (inbound s + size) (empties s + (if size =? 0 then 1 else 0))
    (sent s) (replies s) (Z.max b (largest s)).

Definition swap_charged (s : session) (a : list attempt) (n : Z) : session :=
  Session (remaining s - Z.max n 1) a (inbound s) (empties s) (sent s + n) (replies s + 1) (largest s).

(** Loads, swaps and failed swaps; request sizes are below 2^29, far above the
    largest datagram. A request with no budget leaves before its load. *)
Inductive session_step : session -> session -> Prop :=
| PublishLoad s size : 0 <= size < 2 ^ 29 -> udp_amplification_response_budget size factor <> 0 ->
    session_step s (reload s (Publishing size (remaining s) :: attempts s))
| PublishSwap s size a1 a2 : attempts s = a1 ++ Publishing size (remaining s) :: a2 ->
    session_step s (swap_published s (a1 ++ a2) size)
| PublishRetry s size cur a1 a2 : attempts s = a1 ++ Publishing size cur :: a2 ->
    session_step s (reload s (a1 ++ Publishing size (remaining s) :: a2))
| ChargeLoad s n : 0 <= n ->
    session_step s (reload s (Charging n (remaining s) :: attempts s))
| ChargeRefuse s n cur a1 a2 : attempts s = a1 ++ Charging n cur :: a2 -> cur < Z.max n 1 ->
    session_step s (reload s (a1 ++ a2))
| ChargeSwap s n a1 a2 : attempts s = a1 ++ Charging n (remaining s) :: a2 ->
    Z.max n 1 <= remaining s ->
    session_step s (swap_charged s (a1 ++ a2) n)
| ChargeRetry s n cur a1 a2 : attempts s = a1 ++ Charging n cur :: a2 -> Z.max n 1 <= cur ->
    session_step s (reload s (a1 ++ Charging n (remaining s) :: a2)).

Inductive session_reachable : session -> Prop :=
| SessionStart : session_reachable new_session
| SessionStep s s' : session_reachable s -> session_step s s' -> session_reachable s'.

Definition attempt_ok (a : attempt) : Prop :=
  match a with
  | Publishing size _ => 0 <= size < 2 ^ 29 /\ udp_amplification_response_budget size factor <> 0
  | Charging n _ => 0 <= n
  end.

(** The credit left and the credit spent are covered by what was earned. *)
Record session_inv (s : session) : Prop := {
  inv_attempts : Forall attempt_ok (attempts s);
  inv_range : 0 <= remaining s <= umax 64;
  inv_nonneg : 0 <= sent s /\ 0 <= replies s /\ 0 <= largest s;
  inv_budget : exists charged, sent s <= charged /\ replies s <= charged
    /\ (remaining s + charged) * 2 ^ 149 <= inbound s * units factor + empties s * 2 ^ 149;
  inv_cap : remaining s <= UDP_AMPLIFICATION_BUDGET_CAP_MULTIPLE * largest s;
}.

Lemma accrue_spec cur b :
  0 <= cur <= umax 64 -> 0 < b <= umax 64 ->
  cur <= accrue cur b <= cur + b /\ accrue cur b <= umax 64
  /\ accrue cur b <= Z.max cur (UDP_AMPLIFICATION_BUDGET_CAP_MULTIPLE * b).
Proof.
  intros Hc Hb. unfold accrue, saturating_mul, saturating_add, UDP_AMPLIFICATION_BUDGET_CAP_MULTIPLE in *.
  lia.
Qed.

Lemma swap_published_inv s size a1 a2 cur :
  session_inv s -> attempts s = a1 ++ Publishing size cur :: a2 ->
  session_inv (swap_published s (a1 ++ a2) size).
Proof.
  intros [Ha Hr Hn (c & Hc1 & Hc2 & Hb) Hcap] E. rewrite E in Ha.
  apply Forall_app in Ha as [Ha1 [[Hs Hnz] Ha2]%Forall_cons].
  destruct (budget_small size factor factor_wf factor_valid Hs) as [Hbr Hbb].
  unfold swap_published. set (b := udp_amplification_response_budget size factor) in *.
  pose proof (accrue_spec (remaining s) b Hr ltac:(lia)) as Hacc.
  unfold UDP_AMPLIFICATION_BUDGET_CAP_MULTIPLE in *.
  constructor; cbn [remaining attempts inbound empties sent replies largest];
    unfold UDP_AMPLIFICATION_BUDGET_CAP_MULTIPLE; [by apply Forall_app|lia|lia| |lia].
  exists c. split_and!; [lia|lia|]. destruct (size =? 0); nia.
Qed.

Lemma swap_charged_inv s n a1 a2 cur :
  session_inv s -> attempts s = a1 ++ Charging n cur :: a2 -> Z.max n 1 <= remaining s ->
  session_inv (swap_charged s (a1 ++ a2) n).
Proof.
  intros [Ha Hr Hn (c & Hc1 & Hc2 & Hb) Hcap] E Hle. rewrite E in Ha.
  apply Forall_app in Ha as [Ha1 [Hs Ha2]%Forall_cons]. cbn in Hs.
  unfold UDP_AMPLIFICATION_BUDGET_CAP_MULTIPLE in *.
  constructor; cbn [swap_charged remaining attempts inbound empties sent replies largest];
    unfold UDP_AMPLIFICATION_BUDGET_CAP_MULTIPLE; [by apply Forall_app|lia|lia| |lia].
  exists (c + Z.max n 1). split_and!; lia.
Qed.

Lemma reload_inv s a : session_inv s -> Forall attempt_ok a -> session_inv (reload s a).
Proof. intros [Ha Hr Hn Hb Hcap] H. by constructor. Qed.

Lemma session_step_inv s s' : session_step s s' -> session_inv s -> session_inv s'.
Proof.
  intros Hs. destruct Hs as [s size H1 H2|s size a1 a2 E|s size cur a1 a2 E|s n H1
      |s n cur a1 a2 E H1|s n a1 a2 E H1|s n cur a1 a2 E H1]; intros Hi;
    [|by eapply swap_published_inv| | | |by eapply swap_charged_inv|];
    apply reload_inv; try done; pose proof (inv_attempts _ Hi) as Ha.
  1, 3: by constructor.
  all: rewrite E in Ha; apply Forall_app in Ha as [Ha1 [Hx Ha2]%Forall_cons]; apply Forall_app; split; try done.
  all: by constructor.
Qed.

Lemma session_reachable_inv s : session_reachable s -> session_inv s.
Proof.
  induction 1 as [|s s' _ IH Hs]; [|by eapply session_step_inv].
  constructor; cbn [new_session remaining attempts inbound empties sent replies largest];
    unfold umax, UDP_AMPLIFICATION_BUDGET_CAP_MULTIPLE; [constructor|lia|lia| |lia].
  exists 0. lia.
Qed.

(** A call that no other thread interrupts is a load and a swap (or a refusal),
    and has the effect of the whole function. *)
Lemma uninterrupted_calls s size n :
  attempts s = [] -> 0 <= size < 2 ^ 29 -> 0 <= n -> session_reachable s ->
  (exists s1, session_reachable s1 /\ attempts s1 = []
     /\ remaining s1 = fst (publish_request_budget (remaining s) size factor))
  /\ (exists s1, session_reachable s1 /\ attempts s1 = []
     /\ (remaining s1, bool_decide (replies s1 = replies s + 1))
        = charge_response_budget (remaining s) n).
Proof.
  intros Hn Hs Hc Hr. split.
  - unfold publish_request_budget.
    destruct (Z.eqb_spec (udp_amplification_response_budget size factor) 0) as [E|E]; [by exists s|].
    exists (swap_published (reload s [Publishing size (remaining s)]) [] size). split; [|done].
    eapply SessionStep; [|by apply (PublishSwap _ size [] [])].
    eapply SessionStep; [exact Hr|]. rewrite <- Hn. by apply PublishLoad.
  - unfold charge_response_budget.
    assert (Hl : session_reachable (reload s [Charging n (remaining s)])).
    { eapply SessionStep; [exact Hr|]. rewrite <- Hn. by apply ChargeLoad. }
    destruct (Z.ltb_spec (remaining s) (Z.max n 1)) as [Hlt|Hge].
    + exists (reload (reload s [Charging n (remaining s)]) []). split_and!; [|done|].
      * eapply SessionStep; [exact Hl|]. by apply (ChargeRefuse _ n (remaining s) [] []).
      * cbn. by rewrite bool_decide_eq_false_2 by lia.
    + exists (swap_charged (reload s [Charging n (remaining s)]) [] n). split_and!; [|done|].
      * eapply SessionStep; [exact Hl|]. by apply (ChargeSwap _ n [] []).
      * cbn. by rewrite bool_decide_eq_true_2 by lia.
Qed.

(** C20. Amplification is bounded in every interleaving of requests and
    responses, whatever the backends send: the bytes returned to the client
    stay within the factor times the bytes it sent, plus one byte for each
    empty request; the number of responses is bounded the same way, empty ones
    included; and the unspent credit never exceeds sixteen times the largest
    single budget. *)
Theorem amplification_bounded s :
  session_reachable s ->
  sent s * 2 ^ 149 <= inbound s * units factor + empties s * 2 ^ 149
  /\ replies s * 2 ^ 149 <= inbound s * units factor + empties s * 2 ^ 149
  /\ 0 <= remaining s <= UDP_AMPLIFICATION_BUDGET_CAP_MULTIPLE * largest s.
Proof.
  intros Hr%session_reachable_inv. destruct Hr as [_ Hrange Hn (c & Hc1 & Hc2 & Hb) Hcap].
  split_and!; lia.
Qed.
End Sessions.

(** The budget of a request is exact for every size a datagram can have:
    the floor of the factor times the payload, one byte for an empty request,
    and nothing under an invalid factor. *)
Theorem request_budget_exact size factor :
  f32_wf factor -> 0 <= size < 2 ^ 29 ->
  udp_amplification_response_budget size factor =
    if factor_is_valid factor then if size =? 0 then 1 else ratio_floor size factor else 0.
Proof.
  intros Hwf Hs. destruct (factor_is_valid factor) eqn:Hv.
  - destruct (Z.eqb_spec size 0) as [->|]; [|apply budget_exact; done || lia].
    unfold udp_amplification_response_budget. by rewrite Hv.
  - unfold udp_amplification_response_budget. by rewrite Hv.
Qed.

Lemma request_budget_exact_witness :
  udp_amplification_response_budget 1200 (Finite 5 (-1)) = 3000.
Proof.
  etransitivity; [apply (request_budget_exact 1200 (Finite 5 (-1))); [split|]; lia|]. vm_compute. reflexivity.
Defined.

(** Factor 2, a 3-byte request: responses of 4 and 2 bytes pass, and exhaust
    the budget. *)
Definition spent_session : session :=
  Session 0 [] 3 0 6 2 6.

Lemma spent_session_reachable : session_reachable (Finite 2 0) spent_session.
Proof.
  pose (f := Finite 2 0).
  pose (s1 := reload new_session [Publishing 3 0]). pose (s2 := swap_published f s1 [] 3).
  pose (s3 := reload s2 [Charging 4 6]). pose (s4 := swap_charged s3 [] 4).
  pose (s5 := reload s4 [Charging 2 2]).
  apply (SessionStep _ s5); [|by apply (ChargeSwap _ s5 2 [] [])].
  apply (SessionStep _ s4); [|by apply (ChargeLoad _ s4 2)].
  apply (SessionStep _ s3); [|by apply (ChargeSwap _ s3 4 [] [])].
  apply (SessionStep _ s2); [|by apply (ChargeLoad _ s2 4)].
  apply (SessionStep _ s1); [|by apply (PublishSwap _ s1 3 [] [])].
  apply (SessionStep _ new_session); [apply SessionStart|by apply (PublishLoad _ new_session 3)].
Qed.

Lemma amplification_bounded_witness :
  sent spent_session * 2 ^ 149 <= inbound spent_session * units (Finite 2 0) + empties spent_session * 2 ^ 149.
Proof.
  apply (amplification_bounded (Finite 2 0)); [split; lia|reflexivity|exact spent_session_reachable].
Defined.

(** Under a request with no budget the function returns zero, not the credit
    the session still holds. *)
Theorem publish_returns_zero_with_credit :
  publish_request_budget 5 1 (Finite 1 (-1)) = (5, 0).
Proof. vm_compute. reflexivity. Qed.
