(* ===== verification/ConfigDelta.v ===== *)
(** * Configuration deltas ([src/src/config_delta.rs])

    What changed between two configuration snapshots, and which proxies need
    their plugin lists rebuilt. The trait [HasNamespacedIdAndTimestamp] is a
    class with one instance per resource kind; the fields the diff does not
    read are an opaque body, and [serde_json::to_value] is a parameter per kind
    ([None]: it failed). *)

From S2P Require Import Prelude.
From stdpp Require Import sorting.
#[local] Open Scope Z_scope.

(** [(namespace, id)]; a [NamespacedResourceId] is compared by this pair. *)
Notation key := (bytes * bytes)%type.

(** ** Data *)

Inductive PluginScope := Global | ProxyScoped | ProxyGroup.
Inductive DispatchKind := HttpPool | HttpsPool | TcpRaw | TcpTls | UdpRaw | UdpDtls.

#[global] Instance PluginScope_eq_dec : EqDecision PluginScope.
Proof. solve_decision. Defined.

Definition is_stream (d : DispatchKind) : bool :=
  match d with TcpRaw | TcpTls | UdpRaw | UdpDtls => true | _ => false end.

(** The Unix epoch, the neutral timestamp. *)
Definition UNIX_EPOCH : Z := 0.

Class HasNamespacedIdAndTimestamp (T : Type) := {
  resource_key : T -> key;
  updated_at : T -> Z;
  persisted_content_changed : T -> T -> bool;
}.

(** ** Generic diffing *)

Section Diff.
Context {T : Type} `{HasNamespacedIdAndTimestamp T}.

Definition keys_of (l : list T) : gset key := list_to_set (map resource_key l).

(** [collect] into a [HashMap]: a later resource replaces an earlier one of the
    same key. *)
Definition by_key (l : list T) : gmap key T :=
  foldl (fun m r => <[resource_key r := r]> m) ∅ l.

Definition diff_added (old new : list T) : list T :=
  let old_keys := keys_of old in
  filter (fun r => resource_key r ∉ old_keys) new.

Definition diff_removed_ids (old new : list T) : list key :=
  let new_keys := keys_of new in
  map resource_key (filter (fun r => resource_key r ∉ new_keys) old).

Definition is_modified (old_map : gmap key T) (new_resource : T) : bool :=
  match old_map !! resource_key new_resource with
  | None => false
  | Some old_resource =>
    negb (updated_at new_resource =? updated_at old_resource)
    || persisted_content_changed new_resource old_resource
  end.

Definition diff_modified (old new : list T) : list T :=
  let old_map := by_key old in
  filter (fun r => is_modified old_map r = true) new.
End Diff.

(** ** What the generic diff computes *)

Section DiffLemmas.
Context {T : Type} `{HasNamespacedIdAndTimestamp T}.

Definition unique (l : list T) : Prop := NoDup (map resource_key l).

(** The resource is served from the old snapshot. *)
Definition unchanged (o n : T) : Prop :=
  updated_at n = updated_at o /\ persisted_content_changed n o = false.

(** The old snapshot with a delta applied. *)
Definition apply_delta (old added : list T) (removed : list key) (modified : list T) : list T :=
  filter (fun r => resource_key r ∉ removed /\ resource_key r ∉ map resource_key modified) old
  ++ modified ++ added.

(** A patched snapshot stands for the new one. *)
Definition stands_for (old patched new : list T) : Prop :=
  unique patched /\ keys_of patched = keys_of new
  /\ forall a b, a ∈ patched -> b ∈ new -> resource_key a = resource_key b ->
     a = b \/ (a ∈ old /\ unchanged a b).

Lemma elem_of_keys_of k (l : list T) : k ∈ keys_of l <-> exists r, r ∈ l /\ resource_key r = k.
Proof. unfold keys_of. rewrite elem_of_list_to_set, list_elem_of_fmap. naive_solver. Qed.

Lemma key_in_keys_of r (l : list T) : r ∈ l -> resource_key r ∈ keys_of l.
Proof. intros. apply elem_of_keys_of. eauto. Qed.

Lemma unique_same_key (l : list T) a b :
  unique l -> a ∈ l -> b ∈ l -> resource_key a = resource_key b -> a = b.
Proof.
  unfold unique. induction l as [|x l IH]; [by intros _ Ha%not_elem_of_nil|].
  cbn. intros [Hx Hl]%NoDup_cons Ha%elem_of_cons Hb%elem_of_cons E.
  destruct Ha as [->|Ha], Hb as [->|Hb]; [done| | |by apply IH].
  - exfalso. apply Hx. rewrite E. apply list_elem_of_fmap. eauto.
  - exfalso. apply Hx. rewrite <- E. apply list_elem_of_fmap. eauto.
Qed.

Lemma by_key_lookup (l : list T) k r :
  unique l -> by_key l !! k = Some r <-> r ∈ l /\ resource_key r = k.
Proof.
  intros Hu. assert (Hex : forall k r, by_key l !! k = Some r -> r ∈ l /\ resource_key r = k).
  { clear Hu k r. unfold by_key. induction l as [|x l IH] using rev_ind; [by intros k r|].
    intros k r. rewrite foldl_app. cbn. rewrite elem_of_app, list_elem_of_singleton.
    destruct (decide (resource_key x = k)) as [<-|Hne].
    - rewrite lookup_insert_eq. naive_solver.
    - rewrite lookup_insert_ne by done. intros ?%IH. naive_solver. }
  split; [apply Hex|]. intros [Hr <-].
  assert (Hsome : is_Some (by_key l !! resource_key r)).
  { clear Hex Hu. unfold by_key. induction l as [|x l IH] using rev_ind; [by apply not_elem_of_nil in Hr|].
    rewrite foldl_app. cbn. destruct (decide (resource_key x = resource_key r)) as [->|Hne];
      [rewrite lookup_insert_eq; eauto|]. rewrite lookup_insert_ne by done. apply IH.
    apply elem_of_app in Hr as [|Hr%list_elem_of_singleton]; [done|by subst]. }
  destruct Hsome as [r' E]. rewrite E. f_equal. apply Hex in E as [Hr' E].
  by eapply unique_same_key.
Qed.

Lemma elem_of_added (old new : list T) r :
  r ∈ diff_added old new <-> resource_key r ∉ keys_of old /\ r ∈ new.
Proof. unfold diff_added. by rewrite list_elem_of_filter. Qed.

Lemma elem_of_removed (old new : list T) k :
  k ∈ diff_removed_ids old new <-> k ∈ keys_of old /\ k ∉ keys_of new.
Proof.
  unfold diff_removed_ids. rewrite list_elem_of_fmap, elem_of_keys_of. split.
  - intros (r & -> & [Hn Hr]%list_elem_of_filter). eauto.
  - intros [(r & Hr & <-) Hn]. exists r. split; [done|]. by apply list_elem_of_filter.
Qed.

Lemma unchanged_dec_spec (o n : T) :
  negb (updated_at n =? updated_at o) || persisted_content_changed n o = true <-> ~ unchanged o n.
Proof.
  unfold unchanged. destruct (Z.eqb_spec (updated_at n) (updated_at o)), (persisted_content_changed n o);
    cbn; naive_solver.
Qed.

Lemma elem_of_modified (old new : list T) r :
  unique old ->
  r ∈ diff_modified old new <->
  r ∈ new /\ exists o, o ∈ old /\ resource_key o = resource_key r /\ ~ unchanged o r.
Proof.
  intros Hu. unfold diff_modified. rewrite list_elem_of_filter. unfold is_modified.
  destruct (by_key old !! resource_key r) as [o|] eqn:E.
  - apply by_key_lookup in E as [Ho Ek]; [|done]. rewrite unchanged_dec_spec. split.
    + intros [Hc Hr]. eauto 6.
    + intros (Hr & o' & Ho' & Ek' & Hc). split; [|done].
      by rewrite (unique_same_key old o o') by congruence.
  - split; [by intros [? _]|]. intros (_ & o & Ho & Ek & _).
    assert (E' : by_key old !! resource_key r = Some o) by (by apply by_key_lookup). congruence.
Qed.

(** Every resource of the new snapshot is added, modified or unchanged. *)
Lemma diff_cases (old new : list T) r :
  unique old -> r ∈ new ->
  r ∈ diff_added old new \/ r ∈ diff_modified old new
  \/ exists o, o ∈ old /\ resource_key o = resource_key r /\ unchanged o r.
Proof.
  intros Hu Hr. rewrite elem_of_added, elem_of_modified by done.
  destruct (decide (resource_key r ∈ keys_of old)) as [Hk|]; [|by left]. right.
  apply elem_of_keys_of in Hk as (o & Ho & Ek).
  destruct (decide (negb (updated_at r =? updated_at o) || persisted_content_changed r o = true)) as [Hd|Hd].
  - left. apply unchanged_dec_spec in Hd. eauto 6.
  - right. exists o. split_and!; try done. rewrite not_true_iff_false, orb_false_iff, negb_false_iff, Z.eqb_eq in Hd.
    done.
Qed.
Lemma filter_unique (P : T -> Prop) `{forall x, Decision (P x)} (l : list T) :
  unique l -> unique (filter P l).
Proof.
  unfold unique. induction l as [|x l IH]; [done|]. rewrite filter_cons. cbn [map].
  intros [Hx Hl]%NoDup_cons. destruct (decide (P x)); [|by apply IH]. cbn [map]. apply NoDup_cons. split; [|by apply IH].
  rewrite list_elem_of_fmap. intros (y & E & [_ Hy]%list_elem_of_filter). apply Hx.
  rewrite E. apply list_elem_of_fmap. eauto.
Qed.

Lemma unique_app (l m : list T) :
  unique l -> unique m -> (forall a b, a ∈ l -> b ∈ m -> resource_key a <> resource_key b) -> unique (l ++ m).
Proof.
  intros Hl Hm Hd. unfold unique. rewrite map_app. apply NoDup_app. split_and!; try done.
  intros k (a & -> & Ha)%list_elem_of_fmap (b & E & Hb)%list_elem_of_fmap. by eapply Hd.
Qed.

Lemma elem_of_patched (old new : list T) r :
  unique old ->
  r ∈ apply_delta old (diff_added old new) (diff_removed_ids old new) (diff_modified old new) <->
  (r ∈ old /\ resource_key r ∈ keys_of new /\ resource_key r ∉ map resource_key (diff_modified old new))
  \/ r ∈ diff_modified old new \/ r ∈ diff_added old new.
Proof.
  intros Hu. unfold apply_delta. rewrite !elem_of_app, list_elem_of_filter, elem_of_removed.
  split; [|naive_solver]. intros [[[Hr Hm] Ho]|?]; [left|by right].
  split_and!; try done. destruct (decide (resource_key r ∈ keys_of new)); [done|].
  exfalso. apply Hr. split; [by apply key_in_keys_of|done].
Qed.

Lemma diff_patches (old new : list T) :
  unique old -> unique new ->
  stands_for old (apply_delta old (diff_added old new) (diff_removed_ids old new) (diff_modified old new)) new.
Proof.
  intros Ho Hn.
  assert (Hmn : forall r, r ∈ diff_modified old new -> r ∈ new) by (intros r Hr; by apply elem_of_modified in Hr as [? _]).
  assert (Han : forall r, r ∈ diff_added old new -> r ∈ new) by (intros r Hr; by apply elem_of_added in Hr as [_ ?]).
  split; [|split].
  - apply unique_app; [by apply filter_unique| |].
    + apply unique_app; [by apply filter_unique..|]. intros a b Ha Hb E.
      apply elem_of_modified in Ha as (_ & o & Hoo & Ek & _); [|done]. apply elem_of_added in Hb as [Hb _].
      apply Hb. apply elem_of_keys_of. exists o. split; [done|congruence].
    + intros a b [[_ Hm] Ha]%list_elem_of_filter [Hb|Hb]%elem_of_app E.
      * apply Hm. rewrite E. apply list_elem_of_fmap. eauto.
      * apply elem_of_added in Hb as [Hb _]. apply Hb. rewrite <- E. by apply key_in_keys_of.
  - apply set_eq. intros k. rewrite elem_of_keys_of. split.
    + intros (r & Hr & <-). apply elem_of_patched in Hr as [(_ & Hk & _)|[Hr|Hr]]; [done| | |done];
        apply key_in_keys_of; auto.
    + intros (r & Hr & <-)%elem_of_keys_of.
      destruct (diff_cases old new r Ho Hr) as [Ha|[Hm|(o & Hoo & Ek & Hc)]].
      * exists r. split; [|done]. apply elem_of_patched; auto.
      * exists r. split; [|done]. apply elem_of_patched; auto.
      * exists o. split; [|done]. apply elem_of_patched; [done|]. left. rewrite Ek.
        split_and!; [done|by apply key_in_keys_of|].
        intros (r' & Ek' & Hr')%list_elem_of_fmap. pose proof (Hmn r' Hr') as Hrn.
        rewrite (unique_same_key new r r' Hn Hr Hrn Ek') in *.
        apply elem_of_modified in Hr' as (_ & o' & Ho' & Eo & Hbad); [|done].
        by rewrite (unique_same_key old o o' Ho Hoo Ho') in Hc by congruence.
  - intros a b Ha Hb E. apply elem_of_patched in Ha as [(Hao & _ & Hm)|[Ha|Ha]]; [|left|left|done].
    + right. split; [done|]. destruct (diff_cases old new b Ho Hb) as [Hadd|[Hmod|(o & Hoo & Ek & Hc)]].
      * apply elem_of_added in Hadd as [Hadd _]. exfalso. apply Hadd. rewrite <- E. by apply key_in_keys_of.
      * exfalso. apply Hm. rewrite E. apply list_elem_of_fmap. eauto.
      * by rewrite (unique_same_key old a o) by congruence.
    + apply (unique_same_key new); auto.
    + apply (unique_same_key new); auto.
Qed.

(** Nothing to report: the same keys, each resource unchanged. *)
Definition same_snapshot (old new : list T) : Prop :=
  keys_of old = keys_of new
  /\ forall o n, o ∈ old -> n ∈ new -> resource_key o = resource_key n -> unchanged o n.

Lemma elem_of_nil_iff {A} (l : list A) : l = [] <-> forall x, x ∉ l.
Proof.
  split; [intros -> x; apply not_elem_of_nil|]. destruct l as [|x l]; [done|].
  intros Hn. exfalso. apply (Hn x). left.
Qed.

Lemma diff_empty (old new : list T) :
  unique old ->
  diff_added old new = [] /\ diff_removed_ids old new = [] /\ diff_modified old new = []
  <-> same_snapshot old new.
Proof.
  intros Hu. rewrite !elem_of_nil_iff. setoid_rewrite elem_of_added. setoid_rewrite elem_of_removed.
  setoid_rewrite elem_of_modified; [|done..]. split.
  - intros (Ha & Hr & Hm). split.
    + apply set_eq. intros k. split; intros Hk.
      * destruct (decide (k ∈ keys_of new)); [done|]. by destruct (Hr k).
      * destruct (decide (k ∈ keys_of old)); [done|]. apply elem_of_keys_of in Hk as (r & Hr' & <-).
        by destruct (Ha r).
    + intros o n Hoo Hnn E.
      destruct (diff_cases old new n Hu Hnn) as [Hx|[Hx|(o' & Ho' & Ek & Hc)]].
      * apply elem_of_added in Hx. by destruct (Ha n).
      * apply elem_of_modified in Hx; [|done]. by destruct (Hm n).
      * by rewrite (unique_same_key old o o') by congruence.
  - intros [Hk Hc]. split_and!.
    + intros r [Hn Hr]. apply Hn. rewrite Hk. by apply key_in_keys_of.
    + intros k [? ?]. congruence.
    + intros r (Hr & o & Hoo & Ek & Hn). apply Hn. by apply Hc.
Qed.
End DiffLemmas.

(** [timestamp_neutral_content_changed]. *)
Definition timestamp_neutral_content_changed {T J} `{EqDecision J} (to_value : T -> option J)
    (old new : T) (neutralize_timestamps : T -> T) : bool :=
  match to_value (neutralize_timestamps old), to_value (neutralize_timestamps new) with
  | Some old_value, Some new_value => negb (bool_decide (old_value = new_value))
  | _, _ => true
  end.

(** The order of [str]: bytewise lexicographic. *)
Fixpoint str_leb (a b : bytes) : bool :=
  match a, b with
  | [], _ => true
  | _ :: _, [] => false
  | x :: a, y :: b => (x <? y) || ((x =? y) && str_leb a b)
  end.
Definition str_le (a b : bytes) : Prop := str_leb a b = true.

#[global] Instance str_le_dec a b : Decision (str_le a b).
Proof. unfold str_le. apply _. Defined.

Definition sort_unstable (l : list bytes) : list bytes := merge_sort str_le l.

(** ** Sorting associations *)

Lemma str_leb_refl a : str_leb a a = true.
Proof. induction a as [|x a IH]; cbn; [done|]. rewrite Z.eqb_refl, IH. lia. Qed.

#[global] Instance str_le_trans : Transitive str_le.
Proof.
  unfold str_le. intros a. induction a as [|x a IH]; intros [|y b] [|z c]; cbn; try done.
  intros H1 H2. specialize (IH b c). destruct (str_leb a b), (str_leb b c);
    try rewrite IH by done; lia.
Qed.

#[global] Instance str_le_antisymm : AntiSymm (=) str_le.
Proof.
  unfold str_le. intros a. induction a as [|x a IH]; intros [|y b]; cbn; try done.
  intros H1 H2. assert (x = y) as -> by lia. rewrite Z.ltb_irrefl, Z.eqb_refl in H1, H2.
  f_equal. by apply IH.
Qed.

#[global] Instance str_le_total : Total str_le.
Proof.
  unfold str_le. intros a. induction a as [|x a IH]; intros [|y b]; cbn; auto.
  destruct (Z.lt_trichotomy x y) as [?|[->|?]]; [left; lia| |right; lia].
  rewrite Z.ltb_irrefl, Z.eqb_refl. apply IH.
Qed.

Lemma sort_unstable_eq l m : sort_unstable l = sort_unstable m <-> l ≡ₚ m.
Proof.
  unfold sort_unstable. split.
  - intros E. by rewrite <- (merge_sort_Permutation str_le l), E, merge_sort_Permutation.
  - intros E. apply (Sorted_unique str_le); [apply Sorted_merge_sort; apply _..|].
    by rewrite !merge_sort_Permutation.
Qed.

(** ** Resources and the delta *)

Section Delta.
Context {Body J : Type} `{EqDecision J}.

Record Proxy := MkProxy {
  proxy_namespace : bytes; proxy_id : bytes;
  dispatch_kind : DispatchKind; listen_path : option bytes; hosts : list bytes;
  plugins : list bytes;
  proxy_body : Body; proxy_created_at : Z; proxy_updated_at : Z }.

Record Consumer := MkConsumer {
  consumer_namespace : bytes; consumer_id : bytes; consumer_body : Body;
  consumer_created_at : Z; consumer_updated_at : Z }.

Record PluginConfig := MkPlugin {
  plugin_namespace : bytes; plugin_id : bytes; scope : PluginScope; target_proxy : option bytes;
  plugin_body : Body; plugin_created_at : Z; plugin_updated_at : Z }.

Record Upstream := MkUpstream {
  upstream_namespace : bytes; upstream_id : bytes; upstream_body : Body;
  upstream_created_at : Z; upstream_updated_at : Z }.

Variable proxy_to_value : Proxy -> option J.
Variable consumer_to_value : Consumer -> option J.
Variable plugin_to_value : PluginConfig -> option J.

Definition neutral_proxy (p : Proxy) : Proxy :=
  MkProxy (proxy_namespace p) (proxy_id p) (dispatch_kind p) (listen_path p) (hosts p) []
    (proxy_body p) UNIX_EPOCH UNIX_EPOCH.
Definition neutral_consumer (c : Consumer) : Consumer :=
  MkConsumer (consumer_namespace c) (consumer_id c) (consumer_body c) UNIX_EPOCH UNIX_EPOCH.
Definition neutral_plugin (p : PluginConfig) : PluginConfig :=
  MkPlugin (plugin_namespace p) (plugin_id p) (scope p) (target_proxy p) (plugin_body p)
    UNIX_EPOCH UNIX_EPOCH.

#[local] Instance proxy_resource : HasNamespacedIdAndTimestamp Proxy := {
  resource_key p := (proxy_namespace p, proxy_id p);
  updated_at := proxy_updated_at;
  persisted_content_changed self other :=
    if negb (is_stream (dispatch_kind self)) && negb (is_stream (dispatch_kind other)) then false
    else timestamp_neutral_content_changed proxy_to_value other self neutral_proxy;
}.

#[local] Instance consumer_resource : HasNamespacedIdAndTimestamp Consumer := {
  resource_key c := (consumer_namespace c, consumer_id c);
  updated_at := consumer_updated_at;
  persisted_content_changed self other :=
    timestamp_neutral_content_changed consumer_to_value other self neutral_consumer;
}.

#[local] Instance plugin_resource : HasNamespacedIdAndTimestamp PluginConfig := {
  resource_key p := (plugin_namespace p, plugin_id p);
  updated_at := plugin_updated_at;
  persisted_content_changed self other :=
    timestamp_neutral_content_changed plugin_to_value other self neutral_plugin;
}.

#[local] Instance upstream_resource : HasNamespacedIdAndTimestamp Upstream := {
  resource_key u := (upstream_namespace u, upstream_id u);
  updated_at := upstream_updated_at;
  persisted_content_changed _ _ := false;
}.

Record GatewayConfig := Config {
  proxies : list Proxy; consumers : list Consumer;
  plugin_configs : list PluginConfig; upstreams : list Upstream }.

Definition same_plugin_associations (left right : Proxy) : bool :=
  if negb (length (plugins left) =? length (plugins right))%nat then false
  else bool_decide (sort_unstable (plugins left) = sort_unstable (plugins right)).

Definition association_changed (old_by_key : gmap key Proxy) (p : Proxy) : bool :=
  match old_by_key !! resource_key p with
  | Some old_proxy => negb (same_plugin_associations old_proxy p)
  | None => false
  end.

Definition diff_plugin_association_changes (old new : list Proxy) : list key :=
  let old_by_key := by_key old in
  map resource_key (filter (fun p => association_changed old_by_key p = true) new).

Record ConfigDelta := Delta {
  added_proxies : list Proxy; removed_proxy_ids : list key; modified_proxies : list Proxy;
  added_consumers : list Consumer; removed_consumer_ids : list key; modified_consumers : list Consumer;
  added_plugin_configs : list PluginConfig; removed_plugin_config_ids : list key;
  modified_plugin_configs : list PluginConfig;
  plugin_association_changed_proxy_ids : list key;
  global_plugin_configs_changed : bool;
  added_upstreams : list Upstream; removed_upstream_ids : list key; modified_upstreams : list Upstream }.

Definition is_global (pc : PluginConfig) : bool := bool_decide (scope pc = Global).

Definition compute (old new : GatewayConfig) : ConfigDelta :=
  let added_pc := diff_added (plugin_configs old) (plugin_configs new) in
  let removed_pc := diff_removed_ids (plugin_configs old) (plugin_configs new) in
  let modified_pc := diff_modified (plugin_configs old) (plugin_configs new) in
  let assoc := diff_plugin_association_changes (proxies old) (proxies new) in
  let old_global_plugin_keys :=
    keys_of (filter (fun pc => is_global pc = true) (plugin_configs old)) in
  let globals_changed :=
    existsb is_global added_pc
    || existsb (fun pc => is_global pc || bool_decide (resource_key pc ∈ old_global_plugin_keys)) modified_pc
    || existsb (fun k => bool_decide (k ∈ old_global_plugin_keys)) removed_pc in
  Delta (diff_added (proxies old) (proxies new)) (diff_removed_ids (proxies old) (proxies new))
    (diff_modified (proxies old) (proxies new))
    (diff_added (consumers old) (consumers new)) (diff_removed_ids (consumers old) (consumers new))
    (diff_modified (consumers old) (consumers new))
    added_pc removed_pc modified_pc assoc globals_changed
    (diff_added (upstreams old) (upstreams new)) (diff_removed_ids (upstreams old) (upstreams new))
    (diff_modified (upstreams old) (upstreams new)).

Definition no_items {A} (l : list A) : bool := match l with [] => true | _ => false end.

Definition is_empty (d : ConfigDelta) : bool :=
  no_items (added_proxies d) && no_items (removed_proxy_ids d) && no_items (modified_proxies d)
  && no_items (added_consumers d) && no_items (removed_consumer_ids d) && no_items (modified_consumers d)
  && no_items (added_plugin_configs d) && no_items (removed_plugin_config_ids d)
  && no_items (modified_plugin_configs d) && no_items (plugin_association_changed_proxy_ids d)
  && negb (global_plugin_configs_changed d)
  && no_items (added_upstreams d) && no_items (removed_upstream_ids d) && no_items (modified_upstreams d).

(** The (namespace, proxy id) a plugin configuration names directly. *)
Definition direct_target (pc : PluginConfig) : option key :=
  (fun p => (plugin_namespace pc, p)) <$> target_proxy pc.

Definition references (changed : gset key) (p : Proxy) : bool :=
  existsb (fun assoc => bool_decide ((proxy_namespace p, assoc) ∈ changed)) (plugins p).

Definition proxy_ids_needing_plugin_rebuild (d : ConfigDelta) (old_config new_config : GatewayConfig)
  : gset key :=
  let ids : gset key := keys_of (added_proxies d) ∪ keys_of (modified_proxies d)
             ∪ list_to_set (plugin_association_changed_proxy_ids d) in
  if negb (no_items (added_plugin_configs d)) || negb (no_items (removed_plugin_config_ids d))
     || negb (no_items (modified_plugin_configs d)) then
    let changed_pc_keys : gset key := keys_of (added_plugin_configs d)
      ∪ list_to_set (removed_plugin_config_ids d) ∪ keys_of (modified_plugin_configs d) in
    let old_changed_proxy_scoped : gset key := list_to_set (omap direct_target
      (filter (fun pc => resource_key pc ∈ changed_pc_keys) (plugin_configs old_config))) in
    let new_changed_proxy_scoped : gset key := list_to_set (omap direct_target
      (added_plugin_configs d ++ modified_plugin_configs d)) in
    let old_proxies_by_key := by_key (proxies old_config) in
    let needs (p : Proxy) : bool :=
      (references changed_pc_keys p
       || match old_proxies_by_key !! resource_key p with
          | Some old_proxy => references changed_pc_keys old_proxy
          | None => false
          end)
      || bool_decide (resource_key p ∈ old_changed_proxy_scoped)
      || bool_decide (resource_key p ∈ new_changed_proxy_scoped) in
    let ids := ids ∪ keys_of (filter (fun p => needs p = true) (proxies new_config)) in
    if global_plugin_configs_changed d || negb (no_items (removed_plugin_config_ids d))
    then ids ∪ keys_of (proxies new_config)
    else ids
  else ids.

Record AffectedRoutes := Routes { listen_paths : list bytes; host_only_hosts : list bytes }.

Definition record_route (r : AffectedRoutes) (p : Proxy) : AffectedRoutes :=
  if is_stream (dispatch_kind p) then r
  else match listen_path p with
       | Some path => Routes (listen_paths r ++ [path]) (host_only_hosts r)
       | None => Routes (listen_paths r) (host_only_hosts r ++ hosts p)
       end.

Definition affected_routes (d : ConfigDelta) (old_config : GatewayConfig) : AffectedRoutes :=
  let r := foldl record_route (Routes [] []) (added_proxies d) in
  let old_proxy_map := by_key (proxies old_config) in
  let r := foldl (fun r k => match old_proxy_map !! k with Some p => record_route r p | None => r end)
             r (removed_proxy_ids d) in
  foldl (fun r p =>
    let r := record_route r p in
    match old_proxy_map !! resource_key p with
    | Some old_proxy =>
      let routing_changed :=
        negb (Bool.eqb (is_stream (dispatch_kind old_proxy)) (is_stream (dispatch_kind p)))
        || negb (bool_decide (listen_path old_proxy = listen_path p))
        || negb (bool_decide (hosts old_proxy = hosts p)) in
      if routing_changed then record_route r old_proxy else r
    | None => r
    end) r (modified_proxies d).

(** [scoped_plugin_config_applies_to_proxy] of the plugin cache. *)
Definition scoped_plugin_config_applies_to_proxy (pc : PluginConfig) (p : Proxy) : bool :=
  if negb (bool_decide (plugin_namespace pc = proxy_namespace p)) then false
  else match scope pc with
       | Global => false
       | ProxyScoped =>
         bool_decide (target_proxy pc = Some (proxy_id p)) && bool_decide (plugin_id pc ∈ plugins p)
       | ProxyGroup => bool_decide (plugin_id pc ∈ plugins p)
       end.

(** ** The delta as a whole *)

Definition unique_config (c : GatewayConfig) : Prop :=
  unique (proxies c) /\ unique (consumers c) /\ unique (plugin_configs c) /\ unique (upstreams c).

Lemma same_plugin_associations_spec l r :
  same_plugin_associations l r = true <-> plugins l ≡ₚ plugins r.
Proof.
  unfold same_plugin_associations. destruct (Nat.eqb_spec (length (plugins l)) (length (plugins r))) as [E|E]; cbn.
  - by rewrite bool_decide_eq_true, sort_unstable_eq.
  - split; [done|]. intros Hp. by apply Permutation_length in Hp.
Qed.

Lemma association_changes_spec old new k :
  unique old ->
  k ∈ diff_plugin_association_changes old new <->
  exists o n, o ∈ old /\ n ∈ new /\ resource_key o = k /\ resource_key n = k /\ ~ plugins o ≡ₚ plugins n.
Proof.
  intros Hu. unfold diff_plugin_association_changes. rewrite list_elem_of_fmap. split.
  - intros (n & -> & [Hc Hn]%list_elem_of_filter). unfold association_changed in Hc.
    destruct (by_key old !! resource_key n) as [o|] eqn:E; [|done].
    apply by_key_lookup in E as [Ho Ek]; [|done]. exists o, n. split_and!; try done.
    rewrite <- same_plugin_associations_spec. by destruct (same_plugin_associations o n).
  - intros (o & n & Ho & Hn & Eo & En & Hp). exists n. split; [done|]. apply list_elem_of_filter. split; [|done].
    unfold association_changed. rewrite (proj2 (by_key_lookup old (resource_key n) o Hu)) by (split; congruence).
    rewrite <- same_plugin_associations_spec in Hp. by destruct (same_plugin_associations o n).
Qed.

Lemma no_items_spec {A} (l : list A) : no_items l = true <-> l = [].
Proof. by destruct l. Qed.

(** The delta is a patch: applied to the old snapshot, for each of the four
    resource kinds, it yields a snapshot with the keys of the new one, each
    resource being the new one or an old one that did not change; and the
    proxies it reports for changed associations are exactly those whose plugin
    lists differ as multisets. *)
Theorem delta_patches_snapshot old new :
  unique_config old -> unique_config new ->
  let d := compute old new in
  stands_for (proxies old)
    (apply_delta (proxies old) (added_proxies d) (removed_proxy_ids d) (modified_proxies d)) (proxies new)
  /\ stands_for (consumers old)
    (apply_delta (consumers old) (added_consumers d) (removed_consumer_ids d) (modified_consumers d))
    (consumers new)
  /\ stands_for (plugin_configs old)
    (apply_delta (plugin_configs old) (added_plugin_configs d) (removed_plugin_config_ids d)
       (modified_plugin_configs d)) (plugin_configs new)
  /\ stands_for (upstreams old)
    (apply_delta (upstreams old) (added_upstreams d) (removed_upstream_ids d) (modified_upstreams d))
    (upstreams new)
  /\ forall k, k ∈ plugin_association_changed_proxy_ids d <->
     exists o n, o ∈ proxies old /\ n ∈ proxies new /\ resource_key o = k /\ resource_key n = k
       /\ ~ plugins o ≡ₚ plugins n.
Proof.
  intros (Ho1 & Ho2 & Ho3 & Ho4) (Hn1 & Hn2 & Hn3 & Hn4) d. subst d. cbn.
  split_and!; try by apply diff_patches. intros k. by apply association_changes_spec.
Qed.

(** A reload is skipped exactly when nothing changed: the delta is empty if
    and only if both snapshots have the same keys, every resource is unchanged
    and every proxy keeps its plugin associations. *)
Theorem delta_empty_exact old new :
  unique_config old ->
  is_empty (compute old new) = true <->
  same_snapshot (proxies old) (proxies new) /\ same_snapshot (consumers old) (consumers new)
  /\ same_snapshot (plugin_configs old) (plugin_configs new)
  /\ same_snapshot (upstreams old) (upstreams new)
  /\ forall o n, o ∈ proxies old -> n ∈ proxies new -> resource_key o = resource_key n ->
     plugins o ≡ₚ plugins n.
Proof.
  intros (Ho1 & Ho2 & Ho3 & Ho4). rewrite <- !diff_empty by done.
  assert (Ha : diff_plugin_association_changes (proxies old) (proxies new) = [] <->
    forall o n, o ∈ proxies old -> n ∈ proxies new -> resource_key o = resource_key n ->
      plugins o ≡ₚ plugins n).
  { rewrite elem_of_nil_iff. split.
    - intros Hn o n Ho Hnn E. destruct (decide (plugins o ≡ₚ plugins n)) as [|Hp]; [done|]. exfalso.
      apply (Hn (resource_key n)). apply association_changes_spec; [done|]. by exists o, n.
    - intros Hp k Hk. apply association_changes_spec in Hk as (o & n & Ho & Hn & Eo & En & Hx); [|done].
      apply Hx. apply Hp; congruence. }
  rewrite <- Ha. unfold is_empty. cbn. rewrite !andb_true_iff, !no_items_spec, negb_true_iff.
  split; [tauto|]. intros ((-> & -> & ->) & (-> & -> & ->) & (-> & -> & ->) & (-> & -> & ->) & ->).
  by cbn.
Qed.

(** ** Plugin rebuilds *)

(** A configuration applies to a proxy as a global one or by its scope. *)
Definition plugin_applies (pc : PluginConfig) (p : Proxy) : bool :=
  is_global pc || scoped_plugin_config_applies_to_proxy pc p.

Definition changed_plugins (old new : GatewayConfig) : gset key :=
  let d := compute old new in
  keys_of (added_plugin_configs d) ∪ list_to_set (removed_plugin_config_ids d)
  ∪ keys_of (modified_plugin_configs d).

Lemma changed_plugins_in old new pc :
  pc ∈ added_plugin_configs (compute old new) \/ pc ∈ modified_plugin_configs (compute old new) ->
  resource_key pc ∈ changed_plugins old new.
Proof.
  unfold changed_plugins. rewrite !elem_of_union.
  intros [Hx|Hx]; apply key_in_keys_of in Hx; tauto.
Qed.

(** What it means for a proxy to be left alone. *)
Lemma not_rebuilt old new p :
  let d := compute old new in
  p ∈ proxies new ->
  resource_key p ∉ proxy_ids_needing_plugin_rebuild d old new ->
  p ∉ added_proxies d /\ p ∉ modified_proxies d
  /\ resource_key p ∉ plugin_association_changed_proxy_ids d
  /\ removed_plugin_config_ids d = [] /\ global_plugin_configs_changed d = false
  /\ references (changed_plugins old new) p = false
  /\ forall p0, by_key (proxies old) !! resource_key p = Some p0 ->
     references (changed_plugins old new) p0 = false.
Proof.
  intros d Hp. unfold proxy_ids_needing_plugin_rebuild. fold d.
  assert (Hnone : forall q, references ∅ q = false).
  { intros q. unfold references. induction (plugins q) as [|a l IH]; [done|]. cbn.
    by rewrite bool_decide_eq_false_2, IH by set_solver. }
  cbv zeta. destruct (_ || _) eqn:Eany; intros Hids.
  - destruct (global_plugin_configs_changed d || negb (no_items (removed_plugin_config_ids d))) eqn:Eg.
    { exfalso. apply Hids. apply elem_of_union_r. by apply key_in_keys_of. }
    apply orb_false_iff in Eg as [Eg Er]. apply negb_false_iff, no_items_spec in Er.
    rewrite !not_elem_of_union in Hids. destruct Hids as [[[Ha Hm] Hc] Hneeds].
    match type of Hneeds with context [filter (fun q => @?f q = true) _] => assert (Hf : f p = false) end.
    { apply not_true_iff_false. intros Hf. apply Hneeds. apply key_in_keys_of. by apply list_elem_of_filter. }
    cbn beta in Hf. rewrite !orb_false_iff in Hf. destruct Hf as [[[Hf1 Hf2] _] _].
    change (keys_of _ ∪ list_to_set _ ∪ keys_of _) with (changed_plugins old new) in Hf1, Hf2.
    split_and!; try done.
    + intros Hx. apply Ha. by apply key_in_keys_of.
    + intros Hx. apply Hm. by apply key_in_keys_of.
    + by rewrite elem_of_list_to_set in Hc.
    + intros p0 E. by rewrite E in Hf2.
  - rewrite !orb_false_iff, !negb_false_iff, !no_items_spec in Eany. destruct Eany as [[E1 E2] E3].
    rewrite !not_elem_of_union in Hids. destruct Hids as [[Ha Hm] Hc].
    assert (Hch : changed_plugins old new = ∅).
    { unfold changed_plugins. fold d. by rewrite E1, E2, E3. }
    split_and!; try done.
    + intros Hx. apply Ha. by apply key_in_keys_of.
    + intros Hx. apply Hm. by apply key_in_keys_of.
    + by rewrite elem_of_list_to_set in Hc.
    + unfold d, compute in *. cbn in *. by rewrite E1, E2, E3.
    + by rewrite Hch.
    + intros p0 _. by rewrite Hch.
Qed.

Lemma references_spec C p :
  references C p = false <-> forall a, a ∈ plugins p -> (proxy_namespace p, a) ∉ C.
Proof.
  unfold references. rewrite <- not_true_iff_false, existsb_exists. split.
  - intros Hn a Ha Hin. apply Hn. exists a. split; [by apply list_elem_of_In|by apply bool_decide_eq_true].
  - intros Hn (a & Ha & Hin%bool_decide_eq_true). apply (Hn a); [by apply list_elem_of_In|done].
Qed.

(** A scoped configuration that applies is one of the proxy's associations. *)
Lemma scoped_applies_associated pc p :
  scoped_plugin_config_applies_to_proxy pc p = true ->
  plugin_namespace pc = proxy_namespace p /\ plugin_id pc ∈ plugins p.
Proof.
  unfold scoped_plugin_config_applies_to_proxy.
  destruct (bool_decide_reflect (plugin_namespace pc = proxy_namespace p)); [|done]. cbn.
  destruct (scope pc); [done| |]; rewrite ?andb_true_iff, !bool_decide_eq_true; tauto.
Qed.

Lemma plugin_applies_congr pc pc0 p p0 :
  resource_key pc0 = resource_key pc -> resource_key p0 = resource_key p ->
  scope pc0 = scope pc -> target_proxy pc0 = target_proxy pc -> plugins p0 ≡ₚ plugins p ->
  plugin_applies pc0 p0 = plugin_applies pc p.
Proof.
  cbn. intros [= En Ei] [= Fn Fi] Es Et Hp.
  unfold plugin_applies, is_global, scoped_plugin_config_applies_to_proxy.
  rewrite Es, Et, En, Ei, Fn, Fi.
  assert (E : bool_decide (plugin_id pc ∈ plugins p0) = bool_decide (plugin_id pc ∈ plugins p))
    by (apply bool_decide_ext; by rewrite Hp).
  by rewrite E.
Qed.

(** A changed configuration that applied, or applies, to a proxy left alone. *)
Lemma changed_global old new pc :
  unique (plugin_configs old) -> is_global pc = true ->
  global_plugin_configs_changed (compute old new) = false ->
  (pc ∈ added_plugin_configs (compute old new) -> False)
  /\ (pc ∈ modified_plugin_configs (compute old new) -> False)
  /\ (pc ∈ plugin_configs old -> forall n, n ∈ modified_plugin_configs (compute old new) ->
      resource_key n <> resource_key pc).
Proof.
  intros Hu Hg Hc. cbn [compute global_plugin_configs_changed] in Hc. rewrite !orb_false_iff in Hc. destruct Hc as [[H1 H2] _].
  assert (Hex : forall {A} (f : A -> bool) l x, existsb f l = false -> x ∈ l -> f x = false).
  { intros A f l x Hf Hx. apply not_true_iff_false. intros Ht. apply not_true_iff_false in Hf. apply Hf.
    apply existsb_exists. exists x. split; [by apply list_elem_of_In|done]. }
  split_and!.
  - intros Hx. apply (Hex _ _ _ _ H1) in Hx. congruence.
  - intros Hx. apply (Hex _ _ _ _ H2) in Hx. apply orb_false_iff in Hx as [? _]. congruence.
  - intros Ho n Hn E. apply (Hex _ _ _ _ H2) in Hn. apply orb_false_iff in Hn as [_ Hn].
    apply bool_decide_eq_false in Hn. apply Hn. rewrite E. apply key_in_keys_of.
    by apply list_elem_of_filter.
Qed.

(** ** Affected routes *)

Definition routes_le (r r' : AffectedRoutes) : Prop :=
  listen_paths r ⊆ listen_paths r' /\ host_only_hosts r ⊆ host_only_hosts r'.

#[local] Instance routes_le_preorder : PreOrder routes_le.
Proof. split; [by split|]. intros a b c [? ?] [? ?]. split; by etransitivity. Qed.

(** Every routing identity of the proxy is listed. *)
Definition lists_routes (r : AffectedRoutes) (p : Proxy) : Prop :=
  is_stream (dispatch_kind p) = false ->
  match listen_path p with
  | Some path => path ∈ listen_paths r
  | None => hosts p ⊆ host_only_hosts r
  end.

Lemma lists_routes_mono r r' p : routes_le r r' -> lists_routes r p -> lists_routes r' p.
Proof.
  intros [H1 H2] Hl Hs. specialize (Hl Hs). destruct (listen_path p); [by apply H1|by etransitivity].
Qed.

Lemma record_route_spec r p : routes_le r (record_route r p) /\ lists_routes (record_route r p) p.
Proof.
  unfold record_route, lists_routes, routes_le. destruct (is_stream (dispatch_kind p)); [done|].
  destruct (listen_path p) as [path|]; cbn; split_and!; try (intros x Hx; apply elem_of_app; by left); try done.
  - intros _. apply elem_of_app. right. left.
  - intros _ x Hx. apply elem_of_app. by right.
Qed.

(** A fold whose steps only add, and add the routes of their element. *)
Lemma foldl_routes {A} (f : AffectedRoutes -> A -> AffectedRoutes) (Q : AffectedRoutes -> A -> Prop) l :
  (forall r x, routes_le r (f r x) /\ Q (f r x) x) ->
  (forall r r' x, routes_le r r' -> Q r x -> Q r' x) ->
  forall r, routes_le r (foldl f r l) /\ forall x, x ∈ l -> Q (foldl f r l) x.
Proof.
  intros Hf Hm. induction l as [|x l IH]; intros r; cbn; [split; [done|by intros x Hx%not_elem_of_nil]|].
  destruct (IH (f r x)) as [Hle Hq]. destruct (Hf r x) as [Hr Hx]. split; [by etransitivity|].
  intros y [->|Hy]%elem_of_cons; [by eapply Hm|by apply Hq].
Qed.

(** The routes reported as affected cover every change: all identities
    (path, or hosts of a host-only route) of each added, removed and modified
    proxy are listed, for a modified one those it had as well as those it has. *)
Theorem affected_routes_complete old new :
  unique (proxies old) ->
  let d := compute old new in
  let r := affected_routes d old in
  (forall p, p ∈ added_proxies d -> lists_routes r p)
  /\ (forall o, o ∈ proxies old -> resource_key o ∈ removed_proxy_ids d -> lists_routes r o)
  /\ (forall p, p ∈ modified_proxies d -> lists_routes r p
      /\ forall o, o ∈ proxies old -> resource_key o = resource_key p -> lists_routes r o).
Proof.
  intros Hu d. unfold affected_routes. set (m := by_key (proxies old)). cbv zeta.
  destruct (foldl_routes record_route lists_routes (added_proxies d) record_route_spec lists_routes_mono
              (Routes [] [])) as [_ H1].
  set (r1 := foldl record_route _ _) in *.
  match goal with |- context [foldl ?f r1 (removed_proxy_ids d)] =>
    destruct (foldl_routes f (fun r k => forall o, m !! k = Some o -> lists_routes r o) (removed_proxy_ids d))
      with (r := r1) as [Hle2 H2]; [| |set (r2 := foldl f r1 _) in *] end.
  { intros r k. destruct (m !! k) as [o|]; [|done]. destruct (record_route_spec r o) as [? ?].
    split; [done|]. by intros o' [= <-]. }
  { intros r r' k Hle Hq o E. eapply lists_routes_mono; eauto. }
  match goal with |- context [foldl ?f r2 (modified_proxies d)] =>
    destruct (foldl_routes f (fun r p => lists_routes r p /\
      forall o, m !! resource_key p = Some o -> lists_routes r o) (modified_proxies d))
      with (r := r2) as [Hle3 H3]; [| |set (r3 := foldl f r2 _) in *] end.
  { intros r p. destruct (record_route_spec r p) as [Hr Hp]. destruct (m !! resource_key p) as [o|]; [|done].
    destruct (record_route_spec (record_route r p) o) as [Hr' Ho]. destruct (_ || _) eqn:Ec.
    - split; [by etransitivity|]. split; [by eapply lists_routes_mono|]. by intros o' [= <-].
    - split; [done|]. split; [done|]. intros o' [= <-].
      rewrite !orb_false_iff, !negb_false_iff, !bool_decide_eq_true in Ec. destruct Ec as [[Es El] Eh].
      apply eqb_prop in Es. unfold lists_routes in *. by rewrite Es, El, Eh. }
  { intros r r' p Hle [Hq1 Hq2]. split; [by eapply lists_routes_mono|]. intros o E. eapply lists_routes_mono; eauto. }
  split_and!.
  - intros p Hp. eapply lists_routes_mono; [|by apply H1]. by etransitivity.
  - intros o Ho Hk. eapply lists_routes_mono; [exact Hle3|]. apply (H2 _ Hk). by apply by_key_lookup.
  - intros p Hp. destruct (H3 p Hp) as [Hp1 Hp2]. split; [done|]. intros o Ho E. apply Hp2. by apply by_key_lookup.
Qed.

(** Serialisation shows the scope and the target of a plugin configuration. *)
Hypothesis plugin_value_fields : forall a b v,
  plugin_to_value a = Some v -> plugin_to_value b = Some v ->
  scope a = scope b /\ target_proxy a = target_proxy b.

Lemma unchanged_plugin_fields (o n : PluginConfig) :
  unchanged o n -> scope o = scope n /\ target_proxy o = target_proxy n.
Proof.
  intros [_ Hc]. cbn in Hc. unfold timestamp_neutral_content_changed in Hc.
  destruct (plugin_to_value (neutral_plugin o)) as [a|] eqn:Ea; [|done].
  destruct (plugin_to_value (neutral_plugin n)) as [b|] eqn:Eb; [|done].
  apply negb_false_iff, bool_decide_eq_true in Hc as ->.
  exact (plugin_value_fields _ _ _ Ea Eb).
Qed.

(** C12. Incremental plugin rebuilds miss nothing: a proxy of the new snapshot
    that is not reported existed unchanged with the same associations, and the
    plugin configurations that apply to it, global, scoped or through a group,
    are before and after the same, each unchanged. *)
Theorem plugin_rebuild_complete old new p :
  unique_config old -> unique_config new -> p ∈ proxies new ->
  resource_key p ∉ proxy_ids_needing_plugin_rebuild (compute old new) old new ->
  exists p0, p0 ∈ proxies old /\ resource_key p0 = resource_key p /\ unchanged p0 p
  /\ plugins p0 ≡ₚ plugins p
  /\ (forall pc, pc ∈ plugin_configs new -> plugin_applies pc p = true ->
      exists pc0, pc0 ∈ plugin_configs old /\ resource_key pc0 = resource_key pc /\ unchanged pc0 pc
        /\ plugin_applies pc0 p0 = true)
  /\ (forall pc0, pc0 ∈ plugin_configs old -> plugin_applies pc0 p0 = true ->
      exists pc, pc ∈ plugin_configs new /\ resource_key pc0 = resource_key pc /\ unchanged pc0 pc
        /\ plugin_applies pc p = true).
Proof.
  intros (Ho & _ & Hpo & _) (Hn & _ & Hpn & _) Hp Hids.
  destruct (not_rebuilt old new p Hp Hids) as (Hna & Hnm & Hnc & Hrem & Hglob & Href & Href0).
  destruct (diff_cases (proxies old) (proxies new) p Ho Hp) as [?|[?|(p0 & Hp0 & Ek & Hc)]]; [done..|].
  assert (Hperm : plugins p0 ≡ₚ plugins p).
  { destruct (decide (plugins p0 ≡ₚ plugins p)) as [|Hx]; [done|]. exfalso. apply Hnc.
    apply association_changes_spec; [done|]. by exists p0, p. }
  specialize (Href0 p0 (proj2 (by_key_lookup _ _ _ Ho) (conj Hp0 Ek))).
  rewrite references_spec in Href, Href0.
  exists p0. split_and!; try done.
  - intros pc Hpc Happ. assert (Hin : pc ∉ added_plugin_configs (compute old new)
      /\ pc ∉ modified_plugin_configs (compute old new)).
    { unfold plugin_applies in Happ. apply orb_true_iff in Happ as [Hg|Hs].
      - destruct (changed_global old new pc Hpo Hg Hglob) as (H1 & H2 & _). done.
      - apply scoped_applies_associated in Hs as [En Ei]. specialize (Href _ Ei).
        rewrite <- En in Href. change (resource_key pc ∉ changed_plugins old new) in Href.
        split; intros Hx; apply Href, changed_plugins_in; auto. }
    destruct Hin as [Hia Him].
    destruct (diff_cases _ _ pc Hpo Hpc) as [?|[?|(pc0 & Hpc0 & Epc & Hcc)]]; [done..|].
    exists pc0. split_and!; try done. destruct (unchanged_plugin_fields _ _ Hcc).
    by rewrite (plugin_applies_congr pc pc0 p p0).
  - intros pc0 Hpc0 Happ.
    assert (Hk : resource_key pc0 ∈ keys_of (plugin_configs new)).
    { destruct (decide (resource_key pc0 ∈ keys_of (plugin_configs new))) as [|Hx]; [done|]. exfalso.
      cbn in Hrem. apply (proj1 (elem_of_nil_iff _) Hrem (resource_key pc0)).
      apply elem_of_removed. split; [by apply key_in_keys_of|done]. }
    apply elem_of_keys_of in Hk as (pc & Hpc & Epc).
    destruct (diff_cases _ _ pc Hpo Hpc) as [Hx|[Hx|(o & Hoo & Eo & Hcc)]].
    + exfalso. apply elem_of_added in Hx as [Hx _]. apply Hx. rewrite Epc. by apply key_in_keys_of.
    + exfalso. unfold plugin_applies in Happ. apply orb_true_iff in Happ as [Hg|Hs].
      * destruct (changed_global old new pc0 Hpo Hg Hglob) as (_ & _ & H3). by apply (H3 Hpc0 pc).
      * apply scoped_applies_associated in Hs as [En Ei]. specialize (Href0 _ Ei).
        rewrite <- En in Href0. apply Href0. change (plugin_namespace pc0, plugin_id pc0) with (resource_key pc0).
        rewrite <- Epc. apply changed_plugins_in. by right.
    + rewrite (unique_same_key _ o pc0 Hpo Hoo Hpc0 ltac:(congruence)) in *.
      exists pc. split_and!; try done. destruct (unchanged_plugin_fields _ _ Hcc).
      by rewrite <- (plugin_applies_congr pc pc0 p p0).
Qed.
End Delta.

(** ** A worked example *)

Module DeltaExample.
Definition json := (PluginScope * option bytes * Z)%type.
Notation proxy := (Proxy (Body := Z)).
Notation config := (GatewayConfig (Body := Z)).
Definition pv (p : proxy) : option json := Some (Global, None, proxy_body p).
Definition cv (c : Consumer (Body := Z)) : option json := Some (Global, None, consumer_body c).
Definition kv (p : PluginConfig (Body := Z)) : option json := Some (scope p, target_proxy p, plugin_body p).

#[local] Instance proxies_keyed : HasNamespacedIdAndTimestamp proxy := proxy_resource pv.
#[local] Instance plugins_keyed : HasNamespacedIdAndTimestamp (PluginConfig (Body := Z)) := plugin_resource kv.

Definition quiet : proxy := MkProxy (bs "ns") (bs "a") HttpPool (Some (bs "/a")) [] [bs "k"] 0 1 1.
Definition moved (path : bytes) (t : Z) : proxy :=
  MkProxy (bs "ns") (bs "b") HttpPool (Some path) [] [bs "l"] 0 1 t.
Definition plug (i : bytes) (body t : Z) : PluginConfig := MkPlugin (bs "ns") i ProxyGroup None body 1 t.

(** [b] moves, plugin [l] changes its body under a reused timestamp. *)
Definition before : config := Config [quiet; moved (bs "/b") 1] [] [plug (bs "k") 0 1; plug (bs "l") 0 1] [].
Definition after : config := Config [quiet; moved (bs "/c") 2] [] [plug (bs "k") 0 1; plug (bs "l") 5 1] [].

Lemma before_unique : unique_config pv cv kv before.
Proof. split_and!; apply (bool_decide_unpack _); vm_compute; reflexivity. Qed.
Lemma after_unique : unique_config pv cv kv after.
Proof. split_and!; apply (bool_decide_unpack _); vm_compute; reflexivity. Qed.

Lemma delta_patches_snapshot_witness :
  let d := compute pv cv kv before after in
  modified_proxies d = [moved (bs "/c") 2] /\ modified_plugin_configs d = [plug (bs "l") 5 1]
  /\ stands_for (proxies before)
       (apply_delta (proxies before) (added_proxies d) (removed_proxy_ids d) (modified_proxies d))
       (proxies after).
Proof.
  split; [vm_compute; reflexivity|]. split; [vm_compute; reflexivity|].
  exact (proj1 (delta_patches_snapshot pv cv kv before after before_unique after_unique)).
Defined.

Lemma delta_empty_exact_witness :
  is_empty (compute pv cv kv before before) = true
  /\ same_snapshot (proxies before) (proxies before).
Proof.
  assert (E : is_empty (compute pv cv kv before before) = true) by (vm_compute; reflexivity).
  split; [exact E|].
  exact (proj1 (proj1 (delta_empty_exact pv cv kv before before before_unique) E)).
Defined.

Lemma affected_routes_complete_witness :
  lists_routes (affected_routes pv (compute pv cv kv before after) before) (moved (bs "/b") 1).
Proof.
  pose proof (affected_routes_complete pv cv kv before after (proj1 before_unique)) as H.
  destruct H as (_ & _ & H).
  assert (Hin : moved (bs "/c") 2 ∈ modified_proxies (compute pv cv kv before after)).
  { replace (modified_proxies (compute pv cv kv before after)) with [moved (bs "/c") 2]
      by (vm_compute; reflexivity). left. }
  apply (proj2 (H _ Hin)); [right; left|reflexivity].
Defined.

Lemma plugin_rebuild_complete_witness :
  proxy_ids_needing_plugin_rebuild pv kv (compute pv cv kv before after) before after
    = {[(bs "ns", bs "b")]}
  /\ exists p0, p0 ∈ proxies before /\ resource_key p0 = resource_key quiet /\ unchanged p0 quiet.
Proof.
  assert (E : proxy_ids_needing_plugin_rebuild pv kv (compute pv cv kv before after) before after
    = {[(bs "ns", bs "b")]}) by (vm_compute; reflexivity).
  split; [exact E|].
  destruct (plugin_rebuild_complete pv cv kv) with (old := before) (new := after) (p := quiet)
    as (p0 & H1 & H2 & H3 & _).
  - intros a b v [= <-] [= E1 E2 _]. done.
  - exact before_unique.
  - exact after_unique.
  - left.
  - rewrite E. by intros Hx%elem_of_singleton.
  - exists p0. auto.
Defined.
End DeltaExample.
