(* ===== verification/ConsumerIndex.v ===== *)
(** * Consumer index ([src/src/consumer_index.rs], [src/src/config/types.rs])

    The credential lookup tables and their incremental update. [build_inner]
    rebuilds every table from the consumer list; [apply_delta] patches them in
    place: it removes the credentials of deleted and modified consumers,
    restores the entries those had shadowed, and inserts the new ones. The
    theorem is that patching and rebuilding agree exactly, so no credential of a
    removed consumer survives a reload. An [Arc<Consumer>] is its consumer. *)

From S2P Require Import Prelude.

(** ** Data *)

(** [serde_json::Value]; numbers are kept as their text. *)
#[warnings="-register-all"]
Inductive Value :=
| VNull
| VBool (b : bool)
| VNumber (text : bytes)
| VString (s : bytes)
| VArray (elements : list Value)
| VObject (fields : list (bytes * Value)).

Record Consumer := MkConsumer {
  namespace : bytes; id : bytes; username : bytes; custom_id : option bytes;
  credentials : gmap bytes Value }.

Definition is_object (v : Value) : bool := match v with VObject _ => true | _ => false end.

(** [Value::get] with a string key. *)
Definition get_field (v : Value) (name : bytes) : option Value :=
  match v with
  | VObject fields => snd <$> find (fun f => eqb_bytes (fst f) name) fields
  | _ => None
  end.
Definition as_str (v : Value) : option bytes := match v with VString s => Some s | _ => None end.

Definition credential_entries_from_value (v : Value) : list Value :=
  match v with
  | VArray arr => filter (fun v => is_object v = true) arr
  | _ => []
  end.

Definition credential_entries (c : Consumer) (cred_type : bytes) : list Value :=
  match credentials c !! cred_type with
  | Some credential_value => credential_entries_from_value credential_value
  | None => []
  end.

Definition has_credential (c : Consumer) (cred_type : bytes) : bool :=
  match credentials c !! cred_type with
  | Some (VArray arr) => existsb is_object arr
  | _ => false
  end.

(** ** The keys of a consumer *)

Definition str_fields (c : Consumer) (cred_type field : bytes) : list bytes :=
  omap (fun entry => get_field entry field ≫= as_str) (credential_entries c cred_type).

Definition keyauth_keys (c : Consumer) : list bytes := str_fields c (bs "keyauth") (bs "key").
Definition basic_keys (c : Consumer) : list bytes :=
  if has_credential c (bs "basicauth") then [username c] else [].
Definition mtls_keys (c : Consumer) : list bytes := str_fields c (bs "mtls_auth") (bs "identity").
Definition mtls_dns_keys (c : Consumer) : list bytes := map (map to_ascii_lowercase) (mtls_keys c).
Definition identity_keys (c : Consumer) : list bytes :=
  username c :: id c :: match custom_id c with Some custom => [custom] | None => [] end.
(** Consumers without HMAC credentials are not in the HMAC table. *)
Definition hmac_keys (c : Consumer) : list bytes :=
  match credential_entries c (bs "hmac_auth") with [] => [] | _ => identity_keys c end.

Definition jwt_credentials (c : Consumer) : Z := Z.of_nat (length (credential_entries c (bs "jwt"))).
Definition hmac_credentials (c : Consumer) : Z := Z.of_nat (length (credential_entries c (bs "hmac_auth"))).

(** ** Tables *)

Notation table := (gmap bytes Consumer).
Notation hmac_table := (gmap bytes (gmap bytes Consumer)).
Notation key := (bytes * bytes)%type.

Record ConsumerIndexInner := Inner {
  keyauth_index : table; basic_index : table; identity_index : table;
  hmac_identity_index : hmac_table; mtls_index : table; mtls_dns_index : table;
  all_consumers : list Consumer; jwt_credential_count : Z; hmac_credential_count : Z }.

(** Insert a consumer under each of its keys. *)
Definition insert_keys (keys : Consumer -> list bytes) (m : table) (c : Consumer) : table :=
  foldl (fun m k => <[k := c]> m) m (keys c).

Definition insert_hmac_identities (index : hmac_table) (c : Consumer) : hmac_table :=
  match credential_entries c (bs "hmac_auth") with
  | [] => index
  | _ =>
    let namespace_index := default ∅ (index !! namespace c) in
    <[namespace c := foldl (fun m k => <[k := c]> m) namespace_index (identity_keys c)]> index
  end.

(** One pass of [build_index], and the insertion pass of [apply_delta]. *)
Definition index_consumer (i : ConsumerIndexInner) (c : Consumer) : ConsumerIndexInner :=
  Inner (insert_keys keyauth_keys (keyauth_index i) c)
    (insert_keys basic_keys (basic_index i) c)
    (insert_keys identity_keys (identity_index i) c)
    (insert_hmac_identities (hmac_identity_index i) c)
    (insert_keys mtls_keys (mtls_index i) c)
    (insert_keys mtls_dns_keys (mtls_dns_index i) c)
    (all_consumers i ++ [c])
    (jwt_credential_count i + jwt_credentials c)
    (hmac_credential_count i + hmac_credentials c).

Definition empty_inner : ConsumerIndexInner := Inner ∅ ∅ ∅ ∅ ∅ ∅ [] 0 0.

Definition build_inner (consumers : list Consumer) : ConsumerIndexInner :=
  foldl index_consumer empty_inner consumers.

(** ** Incremental update *)

Definition consumer_key (c : Consumer) : key := (namespace c, id c).

(** Remove the listed keys whose entry belongs to a consumer being removed. *)
Definition remove_owned (ids : gset key) (m : table) (old_keys : list bytes) : table :=
  foldl (fun m k => match m !! k with
                    | Some existing => if decide (consumer_key existing ∈ ids) then delete k m else m
                    | None => m
                    end) m old_keys.

Definition remove_owned_hmac (ids : gset key) (m : hmac_table) (old_keys : list key) : hmac_table :=
  foldl (fun m nk =>
    match m !! fst nk with
    | Some namespace_index =>
      match namespace_index !! snd nk with
      | Some existing =>
        if decide (consumer_key existing ∈ ids)
        then <[fst nk := delete (snd nk) namespace_index]> m else m
      | None => m
      end
    | None => m
    end) m old_keys.

(** Re-insert, from the consumers that stay, the entries under removed keys. *)
Definition restore_keys (keys : Consumer -> list bytes) (removed : gset bytes) (m : table) (c : Consumer) : table :=
  foldl (fun m k => if decide (k ∈ removed) then <[k := c]> m else m) m (keys c).

Definition restore_hmac (removed : gset key) (m : hmac_table) (c : Consumer) : hmac_table :=
  foldl (fun m k =>
    if decide ((namespace c, k) ∈ removed)
    then <[namespace c := <[k := c]> (default ∅ (m !! namespace c))]> m else m) m (hmac_keys c).

Definition collect_keys (keys : Consumer -> list bytes) (gone : list Consumer) : list bytes :=
  gone ≫= keys.
Definition collect_hmac_keys (gone : list Consumer) : list key :=
  gone ≫= (fun c => map (fun k => (namespace c, k)) (hmac_keys c)).

(** Take the consumers with the given ids out of every table. *)
Definition remove_consumers (ids : gset key) (i : ConsumerIndexInner) : ConsumerIndexInner :=
  let gone := filter (fun c => consumer_key c ∈ ids) (all_consumers i) in
  let all := filter (fun c => consumer_key c ∉ ids) (all_consumers i) in
  let patch keys m :=
    let old_keys := collect_keys keys gone in
    foldl (restore_keys keys (list_to_set old_keys)) (remove_owned ids m old_keys) all in
  let old_hmac := collect_hmac_keys gone in
  let hmac := filter (fun '(_, namespace_index) => namespace_index <> ∅)
                (remove_owned_hmac ids (hmac_identity_index i) old_hmac) in
  let hmac := foldl (restore_hmac (list_to_set old_hmac)) hmac all in
  Inner (patch keyauth_keys (keyauth_index i)) (patch basic_keys (basic_index i))
    (patch identity_keys (identity_index i)) hmac
    (patch mtls_keys (mtls_index i)) (patch mtls_dns_keys (mtls_dns_index i))
    all (jwt_credential_count i) (hmac_credential_count i).

Definition sum_of (f : Consumer -> Z) (l : list Consumer) : Z := foldr (fun c n => f c + n) 0 l.

Definition apply_delta_inner (current : ConsumerIndexInner) (added : list Consumer)
    (removed_ids : list key) (modified : list Consumer) : ConsumerIndexInner :=
  let ids_to_remove : gset key := list_to_set (removed_ids ++ map consumer_key modified) in
  let gone := filter (fun c => consumer_key c ∈ ids_to_remove) (all_consumers current) in
  let patched := if decide (ids_to_remove = ∅) then current else remove_consumers ids_to_remove current in
  let patched := foldl index_consumer patched (added ++ modified) in
  let jwt_delta := sum_of jwt_credentials (added ++ modified) - sum_of jwt_credentials gone in
  let hmac_delta := sum_of hmac_credentials (added ++ modified) - sum_of hmac_credentials gone in
  Inner (keyauth_index patched) (basic_index patched) (identity_index patched)
    (hmac_identity_index patched) (mtls_index patched) (mtls_dns_index patched)
    (all_consumers patched)
    (Z.max (jwt_credential_count current + jwt_delta) 0)
    (Z.max (hmac_credential_count current + hmac_delta) 0).

(** The shared index, or a facade over a published snapshot. *)
Inductive ConsumerIndex :=
| Shared (inner : ConsumerIndexInner)
| Snapshot (inner : ConsumerIndexInner).

Definition load_inner (x : ConsumerIndex) : ConsumerIndexInner :=
  match x with Shared inner | Snapshot inner => inner end.

(** A snapshot is not written (the attempt is logged). *)
Definition store_inner (x : ConsumerIndex) (inner : ConsumerIndexInner) : ConsumerIndex :=
  match x with Shared _ => Shared inner | Snapshot old => Snapshot old end.

Definition rebuild (x : ConsumerIndex) (consumers : list Consumer) : ConsumerIndex :=
  store_inner x (build_inner consumers).

Definition apply_delta (x : ConsumerIndex) (added : list Consumer) (removed_ids : list key)
    (modified : list Consumer) : ConsumerIndex :=
  match added, removed_ids, modified with
  | [], [], [] => x
  | _, _, _ => store_inner x (apply_delta_inner (load_inner x) added removed_ids modified)
  end.

(** ** Lookups *)

Definition find_by_api_key (x : ConsumerIndex) (k : bytes) := keyauth_index (load_inner x) !! k.
Definition find_by_username (x : ConsumerIndex) (k : bytes) := basic_index (load_inner x) !! k.
Definition find_by_identity (x : ConsumerIndex) (k : bytes) := identity_index (load_inner x) !! k.
Definition find_hmac_by_identity (x : ConsumerIndex) (ns k : bytes) :=
  hmac_identity_index (load_inner x) !! ns ≫= (fun m => m !! k).
Definition find_by_mtls_identity (x : ConsumerIndex) (k : bytes) := mtls_index (load_inner x) !! k.
Definition find_by_mtls_dns_identity (x : ConsumerIndex) (k : bytes) := mtls_dns_index (load_inner x) !! k.

(** ** What a table holds *)

Lemma filter_iff_on {A} (P Q : A -> Prop) `{forall x, Decision (P x)} `{forall x, Decision (Q x)} (l : list A) :
  (forall x, x ∈ l -> P x <-> Q x) -> filter P l = filter Q l.
Proof.
  induction l as [|x l IH]; intros Hpq; [done|]. rewrite !filter_cons, IH by (intros; apply Hpq; by right).
  assert (P x <-> Q x) by (apply Hpq; left). destruct (decide (P x)), (decide (Q x)); tauto || done.
Qed.

Section Holders.
Context {K : Type} `{Countable K}.
Variable keys : Consumer -> list K.

(** The last consumer of the list that has the key. *)
Definition last_holder (l : list Consumer) (k : K) : option Consumer :=
  last (filter (fun c => k ∈ keys c) l).

Lemma last_holder_snoc l c k :
  last_holder (l ++ [c]) k = if decide (k ∈ keys c) then Some c else last_holder l k.
Proof.
  unfold last_holder. rewrite filter_app, filter_cons. destruct (decide (k ∈ keys c)).
  - by rewrite last_app.
  - by rewrite filter_nil, app_nil_r.
Qed.

Lemma last_holder_some l k c : last_holder l k = Some c -> c ∈ l /\ k ∈ keys c.
Proof.
  unfold last_holder. intros E%last_Some_elem_of. apply list_elem_of_filter in E. tauto.
Qed.

Lemma last_holder_none l k : last_holder l k = None <-> forall c, c ∈ l -> k ∉ keys c.
Proof.
  unfold last_holder. rewrite last_None. split.
  - intros E c Hc Hk. assert (Hin : c ∈ filter (fun c => k ∈ keys c) l) by by apply list_elem_of_filter.
    rewrite E in Hin. by apply not_elem_of_nil in Hin.
  - intros Hn. destruct (filter _ l) as [|c r] eqn:E; [done|]. exfalso.
    assert (Hin : c ∈ filter (fun c => k ∈ keys c) l) by (rewrite E; left).
    apply list_elem_of_filter in Hin as [Hk Hc]. by eapply Hn.
Qed.

(** Folding steps that overwrite the keys of a consumer, possibly only those in
    a set. *)
Lemma foldl_holder {M} (look : M -> K -> option Consumer) (step : M -> Consumer -> M) (sel : K -> Prop)
    `{forall k, Decision (sel k)} :
  (forall m c k, look (step m c) k = if decide (k ∈ keys c /\ sel k) then Some c else look m k) ->
  forall l m k, look (foldl step m l) k =
    if decide (sel k) then match last_holder l k with Some c => Some c | None => look m k end else look m k.
Proof.
  intros Hstep l. induction l as [|c l IH] using rev_ind; intros m k; [by destruct (decide (sel k))|].
  rewrite foldl_app. cbn. rewrite Hstep, last_holder_snoc, IH.
  destruct (decide (sel k)), (decide (k ∈ keys c)); case_decide; tauto || done.
Qed.

(** Taking consumers out and restoring what they had shadowed. *)
Lemma patch_lookup (ids : gset key) (l : list Consumer) k (found : option Consumer) (dropped : option Consumer) :
  let gone := filter (fun c => consumer_key c ∈ ids) l in
  let kept := filter (fun c => consumer_key c ∉ ids) l in
  let old_keys := gone ≫= keys in
  found = last_holder l k ->
  dropped = match found with
            | Some e => if decide (k ∈ old_keys /\ consumer_key e ∈ ids) then None else Some e
            | None => None
            end ->
  (if decide (k ∈ old_keys) then match last_holder kept k with Some c => Some c | None => dropped end
   else dropped) = last_holder kept k.
Proof.
  intros gone kept old_keys -> ->.
  assert (Hgone : k ∈ old_keys <-> exists c, c ∈ l /\ consumer_key c ∈ ids /\ k ∈ keys c).
  { unfold old_keys, gone. rewrite list_elem_of_bind. setoid_rewrite list_elem_of_filter. naive_solver. }
  destruct (decide (k ∈ old_keys)) as [Hk|Hk].
  - destruct (last_holder kept k) eqn:Ek; [done|]. destruct (last_holder l k) as [e|] eqn:El; [|done].
    rewrite decide_True; [done|]. split; [done|]. apply last_holder_some in El as [He Hke].
    destruct (decide (consumer_key e ∈ ids)); [done|]. exfalso.
    apply (proj1 (last_holder_none kept k) Ek e); [|done]. by apply list_elem_of_filter.
  - assert (E : filter (fun c => k ∈ keys c) l = filter (fun c => k ∈ keys c) kept).
    { unfold kept. rewrite list_filter_filter. apply filter_iff_on. intros c Hc.
      split; [|tauto]. intros Hkc. split; [done|]. intros Hid. apply Hk, Hgone. eauto. }
    unfold last_holder. rewrite <- E. destruct (last _) as [e|]; [|done]. rewrite decide_False by tauto. done.
Qed.
End Holders.

(** ** Flat tables *)

Section Flat.
Variable keys : Consumer -> list bytes.

Lemma insert_keys_lookup m c k :
  insert_keys keys m c !! k = if decide (k ∈ keys c) then Some c else m !! k.
Proof.
  unfold insert_keys. induction (keys c) as [|x l IH] using rev_ind; [done|].
  rewrite foldl_app. cbn. destruct (decide (x = k)) as [->|Hne].
  - rewrite lookup_insert_eq. by rewrite decide_True by set_solver.
  - rewrite lookup_insert_ne, IH by done. apply decide_ext. set_solver.
Qed.

Lemma restore_keys_lookup (R : gset bytes) m c k :
  restore_keys keys R m c !! k = if decide (k ∈ keys c /\ k ∈ R) then Some c else m !! k.
Proof.
  unfold restore_keys. induction (keys c) as [|x l IH] using rev_ind; [done|].
  rewrite foldl_app. cbn. destruct (decide (x ∈ R)) as [Hx|Hx].
  - destruct (decide (x = k)) as [->|Hne].
    + rewrite lookup_insert_eq. by rewrite decide_True by set_solver.
    + rewrite lookup_insert_ne, IH by done. apply decide_ext. set_solver.
  - rewrite IH. apply decide_ext. set_solver.
Qed.

Lemma remove_owned_lookup ids m ks k :
  remove_owned ids m ks !! k =
    match m !! k with
    | Some e => if decide (k ∈ ks /\ consumer_key e ∈ ids) then None else Some e
    | None => None
    end.
Proof.
  revert m. induction ks as [|x ks IH]; intros m; cbn.
  - destruct (m !! k); [|done]. by rewrite decide_False by set_solver.
  - change (foldl _ ?a ks) with (remove_owned ids a ks). rewrite IH.
    assert (E : match m !! x with
      | Some existing => if decide (consumer_key existing ∈ ids) then delete x m else m
      | None => m end !! k = match m !! k with
      | Some e => if decide (k = x /\ consumer_key e ∈ ids) then None else Some e | None => None end).
    { destruct (decide (k = x)) as [->|Hne].
      - destruct (m !! x) as [e|] eqn:Ex; [|done]. destruct (decide (consumer_key e ∈ ids)) as [Hi|Hi].
        + rewrite lookup_delete_eq. by rewrite decide_True by tauto.
        + rewrite Ex. by rewrite decide_False by tauto.
      - transitivity (m !! k); [destruct (m !! x); [destruct (decide _); [by rewrite lookup_delete_ne|]|]; done|].
        destruct (m !! k); [|done]. by rewrite decide_False by tauto. }
    rewrite E. destruct (m !! k) as [e|]; [|done].
    destruct (decide (k = x /\ consumer_key e ∈ ids)) as [Hd|Hd].
    + by rewrite decide_True by set_solver.
    + apply decide_ext. set_solver.
Qed.

Definition build_table (l : list Consumer) : table := foldl (insert_keys keys) ∅ l.

Lemma build_table_lookup l k : build_table l !! k = last_holder keys l k.
Proof.
  unfold build_table.
  rewrite (foldl_holder keys (fun m k => m !! k) (insert_keys keys) (fun _ => True)).
  - rewrite decide_True by done. by destruct (last_holder keys l k).
  - intros m c k'. rewrite insert_keys_lookup. apply decide_ext. tauto.
Qed.

Lemma patch_table ids l :
  let gone := filter (fun c => consumer_key c ∈ ids) l in
  let kept := filter (fun c => consumer_key c ∉ ids) l in
  foldl (restore_keys keys (list_to_set (collect_keys keys gone)))
    (remove_owned ids (build_table l) (collect_keys keys gone)) kept = build_table kept.
Proof.
  cbv zeta. apply map_eq. intros k. rewrite build_table_lookup.
  rewrite (foldl_holder keys (fun m k => m !! k) _
    (fun k => k ∈ (list_to_set (collect_keys keys (filter (fun c => consumer_key c ∈ ids) l)) : gset bytes)))
    by (intros; apply restore_keys_lookup).
  refine (eq_trans _ (patch_lookup keys ids l k (build_table l !! k) _ (build_table_lookup l k) eq_refl)).
  rewrite remove_owned_lookup. unfold collect_keys. apply decide_ext. by rewrite elem_of_list_to_set.
Qed.
End Flat.

(** ** The HMAC table *)

Definition look2 (m : hmac_table) (nk : key) : option Consumer := m !! fst nk ≫= (fun i => i !! snd nk).

(** Its keys, with their namespace. *)
Definition scoped_keys (c : Consumer) : list key := map (fun k => (namespace c, k)) (hmac_keys c).

(** No namespace has an empty table. *)
Definition solid (m : hmac_table) : Prop := forall ns i, m !! ns = Some i -> i <> ∅.

Lemma solid_ext m1 m2 : solid m1 -> solid m2 -> (forall nk, look2 m1 nk = look2 m2 nk) -> m1 = m2.
Proof.
  intros H1 H2 Hl.
  assert (Hhalf : forall m1 m2 ns i, solid m1 -> (forall nk, look2 m1 nk = look2 m2 nk) ->
    m1 !! ns = Some i -> m2 !! ns = Some i).
  { clear. intros m1 m2 ns i H1 Hl E. pose proof (H1 _ _ E) as Hne.
    apply map_choose in Hne as (k & c & Ek).
    pose proof (Hl (ns, k)) as Hk. unfold look2 in Hk. cbn in Hk. rewrite E in Hk. cbn in Hk.
    destruct (m2 !! ns) as [i2|] eqn:E2; cbn in Hk; [|congruence]. f_equal. apply map_eq. intros k'.
    specialize (Hl (ns, k')). unfold look2 in Hl. cbn in Hl. rewrite E, E2 in Hl. by cbn in Hl. }
  apply map_eq. intros ns. destruct (m1 !! ns) as [i|] eqn:E1; [exact (eq_sym (Hhalf m1 m2 ns i H1 Hl E1))|].
  destruct (m2 !! ns) as [i|] eqn:E2; [|done].
  rewrite (Hhalf m2 m1 ns i H2 (fun nk => eq_sym (Hl nk)) E2) in E1. done.
Qed.

Lemma look2_insert m ns i nk :
  look2 (<[ns := i]> m) nk = if decide (fst nk = ns) then i !! snd nk else look2 m nk.
Proof.
  unfold look2. destruct (decide (fst nk = ns)) as [->|]; [by rewrite lookup_insert_eq|].
  by rewrite lookup_insert_ne.
Qed.

Lemma look2_default m ns k : default ∅ (m !! ns) !! k = look2 m (ns, k).
Proof. unfold look2. cbn. destruct (m !! ns); cbn; [done|apply lookup_empty]. Qed.

Lemma foldl_insert_lookup (c : Consumer) (ks : list bytes) (m : table) (k : bytes) :
  foldl (fun m k => <[k := c]> m) m ks !! k = if decide (k ∈ ks) then Some c else m !! k.
Proof. exact (insert_keys_lookup (fun _ => ks) m c k). Qed.

Lemma insert_hmac_lookup m c nk :
  look2 (insert_hmac_identities m c) nk = if decide (nk ∈ scoped_keys c) then Some c else look2 m nk.
Proof.
  unfold insert_hmac_identities, scoped_keys, hmac_keys. destruct nk as [ns k].
  destruct (credential_entries c (bs "hmac_auth")) as [|v vs]; [by rewrite decide_False by apply not_elem_of_nil|].
  rewrite look2_insert, foldl_insert_lookup, look2_default. cbn [fst snd].
  assert (Hin : (ns, k) ∈ map (fun k => (namespace c, k)) (identity_keys c) <-> ns = namespace c /\ k ∈ identity_keys c).
  { rewrite list_elem_of_fmap. naive_solver. }
  destruct (decide (ns = namespace c)) as [->|Hne].
  - apply decide_ext. rewrite Hin. tauto.
  - by rewrite decide_False by tauto.
Qed.

Lemma insert_hmac_solid m c : solid m -> solid (insert_hmac_identities m c).
Proof.
  intros Hs ns i. unfold insert_hmac_identities. destruct (credential_entries c (bs "hmac_auth")); [apply Hs|].
  destruct (decide (ns = namespace c)) as [->|Hne]; [|rewrite lookup_insert_ne by done; apply Hs].
  rewrite lookup_insert_eq. intros Hi%(inj Some) E. subst i.
  pose proof (foldl_insert_lookup c (identity_keys c) (default ∅ (m !! namespace c)) (username c)) as Hl.
  rewrite E, lookup_empty, decide_True in Hl by (unfold identity_keys; left). done.
Qed.

Lemma restore_hmac_spec (R : gset key) m c :
  (forall nk, look2 (restore_hmac R m c) nk = if decide (nk ∈ scoped_keys c /\ nk ∈ R) then Some c else look2 m nk)
  /\ (solid m -> solid (restore_hmac R m c)).
Proof.
  unfold restore_hmac, scoped_keys. induction (hmac_keys c) as [|x l [IH IHs]] using rev_ind.
  - cbn. split; [|done]. intros nk. rewrite decide_False; [done|]. intros [Hn _]. by apply not_elem_of_nil in Hn.
  - rewrite foldl_app. cbn [foldl]. rewrite map_app. set (m' := foldl _ m l) in *. cbn [map].
    destruct (decide ((namespace c, x) ∈ R)) as [Hx|Hx]; split.
    + intros [ns k]. rewrite look2_insert. cbn [fst snd]. destruct (decide (ns = namespace c)) as [->|Hne].
      * destruct (decide (k = x)) as [->|Hk].
        -- rewrite lookup_insert_eq. by rewrite decide_True by set_solver.
        -- rewrite lookup_insert_ne, look2_default, IH by done. apply decide_ext. set_solver.
      * rewrite IH. apply decide_ext. set_solver.
    + intros Hs ns i. destruct (decide (ns = namespace c)) as [->|Hne].
      * rewrite lookup_insert_eq. intros [= <-]. apply insert_non_empty.
      * rewrite lookup_insert_ne by done. by apply IHs.
    + intros nk. rewrite IH. apply decide_ext. set_solver.
    + exact IHs.
Qed.

Lemma remove_owned_hmac_lookup ids m ks nk :
  look2 (remove_owned_hmac ids m ks) nk =
    match look2 m nk with
    | Some e => if decide (nk ∈ ks /\ consumer_key e ∈ ids) then None else Some e
    | None => None
    end.
Proof.
  revert m. induction ks as [|x ks IH]; intros m; cbn [remove_owned_hmac foldl].
  - destruct (look2 m nk); [|done]. by rewrite decide_False by (intros [Hn _]; by apply not_elem_of_nil in Hn).
  - change (foldl _ ?a ks) with (remove_owned_hmac ids a ks). rewrite IH. clear IH.
    set (m' := match m !! fst x with Some _ => _ | None => _ end).
    assert (E : look2 m' nk = match look2 m nk with
      | Some e => if decide (nk = x /\ consumer_key e ∈ ids) then None else Some e | None => None end).
    { unfold m'. destruct (m !! fst x) as [i|] eqn:Ei.
      - destruct (i !! snd x) as [e|] eqn:Ee.
        + assert (Hx : look2 m x = Some e) by (unfold look2; rewrite Ei; exact Ee).
          destruct (decide (consumer_key e ∈ ids)) as [Hi|Hi].
          * rewrite look2_insert. destruct (decide (fst nk = fst x)) as [Ef|Ef].
            -- destruct (decide (snd nk = snd x)) as [Es|Es].
               ++ assert (nk = x) as -> by (destruct nk, x; cbn in *; congruence).
                  rewrite lookup_delete_eq, Hx. by rewrite decide_True by done.
               ++ rewrite lookup_delete_ne by done.
                  transitivity (look2 m nk); [unfold look2; by rewrite Ef, Ei|].
                  destruct (look2 m nk); [|done]. rewrite decide_False; [done|]. by intros [-> _].
            -- destruct (look2 m nk); [|done]. rewrite decide_False; [done|]. by intros [-> _].
          * destruct (look2 m nk) eqn:En; [|done]. rewrite decide_False; [done|].
            intros [-> Hi']. congruence.
        + destruct (look2 m nk) eqn:En; [|done]. rewrite decide_False; [done|].
          intros [-> _]. unfold look2 in En. rewrite Ei in En. cbn in En. congruence.
      - destruct (look2 m nk) eqn:En; [|done]. rewrite decide_False; [done|].
        intros [-> _]. unfold look2 in En. rewrite Ei in En. done. }
    rewrite E. destruct (look2 m nk) as [e|]; [|done].
    destruct (decide (nk = x /\ consumer_key e ∈ ids)) as [Hd|Hd].
    + by rewrite decide_True by (rewrite elem_of_cons; tauto).
    + apply decide_ext. rewrite elem_of_cons. tauto.
Qed.

Definition retain_nonempty (m : hmac_table) : hmac_table :=
  filter (fun '(_, namespace_index) => namespace_index <> ∅) m.

Lemma retain_nonempty_spec m :
  solid (retain_nonempty m) /\ forall nk, look2 (retain_nonempty m) nk = look2 m nk.
Proof.
  unfold retain_nonempty. split.
  - intros ns i E. apply map_lookup_filter_Some in E as [_ E]. exact E.
  - intros [ns k]. unfold look2. cbn. destruct (m !! ns) as [i|] eqn:E.
    + destruct (decide (i = ∅)) as [->|Hne].
      * rewrite (proj2 (map_lookup_filter_None _ m ns)); [symmetry; apply lookup_empty|].
        right. intros i' E'. rewrite E in E'. injection E' as <-. by intros Hn.
      * rewrite (proj2 (map_lookup_filter_Some _ m ns i)); done.
    + by rewrite (proj2 (map_lookup_filter_None _ m ns)) by (by left).
Qed.

Definition build_hmac (l : list Consumer) : hmac_table := foldl insert_hmac_identities ∅ l.

Lemma build_hmac_spec l : solid (build_hmac l) /\ forall nk, look2 (build_hmac l) nk = last_holder scoped_keys l nk.
Proof.
  unfold build_hmac. split.
  - induction l as [|c l IH] using rev_ind; [intros ns i Hi; cbn in Hi; by rewrite lookup_empty in Hi|].
    rewrite foldl_app. by apply insert_hmac_solid.
  - intros nk. rewrite (foldl_holder scoped_keys look2 insert_hmac_identities (fun _ => True)).
    + rewrite decide_True by done. by destruct (last_holder scoped_keys l nk).
    + intros m c k. rewrite insert_hmac_lookup. apply decide_ext. tauto.
Qed.

Lemma foldl_restore_solid R l m : solid m -> solid (foldl (restore_hmac R) m l).
Proof. revert m. induction l as [|c l IH]; intros m Hs; [done|]. apply IH. by apply restore_hmac_spec. Qed.

Lemma patch_hmac ids l :
  let gone := filter (fun c => consumer_key c ∈ ids) l in
  let kept := filter (fun c => consumer_key c ∉ ids) l in
  foldl (restore_hmac (list_to_set (collect_hmac_keys gone)))
    (retain_nonempty (remove_owned_hmac ids (build_hmac l) (collect_hmac_keys gone))) kept = build_hmac kept.
Proof.
  cbv zeta. set (gone := filter (fun c => consumer_key c ∈ ids) l).
  destruct (retain_nonempty_spec (remove_owned_hmac ids (build_hmac l) (collect_hmac_keys gone))) as [Hs Hl].
  apply solid_ext; [by apply foldl_restore_solid|apply build_hmac_spec|].
  intros nk. rewrite (proj2 (build_hmac_spec _)).
  rewrite (foldl_holder scoped_keys look2 _ (fun nk => nk ∈ (list_to_set (collect_hmac_keys gone) : gset key)))
    by (intros; apply restore_hmac_spec).
  refine (eq_trans _ (patch_lookup scoped_keys ids l nk (look2 (build_hmac l) nk) _
                        (proj2 (build_hmac_spec l) nk) eq_refl)).
  rewrite Hl, remove_owned_hmac_lookup. apply decide_ext. by rewrite elem_of_list_to_set.
Qed.

(** ** Rebuild and patch agree *)

Lemma build_inner_fields l :
  build_inner l = Inner (build_table keyauth_keys l) (build_table basic_keys l) (build_table identity_keys l)
    (build_hmac l) (build_table mtls_keys l) (build_table mtls_dns_keys l) l
    (sum_of jwt_credentials l) (sum_of hmac_credentials l).
Proof.
  unfold build_inner. induction l as [|c l IH] using rev_ind; [done|].
  rewrite foldl_app, IH. cbn [foldl index_consumer keyauth_index basic_index identity_index hmac_identity_index
    mtls_index mtls_dns_index all_consumers jwt_credential_count hmac_credential_count].
  assert (Hsum : forall f, sum_of f (l ++ [c]) = sum_of f l + f c).
  { intros f. unfold sum_of. clear IH. induction l as [|x l IH]; cbn; lia. }
  unfold build_table, build_hmac. rewrite !foldl_app, !Hsum. done.
Qed.

Lemma sum_of_app f l m : sum_of f (l ++ m) = sum_of f l + sum_of f m.
Proof. unfold sum_of. induction l; cbn; lia. Qed.

Lemma sum_of_filter f (P : Consumer -> Prop) `{forall c, Decision (P c)} l :
  sum_of f (filter P l) + sum_of f (filter (fun c => ~ P c) l) = sum_of f l.
Proof.
  unfold sum_of. induction l as [|c l IH]; [done|]. rewrite !filter_cons.
  destruct (decide (P c)), (decide (~ P c)); tauto || cbn; lia.
Qed.

Lemma remove_consumers_build ids l :
  let kept := filter (fun c => consumer_key c ∉ ids) l in
  remove_consumers ids (build_inner l) =
  Inner (build_table keyauth_keys kept) (build_table basic_keys kept) (build_table identity_keys kept)
    (build_hmac kept) (build_table mtls_keys kept) (build_table mtls_dns_keys kept) kept
    (sum_of jwt_credentials l) (sum_of hmac_credentials l).
Proof.
  cbv zeta. rewrite build_inner_fields. unfold remove_consumers.
  cbn [keyauth_index basic_index identity_index hmac_identity_index
    mtls_index mtls_dns_index all_consumers jwt_credential_count hmac_credential_count].
  rewrite !patch_table. fold (retain_nonempty (remove_owned_hmac ids (build_hmac l)
    (collect_hmac_keys (filter (fun c => consumer_key c ∈ ids) l)))).
  by rewrite patch_hmac.
Qed.

Lemma index_consumers_fields i xs :
  let j := foldl index_consumer i xs in
  keyauth_index j = foldl (insert_keys keyauth_keys) (keyauth_index i) xs
  /\ basic_index j = foldl (insert_keys basic_keys) (basic_index i) xs
  /\ identity_index j = foldl (insert_keys identity_keys) (identity_index i) xs
  /\ hmac_identity_index j = foldl insert_hmac_identities (hmac_identity_index i) xs
  /\ mtls_index j = foldl (insert_keys mtls_keys) (mtls_index i) xs
  /\ mtls_dns_index j = foldl (insert_keys mtls_dns_keys) (mtls_dns_index i) xs
  /\ all_consumers j = all_consumers i ++ xs.
Proof.
  revert i. induction xs as [|c xs IH]; intros i; [cbn; by rewrite app_nil_r|].
  cbn [foldl]. destruct (IH (index_consumer i c)) as (-> & -> & -> & -> & -> & -> & ->).
  cbn [index_consumer keyauth_index basic_index identity_index hmac_identity_index
    mtls_index mtls_dns_index all_consumers]. by rewrite <- app_assoc.
Qed.

(** The consumers after a delta: those not removed or replaced, then the added
    and the modified ones. *)
Definition after_delta (l added : list Consumer) (removed_ids : list key) (modified : list Consumer)
  : list Consumer :=
  let ids : gset key := list_to_set (removed_ids ++ map consumer_key modified) in
  filter (fun c => consumer_key c ∉ ids) l ++ added ++ modified.

Lemma filter_all_kept (ids : gset key) (l : list Consumer) : ids = ∅ -> filter (fun c => consumer_key c ∉ ids) l = l.
Proof.
  intros ->. induction l as [|c l IH]; [done|]. rewrite filter_cons, decide_True by apply not_elem_of_empty.
  by rewrite IH.
Qed.

Lemma sum_of_nonneg (f : Consumer -> Z) (l : list Consumer) : (forall c, 0 <= f c) -> 0 <= sum_of f l.
Proof. intros Hf. unfold sum_of. induction l as [|c l IH]; cbn; [lia|]. specialize (Hf c). lia. Qed.

(** The counters after a delta. *)
Lemma delta_count (f : Consumer -> Z) (l added modified : list Consumer) (ids : gset key) :
  (forall c, 0 <= f c) ->
  Z.max (sum_of f l + (sum_of f (added ++ modified) - sum_of f (filter (fun c => consumer_key c ∈ ids) l))) 0
  = sum_of f (filter (fun c => consumer_key c ∉ ids) l ++ added ++ modified).
Proof.
  intros Hf. rewrite (sum_of_app f (filter _ l)).
  assert (sum_of f (filter (fun c => consumer_key c ∈ ids) l)
    + sum_of f (filter (fun c => consumer_key c ∉ ids) l) = sum_of f l) by apply sum_of_filter.
  pose proof (sum_of_nonneg f (filter (fun c => consumer_key c ∉ ids) l) Hf).
  pose proof (sum_of_nonneg f (added ++ modified) Hf). lia.
Qed.

Lemma apply_delta_inner_build (l added : list Consumer) (removed_ids : list key) (modified : list Consumer) :
  apply_delta_inner (build_inner l) added removed_ids modified
  = build_inner (after_delta l added removed_ids modified).
Proof.
  unfold apply_delta_inner, after_delta. cbv zeta.
  set (ids := list_to_set (removed_ids ++ map consumer_key modified) : gset key).
  set (kept := filter (fun c => consumer_key c ∉ ids) l).
  assert (Hp : exists j h, (if decide (ids = ∅) then build_inner l else remove_consumers ids (build_inner l))
    = Inner (build_table keyauth_keys kept) (build_table basic_keys kept) (build_table identity_keys kept)
        (build_hmac kept) (build_table mtls_keys kept) (build_table mtls_dns_keys kept) kept j h).
  { destruct (decide (ids = ∅)) as [He|He].
    - exists (sum_of jwt_credentials l), (sum_of hmac_credentials l). unfold kept.
      rewrite (filter_all_kept ids l He). apply build_inner_fields.
    - eexists _, _. apply remove_consumers_build. }
  destruct Hp as (j & h & ->).
  destruct (index_consumers_fields (Inner (build_table keyauth_keys kept) (build_table basic_keys kept)
    (build_table identity_keys kept) (build_hmac kept) (build_table mtls_keys kept)
    (build_table mtls_dns_keys kept) kept j h) (added ++ modified)) as (-> & -> & -> & -> & -> & -> & ->).
  rewrite !build_inner_fields.
  cbn [keyauth_index basic_index identity_index hmac_identity_index
    mtls_index mtls_dns_index all_consumers jwt_credential_count hmac_credential_count].
  rewrite !delta_count by (intros; unfold jwt_credentials, hmac_credentials; lia).
  unfold build_table, build_hmac. by rewrite !(foldl_app _ kept).
Qed.

(** C6. Patching and rebuilding agree: applying a delta to an index built from
    a consumer list gives, table by table and counter by counter, the index
    built from the patched list, shadowed credentials of the remaining
    consumers included. A snapshot facade is left as it was. *)
Theorem consumer_delta_equals_rebuild (l added : list Consumer) (removed_ids : list key) (modified : list Consumer) :
  apply_delta (Shared (build_inner l)) added removed_ids modified
    = Shared (build_inner (after_delta l added removed_ids modified))
  /\ forall inner, apply_delta (Snapshot inner) added removed_ids modified = Snapshot inner.
Proof.
  split; [|intros inner; by destruct added, removed_ids, modified].
  assert (E : apply_delta (Shared (build_inner l)) added removed_ids modified
    = Shared (apply_delta_inner (build_inner l) added removed_ids modified)
    \/ added = [] /\ removed_ids = [] /\ modified = []) by (destruct added, removed_ids, modified; auto).
  destruct E as [->|(-> & -> & ->)]; [by rewrite apply_delta_inner_build|].
  unfold after_delta. by rewrite filter_all_kept, app_nil_r by done.
Qed.

(** Every lookup is exact: it returns the last consumer of the list that
    carries the credential (API key, basic-auth user name, mTLS identity,
    identity claim, or HMAC identity within its namespace), and nothing when no
    consumer carries it. *)
Theorem consumer_lookups_exact l k ns :
  let x := Shared (build_inner l) in
  find_by_api_key x k = last_holder keyauth_keys l k
  /\ find_by_username x k = last_holder basic_keys l k
  /\ find_by_identity x k = last_holder identity_keys l k
  /\ find_hmac_by_identity x ns k = last_holder scoped_keys l (ns, k)
  /\ find_by_mtls_identity x k = last_holder mtls_keys l k
  /\ find_by_mtls_dns_identity x k = last_holder mtls_dns_keys l k.
Proof.
  cbv zeta. unfold find_by_api_key, find_by_username, find_by_identity, find_hmac_by_identity,
    find_by_mtls_identity, find_by_mtls_dns_identity. cbn [load_inner]. rewrite build_inner_fields.
  cbn [keyauth_index basic_index identity_index hmac_identity_index mtls_index mtls_dns_index].
  rewrite !build_table_lookup. split_and!; try done. exact (proj2 (build_hmac_spec l) (ns, k)).
Qed.

(** Runs of deltas. *)
Record delta := { d_added : list Consumer; d_removed : list key; d_modified : list Consumer }.
Definition run_deltas (x : ConsumerIndex) (ds : list delta) : ConsumerIndex :=
  foldl (fun x d => apply_delta x (d_added d) (d_removed d) (d_modified d)) x ds.
Definition run_lists (l : list Consumer) (ds : list delta) : list Consumer :=
  foldl (fun l d => after_delta l (d_added d) (d_removed d) (d_modified d)) l ds.

Lemma run_deltas_build ds : forall l, run_deltas (Shared (build_inner l)) ds = Shared (build_inner (run_lists l ds)).
Proof.
  induction ds as [|d ds IH]; intros l; [done|]. cbn [run_deltas run_lists foldl].
  assert (E : apply_delta (Shared (build_inner l)) (d_added d) (d_removed d) (d_modified d)
    = Shared (build_inner (after_delta l (d_added d) (d_removed d) (d_modified d)))).
  { destruct d as [a r m]. cbn. destruct a, r, m; try (cbn; by rewrite apply_delta_inner_build).
    unfold after_delta. cbn [apply_delta]. by rewrite filter_all_kept, app_nil_r by done. }
  rewrite E. apply IH.
Qed.

(** Revocation takes effect: after any sequence of reloads, whatever a
    lookup returns is a consumer of the current list that carries the
    credential, so a deleted consumer, or the superseded version of a modified
    one, is never authenticated again unless it is added back. *)
Theorem revoked_credentials_gone l ds k ns c :
  let x := run_deltas (Shared (build_inner l)) ds in
  (find_by_api_key x k = Some c \/ find_by_username x k = Some c \/ find_by_identity x k = Some c
   \/ find_hmac_by_identity x ns k = Some c \/ find_by_mtls_identity x k = Some c
   \/ find_by_mtls_dns_identity x k = Some c) ->
  c ∈ run_lists l ds
  /\ (k ∈ keyauth_keys c \/ k ∈ basic_keys c \/ k ∈ identity_keys c \/ (ns, k) ∈ scoped_keys c
      \/ k ∈ mtls_keys c \/ k ∈ mtls_dns_keys c).
Proof.
  cbv zeta. rewrite run_deltas_build. unfold find_by_api_key, find_by_username, find_by_identity,
    find_hmac_by_identity, find_by_mtls_identity, find_by_mtls_dns_identity. cbn [load_inner].
  rewrite build_inner_fields.
  cbn [keyauth_index basic_index identity_index hmac_identity_index mtls_index mtls_dns_index].
  rewrite !build_table_lookup. pose proof (proj2 (build_hmac_spec (run_lists l ds)) (ns, k)) as Hh.
  unfold look2 in Hh. cbn [fst snd] in Hh. rewrite Hh.
  intros [E|[E|[E|[E|[E|E]]]]]; apply last_holder_some in E as [? ?]; tauto.
Qed.

(** Two consumers share an API key; the later one is deleted. *)
Definition key_holder (i : bytes) : Consumer :=
  MkConsumer (bs "ns") i i None {[bs "keyauth" := VArray [VObject [(bs "key", VString (bs "secret"))]]]}.

Lemma revoked_credentials_gone_witness :
  let l := [key_holder (bs "a"); key_holder (bs "b")] in
  let ds := [{| d_added := []; d_removed := [(bs "ns", bs "b")]; d_modified := [] |}] in
  find_by_api_key (Shared (build_inner l)) (bs "secret") = Some (key_holder (bs "b"))
  /\ find_by_api_key (run_deltas (Shared (build_inner l)) ds) (bs "secret") = Some (key_holder (bs "a"))
  /\ key_holder (bs "a") ∈ run_lists l ds.
Proof.
  intros l ds. split; [vm_compute; reflexivity|].
  assert (E : find_by_api_key (run_deltas (Shared (build_inner l)) ds) (bs "secret") = Some (key_holder (bs "a")))
    by (vm_compute; reflexivity).
  split; [exact E|].
  exact (proj1 (revoked_credentials_gone l ds (bs "secret") [] (key_holder (bs "a")) (or_introl E))).
Defined.
