(* ===== verification/Upstream.v ===== *)
(** * Upstream targets and their text keys ([src/src/config/types.rs],
    [src/src/load_balancer.rs])

    The target record shared by the balancer and the health checker, and the
    host:port keys both index their tables by. *)

From S2P Require Import Prelude Decimal RuntimeKeys.

Record UpstreamTarget := Target {
  host : bytes;
  port : Z;
  service_port_policy_key : option Z;
  weight : Z;
  tags : gmap bytes bytes;
  locality : option bytes;
  path : option bytes;
}.

#[global] Instance UpstreamTarget_eq_dec : EqDecision UpstreamTarget.
Proof. solve_decision. Defined.

Definition dispatch_policy_port (t : UpstreamTarget) : Z :=
  default (port t) (service_port_policy_key t).

(** Appends to the buffer. *)
Definition write_target_host_port_key (buf : bytes) (t : UpstreamTarget) : bytes :=
  buf ++ host t ++ bs ":" ++ show_dec (port t).

Definition target_host_port_key (t : UpstreamTarget) : bytes := write_target_host_port_key [] t.

Definition scoped_target_key (upstream_id : bytes) (t : UpstreamTarget) : bytes :=
  write_target_host_port_key (upstream_id ++ bs "::") t.

(** A target as the recovery timer rebuilds it: only host and port are known. *)
Definition bare_target (h : bytes) (p : Z) : UpstreamTarget := Target h p None 1 ∅ None None.

Lemma target_host_port_key_target_key t :
  target_host_port_key t = RuntimeKeys.target_key (host t) (port t).
Proof. done. Qed.
