(* ===== verification/PassiveRing.v ===== *)
(** * The sliding failure window ([src/src/health_check.rs])

    [RecentFailureRing], the circular buffer behind windowed passive health. The
    buffer is refined to the list of stamps it stores, and that list to the
    keep-in-window-then-cap reference the ring replaced. *)

From Stdlib Require Import Sorted.
From S2P Require Import Prelude.

Definition MAX_RECENT_FAILURES_PER_TARGET : nat := 1000.

(** [usize] fields; [ring_wf] bounds them by the capacity. *)
Record RecentFailureRing := Ring { slots : list Z; head : nat; len : nat }.

Definition ring_new : RecentFailureRing := Ring [] 0 0.

(** [Vec::resize] of an empty vector. *)
Definition ensure_slots (r : RecentFailureRing) : RecentFailureRing :=
  match slots r with
  | _ :: _ => r
  | [] => Ring (replicate MAX_RECENT_FAILURES_PER_TARGET 0) (head r) (len r)
  end.

Definition ring_is_empty (r : RecentFailureRing) : bool := (len r =? 0)%nat.

(** The index is in range whenever the ring is not empty ([ring_wf]). *)
Definition front (r : RecentFailureRing) : Z := default 0 (slots r !! head r).

Definition pop_front (r : RecentFailureRing) : RecentFailureRing :=
  let cap := length (slots r) in
  let h := S (head r) in
  Ring (slots r) (if (h =? cap)%nat then 0%nat else h) (len r - 1).

Definition push_back (r : RecentFailureRing) (ts : Z) : RecentFailureRing :=
  let cap := length (slots r) in
  let idx := (head r + len r)%nat in
  let idx := if (cap <=? idx)%nat then (idx - cap)%nat else idx in
  Ring (<[idx := ts]> (slots r)) (head r) (S (len r)).

(** The loop pops one stamp per round, so the stored count is enough fuel. *)
Fixpoint expire_loop (fuel : nat) (r : RecentFailureRing) (window_start : Z) : RecentFailureRing :=
  match fuel with
  | O => r
  | S fuel =>
    if negb (ring_is_empty r) && (front r <? window_start)
    then expire_loop fuel (pop_front r) window_start
    else r
  end.

Definition expire_before (r : RecentFailureRing) (window_start : Z) : RecentFailureRing :=
  expire_loop (len r) r window_start.

Definition record (r : RecentFailureRing) (now_ms window_start : Z) : RecentFailureRing * nat :=
  let r := ensure_slots r in
  let r := expire_before r window_start in
  let r := if (len r =? MAX_RECENT_FAILURES_PER_TARGET)%nat then pop_front r else r in
  let r := push_back r now_ms in
  (r, len r).

Definition clear (r : RecentFailureRing) : RecentFailureRing := Ring (slots r) 0 0.

(** ** The stamps a ring stores, oldest first *)

Definition stamp (r : RecentFailureRing) (k : nat) : Z :=
  default 0 (slots r !! ((head r + k) mod length (slots r))%nat).

Definition contents (r : RecentFailureRing) : list Z := map (stamp r) (seq 0 (len r)).

Record ring_ready (r : RecentFailureRing) : Prop := {
  ready_slots : length (slots r) = MAX_RECENT_FAILURES_PER_TARGET;
  ready_head : (head r < MAX_RECENT_FAILURES_PER_TARGET)%nat;
  ready_len : (len r <= MAX_RECENT_FAILURES_PER_TARGET)%nat;
}.

Definition ring_wf (r : RecentFailureRing) : Prop := r = ring_new \/ ring_ready r.

(** Dropping the stamps before the window from the front. *)
Fixpoint expired_prefix (window_start : Z) (l : list Z) : list Z :=
  match l with
  | [] => []
  | x :: l' => if x <? window_start then expired_prefix window_start l' else l
  end.

Definition cap_oldest (l : list Z) : list Z :=
  if (length l =? MAX_RECENT_FAILURES_PER_TARGET)%nat then tail l else l.

(** The reference the ring replaced: keep the window, then the newest stamps up
    to the cap. *)
Definition reference_in_window (stamps : list Z) (window_start : Z) : list Z :=
  let kept := filter (fun ts => window_start <= ts) stamps in
  drop (length kept - MAX_RECENT_FAILURES_PER_TARGET) kept.

Lemma length_contents r : length (contents r) = len r.
Proof. unfold contents. by rewrite length_map, length_seq. Qed.

Lemma max_pos : (0 < MAX_RECENT_FAILURES_PER_TARGET)%nat.
Proof. unfold MAX_RECENT_FAILURES_PER_TARGET. lia. Qed.

#[local] Opaque MAX_RECENT_FAILURES_PER_TARGET.
#[local] Hint Resolve max_pos : core.

Lemma ensure_slots_ready r :
  ring_wf r -> ring_ready (ensure_slots r) /\ contents (ensure_slots r) = contents r.
Proof.
  intros [->|Hr].
  - split; [|done]. assert (H := max_pos). constructor; simpl; [by rewrite length_replicate|lia|lia].
  - unfold ensure_slots. destruct (slots r) eqn:E; [|done].
    destruct Hr as [Hs _ _]. rewrite E in Hs. simpl in Hs. assert (H := max_pos). lia.
Qed.

Lemma pop_front_ready r :
  ring_ready r -> (0 < len r)%nat ->
  ring_ready (pop_front r) /\ contents (pop_front r) = tail (contents r).
Proof.
  intros [Hs Hh Hl] Hpos. assert (Hm := max_pos). split.
  - unfold pop_front. constructor; cbn [slots head len]; [done| |lia]. case_match eqn:E; [lia|].
    apply Nat.eqb_neq in E. lia.
  - unfold contents. destruct r as [sl h [|n]]; cbn [slots head len] in *; [lia|].
    unfold pop_front. cbn [slots head len]. rewrite Nat.sub_succ, Nat.sub_0_r. cbn [seq map tail].
    rewrite <- seq_shift, map_map. apply map_ext_in. intros k _. unfold stamp. cbn [slots head].
    do 2 f_equal.
    destruct (Nat.eqb_spec (S h) (length sl)) as [E|E]; [|by f_equal; lia].
    replace (h + S k)%nat with (0 + k + 1 * length sl)%nat by lia.
    by rewrite Nat.Div0.mod_add.
Qed.

Lemma mod_distinct (c h k n : nat) :
  (k < n)%nat -> (n < c)%nat -> ((h + n) mod c)%nat <> ((h + k) mod c)%nat.
Proof.
  intros Hk Hn E. assert (H1 := Nat.div_mod_eq (h + n) c). assert (H2 := Nat.div_mod_eq (h + k) c).
  rewrite E in H1. set (q1 := ((h + n) / c)%nat) in *. set (q2 := ((h + k) / c)%nat) in *.
  destruct (Nat.lt_trichotomy q1 q2) as [Hq|[Hq|Hq]]; nia.
Qed.

Lemma push_back_ready r ts :
  ring_ready r -> (len r < MAX_RECENT_FAILURES_PER_TARGET)%nat ->
  ring_ready (push_back r ts) /\ contents (push_back r ts) = contents r ++ [ts].
Proof.
  intros [Hs Hh Hl] Hlt. assert (Hm := max_pos). set (cap := length (slots r)) in *.
  set (idx := if (cap <=? head r + len r)%nat then (head r + len r - cap)%nat else (head r + len r)%nat).
  assert (Hidx : idx = ((head r + len r) mod cap)%nat).
  { subst idx. destruct (Nat.leb_spec cap (head r + len r)) as [H|H].
    - replace (head r + len r)%nat with (head r + len r - cap + 1 * cap)%nat at 2 by lia.
      rewrite Nat.Div0.mod_add, Nat.mod_small; lia.
    - rewrite Nat.mod_small; lia. }
  assert (Hidxlt : (idx < cap)%nat) by (rewrite Hidx; apply Nat.mod_upper_bound; lia).
  split.
  - constructor; cbn [push_back slots head len]; rewrite ?length_insert; fold cap; lia.
  - assert (HS : forall k, stamp (push_back r ts) k
                  = default 0 (<[idx := ts]> (slots r) !! ((head r + k) mod cap)%nat)).
    { intros k. unfold stamp, push_back. cbn [slots head len]. by rewrite length_insert. }
    unfold contents. change (len (push_back r ts)) with (S (len r)). rewrite seq_S, map_app. simpl. f_equal.
    + apply map_ext_in. intros k Hk%in_seq. rewrite HS. unfold stamp. fold cap. f_equal.
      apply list_lookup_insert_ne. rewrite Hidx. apply mod_distinct; lia.
    + rewrite HS, <- Hidx, list_lookup_insert_eq by done. done.
Qed.

Lemma front_contents r : ring_ready r -> (0 < len r)%nat -> hd_error (contents r) = Some (front r).
Proof.
  intros [Hs Hh _] Hpos. unfold contents. destruct (len r); [lia|]. simpl. unfold stamp, front.
  rewrite Nat.add_0_r, Nat.mod_small by lia. done.
Qed.

Lemma expire_loop_ready fuel r ws :
  ring_ready r -> (len r <= fuel)%nat ->
  ring_ready (expire_loop fuel r ws) /\
  contents (expire_loop fuel r ws) = expired_prefix ws (contents r).
Proof.
  revert r; induction fuel as [|fuel IH]; intros r Hr Hf; cbn [expire_loop].
  - split; [done|]. assert (Hl := length_contents r). destruct (contents r); [done|simpl in Hl; lia].
  - unfold ring_is_empty. destruct (Nat.eqb_spec (len r) 0) as [E|E]; cbn [negb andb].
    + split; [done|]. assert (Hl := length_contents r). destruct (contents r); [done|simpl in Hl; lia].
    + assert (Hfr := front_contents r Hr ltac:(lia)).
      destruct (contents r) as [|x l] eqn:Hc; [done|]. simplify_eq/=.
      destruct (front r <? ws); [|by rewrite Hc].
      destruct (pop_front_ready r Hr ltac:(lia)) as [Hr' Hc']. rewrite Hc in Hc'. simpl in Hc'.
      destruct (IH (pop_front r) Hr') as [? Hc'']; [simpl; lia|]. by rewrite Hc'', Hc'.
Qed.

(** The loop leaves no stamp before the window at the front. *)
Lemma expired_prefix_split ws l :
  exists e, l = e ++ expired_prefix ws l /\ Forall (fun x => x < ws) e /\
            (forall x, hd_error (expired_prefix ws l) = Some x -> ws <= x).
Proof.
  induction l as [|x l (e & He & Hlt & Hhd)]; [by exists []|]. simpl.
  destruct (Z.ltb_spec x ws) as [H|H].
  - exists (x :: e). split; [simpl; by f_equal|]. split; [by constructor|done].
  - exists []. split; [done|]. split; [constructor|]. simpl. naive_solver.
Qed.

Lemma length_cap_oldest l :
  (length l <= MAX_RECENT_FAILURES_PER_TARGET)%nat ->
  (length (cap_oldest l) < MAX_RECENT_FAILURES_PER_TARGET)%nat.
Proof.
  intros H. assert (Hm := max_pos). unfold cap_oldest.
  destruct (Nat.eqb_spec (length l) MAX_RECENT_FAILURES_PER_TARGET); [|lia].
  destruct l; simpl in *; lia.
Qed.

(** [record] on the ring is expire, cap and append on the stored stamps. *)
Lemma record_refines r now ws :
  ring_wf r ->
  let '(r', n) := record r now ws in
  ring_wf r' /\ contents r' = cap_oldest (expired_prefix ws (contents r)) ++ [now]
  /\ n = length (contents r').
Proof.
  intros Hwf. unfold record. destruct (ensure_slots_ready r Hwf) as [H1 C1].
  destruct (expire_loop_ready (len (ensure_slots r)) (ensure_slots r) ws H1 ltac:(done)) as [H2 C2].
  unfold expire_before. set (r2 := expire_loop _ _ _) in *.
  set (r3 := if (len r2 =? MAX_RECENT_FAILURES_PER_TARGET)%nat then pop_front r2 else r2).
  assert (H3 : ring_ready r3 /\ contents r3 = cap_oldest (contents r2)).
  { subst r3. unfold cap_oldest. rewrite length_contents.
    destruct (Nat.eqb_spec (len r2) MAX_RECENT_FAILURES_PER_TARGET) as [E|E]; [|done].
    apply pop_front_ready; [done|]. rewrite E. apply max_pos. }
  destruct H3 as [H3 C3].
  assert (Hlt : (len r3 < MAX_RECENT_FAILURES_PER_TARGET)%nat).
  { rewrite <- length_contents, C3. apply length_cap_oldest. rewrite length_contents. apply H2. }
  destruct (push_back_ready r3 now H3 Hlt) as [H4 C4]. split; [by right|].
  split; [by rewrite C4, C3, C2, C1|]. by rewrite length_contents.
Qed.

Lemma clear_refines r : ring_wf r -> ring_wf (clear r) /\ contents (clear r) = [].
Proof.
  intros [->|[Hs Hh Hl]]; (split; [|done]); [by left|]. right. assert (Hm := max_pos).
  constructor; simpl; lia.
Qed.

(** ** Agreement with the reference *)

(** The stamps recorded since the ring was last cleared split into dropped ones
    and the stored ones; a dropped stamp is out of the window unless the ring is
    full. *)
Definition window_of (history : list Z) (ws : Z) (c : list Z) : Prop :=
  exists p, history = p ++ c /\ Forall (fun x => ws <= x) c /\
            (length c <= MAX_RECENT_FAILURES_PER_TARGET)%nat /\
            (Forall (fun x => x < ws) p \/ length c = MAX_RECENT_FAILURES_PER_TARGET).

Lemma filter_none (ws : Z) l : Forall (fun x => x < ws) l -> filter (fun x => ws <= x) l = [].
Proof. induction 1 as [|x l Hx _ IH]; [done|]. rewrite filter_cons_False by lia. done. Qed.

Lemma filter_all (ws : Z) l : Forall (fun x => ws <= x) l -> filter (fun x => ws <= x) l = l.
Proof. induction 1 as [|x l Hx _ IH]; [done|]. rewrite filter_cons_True by lia. by f_equal. Qed.

Lemma window_of_reference h ws c : window_of h ws c -> reference_in_window h ws = c.
Proof.
  intros (p & -> & Hc & Hl & Hp). unfold reference_in_window.
  rewrite filter_app, (filter_all _ c) by done.
  destruct Hp as [Hp|Hp].
  - rewrite (filter_none _ p) by done. simpl. by replace (length c - _)%nat with 0%nat by lia.
  - rewrite length_app. rewrite Hp, Nat.add_sub. apply drop_app_length.
Qed.

Lemma sorted_app_le (p c : list Z) x y :
  StronglySorted Z.le (p ++ c) -> x ∈ p -> y ∈ c -> x <= y.
Proof.
  induction p as [|z p IH]; intros Hs Hx Hy; [by apply not_elem_of_nil in Hx|].
  inversion Hs as [|? ? Hs' HF]; subst. apply elem_of_cons in Hx as [->|Hx]; [|by apply IH].
  rewrite Forall_forall in HF. apply HF. set_solver.
Qed.

Lemma sorted_app_r (p c : list Z) : StronglySorted Z.le (p ++ c) -> StronglySorted Z.le c.
Proof. induction p as [|z p IH]; [done|]. intros Hs. inversion Hs; subst. by apply IH. Qed.

Lemma sorted_hd_ge ws (l : list Z) :
  StronglySorted Z.le l -> (forall x, hd_error l = Some x -> ws <= x) -> Forall (fun x => ws <= x) l.
Proof.
  intros Hs Hhd. destruct Hs as [|x l Hs HF]; [done|]. assert (ws <= x) by (by apply Hhd).
  constructor; [done|]. eapply Forall_impl; [exact HF|]. simpl. lia.
Qed.

Lemma window_of_nil ws : window_of [] ws [].
Proof. exists []. split; [done|]. split; [constructor|]. split; [apply Nat.le_0_l|left; constructor]. Qed.

(** One more stamp, recorded in time order with a window that only moves on. *)
Lemma window_of_record h ws c now ws' :
  StronglySorted Z.le h -> window_of h ws c -> ws <= ws' -> ws' <= now ->
  window_of (h ++ [now]) ws' (cap_oldest (expired_prefix ws' c) ++ [now]).
Proof.
  intros Hs (p & -> & Hc & Hl & Hp) Hws Hnow.
  destruct (expired_prefix_split ws' c) as (e & He & Hlt & Hhd). set (c' := expired_prefix ws' c) in *.
  assert (Hc' : Forall (fun x => ws' <= x) c').
  { apply sorted_hd_ge; [|done]. rewrite He, app_assoc in Hs. by eapply sorted_app_r. }
  assert (Hl' : (length c' <= MAX_RECENT_FAILURES_PER_TARGET)%nat)
    by (rewrite He, length_app in Hl; lia).
  clearbody c'. unfold cap_oldest. destruct (Nat.eqb_spec (length c') MAX_RECENT_FAILURES_PER_TARGET) as [E|E].
  - destruct c' as [|x c']; [simpl in E; assert (Hm := max_pos); lia|]. exists (p ++ e ++ [x]). simpl in *.
    split; [rewrite He, <- !app_assoc; done|]. inversion Hc'; subst.
    split; [by apply Forall_app; repeat constructor|]. rewrite length_app; simpl. split; [lia|right; lia].
  - exists (p ++ e). split; [rewrite He at 1; by rewrite <- !app_assoc|].
    split; [by apply Forall_app; repeat constructor|]. rewrite length_app; simpl. split; [lia|left].
    apply Forall_app; split; [|done]. destruct e as [|y e].
    + simpl in He. destruct Hp as [Hp|Hp]; [|by rewrite He in Hp]. eapply Forall_impl; [exact Hp|]. simpl; lia.
    + rewrite Forall_forall. intros x Hx. inversion Hlt; subst.
      enough (x <= y) by lia. eapply sorted_app_le; [exact Hs|done|]. set_solver.
Qed.

(** A run of records on a ring, with the stamps and the counts returned. *)
Fixpoint record_all (r : RecentFailureRing) (stamps : list (Z * Z)) : RecentFailureRing * list nat :=
  match stamps with
  | [] => (r, [])
  | (now, ws) :: rest =>
    let '(r', n) := record r now ws in
    let '(r'', ns) := record_all r' rest in (r'', n :: ns)
  end.

(** Stamps in time order, each window starting no earlier than the one before. *)
Fixpoint in_order (last last_ws : Z) (stamps : list (Z * Z)) : Prop :=
  match stamps with
  | [] => True
  | (now, ws) :: rest => last <= now /\ last_ws <= ws <= now /\ in_order now ws rest
  end.

(** The counts of the reference, one per prefix of the history. *)
Fixpoint reference_counts (history : list Z) (stamps : list (Z * Z)) : list nat :=
  match stamps with
  | [] => []
  | (now, ws) :: rest =>
    length (reference_in_window (history ++ [now]) ws) :: reference_counts (history ++ [now]) rest
  end.

Lemma sorted_snoc h now last :
  StronglySorted Z.le h -> Forall (fun x => x <= last) h -> last <= now ->
  StronglySorted Z.le (h ++ [now]).
Proof.
  induction 1 as [|x h Hs IH HF]; intros Hb Hle; [by repeat constructor|]. simpl.
  inversion Hb; subst. constructor; [by apply IH|]. apply Forall_app; split; [done|].
  repeat constructor. lia.
Qed.

Lemma record_all_reference stamps : forall r h last ws,
  ring_wf r -> StronglySorted Z.le h -> Forall (fun x => x <= last) h ->
  window_of h ws (contents r) -> in_order last ws stamps ->
  (record_all r stamps).2 = reference_counts h stamps.
Proof.
  induction stamps as [|[now ws'] rest IH]; intros r h last ws Hwf Hs Hb Hw Ho; [done|].
  destruct Ho as (Hlast & Hws & Ho). cbn [record_all reference_counts].
  assert (Hrec := record_refines r now ws' Hwf). destruct (record r now ws') as [r' n].
  destruct Hrec as (Hwf' & Hc & ->).
  assert (Hw' := window_of_record h ws _ now ws' Hs Hw ltac:(lia) ltac:(lia)). rewrite <- Hc in Hw'.
  specialize (IH r' (h ++ [now]) now ws' Hwf'). destruct (record_all r' rest) as [r'' ns].
  simpl in *. f_equal; [by rewrite (window_of_reference _ _ _ Hw')|].
  apply IH; [by eapply sorted_snoc| |done|done].
  apply Forall_app; split; [|repeat constructor; lia]. eapply Forall_impl; [exact Hb|]. simpl; lia.
Qed.

(** The failure ring counts exactly like the map it replaced: for every run of
    failures recorded in time order, with windows that only move forward, each
    call returns the number of stamps since the last clear that lie in its
    window, capped at 1000. *)
Theorem ring_counts_exact r stamps last ws :
  ring_wf r -> in_order last ws stamps ->
  (record_all (clear r) stamps).2 = reference_counts [] stamps.
Proof.
  intros Hwf Ho. destruct (clear_refines r Hwf) as [Hwf' Hc].
  eapply record_all_reference; [done|constructor|constructor| |exact Ho].
  rewrite Hc. apply window_of_nil.
Qed.

#[local] Transparent MAX_RECENT_FAILURES_PER_TARGET.

Lemma ring_counts_exact_witness :
  (record_all (clear ring_new) [(0, 0); (5, 0); (20, 10); (25, 15)]).2 = [1; 2; 1; 2]%nat.
Proof.
  rewrite (ring_counts_exact ring_new [(0, 0); (5, 0); (20, 10); (25, 15)] 0 0);
    [vm_compute; reflexivity|by left|simpl; lia].
Defined.

(** The order of the stamps matters. The clock is read before the lock is taken,
    so a reporter that read 5 may record after one that read 10; the stamp 5 is
    then hidden behind 10 and still counted when the window starts at 7. *)
Example out_of_order_stamp_is_counted_late :
  (record_all ring_new [(10, 0); (5, 0); (17, 7)]).2 = [1; 2; 3]%nat
  /\ reference_counts [] [(10, 0); (5, 0); (17, 7)] = [1; 2; 2]%nat.
Proof. split; vm_compute; reflexivity. Qed.
