(* ===== verification/PassiveHealth.v ===== *)
(** * Passive health of upstream targets ([src/src/health_check.rs])

    The packed streak word of consecutive mode, the ejection records, and the
    three entry points that change passive state run one after the other:
    [report_response], the recovery scan and the pruning calls. Latency resets
    requested from the balancer are returned as a list. [PassiveConcurrency.v]
    runs the consecutive-mode paths interleaved. *)

From S2P Require Import Prelude RuntimeKeys Upstream PassiveRing.

(** ** The packed word: 40 bits of generation, 24 bits of streak *)

Definition CONSECUTIVE_STREAK_BITS : Z := 24.
Definition CONSECUTIVE_STREAK_MASK : Z := Z.shiftl 1 CONSECUTIVE_STREAK_BITS - 1.
Definition CONSECUTIVE_STREAK_MAX : Z := CONSECUTIVE_STREAK_MASK.
Definition CONSECUTIVE_GEN_MAX : Z := Z.shiftl 1 (64 - CONSECUTIVE_STREAK_BITS) - 1.

(** The shift drops the bits above the word. *)
Definition pack_consecutive_state (generation streak : Z) : Z :=
  Z.lor (wrap 64 (Z.shiftl generation CONSECUTIVE_STREAK_BITS))
        (Z.land streak CONSECUTIVE_STREAK_MASK).

Definition unpack_consecutive_state (packed : Z) : Z * Z :=
  (Z.shiftr packed CONSECUTIVE_STREAK_BITS, Z.land packed CONSECUTIVE_STREAK_MASK).

Definition next_consecutive_generation (generation : Z) : Z :=
  if CONSECUTIVE_GEN_MAX <=? generation then 1 else generation + 1.

Record TargetHealth := Health {
  consecutive_successes : Z;
  consecutive_failures : Z;
  consecutive_state : Z;
  recent_failures : RecentFailureRing;
}.

Definition target_health_new : TargetHealth := Health 0 0 0 ring_new.

Definition with_health_successes (th : TargetHealth) (n : Z) : TargetHealth :=
  Health n (consecutive_failures th) (consecutive_state th) (recent_failures th).
Definition with_health_failures (th : TargetHealth) (n : Z) : TargetHealth :=
  Health (consecutive_successes th) n (consecutive_state th) (recent_failures th).
Definition with_consecutive (th : TargetHealth) (w : Z) : TargetHealth :=
  Health (consecutive_successes th) (consecutive_failures th) w (recent_failures th).
Definition with_ring (th : TargetHealth) (r : RecentFailureRing) : TargetHealth :=
  Health (consecutive_successes th) (consecutive_failures th) (consecutive_state th) r.

(** The three read-modify-write loops compute these successors of the word; each
    loop retries until the word it read is the one it replaces. *)
Definition failure_word (w : Z) : Z :=
  let '(generation, streak) := unpack_consecutive_state w in
  pack_consecutive_state generation (Z.min (saturating_add 32 streak 1) CONSECUTIVE_STREAK_MAX).

Definition retired_word (w : Z) : Z :=
  let '(generation, _) := unpack_consecutive_state w in
  pack_consecutive_state (next_consecutive_generation generation) 0.

Definition consecutive_generation_of (th : TargetHealth) : Z :=
  (unpack_consecutive_state (consecutive_state th)).1.

Definition record_consecutive_failure (th : TargetHealth) : TargetHealth * (Z * Z) :=
  let w := consecutive_state th in
  let '(generation, streak) := unpack_consecutive_state w in
  (with_consecutive th (failure_word w),
   (generation, Z.min (saturating_add 32 streak 1) CONSECUTIVE_STREAK_MAX)).

Definition record_consecutive_success (th : TargetHealth) : TargetHealth * Z :=
  let w := consecutive_state th in
  (with_consecutive th (retired_word w), (unpack_consecutive_state w).1).

Definition retire_consecutive_generation (th : TargetHealth) (generation : Z) : TargetHealth * bool :=
  let w := consecutive_state th in
  if negb ((unpack_consecutive_state w).1 =? generation) then (th, false)
  else (with_consecutive th (pack_consecutive_state (next_consecutive_generation generation) 0), true).

(** ** Ejection records *)

Record PassiveEjection := Ejection {
  ejected_at_ms : Z;
  ejected_at_tick_ms : Z;
  recover_at_tick_ms : Z;
  auto_recover : bool;
  ejection_upstream_id : bytes;
  ejection_host : bytes;
  ejection_port : Z;
  consecutive_generation : option Z;
}.

#[global] Instance PassiveEjection_eq_dec : EqDecision PassiveEjection.
Proof. solve_decision. Defined.

Definition from_policy (upstream_id : bytes) (target : UpstreamTarget)
    (healthy_after_seconds tick wall : Z) (generation : option Z) : PassiveEjection :=
  let recovery_delay_ms := saturating_mul 64 healthy_after_seconds 1000 in
  let '(auto, recover_at) :=
    if 0 <? healthy_after_seconds then
      match checked_add 64 tick recovery_delay_ms with
      | Some deadline => (true, deadline)
      | None => (false, umax 64)
      end
    else (false, tick) in
  Ejection wall tick recover_at auto upstream_id (host target) (port target) generation.

(** The fields of the policy that passive health and the balancer read. *)
Record PassiveHealthCheck := Passive {
  unhealthy_status_codes : list Z;
  unhealthy_threshold : Z;
  unhealthy_window_seconds : Z;
  healthy_after_seconds : Z;
  consecutive_error_mode : bool;
  consecutive_5xx_ejection_disabled : bool;
  policy_max_ejection_percent : option Z;
}.

Record ProxyHealthState := Proxy {
  unhealthy : gmap bytes PassiveEjection;
  states : gmap bytes TargetHealth;
}.

Definition proxy_state_new : ProxyHealthState := Proxy ∅ ∅.

Definition set_state (ps : ProxyHealthState) (key : bytes) (th : TargetHealth) : ProxyHealthState :=
  Proxy (unhealthy ps) (<[key := th]> (states ps)).
Definition set_ejection (ps : ProxyHealthState) (key : bytes) (e : PassiveEjection) : ProxyHealthState :=
  Proxy (<[key := e]> (unhealthy ps)) (states ps).

(** [DashMap::remove_if]: the entry is removed and returned when it matches. *)
Definition remove_ejection_if (ps : ProxyHealthState) (key : bytes) (p : PassiveEjection -> bool)
    : ProxyHealthState * option PassiveEjection :=
  match unhealthy ps !! key with
  | Some e => if p e then (Proxy (delete key (unhealthy ps)) (states ps), Some e) else (ps, None)
  | None => (ps, None)
  end.

Definition owned_by (generation : Z) (e : PassiveEjection) : bool :=
  bool_decide (consecutive_generation e = Some generation).

(** An ejection of an equal or later generation is already in the map. *)
Definition published_since (my_generation : Z) (e : PassiveEjection) : bool :=
  match consecutive_generation e with
  | Some g => my_generation <=? g
  | None => false
  end.

Definition try_publish_consecutive_ejection (ps : ProxyHealthState) (th : TargetHealth)
    (key : bytes) (e : PassiveEjection) (my_generation : Z) : ProxyHealthState * bool :=
  match unhealthy ps !! key with
  | Some existing =>
    if published_since my_generation existing then (ps, false)
    else if negb (consecutive_generation_of th =? my_generation) then (ps, false)
    else (set_ejection ps key e, true)
  | None =>
    if negb (consecutive_generation_of th =? my_generation) then (ps, false)
    else (set_ejection ps key e, true)
  end.

(** A latency reset requested from the balancer of [upstream]. *)
Record latency_reset := Reset { reset_namespace : bytes; reset_upstream : bytes; reset_target : UpstreamTarget }.

Definition reset_latency_after_passive_recovery_inner (ns upstream_id : bytes) (t : UpstreamTarget)
    : list latency_reset :=
  match upstream_id with [] => [] | _ => [Reset ns upstream_id t] end.

(** ** Reporting a response *)

Section report.
Context (ns upstream_id : bytes) (target : UpstreamTarget) (config : PassiveHealthCheck)
        (tick wall : Z).

Let key := target_host_port_key target.
Let ejection_for := from_policy upstream_id target (healthy_after_seconds config) tick wall.
Let reset (e : PassiveEjection) :=
  reset_latency_after_passive_recovery_inner ns (ejection_upstream_id e) target.

Definition failure_in_consecutive_mode (ps : ProxyHealthState) (th : TargetHealth)
    : ProxyHealthState * list latency_reset :=
  let '(th, (my_generation, my_streak)) := record_consecutive_failure th in
  let ps := set_state ps key th in
  if unhealthy_threshold config <=? my_streak then
    let already_published :=
      match unhealthy ps !! key with Some e => published_since my_generation e | None => false end in
    let '(ps, published) :=
      if already_published then (ps, false)
      else try_publish_consecutive_ejection ps th key (ejection_for (Some my_generation)) my_generation in
    if published then
      if negb (consecutive_generation_of th =? my_generation) then
        let '(ps, removed) := remove_ejection_if ps key (owned_by my_generation) in
        (ps, match removed with Some e => reset e | None => [] end)
      else (ps, [])
    else (ps, [])
  else (ps, []).

Definition failure_in_window_mode (ps : ProxyHealthState) (th : TargetHealth)
    : ProxyHealthState * list latency_reset :=
  let th := with_health_failures th (wrapping_add 32 (consecutive_failures th) 1) in
  let window_ms := saturating_mul 64 (unhealthy_window_seconds config) 1000 in
  let window_start := saturating_sub tick window_ms in
  let '(ring, observed) := record (recent_failures th) tick window_start in
  let failures_observed := wrap 32 (Z.of_nat observed) in
  let ps := set_state ps key (with_ring th ring) in
  if (unhealthy_threshold config <=? failures_observed)
     && bool_decide (unhealthy ps !! key = None)
  then (set_ejection ps key (ejection_for None), [])
  else (ps, []).

Definition recovered (ps : ProxyHealthState) (th : TargetHealth) (e : PassiveEjection)
    : ProxyHealthState * list latency_reset :=
  (set_state ps key (with_ring th (clear (recent_failures th))), reset e).

Definition success_in_consecutive_mode (ps : ProxyHealthState) (th : TargetHealth)
    : ProxyHealthState * list latency_reset :=
  let '(th, retired_generation) := record_consecutive_success th in
  let ps := set_state ps key th in
  match unhealthy ps !! key with
  | Some _ =>
    let '(ps, removed) := remove_ejection_if ps key (owned_by retired_generation) in
    match removed with Some e => recovered ps th e | None => (ps, []) end
  | None => (ps, [])
  end.

Definition success_in_window_mode (ps : ProxyHealthState) (th : TargetHealth)
    : ProxyHealthState * list latency_reset :=
  let th := if 0 <? consecutive_failures th then with_health_failures th 0 else th in
  let ps := set_state ps key th in
  match unhealthy ps !! key with
  | Some _ =>
    if 1 <=? consecutive_successes th then
      let '(ps, removed) := remove_ejection_if ps key (fun _ => true) in
      match removed with Some e => recovered ps th e | None => (ps, []) end
    else (ps, [])
  | None => (ps, [])
  end.

Definition is_failure (status_code : Z) (connection_error : bool) : bool :=
  connection_error || bool_decide (status_code ∈ unhealthy_status_codes config).

Definition report_target (status_code : Z) (connection_error : bool) (ps : ProxyHealthState)
    : ProxyHealthState * list latency_reset :=
  let th := default target_health_new (states ps !! key) in
  if is_failure status_code connection_error then
    let th := with_health_successes th 0 in
    if consecutive_error_mode config then failure_in_consecutive_mode ps th
    else failure_in_window_mode ps th
  else
    let th := with_health_successes th (wrapping_add 32 (consecutive_successes th) 1) in
    if consecutive_error_mode config then success_in_consecutive_mode ps th
    else success_in_window_mode ps th.
End report.

(** Passive state per namespaced proxy. *)
Notation passive_map := (gmap bytes ProxyHealthState).

Definition report_response (health : passive_map) (ns proxy_id upstream_id : bytes)
    (target : UpstreamTarget) (status_code : Z) (connection_error : bool)
    (passive_config : option PassiveHealthCheck) (tick wall : Z)
    : passive_map * list latency_reset :=
  match passive_config with
  | None => (health, [])
  | Some config =>
    if consecutive_5xx_ejection_disabled config && is_failure config status_code connection_error
    then (health, [])
    else
      let proxy_key := namespaced_runtime_key ns proxy_id in
      let ps := default proxy_state_new (health !! proxy_key) in
      let '(ps, resets) := report_target ns upstream_id target config tick wall
                             status_code connection_error ps in
      (<[proxy_key := ps]> health, resets)
  end.

(** ** The recovery scan *)

Definition is_due (now : Z) (e : PassiveEjection) : bool :=
  auto_recover e && (recover_at_tick_ms e <=? now).

Definition remove_due_consecutive_ejection (ps : ProxyHealthState) (hp : bytes)
    (snapshotted : PassiveEjection) (generation now : Z)
    : ProxyHealthState * option PassiveEjection :=
  match unhealthy ps !! hp with
  | Some current =>
    if negb (is_due now current
             && (recover_at_tick_ms current =? recover_at_tick_ms snapshotted)
             && owned_by generation current)
    then (ps, None)
    else
      let ps :=
        match states ps !! hp with
        | Some th => set_state ps hp (retire_consecutive_generation th generation).1
        | None => ps
        end in
      (Proxy (delete hp (unhealthy ps)) (states ps), Some current)
  | None => (ps, None)
  end.

(** One snapshotted ejection of the proxy [proxy_key]. *)
Definition recover_one (now : Z) (ns : bytes) (acc : ProxyHealthState * list latency_reset)
    (snapshot : bytes * PassiveEjection) : ProxyHealthState * list latency_reset :=
  let '(ps, resets) := acc in
  let '(hp, ejection) := snapshot in
  let '(ps, current) :=
    match consecutive_generation ejection with
    | Some generation => remove_due_consecutive_ejection ps hp ejection generation now
    | None =>
      remove_ejection_if ps hp (fun current =>
        is_due now current
        && (recover_at_tick_ms current =? recover_at_tick_ms ejection)
        && bool_decide (consecutive_generation current = None))
    end in
  match current with
  | None => (ps, resets)
  | Some current =>
    let ps :=
      match states ps !! hp with
      | Some th =>
        let th := if bool_decide (consecutive_generation current = None)
                  then with_health_failures th 0 else th in
        let th := with_health_successes th 0 in
        set_state ps hp (with_ring th (clear (recent_failures th)))
      | None => ps
      end in
    (ps, resets ++ reset_latency_after_passive_recovery_inner ns (ejection_upstream_id current)
                     (bare_target (ejection_host current) (ejection_port current)))
  end.

Definition to_recover (now : Z) (ps : ProxyHealthState) : list (bytes * PassiveEjection) :=
  List.filter (fun '(_, e) => is_due now e) (map_to_list (unhealthy ps)).

Definition recover_proxy (now : Z) (ns : bytes) (ps : ProxyHealthState)
    (pending : list (bytes * PassiveEjection)) : ProxyHealthState * list latency_reset :=
  foldl (recover_one now ns) (ps, []) pending.

(** [proxy_key.split_once('|')]: the text before the first separator. *)
Definition proxy_key_namespace (proxy_key : bytes) : bytes :=
  default proxy_key (hd_error (split_on 124 proxy_key)).

Definition recover_pending (now : Z) (acc : passive_map * list latency_reset)
    (pending : bytes * (ProxyHealthState * list (bytes * PassiveEjection)))
    : passive_map * list latency_reset :=
  let '(health, resets) := acc in
  let '(proxy_key, (ps, due)) := pending in
  let '(ps, rs) := recover_proxy now (proxy_key_namespace proxy_key) ps due in
  (<[proxy_key := ps]> health, resets ++ rs).

(** The due ejections of all proxies are collected before any is removed. *)
Definition recover_due_passive_ejections (health : passive_map) (now : Z)
    : passive_map * list latency_reset :=
  let pending :=
    List.filter (fun '(_, (_, l)) => negb (bool_decide (l = [])))
      (map (fun '(k, ps) => (k, (ps, to_recover now ps))) (map_to_list health)) in
  foldl (recover_pending now) (health, []) pending.

(** ** Pruning *)

Definition remove_stale_passive_targets_for_proxy (health : passive_map) (ns proxy_id : bytes)
    (current_targets : list UpstreamTarget) : passive_map :=
  let proxy_key := namespaced_runtime_key ns proxy_id in
  match health !! proxy_key with
  | None => health
  | Some ps =>
    let current := map target_host_port_key current_targets in
    <[proxy_key := Proxy (filter (fun '(k, _) => k ∈ current) (unhealthy ps))
                         (filter (fun '(k, _) => k ∈ current) (states ps))]> health
  end.

Definition prune_removed_proxies (health : passive_map) (removed : list NamespacedResourceId)
    : passive_map :=
  foldl (fun health r => delete (namespaced_runtime_key (namespace r) (id r)) health) health removed.

(** ** The packed word *)

Definition gen_ok (g : Z) : Prop := 0 <= g <= CONSECUTIVE_GEN_MAX.
Definition streak_ok (s : Z) : Prop := 0 <= s <= CONSECUTIVE_STREAK_MAX.

Lemma pack_value g s :
  gen_ok g -> streak_ok s -> pack_consecutive_state g s = g * 2 ^ 24 + s.
Proof.
  unfold gen_ok, streak_ok, pack_consecutive_state, CONSECUTIVE_STREAK_BITS. intros Hg Hs.
  change CONSECUTIVE_GEN_MAX with (2 ^ 40 - 1) in Hg. change CONSECUTIVE_STREAK_MAX with (2 ^ 24 - 1) in Hs.
  change CONSECUTIVE_STREAK_MASK with (Z.ones 24). rewrite Z.land_ones, Z.mod_small by lia.
  rewrite Z.shiftl_mul_pow2, wrap_small by (unfold in_width; lia).
  apply lor_disjoint; lia.
Qed.

Lemma unpack_value w :
  unpack_consecutive_state w = (w / 2 ^ 24, w mod 2 ^ 24).
Proof.
  unfold unpack_consecutive_state, CONSECUTIVE_STREAK_BITS. rewrite Z.shiftr_div_pow2 by lia.
  change CONSECUTIVE_STREAK_MASK with (Z.ones 24). by rewrite Z.land_ones by lia.
Qed.

(** Packing and unpacking are inverse on every pair in range. *)
Lemma unpack_pack g s :
  gen_ok g -> streak_ok s -> unpack_consecutive_state (pack_consecutive_state g s) = (g, s).
Proof.
  intros Hg Hs. rewrite pack_value, unpack_value by done. unfold streak_ok in Hs.
  change CONSECUTIVE_STREAK_MAX with (2 ^ 24 - 1) in Hs.
  f_equal; [rewrite Z.div_add_l by lia; rewrite Z.div_small; lia|].
  rewrite Z.add_comm, Z.mod_add by lia. apply Z.mod_small. lia.
Qed.

Lemma gen_ok_next g : gen_ok g -> gen_ok (next_consecutive_generation g).
Proof.
  unfold gen_ok, next_consecutive_generation. change CONSECUTIVE_GEN_MAX with (2 ^ 40 - 1).
  intros. zcases.
Qed.

Lemma gen_ok_0 : gen_ok 0.
Proof. unfold gen_ok. change CONSECUTIVE_GEN_MAX with (2 ^ 40 - 1). lia. Qed.

Lemma streak_ok_0 : streak_ok 0.
Proof. unfold streak_ok. change CONSECUTIVE_STREAK_MAX with (2 ^ 24 - 1). lia. Qed.

Lemma streak_ok_next s :
  streak_ok s -> streak_ok (Z.min (saturating_add 32 s 1) CONSECUTIVE_STREAK_MAX).
Proof. unfold streak_ok, saturating_add, umax. change CONSECUTIVE_STREAK_MAX with (2 ^ 24 - 1). lia. Qed.

#[export] Hint Resolve gen_ok_next gen_ok_0 streak_ok_0 streak_ok_next : ferrum.

(** A word holding a generation and a streak. *)
Definition holds_pair (w g s : Z) : Prop :=
  gen_ok g /\ streak_ok s /\ w = pack_consecutive_state g s.

Lemma holds_pair_new : holds_pair 0 0 0.
Proof. split; [|split]; auto with ferrum. Qed.

Lemma holds_pair_unpack w g s : holds_pair w g s -> unpack_consecutive_state w = (g, s).
Proof. intros (Hg & Hs & ->). by apply unpack_pack. Qed.

Lemma holds_pair_failure w g s :
  holds_pair w g s ->
  holds_pair (failure_word w) g (Z.min (saturating_add 32 s 1) CONSECUTIVE_STREAK_MAX).
Proof.
  intros H. unfold failure_word. rewrite (holds_pair_unpack _ _ _ H). destruct H as (? & ? & _).
  split; [|split]; auto with ferrum.
Qed.

Lemma holds_pair_retired w g s :
  holds_pair w g s -> holds_pair (retired_word w) (next_consecutive_generation g) 0.
Proof.
  intros H. unfold retired_word. rewrite (holds_pair_unpack _ _ _ H). destruct H as (? & ? & _).
  split; [|split]; auto with ferrum.
Qed.

(** ** What a recovery scan does

    The state of a recovered target: its generation retired or its window-mode
    counter zeroed, no success counted yet, no failure remembered. *)
Definition recovered_health (e : PassiveEjection) (th : TargetHealth) : TargetHealth :=
  let th :=
    match consecutive_generation e with
    | Some g => (retire_consecutive_generation th g).1
    | None => with_health_failures th 0
    end in
  with_ring (with_health_successes th 0) (clear (recent_failures th)).

Definition recovered_reset (ns : bytes) (e : PassiveEjection) : list latency_reset :=
  reset_latency_after_passive_recovery_inner ns (ejection_upstream_id e)
    (bare_target (ejection_host e) (ejection_port e)).

Lemma recover_one_due now ns ps resets hp e :
  unhealthy ps !! hp = Some e -> is_due now e = true ->
  recover_one now ns (ps, resets) (hp, e)
  = (Proxy (delete hp (unhealthy ps)) (alter (recovered_health e) hp (states ps)),
     resets ++ recovered_reset ns e).
Proof.
  intros He Hd. unfold recover_one, remove_due_consecutive_ejection, remove_ejection_if, owned_by.
  rewrite He, Hd, Z.eqb_refl. unfold recovered_health. destruct (consecutive_generation e) as [g|] eqn:Eg.
  - rewrite bool_decide_true by done. cbn [negb andb]. destruct (states ps !! hp) as [th|] eqn:Es.
    + cbn [set_state unhealthy states]. rewrite lookup_insert_eq, Eg, bool_decide_false by done.
      unfold set_state. cbn [states unhealthy]. rewrite insert_insert_eq.
      by rewrite alter_alt, Es.
    + cbn [set_state unhealthy states]. by rewrite alter_alt, Es.
  - rewrite bool_decide_true by done. cbn [andb unhealthy states].
    destruct (states ps !! hp) as [th|] eqn:Es.
    + rewrite Eg, bool_decide_true by done. unfold set_state. cbn [states unhealthy].
      by rewrite alter_alt, Es.
    + by rewrite alter_alt, Es.
Qed.

(** The snapshots are distinct targets that are still due, so each is removed. *)
Lemma recover_fold now ns l : forall ps resets,
  NoDup l.*1 -> (forall k e, (k, e) ∈ l -> unhealthy ps !! k = Some e /\ is_due now e = true) ->
  let r := foldl (recover_one now ns) (ps, resets) l in
  (forall k, unhealthy r.1 !! k = if decide (k ∈ l.*1) then None else unhealthy ps !! k)
  /\ (forall k, k ∉ l.*1 -> states r.1 !! k = states ps !! k)
  /\ (forall k e, (k, e) ∈ l -> states r.1 !! k = recovered_health e <$> states ps !! k)
  /\ r.2 = resets ++ flat_map (fun '(_, e) => recovered_reset ns e) l.
Proof.
  induction l as [|[hp e] l IH]; intros ps resets Hnd Hin; cbn [foldl].
  - split; [done|]. split; [done|]. split; [intros k e H; by apply not_elem_of_nil in H|].
    simpl. by rewrite app_nil_r.
  - rewrite fmap_cons in Hnd. apply NoDup_cons in Hnd as [Hhp Hnd]. simpl in Hhp.
    destruct (Hin hp e ltac:(left)) as [He Hd]. rewrite recover_one_due by done.
    set (ps' := Proxy _ _). destruct (IH ps' (resets ++ recovered_reset ns e) Hnd) as (H1 & H2 & H3 & H4).
    { intros k e' Hk. assert (k <> hp) by (intros ->; apply Hhp; by apply (list_elem_of_fmap_2 fst _ (hp, e'))).
      subst ps'. simpl. rewrite lookup_delete_ne by done. apply Hin. by right. }
    simpl in *. split; [|split; [|split]].
    + intros k. rewrite H1. destruct (decide (k ∈ l.*1)) as [E|E].
      * rewrite decide_True by (by right). done.
      * destruct (decide (k = hp)) as [->|Hne].
        -- rewrite decide_True by (by left). apply lookup_delete_eq.
        -- rewrite decide_False by (rewrite not_elem_of_cons; done). by rewrite lookup_delete_ne.
    + intros k [Hne Hk]%not_elem_of_cons. rewrite H2 by done. by apply lookup_alter_ne.
    + intros k e' [[= -> ->]|Hk]%elem_of_cons.
      * rewrite H2 by done. apply lookup_alter_eq.
      * rewrite (H3 k e') by done. f_equal. apply lookup_alter_ne. intros ->. apply Hhp.
        by apply (list_elem_of_fmap_2 fst _ (k, e')).
    + by rewrite H4, app_assoc.
Qed.

Lemma elem_of_to_recover now ps k e :
  (k, e) ∈ to_recover now ps <-> unhealthy ps !! k = Some e /\ is_due now e = true.
Proof.
  unfold to_recover. rewrite list_elem_of_In, filter_In, <- list_elem_of_In, elem_of_map_to_list. done.
Qed.

Lemma to_recover_nodup now ps : NoDup (to_recover now ps).*1.
Proof.
  unfold to_recover. assert (H := NoDup_fst_map_to_list (unhealthy ps)).
  induction (map_to_list (unhealthy ps)) as [|[k e] l IH]; [done|]. simpl in *.
  apply NoDup_cons in H as [Hk H]. destruct (is_due now e); [|by apply IH].
  simpl. apply NoDup_cons. split; [|by apply IH]. intros [[k' e'] [-> Hin]]%list_elem_of_fmap.
  apply Hk. apply list_elem_of_In, filter_In in Hin as [Hin _].
  apply list_elem_of_fmap. exists (k', e'). by rewrite list_elem_of_In.
Qed.

(** The scan of one proxy: what it leaves of the ejections and of the states. *)
Definition after_scan (now : Z) (ps : ProxyHealthState) (ps' : ProxyHealthState) : Prop :=
  forall k,
    match unhealthy ps !! k with
    | Some e =>
      if is_due now e
      then unhealthy ps' !! k = None /\ states ps' !! k = recovered_health e <$> states ps !! k
      else unhealthy ps' !! k = Some e /\ states ps' !! k = states ps !! k
    | None => unhealthy ps' !! k = None /\ states ps' !! k = states ps !! k
    end.

Lemma recover_proxy_exact now ns ps :
  after_scan now ps (recover_proxy now ns ps (to_recover now ps)).1.
Proof.
  intros k. unfold recover_proxy.
  destruct (recover_fold now ns (to_recover now ps) ps [] (to_recover_nodup now ps)) as (H1 & H2 & H3 & _).
  { intros k' e'. by rewrite elem_of_to_recover. }
  rewrite H1. destruct (decide (k ∈ (to_recover now ps).*1)) as [Hk|Hk].
  - apply list_elem_of_fmap in Hk as [[k' e] [E Hin]]. simpl in E. subst k'. rewrite (H3 _ _ Hin).
    apply elem_of_to_recover in Hin as [He Hd]. by rewrite He, Hd.
  - rewrite H2 by done. destruct (unhealthy ps !! k) as [e|] eqn:He; [|done].
    destruct (is_due now e) eqn:Hd; [|done]. destruct Hk.
    apply list_elem_of_fmap. exists (k, e). by rewrite elem_of_to_recover.
Qed.

Lemma recover_proxy_nil now ns ps : to_recover now ps = [] -> (recover_proxy now ns ps (to_recover now ps)).1 = ps.
Proof. by intros ->. Qed.

Lemma recover_pending_lookup now (l : list (bytes * (ProxyHealthState * list (bytes * PassiveEjection)))) :
  NoDup l.*1 -> forall (health : passive_map) resets pk,
  (foldl (recover_pending now) (health, resets) l).1 !! pk
  = match list_find (fun '(k, _) => k = pk) l with
    | Some (_, (_, (ps, due))) => Some (recover_proxy now (proxy_key_namespace pk) ps due).1
    | None => health !! pk
    end.
Proof.
  induction l as [|[k [ps due]] l IH]; intros Hnd health resets pk; [done|]. cbn [foldl list_find].
  rewrite fmap_cons in Hnd. apply NoDup_cons in Hnd as [Hk Hnd]. simpl in Hk.
  unfold recover_pending at 2.
  destruct (recover_proxy now (proxy_key_namespace k) ps due) as [ps' rs] eqn:E.
  rewrite IH by done. destruct (decide (k = pk)) as [->|Hne].
  - destruct (list_find _ l) as [[i [k' [ps2 due2]]]|] eqn:F.
    + apply list_find_Some in F as (F & -> & _). destruct Hk. apply list_elem_of_fmap.
      exists (pk, (ps2, due2)). split; [done|]. by eapply list_elem_of_lookup_2.
    + by rewrite lookup_insert_eq, E.
  - destruct (list_find _ l) as [[i [k' [ps2 due2]]]|]; [done|]. by rewrite lookup_insert_ne.
Qed.

(** The keys of the proxies with something due are distinct. *)
Lemma pending_find (now : Z) (health : passive_map) (pk : bytes) :
  let pending := List.filter (fun '(_, (_, l)) => negb (bool_decide (l = [])))
                   (map (fun '(k, ps) => (k, (ps, to_recover now ps))) (map_to_list health)) in
  NoDup pending.*1 /\
  match list_find (fun '(k, _) => k = pk) pending with
  | Some (_, (_, (ps, due))) => health !! pk = Some ps /\ due = to_recover now ps
  | None => forall ps, health !! pk = Some ps -> to_recover now ps = []
  end.
Proof.
  intros pending.
  assert (Hin : forall k ps due, (k, (ps, due)) ∈ pending <->
            health !! k = Some ps /\ due = to_recover now ps /\ due <> []).
  { intros k ps due. subst pending. rewrite list_elem_of_In, filter_In, in_map_iff.
    setoid_rewrite <- list_elem_of_In. split.
    - intros [([k' ps'] & [= -> -> <-] & H) Hne]. rewrite elem_of_map_to_list in H.
      split; [done|]. split; [done|]. intros E. by rewrite bool_decide_true in Hne.
    - intros (H & -> & Hne). split; [|by rewrite bool_decide_false].
      exists (k, ps). by rewrite elem_of_map_to_list. }
  split.
  - assert (H := NoDup_fst_map_to_list health). subst pending. clear Hin.
    induction (map_to_list health) as [|[k ps] l IH]; [done|]. simpl in *.
    apply NoDup_cons in H as [Hk H]. destruct (negb _); [|by apply IH].
    simpl. apply NoDup_cons. split; [|by apply IH]. intros [[k' [ps' d']] [-> Hin]]%list_elem_of_fmap.
    apply Hk. apply list_elem_of_In, filter_In in Hin as [[[k2 ps2] [[= <- <- <-] Hin]]%in_map_iff _].
    apply list_elem_of_fmap. exists (k2, ps2). by rewrite list_elem_of_In.
  - destruct (list_find _ pending) as [[i [k [ps due]]]|] eqn:F.
    + apply list_find_Some in F as (F & -> & _). apply list_elem_of_lookup_2, Hin in F. naive_solver.
    + apply list_find_None in F. intros ps Hps. destruct (to_recover now ps) as [|x l] eqn:E; [done|].
      rewrite Forall_forall in F. destruct (F (pk, (ps, to_recover now ps))); [|done].
      apply Hin. split; [done|]. split; [done|]. by rewrite E.
Qed.

(** A recovery scan removes exactly the ejections whose timer is due, in every
    proxy: each of them gets its generation retired, or its counter zeroed, and
    its failure window cleared, and every other ejection and counter of every
    proxy is left as it was. *)
Theorem recovery_scan_exact (health : passive_map) (now : Z) (pk : bytes) :
  match health !! pk, (recover_due_passive_ejections health now).1 !! pk with
  | Some ps, Some ps' => after_scan now ps ps'
  | None, None => True
  | _, _ => False
  end.
Proof.
  unfold recover_due_passive_ejections. destruct (pending_find now health pk) as [Hnd Hf].
  rewrite recover_pending_lookup by done.
  destruct (list_find _ _) as [[i [k [ps due]]]|].
  - destruct Hf as [-> ->]. apply recover_proxy_exact.
  - destruct (health !! pk) as [ps|]; [|done]. specialize (Hf ps eq_refl).
    rewrite <- (recover_proxy_nil now [] ps Hf) at 2. apply recover_proxy_exact.
Qed.
