(* ===== verification/PassiveWindow.v ===== *)
(** * Windowed passive health against its specification
    ([src/src/health_check.rs])

    One target of one proxy in windowed mode. The specification remembers the
    failure times since the last recovery and nothing else; the code keeps
    counters, a bounded ring and two maps. *)

From Stdlib Require Import Sorted.
From S2P Require Import Prelude RuntimeKeys Upstream PassiveRing PassiveHealth.

#[local] Opaque MAX_RECENT_FAILURES_PER_TARGET.

(** What operators are promised about one target. *)
Record window_view := View { since_recovery : list Z; ejected : option PassiveEjection }.

Inductive health_event :=
| Responded (tick wall status_code : Z) (connection_error : bool)
| Scanned (now : Z).

Section window.
Context (ns upstream_id : bytes) (target : UpstreamTarget) (config : PassiveHealthCheck).
Hypothesis window_mode : consecutive_error_mode config = false.
Hypothesis window_valid : 0 <= unhealthy_window_seconds config.
Hypothesis threshold_valid :
  1 <= unhealthy_threshold config <= Z.of_nat MAX_RECENT_FAILURES_PER_TARGET.

Let key := target_host_port_key target.

Definition window_start (tick : Z) : Z :=
  saturating_sub tick (saturating_mul 64 (unhealthy_window_seconds config) 1000).

(** The number of failures in the window that ends at [tick], without a cap. *)
Definition failures_in_window (history : list Z) (tick : Z) : Z :=
  Z.of_nat (length (filter (fun t => window_start tick <= t) history)).

Definition window_spec (v : window_view) (ev : health_event) : window_view :=
  match ev with
  | Responded tick wall status conn =>
    if is_failure config status conn then
      let history := since_recovery v ++ [tick] in
      match ejected v with
      | Some e => View history (Some e)
      | None =>
        if unhealthy_threshold config <=? failures_in_window history tick
        then View history
               (Some (from_policy upstream_id target (healthy_after_seconds config) tick wall None))
        else View history None
      end
    else
      match ejected v with
      | Some _ => View [] None
      | None => v
      end
  | Scanned now =>
    match ejected v with
    | Some e => if is_due now e then View [] None else v
    | None => v
    end
  end.

(** The code on the state of the proxy. *)
Definition health_step (ps : ProxyHealthState) (ev : health_event) : ProxyHealthState :=
  match ev with
  | Responded tick wall status conn =>
    (report_target ns upstream_id target config tick wall status conn ps).1
  | Scanned now => (recover_proxy now ns ps (to_recover now ps)).1
  end.

(** Responses are reported in time order. *)
Fixpoint in_time (last : Z) (evs : list health_event) : Prop :=
  match evs with
  | [] => True
  | Responded tick _ _ _ :: rest => last <= tick /\ in_time tick rest
  | Scanned _ :: rest => in_time last rest
  end.

Definition state_of (ps : ProxyHealthState) : TargetHealth :=
  default target_health_new (states ps !! key).

Record window_sim (last : Z) (v : window_view) (ps : ProxyHealthState) : Prop := {
  ws_ejected : unhealthy ps !! key = ejected v;
  ws_native : forall e, ejected v = Some e -> consecutive_generation e = None;
  ws_quiet : ejected v <> None -> consecutive_successes (state_of ps) = 0;
  ws_ring : ring_wf (recent_failures (state_of ps));
  ws_sorted : StronglySorted Z.le (since_recovery v);
  ws_bound : Forall (fun t => t <= last) (since_recovery v);
  ws_window : exists t, t <= last /\
    window_of (since_recovery v) (window_start t) (contents (recent_failures (state_of ps)));
}.

Lemma window_start_mono a b : a <= b -> window_start a <= window_start b.
Proof. unfold window_start, saturating_sub. lia. Qed.

Lemma window_start_le a : 0 <= a -> window_start a <= a.
Proof. unfold window_start, saturating_sub, saturating_mul, umax. lia. Qed.

Lemma reference_length h ws :
  length (reference_in_window h ws)
  = Nat.min MAX_RECENT_FAILURES_PER_TARGET (length (filter (fun t => ws <= t) h)).
Proof. unfold reference_in_window. rewrite length_drop. lia. Qed.

(** The capped count decides like the exact one. *)
Lemma capped_decision n :
  unhealthy_threshold config <=? wrap 32 (Z.of_nat (Nat.min MAX_RECENT_FAILURES_PER_TARGET n))
  = (unhealthy_threshold config <=? Z.of_nat n).
Proof.
  assert (Hm : Z.of_nat MAX_RECENT_FAILURES_PER_TARGET = 1000) by (vm_compute; reflexivity).
  rewrite wrap_small by (unfold in_width; lia).
  destruct (Z.leb_spec (unhealthy_threshold config) (Z.of_nat n)),
           (Z.leb_spec (unhealthy_threshold config)
              (Z.of_nat (Nat.min MAX_RECENT_FAILURES_PER_TARGET n))); lia.
Qed.

Lemma state_of_set ps th : state_of (set_state ps key th) = th.
Proof. unfold state_of, set_state. cbn [states]. by rewrite lookup_insert_eq. Qed.

Lemma state_of_eject ps k e : state_of (set_ejection ps k e) = state_of ps.
Proof. done. Qed.

Lemma failure_sim last v ps tick wall th :
  0 <= tick -> last <= tick -> window_sim last v ps -> consecutive_successes th = 0 ->
  recent_failures th = recent_failures (state_of ps) ->
  let history := since_recovery v ++ [tick] in
  window_sim tick
    match ejected v with
    | Some e => View history (Some e)
    | None =>
      if unhealthy_threshold config <=? failures_in_window history tick
      then View history
             (Some (from_policy upstream_id target (healthy_after_seconds config) tick wall None))
      else View history None
    end
    (failure_in_window_mode upstream_id target config tick wall ps th).1.
Proof.
  intros H0 Hlast [He Hn Hq Hr Hs Hb (t & Ht & Hw)] Hsucc Hring history.
  unfold failure_in_window_mode. cbn [recent_failures with_health_failures]. fold (window_start tick).
  rewrite Hring. assert (Hrec := record_refines (recent_failures (state_of ps)) tick (window_start tick) Hr).
  destruct (record _ tick _) as [ring observed]. destruct Hrec as (Hwf & Hc & ->).
  assert (Hw' : window_of history (window_start tick) (contents ring)).
  { rewrite Hc. eapply window_of_record; [done|exact Hw|apply window_start_mono; lia|by apply window_start_le]. }
  rewrite <- (window_of_reference _ _ _ Hw') at 1. rewrite reference_length, capped_decision.
  fold (failures_in_window history tick). fold key.
  assert (Hcommon : forall ej ps', unhealthy ps' !! key = ej ->
            (forall e, ej = Some e -> consecutive_generation e = None) ->
            state_of ps' = with_ring (with_health_failures th (wrapping_add 32 (consecutive_failures th) 1)) ring ->
            window_sim tick (View history ej) ps').
  { intros ej ps' Hu Hg Hst. constructor; rewrite ?Hst; cbn [ejected since_recovery];
      [done|done|intros _; simpl; done|done| | |exists tick; by split].
    - by eapply sorted_snoc.
    - apply Forall_app; split; [|by repeat constructor].
      eapply Forall_impl; [exact Hb|]. simpl; lia. }
  cbn [unhealthy set_state]. rewrite He. destruct (ejected v) as [e|] eqn:Ee.
  - rewrite bool_decide_false by done. rewrite andb_false_r. cbn [fst].
    apply Hcommon; [done|by intros e' [= <-]; apply Hn|apply state_of_set].
  - rewrite bool_decide_true, andb_true_r by done.
    destruct (unhealthy_threshold config <=? failures_in_window history tick); cbn [fst].
    + apply Hcommon; [unfold set_ejection; cbn [unhealthy]; by rewrite lookup_insert_eq| |].
      * intros e [= <-]. unfold from_policy. by repeat case_match.
      * rewrite state_of_eject. apply state_of_set.
    + apply Hcommon; [done|done|apply state_of_set].
Qed.

Lemma success_sim last v ps tick th :
  last <= tick -> window_sim last v ps ->
  consecutive_successes th = wrapping_add 32 (consecutive_successes (state_of ps)) 1 ->
  recent_failures th = recent_failures (state_of ps) ->
  window_sim tick (match ejected v with Some _ => View [] None | None => v end)
    (success_in_window_mode ns target ps th).1.
Proof.
  intros Hlast [He Hn Hq Hr Hs Hb (t & Ht & Hw)] Hsucc Hring.
  unfold success_in_window_mode. fold key.
  set (th' := if 0 <? consecutive_failures th then with_health_failures th 0 else th).
  assert (Hth' : consecutive_successes th' = consecutive_successes th /\
                 recent_failures th' = recent_failures th) by (subst th'; by case_match).
  destruct Hth' as [Hth1 Hth2]. cbn [unhealthy set_state]. rewrite He.
  destruct (ejected v) as [e|] eqn:Ee.
  - rewrite Hth1, Hsucc, Hq by done. change (1 <=? wrapping_add 32 0 1) with true. cbn iota.
    unfold remove_ejection_if. cbn [unhealthy set_state]. rewrite He. cbn [fst recovered].
    unfold recovered. cbn [fst]. fold key.
    destruct (clear_refines _ Hr) as [Hcwf Hcc]. rewrite Hth2, Hring.
    constructor; rewrite ?state_of_set; cbn [ejected since_recovery recent_failures with_ring];
      [|done|done|done|constructor|constructor|].
    + cbn [unhealthy set_state]. by rewrite lookup_delete_eq.
    + exists tick. split; [done|]. rewrite Hcc. apply window_of_nil.
  - cbn [fst]. constructor; rewrite ?state_of_set; [by cbn [unhealthy set_state]; rewrite He, Ee| | | |done| |].
    + by rewrite Ee.
    + by rewrite Ee.
    + by rewrite Hth2, Hring.
    + eapply Forall_impl; [exact Hb|]. simpl; lia.
    + exists t. split; [lia|]. by rewrite Hth2, Hring.
Qed.

Lemma scan_sim last v ps now :
  window_sim last v ps ->
  window_sim last
    match ejected v with
    | Some e => if is_due now e then View [] None else v
    | None => v
    end (recover_proxy now ns ps (to_recover now ps)).1.
Proof.
  intros Hsim. assert (Hsim' := Hsim). destruct Hsim' as [He Hn Hq Hr Hs Hb (t & Ht & Hw)].
  assert (Ha := recover_proxy_exact now ns ps key).
  set (ps' := (recover_proxy now ns ps (to_recover now ps)).1) in *. clearbody ps'. rewrite He in Ha.
  assert (Hsame : unhealthy ps' !! key = ejected v -> states ps' !! key = states ps !! key ->
                  window_sim last v ps').
  { intros Hu Hst. assert (Hso : state_of ps' = state_of ps) by (unfold state_of; by rewrite Hst).
    constructor; rewrite ?Hso; [done|done|done|done|done|done|by exists t]. }
  destruct (ejected v) as [e|] eqn:Ee; [|by destruct Ha; apply Hsame].
  destruct (is_due now e); destruct Ha as [Hu Hst]; [|by apply Hsame].
  assert (Hrf : ring_wf (recent_failures (state_of ps')) /\ contents (recent_failures (state_of ps')) = []).
  { unfold state_of in *. rewrite Hst. destruct (states ps !! key) as [th|]; cbn [fmap option_fmap option_map default] in *.
    - unfold recovered_health. rewrite (Hn e eq_refl). by apply clear_refines.
    - split; [by left|done]. }
  destruct Hrf as [Hrf Hrc]. constructor; cbn [ejected since_recovery];
    [done|done|done|done|constructor|constructor|].
  exists t. split; [done|]. rewrite Hrc. apply window_of_nil.
Qed.

Lemma health_step_sim last v ps ev :
  0 <= last -> in_time last [ev] -> window_sim last v ps ->
  exists last', last <= last' /\ (forall rest, in_time last (ev :: rest) -> in_time last' rest)
    /\ window_sim last' (window_spec v ev) (health_step ps ev).
Proof.
  intros H0 Ht Hsim. destruct ev as [tick wall status conn|now]; cbn [in_time window_spec health_step] in *.
  - destruct Ht as [Ht _]. exists tick. split; [done|]. split; [naive_solver|].
    unfold report_target. rewrite window_mode. fold key.
    destruct (is_failure config status conn).
    + apply (failure_sim last); [lia|done|done|done|done].
    + apply (success_sim last); done.
  - exists last. split; [done|]. split; [done|]. by apply scan_sim.
Qed.

Lemma health_run_sim evs : forall last v ps,
  0 <= last -> in_time last evs -> window_sim last v ps ->
  exists last', window_sim last' (foldl window_spec v evs) (foldl health_step ps evs).
Proof.
  induction evs as [|ev evs IH]; intros last v ps H0 Ht Hsim; cbn [foldl]; [by exists last|].
  destruct (health_step_sim last v ps ev H0) as (last' & Hl & Hrest & Hsim'); [|done|].
  { destruct ev; simpl in *; naive_solver. }
  apply (IH last'); [lia|by apply Hrest|done].
Qed.

(** C15. In windowed mode, for reports that arrive one at a time with stamps that
    never go back, a target is ejected exactly when the specification says so:
    over any such run of responses, with the recovery timer's scans anywhere
    between them, the entry the balancer reads is the one of a specification that
    counts, without any cap, the failures of the window since the last recovery,
    ejects at the configured threshold, and clears the ejection at the first
    success or when a scan finds the timer due. Reports that overlap are not
    covered: the code stamps a report before it takes the ring's lock. *)
Theorem window_health_refines (evs : list health_event) :
  in_time 0 evs ->
  unhealthy (foldl health_step proxy_state_new evs) !! target_host_port_key target
  = ejected (foldl window_spec (View [] None) evs).
Proof.
  intros Ht. destruct (health_run_sim evs 0 (View [] None) proxy_state_new) as [last Hsim]; [lia|done| |].
  - constructor; cbn [ejected since_recovery]; [done|done|done|by left|constructor|constructor|].
    exists 0. split; [lia|]. apply window_of_nil.
  - apply Hsim.
Qed.
End window.

(** Three failures within ten seconds eject; the timer restores the target. *)
Definition three_in_ten : PassiveHealthCheck := Passive [500; 503] 3 10 30 false false None.
Definition api : UpstreamTarget := bare_target (bs "10.0.0.1") 8080.

Lemma window_health_refines_witness :
  unhealthy (foldl (health_step (bs "default") (bs "up") api three_in_ten) proxy_state_new
    [Responded 0 0 500 false; Responded 9000 0 200 false; Responded 11000 0 503 false;
     Responded 12000 0 502 true; Responded 13000 0 500 false; Scanned 43000]) !! target_host_port_key api
  = None.
Proof.
  rewrite (window_health_refines (bs "default") (bs "up") api three_in_ten);
    [vm_compute; reflexivity|reflexivity|vm_compute; discriminate|split; vm_compute; discriminate|].
  simpl. lia.
Defined.
