(* ===== verification/PassiveConcurrency.v ===== *)
(** * Consecutive-mode passive health under concurrency
    ([src/src/health_check.rs])

    One target of one proxy. Failure reports, success reports and recovery scans
    run as small-step programs: one step per atomic access of the packed word,
    one per map operation. The map entry is guarded by its shard lock, which
    [try_publish_consecutive_ejection] and [remove_due_consecutive_ejection] hold
    across several accesses; every other map operation needs it free. A weak
    compare-exchange may fail spuriously. The target stays configured, so its
    [TargetHealth] is not pruned during the run.

    Two ghost counters the code does not store: how often a generation was
    retired, and how many failures were counted since the last time. *)

From S2P Require Import Prelude Upstream PassiveRing PassiveHealth.

Inductive pc :=
(* report_response: failure *)
| FStart
| FLoad
| FCas (w : Z)
| FPublished (g : Z)
| FLock (g : Z) (e : PassiveEjection)
| FGeneration (g : Z) (e : PassiveEjection)
| FInsert (g : Z) (e : PassiveEjection)
| FRecheck (g : Z)
| FRetract (g : Z)
(* report_response: success *)
| SStart
| SLoad
| SCas (w : Z)
| SContains (g : Z)
| SRemove (g : Z)
| SClear
(* recover_due_passive_ejections *)
| TScan (now : Z)
| TLock (now : Z) (snapshot : PassiveEjection)
| TRetireLoad (g : Z)
| TRetireCas (g w : Z)
| TRemove (g : Z)
| TFailures
| TSuccesses
| TClear
| Done.

(** What the step did to the packed word. *)
Inductive word_event := Unchanged | Counted | Retired.

Inductive lock_event := Keep | Take | Free.

Record oracle := Oracle { spurious : bool; tick : Z; wall : Z }.

(** The cells of one target. *)
Record cell := Cell { health : TargetHealth; entry : option PassiveEjection }.

Definition with_health (c : cell) (th : TargetHealth) : cell := Cell th (entry c).
Definition with_word (c : cell) (w : Z) : cell := with_health c (with_consecutive (health c) w).
Definition with_entry (c : cell) (e : option PassiveEjection) : cell := Cell (health c) e.

Definition word_of (c : cell) : Z := consecutive_state (health c).
Definition generation_of (w : Z) : Z := (unpack_consecutive_state w).1.
Definition streak_of (w : Z) : Z := (unpack_consecutive_state w).2.

Definition entry_is (p : PassiveEjection -> bool) (e : option PassiveEjection) : bool :=
  match e with Some e => p e | None => false end.

Section concurrency.
Context (upstream_id : bytes) (target : UpstreamTarget) (config : PassiveHealthCheck).

Let thr := unhealthy_threshold config.

Definition due_snapshot (now : Z) (snapshot current : PassiveEjection) : bool :=
  is_due now current && (recover_at_tick_ms current =? recover_at_tick_ms snapshot).

Definition thread_step (o : oracle) (c : cell) (q : pc) : cell * pc * lock_event * word_event :=
  match q with
  | FStart => (with_health c (with_health_successes (health c) 0), FLoad, Keep, Unchanged)
  | FLoad => (c, FCas (word_of c), Keep, Unchanged)
  | FCas w =>
    if spurious o || negb (word_of c =? w) then (c, FLoad, Keep, Unchanged)
    else
      let my_streak := Z.min (saturating_add 32 (streak_of w) 1) CONSECUTIVE_STREAK_MAX in
      (with_word c (failure_word w),
       if thr <=? my_streak then FPublished (generation_of w) else Done, Keep, Counted)
  | FPublished g =>
    if entry_is (published_since g) (entry c) then (c, Done, Keep, Unchanged)
    else
      (c, FLock g (from_policy upstream_id target (healthy_after_seconds config)
                     (tick o) (wall o) (Some g)), Keep, Unchanged)
  | FLock g e =>
    if entry_is (published_since g) (entry c) then (c, Done, Keep, Unchanged)
    else (c, FGeneration g e, Take, Unchanged)
  | FGeneration g e =>
    if negb (generation_of (word_of c) =? g) then (c, Done, Free, Unchanged)
    else (c, FInsert g e, Keep, Unchanged)
  | FInsert g e => (with_entry c (Some e), FRecheck g, Free, Unchanged)
  | FRecheck g =>
    (c, if negb (generation_of (word_of c) =? g) then FRetract g else Done, Keep, Unchanged)
  | FRetract g =>
    (if entry_is (owned_by g) (entry c) then with_entry c None else c, Done, Keep, Unchanged)
  | SStart =>
    (with_health c (with_health_successes (health c)
                      (wrapping_add 32 (consecutive_successes (health c)) 1)), SLoad, Keep, Unchanged)
  | SLoad => (c, SCas (word_of c), Keep, Unchanged)
  | SCas w =>
    if spurious o || negb (word_of c =? w) then (c, SLoad, Keep, Unchanged)
    else (with_word c (retired_word w), SContains (generation_of w), Keep, Retired)
  | SContains g => (c, if entry_is (fun _ => true) (entry c) then SRemove g else Done, Keep, Unchanged)
  | SRemove g =>
    if entry_is (owned_by g) (entry c) then (with_entry c None, SClear, Keep, Unchanged)
    else (c, Done, Keep, Unchanged)
  | SClear | TClear =>
    (with_health c (with_ring (health c) (clear (recent_failures (health c)))), Done, Keep, Unchanged)
  | TScan now =>
    match entry c with
    | Some e => if is_due now e then (c, TLock now e, Keep, Unchanged) else (c, Done, Keep, Unchanged)
    | None => (c, Done, Keep, Unchanged)
    end
  | TLock now snapshot =>
    match consecutive_generation snapshot with
    | Some g =>
      if entry_is (fun current => due_snapshot now snapshot current && owned_by g current) (entry c)
      then (c, TRetireLoad g, Take, Unchanged)
      else (c, Done, Keep, Unchanged)
    | None =>
      if entry_is (fun current => due_snapshot now snapshot current
                                  && bool_decide (consecutive_generation current = None)) (entry c)
      then (with_entry c None, TFailures, Keep, Unchanged)
      else (c, Done, Keep, Unchanged)
    end
  | TRetireLoad g =>
    let w := word_of c in
    (c, if negb (generation_of w =? g) then TRemove g else TRetireCas g w, Keep, Unchanged)
  | TRetireCas g w =>
    if spurious o || negb (word_of c =? w) then (c, TRetireLoad g, Keep, Unchanged)
    else (with_word c (pack_consecutive_state (next_consecutive_generation g) 0),
          TRemove g, Keep, Retired)
  | TRemove g => (with_entry c None, TSuccesses, Free, Unchanged)
  | TFailures => (with_health c (with_health_failures (health c) 0), TSuccesses, Keep, Unchanged)
  | TSuccesses => (with_health c (with_health_successes (health c) 0), TClear, Keep, Unchanged)
  | Done => (c, Done, Keep, Unchanged)
  end.

(** The steps that take the shard lock of the map for themselves. *)
Definition needs_map (q : pc) : bool :=
  match q with
  | FPublished _ | FLock _ _ | FRetract _ | SContains _ | SRemove _ | TScan _ | TLock _ _ => true
  | _ => false
  end.

Record sys := Sys {
  cells : cell;
  lock : option nat;
  retirements : Z;
  failures_since : Z;
  threads : list pc;
}.

Definition initial : sys := Sys (Cell target_health_new None) None 0 0 [].

Inductive call := ReportFailure | ReportSuccess | RecoveryScan (now : Z).

Definition call_start (k : call) : pc :=
  match k with
  | ReportFailure => FStart
  | ReportSuccess => SStart
  | RecoveryScan now => TScan now
  end.

Inductive cmd := Spawn (k : call) | Step (i : nat) (o : oracle).

Definition apply_lock (i : nat) (l : option nat) (ev : lock_event) : option nat :=
  match ev with Keep => l | Take => Some i | Free => None end.

Definition count_retirement (n : Z) (ev : word_event) : Z :=
  match ev with Retired => n + 1 | _ => n end.
Definition count_failure (n : Z) (ev : word_event) : Z :=
  match ev with Counted => n + 1 | Retired => 0 | Unchanged => n end.

(** [None] when the thread does not exist or waits for the lock. *)
Definition exec (s : sys) (k : cmd) : option sys :=
  match k with
  | Spawn k => Some (Sys (cells s) (lock s) (retirements s) (failures_since s)
                         (threads s ++ [call_start k]))
  | Step i o =>
    match threads s !! i with
    | None => None
    | Some q =>
      if needs_map q && bool_decide (lock s <> None) then None
      else
        let '(c, q', lev, wev) := thread_step o (cells s) q in
        Some (Sys c (apply_lock i (lock s) lev) (count_retirement (retirements s) wev)
                  (count_failure (failures_since s) wev) (<[i := q']> (threads s)))
    end
  end.

Inductive reachable : sys -> Prop :=
| reach_init : reachable initial
| reach_exec s k s' : reachable s -> exec s k = Some s' -> reachable s'.

(** ** The invariant

    [pc_ok] is what a program counter knows about the live generation [g], the
    live streak [st], the map entry [en] and the lock [l]. *)

Hypothesis threshold_valid : 1 <= thr <= CONSECUTIVE_STREAK_MAX.

Definition reached (a g st : Z) : Prop := 0 <= a <= g /\ (a = g -> thr <= st).

Definition pc_ok (l : option nat) (i : nat) (en : option PassiveEjection) (g st : Z) (q : pc) : Prop :=
  match q with
  | FPublished a => reached a g st /\ l <> Some i
  | FLock a e => reached a g st /\ consecutive_generation e = Some a /\ l <> Some i
  | FGeneration a e | FInsert a e =>
    reached a g st /\ consecutive_generation e = Some a /\ l = Some i
    /\ entry_is (published_since a) en = false
  | FRecheck a => 0 <= a <= g /\ l <> Some i
  | FRetract a | SContains a | SRemove a => 0 <= a < g /\ l <> Some i
  | TRetireLoad a => 0 <= a <= g /\ l = Some i /\ entry_is (owned_by a) en = true
  | TRetireCas a w =>
    0 <= a <= g /\ l = Some i /\ entry_is (owned_by a) en = true /\ generation_of w = a
  | TRemove a => 0 <= a < g /\ l = Some i /\ entry_is (owned_by a) en = true
  | _ => l <> Some i
  end.

(** A thread that is bound to remove an ejection of generation [a]. *)
Definition remover (a : Z) (q : pc) : bool :=
  match q with
  | FRecheck b | FRetract b | SContains b | SRemove b | TRetireLoad b | TRetireCas b _ | TRemove b => b =? a
  | _ => false
  end.

(** A thread that is bound to publish generation [a] while it is live. *)
Definition publisher (a : Z) (q : pc) : bool :=
  match q with
  | FPublished b | FLock b _ | FGeneration b _ | FInsert b _ => b =? a
  | _ => false
  end.

Definition some_thread (p : pc -> bool) (qs : list pc) : Prop :=
  exists i q, qs !! i = Some q /\ p q = true.

(** An ejection belongs to a generation that reached the threshold; when that
    generation is no longer live, some thread is about to remove it. *)
Definition entry_ok (en : option PassiveEjection) (g st : Z) (doomed : Z -> Prop) : Prop :=
  forall e, en = Some e ->
    exists a, consecutive_generation e = Some a /\ reached a g st /\ (a < g -> doomed a).

Definition live_entry (en : option PassiveEjection) (g : Z) : Prop := entry_is (owned_by g) en = true.

Record inv (s : sys) : Prop := {
  inv_word : exists st, holds_pair (word_of (cells s)) (retirements s) st
                        /\ st = Z.min (failures_since s) CONSECUTIVE_STREAK_MAX;
  inv_since : 0 <= failures_since s;
  inv_pcs : forall i q, threads s !! i = Some q ->
    pc_ok (lock s) i (entry (cells s)) (retirements s) (streak_of (word_of (cells s))) q;
  inv_lock : forall i, lock s = Some i -> (i < length (threads s))%nat;
  inv_entry : entry_ok (entry (cells s)) (retirements s) (streak_of (word_of (cells s)))
                (fun a => some_thread (remover a) (threads s));
  inv_published : thr <= streak_of (word_of (cells s)) ->
    live_entry (entry (cells s)) (retirements s)
    \/ some_thread (publisher (retirements s)) (threads s);
}.

(** What one step guarantees to the other threads. *)
Record guarantee (i : nat) (l l' : option nat) (en en' : option PassiveEjection) (g g' st st' : Z) : Prop := {
  g_gen : g <= g';
  g_streak : g = g' -> st <= st';
  g_lock : forall j, j <> i -> l = Some j <-> l' = Some j;
  g_entry : forall j, j <> i -> l = Some j -> en' = en;
}.

Lemma reached_mono a g g' st st' : reached a g st -> g <= g' -> (g = g' -> st <= st') -> reached a g' st'.
Proof.
  unfold reached. intros [Ha H] Hg H'. split; [lia|]. intros E. specialize (H ltac:(lia)).
  specialize (H' ltac:(lia)). lia.
Qed.

Lemma pc_ok_stable i j l l' en en' g g' st st' q :
  guarantee i l l' en en' g g' st st' -> j <> i -> pc_ok l j en g st q -> pc_ok l' j en' g' st' q.
Proof.
  clear threshold_valid. intros [Hg Hst Hl He] Hj.
  assert (Hn : l <> Some j -> l' <> Some j) by (rewrite (Hl j Hj); done).
  assert (Hs : l = Some j -> l' = Some j) by apply (Hl j Hj).
  assert (HE := He j Hj). clear He Hl.
  assert (Hr : forall a, reached a g st -> reached a g' st')
    by (intros a H; by apply (reached_mono a g g' st st')).
  destruct q; cbn [pc_ok]; auto; intros H; destruct_and? H; split_and?; auto; try lia; by rewrite HE.
Qed.

Lemma entry_is_Some p en : entry_is p en = true <-> exists e, en = Some e /\ p e = true.
Proof. destruct en; simpl; naive_solver. Qed.

Lemma owned_by_Some a e : owned_by a e = true <-> consecutive_generation e = Some a.
Proof. unfold owned_by. by rewrite bool_decide_eq_true. Qed.

Lemma from_policy_generation t w a :
  consecutive_generation (from_policy upstream_id target (healthy_after_seconds config) t w (Some a)) = Some a.
Proof. unfold from_policy. by repeat case_match. Qed.

(** The streak after an event on the word. *)
Definition next_streak (st : Z) (ev : word_event) : Z :=
  match ev with
  | Unchanged => st
  | Counted => Z.min (saturating_add 32 st 1) CONSECUTIVE_STREAK_MAX
  | Retired => 0
  end.

(** What one step of thread [i] establishes, seen from its own cells. *)
Record step_ok (i : nat) (l : option nat) (g st : Z) (c c' : cell) (q q' : pc)
    (lev : lock_event) (wev : word_event) : Prop := {
  so_word : holds_pair (word_of c') (count_retirement g wev) (next_streak st wev);
  so_guarantee : guarantee i l (apply_lock i l lev) (entry c) (entry c')
                   g (count_retirement g wev) st (next_streak st wev);
  so_pc : pc_ok (apply_lock i l lev) i (entry c') (count_retirement g wev) (next_streak st wev) q';
  so_entry : entry_ok (entry c') (count_retirement g wev) (next_streak st wev)
    (fun a => remover a q' = true \/ (entry c' = entry c /\ a < g /\ remover a q = false));
  so_published : thr <= next_streak st wev ->
    live_entry (entry c') (count_retirement g wev)
    \/ publisher (count_retirement g wev) q' = true
    \/ (count_retirement g wev = g /\ thr <= st /\ publisher g q = false
        /\ (live_entry (entry c) g -> live_entry (entry c') g));
}.

Lemma guarantee_same i l en g st : guarantee i l l en en g g st st.
Proof. constructor; [lia|lia|done|done]. Qed.

(** A step that only moves the program counter, or changes a cell the decision
    does not read. *)
Lemma step_ok_quiet i l g st c c' q q' :
  holds_pair (word_of c) g st -> word_of c' = word_of c -> entry c' = entry c ->
  pc_ok l i (entry c) g st q' -> entry_ok (entry c) g st (fun _ => True) ->
  (forall a e, entry c = Some e -> consecutive_generation e = Some a -> a < g ->
               remover a q = true -> remover a q' = true) ->
  (publisher g q = true -> thr <= st -> publisher g q' = true \/ live_entry (entry c) g) ->
  step_ok i l g st c c' q q' Keep Unchanged.
Proof.
  intros Hw Hword Hen Hpc He Hrem Hpub.
  constructor; cbn [count_retirement next_streak apply_lock]; rewrite ?Hword, ?Hen;
    [done|apply guarantee_same|done| |].
  - intros e Ee. destruct (He e Ee) as (a & Ha & Hr & _). exists a. split; [done|]. split; [done|].
    intros Hlt. specialize (Hrem a e Ee Ha Hlt). destruct (remover a q); [left; by apply Hrem|right; done].
  - intros Ht. destruct (publisher g q) eqn:E.
    + destruct (Hpub eq_refl Ht); [right; by left|by left].
    + right; right. done.
Qed.

(** The word events. *)
Lemma step_ok_counted i l g st c w :
  holds_pair (word_of c) g st -> word_of c = w -> l <> Some i ->
  entry_ok (entry c) g st (fun _ => True) ->
  let my_streak := Z.min (saturating_add 32 (streak_of w) 1) CONSECUTIVE_STREAK_MAX in
  step_ok i l g st c (with_word c (failure_word w)) (FCas w)
    (if thr <=? my_streak then FPublished (generation_of w) else Done) Keep Counted.
Proof.
  intros Hw <- Hl He my_streak. assert (Hu := holds_pair_unpack _ _ _ Hw).
  assert (Hst : my_streak = next_streak st Counted) by (subst my_streak; unfold streak_of; by rewrite Hu).
  unfold generation_of. rewrite Hu. cbn [fst].
  assert (Hle : st <= next_streak st Counted).
  { destruct Hw as (_ & [? ?] & _). unfold next_streak, saturating_add, umax.
    change CONSECUTIVE_STREAK_MAX with (2 ^ 24 - 1) in *. lia. }
  rewrite Hst. constructor; cbn [count_retirement apply_lock entry with_word with_health].
  - by apply holds_pair_failure.
  - constructor; [lia|done|done|done].
  - destruct Hw as ([Hg _] & _). destruct (Z.leb_spec thr (next_streak st Counted)); [|done].
    split; [|done]. split; [lia|done].
  - intros e Ee. destruct (He e Ee) as (a & Ha & Hr & _). exists a. split; [done|].
    split; [by apply (reached_mono a g g st)|]. intros Hlt. right. done.
  - intros Ht. right. left. rewrite (proj2 (Z.leb_le _ _)) by done. apply Z.eqb_refl.
Qed.

Lemma step_ok_retired i l g st c q q' :
  holds_pair (word_of c) g st -> g < CONSECUTIVE_GEN_MAX ->
  pc_ok l i (entry c) (g + 1) 0 q' -> entry_ok (entry c) g st (fun _ => True) ->
  remover g q' = true -> (forall a, a < g -> remover a q = true -> remover a q' = true) ->
  step_ok i l g st c (with_word c (retired_word (word_of c))) q q' Keep Retired.
Proof.
  intros Hw Hg Hpc He Hrem Hkeep. assert (Hn : next_consecutive_generation g = g + 1).
  { unfold next_consecutive_generation. by rewrite (proj2 (Z.leb_gt _ _)). }
  constructor; cbn [count_retirement next_streak apply_lock entry with_word with_health].
  - rewrite <- Hn. by eapply holds_pair_retired.
  - constructor; [lia|lia|done|done].
  - done.
  - intros e Ee. destruct (He e Ee) as (a & Ha & [Hr _] & _). exists a. split; [done|].
    split; [split; lia|]. intros Hlt. destruct (decide (a = g)) as [->|Hne]; [by left|].
    destruct (remover a q) eqn:E; [left; apply Hkeep; [lia|done]|right; split; [done|lia]].
  - intros Ht. destruct threshold_valid. lia.
Qed.

(** The lock events. *)
Lemma step_ok_locked i g st c q q' :
  holds_pair (word_of c) g st -> pc_ok (Some i) i (entry c) g st q' ->
  entry_ok (entry c) g st (fun _ => True) -> (forall a, remover a q = false) ->
  (publisher g q = true -> publisher g q' = true) ->
  step_ok i None g st c c q q' Take Unchanged.
Proof.
  intros Hw Hpc He Hrem Hpub. constructor; cbn [count_retirement next_streak apply_lock]; [done| |done| |].
  - constructor; [lia|lia| |done]. intros j Hj. split; [done|]. intros [= ->]. done.
  - intros e Ee. destruct (He e Ee) as (a & Ha & Hr & _). exists a. split; [done|]. split; [done|].
    intros Hlt. right. done.
  - intros Ht. right. destruct (publisher g q); [left; by apply Hpub|right; done].
Qed.

(** A step that replaces the entry, holding the lock or finding it free. *)
Lemma step_ok_entry i l g st c q q' en' lev :
  holds_pair (word_of c) g st -> (l = None /\ lev = Keep) \/ (l = Some i /\ lev = Free) ->
  pc_ok None i en' g st q' ->
  entry_ok en' g st (fun a => remover a q' = true) ->
  (thr <= st -> live_entry en' g \/ publisher g q = false /\ ~ live_entry (entry c) g) ->
  step_ok i l g st c (with_entry c en') q q' lev Unchanged.
Proof.
  intros Hw Hl Hpc He Hpub.
  assert (Hl' : apply_lock i l lev = None) by (by destruct Hl as [[-> ->]|[-> ->]]).
  constructor; cbn [count_retirement next_streak entry with_entry]; rewrite ?Hl'; [done| |done| |].
  - constructor; [lia|lia| |]; intros j Hj; destruct Hl as [[-> _]|[-> _]]; try done.
    + split; [intros [= ->]; done|done].
    + intros [= ->]. done.
  - intros e Ee. destruct (He e Ee) as (a & Ha & Hr & Hd). exists a. split; [done|]. split; [done|].
    intros Hlt. left. by apply Hd.
  - intros Ht. destruct (Hpub Ht) as [H|[H1 H2]]; [by left|]. right; right. done.
Qed.

Lemma step_ok_unlocked i g st c q q' :
  holds_pair (word_of c) g st -> pc_ok None i (entry c) g st q' ->
  entry_ok (entry c) g st (fun _ => True) -> (forall a, remover a q = false) ->
  publisher g q = false -> step_ok i (Some i) g st c c q q' Free Unchanged.
Proof.
  intros Hw Hpc He Hrem Hpub. constructor; cbn [count_retirement next_streak apply_lock]; [done| |done| |].
  - constructor; [lia|lia| |done]. intros j Hj. split; [intros [= ->]; done|done].
  - intros e Ee. destruct (He e Ee) as (a & Ha & Hr & _). exists a. split; [done|]. split; [done|].
    intros Hlt. right. done.
  - intros Ht. right. right. done.
Qed.

(** An ejection that is not older than the live generation belongs to it. *)
Lemma published_live en g st :
  entry_ok en g st (fun _ => True) -> entry_is (published_since g) en = true -> live_entry en g.
Proof.
  intros He (e & -> & Hp)%entry_is_Some. destruct (He e eq_refl) as (a & Ha & [Hr _] & _).
  unfold published_since in Hp. rewrite Ha, Z.leb_le in Hp. assert (a = g) as -> by lia.
  apply entry_is_Some. exists e. by rewrite owned_by_Some.
Qed.

Lemma not_live en a g : entry_is (owned_by a) en = true -> a < g -> ~ live_entry en g.
Proof.
  intros (e & -> & Ha)%entry_is_Some Hlt Hg. apply entry_is_Some in Hg as (e' & [= <-] & Hg).
  apply owned_by_Some in Ha, Hg. rewrite Ha in Hg. injection Hg. lia.
Qed.

Lemma entry_ok_None g st d : entry_ok None g st d.
Proof. intros e. done. Qed.

#[local] Hint Resolve entry_ok_None : core.

Section step.
Context (o : oracle) (i : nat) (l : option nat) (g st : Z) (c : cell).
Hypothesis Hw : holds_pair (word_of c) g st.
Hypothesis Hgen : g < CONSECUTIVE_GEN_MAX.
Hypothesis He : entry_ok (entry c) g st (fun _ => True).

Let good (q : pc) : Prop :=
  (needs_map q = true -> l = None) -> pc_ok l i (entry c) g st q ->
  let '(c', q', lev, wev) := thread_step o c q in step_ok i l g st c c' q q' lev wev.

Lemma live_word : generation_of (word_of c) = g /\ streak_of (word_of c) = st.
Proof. unfold generation_of, streak_of. by rewrite (holds_pair_unpack _ _ _ Hw). Qed.

Lemma good_start q : q = FStart \/ q = FLoad \/ q = SStart \/ q = SLoad \/ q = SClear \/ q = TClear
  \/ q = TFailures \/ q = TSuccesses \/ q = Done -> good q.
Proof.
  intros Hq _ Hpc. destruct_or! Hq; subst q; cbn [thread_step];
    (apply step_ok_quiet; [done|done|done|done|done|intros; done|intros; done]).
Qed.

Lemma good_failure_cas w : good (FCas w).
Proof.
  intros _ Hpc. cbn [thread_step]. destruct (spurious o || negb (word_of c =? w)) eqn:E.
  - apply step_ok_quiet; [done|done|done|done|done|intros; done|intros; done].
  - apply orb_false_iff in E as [_ E]. apply negb_false_iff, Z.eqb_eq in E.
    by apply step_ok_counted.
Qed.

Lemma good_success_cas w : good (SCas w).
Proof.
  intros _ Hpc. cbn [thread_step]. destruct (spurious o || negb (word_of c =? w)) eqn:E.
  - apply step_ok_quiet; [done|done|done|done|done|intros; done|intros; done].
  - apply orb_false_iff in E as [_ E]. apply negb_false_iff, Z.eqb_eq in E. subst w.
    destruct live_word as [-> _]. destruct Hw as ([Hg0 _] & _).
    apply step_ok_retired; [done|done|split; [lia|done]|done|apply Z.eqb_refl|done].
Qed.

Lemma good_published a : good (FPublished a).
Proof.
  intros _ [Hr Hl]. cbn [thread_step]. destruct (entry_is (published_since a) (entry c)) eqn:E.
  - apply step_ok_quiet; [done|done|done|done|done|intros; done|].
    cbn [publisher]. intros ->%Z.eqb_eq _. right. by eapply published_live.
  - apply step_ok_quiet; [done|done|done| |done|intros; done|intros H _; by left].
    split; [done|]. split; [apply from_policy_generation|done].
Qed.

Lemma good_lock a e : good (FLock a e).
Proof.
  intros Hm (Hr & Ha & Hl). specialize (Hm eq_refl). cbn [thread_step].
  destruct (entry_is (published_since a) (entry c)) eqn:E.
  - apply step_ok_quiet; [done|done|done|done|done|intros; done|].
    cbn [publisher]. intros ->%Z.eqb_eq _. right. by eapply published_live.
  - rewrite Hm. by apply step_ok_locked.
Qed.

Lemma good_generation a e : good (FGeneration a e).
Proof.
  intros _ (Hr & Ha & Hl & Hn). cbn [thread_step]. destruct live_word as [-> _].
  destruct (Z.eqb_spec g a) as [->|Hne]; cbn [negb].
  - apply step_ok_quiet; [done|done|done|done|done|intros; done|intros H _; by left].
  - rewrite Hl. apply step_ok_unlocked; [done|done|done|done|]. cbn [publisher]. by apply Z.eqb_neq.
Qed.

Lemma good_insert a e : good (FInsert a e).
Proof.
  intros _ (Hr & Ha & Hl & Hn). cbn [thread_step]. destruct Hw as ([Hg0 _] & _).
  apply step_ok_entry; [done|by right|split; [unfold reached in Hr; lia|done]| |].
  - intros e' [= <-]. exists a. split; [done|]. split; [done|]. intros _. apply Z.eqb_refl.
  - intros Ht. destruct (decide (a = g)) as [->|Hne].
    + left. apply entry_is_Some. exists e. by rewrite owned_by_Some.
    + right. split; [cbn [publisher]; by apply Z.eqb_neq|].
      intros (e' & Ee & Hg)%entry_is_Some. rewrite Ee in Hn. cbn [entry_is] in Hn.
      apply owned_by_Some in Hg. unfold published_since in Hn. rewrite Hg in Hn.
      apply Z.leb_gt in Hn. unfold reached in Hr. lia.
Qed.

Lemma good_recheck a : good (FRecheck a).
Proof.
  intros _ [Hr Hl]. cbn [thread_step]. destruct live_word as [-> _].
  destruct (Z.eqb_spec g a) as [->|Hne]; cbn [negb].
  - apply step_ok_quiet; [done|done|done|done|done| |done].
    intros b e _ _ Hlt. cbn [remover]. intros ->%Z.eqb_eq. lia.
  - apply step_ok_quiet; [done|done|done|split; [lia|done]|done|intros; done|done].
Qed.

(** The three removals by generation. *)
Lemma good_remove a q q' :
  0 <= a < g -> l = None -> (forall b, remover b q = (a =? b)) -> publisher g q = false ->
  pc_ok None i None g st q' -> (entry_is (owned_by a) (entry c) = false -> pc_ok None i (entry c) g st q') ->
  step_ok i l g st c (if entry_is (owned_by a) (entry c) then with_entry c None else c) q q' Keep Unchanged.
Proof.
  intros Ha -> Hrem Hpub Hpc Hpc'. destruct (entry_is (owned_by a) (entry c)) eqn:E.
  - apply step_ok_entry; [done|by left|done|done|]. intros _. right. split; [done|].
    eapply not_live; [done|lia].
  - apply step_ok_quiet; [done|done|done|by apply Hpc'|done| |by rewrite Hpub].
    intros b e Ee Hb _. rewrite Hrem. intros <-%Z.eqb_eq. exfalso.
    rewrite Ee in E. cbn [entry_is] in E. unfold owned_by in E. by rewrite Hb, bool_decide_true in E.
Qed.

Lemma good_retract a : good (FRetract a).
Proof.
  intros Hm [Ha Hl]. cbn [thread_step]. apply (good_remove a); [done|by apply Hm|done|done|done|done].
Qed.

Lemma good_contains a : good (SContains a).
Proof.
  intros Hm [Ha Hl]. cbn [thread_step]. destruct (entry_is _ (entry c)) eqn:E.
  - apply step_ok_quiet; [done|done|done|done|done|intros; done|done].
  - apply step_ok_quiet; [done|done|done|done|done| |done]. intros b e Ee. by rewrite Ee in E.
Qed.

Lemma good_success_remove a : good (SRemove a).
Proof.
  intros Hm [Ha Hl]. cbn [thread_step]. specialize (Hm eq_refl).
  assert (Hrem := good_remove a (SRemove a)). destruct (entry_is (owned_by a) (entry c)) eqn:E;
    (apply Hrem; [done|done|done|done|by rewrite Hm in Hl|by rewrite Hm in Hl]).
Qed.

Lemma good_scan now : good (TScan now).
Proof.
  intros Hm Hl. cbn [thread_step]. destruct (entry c) as [e|] eqn:E; [destruct (is_due now e)|];
    (apply step_ok_quiet; rewrite ?E; [done|done|done|done|done|intros; done|done]).
Qed.

Lemma good_timer_lock now snapshot : good (TLock now snapshot).
Proof.
  intros Hm Hl. specialize (Hm eq_refl). cbn [thread_step].
  destruct (consecutive_generation snapshot) as [a|].
  - destruct (entry_is _ (entry c)) eqn:E.
    + apply entry_is_Some in E as (e & Ee & [_ Ho]%andb_true_iff). rewrite Hm.
      assert (Hoe : entry_is (owned_by a) (entry c) = true) by (rewrite Ee; exact Ho).
      destruct (He e Ee) as (b & Hb & [Hr _] & _). apply owned_by_Some in Ho. rewrite Hb in Ho.
      injection Ho as ->. by apply step_ok_locked.
    + apply step_ok_quiet; [done|done|done|done|done|intros; done|done].
  - destruct (entry_is _ (entry c)) eqn:E.
    + apply entry_is_Some in E as (e & Ee & [_ Hn%bool_decide_eq_true]%andb_true_iff).
      destruct (He e Ee) as (b & Hb & _). by rewrite Hb in Hn.
    + apply step_ok_quiet; [done|done|done|done|done|intros; done|done].
Qed.

Lemma good_retire_load a : good (TRetireLoad a).
Proof.
  intros _ (Ha & Hl & Ho). cbn [thread_step]. destruct live_word as [Hg _]. rewrite Hg.
  destruct (Z.eqb_spec g a) as [E|Hne]; cbn [negb].
  - apply step_ok_quiet; [done|done|done| |done|intros; done|done]. subst a. cbn [pc_ok]. split_and!; (done || lia).
  - apply step_ok_quiet; [done|done|done| |done|intros; done|done]. split; [lia|done].
Qed.

Lemma good_retire_cas a w : good (TRetireCas a w).
Proof.
  intros _ (Ha & Hl & Ho & Hgw). cbn [thread_step]. destruct (spurious o || negb (word_of c =? w)) eqn:E.
  - apply step_ok_quiet; [done|done|done|done|done|intros; done|done].
  - apply orb_false_iff in E as [_ E]. apply negb_false_iff, Z.eqb_eq in E. subst w.
    destruct live_word as [Hg _]. rewrite Hg in Hgw. subst a.
    replace (pack_consecutive_state (next_consecutive_generation g) 0) with (retired_word (word_of c))
      by (unfold retired_word; by rewrite (holds_pair_unpack _ _ _ Hw)).
    apply step_ok_retired; [done|done|split; [lia|done]|done|apply Z.eqb_refl|done].
Qed.

Lemma good_timer_remove a : good (TRemove a).
Proof.
  intros _ (Ha & Hl & Ho). cbn [thread_step].
  apply step_ok_entry; [done|by right|done|done|]. intros _. right. split; [done|].
  eapply not_live; [done|lia].
Qed.

Lemma report_step_ok q : good q.
Proof.
  destruct q; eauto using good_failure_cas, good_success_cas, good_published, good_lock, good_generation,
    good_insert, good_recheck, good_retract, good_contains, good_success_remove, good_scan,
    good_timer_lock, good_retire_load, good_retire_cas, good_timer_remove;
    apply good_start; tauto.
Qed.
End step.

Lemma inv_initial : inv initial.
Proof.
  constructor; try done.
  - exists 0. split; [apply holds_pair_new|done].
  - change (streak_of (word_of (cells initial))) with 0. lia.
Qed.

Lemma some_thread_app p qs q : some_thread p qs -> some_thread p (qs ++ [q]).
Proof. intros (i & q' & H & Hp). exists i, q'. split; [by apply lookup_app_l_Some|done]. Qed.

Lemma some_thread_new p qs i q : (i < length qs)%nat -> p q = true -> some_thread p (<[i := q]> qs).
Proof. intros Hi Hp. exists i, q. split; [by apply list_lookup_insert_eq|done]. Qed.

Lemma some_thread_keep p qs i q q' :
  qs !! i = Some q -> p q = false -> some_thread p qs -> some_thread p (<[i := q']> qs).
Proof.
  intros Hi Hq (j & qj & Hj & Hp). exists j, qj. split; [|done].
  rewrite list_lookup_insert_ne; [done|]. intros ->. congruence.
Qed.

Lemma inv_spawn s k :
  inv s -> inv (Sys (cells s) (lock s) (retirements s) (failures_since s) (threads s ++ [call_start k])).
Proof.
  intros [Hw Hf Hpc Hl He Hp].
  constructor; cbn [cells lock retirements failures_since threads]; [done|done| | | |].
  - intros i q [Hq|[Hi Hq]]%lookup_app_Some; [by apply Hpc|].
    apply list_lookup_singleton_Some in Hq as [Hi0 <-].
    assert (Hnot : lock s <> Some i) by (intros E; apply Hl in E; lia). by destruct k.
  - intros i E. apply Hl in E. rewrite length_app. simpl. lia.
  - intros e Ee. destruct (He e Ee) as (a & Ha & Hr & Hd). exists a. split; [done|]. split; [done|].
    intros Hlt. by apply some_thread_app, Hd.
  - intros Ht. destruct (Hp Ht) as [H|H]; [by left|right]. by apply some_thread_app.
Qed.

Lemma saturating_streak n wev :
  0 <= n ->
  next_streak (Z.min n CONSECUTIVE_STREAK_MAX) wev = Z.min (count_failure n wev) CONSECUTIVE_STREAK_MAX.
Proof.
  destruct wev; unfold next_streak, count_failure, saturating_add, umax;
    change CONSECUTIVE_STREAK_MAX with (2 ^ 24 - 1); lia.
Qed.

Lemma inv_step s i o q c' q' lev wev :
  inv s -> threads s !! i = Some q -> (needs_map q = true -> lock s = None) ->
  thread_step o (cells s) q = (c', q', lev, wev) -> retirements s < CONSECUTIVE_GEN_MAX ->
  inv (Sys c' (apply_lock i (lock s) lev) (count_retirement (retirements s) wev)
           (count_failure (failures_since s) wev) (<[i := q']> (threads s))).
Proof.
  intros [(st & Hw & Hst) Hf Hpc Hl He Hp] Hq Hm Hstep Hgen.
  assert (Hs : streak_of (word_of (cells s)) = st)
    by (unfold streak_of; by rewrite (holds_pair_unpack _ _ _ Hw)).
  rewrite Hs in *. assert (Hi : (i < length (threads s))%nat) by (by eapply lookup_lt_Some).
  assert (He' : entry_ok (entry (cells s)) (retirements s) st (fun _ => True)).
  { intros e Ee. destruct (He e Ee) as (a & ? & ? & _). by exists a. }
  assert (Hok := report_step_ok o i (lock s) (retirements s) st (cells s) Hw Hgen He' q Hm (Hpc i q Hq)).
  rewrite Hstep in Hok. destruct Hok as [Sw Sg Sp Se Spub].
  assert (Hs' : streak_of (word_of c') = next_streak st wev)
    by (unfold streak_of; by rewrite (holds_pair_unpack _ _ _ Sw)).
  constructor; cbn [cells lock retirements failures_since threads]; rewrite ?Hs'.
  - exists (next_streak st wev). split; [done|]. subst st. by apply saturating_streak.
  - destruct wev; simpl; lia.
  - intros j qj Hj. destruct (decide (j = i)) as [->|Hne].
    + rewrite list_lookup_insert_eq in Hj by done. by injection Hj as <-.
    + rewrite list_lookup_insert_ne in Hj by done. by eapply pc_ok_stable; [exact Sg| |apply Hpc].
  - rewrite length_insert. intros j E. destruct (decide (j = i)) as [->|Hne]; [done|].
    apply Hl. by apply (g_lock _ _ _ _ _ _ _ _ _ Sg).
  - intros e Ee. destruct (Se e Ee) as (a & Ha & Hr & Hd). exists a. split; [done|]. split; [done|].
    intros Hlt. destruct (Hd Hlt) as [H|(Hen & Hlt' & Hno)]; [by apply some_thread_new|].
    rewrite Hen in Ee. destruct (He e Ee) as (b & Hb & _ & Hdb). assert (b = a) as -> by congruence.
    eapply some_thread_keep; [done|done|by apply Hdb].
  - intros Ht. destruct (Spub Ht) as [H|[H|(Hg & Ht' & Hno & Hlive)]]; [by left|right; by apply some_thread_new|].
    rewrite Hg. destruct (Hp Ht') as [H|H]; [left; by apply Hlive|right]. by eapply some_thread_keep.
Qed.

Lemma inv_exec s k s' :
  inv s -> exec s k = Some s' -> retirements s' < CONSECUTIVE_GEN_MAX -> inv s'.
Proof.
  intros Hinv E Hlt. destruct k as [k|i o]; cbn [exec] in E.
  - injection E as <-. by apply inv_spawn.
  - destruct (threads s !! i) as [q|] eqn:Hq; [|done].
    destruct (needs_map q && bool_decide (lock s <> None)) eqn:Hb; [done|].
    destruct (thread_step o (cells s) q) as [[[c' q'] lev] wev] eqn:Hstep. injection E as <-.
    eapply inv_step; [done|done| |done|destruct wev; simpl in Hlt; lia].
    intros Hm. rewrite Hm in Hb. apply bool_decide_eq_false in Hb.
    destruct (lock s); [|done]. by destruct Hb.
Qed.

Lemma exec_retirements s k s' : exec s k = Some s' -> retirements s <= retirements s'.
Proof.
  destruct k as [k|i o]; cbn [exec]; [intros [= <-]; done|].
  destruct (threads s !! i) as [q|]; [|done]. destruct (_ && _); [done|].
  destruct (thread_step o (cells s) q) as [[[c' q'] lev] wev]. intros [= <-]. destruct wev; simpl; lia.
Qed.

Lemma reachable_passive s : reachable s -> retirements s < CONSECUTIVE_GEN_MAX -> inv s.
Proof.
  induction 1 as [|s k s' Hr IH E]; intros Hlt; [apply inv_initial|].
  eapply inv_exec; [|done|done]. apply IH. apply exec_retirements in E. lia.
Qed.

Definition quiescent (s : sys) : Prop := Forall (fun q => q = Done) (threads s).

(** C5. Consecutive-mode ejection is linearizable: in every interleaving of any
    number of failure reports, success reports and recovery scans, whenever no
    call is in progress the target is ejected exactly when at least
    [unhealthy_threshold] failures were counted since the last success or timer
    recovery, its record then carries the live generation, so that the next
    success or timer clears it, and the map is unlocked. *)
Theorem consecutive_health_quiescent (s : sys) :
  reachable s -> retirements s < CONSECUTIVE_GEN_MAX -> quiescent s ->
  lock s = None
  /\ (entry (cells s) <> None <-> thr <= failures_since s)
  /\ (forall e, entry (cells s) = Some e ->
        consecutive_generation e = Some (generation_of (word_of (cells s)))).
Proof.
  intros Hr Hlt Hq. destruct (reachable_passive s Hr Hlt) as [(st & Hw & Hst) Hf Hpc Hl He Hp].
  assert (Hs : streak_of (word_of (cells s)) = st)
    by (unfold streak_of; by rewrite (holds_pair_unpack _ _ _ Hw)).
  assert (Hg : generation_of (word_of (cells s)) = retirements s)
    by (unfold generation_of; by rewrite (holds_pair_unpack _ _ _ Hw)).
  rewrite Hs in *. unfold quiescent in Hq. rewrite Forall_lookup in Hq.
  assert (Hnone : forall p, p Done = false -> ~ some_thread p (threads s)).
  { intros p HD (i & q & Hi & Hpq). rewrite (Hq i q Hi) in Hpq. congruence. }
  assert (Hthr : thr <= st <-> thr <= failures_since s).
  { destruct threshold_valid. change CONSECUTIVE_STREAK_MAX with (2 ^ 24 - 1) in *. lia. }
  assert (Hen : forall e, entry (cells s) = Some e ->
            consecutive_generation e = Some (retirements s) /\ thr <= st).
  { intros e Ee. destruct (He e Ee) as (a & Ha & [Hr1 Hr2] & Hd).
    destruct (decide (a = retirements s)) as [->|Hne]; [by split; [|apply Hr2]|].
    destruct (Hnone (remover a) eq_refl). apply Hd. lia. }
  split; [|split].
  - destruct (lock s) as [i|] eqn:El; [|done]. specialize (Hl i eq_refl).
    apply lookup_lt_is_Some_2 in Hl as [q Hi]. assert (H := Hpc i q Hi). by rewrite (Hq i q Hi) in H.
  - rewrite <- Hthr. split.
    + destruct (entry (cells s)) as [e|]; [|done]. intros _. by apply (Hen e).
    + intros Ht. destruct (Hp Ht) as [H|H]; [|by destruct (Hnone _ eq_refl H)].
      apply entry_is_Some in H as (e & -> & _). done.
  - intros e Ee. rewrite Hg. by apply Hen.
Qed.
End concurrency.

(** Two failures eject; a success that races with the second report wins or
    loses, but leaves no stale record. *)
Definition two_in_a_row : PassiveHealthCheck := Passive [500] 2 10 30 true false None.
Definition web : UpstreamTarget := bare_target (bs "10.0.0.2") 80.
Definition calm : oracle := Oracle false 7 7.

Fixpoint exec_all (s : sys) (ks : list cmd) : option sys :=
  match ks with
  | [] => Some s
  | k :: ks =>
    match exec (bs "up") web two_in_a_row s k with
    | Some s' => exec_all s' ks
    | None => None
    end
  end.

(** The second report decides to publish, the success retires the generation and
    finds the map empty, and only then the record is inserted, and retracted. *)
Definition racing_success : list cmd :=
  Spawn ReportFailure :: replicate 4 (Step 0 calm)
  ++ Spawn ReportFailure :: replicate 6 (Step 1 calm)
  ++ Spawn ReportSuccess :: replicate 3 (Step 2 calm)
  ++ [Step 1 calm; Step 1 calm; Step 1 calm; Step 2 calm].

Definition two_failures : list cmd :=
  Spawn ReportFailure :: replicate 4 (Step 0 calm) ++ Spawn ReportFailure :: replicate 8 (Step 1 calm).

Lemma report_exec_reachable s ks s' :
  reachable (bs "up") web two_in_a_row s -> exec_all s ks = Some s' ->
  reachable (bs "up") web two_in_a_row s'.
Proof.
  revert s; induction ks as [|k ks IH]; intros s Hr; cbn [exec_all]; [by intros [= <-]|].
  destruct (exec (bs "up") web two_in_a_row s k) eqn:E; [|done].
  intros H. eapply IH; [|exact H]. by eapply reach_exec.
Qed.

Definition after (ks : list cmd) : sys := default initial (exec_all initial ks).

Lemma consecutive_health_quiescent_witness :
  entry (cells (after racing_success)) = None
  /\ entry (cells (after two_failures)) <> None.
Proof.
  assert (Hthr : 1 <= unhealthy_threshold two_in_a_row <= CONSECUTIVE_STREAK_MAX)
    by (split; vm_compute; discriminate).
  split.
  - destruct (consecutive_health_quiescent (bs "up") web two_in_a_row Hthr (after racing_success))
      as (_ & [H _] & _).
    + apply (report_exec_reachable initial racing_success); [constructor|vm_compute; reflexivity].
    + vm_compute; reflexivity.
    + vm_compute. repeat constructor.
    + destruct (entry (cells (after racing_success))); [|done].
      exfalso. assert (H' := H ltac:(done)). vm_compute in H'. done.
  - apply (consecutive_health_quiescent (bs "up") web two_in_a_row Hthr).
    + apply (report_exec_reachable initial two_failures); [constructor|vm_compute; reflexivity].
    + vm_compute; reflexivity.
    + vm_compute. repeat constructor.
    + vm_compute. discriminate.
Defined.

(** ** A call that runs alone

    The small-step programs run without interference are the functions of
    [PassiveHealth.v], and they finish. *)

Section solo.
Context (ns upstream_id : bytes) (target : UpstreamTarget) (config : PassiveHealthCheck)
        (o : oracle).
Hypothesis consecutive : consecutive_error_mode config = true.
Hypothesis no_spurious : spurious o = false.

Let key := target_host_port_key target.

Fixpoint solo (fuel : nat) (c : cell) (q : pc) : cell * pc :=
  match fuel with
  | O => (c, q)
  | S fuel => let '(c', q', _, _) := thread_step upstream_id target config o c q in solo fuel c' q'
  end.

Definition cell_of (ps : ProxyHealthState) : cell :=
  Cell (default target_health_new (states ps !! key)) (unhealthy ps !! key).

Lemma solo_done n c : solo n c Done = (c, Done).
Proof. induction n; [done|]. cbn [solo thread_step]. done. Qed.

Lemma solo_S n c q :
  solo (S n) c q = let '(c', q', _, _) := thread_step upstream_id target config o c q in solo n c' q'.
Proof. done. Qed.

Ltac run :=
  rewrite solo_S; cbn [thread_step entry entry_is with_word with_health with_entry health
    with_consecutive with_health_successes with_health_failures consecutive_state].

(** A failure report that runs alone takes at most nine steps and has exactly
    the effect of the sequential [report_response]. *)
Lemma solo_report_failure ps g st status conn :
  is_failure config status conn = true -> holds_pair (word_of (cell_of ps)) g st ->
  solo 9 (cell_of ps) FStart
  = (cell_of (report_target ns upstream_id target config (tick o) (wall o) status conn ps).1, Done).
Proof.
  intros Hf Hw. unfold report_target. rewrite Hf, consecutive. fold key.
  unfold cell_of, word_of in *. set (th := default target_health_new (states ps !! key)) in *.
  cbn [health] in Hw. assert (Hu := holds_pair_unpack _ _ _ Hw).
  assert (Hu' := holds_pair_unpack _ _ _ (holds_pair_failure _ _ _ Hw)).
  unfold failure_in_consecutive_mode, record_consecutive_failure, try_publish_consecutive_ejection,
    set_state, set_ejection, consecutive_generation_of. fold key. clearbody key.
  do 3 (run; unfold word_of, streak_of, generation_of; cbn [health entry consecutive_state]).
  rewrite no_spurious, Z.eqb_refl. cbn [orb negb consecutive_state with_health_successes with_consecutive].
  rewrite Hu. cbn [fst snd unhealthy states with_consecutive consecutive_state]. rewrite Hu'. cbn [fst].
  rewrite Z.eqb_refl. cbn [negb].
  destruct (unhealthy_threshold config <=? _); [|rewrite solo_done; cbn [fst states unhealthy]; by rewrite lookup_insert_eq].
  run. destruct (unhealthy ps !! key) as [e|] eqn:Ee; cbn [entry_is];
    [destruct (published_since g e) eqn:Ep; [rewrite solo_done; cbn [fst states unhealthy]; by rewrite Ee, lookup_insert_eq|]|];
    (run; rewrite ?Ep; run; unfold word_of, generation_of; cbn [health with_word with_health with_consecutive
      consecutive_state]; rewrite Hu'; cbn [fst]; rewrite Z.eqb_refl; cbn [negb]; run; run;
     unfold word_of, generation_of; cbn [health with_entry with_word with_health with_consecutive
       consecutive_state]; rewrite Hu'; cbn [fst];
     rewrite Z.eqb_refl; cbn [fst negb states unhealthy]; by rewrite !lookup_insert_eq).
Qed.

(** Likewise a success report, in at most six steps. *)
Lemma solo_report_success ps status conn :
  is_failure config status conn = false ->
  solo 6 (cell_of ps) SStart
  = (cell_of (report_target ns upstream_id target config (tick o) (wall o) status conn ps).1, Done).
Proof.
  intros Hf. unfold report_target. rewrite Hf, consecutive. fold key.
  unfold cell_of in *. set (th := default target_health_new (states ps !! key)) in *.
  unfold success_in_consecutive_mode, record_consecutive_success, remove_ejection_if, recovered, set_state.
  fold key. clearbody key.
  do 3 (run; unfold word_of, generation_of; cbn [health entry consecutive_state]).
  rewrite no_spurious, Z.eqb_refl.
  cbn [orb negb unhealthy states with_consecutive with_health_successes consecutive_state].
  run. destruct (unhealthy ps !! key) as [e|] eqn:Ee; cbn [entry_is].
  - run. unfold unpack_consecutive_state at 1. cbn [fst].
    change (Z.shiftr (consecutive_state th) CONSECUTIVE_STREAK_BITS)
      with (unpack_consecutive_state (consecutive_state th)).1.
    destruct (owned_by _ e).
    + run. cbn [solo fst states unhealthy]. by rewrite !lookup_insert_eq, lookup_delete_eq.
    + rewrite solo_done. cbn [fst states unhealthy]. by rewrite Ee, lookup_insert_eq.
  - rewrite solo_done. cbn [fst states unhealthy]. by rewrite Ee, lookup_insert_eq.
Qed.
End solo.
