(* ===== verification/ActiveHealth.v ===== *)
(** * Active health probes ([src/src/health_check.rs])

    What the outcome of a probe does to the shared tables: the counters of the
    target, the map of unhealthy targets the balancer reads, the latency samples
    and resets sent to the balancer; and the pruning of targets that left the
    configuration. The probe itself (sockets, TLS, DNS) is its boolean outcome,
    and each test of [is_retired] is an answer of the environment. *)

From S2P Require Import Prelude Decimal RuntimeKeys Upstream PassiveRing PassiveHealth.

Record ActiveHealthCheck := Active { healthy_threshold : Z; unhealthy_probe_threshold : Z }.

Record active_tables := Tables {
  active_unhealthy_targets : gmap bytes Z;
  active_target_states : gmap bytes TargetHealth;
}.

Inductive latency_call := RecordLatency (us : Z) | ResetRecovered.

(** The answers of [is_retired], in the order the code asks. *)
Record retirement := Retirement {
  after_guard : bool;
  in_entry : bool;
  before_counting : bool;
  after_counting : bool;
  at_publication : bool;
}.

Definition live_probe : retirement := Retirement false false false false false.

Definition probe_generation_retired (generation_cell generation upstream_cell upstream_generation : Z) : bool :=
  negb (generation_cell =? generation) || negb (upstream_cell =? upstream_generation).

Definition with_active_state (t : active_tables) (key : bytes) (th : TargetHealth) : active_tables :=
  Tables (active_unhealthy_targets t) (<[key := th]> (active_target_states t)).

Definition publish_success (config : ActiveHealthCheck) (r : retirement) (key : bytes) (latency_us : Z)
    (t : active_tables) (th : TargetHealth) : active_tables * list latency_call :=
  let th := with_health_failures th 0 in
  let successes := wrapping_add 32 (consecutive_successes th) 1 in
  let t := with_active_state t key (with_health_successes th successes) in
  if after_counting r then (t, [])
  else if healthy_threshold config <=? successes then
    match active_unhealthy_targets t !! key with
    | Some _ =>
      if negb (at_publication r)
      then (Tables (delete key (active_unhealthy_targets t)) (active_target_states t),
            [RecordLatency latency_us; ResetRecovered])
      else (t, [RecordLatency latency_us])
    | None => (t, [RecordLatency latency_us])
    end
  else (t, [RecordLatency latency_us]).

Definition publish_failure (config : ActiveHealthCheck) (r : retirement) (key : bytes) (wall : Z)
    (t : active_tables) (th : TargetHealth) : active_tables * list latency_call :=
  let th := with_health_successes th 0 in
  let failures := wrapping_add 32 (consecutive_failures th) 1 in
  let t := with_active_state t key (with_health_failures th failures) in
  if after_counting r then (t, [])
  else if unhealthy_probe_threshold config <=? failures then
    match active_unhealthy_targets t !! key with
    | Some _ => (t, [])
    | None =>
      if at_publication r then (t, [])
      else (Tables (<[key := wall]> (active_unhealthy_targets t)) (active_target_states t), [])
    end
  else (t, []).

(** The publication part of the probe loop. *)
Definition publish_probe (config : ActiveHealthCheck) (r : retirement) (key : bytes)
    (success : bool) (latency_us wall : Z) (t : active_tables) : active_tables * list latency_call :=
  if after_guard r || in_entry r then (t, [])
  else
    let th := default target_health_new (active_target_states t !! key) in
    let t := with_active_state t key th in
    if before_counting r then (t, [])
    else if success then publish_success config r key latency_us t th
    else publish_failure config r key wall t th.

(** ** Pruning *)

(** [key.split_once("::")]. *)
Fixpoint split_once_colons (key : bytes) : option (bytes * bytes) :=
  match key with
  | [] => None
  | b :: rest =>
    if (b =? 58) && (match rest with c :: _ => c =? 58 | [] => false end)
    then Some ([], tail rest)
    else match split_once_colons rest with
         | Some (p, q) => Some (b :: p, q)
         | None => None
         end
  end.

Definition retain_active (upstream_key : bytes) (active_keys : list bytes) (key : bytes) : bool :=
  match split_once_colons key with
  | Some (key_upstream_id, _) =>
    negb (eqb_bytes key_upstream_id upstream_key) || bool_decide (key ∈ active_keys)
  | None => true
  end.

Definition remove_stale_targets (t : active_tables) (ns upstream_id : bytes)
    (current_targets : list UpstreamTarget) : active_tables :=
  let upstream_key := namespaced_runtime_key ns upstream_id in
  let active_keys := map (scoped_target_key upstream_key) current_targets in
  Tables (filter (fun '(key, _) => retain_active upstream_key active_keys key = true) (active_unhealthy_targets t))
         (filter (fun '(key, _) => retain_active upstream_key active_keys key = true) (active_target_states t)).

(** The pruning of [restart_with_shutdown], over all configured upstreams. *)
Definition prune_after_restart (t : active_tables) (upstreams : list (bytes * bytes * list UpstreamTarget))
    : active_tables :=
  let active_keys :=
    flat_map (fun '(ns, id, targets) => map (scoped_target_key (namespaced_runtime_key ns id)) targets)
      upstreams in
  Tables (filter (fun '(key, _) => key ∈ active_keys) (active_unhealthy_targets t))
         (filter (fun '(key, _) => key ∈ active_keys) (active_target_states t)).

(** ** The phase of a probe *)

Definition FNV_OFFSET : Z := 0xcbf29ce484222325.
Definition FNV_PRIME : Z := 0x100000001B3.

Definition fnv1a (key : bytes) : Z :=
  foldl (fun hash byte => wrapping_mul 64 (Z.lxor hash byte) FNV_PRIME) FNV_OFFSET key.

(** [u64::try_from(interval.as_millis()).unwrap_or(u64::MAX)]. *)
Definition probe_start_offset (target_key : bytes) (interval_as_millis : Z) : Z :=
  let interval_ms := if interval_as_millis <=? umax 64 then interval_as_millis else umax 64 in
  if interval_ms =? 0 then 0 else fnv1a target_key mod interval_ms.

(** ** Hysteresis *)

Section hysteresis.
Context (config : ActiveHealthCheck) (key : bytes).
Hypothesis thresholds : 1 <= healthy_threshold config < 2 ^ 32 /\ 1 <= unhealthy_probe_threshold config < 2 ^ 32.

Let hthr := Z.to_nat (healthy_threshold config).
Let uthr := Z.to_nat (unhealthy_probe_threshold config).

(** The outcomes of the probes of one target, newest first. *)
Definition run_probes (outcomes : list bool) : active_tables :=
  foldr (fun success t => (publish_probe config live_probe key success 0 0 t).1) (Tables ∅ ∅) outcomes.

Definition starts_with (n : nat) (v : bool) (l : list bool) : Prop := exists q, l = replicate n v ++ q.
Definition has_run (n : nat) (v : bool) (l : list bool) : Prop := exists p q, l = p ++ replicate n v ++ q.

(** At some point the target had failed often enough in a row, and it has not
    succeeded often enough in a row since. *)
Definition unhealthy_after (l : list bool) : Prop :=
  exists since before, l = since ++ before /\ starts_with uthr false before /\ ~ has_run hthr true since.

Fixpoint leading (v : bool) (l : list bool) : nat :=
  match l with
  | x :: l' => if eqb x v then S (leading v l') else 0
  | [] => 0
  end.

Lemma leading_spec n v l : starts_with n v l <-> (n <= leading v l)%nat.
Proof.
  revert l; induction n as [|n IH]; intros l.
  - split; [lia|]. intros _. by exists l.
  - destruct l as [|x l]; simpl.
    + split; [intros [q [=]]|lia].
    + destruct (eqb_spec x v) as [->|Hne].
      * rewrite <- Nat.succ_le_mono, <- IH. split; intros [q Hq]; exists q; simpl in *; congruence.
      * split; [|lia]. intros [q [= E _]]. congruence.
Qed.

Lemma leading_length v l : (leading v l <= length l)%nat.
Proof. induction l as [|x l IH]; simpl; [lia|]. destruct (eqb x v); lia. Qed.

Lemma has_run_cons n v x l : has_run n v (x :: l) <-> starts_with n v (x :: l) \/ has_run n v l.
Proof.
  split.
  - intros (p & q & E). destruct p as [|y p]; [left; by exists q|]. right. exists p, q. by simplify_eq/=.
  - intros [[q E]|(p & q & ->)]; [by exists [], q|by exists (x :: p), q].
Qed.

Lemma leading_app_other v l m : (1 <= uthr)%nat -> starts_with uthr (negb v) m ->
  leading v (l ++ m) = leading v l.
Proof.
  intros Hu [q ->]. induction l as [|x l IH]; simpl.
  - destruct uthr; [lia|]. simpl. by destruct v.
  - by rewrite IH.
Qed.

Lemma thr_pos : (1 <= hthr)%nat /\ (1 <= uthr)%nat.
Proof. unfold hthr, uthr. lia. Qed.

Lemma unhealthy_success l :
  unhealthy_after (true :: l) <-> unhealthy_after l /\ (S (leading true l) < hthr)%nat.
Proof.
  destruct thr_pos as [Hh Hu]. split.
  - intros (since & before & E & Hb & Hn). destruct since as [|x since].
    { simpl in E. subst before. destruct Hb as [q Hq]. destruct uthr; [lia|]. discriminate. }
    injection E as <- ->. rewrite has_run_cons in Hn. split.
    + exists since, before. split; [done|]. split; [done|]. tauto.
    + rewrite (leading_app_other true) by done. rewrite leading_spec in Hn. simpl in Hn. lia.
  - intros [(since & before & -> & Hb & Hn) Hlt]. rewrite (leading_app_other true) in Hlt by done.
    exists (true :: since), before. split; [done|]. split; [done|].
    rewrite has_run_cons, leading_spec. simpl. intros [?|?]; [lia|done].
Qed.

Lemma unhealthy_failure l :
  unhealthy_after (false :: l) <-> unhealthy_after l \/ (uthr <= S (leading false l))%nat.
Proof.
  destruct thr_pos as [Hh Hu]. split.
  - intros (since & before & E & Hb & Hn). destruct since as [|x since].
    + simpl in E. subst before. right. by apply leading_spec in Hb.
    + injection E as <- ->. left. exists since, before. split; [done|]. split; [done|].
      rewrite has_run_cons in Hn. tauto.
  - intros [(since & before & -> & Hb & Hn)|Hle].
    + exists (false :: since), before. split; [done|]. split; [done|].
      rewrite has_run_cons, leading_spec. simpl. intros [?|?]; [lia|done].
    + exists [], (false :: l). split; [done|]. split; [by apply leading_spec|].
      intros (p & q & E). destruct p; [|discriminate]. destruct hthr; [lia|]. discriminate.
Qed.

Lemma count_succ n : Z.of_nat n + 1 < 2 ^ 32 -> wrapping_add 32 (Z.of_nat n) 1 = Z.of_nat (S n).
Proof. intros H. unfold wrapping_add. rewrite wrap_small by (unfold in_width; lia). lia. Qed.

Lemma run_probes_state l :
  Z.of_nat (length l) < 2 ^ 32 ->
  let th := default target_health_new (active_target_states (run_probes l) !! key) in
  consecutive_successes th = Z.of_nat (leading true l)
  /\ consecutive_failures th = Z.of_nat (leading false l)
  /\ (active_unhealthy_targets (run_probes l) !! key <> None <-> unhealthy_after l).
Proof.
  induction l as [|x l IH]; intros Hlen.
  - cbn. split; [done|]. split; [done|]. split; [done|].
    intros (since & before & E & [q Hq] & _). destruct thr_pos as [_ Hu]. symmetry in E.
    apply app_nil in E as [_ ->]. destruct uthr; [lia|done].
  - cbn [length] in Hlen. destruct (IH ltac:(lia)) as (Hs & Hf & Hm). clear IH.
    assert (Hls := leading_length true l). assert (Hlf := leading_length false l).
    cbn [run_probes foldr]. fold (run_probes l). set (t := run_probes l) in *. clearbody t.
    unfold publish_probe. cbn [after_guard in_entry before_counting live_probe orb].
    set (th := default target_health_new (active_target_states t !! key)) in *. destruct x.
    + unfold publish_success. cbn [after_counting at_publication live_probe negb with_health_failures
        consecutive_successes active_unhealthy_targets with_active_state active_target_states].
      rewrite Hs, count_succ by lia. rewrite unhealthy_success, <- Hm.
      destruct (Z.leb_spec (healthy_threshold config) (Z.of_nat (S (leading true l)))) as [H|H].
      * destruct (active_unhealthy_targets t !! key) as [w|] eqn:E;
          cbn [fst active_target_states active_unhealthy_targets with_active_state];
          rewrite lookup_insert_eq; (split; [done|]; split; [done|]).
        -- rewrite lookup_delete_eq. split; [done|]. unfold hthr. lia.
        -- rewrite E. naive_solver.
      * cbn [fst active_target_states active_unhealthy_targets with_active_state].
        rewrite lookup_insert_eq. split; [done|]. split; [done|]. unfold hthr. split; [intros; split; [done|lia]|tauto].
    + unfold publish_failure. cbn [after_counting at_publication live_probe with_health_successes
        consecutive_failures active_unhealthy_targets with_active_state active_target_states].
      rewrite Hf, count_succ by lia. rewrite unhealthy_failure, <- Hm.
      destruct (Z.leb_spec (unhealthy_probe_threshold config) (Z.of_nat (S (leading false l)))) as [H|H].
      * destruct (active_unhealthy_targets t !! key) as [w|] eqn:E;
          cbn [fst active_target_states active_unhealthy_targets with_active_state];
          rewrite lookup_insert_eq; (split; [done|]; split; [done|]).
        -- rewrite E. naive_solver.
        -- rewrite lookup_insert_eq. split; [intros _; right; unfold uthr; lia|done].
      * cbn [fst active_target_states active_unhealthy_targets with_active_state].
        rewrite lookup_insert_eq. split; [done|]. split; [done|]. unfold uthr. split; [by left|intros [?|?]; [done|lia]].
Qed.

(** Active health is a hysteresis: a probed target is in the unhealthy map
    exactly when at some point the configured number of probes failed in a row
    and the configured number has not succeeded in a row since then. *)
Theorem active_health_hysteresis (outcomes : list bool) :
  Z.of_nat (length outcomes) < 2 ^ 32 ->
  active_unhealthy_targets (run_probes outcomes) !! key <> None <-> unhealthy_after outcomes.
Proof. intros H. apply (run_probes_state outcomes H). Qed.
End hysteresis.

Definition two_up_three_down : ActiveHealthCheck := Active 2 3.

Lemma active_health_hysteresis_witness :
  unhealthy_after two_up_three_down [true; false; true; false; false; false; true].
Proof.
  apply (active_health_hysteresis two_up_three_down (bs "k"));
    [split; vm_compute; done|vm_compute; reflexivity|vm_compute; discriminate].
Defined.

(** ** Pruning by text key *)

Lemma split_once_colons_free p q : 58 ∉ p -> split_once_colons (p ++ bs "::" ++ q) = Some (p, q).
Proof.
  induction p as [|b p IH]; [done|]. intros [Hb Hp]%not_elem_of_cons.
  cbn [app split_once_colons]. rewrite (proj2 (Z.eqb_neq b 58)) by done. cbn [andb]. by rewrite IH.
Qed.

Lemma namespaced_key_free ns i : valid_resource (NsId ns i) -> 58 ∉ namespaced_runtime_key ns i.
Proof.
  intros [Hn%validate_namespace_free Hi%validate_resource_id_free]. simpl in *.
  unfold namespaced_runtime_key, write_namespaced_runtime_key. simpl.
  rewrite elem_of_app, elem_of_cons. intros [H|[H|H]]; [tauto|done|tauto].
Qed.

(** Pruning one upstream touches the entries of that upstream only. *)
Theorem remove_stale_targets_exact t ns upstream_id current ns' id' target :
  valid_resource (NsId ns upstream_id) -> valid_resource (NsId ns' id') ->
  let key := scoped_target_key (namespaced_runtime_key ns' id') target in
  active_unhealthy_targets (remove_stale_targets t ns upstream_id current) !! key
  = if decide (namespaced_runtime_key ns' id' = namespaced_runtime_key ns upstream_id
               /\ key ∉ map (scoped_target_key (namespaced_runtime_key ns upstream_id)) current)
    then None else active_unhealthy_targets t !! key.
Proof.
  intros Hv Hv' key. unfold remove_stale_targets. cbn [active_unhealthy_targets].
  rewrite map_lookup_filter. destruct (active_unhealthy_targets t !! key) as [w|]; simpl; [|by case_decide].
  assert (Hs : exists q, split_once_colons key = Some (namespaced_runtime_key ns' id', q)).
  { eexists. unfold key, scoped_target_key, write_target_host_port_key. rewrite <- !app_assoc.
    apply split_once_colons_free. by apply namespaced_key_free. }
  destruct Hs as [q Hs]. clearbody key. unfold retain_active. rewrite Hs.
  destruct (eqb_bytes _ _) eqn:E; cbn [negb orb].
  - apply eqb_bytes_spec in E.
    destruct (decide (key ∈ map (scoped_target_key (namespaced_runtime_key ns upstream_id)) current)) as [Hin|Hin].
    + rewrite option_guard_True by (by rewrite bool_decide_eq_true).
      rewrite decide_False; [done|]. by intros [_ Hnot].
    + rewrite option_guard_False by (by rewrite bool_decide_eq_true).
      rewrite decide_True; done.
  - case_guard; [|done]. simpl. rewrite decide_False; [done|]. intros [E' _].
    apply not_true_iff_false in E. apply E. by apply eqb_bytes_spec.
Qed.
