(* ===== verification/LbHealth.v ===== *)
(** * Health filtering of the balancer ([src/src/load_balancer.rs])

    Which targets a selection may choose from: targets marked by active probes
    are out, targets ejected passively are out up to the ejection cap, and of
    the rest only the best SRV priority tier is kept. The code has five variants
    of the filter (bitset or vector, whole pool, index list or mask); they share
    the scan of one target and the cap.

    A vector of (index, target) pairs is the list of its indices: the paired
    reference is always the target at that index. [sort_unstable_by_key] may
    order equal keys in any way; it is the class [UnstableSort]. *)

From Stdlib Require Import Sorted.
From stdpp Require Import sorting.
From S2P Require Import Prelude Decimal RuntimeKeys Upstream PassiveHealth HealthBitset.
#[local] Open Scope Z_scope.

Class UnstableSort := sort_unstable_by_ts : list (nat * Z) -> list (nat * Z).

Class UnstableSortLaws (S : UnstableSort) : Prop := {
  sort_permutes l : sort_unstable_by_ts l ≡ₚ l;
  sort_sorts l : StronglySorted (fun a b => a.2 <= b.2) (sort_unstable_by_ts l);
}.

(** What the filter reads of a balancer. The two key tables are derived from the
    targets when the balancer is built. *)
Record pool := Pool {
  targets : list UpstreamTarget;
  target_keys : list bytes;
  host_port_keys : list bytes;
  srv_priorities : list Z;
}.

Record HealthContext := HealthCtx {
  active_unhealthy : gmap bytes Z;
  proxy_passive : option ProxyHealthState;
  max_ejection_percent : option Z;
}.

(** ** SRV priorities *)

Definition SRV_PRIORITY_NONE : Z := umax 32.
Definition SRV_PRIORITY_TAG : bytes := bs "ferrum.srv.priority".
Definition MAX_SRV_PRIORITY_TIERS : nat := 8.

Definition format_srv_priority (priority : Z) : bytes := show_dec priority.

Definition parse_srv_priority_tag (value : bytes) : option Z :=
  match value with
  | [] => None
  | b :: rest =>
    if negb (forallb is_ascii_digit value) then None
    else if (1 <? Z.of_nat (length value)) && (b =? 48) then None
    else parse_uint 16 value
  end.

(** The loop of [build_srv_priorities]; [None] is its early return of an empty
    table. *)
Fixpoint srv_loop (ts : list UpstreamTarget) (priorities : list Z) (tagged : nat) (distinct : list Z)
    : option (list Z * nat * list Z) :=
  match ts with
  | [] => Some (priorities, tagged, distinct)
  | t :: ts =>
    match tags t !! SRV_PRIORITY_TAG with
    | None => srv_loop ts (priorities ++ [SRV_PRIORITY_NONE]) tagged distinct
    | Some raw =>
      match parse_srv_priority_tag raw with
      | None => None
      | Some priority =>
        if bool_decide (priority ∈ distinct)
        then srv_loop ts (priorities ++ [priority]) (S tagged) distinct
        else if (length distinct =? MAX_SRV_PRIORITY_TIERS)%nat then None
        else srv_loop ts (priorities ++ [priority]) (S tagged) (distinct ++ [priority])
      end
    end
  end.

Definition build_srv_priorities (ts : list UpstreamTarget) : list Z :=
  match srv_loop ts [] 0 [] with
  | None => []
  | Some (priorities, tagged, distinct) =>
    if (tagged =? 0)%nat || (length distinct <? 2)%nat then [] else priorities
  end.

Definition srv_priority (p : pool) (idx : nat) : Z := default SRV_PRIORITY_NONE (srv_priorities p !! idx).

Definition best_priority (p : pool) (best : Z) (idx : nat) : Z :=
  let priority := srv_priority p idx in if priority <? best then priority else best.

Definition filter_srv_priority_bitset (p : pool) (healthy : HealthBitset) : HealthBitset :=
  match srv_priorities p with
  | [] => healthy
  | _ =>
    let best := for_each_set_bit healthy (best_priority p) SRV_PRIORITY_NONE in
    if best =? SRV_PRIORITY_NONE then healthy
    else
      for_each_set_bit healthy (fun selected idx =>
        let priority := srv_priority p idx in
        if (priority =? best) || (priority =? SRV_PRIORITY_NONE) then set selected idx else selected)
        empty_bitset
  end.

Definition filter_srv_priority_vec (p : pool) (healthy : list nat) : list nat :=
  match srv_priorities p, healthy with
  | [], _ | _, [] => healthy
  | _, _ =>
    let best := foldl (best_priority p) SRV_PRIORITY_NONE healthy in
    if best =? SRV_PRIORITY_NONE then healthy
    else List.filter (fun idx => (srv_priority p idx =? best) || (srv_priority p idx =? SRV_PRIORITY_NONE))
           healthy
  end.

(** ** The ejection cap *)

Section filter.
Context {US : UnstableSort}.

(** The vector is sorted only when some ejection is readmitted. *)
Definition passive_ejections_to_readmit (passive_ejected : list (nat * Z)) (total_targets : nat)
    (max_pct : option Z) : list (nat * Z) * nat :=
  match max_pct with
  | None => (passive_ejected, 0%nat)
  | Some max_pct =>
    if bool_decide (passive_ejected = []) || (total_targets =? 0)%nat then (passive_ejected, 0%nat)
    else
      let max_ejected :=
        saturating_sub (saturating_mul 64 (Z.of_nat total_targets) (saturating_add 64 max_pct 1)) 1 / 100 in
      let max_ejected := Nat.min (Z.to_nat max_ejected) total_targets in
      if (length passive_ejected <=? max_ejected)%nat then (passive_ejected, 0%nat)
      else (sort_unstable_by_ts passive_ejected, (length passive_ejected - max_ejected)%nat)
  end.

(** ** The scan of the targets *)

Definition actively_unhealthy (p : pool) (h : HealthContext) (i : nat) : bool :=
  bool_decide (active_unhealthy h !! default [] (target_keys p !! i) <> None).

Definition passively_ejected (p : pool) (h : HealthContext) (i : nat) : option Z :=
  match proxy_passive h with
  | Some ps => ejected_at_tick_ms <$> unhealthy ps !! default [] (host_port_keys p !! i)
  | None => None
  end.

(** One round of the loop, with [push] the way the variant collects a healthy
    target. *)
Definition scan_target {T} (push : T -> nat -> T) (p : pool) (h : HealthContext)
    (acc : T * list (nat * Z)) (i : nat) : T * list (nat * Z) :=
  let '(healthy, ejected) := acc in
  if actively_unhealthy p h i then (healthy, ejected)
  else
    match passively_ejected p h i with
    | Some tick => (healthy, ejected ++ [(i, tick)])
    | None => (push healthy i, ejected)
    end.

Definition scan_in_range {T} (push : T -> nat -> T) (p : pool) (h : HealthContext)
    (acc : T * list (nat * Z)) (i : nat) : T * list (nat * Z) :=
  if (length (targets p) <=? i)%nat then acc else scan_target push p h acc i.

(** Nobody is unhealthy or ejected. *)
Definition nothing_unhealthy (h : HealthContext) : bool :=
  bool_decide (active_unhealthy h = ∅)
  && match proxy_passive h with Some ps => bool_decide (unhealthy ps = ∅) | None => true end.

Definition readmit_bitset (acc : HealthBitset * list (nat * Z)) (total : nat) (h : HealthContext)
    : HealthBitset :=
  let '(healthy, ejected) := acc in
  let '(ejected, to_readmit) := passive_ejections_to_readmit ejected total (max_ejection_percent h) in
  foldl (fun b '(idx, _) => set b idx) healthy (take to_readmit ejected).

Definition readmit_vec (acc : list nat * list (nat * Z)) (total : nat) (h : HealthContext) : list nat :=
  let '(healthy, ejected) := acc in
  let '(ejected, to_readmit) := passive_ejections_to_readmit ejected total (max_ejection_percent h) in
  if (0 <? to_readmit)%nat then merge_sort le (healthy ++ (take to_readmit ejected).*1) else healthy.

Definition compute_health_bitset (p : pool) (health : option HealthContext) : HealthBitset :=
  let n := length (targets p) in
  match health with
  | None => filter_srv_priority_bitset p (all n)
  | Some h =>
    if nothing_unhealthy h then filter_srv_priority_bitset p (all n)
    else
      let acc := foldl (scan_target set p h) (empty_bitset, []) (seq 0 n) in
      filter_srv_priority_bitset p (readmit_bitset acc n h)
  end.

Definition compute_health_bitset_for_indices (p : pool) (health : option HealthContext)
    (indices : list nat) : HealthBitset :=
  match health with
  | None => filter_srv_priority_bitset p (bitset_for_indices indices)
  | Some h =>
    if nothing_unhealthy h then filter_srv_priority_bitset p (bitset_for_indices indices)
    else
      let acc := foldl (scan_in_range set p h) (empty_bitset, []) indices in
      filter_srv_priority_bitset p (readmit_bitset acc (length indices) h)
  end.

Definition compute_health_bitset_for_mask (p : pool) (health : option HealthContext)
    (mask : HealthBitset) : HealthBitset :=
  match health with
  | None => filter_srv_priority_bitset p mask
  | Some h =>
    if nothing_unhealthy h then filter_srv_priority_bitset p mask
    else
      let acc := for_each_set_bit mask (scan_in_range set p h) (empty_bitset, []) in
      filter_srv_priority_bitset p (readmit_bitset acc (Z.to_nat (count mask)) h)
  end.

Definition push_index (l : list nat) (i : nat) : list nat := l ++ [i].

Definition healthy_targets_vec (p : pool) (health : option HealthContext) : list nat :=
  let n := length (targets p) in
  match health with
  | None => filter_srv_priority_vec p (seq 0 n)
  | Some h =>
    let acc := foldl (scan_target push_index p h) ([], []) (seq 0 n) in
    filter_srv_priority_vec p (readmit_vec acc n h)
  end.

Definition healthy_targets_vec_for_indices (p : pool) (health : option HealthContext)
    (indices : list nat) : list nat :=
  match health with
  | None => filter_srv_priority_vec p (List.filter (fun i => (i <? length (targets p))%nat) indices)
  | Some h =>
    let acc := foldl (scan_in_range push_index p h) ([], []) indices in
    filter_srv_priority_vec p (readmit_vec acc (length indices) h)
  end.

(** Membership of a destination the client names. *)
Definition is_srv_priority_eligible (p : pool) (h : bytes) (prt : Z) (health : option HealthContext) : bool :=
  let named (i : nat) :=
    match targets p !! i with
    | Some t => (port t =? prt) && eq_ignore_ascii_case (host t) h
    | None => false
    end in
  if Z.of_nat (length (targets p)) <=? MAX_BITSET_TARGETS then
    let healthy := compute_health_bitset p health in
    is_empty healthy || existsb (fun i => contains healthy i && named i) (seq 0 (length (targets p)))
  else
    let healthy := healthy_targets_vec p health in
    bool_decide (healthy = []) || existsb named healthy.
End filter.

(** ** What the scan collects *)

Definition keeps (p : pool) (h : HealthContext) (i : nat) : bool :=
  negb (actively_unhealthy p h i) && bool_decide (passively_ejected p h i = None).

Definition ejection_of (p : pool) (h : HealthContext) (i : nat) : option (nat * Z) :=
  if actively_unhealthy p h i then None else (i,.) <$> passively_ejected p h i.

Lemma scan_spec {T} (push : T -> nat -> T) p h idxs : forall s ej,
  foldl (scan_target push p h) (s, ej) idxs
  = (foldl push s (List.filter (keeps p h) idxs), ej ++ omap (ejection_of p h) idxs).
Proof.
  induction idxs as [|i idxs IH]; intros s ej; cbn [foldl]; [simpl; by rewrite app_nil_r|].
  unfold scan_target at 2. cbn [List.filter omap list_omap]. unfold keeps at 1, ejection_of at 1.
  destruct (actively_unhealthy p h i); cbn [negb andb]; [apply IH|].
  destruct (passively_ejected p h i) as [t|] eqn:E.
  - rewrite IH, bool_decide_false by done. by rewrite <- app_assoc.
  - rewrite IH, bool_decide_true by done. done.
Qed.

Lemma scan_in_range_spec {T} (push : T -> nat -> T) p h idxs s ej :
  Forall (fun i => i < length (targets p))%nat idxs ->
  foldl (scan_in_range push p h) (s, ej) idxs = foldl (scan_target push p h) (s, ej) idxs.
Proof.
  intros H. revert s ej. induction H as [|i idxs Hi _ IH]; intros s ej; [done|]. cbn [foldl].
  unfold scan_in_range at 2. rewrite (proj2 (Nat.leb_gt _ _)) by done.
  destruct (scan_target push p h (s, ej) i). apply IH.
Qed.

Lemma elem_of_ejections p h (idxs : list nat) i t :
  (i, t) ∈ omap (ejection_of p h) idxs
  <-> i ∈ idxs /\ actively_unhealthy p h i = false /\ passively_ejected p h i = Some t.
Proof.
  rewrite list_elem_of_omap. unfold ejection_of. split.
  - intros (j & Hj & E). destruct (actively_unhealthy p h j) eqn:Ha; [done|].
    destruct (passively_ejected p h j) eqn:Hp; [|done]. by injection E as -> ->.
  - intros (Hi & Ha & Hp). exists i. by rewrite Ha, Hp.
Qed.

Lemma ejections_fst p h (idxs : list nat) : sublist (omap (ejection_of p h) idxs).*1 idxs.
Proof.
  induction idxs as [|i idxs IH]; [constructor|]. cbn [omap list_omap].
  unfold ejection_of at 1. destruct (actively_unhealthy p h i); [by constructor|].
  destruct (passively_ejected p h i); cbn [fmap option_fmap option_map]; by constructor.
Qed.

Lemma filter_sublist {A} (f : A -> bool) l : sublist (List.filter f l) l.
Proof. induction l as [|x l IH]; simpl; [constructor|]. destruct (f x); by constructor. Qed.

Lemma ascending_nodup l : StronglySorted lt l -> NoDup l.
Proof.
  induction 1 as [|a l Hs IH HF]; constructor; [|done].
  intros Hin. rewrite Forall_forall in HF. specialize (HF a Hin). lia.
Qed.

Lemma ascending_sublist l k : sublist l k -> StronglySorted lt k -> StronglySorted lt l.
Proof.
  induction 1 as [|x l k Hsub IH|x l k Hsub IH]; intros Hs; [done| |]; inversion Hs as [|? ? Hs' HF]; subst.
  - constructor; [by apply IH|]. rewrite Forall_forall in *. intros y Hy. apply HF.
    by eapply elem_of_sublist.
  - by apply IH.
Qed.

(** ** Readmission *)

Lemma set_all_spec l : forall b,
  bitset_wf b -> NoDup l -> Forall (fun i => i < 128)%nat l -> (forall i, i ∈ l -> i ∉ elements_of b) ->
  bitset_wf (foldl set b l) /\ (forall i, i ∈ elements_of (foldl set b l) <-> i ∈ elements_of b \/ i ∈ l).
Proof.
  induction l as [|x l IH]; intros b Hb Hn Hlt Hd; cbn [foldl]; [split; [done|]; set_solver|].
  apply NoDup_cons in Hn as [Hx Hn]. inversion Hlt; subst.
  destruct (set_spec b x Hb) as [Hb' He]; [done|apply Hd; by left|].
  destruct (IH (set b x) Hb' Hn) as [Hw Hi]; [done| |].
  - intros i Hi. rewrite He. intros [->|?]; [done|]. apply (Hd i); [by right|done].
  - split; [done|]. intros i. rewrite Hi, He, elem_of_cons. tauto.
Qed.

Lemma empty_bitset_wf : bitset_wf empty_bitset.
Proof. constructor; simpl; lia. Qed.

Lemma foldl_fst (b : HealthBitset) (l : list (nat * Z)) :
  foldl (fun b '(idx, _) => set b idx) b l = foldl set b l.*1.
Proof. revert b. induction l as [|[i t] l IH]; intros b; [done|]. apply IH. Qed.

Lemma merge_sort_ascending l : NoDup l -> StronglySorted lt (merge_sort le l).
Proof.
  intros Hn. assert (Hs : StronglySorted le (merge_sort le l)) by (apply StronglySorted_merge_sort; apply _).
  assert (Hn' : NoDup (merge_sort le l)) by (by rewrite merge_sort_Permutation).
  induction Hs as [|a k Hs IH HF]; constructor.
  - apply IH. by apply NoDup_cons in Hn' as [_ ?].
  - apply NoDup_cons in Hn' as [Hna _]. rewrite Forall_forall in *. intros x Hx.
    assert (a <= x)%nat by (by apply HF). assert (a <> x) by (by intros ->). lia.
Qed.

Lemma push_all l acc : foldl push_index acc l = acc ++ l.
Proof. apply foldl_snoc. Qed.

Lemma kept_elem p h idxs i : i ∈ List.filter (keeps p h) idxs <-> i ∈ idxs /\ keeps p h i = true.
Proof. by rewrite !list_elem_of_In, filter_In. Qed.

Section readmission.
Context {US : UnstableSort} {UL : UnstableSortLaws US}.

(** The ejections let back in, oldest first. *)
Definition readmitted (ejected : list (nat * Z)) (total : nat) (pct : option Z) : list nat :=
  let '(l, k) := passive_ejections_to_readmit ejected total pct in (take k l).*1.

Lemma to_readmit_perm ejected total pct :
  (passive_ejections_to_readmit ejected total pct).1 ≡ₚ ejected.
Proof.
  unfold passive_ejections_to_readmit. destruct pct; [|done].
  destruct (_ || _); [done|]. destruct (_ <=? _)%nat; [done|]. apply sort_permutes.
Qed.

Lemma readmitted_elem ejected total pct i :
  i ∈ readmitted ejected total pct -> i ∈ ejected.*1.
Proof.
  unfold readmitted. assert (H := to_readmit_perm ejected total pct).
  destruct (passive_ejections_to_readmit ejected total pct) as [l k]. simpl in H.
  rewrite !list_elem_of_fmap. intros (x & -> & Hx). exists x. split; [done|]. rewrite <- H.
  by eapply elem_of_take in Hx as (? & ? & _); eapply list_elem_of_lookup_2.
Qed.

Lemma readmitted_nodup ejected total pct : NoDup ejected.*1 -> NoDup (readmitted ejected total pct).
Proof.
  unfold readmitted. assert (H := to_readmit_perm ejected total pct).
  destruct (passive_ejections_to_readmit ejected total pct) as [l k]. simpl in H.
  intros Hn. rewrite <- H in Hn. rewrite fmap_take. eapply sublist_NoDup; [done|apply sublist_take].
Qed.

(** The survivors of a scan over [idxs], ascending. *)
Definition survives (p : pool) (h : HealthContext) (idxs : list nat) (total : nat) (i : nat) : Prop :=
  (i ∈ idxs /\ keeps p h i = true)
  \/ i ∈ readmitted (omap (ejection_of p h) idxs) total (max_ejection_percent h).

Lemma readmitted_not_kept p h idxs total i :
  i ∈ readmitted (omap (ejection_of p h) idxs) total (max_ejection_percent h) ->
  i ∈ idxs /\ i ∉ List.filter (keeps p h) idxs.
Proof.
  intros H%readmitted_elem. apply list_elem_of_fmap in H as ([j t] & -> & H).
  apply elem_of_ejections in H as (Hi & Ha & Hp). simpl. split; [done|].
  rewrite kept_elem. unfold keeps. rewrite Hp, bool_decide_false, andb_false_r by done. by intros [_ ?].
Qed.

Lemma readmit_vec_spec p h idxs total :
  StronglySorted lt idxs ->
  let v := readmit_vec (foldl (scan_target push_index p h) ([], []) idxs) total h in
  StronglySorted lt v /\ (forall i, i ∈ v <-> survives p h idxs total i).
Proof.
  intros Hs. rewrite scan_spec, push_all. cbn [app readmit_vec].
  assert (Hf : StronglySorted lt (List.filter (keeps p h) idxs))
    by (eapply ascending_sublist; [apply filter_sublist|done]).
  assert (Hr := readmitted_not_kept p h idxs total). unfold survives, readmitted in *.
  assert (Hn : NoDup (readmitted (omap (ejection_of p h) idxs) total (max_ejection_percent h))).
  { apply readmitted_nodup, ascending_nodup. eapply ascending_sublist; [apply ejections_fst|done]. }
  unfold readmitted in Hn.
  destruct (passive_ejections_to_readmit _ total _) as [l k]. destruct (Nat.ltb_spec 0 k) as [Hk|Hk].
  - split.
    + apply merge_sort_ascending. apply NoDup_app. split; [by apply ascending_nodup|]. split; [|done].
      intros i Hi Hi'. by apply (Hr i Hi').
    + intros i. rewrite merge_sort_Permutation, elem_of_app, kept_elem. done.
  - assert (k = 0%nat) as -> by lia. split; [done|]. intros i. rewrite kept_elem. simpl.
    rewrite elem_of_nil. tauto.
Qed.

Lemma readmit_bitset_spec p h idxs total :
  StronglySorted lt idxs -> Forall (fun i => i < 128)%nat idxs ->
  let b := readmit_bitset (foldl (scan_target set p h) (empty_bitset, []) idxs) total h in
  bitset_wf b /\ (forall i, i ∈ elements_of b <-> survives p h idxs total i).
Proof.
  intros Hs Hlt. rewrite scan_spec. cbn [app readmit_bitset].
  assert (Hf : StronglySorted lt (List.filter (keeps p h) idxs))
    by (eapply ascending_sublist; [apply filter_sublist|done]).
  destruct (set_all_spec (List.filter (keeps p h) idxs) empty_bitset) as [Hw He];
    [apply empty_bitset_wf|by apply ascending_nodup| |simpl; set_solver|].
  { rewrite Forall_forall in *. intros i [Hi _]%kept_elem. by apply Hlt. }
  assert (Hr := readmitted_not_kept p h idxs total).
  assert (Hn : NoDup (readmitted (omap (ejection_of p h) idxs) total (max_ejection_percent h))).
  { apply readmitted_nodup, ascending_nodup. eapply ascending_sublist; [apply ejections_fst|done]. }
  unfold survives, readmitted in *.
  destruct (passive_ejections_to_readmit _ total _) as [l k]. rewrite foldl_fst.
  destruct (set_all_spec (take k l).*1 (foldl set empty_bitset (List.filter (keeps p h) idxs))) as [Hw2 He2];
    [done|done| | |].
  - rewrite Forall_forall in *. intros i Hi. apply Hlt. by apply Hr.
  - intros i Hi. rewrite He. intros [H|H]; [by apply elem_of_nil in H|]. by apply (Hr i Hi).
  - split; [done|]. intros i. rewrite He2, He, kept_elem. simpl. rewrite elem_of_nil. tauto.
Qed.

Lemma readmit_agree p h idxs total :
  StronglySorted lt idxs -> Forall (fun i => i < 128)%nat idxs ->
  let b := readmit_bitset (foldl (scan_target set p h) (empty_bitset, []) idxs) total h in
  bitset_wf b /\ elements_of b = readmit_vec (foldl (scan_target push_index p h) ([], []) idxs) total h.
Proof.
  intros Hs Hlt b. destruct (readmit_bitset_spec p h idxs total Hs Hlt) as [Hw He]. fold b in Hw, He.
  destruct (readmit_vec_spec p h idxs total Hs) as [Hv Hi]. split; [done|].
  apply sorted_ext; [apply members_sorted; apply Hw|done|]. intros i. by rewrite He, Hi.
Qed.
End readmission.

(** ** The SRV tier filter *)

Lemma set_filtered_spec (f : nat -> bool) l : forall b,
  bitset_wf b -> NoDup l -> Forall (fun i => i < 128)%nat l -> (forall i, i ∈ l -> i ∉ elements_of b) ->
  let b' := foldl (fun b i => if f i then set b i else b) b l in
  bitset_wf b' /\ (forall i, i ∈ elements_of b' <-> i ∈ elements_of b \/ i ∈ List.filter f l).
Proof.
  intros b Hb Hn Hlt Hd b'. assert (E : b' = foldl set b (List.filter f l)).
  { subst b'. clear. revert b. induction l as [|x l IH]; intros b; [done|]. simpl. destruct (f x); apply IH. }
  rewrite E. assert (Hsub := filter_sublist f l). apply set_all_spec; [done|by eapply sublist_NoDup| |].
  - rewrite Forall_forall in *. intros i Hi. apply Hlt. by eapply elem_of_sublist.
  - intros i Hi. apply Hd. by eapply elem_of_sublist.
Qed.

Lemma bitset_bound b i : bitset_wf b -> i ∈ elements_of b -> (i < 128)%nat.
Proof. intros [Hb _] Hi. by eapply members_bound. Qed.

Lemma srv_agree p b :
  bitset_wf b ->
  bitset_wf (filter_srv_priority_bitset p b)
  /\ elements_of (filter_srv_priority_bitset p b) = filter_srv_priority_vec p (elements_of b).
Proof.
  intros Hb. unfold filter_srv_priority_bitset, filter_srv_priority_vec.
  destruct (srv_priorities p) as [|z zs] eqn:Ep; [done|].
  rewrite !for_each_set_bit_spec by done. destruct (elements_of b) as [|x l] eqn:El; [done|].
  generalize (foldl (best_priority p) SRV_PRIORITY_NONE (x :: l)). intros best.
  destruct (best =? SRV_PRIORITY_NONE); [by rewrite El|].
  set (f := fun idx => (srv_priority p idx =? best) || (srv_priority p idx =? SRV_PRIORITY_NONE)).
  rewrite <- El in *. assert (Hs := members_sorted (bits b) ltac:(apply Hb)).
  destruct (set_filtered_spec f (elements_of b) empty_bitset) as [Hw He];
    [apply empty_bitset_wf|by apply ascending_nodup| |simpl; set_solver|].
  { rewrite Forall_forall. intros i. by apply bitset_bound. }
  split; [exact Hw|]. apply sorted_ext; [apply members_sorted; apply Hw| |].
  - eapply ascending_sublist; [apply filter_sublist|done].
  - intros i. etransitivity; [apply He|]. simpl. rewrite elem_of_nil. tauto.
Qed.

Lemma best_fold p l : forall best,
  best <= SRV_PRIORITY_NONE -> let r := foldl (best_priority p) best l in
  r <= best /\ (forall i, i ∈ l -> r <= srv_priority p i)
  /\ (r = best \/ exists i, i ∈ l /\ srv_priority p i = r).
Proof.
  induction l as [|x l IH]; intros best Hb; cbn [foldl]; [split; [lia|split; [set_solver|by left]]|].
  assert (Hstep : best_priority p best x <= best /\ best_priority p best x <= srv_priority p x
                  /\ (best_priority p best x = best \/ best_priority p best x = srv_priority p x)).
  { unfold best_priority. destruct (Z.ltb_spec (srv_priority p x) best); lia. }
  destruct Hstep as (H1 & H2 & H3). destruct (IH (best_priority p best x)) as (I1 & I2 & I3); [lia|].
  split; [lia|]. split.
  - intros i [->|Hi]%elem_of_cons; [lia|by apply I2].
  - destruct I3 as [E|(i & Hi & E)]; [|right; exists i; split; [by right|done]].
    destruct H3 as [E'|E']; [left; lia|right; exists x; split; [left|lia]].
Qed.

(** The tier filter keeps the unprioritized targets and the best tier that has a
    healthy member, and never empties a pool. *)
Lemma srv_filter_exact p l i :
  srv_priorities p <> [] -> (forall j, srv_priority p j <= SRV_PRIORITY_NONE) ->
  (i ∈ filter_srv_priority_vec p l <->
   i ∈ l /\ (srv_priority p i = SRV_PRIORITY_NONE \/
             forall j, j ∈ l -> srv_priority p i <= srv_priority p j))
  /\ (l <> [] -> filter_srv_priority_vec p l <> []).
Proof.
  intros Hne Hmax. unfold filter_srv_priority_vec. destruct (srv_priorities p) as [|z zs] eqn:Ep; [done|].
  destruct l as [|x l]; [split; [set_solver|done]|].
  destruct (best_fold p (x :: l) SRV_PRIORITY_NONE ltac:(lia)) as (H1 & H2 & H3).
  set (best := foldl (best_priority p) SRV_PRIORITY_NONE (x :: l)) in *. clearbody best.
  destruct (Z.eqb_spec best SRV_PRIORITY_NONE) as [E|E].
  - split; [|done]. split; [|tauto]. intros Hi. split; [done|]. left.
    specialize (H2 i Hi). specialize (Hmax i). lia.
  - destruct H3 as [|(b & Hb & Hbest)]; [done|].
    assert (Hin : forall k, k ∈ List.filter (fun idx => (srv_priority p idx =? best)
                    || (srv_priority p idx =? SRV_PRIORITY_NONE)) (x :: l)
              <-> k ∈ x :: l /\ (srv_priority p k = best \/ srv_priority p k = SRV_PRIORITY_NONE)).
    { intros k. rewrite !list_elem_of_In, filter_In, orb_true_iff, !Z.eqb_eq. done. }
    split.
    + rewrite Hin. split; (intros [Hi Hor]; split; [done|]); destruct Hor as [Hor|Hor]; auto.
      * right. intros j Hj. rewrite Hor. by apply H2.
      * left. specialize (Hor b Hb). specialize (H2 i Hi). lia.
    + intros _ Hnil. assert (H : b ∈ @nil nat); [|by apply elem_of_nil in H].
      rewrite <- Hnil. apply Hin. split; [done|by left].
Qed.

(** ** The filters agree *)

Section agreement.
Context {US : UnstableSort} {UL : UnstableSortLaws US}.

Lemma seq_ascending n : StronglySorted lt (seq 0 n).
Proof.
  generalize 0%nat. induction n as [|n IH]; intros m; cbn [seq]; [constructor|].
  constructor; [apply IH|]. rewrite Forall_forall. intros x Hx%elem_of_seq. lia.
Qed.

Lemma nothing_scanned p h total idxs :
  nothing_unhealthy h = true ->
  readmit_vec (foldl (scan_target push_index p h) ([], []) idxs) total h = idxs.
Proof.
  unfold nothing_unhealthy. intros [Ha Hp]%andb_true_iff. apply bool_decide_eq_true in Ha.
  assert (Hk : forall i, actively_unhealthy p h i = false /\ passively_ejected p h i = None).
  { intros i. unfold actively_unhealthy, passively_ejected. rewrite Ha, lookup_empty.
    split; [rewrite bool_decide_false; tauto|]. destruct (proxy_passive h) as [ps|]; [|done].
    apply bool_decide_eq_true in Hp. by rewrite Hp, lookup_empty. }
  rewrite scan_spec, push_all. cbn [app].
  assert (Hf : List.filter (keeps p h) idxs = idxs /\ omap (ejection_of p h) idxs = []).
  { induction idxs as [|i idxs [IH1 IH2]]; [done|]. cbn [List.filter omap list_omap].
    unfold keeps at 1, ejection_of at 1. destruct (Hk i) as [-> ->].
    rewrite bool_decide_true by done. cbn [negb andb]. by rewrite IH1, IH2. }
  destruct Hf as [-> ->]. unfold readmit_vec, passive_ejections_to_readmit.
  destruct (max_ejection_percent h); [|done]. by rewrite bool_decide_true.
Qed.

Lemma forall_in_range p (l : list nat) :
  Forall (fun i => i < length (targets p))%nat l ->
  Z.of_nat (length (targets p)) <= MAX_BITSET_TARGETS -> Forall (fun i => i < 128)%nat l.
Proof. intros H Hn. unfold MAX_BITSET_TARGETS in Hn. eapply Forall_impl; [exact H|]. simpl. lia. Qed.

Lemma filter_in_range p (l : list nat) :
  Forall (fun i => i < length (targets p))%nat l ->
  List.filter (fun i => (i <? length (targets p))%nat) l = l.
Proof.
  induction 1 as [|i l Hi _ IH]; [done|]. simpl. rewrite (proj2 (Nat.ltb_lt _ _)) by done. by rewrite IH.
Qed.

Lemma whole_pool_agree p health :
  Z.of_nat (length (targets p)) <= MAX_BITSET_TARGETS ->
  bitset_wf (compute_health_bitset p health)
  /\ elements_of (compute_health_bitset p health) = healthy_targets_vec p health.
Proof.
  intros Hn. unfold compute_health_bitset, healthy_targets_vec.
  destruct (all_spec (length (targets p))) as [Haw Hae]; [unfold MAX_BITSET_TARGETS in Hn; lia|].
  destruct health as [h|]; [|rewrite <- Hae; by apply srv_agree].
  destruct (nothing_unhealthy h) eqn:E.
  - rewrite nothing_scanned, <- Hae by done. by apply srv_agree.
  - destruct (readmit_agree p h (seq 0 (length (targets p))) (length (targets p))) as [Hw He].
    + apply seq_ascending.
    + rewrite Forall_forall. intros i Hi%elem_of_seq. unfold MAX_BITSET_TARGETS in Hn. lia.
    + rewrite <- He. by apply srv_agree.
Qed.

Lemma indices_agree p health idxs :
  Z.of_nat (length (targets p)) <= MAX_BITSET_TARGETS ->
  StronglySorted lt idxs -> Forall (fun i => i < length (targets p))%nat idxs ->
  bitset_wf (compute_health_bitset_for_indices p health idxs)
  /\ elements_of (compute_health_bitset_for_indices p health idxs)
     = healthy_targets_vec_for_indices p health idxs.
Proof.
  intros Hn Hs Hr. assert (H128 := forall_in_range p idxs Hr Hn).
  unfold compute_health_bitset_for_indices, healthy_targets_vec_for_indices.
  destruct (bitset_for_indices_spec idxs) as [Hbw Hbe]; [by apply ascending_nodup|done|].
  assert (Hbi : elements_of (bitset_for_indices idxs) = idxs)
    by (apply sorted_ext; [apply members_sorted; apply Hbw|done|done]).
  assert (Hsrv := srv_agree p _ Hbw). rewrite Hbi in Hsrv. rewrite filter_in_range by done.
  destruct health as [h|]; [|done].
  rewrite !scan_in_range_spec by done. destruct (nothing_unhealthy h) eqn:E.
  - by rewrite nothing_scanned.
  - destruct (readmit_agree p h idxs (length idxs) Hs H128) as [Hw He]. rewrite <- He. by apply srv_agree.
Qed.

Lemma mask_agree p health mask :
  Z.of_nat (length (targets p)) <= MAX_BITSET_TARGETS -> bitset_wf mask ->
  Forall (fun i => i < length (targets p))%nat (elements_of mask) ->
  bitset_wf (compute_health_bitset_for_mask p health mask)
  /\ elements_of (compute_health_bitset_for_mask p health mask)
     = healthy_targets_vec_for_indices p health (elements_of mask).
Proof.
  intros Hn Hm Hr. assert (H128 := forall_in_range p _ Hr Hn).
  assert (Hs := members_sorted (bits mask) ltac:(apply Hm)).
  unfold compute_health_bitset_for_mask, healthy_targets_vec_for_indices.
  rewrite filter_in_range by done. destruct health as [h|]; [|by apply srv_agree].
  rewrite for_each_set_bit_spec by done. rewrite !scan_in_range_spec by done.
  destruct (nothing_unhealthy h) eqn:E; [rewrite nothing_scanned by done; by apply srv_agree|].
  assert (Hc : Z.to_nat (count mask) = length (elements_of mask)) by (unfold count; rewrite (wf_len _ Hm); lia).
  rewrite Hc. destruct (readmit_agree p h (elements_of mask) (length (elements_of mask)) Hs H128) as [Hw He].
  rewrite <- He. by apply srv_agree.
Qed.

(** The allocation-free health filters compute the vector filters: for pools
    of at most 128 targets the bitset of the whole pool, of an index list and of
    a mask hold exactly the indices, in ascending order, that the vector variant
    returns, with an exact population count. *)
Theorem health_filters_agree (p : pool) (health : option HealthContext) (idxs : list nat) (mask : HealthBitset) :
  Z.of_nat (length (targets p)) <= MAX_BITSET_TARGETS ->
  StronglySorted lt idxs -> Forall (fun i => i < length (targets p))%nat idxs ->
  bitset_wf mask -> Forall (fun i => i < length (targets p))%nat (elements_of mask) ->
  (bitset_wf (compute_health_bitset p health)
   /\ elements_of (compute_health_bitset p health) = healthy_targets_vec p health)
  /\ (bitset_wf (compute_health_bitset_for_indices p health idxs)
      /\ elements_of (compute_health_bitset_for_indices p health idxs)
         = healthy_targets_vec_for_indices p health idxs)
  /\ (bitset_wf (compute_health_bitset_for_mask p health mask)
      /\ elements_of (compute_health_bitset_for_mask p health mask)
         = healthy_targets_vec_for_indices p health (elements_of mask)).
Proof.
  intros Hn Hs Hr Hm Hmr.
  split; [by apply whole_pool_agree|]. split; [by apply indices_agree|by apply mask_agree].
Qed.
End agreement.

(** ** The ejection cap *)

Section cap.
Context {US : UnstableSort} {UL : UnstableSortLaws US}.

(** The integer gate of the policy: [k] of [n] targets may be ejected. *)
Definition within_cap (pct : Z) (n k : nat) : Prop := Z.of_nat k * 100 / Z.of_nat n <= pct.

Lemma cap_closed_form (n : nat) (pct : Z) :
  (0 < n)%nat -> 0 <= pct < 256 -> Z.of_nat n < 2 ^ 48 ->
  let cap := Nat.min (Z.to_nat (saturating_sub (saturating_mul 64 (Z.of_nat n) (saturating_add 64 pct 1)) 1 / 100)) n in
  forall k, (k <= n)%nat -> within_cap pct n k <-> (k <= cap)%nat.
Proof.
  intros Hn Hp Hb cap k Hk. unfold within_cap, cap, saturating_sub, saturating_mul, saturating_add, umax.
  rewrite (Z.min_l (pct + 1)) by lia. rewrite Z.min_l by nia. rewrite Z.max_r by nia.
  set (N := Z.of_nat n) in *. assert (Hq := Z.div_pos (N * (pct + 1) - 1) 100 ltac:(nia) ltac:(lia)).
  assert (H1 : Z.of_nat k * 100 / N <= pct <-> Z.of_nat k * 100 < N * (pct + 1)).
  { split; intros H.
    - assert (Z.of_nat k * 100 / N < pct + 1) as H' by lia.
      assert (Hd := Z.div_mod (Z.of_nat k * 100) N ltac:(lia)).
      assert (Hm := Z.mod_pos_bound (Z.of_nat k * 100) N ltac:(lia)). nia.
    - apply Zlt_succ_le. apply Z.div_lt_upper_bound; lia. }
  rewrite H1. assert (H2 : Z.of_nat k * 100 < N * (pct + 1) <-> Z.of_nat k <= (N * (pct + 1) - 1) / 100).
  { split; intros H.
    - apply Z.div_le_lower_bound; lia.
    - assert (Hm := Z.mul_div_le (N * (pct + 1) - 1) 100 ltac:(lia)). lia. }
  rewrite H2. lia.
Qed.

(** What is left ejected after readmission. *)
Lemma readmission_exact ejected n pct :
  (0 < n)%nat -> 0 <= pct < 256 -> Z.of_nat n < 2 ^ 48 -> (length ejected <= n)%nat ->
  let '(l, k) := passive_ejections_to_readmit ejected n (Some pct) in
  l ≡ₚ ejected /\ within_cap pct n (length (drop k l))
  /\ ((0 < k)%nat -> ~ within_cap pct n (S (length (drop k l)))
      /\ forall a b, a ∈ take k l -> b ∈ drop k l -> a.2 <= b.2).
Proof.
  intros Hn Hp Hb Hlen. assert (Hcap := cap_closed_form n pct Hn Hp Hb).
  unfold passive_ejections_to_readmit. rewrite (proj2 (Nat.eqb_neq n 0)), orb_false_r by lia.
  set (cap := Nat.min _ n) in *. assert (Hcn : (cap <= n)%nat) by lia. clearbody cap.
  destruct (decide (ejected = [])) as [->|Hne].
  { rewrite bool_decide_true by done. split; [done|]. split; [|lia]. apply Hcap; simpl; lia. }
  rewrite bool_decide_false by done. destruct (Nat.leb_spec (length ejected) cap) as [H|H].
  - split; [done|]. rewrite drop_0. split; [by apply Hcap|lia].
  - assert (Hl : length (sort_unstable_by_ts ejected) = length ejected) by (by rewrite sort_permutes).
    assert (Hd : length (drop (length ejected - cap) (sort_unstable_by_ts ejected)) = cap)
      by (rewrite length_drop, Hl; lia).
    split; [apply sort_permutes|]. rewrite Hd. split; [by apply Hcap|]. intros _. split.
    + rewrite Hcap by lia. lia.
    + intros a b Ha Hb'. assert (Hs := sort_sorts ejected).
      rewrite <- (take_drop (length ejected - cap) (sort_unstable_by_ts ejected)) in Hs.
      revert Hs Ha Hb'. generalize (take (length ejected - cap) (sort_unstable_by_ts ejected)) as t.
      intros t. induction t as [|x t IH]; intros Hs Ha Hb'; [by apply elem_of_nil in Ha|].
      inversion Hs as [|? ? Hs' HF]; subst. apply elem_of_cons in Ha as [->|Ha]; [|by apply IH].
      rewrite Forall_forall in HF. apply HF. apply elem_of_app. by right.
Qed.

(** The targets that stay out although no probe marked them. *)
Definition left_out (p : pool) (h : HealthContext) (healthy : list nat) : list nat :=
  List.filter (fun i => negb (actively_unhealthy p h i) && bool_decide (i ∉ healthy))
    (seq 0 (length (targets p))).

Section cap_of_pool.
Context (p : pool) (h : HealthContext) (pct : Z).
Hypothesis no_tiers : srv_priorities p = [].
Hypothesis capped : max_ejection_percent h = Some pct.

Let n := length (targets p).
Let ejected := omap (ejection_of p h) (seq 0 n).
Let split := passive_ejections_to_readmit ejected n (Some pct).
Let healthy := healthy_targets_vec p (Some h).

Lemma healthy_survives i : i ∈ healthy <-> survives p h (seq 0 n) n i.
Proof.
  unfold healthy, healthy_targets_vec, filter_srv_priority_vec. rewrite no_tiers.
  apply readmit_vec_spec. apply seq_ascending.
Qed.

Lemma survives_cases i :
  survives p h (seq 0 n) n i <->
  ((i < n)%nat /\ keeps p h i = true) \/ i ∈ (take split.2 split.1).*1.
Proof.
  unfold survives, readmitted. rewrite capped, elem_of_seq. fold ejected. fold split.
  destruct split as [l k]. simpl. split; (intros [?|?]; [left; split; [lia|tauto]|by right]).
Qed.

Lemma ejected_nodup : NoDup (split.1).*1.
Proof.
  assert (H := to_readmit_perm ejected n (Some pct)). fold split in H. rewrite H.
  apply ascending_nodup. eapply ascending_sublist; [apply ejections_fst|apply seq_ascending].
Qed.

Lemma elem_of_split i t : (i, t) ∈ split.1 <->
  (i < n)%nat /\ actively_unhealthy p h i = false /\ passively_ejected p h i = Some t.
Proof.
  assert (H := to_readmit_perm ejected n (Some pct)). fold split in H. rewrite H.
  unfold ejected. rewrite elem_of_ejections, elem_of_seq. split; intros; split; try lia; tauto.
Qed.

Lemma left_out_rest : left_out p h healthy ≡ₚ (drop split.2 split.1).*1.
Proof.
  assert (Hnd := ejected_nodup). rewrite <- (take_drop split.2 split.1), fmap_app in Hnd.
  apply NoDup_app in Hnd as (_ & Hdisj & Hndd). apply NoDup_Permutation; [|done|].
  { eapply sublist_NoDup; [apply (NoDup_seq 0 n)|apply filter_sublist]. }
  intros i. unfold left_out. fold n. rewrite list_elem_of_In, filter_In, <- list_elem_of_In, elem_of_seq.
  rewrite andb_true_iff, negb_true_iff, bool_decide_eq_true, healthy_survives, survives_cases. split.
  - intros (Hi & Ha & Hnot). destruct (passively_ejected p h i) as [t|] eqn:Ep.
    + assert (Hin : (i, t) ∈ split.1) by (apply elem_of_split; split; [lia|done]).
      rewrite <- (take_drop split.2 split.1), elem_of_app in Hin. destruct Hin as [Hin|Hin].
      * destruct Hnot. right. apply list_elem_of_fmap. by exists (i, t).
      * apply list_elem_of_fmap. by exists (i, t).
    + destruct Hnot. left. split; [lia|]. unfold keeps. by rewrite Ha, Ep, bool_decide_true.
  - intros Hin. assert (Hin' := Hin). apply list_elem_of_fmap in Hin' as ([j t] & -> & Hj).
    assert (Hs : (j, t) ∈ split.1) by (rewrite <- (take_drop split.2 split.1), elem_of_app; by right).
    apply elem_of_split in Hs as (Hlt & Ha & Hp). simpl in *. split; [lia|]. split; [done|].
    intros [[_ Hk]|Ht]; [|by apply (Hdisj j)].
    unfold keeps in Hk. rewrite Hp, bool_decide_false, andb_false_r in Hk by done. done.
Qed.

(** The ejection cap is Envoy's integer gate, exactly: whatever the passive
    ejections, every target in good standing stays a candidate and no target
    marked by probes becomes one; the targets left out number at most what the
    percentage allows; and when an ejected target is let back in, leaving out
    one more would have exceeded the cap and it was ejected no later than any
    target still out. *)
Theorem ejection_cap_exact :
  (0 < n)%nat -> 0 <= pct < 256 -> Z.of_nat n < 2 ^ 48 ->
  (forall i, i ∈ healthy -> (i < n)%nat /\ actively_unhealthy p h i = false)
  /\ (forall i, (i < n)%nat -> keeps p h i = true -> i ∈ healthy)
  /\ within_cap pct n (length (left_out p h healthy))
  /\ (forall i t, i ∈ healthy -> passively_ejected p h i = Some t ->
        ~ within_cap pct n (S (length (left_out p h healthy)))
        /\ forall j t', j ∈ left_out p h healthy -> passively_ejected p h j = Some t' -> t <= t').
Proof.
  intros Hn Hp Hb. assert (Hlen : (length ejected <= n)%nat).
  { rewrite <- (length_fmap fst). etransitivity; [apply sublist_length, ejections_fst|]. by rewrite length_seq. }
  assert (Hx := readmission_exact ejected n pct Hn Hp Hb Hlen). fold split in Hx.
  assert (Hrest := left_out_rest). assert (Hll : length (left_out p h healthy) = length (drop split.2 split.1))
    by (rewrite Hrest; apply length_fmap).
  assert (Hsplit := elem_of_split). assert (Hcases := survives_cases).
  destruct split as [l k]. simpl in *. destruct Hx as (_ & Hcap & Hre). rewrite Hll.
  assert (Htake : forall i, i ∈ (take k l).*1 -> exists t, (i, t) ∈ take k l /\ (i, t) ∈ l).
  { intros i ([j t] & -> & Hj)%list_elem_of_fmap. exists t. split; [done|].
    rewrite <- (take_drop k l), elem_of_app. by left. }
  split; [|split; [|split; [done|]]].
  - intros i Hi%healthy_survives%Hcases. destruct Hi as [[Hi Hk]|(t & _ & Hin)%Htake].
    + split; [done|]. unfold keeps in Hk. apply andb_true_iff in Hk as [Hk _]. by apply negb_true_iff in Hk.
    + apply Hsplit in Hin. tauto.
  - intros i Hi Hk. apply healthy_survives, Hcases. by left.
  - intros i t Hi Ht. apply healthy_survives, Hcases in Hi as [[_ Hk]|Hi].
    + unfold keeps in Hk. rewrite Ht, bool_decide_false, andb_false_r in Hk by done. done.
    + destruct (Htake i Hi) as (t0 & Hin & Hl). assert (Hk : (0 < k)%nat) by (destruct k; [by apply elem_of_nil in Hi|lia]).
      destruct (Hre Hk) as [Hno Hord]. split; [done|]. intros j t' Hj Ht'. rewrite Hrest in Hj.
      apply list_elem_of_fmap in Hj as ([j' t1] & -> & Hj). simpl in *.
      assert (Hl' : (j', t1) ∈ l) by (rewrite <- (take_drop k l), elem_of_app; by right).
      apply Hsplit in Hl as (_ & _ & Hl). apply Hsplit in Hl' as (_ & _ & Hl').
      assert (t = t0) as -> by congruence. assert (t' = t1) as -> by congruence.
      apply (Hord _ _ Hin Hj).
Qed.
End cap_of_pool.
End cap.

(** ** A concrete pool *)

Definition by_ts (a b : nat * Z) : Prop := a.2 <= b.2.
#[local] Instance by_ts_dec : RelDecision by_ts.
Proof. intros a b. unfold by_ts. apply _. Defined.
#[local] Instance by_ts_total : Total by_ts.
Proof. intros a b. unfold by_ts. lia. Qed.
#[local] Instance by_ts_trans : Transitive by_ts.
Proof. intros a b c. unfold by_ts. lia. Qed.

(** A stable sort is one of the orders an unstable sort may produce. *)
Definition stable_sort : UnstableSort := merge_sort by_ts.

Lemma stable_sort_laws : UnstableSortLaws stable_sort.
Proof.
  constructor; intros l; unfold sort_unstable_by_ts, stable_sort.
  - apply merge_sort_Permutation.
  - apply (StronglySorted_merge_sort by_ts).
Qed.

Definition backend (n : Z) : UpstreamTarget := bare_target (bs "10.0.0." ++ show_dec n) 80.
Definition four : list UpstreamTarget := map backend [1; 2; 3; 4].
Definition four_pool : pool :=
  Pool four (map (scoped_target_key (bs "ns|up")) four) (map target_host_port_key four) [].

Definition ejected_at (t : Z) : PassiveEjection := Ejection 0 t 0 false [] [] 0 None.

(** Two of four targets are ejected; at 30 percent only one may be. *)
Definition two_ejected : HealthContext :=
  HealthCtx ∅
    (Some (Proxy (<[target_host_port_key (backend 2) := ejected_at 50]>
                   (<[target_host_port_key (backend 4) := ejected_at 20]> ∅)) ∅))
    (Some 30).

Lemma ejection_cap_exact_witness :
  within_cap 30 4 (length (left_out four_pool two_ejected
    (@healthy_targets_vec stable_sort four_pool (Some two_ejected)))).
Proof.
  destruct (@ejection_cap_exact stable_sort stable_sort_laws four_pool two_ejected 30) as (_ & _ & H & _);
    [reflexivity|reflexivity|vm_compute; lia|lia|vm_compute; reflexivity|exact H].
Defined.

Lemma health_filters_agree_witness :
  elements_of (@compute_health_bitset stable_sort four_pool (Some two_ejected)) = [0; 2; 3]%nat.
Proof.
  destruct (@health_filters_agree stable_sort stable_sort_laws four_pool (Some two_ejected) [1; 3]%nat (all 2))
    as ([_ H] & _ & _).
  - vm_compute. discriminate.
  - repeat constructor.
  - repeat constructor; vm_compute; lia.
  - apply all_spec. lia.
  - vm_compute. repeat constructor; lia.
  - rewrite H. vm_compute. reflexivity.
Defined.
