(* ===== verification/LbLocality.v ===== *)
(** * Locality preference of the balancer ([src/src/load_balancer.rs])

    Which of the healthy candidates a selection prefers: local endpoints over
    cross-cluster gateways, operator-weighted localities, failover priority
    ranks, the exact, zone and region tiers, failover regions; and strict mode,
    which falls back to unhealthy local endpoints rather than to remote ones.
    Each rule exists for the bitset and for the vector path. *)

From Stdlib Require Import Sorted.
From S2P Require Import Prelude Upstream HealthBitset LbHealth.
#[local] Open Scope Z_scope.

Record LocalityDistributeGroup := Group {
  group_weight : Z;
  group_indices : list nat;
  group_membership : list bool;
}.

(** The counters of the distribute buckets are kept beside the other counters. *)
Record LocalityLbState := LocalityLb {
  enabled : bool;
  distribute_weights : option (list Z);
  distribute_groups : option (list LocalityDistributeGroup);
  failover_target_matches : option (list bool);
  failover_priority_ranks : option (list Z);
}.

(** The locality tables of a balancer with [target_count] targets. *)
Record locality_tables := Locality {
  target_count : nat;
  local_locality_mask : list bool;
  cross_cluster_failover_present : bool;
  locality_lb_strict : bool;
  target_locality_ranks : list Z;
}.

Definition is_local (t : locality_tables) (idx : nat) : bool := default true (local_locality_mask t !! idx).
Definition locality_rank (t : locality_tables) (idx : nat) : Z := default 3 (target_locality_ranks t !! idx).
Definition weighted (weights : list Z) (idx : nat) : bool := 0 <? default 0 (weights !! idx).
Definition failover_match (m : list bool) (idx : nat) : bool := default false (m !! idx).

(** [usize::MAX] on a 64-bit target. *)
Definition USIZE_MAX : Z := umax 64.
Definition priority_rank (ranks : list Z) (idx : nat) : Z := default USIZE_MAX (ranks !! idx).

(** The loop [for idx in 0..n { if set.contains(idx) && f(idx) { out.set(idx) } }]. *)
Definition mask_where (n : nat) (s : HealthBitset) (f : nat -> bool) : HealthBitset :=
  foldl (fun out idx => if contains s idx && f idx then set out idx else out) empty_bitset (seq 0 n).

(** ** Bitset path *)

Definition preferred_failover_priority_bitset (n : nat) (candidates : HealthBitset) (ranks : list Z)
    : HealthBitset :=
  let best_rank :=
    foldl (fun best idx =>
             if negb (contains candidates idx) then best
             else let rank := priority_rank ranks idx in if rank <? best then rank else best)
      USIZE_MAX (seq 0 n) in
  if best_rank =? USIZE_MAX then candidates
  else
    let preferred := mask_where n candidates (fun idx => priority_rank ranks idx =? best_rank) in
    if is_empty preferred then candidates else preferred.

Definition strict_local_bitset (t : locality_tables) (candidates scope : HealthBitset) : HealthBitset * bool :=
  match local_locality_mask t with
  | [] => (candidates, false)
  | _ =>
    let local := mask_where (target_count t) candidates (is_local t) in
    if negb (is_empty local) then (local, false)
    else
      let scope_local := mask_where (target_count t) scope (is_local t) in
      if negb (is_empty scope_local) then (scope_local, true)
      else (candidates, false)
  end.

(** The candidates without cross-cluster gateways while a local one is healthy. *)
Definition without_gateways_bitset (t : locality_tables) (candidates : HealthBitset) : HealthBitset :=
  if cross_cluster_failover_present t then
    let healthy_local := mask_where (target_count t) candidates (is_local t) in
    if is_empty healthy_local then candidates else healthy_local
  else candidates.

Definition preferred_locality_bitset (t : locality_tables) (candidates scope : HealthBitset)
    (locality_lb : option LocalityLbState) (failover_enabled : bool) : HealthBitset * bool :=
  let n := target_count t in
  let candidates := without_gateways_bitset t candidates in
  let tiers :=
    match target_locality_ranks t with
    | [] => if locality_lb_strict t then strict_local_bitset t candidates scope else (candidates, false)
    | _ =>
      let tier r := mask_where n candidates (fun idx => locality_rank t idx =? r) in
      if negb (is_empty (tier 0)) then (tier 0, false)
      else if negb (is_empty (tier 1)) then (tier 1, false)
      else if negb (is_empty (tier 2)) then (tier 2, false)
      else
        match locality_lb ≫= failover_target_matches with
        | Some m =>
          let failover := mask_where n candidates (failover_match m) in
          if negb (is_empty failover) then (failover, false) else (candidates, false)
        | None => (candidates, false)
        end
    end in
  let ranked :=
    match locality_lb ≫= failover_priority_ranks with
    | Some ranks =>
      if failover_enabled then (preferred_failover_priority_bitset n candidates ranks, false) else tiers
    | None => tiers
    end in
  if match locality_lb with Some st => negb (enabled st) | None => false end then (candidates, false)
  else
    match locality_lb ≫= distribute_weights with
    | Some weights =>
      let masked := mask_where n candidates (weighted weights) in
      if negb (is_empty masked) then (masked, false) else ranked
    | None => ranked
    end.

(** ** Vector path *)

Definition preferred_failover_priority_candidates (candidates : list nat) (ranks : list Z) : list nat :=
  let best_rank :=
    foldl (fun best idx => let rank := priority_rank ranks idx in if rank <? best then rank else best)
      USIZE_MAX candidates in
  if best_rank =? USIZE_MAX then candidates
  else
    match List.filter (fun idx => priority_rank ranks idx =? best_rank) candidates with
    | [] => candidates
    | preferred => preferred
    end.

Definition strict_local_candidates (t : locality_tables) (candidates scope : list nat) : list nat * bool :=
  match local_locality_mask t with
  | [] => (candidates, false)
  | _ =>
    match List.filter (is_local t) candidates with
    | [] =>
      match List.filter (is_local t) scope with
      | [] => (candidates, false)
      | scope_local => (scope_local, true)
      end
    | local => (local, false)
    end
  end.

Definition without_gateways (t : locality_tables) (candidates : list nat) : list nat :=
  if cross_cluster_failover_present t then
    match List.filter (is_local t) candidates with [] => candidates | healthy_local => healthy_local end
  else candidates.

(** The tier loop: a better rank restarts the collection. *)
Definition tier_step (t : locality_tables) (acc : Z * list nat) (idx : nat) : Z * list nat :=
  let '(best_rank, preferred) := acc in
  let rank := locality_rank t idx in
  if 3 <=? rank then (best_rank, preferred)
  else
    let '(best_rank, preferred) := if rank <? best_rank then (rank, []) else (best_rank, preferred) in
    if rank =? best_rank then (best_rank, preferred ++ [idx]) else (best_rank, preferred).

Definition preferred_locality_candidates (t : locality_tables) (candidates scope : list nat)
    (locality_lb : option LocalityLbState) (failover_enabled : bool) : list nat * bool :=
  let candidates := without_gateways t candidates in
  let tiers :=
    match target_locality_ranks t with
    | [] => if locality_lb_strict t then strict_local_candidates t candidates scope else (candidates, false)
    | _ =>
      match (foldl (tier_step t) (3, []) candidates).2 with
      | [] =>
        match locality_lb ≫= failover_target_matches with
        | Some m =>
          match List.filter (failover_match m) candidates with
          | [] => (candidates, false)
          | failover => (failover, false)
          end
        | None => (candidates, false)
        end
      | preferred => (preferred, false)
      end
    end in
  let ranked :=
    match locality_lb ≫= failover_priority_ranks with
    | Some ranks =>
      if failover_enabled then (preferred_failover_priority_candidates candidates ranks, false) else tiers
    | None => tiers
    end in
  if match locality_lb with Some st => negb (enabled st) | None => false end then (candidates, false)
  else
    match locality_lb ≫= distribute_weights with
    | Some weights =>
      match List.filter (weighted weights) candidates with
      | [] => ranked
      | masked => (masked, false)
      end
    | None => ranked
    end.

(** ** Agreement of the two paths *)

Lemma is_empty_spec b : bitset_wf b -> is_empty b = bool_decide (elements_of b = []).
Proof.
  intros [_ Hl]. unfold is_empty. rewrite Hl. destruct (elements_of b); [done|].
  simpl length. rewrite bool_decide_false by done. apply Z.eqb_neq. lia.
Qed.

Lemma filter_elem {A} (f : A -> bool) (l : list A) i : i ∈ List.filter f l <-> i ∈ l /\ f i = true.
Proof. by rewrite !list_elem_of_In, filter_In. Qed.

Lemma mask_where_spec n s f :
  (n <= 128)%nat -> bitset_wf s -> Forall (fun i => i < n)%nat (elements_of s) ->
  bitset_wf (mask_where n s f) /\ elements_of (mask_where n s f) = List.filter f (elements_of s).
Proof.
  intros Hn Hs Hr. unfold mask_where.
  destruct (set_filtered_spec (fun idx => contains s idx && f idx) (seq 0 n) empty_bitset) as [Hw He];
    [apply empty_bitset_wf|apply NoDup_seq| |simpl; set_solver|].
  { rewrite Forall_forall. intros i Hi%elem_of_seq. lia. }
  split; [done|]. apply sorted_ext; [apply members_sorted; apply Hw| |].
  - eapply ascending_sublist; [apply filter_sublist|]. apply members_sorted. apply Hs.
  - intros i. etransitivity; [apply He|]. simpl. rewrite elem_of_nil, !filter_elem, elem_of_seq, andb_true_iff.
    rewrite Forall_forall in Hr. split.
    + intros [[]|(Hi & Hc & Hf)]. split; [|done]. apply contains_spec in Hc; [done|apply Hs|lia].
    + intros [Hi Hf]. right. assert (i < n)%nat by (by apply Hr). split; [lia|]. split; [|done].
      apply contains_spec; [apply Hs|lia|done].
Qed.

(** A bitset result denotes a vector result. *)
Definition denotes (n : nat) (b : HealthBitset) (l : list nat) : Prop :=
  bitset_wf b /\ elements_of b = l /\ Forall (fun i => i < n)%nat l.

Definition same_choice (n : nat) (r : HealthBitset * bool) (v : list nat * bool) : Prop :=
  denotes n r.1 v.1 /\ r.2 = v.2.

Lemma denotes_filter n b l f :
  (n <= 128)%nat -> denotes n b l -> denotes n (mask_where n b f) (List.filter f l).
Proof.
  intros Hn (Hw & <- & Hr). destruct (mask_where_spec n b f Hn Hw Hr) as [Hw' He].
  split; [done|]. split; [done|]. rewrite Forall_forall in *. intros i [Hi _]%filter_elem. by apply Hr.
Qed.

Lemma denotes_empty n b l : denotes n b l -> is_empty b = bool_decide (l = []).
Proof. intros (Hw & <- & _). by apply is_empty_spec. Qed.

(** The test both paths make: the narrowed set when it is not empty. *)
Lemma narrow_agree n b l f k kl :
  (n <= 128)%nat -> denotes n b l -> same_choice n k kl ->
  same_choice n
    (if negb (is_empty (mask_where n b f)) then (mask_where n b f, false) else k)
    (match List.filter f l with [] => kl | x :: r => (x :: r, false) end).
Proof.
  intros Hn Hd Hk. assert (Hf := denotes_filter n b l f Hn Hd). rewrite (denotes_empty _ _ _ Hf).
  destruct (List.filter f l) as [|x r]; [by rewrite bool_decide_true|].
  rewrite bool_decide_false by done. by split.
Qed.

Lemma without_gateways_agree t b l :
  (target_count t <= 128)%nat -> denotes (target_count t) b l ->
  denotes (target_count t) (without_gateways_bitset t b) (without_gateways t l).
Proof.
  intros Hn Hd. unfold without_gateways_bitset, without_gateways.
  destruct (cross_cluster_failover_present t); [|done].
  assert (Hf := denotes_filter _ b l (is_local t) Hn Hd). rewrite (denotes_empty _ _ _ Hf).
  destruct (List.filter (is_local t) l) as [|x r]; [by rewrite bool_decide_true|by rewrite bool_decide_false].
Qed.

Lemma denotes_members n b l : (n <= 128)%nat -> denotes n b l -> l = List.filter (contains b) (seq 0 n).
Proof.
  intros Hn (Hw & He & Hr). apply sorted_ext; [rewrite <- He; apply members_sorted; apply Hw| |].
  - eapply ascending_sublist; [apply filter_sublist|apply seq_ascending].
  - intros i. rewrite filter_elem, elem_of_seq. rewrite Forall_forall in Hr. split.
    + intros Hi. assert (i < n)%nat by (by apply Hr). split; [lia|]. apply contains_spec; [apply Hw|lia|by rewrite He].
    + intros [Hi Hc]. rewrite <- He. apply contains_spec in Hc; [done|apply Hw|lia].
Qed.

(** The loops that skip the indices outside the bitset run over its members. *)
Lemma foldl_members {S} n b l (f : S -> nat -> S) (s : S) :
  (n <= 128)%nat -> denotes n b l ->
  foldl (fun s i => if negb (contains b i) then s else f s i) s (seq 0 n) = foldl f s l.
Proof.
  intros Hn Hd. rewrite (denotes_members n b l Hn Hd). clear. revert s.
  induction (seq 0 n) as [|i k IH]; intros s; [done|]. simpl. destruct (contains b i); simpl; apply IH.
Qed.

Lemma best_rank_agree n b l (rank : nat -> Z) acc :
  (n <= 128)%nat -> denotes n b l ->
  foldl (fun best idx => if negb (contains b idx) then best else if rank idx <? best then rank idx else best)
    acc (seq 0 n)
  = foldl (fun best idx => if rank idx <? best then rank idx else best) acc l.
Proof. apply foldl_members. Qed.

Lemma failover_priority_agree n b l ranks :
  (n <= 128)%nat -> denotes n b l ->
  denotes n (preferred_failover_priority_bitset n b ranks) (preferred_failover_priority_candidates l ranks).
Proof.
  intros Hn Hd. unfold preferred_failover_priority_bitset, preferred_failover_priority_candidates.
  rewrite (best_rank_agree n b l (priority_rank ranks)) by done.
  destruct (foldl _ USIZE_MAX l =? USIZE_MAX); [done|]. set (f := fun idx => priority_rank ranks idx =? _).
  assert (Hf := denotes_filter n b l f Hn Hd). rewrite (denotes_empty _ _ _ Hf).
  destruct (List.filter f l) as [|x r]; [by rewrite bool_decide_true|by rewrite bool_decide_false].
Qed.

(** ** The tiers *)

Definition tier (t : locality_tables) (l : list nat) (r : Z) : list nat :=
  List.filter (fun idx => locality_rank t idx =? r) l.

(** The best rank below three that occurs, or three. *)
Definition best_tier (t : locality_tables) (l : list nat) : Z :=
  match tier t l 0, tier t l 1, tier t l 2 with
  | _ :: _, _, _ => 0
  | [], _ :: _, _ => 1
  | [], [], _ :: _ => 2
  | [], [], [] => 3
  end.

Lemma tier_snoc t l i r :
  tier t (l ++ [i]) r = tier t l r ++ (if locality_rank t i =? r then [i] else []).
Proof. unfold tier. by rewrite List.filter_app. Qed.

Lemma tier_loop t l :
  (forall i, 0 <= locality_rank t i) ->
  foldl (tier_step t) (3, []) l
  = (best_tier t l, if best_tier t l <? 3 then tier t l (best_tier t l) else []).
Proof.
  intros Hpos. induction l as [|i l IH] using rev_ind; [done|].
  rewrite foldl_app, IH. cbn [foldl]. unfold tier_step, best_tier. rewrite !tier_snoc. clear IH.
  assert (Hcase : 3 <= locality_rank t i \/ locality_rank t i = 0 \/ locality_rank t i = 1 \/ locality_rank t i = 2)
    by (specialize (Hpos i); lia).
  destruct Hcase as [Hc|Hc].
  - rewrite (proj2 (Z.leb_le _ _) Hc), (proj2 (Z.eqb_neq (locality_rank t i) 0)),
      (proj2 (Z.eqb_neq (locality_rank t i) 1)), (proj2 (Z.eqb_neq (locality_rank t i) 2)) by lia.
    rewrite !app_nil_r.
    destruct (tier t l 0) eqn:E0; [destruct (tier t l 1) eqn:E1; [destruct (tier t l 2) eqn:E2|]|]; cbn;
      rewrite ?(proj2 (Z.eqb_neq (locality_rank t i) _)) by lia; by rewrite ?app_nil_r.
  - destruct (tier t l 0) eqn:E0; [destruct (tier t l 1) eqn:E1; [destruct (tier t l 2) eqn:E2|]|];
      destruct Hc as [Hc|[Hc|Hc]]; rewrite Hc; cbn; rewrite ?E0, ?E1, ?E2; cbn; by rewrite ?app_nil_r.
Qed.

Lemma tiers_agree n b t l k kl :
  (n <= 128)%nat -> denotes n b l -> (forall i, 0 <= locality_rank t i) -> same_choice n k kl ->
  let mask r := mask_where n b (fun idx => locality_rank t idx =? r) in
  same_choice n
    (if negb (is_empty (mask 0)) then (mask 0, false)
     else if negb (is_empty (mask 1)) then (mask 1, false)
     else if negb (is_empty (mask 2)) then (mask 2, false) else k)
    (match (foldl (tier_step t) (3, []) l).2 with [] => kl | x :: r => (x :: r, false) end).
Proof.
  intros Hn Hd Hpos Hk mask. rewrite tier_loop by done. cbn [snd]. unfold best_tier.
  assert (Hm : forall r, denotes n (mask r) (tier t l r)) by (intros r; by apply denotes_filter).
  rewrite !(denotes_empty _ _ _ (Hm _)).
  assert (H0 := Hm 0). assert (H1 := Hm 1). assert (H2 := Hm 2).
  destruct (tier t l 0) eqn:E0; [destruct (tier t l 1) eqn:E1; [destruct (tier t l 2) eqn:E2|]|]; cbn;
    rewrite ?E0, ?E1, ?E2; first [exact Hk|split; [first [exact H0|exact H1|exact H2]|done]].
Qed.

Lemma strict_agree t b l sb sl :
  (target_count t <= 128)%nat -> denotes (target_count t) b l -> denotes (target_count t) sb sl ->
  same_choice (target_count t) (strict_local_bitset t b sb) (strict_local_candidates t l sl).
Proof.
  intros Hn Hd Hs. unfold strict_local_bitset, strict_local_candidates.
  destruct (local_locality_mask t); [by split|].
  apply narrow_agree; [done|done|]. assert (Hf := denotes_filter _ sb sl (is_local t) Hn Hs).
  rewrite (denotes_empty _ _ _ Hf). destruct (List.filter (is_local t) sl) as [|x r].
  - rewrite bool_decide_true by done. by split.
  - rewrite bool_decide_false by done. by split.
Qed.

Lemma preferred_agree t candidates scope l sl lb fe :
  (target_count t <= 128)%nat -> (forall i, 0 <= locality_rank t i) ->
  denotes (target_count t) candidates l -> denotes (target_count t) scope sl ->
  same_choice (target_count t) (preferred_locality_bitset t candidates scope lb fe)
    (preferred_locality_candidates t l sl lb fe).
Proof.
  intros Hn Hpos Hc Hsd.
  unfold preferred_locality_bitset, preferred_locality_candidates.
  assert (Hd : denotes (target_count t) (without_gateways_bitset t candidates) (without_gateways t l))
    by (by apply without_gateways_agree).
  set (b := without_gateways_bitset t candidates) in *. set (l' := without_gateways t l) in *.
  set (tb := match target_locality_ranks t with [] => if locality_lb_strict t then strict_local_bitset t b scope
               else (b, false) | _ => _ end).
  set (tl := match target_locality_ranks t with [] => if locality_lb_strict t
               then strict_local_candidates t l' sl else (l', false) | _ => _ end).
  assert (Ht : same_choice (target_count t) tb tl).
  { subst tb tl. destruct (target_locality_ranks t).
    - destruct (locality_lb_strict t); [by apply strict_agree|by split].
    - apply tiers_agree; [done|done|done|]. destruct (lb ≫= failover_target_matches); [|by split].
      apply narrow_agree; [done|done|by split]. }
  assert (Hr : same_choice (target_count t)
      (match lb ≫= failover_priority_ranks with
       | Some ranks => if fe then (preferred_failover_priority_bitset (target_count t) b ranks, false) else tb
       | None => tb end)
      (match lb ≫= failover_priority_ranks with
       | Some ranks => if fe then (preferred_failover_priority_candidates l' ranks, false) else tl
       | None => tl end)).
  { destruct (lb ≫= failover_priority_ranks); [|done]. destruct fe; [|done].
    split; [by apply failover_priority_agree|done]. }
  destruct (match lb with Some st => negb (enabled st) | None => false end); [by split|].
  destruct (lb ≫= distribute_weights); [|done]. by apply narrow_agree.
Qed.

(** Locality preference does not depend on the size of the upstream: on every
    candidate set and every configuration the bitset rules for up to 128 targets
    and the vector rules for larger upstreams prefer the same targets and agree on
    whether the choice is degraded. *)
Theorem locality_paths_agree (t : locality_tables) (candidates scope : HealthBitset)
    (locality_lb : option LocalityLbState) (failover_enabled : bool) :
  (target_count t <= 128)%nat -> (forall i, 0 <= locality_rank t i) ->
  bitset_wf candidates -> Forall (fun i => i < target_count t)%nat (elements_of candidates) ->
  bitset_wf scope -> Forall (fun i => i < target_count t)%nat (elements_of scope) ->
  let '(preferred, degraded) := preferred_locality_bitset t candidates scope locality_lb failover_enabled in
  bitset_wf preferred
  /\ preferred_locality_candidates t (elements_of candidates) (elements_of scope) locality_lb failover_enabled
     = (elements_of preferred, degraded).
Proof.
  intros Hn Hpos Hc Hcr Hs Hsr.
  assert (H := preferred_agree t candidates scope (elements_of candidates) (elements_of scope) locality_lb
    failover_enabled Hn Hpos ltac:(by split) ltac:(by split)).
  destruct (preferred_locality_bitset _ _ _ _ _) as [b d].
  destruct (preferred_locality_candidates _ _ _ _ _) as [l d']. destruct H as [(Hw & He & _) Hd].
  simpl in *. by subst.
Qed.

(** ** What a preference may return *)

(** A choice that narrows [l] without emptying it. *)
Definition narrows (l : list nat) (r : list nat * bool) : Prop :=
  r.2 = false /\ sublist r.1 l /\ (l <> [] -> r.1 <> []).

Lemma narrows_refl l : narrows l (l, false).
Proof. by split. Qed.

Lemma narrows_filter l f r :
  narrows l r -> narrows l (match List.filter f l with [] => r | x :: k => (x :: k, false) end).
Proof.
  intros Hr. destruct (List.filter f l) as [|x k] eqn:E; [done|]. split; [done|]. split; [|done].
  rewrite <- E. apply filter_sublist.
Qed.

Lemma narrows_or_match l f : narrows l (match List.filter f l with [] => (l, false) | k => (k, false) end).
Proof. assert (H := narrows_filter l f (l, false) (narrows_refl l)). by destruct (List.filter f l). Qed.

Lemma failover_priority_narrows l ranks : narrows l (preferred_failover_priority_candidates l ranks, false).
Proof.
  unfold preferred_failover_priority_candidates. destruct (_ =? USIZE_MAX); [apply narrows_refl|].
  assert (H := narrows_or_match l (fun idx => priority_rank ranks idx =? foldl (fun best idx =>
    let rank := priority_rank ranks idx in if rank <? best then rank else best) USIZE_MAX l)).
  by destruct (List.filter _ l).
Qed.

Lemma tier_narrows t l r :
  (forall i, 0 <= locality_rank t i) -> narrows l r ->
  narrows l (match (foldl (tier_step t) (3, []) l).2 with [] => r | x :: k => (x :: k, false) end).
Proof.
  intros Hpos Hr. rewrite tier_loop by done. cbn [snd]. destruct (best_tier t l <? 3); [|done].
  by apply narrows_filter.
Qed.

(** Either the choice narrows the candidates, or strict mode fell back to the
    local endpoints of the scope because no candidate is local. *)
Definition strict_fallback (t : locality_tables) (l scope : list nat) (r : list nat * bool) : Prop :=
  r.2 = true /\ r.1 = List.filter (is_local t) scope /\ r.1 <> [] /\ List.filter (is_local t) l = [].

Lemma strict_choice t l scope :
  narrows l (strict_local_candidates t l scope)
  \/ strict_fallback t l scope (strict_local_candidates t l scope).
Proof.
  unfold strict_local_candidates. destruct (local_locality_mask t); [left; apply narrows_refl|].
  destruct (List.filter (is_local t) l) as [|x k] eqn:E.
  - destruct (List.filter (is_local t) scope) as [|y m] eqn:E'; [left; apply narrows_refl|right].
    unfold strict_fallback. cbn [fst snd]. by rewrite E', E.
  - left. split; [done|]. split; [|done]. rewrite <- E. apply filter_sublist.
Qed.

Lemma preference_choice t l0 scope lb fe :
  (forall i, 0 <= locality_rank t i) ->
  let l := without_gateways t l0 in
  let r := preferred_locality_candidates t l0 scope lb fe in
  narrows l r \/ strict_fallback t l scope r.
Proof.
  intros Hpos l r. subst r. unfold preferred_locality_candidates. fold l.
  set (tl := match target_locality_ranks t with [] => _ | _ => _ end).
  assert (Ht : narrows l tl \/ strict_fallback t l scope tl).
  { subst tl. destruct (target_locality_ranks t).
    - destruct (locality_lb_strict t); [apply strict_choice|left; apply narrows_refl].
    - left. apply tier_narrows; [done|]. destruct (lb ≫= failover_target_matches); [|apply narrows_refl].
      apply narrows_or_match. }
  set (rl := match lb ≫= failover_priority_ranks with Some _ => _ | None => _ end).
  assert (Hr : narrows l rl \/ strict_fallback t l scope rl).
  { subst rl. destruct (lb ≫= failover_priority_ranks); [|done].
    destruct fe; [left; apply failover_priority_narrows|done]. }
  destruct (match lb with Some st => negb (enabled st) | None => false end); [left; apply narrows_refl|].
  destruct (lb ≫= distribute_weights) as [w|]; [|done].
  destruct (List.filter (weighted w) l) as [|x k] eqn:E; [done|]. left. split; [done|]. split; [|done].
  rewrite <- E. apply filter_sublist.
Qed.

Lemma without_gateways_sublist t l : sublist (without_gateways t l) l.
Proof.
  unfold without_gateways. destruct (cross_cluster_failover_present t); [|done].
  destruct (List.filter (is_local t) l) as [|x k] eqn:E; [done|]. rewrite <- E. apply filter_sublist.
Qed.

(** A preference keeps the order of its candidates. *)
Lemma preferred_ascending t l scope lb fe :
  (forall i, 0 <= locality_rank t i) -> StronglySorted lt l -> StronglySorted lt scope ->
  StronglySorted lt (preferred_locality_candidates t l scope lb fe).1.
Proof.
  intros Hpos Hl Hs. destruct (preference_choice t l scope lb fe Hpos) as [(_ & Hsub & _)|(_ & -> & _)].
  - eapply ascending_sublist; [exact Hsub|]. eapply ascending_sublist; [apply without_gateways_sublist|done].
  - eapply ascending_sublist; [apply filter_sublist|done].
Qed.

Lemma without_gateways_cases t l :
  without_gateways t l ⊆ l /\ (l <> [] -> without_gateways t l <> [])
  /\ (cross_cluster_failover_present t = true -> List.filter (is_local t) l <> [] ->
      forall i, i ∈ without_gateways t l -> is_local t i = true).
Proof.
  unfold without_gateways. destruct (cross_cluster_failover_present t); [|done].
  destruct (List.filter (is_local t) l) as [|x k] eqn:E; [done|].
  assert (Hin : forall i, i ∈ x :: k -> i ∈ l /\ is_local t i = true)
    by (intros i; by rewrite <- E, filter_elem).
  split; [intros i Hi; by apply Hin|]. split; [done|]. intros _ _ i Hi. by apply Hin.
Qed.

Lemma preferred_choice_safe (t : locality_tables) (candidates scope : list nat)
    (lb : option LocalityLbState) (fe : bool) :
  (forall i, 0 <= locality_rank t i) -> candidates <> [] -> candidates ⊆ scope ->
  let '(preferred, degraded) := preferred_locality_candidates t candidates scope lb fe in
  preferred <> [] /\ preferred ⊆ scope
  /\ (degraded = false -> preferred ⊆ candidates)
  /\ (degraded = true -> locality_lb_strict t = true /\
        (forall i, i ∈ preferred -> is_local t i = true) /\ (forall i, i ∈ candidates -> is_local t i = false))
  /\ (cross_cluster_failover_present t = true -> (exists i, i ∈ candidates /\ is_local t i = true) ->
      forall i, i ∈ preferred -> is_local t i = true).
Proof.
  intros Hpos Hne Hsub. destruct (without_gateways_cases t candidates) as (Hgs & Hgn & Hgl).
  assert (Hch := preference_choice t candidates scope lb fe Hpos).
  assert (Hlocal : (exists i, i ∈ candidates /\ is_local t i = true) -> List.filter (is_local t) candidates <> []).
  { intros (i & Hi & Hl) E. assert (H : i ∈ List.filter (is_local t) candidates) by (by apply filter_elem).
    rewrite E in H. by apply elem_of_nil in H. }
  assert (Hstrict : (preferred_locality_candidates t candidates scope lb fe).2 = true -> locality_lb_strict t = true).
  { unfold preferred_locality_candidates. by repeat case_match. }
  destruct (preferred_locality_candidates t candidates scope lb fe) as [preferred degraded]. cbn [fst snd] in *.
  destruct Hch as [(Hdeg & Hin & Hnon)|(Hdeg & Hpre & Hnon & Hnil)]; cbn [fst snd] in *; subst.
  - assert (Hin' : forall i, i ∈ preferred -> i ∈ without_gateways t candidates)
      by (intros i Hi; by eapply elem_of_sublist).
    split; [by apply Hnon, Hgn|]. split; [set_solver|]. split; [set_solver|]. split; [done|].
    intros Hx Hex i Hi. apply Hgl; [done|by apply Hlocal|by apply Hin'].
  - split; [done|]. split; [intros i Hi; apply filter_elem in Hi; tauto|]. split; [done|].
    split; [|intros _ _ i Hi; apply filter_elem in Hi; tauto]. intros _. split; [by apply Hstrict|].
    split; [intros i Hi; apply filter_elem in Hi; tauto|]. intros i Hi.
    destruct (is_local t i) eqn:El; [|done]. exfalso.
    assert (Hf : List.filter (is_local t) candidates <> []) by (apply Hlocal; by exists i).
    unfold without_gateways in Hnil. destruct (cross_cluster_failover_present t); [|done].
    destruct (List.filter (is_local t) candidates) as [|x k] eqn:E; [done|].
    assert (Hxl : is_local t x = true) by (assert (H : x ∈ x :: k) by left; rewrite <- E, filter_elem in H; tauto).
    simpl in Hnil. by rewrite Hxl in Hnil.
Qed.

(** Locality preference never loses traffic and never leaks it: from a
    non-empty candidate set it returns a non-empty subset of the scope; an
    unhealthy target is returned only by strict mode, only among the local
    endpoints of the scope and only when no candidate is local; and while any
    local endpoint is healthy a cross-cluster gateway is never preferred, whatever
    the locality settings say. *)
Theorem locality_choice_safe (t : locality_tables) (candidates scope : list nat)
    (lb : option LocalityLbState) (fe : bool) :
  (forall i, 0 <= locality_rank t i) -> candidates <> [] -> candidates ⊆ scope ->
  let '(preferred, degraded) := preferred_locality_candidates t candidates scope lb fe in
  preferred <> [] /\ preferred ⊆ scope
  /\ (degraded = false -> preferred ⊆ candidates)
  /\ (degraded = true -> locality_lb_strict t = true /\
        (forall i, i ∈ preferred -> is_local t i = true) /\ (forall i, i ∈ candidates -> is_local t i = false))
  /\ (cross_cluster_failover_present t = true -> (exists i, i ∈ candidates /\ is_local t i = true) ->
      forall i, i ∈ preferred -> is_local t i = true).
Proof. apply preferred_choice_safe. Qed.

(** ** A concrete balancer *)

(** Three targets: the first a gateway to another cluster, the others local. *)
Definition three_tables : locality_tables := Locality 3 [false; true; true] true true [3; 2; 1].

Lemma locality_paths_agree_witness :
  preferred_locality_candidates three_tables [0; 1; 2]%nat [0; 1; 2]%nat None false = ([2]%nat, false).
Proof.
  assert (Ha : bitset_wf (all 3)) by (apply all_spec; lia).
  assert (Hr : Forall (fun i => i < target_count three_tables)%nat (elements_of (all 3)))
    by (vm_compute; repeat constructor; lia).
  assert (H := locality_paths_agree three_tables (all 3) (all 3) None false ltac:(vm_compute; lia)
    ltac:(intros [|[|[|i]]]; vm_compute; discriminate) Ha Hr Ha Hr).
  vm_compute in H. exact (proj2 H).
Defined.

Lemma locality_choice_safe_witness :
  let '(preferred, degraded) := preferred_locality_candidates three_tables [0; 1]%nat [0; 1; 2]%nat None false in
  preferred <> [] /\ (degraded = false -> preferred ⊆ [0; 1]%nat) /\ (forall i, i ∈ preferred -> is_local three_tables i = true).
Proof.
  assert (H := locality_choice_safe three_tables [0; 1]%nat [0; 1; 2]%nat None false
    ltac:(intros [|[|[|i]]]; vm_compute; discriminate) ltac:(done) ltac:(set_solver)).
  destruct (preferred_locality_candidates _ _ _ _ _) as [pr d].
  destruct H as (Hne & _ & Hs & _ & Hg). split; [exact Hne|]. split; [exact Hs|].
  apply Hg; [reflexivity|]. exists 1%nat. split; [set_solver|reflexivity].
Defined.
