(* ===== verification/LbMetrics.v ===== *)
(** * Per-target measurements of the balancer ([src/src/load_balancer.rs])

    Active connections, latency averages and latency sample counts by host:port
    key, with the operations that update them. The latency average is in fixed
    point; its compare-and-swap loop publishes the value computed from the word
    it read, so an update is one step. *)

From S2P Require Import Prelude Decimal RuntimeKeys Upstream.
#[local] Open Scope Z_scope.

Definition DEFAULT_EWMA_ALPHA_FP : Z := 300.
Definition EWMA_SCALE : Z := 1000.
Definition LATENCY_WARMUP_THRESHOLD : Z := 5.
Definition LATENCY_UNSET : Z := umax 64.
Definition LATENCY_FAILURE_PENALTY_US : Z := 1000000.

Record Metrics := Measured {
  active_connections : gmap bytes Z;
  latency_ewma : gmap bytes Z;
  latency_sample_count : gmap bytes Z;
}.

Definition connections (m : Metrics) (key : bytes) : Z := default 0 (active_connections m !! key).
Definition samples (m : Metrics) (key : bytes) : Z := default 0 (latency_sample_count m !! key).
Definition latency (m : Metrics) (key : bytes) : Z := default LATENCY_UNSET (latency_ewma m !! key).

(** [target_index]: the host:port keys of the balancer, the last index winning. *)
Definition build_target_index (keys : list bytes) : gmap bytes nat :=
  foldl (fun index '(i, k) => <[k := i]> index) ∅ (imap pair keys).

Definition find_target_key (keys : list bytes) (t : UpstreamTarget) : option bytes :=
  build_target_index keys !! target_host_port_key t ≫= fun i => keys !! i.

Definition next_ewma (current latency_us : Z) : Z :=
  if current =? LATENCY_UNSET then latency_us
  else
    let alpha := DEFAULT_EWMA_ALPHA_FP in
    saturating_add 64 (saturating_mul 64 alpha latency_us)
      (saturating_mul 64 (EWMA_SCALE - alpha) current) / EWMA_SCALE.

Definition record_latency (keys : list bytes) (m : Metrics) (t : UpstreamTarget) (latency_us : Z) : Metrics :=
  match find_target_key keys t with
  | None => m
  | Some key =>
    Measured (active_connections m)
      (<[key := match latency_ewma m !! key with
                | Some current => next_ewma current latency_us
                | None => latency_us
                end]> (latency_ewma m))
      (<[key := match latency_sample_count m !! key with
                | Some count => wrapping_add 64 count 1
                | None => 1
                end]> (latency_sample_count m))
  end.

Definition record_failed_attempt (keys : list bytes) (m : Metrics) (t : UpstreamTarget) : Metrics :=
  record_latency keys m t LATENCY_FAILURE_PENALTY_US.

(** [i64] wrap-around of [fetch_add]. *)
Definition i64_add (a b : Z) : Z := wrap 64 (a + b + 2 ^ 63) - 2 ^ 63.

Definition record_connection_start (keys : list bytes) (m : Metrics) (t : UpstreamTarget) : Metrics :=
  match default [] (find_target_key keys t) with
  | [] => m
  | key =>
    Measured
      (<[key := match active_connections m !! key with
                | Some count => i64_add count 1
                | None => i64_add 0 1
                end]> (active_connections m))
      (latency_ewma m) (latency_sample_count m)
  end.

Definition record_connection_end (keys : list bytes) (m : Metrics) (t : UpstreamTarget) : Metrics :=
  match default [] (find_target_key keys t) with
  | [] => m
  | key =>
    match active_connections m !! key with
    | Some v =>
      if 0 <? v
      then Measured (<[key := v - 1]> (active_connections m)) (latency_ewma m) (latency_sample_count m)
      else m
    | None => m
    end
  end.

(** The least average among the targets that have one. *)
Definition min_ewma (m : Metrics) : Z :=
  map_fold (fun _ v best => if v =? LATENCY_UNSET then best else Z.min v best) LATENCY_UNSET (latency_ewma m).

Definition reset_recovered_target_latency (keys : list bytes) (m : Metrics) (t : UpstreamTarget) : Metrics :=
  match find_target_key keys t with
  | None => m
  | Some key =>
    Measured (active_connections m)
      (match latency_ewma m !! key with
       | Some _ => <[key := min_ewma m]> (latency_ewma m)
       | None => latency_ewma m
       end)
      (match latency_sample_count m !! key with
       | Some _ => <[key := LATENCY_WARMUP_THRESHOLD]> (latency_sample_count m)
       | None => latency_sample_count m
       end)
  end.

(** ** The index *)

Lemma target_index_snoc l k :
  build_target_index (l ++ [k]) = <[k := length l]> (build_target_index l).
Proof. unfold build_target_index. rewrite imap_app, foldl_app. simpl. by rewrite Nat.add_0_r. Qed.

Lemma target_index_lookup l k :
  match build_target_index l !! k with
  | Some i => l !! i = Some k
  | None => k ∉ l
  end.
Proof.
  induction l as [|x l IH] using rev_ind; [apply not_elem_of_nil|].
  rewrite target_index_snoc. destruct (decide (x = k)) as [->|Hne].
  - rewrite lookup_insert, decide_True by done. by rewrite lookup_app_r, Nat.sub_diag.
  - rewrite lookup_insert_ne by done. destruct (build_target_index l !! k) as [i|].
    + by apply lookup_app_l_Some.
    + rewrite elem_of_app, list_elem_of_singleton. intros [?|?]; [done|congruence].
Qed.

(** The reverse index finds exactly the targets of the balancer, under their key. *)
Lemma find_target_key_spec keys t k :
  find_target_key keys t = Some k <-> k = target_host_port_key t /\ k ∈ keys.
Proof.
  unfold find_target_key. assert (H := target_index_lookup keys (target_host_port_key t)).
  destruct (build_target_index keys !! target_host_port_key t) as [i|]; simpl.
  - rewrite H. split; [intros [= <-]; split; [done|by eapply list_elem_of_lookup_2]|by intros [-> _]].
  - split; [done|]. by intros [-> Hin].
Qed.

(** ** The latency average *)

(** Values the fixed-point products can hold. *)
Definition exact_latency (v : Z) : Prop := 0 <= v <= umax 64 / EWMA_SCALE.

Lemma next_ewma_between current s :
  exact_latency current -> exact_latency s ->
  Z.min current s <= next_ewma current s <= Z.max current s.
Proof.
  unfold exact_latency, next_ewma, saturating_add, saturating_mul, EWMA_SCALE, DEFAULT_EWMA_ALPHA_FP, LATENCY_UNSET.
  intros Hc Hs. assert (Hm : umax 64 / 1000 = 18446744073709551) by reflexivity.
  assert (Hu : umax 64 = 18446744073709551615) by reflexivity. rewrite Hm in *.
  rewrite (proj2 (Z.eqb_neq current (umax 64))) by lia. rewrite Hu.
  rewrite (Z.min_l (300 * s)), (Z.min_l ((1000 - 300) * current)) by lia.
  rewrite (Z.min_l (300 * s + _)) by lia.
  split; [apply Z.div_le_lower_bound; lia|]. apply Zlt_succ_le, Z.div_lt_upper_bound; lia.
Qed.

(** Beyond that range the average saturates, far below the sentinel. *)
Lemma next_ewma_never_unset current s :
  0 <= current <= LATENCY_UNSET -> 0 <= s < LATENCY_UNSET -> 0 <= next_ewma current s < LATENCY_UNSET.
Proof.
  unfold next_ewma, saturating_add, saturating_mul, EWMA_SCALE, DEFAULT_EWMA_ALPHA_FP, LATENCY_UNSET.
  assert (Hu : umax 64 = 18446744073709551615) by reflexivity. rewrite Hu. intros Hc Hs.
  zcase; [lia|]. split; [apply Z.div_pos; lia|]. apply Z.div_lt_upper_bound; lia.
Qed.

Lemma min_ewma_spec m :
  min_ewma m <= LATENCY_UNSET
  /\ (forall k v, latency_ewma m !! k = Some v -> v <= LATENCY_UNSET -> min_ewma m <= v)
  /\ (min_ewma m = LATENCY_UNSET \/ exists k, latency_ewma m !! k = Some (min_ewma m)).
Proof.
  unfold min_ewma. apply (map_fold_weak_ind (fun r mm => r <= LATENCY_UNSET
    /\ (forall k v, mm !! k = Some v -> v <= LATENCY_UNSET -> r <= v)
    /\ (r = LATENCY_UNSET \/ exists k, mm !! k = Some r))).
  { split; [done|]. split; [by intros k v ?%lookup_empty_Some|by left]. }
  intros i x mm r Hi (Hr & Hle & Hex).
  assert (Hex' : r = LATENCY_UNSET \/ exists k, <[i := x]> mm !! k = Some r).
  { destruct Hex as [?|[k Hk]]; [by left|right; exists k]. rewrite lookup_insert_ne; [done|]. by intros ->; rewrite Hi in Hk. }
  zcase; [|destruct (Z.min_spec x r) as [[? ->]|[? ->]]]; (split; [lia|]); (split; [|first [done|idtac]]).
  - intros k v. rewrite lookup_insert_Some. intros [[-> <-]|[_ Hk]] Hv; [lia|by eapply Hle].
  - intros k v. rewrite lookup_insert_Some. intros [[-> <-]|[_ Hk]] Hv; [lia|]. assert (r <= v) by (by eapply Hle). lia.
  - right. exists i. by rewrite lookup_insert, decide_True.
  - intros k v. rewrite lookup_insert_Some. intros [[-> <-]|[_ Hk]] Hv; [lia|by eapply Hle].
Qed.

(** ** Latency and connection accounting *)

(** What a sequence of recorded latencies leaves for one key. *)
Definition ewma_of (first : Z) (rest : list Z) : Z := foldl next_ewma first rest.

Lemma ewma_of_range lo hi rest : forall first,
  exact_latency lo -> exact_latency hi -> lo <= first <= hi -> Forall (fun s => lo <= s <= hi) rest ->
  lo <= ewma_of first rest <= hi.
Proof.
  unfold ewma_of. induction rest as [|s rest IH]; intros first Hl Hh Hf HF; [done|].
  apply Forall_cons in HF as [Hs HF]. cbn [foldl]. apply IH; [done|done| |done].
  unfold exact_latency in *. assert (H := next_ewma_between first s ltac:(unfold exact_latency; lia) ltac:(unfold exact_latency; lia)).
  lia.
Qed.

(** What the data path reports for a target. *)
Inductive event :=
| Latency (t : UpstreamTarget) (latency_us : Z)
| Failed (t : UpstreamTarget)
| Start (t : UpstreamTarget)
| End_ (t : UpstreamTarget).

Definition apply_event (keys : list bytes) (m : Metrics) (e : event) : Metrics :=
  match e with
  | Latency t us => record_latency keys m t us
  | Failed t => record_failed_attempt keys m t
  | Start t => record_connection_start keys m t
  | End_ t => record_connection_end keys m t
  end.

(** The tables of a new balancer: latency entries exist for least-latency only. *)
Definition metrics_new (least_latency : bool) (keys : list bytes) : Metrics :=
  if least_latency
  then Measured ∅ (foldl (fun mm k => <[k := LATENCY_UNSET]> mm) ∅ keys) (foldl (fun mm k => <[k := 0]> mm) ∅ keys)
  else Measured ∅ ∅ ∅.

(** The samples and the open connections of one key, from the history alone. *)
Definition sample_of (k : bytes) (e : event) : option Z :=
  match e with
  | Latency t us => if bool_decide (target_host_port_key t = k) then Some us else None
  | Failed t => if bool_decide (target_host_port_key t = k) then Some LATENCY_FAILURE_PENALTY_US else None
  | _ => None
  end.

Definition open_after (k : bytes) (c : Z) (e : event) : Z :=
  match e with
  | Start t => if bool_decide (target_host_port_key t = k) then c + 1 else c
  | End_ t => if bool_decide (target_host_port_key t = k) then Z.max 0 (c - 1) else c
  | _ => c
  end.

Definition average (l : list Z) : Z := match l with [] => LATENCY_UNSET | s :: rest => ewma_of s rest end.

Definition exact_event (e : event) : Prop :=
  match e with Latency _ us => exact_latency us | _ => True end.

Record tracks (k : bytes) (history : list event) (m : Metrics) : Prop := {
  tracks_conns : connections m k = foldl (open_after k) 0 history;
  tracks_samples : samples m k = Z.of_nat (length (omap (sample_of k) history));
  tracks_latency : latency m k = average (omap (sample_of k) history);
}.

Definition target_of (e : event) : UpstreamTarget :=
  match e with Latency t _ | Failed t | Start t | End_ t => t end.

Lemma foreign_event k e c :
  target_host_port_key (target_of e) <> k -> sample_of k e = None /\ open_after k c e = c.
Proof. intros H. destruct e; cbn [target_of] in H; cbn; by rewrite ?bool_decide_false. Qed.

Lemma key_nonempty t : target_host_port_key t <> [].
Proof. unfold target_host_port_key, write_target_host_port_key. simpl. by destruct (host t). Qed.

Lemma fill_lookup v keys : forall (mm : gmap bytes Z) k d,
  default d (foldl (fun mm k => <[k := v]> mm) mm keys !! k) = if bool_decide (k ∈ keys) then v else default d (mm !! k).
Proof.
  induction keys as [|x keys IH]; intros mm k d; [done|]. cbn [foldl]. rewrite IH.
  destruct (decide (k ∈ keys)) as [Hin|Hin].
  - by rewrite !bool_decide_true by (try right; done).
  - rewrite (bool_decide_false _ Hin). destruct (decide (k = x)) as [->|Hne].
    + rewrite lookup_insert, decide_True, bool_decide_true by (by try left). done.
    + rewrite lookup_insert_ne, bool_decide_false; [done| |congruence]. intros [?|?]%elem_of_cons; congruence.
Qed.

Lemma tracks_new ll keys k : k ∈ keys -> tracks k [] (metrics_new ll keys).
Proof.
  intros Hk. destruct ll; constructor; cbn; try done.
  - unfold samples. cbn. by rewrite fill_lookup, bool_decide_true.
  - unfold latency. cbn. by rewrite fill_lookup, bool_decide_true.
Qed.

Lemma average_snoc l s :
  Forall exact_latency l -> average (l ++ [s]) = next_ewma (average l) s.
Proof.
  destruct l as [|x l]; intros HF; cbn [app average]; [unfold ewma_of, next_ewma; cbn; by rewrite Z.eqb_refl|].
  unfold ewma_of. by rewrite foldl_app.
Qed.

Lemma exact_samples k history : Forall exact_event history -> Forall exact_latency (omap (sample_of k) history).
Proof.
  intros HF. apply Forall_forall. intros s (e & He & Hs)%list_elem_of_omap.
  assert (Hx := proj1 (Forall_forall _ _) HF e He).
  destruct e; cbn in *; try done; case_bool_decide; simplify_eq; [done|].
  split; vm_compute; discriminate.
Qed.

Lemma tracks_sample k keys history m t us :
  k ∈ keys -> target_host_port_key t = k -> Z.of_nat (length history) + 1 < 2 ^ 63 ->
  Forall exact_event history -> tracks k history m ->
  let m' := record_latency keys m t us in
  connections m' k = connections m k
  /\ samples m' k = samples m k + 1 /\ latency m' k = next_ewma (latency m k) us.
Proof.
  intros Hk Ht Hlen Hex [_ Hs _]. unfold record_latency.
  rewrite (proj2 (find_target_key_spec keys t k)) by done.
  unfold connections, samples, latency in *. cbn. rewrite !lookup_insert, !decide_True by done. cbn.
  assert (Hle : (length (omap (sample_of k) history) <= length history)%nat).
  { clear. induction history as [|e l IH]; cbn; [lia|]. destruct (sample_of k e); cbn; lia. }
  split; [done|]. split.
  - destruct (latency_sample_count m !! k); cbn in *; [|lia]. unfold wrapping_add. rewrite wrap_small; [done|].
    unfold in_width. lia.
  - destruct (latency_ewma m !! k); cbn; [done|]. unfold next_ewma. by rewrite Z.eqb_refl.
Qed.

Lemma untouched k keys m e :
  target_host_port_key (target_of e) <> k ->
  connections (apply_event keys m e) k = connections m k
  /\ samples (apply_event keys m e) k = samples m k /\ latency (apply_event keys m e) k = latency m k.
Proof.
  intros Hne. assert (Hl : forall t us, target_host_port_key t <> k ->
    connections (record_latency keys m t us) k = connections m k
    /\ samples (record_latency keys m t us) k = samples m k /\ latency (record_latency keys m t us) k = latency m k).
  { intros t us Ht. unfold record_latency. destruct (find_target_key keys t) as [k'|] eqn:E; [|done].
    apply find_target_key_spec in E as [-> _]. unfold connections, samples, latency. cbn.
    by rewrite !lookup_insert_ne by done. }
  destruct e as [t us|t|t|t]; cbn [apply_event target_of] in *; [by apply Hl|by apply Hl| |];
    unfold record_connection_start, record_connection_end;
    (destruct (find_target_key keys t) as [k'|] eqn:E; [|done]); apply find_target_key_spec in E as [-> _]; cbn [default from_option Datatypes.id];
    (destruct (target_host_port_key t) as [|b r] eqn:Ek; [done|]); split_matches; try done;
    unfold connections; cbn; by rewrite lookup_insert_ne.
Qed.

Lemma start_found keys m t k :
  k ∈ keys -> target_host_port_key t = k ->
  record_connection_start keys m t
  = Measured (<[k := i64_add (connections m k) 1]> (active_connections m)) (latency_ewma m) (latency_sample_count m).
Proof.
  intros Hk Ht. unfold record_connection_start. rewrite (proj2 (find_target_key_spec keys t k)) by done.
  assert (Hn := key_nonempty t). rewrite Ht in Hn. cbn [default from_option Datatypes.id]. unfold connections.
  destruct k as [|b r]; [done|]. cbn match. by destruct (active_connections m !! (b :: r)).
Qed.

Lemma end_found keys m t k :
  k ∈ keys -> target_host_port_key t = k ->
  record_connection_end keys m t
  = if 0 <? connections m k
    then Measured (<[k := connections m k - 1]> (active_connections m)) (latency_ewma m) (latency_sample_count m)
    else m.
Proof.
  intros Hk Ht. unfold record_connection_end. rewrite (proj2 (find_target_key_spec keys t k)) by done.
  assert (Hn := key_nonempty t). rewrite Ht in Hn. cbn [default from_option Datatypes.id]. unfold connections.
  destruct k as [|b r]; [done|]. cbn match. by destruct (active_connections m !! (b :: r)).
Qed.

Lemma tracks_step k keys history m e :
  k ∈ keys -> Z.of_nat (length history) + 1 < 2 ^ 63 -> Forall exact_event history ->
  tracks k history m -> tracks k (history ++ [e]) (apply_event keys m e).
Proof.
  intros Hk Hlen Hex Htr. assert (Hav := exact_samples k history Hex). destruct (Htr) as [Hc Hs Hl].
  assert (Hopen : 0 <= foldl (open_after k) 0 history <= Z.of_nat (length history)).
  { clear. induction history as [|e l IH] using rev_ind; [done|]. rewrite foldl_app, length_app. cbn.
    destruct e; cbn; try lia; case_bool_decide; lia. }
  destruct (decide (target_host_port_key (target_of e) = k)) as [Ht|Ht].
  2:{ destruct (untouched k keys m e Ht) as (E1 & E2 & E3).
      destruct (foreign_event k e (foldl (open_after k) 0 history) Ht) as [F1 F2].
      constructor; rewrite ?E1, ?E2, ?E3, ?foldl_app, ?omap_app; cbn [foldl omap list_omap];
        rewrite ?F1, ?F2, ?app_nil_r; done. }
  destruct e as [t us|t|t|t]; cbn [target_of] in Ht.
  - destruct (tracks_sample k keys history m t us Hk Ht Hlen Hex Htr) as (E1 & E2 & E3).
    constructor; cbn [apply_event]; rewrite ?E1, ?E2, ?E3, ?foldl_app, ?omap_app; cbn;
      rewrite ?bool_decide_true by done; cbn; rewrite ?length_app; [done|cbn; lia|].
    by rewrite average_snoc, Hl.
  - destruct (tracks_sample k keys history m t LATENCY_FAILURE_PENALTY_US Hk Ht Hlen Hex Htr) as (E1 & E2 & E3).
    constructor; cbn [apply_event]; unfold record_failed_attempt; rewrite ?E1, ?E2, ?E3, ?foldl_app, ?omap_app; cbn;
      rewrite ?bool_decide_true by done; cbn; rewrite ?length_app; [done|cbn; lia|].
    by rewrite average_snoc, Hl.
  - cbn [apply_event]. rewrite (start_found keys m t k Hk Ht).
    constructor; rewrite ?foldl_app, ?omap_app; cbn; rewrite ?app_nil_r; [|exact Hs|exact Hl].
    rewrite bool_decide_true, <- Hc by done. unfold connections at 1. cbn. rewrite lookup_insert, decide_True by done.
    cbn. unfold i64_add. rewrite wrap_small; unfold in_width; lia.
  - cbn [apply_event]. rewrite (end_found keys m t k Hk Ht).
    destruct (Z.ltb_spec 0 (connections m k));
      constructor; rewrite ?foldl_app, ?omap_app; cbn; rewrite ?app_nil_r; try exact Hs; try exact Hl;
      rewrite bool_decide_true by done; [|lia].
    unfold connections at 1. cbn. rewrite lookup_insert, decide_True by done. cbn. lia.
Qed.

(** The measurements are exactly the history: whatever mix of targets the data
    path reports, each target's open-connection count is its own starts less its
    own ends and never negative, its sample count is the number of its own samples,
    and its latency average is the moving average of its own samples in order,
    which stays between the least and the greatest of them. *)
Theorem metrics_track_history (least_latency : bool) (keys : list bytes) (history : list event) (k : bytes) :
  k ∈ keys -> Forall exact_event history -> Z.of_nat (length history) < 2 ^ 63 ->
  let m := foldl (apply_event keys) (metrics_new least_latency keys) history in
  let mine := omap (sample_of k) history in
  connections m k = foldl (open_after k) 0 history /\ 0 <= connections m k
  /\ samples m k = Z.of_nat (length mine) /\ latency m k = average mine
  /\ (forall lo hi, exact_latency lo -> exact_latency hi -> mine <> [] -> Forall (fun s => lo <= s <= hi) mine ->
      lo <= latency m k <= hi).
Proof.
  intros Hk Hex Hlen m mine.
  assert (Htr : tracks k history m).
  { subst m mine. induction history as [|e l IH] using rev_ind; [by apply tracks_new|].
    apply Forall_app in Hex as [Hex He]. rewrite length_app in Hlen. cbn in Hlen. rewrite foldl_app. cbn.
    apply tracks_step; [done|lia|done|]. apply IH; [done|lia]. }
  destruct Htr as [Hc Hs Hl]. split; [done|]. split; [|split; [done|split; [done|]]].
  - rewrite Hc. clear. induction history as [|e l IH] using rev_ind; [done|]. rewrite foldl_app. cbn.
    destruct e; cbn; try lia; case_bool_decide; lia.
  - intros lo hi Hlo Hhi Hne HF. rewrite Hl. destruct (omap (sample_of k) history) as [|s rest] eqn:E; [done|].
    apply Forall_cons in HF as [H1 H2]. by apply ewma_of_range.
Qed.

Definition tracked : UpstreamTarget := bare_target (bs "10.0.0.1") 80.
Definition tracked_history : list event :=
  [Start tracked; Latency tracked 1000; Failed (bare_target (bs "10.0.0.2") 80); Start tracked;
   Latency tracked 2000; End_ tracked].

Lemma metrics_track_history_witness :
  let m := foldl (apply_event [target_host_port_key tracked])
             (metrics_new true [target_host_port_key tracked]) tracked_history in
  connections m (target_host_port_key tracked) = 1 /\ latency m (target_host_port_key tracked) = 1300.
Proof.
  destruct (metrics_track_history true [target_host_port_key tracked] tracked_history (target_host_port_key tracked))
    as (H1 & _ & _ & H2 & _).
  - by left.
  - repeat constructor; vm_compute; discriminate.
  - vm_compute. reflexivity.
  - split; [rewrite H1|rewrite H2]; vm_compute; reflexivity.
Defined.
