(* ===== verification/LbAlgorithms.v ===== *)
(** * The balancing algorithms ([src/src/load_balancer.rs])

    Round robin, random, least connections, least latency and consistent
    hashing, each for the bitset path (up to 128 targets) and for the vector
    path, the weighted locality buckets, and the dispatch over the configured
    algorithm. Weighted round robin is [WrrSelect].

    The counters a selection advances belong to lanes: the upstream, a subset or
    a port. A selection is atomic; the counter shard of its thread and whether it
    wins the schedule lock are inputs. [binary_search_by_key] may return any
    position of a run of equal hashes; it is the class [RingSearch]. *)

From Stdlib Require Import Sorted.
From stdpp Require Import sorting.
From S2P Require Import Prelude Decimal RuntimeKeys Upstream HealthBitset SmoothWrr WrrSelect LbHealth LbLocality LbMetrics.
#[local] Open Scope Z_scope.

Inductive LoadBalancerAlgorithm :=
| RoundRobin | WeightedRoundRobin | LeastConnections | LeastLatency | ConsistentHashing | Random | Passthrough.

#[global] Instance LoadBalancerAlgorithm_eq_dec : EqDecision LoadBalancerAlgorithm.
Proof. solve_decision. Defined.

(** ** Hash ring *)

Definition rotate_left (x n : Z) : Z := Z.lor (wrap 64 (Z.shiftl x n)) (Z.shiftr x (64 - n)).

Definition fx_hash_str (s : bytes) : Z :=
  foldl (fun hash byte => wrapping_mul 64 (Z.lxor (rotate_left hash 5) byte) 0x517cc1b727220a95) 0 s.

(** [sort_by_key] is stable: an entry goes after the entries of equal hash. *)
Fixpoint ring_insert (x : Z * nat) (ring : list (Z * nat)) : list (Z * nat) :=
  match ring with
  | [] => [x]
  | y :: ring => if x.1 <? y.1 then x :: y :: ring else y :: ring_insert x ring
  end.

Definition sort_by_hash (l : list (Z * nat)) : list (Z * nat) := foldl (fun ring x => ring_insert x ring) [] l.

Definition VNODES : nat := 150.

Definition vnodes (key : bytes) (idx : nat) : list (Z * nat) :=
  map (fun vnode => (fx_hash_str (key ++ bs ":" ++ show_dec (Z.of_nat vnode)), idx)) (seq 0 VNODES).

Definition build_hash_ring_for_indices (keys : list bytes) (indices : list nat) : list (Z * nat) :=
  sort_by_hash
    (foldl (fun ring idx => match keys !! idx with Some key => ring ++ vnodes key idx | None => ring end)
       [] indices).

Inductive search_result := Found (p : nat) | Insert (p : nat).

Class RingSearch := ring_search : list (Z * nat) -> Z -> search_result.

Class RingSearchLaws (R : RingSearch) : Prop := {
  search_ok ring hash : StronglySorted (fun a b => a.1 <= b.1) ring ->
    match ring_search ring hash with
    | Found p => fst <$> ring !! p = Some hash
    | Insert p => (p <= length ring)%nat
                  /\ Forall (fun e => e.1 < hash) (take p ring) /\ Forall (fun e => hash < e.1) (drop p ring)
    end;
}.

Definition search_pos {R : RingSearch} (ring : list (Z * nat)) (hash : Z) : nat :=
  match ring_search ring hash with
  | Found p => p
  | Insert p => (p mod length ring)%nat
  end.

(** [for i in 0..ring.len()]: the first entry from [pos] on, around the ring,
    whose target is a candidate. *)
Definition walk_ring (ring : list (Z * nat)) (pos : nat) (candidate : nat -> bool) : option nat :=
  foldl (fun found i =>
           match found with
           | Some t => Some t
           | None =>
             match ring !! ((pos + i) mod length ring)%nat with
             | Some (_, target_idx) => if candidate target_idx then Some target_idx else None
             | None => None
             end
           end)
    None (seq 0 (length ring)).

(** ** Counters *)

Definition SelectionCounterShards : Type := list Z.

Definition new_selection_counters : SelectionCounterShards :=
  map (fun i => wrapping_mul 64 (Z.of_nat i) GOLDEN_STRIDE) (seq 0 WRR_COUNTER_SHARDS).

Definition selection_counter_ticket (shard : nat) (cs : SelectionCounterShards) : Z * SelectionCounterShards :=
  (default 0 (cs !! shard), alter (fun c => wrapping_add 64 c 1) shard cs).

Inductive lane := ParentLane | SubsetLane (name : bytes) | PortLane (port : Z).

#[global] Instance lane_eq_dec : EqDecision lane.
Proof. solve_decision. Defined.

(** What selections update: the counters of the lanes (selection, weighted round
    robin, locality buckets) and, through the data path, the measurements. *)
Record LbState := Lanes {
  rr_counters : lane -> SelectionCounterShards;
  wrr_states : lane -> WrrLaneState;
  distribute_counters : lane -> SelectionCounterShards;
  metrics : Metrics;
}.

Definition upd {A} (f : lane -> A) (l : lane) (x : A) : lane -> A := fun l' => if decide (l' = l) then x else f l'.

Definition draw (shard : nat) (l : lane) (st : LbState) : Z * LbState :=
  let '(t, cs) := selection_counter_ticket shard (rr_counters st l) in
  (t, Lanes (upd (rr_counters st) l cs) (wrr_states st) (distribute_counters st) (metrics st)).

Definition draw_distribute (shard : nat) (l : lane) (st : LbState) : Z * LbState :=
  let '(t, cs) := selection_counter_ticket shard (distribute_counters st l) in
  (t, Lanes (rr_counters st) (wrr_states st) (upd (distribute_counters st) l cs) (metrics st)).

(** The locality state of a lane and the lane whose bucket counter it draws from. *)
Definition locality_ref : Type := option (lane * LocalityLbState).

(** ** Least latency *)

Definition LATENCY_WARMUP_EXPLORE_PERMILLE : Z := 100.

Definition unwarmed_explore_slot (tick : Z) (unwarmed_count : nat) : option nat :=
  if (unwarmed_count =? 0)%nat then None
  else
    let scrambled := golden_ratio_hash tick in
    if LATENCY_WARMUP_EXPLORE_PERMILLE <=? scrambled mod 1000 then None
    else Some (Z.to_nat ((scrambled / 1000) mod Z.of_nat unwarmed_count)).

Section algorithms.
Context {RS : RingSearch} (p : pool) (shard : nat) (locked : bool).

Definition key_of (i : nat) : bytes := default [] (host_port_keys p !! i).
Definition conns_of (st : LbState) (i : nat) : Z := connections (metrics st) (key_of i).
Definition samples_of (st : LbState) (i : nat) : Z := samples (metrics st) (key_of i).
Definition latency_of (st : LbState) (i : nat) : Z := latency (metrics st) (key_of i).
Definition warmed (st : LbState) (i : nat) : bool := LATENCY_WARMUP_THRESHOLD <=? samples_of st i.

(** The loops [for i in 0..self.targets.len() { if !healthy.contains(i) { continue; } .. }]. *)
Definition over_bitset {S} (healthy : HealthBitset) (f : S -> nat -> S) (s : S) : S :=
  foldl (fun s i => if negb (contains healthy i) then s else f s i) s (seq 0 (length (targets p))).

(** The minimum loop with a [found] flag: (least value, its index, found). *)
Definition least_step (value : nat -> Z) (acc : Z * nat * bool) (i : nat) : Z * nat * bool :=
  let '(least, best, found) := acc in
  if negb found || (value i <? least) then (value i, i, true) else (least, best, found).

(** The minimum loop of the vector path, without a flag. *)
Definition least_step_vec (value : nat -> Z) (acc : Z * nat) (i : nat) : Z * nat :=
  let '(least, best) := acc in if value i <? least then (value i, i) else (least, best).

Definition select_least_connections_bitset (healthy : HealthBitset) (st : LbState) : option nat :=
  let '(_, best_idx, found) := over_bitset healthy (least_step (conns_of st)) (i64_max, 0%nat, false) in
  if found then Some best_idx else None.

Definition select_least_connections_vec (candidates : list nat) (st : LbState) : option nat :=
  match candidates with
  | [] => None
  | first :: _ => Some (foldl (least_step_vec (conns_of st)) (i64_max, first) candidates).2
  end.

(** (warmed, unwarmed, any sample at all). *)
Definition warm_step (st : LbState) (acc : nat * nat * bool) (i : nat) : nat * nat * bool :=
  let '(warmed_count, unwarmed_count, any_has_data) := acc in
  let '(warmed_count, unwarmed_count) :=
    if warmed st i then (S warmed_count, unwarmed_count) else (warmed_count, S unwarmed_count) in
  (warmed_count, unwarmed_count, any_has_data || (0 <? samples_of st i)).

(** The walk to the [skip]-th unwarmed candidate. *)
Definition explore_step (st : LbState) (acc : nat * option nat) (i : nat) : nat * option nat :=
  match acc with
  | (skip, Some t) => (skip, Some t)
  | (skip, None) => if warmed st i then (skip, None) else match skip with O => (O, Some i) | S skip => (skip, None) end
  end.

Definition least_warmed_step (st : LbState) (acc : Z * nat * bool) (i : nat) : Z * nat * bool :=
  if negb (warmed st i) then acc else least_step (latency_of st) acc i.

Definition select_least_latency_bitset (healthy : HealthBitset) (rr : lane) (st : LbState) : option nat * LbState :=
  if count healthy =? 0 then (None, st)
  else
    let '(warmed_count, unwarmed_count, any_has_data) := over_bitset healthy (warm_step st) (0, 0, false)%nat in
    if (warmed_count =? 0)%nat || negb any_has_data then
      let '(tick, st) := draw shard rr st in (nth_set_bit healthy tick, st)
    else if negb (unwarmed_count =? 0)%nat then
      let '(tick, st) := draw shard rr st in
      let explored :=
        match unwarmed_explore_slot tick unwarmed_count with
        | Some skip => (over_bitset healthy (explore_step st) (skip, None)).2
        | None => None
        end in
      match explored with
      | Some t => (Some t, st)
      | None =>
        let '(best_latency, best_idx, found) := over_bitset healthy (least_warmed_step st) (umax 64, 0%nat, false) in
        if found && negb (best_latency =? LATENCY_UNSET) then (Some best_idx, st)
        else (nth_set_bit healthy tick, st)
      end
    else
      let '(best_latency, best_idx, _) := over_bitset healthy (least_step (latency_of st)) (umax 64, 0%nat, false) in
      if best_latency =? LATENCY_UNSET then
        let '(tick, st) := draw shard rr st in (nth_set_bit healthy tick, st)
      else (Some best_idx, st).

Definition select_least_latency_vec (candidates : list nat) (rr : lane) (st : LbState) : option nat * LbState :=
  match candidates with
  | [] => (None, st)
  | first :: _ =>
    let '(warmed_count, unwarmed_count, any_has_data) := foldl (warm_step st) (0, 0, false)%nat candidates in
    if (warmed_count =? 0)%nat || negb any_has_data then
      let '(tick, st) := draw shard rr st in (cyclic candidates tick, st)
    else if negb (unwarmed_count =? 0)%nat then
      let '(tick, st) := draw shard rr st in
      let explored :=
        match unwarmed_explore_slot tick unwarmed_count with
        | Some skip => (foldl (explore_step st) (skip, None) candidates).2
        | None => None
        end in
      match explored with
      | Some t => (Some t, st)
      | None =>
        let '(best_latency, best, found) := foldl (least_warmed_step st) (umax 64, first, false) candidates in
        if found && negb (best_latency =? LATENCY_UNSET) then (Some best, st)
        else (cyclic candidates tick, st)
      end
    else
      let '(best_latency, best) := foldl (least_step_vec (latency_of st)) (umax 64, first) candidates in
      if best_latency =? LATENCY_UNSET then
        let '(tick, st) := draw shard rr st in (cyclic candidates tick, st)
      else (Some best, st)
  end.

(** ** Consistent hashing *)

Definition select_consistent_hash_bitset_with_ring (ctx_key : bytes) (healthy : HealthBitset)
    (ring : list (Z * nat)) : option nat :=
  if is_empty healthy || bool_decide (ring = []) then None
  else
    match walk_ring ring (search_pos ring (fx_hash_str ctx_key)) (contains healthy) with
    | Some t => Some t
    | None => nth_set_bit healthy 0
    end.

Definition select_consistent_hash_vec_with_ring (ctx_key : bytes) (candidates : list nat)
    (ring : list (Z * nat)) : option nat :=
  match candidates with
  | [] => None
  | first :: _ =>
    if bool_decide (ring = []) then None
    else
      match walk_ring ring (search_pos ring (fx_hash_str ctx_key)) (fun i => bool_decide (i ∈ candidates)) with
      | Some t => Some t
      | None => Some first
      end
  end.

(** ** Weighted locality buckets *)

Definition distribute_pick (ctx_key : bytes) (total : Z) (algorithm : LoadBalancerAlgorithm) (counter : lane)
    (st : LbState) : Z * LbState :=
  let '(raw, st) :=
    match algorithm with
    | ConsistentHashing => (fx_hash_str ctx_key, st)
    | _ => draw_distribute shard counter st
    end in
  (golden_ratio_hash raw mod total, st).

(** The bucket of the running total that [pick] falls into; [mask] restricts a
    group to the candidates, [None] when it has none. *)
Definition bucket_step {T} (mask : LocalityDistributeGroup -> option T) (pick : Z)
    (acc : Z * option T * option T) (g : LocalityDistributeGroup) : Z * option T * option T :=
  match acc with
  | (total, first, Some chosen) => (total, first, Some chosen)
  | (total, first, None) =>
    match mask g with
    | None => (total, first, None)
    | Some masked =>
      let first := match first with Some f => Some f | None => Some masked end in
      let total := saturating_add 64 total (group_weight g) in
      (total, first, if pick <? total then Some masked else None)
    end
  end.

Definition bucket_total (eligible : LocalityDistributeGroup -> bool) (groups : list LocalityDistributeGroup) : Z :=
  foldl (fun total g => if eligible g then saturating_add 64 total (group_weight g) else total) 0 groups.

Definition pick_bucket {T} (mask : LocalityDistributeGroup -> option T) (groups : list LocalityDistributeGroup)
    (pick : Z) : option T :=
  match foldl (bucket_step mask pick) (0, None, None) groups with
  | (_, _, Some chosen) => Some chosen
  | (_, first_eligible, None) => first_eligible
  end.

Definition group_eligible_bitset (healthy : HealthBitset) (g : LocalityDistributeGroup) : bool :=
  existsb (contains healthy) (group_indices g).

Definition in_group (g : LocalityDistributeGroup) (idx : nat) : bool := default false (group_membership g !! idx).

Definition group_eligible_vec (candidates : list nat) (g : LocalityDistributeGroup) : bool :=
  existsb (in_group g) candidates.

Definition group_mask_bitset (healthy : HealthBitset) (g : LocalityDistributeGroup) : option HealthBitset :=
  let masked :=
    foldl (fun masked idx => if contains healthy idx then set masked idx else masked) empty_bitset (group_indices g) in
  if is_empty masked then None else Some masked.

Definition group_mask_vec (candidates : list nat) (g : LocalityDistributeGroup) : option (list nat) :=
  match List.filter (in_group g) candidates with
  | [] => None
  | masked => Some masked
  end.

Definition distribute_group {T} (eligible : LocalityDistributeGroup -> bool)
    (mask : LocalityDistributeGroup -> option T) (ctx_key : bytes)
    (algorithm : LoadBalancerAlgorithm) (locality_lb : locality_ref) (st : LbState) : option T * LbState :=
  match locality_lb with
  | None => (None, st)
  | Some (counter, state) =>
    match distribute_groups state with
    | None => (None, st)
    | Some groups =>
      let total := bucket_total eligible groups in
      if total =? 0 then (None, st)
      else
        let '(pick, st) := distribute_pick ctx_key total algorithm counter st in
        (pick_bucket mask groups pick, st)
    end
  end.

Definition distribute_group_bitset (healthy : HealthBitset) :=
  distribute_group (group_eligible_bitset healthy) (group_mask_bitset healthy).
Definition distribute_group_candidates (candidates : list nat) :=
  distribute_group (group_eligible_vec candidates) (group_mask_vec candidates).

(** ** Dispatch *)

Definition weights : list Z := map Upstream.weight (targets p).

Definition with_wrr (wrr : lane) (st : LbState) (r : option nat * WrrLaneState) : option nat * LbState :=
  (r.1, Lanes (rr_counters st) (upd (wrr_states st) wrr r.2) (distribute_counters st) (metrics st)).

Definition select_with_bitset_using (ctx_key : bytes) (healthy : HealthBitset) (algorithm : LoadBalancerAlgorithm)
    (rr wrr : lane) (ring : list (Z * nat)) (locality_lb : locality_ref) (st : LbState) : option nat * LbState :=
  if is_empty healthy then (None, st)
  else
    let '(mask, st) := distribute_group_bitset healthy ctx_key algorithm locality_lb st in
    let healthy := default healthy mask in
    let n := length (targets p) in
    let all := is_all healthy n in
    match algorithm with
    | RoundRobin | Passthrough =>
      let '(idx, st) := draw shard rr st in
      (if all then Some (Z.to_nat (idx mod Z.of_nat n)) else nth_set_bit healthy idx, st)
    | Random =>
      let '(idx, st) := draw shard rr st in
      let hash := golden_ratio_hash idx in
      (if all then Some (Z.to_nat (hash mod Z.of_nat n)) else nth_set_bit healthy hash, st)
    | WeightedRoundRobin => with_wrr wrr st (select_wrr_bitset weights shard locked healthy (wrr_states st wrr))
    | LeastConnections => (select_least_connections_bitset healthy st, st)
    | LeastLatency => select_least_latency_bitset healthy rr st
    | ConsistentHashing => (select_consistent_hash_bitset_with_ring ctx_key healthy ring, st)
    end.

Definition select_from_candidates_vec_using (ctx_key : bytes) (candidates : list nat)
    (algorithm : LoadBalancerAlgorithm) (rr wrr : lane) (ring : list (Z * nat)) (locality_lb : locality_ref)
    (st : LbState) : option nat * LbState :=
  if bool_decide (candidates = []) then (None, st)
  else
    let '(mask, st) := distribute_group_candidates candidates ctx_key algorithm locality_lb st in
    let candidates := default candidates mask in
    match algorithm with
    | RoundRobin | Passthrough => let '(idx, st) := draw shard rr st in (cyclic candidates idx, st)
    | Random => let '(idx, st) := draw shard rr st in (cyclic candidates (golden_ratio_hash idx), st)
    | WeightedRoundRobin =>
      with_wrr wrr st (select_wrr_vec shard locked (weigh weights candidates) (wrr_states st wrr))
    | LeastConnections => (select_least_connections_vec candidates st, st)
    | LeastLatency => select_least_latency_vec candidates rr st
    | ConsistentHashing => (select_consistent_hash_vec_with_ring ctx_key candidates ring, st)
    end.
End algorithms.

(** ** The ring *)

Lemma ring_insert_perm x ring : ring_insert x ring ≡ₚ x :: ring.
Proof.
  induction ring as [|y ring IH]; cbn [ring_insert]; [done|]. destruct (x.1 <? y.1); [done|].
  rewrite IH. apply perm_swap.
Qed.

Lemma ring_insert_sorted x ring :
  StronglySorted (fun a b => a.1 <= b.1) ring -> StronglySorted (fun a b : Z * nat => a.1 <= b.1) (ring_insert x ring).
Proof.
  induction 1 as [|y ring Hs IH HF]; cbn [ring_insert]; [by repeat constructor|].
  destruct (Z.ltb_spec x.1 y.1).
  - constructor; [by constructor|]. constructor; [lia|]. eapply Forall_impl; [exact HF|]. simpl. lia.
  - constructor; [done|]. rewrite ring_insert_perm. by constructor.
Qed.

Lemma sort_by_hash_spec l :
  sort_by_hash l ≡ₚ l /\ StronglySorted (fun a b => a.1 <= b.1) (sort_by_hash l).
Proof.
  unfold sort_by_hash. induction l as [|x l [IHp IHs]] using rev_ind; [split; [done|constructor]|].
  rewrite foldl_app. cbn [foldl]. split; [|by apply ring_insert_sorted].
  rewrite ring_insert_perm, IHp. apply Permutation_cons_append.
Qed.

Lemma vnodes_elem key idx e : e ∈ vnodes key idx -> e.2 = idx.
Proof. by intros (v & -> & _)%list_elem_of_fmap. Qed.

Lemma hash_ring_elem keys idxs i :
  (exists h, (h, i) ∈ build_hash_ring_for_indices keys idxs) <-> i ∈ idxs /\ (i < length keys)%nat.
Proof.
  unfold build_hash_ring_for_indices. set (f := fun ring idx => _).
  assert (H : forall acc, (exists h, (h, i) ∈ foldl f acc idxs)
    <-> (exists h, (h, i) ∈ acc) \/ i ∈ idxs /\ (i < length keys)%nat).
  { induction idxs as [|x idxs IH]; intros acc; cbn [foldl]; [set_solver|]. rewrite IH. unfold f at 1.
    rewrite elem_of_cons. destruct (keys !! x) as [key|] eqn:E.
    - assert (Hx := lookup_lt_Some _ _ _ E). setoid_rewrite elem_of_app. split.
      + intros [(h & [Hh|Hh%vnodes_elem])|?]; [by left; exists h|simpl in Hh; subst; right; tauto|tauto].
      + intros [[h Hh]|[[->|Hi] Hl]]; [left; exists h; by left| |tauto]. left.
        exists (fx_hash_str (key ++ bs ":" ++ show_dec (Z.of_nat 0))). right. apply list_elem_of_fmap.
        exists 0%nat. split; [done|]. apply elem_of_seq. unfold VNODES. lia.
    - apply lookup_ge_None in E. split; [intros [?|?]; tauto|]. intros [?|[[->|?] ?]]; [by left|lia|tauto]. }
  destruct (sort_by_hash_spec (foldl f [] idxs)) as [Hp _]. setoid_rewrite Hp. rewrite H. set_solver.
Qed.

(** The walk visits the ring once, from the position on. *)
Definition rotation (ring : list (Z * nat)) (pos : nat) : list (Z * nat) := drop pos ring ++ take pos ring.

Lemma rotation_lookup ring pos i :
  (pos < length ring)%nat -> (i < length ring)%nat ->
  rotation ring pos !! i = ring !! ((pos + i) mod length ring)%nat.
Proof.
  intros Hp Hi. unfold rotation. destruct (decide (pos + i < length ring)%nat) as [Hlt|Hge].
  - rewrite Nat.mod_small by done. rewrite lookup_app_l by (rewrite length_drop; lia). by rewrite lookup_drop.
  - rewrite lookup_app_r by (rewrite length_drop; lia). rewrite length_drop.
    assert (E : ((pos + i) mod length ring = pos + i - length ring)%nat).
    { replace (pos + i)%nat with ((pos + i - length ring) + 1 * length ring)%nat by lia.
      rewrite Nat.Div0.mod_add, Nat.mod_small by lia. lia. }
    rewrite E, lookup_take_lt by lia. f_equal. lia.
Qed.

Definition first_candidate (l : list (Z * nat)) (candidate : nat -> bool) : option nat :=
  head (List.filter candidate (map snd l)).

Lemma walk_ring_spec ring pos candidate :
  (pos < length ring)%nat -> walk_ring ring pos candidate = first_candidate (rotation ring pos) candidate.
Proof.
  intros Hp. unfold walk_ring, first_candidate.
  assert (Hlen : length (rotation ring pos) = length ring)
    by (unfold rotation; rewrite length_app, length_drop, length_take; lia).
  assert (H : forall k, (k <= length ring)%nat ->
    foldl (fun found i => match found with Some t => Some t | None =>
      match ring !! ((pos + i) mod length ring)%nat with
      | Some (_, t) => if candidate t then Some t else None | None => None end end) None (seq 0 k)
    = head (List.filter candidate (map snd (take k (rotation ring pos))))).
  { induction k as [|k IH]; intros Hk; [done|]. rewrite seq_S, foldl_app, IH by lia. cbn [foldl Nat.add].
    destruct (rotation ring pos !! k) as [[h t]|] eqn:E; [|apply lookup_ge_None in E; lia].
    rewrite (take_S_r _ _ _ E), map_app, List.filter_app. rewrite rotation_lookup in E by lia. rewrite E.
    destruct (List.filter candidate (map snd (take k (rotation ring pos)))); cbn [head app map List.filter snd]; [|done].
    by destruct (candidate t). }
  rewrite H by done. by rewrite take_ge by lia.
Qed.

Lemma head_filter_Some {A} (f : A -> bool) l t :
  head (List.filter f l) = Some t <-> exists a b, l = a ++ t :: b /\ f t = true /\ Forall (fun x => f x = false) a.
Proof.
  induction l as [|x l IH]; cbn [List.filter]; [split; [done|intros ([|? ?] & ? & ? & _); done]|].
  destruct (f x) eqn:E; cbn [head].
  - split; [intros [= ->]; exists [], l; by split_and!|]. intros ([|y a] & b & [= -> ->] & Hf & HF); [done|].
    apply Forall_cons in HF as [? _]. congruence.
  - rewrite IH. split; intros (a & b & Hl & Hf & HF).
    + subst l. exists (x :: a), b. split_and!; [done|done|by constructor].
    + destruct a as [|y a]; injection Hl as -> ->; [congruence|]. apply Forall_cons in HF as [_ HF]. by exists a, b.
Qed.

Lemma head_filter_None {A} (f : A -> bool) l : head (List.filter f l) = None <-> Forall (fun x => f x = false) l.
Proof.
  induction l as [|x l IH]; cbn [List.filter]; [split; [constructor|done]|]. rewrite Forall_cons.
  destruct (f x) eqn:E; cbn [head]; [split; [done|intros [? _]; done]|]. rewrite IH. tauto.
Qed.

Lemma rotation_elem ring pos e : e ∈ rotation ring pos <-> e ∈ ring.
Proof. unfold rotation. rewrite <- (take_drop pos ring) at 3. rewrite !elem_of_app. tauto. Qed.

(** The bitset's cyclic read is the vector's. *)
Lemma denotes_nth n b l t : denotes n b l -> l <> [] -> nth_set_bit b t = cyclic l t.
Proof.
  intros (Hw & <- & _) Hne. assert (Hl := wf_len _ Hw).
  assert (Hpos : 0 < Z.of_nat (length (elements_of b))) by (destruct (elements_of b); simpl; [done|lia]).
  assert (E : nth_set_bit b t = nth_set_bit b (t mod len b)).
  { unfold nth_set_bit. rewrite Zmod_mod. done. }
  rewrite E, Hl. assert (Hm := Z.mod_pos_bound t (Z.of_nat (length (elements_of b))) Hpos).
  destruct (nth_set_bit_spec b (t mod Z.of_nat (length (elements_of b))) Hw Hne ltac:(lia)) as [-> _].
  unfold cyclic. by rewrite Zmod_mod.
Qed.

Section ring.
Context {RS : RingSearch} {RL : RingSearchLaws RS}.

Lemma search_pos_lt ring hash :
  ring <> [] -> StronglySorted (fun a b => a.1 <= b.1) ring -> (search_pos ring hash < length ring)%nat.
Proof.
  intros Hne Hs. assert (H := search_ok ring hash Hs). unfold search_pos.
  destruct (ring_search ring hash) as [q|q].
  - destruct (ring !! q) eqn:E; [|done]. by apply lookup_lt_Some in E.
  - apply Nat.mod_upper_bound. by destruct ring.
Qed.

(** A ring as the balancer builds it: sorted, its targets in range. *)
Definition ring_ok (n : nat) (ring : list (Z * nat)) : Prop :=
  StronglySorted (fun a b => a.1 <= b.1) ring /\ Forall (fun e => e.2 < n)%nat ring.

Lemma bitset_vec_ring key healthy candidates n ring :
  (n <= 128)%nat -> denotes n healthy candidates -> ring_ok n ring ->
  select_consistent_hash_bitset_with_ring key healthy ring
  = select_consistent_hash_vec_with_ring key candidates ring.
Proof.
  intros Hn Hd [Hs Hrg]. unfold select_consistent_hash_bitset_with_ring, select_consistent_hash_vec_with_ring.
  rewrite (denotes_empty _ _ _ Hd). assert (Hnth := denotes_nth n healthy candidates 0 Hd).
  destruct Hd as (Hw & He & Hr). destruct candidates as [|c cs]; [by rewrite bool_decide_true|].
  rewrite bool_decide_false by done. cbn [orb].
  case_bool_decide as Hne; [done|]. rewrite !walk_ring_spec by (by apply search_pos_lt).
  unfold first_candidate. set (rot := rotation ring _).
  assert (Hext : List.filter (contains healthy) (map snd rot)
                 = List.filter (fun i => bool_decide (i ∈ c :: cs)) (map snd rot)).
  { apply List.filter_ext_in. intros i Hi. rewrite <- list_elem_of_In in Hi.
    apply list_elem_of_fmap in Hi as ([h j] & -> & Hj). cbn [snd]. apply rotation_elem in Hj.
    assert (j < n)%nat by (rewrite Forall_forall in Hrg; by apply (Hrg (h, j))).
    apply eq_bool_prop_intro. rewrite !Is_true_true, bool_decide_eq_true, <- He. apply contains_spec; [apply Hw|lia]. }
  rewrite Hext. destruct (head (List.filter _ (map snd rot))); [done|]. by apply Hnth.
Qed.

Lemma hash_ring_ok keys idxs : ring_ok (length keys) (build_hash_ring_for_indices keys idxs).
Proof.
  split; [apply sort_by_hash_spec|]. apply Forall_forall. intros [h i] Hi.
  apply (hash_ring_elem keys idxs i). by exists h.
Qed.

(** The ring of a lane whose targets are [idxs], all with a key. *)
Section choice.
Context (keys : list bytes) (idxs : list nat).
Hypothesis in_range : Forall (fun i => i < length keys)%nat idxs.

Let ring := build_hash_ring_for_indices keys idxs.

Lemma ring_sorted : StronglySorted (fun a b => a.1 <= b.1) ring.
Proof. apply sort_by_hash_spec. Qed.

Lemma ring_covers i : i ∈ idxs <-> exists h, (h, i) ∈ ring.
Proof.
  unfold ring. rewrite hash_ring_elem. rewrite Forall_forall in in_range. naive_solver.
Qed.

Lemma vec_walk key candidates :
  candidates <> [] -> candidates ⊆ idxs ->
  exists t, select_consistent_hash_vec_with_ring key candidates ring = Some t /\ t ∈ candidates
    /\ first_candidate (rotation ring (search_pos ring (fx_hash_str key))) (fun i => bool_decide (i ∈ candidates))
       = Some t.
Proof.
  intros Hne Hsub. unfold select_consistent_hash_vec_with_ring. destruct candidates as [|c cs]; [done|].
  destruct (proj1 (ring_covers c)) as [h Hh]; [apply Hsub; by left|].
  rewrite bool_decide_false by (intros E; rewrite E in Hh; by apply elem_of_nil in Hh).
  assert (Hr : ring <> []) by (intros E; rewrite E in Hh; by apply elem_of_nil in Hh).
  rewrite walk_ring_spec by (apply search_pos_lt; [done|apply ring_sorted]).
  set (rot := rotation ring _). destruct (first_candidate rot _) as [t|] eqn:E.
  - exists t. split; [done|]. split; [|done]. apply head_filter_Some in E as (a & b & _ & Ht & _).
    by apply bool_decide_eq_true in Ht.
  - exfalso. apply head_filter_None in E. rewrite Forall_forall in E.
    assert (Hin : c ∈ map snd rot) by (apply list_elem_of_fmap; exists (h, c); split; [done|by apply rotation_elem]).
    specialize (E c Hin). apply bool_decide_eq_false in E. apply E. by left.
Qed.

(** Consistent hashing disturbs no key it need not: on the ring of a lane,
    every key with a candidate gets one of its candidates, and when candidates
    drop out (an ejection, a failed probe) or come back, a key whose target is
    a candidate both before and after keeps that target. *)
Theorem consistent_hash_stable (key : bytes) (candidates fewer : list nat) :
  candidates ⊆ idxs -> fewer ⊆ candidates -> fewer <> [] ->
  exists t, select_consistent_hash_vec_with_ring key candidates ring = Some t /\ t ∈ candidates
    /\ (t ∈ fewer -> select_consistent_hash_vec_with_ring key fewer ring = Some t).
Proof.
  intros Hsub Hfew Hne. assert (Hc : candidates <> []) by (destruct fewer, candidates; set_solver).
  destruct (vec_walk key candidates Hc Hsub) as (t & Ht & Hin & Hw).
  destruct (vec_walk key fewer Hne ltac:(set_solver)) as (t' & Ht' & Hin' & Hw').
  exists t. split; [done|]. split; [done|]. intros Hf. rewrite Ht'. rewrite <- Hw', <- Hw. unfold first_candidate.
  apply head_filter_Some in Hw as (a & b & Hl & _ & Ha). rewrite Hl.
  transitivity (Some t); [|symmetry]; apply head_filter_Some; exists a, b; (split; [done|]);
    (split; [by apply bool_decide_eq_true|]); [|done].
  eapply Forall_impl; [exact Ha|]. simpl. intros x Hx%bool_decide_eq_false. apply bool_decide_eq_false. set_solver.
Qed.
End choice.

(** ** Which candidate: the nearest virtual node clockwise *)

Definition clockwise (from to : Z) : Z := (to - from) mod 2 ^ 64.

Lemma clockwise_ahead a b : 0 <= a <= b -> b < 2 ^ 64 -> clockwise a b = b - a.
Proof. intros H1 H2. unfold clockwise. apply Z.mod_small. lia. Qed.

Lemma clockwise_behind a b : 0 <= b < a -> a < 2 ^ 64 -> clockwise a b = b - a + 2 ^ 64.
Proof.
  intros H1 H2. unfold clockwise. rewrite <- (Z_mod_plus_full _ 1). rewrite Z.mod_small; lia.
Qed.

Lemma fx_hash_range s : 0 <= fx_hash_str s < 2 ^ 64.
Proof.
  unfold fx_hash_str. destruct s as [|b s] using rev_ind; [done|]. rewrite foldl_app. cbn [foldl].
  apply wrap_in_width. done.
Qed.

Lemma sorted_cut (ring : list (Z * nat)) hash :
  StronglySorted (fun a b => a.1 <= b.1) ring -> NoDup (map fst ring) -> ring <> [] ->
  let pos := search_pos ring hash in
  (Forall (fun e => hash <= e.1) (drop pos ring) /\ Forall (fun e => e.1 < hash) (take pos ring))
  \/ (pos = 0%nat /\ Forall (fun e => e.1 < hash) ring).
Proof.
  intros Hs Hn Hne. cbn zeta. unfold search_pos. assert (H := search_ok ring hash Hs).
  destruct (ring_search ring hash) as [q|q].
  - left. destruct (ring !! q) as [[h t]|] eqn:E; [|done]. injection H as ->.
    rewrite <- (take_drop_middle ring q _ E) in Hs, Hn.
    rewrite (drop_S _ _ _ E). rewrite map_app in Hn. cbn [map fst] in Hn. revert Hs Hn.
    generalize (take q ring) (drop (S q) ring). clear. intros l r Hs Hn. split.
    + constructor; [done|]. induction l as [|x l IH]; [by apply StronglySorted_inv in Hs as [_ ?]|].
      apply IH; [by apply StronglySorted_inv in Hs as [? _]|by apply NoDup_cons in Hn as [_ ?]].
    + induction l as [|x l IH]; constructor.
      * apply StronglySorted_inv in Hs as [_ HF]. rewrite Forall_forall in HF.
        assert (Hx : x.1 <= hash) by (apply (HF (hash, t)); set_solver).
        cbn [map app] in Hn. apply NoDup_cons in Hn as [Hni _]. assert (x.1 <> hash) by set_solver. lia.
      * apply IH; [by apply StronglySorted_inv in Hs as [? _]|by apply NoDup_cons in Hn as [_ ?]].
  - destruct H as (Hq & Hb & Ha). assert (0 < length ring)%nat by (destruct ring; simpl; [done|lia]).
    destruct (decide (q = length ring)) as [->|Hlt].
    + right. rewrite Nat.Div0.mod_same. split; [done|]. by rewrite take_ge in Hb by lia.
    + left. rewrite Nat.mod_small by lia. split; [|done]. eapply Forall_impl; [exact Ha|]. simpl. lia.
Qed.

Lemma rotation_clockwise (ring : list (Z * nat)) hash :
  StronglySorted (fun a b => a.1 <= b.1) ring -> NoDup (map fst ring) -> ring <> [] -> 0 <= hash < 2 ^ 64 ->
  Forall (fun e => 0 <= e.1 < 2 ^ 64) ring ->
  StronglySorted (fun a b => clockwise hash a.1 <= clockwise hash b.1) (rotation ring (search_pos ring hash)).
Proof.
  intros Hs Hn Hne Hh Hr.
  assert (Hmono : forall l, StronglySorted (fun a b => a.1 <= b.1) l -> Forall (fun e => 0 <= e.1 < 2 ^ 64) l ->
    Forall (fun e => hash <= e.1) l \/ Forall (fun e => e.1 < hash) l ->
    StronglySorted (fun a b : Z * nat => clockwise hash a.1 <= clockwise hash b.1) l).
  { intros l Hl Hlr Hc. induction Hl as [|x l Hl IH HF]; constructor.
    - apply IH; [by apply Forall_cons in Hlr as [_ ?]|].
      destruct Hc as [Hc|Hc]; [left|right]; by apply Forall_cons in Hc as [_ ?].
    - apply Forall_cons in Hlr as [Hx Hlr]. apply Forall_forall. intros y Hy.
      assert (Hxy := proj1 (Forall_forall _ _) HF y Hy). assert (Hy' := proj1 (Forall_forall _ _) Hlr y Hy).
      destruct Hc as [[Hcx Hc]%Forall_cons|[Hcx Hc]%Forall_cons]; assert (Hcy := proj1 (Forall_forall _ _) Hc y Hy);
        simpl in *; [rewrite !clockwise_ahead by lia|rewrite !clockwise_behind by lia]; lia. }
  destruct (sorted_cut ring hash Hs Hn Hne) as [[Ha Hb]|[Hp Hb]].
  - unfold rotation. set (pos := search_pos ring hash) in *.
    rewrite <- (take_drop pos ring) in Hs, Hr. apply Forall_app in Hr as [Hr1 Hr2].
    apply StronglySorted_app in Hs as (_ & H1 & H2). apply StronglySorted_app.
    split; [|split; apply Hmono; tauto]. intros x y Hx Hy.
    assert (Hxa := proj1 (Forall_forall _ _) Ha x Hx). assert (Hxr := proj1 (Forall_forall _ _) Hr2 x Hx).
    assert (Hyb := proj1 (Forall_forall _ _) Hb y Hy). assert (Hyr := proj1 (Forall_forall _ _) Hr1 y Hy).
    simpl in *. rewrite clockwise_ahead, clockwise_behind by lia. lia.
  - rewrite Hp. unfold rotation. rewrite drop_0, take_0, app_nil_r. apply Hmono; [done|done|by right].
Qed.

Lemma vnode_hashes keys idxs : Forall (fun e => 0 <= e.1 < 2 ^ 64) (build_hash_ring_for_indices keys idxs).
Proof.
  unfold build_hash_ring_for_indices. rewrite (proj1 (sort_by_hash_spec _)).
  assert (H : forall acc, Forall (fun e : Z * nat => 0 <= e.1 < 2 ^ 64) acc -> Forall (fun e : Z * nat => 0 <= e.1 < 2 ^ 64)
    (foldl (fun ring idx => match keys !! idx with Some key => ring ++ vnodes key idx | None => ring end) acc idxs)).
  { induction idxs as [|i idxs IH]; intros acc Ha; [done|]. cbn [foldl]. apply IH.
    destruct (keys !! i); [|done]. apply Forall_app. split; [done|]. apply Forall_forall.
    intros e (v & -> & _)%list_elem_of_fmap. apply fx_hash_range. }
  by apply H.
Qed.

(** C14. Consistent hashing refines its textbook rule: when no two virtual nodes
    of the ring collide, the target chosen for a key is one of the candidates, and
    it owns a virtual node at the least clockwise distance from the key's hash
    among the virtual nodes of all candidates, whichever way the binary search
    resolves. Owners that are not candidates are walked past. *)
Theorem consistent_hash_nearest (keys : list bytes) (idxs : list nat) (key : bytes) (candidates : list nat) :
  Forall (fun i => i < length keys)%nat idxs -> candidates <> [] -> candidates ⊆ idxs ->
  NoDup (map fst (build_hash_ring_for_indices keys idxs)) ->
  let ring := build_hash_ring_for_indices keys idxs in
  exists t h, select_consistent_hash_vec_with_ring key candidates ring = Some t
    /\ t ∈ candidates /\ (h, t) ∈ ring
    /\ forall h' t', (h', t') ∈ ring -> t' ∈ candidates ->
         clockwise (fx_hash_str key) h <= clockwise (fx_hash_str key) h'.
Proof.
  intros Hr Hne Hsub Hnd ring. destruct (vec_walk keys idxs Hr key candidates Hne Hsub) as (t & Ht & Hin & Hw).
  fold ring in Ht, Hw. exists t. assert (Hr0 : ring <> []).
  { intros E. unfold first_candidate, rotation in Hw. by rewrite E, take_nil, drop_nil in Hw. }
  assert (Hs := rotation_clockwise ring (fx_hash_str key) (ring_sorted keys idxs) Hnd Hr0 (fx_hash_range key)
    (vnode_hashes keys idxs)).
  apply head_filter_Some in Hw as (a & b & Hl & _ & Ha).
  apply fmap_app_inv in Hl as (ra & rb & -> & Hb & Hrot). symmetry in Hb. apply fmap_cons_inv in Hb as ([h t'] & rb' & -> & _ & ->).
  exists h. simpl. assert (Hmem : forall e, e ∈ ring <-> e ∈ ra ++ (h, t') :: rb')
    by (intros e; rewrite <- Hrot; symmetry; apply rotation_elem).
  split; [done|]. split; [done|]. split; [apply Hmem; set_solver|]. intros h2 t2 H2 Hc. apply Hmem in H2.
  rewrite Hrot in Hs. apply StronglySorted_app in Hs as (_ & _ & Hs). apply StronglySorted_inv in Hs as [_ HF].
  apply elem_of_app in H2 as [H2|[H2|H2]%elem_of_cons].
  - rewrite Forall_forall in Ha. assert (Hx := Ha t2). simpl in Hx. rewrite bool_decide_eq_false in Hx.
    exfalso. apply Hx; [|done]. apply list_elem_of_fmap. by exists (h2, t2).
  - by injection H2 as -> ->.
  - rewrite Forall_forall in HF. by apply (HF (h2, t2)).
Qed.
End ring.
