(* ===== verification/LbDispatch.v ===== *)
(** * Properties of the dispatch over the algorithms ([src/src/load_balancer.rs])

    The bitset and the vector dispatcher select the same target and advance the
    same counters; every dispatch with a candidate selects a candidate; the
    minimum loops find the minimum; the locality buckets are proportional. *)

From Stdlib Require Import Sorted.
From stdpp Require Import sorting.
From S2P Require Import Prelude Decimal RuntimeKeys Upstream HealthBitset SmoothWrr WrrSelect LbHealth LbLocality LbMetrics LbAlgorithms.
#[local] Open Scope Z_scope.

(** ** The minimum loops *)

(** The first index of least value. *)
Definition argmin (value : nat -> Z) (c : nat) (cs : list nat) : nat :=
  foldl (fun best i => if value i <? value best then i else best) c cs.

Lemma argmin_spec value cs : forall c,
  argmin value c cs ∈ c :: cs /\ (forall i, i ∈ c :: cs -> value (argmin value c cs) <= value i).
Proof.
  unfold argmin. induction cs as [|x cs IH]; intros c; cbn [foldl].
  { split; [by left|]. intros i ->%list_elem_of_singleton. done. }
  destruct (Z.ltb_spec (value x) (value c)).
  - destruct (IH x) as [Hin Hle]. split; [by right|]. intros i [->|Hi]%elem_of_cons; [|by apply Hle].
    assert (Hx := Hle x ltac:(by left)). lia.
  - destruct (IH c) as [Hin Hle]. split; [apply elem_of_cons in Hin as [Hin|Hin]; [rewrite Hin; by left|by right; right]|].
    intros i [->|[->|Hi]%elem_of_cons]%elem_of_cons; [apply Hle; by left| |apply Hle; by right].
    assert (Hc := Hle c ltac:(by left)). lia.
Qed.

Lemma least_fold_found value cs : forall c,
  foldl (least_step value) (value c, c, true) cs = (value (argmin value c cs), argmin value c cs, true).
Proof.
  unfold argmin. induction cs as [|x cs IH]; intros c; cbn [foldl]; [done|]. cbn [least_step negb orb].
  destruct (value x <? value c); apply IH.
Qed.

Lemma least_fold value c cs m b :
  foldl (least_step value) (m, b, false) (c :: cs) = (value (argmin value c cs), argmin value c cs, true).
Proof. cbn [foldl least_step negb orb]. apply least_fold_found. Qed.

Lemma least_fold_vec value c cs m :
  value c <= m ->
  foldl (least_step_vec value) (m, c) (c :: cs) = (value (argmin value c cs), argmin value c cs).
Proof.
  intros Hm. cbn [foldl]. assert (E : least_step_vec value (m, c) c = (value c, c)).
  { cbn. destruct (Z.ltb_spec (value c) m); [done|]. f_equal. lia. }
  rewrite E. clear. unfold argmin. revert c. induction cs as [|x cs IH]; intros c; cbn [foldl]; [done|].
  cbn [least_step_vec]. destruct (value x <? value c); apply IH.
Qed.

(** ** Agreement of the paths *)

Record metrics_ok (m : Metrics) : Prop := {
  conns_bounded : forall k, connections m k <= i64_max;
  latency_bounded : forall k, latency m k <= umax 64;
}.

(** A bucket: its index list and its membership table say the same. *)
Record group_ok (n : nat) (g : LocalityDistributeGroup) : Prop := {
  group_nodup : NoDup (group_indices g);
  group_range : Forall (fun i => i < n)%nat (group_indices g);
  group_table : forall i, in_group g i = true <-> i ∈ group_indices g;
  group_weight_u64 : is_u64 (group_weight g);
}.

Definition locality_ok (n : nat) (locality_lb : locality_ref) : Prop :=
  forall l state groups, locality_lb = Some (l, state) -> distribute_groups state = Some groups -> Forall (group_ok n) groups.

Section agree.
Context {RS : RingSearch} {RL : RingSearchLaws RS} (p : pool) (shard : nat) (locked : bool).
Let n := length (targets p).
Hypothesis small : (n <= 128)%nat.

Lemma over_bitset_foldl {S} b l (f : S -> nat -> S) s : denotes n b l -> over_bitset p b f s = foldl f s l.
Proof. by apply foldl_members. Qed.

Lemma least_connections_agree b l st :
  denotes n b l -> metrics_ok (metrics st) ->
  select_least_connections_bitset p b st = select_least_connections_vec p l st.
Proof.
  intros Hd Hm. unfold select_least_connections_bitset, select_least_connections_vec.
  rewrite (over_bitset_foldl b l) by done. destruct l as [|c cs]; [done|].
  rewrite least_fold, least_fold_vec by apply Hm. done.
Qed.

(** Only warmed targets take part. *)
Lemma least_warmed_filter st l acc :
  foldl (least_warmed_step p st) acc l = foldl (least_step (latency_of p st)) acc (List.filter (warmed p st) l).
Proof.
  revert acc. induction l as [|i l IH]; intros acc; [done|]. cbn [foldl List.filter]. unfold least_warmed_step at 2.
  destruct (warmed p st i); cbn [negb]; [cbn [foldl]; apply IH|apply IH].
Qed.

Lemma draw_metrics l st : metrics (draw shard l st).2 = metrics st.
Proof. done. Qed.

Lemma least_latency_agree b l rr st :
  denotes n b l -> metrics_ok (metrics st) ->
  select_least_latency_bitset p shard b rr st = select_least_latency_vec p shard l rr st.
Proof.
  intros Hd Hm. unfold select_least_latency_bitset, select_least_latency_vec.
  assert (Hnth := fun t => denotes_nth n b l t Hd). assert (Hc : count b = Z.of_nat (length l))
    by (destruct Hd as (Hw & <- & _); apply (wf_len _ Hw)).
  rewrite Hc. destruct l as [|c cs]; [done|]. cbn [length]. rewrite (proj2 (Z.eqb_neq _ 0)) by lia.
  rewrite (over_bitset_foldl b (c :: cs)) by done.
  destruct (foldl (warm_step p st) _ _) as [[wc uc] any]. destruct ((wc =? 0)%nat || negb any).
  { destruct (draw shard rr st) as [t st']. by rewrite Hnth. }
  destruct (negb (uc =? 0)%nat).
  - destruct (draw shard rr st) as [t st']. rewrite !(over_bitset_foldl b (c :: cs)) by done. rewrite !least_warmed_filter.
    destruct (unwarmed_explore_slot t uc) as [skip|];
      [rewrite (over_bitset_foldl b (c :: cs)) by done; destruct (foldl (explore_step p st') (skip, None) (c :: cs)).2; [done|]|];
      (destruct (List.filter (warmed p st') (c :: cs)) as [|w ws]; [cbn; by rewrite Hnth|]);
      rewrite !least_fold; by rewrite Hnth.
  - rewrite (over_bitset_foldl b (c :: cs)) by done. rewrite least_fold, least_fold_vec by apply Hm.
    destruct (_ =? LATENCY_UNSET); [|done]. destruct (draw shard rr st) as [t st']. by rewrite Hnth.
Qed.

(** *** Buckets *)

Lemma group_mask_agree b l g :
  denotes n b l -> group_ok n g -> option_Forall2 (denotes n) (group_mask_bitset b g) (group_mask_vec l g).
Proof.
  intros Hd Hg. unfold group_mask_bitset, group_mask_vec.
  assert (H128 : Forall (fun i => i < 128)%nat (group_indices g))
    by (eapply Forall_impl; [apply (group_range n g Hg)|]; simpl; lia).
  destruct (set_filtered_spec (contains b) (group_indices g) empty_bitset empty_bitset_wf (group_nodup n g Hg) H128) as [Hw He];
    [simpl; set_solver|].
  set (masked := foldl _ empty_bitset _) in *.
  assert (Hden : denotes n masked (List.filter (in_group g) l)).
  { destruct Hd as (Hbw & Hbe & Hbr). split; [done|]. split.
    - apply sorted_ext; [apply members_sorted; apply Hw| |].
      + eapply ascending_sublist; [apply filter_sublist|]. rewrite <- Hbe. apply members_sorted; apply Hbw.
      + intros i. etransitivity; [apply He|]. simpl. rewrite !filter_elem, (group_table n g Hg), elem_of_nil, <- Hbe. split.
        * intros [[]|[Hi Hc]]. split; [|done]. apply contains_spec in Hc; [done|apply Hbw|].
          rewrite Forall_forall in H128. by apply H128.
        * intros [Hi Hin]. right. split; [done|]. apply contains_spec; [apply Hbw| |done].
          rewrite Forall_forall in H128. by apply H128.
    - rewrite Forall_forall in *. intros i [Hi _]%filter_elem. by apply Hbr. }
  rewrite (denotes_empty _ _ _ Hden). destruct (List.filter (in_group g) l) as [|x r].
  - rewrite bool_decide_true by done. constructor.
  - rewrite bool_decide_false by done. by constructor.
Qed.

Lemma group_eligible_agree b l g :
  denotes n b l -> group_ok n g -> group_eligible_bitset b g = group_eligible_vec l g.
Proof.
  intros (Hbw & Hbe & Hbr) Hg. unfold group_eligible_bitset, group_eligible_vec.
  apply eq_bool_prop_intro. rewrite !Is_true_true, !existsb_exists.
  assert (H : forall i, i ∈ group_indices g -> contains b i = true <-> i ∈ l).
  { intros i Hi. rewrite <- Hbe. apply contains_spec; [apply Hbw|].
    assert (Hr := group_range n g Hg). rewrite Forall_forall in Hr. specialize (Hr i Hi). lia. }
  setoid_rewrite <- list_elem_of_In. split; intros (i & H1 & H2).
  - exists i. split; [by apply H|by apply (group_table n g Hg)].
  - exists i. apply (group_table n g Hg) in H2. split; [done|by apply H].
Qed.

Lemma pick_bucket_agree b l groups pick :
  denotes n b l -> Forall (group_ok n) groups ->
  option_Forall2 (denotes n) (pick_bucket (group_mask_bitset b) groups pick) (pick_bucket (group_mask_vec l) groups pick).
Proof.
  intros Hd HF. unfold pick_bucket.
  assert (H : forall t f1 f2 c1 c2, option_Forall2 (denotes n) f1 f2 -> option_Forall2 (denotes n) c1 c2 ->
    let r1 := foldl (bucket_step (group_mask_bitset b) pick) (t, f1, c1) groups in
    let r2 := foldl (bucket_step (group_mask_vec l) pick) (t, f2, c2) groups in
    option_Forall2 (denotes n) r1.1.2 r2.1.2 /\ option_Forall2 (denotes n) r1.2 r2.2).
  { induction HF as [|g groups Hg HF IH]; intros t f1 f2 c1 c2 Hf Hc; [done|]. cbn [foldl].
    destruct Hc as [x y Hxy|]; cbn [bucket_step]; [apply IH; by try constructor|].
    destruct (group_mask_agree b l g Hd Hg) as [x y Hxy|]; [|apply IH; [done|constructor]].
    apply IH; [destruct Hf; by constructor|]. destruct (pick <? _); by constructor. }
  destruct (H 0 None None None None) as [H1 H2]; [constructor|constructor|].
  destruct (foldl (bucket_step (group_mask_bitset b) pick) _ _) as [[t1 f1] c1].
  destruct (foldl (bucket_step (group_mask_vec l) pick) _ _) as [[t2 f2] c2]. simpl in *. destruct H2; [by constructor|done].
Qed.

Lemma distribute_agree b l key alg loc st :
  denotes n b l -> locality_ok n loc ->
  let r := distribute_group_bitset shard b key alg loc st in
  let v := distribute_group_candidates shard l key alg loc st in
  option_Forall2 (denotes n) r.1 v.1 /\ r.2 = v.2.
Proof.
  intros Hd Hl. unfold distribute_group_bitset, distribute_group_candidates, distribute_group.
  destruct loc as [[c state]|]; [|by split; [constructor|]].
  destruct (distribute_groups state) as [groups|] eqn:E; [|by split; [constructor|]].
  assert (HF := Hl c state groups eq_refl E).
  assert (Ht : bucket_total (group_eligible_bitset b) groups = bucket_total (group_eligible_vec l) groups).
  { unfold bucket_total. generalize 0 as t. clear E. induction HF as [|g groups Hg HF IH]; intros t; [done|].
    cbn [foldl]. rewrite (group_eligible_agree b l g Hd Hg). apply IH. }
  rewrite Ht. destruct (_ =? 0); [by split; [constructor|]|].
  destruct (distribute_pick shard key _ alg c st) as [pick st']. split; [by apply pick_bucket_agree|done].
Qed.

(** The state a dispatch may leave in the buckets does not touch the measurements. *)
Lemma distribute_metrics {T} eligible (mask : LocalityDistributeGroup -> option T) key alg loc st :
  metrics (distribute_group shard eligible mask key alg loc st).2 = metrics st.
Proof.
  unfold distribute_group. destruct loc as [[c state]|]; [|done]. destruct (distribute_groups state); [|done].
  destruct (_ =? 0); [done|]. unfold distribute_pick. by destruct alg.
Qed.

Lemma pick_bucket_sub l groups pick m :
  pick_bucket (group_mask_vec l) groups pick = Some m -> m <> [] /\ sublist m l.
Proof.
  unfold pick_bucket. set (good m := m <> [] /\ sublist m l).
  assert (H : forall t f c, (forall m, f = Some m -> good m) -> (forall m, c = Some m -> good m) ->
    let r := foldl (bucket_step (group_mask_vec l) pick) (t, f, c) groups in
    (forall m, r.1.2 = Some m -> good m) /\ (forall m, r.2 = Some m -> good m)).
  { induction groups as [|g groups IH]; intros t f c Hf Hc; [done|]. cbn [foldl].
    destruct c as [x|]; cbn [bucket_step]; [by apply IH|].
    destruct (group_mask_vec l g) as [x|] eqn:E; [|by apply IH].
    assert (good x).
    { unfold group_mask_vec in E. assert (Hs := filter_sublist (in_group g) l).
      destruct (List.filter (in_group g) l); [done|]. injection E as <-. by split. }
    apply IH; [destruct f; naive_solver|destruct (pick <? _); naive_solver]. }
  destruct (H 0 None None) as [H1 H2]; [done|done|].
  destruct (foldl _ _ groups) as [[t f] [c|]]; simpl in *; [apply H2|apply H1].
Qed.

Lemma distribute_sub l key alg loc st m :
  (distribute_group_candidates shard l key alg loc st).1 = Some m -> m <> [] /\ sublist m l.
Proof.
  unfold distribute_group_candidates, distribute_group.
  destruct loc as [[c state]|]; [|done]. destruct (distribute_groups state) as [groups|]; [|done].
  destruct (_ =? 0); [done|]. destruct (distribute_pick _ _ _ _ _ _) as [pick st']. apply pick_bucket_sub.
Qed.

Lemma all_is_seq b l : denotes n b l -> is_all b n = true -> l = seq 0 n.
Proof.
  intros (Hw & <- & Hr) Ha. unfold is_all in Ha. apply Z.eqb_eq in Ha. rewrite (wf_len _ Hw) in Ha.
  apply sorted_ext; [apply members_sorted; apply Hw|apply seq_ascending|]. intros i.
  assert (Hp : elements_of b ≡ₚ seq 0 n); [|by rewrite Hp].
  apply submseteq_length_Permutation; [|rewrite length_seq; lia].
  apply NoDup_submseteq; [apply members_NoDup; apply Hw|]. intros j Hj. apply elem_of_seq.
  rewrite Forall_forall in Hr. specialize (Hr j Hj). lia.
Qed.

Lemma round_robin_agree b l t :
  denotes n b l -> l <> [] ->
  (if is_all b n then Some (Z.to_nat (t mod Z.of_nat n)) else nth_set_bit b t) = cyclic l t.
Proof.
  intros Hd Hne. destruct (is_all b n) eqn:Ha; [|by eapply denotes_nth].
  rewrite (all_is_seq b l Hd Ha) in *. unfold cyclic. rewrite length_seq.
  assert (0 < n)%nat by (destruct n; [done|lia]).
  assert (Hm := Z.mod_pos_bound t (Z.of_nat n) ltac:(lia)). symmetry. apply lookup_seq. lia.
Qed.

(** Selection does not depend on the size of the upstream: for the same
    candidates the allocation-free dispatcher for up to 128 targets and the
    vector dispatcher return the same target and leave the same counters behind,
    for every algorithm other than weighted round robin (whose schedule cache is
    keyed per path) and with or without weighted localities. *)
Lemma dispatch_paths_agree (b : HealthBitset) (l : list nat) (key : bytes) (alg : LoadBalancerAlgorithm)
    (rr wrr : lane) (ring : list (Z * nat)) (loc : locality_ref) (st : LbState) :
  denotes n b l -> alg <> WeightedRoundRobin -> ring_ok n ring -> locality_ok n loc -> metrics_ok (metrics st) ->
  select_with_bitset_using p shard locked key b alg rr wrr ring loc st
  = select_from_candidates_vec_using p shard locked key l alg rr wrr ring loc st.
Proof.
  intros Hd Halg Hring Hloc Hm. unfold select_with_bitset_using, select_from_candidates_vec_using.
  rewrite (denotes_empty _ _ _ Hd). case_bool_decide as Hne; [done|].
  destruct (distribute_agree b l key alg loc st Hd Hloc) as [Hmask Hst].
  assert (Hmet : metrics (distribute_group_bitset shard b key alg loc st).2 = metrics st) by apply distribute_metrics.
  assert (Hmne := distribute_sub l key alg loc st).
  destruct (distribute_group_bitset shard b key alg loc st) as [mask1 st1].
  destruct (distribute_group_candidates shard l key alg loc st) as [mask2 st2]. cbn [fst snd] in *. subst st2.
  assert (Hd' : denotes n (default b mask1) (default l mask2)) by (by destruct Hmask).
  assert (Hne' : default l mask2 <> []) by (destruct mask2; [by apply (Hmne l0)|done]).
  rewrite <- Hmet in Hm. clear Hd Hmask Hmne Hne. revert Hd' Hne'. generalize (default b mask1) (default l mask2).
  intros b' l' Hd' Hne'. fold n. destruct alg; try done.
  - destruct (draw shard rr st1) as [t st']. by rewrite (round_robin_agree b' l').
  - by rewrite (least_connections_agree b' l').
  - by apply least_latency_agree.
  - by rewrite (bitset_vec_ring key b' l' n).
  - destruct (draw shard rr st1) as [t st']. by rewrite (round_robin_agree b' l').
  - destruct (draw shard rr st1) as [t st']. by rewrite (round_robin_agree b' l').
Qed.
End agree.

(** ** Every dispatch with a candidate selects a candidate *)

(** What a lane needs for its algorithm. *)
Definition lane_ready (ws : list Z) (alg : LoadBalancerAlgorithm) (wrr : lane) (ring : list (Z * nat)) (st : LbState) : Prop :=
  (alg = WeightedRoundRobin -> lane_ok ws (wrr_states st wrr)) /\ (alg = ConsistentHashing -> ring <> []).

Definition lanes_kept (ws : list Z) (st st' : LbState) : Prop :=
  metrics st' = metrics st /\ forall w, lane_ok ws (wrr_states st w) -> lane_ok ws (wrr_states st' w).

Section total.
Context {RS : RingSearch} {RL : RingSearchLaws RS} (p : pool) (shard : nat) (locked : bool).

Lemma explore_in st l skip t : (foldl (explore_step p st) (skip, None) l).2 = Some t -> t ∈ l.
Proof.
  revert skip.
  induction l as [|i l IH]; intros skip; cbn [foldl]; [done|]. cbn [explore_step].
  destruct (warmed p st i); [intros Ht%IH; by right|]. destruct skip as [|skip]; [|intros Ht%IH; by right].
  assert (E : forall l, foldl (explore_step p st) (0%nat, Some i) l = (0%nat, Some i)) by (clear; by induction l).
  rewrite E. intros [= ->]. by left.
Qed.

Lemma draw_kept w st t st' :
  draw shard w st = (t, st') -> metrics st' = metrics st /\ wrr_states st' = wrr_states st.
Proof. unfold draw. by intros [= <- <-]. Qed.

Lemma cyclic_draw (l : list nat) w st :
  l <> [] -> exists t st', (let '(tick, st) := draw shard w st in (cyclic l tick, st)) = (Some t, st') /\ t ∈ l
    /\ metrics st' = metrics st /\ wrr_states st' = wrr_states st.
Proof.
  intros Hne. destruct (draw shard w st) as [t st'] eqn:Ed. destruct (cyclic_Some l t Hne) as (i & Hi & Hin).
  exists i, st'. rewrite Hi. split; [done|]. split; [done|by eapply draw_kept].
Qed.

Lemma least_latency_total l rr st :
  l <> [] -> metrics_ok (metrics st) ->
  exists t st', select_least_latency_vec p shard l rr st = (Some t, st') /\ t ∈ l
    /\ metrics st' = metrics st /\ wrr_states st' = wrr_states st.
Proof.
  intros Hne Hm. unfold select_least_latency_vec. destruct l as [|c cs]; [done|].
  destruct (foldl (warm_step p st) _ _) as [[wc uc] any]. destruct ((wc =? 0)%nat || negb any).
  { by apply cyclic_draw. }
  destruct (negb (uc =? 0)%nat).
  - destruct (draw shard rr st) as [t st'] eqn:Ed. assert (Hst := draw_kept rr st t st' Ed).
    destruct (match unwarmed_explore_slot t uc with Some skip => _ | None => _ end) as [x|] eqn:Ex.
    + exists x, st'. split; [done|]. split; [|done]. destruct (unwarmed_explore_slot t uc); [|done].
      by apply explore_in in Ex.
    + rewrite least_warmed_filter. destruct (cyclic_Some (c :: cs) t Hne) as (i & Hi & Hin).
      destruct (List.filter (warmed p st') (c :: cs)) as [|w ws] eqn:Ef; [exists i, st'; cbn; by rewrite Hi|].
      rewrite least_fold. destruct (true && _); [|exists i, st'; by rewrite Hi].
      eexists _, st'. split; [done|]. split; [|done].
      destruct (argmin_spec (latency_of p st') ws w) as [Hb _]. rewrite <- Ef in Hb. by apply filter_elem in Hb as [? _].
  - rewrite least_fold_vec by apply Hm. destruct (_ =? LATENCY_UNSET).
    + by apply cyclic_draw.
    + eexists _, st. split; [done|]. split; [apply argmin_spec|done].
Qed.

Lemma consistent_hash_total key l ring :
  l <> [] -> ring <> [] -> exists t, select_consistent_hash_vec_with_ring key l ring = Some t /\ t ∈ l.
Proof.
  intros Hne Hr. unfold select_consistent_hash_vec_with_ring. destruct l as [|c cs]; [done|].
  rewrite bool_decide_false by done. unfold walk_ring. set (f := fun found i => _).
  assert (H : forall ks acc, (forall t, acc = Some t -> t ∈ c :: cs) -> forall t, foldl f acc ks = Some t -> t ∈ c :: cs).
  { induction ks as [|i ks IH]; intros acc Ha t; [apply Ha|]. cbn [foldl]. apply IH. intros t'. unfold f.
    destruct acc; [apply Ha|]. destruct (ring !! _) as [[h x]|]; [|done]. case_bool_decide; naive_solver. }
  destruct (foldl f None _) as [t|] eqn:E; [|exists c; split; [done|by left]].
  exists t. split; [done|]. eapply H; [|exact E]. done.
Qed.

Lemma distribute_lanes key alg loc st l :
  lanes_kept (weights p) st (distribute_group_candidates shard l key alg loc st).2
  /\ wrr_states (distribute_group_candidates shard l key alg loc st).2 = wrr_states st.
Proof.
  enough (H : wrr_states (distribute_group_candidates shard l key alg loc st).2 = wrr_states st).
  { split; [|done]. split; [apply distribute_metrics|]. by rewrite H. }
  unfold distribute_group_candidates, distribute_group.
  destruct loc as [[c state]|]; [|done]. destruct (distribute_groups state); [|done].
  destruct (_ =? 0); [done|]. unfold distribute_pick. by destruct alg.
Qed.

Lemma with_wrr_kept wrr st st' r :
  wrr_states st' = wrr_states st -> metrics st' = metrics st -> lane_ok (weights p) r.2 ->
  lanes_kept (weights p) st (with_wrr wrr st' r).2.
Proof.
  intros Hw Hm Hr. split; [done|]. intros w Hok. cbn. unfold upd. case_decide; [done|]. by rewrite Hw.
Qed.

Lemma dispatch_vec_total key l alg rr wrr ring loc st :
  l <> [] -> StronglySorted lt l -> Z.of_nat (length l) < 2 ^ 32 -> Forall is_u32 (weights p) ->
  lane_ready (weights p) alg wrr ring st -> metrics_ok (metrics st) ->
  exists t st', select_from_candidates_vec_using p shard locked key l alg rr wrr ring loc st = (Some t, st')
    /\ t ∈ l /\ lanes_kept (weights p) st st'.
Proof.
  intros Hne Hs Hlen Hu [Hwrr Hring] Hm. unfold select_from_candidates_vec_using. rewrite bool_decide_false by done.
  assert (Hsub := distribute_sub shard l key alg loc st). destruct (distribute_lanes key alg loc st l) as [Hk Hw].
  destruct (distribute_group_candidates shard l key alg loc st) as [mask st1]. cbn [fst snd] in *.
  assert (Hl : default l mask <> [] /\ sublist (default l mask) l) by (destruct mask; [by apply Hsub|done]).
  revert Hl. generalize (default l mask). intros l' [Hne' Hl'].
  assert (Hin : forall t, t ∈ l' -> t ∈ l) by (intros t Ht; by eapply elem_of_sublist).
  assert (Hm1 : metrics_ok (metrics st1)) by (destruct Hk as [-> _]; done).
  destruct alg.
  - destruct (cyclic_Some l' (draw shard rr st1).1 Hne') as (i & Hi & Hin'). exists i, (draw shard rr st1).2.
    split; [by rewrite <- Hi|]. split; [by apply Hin|]. exact Hk.
  - assert (Hc : call_ok (weights p) (VecCall shard locked l')).
    { split; [|done]. apply cand_ok_weigh; [by apply bool_decide_eq_true|done|by eapply ascending_sublist|].
      apply sublist_length in Hl'. lia. }
    assert (Hok : lane_ok (weights p) (wrr_states st1 wrr)) by (rewrite Hw; by apply Hwrr).
    destruct (select_is_via (weights p) _ (wrr_states st1 wrr) Hc (lane_active _ _ Hok)) as [k Hsel].
    destruct (select_via_good (HP := call_path_laws _ _ Hc) shard locked k _ Hok) as (t & st' & Ht & Hg & Hok').
    cbn [select call_shard call_locked] in Hsel. rewrite Hsel, Ht. exists t. eexists. split; [done|]. split.
    + apply Hin. rewrite call_path_cands in Hg. destruct Hg as (w & Hg & _). cbn in Hg. unfold weigh in Hg.
      apply list_elem_of_fmap in Hg as (i & [= -> _] & Hi). done.
    + apply (with_wrr_kept wrr st st1 (Some t, st')); [done|apply Hk|done].
  - unfold select_least_connections_vec. destruct l' as [|c cs]; [done|]. rewrite least_fold_vec by apply Hm1.
    eexists _, st1. split; [done|]. split; [apply Hin; apply argmin_spec|done].
  - destruct (least_latency_total l' rr st1 Hne' Hm1) as (t & st' & Ht & Hin' & Hmm & Hww). exists t, st'.
    split; [done|]. split; [by apply Hin|]. destruct Hk as [Hk1 Hk2]. split; [by rewrite Hmm|by rewrite Hww].
  - destruct (consistent_hash_total key l' ring Hne' (Hring eq_refl)) as (t & Ht & Hin').
    exists t, st1. rewrite Ht. split; [done|]. split; [by apply Hin|done].
  - destruct (cyclic_Some l' (golden_ratio_hash (draw shard rr st1).1) Hne') as (i & Hi & Hin'). exists i, (draw shard rr st1).2.
    split; [by rewrite <- Hi|]. split; [by apply Hin|]. exact Hk.
  - destruct (cyclic_Some l' (draw shard rr st1).1 Hne') as (i & Hi & Hin'). exists i, (draw shard rr st1).2.
    split; [by rewrite <- Hi|]. split; [by apply Hin|]. exact Hk.
Qed.
End total.

Section total_bitset.
Context {RS : RingSearch} {RL : RingSearchLaws RS} (p : pool) (shard : nat) (locked : bool).
Let n := length (targets p).
Hypothesis small : (n <= 128)%nat.

Lemma dispatch_bitset_total key b l alg rr wrr ring loc st :
  denotes n b l -> l <> [] -> Forall is_u32 (weights p) -> ring_ok n ring -> locality_ok n loc ->
  lane_ready (weights p) alg wrr ring st -> metrics_ok (metrics st) ->
  exists t st', select_with_bitset_using p shard locked key b alg rr wrr ring loc st = (Some t, st')
    /\ t ∈ l /\ lanes_kept (weights p) st st'.
Proof.
  intros Hd Hne Hu Hr Hloc Hlane Hm.
  assert (Hs : StronglySorted lt l) by (destruct Hd as (Hw & <- & _); apply members_sorted; apply Hw).
  assert (Hlen : Z.of_nat (length l) < 2 ^ 32).
  { destruct Hd as (Hw & <- & _). assert (H := length_members_le _ (wf_bits _ Hw)). lia. }
  destruct (decide (alg = WeightedRoundRobin)) as [->|Halg].
  2:{ rewrite (dispatch_paths_agree p shard locked small b l) by done. by apply dispatch_vec_total. }
  unfold select_with_bitset_using. rewrite (denotes_empty _ _ _ Hd), bool_decide_false by done.
  destruct (distribute_agree p shard small b l key WeightedRoundRobin loc st Hd Hloc) as [Hmask Hst].
  assert (Hsub := distribute_sub shard l key WeightedRoundRobin loc st).
  destruct (distribute_lanes p shard key WeightedRoundRobin loc st l) as [Hk Hw].
  destruct (distribute_group_bitset shard b key WeightedRoundRobin loc st) as [mask1 st1].
  destruct (distribute_group_candidates shard l key WeightedRoundRobin loc st) as [mask2 st2]. cbn [fst snd] in *. subst st2.
  assert (Hd' : denotes n (default b mask1) (default l mask2)) by (by destruct Hmask).
  assert (Hl' : default l mask2 <> [] /\ sublist (default l mask2) l) by (destruct mask2; [by apply Hsub|done]).
  revert Hd' Hl'. generalize (default b mask1) (default l mask2). intros b' l' Hd' [Hne' Hl'].
  assert (Hc : call_ok (weights p) (BitsetCall shard locked b')).
  { apply bitset_call_ok; [apply Hd'| |by apply bool_decide_eq_true].
    by rewrite (denotes_empty _ _ _ Hd'), bool_decide_false. }
  assert (Hok : lane_ok (weights p) (wrr_states st1 wrr)) by (rewrite Hw; by apply Hlane).
  destruct (select_is_via (weights p) _ (wrr_states st1 wrr) Hc (lane_active _ _ Hok)) as [k Hsel].
  destruct (select_via_good (HP := call_path_laws _ _ Hc) shard locked k _ Hok) as (t & st' & Ht & Hg & Hok').
  cbn [select call_shard call_locked] in Hsel. rewrite Hsel, Ht. exists t. eexists. split; [done|]. split.
  - rewrite call_path_cands in Hg. destruct Hg as (w & Hg & _). cbn in Hg. destruct Hd' as (_ & He & _).
    rewrite He in Hg. apply list_elem_of_fmap in Hg as (i & [= -> _] & Hi). by eapply elem_of_sublist.
  - apply (with_wrr_kept p wrr st st1 (Some t, st')); [done|apply Hk|done].
Qed.
End total_bitset.

(** ** What the algorithms prefer *)

Definition bucket_weight {T} (mask : LocalityDistributeGroup -> option T) (groups : list LocalityDistributeGroup) : Z :=
  foldr (fun g rest => (match mask g with Some _ => group_weight g | None => 0 end) + rest) 0 groups.

Lemma bucket_weight_app {T} (mask : LocalityDistributeGroup -> option T) a b :
  bucket_weight mask (a ++ b) = bucket_weight mask a + bucket_weight mask b.
Proof. induction a as [|g a IH]; cbn [app bucket_weight foldr]; [done|]. fold (bucket_weight mask). unfold bucket_weight in *. rewrite IH. lia. Qed.

Lemma bucket_weight_nonneg {T} (mask : LocalityDistributeGroup -> option T) gs :
  Forall (fun g => 0 <= group_weight g) gs -> 0 <= bucket_weight mask gs.
Proof. induction 1 as [|g gs Hg HF IH]; [done|]. cbn [bucket_weight foldr]. unfold bucket_weight in IH. destruct (mask g); lia. Qed.

(** The running total before the bucket is reached. *)
Lemma bucket_prefix {T} (mask : LocalityDistributeGroup -> option T) pick gs : forall t f,
  Forall (fun g => 0 <= group_weight g) gs -> t + bucket_weight mask gs <= umax 64 -> t + bucket_weight mask gs <= pick -> 0 <= t ->
  exists f', foldl (bucket_step mask pick) (t, f, None) gs = (t + bucket_weight mask gs, f', None).
Proof.
  induction gs as [|g gs IH]; intros t f HF Hmax Hp Ht; [exists f; cbn; by rewrite Z.add_0_r|].
  apply Forall_cons in HF as [Hg HF]. assert (Hn := bucket_weight_nonneg mask gs HF).
  cbn [foldl]. cbn [bucket_weight foldr] in *. fold (bucket_weight mask gs) in *. cbn [bucket_step].
  destruct (mask g) as [m|]; [|apply IH; [done|lia|lia|lia]].
  rewrite saturating_add_small by lia. rewrite (proj2 (Z.ltb_ge _ _)) by lia.
  destruct (IH (t + group_weight g) (match f with Some f => Some f | None => Some m end) HF) as [f' Hf'];
    [lia|lia|lia|]. exists f'. rewrite Hf'. f_equal. f_equal. lia.
Qed.

Lemma bucket_done {T} (mask : LocalityDistributeGroup -> option T) pick gs t f c :
  foldl (bucket_step mask pick) (t, f, Some c) gs = (t, f, Some c).
Proof. by induction gs. Qed.

Lemma bucket_total_exact l gs : forall t,
  Forall (fun g => 0 <= group_weight g) gs -> 0 <= t -> t + bucket_weight (group_mask_vec l) gs <= umax 64 ->
  foldl (fun total g => if group_eligible_vec l g then saturating_add 64 total (group_weight g) else total) t gs
  = t + bucket_weight (group_mask_vec l) gs.
Proof.
  induction gs as [|g gs IH]; intros t HF Ht Hmax; [cbn; lia|].
  apply Forall_cons in HF as [Hg HF]. assert (Hn := bucket_weight_nonneg (group_mask_vec l) gs HF).
  cbn [foldl]. cbn [bucket_weight foldr] in *. fold (bucket_weight (group_mask_vec l) gs) in *.
  assert (He : group_eligible_vec l g = match group_mask_vec l g with Some _ => true | None => false end).
  { clear. unfold group_eligible_vec, group_mask_vec. induction l as [|i l IHl]; [done|]. cbn [existsb List.filter].
    destruct (in_group g i); [done|]. cbn. exact IHl. }
  rewrite He. destruct (group_mask_vec l g); [|rewrite IH by (try done; lia); lia].
  rewrite saturating_add_small, IH by (try done; lia). lia.
Qed.

Lemma warm_all p st l :
  Forall (fun i => warmed p st i = true) l -> l <> [] -> foldl (warm_step p st) (0, 0, false)%nat l = (length l, 0%nat, true).
Proof.
  intros HF Hne. assert (H : forall k any, foldl (warm_step p st) (k, 0, any)%nat l
    = ((k + length l)%nat, 0%nat, any || negb (bool_decide (l = [])))).
  { clear Hne. induction HF as [|i l Hi HF IH]; intros k any; [cbn; by rewrite orb_false_r, Nat.add_0_r|].
    cbn [foldl]. unfold warm_step at 2. rewrite Hi. unfold warmed, LATENCY_WARMUP_THRESHOLD in Hi. apply Z.leb_le in Hi.
    rewrite (proj2 (Z.ltb_lt 0 _)) by lia. rewrite IH, orb_true_r. f_equal; [f_equal; cbn; lia|].
    rewrite (bool_decide_false (i :: l = [])) by done. by rewrite orb_true_r. }
  rewrite H, bool_decide_false by done. done.
Qed.

(** Weighted localities get exactly their share: the ticket space is the sum of
    the weights of the localities that still have a candidate, every ticket of it
    falls into one of them, and each receives exactly as many tickets as its
    weight, as one interval; the candidates it hands on are its own. *)
Theorem locality_buckets_proportional (candidates : list nat) (before : list LocalityDistributeGroup)
    (g : LocalityDistributeGroup) (after : list LocalityDistributeGroup) (masked : list nat) (pick : Z) :
  let groups := before ++ g :: after in
  Forall (fun g => 0 <= group_weight g) groups -> bucket_weight (group_mask_vec candidates) groups <= umax 64 ->
  group_mask_vec candidates g = Some masked ->
  let start := bucket_weight (group_mask_vec candidates) before in
  start <= pick < start + group_weight g ->
  bucket_total (group_eligible_vec candidates) groups = bucket_weight (group_mask_vec candidates) groups
  /\ 0 <= pick < bucket_total (group_eligible_vec candidates) groups
  /\ pick_bucket (group_mask_vec candidates) groups pick = Some masked
  /\ (forall i, i ∈ masked <-> i ∈ candidates /\ in_group g i = true).
Proof.
  intros groups HF Hmax Hm start Hp. assert (HF' := HF). apply Forall_app in HF' as [Hb [Hg Ha]%Forall_cons].
  assert (Hnb := bucket_weight_nonneg (group_mask_vec candidates) before Hb).
  assert (Hna := bucket_weight_nonneg (group_mask_vec candidates) after Ha).
  assert (Hw : bucket_weight (group_mask_vec candidates) groups
    = start + group_weight g + bucket_weight (group_mask_vec candidates) after).
  { unfold groups. rewrite bucket_weight_app. unfold bucket_weight at 2. cbn [foldr]. rewrite Hm.
    fold (bucket_weight (group_mask_vec candidates) after). unfold start. lia. }
  assert (Ht : bucket_total (group_eligible_vec candidates) groups = bucket_weight (group_mask_vec candidates) groups)
    by (unfold bucket_total; rewrite bucket_total_exact by (try done; lia); lia).
  split; [done|]. split; [unfold start in *; lia|]. split.
  - unfold pick_bucket, groups. rewrite foldl_app.
    destruct (bucket_prefix (group_mask_vec candidates) pick before 0 None Hb) as [f' ->]; [unfold start in *; lia..|].
    cbn [foldl bucket_step]. rewrite Hm. fold start. rewrite saturating_add_small by (unfold start in *; lia).
    rewrite (proj2 (Z.ltb_lt _ _)) by (unfold start in *; lia). by rewrite bucket_done.
  - intros i. unfold group_mask_vec in Hm. destruct (List.filter (in_group g) candidates) as [|x r] eqn:E; [done|].
    injection Hm as <-. rewrite <- E. apply filter_elem.
Qed.

(** The least-loaded rules find the least-loaded: least connections returns a
    candidate with no more open connections than any other; least latency, once
    every candidate is warmed up and one has been measured, returns a candidate of
    least average, and otherwise round robin or bounded exploration still returns a
    candidate. *)
Theorem least_loaded_exact (p : pool) (shard : nat) (candidates : list nat) (rr : lane) (st : LbState) :
  candidates <> [] -> metrics_ok (metrics st) ->
  (exists t, select_least_connections_vec p candidates st = Some t /\ t ∈ candidates
     /\ forall i, i ∈ candidates -> conns_of p st t <= conns_of p st i)
  /\ (exists t st', select_least_latency_vec p shard candidates rr st = (Some t, st') /\ t ∈ candidates
     /\ metrics st' = metrics st
     /\ (Forall (fun i => warmed p st i = true) candidates ->
         (exists i, i ∈ candidates /\ latency_of p st i <> LATENCY_UNSET) ->
         st' = st /\ forall i, i ∈ candidates -> latency_of p st t <= latency_of p st i)).
Proof.
  intros Hne Hm. split.
  - unfold select_least_connections_vec. destruct candidates as [|c cs]; [done|]. rewrite least_fold_vec by apply Hm.
    eexists. split; [done|]. apply argmin_spec.
  - destruct (least_latency_total p shard candidates rr st Hne Hm) as (t & st' & Ht & Hin & Hmm & _).
    exists t, st'. split; [done|]. split; [done|]. split; [done|]. intros Hw Hex.
    revert Ht. unfold select_least_latency_vec. destruct candidates as [|c cs]; [done|].
    rewrite (warm_all p st _ Hw) by done. cbn [Nat.eqb negb orb].
    rewrite least_fold_vec by apply Hm. destruct (argmin_spec (latency_of p st) cs c) as [_ Hle].
    destruct Hex as (i & Hi & Hu). assert (Hlt := Hle i Hi). assert (Hb := latency_bounded _ Hm (key_of p i)).
    rewrite (proj2 (Z.eqb_neq _ _)) by (unfold LATENCY_UNSET, latency_of in *; lia). by intros [= <- <-].
Qed.
