(* ===== verification/HashOn.v ===== *)
(** * Hash-on strategies ([src/src/load_balancer.rs], [src/src/config/types.rs])

    What a selection hashes (the client address, a header, a cookie), parsed from
    the configured text once, when a balancer is built. *)

From S2P Require Import Prelude Utf8.
#[local] Open Scope Z_scope.

Inductive HashOnStrategy := Ip | Header (name : bytes) | Cookie (name : bytes).

Definition is_valid_http_token (value : bytes) : bool :=
  bool_decide (value <> [])
  && forallb (fun b => bool_decide (b ∈ bs "!#$%&'*+-.^_`|~") || is_ascii_alphanumeric b) value.

Definition strip_prefix (p l : bytes) : option bytes :=
  if bool_decide (take (length p) l = p) then Some (drop (length p) l) else None.

Definition hash_on_parse (hash_on : option bytes) : HashOnStrategy :=
  match hash_on with
  | None => Ip
  | Some s =>
    if bool_decide (s = bs "ip") || bool_decide (s = []) then Ip
    else
      match strip_prefix (bs "header:") s with
      | Some rest =>
        let name := trim rest in
        if negb (is_valid_http_token name) then Ip else Header (map to_ascii_lowercase name)
      | None =>
        match strip_prefix (bs "cookie:") s with
        | Some rest => let name := trim rest in if negb (is_valid_http_token name) then Ip else Cookie name
        | None => Ip
        end
      end
  end.

Definition strategy_mints_sticky_tokens (s : HashOnStrategy) : bool := match s with Cookie _ => true | _ => false end.
