(* ===== verification/LbSelect.v ===== *)
(** * Target selection ([src/src/load_balancer.rs])

    The selectors of the balancer: over the whole upstream, inside an address
    family, inside a named subset, on a port lane and on their intersections,
    for first attempts, for retries that exclude the target just tried, and for
    the two ways of naming a target (sticky token, original destination). Each
    composes the health filter, the locality preference and the dispatch over
    the configured algorithm; up to 128 targets on bitsets, beyond on vectors. *)

From S2P Require Import Prelude Decimal RuntimeKeys Upstream Net HashOn HealthBitset WrrSelect PassiveHealth LbHealth LbLocality LbMetrics LbAlgorithms.
#[local] Open Scope Z_scope.

Record PortLbState := PortLb {
  target_indices : list nat;
  port_algorithm : LoadBalancerAlgorithm;
  algorithm_overridden : bool;
  port_hash_ring : list (Z * nat);
  port_hash_on_strategy : HashOnStrategy;
  hash_on_override_strategy : option HashOnStrategy;
  port_locality_lb : option LocalityLbState;
  port_failover_enabled : bool;
}.

(** A balancer generation; the state its selections update is [LbState]. *)
Record LoadBalancer := Balancer {
  lb_pool : pool;
  lb_tables : locality_tables;
  algorithm : LoadBalancerAlgorithm;
  hash_ring : list (Z * nat);
  target_index : gmap bytes nat;
  hash_on_strategy : HashOnStrategy;
  subset_indices : gmap bytes (list nat);
  subset_algorithms : gmap bytes LoadBalancerAlgorithm;
  subset_hash_on_strategies : gmap bytes HashOnStrategy;
  subset_failover_enabled : gset bytes;
  subset_wrr_lanes : gset bytes;
  subset_hash_rings : gmap bytes (list (Z * nat));
  port_overrides : gmap Z PortLbState;
  initial_dispatch_port_override : Z;
  locality_lb : option LocalityLbState;
  failover_enabled : bool;
  sticky_token_index : gmap bytes nat;
  has_wildcard_host_target : bool;
}.

(** [is_fallback] is the second component. *)
Definition TargetSelection : Type := nat * bool.

(** The counters, ring and locality state a selection uses. *)
Record lane_ref := LaneRef {
  lane_algorithm : LoadBalancerAlgorithm;
  lane_rr : lane;
  lane_wrr : lane;
  lane_ring : list (Z * nat);
  lane_locality : locality_ref;
}.

Definition lb_size (lb : LoadBalancer) : nat := length (targets (lb_pool lb)).
Definition exceeds_bitset (lb : LoadBalancer) : bool := MAX_BITSET_TARGETS <? Z.of_nat (lb_size lb).

Definition parent_locality (lb : LoadBalancer) : locality_ref := (fun s => (ParentLane, s)) <$> locality_lb lb.

Definition port_locality (lb : LoadBalancer) (port : Z) (ps : PortLbState) : locality_ref :=
  match port_locality_lb ps with Some s => Some (PortLane port, s) | None => parent_locality lb end.

(** ** What is hashed *)

Definition hash_on_strategy_for_subset (lb : LoadBalancer) (name : bytes) : HashOnStrategy :=
  default (hash_on_strategy lb) (subset_hash_on_strategies lb !! name).

Definition hash_on_strategy_for_port (lb : LoadBalancer) (port : Z) : HashOnStrategy :=
  match port_overrides lb !! port with Some ps => port_hash_on_strategy ps | None => hash_on_strategy lb end.

(** ** Lanes *)

Definition subset_algorithm (lb : LoadBalancer) (name : bytes) : LoadBalancerAlgorithm :=
  default (algorithm lb) (subset_algorithms lb !! name).

Definition subset_wrr_state (lb : LoadBalancer) (name : bytes) : lane :=
  if bool_decide (name ∈ subset_wrr_lanes lb) then SubsetLane name else ParentLane.

Definition subset_hash_ring (lb : LoadBalancer) (name : bytes) : list (Z * nat) :=
  default (hash_ring lb) (subset_hash_rings lb !! name).

Definition failover_enabled_for_subset (lb : LoadBalancer) (name : bytes) : bool :=
  failover_enabled lb || bool_decide (name ∈ subset_failover_enabled lb).

Definition failover_enabled_for_port_subset (lb : LoadBalancer) (ps : PortLbState) (name : bytes) : bool :=
  port_failover_enabled ps || failover_enabled_for_subset lb name.

Definition port_subset_algorithm (lb : LoadBalancer) (ps : PortLbState) (name : bytes) : LoadBalancerAlgorithm :=
  if algorithm_overridden ps then port_algorithm ps else subset_algorithm lb name.

Definition port_subset_rr_counter (port : Z) (ps : PortLbState) : lane :=
  if algorithm_overridden ps then PortLane port else ParentLane.

Definition port_subset_wrr_state (lb : LoadBalancer) (port : Z) (ps : PortLbState) (name : bytes) : lane :=
  if algorithm_overridden ps then PortLane port else subset_wrr_state lb name.

Definition port_subset_hash_ring (lb : LoadBalancer) (ps : PortLbState) (name : bytes) : list (Z * nat) :=
  if algorithm_overridden ps then port_hash_ring ps else subset_hash_ring lb name.

Definition effective_algorithm (lb : LoadBalancer) (port : option Z) (name : option bytes) : LoadBalancerAlgorithm :=
  match (match port with Some p => port_overrides lb !! p | None => None end) with
  | Some ps =>
    if algorithm_overridden ps || bool_decide (name = None) then port_algorithm ps
    else match name with Some name => subset_algorithm lb name | None => algorithm lb end
  | None => match name with Some name => subset_algorithm lb name | None => algorithm lb end
  end.

Definition hash_on_strategy_for_selection (lb : LoadBalancer) (port : option Z) (name : option bytes) : HashOnStrategy :=
  let inherited :=
    match name with Some name => hash_on_strategy_for_subset lb name | None => hash_on_strategy lb end in
  match port ≫= fun p => port_overrides lb !! p with
  | None => inherited
  | Some ps =>
    if algorithm_overridden ps || bool_decide (name = None) then port_hash_on_strategy ps
    else
      match name, hash_on_override_strategy ps with
      | Some name, Some strategy => if bool_decide (subset_algorithm lb name = ConsistentHashing) then strategy else inherited
      | _, _ => inherited
      end
  end.

Definition parent_lane (lb : LoadBalancer) : lane_ref :=
  LaneRef (algorithm lb) ParentLane ParentLane (hash_ring lb) (parent_locality lb).

Definition subset_lane (lb : LoadBalancer) (name : bytes) : lane_ref :=
  LaneRef (subset_algorithm lb name) ParentLane (subset_wrr_state lb name) (subset_hash_ring lb name) (parent_locality lb).

Definition port_lane (lb : LoadBalancer) (port : Z) (ps : PortLbState) : lane_ref :=
  LaneRef (port_algorithm ps) (PortLane port) (PortLane port) (port_hash_ring ps) (port_locality lb port ps).

Definition port_subset_lane (lb : LoadBalancer) (port : Z) (ps : PortLbState) (name : bytes) : lane_ref :=
  LaneRef (port_subset_algorithm lb ps name) (port_subset_rr_counter port ps) (port_subset_wrr_state lb port ps name)
    (port_subset_hash_ring lb ps name) (port_locality lb port ps).

(** ** Scopes *)

Definition backend_host_matches_ip_family (h : bytes) (destination : IpAddr) : bool :=
  match parse_ip h with
  | Some ip => Bool.eqb (match canonical_ip ip with V4 _ => true | V6 _ => false end)
                 (match canonical_ip destination with V4 _ => true | V6 _ => false end)
  | None => true
  end.

Definition family_eligible (lb : LoadBalancer) (destination : IpAddr) (i : nat) : bool :=
  match targets (lb_pool lb) !! i with
  | Some t => backend_host_matches_ip_family (host t) destination
  | None => false
  end.

Definition family_eligibility_bitset (lb : LoadBalancer) (destination : IpAddr) : HealthBitset :=
  from_bits
    (foldl (fun bits i =>
              if negb (Z.of_nat i <? MAX_BITSET_TARGETS) then bits
              else if family_eligible lb destination i then Z.lor bits (bit i) else bits)
       0 (seq 0 (lb_size lb))).

Definition family_eligibility_indices (lb : LoadBalancer) (destination : IpAddr) : list nat :=
  List.filter (family_eligible lb destination) (seq 0 (lb_size lb)).

Definition membership_mask_for_indices (len : nat) (indices : list nat) : list bool :=
  foldl (fun mask idx => <[idx := true]> mask) (replicate len false) indices.

Definition subset_port_mask (subset port : list nat) : HealthBitset :=
  intersect (bitset_for_indices subset) (bitset_for_indices port).

Definition subset_port_intersection_vec (lb : LoadBalancer) (subset port : list nat) : list nat :=
  let port_mask := membership_mask_for_indices (lb_size lb) port in
  List.filter (fun idx => default false (port_mask !! idx)) subset.

(** A named subset with at least one target. *)
Definition nonempty_subset (lb : LoadBalancer) (name : bytes) : option (list nat) :=
  match subset_indices lb !! name with
  | Some [] => None
  | Some indices => Some indices
  | None => None
  end.

(** The targets of a list of indices, out-of-range ones skipped. *)
Definition existing (lb : LoadBalancer) (indices : list nat) : list nat :=
  List.filter (fun i => (i <? lb_size lb)%nat) indices.

(** ** Selection among a given candidate set *)

Section select.
Context {US : UnstableSort} {RS : RingSearch} (lb : LoadBalancer) (shard : nat) (locked : bool).

Definition pick_bitset (ctx_key : bytes) (healthy : HealthBitset) (l : lane_ref) (st : LbState) : option nat * LbState :=
  select_with_bitset_using (lb_pool lb) shard locked ctx_key healthy (lane_algorithm l) (lane_rr l) (lane_wrr l)
    (lane_ring l) (lane_locality l) st.

Definition pick_vec (ctx_key : bytes) (candidates : list nat) (l : lane_ref) (st : LbState) : option nat * LbState :=
  select_from_candidates_vec_using (lb_pool lb) shard locked ctx_key candidates (lane_algorithm l) (lane_rr l)
    (lane_wrr l) (lane_ring l) (lane_locality l) st.

Definition flagged (is_fallback : bool) (r : option nat * LbState) : option TargetSelection * LbState :=
  ((fun t => (t, is_fallback)) <$> r.1, r.2).

(** Prefer inside the scope, then pick; the preference may report degradation. *)
Definition prefer_bitset (ctx_key : bytes) (healthy scope : HealthBitset) (l : lane_ref) (failover : bool)
    (st : LbState) : option TargetSelection * LbState :=
  let '(healthy, degraded) :=
    preferred_locality_bitset (lb_tables lb) healthy scope (snd <$> lane_locality l) failover in
  flagged degraded (pick_bitset ctx_key healthy l st).

Definition prefer_vec (ctx_key : bytes) (healthy scope : list nat) (l : lane_ref) (failover : bool)
    (st : LbState) : option TargetSelection * LbState :=
  let '(healthy, degraded) :=
    preferred_locality_candidates (lb_tables lb) healthy scope (snd <$> lane_locality l) failover in
  flagged degraded (pick_vec ctx_key healthy l st).

(** Nobody in scope is healthy: the whole scope, flagged. *)
Definition degraded_bitset (ctx_key : bytes) (scope : HealthBitset) (l : lane_ref) (failover : bool)
    (st : LbState) : option TargetSelection * LbState :=
  let '(all, _) := preferred_locality_bitset (lb_tables lb) scope scope (snd <$> lane_locality l) failover in
  flagged true (pick_bitset ctx_key all l st).

Definition degraded_vec (ctx_key : bytes) (all scope : list nat) (l : lane_ref) (failover : bool)
    (st : LbState) : option TargetSelection * LbState :=
  let '(all, _) := preferred_locality_candidates (lb_tables lb) all scope (snd <$> lane_locality l) failover in
  flagged true (pick_vec ctx_key all l st).

(** ** First attempts *)

Definition select_vec_fallback (ctx_key : bytes) (health : option HealthContext) (st : LbState)
    : option TargetSelection * LbState :=
  let scope_indices := seq 0 (lb_size lb) in
  let healthy := healthy_targets_vec (lb_pool lb) health in
  if bool_decide (healthy = [])
  then degraded_vec ctx_key scope_indices scope_indices (parent_lane lb) (failover_enabled lb) st
  else prefer_vec ctx_key healthy scope_indices (parent_lane lb) (failover_enabled lb) st.

Definition select (ctx_key : bytes) (health : option HealthContext) (st : LbState) : option TargetSelection * LbState :=
  if (lb_size lb =? 0)%nat then (None, st)
  else if exceeds_bitset lb then select_vec_fallback ctx_key health st
  else
    let healthy := compute_health_bitset (lb_pool lb) health in
    let scope := all (lb_size lb) in
    if is_empty healthy then degraded_bitset ctx_key scope (parent_lane lb) (failover_enabled lb) st
    else prefer_bitset ctx_key healthy scope (parent_lane lb) (failover_enabled lb) st.

Definition select_matching_family_vec_fallback (ctx_key : bytes) (health : option HealthContext)
    (destination : IpAddr) (st : LbState) : option TargetSelection * LbState :=
  let scope_indices := family_eligibility_indices lb destination in
  if bool_decide (scope_indices = []) then (None, st)
  else
    let healthy := healthy_targets_vec_for_indices (lb_pool lb) health scope_indices in
    if bool_decide (healthy = [])
    then degraded_vec ctx_key (existing lb scope_indices) scope_indices (parent_lane lb) (failover_enabled lb) st
    else prefer_vec ctx_key healthy scope_indices (parent_lane lb) (failover_enabled lb) st.

Definition select_matching_family (ctx_key : bytes) (health : option HealthContext) (destination : IpAddr)
    (st : LbState) : option TargetSelection * LbState :=
  if (lb_size lb =? 0)%nat then (None, st)
  else if exceeds_bitset lb then select_matching_family_vec_fallback ctx_key health destination st
  else
    let family_scope := family_eligibility_bitset lb destination in
    if is_empty family_scope then (None, st)
    else
      let healthy := compute_health_bitset_for_mask (lb_pool lb) health family_scope in
      if is_empty healthy then degraded_bitset ctx_key family_scope (parent_lane lb) (failover_enabled lb) st
      else prefer_bitset ctx_key healthy family_scope (parent_lane lb) (failover_enabled lb) st.

Definition select_subset_vec_fallback (ctx_key name : bytes) (indices : list nat) (health : option HealthContext)
    (st : LbState) : option TargetSelection * LbState :=
  let subset_healthy := healthy_targets_vec_for_indices (lb_pool lb) health indices in
  if bool_decide (subset_healthy = []) then (None, st)
  else prefer_vec ctx_key subset_healthy indices (subset_lane lb name) (failover_enabled_for_subset lb name) st.

Definition select_from_subset (ctx_key name : bytes) (health : option HealthContext) (st : LbState)
    : option TargetSelection * LbState :=
  if (lb_size lb =? 0)%nat then (None, st)
  else
    match nonempty_subset lb name with
    | None => (None, st)
    | Some indices =>
      if exceeds_bitset lb then select_subset_vec_fallback ctx_key name indices health st
      else
        let subset_healthy := compute_health_bitset_for_indices (lb_pool lb) health indices in
        if is_empty subset_healthy then (None, st)
        else prefer_bitset ctx_key subset_healthy (bitset_for_indices indices) (subset_lane lb name)
               (failover_enabled_for_subset lb name) st
    end.

(** Healthy candidates of a port scope, or all of it, flagged. *)
Definition port_vec (ctx_key : bytes) (candidates all scope : list nat) (l : lane_ref) (failover : bool)
    (st : LbState) : option TargetSelection * LbState :=
  let is_fallback := bool_decide (candidates = []) in
  let candidates := if is_fallback then all else candidates in
  let '(candidates, degraded) :=
    preferred_locality_candidates (lb_tables lb) candidates scope (snd <$> lane_locality l) failover in
  flagged (is_fallback || degraded) (pick_vec ctx_key candidates l st).

Definition select_port_vec_fallback (ctx_key : bytes) (port : Z) (ps : PortLbState) (health : option HealthContext)
    (st : LbState) : option TargetSelection * LbState :=
  port_vec ctx_key (healthy_targets_vec_for_indices (lb_pool lb) health (target_indices ps)) (target_indices ps)
    (target_indices ps) (port_lane lb port ps) (port_failover_enabled ps) st.

Definition select_for_port (ctx_key : bytes) (port : Z) (health : option HealthContext) (st : LbState)
    : option TargetSelection * LbState :=
  match port_overrides lb !! port with
  | None => select ctx_key health st
  | Some ps =>
    if (lb_size lb =? 0)%nat || bool_decide (target_indices ps = []) then (None, st)
    else if exceeds_bitset lb then select_port_vec_fallback ctx_key port ps health st
    else
      let port_healthy := compute_health_bitset_for_indices (lb_pool lb) health (target_indices ps) in
      let port_scope := bitset_for_indices (target_indices ps) in
      if is_empty port_healthy
      then degraded_bitset ctx_key port_scope (port_lane lb port ps) (port_failover_enabled ps) st
      else prefer_bitset ctx_key port_healthy port_scope (port_lane lb port ps) (port_failover_enabled ps) st
  end.

Definition select_port_matching_family_vec_fallback (ctx_key : bytes) (port : Z) (ps : PortLbState)
    (health : option HealthContext) (destination : IpAddr) (st : LbState) : option TargetSelection * LbState :=
  let family_indices := family_eligibility_indices lb destination in
  if bool_decide (family_indices = []) then (None, st)
  else
    let scope_indices := subset_port_intersection_vec lb (target_indices ps) family_indices in
    if bool_decide (scope_indices = []) then (None, st)
    else
      port_vec ctx_key (healthy_targets_vec_for_indices (lb_pool lb) health scope_indices) (existing lb scope_indices)
        scope_indices (port_lane lb port ps) (port_failover_enabled ps) st.

Definition select_for_port_matching_family (ctx_key : bytes) (port : Z) (health : option HealthContext)
    (destination : IpAddr) (st : LbState) : option TargetSelection * LbState :=
  match port_overrides lb !! port with
  | None => select_matching_family ctx_key health destination st
  | Some ps =>
    if (lb_size lb =? 0)%nat || bool_decide (target_indices ps = []) then (None, st)
    else if exceeds_bitset lb then select_port_matching_family_vec_fallback ctx_key port ps health destination st
    else
      let family_scope := family_eligibility_bitset lb destination in
      if is_empty family_scope then (None, st)
      else
        let scope := intersect (bitset_for_indices (target_indices ps)) family_scope in
        if is_empty scope then (None, st)
        else
          let port_healthy := compute_health_bitset_for_mask (lb_pool lb) health scope in
          if is_empty port_healthy
          then degraded_bitset ctx_key scope (port_lane lb port ps) (port_failover_enabled ps) st
          else prefer_bitset ctx_key port_healthy scope (port_lane lb port ps) (port_failover_enabled ps) st
  end.

Definition select_port_subset_vec_fallback (ctx_key : bytes) (port : Z) (ps : PortLbState) (name : bytes)
    (indices : list nat) (health : option HealthContext) (st : LbState) : option TargetSelection * LbState :=
  let intersection := subset_port_intersection_vec lb indices (target_indices ps) in
  if bool_decide (intersection = []) then (None, st)
  else
    let candidates := healthy_targets_vec_for_indices (lb_pool lb) health intersection in
    if bool_decide (candidates = []) then (None, st)
    else prefer_vec ctx_key candidates intersection (port_subset_lane lb port ps name)
           (failover_enabled_for_port_subset lb ps name) st.

Definition select_for_port_from_subset (ctx_key : bytes) (port : Z) (name : bytes) (health : option HealthContext)
    (st : LbState) : option TargetSelection * LbState :=
  match port_overrides lb !! port with
  | None => select_from_subset ctx_key name health st
  | Some ps =>
    if (lb_size lb =? 0)%nat || bool_decide (target_indices ps = []) then (None, st)
    else
      match nonempty_subset lb name with
      | None => (None, st)
      | Some indices =>
        if exceeds_bitset lb then select_port_subset_vec_fallback ctx_key port ps name indices health st
        else
          let intersection := subset_port_mask indices (target_indices ps) in
          if is_empty intersection then (None, st)
          else
            let port_subset_healthy := compute_health_bitset_for_mask (lb_pool lb) health intersection in
            if is_empty port_subset_healthy then (None, st)
            else prefer_bitset ctx_key port_subset_healthy intersection (port_subset_lane lb port ps name)
                   (failover_enabled_for_port_subset lb ps name) st
      end
  end.
End select.
