(* ===== verification/LbRetry.v ===== *)
(** * Retry, sticky and pass-through selection ([src/src/load_balancer.rs])

    A retry selects like a first attempt, but without the target just tried and
    without targets the transport cannot reach; what was tried is identified
    either by the configured identity or by the endpoint and policy lane. Strict
    locality still looks at the lane before exclusion. A sticky token or a
    captured original destination names one target, which is used only when it
    belongs to the pool of the route and is healthy in it. *)

From S2P Require Import Prelude Decimal RuntimeKeys Upstream Net RouteTable HealthBitset WrrSelect PassiveHealth LbHealth LbLocality LbMetrics LbAlgorithms LbSelect.
#[local] Open Scope Z_scope.

(** ** Identity of a target *)

Definition same_sticky_identity_except_host (a b : UpstreamTarget) : bool :=
  (Upstream.port a =? Upstream.port b)
  && bool_decide (service_port_policy_key a = service_port_policy_key b)
  && bool_decide (locality a = locality b)
  && bool_decide (path a = path b)
  && bool_decide (tags a = tags b).

Definition same_sticky_identity (a b : UpstreamTarget) : bool :=
  eqb_bytes (host a) (host b) && same_sticky_identity_except_host a b.

Definition starts_with_wildcard (h : bytes) : bool :=
  match h with a :: b :: _ => (a =? 42) && (b =? 46) | _ => false end.

(** The loop of [configured_sticky_identity_target]. *)
Fixpoint configured_origin (ts : list UpstreamTarget) (served : UpstreamTarget) (wildcard_origin : option UpstreamTarget)
    : UpstreamTarget :=
  match ts with
  | [] => default served wildcard_origin
  | configured :: ts =>
    if negb (same_sticky_identity_except_host configured served) then configured_origin ts served wildcard_origin
    else if eqb_bytes (host configured) (host served) then configured
    else if bool_decide (wildcard_origin = None) && starts_with_wildcard (host configured)
            && wildcard_matches (host configured) (host served)
    then configured_origin ts served (Some configured)
    else configured_origin ts served wildcard_origin
  end.

Definition configured_sticky_identity_target (lb : LoadBalancer) (served : UpstreamTarget) : UpstreamTarget :=
  if negb (has_wildcard_host_target lb) || starts_with_wildcard (host served) then served
  else configured_origin (targets (lb_pool lb)) served None.

(** ** Retry filters *)

Inductive RetryExcludeContract := ConfiguredStickyIdentity | EffectiveEndpointLane.

Definition retry_exclude_matches (t exclude : UpstreamTarget) (contract : RetryExcludeContract) : bool :=
  match contract with
  | ConfiguredStickyIdentity => same_sticky_identity t exclude
  | EffectiveEndpointLane =>
    eqb_bytes (host t) (host exclude) && (Upstream.port t =? Upstream.port exclude)
    && (dispatch_policy_port t =? dispatch_policy_port exclude)
  end.

Record RetryCandidateFilter := Retry {
  exclude : UpstreamTarget;
  eligible : option (UpstreamTarget -> bool);
}.

Definition excluding (t : UpstreamTarget) : RetryCandidateFilter := Retry t None.
Definition excluding_eligible (t : UpstreamTarget) (e : UpstreamTarget -> bool) : RetryCandidateFilter := Retry t (Some e).

Definition is_hard_ineligible (f : RetryCandidateFilter) (t : UpstreamTarget) : bool :=
  match eligible f with Some e => negb (e t) | None => false end.

Definition excludes_retry (f : RetryCandidateFilter) (t : UpstreamTarget) (contract : RetryExcludeContract) : bool :=
  retry_exclude_matches t (exclude f) contract.

Definition rejects (f : RetryCandidateFilter) (t : UpstreamTarget) (contract : RetryExcludeContract) : bool :=
  excludes_retry f t contract || is_hard_ineligible f t.

(** [for (idx, target) in targets.iter().enumerate() { if test(target) { mask.clear(idx) } }]. *)
Definition clear_where (ts : list UpstreamTarget) (test : UpstreamTarget -> bool) (mask : HealthBitset) : HealthBitset :=
  foldl (fun mask '(idx, t) => if test t then clear mask idx else mask) mask (imap pair ts).

Definition split_retry_candidate_and_locality_scope_bitset (ts : list UpstreamTarget) (f : RetryCandidateFilter)
    (contract : RetryExcludeContract) (scope : HealthBitset) : HealthBitset * HealthBitset :=
  match eligible f with
  | None => (clear_where ts (fun t => excludes_retry f t contract) scope, scope)
  | Some _ => (clear_where ts (fun t => rejects f t contract) scope, clear_where ts (is_hard_ineligible f) scope)
  end.

Definition at_index (ts : list UpstreamTarget) (test : UpstreamTarget -> bool) (idx : nat) : bool :=
  match ts !! idx with Some t => test t | None => false end.

Definition build_eligible_retry_candidate_and_locality_scope_indices (ts : list UpstreamTarget)
    (f : RetryCandidateFilter) (contract : RetryExcludeContract) (scope_indices : list nat) : list nat * list nat :=
  foldl (fun '(candidates, locality_scope) idx =>
           (if at_index ts (fun t => rejects f t contract) idx then candidates else candidates ++ [idx],
            if at_index ts (is_hard_ineligible f) idx then locality_scope else locality_scope ++ [idx]))
    ([], []) scope_indices.

(** The two lists of a vector lane. *)
Definition split_retry_vec (ts : list UpstreamTarget) (f : RetryCandidateFilter) (contract : RetryExcludeContract)
    (scope_indices : list nat) : list nat * list nat :=
  match eligible f with
  | Some _ => build_eligible_retry_candidate_and_locality_scope_indices ts f contract scope_indices
  | None => (List.filter (fun idx => negb (at_index ts (fun t => rejects f t contract) idx)) scope_indices, scope_indices)
  end.

Section retry.
Context {US : UnstableSort} {RS : RingSearch} (lb : LoadBalancer) (shard : nat) (locked : bool).

Let ts := targets (lb_pool lb).

(** Candidates without the tried target, healthy, then preferred against the
    lane before exclusion; nothing left is a refusal. *)
Definition retry_bitset (ctx_key : bytes) (f : RetryCandidateFilter) (contract : RetryExcludeContract)
    (scope : HealthBitset) (health : option HealthContext) (l : lane_ref) (failover : bool) (st : LbState)
    : option nat * LbState :=
  let '(candidate_mask, locality_scope) := split_retry_candidate_and_locality_scope_bitset ts f contract scope in
  if is_empty candidate_mask then (None, st)
  else
    let healthy := compute_health_bitset_for_mask (lb_pool lb) health candidate_mask in
    if is_empty healthy then (None, st)
    else
      let '(healthy, _) :=
        preferred_locality_bitset (lb_tables lb) healthy locality_scope (snd <$> lane_locality l) failover in
      pick_bitset lb shard locked ctx_key healthy l st.

Definition retry_vec (ctx_key : bytes) (f : RetryCandidateFilter) (contract : RetryExcludeContract)
    (scope : list nat) (health : option HealthContext) (l : lane_ref) (failover : bool) (st : LbState)
    : option nat * LbState :=
  let '(candidate_indices, locality_scope) := split_retry_vec ts f contract scope in
  if bool_decide (candidate_indices = []) then (None, st)
  else
    let healthy := healthy_targets_vec_for_indices (lb_pool lb) health candidate_indices in
    if bool_decide (healthy = []) then (None, st)
    else
      let '(healthy, _) :=
        preferred_locality_candidates (lb_tables lb) healthy locality_scope (snd <$> lane_locality l) failover in
      pick_vec lb shard locked ctx_key healthy l st.

Definition select_excluding_with (ctx_key : bytes) (f : RetryCandidateFilter) (health : option HealthContext)
    (contract : RetryExcludeContract) (st : LbState) : option nat * LbState :=
  if (lb_size lb =? 0)%nat then (None, st)
  else if exceeds_bitset lb
  then retry_vec ctx_key f contract (seq 0 (lb_size lb)) health (parent_lane lb) (failover_enabled lb) st
  else retry_bitset ctx_key f contract (all (lb_size lb)) health (parent_lane lb) (failover_enabled lb) st.

Definition select_filtered (ctx_key : bytes) (f : RetryCandidateFilter) (health : option HealthContext) (st : LbState) :=
  select_excluding_with ctx_key f health ConfiguredStickyIdentity st.
Definition select_excluding (ctx_key : bytes) (t : UpstreamTarget) (health : option HealthContext) (st : LbState) :=
  select_filtered ctx_key (excluding t) health st.
Definition select_excluding_endpoint_lane (ctx_key : bytes) (t : UpstreamTarget) (health : option HealthContext)
    (st : LbState) := select_excluding_with ctx_key (excluding t) health EffectiveEndpointLane st.

Definition select_excluding_for_port_with (ctx_key : bytes) (port : Z) (f : RetryCandidateFilter)
    (health : option HealthContext) (contract : RetryExcludeContract) (st : LbState) : option nat * LbState :=
  match port_overrides lb !! port with
  | None => select_excluding_with ctx_key f health contract st
  | Some ps =>
    if (lb_size lb =? 0)%nat || bool_decide (target_indices ps = []) then (None, st)
    else if exceeds_bitset lb
    then retry_vec ctx_key f contract (target_indices ps) health (port_lane lb port ps) (port_failover_enabled ps) st
    else retry_bitset ctx_key f contract (bitset_for_indices (target_indices ps)) health (port_lane lb port ps)
           (port_failover_enabled ps) st
  end.

Definition select_filtered_for_port (ctx_key : bytes) (port : Z) (f : RetryCandidateFilter)
    (health : option HealthContext) (st : LbState) :=
  select_excluding_for_port_with ctx_key port f health ConfiguredStickyIdentity st.
Definition select_excluding_for_port (ctx_key : bytes) (port : Z) (t : UpstreamTarget) (health : option HealthContext)
    (st : LbState) := select_filtered_for_port ctx_key port (excluding t) health st.
Definition select_excluding_for_port_endpoint_lane (ctx_key : bytes) (port : Z) (t : UpstreamTarget)
    (health : option HealthContext) (st : LbState) :=
  select_excluding_for_port_with ctx_key port (excluding t) health EffectiveEndpointLane st.

Definition select_excluding_from_subset_with (ctx_key name : bytes) (f : RetryCandidateFilter)
    (health : option HealthContext) (contract : RetryExcludeContract) (st : LbState) : option nat * LbState :=
  if (lb_size lb =? 0)%nat then (None, st)
  else
    match nonempty_subset lb name with
    | None => (None, st)
    | Some indices =>
      if exceeds_bitset lb
      then retry_vec ctx_key f contract indices health (subset_lane lb name) (failover_enabled_for_subset lb name) st
      else retry_bitset ctx_key f contract (bitset_for_indices indices) health (subset_lane lb name)
             (failover_enabled_for_subset lb name) st
    end.

Definition select_filtered_from_subset (ctx_key name : bytes) (f : RetryCandidateFilter)
    (health : option HealthContext) (st : LbState) :=
  select_excluding_from_subset_with ctx_key name f health ConfiguredStickyIdentity st.
Definition select_excluding_from_subset (ctx_key name : bytes) (t : UpstreamTarget) (health : option HealthContext)
    (st : LbState) := select_filtered_from_subset ctx_key name (excluding t) health st.
Definition select_excluding_from_subset_endpoint_lane (ctx_key name : bytes) (t : UpstreamTarget)
    (health : option HealthContext) (st : LbState) :=
  select_excluding_from_subset_with ctx_key name (excluding t) health EffectiveEndpointLane st.

Definition select_excluding_for_port_from_subset_with (ctx_key : bytes) (port : Z) (name : bytes)
    (f : RetryCandidateFilter) (health : option HealthContext) (contract : RetryExcludeContract) (st : LbState)
    : option nat * LbState :=
  match port_overrides lb !! port with
  | None => select_excluding_from_subset_with ctx_key name f health contract st
  | Some ps =>
    if (lb_size lb =? 0)%nat || bool_decide (target_indices ps = []) then (None, st)
    else
      match nonempty_subset lb name with
      | None => (None, st)
      | Some indices =>
        if exceeds_bitset lb
        then retry_vec ctx_key f contract (subset_port_intersection_vec lb indices (target_indices ps)) health
               (port_subset_lane lb port ps name) (failover_enabled_for_port_subset lb ps name) st
        else retry_bitset ctx_key f contract (subset_port_mask indices (target_indices ps)) health
               (port_subset_lane lb port ps name) (failover_enabled_for_port_subset lb ps name) st
      end
  end.

Definition select_filtered_for_port_from_subset (ctx_key : bytes) (port : Z) (name : bytes) (f : RetryCandidateFilter)
    (health : option HealthContext) (st : LbState) :=
  select_excluding_for_port_from_subset_with ctx_key port name f health ConfiguredStickyIdentity st.
Definition select_excluding_for_port_from_subset (ctx_key : bytes) (port : Z) (name : bytes) (t : UpstreamTarget)
    (health : option HealthContext) (st : LbState) :=
  select_filtered_for_port_from_subset ctx_key port name (excluding t) health st.
Definition select_excluding_for_port_from_subset_endpoint_lane (ctx_key : bytes) (port : Z) (name : bytes)
    (t : UpstreamTarget) (health : option HealthContext) (st : LbState) :=
  select_excluding_for_port_from_subset_with ctx_key port name (excluding t) health EffectiveEndpointLane st.

(** ** Naming a target *)

Definition candidate_pool_indices (port : option Z) (name : option bytes) : option (option (list nat) * option (list nat)) :=
  let port_indices := target_indices <$> (port ≫= fun p => port_overrides lb !! p) in
  let subset_indices := name ≫= nonempty_subset lb in
  if bool_decide (name <> None) && bool_decide (subset_indices = None) then None
  else Some (subset_indices, port_indices).

Definition index_healthy_in_pool (idx : nat) (subset port : option (list nat)) (health : option HealthContext) : bool :=
  if exceeds_bitset lb then
    bool_decide (idx ∈
      match subset, port with
      | Some s, Some p => healthy_targets_vec_for_indices (lb_pool lb) health (subset_port_intersection_vec lb s p)
      | Some indices, None | None, Some indices => healthy_targets_vec_for_indices (lb_pool lb) health indices
      | None, None => healthy_targets_vec (lb_pool lb) health
      end)
  else
    contains
      match subset, port with
      | Some s, Some p => compute_health_bitset_for_mask (lb_pool lb) health (subset_port_mask s p)
      | Some indices, None | None, Some indices => compute_health_bitset_for_indices (lb_pool lb) health indices
      | None, None => compute_health_bitset (lb_pool lb) health
      end idx.

Definition in_slice (idx : nat) (slice : option (list nat)) : bool :=
  match slice with Some indices => bool_decide (idx ∈ indices) | None => true end.

Definition STICKY_SESSION_TOKEN_LEN : nat := 64.

Definition is_sticky_session_token (value : bytes) : bool :=
  (length value =? STICKY_SESSION_TOKEN_LEN)%nat
  && forallb (fun b => is_ascii_digit b || ((97 <=? b) && (b <=? 102))) value.

Definition select_sticky (token : bytes) (port : option Z) (name : option bytes) (health : option HealthContext)
    : option nat :=
  if bool_decide (sticky_token_index lb = ∅) || negb (is_sticky_session_token token) then None
  else
    match sticky_token_index lb !! token with
    | None => None
    | Some idx =>
      match candidate_pool_indices port name with
      | None => None
      | Some (subset, port) =>
        if negb (in_slice idx port) || negb (in_slice idx subset) then None
        else if negb (index_healthy_in_pool idx subset port health) then None
        else Some idx
      end
    end.

Definition passthrough_match (orig_dst : SocketAddr) (subset port : option (list nat)) (idx : nat) : bool :=
  in_slice idx port && in_slice idx subset
  && match ts !! idx with
     | Some t =>
       (Upstream.port t =? Net.port orig_dst)
       && match parse_ip (host t) with
          | Some ip => bool_decide (canonical_ip ip = canonical_ip (Net.ip orig_dst))
          | None => false
          end
     | None => false
     end.

Definition select_passthrough (orig_dst : SocketAddr) (port : option Z) (name : option bytes)
    (health : option HealthContext) : option nat :=
  if (lb_size lb =? 0)%nat then None
  else
    match candidate_pool_indices port name with
    | None => None
    | Some (subset, port) =>
      match List.find (passthrough_match orig_dst subset port) (seq 0 (lb_size lb)) with
      | None => None
      | Some idx => if index_healthy_in_pool idx subset port health then Some idx else None
      end
    end.
End retry.
