(* ===== verification/LbSelectSpec.v ===== *)
(** * What target selection guarantees ([src/src/load_balancer.rs])

    An abstract specification of the selectors: a scope (the targets the route
    may use), whether an all-unhealthy scope may still be served, and the
    outcome. Every selector implements it, on both paths. *)

From Stdlib Require Import Sorted.
From stdpp Require Import sorting.
From S2P Require Import Prelude Decimal RuntimeKeys Upstream Net HealthBitset SmoothWrr WrrSelect PassiveHealth LbHealth LbLocality LbMetrics LbAlgorithms LbDispatch LbSelect LbRetry.
#[local] Open Scope Z_scope.

(** ** The health filter, restricted to a scope *)

Lemma srv_sublist p l : sublist (filter_srv_priority_vec p l) l.
Proof.
  unfold filter_srv_priority_vec. destruct (srv_priorities p); [done|]. destruct l as [|x l]; [done|].
  destruct (_ =? _); [done|]. apply filter_sublist.
Qed.

Section filter_scope.
Context {US : UnstableSort} {UL : UnstableSortLaws US}.

Lemma healthy_whole p health :
  healthy_targets_vec p health = healthy_targets_vec_for_indices p health (seq 0 (length (targets p))).
Proof.
  unfold healthy_targets_vec, healthy_targets_vec_for_indices. rewrite length_seq.
  assert (Hr : Forall (fun i => i < length (targets p))%nat (seq 0 (length (targets p))))
    by (apply Forall_forall; intros i Hi%elem_of_seq; lia).
  rewrite filter_in_range by done. destruct health; [|done]. by rewrite scan_in_range_spec.
Qed.

Lemma healthy_in_scope p health idxs :
  StronglySorted lt idxs -> Forall (fun i => i < length (targets p))%nat idxs ->
  let v := healthy_targets_vec_for_indices p health idxs in
  StronglySorted lt v /\ v ⊆ idxs
  /\ (forall h i, health = Some h -> i ∈ v -> actively_unhealthy p h i = false).
Proof.
  intros Hs Hr. unfold healthy_targets_vec_for_indices. rewrite filter_in_range by done.
  destruct health as [h|].
  - rewrite scan_in_range_spec by done.
    destruct (readmit_vec_spec p h idxs (length idxs) Hs) as [Hv Hi].
    set (v := readmit_vec _ _ _) in *. assert (Hsub := srv_sublist p v).
    assert (Hin : forall i, i ∈ filter_srv_priority_vec p v -> i ∈ v) by (intros i Hx; by eapply elem_of_sublist).
    assert (Hsv : forall i, survives p h idxs (length idxs) i -> i ∈ idxs /\ actively_unhealthy p h i = false).
    { intros i [[Hin' Hk]|Hre].
      - split; [done|]. unfold keeps in Hk. apply andb_true_iff in Hk as [Hk _]. by apply negb_true_iff in Hk.
      - apply readmitted_elem in Hre. apply list_elem_of_fmap in Hre as ([j t] & -> & Hj).
        by apply elem_of_ejections in Hj as (? & ? & _). }
    split; [by eapply ascending_sublist|]. split.
    + intros i Hx. by apply Hsv, Hi, Hin.
    + intros h' i [= <-] Hx. by apply Hsv, Hi, Hin.
  - assert (Hsub := srv_sublist p idxs). split; [by eapply ascending_sublist|]. split; [|done].
    intros i Hx. by eapply elem_of_sublist.
Qed.
End filter_scope.

(** ** Well-formed balancers *)

(** A scope: ascending indices of targets. *)
Definition scope_ok (n : nat) (l : list nat) : Prop := StronglySorted lt l /\ Forall (fun i => i < n)%nat l.

(** The lanes selections run on. *)
Inductive lane_used (lb : LoadBalancer) : lane_ref -> Prop :=
| used_parent : lane_used lb (parent_lane lb)
| used_subset name : is_Some (nonempty_subset lb name) -> lane_used lb (subset_lane lb name)
| used_port port ps : port_overrides lb !! port = Some ps -> lane_used lb (port_lane lb port ps)
| used_port_subset port ps name :
    port_overrides lb !! port = Some ps -> is_Some (nonempty_subset lb name) ->
    lane_used lb (port_subset_lane lb port ps name).

Record lb_ok (lb : LoadBalancer) : Prop := {
  lb_count : target_count (lb_tables lb) = lb_size lb;
  lb_ranks : forall i, 0 <= locality_rank (lb_tables lb) i;
  lb_weights : Forall is_u32 (weights (lb_pool lb));
  lb_len : Z.of_nat (lb_size lb) < 2 ^ 32;
  lb_subsets : forall name l, subset_indices lb !! name = Some l -> scope_ok (lb_size lb) l;
  lb_ports : forall port ps, port_overrides lb !! port = Some ps -> scope_ok (lb_size lb) (target_indices ps);
  lb_rings : forall l, lane_used lb l -> ring_ok (lb_size lb) (lane_ring l)
                       /\ ((0 < lb_size lb)%nat -> lane_algorithm l = ConsistentHashing -> lane_ring l <> []);
  lb_localities : forall l, lane_used lb l -> locality_ok (lb_size lb) (lane_locality l);
  lb_sticky : forall token i, sticky_token_index lb !! token = Some i -> (i < lb_size lb)%nat;
}.

(** The mutable state: measurements in range, weighted round robin lanes alive. *)
Record state_ok (lb : LoadBalancer) (st : LbState) : Prop := {
  st_metrics : metrics_ok (metrics st);
  st_lanes : forall l, (0 < lb_size lb)%nat -> lane_used lb l -> lane_algorithm l = WeightedRoundRobin ->
             lane_ok (weights (lb_pool lb)) (wrr_states st (lane_wrr l));
}.

Lemma state_kept lb st st' : lanes_kept (weights (lb_pool lb)) st st' -> state_ok lb st -> state_ok lb st'.
Proof.
  intros [Hm Hk] [H1 H2]. constructor; [by rewrite Hm|]. intros l Hn Hu Ha. by apply Hk, H2.
Qed.

(** ** The specification *)

Section spec.
Context {US : UnstableSort} {UL : UnstableSortLaws US} {RS : RingSearch} {RL : RingSearchLaws RS}.
Context (lb : LoadBalancer) (shard : nat) (locked : bool).
Hypothesis ok : lb_ok lb.

Let n := lb_size lb.
Let tables := lb_tables lb.

(** Strict locality refuses to leave the cluster: a local target although none
    of the healthy candidates is local. *)
Definition stays_local (healthy : list nat) (t : nat) : Prop :=
  locality_lb_strict tables = true /\ is_local tables t = true /\ (forall i, i ∈ healthy -> is_local tables i = false).

Definition selection_spec (scope healthy : list nat) (may_degrade : bool) (r : option TargetSelection) : Prop :=
  match r with
  | None => scope = [] \/ (healthy = [] /\ may_degrade = false)
  | Some (t, is_fallback) =>
    t ∈ scope /\ (is_fallback = false -> t ∈ healthy)
    /\ (is_fallback = true -> healthy = [] /\ may_degrade = true \/ stays_local healthy t)
  end.

Lemma scope_len l : scope_ok n l -> Z.of_nat (length l) < 2 ^ 32.
Proof.
  intros [Hs Hr]. assert (Hle : (length l <= n)%nat); [|assert (H := lb_len _ ok); fold n in H; lia].
  rewrite <- (length_seq n 0). apply submseteq_length, NoDup_submseteq; [by apply ascending_nodup|].
  intros i Hi. apply elem_of_seq. rewrite Forall_forall in Hr. specialize (Hr i Hi). lia.
Qed.

Lemma scope_pos c : c <> [] -> Forall (fun i => i < n)%nat c -> (0 < n)%nat.
Proof. intros Hne Hr. destruct c as [|i c]; [done|]. apply Forall_cons in Hr as [Hi _]. lia. Qed.

Lemma lane_is_ready l st : (0 < n)%nat -> lane_used lb l -> state_ok lb st ->
  lane_ready (weights (lb_pool lb)) (lane_algorithm l) (lane_wrr l) (lane_ring l) st.
Proof. intros Hn Hl Hst. split; [by apply Hst|by apply (lb_rings _ ok)]. Qed.

Lemma pick_vec_total key l c st :
  c <> [] -> scope_ok n c -> lane_used lb l -> state_ok lb st ->
  exists t st', pick_vec lb shard locked key c l st = (Some t, st') /\ t ∈ c /\ state_ok lb st'.
Proof.
  intros Hne Hc Hl Hst. unfold pick_vec.
  destruct (dispatch_vec_total (lb_pool lb) shard locked key c (lane_algorithm l) (lane_rr l) (lane_wrr l) (lane_ring l)
    (lane_locality l) st) as (t & st' & Ht & Hin & Hk);
    [done|apply Hc|by apply scope_len|apply ok|by apply lane_is_ready; [eapply scope_pos, Hc|..]|apply Hst|].
  exists t, st'. split; [done|]. split; [done|]. by eapply state_kept.
Qed.

Lemma pick_bitset_total key l b c st :
  (n <= 128)%nat -> denotes n b c -> c <> [] -> lane_used lb l -> state_ok lb st ->
  exists t st', pick_bitset lb shard locked key b l st = (Some t, st') /\ t ∈ c /\ state_ok lb st'.
Proof.
  intros Hn Hd Hne Hl Hst. assert (Hpos := scope_pos c Hne (proj2 (proj2 Hd))). unfold pick_bitset.
  destruct (dispatch_bitset_total (lb_pool lb) shard locked Hn key b c (lane_algorithm l) (lane_rr l) (lane_wrr l)
    (lane_ring l) (lane_locality l) st) as (t & st' & Ht & Hin & Hk);
    [done|done|apply ok|by apply (lb_rings _ ok)|by apply (lb_localities _ ok)|by apply lane_is_ready|apply Hst|].
  exists t, st'. split; [done|]. split; [done|]. by eapply state_kept.
Qed.

(** What the preference hands to the pick. *)
Lemma preferred_scope healthy scope lr fe :
  healthy <> [] -> healthy ⊆ scope -> scope_ok n healthy -> scope_ok n scope ->
  let '(pr, d) := preferred_locality_candidates tables healthy scope lr fe in
  pr <> [] /\ scope_ok n pr /\ pr ⊆ scope
  /\ (d = false -> pr ⊆ healthy) /\ (d = true -> forall t, t ∈ pr -> stays_local healthy t).
Proof.
  intros Hne Hsub [Hh _] [Hs Hr].
  assert (Hc := preferred_choice_safe tables healthy scope lr fe (lb_ranks _ ok) Hne Hsub).
  assert (Ha := preferred_ascending tables healthy scope lr fe (lb_ranks _ ok) Hh Hs).
  destruct (preferred_locality_candidates tables healthy scope lr fe) as [pr d].
  destruct Hc as (H1 & H2 & H3 & H4 & _). split; [done|]. split; [|split; [done|split; [done|]]].
  - split; [done|]. rewrite Forall_forall in *. intros i Hi. by apply Hr, H2.
  - intros Hd t Ht. destruct (H4 Hd) as (A & B & C). split; [done|]. split; [by apply B|done].
Qed.

(** The outcome of preferring and picking, on either path. *)
Definition picked (scope healthy : list nat) (r : option TargetSelection * LbState) : Prop :=
  exists t d st', r = (Some (t, d), st') /\ t ∈ scope /\ (d = false -> t ∈ healthy)
    /\ (d = true -> stays_local healthy t) /\ state_ok lb st'.

Lemma prefer_vec_picks key healthy scope l fe st :
  healthy <> [] -> healthy ⊆ scope -> scope_ok n healthy -> scope_ok n scope -> lane_used lb l -> state_ok lb st ->
  picked scope healthy (prefer_vec lb shard locked key healthy scope l fe st).
Proof.
  intros Hne Hsub Hh Hs Hl Hst. unfold prefer_vec.
  assert (Hp := preferred_scope healthy scope (snd <$> lane_locality l) fe Hne Hsub Hh Hs). fold tables.
  destruct (preferred_locality_candidates tables healthy scope _ fe) as [pr d].
  destruct Hp as (Hpne & Hpok & Hps & Hdf & Hdt).
  destruct (pick_vec_total key l pr st Hpne Hpok Hl Hst) as (t & st' & Ht & Hin & Hst').
  exists t, d, st'. unfold flagged. rewrite Ht. split; [done|]. split; [by apply Hps|].
  split; [intros ->; by apply Hdf|]. split; [intros ->; by apply Hdt|done].
Qed.

Lemma prefer_bitset_picks key hb sb healthy scope l fe st :
  (n <= 128)%nat -> denotes n hb healthy -> denotes n sb scope ->
  healthy <> [] -> healthy ⊆ scope -> lane_used lb l -> state_ok lb st ->
  picked scope healthy (prefer_bitset lb shard locked key hb sb l fe st).
Proof.
  intros Hn Hdh Hds Hne Hsub Hl Hst. unfold prefer_bitset.
  assert (Hok : forall b c, denotes n b c -> scope_ok n c)
    by (intros b c (Hw & <- & Hr); split; [apply members_sorted; apply Hw|done]).
  assert (Hp := preferred_scope healthy scope (snd <$> lane_locality l) fe Hne Hsub (Hok _ _ Hdh) (Hok _ _ Hds)).
  assert (Ha := preferred_agree tables hb sb healthy scope (snd <$> lane_locality l) fe).
  unfold tables in *. rewrite (lb_count _ ok) in Ha. specialize (Ha Hn (lb_ranks _ ok) Hdh Hds).
  destruct (preferred_locality_bitset (lb_tables lb) hb sb _ fe) as [pb pd].
  destruct (preferred_locality_candidates (lb_tables lb) healthy scope _ fe) as [pr d].
  destruct Ha as [Hd Hdeg]. cbn [fst snd] in *. subst d.
  destruct Hp as (Hpne & Hpok & Hps & Hdf & Hdt).
  destruct (pick_bitset_total key l pb pr st Hn Hd Hpne Hl Hst) as (t & st' & Ht & Hin & Hst').
  exists t, pd, st'. unfold flagged. rewrite Ht. split; [done|]. split; [by apply Hps|].
  split; [intros ->; by apply Hdf|]. split; [intros ->; by apply Hdt|done].
Qed.

(** ** Serving a scope *)

Definition outcome (scope healthy : list nat) (may_degrade : bool) (r : option TargetSelection * LbState) : Prop :=
  selection_spec scope healthy may_degrade r.1 /\ state_ok lb r.2.

Lemma picked_outcome scope healthy may r : picked scope healthy r -> outcome scope healthy may r.
Proof.
  intros (t & d & st' & -> & Hin & Hf & Ht & Hst). split; [|done]. cbn. split; [done|]. split; [done|].
  intros Hd. right. by apply Ht.
Qed.

Lemma refused scope healthy may st :
  scope = [] \/ healthy = [] /\ may = false -> state_ok lb st -> outcome scope healthy may (None, st).
Proof. by split. Qed.

(** Degraded selection is selection from the scope itself, flagged. *)
Lemma degraded_outcome scope r r' :
  picked scope scope r -> r' = (match r.1 with Some (t, _) => Some (t, true) | None => None end, r.2) ->
  outcome scope [] true r'.
Proof.
  intros (t & d & st' & -> & Hin & _ & _ & Hst) ->. split; [|done]. cbn. split; [done|]. split; [done|]. by left.
Qed.

Lemma degraded_vec_flags key scope l fe st :
  let r := prefer_vec lb shard locked key scope scope l fe st in
  degraded_vec lb shard locked key scope scope l fe st
  = (match r.1 with Some (t, _) => Some (t, true) | None => None end, r.2).
Proof.
  cbn zeta. unfold degraded_vec, prefer_vec, flagged.
  destruct (preferred_locality_candidates _ scope scope _ fe) as [pr d]. by destruct (pick_vec _ _ _ _ _ _ _) as [[t|] st'].
Qed.

Lemma degraded_bitset_flags key sb l fe st :
  let r := prefer_bitset lb shard locked key sb sb l fe st in
  degraded_bitset lb shard locked key sb l fe st
  = (match r.1 with Some (t, _) => Some (t, true) | None => None end, r.2).
Proof.
  cbn zeta. unfold degraded_bitset, prefer_bitset, flagged.
  destruct (preferred_locality_bitset _ sb sb _ fe) as [pr d]. by destruct (pick_bitset _ _ _ _ _ _ _) as [[t|] st'].
Qed.

Lemma serve_vec key scope healthy l fe may st :
  scope_ok n scope -> scope_ok n healthy -> healthy ⊆ scope -> scope <> [] -> lane_used lb l -> state_ok lb st ->
  outcome scope healthy may
    (if bool_decide (healthy = [])
     then (if may : bool then degraded_vec lb shard locked key scope scope l fe st else (None, st))
     else prefer_vec lb shard locked key healthy scope l fe st).
Proof.
  intros Hs Hh Hsub Hne Hl Hst. case_bool_decide as He.
  - subst. destruct may; [|apply refused; [by right|done]].
    eapply degraded_outcome; [|apply degraded_vec_flags]. by apply prefer_vec_picks.
  - apply picked_outcome. by apply prefer_vec_picks.
Qed.

Lemma serve_bitset key sb hb scope healthy l fe may st :
  (n <= 128)%nat -> denotes n sb scope -> denotes n hb healthy -> healthy ⊆ scope -> scope <> [] ->
  lane_used lb l -> state_ok lb st ->
  outcome scope healthy may
    (if is_empty hb
     then (if may : bool then degraded_bitset lb shard locked key sb l fe st else (None, st))
     else prefer_bitset lb shard locked key hb sb l fe st).
Proof.
  intros Hn Hs Hh Hsub Hne Hl Hst. rewrite (denotes_empty _ _ _ Hh). case_bool_decide as He.
  - subst. destruct may; [|apply refused; [by right|done]].
    eapply degraded_outcome; [|apply degraded_bitset_flags]. by apply prefer_bitset_picks.
  - apply picked_outcome. by apply prefer_bitset_picks.
Qed.

Lemma port_vec_serves key candidates scope l fe st :
  port_vec lb shard locked key candidates scope scope l fe st
  = if bool_decide (candidates = []) then degraded_vec lb shard locked key scope scope l fe st
    else prefer_vec lb shard locked key candidates scope l fe st.
Proof.
  unfold port_vec, degraded_vec, prefer_vec. case_bool_decide; cbn [orb];
    by destruct (preferred_locality_candidates _ _ scope _ fe).
Qed.
End spec.

(** ** Scopes as bitsets *)

Lemma denotes_scope n b l : denotes n b l -> scope_ok n l.
Proof. intros (Hw & <- & Hr). split; [apply members_sorted; apply Hw|done]. Qed.

Lemma denotes_all n : (n <= 128)%nat -> denotes n (all n) (seq 0 n).
Proof.
  intros Hn. destruct (all_spec n Hn) as [Hw He]. split; [done|]. split; [done|].
  apply Forall_forall. intros i Hi%elem_of_seq. lia.
Qed.

Lemma denotes_indices n l : (n <= 128)%nat -> scope_ok n l -> denotes n (bitset_for_indices l) l.
Proof.
  intros Hn [Hs Hr]. destruct (bitset_for_indices_spec l) as [Hw He]; [by apply ascending_nodup| |].
  { eapply Forall_impl; [exact Hr|]. simpl. lia. }
  split; [done|]. split; [|done]. by apply sorted_ext; [apply members_sorted; apply Hw|done|].
Qed.

Definition within (l : list nat) (i : nat) : bool := bool_decide (i ∈ l).

Lemma denotes_intersect n a b l k :
  denotes n a l -> denotes n b k -> denotes n (intersect a b) (List.filter (within k) l).
Proof.
  intros (Hwa & Ha & Hra) (Hwb & Hb & _). destruct (intersect_spec a b Hwa Hwb) as [Hw He].
  split; [done|]. split.
  - apply sorted_ext; [apply members_sorted; apply Hw| |].
    + eapply ascending_sublist; [apply filter_sublist|]. rewrite <- Ha. apply members_sorted; apply Hwa.
    + intros i. rewrite He, filter_elem, Ha, Hb. unfold within. by rewrite bool_decide_eq_true.
  - rewrite Forall_forall in *. intros i [Hi _]%filter_elem. by apply Hra.
Qed.

Lemma membership_lookup len indices i :
  default false (membership_mask_for_indices len indices !! i) = (i <? len)%nat && within indices i.
Proof.
  unfold membership_mask_for_indices, within.
  assert (H : forall mask : list bool, foldl (fun mask idx => <[idx := true]> mask) mask indices !! i
    = if bool_decide (i ∈ indices) && (i <? length mask)%nat then Some true else mask !! i).
  { induction indices as [|x l IH]; intros mask; [done|]. cbn [foldl]. rewrite IH, length_insert.
    destruct (decide (i = x)) as [->|Hne].
    - rewrite (bool_decide_true (x ∈ x :: l)) by left. cbn [andb].
      destruct (Nat.ltb_spec x (length mask)).
      + rewrite andb_true_r. case_bool_decide; [done|]. by rewrite list_lookup_insert, decide_True by (by split).
      + rewrite andb_false_r, (list_insert_ge mask x) by lia. done.
    - rewrite list_lookup_insert_ne by done.
      by rewrite (bool_decide_ext (i ∈ x :: l) (i ∈ l)) by (rewrite elem_of_cons; tauto). }
  rewrite H, length_replicate. destruct (Nat.ltb_spec i len).
  - rewrite andb_true_r. cbn. case_bool_decide; [done|]. by rewrite lookup_replicate_2.
  - rewrite andb_false_r. cbn. by rewrite lookup_ge_None_2 by (rewrite length_replicate; lia).
Qed.

Lemma intersection_vec_spec lb l k :
  scope_ok (lb_size lb) l -> subset_port_intersection_vec lb l k = List.filter (within k) l.
Proof.
  intros [_ Hr]. unfold subset_port_intersection_vec. apply List.filter_ext_in. intros i Hi%list_elem_of_In.
  rewrite membership_lookup. rewrite Forall_forall in Hr. by rewrite (proj2 (Nat.ltb_lt _ _) (Hr i Hi)).
Qed.

Lemma set_bits_spec (f : nat -> bool) k : (k <= 128)%nat ->
  let r := foldl (fun bits i => if negb (Z.of_nat i <? MAX_BITSET_TARGETS) then bits
                                else if f i then Z.lor bits (bit i) else bits) 0 (seq 0 k) in
  0 <= r < 2 ^ Z.of_nat k /\ forall i, i ∈ members r <-> (i < k)%nat /\ f i = true.
Proof.
  intros Hk. cbn zeta. induction k as [|k IH]; [split; [done|]; intros i; rewrite elem_of_nil; lia|].
  rewrite seq_S, foldl_app. cbn [foldl Nat.add]. destruct IH as [Hr Hm]; [lia|]. set (r := foldl _ 0 (seq 0 k)) in *.
  rewrite (proj2 (Z.ltb_lt _ _)) by (unfold MAX_BITSET_TARGETS; lia). cbn [negb].
  assert (Hp : 2 ^ Z.of_nat (S k) = 2 * 2 ^ Z.of_nat k) by (rewrite Nat2Z.inj_succ, Z.pow_succ_r; lia).
  assert (Hcase : forall i, (i < S k)%nat /\ f i = true <-> ((i < k)%nat /\ f i = true) \/ (i = k /\ f i = true))
    by (intros i; split; [intros [Ha Hb]; destruct (decide (i = k)); [by right|left; split; [lia|done]]|
        intros [[Ha Hb]|[Ha Hb]]; (split; [lia|done])]).
  destruct (f k) eqn:Ef.
  - rewrite bit_spec by lia. replace (Z.lor r (2 ^ Z.of_nat k)) with (1 * 2 ^ Z.of_nat k + r)
      by (rewrite <- lor_disjoint, Z.mul_1_l by lia; apply Z.lor_comm).
    split; [lia|]. intros i. rewrite Hcase, <- Hm, !members_spec by lia.
    replace (1 * 2 ^ Z.of_nat k + r) with (Z.lor r (2 ^ Z.of_nat k))
      by (rewrite <- lor_disjoint, Z.mul_1_l by lia; symmetry; apply Z.lor_comm).
    rewrite Z.lor_spec, orb_true_iff, Z.pow2_bits_eqb, Z.eqb_eq by lia.
    split; intros [?|?]; try tauto; right; [split; [lia|]|lia]. assert (i = k) as -> by lia. done.
  - split; [lia|]. intros i. rewrite Hm, Hcase. split; [tauto|]. intros [?|[-> ?]]; [done|congruence].
Qed.

Lemma denotes_family lb d : (lb_size lb <= 128)%nat ->
  denotes (lb_size lb) (family_eligibility_bitset lb d) (family_eligibility_indices lb d).
Proof.
  intros Hn. unfold family_eligibility_bitset, family_eligibility_indices.
  destruct (set_bits_spec (family_eligible lb d) (lb_size lb) Hn) as [Hr Hm].
  set (r := foldl _ 0 (seq 0 (lb_size lb))) in *.
  assert (Hw : bitset_wf (from_bits r)).
  { apply from_bits_wf. assert (2 ^ Z.of_nat (lb_size lb) <= 2 ^ 128) by (apply Z.pow_le_mono_r; lia). lia. }
  split; [done|]. split.
  - apply sorted_ext; [apply members_sorted; apply Hw| |].
    + eapply ascending_sublist; [apply filter_sublist|apply seq_ascending].
    + intros i. rewrite filter_elem, elem_of_seq. etransitivity; [apply Hm|]. split; intros []; split; lia || done.
  - apply Forall_forall. intros i [Hi%elem_of_seq _]%filter_elem. lia.
Qed.

(** ** The selectors *)

Inductive request :=
| Whole
| InFamily (destination : IpAddr)
| InSubset (name : bytes)
| OnPort (port : Z)
| OnPortInFamily (port : Z) (destination : IpAddr)
| OnPortInSubset (port : Z) (name : bytes).

Definition run_request {US : UnstableSort} {RS : RingSearch} (lb : LoadBalancer) (shard : nat) (locked : bool)
    (ctx_key : bytes) (req : request) (health : option HealthContext) (st : LbState)
    : option TargetSelection * LbState :=
  match req with
  | Whole => select lb shard locked ctx_key health st
  | InFamily d => select_matching_family lb shard locked ctx_key health d st
  | InSubset name => select_from_subset lb shard locked ctx_key name health st
  | OnPort port => select_for_port lb shard locked ctx_key port health st
  | OnPortInFamily port d => select_for_port_matching_family lb shard locked ctx_key port health d st
  | OnPortInSubset port name => select_for_port_from_subset lb shard locked ctx_key port name health st
  end.

(** The targets a request may reach. *)
Definition subset_scope (lb : LoadBalancer) (name : bytes) : list nat := default [] (subset_indices lb !! name).

Definition request_scope (lb : LoadBalancer) (req : request) : list nat :=
  match req with
  | Whole => seq 0 (lb_size lb)
  | InFamily d => family_eligibility_indices lb d
  | InSubset name => subset_scope lb name
  | OnPort port =>
    match port_overrides lb !! port with Some ps => target_indices ps | None => seq 0 (lb_size lb) end
  | OnPortInFamily port d =>
    match port_overrides lb !! port with
    | Some ps => List.filter (within (family_eligibility_indices lb d)) (target_indices ps)
    | None => family_eligibility_indices lb d
    end
  | OnPortInSubset port name =>
    match port_overrides lb !! port with
    | Some ps => List.filter (within (target_indices ps)) (subset_scope lb name)
    | None => subset_scope lb name
    end
  end.

(** Subsets fail closed; everything else is served degraded. *)
Definition may_degrade (req : request) : bool :=
  match req with InSubset _ | OnPortInSubset _ _ => false | _ => true end.

Lemma nonempty_subset_spec lb name l :
  nonempty_subset lb name = Some l <-> subset_indices lb !! name = Some l /\ l <> [].
Proof. unfold nonempty_subset. destruct (subset_indices lb !! name) as [[|x k]|]; naive_solver. Qed.

Lemma no_subset lb name : nonempty_subset lb name = None -> subset_scope lb name = [].
Proof. unfold nonempty_subset, subset_scope. by destruct (subset_indices lb !! name) as [[|x k]|]. Qed.

Lemma filter_nil (k l : list nat) : k = [] -> List.filter (within k) l = [].
Proof. intros ->. induction l as [|x l IH]; [done|]. cbn. unfold within. rewrite bool_decide_false; [done|apply not_elem_of_nil]. Qed.

Lemma exceeds_spec lb : if exceeds_bitset lb then (128 < lb_size lb)%nat else (lb_size lb <= 128)%nat.
Proof. unfold exceeds_bitset, MAX_BITSET_TARGETS. destruct (Z.ltb_spec 128 (Z.of_nat (lb_size lb))); lia. Qed.

Section sound.
Context {US : UnstableSort} {UL : UnstableSortLaws US} {RS : RingSearch} {RL : RingSearchLaws RS}.
Context (lb : LoadBalancer) (shard : nat) (locked : bool) (health : option HealthContext).
Hypothesis ok : lb_ok lb.

Let n := lb_size lb.
Let healthy_in (scope : list nat) := healthy_targets_vec_for_indices (lb_pool lb) health scope.

Lemma healthy_scope scope : scope_ok n scope -> scope_ok n (healthy_in scope) /\ healthy_in scope ⊆ scope.
Proof.
  intros [Hs Hr]. destruct (healthy_in_scope (lb_pool lb) health scope Hs Hr) as (H1 & H2 & _).
  split; [|done]. split; [done|]. rewrite Forall_forall in *. intros i Hi. by apply Hr, H2.
Qed.

Lemma vec_scope key scope l fe may st :
  scope_ok n scope -> scope <> [] -> lane_used lb l -> state_ok lb st ->
  outcome lb scope (healthy_in scope) may
    (if bool_decide (healthy_in scope = [])
     then (if may : bool then degraded_vec lb shard locked key scope scope l fe st else (None, st))
     else prefer_vec lb shard locked key (healthy_in scope) scope l fe st).
Proof. intros Hs Hne Hl Hst. destruct (healthy_scope scope Hs). by apply serve_vec. Qed.

Lemma mask_scope key sb scope l fe may st :
  (n <= 128)%nat -> denotes n sb scope -> scope <> [] -> lane_used lb l -> state_ok lb st ->
  let hb := compute_health_bitset_for_mask (lb_pool lb) health sb in
  outcome lb scope (healthy_in scope) may
    (if is_empty hb
     then (if may : bool then degraded_bitset lb shard locked key sb l fe st else (None, st))
     else prefer_bitset lb shard locked key hb sb l fe st).
Proof.
  intros Hn Hd Hne Hl Hst hb. assert (Hs := denotes_scope _ _ _ Hd). destruct (healthy_scope scope Hs) as [Hh Hsub].
  destruct Hd as (Hw & He & Hr). destruct (mask_agree (lb_pool lb) health sb) as [Hbw Hbe];
    [unfold n, lb_size, MAX_BITSET_TARGETS in *; lia|done|by rewrite He|]. rewrite He in Hbe.
  apply serve_bitset; [done|done|by split_and!| |done|done|done|done].
  split; [done|]. split; [exact Hbe|apply Hh].
Qed.

Lemma indices_scope key scope l fe may st :
  (n <= 128)%nat -> scope_ok n scope -> scope <> [] -> lane_used lb l -> state_ok lb st ->
  let hb := compute_health_bitset_for_indices (lb_pool lb) health scope in
  outcome lb scope (healthy_in scope) may
    (if is_empty hb
     then (if may : bool then degraded_bitset lb shard locked key (bitset_for_indices scope) l fe st else (None, st))
     else prefer_bitset lb shard locked key hb (bitset_for_indices scope) l fe st).
Proof.
  intros Hn Hs Hne Hl Hst hb. destruct (healthy_scope scope Hs) as [Hh Hsub]. destruct (Hs) as [Hs1 Hs2].
  destruct (indices_agree (lb_pool lb) health scope) as [Hbw Hbe];
    [unfold n, lb_size, MAX_BITSET_TARGETS in *; lia|done|done|].
  apply serve_bitset; [done|done|by apply denotes_indices| |done|done|done|done].
  split; [done|]. split; [exact Hbe|apply Hh].
Qed.

Lemma whole_scope key st :
  (0 < n)%nat -> state_ok lb st ->
  outcome lb (seq 0 n) (healthy_in (seq 0 n)) true (select lb shard locked key health st).
Proof.
  intros Hpos Hst. unfold select. fold n. rewrite (proj2 (Nat.eqb_neq n 0)) by lia.
  assert (Hne : seq 0 n <> []) by (destruct n; [lia|done]).
  assert (Hs : scope_ok n (seq 0 n)) by (split; [apply seq_ascending|apply Forall_forall; intros i Hi%elem_of_seq; lia]).
  assert (Hx := exceeds_spec lb). fold n in Hx. destruct (exceeds_bitset lb).
  - unfold select_vec_fallback. fold n. rewrite healthy_whole. apply (vec_scope key (seq 0 n) _ _ true); [done|done|constructor|done].
  - destruct (whole_pool_agree (lb_pool lb) health) as [Hw He]; [unfold n, lb_size, MAX_BITSET_TARGETS in *; lia|].
    destruct (healthy_scope (seq 0 n) Hs) as [Hh Hsub]. rewrite healthy_whole in He.
    apply (serve_bitset lb shard locked ok key (all n) _ (seq 0 n) _ _ _ true);
      [done|by apply denotes_all| |done|done|constructor|done].
    split; [done|]. split; [exact He|apply Hh].
Qed.

Lemma family_scope_ok d : scope_ok n (family_eligibility_indices lb d).
Proof.
  split; [eapply ascending_sublist; [apply filter_sublist|apply seq_ascending]|].
  apply Forall_forall. intros i [Hi%elem_of_seq _]%filter_elem. fold n in Hi. lia.
Qed.

Lemma filter_scope_ok f l : scope_ok n l -> scope_ok n (List.filter f l).
Proof.
  intros [Hs Hr]. split; [eapply ascending_sublist; [apply filter_sublist|done]|].
  rewrite Forall_forall in *. intros i [Hi _]%filter_elem. by apply Hr.
Qed.

Lemma existing_scope l : scope_ok n l -> existing lb l = l.
Proof. intros [_ Hr]. by apply (filter_in_range (lb_pool lb)). Qed.

Lemma family_scope key d st :
  (0 < n)%nat -> state_ok lb st ->
  let scope := family_eligibility_indices lb d in
  outcome lb scope (healthy_in scope) true (select_matching_family lb shard locked key health d st).
Proof.
  intros Hpos Hst scope. unfold select_matching_family. fold n. rewrite (proj2 (Nat.eqb_neq n 0)) by lia.
  assert (Hs := family_scope_ok d). fold scope in Hs.
  assert (Hx := exceeds_spec lb). fold n in Hx. destruct (exceeds_bitset lb).
  - unfold select_matching_family_vec_fallback. fold scope. case_bool_decide; [by apply refused; [left|]|].
    rewrite existing_scope by done. apply (vec_scope key scope _ _ true); [done|done|constructor|done].
  - assert (Hd := denotes_family lb d Hx). fold scope in Hd. rewrite (denotes_empty _ _ _ Hd).
    case_bool_decide; [by apply refused; [left|]|].
    apply (mask_scope key _ scope _ _ true); [done|done|done|constructor|done].
Qed.

Lemma subset_scope_ok name : scope_ok n (subset_scope lb name).
Proof.
  unfold subset_scope. destruct (subset_indices lb !! name) as [l|] eqn:E; [by eapply (lb_subsets _ ok)|].
  split; constructor.
Qed.

Lemma named_subset name l : nonempty_subset lb name = Some l -> subset_scope lb name = l /\ l <> [].
Proof. intros [E Hne]%nonempty_subset_spec. unfold subset_scope. by rewrite E. Qed.

Lemma subset_serves key name st :
  (0 < n)%nat -> state_ok lb st ->
  let scope := subset_scope lb name in
  outcome lb scope (healthy_in scope) false (select_from_subset lb shard locked key name health st).
Proof.
  intros Hpos Hst scope. unfold select_from_subset. fold n. rewrite (proj2 (Nat.eqb_neq n 0)) by lia.
  assert (Hs := subset_scope_ok name). fold scope in Hs.
  destruct (nonempty_subset lb name) as [l|] eqn:E; [|apply refused; [left; by apply no_subset|done]].
  destruct (named_subset name l E) as [El Hne]. fold scope in El. rewrite <- El in *.
  assert (Hu : lane_used lb (subset_lane lb name)) by (constructor; by rewrite E).
  assert (Hx := exceeds_spec lb). fold n in Hx. destruct (exceeds_bitset lb).
  - by apply (vec_scope key scope _ _ false).
  - by apply (indices_scope key scope _ _ false).
Qed.

Lemma port_scope_ok port ps : port_overrides lb !! port = Some ps -> scope_ok n (target_indices ps).
Proof. apply (lb_ports _ ok). Qed.

Lemma port_serves key port ps st :
  (0 < n)%nat -> state_ok lb st -> port_overrides lb !! port = Some ps ->
  let scope := target_indices ps in
  outcome lb scope (healthy_in scope) true (select_for_port lb shard locked key port health st).
Proof.
  intros Hpos Hst Hp scope. unfold select_for_port. rewrite Hp. fold n. rewrite (proj2 (Nat.eqb_neq n 0)) by lia.
  cbn [orb]. assert (Hs := port_scope_ok port ps Hp). fold scope in Hs. fold scope.
  case_bool_decide; [by apply refused; [left|]|].
  assert (Hu : lane_used lb (port_lane lb port ps)) by (by constructor).
  assert (Hx := exceeds_spec lb). fold n in Hx. destruct (exceeds_bitset lb).
  - unfold select_port_vec_fallback. fold scope. rewrite port_vec_serves. by apply (vec_scope key scope _ _ true).
  - by apply (indices_scope key scope _ _ true).
Qed.

Lemma port_family_serves key port ps d st :
  (0 < n)%nat -> state_ok lb st -> port_overrides lb !! port = Some ps ->
  let scope := List.filter (within (family_eligibility_indices lb d)) (target_indices ps) in
  outcome lb scope (healthy_in scope) true (select_for_port_matching_family lb shard locked key port health d st).
Proof.
  intros Hpos Hst Hp scope. unfold select_for_port_matching_family. rewrite Hp. fold n.
  rewrite (proj2 (Nat.eqb_neq n 0)) by lia. cbn [orb]. assert (Hps := port_scope_ok port ps Hp).
  assert (Hs : scope_ok n scope) by (by apply filter_scope_ok).
  case_bool_decide as E; [apply refused; [left; unfold scope; by rewrite E|done]|].
  assert (Hu : lane_used lb (port_lane lb port ps)) by (by constructor).
  assert (Hx := exceeds_spec lb). fold n in Hx. destruct (exceeds_bitset lb).
  - unfold select_port_matching_family_vec_fallback.
    case_bool_decide as Ef; [apply refused; [left; by apply filter_nil|done]|].
    rewrite intersection_vec_spec by done. fold scope. case_bool_decide; [by apply refused; [left|]|].
    rewrite existing_scope, port_vec_serves by done. by apply (vec_scope key scope _ _ true).
  - assert (Hf := denotes_family lb d Hx). rewrite (denotes_empty _ _ _ Hf).
    case_bool_decide as Ef; [apply refused; [left; by apply filter_nil|done]|].
    assert (Hd := denotes_intersect n _ _ _ _ (denotes_indices n _ Hx Hps) Hf). fold scope in Hd.
    rewrite (denotes_empty _ _ _ Hd). case_bool_decide; [by apply refused; [left|]|].
    by apply (mask_scope key _ scope _ _ true).
Qed.

Lemma port_subset_serves key port ps name st :
  (0 < n)%nat -> state_ok lb st -> port_overrides lb !! port = Some ps ->
  let scope := List.filter (within (target_indices ps)) (subset_scope lb name) in
  outcome lb scope (healthy_in scope) false (select_for_port_from_subset lb shard locked key port name health st).
Proof.
  intros Hpos Hst Hp scope. unfold select_for_port_from_subset. rewrite Hp. fold n.
  rewrite (proj2 (Nat.eqb_neq n 0)) by lia. cbn [orb]. assert (Hps := port_scope_ok port ps Hp).
  assert (Hss := subset_scope_ok name). assert (Hs : scope_ok n scope) by (by apply filter_scope_ok).
  case_bool_decide as E; [apply refused; [left; by apply filter_nil|done]|].
  destruct (nonempty_subset lb name) as [l|] eqn:En;
    [|apply refused; [left; unfold scope; by rewrite (no_subset lb name En)|done]].
  destruct (named_subset name l En) as [El Hne]. rewrite <- El in *.
  assert (Hu : lane_used lb (port_subset_lane lb port ps name)) by (constructor; [done|by rewrite En]).
  assert (Hx := exceeds_spec lb). fold n in Hx. destruct (exceeds_bitset lb).
  - unfold select_port_subset_vec_fallback. rewrite intersection_vec_spec by done. fold scope.
    case_bool_decide; [by apply refused; [left|]|]. by apply (vec_scope key scope _ _ false).
  - assert (Hd := denotes_intersect n _ _ _ _ (denotes_indices n _ Hx Hss) (denotes_indices n _ Hx Hps)).
    fold scope in Hd. unfold subset_port_mask. rewrite (denotes_empty _ _ _ Hd).
    case_bool_decide; [by apply refused; [left|]|]. by apply (mask_scope key _ scope _ _ false).
Qed.

Lemma run_request_contract (key : bytes) (req : request) (st : LbState) :
  (0 < lb_size lb)%nat -> state_ok lb st ->
  let scope := request_scope lb req in
  let '(r, st') := run_request lb shard locked key req health st in
  selection_spec lb scope (healthy_targets_vec_for_indices (lb_pool lb) health scope) (may_degrade req) r
  /\ state_ok lb st'.
Proof.
  intros Hpos Hst. cbn zeta.
  enough (H : outcome lb (request_scope lb req) (healthy_in (request_scope lb req)) (may_degrade req)
    (run_request lb shard locked key req health st)) by (destruct (run_request _ _ _ _ _ _ _); exact H).
  destruct req as [|d|name|port|port d|port name]; cbn [request_scope may_degrade run_request].
  - by apply whole_scope.
  - by apply family_scope.
  - by apply subset_serves.
  - destruct (port_overrides lb !! port) as [ps|] eqn:E; [by eapply port_serves|].
    unfold select_for_port. rewrite E. by apply whole_scope.
  - destruct (port_overrides lb !! port) as [ps|] eqn:E; [by eapply port_family_serves|].
    unfold select_for_port_matching_family. rewrite E. by apply family_scope.
  - destruct (port_overrides lb !! port) as [ps|] eqn:E; [by eapply port_subset_serves|].
    unfold select_for_port_from_subset. rewrite E. by apply subset_serves.
Qed.

(** C2. Every first-attempt selector implements the selection contract: over the
    whole upstream, an address family, a named subset, a port lane or an
    intersection, of any size and with any algorithm, it returns a target of the
    request's own scope, a healthy one unless it says otherwise; it reports a
    fallback only when the scope has no healthy target, or when strict locality
    keeps the request on a local target; it refuses only when the scope is empty
    or when a subset has no healthy target, so a subset never spills over; and
    the balancer is ready for the next request. *)
Theorem selection_implements_contract (key : bytes) (req : request) (st : LbState) :
  (0 < lb_size lb)%nat -> state_ok lb st ->
  let scope := request_scope lb req in
  let '(r, st') := run_request lb shard locked key req health st in
  selection_spec lb scope (healthy_targets_vec_for_indices (lb_pool lb) health scope) (may_degrade req) r
  /\ state_ok lb st'.
Proof. apply run_request_contract. Qed.
End sound.
