(* ===== verification/LbRetrySpec.v ===== *)
(** * What retries and named targets guarantee ([src/src/load_balancer.rs])

    A retry stays in the scope of its request, never reaches a target the
    transport cannot use, and comes back to the target just tried only when strict
    locality leaves no other local target. A sticky token or an original
    destination reaches exactly the healthy targets of the request's pool. *)

From Stdlib Require Import Sorted.
From stdpp Require Import sorting.
From S2P Require Import Prelude Decimal RuntimeKeys Upstream Net HealthBitset SmoothWrr WrrSelect PassiveHealth LbHealth LbLocality LbMetrics LbAlgorithms LbDispatch LbSelect LbRetry LbSelectSpec.
#[local] Open Scope Z_scope.

(** ** The retry masks *)

Lemma filter_true (f : nat -> bool) l : (forall i, f i = true) -> List.filter f l = l.
Proof. intros Hf. induction l as [|i l IH]; [done|]. cbn [List.filter]. by rewrite Hf, IH. Qed.

Lemma clear_where_spec test n : forall ts off b l,
  (n <= 128)%nat -> (off + length ts <= n)%nat -> denotes n b l ->
  denotes n (foldl (fun mask '(idx, t) => if (test : UpstreamTarget -> bool) t then clear mask idx else mask) b
               (imap (fun i t => ((off + i)%nat, t)) ts))
    (List.filter (fun i => negb (if (off <=? i)%nat then at_index ts test (i - off) else false)) l).
Proof.
  induction ts as [|t ts IH]; intros off b l Hn Hlen Hd.
  { cbn [imap foldl]. rewrite filter_true; [done|]. intros i. by destruct (off <=? i)%nat. }
  rewrite imap_cons. cbn [foldl]. rewrite Nat.add_0_r. cbn [length] in Hlen.
  set (b' := if test t then clear b off else b).
  assert (Hd' : denotes n b' (List.filter (fun i => negb ((i =? off)%nat && test t)) l)).
  { subst b'. destruct Hd as (Hw & He & Hr). destruct (test t).
    - destruct (clear_spec b off Hw) as [Hw' He']; [lia|]. split; [done|].
      assert (Hin : forall i, i ∈ List.filter (fun i => negb ((i =? off)%nat && true)) l <-> i ∈ l /\ i <> off).
      { intros i. rewrite filter_elem, andb_true_r, negb_true_iff, Nat.eqb_neq. done. }
      split.
      + apply sorted_ext; [apply members_sorted; apply Hw'| |].
        * eapply ascending_sublist; [apply filter_sublist|]. rewrite <- He. apply members_sorted; apply Hw.
        * intros i. rewrite Hin, He', <- He. tauto.
      + rewrite Forall_forall in *. intros i [Hi _]%Hin. by apply Hr.
    - rewrite filter_true; [by split_and!|]. intros i. by rewrite andb_false_r. }
  assert (Hrec := IH (S off) b' _ Hn ltac:(lia) Hd').
  assert (Eim : imap (fun i t => ((S off + i)%nat, t)) ts = imap ((fun i t => ((off + i)%nat, t)) ∘ S) ts)
    by (apply imap_ext; intros i x _; cbn; f_equal; lia).
  rewrite Eim in Hrec. clear Eim Hd Hd' IH.
  assert (Ef : List.filter (fun i => negb (if (S off <=? i)%nat then at_index ts test (i - S off) else false))
      (List.filter (fun i => negb ((i =? off)%nat && test t)) l)
    = List.filter (fun i => negb (if (off <=? i)%nat then at_index (t :: ts) test (i - off) else false)) l).
  { clear. induction l as [|i l IH]; [done|]. cbn [List.filter]. unfold at_index in *.
    destruct (Nat.eqb_spec i off) as [->|Hne].
    - rewrite (proj2 (Nat.leb_le off off)) by lia. rewrite Nat.sub_diag. cbn [lookup list_lookup andb].
      destruct (test t); cbn [negb List.filter]; [exact IH|]. rewrite (proj2 (Nat.leb_gt (S off) off)) by lia. cbn [negb].
      by rewrite IH.
    - cbn [andb negb List.filter]. destruct (Nat.leb_spec (S off) i).
      + rewrite (proj2 (Nat.leb_le off i)) by lia. replace (i - off)%nat with (S (i - S off)) by lia.
        cbn [lookup list_lookup]. by rewrite IH.
      + rewrite (proj2 (Nat.leb_gt off i)) by lia. cbn [negb]. by rewrite IH. }
  by rewrite Ef in Hrec.
Qed.

Lemma clear_where_denotes ts test b l :
  (length ts <= 128)%nat -> denotes (length ts) b l ->
  denotes (length ts) (clear_where ts test b) (List.filter (fun i => negb (at_index ts test i)) l).
Proof.
  intros Hn Hd. assert (H := clear_where_spec test (length ts) ts 0 b l Hn ltac:(lia) Hd).
  unfold clear_where. assert (E : List.filter (fun i => negb (at_index ts test i)) l
    = List.filter (fun i => negb (if (0 <=? i)%nat then at_index ts test (i - 0) else false)) l).
  { apply List.filter_ext. intros i. by rewrite Nat.sub_0_r. }
  rewrite E. exact H.
Qed.

Section masks.
Context (ts : list UpstreamTarget) (f : RetryCandidateFilter) (contract : RetryExcludeContract).

Definition retry_candidates (scope : list nat) : list nat :=
  List.filter (fun i => negb (at_index ts (fun t => rejects f t contract) i)) scope.
Definition reachable (scope : list nat) : list nat :=
  List.filter (fun i => negb (at_index ts (is_hard_ineligible f) i)) scope.

Lemma reachable_all scope : eligible f = None -> reachable scope = scope.
Proof.
  intros E. apply filter_true. intros i. unfold at_index, is_hard_ineligible. rewrite E. by destruct (ts !! i).
Qed.

Lemma candidates_reachable scope : sublist (retry_candidates scope) (reachable scope).
Proof.
  unfold retry_candidates, reachable. induction scope as [|i l IH]; [done|]. cbn [List.filter].
  assert (Hi : at_index ts (is_hard_ineligible f) i = true -> at_index ts (fun t => rejects f t contract) i = true).
  { unfold at_index. destruct (ts !! i); [|done]. unfold rejects. intros ->. apply orb_true_r. }
  destruct (at_index ts (is_hard_ineligible f) i) eqn:Eh; cbn [negb].
  - rewrite Hi by done. exact IH.
  - destruct (at_index ts (fun t => rejects f t contract) i); cbn [negb]; by constructor.
Qed.

Lemma split_vec_spec scope : split_retry_vec ts f contract scope = (retry_candidates scope, reachable scope).
Proof.
  unfold split_retry_vec. destruct (eligible f) eqn:E; [|by rewrite reachable_all].
  unfold build_eligible_retry_candidate_and_locality_scope_indices.
  assert (H : forall c s, foldl (fun '(candidates, locality_scope) idx =>
         (if at_index ts (fun t => rejects f t contract) idx then candidates else candidates ++ [idx],
          if at_index ts (is_hard_ineligible f) idx then locality_scope else locality_scope ++ [idx])) (c, s) scope
    = (c ++ retry_candidates scope, s ++ reachable scope)).
  { unfold retry_candidates, reachable. induction scope as [|i l IH]; intros c s; cbn [foldl List.filter];
      [by rewrite !app_nil_r|].
    rewrite IH. destruct (at_index ts (fun t => rejects f t contract) i), (at_index ts (is_hard_ineligible f) i);
      cbn [negb]; by rewrite <- ?app_assoc. }
  apply H.
Qed.

Lemma split_bitset_spec sb scope :
  (length ts <= 128)%nat -> denotes (length ts) sb scope ->
  let '(cb, lbs) := split_retry_candidate_and_locality_scope_bitset ts f contract sb in
  denotes (length ts) cb (retry_candidates scope) /\ denotes (length ts) lbs (reachable scope).
Proof.
  intros Hn Hd. unfold split_retry_candidate_and_locality_scope_bitset. destruct (eligible f) eqn:E.
  - split; by apply clear_where_denotes.
  - rewrite reachable_all by done. split; [|done].
    assert (H := clear_where_denotes ts (fun t => excludes_retry f t contract) sb scope Hn Hd).
    unfold retry_candidates. erewrite List.filter_ext; [exact H|]. intros i. cbn. unfold at_index.
    destruct (ts !! i); [|done]. unfold rejects, is_hard_ineligible. by rewrite E, orb_false_r.
Qed.
End masks.

(** ** Retry requests *)

Inductive retry_request := RetryWhole | RetryOnPort (port : Z) | RetryInSubset (name : bytes)
| RetryOnPortInSubset (port : Z) (name : bytes).

Definition as_request (r : retry_request) : request :=
  match r with
  | RetryWhole => Whole
  | RetryOnPort port => OnPort port
  | RetryInSubset name => InSubset name
  | RetryOnPortInSubset port name => OnPortInSubset port name
  end.

Definition run_retry {US : UnstableSort} {RS : RingSearch} (lb : LoadBalancer) (shard : nat) (locked : bool)
    (ctx_key : bytes) (req : retry_request) (f : RetryCandidateFilter) (contract : RetryExcludeContract)
    (health : option HealthContext) (st : LbState) : option nat * LbState :=
  match req with
  | RetryWhole => select_excluding_with lb shard locked ctx_key f health contract st
  | RetryOnPort port => select_excluding_for_port_with lb shard locked ctx_key port f health contract st
  | RetryInSubset name => select_excluding_from_subset_with lb shard locked ctx_key name f health contract st
  | RetryOnPortInSubset port name =>
    select_excluding_for_port_from_subset_with lb shard locked ctx_key port name f health contract st
  end.

Section retry_sound.
Context {US : UnstableSort} {UL : UnstableSortLaws US} {RS : RingSearch} {RL : RingSearchLaws RS}.
Context (lb : LoadBalancer) (shard : nat) (locked : bool) (health : option HealthContext).
Context (f : RetryCandidateFilter) (contract : RetryExcludeContract).
Hypothesis ok : lb_ok lb.

Let n := lb_size lb.
Let ts := targets (lb_pool lb).
Let healthy_in (scope : list nat) := healthy_targets_vec_for_indices (lb_pool lb) health scope.
Let tried (i : nat) : bool := at_index ts (fun t => excludes_retry f t contract) i.
Let unusable (i : nat) : bool := at_index ts (is_hard_ineligible f) i.

(** The healthy candidates of a retry. *)
Let healthy (scope : list nat) : list nat := healthy_in (retry_candidates ts f contract scope).

Definition retry_spec (scope : list nat) (r : option nat) : Prop :=
  match r with
  | None => healthy scope = []
  | Some t => healthy scope <> [] /\ t ∈ scope /\ unusable t = false
              /\ (tried t = false /\ t ∈ healthy scope \/ stays_local lb (healthy scope) t)
  end.

Definition retried (scope : list nat) (r : option nat * LbState) : Prop := retry_spec scope r.1 /\ state_ok lb r.2.

Lemma healthy_none : healthy_in [] = [].
Proof.
  destruct (healthy_scope lb health [] ltac:(split; constructor)) as [_ H]. unfold healthy_in.
  destruct (healthy_targets_vec_for_indices (lb_pool lb) health []) as [|x l]; [done|].
  exfalso. apply (not_elem_of_nil x), H. by left.
Qed.

Lemma candidates_ok scope : scope_ok n scope ->
  scope_ok n (retry_candidates ts f contract scope) /\ scope_ok n (reachable ts f scope)
  /\ scope_ok n (healthy scope) /\ healthy scope ⊆ reachable ts f scope.
Proof.
  intros Hs. assert (Hc := filter_scope_ok lb (fun i => negb (at_index ts (fun t => rejects f t contract) i)) scope Hs).
  assert (Hr := filter_scope_ok lb (fun i => negb (at_index ts (is_hard_ineligible f) i)) scope Hs).
  destruct (healthy_scope lb health _ Hc) as [Hh Hsub]. split; [done|]. split; [done|]. split; [done|].
  intros i Hi. apply Hsub in Hi. eapply elem_of_sublist; [exact Hi|apply candidates_reachable].
Qed.

Lemma retry_member scope t :
  scope_ok n scope -> t ∈ healthy scope -> t ∈ scope /\ unusable t = false /\ tried t = false.
Proof.
  intros Hs Ht. destruct (candidates_ok scope Hs) as (Hc & _ & _ & _).
  destruct (healthy_scope lb health _ Hc) as [_ Hsub]. apply Hsub in Ht. apply filter_elem in Ht as [Hin Hr].
  split; [done|]. unfold unusable, tried, at_index in *. destruct (ts !! t); [|done].
  apply negb_true_iff in Hr. unfold rejects in Hr. apply orb_false_iff in Hr as [? ?]. done.
Qed.

(** The end of both retry paths. *)
Lemma retried_pick scope pr d t st' :
  scope_ok n scope -> healthy scope <> [] ->
  (pr ⊆ reachable ts f scope /\ (d = false -> pr ⊆ healthy scope)
   /\ (d = true -> forall t, t ∈ pr -> stays_local lb (healthy scope) t)) ->
  t ∈ pr -> state_ok lb st' -> retried scope (Some t, st').
Proof.
  intros Hs Hne (Hsub & Hf & Ht) Hin Hst. split; [|done]. cbn. split; [done|]. apply Hsub in Hin as Hr. apply filter_elem in Hr as [Hscope Hu].
  split; [done|]. split; [by apply negb_true_iff in Hu|]. destruct d; [right; by apply Ht|left].
  assert (t ∈ healthy scope) by (by apply Hf). split; [|done]. by eapply retry_member.
Qed.

Lemma retry_vec_sound key scope l fe st :
  scope_ok n scope -> lane_used lb l -> state_ok lb st ->
  retried scope (retry_vec lb shard locked key f contract scope health l fe st).
Proof.
  intros Hs Hl Hst. unfold retry_vec. fold ts. rewrite split_vec_spec.
  destruct (candidates_ok scope Hs) as (Hc & Hr & Hh & Hsub).
  case_bool_decide as E.
  { split; [|done]. cbn. unfold healthy. rewrite E. apply healthy_none. }
  fold (healthy_in (retry_candidates ts f contract scope)). fold (healthy scope).
  case_bool_decide as Eh; [by split|].
  assert (Hp := preferred_scope lb ok (healthy scope) (reachable ts f scope) (snd <$> lane_locality l) fe Eh Hsub Hh Hr).
  destruct (preferred_locality_candidates _ _ _ _ fe) as [pr d]. destruct Hp as (Hpne & Hpok & Hrest).
  destruct (pick_vec_total lb shard locked ok key l pr st Hpne Hpok Hl Hst) as (t & st' & -> & Hin & Hst').
  by eapply retried_pick.
Qed.

Lemma retry_bitset_sound key sb scope l fe st :
  (n <= 128)%nat -> denotes n sb scope -> lane_used lb l -> state_ok lb st ->
  retried scope (retry_bitset lb shard locked key f contract sb health l fe st).
Proof.
  intros Hn Hd Hl Hst. assert (Hs := denotes_scope _ _ _ Hd). unfold retry_bitset. fold ts.
  destruct (candidates_ok scope Hs) as (Hc & Hr & Hh & Hsub).
  assert (Hsp := split_bitset_spec ts f contract sb scope Hn Hd).
  destruct (split_retry_candidate_and_locality_scope_bitset ts f contract sb) as [cb lbs]. destruct Hsp as [Hdc Hdl].
  rewrite (denotes_empty _ _ _ Hdc). case_bool_decide as E.
  { split; [|done]. cbn. unfold healthy. rewrite E. apply healthy_none. }
  assert (Hdh : denotes n (compute_health_bitset_for_mask (lb_pool lb) health cb) (healthy scope)).
  { destruct Hdc as (Hw & He & Hrr). destruct (mask_agree (lb_pool lb) health cb) as [Hbw Hbe];
      [unfold n, lb_size, MAX_BITSET_TARGETS in *; lia|done|by rewrite He|].
    split; [done|]. rewrite He in Hbe. split; [exact Hbe|apply Hh]. }
  rewrite (denotes_empty _ _ _ Hdh). case_bool_decide as Eh; [by split|].
  assert (Hp := preferred_scope lb ok (healthy scope) (reachable ts f scope) (snd <$> lane_locality l) fe Eh Hsub Hh Hr).
  set (hb := compute_health_bitset_for_mask (lb_pool lb) health cb) in *.
  assert (Ha := preferred_agree (lb_tables lb) hb lbs (healthy scope) (reachable ts f scope) (snd <$> lane_locality l) fe).
  rewrite (lb_count _ ok) in Ha. specialize (Ha Hn (lb_ranks _ ok) Hdh Hdl).
  destruct (preferred_locality_bitset (lb_tables lb) hb lbs _ fe) as [pb pd].
  destruct (preferred_locality_candidates _ _ _ _ fe) as [pr d]. destruct Ha as [Hdp Hdeg]. cbn [fst snd] in *. subst d.
  destruct Hp as (Hpne & Hpok & Hrest).
  destruct (pick_bitset_total lb shard locked ok key l pb pr st Hn Hdp Hpne Hl Hst) as (t & st' & -> & Hin & Hst').
  by eapply retried_pick.
Qed.

Lemma retry_scope_ok req : scope_ok n (request_scope lb (as_request req)).
Proof.
  assert (Hw : scope_ok n (seq 0 n))
    by (split; [apply seq_ascending|apply Forall_forall; intros i Hi%elem_of_seq; lia]).
  assert (Hss := subset_scope_ok lb ok).
  destruct req as [|port|name|port name]; cbn [as_request request_scope]; [done| |done|].
  - destruct (port_overrides lb !! port) as [ps|] eqn:E; [by eapply port_scope_ok|done].
  - destruct (port_overrides lb !! port) as [ps|] eqn:E; [by apply filter_scope_ok|done].
Qed.

(** An upstream without targets retries nothing. *)
Lemma retry_empty key req st :
  n = 0%nat -> state_ok lb st ->
  retried (request_scope lb (as_request req)) (run_retry lb shard locked key req f contract health st).
Proof.
  intros Hn Hst. assert (Hz : (lb_size lb =? 0)%nat = true) by (by apply Nat.eqb_eq).
  assert (Er : run_retry lb shard locked key req f contract health st = (None, st)).
  { destruct req; cbn [run_retry];
      unfold select_excluding_for_port_with, select_excluding_for_port_from_subset_with,
        select_excluding_from_subset_with, select_excluding_with;
      rewrite Hz; by try destruct (port_overrides lb !! port). }
  rewrite Er. split; [|done]. cbn.
  assert (Hs : scope_ok n (request_scope lb (as_request req))) by (by apply retry_scope_ok).
  destruct (request_scope lb (as_request req)) as [|i l]; [apply healthy_none|].
  destruct Hs as [_ Hs]. apply Forall_cons in Hs as [Hi _]. lia.
Qed.

(** C4. A retry keeps every promise of the first attempt and adds its own, for
    each kind of request, either identity contract and every size of upstream.
    It gives up exactly when no usable target of the scope other than those
    already tried is healthy: with none healthy it returns nothing, whatever the
    locality mode, and with one it returns a target. That target is in the scope
    of the request and usable by the transport; it is healthy and not one already
    tried, unless locality is strict and every healthy candidate is remote, when
    it is some local target of the scope. *)
Theorem retry_implements_contract (key : bytes) (req : retry_request) (st : LbState) :
  state_ok lb st ->
  let '(r, st') := run_retry lb shard locked key req f contract health st in
  retry_spec (request_scope lb (as_request req)) r /\ state_ok lb st'.
Proof.
  intros Hst.
  enough (H : retried (request_scope lb (as_request req)) (run_retry lb shard locked key req f contract health st))
    by (destruct (run_retry _ _ _ _ _ _ _ _ _); exact H).
  destruct (Nat.eq_dec n 0) as [Hn0|Hpos]; [by apply retry_empty|].
  assert (Hx := exceeds_spec lb). fold n in Hx. assert (Hz : (n =? 0)%nat = false) by (apply Nat.eqb_neq; lia).
  assert (Hwhole : retried (seq 0 n) (select_excluding_with lb shard locked key f health contract st)).
  { unfold select_excluding_with. fold n. rewrite Hz.
    assert (Hs : scope_ok n (seq 0 n)) by (split; [apply seq_ascending|apply Forall_forall; intros i Hi%elem_of_seq; lia]).
    destruct (exceeds_bitset lb); [apply retry_vec_sound; [done|constructor|done]|].
    apply retry_bitset_sound; [done|by apply denotes_all|constructor|done]. }
  assert (Hsub : forall name, retried (subset_scope lb name)
    (select_excluding_from_subset_with lb shard locked key name f health contract st)).
  { intros name. unfold select_excluding_from_subset_with. fold n. rewrite Hz.
    assert (Hs := subset_scope_ok lb ok name). destruct (nonempty_subset lb name) as [l|] eqn:E.
    - destruct (named_subset lb name l E) as [<- _].
      assert (Hu : lane_used lb (subset_lane lb name)) by (constructor; by rewrite E).
      destruct (exceeds_bitset lb); [by apply retry_vec_sound|].
      apply retry_bitset_sound; [done|by apply denotes_indices|done|done].
    - rewrite no_subset by done. split; [|done]. apply healthy_none. }
  destruct req as [|port|name|port name]; cbn [as_request request_scope run_retry]; [done| |done|].
  - unfold select_excluding_for_port_with. destruct (port_overrides lb !! port) as [ps|] eqn:E; [|done].
    fold n. rewrite Hz. cbn [orb]. assert (Hs := port_scope_ok lb ok port ps E).
    assert (Hu : lane_used lb (port_lane lb port ps)) by (by constructor).
    case_bool_decide as Ee; [rewrite Ee; split; [apply healthy_none|done]|].
    destruct (exceeds_bitset lb); [by apply retry_vec_sound|].
    apply retry_bitset_sound; [done|by apply denotes_indices|done|done].
  - unfold select_excluding_for_port_from_subset_with. destruct (port_overrides lb !! port) as [ps|] eqn:E; [|by apply Hsub].
    fold n. rewrite Hz. cbn [orb]. assert (Hs := port_scope_ok lb ok port ps E). assert (Hss := subset_scope_ok lb ok name).
    case_bool_decide as Ee; [rewrite filter_nil by done; split; [apply healthy_none|done]|].
    destruct (nonempty_subset lb name) as [l|] eqn:En;
      [|rewrite no_subset by done; split; [apply healthy_none|done]].
    destruct (named_subset lb name l En) as [<- _].
    assert (Hu : lane_used lb (port_subset_lane lb port ps name)) by (constructor; [done|by rewrite En]).
    destruct (exceeds_bitset lb).
    + rewrite intersection_vec_spec by done. apply retry_vec_sound; [by apply filter_scope_ok|done|done].
    + apply retry_bitset_sound; [done| |done|done]. apply denotes_intersect; by apply denotes_indices.
Qed.
End retry_sound.

(** ** Named targets *)

(** The pool of a route: [None] when it names a subset that has no target. *)
Definition named_pool (lb : LoadBalancer) (port : option Z) (name : option bytes) : option (list nat) :=
  let on_port := port ≫= fun p => port_overrides lb !! p in
  match name, on_port with
  | None, None => Some (seq 0 (lb_size lb))
  | None, Some ps => Some (target_indices ps)
  | Some name, None => nonempty_subset lb name
  | Some name, Some ps => List.filter (within (target_indices ps)) <$> nonempty_subset lb name
  end.

Lemma find_seq (f : nat -> bool) k :
  match List.find f (seq 0 k) with
  | Some i => (i < k)%nat /\ f i = true /\ forall j, (j < i)%nat -> f j = false
  | None => forall j, (j < k)%nat -> f j = false
  end.
Proof.
  assert (H : forall m off, match List.find f (seq off m) with
    | Some i => (off <= i < off + m)%nat /\ f i = true /\ forall j, (off <= j < i)%nat -> f j = false
    | None => forall j, (off <= j < off + m)%nat -> f j = false end).
  { induction m as [|m IH]; intros off; cbn [seq List.find]; [intros j Hj; lia|].
    destruct (f off) eqn:E; [split; [lia|]; split; [done|]; intros j Hj; lia|]. specialize (IH (S off)).
    assert (Hj : forall j, (off <= j)%nat -> j = off \/ (S off <= j)%nat) by lia.
    destruct (List.find f (seq (S off) m)).
    - destruct IH as (H1 & H2 & H3). split; [lia|]. split; [done|]. intros j Hlt.
      destruct (Hj j ltac:(lia)) as [->|?]; [done|apply H3; lia].
    - intros j Hlt. destruct (Hj j ltac:(lia)) as [->|?]; [done|apply IH; lia]. }
  specialize (H k 0%nat). destruct (List.find f (seq 0 k)).
  - destruct H as (H1 & H2 & H3). split; [lia|]. split; [done|]. intros j Hj. apply H3. lia.
  - intros j Hj. apply H. lia.
Qed.

Section named.
Context {US : UnstableSort} {UL : UnstableSortLaws US} (lb : LoadBalancer) (health : option HealthContext).
Hypothesis ok : lb_ok lb.

Let n := lb_size lb.
Let healthy_in (scope : list nat) := healthy_targets_vec_for_indices (lb_pool lb) health scope.

Lemma mask_contains sb scope idx :
  (n <= 128)%nat -> denotes n sb scope -> (idx < n)%nat ->
  contains (compute_health_bitset_for_mask (lb_pool lb) health sb) idx = bool_decide (idx ∈ healthy_in scope).
Proof.
  intros Hn (Hw & He & Hr) Hi. destruct (mask_agree (lb_pool lb) health sb) as [Hbw Hbe];
    [unfold n, lb_size, MAX_BITSET_TARGETS in *; lia|done|by rewrite He|]. rewrite He in Hbe.
  apply eq_bool_prop_intro. rewrite !Is_true_true, bool_decide_eq_true, contains_spec by (apply Hbw || lia).
  unfold healthy_in. by rewrite Hbe.
Qed.

Lemma indices_contains scope idx :
  (n <= 128)%nat -> scope_ok n scope -> (idx < n)%nat ->
  contains (compute_health_bitset_for_indices (lb_pool lb) health scope) idx = bool_decide (idx ∈ healthy_in scope).
Proof.
  intros Hn [Hs Hr] Hi. destruct (indices_agree (lb_pool lb) health scope) as [Hbw Hbe];
    [unfold n, lb_size, MAX_BITSET_TARGETS in *; lia|done|done|].
  apply eq_bool_prop_intro. rewrite !Is_true_true, bool_decide_eq_true, contains_spec by (apply Hbw || lia).
  unfold healthy_in. by rewrite Hbe.
Qed.

(** The pool test and the health test of both named selectors. *)
Lemma pool_tests port name idx :
  (idx < n)%nat ->
  match candidate_pool_indices lb port name, named_pool lb port name with
  | None, None => True
  | Some (s, p), Some scope =>
    (in_slice idx p && in_slice idx s = true <-> idx ∈ scope)
    /\ index_healthy_in_pool lb idx s p health = bool_decide (idx ∈ healthy_in scope)
  | _, _ => False
  end.
Proof.
  intros Hi. unfold candidate_pool_indices, named_pool. set (on := port ≫= _).
  assert (Hx := exceeds_spec lb). fold n in Hx.
  assert (Hon : forall ps, on = Some ps -> scope_ok n (target_indices ps)).
  { intros ps E. subst on. destruct port as [q|]; [|done]. by apply (lb_ports lb ok q). }
  assert (Hsub : forall nm l, nonempty_subset lb nm = Some l -> scope_ok n l).
  { intros nm l [E _]%nonempty_subset_spec. by apply (lb_subsets lb ok nm). }
  destruct name as [nm|]; cbn [mbind option_bind].
  - rewrite bool_decide_true by done. cbn [andb]. destruct (nonempty_subset lb nm) as [l|] eqn:En; [|by destruct on].
    rewrite bool_decide_false by done. specialize (Hsub nm l En). destruct on as [ps|]; cbn [fmap option_fmap option_map].
    + specialize (Hon ps eq_refl). cbn [in_slice]. unfold index_healthy_in_pool. rewrite intersection_vec_spec by done. split.
      * rewrite andb_true_iff, !bool_decide_eq_true, filter_elem. unfold within. rewrite bool_decide_eq_true. tauto.
      * destruct (exceeds_bitset lb); [done|]. apply mask_contains; [done| |done].
        apply denotes_intersect; by apply denotes_indices.
    + cbn [in_slice andb]. split; [by rewrite bool_decide_eq_true|]. unfold index_healthy_in_pool.
      destruct (exceeds_bitset lb); [done|]. by apply indices_contains.
  - rewrite bool_decide_false by (intros E; by apply E). cbn [andb]. destruct on as [ps|]; cbn [fmap option_fmap option_map].
    + specialize (Hon ps eq_refl). cbn [in_slice]. rewrite andb_true_r. split; [by rewrite bool_decide_eq_true|].
      unfold index_healthy_in_pool. destruct (exceeds_bitset lb); [done|]. by apply indices_contains.
    + cbn [in_slice andb]. split; [rewrite elem_of_seq; fold n; split; [lia|done]|].
      unfold index_healthy_in_pool. rewrite healthy_whole. destruct (exceeds_bitset lb); [done|].
      destruct (whole_pool_agree (lb_pool lb) health) as [Hbw Hbe]; [unfold n, lb_size, MAX_BITSET_TARGETS in *; lia|].
      apply eq_bool_prop_intro. rewrite !Is_true_true, bool_decide_eq_true, contains_spec by (apply Hbw || lia).
      rewrite Hbe, healthy_whole. done.
Qed.

Lemma named_pool_ok port name scope : named_pool lb port name = Some scope -> scope_ok n scope.
Proof.
  unfold named_pool. set (on := port ≫= _).
  assert (Hon : forall ps, on = Some ps -> scope_ok n (target_indices ps)).
  { intros ps E. subst on. destruct port as [q|]; [|done]. by apply (lb_ports lb ok q). }
  assert (Hsub : forall nm l, nonempty_subset lb nm = Some l -> scope_ok n l).
  { intros nm l [E _]%nonempty_subset_spec. by apply (lb_subsets lb ok nm). }
  destruct name as [nm|], on as [ps|].
  - destruct (nonempty_subset lb nm) as [l|] eqn:En; [|done]. intros [= <-]. apply filter_scope_ok. by eapply Hsub.
  - by apply Hsub.
  - intros [= <-]. by apply Hon.
  - intros [= <-]. split; [apply seq_ascending|]. apply Forall_forall. intros i Hi%elem_of_seq. fold n in Hi. lia.
Qed.

(** A destination names the target at [idx]. *)
Definition is_destination (orig_dst : SocketAddr) (idx : nat) : Prop :=
  exists t a, targets (lb_pool lb) !! idx = Some t /\ parse_ip (host t) = Some a
    /\ Upstream.port t = Net.port orig_dst /\ canonical_ip a = canonical_ip (Net.ip orig_dst).

Lemma passthrough_match_spec orig_dst s p idx :
  passthrough_match lb orig_dst s p idx = true <->
  in_slice idx p && in_slice idx s = true /\ is_destination orig_dst idx.
Proof.
  unfold passthrough_match, is_destination. rewrite andb_true_iff. apply and_iff_compat_l.
  destruct (targets (lb_pool lb) !! idx) as [t|]; [|naive_solver].
  rewrite andb_true_iff, Z.eqb_eq. destruct (parse_ip (host t)) as [a|] eqn:Ep; [|naive_solver].
  rewrite bool_decide_eq_true. split; [intros []; by exists t, a|]. intros (t' & a' & [= <-] & E & ? & ?). naive_solver.
Qed.

Lemma healthy_of_scope port name scope :
  named_pool lb port name = Some scope -> healthy_in scope ⊆ scope /\ scope_ok n scope.
Proof. intros E. assert (Hs := named_pool_ok port name scope E). by destruct (healthy_scope lb health scope Hs). Qed.

Lemma sticky_exact (token : bytes) (port : option Z) (name : option bytes) (idx : nat) :
  select_sticky lb token port name health = Some idx <->
  is_sticky_session_token token = true /\ sticky_token_index lb !! token = Some idx
  /\ exists scope, named_pool lb port name = Some scope /\ idx ∈ healthy_in scope.
Proof.
  assert (Hhs := healthy_of_scope port name).
  unfold select_sticky. case_bool_decide as Ee.
  { cbn [orb]. rewrite Ee, lookup_empty. naive_solver. }
  cbn [orb]. destruct (is_sticky_session_token token); cbn [negb]; [|naive_solver].
  destruct (sticky_token_index lb !! token) as [i|] eqn:Et; [|naive_solver].
  assert (Hi : (i < n)%nat) by (by eapply (lb_sticky lb ok)). assert (Ht := pool_tests port name i Hi).
  destruct (candidate_pool_indices lb port name) as [[s p]|], (named_pool lb port name) as [scope|]; try done; [|naive_solver].
  destruct Ht as [Ht1 Ht2]. destruct (Hhs scope eq_refl) as [Hsub _]. rewrite <- negb_andb, Ht2.
  assert (Hiff : (if negb (in_slice i p && in_slice i s) then None
    else if negb (bool_decide (i ∈ healthy_in scope)) then None else Some i) = Some idx <-> i = idx /\ i ∈ healthy_in scope).
  { case_bool_decide as Eh.
    - rewrite (proj2 Ht1) by (by apply Hsub). cbn. naive_solver.
    - destruct (in_slice i p && in_slice i s); cbn; naive_solver. }
  rewrite Hiff. naive_solver.
Qed.

Lemma passthrough_exact (orig_dst : SocketAddr) (port : option Z) (name : option bytes) (idx : nat) :
  select_passthrough lb orig_dst port name health = Some idx <->
  exists scope, named_pool lb port name = Some scope /\ idx ∈ scope /\ is_destination orig_dst idx
    /\ (forall j, j ∈ scope -> is_destination orig_dst j -> (idx <= j)%nat) /\ idx ∈ healthy_in scope.
Proof.
  assert (Hhs := healthy_of_scope port name).
  unfold select_passthrough. fold n. destruct (Nat.eqb_spec n 0) as [Ez|Ez].
  { split; [done|]. intros (scope & E & Hin & _). destruct (Hhs scope E) as [_ [_ Hr]].
    rewrite Forall_forall in Hr. specialize (Hr idx Hin). lia. }
  assert (Ht := fun i => pool_tests port name i).
  destruct (candidate_pool_indices lb port name) as [[s p]|], (named_pool lb port name) as [scope|];
    [|by destruct (Ht 0%nat ltac:(lia))|by destruct (Ht 0%nat ltac:(lia))|naive_solver].
  destruct (Hhs scope eq_refl) as [Hsub [_ Hr]]. rewrite Forall_forall in Hr.
  assert (Hm : forall i, (i < n)%nat -> passthrough_match lb orig_dst s p i = true <-> i ∈ scope /\ is_destination orig_dst i).
  { intros i Hi. rewrite passthrough_match_spec. destruct (Ht i Hi) as [-> _]. done. }
  assert (Hf := find_seq (passthrough_match lb orig_dst s p) n).
  destruct (List.find _ (seq 0 n)) as [i|].
  + destruct Hf as (Hi & Hfi & Hmin). destruct (Ht i Hi) as [_ ->]. apply (Hm i Hi) in Hfi as [Hin Hdst].
    assert (Hle : forall j, j ∈ scope -> is_destination orig_dst j -> (i <= j)%nat).
    { intros j Hj Hjd. destruct (decide (i <= j)%nat); [done|]. exfalso.
      assert (Hjf : passthrough_match lb orig_dst s p j = true) by (by apply Hm; [apply Hr|]).
      rewrite Hmin in Hjf by lia. done. }
    case_bool_decide as Eh; [|split; [done|]].
    * split; [intros [= <-]; by exists scope|]. intros (sc & [= <-] & Hin' & Hd' & Hle' & _).
      specialize (Hle idx Hin' Hd'). specialize (Hle' i Hin Hdst). f_equal. lia.
    * intros (sc & [= <-] & Hin' & Hd' & Hle' & Hh'). destruct Eh.
      specialize (Hle idx Hin' Hd'). specialize (Hle' i Hin Hdst). by assert (i = idx) as -> by lia.
  + split; [done|]. intros (sc & [= <-] & Hin' & Hd' & _). assert (Hi : (idx < n)%nat) by (by apply Hr).
    assert (Hff := Hf idx Hi). rewrite (proj2 (Hm idx Hi)) in Hff by done. done.
Qed.

(** C24. Naming a target never escapes the route: a sticky token selects a target
    exactly when it is well formed, was minted for that target of this upstream,
    and the target belongs to the route's pool and is healthy in it; an original
    destination selects exactly the first pool target with that address and port,
    if it is healthy in the pool. Otherwise ordinary selection takes over. *)
Theorem named_selection_exact (token : bytes) (orig_dst : SocketAddr) (port : option Z) (name : option bytes) (idx : nat) :
  (select_sticky lb token port name health = Some idx <->
   is_sticky_session_token token = true /\ sticky_token_index lb !! token = Some idx
   /\ exists scope, named_pool lb port name = Some scope /\ idx ∈ healthy_in scope)
  /\ (select_passthrough lb orig_dst port name health = Some idx <->
      exists scope, named_pool lb port name = Some scope /\ idx ∈ scope /\ is_destination orig_dst idx
        /\ (forall j, j ∈ scope -> is_destination orig_dst j -> (idx <= j)%nat) /\ idx ∈ healthy_in scope).
Proof. split; [apply sticky_exact|apply passthrough_exact]. Qed.
End named.
