(* ===== verification/LbSticky.v ===== *)
(** * Sticky-session identity ([src/src/load_balancer.rs])

    The canonical encoding of a target that a sticky-session token authenticates,
    the token, and the index that resolves it. The keyed hash is the crypto provider's: a parameter, [None] when its key
    could not be initialised. *)

From stdpp Require Import sorting.
From S2P Require Import Prelude Utf8 Decimal RuntimeKeys Upstream Net HashOn LbHealth LbSelect LbRetry.
#[local] Open Scope Z_scope.

Definition STICKY_SESSION_TOKEN_DOMAIN : bytes := bs "ferrum-sticky-session-v3".

Definition absorb_identity_field (b : bytes) : bytes := be_bytes 8 (Z.of_nat (length b)) ++ b.

Definition absorb_optional_identity_field (value : option bytes) : bytes :=
  match value with Some value => 1 :: absorb_identity_field value | None => [0] end.

(** Byte-wise order of the tag keys. *)
Fixpoint bytes_leb (a b : bytes) : bool :=
  match a, b with
  | [], _ => true
  | _ :: _, [] => false
  | x :: a, y :: b => if x =? y then bytes_leb a b else x <? y
  end.

Definition tag_le (a b : bytes * bytes) : Prop := bytes_leb a.1 b.1 = true.
#[global] Instance tag_le_dec : RelDecision tag_le.
Proof. intros a b. unfold tag_le. apply _. Defined.

Definition sorted_tags (t : UpstreamTarget) : list (bytes * bytes) := merge_sort tag_le (map_to_list (tags t)).

Definition absorb_tag (kv : bytes * bytes) : bytes := absorb_identity_field kv.1 ++ absorb_identity_field kv.2.

Definition write_sticky_target_identity (upstream_runtime_key : bytes) (t : UpstreamTarget) : bytes :=
  absorb_identity_field upstream_runtime_key ++ absorb_identity_field (host t)
  ++ be_bytes 2 (Upstream.port t)
  ++ (match service_port_policy_key t with Some policy_port => 1 :: be_bytes 2 policy_port | None => [0; 0; 0] end)
  ++ absorb_optional_identity_field (locality t) ++ absorb_optional_identity_field (path t)
  ++ be_bytes 8 (Z.of_nat (size (tags t))) ++ concat (map absorb_tag (sorted_tags t)).

(** The keyed hash, rendered in hex. *)
Definition keyed_hash : Type := bytes -> option bytes.

Definition sticky_session_token (hmac : keyed_hash) (upstream_runtime_key : bytes) (t : UpstreamTarget) : option bytes :=
  hmac (STICKY_SESSION_TOKEN_DOMAIN ++ [31] ++ write_sticky_target_identity upstream_runtime_key t).

(** [entry(token).or_insert(i)] for every target that has a token. *)
Definition build_sticky_index (hmac : keyed_hash) (upstream_id : bytes) (ts : list UpstreamTarget) : gmap bytes nat :=
  foldl (fun index '(i, t) =>
           match sticky_session_token hmac upstream_id t with
           | Some token => match index !! token with Some _ => index | None => <[token := i]> index end
           | None => index
           end) ∅ (imap pair ts).

(** ** The encoding is injective *)

Lemma be_bytes_inj k v w :
  0 <= v < 256 ^ Z.of_nat k -> 0 <= w < 256 ^ Z.of_nat k -> be_bytes k v = be_bytes k w -> v = w.
Proof. intros Hv Hw E. rewrite <- (be_value_bytes k v Hv), E. by apply be_value_bytes. Qed.

Lemma be_app_inj k v w l m :
  0 <= v < 256 ^ Z.of_nat k -> 0 <= w < 256 ^ Z.of_nat k ->
  be_bytes k v ++ l = be_bytes k w ++ m -> v = w /\ l = m.
Proof.
  intros Hv Hw E. apply app_inj_1 in E as [E1 E2]; [|by rewrite !length_be_bytes]. split; [by eapply be_bytes_inj|done].
Qed.

(** A length that fits a [u64]. *)
Definition fits (b : bytes) : Prop := Z.of_nat (length b) < 2 ^ 64.

Lemma field_inj a b l m :
  fits a -> fits b -> absorb_identity_field a ++ l = absorb_identity_field b ++ m -> a = b /\ l = m.
Proof.
  unfold absorb_identity_field, fits. intros Ha Hb. rewrite <- !app_assoc. intros E.
  apply be_app_inj in E as [El E]; [|change (256 ^ Z.of_nat 8) with (2 ^ 64); lia..].
  by apply app_inj_1 in E; [|lia].
Qed.

Lemma optional_inj a b l m :
  (forall v, a = Some v -> fits v) -> (forall v, b = Some v -> fits v) ->
  absorb_optional_identity_field a ++ l = absorb_optional_identity_field b ++ m -> a = b /\ l = m.
Proof.
  intros Ha Hb. destruct a as [a|], b as [b|]; cbn [absorb_optional_identity_field app]; intros E; [|done|done|].
  - apply (f_equal (@tail Z)) in E. change (absorb_identity_field a ++ l = absorb_identity_field b ++ m) in E.
    apply field_inj in E as [-> ->]; [done|by apply Ha|by apply Hb].
  - by injection E as ->.
Qed.

Lemma tags_inj l : forall k,
  Forall (fun kv => fits kv.1 /\ fits kv.2) l -> Forall (fun kv => fits kv.1 /\ fits kv.2) k ->
  length l = length k -> concat (map absorb_tag l) = concat (map absorb_tag k) -> l = k.
Proof.
  induction l as [|[a b] l IH]; intros [|[c d] k] Hl Hk Hlen E; try done.
  apply Forall_cons in Hl as [[Ha Hb] Hl]. apply Forall_cons in Hk as [[Hc Hd] Hk]. cbn [map concat] in E.
  unfold absorb_tag at 1 3 in E. cbn [fst snd] in *. rewrite <- !app_assoc in E.
  apply field_inj in E as [-> E]; [|done|done]. apply field_inj in E as [-> E]; [|done|done].
  f_equal. apply IH; [done|done|by injection Hlen|done].
Qed.

(** A target as the configuration types bound it. *)
Record target_wf (t : UpstreamTarget) : Prop := {
  wf_host : fits (host t);
  wf_port : is_u16 (Upstream.port t);
  wf_policy : forall p, service_port_policy_key t = Some p -> is_u16 p;
  wf_locality : forall v, locality t = Some v -> fits v;
  wf_path : forall v, path t = Some v -> fits v;
  wf_tags : Z.of_nat (size (tags t)) < 2 ^ 64 /\ forall k v, tags t !! k = Some v -> fits k /\ fits v;
}.

Lemma sorted_tags_wf t : target_wf t -> Forall (fun kv => fits kv.1 /\ fits kv.2) (sorted_tags t).
Proof.
  intros H. unfold sorted_tags. rewrite merge_sort_Permutation. apply Forall_forall.
  intros [k v] Hkv%elem_of_map_to_list. by apply (wf_tags t H).
Qed.

Lemma sorted_tags_determine a b : sorted_tags a = sorted_tags b -> tags a = tags b.
Proof.
  intros E. rewrite <- (list_to_map_to_list (tags a)), <- (list_to_map_to_list (tags b)).
  apply list_to_map_proper; [apply NoDup_fst_map_to_list|].
  rewrite <- (merge_sort_Permutation tag_le (map_to_list (tags a))), <- (merge_sort_Permutation tag_le (map_to_list (tags b))).
  unfold sorted_tags in E. by rewrite E.
Qed.

Lemma identity_spec a b :
  same_sticky_identity a b = true <->
  host a = host b /\ Upstream.port a = Upstream.port b /\ service_port_policy_key a = service_port_policy_key b
  /\ locality a = locality b /\ path a = path b /\ tags a = tags b.
Proof.
  unfold same_sticky_identity, same_sticky_identity_except_host.
  rewrite !andb_true_iff, eqb_bytes_spec, Z.eqb_eq, !bool_decide_eq_true. tauto.
Qed.

Lemma identity_encoded key key' a b :
  fits key -> fits key' -> target_wf a -> target_wf b ->
  write_sticky_target_identity key a = write_sticky_target_identity key' b -> key = key' /\ same_sticky_identity a b = true.
Proof.
  intros Hk Hk' Ha Hb E. rewrite identity_spec. unfold write_sticky_target_identity in E.
  apply field_inj in E as [<- E]; [|done|done]. split; [done|].
  apply field_inj in E as [Eh E]; [|apply Ha|apply Hb].
  apply be_app_inj in E as [Ep E]; [|apply Ha|apply Hb].
  assert (Epol : service_port_policy_key a = service_port_policy_key b /\ forall l m,
    (match service_port_policy_key a with Some q => 1 :: be_bytes 2 q | None => [0; 0; 0] end) ++ l
    = (match service_port_policy_key b with Some q => 1 :: be_bytes 2 q | None => [0; 0; 0] end) ++ m -> l = m).
  { assert (Hpa := wf_policy a Ha). assert (Hpb := wf_policy b Hb).
    destruct (service_port_policy_key a) as [qa|], (service_port_policy_key b) as [qb|]; [|done|done|].
    - apply (f_equal (@tail Z)) in E. cbn [app tail] in E. apply be_app_inj in E as [-> _]; [|by apply Hpa|by apply Hpb].
      split; [done|]. intros l m E'. apply (f_equal (@tail Z)) in E'. cbn [app tail] in E'.
      by apply app_inj_1 in E' as [_ ?].
    - split; [done|]. by intros l m [= ->]. }
  destruct Epol as [Epol Etail]. apply Etail in E. clear Etail.
  apply optional_inj in E as [El E]; [|apply Ha|apply Hb]. apply optional_inj in E as [Epa E]; [|apply Ha|apply Hb].
  apply be_app_inj in E as [Es E];
    [|destruct (wf_tags a Ha); change (256 ^ Z.of_nat 8) with (2 ^ 64); lia
     |destruct (wf_tags b Hb); change (256 ^ Z.of_nat 8) with (2 ^ 64); lia].
  apply tags_inj in E; [|by apply sorted_tags_wf|by apply sorted_tags_wf|].
  + split_and!; try done. by apply sorted_tags_determine.
  + unfold sorted_tags. rewrite !merge_sort_Permutation, !length_map_to_list. lia.
Qed.

(** A sticky token names exactly one backend identity: within any upstreams, two
    targets have the same authenticated encoding precisely when they belong to the
    same upstream and agree on host, port, policy lane, locality, path and every
    tag; no content of one field can be read as another, and the weight plays no
    part. *)
Theorem sticky_identity_exact (key key' : bytes) (a b : UpstreamTarget) :
  fits key -> fits key' -> target_wf a -> target_wf b ->
  write_sticky_target_identity key a = write_sticky_target_identity key' b
  <-> key = key' /\ same_sticky_identity a b = true.
Proof.
  intros Hk Hk' Ha Hb. split; [by apply identity_encoded|]. rewrite identity_spec.
  intros (<- & Eh & Ep & Epol & El & Epa & Et). unfold write_sticky_target_identity, sorted_tags.
  by rewrite Eh, Ep, Epol, El, Epa, Et.
Qed.

(** ** The index *)

Lemma sticky_index_snoc hmac id ts t :
  build_sticky_index hmac id (ts ++ [t])
  = match sticky_session_token hmac id t with
    | Some token =>
      match build_sticky_index hmac id ts !! token with
      | Some _ => build_sticky_index hmac id ts
      | None => <[token := length ts]> (build_sticky_index hmac id ts)
      end
    | None => build_sticky_index hmac id ts
    end.
Proof. unfold build_sticky_index. rewrite imap_app, foldl_app. cbn. by rewrite Nat.add_0_r. Qed.

(** A token resolves to a target it was minted for, if there is one. *)
Lemma sticky_index_spec hmac id ts token :
  match build_sticky_index hmac id ts !! token with
  | Some i => exists t, ts !! i = Some t /\ sticky_session_token hmac id t = Some token
  | None => forall t, t ∈ ts -> sticky_session_token hmac id t <> Some token
  end.
Proof.
  induction ts as [|t ts IH] using rev_ind.
  { change (build_sticky_index hmac id []) with (∅ : gmap bytes nat). rewrite lookup_empty. intros t Ht. by apply elem_of_nil in Ht. }
  rewrite sticky_index_snoc.
  assert (Hmono : forall i, (exists t0, ts !! i = Some t0 /\ sticky_session_token hmac id t0 = Some token) ->
    exists t0, (ts ++ [t]) !! i = Some t0 /\ sticky_session_token hmac id t0 = Some token).
  { intros i (t0 & H0 & Ht). exists t0. split; [by apply lookup_app_l_Some|done]. }
  destruct (sticky_session_token hmac id t) as [tok|] eqn:Et.
  - destruct (build_sticky_index hmac id ts !! tok) as [j|] eqn:Ej.
    + destruct (build_sticky_index hmac id ts !! token) as [i|] eqn:Ei; [by apply Hmono|].
      intros t0 [Hin| ->%list_elem_of_singleton]%elem_of_app; [by apply IH|congruence].
    + destruct (decide (tok = token)) as [->|Hne].
      * rewrite lookup_insert, decide_True by done. exists t. split; [by rewrite lookup_app_r, Nat.sub_diag|done].
      * rewrite lookup_insert_ne by done. destruct (build_sticky_index hmac id ts !! token) as [i|] eqn:Ei; [by apply Hmono|].
        intros t0 [Hin| ->%list_elem_of_singleton]%elem_of_app; [by apply IH|congruence].
  - destruct (build_sticky_index hmac id ts !! token) as [i|] eqn:Ei; [by apply Hmono|].
    intros t0 [Hin| ->%list_elem_of_singleton]%elem_of_app; [by apply IH|congruence].
Qed.

(** ** The configured origin of a served target *)

(** A served target is traced back to its configuration without ever crossing an
    identity: when a configured target has the served target's full identity that
    one is returned, so a pinned host stays pinned; otherwise a configured wildcard
    that covers the served host and agrees on port, policy lane, locality, path and
    tags; otherwise the served target itself. *)
Theorem configured_origin_exact (ts : list UpstreamTarget) (served : UpstreamTarget) :
  let origin := configured_origin ts served None in
  ((exists t, t ∈ ts /\ same_sticky_identity t served = true) ->
   origin ∈ ts /\ same_sticky_identity origin served = true)
  /\ ((forall t, t ∈ ts -> same_sticky_identity t served = false) ->
      origin = served \/ origin ∈ ts /\ same_sticky_identity_except_host origin served = true
                         /\ starts_with_wildcard (host origin) = true
                         /\ RouteTable.wildcard_matches (host origin) (host served) = true).
Proof.
  assert (H : forall w,
    ((exists t, t ∈ ts /\ same_sticky_identity t served = true) ->
     configured_origin ts served w ∈ ts /\ same_sticky_identity (configured_origin ts served w) served = true)
    /\ ((forall t, t ∈ ts -> same_sticky_identity t served = false) ->
        configured_origin ts served w = default served w \/ w = None /\ configured_origin ts served w ∈ ts
        /\ same_sticky_identity_except_host (configured_origin ts served w) served = true
        /\ starts_with_wildcard (host (configured_origin ts served w)) = true
        /\ RouteTable.wildcard_matches (host (configured_origin ts served w)) (host served) = true)).
  { induction ts as [|c ts IH]; intros w; cbn [configured_origin].
    { split; [intros (t & Ht & _); by apply elem_of_nil in Ht|by left]. }
    unfold same_sticky_identity in *. destruct (same_sticky_identity_except_host c served) eqn:Ee; cbn [negb].
    2:{ destruct (IH w) as [H1 H2]. split.
        - intros (t & [->|Ht]%elem_of_cons & Hs); [rewrite Ee, andb_false_r in Hs; done|].
          destruct H1 as [Hin Hsame]; [by exists t|]. split; [by right|done].
        - intros Hno. destruct H2 as [?|(? & ? & ?)]; [intros t Ht; apply Hno; by right|by left|].
          right. split; [done|]. split; [by right|done]. }
    destruct (eqb_bytes (host c) (host served)) eqn:Eh.
    { split; [intros _; split; [by left|by rewrite Eh, Ee]|]. intros Hno. specialize (Hno c ltac:(by left)).
      rewrite Eh, Ee in Hno. done. }
    assert (Htail : forall w', ((exists t, t ∈ c :: ts /\ eqb_bytes (host t) (host served) && same_sticky_identity_except_host t served = true) ->
      configured_origin ts served w' ∈ c :: ts
      /\ eqb_bytes (host (configured_origin ts served w')) (host served) && same_sticky_identity_except_host (configured_origin ts served w') served = true)).
    { intros w' (t & [->|Ht]%elem_of_cons & Hs); [rewrite Eh in Hs; done|]. destruct (IH w') as [H1 _].
      destruct H1 as [Hin Hsame]; [by exists t|]. split; [by right|done]. }
    destruct (bool_decide (w = None) && starts_with_wildcard (host c) && RouteTable.wildcard_matches (host c) (host served)) eqn:Ew.
    - apply andb_true_iff in Ew as [[Ew1 Ew2]%andb_true_iff Ew3]. apply bool_decide_eq_true in Ew1 as ->.
      split; [apply Htail|]. intros Hno. right. split; [done|].
      destruct (IH (Some c)) as [_ H2]. destruct H2 as [E|[E _]]; [intros t Ht; apply Hno; by right| |done].
      cbn in E. rewrite E. split_and!; try done. by left.
    - split; [apply Htail|]. intros Hno. destruct (IH w) as [_ H2].
      destruct H2 as [?|(? & ? & ?)]; [intros t Ht; apply Hno; by right|by left|]. right. split; [done|]. split; [by right|done]. }
  cbn zeta. destruct (H None) as [H1 H2]. split; [exact H1|]. intros Hno. destruct (H2 Hno) as [E|(_ & E)]; [by left|by right].
Qed.
