(* ===== verification/LbLocalityBuild.v ===== *)
(** * Locality state of a balancer ([src/src/load_balancer.rs],
    [src/src/config/types.rs])

    What is precomputed when a balancer is built: the locality tier of every
    target, the weighted locality buckets of a matching distribute entry, the
    targets of a failover region, and the failover-priority ranks. *)

From Stdlib Require Import Sorted.
From stdpp Require Import sorting.
From S2P Require Import Prelude Utf8 Decimal RuntimeKeys Upstream Cidr HealthBitset SmoothWrr WrrSelect LbHealth LbLocality LbMetrics LbAlgorithms LbDispatch LbSelect LbSelectSpec.
#[local] Open Scope Z_scope.

(** ** Localities *)

Record LocalityPreference := Pref {
  region : bytes;
  zone : option bytes;
  sub_zone : option bytes;
}.

(** [splitn(n, sep)] for [n] at least one. *)
Fixpoint splitn (n : nat) (sep : Z) (l : bytes) : list bytes :=
  match n with
  | O => []
  | S O => [l]
  | S n => match split_once sep l with Some (a, b) => a :: splitn n sep b | None => [l] end
  end.

Definition slash : Z := 47.

Definition nonempty (part : option bytes) : option bytes :=
  match part with Some [] => None | _ => part end.

Definition locality_parse (raw : bytes) : option LocalityPreference :=
  let trimmed := trim raw in
  if bool_decide (trimmed = []) then None
  else
    let parts := map trim (splitn 3 slash trimmed) in
    match parts !! 0%nat with
    | None | Some [] => None
    | Some region => Some (Pref region (nonempty (parts !! 1%nat)) (nonempty (parts !! 2%nat)))
    end.

Definition exact_matches (a b : LocalityPreference) : bool :=
  bool_decide (region a = region b) && bool_decide (zone a = zone b) && bool_decide (sub_zone a = sub_zone b).
Definition same_zone (a b : LocalityPreference) : bool :=
  bool_decide (region a = region b) && bool_decide (zone a <> None) && bool_decide (zone a = zone b).
Definition same_region (a b : LocalityPreference) : bool := bool_decide (region a = region b).

Definition target_locality (t : UpstreamTarget) : option LocalityPreference := locality t ≫= locality_parse.

(** Exact, zone, region, no preference. *)
Definition locality_tier (source : LocalityPreference) (t : UpstreamTarget) : Z :=
  match target_locality t with
  | None => 3
  | Some l => if exact_matches source l then 0 else if same_zone source l then 1 else if same_region source l then 2 else 3
  end.

Definition build_locality_ranks (source_locality : option bytes) (ts : list UpstreamTarget) : list Z :=
  match source_locality ≫= locality_parse with Some source => map (locality_tier source) ts | None => [] end.

(** ** Settings *)

Record LocalityDistribute := DistributeEntry { distribute_from : bytes; distribute_to : list (bytes * Z) }.
Record LocalityFailover := FailoverEntry { failover_from : bytes; failover_to : bytes }.

Record UpstreamLocalityLbSetting := LbSetting {
  setting_enabled : bool;
  distribute : list LocalityDistribute;
  failover : list LocalityFailover;
  failover_priority : list bytes;
}.

(** ** Failover priority *)

Definition equals_sign : Z := 61.

Definition parse_failover_priority_entry (raw : bytes) : option (bytes * option bytes) :=
  let trimmed := trim raw in
  if bool_decide (trimmed = []) || negb (bool_decide (trimmed = raw)) then None
  else
    match split_once equals_sign trimmed with
    | Some (key, value) => if bool_decide (key = []) || bool_decide (equals_sign ∈ value) then None else Some (key, Some value)
    | None => Some (trimmed, None)
    end.

Definition LABEL_NETWORK : bytes := bs "topology.istio.io/network".
Definition LABEL_CLUSTER : bytes := bs "topology.istio.io/cluster".
Definition LABEL_REGION : bytes := bs "topology.kubernetes.io/region".
Definition LABEL_ZONE : bytes := bs "topology.kubernetes.io/zone".
Definition LABEL_SUBZONE : bytes := bs "topology.istio.io/subzone".

Definition locality_segment (raw : option bytes) (index : nat) : option bytes :=
  match raw with
  | None => None
  | Some raw =>
    let raw := trim raw in
    if bool_decide (raw = []) then None
    else
      let parts := map trim (splitn 3 slash raw) in
      match parts !! 0%nat with
      | None | Some [] => None
      | Some region => if (index =? 0)%nat then Some region else nonempty (parts !! index)
      end
  end.

Definition endpoint_failover_priority_label (t : UpstreamTarget) (key : bytes) : bytes :=
  match tags t !! key with
  | Some value => value
  | None =>
    if bool_decide (key = LABEL_REGION) then default [] (locality_segment (locality t) 0)
    else if bool_decide (key = LABEL_ZONE) then default [] (locality_segment (locality t) 1)
    else if bool_decide (key = LABEL_SUBZONE) then default [] (locality_segment (locality t) 2)
    else if bool_decide (key = LABEL_NETWORK) then default [] (tags t !! bs "mesh.network")
    else if bool_decide (key = LABEL_CLUSTER) then default [] (tags t !! bs "mesh.cluster")
    else []
  end.

(** The label loop: position [j] of the remaining labels, the demotion so far. *)
Fixpoint priority_scan (t : UpstreamTarget) (expected : list (bytes * bytes)) (j lowest adjust : Z)
    (includes_network : bool) : Z :=
  match expected with
  | [] => saturating_add 64 0 adjust
  | (key, value) :: rest =>
    if bool_decide (endpoint_failover_priority_label t key = value)
    then priority_scan t rest (j + 1) lowest adjust includes_network
    else if (j =? 0) && includes_network then priority_scan t rest (j + 1) lowest lowest includes_network
    else saturating_add 64 (saturating_sub lowest j) adjust
  end.

Definition compute_failover_priority_ranks (priority : list bytes) (source_labels : gmap bytes bytes)
    (ts : list UpstreamTarget) : list Z :=
  let lowest := Z.of_nat (length priority) in
  match mapM parse_failover_priority_entry priority with
  | None => map (fun _ => lowest) ts
  | Some entries =>
    let includes_network := bool_decide (head priority = Some LABEL_NETWORK) in
    let overridden : gmap bytes bytes :=
      foldl (fun m '(key, value) => match value with Some v => <[key := v]> m | None => m end) ∅ entries in
    let expected :=
      map (fun '(key, _) =>
             (key, match overridden !! key with Some v => v | None => default [] (source_labels !! key) end)) entries in
    map (fun t => priority_scan t expected 0 lowest 0 includes_network) ts
  end.

(** ** Distribute *)

Definition star : bytes := bs "*".

Definition locality_match_for_distribute (to target : LocalityPreference) : bool :=
  if negb (bool_decide (region to = star)) && negb (bool_decide (region to = region target)) then false
  else
    match zone to with
    | None => true
    | Some to_zone =>
      if bool_decide (to_zone = star) then true
      else if negb (bool_decide (zone target = Some to_zone)) then false
      else
        match sub_zone to with
        | Some to_sub => bool_decide (to_sub = star) || bool_decide (sub_zone target = Some to_sub)
        | None => true
        end
    end.

Definition locality_distribute_specificity (to : LocalityPreference) : Z :=
  if bool_decide (region to = star) then 0
  else
    match zone to with
    | None => 1
    | Some z =>
      if bool_decide (z = star) then 1
      else match sub_zone to with None => 2 | Some s => if bool_decide (s = star) then 2 else 3 end
    end.

Definition locality_from_matches_source (from source : LocalityPreference) : bool :=
  if bool_decide (region from = star) && bool_decide (zone from = None) && bool_decide (sub_zone from = None) then true
  else if negb (bool_decide (region from = star)) && negb (bool_decide (region from = region source)) then false
  else
    match zone from with
    | None => bool_decide (sub_zone from = None)
    | Some from_zone =>
      if bool_decide (from_zone = star) then true
      else if negb (bool_decide (zone source = Some from_zone)) then false
      else
        match sub_zone from with
        | None => true
        | Some from_sub => bool_decide (from_sub = star) || bool_decide (sub_zone source = Some from_sub)
        end
    end.

Definition LOCALITY_DISTRIBUTE_WEIGHT_SCALE : Z := 1000000.

(** The most specific matching entry, the first among equals. *)
Definition best_to_entry (to_entries : list (LocalityPreference * Z)) (target : option LocalityPreference) : option nat :=
  match target with
  | None => None
  | Some target =>
    fst <$> foldl (fun best '(to_idx, (to, _)) =>
               if negb (locality_match_for_distribute to target) then best
               else
                 let specificity := locality_distribute_specificity to in
                 match best with
                 | None => Some (to_idx, specificity)
                 | Some (_, best_specificity) => if best_specificity <? specificity then Some (to_idx, specificity) else best
                 end) None (imap pair to_entries)
  end.

(** An endpoint's part of a locality: index, share, remainder, endpoint weight. *)
Record allocation := Alloc { al_idx : nat; al_share : Z; al_rem : Z; al_weight : Z }.

Definition allocation_le (a b : allocation) : Prop :=
  al_rem b < al_rem a \/ al_rem b = al_rem a /\ (al_idx a <= al_idx b)%nat.
#[global] Instance allocation_le_dec : RelDecision allocation_le.
Proof. intros a b. unfold allocation_le. apply _. Defined.

Definition allocate (scaled total : Z) (iw : nat * Z) : allocation :=
  let '(idx, w) := iw in
  if w =? 0 then Alloc idx 0 0 w
  else
    let numerator := saturating_mul 128 scaled w in
    Alloc idx (wrap 64 (numerator / total)) (numerator mod total) w.

(** One leftover unit per positive endpoint, largest remainder first; endpoints
    left without a share drop out. *)
Fixpoint hand_out (allocations : list allocation) (leftover : Z) : list (nat * Z) :=
  match allocations with
  | [] => []
  | a :: rest =>
    let '(share, leftover) :=
      if (0 <? al_weight a) && (0 <? leftover) then (saturating_add 64 (al_share a) 1, leftover - 1)
      else (al_share a, leftover) in
    if share =? 0 then hand_out rest leftover else (al_idx a, share) :: hand_out rest leftover
  end.

Definition locality_shares (to_weight : Z) (matching : list (nat * Z)) : option (list (nat * Z)) :=
  let scaled := saturating_mul 64 to_weight LOCALITY_DISTRIBUTE_WEIGHT_SCALE in
  let total := list_sum_Z (map snd matching) in
  if total =? 0 then None
  else
    let allocations := map (allocate scaled total) matching in
    let allocated := foldl (fun acc a => if al_weight a =? 0 then acc else saturating_add 64 acc (al_share a)) 0 allocations in
    Some (hand_out (merge_sort allocation_le allocations) (saturating_sub scaled allocated)).

Definition saturating_sum (l : list Z) : Z := foldl (saturating_add 64) 0 l.

Definition group_of (n : nat) (shares : list (nat * Z)) : LocalityDistributeGroup :=
  let indices := map fst shares in
  Group (saturating_sum (map snd shares)) indices (membership_mask_for_indices n indices).

(** The buckets of one distribute entry, with the weights of its endpoints. *)
Definition entry_step (ts : list UpstreamTarget) (best : list (option nat))
    (acc : list Z * Z * list LocalityDistributeGroup) (e : nat * (LocalityPreference * Z))
    : list Z * Z * list LocalityDistributeGroup :=
  let '(ws, total, groups) := acc in
  let '(to_idx, (_, to_weight)) := e in
  let matching :=
    omap (fun '(idx, t) =>
            if bool_decide (best !! idx = Some (Some to_idx)) then Some (idx, Upstream.weight t) else None) (imap pair ts) in
  match matching with
  | [] => acc
  | _ =>
    match locality_shares to_weight matching with
    | None => acc
    | Some shares =>
      let ws := foldl (fun ws '(idx, share) => alter (fun w => saturating_add 64 w share) idx ws) ws shares in
      let total := foldl (fun total '(_, share) => saturating_add 64 total share) total shares in
      let g := group_of (length ts) shares in
      (ws, total, if 0 <? group_weight g then groups ++ [g] else groups)
    end
  end.

Definition distribute_entry (ts : list UpstreamTarget) (to : list (bytes * Z)) : list Z * Z * list LocalityDistributeGroup :=
  let to_entries := omap (fun '(l, w) => (fun p => (p, w)) <$> locality_parse l) to in
  let best := map (fun t => best_to_entry to_entries (target_locality t)) ts in
  foldl (entry_step ts best) (replicate (length ts) 0, 0, []) (imap pair to_entries).

Fixpoint first_distribute (source : LocalityPreference) (ts : list UpstreamTarget) (entries : list LocalityDistribute)
    : option (list Z * list LocalityDistributeGroup) :=
  match entries with
  | [] => None
  | e :: entries =>
    match locality_parse (distribute_from e) with
    | None => first_distribute source ts entries
    | Some from =>
      if negb (locality_from_matches_source from source) then first_distribute source ts entries
      else
        let '(ws, total, groups) := distribute_entry ts (distribute_to e) in
        if 0 <? total then Some (ws, groups) else first_distribute source ts entries
    end
  end.

Fixpoint first_failover (source : LocalityPreference) (ts : list UpstreamTarget) (entries : list LocalityFailover)
    : option (list bool) :=
  match entries with
  | [] => None
  | e :: entries =>
    if negb (bool_decide (failover_from e = region source)) then first_failover source ts entries
    else
      let matched t := match target_locality t with Some l => bool_decide (region l = failover_to e) | None => false end in
      if existsb matched ts then Some (map matched ts) else first_failover source ts entries
  end.

(** ** The state *)

Definition plain_locality (enabled : bool) : LocalityLbState := LocalityLb enabled None None None None.

Definition build_locality_lb_state (setting : option UpstreamLocalityLbSetting) (source_locality : option bytes)
    (source_labels : gmap bytes bytes) (ts : list UpstreamTarget) : option LocalityLbState :=
  match setting with
  | None => None
  | Some s =>
    if negb (setting_enabled s) then Some (plain_locality false)
    else if negb (bool_decide (failover_priority s = [])) && negb (bool_decide (source_labels = ∅)) then
      Some (LocalityLb true None None None (Some (compute_failover_priority_ranks (failover_priority s) source_labels ts)))
    else
      match source_locality ≫= locality_parse with
      | None => Some (plain_locality true)
      | Some source =>
        let distributed := first_distribute source ts (distribute s) in
        let failover_matches :=
          match distributed with Some _ => None | None => first_failover source ts (failover s) end in
        Some (LocalityLb true (fst <$> distributed) (snd <$> distributed) failover_matches None)
      end
  end.

(** ** The shares of a locality *)

Definition positive_count (l : list allocation) : Z := Z.of_nat (length (List.filter (fun a => 0 <? al_weight a) l)).
Definition share_sum (l : list allocation) : Z := list_sum_Z (map al_share l).

Lemma share_sum_perm l k : l ≡ₚ k -> share_sum l = share_sum k /\ positive_count l = positive_count k.
Proof.
  unfold share_sum, positive_count, list_sum_Z.
  induction 1 as [|x l k Hp [IH1 IH2]|x y l|l k m Hp1 [IH1 IH2] Hp2 [IH3 IH4]]; cbn [map foldr List.filter];
    [done|destruct (0 <? al_weight x); cbn [length]; lia| |lia].
  destruct (0 <? al_weight x), (0 <? al_weight y); cbn [length]; lia.
Qed.

Section shares.
Context (to_weight : Z) (matching : list (nat * Z)).
Hypothesis weight_u32 : is_u32 to_weight.
Hypothesis weights_u32 : Forall (fun iw => is_u32 iw.2) matching.

Let scaled := to_weight * LOCALITY_DISTRIBUTE_WEIGHT_SCALE.
Let total := list_sum_Z (map snd matching).
Hypothesis total_pos : 0 < total.

Lemma scaled_bounds : 0 <= scaled < 2 ^ 52.
Proof. unfold scaled, LOCALITY_DISTRIBUTE_WEIGHT_SCALE, in_width in *. lia. Qed.

Lemma scaled_exact : saturating_mul 64 to_weight LOCALITY_DISTRIBUTE_WEIGHT_SCALE = scaled.
Proof. assert (H := scaled_bounds). unfold saturating_mul, umax, scaled in *. lia. Qed.

Lemma weight_le_total iw : iw ∈ matching -> 0 <= iw.2 <= total.
Proof.
  intros Hin. unfold total. clear total_pos. induction matching as [|x l IH]; [by apply elem_of_nil in Hin|].
  apply Forall_cons in weights_u32 as [Hx Hl]. cbn [map list_sum_Z foldr]. fold (list_sum_Z (map snd l)).
  assert (Hn : 0 <= list_sum_Z (map snd l)).
  { clear -Hl. induction Hl as [|y l Hy Hl IHl]; [done|]. cbn [map list_sum_Z foldr]. fold (list_sum_Z (map snd l)).
    unfold in_width in Hy. lia. }
  unfold in_width in Hx. apply elem_of_cons in Hin as [->|Hin]; [lia|]. specialize (IH Hl Hin). lia.
Qed.

(** The exact quotient and remainder of an endpoint. *)
Lemma allocate_exact iw : iw ∈ matching ->
  let a := allocate scaled total iw in
  al_idx a = iw.1 /\ al_weight a = iw.2 /\ 0 <= al_share a <= scaled /\ 0 <= al_rem a < total
  /\ al_share a * total + al_rem a = scaled * iw.2 /\ (iw.2 = 0 -> al_share a = 0 /\ al_rem a = 0).
Proof.
  intros Hin. destruct iw as [i w]. assert (Hw := weight_le_total _ Hin). cbn [snd] in Hw.
  assert (Hb := scaled_bounds). unfold allocate. destruct (Z.eqb_spec w 0) as [->|Hne]; cbn; [lia|].
  assert (Hu : w < 2 ^ 32) by (rewrite Forall_forall in weights_u32; specialize (weights_u32 _ Hin); unfold in_width in *; cbn in *; lia).
  assert (Hsat : saturating_mul 128 scaled w = scaled * w).
  { unfold saturating_mul, umax. apply Z.min_l. assert (scaled * w <= 2 ^ 52 * 2 ^ 32) by nia. lia. }
  rewrite Hsat. assert (Hq : 0 <= scaled * w / total <= scaled).
  { split; [apply Z.div_pos; nia|]. apply Z.div_le_upper_bound; nia. }
  assert (Hm := Z.mod_pos_bound (scaled * w) total total_pos). assert (Hd := Z.div_mod (scaled * w) total ltac:(lia)).
  unfold wrap. rewrite Z.mod_small by lia. repeat split; try lia.
Qed.

Let allocations := map (allocate scaled total) matching.

(** What the division leaves over is less than one unit per positive endpoint. *)
Lemma leftover_small : 0 <= scaled - share_sum allocations <= positive_count allocations.
Proof.
  assert (H : forall l, l ⊆ matching ->
    let al := map (allocate scaled total) l in
    exists r, share_sum al * total + r = scaled * list_sum_Z (map snd l) /\ 0 <= r <= positive_count al * total).
  { induction l as [|iw l IH]; intros Hsub; cbn zeta; [exists 0; unfold share_sum, positive_count; cbn; lia|].
    destruct IH as (r & Hr & Hb); [set_solver|].
    destruct (allocate_exact iw) as (_ & Haw & Hs & Hrm & Heq & H0); [set_solver|].
    assert (Hw := weight_le_total iw ltac:(set_solver)).
    exists (al_rem (allocate scaled total iw) + r). unfold share_sum, positive_count in *.
    cbn [map list_sum_Z foldr List.filter]. fold (list_sum_Z (map al_share (map (allocate scaled total) l))).
    fold (list_sum_Z (map snd l)). rewrite Haw. destruct (Z.ltb_spec 0 iw.2).
    - cbn [length]. rewrite Nat2Z.inj_succ. nia.
    - destruct H0 as [E1 E2]; [lia|]. nia. }
  destruct (H matching) as (r & Hr & Hb); [done|]. fold allocations total in Hr, Hb.
  assert (Hp : 0 <= positive_count allocations) by (unfold positive_count; lia). nia.
Qed.

(** Every leftover unit is handed out. *)
Lemma hand_out_sum l : forall k,
  Forall (fun a => 0 <= al_share a <= scaled) l -> 0 <= k <= positive_count l ->
  list_sum_Z (map snd (hand_out l k)) = share_sum l + k.
Proof.
  assert (Hb := scaled_bounds).
  induction l as [|a l IH]; intros k HF Hk; [cbn in *; unfold positive_count in Hk; cbn in Hk; lia|].
  apply Forall_cons in HF as [Ha HF]. unfold positive_count in Hk, IH. cbn [List.filter] in Hk. cbn [hand_out].
  unfold share_sum in *. cbn [map list_sum_Z foldr]. fold (list_sum_Z (map al_share l)).
  destruct (0 <? al_weight a) eqn:Ew; cbn [andb].
  - cbn [length] in Hk. destruct (Z.ltb_spec 0 k).
    + rewrite saturating_add_small by (unfold umax; lia). rewrite (proj2 (Z.eqb_neq _ 0)) by lia.
      cbn [map list_sum_Z foldr]. fold (list_sum_Z (map snd (hand_out l (k - 1)))). rewrite IH by (try done; lia). cbn; lia.
    + destruct (Z.eqb_spec (al_share a) 0) as [E|E]; [rewrite IH by (try done; lia); lia|].
      cbn [map list_sum_Z foldr]. fold (list_sum_Z (map snd (hand_out l k))). rewrite IH by (try done; lia). cbn; lia.
  - destruct (Z.eqb_spec (al_share a) 0) as [E|E]; [rewrite IH by (try done; lia); lia|].
    cbn [map list_sum_Z foldr]. fold (list_sum_Z (map snd (hand_out l k))). rewrite IH by (try done; lia). cbn; lia.
Qed.

Lemma hand_out_members l k :
  sublist (map fst (hand_out l k)) (map al_idx l).
Proof.
  revert k. induction l as [|a l IH]; intros k; cbn [hand_out]; [done|].
  destruct ((0 <? al_weight a) && (0 <? k)); (destruct (_ =? 0); [by constructor|]); cbn [map fst]; by constructor.
Qed.

Lemma hand_out_share l : forall k i s, Forall (fun a => 0 <= al_share a <= scaled) l ->
  (i, s) ∈ hand_out l k -> exists a, a ∈ l /\ al_idx a = i /\ al_share a <= s <= al_share a + 1 /\ 0 < s
    /\ (s = al_share a \/ 0 < al_weight a).
Proof.
  assert (Hb := scaled_bounds).
  induction l as [|a l IH]; intros k i s HF Hin; cbn [hand_out] in Hin; [by apply elem_of_nil in Hin|].
  apply Forall_cons in HF as [Ha HF].
  assert (Htail : forall k', (i, s) ∈ hand_out l k' -> exists a0, a0 ∈ a :: l /\ al_idx a0 = i
    /\ al_share a0 <= s <= al_share a0 + 1 /\ 0 < s /\ (s = al_share a0 \/ 0 < al_weight a0)).
  { intros k' Hk'. destruct (IH k' i s HF Hk') as (a0 & H0 & H1). exists a0. split; [by right|done]. }
  destruct ((0 <? al_weight a) && (0 <? k)) eqn:Ew.
  - rewrite saturating_add_small in Hin by (unfold umax; lia). rewrite (proj2 (Z.eqb_neq _ 0)) in Hin by lia.
    apply elem_of_cons in Hin as [[= -> ->]|Hin]; [|by eapply Htail]. exists a. split; [by left|].
    apply andb_true_iff in Ew as [Ew _]. apply Z.ltb_lt in Ew. repeat split; try lia.
  - destruct (Z.eqb_spec (al_share a) 0); [by eapply Htail|].
    apply elem_of_cons in Hin as [[= -> ->]|Hin]; [|by eapply Htail]. exists a. split; [by left|]. repeat split; lia.
Qed.

Lemma allocations_bounded : Forall (fun a => 0 <= al_share a <= scaled) allocations.
Proof. apply Forall_forall. intros a (iw & -> & Hin)%list_elem_of_fmap. by apply allocate_exact. Qed.

(** The running sum never saturates, so it is the sum of the shares. *)
Lemma allocated_exact :
  foldl (fun acc a => if al_weight a =? 0 then acc else saturating_add 64 acc (al_share a)) 0 allocations
  = share_sum allocations.
Proof.
  assert (Hb := scaled_bounds). assert (Hl := leftover_small).
  assert (H : forall l acc, Forall (fun a => 0 <= al_share a /\ (al_weight a = 0 -> al_share a = 0)) l ->
    0 <= acc -> acc + share_sum l <= scaled ->
    foldl (fun acc a => if al_weight a =? 0 then acc else saturating_add 64 acc (al_share a)) acc l = acc + share_sum l).
  { induction l as [|a l IH]; intros acc HF Hacc Hle; [unfold share_sum; cbn; lia|].
    apply Forall_cons in HF as [[Ha H0] HF]. cbn [foldl]. unfold share_sum in *. cbn [map list_sum_Z foldr] in *.
    fold (list_sum_Z (map al_share l)) in *.
    assert (Hn : 0 <= list_sum_Z (map al_share l)).
    { clear -HF. induction HF as [|y l [Hy _] HF IHl]; [done|]. cbn [map list_sum_Z foldr].
      fold (list_sum_Z (map al_share l)). lia. }
    destruct (Z.eqb_spec (al_weight a) 0) as [E|E].
    - rewrite IH by (try done; lia). rewrite H0 by done. lia.
    - rewrite saturating_add_small by (unfold umax; lia). rewrite IH by (try done; lia). lia. }
  rewrite H; [lia| |lia|lia]. apply Forall_forall. intros a (iw & -> & Hin)%list_elem_of_fmap.
  destruct (allocate_exact iw Hin) as (_ & Hw & Hs & _ & _ & H0). split; [lia|]. intros E. apply H0. congruence.
Qed.

Lemma locality_shares_eq :
  locality_shares to_weight matching
  = Some (hand_out (merge_sort allocation_le allocations) (scaled - share_sum allocations)).
Proof.
  unfold locality_shares. rewrite scaled_exact. fold total. rewrite (proj2 (Z.eqb_neq _ 0)) by lia.
  cbn zeta. fold allocations. rewrite allocated_exact. assert (Hl := leftover_small). unfold saturating_sub.
  by rewrite Z.max_r by lia.
Qed.

Lemma shares_indices shares :
  locality_shares to_weight matching = Some shares -> NoDup (map fst matching) ->
  NoDup (map fst shares) /\ (forall i, i ∈ map fst shares -> i ∈ map fst matching).
Proof.
  rewrite locality_shares_eq. intros [= <-] Hnd. assert (Hsub := hand_out_members (merge_sort allocation_le allocations)
    (scaled - share_sum allocations)).
  assert (Hp : map al_idx (merge_sort allocation_le allocations) ≡ₚ map fst matching).
  { rewrite merge_sort_Permutation. unfold allocations. rewrite map_map. apply reflexive_eq, map_ext.
    intros [i w]. unfold allocate. by destruct (w =? 0). }
  split.
  - rewrite <- Hp in Hnd. by eapply sublist_NoDup.
  - intros i Hi. rewrite <- Hp. by eapply elem_of_sublist.
Qed.
End shares.

(** The endpoints of a locality bucket receive exactly the bucket's weight:
    the scaled shares add up to it with no unit lost or invented, each share is
    at most one unit away from the endpoint's proportional part, no endpoint
    appears twice, and an endpoint without weight receives nothing. *)
Theorem locality_shares_exact (to_weight : Z) (matching : list (nat * Z)) :
  is_u32 to_weight -> Forall (fun iw => is_u32 iw.2) matching -> NoDup (map fst matching) ->
  0 < list_sum_Z (map snd matching) ->
  exists shares, locality_shares to_weight matching = Some shares
    /\ list_sum_Z (map snd shares) = to_weight * LOCALITY_DISTRIBUTE_WEIGHT_SCALE
    /\ NoDup (map fst shares)
    /\ forall i s, (i, s) ∈ shares -> exists w, (i, w) ∈ matching /\ 0 < w
        /\ Z.abs (s * list_sum_Z (map snd matching) - to_weight * LOCALITY_DISTRIBUTE_WEIGHT_SCALE * w)
           <= list_sum_Z (map snd matching).
Proof.
  intros Hw Hws Hnd Hpos. eexists. split; [by apply locality_shares_eq|]. split_and!.
  - assert (Hl := leftover_small _ _ Hw Hws Hpos). assert (HF := allocations_bounded _ _ Hw Hws Hpos).
    destruct (share_sum_perm _ _ (merge_sort_Permutation allocation_le
      (map (allocate (to_weight * LOCALITY_DISTRIBUTE_WEIGHT_SCALE) (list_sum_Z (map snd matching))) matching))) as [E1 E2].
    rewrite (hand_out_sum to_weight matching Hw); [rewrite E1; lia|by rewrite merge_sort_Permutation|by rewrite E2].
  - eapply shares_indices; [done..|by apply locality_shares_eq|done].
  - intros i s Hin. apply (hand_out_share to_weight matching Hw) in Hin;
      [|rewrite merge_sort_Permutation; by apply allocations_bounded].
    destruct Hin as (a & Ha & <- & Hs & Hs0 & Hor). rewrite merge_sort_Permutation in Ha.
    apply list_elem_of_fmap in Ha as ([i w] & -> & Hin).
    destruct (allocate_exact _ _ Hw Hws Hpos _ Hin) as (Ei & Ew & _ & Hrem & Heq & H0).
    set (a := allocate _ _ (i, w)) in *. cbn [fst snd] in *. rewrite Ei. exists w. split; [done|].
    assert (Hw0 : 0 <= w) by (destruct (proj1 (Forall_forall _ _) Hws _ Hin); done).
    destruct (decide (w = 0)) as [E|E]; [destruct (H0 E); lia|]. split; [lia|]. nia.
Qed.

Lemma locality_shares_exact_witness :
  exists shares, locality_shares 70 [(0%nat, 1); (2%nat, 2); (3%nat, 0); (5%nat, 3)] = Some shares
    /\ list_sum_Z (map snd shares) = 70 * LOCALITY_DISTRIBUTE_WEIGHT_SCALE.
Proof.
  destruct (locality_shares_exact 70 [(0%nat, 1); (2%nat, 2); (3%nat, 0); (5%nat, 3)]) as (shares & H1 & H2 & _).
  - unfold in_width. lia.
  - repeat constructor; cbn; lia.
  - apply (bool_decide_unpack _). vm_compute. exact I.
  - vm_compute. reflexivity.
  - exists shares. split; assumption.
Defined.

(** ** The built state is well formed *)

Lemma saturating_sum_u64 l : Forall (fun x => 0 <= x) l -> is_u64 (saturating_sum l).
Proof.
  intros HF. unfold saturating_sum. assert (H : forall acc, is_u64 acc -> is_u64 (foldl (saturating_add 64) acc l)).
  { induction HF as [|x l Hx HF IH]; intros acc Ha; [done|]. cbn [foldl]. apply IH.
    unfold in_width, saturating_add, umax in *. lia. }
  apply H. unfold in_width. lia.
Qed.

Lemma hand_out_nonneg l : forall k, Forall (fun a => 0 <= al_share a) l -> Forall (fun x => 0 <= x) (map snd (hand_out l k)).
Proof.
  induction l as [|a l IH]; intros k HF; cbn [hand_out]; [constructor|]. apply Forall_cons in HF as [Ha HF].
  destruct ((0 <? al_weight a) && (0 <? k)); (destruct (_ =? 0); [by apply IH|]); cbn [map snd];
    (constructor; [|by apply IH]); [unfold saturating_add, umax; lia|done].
Qed.

Lemma group_of_ok n shares :
  NoDup (map fst shares) -> Forall (fun i => i < n)%nat (map fst shares) -> Forall (fun x => 0 <= x) (map snd shares) ->
  group_ok n (group_of n shares).
Proof.
  intros Hnd Hr Hs. constructor; cbn [group_of group_indices group_weight]; [done|done| |by apply saturating_sum_u64].
  intros i. unfold in_group. cbn [group_of group_membership]. rewrite membership_lookup. unfold within.
  rewrite andb_true_iff, bool_decide_eq_true, Nat.ltb_lt. rewrite Forall_forall in Hr. naive_solver.
Qed.

Lemma imap_pair_fst {A} (l : list A) : map fst (imap pair l) = seq 0 (length l).
Proof.
  change (map fst) with (fmap (M := list) (@fst nat A)). rewrite fmap_imap.
  rewrite (imap_ext _ (fun j _ => Datatypes.id j)) by done. by rewrite imap_seq_0, list_fmap_id.
Qed.

Section built.
Context (ts : list UpstreamTarget).
Hypothesis weights_ok : Forall (fun t => is_u32 (Upstream.weight t)) ts.

Let matching_of (best : list (option nat)) (to_idx : nat) : list (nat * Z) :=
  omap (fun '(idx, t) =>
          if bool_decide (best !! idx = Some (Some to_idx)) then Some (idx, Upstream.weight t) else None) (imap pair ts).

Lemma matching_elem best to_idx i w :
  (i, w) ∈ matching_of best to_idx -> (i < length ts)%nat /\ is_u32 w.
Proof.
  intros Hin. apply list_elem_of_omap in Hin as ([j t] & Hj & Hc). apply elem_of_lookup_imap in Hj as (k & t' & [= -> ->] & Hk).
  destruct (bool_decide _); [|done]. injection Hc as <- <-. split; [by apply lookup_lt_Some in Hk|].
  rewrite Forall_forall in weights_ok. apply weights_ok. by eapply list_elem_of_lookup_2.
Qed.

Lemma matching_nodup best to_idx : NoDup (map fst (matching_of best to_idx)).
Proof.
  apply sublist_NoDup with (map fst (imap pair ts)).
  - rewrite imap_pair_fst. apply NoDup_seq.
  - unfold matching_of. induction (imap pair ts) as [|[i t] l IH]; [done|]. cbn [omap list_omap map fst].
    destruct (bool_decide _); by constructor.
Qed.

Lemma matching_wf best to_idx :
  Forall (fun iw => is_u32 iw.2) (matching_of best to_idx)
  /\ Forall (fun i => i < length ts)%nat (map fst (matching_of best to_idx))
  /\ 0 <= list_sum_Z (map snd (matching_of best to_idx)).
Proof.
  assert (H : Forall (fun iw => is_u32 iw.2) (matching_of best to_idx)).
  { apply Forall_forall. intros [i w] Hin. by destruct (matching_elem _ _ _ _ Hin). }
  split_and!; [done| |].
  - apply Forall_forall. intros i ([j w] & -> & Hin)%list_elem_of_fmap. by destruct (matching_elem _ _ _ _ Hin).
  - clear -H. induction H as [|x l Hx H IH]; [done|]. cbn [map list_sum_Z foldr]. fold (list_sum_Z (map snd l)).
    unfold in_width in Hx. lia.
Qed.

Lemma matched_group_ok best to_idx to_weight shares :
  is_u32 to_weight -> locality_shares to_weight (matching_of best to_idx) = Some shares ->
  group_ok (length ts) (group_of (length ts) shares).
Proof.
  intros Hw Hs. destruct (matching_wf best to_idx) as (Hws & Hr & Hn).
  destruct (decide (list_sum_Z (map snd (matching_of best to_idx)) = 0)) as [E|E].
  { unfold locality_shares in Hs. by rewrite E in Hs. }
  assert (Hpos : 0 < list_sum_Z (map snd (matching_of best to_idx))) by lia.
  destruct (shares_indices to_weight _ Hw Hws Hpos shares Hs (matching_nodup _ _)) as [Hnd Hin].
  apply group_of_ok; [done| |].
  - apply Forall_forall. intros i Hi%Hin. by eapply (proj1 (Forall_forall _ _) Hr).
  - rewrite (locality_shares_eq to_weight _ Hw Hws Hpos) in Hs. injection Hs as <-. apply hand_out_nonneg.
    rewrite merge_sort_Permutation. eapply Forall_impl; [by apply allocations_bounded|]. cbn. lia.
Qed.

Lemma entries_ok best es : forall acc,
  Forall (fun e : nat * (LocalityPreference * Z) => is_u32 e.2.2) es -> Forall (group_ok (length ts)) acc.2 ->
  Forall (group_ok (length ts)) (foldl (entry_step ts best) acc es).2.
Proof.
  induction es as [|[i [to w]] es IH]; intros [[ws total] groups] Hes Hacc; [done|].
  apply Forall_cons in Hes as [He Hes]. cbn [foldl]. apply IH; [done|]. unfold entry_step. fold (matching_of best i).
  destruct (matching_of best i) as [|m ms] eqn:E; [done|]. rewrite <- E.
  destruct (locality_shares w (matching_of best i)) as [shares|] eqn:Es; [|done]. cbn [snd].
  destruct (0 <? _); [|done]. apply Forall_app. split; [done|]. constructor; [|done]. by eapply matched_group_ok.
Qed.

Lemma distributed_ok source entries ws groups :
  Forall (fun e => Forall (fun lw : bytes * Z => is_u32 lw.2) (distribute_to e)) entries ->
  first_distribute source ts entries = Some (ws, groups) -> Forall (group_ok (length ts)) groups.
Proof.
  induction 1 as [|e entries He Hes IH]; [done|]. cbn [first_distribute].
  destruct (locality_parse (distribute_from e)) as [from|]; [|done].
  destruct (locality_from_matches_source from source); [|done]. cbn [negb].
  destruct (distribute_entry ts (distribute_to e)) as [[ws' total] gs] eqn:E. destruct (0 <? total); [|done].
  intros [= -> ->]. unfold distribute_entry in E.
  match type of E with foldl (entry_step ts ?b) ?a ?es = _ => assert (H := entries_ok b es a) end.
  rewrite E in H. apply H; [|constructor]. apply Forall_forall. intros [j [p w]] Hj.
  apply elem_of_lookup_imap in Hj as (k & [p' w'] & [= -> -> ->] & Hk). apply list_elem_of_lookup_2 in Hk.
  apply list_elem_of_omap in Hk as ([l w] & Hl & Hc). destruct (locality_parse l); [|done]. injection Hc as _ <-.
  by apply (proj1 (Forall_forall _ _) He _ Hl).
Qed.

(** A setting whose weights are 32-bit values, as its type has them. *)
Definition setting_ok (s : UpstreamLocalityLbSetting) : Prop :=
  Forall (fun e => Forall (fun lw : bytes * Z => is_u32 lw.2) (distribute_to e)) (distribute s).

Lemma locality_lb_ok setting source_locality source_labels l :
  option_Forall setting_ok setting ->
  locality_ok (length ts)
    ((fun s => (l, s)) <$> build_locality_lb_state setting source_locality source_labels ts).
Proof.
  intros Hs l' state groups Hb Hg. destruct Hs as [|s Hs]; [done|]. unfold build_locality_lb_state in Hb.
  destruct (setting_enabled s); cbn [negb] in Hb; [|by injection Hb as _ <-].
  destruct (_ && _); [by injection Hb as _ <-|]. destruct (source_locality ≫= locality_parse); [|by injection Hb as _ <-].
  injection Hb as _ <-. cbn [distribute_groups] in Hg.
  destruct (first_distribute _ ts (distribute s)) as [[ws gs]|] eqn:E; [|done]. injection Hg as <-.
  by eapply distributed_ok.
Qed.
End built.

Lemma ranks_nonneg source_locality ts : Forall (fun r => 0 <= r) (build_locality_ranks source_locality ts).
Proof.
  unfold build_locality_ranks. destruct (source_locality ≫= locality_parse); [|constructor]. apply Forall_forall.
  intros r (t & -> & _)%list_elem_of_fmap. unfold locality_tier.
  destruct (target_locality t); [|done]. by repeat destruct (_ : bool).
Qed.
