(* ===== verification/LbBuild.v ===== *)
(** * Building a balancer ([src/src/load_balancer.rs], [src/src/config/types.rs])

    The constructor of a balancer generation: every table a selection reads is
    computed from the configuration of the upstream, and the counters start
    fresh. The main result is that any validated configuration, an upstream
    without targets included, gives a well-formed balancer in a well-formed
    state, so the guarantees of the selectors hold from the first request on. *)

From Stdlib Require Import Sorted.
From stdpp Require Import sorting.
From S2P Require Import Prelude Utf8 Decimal RuntimeKeys Upstream Net HashOn HealthBitset SmoothWrr WrrSelect PassiveHealth ActiveHealth LbHealth LbLocality LbMetrics LbAlgorithms LbDispatch LbSelect LbRetry LbSelectSpec LbSticky LbLocalityBuild.
#[local] Open Scope Z_scope.

(** ** Configuration *)

Record SubsetTrafficPolicy := SubsetPolicy {
  policy_algorithm : option LoadBalancerAlgorithm;
  policy_hash_on : option bytes;
  policy_passive_health_check : option PassiveHealthCheck;
}.

Record SubsetDefinition := Subset {
  subset_name : bytes;
  subset_labels : gmap bytes bytes;
  subset_traffic_policy : option SubsetTrafficPolicy;
}.

(** The fields of a port override the balancer reads. *)
Record UpstreamPortOverride := PortOverride {
  override_algorithm : option LoadBalancerAlgorithm;
  override_hash_on : option bytes;
  override_passive_health_check : option PassiveHealthCheck;
  override_locality_lb_setting : option UpstreamLocalityLbSetting;
}.

Record HealthCheckConfig := HealthChecks {
  health_active : option ActiveHealthCheck;
  health_passive : option PassiveHealthCheck;
}.

(** The arguments of the constructor. *)
Record balancer_config := Config {
  cfg_upstream_id : bytes;
  cfg_algorithm : LoadBalancerAlgorithm;
  cfg_targets : list UpstreamTarget;
  cfg_hash_on : option bytes;
  cfg_subsets : option (list SubsetDefinition);
  cfg_port_overrides : option (gmap Z UpstreamPortOverride);
  cfg_health_checks : option HealthCheckConfig;
  cfg_source_locality : option bytes;
  cfg_source_labels : gmap bytes bytes;
  cfg_locality_lb_setting : option UpstreamLocalityLbSetting;
  cfg_locality_lb_strict : bool;
}.

(** ** Tables *)

Definition target_is_local (t : UpstreamTarget) : bool := negb (bool_decide (tags t !! bs "mesh.remote" = Some (bs "true"))).
Definition target_is_cross_cluster (t : UpstreamTarget) : bool :=
  bool_decide (tags t !! bs "mesh.cross_cluster" = Some (bs "true")).

(** The indices of the targets that pass a test, ascending. *)
Definition matching_indices (test : UpstreamTarget -> bool) (ts : list UpstreamTarget) : list nat :=
  omap (fun '(i, t) => if test t then Some i else None) (imap pair ts).

Definition subset_matches (d : SubsetDefinition) (t : UpstreamTarget) : bool :=
  forallb (fun '(k, v) => bool_decide (tags t !! k = Some v)) (map_to_list (subset_labels d)).

(** What a lane without an algorithm of its own inherits. *)
Definition effective_of (own : option LoadBalancerAlgorithm) (inherited : LoadBalancerAlgorithm) : LoadBalancerAlgorithm :=
  default inherited own.

(** [own.or(inherited)], read only under consistent hashing. *)
Definition effective_hash_on (alg : LoadBalancerAlgorithm) (own inherited : option bytes) : option bytes :=
  if bool_decide (alg = ConsistentHashing) then (match own with Some _ => own | None => inherited end) else None.

Definition lane_ring_for (keys : list bytes) (alg : LoadBalancerAlgorithm) (indices : list nat) : list (Z * nat) :=
  if bool_decide (alg = ConsistentHashing) then build_hash_ring_for_indices keys indices else [].

Section build.
Context (hmac : keyed_hash) (cfg : balancer_config).

Let ts := cfg_targets cfg.
Let keys := map target_host_port_key ts.
Let defs := default [] (cfg_subsets cfg).

Definition def_algorithm (d : SubsetDefinition) : LoadBalancerAlgorithm :=
  effective_of (subset_traffic_policy d ≫= policy_algorithm) (cfg_algorithm cfg).

Definition def_hash_on (d : SubsetDefinition) : HashOnStrategy :=
  hash_on_parse (effective_hash_on (def_algorithm d) (subset_traffic_policy d ≫= policy_hash_on) (cfg_hash_on cfg)).

(** [insert] for every definition, in order. *)
Definition collect {A} (f : SubsetDefinition -> A) : gmap bytes A :=
  foldl (fun m d => <[subset_name d := f d]> m) ∅ defs.

Definition built_subset_indices : gmap bytes (list nat) := collect (fun d => matching_indices (subset_matches d) ts).
Definition built_subset_algorithms : gmap bytes LoadBalancerAlgorithm := collect def_algorithm.
Definition built_subset_failover : gset bytes :=
  foldl (fun s d => match subset_traffic_policy d ≫= policy_passive_health_check with
                    | Some _ => {[subset_name d]} ∪ s
                    | None => s
                    end) ∅ defs.
Definition built_subset_wrr : gset bytes :=
  dom (filter (fun kv => kv.2 = WeightedRoundRobin) built_subset_algorithms).
Definition built_subset_rings : gmap bytes (list (Z * nat)) :=
  map_imap (fun name alg =>
              if bool_decide (alg = ConsistentHashing)
              then build_hash_ring_for_indices keys <$> built_subset_indices !! name
              else None) built_subset_algorithms.

Definition built_failover_enabled : bool :=
  match cfg_health_checks cfg with
  | Some checks => bool_decide (is_Some (health_active checks)) || bool_decide (is_Some (health_passive checks))
  | None => false
  end.

(** Ports no target serves get no state. *)
Definition port_state (port : Z) (o : UpstreamPortOverride) : option PortLbState :=
  let indices := matching_indices (fun t => dispatch_policy_port t =? port) ts in
  match indices with
  | [] => None
  | _ =>
    let alg := effective_of (override_algorithm o) (cfg_algorithm cfg) in
    let setting :=
      match override_locality_lb_setting o with Some s => Some s | None => cfg_locality_lb_setting cfg end in
    Some {| target_indices := indices;
            port_algorithm := alg;
            algorithm_overridden := bool_decide (is_Some (override_algorithm o));
            port_hash_ring := lane_ring_for keys alg indices;
            port_hash_on_strategy := hash_on_parse (effective_hash_on alg (override_hash_on o) (cfg_hash_on cfg));
            hash_on_override_strategy := (fun h => hash_on_parse (Some h)) <$> override_hash_on o;
            port_locality_lb := build_locality_lb_state setting (cfg_source_locality cfg) (cfg_source_labels cfg) ts;
            port_failover_enabled :=
              built_failover_enabled || bool_decide (is_Some (override_passive_health_check o)) |}
  end.

Definition built_port_states : gmap Z PortLbState := map_imap port_state (default ∅ (cfg_port_overrides cfg)).

(** The loop over the port states: the port and how many ports cover every target. *)
Definition full_coverage (acc : Z * Z) (e : Z * PortLbState) : Z * Z :=
  let '(port, count) := acc in
  if negb (bool_decide (ts = [])) && (length (target_indices e.2) =? length ts)%nat
  then (if count + 1 =? 1 then e.1 else 0, count + 1)
  else acc.

Definition built_initial_dispatch_port : Z := fst (foldl full_coverage (0, 0) (map_to_list built_port_states)).

Definition mints_sticky_tokens : bool :=
  strategy_mints_sticky_tokens (hash_on_parse (cfg_hash_on cfg))
  || existsb (fun e => strategy_mints_sticky_tokens e.2) (map_to_list (collect def_hash_on))
  || existsb (fun e => strategy_mints_sticky_tokens (port_hash_on_strategy e.2)
                       || match hash_on_override_strategy e.2 with
                          | Some s => strategy_mints_sticky_tokens s
                          | None => false
                          end) (map_to_list built_port_states).

Definition subset_uses_consistent_hashing : bool :=
  existsb (fun d => bool_decide (subset_traffic_policy d ≫= policy_algorithm = Some ConsistentHashing)) defs.

Definition cross_cluster_present : bool := existsb target_is_cross_cluster ts.

Definition with_subsets_and_port_overrides : LoadBalancer :=
  {| lb_pool := Pool ts (map (scoped_target_key (cfg_upstream_id cfg)) ts) keys (build_srv_priorities ts);
     lb_tables :=
       {| target_count := length ts;
          local_locality_mask :=
            if cfg_locality_lb_strict cfg || cross_cluster_present then map target_is_local ts else [];
          cross_cluster_failover_present := cross_cluster_present;
          locality_lb_strict := cfg_locality_lb_strict cfg;
          target_locality_ranks := build_locality_ranks (cfg_source_locality cfg) ts |};
     algorithm := cfg_algorithm cfg;
     hash_ring :=
       if bool_decide (cfg_algorithm cfg = ConsistentHashing) || subset_uses_consistent_hashing
       then build_hash_ring_for_indices keys (seq 0 (length ts)) else [];
     target_index := build_target_index keys;
     hash_on_strategy := hash_on_parse (cfg_hash_on cfg);
     subset_indices := built_subset_indices;
     subset_algorithms := built_subset_algorithms;
     subset_hash_on_strategies := collect def_hash_on;
     subset_failover_enabled := built_subset_failover;
     subset_wrr_lanes := built_subset_wrr;
     subset_hash_rings := built_subset_rings;
     port_overrides := built_port_states;
     initial_dispatch_port_override := built_initial_dispatch_port;
     locality_lb :=
       build_locality_lb_state (cfg_locality_lb_setting cfg) (cfg_source_locality cfg) (cfg_source_labels cfg) ts;
     failover_enabled := built_failover_enabled;
     sticky_token_index := if mints_sticky_tokens then build_sticky_index hmac (cfg_upstream_id cfg) ts else ∅;
     has_wildcard_host_target := existsb (fun t => starts_with_wildcard (host t)) ts |}.

(** The weighted round robin state of a lane, alive where its algorithm is. *)
Definition initial_wrr (l : lane) : WrrLaneState :=
  let weighted alg := if bool_decide (alg = WeightedRoundRobin) then WrrSelect.new (length ts) else inactive in
  match l with
  | ParentLane => weighted (cfg_algorithm cfg)
  | SubsetLane name => if bool_decide (name ∈ built_subset_wrr) then WrrSelect.new (length ts) else inactive
  | PortLane port =>
    match built_port_states !! port with Some ps => weighted (port_algorithm ps) | None => inactive end
  end.

Definition initial_state : LbState :=
  Lanes (fun _ => new_selection_counters) initial_wrr (fun _ => new_selection_counters)
    (metrics_new (bool_decide (cfg_algorithm cfg = LeastLatency)) keys).
End build.

(** ** The tables are well formed *)

Lemma matching_indices_elem test ts i :
  i ∈ matching_indices test ts <-> exists t, ts !! i = Some t /\ test t = true.
Proof.
  unfold matching_indices. rewrite list_elem_of_omap. split.
  - intros ([j t] & Hj & Hc). apply elem_of_lookup_imap in Hj as (k & t' & [= -> ->] & Hk).
    destruct (test t') eqn:E; [|done]. injection Hc as <-. by exists t'.
  - intros (t & Ht & E). exists (i, t). split; [|by rewrite E]. apply elem_of_lookup_imap. by exists i, t.
Qed.

Lemma matching_indices_ok test ts : scope_ok (length ts) (matching_indices test ts).
Proof.
  split.
  - assert (Hsub : sublist (matching_indices test ts) (map fst (imap pair ts))).
    { unfold matching_indices. induction (imap pair ts) as [|[i t] l IH]; [done|]. cbn [omap list_omap map fst].
      destruct (test t); by constructor. }
    rewrite imap_pair_fst in Hsub. eapply ascending_sublist; [done|]. apply seq_ascending.
  - apply Forall_forall. intros i (t & Ht & _)%matching_indices_elem. by apply lookup_lt_Some in Ht.
Qed.

(** A table filled definition by definition holds the value of a definition. *)
Lemma collect_elem cfg {A} (f : SubsetDefinition -> A) name x :
  collect cfg f !! name = Some x -> exists d, d ∈ default [] (cfg_subsets cfg) /\ subset_name d = name /\ f d = x.
Proof.
  unfold collect. induction (default [] (cfg_subsets cfg)) as [|d l IH] using rev_ind; [done|]. rewrite foldl_app. cbn [foldl].
  rewrite lookup_insert_Some. intros [[<- <-]|[_ H]]; [exists d; set_solver|]. destruct (IH H) as (d' & ? & ? & ?).
  exists d'. set_solver.
Qed.

(** All tables are filled from the same, last definition of a name. *)
Lemma collect_last cfg {A B} (f : SubsetDefinition -> A) (g : SubsetDefinition -> B) name x :
  collect cfg f !! name = Some x ->
  exists d, subset_name d = name /\ f d = x /\ collect cfg g !! name = Some (g d).
Proof.
  unfold collect. induction (default [] (cfg_subsets cfg)) as [|d l IH] using rev_ind; [done|]. rewrite !foldl_app. cbn [foldl].
  rewrite lookup_insert_Some. intros [[<- <-]|[Hne H]].
  - exists d. by rewrite lookup_insert, decide_True.
  - destruct (IH H) as (d' & ? & ? & ?). exists d'. by rewrite lookup_insert_ne.
Qed.

Lemma ring_nonempty keys indices i :
  i ∈ indices -> (i < length keys)%nat -> build_hash_ring_for_indices keys indices <> [].
Proof.
  intros Hi Hl E. destruct (proj2 (hash_ring_elem keys indices i)) as [h Hh]; [done|]. rewrite E in Hh.
  by apply elem_of_nil in Hh.
Qed.

Record config_ok (cfg : balancer_config) : Prop := {
  cfg_count : Z.of_nat (length (cfg_targets cfg)) < 2 ^ 32;
  cfg_weights : Forall (fun t => is_u32 (Upstream.weight t)) (cfg_targets cfg);
  cfg_setting : option_Forall setting_ok (cfg_locality_lb_setting cfg);
  cfg_port_settings : forall port o, default ∅ (cfg_port_overrides cfg) !! port = Some o ->
                      option_Forall setting_ok (override_locality_lb_setting o);
}.

Lemma metrics_new_ok least_latency keys : metrics_ok (metrics_new least_latency keys).
Proof.
  assert (H : forall (m : gmap bytes Z) k, (forall k', default LATENCY_UNSET (m !! k') <= umax 64) ->
    default LATENCY_UNSET (foldl (fun mm k => <[k := LATENCY_UNSET]> mm) m keys !! k) <= umax 64).
  { induction keys as [|x keys IH]; intros m k Hm; [apply Hm|]. cbn [foldl]. apply IH. intros k'.
    destruct (decide (k' = x)) as [->|Hne]; [by rewrite lookup_insert, decide_True|by rewrite lookup_insert_ne]. }
  destruct least_latency; constructor; intros k; try done. by apply H.
Qed.

Section built_ok.
Context (hmac : keyed_hash) (cfg : balancer_config).
Hypothesis cok : config_ok cfg.

Let lb := with_subsets_and_port_overrides hmac cfg.
Let n := length (cfg_targets cfg).
Let keys := map target_host_port_key (cfg_targets cfg).

Lemma keys_length : length keys = n.
Proof. unfold keys. by rewrite length_map. Qed.

Lemma port_state_inv port ps :
  built_port_states cfg !! port = Some ps ->
  exists o, default ∅ (cfg_port_overrides cfg) !! port = Some o /\ port_state cfg port o = Some ps
    /\ target_indices ps = matching_indices (fun t => dispatch_policy_port t =? port) (cfg_targets cfg)
    /\ target_indices ps <> []
    /\ port_hash_ring ps = lane_ring_for keys (port_algorithm ps) (target_indices ps)
    /\ port_locality_lb ps
       = build_locality_lb_state
           (match override_locality_lb_setting o with Some s => Some s | None => cfg_locality_lb_setting cfg end)
           (cfg_source_locality cfg) (cfg_source_labels cfg) (cfg_targets cfg).
Proof.
  unfold built_port_states. rewrite map_lookup_imap. intros (o & Ho & H)%bind_Some. exists o. split; [done|].
  split; [done|]. unfold port_state in H. destruct (matching_indices _ _) as [|i l]; [done|]. by injection H as <-.
Qed.

Lemma lane_ring_ok alg indices :
  ring_ok n (lane_ring_for keys alg indices).
Proof.
  unfold lane_ring_for. rewrite <- keys_length. case_bool_decide; [apply hash_ring_ok|]. by split; constructor.
Qed.

Lemma lane_ring_nonempty indices :
  indices <> [] -> scope_ok n indices -> lane_ring_for keys ConsistentHashing indices <> [].
Proof.
  intros Hne [_ Hr]. destruct indices as [|i l]; [done|]. apply Forall_cons in Hr as [Hi _].
  unfold lane_ring_for. rewrite bool_decide_true by done. apply ring_nonempty with i; [by left|]. by rewrite keys_length.
Qed.

Lemma parent_ring_ok :
  ring_ok n (hash_ring lb) /\ ((0 < n)%nat -> cfg_algorithm cfg = ConsistentHashing -> hash_ring lb <> []).
Proof.
  cbn [hash_ring lb with_subsets_and_port_overrides]. fold keys. fold n. rewrite <- keys_length. split.
  - destruct (_ || _); [apply hash_ring_ok|]. by split; constructor.
  - intros Hpos ->. rewrite bool_decide_true by done. cbn [orb]. apply ring_nonempty with 0%nat.
    + apply elem_of_seq. rewrite keys_length in *. lia.
    + by rewrite keys_length in *.
Qed.

Lemma subset_ring_ok name :
  is_Some (nonempty_subset lb name) ->
  ring_ok n (subset_hash_ring lb name)
  /\ ((0 < n)%nat -> subset_algorithm lb name = ConsistentHashing -> subset_hash_ring lb name <> []).
Proof.
  intros [l [Hl Hne]%nonempty_subset_spec].
  cbn [subset_indices lb with_subsets_and_port_overrides] in Hl.
  destruct (collect_last cfg _ (def_algorithm cfg) name l Hl) as (d & Hd & Hdl & Ha).
  assert (Hsc : scope_ok n l) by (rewrite <- Hdl; apply matching_indices_ok).
  assert (Hsr : subset_hash_rings lb !! name
    = if bool_decide (def_algorithm cfg d = ConsistentHashing) then Some (build_hash_ring_for_indices keys l) else None).
  { cbn [subset_hash_rings lb with_subsets_and_port_overrides]. unfold built_subset_rings. rewrite map_lookup_imap.
    unfold built_subset_algorithms. rewrite Ha. cbn [mbind option_bind]. case_bool_decide; [|done].
    by rewrite Hl. }
  assert (Hal : subset_algorithm lb name = def_algorithm cfg d).
  { unfold subset_algorithm. cbn [subset_algorithms lb with_subsets_and_port_overrides]. unfold built_subset_algorithms.
    by rewrite Ha. }
  unfold subset_hash_ring. rewrite Hsr, Hal. case_bool_decide as E.
  - cbn [default from_option]. split; [rewrite <- keys_length; apply hash_ring_ok|]. intros _ _.
    assert (H := lane_ring_nonempty l Hne Hsc). unfold lane_ring_for in H. by rewrite bool_decide_true in H.
  - split; [apply parent_ring_ok|done].
Qed.

Lemma port_ring_ok port ps :
  port_overrides lb !! port = Some ps ->
  ring_ok n (port_hash_ring ps)
  /\ ((0 < n)%nat -> port_algorithm ps = ConsistentHashing -> port_hash_ring ps <> []).
Proof.
  intros (o & _ & _ & Hi & Hne & -> & _)%port_state_inv. split; [apply lane_ring_ok|]. intros _ ->.
  apply lane_ring_nonempty; [done|]. rewrite Hi. apply matching_indices_ok.
Qed.

Lemma lane_rings_ok l : lane_used lb l ->
  ring_ok n (lane_ring l) /\ ((0 < n)%nat -> lane_algorithm l = ConsistentHashing -> lane_ring l <> []).
Proof.
  destruct 1 as [|name Hn|port ps Hp|port ps name Hp Hn];
    [apply parent_ring_ok|by apply subset_ring_ok|by eapply port_ring_ok|].
  unfold port_subset_lane. cbn [lane_ring lane_algorithm]. unfold port_subset_hash_ring, port_subset_algorithm.
  destruct (algorithm_overridden ps); [by eapply port_ring_ok|by apply subset_ring_ok].
Qed.

Lemma parent_locality_ok : locality_ok n (parent_locality lb).
Proof. apply locality_lb_ok; apply cok. Qed.

Lemma port_locality_ok port ps : port_overrides lb !! port = Some ps -> locality_ok n (port_locality lb port ps).
Proof.
  intros (o & Ho & _ & _ & _ & _ & Hl)%port_state_inv. unfold port_locality.
  assert (H : locality_ok n ((fun s => (PortLane port, s)) <$> port_locality_lb ps)).
  { rewrite Hl. apply locality_lb_ok; [apply cok|]. destruct (cfg_port_settings _ cok port o Ho) as [|s Hs];
      [apply cok|by constructor]. }
  destruct (port_locality_lb ps); [done|apply parent_locality_ok].
Qed.

Lemma lane_localities_ok l : lane_used lb l -> locality_ok n (lane_locality l).
Proof.
  destruct 1; [apply parent_locality_ok|apply parent_locality_ok|by apply port_locality_ok|by apply port_locality_ok].
Qed.

Lemma build_lb_ok : lb_ok lb.
Proof.
  constructor.
  - done.
  - intros i. unfold locality_rank. cbn [lb_tables target_locality_ranks lb with_subsets_and_port_overrides].
    assert (H := ranks_nonneg (cfg_source_locality cfg) (cfg_targets cfg)).
    destruct (build_locality_ranks _ _ !! i) as [r|] eqn:E; [|done].
    apply (proj1 (Forall_forall _ _) H), (list_elem_of_lookup_2 _ _ _ E).
  - unfold weights. cbn [lb_pool lb with_subsets_and_port_overrides targets]. apply Forall_map, cok.
  - apply cok.
  - intros name l (d & _ & _ & <-)%collect_elem. apply matching_indices_ok.
  - intros port ps (o & _ & _ & -> & _)%port_state_inv. apply matching_indices_ok.
  - apply lane_rings_ok.
  - apply lane_localities_ok.
  - intros token i. cbn [sticky_token_index lb with_subsets_and_port_overrides].
    destruct (mints_sticky_tokens cfg); [|by rewrite lookup_empty]. intros Ht.
    assert (H := sticky_index_spec hmac (cfg_upstream_id cfg) (cfg_targets cfg) token). rewrite Ht in H.
    destruct H as (t & H & _). by apply lookup_lt_Some in H.
Qed.

Lemma subset_lane_alive name :
  is_Some (nonempty_subset lb name) -> subset_algorithm lb name = WeightedRoundRobin ->
  initial_wrr cfg (subset_wrr_state lb name) = WrrSelect.new n.
Proof.
  intros [l [Hl _]%nonempty_subset_spec] Ha. cbn [subset_indices lb with_subsets_and_port_overrides] in Hl.
  destruct (collect_last cfg _ (def_algorithm cfg) name l Hl) as (d & _ & _ & Hd).
  assert (Hin : name ∈ built_subset_wrr cfg).
  { unfold built_subset_wrr. apply elem_of_dom. exists WeightedRoundRobin. apply map_lookup_filter_Some. split; [|done].
    unfold subset_algorithm in Ha. cbn [subset_algorithms lb with_subsets_and_port_overrides] in Ha.
    unfold built_subset_algorithms in *. rewrite Hd in Ha |- *. cbn in Ha. by rewrite Ha. }
  unfold subset_wrr_state. cbn [subset_wrr_lanes lb with_subsets_and_port_overrides].
  rewrite bool_decide_true by done. cbn [initial_wrr]. by rewrite bool_decide_true.
Qed.

Lemma port_lane_alive port ps :
  port_overrides lb !! port = Some ps -> port_algorithm ps = WeightedRoundRobin ->
  initial_wrr cfg (PortLane port) = WrrSelect.new n.
Proof.
  cbn [port_overrides lb with_subsets_and_port_overrides initial_wrr]. intros -> ->. by rewrite bool_decide_true.
Qed.

Lemma used_lane_alive l : lane_used lb l -> lane_algorithm l = WeightedRoundRobin ->
  initial_wrr cfg (lane_wrr l) = WrrSelect.new n.
Proof.
  destruct 1 as [|name Hn|port ps Hp|port ps name Hp Hn]; cbn [parent_lane subset_lane port_lane port_subset_lane
    lane_algorithm lane_wrr].
  - cbn [algorithm lb with_subsets_and_port_overrides initial_wrr]. intros ->. by rewrite bool_decide_true.
  - by apply subset_lane_alive.
  - by eapply port_lane_alive.
  - unfold port_subset_algorithm, port_subset_wrr_state.
    destruct (algorithm_overridden ps); [by eapply port_lane_alive|by apply subset_lane_alive].
Qed.

End built_ok.

(** The fresh state is valid. *)
Lemma build_state_ok hmac cfg :
  state_ok (with_subsets_and_port_overrides hmac cfg) (initial_state cfg).
Proof.
  constructor; cbn [initial_state metrics wrr_states].
  - apply metrics_new_ok.
  - intros l Hn Hl Ha. rewrite (used_lane_alive hmac cfg l Hl Ha). by apply new_ok.
Qed.

(** Without targets every selector refuses at its first test. *)
Lemma empty_refuses {US : UnstableSort} {RS : RingSearch} lb shard locked key req health st :
  lb_size lb = 0%nat -> run_request lb shard locked key req health st = (None, st).
Proof.
  intros Hz. apply Nat.eqb_eq in Hz.
  destruct req as [|d|name|port|port d|port name]; cbn [run_request];
    unfold select_for_port_from_subset, select_for_port_matching_family, select_for_port,
      select_from_subset, select_matching_family, select;
    rewrite ?Hz; try done; destruct (port_overrides lb !! port); by rewrite ?Hz.
Qed.

(** C7. Every configuration yields a working balancer: the constructor's tables
    (subset and port index lists, hash rings, locality buckets, ranks, sticky
    index) satisfy all the well-formedness conditions the selectors rely on, and
    the fresh counters, lanes and measurements are a valid state for it. The
    configuration is any with fewer than 2^32 targets, 32-bit weights and locality
    weights as validation leaves them. An upstream without targets, which
    validation admits under service discovery, is included: its tables are
    well formed too, and every selector on it refuses and changes nothing. *)
Theorem built_balancer_ok (hmac : keyed_hash) (cfg : balancer_config) :
  config_ok cfg ->
  let lb := with_subsets_and_port_overrides hmac cfg in
  lb_ok lb /\ state_ok lb (initial_state cfg)
  /\ (cfg_targets cfg = [] -> forall (US : UnstableSort) (RS : RingSearch) shard locked key req health st,
        run_request lb shard locked key req health st = (None, st)).
Proof.
  intros Hc lb. split; [by apply build_lb_ok|]. split; [apply build_state_ok|].
  intros E US RS shard locked key req health st. apply empty_refuses.
  unfold lb_size, lb. cbn. by rewrite E.
Qed.

(** ** The port of the first dispatch *)

Lemma matching_all test ts :
  length (matching_indices test ts) = length ts <-> Forall (fun t => test t = true) ts.
Proof.
  assert (Hok := matching_indices_ok test ts).
  split.
  - intros Hlen. apply Forall_lookup. intros i t Hi.
    assert (Hin : i ∈ matching_indices test ts).
    { assert (Hp : matching_indices test ts ≡ₚ seq 0 (length ts)).
      { apply submseteq_length_Permutation; [|rewrite length_seq; lia]. apply NoDup_submseteq;
          [apply ascending_nodup, Hok|]. intros j Hj. apply elem_of_seq.
        assert (H := proj1 (Forall_forall _ _) (proj2 Hok) j Hj). cbn in H. lia. }
      rewrite Hp. apply elem_of_seq. apply lookup_lt_Some in Hi. lia. }
    apply matching_indices_elem in Hin as (t' & Ht' & E). congruence.
  - intros HF. unfold matching_indices. transitivity (length (imap pair ts)); [|by rewrite length_imap].
    assert (H : Forall (fun it : nat * UpstreamTarget => test it.2 = true) (imap pair ts)).
    { apply Forall_forall. intros [i t] Hin. apply elem_of_lookup_imap in Hin as (k & t' & [= -> ->] & Hk).
      cbn. eapply (proj1 (Forall_lookup _ _) HF), Hk. }
    clear HF Hok. induction H as [|[i t] l Ht H IH]; [done|]. cbn in Ht. cbn [omap list_omap]. rewrite Ht. cbn. by rewrite IH.
Qed.

Section coverage.
Context (cfg : balancer_config).
Hypothesis nonempty_targets : cfg_targets cfg <> [].

Definition covers (port : Z) : Prop := Forall (fun t => dispatch_policy_port t = port) (cfg_targets cfg).

Lemma covers_unique p q : covers p -> covers q -> p = q.
Proof.
  unfold covers. destruct (cfg_targets cfg) as [|t l]; [done|]. intros [Hp _]%Forall_cons [Hq _]%Forall_cons. congruence.
Qed.

Lemma covers_spec port ps : built_port_states cfg !! port = Some ps ->
  (length (target_indices ps) =? length (cfg_targets cfg))%nat = true <-> covers port.
Proof.
  intros (o & _ & _ & -> & _)%port_state_inv. rewrite Nat.eqb_eq, matching_all. unfold covers.
  split; intros H; (eapply Forall_impl; [exact H|]); intros t; cbn; lia.
Qed.

Lemma coverage_loop l : forall acc,
  NoDup (map fst l) -> (forall e, e ∈ l -> built_port_states cfg !! e.1 = Some e.2) ->
  (acc = (0, 0) \/ exists p, acc = (p, 1) /\ covers p /\ p ∉ map fst l) ->
  let r := foldl (full_coverage cfg) acc l in
  (r = (0, 0) /\ acc = (0, 0) /\ (forall e, e ∈ l -> ~ covers e.1))
  \/ exists p, r = (p, 1) /\ covers p /\ (p ∈ map fst l \/ acc = (p, 1)).
Proof.
  induction l as [|[port ps] l IH]; intros acc Hnd Hin Hacc; cbn [foldl]; cbn zeta.
  { destruct Hacc as [->|(p & -> & Hp & _)]; [left|right; exists p; tauto]. split_and!; [done|done|].
    intros e He. by apply elem_of_nil in He. }
  cbn [map fst] in Hnd, Hacc. apply NoDup_cons in Hnd as [Hni Hnd].
  assert (Hps := Hin (port, ps) ltac:(by left)). cbn in Hps. assert (Hsp := covers_spec port ps Hps).
  assert (Hin' : forall e, e ∈ l -> built_port_states cfg !! e.1 = Some e.2) by (intros e He; apply Hin; by right).
  assert (Hstep : full_coverage cfg acc (port, ps)
    = if (length (target_indices ps) =? length (cfg_targets cfg))%nat
      then (if acc.2 + 1 =? 1 then port else 0, acc.2 + 1) else acc).
  { unfold full_coverage. destruct acc as [p0 c0]. by rewrite bool_decide_false. }
  rewrite !Hstep. clear Hstep.
  destruct (length (target_indices ps) =? length (cfg_targets cfg))%nat eqn:E.
  - assert (Hc := proj1 Hsp eq_refl). destruct Hacc as [->|(p & -> & Hp & Hn)].
    + right. cbn [snd]. destruct (IH (if 0 + 1 =? 1 then port else 0, 0 + 1) Hnd Hin') as [(_ & [=] & _)|(p & H1 & H2 & H3)];
        [right; by exists port|]. exists p. split; [done|]. split; [done|]. left.
      destruct H3 as [?|[= ->]]; [by right|by left].
    + exfalso. apply Hn. rewrite (covers_unique p port Hp Hc). by left.
  - destruct (IH acc Hnd Hin') as [(H1 & H2 & H3)|(p & H1 & H2 & H3)].
    + destruct Hacc as [?|(p & ? & ? & Hn)]; [by left|]. right. exists p. rewrite not_elem_of_cons in Hn. tauto.
    + left. split_and!; [done|done|]. intros e [->|He]%elem_of_cons; [|by apply H3]. cbn. intros Hc.
      by apply Hsp in Hc.
    + right. exists p. split; [done|]. split; [done|]. destruct H3; [left; by right|by right].
Qed.
End coverage.

(** The port a first dispatch is pinned to is the one that serves every target of
    the upstream: when an override exists for that port it is chosen whatever the
    order of the table, there is never a second candidate, and a non-zero result
    always has its own port lane over all targets. *)
Theorem initial_dispatch_port_exact (hmac : keyed_hash) (cfg : balancer_config) :
  cfg_targets cfg <> [] ->
  let lb := with_subsets_and_port_overrides hmac cfg in
  (forall port, is_Some (port_overrides lb !! port) -> covers cfg port -> initial_dispatch_port_override lb = port)
  /\ (initial_dispatch_port_override lb <> 0 ->
      exists ps, port_overrides lb !! initial_dispatch_port_override lb = Some ps
        /\ covers cfg (initial_dispatch_port_override lb)).
Proof.
  intros Hne lb. cbn [lb port_overrides initial_dispatch_port_override with_subsets_and_port_overrides].
  unfold built_initial_dispatch_port.
  destruct (coverage_loop cfg Hne (map_to_list (built_port_states cfg)) (0, 0)) as [(-> & _ & Hno)|(p & -> & Hp & Hin)].
  - apply NoDup_fst_map_to_list.
  - intros [port ps] He. by apply elem_of_map_to_list in He.
  - by left.
  - cbn [fst]. split; [|done]. intros port [ps Hps] Hc. exfalso. apply (Hno (port, ps)); [by apply elem_of_map_to_list|done].
  - cbn [fst]. split; [intros port _ Hc; by eapply covers_unique|]. intros _. destruct Hin as [Hin|[=]].
    + apply list_elem_of_fmap in Hin as ([port ps] & -> & He). apply elem_of_map_to_list in He. by exists ps.
Qed.

(** ** Sticky sessions *)

(** C25. A sticky session returns to the backend it was bound to: in a balancer that
    mints tokens, the token minted for a configured target resolves, through the
    balancer's own index, to a target with the same identity in every field the
    token authenticates, provided the keyed hash does not collide on the targets
    of this upstream. *)
Theorem sticky_token_roundtrip (hmac : keyed_hash) (cfg : balancer_config) (t : UpstreamTarget) (token : bytes) :
  mints_sticky_tokens cfg = true -> fits (cfg_upstream_id cfg) -> Forall target_wf (cfg_targets cfg) ->
  (forall a b, a ∈ cfg_targets cfg -> b ∈ cfg_targets cfg -> forall tok,
     sticky_session_token hmac (cfg_upstream_id cfg) a = Some tok ->
     sticky_session_token hmac (cfg_upstream_id cfg) b = Some tok ->
     write_sticky_target_identity (cfg_upstream_id cfg) a = write_sticky_target_identity (cfg_upstream_id cfg) b) ->
  t ∈ cfg_targets cfg -> sticky_session_token hmac (cfg_upstream_id cfg) t = Some token ->
  exists i u, sticky_token_index (with_subsets_and_port_overrides hmac cfg) !! token = Some i
    /\ cfg_targets cfg !! i = Some u /\ same_sticky_identity u t = true.
Proof.
  intros Hm Hf Hwf Hcol Ht Htok. cbn [sticky_token_index with_subsets_and_port_overrides]. rewrite Hm.
  assert (H := sticky_index_spec hmac (cfg_upstream_id cfg) (cfg_targets cfg) token).
  destruct (build_sticky_index _ _ _ !! token) as [i|]; [|by destruct (H t Ht)]. destruct H as (u & Hu & Hut).
  exists i, u. split; [done|]. split; [done|]. assert (Hin := list_elem_of_lookup_2 _ _ _ Hu).
  eapply identity_encoded; [exact Hf|exact Hf|by eapply (proj1 (Forall_forall _ _) Hwf)..|]. by eapply Hcol.
Qed.
