(* ===== verification/LbExamples.v ===== *)
(** * A concrete upstream

    One upstream with a subset, a port lane and a weighted locality setting, run
    through the constructor and the selectors: the theorems of the balancer at
    concrete inputs. *)

From Stdlib Require Import Sorted.
From stdpp Require Import sorting.
From S2P Require Import Prelude Utf8 Decimal RuntimeKeys Upstream Net HashOn HealthBitset SmoothWrr WrrSelect PassiveHealth ActiveHealth LbHealth LbLocality LbMetrics LbAlgorithms LbDispatch LbSelect LbRetry LbSelectSpec LbRetrySpec LbSticky LbLocalityBuild LbBuild.
#[local] Open Scope Z_scope.

(** ** A search for the ring: left to right *)

Fixpoint linear_from (ring : list (Z * nat)) (hash : Z) (p : nat) : search_result :=
  match ring with
  | [] => Insert p
  | e :: ring => if e.1 =? hash then Found p else if hash <? e.1 then Insert p else linear_from ring hash (S p)
  end.

Definition linear_search : RingSearch := fun ring hash => linear_from ring hash 0.

Lemma linear_from_spec hash ring : forall p, StronglySorted (fun a b => a.1 <= b.1) ring ->
  match linear_from ring hash p with
  | Found q => exists k, q = (p + k)%nat /\ fst <$> ring !! k = Some hash
  | Insert q => exists k, q = (p + k)%nat /\ (k <= length ring)%nat
      /\ Forall (fun e => e.1 < hash) (take k ring) /\ Forall (fun e => hash < e.1) (drop k ring)
  end.
Proof.
  induction ring as [|e ring IH]; intros p Hs; cbn [linear_from].
  { exists 0%nat. split_and!; [lia|done|constructor|constructor]. }
  apply StronglySorted_inv in Hs as [Hs HF]. destruct (Z.eqb_spec e.1 hash) as [E|E].
  { exists 0%nat. split; [lia|]. cbn. by rewrite E. }
  destruct (Z.ltb_spec hash e.1) as [Hlt|Hge].
  { exists 0%nat. split_and!; [lia|cbn; lia|constructor|]. cbn [drop]. constructor; [done|].
    eapply Forall_impl; [exact HF|]. cbn. lia. }
  specialize (IH (S p) Hs). destruct (linear_from ring hash (S p)) as [q|q].
  - destruct IH as (k & -> & H). exists (S k). split; [lia|done].
  - destruct IH as (k & -> & Hk & Ht & Hd). exists (S k). split_and!; [lia|cbn; lia| |done]. cbn [take]. constructor; [lia|done].
Qed.

Lemma linear_search_laws : RingSearchLaws linear_search.
Proof.
  constructor. intros ring hash Hs. unfold ring_search, linear_search. assert (H := linear_from_spec hash ring 0 Hs).
  destruct (linear_from ring hash 0) as [q|q]; destruct H as (k & -> & H); exact H.
Qed.

(** ** The upstream *)

Definition member (n : Z) (version : string) (place : string) : UpstreamTarget :=
  {| host := bs "10.0.0." ++ show_dec n; Upstream.port := 8080; service_port_policy_key := None; Upstream.weight := n;
     tags := <[bs "version" := bs version]> ∅; locality := Some (bs place); path := None |}.

Definition canary : bytes := bs "canary".

Definition demo_members : list UpstreamTarget :=
  [member 1 "v1" "eu/a"; member 2 "v2" "eu/b"; member 3 "v2" "us/a"].

Definition demo (alg : LoadBalancerAlgorithm) : balancer_config :=
  {| cfg_upstream_id := bs "ns|shop";
     cfg_algorithm := alg;
     cfg_targets := demo_members;
     cfg_hash_on := Some (bs "cookie:sid");
     cfg_subsets := Some [Subset canary (<[bs "version" := bs "v2"]> ∅) None];
     cfg_port_overrides := Some (<[8080 := PortOverride (Some WeightedRoundRobin) None None None]> ∅);
     cfg_health_checks := None;
     cfg_source_locality := Some (bs "eu/a");
     cfg_source_labels := ∅;
     cfg_locality_lb_setting := Some (LbSetting true [DistributeEntry (bs "eu/a") [(bs "eu", 80); (bs "us", 20)]] [] []);
     cfg_locality_lb_strict := false |}.

(** The keyed hash of a deployment without a key. *)
Definition no_hmac : keyed_hash := fun _ => None.
(** Not a hash, but free of collisions. *)
Definition identity_hmac : keyed_hash := Some.

Lemma demo_ok alg : config_ok (demo alg).
Proof.
  constructor; cbn [demo cfg_targets cfg_locality_lb_setting cfg_port_overrides].
  - cbn. lia.
  - repeat constructor; cbn; lia.
  - constructor. repeat constructor; cbn; lia.
  - intros port o. cbn [default from_option Datatypes.id]. rewrite lookup_insert_Some. intros [[_ <-]|[_ H]]; [constructor|done].
Qed.

(** An upstream before discovery has found a target. *)
Definition undiscovered : balancer_config :=
  {| cfg_upstream_id := bs "ns|carts"; cfg_algorithm := ConsistentHashing; cfg_targets := []; cfg_hash_on := None;
     cfg_subsets := None; cfg_port_overrides := None; cfg_health_checks := None; cfg_source_locality := None;
     cfg_source_labels := ∅; cfg_locality_lb_setting := None; cfg_locality_lb_strict := false |}.

Lemma undiscovered_ok : config_ok undiscovered.
Proof. constructor; cbn; try lia; try constructor. intros port o. by rewrite lookup_empty. Qed.

Lemma built_balancer_ok_witness :
  (lb_ok (with_subsets_and_port_overrides no_hmac (demo LeastLatency))
   /\ state_ok (with_subsets_and_port_overrides no_hmac (demo LeastLatency)) (initial_state (demo LeastLatency)))
  /\ @run_request stable_sort linear_search (with_subsets_and_port_overrides no_hmac undiscovered) 0 true
       (bs "client") Whole None (initial_state undiscovered) = (None, initial_state undiscovered).
Proof.
  split.
  - destruct (built_balancer_ok no_hmac (demo LeastLatency) (demo_ok _)) as (H1 & H2 & _). split; [exact H1|exact H2].
  - destruct (built_balancer_ok no_hmac undiscovered undiscovered_ok) as (_ & _ & H). apply H. reflexivity.
Defined.

Definition shop : LoadBalancer := with_subsets_and_port_overrides no_hmac (demo RoundRobin).
Definition shop_start : LbState := initial_state (demo RoundRobin).

Example shop_subset : subset_indices shop !! canary = Some [1; 2]%nat.
Proof. reflexivity. Qed.
Example shop_port : initial_dispatch_port_override shop = 8080.
Proof. reflexivity. Qed.
Example shop_buckets :
  map group_weight <$> (locality_lb shop ≫= distribute_groups) = Some [80000000; 20000000].
Proof. vm_compute. reflexivity. Qed.

Lemma initial_dispatch_port_exact_witness : initial_dispatch_port_override shop = 8080.
Proof.
  apply (initial_dispatch_port_exact no_hmac (demo RoundRobin)); [discriminate|vm_compute; by eexists|].
  repeat constructor.
Defined.

(** The second target of the subset is down: the subset serves the other one. *)
Definition second_down : HealthContext := HealthCtx (<[scoped_target_key (bs "ns|shop") (member 2 "v2" "eu/b") := 7]> ∅) None None.

Lemma selection_implements_contract_witness :
  exists st', @run_request stable_sort linear_search shop 0 true (bs "client") (InSubset canary) (Some second_down) shop_start
              = (Some (2%nat, false), st') /\ state_ok shop st'.
Proof.
  assert (H := @selection_implements_contract stable_sort stable_sort_laws linear_search linear_search_laws shop 0 true
    (Some second_down) (build_lb_ok no_hmac (demo RoundRobin) (demo_ok _)) (bs "client") (InSubset canary) shop_start
    ltac:(vm_compute; lia) (build_state_ok no_hmac (demo RoundRobin))).
  cbn zeta in H. assert (E : (@run_request stable_sort linear_search shop 0 true (bs "client") (InSubset canary)
    (Some second_down) shop_start).1 = Some (2%nat, false)) by (vm_compute; reflexivity).
  destruct (run_request _ _ _ _ _ _ _) as [r st']. cbn [fst] in E. subst r. exists st'. split; [reflexivity|apply H].
Defined.

Lemma retry_implements_contract_witness :
  exists st', @run_retry stable_sort linear_search shop 0 true (bs "client") (RetryOnPort 8080)
                (excluding (member 3 "v2" "us/a")) ConfiguredStickyIdentity (Some second_down) shop_start
              = (Some 0%nat, st') /\ state_ok shop st'.
Proof.
  assert (H := @retry_implements_contract stable_sort stable_sort_laws linear_search linear_search_laws shop 0 true
    (Some second_down) (excluding (member 3 "v2" "us/a")) ConfiguredStickyIdentity
    (build_lb_ok no_hmac (demo RoundRobin) (demo_ok _)) (bs "client") (RetryOnPort 8080) shop_start
    (build_state_ok no_hmac (demo RoundRobin))).
  assert (E : (@run_retry stable_sort linear_search shop 0 true (bs "client") (RetryOnPort 8080)
    (excluding (member 3 "v2" "us/a")) ConfiguredStickyIdentity (Some second_down) shop_start).1 = Some 0%nat) by (vm_compute; reflexivity).
  destruct (run_retry _ _ _ _ _ _ _ _ _) as [r st']. cbn [fst] in E. subst r. exists st'. split; [reflexivity|apply H].
Defined.

Lemma named_selection_exact_witness :
  @select_passthrough stable_sort shop {| ip := V4 (10 * 2 ^ 24 + 3); Net.port := 8080 |} None (Some canary) (Some second_down) = Some 2%nat.
Proof.
  apply (@named_selection_exact stable_sort stable_sort_laws shop (Some second_down)
    (build_lb_ok no_hmac (demo RoundRobin) (demo_ok _)) [] {| ip := V4 (10 * 2 ^ 24 + 3); Net.port := 8080 |} None (Some canary)
    2%nat).
  exists [1; 2]%nat. split; [vm_compute; reflexivity|]. split; [set_solver|]. split.
  - exists (member 3 "v2" "us/a"), (V4 (10 * 2 ^ 24 + 3)). split_and!; vm_compute; reflexivity.
  - split; [|vm_compute; left]. intros j Hj (t & a & Ht & Ea & Ep & Eq).
    apply elem_of_cons in Hj as [->|Hj%list_elem_of_singleton]; [|rewrite Hj; lia].
    change (Some (member 2 "v2" "eu/b") = Some t) in Ht. injection Ht as <-. vm_compute in Ea. injection Ea as <-.
    vm_compute in Eq. discriminate.
Defined.

Lemma member_wf n version place :
  is_u16 n -> fits (host (member n version place)) -> fits (bs version) -> fits (bs place) -> target_wf (member n version place).
Proof.
  intros Hn Hh Hv Hp. constructor; cbn [member host Upstream.port service_port_policy_key locality path tags]; try done.
  - by intros ? [= <-].
  - split; [rewrite map_size_insert, lookup_empty, map_size_empty; done|].
    intros k v [[<- <-]|[_ H]]%lookup_insert_Some; [split; [done|done]|by rewrite lookup_empty in H].
Qed.

Lemma demo_members_wf : Forall target_wf demo_members.
Proof.
  apply Forall_cons; split; [|apply Forall_cons; split; [|apply Forall_singleton]];
    apply member_wf; vm_compute; try split; congruence.
Qed.

Lemma sticky_identity_exact_witness :
  write_sticky_target_identity (bs "ns|shop") (member 1 "v1" "eu/a")
  <> write_sticky_target_identity (bs "ns|shop") (member 2 "v2" "eu/b").
Proof.
  intros E. apply (sticky_identity_exact (bs "ns|shop") (bs "ns|shop") (member 1 "v1" "eu/a") (member 2 "v2" "eu/b")) in E.
  - destruct E as [_ E]. vm_compute in E. discriminate.
  - vm_compute. reflexivity.
  - vm_compute. reflexivity.
  - apply member_wf; vm_compute; try split; congruence.
  - apply member_wf; vm_compute; try split; congruence.
Defined.

Lemma identity_hmac_inj id a b :
  sticky_session_token identity_hmac id a = sticky_session_token identity_hmac id b ->
  write_sticky_target_identity id a = write_sticky_target_identity id b.
Proof. unfold sticky_session_token, identity_hmac. intros E%Some_inj. by apply app_inv_head, app_inv_head in E. Qed.

Lemma sticky_token_roundtrip_witness :
  exists i u token, sticky_session_token identity_hmac (bs "ns|shop") (member 2 "v2" "eu/b") = Some token
    /\ sticky_token_index (with_subsets_and_port_overrides identity_hmac (demo ConsistentHashing)) !! token = Some i
    /\ demo_members !! i = Some u /\ same_sticky_identity u (member 2 "v2" "eu/b") = true.
Proof.
  destruct (sticky_token_roundtrip identity_hmac (demo ConsistentHashing) (member 2 "v2" "eu/b")
    (STICKY_SESSION_TOKEN_DOMAIN ++ [31] ++ write_sticky_target_identity (bs "ns|shop") (member 2 "v2" "eu/b")))
    as (i & u & H1 & H2 & H3).
  - vm_compute. reflexivity.
  - vm_compute. reflexivity.
  - apply demo_members_wf.
  - intros a b _ _ tok Ha Hb. apply identity_hmac_inj. congruence.
  - right. left.
  - reflexivity.
  - eexists i, u, _. split; [reflexivity|]. split; [exact H1|]. split; [exact H2|exact H3].
Defined.

(** ** The algorithms *)

Definition shop_keys : list bytes := map target_host_port_key demo_members.

Lemma consistent_hash_stable_witness :
  exists t, @select_consistent_hash_vec_with_ring linear_search (bs "user-1") [0; 1; 2]%nat
              (build_hash_ring_for_indices shop_keys [0; 1; 2]%nat) = Some t
    /\ (t ∈ [0; 2]%nat -> @select_consistent_hash_vec_with_ring linear_search (bs "user-1") [0; 2]%nat
                           (build_hash_ring_for_indices shop_keys [0; 1; 2]%nat) = Some t).
Proof.
  destruct (@consistent_hash_stable linear_search linear_search_laws shop_keys [0; 1; 2]%nat
    ltac:(repeat constructor; cbn; lia) (bs "user-1") [0; 1; 2]%nat [0; 2]%nat) as (t & H1 & _ & H2).
  - set_solver.
  - set_solver.
  - discriminate.
  - exists t. split; [exact H1|exact H2].
Defined.

Lemma consistent_hash_nearest_witness :
  exists t h, @select_consistent_hash_vec_with_ring linear_search (bs "user-1") [0; 2]%nat
                (build_hash_ring_for_indices shop_keys [0; 1; 2]%nat) = Some t
    /\ t ∈ [0; 2]%nat /\ (h, t) ∈ build_hash_ring_for_indices shop_keys [0; 1; 2]%nat.
Proof.
  destruct (@consistent_hash_nearest linear_search linear_search_laws shop_keys [0; 1; 2]%nat (bs "user-1") [0; 2]%nat)
    as (t & h & H1 & Hc & H2 & _).
  - repeat constructor; cbn; lia.
  - discriminate.
  - set_solver.
  - apply (bool_decide_unpack _). vm_compute. exact I.
  - exists t, h. split; [exact H1|split; [exact Hc|exact H2]].
Defined.

Definition two_localities : LocalityDistributeGroup * LocalityDistributeGroup :=
  (group_of 3 [(0%nat, 80)], group_of 3 [(1%nat, 12); (2%nat, 8)]).

Lemma locality_buckets_proportional_witness :
  pick_bucket (group_mask_vec [0; 2]%nat) [two_localities.1; two_localities.2] 99 = Some [2]%nat.
Proof.
  apply (locality_buckets_proportional [0; 2]%nat [two_localities.1] two_localities.2 [] [2]%nat 99).
  - repeat constructor; vm_compute; discriminate.
  - vm_compute. discriminate.
  - reflexivity.
  - vm_compute. split; [discriminate|reflexivity].
Defined.

Lemma least_loaded_exact_witness :
  exists t, select_least_connections_vec (lb_pool shop) [0; 1; 2]%nat shop_start = Some t
    /\ forall i, i ∈ [0; 1; 2]%nat -> conns_of (lb_pool shop) shop_start t <= conns_of (lb_pool shop) shop_start i.
Proof.
  destruct (least_loaded_exact (lb_pool shop) 0 [0; 1; 2]%nat ParentLane shop_start) as [(t & H1 & _ & H2) _].
  - discriminate.
  - apply metrics_new_ok.
  - exists t. split; [exact H1|exact H2].
Defined.
