(* ===== verification/LbCache.v ===== *)
(** * The cache of balancers ([src/src/load_balancer.rs], [src/src/proxy/mod.rs],
    [src/src/proxy/backend_dispatch.rs])

    One snapshot holds the balancer and the definition of every upstream. A
    reload builds the next snapshot, whole or from a delta; service discovery
    replaces the targets of one upstream. Balancers are shared between
    snapshots through [Arc]: they live in a heap, a snapshot maps runtime keys
    to addresses, and a balancer that is carried over keeps its counters. *)

From S2P Require Import Prelude Decimal RuntimeKeys BreakerCache Upstream Net HashOn HealthBitset SmoothWrr WrrSelect PassiveHealth ActiveHealth LbHealth LbLocality LbMetrics LbAlgorithms LbDispatch LbSelect LbRetry LbSelectSpec LbRetrySpec LbSticky LbLocalityBuild LbBuild.
#[local] Open Scope Z_scope.

(** ** Snapshots *)

(** The fields of an upstream the balancer and its callers read. Of a resolved
    subset policy only the passive-health overlay is kept. *)
Record Upstream := UpstreamDef {
  up_namespace : bytes;
  up_id : bytes;
  up_algorithm : LoadBalancerAlgorithm;
  up_targets : list UpstreamTarget;
  up_hash_on : option bytes;
  up_subsets : option (list SubsetDefinition);
  up_port_overrides : gmap Z UpstreamPortOverride;
  up_health_checks : option HealthCheckConfig;
  up_source_locality : option bytes;
  up_source_labels : gmap bytes bytes;
  up_locality_lb_setting : option UpstreamLocalityLbSetting;
  up_locality_lb_strict : bool;
  up_service_discovery : option bytes;
  up_resolved_subsets : gmap bytes (option PassiveHealthCheck);
}.

Definition with_targets (u : Upstream) (ts : list UpstreamTarget) : Upstream :=
  {| up_namespace := up_namespace u; up_id := up_id u; up_algorithm := up_algorithm u; up_targets := ts;
     up_hash_on := up_hash_on u; up_subsets := up_subsets u; up_port_overrides := up_port_overrides u;
     up_health_checks := up_health_checks u; up_source_locality := up_source_locality u;
     up_source_labels := up_source_labels u; up_locality_lb_setting := up_locality_lb_setting u;
     up_locality_lb_strict := up_locality_lb_strict u; up_service_discovery := up_service_discovery u;
     up_resolved_subsets := up_resolved_subsets u |}.

Definition up_key (u : Upstream) : bytes := namespaced_runtime_key (up_namespace u) (up_id u).

(** The arguments every construction site passes. *)
Definition config_of (key : bytes) (algorithm : LoadBalancerAlgorithm) (hash_on : option bytes) (u : Upstream) : balancer_config :=
  {| cfg_upstream_id := key; cfg_algorithm := algorithm; cfg_targets := up_targets u; cfg_hash_on := hash_on;
     cfg_subsets := up_subsets u; cfg_port_overrides := Some (up_port_overrides u);
     cfg_health_checks := up_health_checks u; cfg_source_locality := up_source_locality u;
     cfg_source_labels := up_source_labels u; cfg_locality_lb_setting := up_locality_lb_setting u;
     cfg_locality_lb_strict := up_locality_lb_strict u |}.

Definition own_config (u : Upstream) : balancer_config := config_of (up_key u) (up_algorithm u) (up_hash_on u) u.

Notation balancer_heap := (list (LoadBalancer * LbState)).

Record LoadBalancerCacheInner := Inner {
  balancers : gmap bytes nat;
  upstream_index : gmap bytes Upstream;
}.

Section cache.
Context (hmac : keyed_hash).

Definition fresh (cfg : balancer_config) : LoadBalancer * LbState :=
  (with_subsets_and_port_overrides hmac cfg, initial_state cfg).

Definition insert_balancer (acc : balancer_heap * gmap bytes nat) (u : Upstream) : balancer_heap * gmap bytes nat :=
  let '(h, m) := acc in (h ++ [fresh (own_config u)], <[up_key u := length h]> m).

Definition build_balancers (h : balancer_heap) (config : list Upstream) : balancer_heap * gmap bytes nat :=
  foldl insert_balancer (h, ∅) config.

Definition insert_upstream (m : gmap bytes Upstream) (u : Upstream) : gmap bytes Upstream := <[up_key u := u]> m.

Definition build_upstream_index (config : list Upstream) : gmap bytes Upstream := foldl insert_upstream ∅ config.

Definition build_inner (h : balancer_heap) (config : list Upstream) : balancer_heap * LoadBalancerCacheInner :=
  let '(h, m) := build_balancers h config in (h, Inner m (build_upstream_index config)).

Definition build_delta_inner (h : balancer_heap) (current : LoadBalancerCacheInner) (full_new_config : list Upstream)
    (added : list Upstream) (removed_ids : list NamespacedResourceId) (modified : list Upstream)
    : balancer_heap * LoadBalancerCacheInner :=
  if bool_decide (added = []) && bool_decide (removed_ids = []) && bool_decide (modified = []) then (h, current)
  else
    let kept := foldl (fun m r => delete (namespaced_runtime_key (namespace r) (id r)) m) (balancers current) removed_ids in
    let '(h, new_balancers) := foldl insert_balancer (h, kept) (added ++ modified) in
    (h, Inner new_balancers (foldl insert_upstream (build_upstream_index full_new_config) (added ++ modified))).

Definition build_update_targets_inner (h : balancer_heap) (current : LoadBalancerCacheInner) (ns upstream_id : bytes)
    (new_targets : list UpstreamTarget) (algorithm : LoadBalancerAlgorithm) (hash_on : option bytes)
    : balancer_heap * LoadBalancerCacheInner :=
  let key := namespaced_runtime_key ns upstream_id in
  match upstream_index current !! key with
  | None => (h, current)
  | Some existing =>
    let updated := with_targets existing new_targets in
    (h ++ [fresh (config_of key algorithm hash_on updated)],
     Inner (<[key := length h]> (balancers current)) (<[key := updated]> (upstream_index current)))
  end.

(** The published snapshot: every update loads it and stores its successor. *)
Definition cache_new (h : balancer_heap) (config : list Upstream) := build_inner h config.
Definition rebuild (c : balancer_heap * LoadBalancerCacheInner) (config : list Upstream) := build_inner c.1 config.
Definition apply_delta (c : balancer_heap * LoadBalancerCacheInner) := build_delta_inner c.1 c.2.
Definition update_targets (c : balancer_heap * LoadBalancerCacheInner) := build_update_targets_inner c.1 c.2.

(** ** Lookups *)

Definition balancer (h : balancer_heap) (s : LoadBalancerCacheInner) (ns upstream_id : bytes)
    : option (nat * (LoadBalancer * LbState)) :=
  balancers s !! namespaced_runtime_key ns upstream_id ≫= fun a => (fun c => (a, c)) <$> h !! a.

Definition upstream (s : LoadBalancerCacheInner) (ns upstream_id : bytes) : option Upstream :=
  upstream_index s !! namespaced_runtime_key ns upstream_id.

Definition get_upstream_from := upstream.

(** Runs an operation on the balancer of an upstream and stores its new state. *)
Definition on_balancer {A} (h : balancer_heap) (s : LoadBalancerCacheInner) (ns upstream_id : bytes)
    (f : LoadBalancer -> LbState -> option A * LbState) : option A * balancer_heap :=
  match balancer h s ns upstream_id with
  | None => (None, h)
  | Some (a, (lb, st)) => let '(r, st') := f lb st in (r, <[a := (lb, st')]> h)
  end.

Definition get_hash_on_strategy_from (h : balancer_heap) (s : LoadBalancerCacheInner) (ns upstream_id : bytes) : HashOnStrategy :=
  match balancer h s ns upstream_id with Some (_, (lb, _)) => hash_on_strategy lb | None => Ip end.

Definition get_hash_on_strategy_for_port_from (h : balancer_heap) (s : LoadBalancerCacheInner) (ns upstream_id : bytes)
    (port : Z) : HashOnStrategy :=
  match balancer h s ns upstream_id with Some (_, (lb, _)) => hash_on_strategy_for_port lb port | None => Ip end.

Definition get_hash_on_strategy_for_selection_from (h : balancer_heap) (s : LoadBalancerCacheInner)
    (ns upstream_id : bytes) (port : option Z) (name : option bytes) : HashOnStrategy :=
  match balancer h s ns upstream_id with
  | Some (_, (lb, _)) => hash_on_strategy_for_selection lb port name
  | None => Ip
  end.

Definition initial_dispatch_port_override_from (h : balancer_heap) (s : LoadBalancerCacheInner) (ns upstream_id : bytes) : Z :=
  match balancer h s ns upstream_id with Some (_, (lb, _)) => initial_dispatch_port_override lb | None => 0 end.

Definition has_port_override_state_from (h : balancer_heap) (s : LoadBalancerCacheInner) (ns upstream_id : bytes) (port : Z)
    : bool :=
  match balancer h s ns upstream_id with
  | Some (_, (lb, _)) => bool_decide (is_Some (port_overrides lb !! port))
  | None => false
  end.

Definition effective_algorithm_from (h : balancer_heap) (s : LoadBalancerCacheInner) (ns upstream_id : bytes)
    (port : option Z) (name : option bytes) : option LoadBalancerAlgorithm :=
  (fun b => effective_algorithm b.2.1 port name) <$> balancer h s ns upstream_id.

(** ** Selections *)

Section selections.
Context {US : UnstableSort} {RS : RingSearch} (shard : nat) (locked : bool).
Context (h : balancer_heap) (s : LoadBalancerCacheInner) (ns upstream_id : bytes) (ctx_key : bytes).
Context (health : option HealthContext).

Definition select_target_from := on_balancer h s ns upstream_id (fun lb => select lb shard locked ctx_key health).
Definition select_target_for_port_from (port : Z) :=
  on_balancer h s ns upstream_id (fun lb => select_for_port lb shard locked ctx_key port health).
Definition select_target_matching_family_from (destination : IpAddr) :=
  on_balancer h s ns upstream_id (fun lb => select_matching_family lb shard locked ctx_key health destination).
Definition select_target_for_port_matching_family_from (port : Z) (destination : IpAddr) :=
  on_balancer h s ns upstream_id (fun lb => select_for_port_matching_family lb shard locked ctx_key port health destination).
Definition select_target_subset_from (name : bytes) :=
  on_balancer h s ns upstream_id (fun lb => select_from_subset lb shard locked ctx_key name health).
Definition select_target_for_port_subset_from (port : Z) (name : bytes) :=
  on_balancer h s ns upstream_id (fun lb => select_for_port_from_subset lb shard locked ctx_key port name health).

Definition select_next_target_filtered_from (f : RetryCandidateFilter) :=
  on_balancer h s ns upstream_id (fun lb => select_filtered lb shard locked ctx_key f health).
Definition select_next_target_from (exclude : UpstreamTarget) := select_next_target_filtered_from (excluding exclude).
Definition select_next_target_excluding_endpoint_lane_from (exclude : UpstreamTarget) :=
  on_balancer h s ns upstream_id (fun lb => select_excluding_endpoint_lane lb shard locked ctx_key exclude health).
Definition select_next_target_for_port_filtered_from (port : Z) (f : RetryCandidateFilter) :=
  on_balancer h s ns upstream_id (fun lb => select_filtered_for_port lb shard locked ctx_key port f health).
Definition select_next_target_for_port_from (port : Z) (exclude : UpstreamTarget) :=
  select_next_target_for_port_filtered_from port (excluding exclude).
Definition select_next_target_for_port_excluding_endpoint_lane_from (port : Z) (exclude : UpstreamTarget) :=
  on_balancer h s ns upstream_id (fun lb => select_excluding_for_port_endpoint_lane lb shard locked ctx_key port exclude health).
Definition select_next_target_subset_filtered_from (name : bytes) (f : RetryCandidateFilter) :=
  on_balancer h s ns upstream_id (fun lb => select_filtered_from_subset lb shard locked ctx_key name f health).
Definition select_next_target_subset_from (name : bytes) (exclude : UpstreamTarget) :=
  select_next_target_subset_filtered_from name (excluding exclude).
Definition select_next_target_subset_excluding_endpoint_lane_from (name : bytes) (exclude : UpstreamTarget) :=
  on_balancer h s ns upstream_id (fun lb => select_excluding_from_subset_endpoint_lane lb shard locked ctx_key name exclude health).
Definition select_next_target_for_port_subset_filtered_from (port : Z) (name : bytes) (f : RetryCandidateFilter) :=
  on_balancer h s ns upstream_id (fun lb => select_filtered_for_port_from_subset lb shard locked ctx_key port name f health).
Definition select_next_target_for_port_subset_from (port : Z) (name : bytes) (exclude : UpstreamTarget) :=
  select_next_target_for_port_subset_filtered_from port name (excluding exclude).
Definition select_next_target_for_port_subset_excluding_endpoint_lane_from (port : Z) (name : bytes)
    (exclude : UpstreamTarget) :=
  on_balancer h s ns upstream_id (fun lb =>
    select_excluding_for_port_from_subset_endpoint_lane lb shard locked ctx_key port name exclude health).

Definition select_passthrough_from (orig_dst : SocketAddr) (port : option Z) (name : option bytes) : option nat :=
  balancer h s ns upstream_id ≫= fun b => select_passthrough b.2.1 orig_dst port name health.
Definition select_sticky_from (token : bytes) (port : option Z) (name : option bytes) : option nat :=
  balancer h s ns upstream_id ≫= fun b => select_sticky b.2.1 token port name health.
End selections.

Definition configured_sticky_identity_target_from (h : balancer_heap) (s : LoadBalancerCacheInner) (ns upstream_id : bytes)
    (served : UpstreamTarget) : UpstreamTarget :=
  match balancer h s ns upstream_id with
  | Some (_, (lb, _)) => configured_sticky_identity_target lb served
  | None => served
  end.

(** ** Measurements *)

Definition on_metrics (h : balancer_heap) (s : LoadBalancerCacheInner) (ns upstream_id : bytes)
    (f : list bytes -> Metrics -> Metrics) : balancer_heap :=
  snd (on_balancer h s ns upstream_id (fun lb st =>
    (@None unit, Lanes (rr_counters st) (wrr_states st) (distribute_counters st) (f (host_port_keys (lb_pool lb)) (metrics st))))).

Definition cache_record_connection_start h s ns upstream_id t :=
  on_metrics h s ns upstream_id (fun keys m => record_connection_start keys m t).
Definition cache_record_connection_end h s ns upstream_id t :=
  on_metrics h s ns upstream_id (fun keys m => record_connection_end keys m t).
Definition cache_record_latency h s ns upstream_id t latency_us :=
  on_metrics h s ns upstream_id (fun keys m => record_latency keys m t latency_us).
Definition cache_record_failed_attempt h s ns upstream_id t :=
  on_metrics h s ns upstream_id (fun keys m => record_failed_attempt keys m t).
Definition cache_reset_recovered_target_latency h s ns upstream_id t :=
  on_metrics h s ns upstream_id (fun keys m => reset_recovered_target_latency keys m t).
End cache.

(** ** The passive policy of a target *)

(** The fields of a proxy these functions read. *)
Record ProxyRoute := Route {
  route_namespace : bytes;
  route_id : bytes;
  route_upstream_id : option bytes;
  route_upstream_subset : option bytes;
  route_port_passive : gmap Z (option PassiveHealthCheck);
  route_backend_host : bytes;
  route_backend_port : Z;
}.

Definition upstream_passive (u : Upstream) : option PassiveHealthCheck := up_health_checks u ≫= health_passive.

Definition subset_passive (p : ProxyRoute) (u : Upstream) : option PassiveHealthCheck :=
  route_upstream_subset p ≫= fun name => mjoin (up_resolved_subsets u !! name).

Definition port_passive (p : ProxyRoute) (port : Z) : option PassiveHealthCheck := mjoin (route_port_passive p !! port).

Definition passive_health_for_target (p : ProxyRoute) (u : Upstream) (t : UpstreamTarget) : option PassiveHealthCheck :=
  match port_passive p (dispatch_policy_port t) with
  | Some c => Some c
  | None => match subset_passive p u with Some c => Some c | None => upstream_passive u end
  end.

Definition max_ejection_percent_from (s : LoadBalancerCacheInner) (ns upstream_id : bytes) : option Z :=
  (upstream s ns upstream_id ≫= upstream_passive) ≫= policy_max_ejection_percent.

Definition max_ejection_percent_for_port_from (h : balancer_heap) (s : LoadBalancerCacheInner) (ns upstream_id : bytes)
    (p : ProxyRoute) (port : Z) : option Z :=
  match (if has_port_override_state_from h s ns upstream_id port then port_passive p port else None) with
  | Some c => policy_max_ejection_percent c
  | None => max_ejection_percent_from s ns upstream_id
  end.

Definition max_ejection_percent_resolved_from (h : balancer_heap) (s : LoadBalancerCacheInner) (ns upstream_id : bytes)
    (p : ProxyRoute) (port : option Z) : option Z :=
  match port ≫= fun port => if has_port_override_state_from h s ns upstream_id port then port_passive p port else None with
  | Some c => policy_max_ejection_percent c
  | None =>
    match upstream s ns upstream_id ≫= subset_passive p with
    | Some c => policy_max_ejection_percent c
    | None => max_ejection_percent_from s ns upstream_id
    end
  end.

(** ** Reload *)

Section reload.
Context {Json : Type} `{EqDecision Json}.
Context (discovery_value : bytes -> option Json) (targets_value : list UpstreamTarget -> option Json).

Definition discovery_source_eq (a b : Upstream) : bool :=
  match up_service_discovery a, up_service_discovery b with
  | Some x, Some y =>
    match discovery_value x, discovery_value y with Some v, Some w => bool_decide (v = w) | _, _ => false end
  | _, _ => false
  end.

Definition authored_targets_eq (a b : Upstream) : bool :=
  (length (up_targets a) =? length (up_targets b))%nat
  && bool_decide (map service_port_policy_key (up_targets a) = map service_port_policy_key (up_targets b))
  && match targets_value (up_targets a), targets_value (up_targets b) with
     | Some v, Some w => bool_decide (v = w)
     | _, _ => false
     end.

(** The last definition of an identity in the old configuration. *)
Definition find_authored (old_config : list Upstream) (ns id : bytes) : option Upstream :=
  foldl (fun acc u => if bool_decide (up_namespace u = ns /\ up_id u = id) then Some u else acc) None old_config.

Definition preserve_live_discovery_targets (current : LoadBalancerCacheInner) (old_config modified : list Upstream)
    : list Upstream :=
  map (fun replacement =>
         match find_authored old_config (up_namespace replacement) (up_id replacement) with
         | None => replacement
         | Some old =>
           if negb (discovery_source_eq old replacement) || negb (authored_targets_eq old replacement) then replacement
           else
             match get_upstream_from current (up_namespace replacement) (up_id replacement) with
             | Some live => with_targets replacement (up_targets live)
             | None => replacement
             end
         end) modified.
End reload.

(** The targets a proxy's health state is pruned against, [None] to keep all. *)
Definition live_targets (s : LoadBalancerCacheInner) (config : list Upstream) (p : ProxyRoute) : option (list UpstreamTarget) :=
  match route_upstream_id p with
  | None => None
  | Some upstream_id =>
    match get_upstream_from s (route_namespace p) upstream_id with
    | Some live => Some (up_targets live)
    | None =>
      match List.find (fun u => bool_decide (up_id u = upstream_id) && bool_decide (up_namespace u = route_namespace p)) config with
      | Some u => if bool_decide (up_service_discovery u = None) then Some (up_targets u) else None
      | None => None
      end
    end
  end.

Definition proxy_keys (s : LoadBalancerCacheInner) (config : list Upstream) (p : ProxyRoute) : list bytes :=
  let scoped := map (fun t => scoped_cache_key (route_namespace p) (route_id p) (host t) (Upstream.port t)) in
  match route_upstream_id p with
  | Some upstream_id =>
    match get_upstream_from s (route_namespace p) upstream_id with
    | Some live => scoped (up_targets live)
    | None =>
      match List.find (fun u => bool_decide (up_id u = upstream_id) && bool_decide (up_namespace u = route_namespace p)) config with
      | Some u => scoped (up_targets u)
      | None => []
      end
    end
  | None =>
    if negb (bool_decide (route_backend_host p = [])) && negb (route_backend_port p =? 0)
    then [scoped_cache_key (route_namespace p) (route_id p) (route_backend_host p) (route_backend_port p)] else []
  end.

Definition prune_stale_target_health (s : LoadBalancerCacheInner) (config : list Upstream) (proxies : list ProxyRoute)
    (health : gmap bytes ProxyHealthState) (breakers : cache) : gmap bytes ProxyHealthState * cache :=
  (foldl (fun health p =>
            match live_targets s config p with
            | Some ts => remove_stale_passive_targets_for_proxy health (route_namespace p) (route_id p) ts
            | None => health
            end) health proxies,
   prune_stale_targets (list_to_set (concat (map (proxy_keys s config) proxies))) breakers).

(** ** Coherence of a snapshot *)

Section coherence.
Context (hmac : keyed_hash).

(** The key of an upstream names its balancer, built from this definition. *)
Definition serves (h : balancer_heap) (s : LoadBalancerCacheInner) (k : bytes) (u : Upstream) : Prop :=
  exists a st, balancers s !! k = Some a
    /\ h !! a = Some (with_subsets_and_port_overrides hmac (config_of k (up_algorithm u) (up_hash_on u) u), st).

(** The balancers are exactly those of the indexed definitions. *)
Definition coherent (h : balancer_heap) (s : LoadBalancerCacheInner) : Prop :=
  forall k, match upstream_index s !! k with
            | Some u => serves h s k u
            | None => balancers s !! k = None
            end.

(** The last definition with a key. *)
Definition last_with (k : bytes) (l : list Upstream) : option Upstream :=
  foldl (fun acc u => if bool_decide (up_key u = k) then Some u else acc) None l.

Lemma last_with_snoc k l u : last_with k (l ++ [u]) = if bool_decide (up_key u = k) then Some u else last_with k l.
Proof. unfold last_with. by rewrite foldl_app. Qed.

Lemma last_with_key k l u : last_with k l = Some u -> up_key u = k.
Proof.
  induction l as [|v l IH] using rev_ind; [done|]. rewrite last_with_snoc. case_bool_decide; [by intros [= <-]|done].
Qed.

Lemma index_lookup l m k :
  foldl insert_upstream m l !! k = match last_with k l with Some u => Some u | None => m !! k end.
Proof.
  induction l as [|u l IH] using rev_ind; [done|]. rewrite foldl_app, last_with_snoc. cbn [foldl]. unfold insert_upstream at 1.
  case_bool_decide as E; [by rewrite E, lookup_insert, decide_True|]. by rewrite lookup_insert_ne.
Qed.

(** Every inserted upstream gets a new balancer; the heap only grows. *)
Lemma insert_all l h m :
  let '(h', m') := foldl (insert_balancer hmac) (h, m) l in
  h `prefix_of` h'
  /\ forall k, match last_with k l with
               | Some u => exists a, m' !! k = Some a /\ h' !! a = Some (fresh hmac (own_config u)) /\ (length h <= a)%nat
               | None => m' !! k = m !! k
               end.
Proof.
  induction l as [|u l IH] using rev_ind; [split; [done|]; done|]. rewrite foldl_app. cbn [foldl].
  destruct (foldl (insert_balancer hmac) (h, m) l) as [h' m'] eqn:E. cbn [insert_balancer]. destruct IH as [Hp Hk].
  split; [by apply prefix_app_r|]. intros k. rewrite last_with_snoc. case_bool_decide as Ek.
  - exists (length h'). rewrite Ek, lookup_insert, decide_True by done. split; [done|]. split.
    + by rewrite lookup_app_r, Nat.sub_diag.
    + by apply prefix_length.
  - rewrite lookup_insert_ne by done. specialize (Hk k). destruct (last_with k l) as [v|]; [|done].
    destruct Hk as (a & ? & Ha & ?). exists a. split; [done|]. split; [by apply lookup_app_l_Some|done].
Qed.

Lemma fresh_serves h s k u a :
  up_key u = k -> balancers s !! k = Some a -> h !! a = Some (fresh hmac (own_config u)) -> serves h s k u.
Proof. intros <- Hb Hh. exists a, (initial_state (own_config u)). by split. Qed.

Lemma removed_lookup (m : gmap bytes nat) (removed : list NamespacedResourceId) k :
  foldl (fun m r => delete (namespaced_runtime_key (namespace r) (id r)) m) m removed !! k
  = if bool_decide (k ∈ map (fun r => namespaced_runtime_key (namespace r) (id r)) removed) then None else m !! k.
Proof.
  induction removed as [|r l IH] using rev_ind; [done|]. rewrite foldl_app, map_app. cbn [foldl map].
  rewrite lookup_delete, IH. destruct (decide (namespaced_runtime_key (namespace r) (id r) = k)) as [E|E].
  - rewrite bool_decide_true; [done|]. rewrite E. apply elem_of_app. right. by left.
  - erewrite bool_decide_ext; [done|]. rewrite elem_of_app, list_elem_of_singleton. naive_solver.
Qed.

(** What a delta must satisfy: outside the upstreams it carries, the new
    configuration and the live index agree. *)
Definition delta_faithful (current : LoadBalancerCacheInner) (config added : list Upstream)
    (removed : list NamespacedResourceId) (modified : list Upstream) : Prop :=
  forall k, last_with k (added ++ modified) = None ->
    build_upstream_index config !! k
    = if bool_decide (k ∈ map (fun r => namespaced_runtime_key (namespace r) (id r)) removed) then None
      else upstream_index current !! k.

Lemma build_inner_coherent h config :
  let '(h', s) := build_inner hmac h config in coherent h' s.
Proof.
  unfold build_inner, build_balancers. assert (H := insert_all config h ∅).
  destruct (foldl (insert_balancer hmac) (h, ∅) config) as [h' m]. destruct H as [_ Hk]. intros k.
  cbn [upstream_index balancers]. unfold build_upstream_index. rewrite index_lookup, lookup_empty. specialize (Hk k).
  destruct (last_with k config) as [u|] eqn:E; [|done]. destruct Hk as (a & Ha & Hh & _).
  eapply fresh_serves; [by eapply last_with_key|done|done].
Qed.

Lemma serves_prefix_of h h' s s' k u :
  h `prefix_of` h' -> balancers s' !! k = balancers s !! k -> serves h s k u -> serves h' s' k u.
Proof. intros Hp E (a & st & Ha & Hh). exists a, st. rewrite E. split; [done|]. by eapply prefix_lookup_Some. Qed.

Lemma update_targets_coherent h s ns id ts :
  coherent h s ->
  let '(h', s') := match upstream s ns id with
                   | Some u => build_update_targets_inner hmac h s ns id ts (up_algorithm u) (up_hash_on u)
                   | None => (h, s)
                   end in
  coherent h' s' /\ h `prefix_of` h'
  /\ forall k, k <> namespaced_runtime_key ns id -> balancers s' !! k = balancers s !! k.
Proof.
  intros Hc. unfold upstream. set (key := namespaced_runtime_key ns id).
  destruct (upstream_index s !! key) as [u|] eqn:Eu; [|done].
  unfold build_update_targets_inner. fold key. rewrite Eu. split_and!.
  - intros k. cbn [upstream_index balancers]. destruct (decide (k = key)) as [->|Hne].
    + rewrite lookup_insert, decide_True by done. exists (length h), (initial_state (config_of key (up_algorithm u) (up_hash_on u) (with_targets u ts))).
      cbn [balancers]. rewrite lookup_insert, decide_True by done. split; [done|]. by rewrite lookup_app_r, Nat.sub_diag.
    + rewrite lookup_insert_ne by done. specialize (Hc k). destruct (upstream_index s !! k) as [v|].
      * eapply serves_prefix_of; [by apply prefix_app_r|cbn [balancers]; by rewrite lookup_insert_ne|done].
      * by rewrite lookup_insert_ne.
  - by apply prefix_app_r.
  - intros k Hne. cbn [balancers]. by rewrite lookup_insert_ne.
Qed.
End coherence.

(** C26. Reloading by delta is reloading: if the delta covers every upstream in which
    the new configuration and the live index differ, the next snapshot indexes
    exactly the new configuration with the carried definitions on top, every
    indexed upstream is served by a balancer of its own definition and no other
    balancer remains; an upstream the delta does not touch keeps its very instance
    with all counters, and a touched one starts fresh. *)
Theorem lb_delta_equals_rebuild (hmac : keyed_hash) (h : balancer_heap) (s : LoadBalancerCacheInner)
    (config added : list Upstream) (removed : list NamespacedResourceId) (modified : list Upstream) :
  coherent hmac h s -> delta_faithful s config added removed modified ->
  let '(h', s') := build_delta_inner hmac h s config added removed modified in
  coherent hmac h' s' /\ h `prefix_of` h'
  /\ (forall k, upstream_index s' !! k
        = match last_with k (added ++ modified) with Some u => Some u | None => build_upstream_index config !! k end)
  /\ (forall k, last_with k (added ++ modified) = None -> is_Some (upstream_index s' !! k) ->
        balancers s' !! k = balancers s !! k)
  /\ (forall k u, last_with k (added ++ modified) = Some u ->
        exists a, balancers s' !! k = Some a /\ h' !! a = Some (fresh hmac (own_config u))).
Proof.
  intros Hc Hf. unfold build_delta_inner. destruct (_ && _ && _) eqn:Enil.
  { apply andb_true_iff in Enil as [[E1 E2]%andb_true_iff E3].
    apply bool_decide_eq_true in E1, E2, E3. subst. split; [done|]. split; [done|]. split; [|done].
    intros k. cbn [app]. rewrite (Hf k) by done. by rewrite bool_decide_false by apply not_elem_of_nil. }
  set (kept := foldl _ (balancers s) removed). assert (H := insert_all hmac (added ++ modified) h kept).
  destruct (foldl (insert_balancer hmac) (h, kept) (added ++ modified)) as [h' m']. destruct H as [Hp Hk].
  assert (Hun : forall k, last_with k (added ++ modified) = None -> is_Some (build_upstream_index config !! k) ->
    m' !! k = balancers s !! k /\ upstream_index s !! k = build_upstream_index config !! k).
  { intros k E Hs. specialize (Hk k). rewrite E in Hk. rewrite Hk. unfold kept. rewrite removed_lookup.
    rewrite (Hf k E) in Hs |- *. case_bool_decide; [by destruct Hs|done]. }
  split_and!.
  - intros k. cbn [upstream_index balancers]. rewrite index_lookup. specialize (Hk k) as Hkk.
    destruct (last_with k (added ++ modified)) as [u|] eqn:E.
    + destruct Hkk as (a & Ha & Hh & _). eapply fresh_serves; [by eapply last_with_key|done|done].
    + destruct (build_upstream_index config !! k) as [u|] eqn:Ec.
      * destruct (Hun k E) as [Hm Hu]; [by rewrite Ec|]. specialize (Hc k). rewrite Hu, Ec in Hc. by eapply serves_prefix_of.
      * rewrite Hkk. unfold kept. rewrite removed_lookup. rewrite (Hf k E) in Ec. case_bool_decide; [done|].
        specialize (Hc k). by rewrite Ec in Hc.
  - done.
  - intros k. cbn [upstream_index]. apply index_lookup.
  - intros k E Hs. cbn [upstream_index balancers] in *. rewrite index_lookup, E in Hs. by apply Hun.
  - intros k u E. specialize (Hk k). rewrite E in Hk. destruct Hk as (a & ? & ? & _). by exists a.
Qed.

(** The ejection cap and the ejection thresholds of a dispatch come from the same
    policy: for a target on a port whose override, if it has one, has a live lane,
    the cap the balancer applies is the cap of the very policy the target's
    outcomes are judged by, whichever tier (port, subset, upstream) that is. *)
Theorem cap_and_thresholds_same_tier (h : balancer_heap) (s : LoadBalancerCacheInner) (ns upstream_id : bytes)
    (p : ProxyRoute) (u : Upstream) (t : UpstreamTarget) :
  upstream s ns upstream_id = Some u ->
  (is_Some (port_passive p (dispatch_policy_port t)) ->
   has_port_override_state_from h s ns upstream_id (dispatch_policy_port t) = true) ->
  max_ejection_percent_resolved_from h s ns upstream_id p (Some (dispatch_policy_port t))
  = passive_health_for_target p u t ≫= policy_max_ejection_percent.
Proof.
  intros Hu Hlane. unfold max_ejection_percent_resolved_from, passive_health_for_target, max_ejection_percent_from.
  rewrite Hu. cbn [mbind option_bind]. destruct (port_passive p (dispatch_policy_port t)) as [c|].
  - by rewrite Hlane.
  - destruct (has_port_override_state_from _ _ _ _ _); by destruct (subset_passive p u).
Qed.

(** ** The contract through the cache *)

(** Every balancer of the heap that has a target is in a valid state. *)
Definition cells_ok (h : balancer_heap) : Prop := Forall (fun c => (0 < lb_size c.1)%nat -> state_ok c.1 c.2) h.

Definition cache_request {US : UnstableSort} {RS : RingSearch} (shard : nat) (locked : bool) (h : balancer_heap)
    (s : LoadBalancerCacheInner) (ns upstream_id ctx_key : bytes) (req : request) (health : option HealthContext)
    : option TargetSelection * balancer_heap :=
  match req with
  | Whole => select_target_from shard locked h s ns upstream_id ctx_key health
  | InFamily d => select_target_matching_family_from shard locked h s ns upstream_id ctx_key health d
  | InSubset name => select_target_subset_from shard locked h s ns upstream_id ctx_key health name
  | OnPort port => select_target_for_port_from shard locked h s ns upstream_id ctx_key health port
  | OnPortInFamily port d =>
    select_target_for_port_matching_family_from shard locked h s ns upstream_id ctx_key health port d
  | OnPortInSubset port name => select_target_for_port_subset_from shard locked h s ns upstream_id ctx_key health port name
  end.

Lemma cache_request_spec {US : UnstableSort} {RS : RingSearch} shard locked h s ns upstream_id ctx_key req health :
  cache_request shard locked h s ns upstream_id ctx_key req health
  = on_balancer h s ns upstream_id (fun lb => run_request lb shard locked ctx_key req health).
Proof. by destruct req. Qed.

Lemma fresh_ok hmac cfg : (0 < lb_size (fresh hmac cfg).1)%nat -> state_ok (fresh hmac cfg).1 (fresh hmac cfg).2.
Proof. intros _. apply build_state_ok. Qed.

(** Fresh balancers keep the heap valid. *)
Lemma cells_ok_insert_all hmac l : forall h m, cells_ok h -> cells_ok (foldl (insert_balancer hmac) (h, m) l).1.
Proof.
  induction l as [|u l IH]; intros h m Hh; [done|]. cbn [foldl insert_balancer]. apply IH. apply Forall_app. split; [done|].
  constructor; [|done]. apply fresh_ok.
Qed.

Lemma on_balancer_insert (h : balancer_heap) a c c' k :
  h !! a = Some c -> <[a := c']> h !! k = if decide (k = a) then Some c' else h !! k.
Proof.
  intros Ha. apply lookup_lt_Some in Ha. case_decide as E; [subst; by rewrite list_lookup_insert, decide_True by done|].
  by apply list_lookup_insert_ne.
Qed.

Lemma coherent_update hmac h s a lb st st' :
  coherent hmac h s -> h !! a = Some (lb, st) -> coherent hmac (<[a := (lb, st')]> h) s.
Proof.
  intros Hc Ha k. specialize (Hc k). destruct (upstream_index s !! k) as [u|]; [|done].
  destruct Hc as (b & stb & Hb & Hl). destruct (decide (b = a)) as [->|Hne].
  - rewrite Ha in Hl. injection Hl as -> ->. exists a, st'. split; [done|].
    rewrite (on_balancer_insert _ _ _ _ _ Ha). by rewrite decide_True.
  - exists b, stb. split; [done|]. rewrite (on_balancer_insert _ _ _ _ _ Ha). by rewrite decide_False.
Qed.

(** Selection through the cache keeps every promise end to end: on a coherent
    snapshot, a request for an indexed upstream with a valid configuration and a target is
    answered by the balancer of that definition under the selection contract; no
    other upstream's counters move, the snapshot stays coherent and every balancer
    stays in a valid state; an upstream that is not indexed is refused. *)
Theorem cache_selection_contract {US : UnstableSort} {UL : UnstableSortLaws US} {RS : RingSearch} {RL : RingSearchLaws RS}
    (hmac : keyed_hash) (shard : nat) (locked : bool) (h : balancer_heap) (s : LoadBalancerCacheInner)
    (ns upstream_id ctx_key : bytes) (req : request) (health : option HealthContext) :
  coherent hmac h s -> cells_ok h ->
  (forall u, upstream s ns upstream_id = Some u ->
     config_ok (config_of (namespaced_runtime_key ns upstream_id) (up_algorithm u) (up_hash_on u) u)
     /\ up_targets u <> []) ->
  let '(r, h') := cache_request shard locked h s ns upstream_id ctx_key req health in
  coherent hmac h' s /\ cells_ok h'
  /\ match upstream s ns upstream_id with
     | None => r = None /\ h' = h
     | Some u =>
       let lb := with_subsets_and_port_overrides hmac
                   (config_of (namespaced_runtime_key ns upstream_id) (up_algorithm u) (up_hash_on u) u) in
       let scope := request_scope lb req in
       selection_spec lb scope (healthy_targets_vec_for_indices (lb_pool lb) health scope) (may_degrade req) r
       /\ forall b, balancers s !! namespaced_runtime_key ns upstream_id <> Some b -> h' !! b = h !! b
     end.
Proof.
  intros Hc Hok Hcfg. rewrite cache_request_spec. unfold on_balancer, balancer, upstream in *.
  set (key := namespaced_runtime_key ns upstream_id) in *. specialize (Hc key) as Hk.
  destruct (upstream_index s !! key) as [u|] eqn:Eu; [|by rewrite Hk].
  destruct Hk as (a & st & Ha & Hl). rewrite Ha. cbn [mbind option_bind]. rewrite Hl. cbn [fmap option_fmap option_map].
  destruct (Hcfg u eq_refl) as [Hcok Hne]. set (lb := with_subsets_and_port_overrides hmac _) in *.
  assert (Hlb : lb_ok lb) by (by apply build_lb_ok).
  assert (Hpos : (0 < lb_size lb)%nat) by (unfold lb_size, lb; cbn; destruct (up_targets u); [done|cbn; lia]).
  assert (Hst : state_ok lb st) by (by apply (proj1 (Forall_lookup _ _) Hok a _ Hl)).
  assert (H := run_request_contract lb shard locked health Hlb ctx_key req st Hpos Hst). cbn zeta in H.
  destruct (run_request lb shard locked ctx_key req health st) as [r st']. destruct H as [Hspec Hst'].
  split; [by eapply coherent_update|]. split.
  - apply Forall_insert; [done|]. done.
  - split; [done|]. intros b Hb. rewrite (on_balancer_insert _ _ _ _ _ Hl). rewrite decide_False; [done|]. by intros ->.
Qed.
