(* ===== verification/LbCacheExamples.v ===== *)
(** * Concrete reloads of the cache

    Two upstreams, one of them fed by service discovery, taken through a build,
    a discovery update and deltas: the theorems of the cache at concrete inputs,
    and a run in which an unrelated delta forgets the discovered targets. *)

From S2P Require Import Prelude Utf8 Decimal RuntimeKeys BreakerCache Upstream Net HashOn HealthBitset SmoothWrr WrrSelect PassiveHealth ActiveHealth LbHealth LbLocality LbMetrics LbAlgorithms LbDispatch LbSelect LbRetry LbSelectSpec LbRetrySpec LbSticky LbLocalityBuild LbBuild LbExamples LbCache.
#[local] Open Scope Z_scope.

Definition shop_ns : bytes := bs "prod".

Definition simple_upstream (id : string) (alg : LoadBalancerAlgorithm) (ts : list UpstreamTarget)
    (discovery : option bytes) : Upstream :=
  {| up_namespace := shop_ns; up_id := bs id; up_algorithm := alg; up_targets := ts; up_hash_on := None;
     up_subsets := None; up_port_overrides := ∅; up_health_checks := None; up_source_locality := None;
     up_source_labels := ∅; up_locality_lb_setting := None; up_locality_lb_strict := false;
     up_service_discovery := discovery; up_resolved_subsets := ∅ |}.

Definition seed : UpstreamTarget := member 1 "v1" "eu/a".
Definition found : UpstreamTarget := member 2 "v2" "eu/b".

(** Fed by discovery: authored with one seed. *)
Definition carts (alg : LoadBalancerAlgorithm) : Upstream := simple_upstream "carts" alg [seed] (Some (bs "dns")).
Definition users (alg : LoadBalancerAlgorithm) : Upstream := simple_upstream "users" alg demo_members None.

Lemma users_ok key alg : config_ok (config_of key alg None (users alg)).
Proof.
  constructor; cbn [config_of users simple_upstream cfg_targets cfg_locality_lb_setting cfg_port_overrides up_targets
                    up_locality_lb_setting up_port_overrides].
  - cbn. lia.
  - repeat constructor; cbn; lia.
  - constructor.
  - intros port o. cbn [default from_option Datatypes.id]. by rewrite lookup_empty.
Qed.

Definition authored : list Upstream := [carts RoundRobin; users RoundRobin].
Definition started : balancer_heap * LoadBalancerCacheInner := build_inner no_hmac [] authored.

Lemma started_coherent : coherent no_hmac started.1 started.2.
Proof. assert (H := build_inner_coherent no_hmac [] authored). unfold started. by destruct (build_inner no_hmac [] authored). Qed.

Lemma started_ok : cells_ok started.1.
Proof.
  assert (H := cells_ok_insert_all no_hmac authored [] ∅ (Forall_nil_2 _)).
  unfold started, build_inner, build_balancers. by destruct (foldl (insert_balancer no_hmac) ([], ∅) authored).
Qed.

(** One upstream is replaced: the other keeps its balancer. *)
Lemma lb_delta_equals_rebuild_witness :
  let s' := (build_delta_inner no_hmac started.1 started.2 [carts RoundRobin; users LeastConnections] [] []
               [users LeastConnections]).2 in
  balancers s' !! up_key (carts RoundRobin) = balancers started.2 !! up_key (carts RoundRobin)
  /\ upstream_index s' !! up_key (users RoundRobin) = Some (users LeastConnections).
Proof.
  assert (H := lb_delta_equals_rebuild no_hmac started.1 started.2 [carts RoundRobin; users LeastConnections] [] []
    [users LeastConnections] started_coherent).
  assert (Hf : delta_faithful started.2 [carts RoundRobin; users LeastConnections] [] [] [users LeastConnections]).
  { intros k. unfold last_with. cbn [foldl app]. case_bool_decide as E; [discriminate|intros _].
    rewrite bool_decide_false by apply not_elem_of_nil. unfold started, build_inner.
    destruct (build_balancers no_hmac [] authored) as [h m]. cbn [snd upstream_index]. unfold build_upstream_index.
    rewrite !index_lookup. unfold last_with, authored. cbn [foldl].
    change (up_key (users RoundRobin)) with (up_key (users LeastConnections)). by rewrite bool_decide_false. }
  specialize (H Hf). destruct (build_delta_inner _ _ _ _ _ _ _) as [h' s']. cbn zeta. cbn [snd].
  destruct H as (_ & _ & Hi & Hb & _). split.
  - apply Hb; [reflexivity|]. rewrite Hi. eexists. reflexivity.
  - rewrite Hi. reflexivity.
Defined.

(** The first target answers; the balancer of the other upstream is untouched. *)
Lemma cache_selection_contract_witness :
  let '(r, h') := @cache_request stable_sort linear_search 0 true started.1 started.2 shop_ns (bs "users") (bs "client") Whole None in
  r = Some (0%nat, false) /\ cells_ok h' /\ h' !! 0%nat = started.1 !! 0%nat.
Proof.
  assert (H := @cache_selection_contract stable_sort stable_sort_laws linear_search linear_search_laws no_hmac 0 true started.1
    started.2 shop_ns (bs "users") (bs "client") Whole None started_coherent started_ok).
  assert (E : upstream started.2 shop_ns (bs "users") = Some (users RoundRobin)) by reflexivity.
  assert (Er : (@cache_request stable_sort linear_search 0 true started.1 started.2 shop_ns (bs "users") (bs "client") Whole
    None).1 = Some (0%nat, false)) by (vm_compute; reflexivity).
  rewrite E in H. specialize (H ltac:(intros u [= <-]; split; [apply users_ok|discriminate])).
  destruct (cache_request _ _ _ _ _ _ _ _ _) as [r h']. cbn [fst] in Er. destruct H as (_ & Hok & _ & Hb).
  split_and!; [done|done|]. apply Hb. vm_compute. discriminate.
Defined.

(** ** Which policy caps the ejections *)

Definition cap (percent : Z) : PassiveHealthCheck := Passive [500] 3 30 10 false false (Some percent).

(** The port caps at 10 percent, the subset at 20 percent. *)
Definition checkout : ProxyRoute :=
  {| route_namespace := shop_ns; route_id := bs "checkout"; route_upstream_id := Some (bs "carts");
     route_upstream_subset := Some canary; route_port_passive := <[8080 := Some (cap 10)]> ∅;
     route_backend_host := []; route_backend_port := 0 |}.

Definition ported_carts : Upstream :=
  {| up_namespace := shop_ns; up_id := bs "carts"; up_algorithm := RoundRobin; up_targets := [seed]; up_hash_on := None;
     up_subsets := None; up_port_overrides := <[8080 := PortOverride (Some LeastConnections) None None None]> ∅;
     up_health_checks := None; up_source_locality := None; up_source_labels := ∅; up_locality_lb_setting := None;
     up_locality_lb_strict := false; up_service_discovery := None;
     up_resolved_subsets := <[canary := Some (cap 20)]> ∅ |}.

Definition ported : balancer_heap * LoadBalancerCacheInner := build_inner no_hmac [] [ported_carts].

Lemma cap_and_thresholds_same_tier_witness :
  max_ejection_percent_resolved_from ported.1 ported.2 shop_ns (bs "carts") checkout (Some 8080) = Some 10.
Proof.
  change 8080 with (dispatch_policy_port seed).
  rewrite (cap_and_thresholds_same_tier ported.1 ported.2 shop_ns (bs "carts") checkout ported_carts seed);
    [reflexivity|reflexivity|]. intros _. vm_compute. reflexivity.
Defined.

(** ** An unrelated delta forgets discovered targets *)

Definition discovered : balancer_heap * LoadBalancerCacheInner :=
  build_update_targets_inner no_hmac started.1 started.2 shop_ns (bs "carts") [found] RoundRobin None.

Definition served_hosts (c : balancer_heap * LoadBalancerCacheInner) (id : string) : option (list bytes) :=
  (fun b => map host (targets (lb_pool b.2.1))) <$> balancer c.1 c.2 shop_ns (bs id).

Definition indexed_hosts (c : balancer_heap * LoadBalancerCacheInner) (id : string) : option (list bytes) :=
  (fun u => map host (up_targets u)) <$> upstream c.2 shop_ns (bs id).

Definition unhealthy_hosts (m : gmap bytes ProxyHealthState) : option nat :=
  (fun ps => size (unhealthy ps)) <$> m !! namespaced_runtime_key shop_ns (bs "checkout").

Definition found_ejected : gmap bytes ProxyHealthState :=
  <[namespaced_runtime_key shop_ns (bs "checkout") := Proxy (<[target_host_port_key found := Ejection 7 7 1000 true (bs "prod|carts") (bs "10.0.0.2") 8080 None]> ∅) ∅]> ∅.

Section forgotten.
Context {Json : Type} `{EqDecision Json}.
Context (discovery_value : bytes -> option Json) (targets_value : list UpstreamTarget -> option Json).

(** A reload as it is staged: the modified upstreams take over live targets,
    then the delta is applied. *)
Definition reload (c : balancer_heap * LoadBalancerCacheInner) (old new modified : list Upstream)
    : balancer_heap * LoadBalancerCacheInner :=
  build_delta_inner no_hmac c.1 c.2 new [] []
    (preserve_live_discovery_targets discovery_value targets_value c.2 old modified).

Definition config1 : list Upstream := [carts RoundRobin; users LeastConnections].
Definition config2 : list Upstream := [carts LeastConnections; users LeastConnections].

Definition unrelated := reload discovered authored config1 [users LeastConnections].
Definition policy_only := reload unrelated config1 config2 [carts LeastConnections].
Definition policy_only_at_once := reload discovered authored [carts LeastConnections; users RoundRobin] [carts LeastConnections].
End forgotten.

(** C27. Discovered targets do not survive an unrelated reload: service discovery has
    replaced the seed of one upstream, then a delta changes another upstream. The
    balancer of the first still serves the discovered target, while the index of
    the same snapshot names the authored seed again; health state of the served
    target is then pruned as stale, and the next change of the first upstream's
    policy, which preserves the live targets when it comes at once, puts the
    balancer itself back on the seed. *)
Theorem discovered_targets_forgotten {Json : Type} `{EqDecision Json} (discovery_value : bytes -> option Json)
    (targets_value : list UpstreamTarget -> option Json) :
  is_Some (discovery_value (bs "dns")) -> is_Some (targets_value [seed]) ->
  let u := unrelated discovery_value targets_value in
  indexed_hosts discovered "carts" = Some [host found]
  /\ served_hosts u "carts" = Some [host found]
  /\ indexed_hosts u "carts" = Some [host seed]
  /\ unhealthy_hosts (prune_stale_target_health discovered.2 authored [checkout] found_ejected (with_max_entries 100)).1 = Some 1%nat
  /\ unhealthy_hosts (prune_stale_target_health u.2 config1 [checkout] found_ejected (with_max_entries 100)).1 = Some 0%nat
  /\ served_hosts (policy_only_at_once discovery_value targets_value) "carts" = Some [host found]
  /\ served_hosts (policy_only discovery_value targets_value) "carts" = Some [host seed].
Proof.
  intros [v Hv] [w Hw]. cbn zeta.
  assert (Hu : unrelated discovery_value targets_value
    = build_delta_inner no_hmac discovered.1 discovered.2 config1 [] [] [users LeastConnections]) by reflexivity.
  assert (Ha : policy_only_at_once discovery_value targets_value
    = build_delta_inner no_hmac discovered.1 discovered.2 [carts LeastConnections; users RoundRobin] [] []
        [with_targets (carts LeastConnections) [found]]).
  { unfold policy_only_at_once, reload, preserve_live_discovery_targets. cbn [map].
    replace (find_authored authored _ _) with (Some (carts RoundRobin)) by reflexivity.
    unfold discovery_source_eq, authored_targets_eq. cbn [carts simple_upstream up_service_discovery up_targets].
    rewrite Hv, Hw, !bool_decide_true by done. reflexivity. }
  assert (Hp : policy_only discovery_value targets_value
    = build_delta_inner no_hmac (unrelated discovery_value targets_value).1 (unrelated discovery_value targets_value).2
        config2 [] [] [carts LeastConnections]).
  { unfold policy_only, reload, preserve_live_discovery_targets. cbn [map].
    replace (find_authored config1 _ _) with (Some (carts RoundRobin)) by reflexivity.
    unfold discovery_source_eq, authored_targets_eq. cbn [carts simple_upstream up_service_discovery up_targets].
    rewrite Hv, Hw, !bool_decide_true by done. rewrite Hu. reflexivity. }
  rewrite Ha, Hp, Hu. split_and!; reflexivity.
Qed.

Lemma discovered_targets_forgotten_witness :
  served_hosts (unrelated Some (fun ts => Some (concat (map target_host_port_key ts)))) "carts" = Some [host found].
Proof.
  destruct (discovered_targets_forgotten Some (fun ts => Some (concat (map target_host_port_key ts)))
    (mk_is_Some _ _ eq_refl) (mk_is_Some _ _ eq_refl)) as (_ & H & _). exact H.
Defined.
