(* ===== verification/AdaptiveLimiter.v ===== *)
(** * Adaptive concurrency: data and single operations
    ([src/src/adaptive_concurrency.rs], [src/src/plugins/adaptive_concurrency.rs])

    The limiter admits a request to a backend while its in-flight count is below
    a limit learned from latencies and failures. This file has its data, the
    epoch-tagged word of structural resets, the values the update loops swap
    in, and the keys of the rows. [AdaptiveSystem] runs them as small-step
    programs. *)

From S2P Require Import Prelude Decimal RuntimeKeys BreakerOutcome UdpAmplification Upstream.
#[local] Open Scope Z_scope.

(** ** Configuration *)

Inductive AdaptiveConcurrencyKeyBy := KeyByProxy | KeyByUpstream | KeyByBackend.

#[global] Instance KeyBy_eq_dec : EqDecision AdaptiveConcurrencyKeyBy.
Proof. solve_decision. Defined.

(** The two ratios are positive dyadics, as every positive [f64] is. *)
Record AdaptiveConcurrencyConfig := AdaptiveConfig {
  key_by : AdaptiveConcurrencyKeyBy;
  max_tracked_keys : Z;
  min_limit : Z;
  initial_limit : Z;
  max_limit : Z;
  min_samples : Z;
  target_latency_multiplier : dyadic;
  decrease_ratio : dyadic;
  increase_step : Z;
  shadow_mode : bool;
  expose_headers : bool;
}.

Inductive config_error :=
| MinLimitZero | MaxBelowMin | InitialOutside | MaxTrackedKeysZero | MinSamplesZero | IncreaseStepZero
| MultiplierInvalid | DecreaseRatioInvalid.

(** The checks of [parse_config], in its order; the values are those of the
    fields or their defaults. A number of a JSON document is finite. *)
Definition validate_config (c : AdaptiveConcurrencyConfig) : result unit config_error :=
  if min_limit c =? 0 then Err MinLimitZero
  else if max_limit c <? min_limit c then Err MaxBelowMin
  else if (initial_limit c <? min_limit c) || (max_limit c <? initial_limit c) then Err InitialOutside
  else if max_tracked_keys c =? 0 then Err MaxTrackedKeysZero
  else if min_samples c =? 0 then Err MinSamplesZero
  else if increase_step c =? 0 then Err IncreaseStepZero
  else if dyadic_le (target_latency_multiplier c) (Dyadic 1 0) then Err MultiplierInvalid
  else if dyadic_le (decrease_ratio c) (Dyadic 0 0) || dyadic_le (Dyadic 1 0) (decrease_ratio c) then Err DecreaseRatioInvalid
  else Ok tt.

Definition parse_key_by (raw : bytes) : option AdaptiveConcurrencyKeyBy :=
  if eqb_bytes raw (bs "proxy_target") then Some KeyByProxy
  else if eqb_bytes raw (bs "upstream_target") then Some KeyByUpstream
  else if eqb_bytes raw (bs "backend_target") then Some KeyByBackend
  else None.

(** What the system relies on of a configuration. *)
Record config_ok (c : AdaptiveConcurrencyConfig) : Prop := {
  ok_min : 0 < min_limit c;
  ok_initial : min_limit c <= initial_limit c <= max_limit c;
  ok_max : max_limit c <= umax 64;
}.

Lemma validated_config_ok c :
  is_u64 (min_limit c) -> is_u64 (max_limit c) -> validate_config c = Ok tt -> config_ok c.
Proof. unfold validate_config. unfold in_width, umax. intros Hmin Hmax Hv.
  destruct (Z.eqb_spec (min_limit c) 0) as [|H1]; [done|]. destruct (Z.ltb_spec (max_limit c) (min_limit c)) as [|H2]; [done|].
  destruct ((initial_limit c <? min_limit c) || (max_limit c <? initial_limit c)) eqn:E; [done|].
  apply orb_false_iff in E as [E1%Z.ltb_ge E2%Z.ltb_ge]. constructor; unfold umax; lia. Qed.

(** ** The reset word *)

Definition POLICY_STATE_BITS : Z := 1.
Definition POLICY_STATE_MASK : Z := Z.shiftl 1 POLICY_STATE_BITS - 1.
Definition POLICY_ACTIVE : Z := 0.
Definition POLICY_RESETTING : Z := 1.
Definition MAX_POLICY_TRANSITION_EPOCH : Z := Z.shiftr (umax 64) POLICY_STATE_BITS.

Definition policy_transition_word (epoch state : Z) : Z := Z.lor (wrap 64 (Z.shiftl epoch POLICY_STATE_BITS)) state.
Definition policy_transition_epoch (word : Z) : Z := Z.shiftr word POLICY_STATE_BITS.
Definition policy_transition_state (word : Z) : Z := Z.land word POLICY_STATE_MASK.

Record AdaptiveConcurrencyResetEpoch := ResetEpoch { resetting_word : Z; can_reactivate : bool }.

Definition transition_new : Z := policy_transition_word 0 POLICY_ACTIVE.
Definition is_active (word : Z) : bool := policy_transition_state word =? POLICY_ACTIVE.

(** The word a claim swaps in for the observed one. *)
Definition reset_claim (observed : Z) : option AdaptiveConcurrencyResetEpoch :=
  if policy_transition_state observed =? POLICY_RESETTING then None
  else
    let current_epoch := policy_transition_epoch observed in
    let '(next_epoch, can) :=
      if current_epoch =? MAX_POLICY_TRANSITION_EPOCH then (current_epoch, false) else (current_epoch + 1, true) in
    Some (ResetEpoch (policy_transition_word next_epoch POLICY_RESETTING) can).

(** [try_begin_structural_reset] when nothing interferes. *)
Definition try_begin_structural_reset (word : Z) : Z * option AdaptiveConcurrencyResetEpoch :=
  match reset_claim word with
  | Some reset => (resetting_word reset, Some reset)
  | None => (word, None)
  end.

Definition finish_reset (word : Z) (reset : AdaptiveConcurrencyResetEpoch) : Z * bool :=
  if negb (can_reactivate reset) then (word, false)
  else if word =? resetting_word reset
  then (policy_transition_word (policy_transition_epoch (resetting_word reset)) POLICY_ACTIVE, true)
  else (word, false).

(** ** Rows *)

Record AdaptiveConcurrencyState := AState {
  in_flight : Z;
  limit : Z;
  feedback_epoch : Z;
  baseline_latency_us : Z;
  latency_ewma_us : Z;
  samples : Z;
  rejections : Z;
}.

Definition state_new (initial : Z) : AdaptiveConcurrencyState := AState 0 initial 1 0 0 0 0.

Definition with_in_flight (a : AdaptiveConcurrencyState) (n : Z) : AdaptiveConcurrencyState :=
  AState n (limit a) (feedback_epoch a) (baseline_latency_us a) (latency_ewma_us a) (samples a) (rejections a).
Definition with_limit (a : AdaptiveConcurrencyState) (n : Z) : AdaptiveConcurrencyState :=
  AState (in_flight a) n (feedback_epoch a) (baseline_latency_us a) (latency_ewma_us a) (samples a) (rejections a).
Definition with_feedback_epoch (a : AdaptiveConcurrencyState) (n : Z) : AdaptiveConcurrencyState :=
  AState (in_flight a) (limit a) n (baseline_latency_us a) (latency_ewma_us a) (samples a) (rejections a).
Definition with_baseline (a : AdaptiveConcurrencyState) (n : Z) : AdaptiveConcurrencyState :=
  AState (in_flight a) (limit a) (feedback_epoch a) n (latency_ewma_us a) (samples a) (rejections a).
Definition with_ewma (a : AdaptiveConcurrencyState) (n : Z) : AdaptiveConcurrencyState :=
  AState (in_flight a) (limit a) (feedback_epoch a) (baseline_latency_us a) n (samples a) (rejections a).
Definition with_samples (a : AdaptiveConcurrencyState) (n : Z) : AdaptiveConcurrencyState :=
  AState (in_flight a) (limit a) (feedback_epoch a) (baseline_latency_us a) (latency_ewma_us a) n (rejections a).
Definition with_rejections (a : AdaptiveConcurrencyState) (n : Z) : AdaptiveConcurrencyState :=
  AState (in_flight a) (limit a) (feedback_epoch a) (baseline_latency_us a) (latency_ewma_us a) (samples a) n.

(** *** The values the update loops swap in *)

Definition EWMA_PREVIOUS_WEIGHT : Z := 8.
Definition EWMA_SAMPLE_WEIGHT : Z := 2.
Definition EWMA_WEIGHT_SUM : Z := EWMA_PREVIOUS_WEIGHT + EWMA_SAMPLE_WEIGHT.

(** [.max(lo).min(hi)]. *)
Definition clamp_to (lo hi n : Z) : Z := Z.min (Z.max n lo) hi.

Definition update_min (current candidate : Z) : option Z :=
  if negb (current =? 0) && (current <=? candidate) then None else Some candidate.

Definition update_ewma (current sample : Z) : Z :=
  if current =? 0 then sample
  else saturating_add 64 (saturating_mul 64 current EWMA_PREVIOUS_WEIGHT)
         (saturating_mul 64 sample EWMA_SAMPLE_WEIGHT) / EWMA_WEIGHT_SUM.

(** [((base as f64) * ratio).floor() as u64]. A ratio so small that the product
    is not a normal number gives 0 under either rounding. *)
Definition scaled_floor (base : Z) (ratio : dyadic) : Z := f64_as_u64 (f64_mul (u64_as_f64 base) ratio).

Definition decrease_limit (c : AdaptiveConcurrencyConfig) (before current : Z) : option Z :=
  let decreased := scaled_floor (Z.min current before) (decrease_ratio c) in
  let next := clamp_to (min_limit c) (max_limit c) decreased in
  if current <=? next then None else Some next.

(** The body of the loop after its epoch check. *)
Definition increase_limit (c : AdaptiveConcurrencyConfig) (current : Z) : option Z :=
  if max_limit c <=? current then None
  else
    let next := clamp_to (min_limit c) (max_limit c) (saturating_add 64 current (increase_step c)) in
    if next =? current then None else Some next.

Definition clamp_limit (c : AdaptiveConcurrencyConfig) (current : Z) : option Z :=
  let next := clamp_to (min_limit c) (max_limit c) current in
  if next =? current then None else Some next.

(** [.round()]: half away from zero, of a non-negative value. *)
Definition f64_round (x : dyadic) : Z :=
  if 0 <=? ex x then Z.shiftl (man x) (ex x) else Z.shiftr (man x + 2 ^ (- ex x - 1)) (- ex x).

(** The cast saturates; a product beyond the range of [f64] is infinite and
    saturates too. *)
Definition target_latency (c : AdaptiveConcurrencyConfig) (baseline : Z) : Z :=
  Z.min (Z.max (f64_round (f64_mul (u64_as_f64 baseline) (target_latency_multiplier c))) 1) (umax 64).

Lemma clamp_to_bounds lo hi n : lo <= hi -> lo <= clamp_to lo hi n <= hi.
Proof. unfold clamp_to. lia. Qed.

(** ** Keys *)

Record AdaptiveConcurrencyKey := AKey { key_scope : bytes; key_host : bytes; key_port : Z }.

#[global] Instance AdaptiveKey_eq_dec : EqDecision AdaptiveConcurrencyKey.
Proof. solve_decision. Defined.
#[global] Instance AdaptiveKey_countable : Countable AdaptiveConcurrencyKey.
Proof.
  refine (inj_countable' (fun k => (key_scope k, key_host k, key_port k)) (fun t => AKey t.1.1 t.1.2 t.2) _).
  by intros [].
Defined.

(** The fields of a proxy the limiter reads. *)
Record AdaptiveProxy := AProxy {
  ap_namespace : bytes;
  ap_id : bytes;
  ap_upstream_id : option bytes;
  ap_backend_host : bytes;
  ap_backend_port : Z;
}.

Definition scoped_proxy (p : AdaptiveProxy) : bytes := bs "proxy:" ++ ap_namespace p ++ [58] ++ ap_id p.

Definition adaptive_concurrency_scope (kb : AdaptiveConcurrencyKeyBy) (p : AdaptiveProxy) (upstream_id : option bytes) : bytes :=
  match kb with
  | KeyByProxy => scoped_proxy p
  | KeyByUpstream =>
    match upstream_id with
    | Some u => bs "upstream:" ++ ap_namespace p ++ [58] ++ u
    | None => scoped_proxy p
    end
  | KeyByBackend => bs "backend"
  end.

(** [resolve_scope]: the scope and the scope cache. The cache never changes an
    entry, so its lookup and its insertion are taken together. *)
Definition resolve_scope (cache : gmap bytes bytes) (p : AdaptiveProxy) (kb : AdaptiveConcurrencyKeyBy)
    : bytes * gmap bytes bytes :=
  match kb with
  | KeyByBackend => (bs "backend", cache)
  | KeyByUpstream => (adaptive_concurrency_scope kb p (ap_upstream_id p), cache)
  | KeyByProxy =>
    let cache_key := namespaced_runtime_key (ap_namespace p) (ap_id p) in
    match cache !! cache_key with
    | Some cached => (cached, cache)
    | None =>
      let scope := adaptive_concurrency_scope kb p (ap_upstream_id p) in
      (scope, <[cache_key := scope]> cache)
    end
  end.

Definition build_key (scope : bytes) (p : AdaptiveProxy) (target : option UpstreamTarget) : AdaptiveConcurrencyKey :=
  match target with
  | Some t => AKey scope (host t) (port t)
  | None => AKey scope (ap_backend_host p) (ap_backend_port p)
  end.

(** ** Facts *)

Lemma transition_word_state epoch st : 0 <= epoch -> st = POLICY_ACTIVE \/ st = POLICY_RESETTING ->
  policy_transition_state (policy_transition_word epoch st) = st.
Proof.
  intros He Hst. unfold policy_transition_state, policy_transition_word, POLICY_STATE_MASK, POLICY_STATE_BITS, wrap.
  rewrite Z.shiftl_mul_pow2 by lia. rewrite Z.land_lor_distr_l. change (Z.shiftl 1 1 - 1) with (Z.ones 1).
  rewrite !Z.land_ones by lia. rewrite <- Znumtheory.Zmod_div_mod; [|lia|lia|by exists (2 ^ 63)].
  rewrite Z.mod_mul by lia. by destruct Hst as [-> | ->].
Qed.

Lemma transition_word_epoch epoch st : 0 <= epoch <= MAX_POLICY_TRANSITION_EPOCH -> st = POLICY_ACTIVE \/ st = POLICY_RESETTING ->
  policy_transition_epoch (policy_transition_word epoch st) = epoch.
Proof.
  intros He Hst. change MAX_POLICY_TRANSITION_EPOCH with (2 ^ 63 - 1) in He.
  unfold policy_transition_epoch, policy_transition_word, POLICY_STATE_BITS. rewrite Z.shiftl_mul_pow2 by lia.
  rewrite wrap_small by (split; lia). rewrite Z.shiftr_lor, Z.shiftr_div_pow2, Z.div_mul by lia.
  destruct Hst as [-> | ->]; apply Z.lor_0_r.
Qed.

Lemma transition_word_u64 epoch st : st = POLICY_ACTIVE \/ st = POLICY_RESETTING -> is_u64 (policy_transition_word epoch st).
Proof.
  intros Hst. unfold policy_transition_word. assert (H := wrap_in_width 64 (Z.shiftl epoch POLICY_STATE_BITS) ltac:(lia)).
  set (x := wrap 64 _) in *. destruct Hst as [-> | ->]; [by rewrite Z.lor_0_r|]. unfold in_width in *.
  split; [apply Z.lor_nonneg; unfold POLICY_RESETTING; lia|].
  destruct (Z.eq_dec (Z.lor x POLICY_RESETTING) 0) as [->|Hne]; [lia|].
  apply Z.log2_lt_pow2; [assert (0 <= Z.lor x POLICY_RESETTING) by (apply Z.lor_nonneg; unfold POLICY_RESETTING; lia); lia|].
  rewrite Z.log2_lor by (unfold POLICY_RESETTING; lia). apply Z.max_lub_lt; [|done].
  destruct (Z.eq_dec x 0) as [->|]; [done|]. apply Z.log2_lt_pow2; lia.
Qed.

(** A claim leaves the word resetting; its release makes it active again unless
    the epochs are exhausted, and then nothing does. *)
Lemma reset_claim_state word reset : is_u64 word -> reset_claim word = Some reset ->
  is_active word = true /\ is_active (resetting_word reset) = false
  /\ is_u64 (resetting_word reset)
  /\ (finish_reset (resetting_word reset) reset).2 = can_reactivate reset
  /\ is_active (finish_reset (resetting_word reset) reset).1 = can_reactivate reset
  /\ is_u64 (finish_reset (resetting_word reset) reset).1.
Proof.
  intros [Hw1 Hw2] H. unfold reset_claim in H. destruct (Z.eqb_spec (policy_transition_state word) POLICY_RESETTING) as [|Hst]; [done|].
  assert (He : 0 <= policy_transition_epoch word <= MAX_POLICY_TRANSITION_EPOCH).
  { change MAX_POLICY_TRANSITION_EPOCH with (2 ^ 63 - 1). unfold policy_transition_epoch, POLICY_STATE_BITS.
    rewrite Z.shiftr_div_pow2 by lia. split; [apply Z.div_pos; lia|]. apply Z.lt_le_pred, Z.div_lt_upper_bound; lia. }
  assert (Hact : is_active word = true).
  { unfold is_active. apply Z.eqb_eq. unfold policy_transition_state, POLICY_STATE_MASK, POLICY_ACTIVE, POLICY_RESETTING in *.
    change (Z.shiftl 1 POLICY_STATE_BITS - 1) with (Z.ones 1) in *. rewrite Z.land_ones in Hst |- * by lia.
    assert (0 <= word mod 2 ^ 1 < 2) by (apply Z.mod_pos_bound; lia). lia. }
  destruct (Z.eqb_spec (policy_transition_epoch word) MAX_POLICY_TRANSITION_EPOCH) as [E|E]; injection H as <-;
    unfold finish_reset; cbn [resetting_word can_reactivate negb];
    rewrite ?Z.eqb_refl; cbn [fst snd]; unfold is_active;
    rewrite ?transition_word_epoch, ?transition_word_state by (lia || auto); split_and!; auto using transition_word_u64.
Qed.

(** ** Rows of different owners *)

Definition proxy_ok (p : AdaptiveProxy) : Prop :=
  validate_namespace (ap_namespace p) = Ok tt /\ validate_resource_id (ap_id p) = Ok tt
  /\ option_Forall (fun u => validate_resource_id u = Ok tt) (ap_upstream_id p).

(** Whose row a request counts on: the process, an upstream, or a proxy. *)
Inductive row_owner := OwnedByAll | OwnedByUpstream (ns id : bytes) | OwnedByProxy (ns id : bytes).

Definition owner_of (kb : AdaptiveConcurrencyKeyBy) (p : AdaptiveProxy) : row_owner :=
  match kb, ap_upstream_id p with
  | KeyByBackend, _ => OwnedByAll
  | KeyByUpstream, Some u => OwnedByUpstream (ap_namespace p) u
  | _, _ => OwnedByProxy (ap_namespace p) (ap_id p)
  end.

Definition owner_scope (o : row_owner) : bytes :=
  match o with
  | OwnedByAll => bs "backend"
  | OwnedByUpstream ns u => bs "upstream:" ++ ns ++ [58] ++ u
  | OwnedByProxy ns i => bs "proxy:" ++ ns ++ [58] ++ i
  end.

Definition owner_ok (o : row_owner) : Prop :=
  match o with
  | OwnedByAll => True
  | OwnedByUpstream ns i | OwnedByProxy ns i => validate_namespace ns = Ok tt /\ validate_resource_id i = Ok tt
  end.

Lemma owner_of_ok kb p : proxy_ok p -> owner_ok (owner_of kb p).
Proof. intros (? & ? & Hu). unfold owner_of. destruct kb, (ap_upstream_id p); cbn; auto. inversion Hu; auto. Qed.

Lemma owner_scope_inj o o' : owner_ok o -> owner_ok o' -> owner_scope o = owner_scope o' -> o = o'.
Proof.
  intros Ho Ho' E. destruct o as [|ns i|ns i], o' as [|ns' i'|ns' i']; cbn [owner_scope] in E; try done;
    apply app_inj_1 in E as [_ E]; try done; cbn [app] in E;
    destruct Ho as [H1 _], Ho' as [H2 _]; apply validate_namespace_free in H1 as [_ ?], H2 as [_ ?];
    apply app_sep_inj in E as [-> ->]; done.
Qed.

Definition scope_cache_ok (cache : gmap bytes bytes) : Prop :=
  forall k scope, cache !! k = Some scope ->
    exists p, proxy_ok p /\ k = namespaced_runtime_key (ap_namespace p) (ap_id p) /\ scope = scoped_proxy p.

Lemma resolve_scope_exact cache p kb :
  scope_cache_ok cache -> proxy_ok p ->
  (resolve_scope cache p kb).1 = owner_scope (owner_of kb p) /\ scope_cache_ok (resolve_scope cache p kb).2.
Proof.
  intros Hc Hp. destruct kb; cbn [resolve_scope]; [|split; [|done]; unfold owner_of; by destruct (ap_upstream_id p)|done].
  destruct (cache !! _) as [scope|] eqn:E; cbn [fst snd].
  - split; [|done]. destruct (Hc _ _ E) as (q & Hq & Ek & ->). destruct Hp as (Hn & _ & _), Hq as (Hn' & _ & _).
    apply validate_namespace_free in Hn as [? _], Hn' as [? _].
    unfold namespaced_runtime_key, write_namespaced_runtime_key in Ek. cbn [app] in Ek.
    apply app_sep_inj in Ek as [E1 E2]; [|done|done]. unfold scoped_proxy. by rewrite <- E1, <- E2.
  - split; [done|]. intros k scope. rewrite lookup_insert_Some. intros [[<- <-]|[_ H]]; [by exists p|by apply Hc].
Qed.

(** Limiter rows are never shared across owners: whatever requests have warmed the
    scope cache, two requests resolve to the same scope only when they belong to
    the same upstream of the same namespace, or the same proxy of the same
    namespace, or both count per backend; and resolving keeps the cache sound. *)
Theorem adaptive_rows_separate (cache : gmap bytes bytes) (kb kb' : AdaptiveConcurrencyKeyBy) (p p' : AdaptiveProxy) :
  scope_cache_ok cache -> proxy_ok p -> proxy_ok p' ->
  let '(scope, cache1) := resolve_scope cache p kb in
  let '(scope', cache2) := resolve_scope cache1 p' kb' in
  (scope = scope' <-> owner_of kb p = owner_of kb' p') /\ scope_cache_ok cache2.
Proof.
  intros Hc Hp Hp'. destruct (resolve_scope cache p kb) as [scope cache1] eqn:E1.
  destruct (resolve_scope_exact cache p kb Hc Hp) as [Hs Hc1]. rewrite E1 in Hs, Hc1. cbn [fst snd] in *.
  destruct (resolve_scope cache1 p' kb') as [scope' cache2] eqn:E2.
  destruct (resolve_scope_exact cache1 p' kb' Hc1 Hp') as [Hs' Hc2]. rewrite E2 in Hs', Hc2. cbn [fst snd] in *. subst.
  split; [|done]. split; [|by intros ->]. apply owner_scope_inj; by apply owner_of_ok.
Qed.

Lemma adaptive_rows_separate_witness :
  let p := AProxy (bs "a") (bs "cart") None (bs "10.0.0.1") 80 in
  let p' := AProxy (bs "b") (bs "cart") None (bs "10.0.0.1") 80 in
  (resolve_scope ∅ p KeyByProxy).1 <> (resolve_scope (resolve_scope ∅ p KeyByProxy).2 p' KeyByProxy).1.
Proof.
  cbn zeta. intros E.
  destruct (adaptive_rows_separate ∅ KeyByProxy KeyByProxy (AProxy (bs "a") (bs "cart") None (bs "10.0.0.1") 80)
    (AProxy (bs "b") (bs "cart") None (bs "10.0.0.1") 80)) as [[H _] _].
  - intros k scope H. by rewrite lookup_empty in H.
  - repeat split; constructor.
  - repeat split; constructor.
  - specialize (H E). discriminate.
Defined.
