(* ===== verification/AdaptiveSystem.v ===== *)
(** * Adaptive concurrency: admissions, feedback and reloads as programs
    ([src/src/adaptive_concurrency.rs], [src/src/plugin_cache.rs],
    [src/src/request_epoch.rs])

    One limiter. Every request is a thread that pins an epoch, is admitted or
    refused, may report its outcome and drops its permit; one writer, which holds
    the epoch writer lock, stages, publishes and commits generations. A step is
    one atomic access, or one map operation under its shard lock. Steps of
    different threads interleave in any order and every access is sequentially
    consistent, except that with [tso] set the writer's store to
    [feedback_blocked], a plain release store, may stay in its store buffer
    until its next read-modify-write. *)

From S2P Require Import Prelude Decimal RuntimeKeys BreakerOutcome UdpAmplification Upstream AdaptiveLimiter.
#[local] Open Scope Z_scope.

(** ** Shared state *)

(** The generation atomics of one side of the lifecycle. *)
Record gens := Gens { active : Z; minimum : Z; pending : Z; pending_requires_reset : bool }.

Inductive side := PolicySide | LbSide.

#[global] Instance side_eq_dec : EqDecision side.
Proof. solve_decision. Defined.

(** A tracking space. Ghost: the minima when it was created. *)
Record tracking := Tracking {
  inner : gmap AdaptiveConcurrencyKey nat;
  scope_cache : gmap bytes bytes;
  tracked_keys : Z;
  born : Z * Z;
}.

(** The part of a request epoch the limiter depends on. *)
Record epoch := Epoch { e_generation : Z; e_config : AdaptiveConcurrencyConfig; e_lb_generation : Z }.

(** Ghost: the configuration of every generation ([configs]). *)
Record shared := Shared {
  policy_gens : gens;
  lb_gens : gens;
  active_config : option (Z * AdaptiveConcurrencyConfig);
  feedback_in_progress : Z;
  feedback_blocked : bool;
  word : Z;
  space : nat;
  spaces : list tracking;
  rows : list AdaptiveConcurrencyState;
  published : option epoch;
  configs : gmap Z AdaptiveConcurrencyConfig;
}.

Definition gens_of (s : shared) (sd : side) : gens :=
  match sd with PolicySide => policy_gens s | LbSide => lb_gens s end.

Definition set_gens (s : shared) (sd : side) (g : gens) : shared :=
  Shared (match sd with PolicySide => g | LbSide => policy_gens s end)
         (match sd with PolicySide => lb_gens s | LbSide => g end)
         (active_config s) (feedback_in_progress s) (feedback_blocked s) (word s) (space s) (spaces s) (rows s)
         (published s) (configs s).
Definition set_active_config (s : shared) (c : option (Z * AdaptiveConcurrencyConfig)) : shared :=
  Shared (policy_gens s) (lb_gens s) c (feedback_in_progress s) (feedback_blocked s) (word s) (space s) (spaces s) (rows s)
         (published s) (configs s).
Definition set_in_progress (s : shared) (n : Z) : shared :=
  Shared (policy_gens s) (lb_gens s) (active_config s) n (feedback_blocked s) (word s) (space s) (spaces s) (rows s)
         (published s) (configs s).
Definition set_blocked (s : shared) (b : bool) : shared :=
  Shared (policy_gens s) (lb_gens s) (active_config s) (feedback_in_progress s) b (word s) (space s) (spaces s) (rows s)
         (published s) (configs s).
Definition set_word (s : shared) (w : Z) : shared :=
  Shared (policy_gens s) (lb_gens s) (active_config s) (feedback_in_progress s) (feedback_blocked s) w (space s) (spaces s)
         (rows s) (published s) (configs s).
Definition set_spaces (s : shared) (current : nat) (l : list tracking) : shared :=
  Shared (policy_gens s) (lb_gens s) (active_config s) (feedback_in_progress s) (feedback_blocked s) (word s) current l
         (rows s) (published s) (configs s).
Definition set_rows (s : shared) (l : list AdaptiveConcurrencyState) : shared :=
  Shared (policy_gens s) (lb_gens s) (active_config s) (feedback_in_progress s) (feedback_blocked s) (word s) (space s)
         (spaces s) l (published s) (configs s).
Definition set_published (s : shared) (e : epoch) : shared :=
  Shared (policy_gens s) (lb_gens s) (active_config s) (feedback_in_progress s) (feedback_blocked s) (word s) (space s)
         (spaces s) (rows s) (Some e) (configs s).
Definition set_configs (s : shared) (m : gmap Z AdaptiveConcurrencyConfig) : shared :=
  Shared (policy_gens s) (lb_gens s) (active_config s) (feedback_in_progress s) (feedback_blocked s) (word s) (space s)
         (spaces s) (rows s) (published s) m.

Definition set_active (g : gens) (n : Z) : gens := Gens n (minimum g) (pending g) (pending_requires_reset g).
Definition set_minimum (g : gens) (n : Z) : gens := Gens (active g) n (pending g) (pending_requires_reset g).
Definition set_pending (g : gens) (n : Z) : gens := Gens (active g) (minimum g) n (pending_requires_reset g).
Definition set_pending_reset (g : gens) (b : bool) : gens := Gens (active g) (minimum g) (pending g) b.

Definition row_at (s : shared) (c : nat) : AdaptiveConcurrencyState := default (state_new 0) (rows s !! c).
Definition put_row (s : shared) (c : nat) (a : AdaptiveConcurrencyState) : shared := set_rows s (<[c := a]> (rows s)).

Definition empty_space (minima : Z * Z) : tracking := Tracking ∅ ∅ 0 minima.

Definition gens_new : gens := Gens 1 1 0 false.

Definition limiter_new : shared :=
  Shared gens_new gens_new None 0 false transition_new 0 [empty_space (1, 1)] [] None ∅.

(** ** Generation checks, one load at a time *)

Inductive check :=
| CkWord
| CkActive | CkMinimum (active : Z) | CkPending | CkPendingReset
| CkLbActive | CkLbMinimum (active : Z) | CkLbPending | CkLbPendingReset.

Inductive verdict := Continue (k : check) | Verdict (b : bool).

(** [policy_generation_admitted] and [policy_generation_current]. *)
Definition check_step (s : shared) (generation lb_generation : Z) (k : check) : verdict :=
  match k with
  | CkWord => if is_active (word s) then Continue CkActive else Verdict false
  | CkActive => Continue (CkMinimum (active (policy_gens s)))
  | CkMinimum a =>
    if (minimum (policy_gens s) <=? generation) && (generation <=? a) then Continue CkLbActive else Continue CkPending
  | CkPending =>
    if (pending (policy_gens s) =? generation) && negb (generation =? 0) then Continue CkPendingReset else Verdict false
  | CkPendingReset => if pending_requires_reset (policy_gens s) then Verdict false else Continue CkLbActive
  | CkLbActive => Continue (CkLbMinimum (active (lb_gens s)))
  | CkLbMinimum a =>
    if (minimum (lb_gens s) <=? lb_generation) && (lb_generation <=? a) then Verdict true else Continue CkLbPending
  | CkLbPending =>
    if (pending (lb_gens s) =? lb_generation) && negb (lb_generation =? 0) then Continue CkLbPendingReset else Verdict false
  | CkLbPendingReset => Verdict (negb (pending_requires_reset (lb_gens s)))
  end.

Inductive fcheck := FkActive | FkPending | FkLbActive (config_current : bool) | FkLbPending (config_current : bool).

Inductive fverdict := FContinue (k : fcheck) | FVerdict (b : bool).

(** [feedback_generation_current]. *)
Definition fcheck_step (s : shared) (generation lb_generation : Z) (k : fcheck) : fverdict :=
  match k with
  | FkActive => if active (policy_gens s) =? generation then FContinue (FkLbActive true) else FContinue FkPending
  | FkPending => FContinue (FkLbActive (pending (policy_gens s) =? generation))
  | FkLbActive c => if active (lb_gens s) =? lb_generation then FVerdict c else FContinue (FkLbPending c)
  | FkLbPending c => FVerdict (c && (pending (lb_gens s) =? lb_generation))
  end.

(** [admission_config]. *)
Definition admission_config (s : shared) (generation : Z) (config : AdaptiveConcurrencyConfig)
    : AdaptiveConcurrencyConfig * Z :=
  match active_config s with
  | Some (g, c) => if generation <? g then (c, g) else (config, generation)
  | None => (config, generation)
  end.

Definition admission_config_current (s : shared) (config_generation : Z) : bool :=
  match active_config s with Some (g, _) => g <=? config_generation | None => true end.

Definition tracking_space_is_current (s : shared) (sp : nat) : bool := (sp =? space s)%nat.

(** ** Requests *)

Record request := Request {
  q_proxy : AdaptiveProxy;
  q_target : option UpstreamTarget;
  q_config : AdaptiveConcurrencyConfig;
  q_generation : Z;
  q_lb_generation : Z;
}.

(** The locals of one iteration of the admission loop. *)
Record view := View { v_space : nat; v_config : AdaptiveConcurrencyConfig; v_config_generation : Z }.

Record permit := Permit {
  p_row : nat;
  p_config : AdaptiveConcurrencyConfig;
  p_generation : Z;
  p_lb_generation : Z;
  p_feedback_epoch : Z;
}.

Inductive AdaptiveConcurrencyLimitExceeded :=
| TargetLimit (current_in_flight limit : Z) (expose_headers : bool)
| GenerationHandoff.

Record report := Report { r_outcome : outcome; r_elapsed_us : Z; r_allow_increase : bool }.

(** The stages of one feedback callback. *)
Inductive fstage :=
| SBlocked | SCheck (k : fcheck) | SEnter | SBlockedAgain | SCheckAgain (k : fcheck) | SBack
| SMin | SMinCas (current : Z) | SEwma | SEwmaCas (current : Z) | SSamples (ewma : Z) | SBaseline (ewma : Z)
| SLimit (ewma target : Z) | SInFlight (ewma target lim : Z)
| SBefore | SBump (before : Z) | SDecLoad (before : Z) | SDecCas (before current : Z)
| SIncLoad | SIncEpoch (current : Z) | SIncCas (current : Z)
| SExit.

Inductive pc :=
(* try_acquire_for_generation *)
| RPin (q : request)
| RConfig (q : request) (sp : nat)
| REnsure (q : request) (v : view) (k : check)
| REntry (q : request) (v : view)
| RInFlight (q : request) (v : view) (row : nat)
| RLimit (q : request) (v : view) (row : nat) (current : Z)
| RCas (q : request) (v : view) (row : nat) (current : Z)
| RFull (q : request) (v : view) (row : nat) (current lim : Z) (k : check)
| RFullSpace (q : request) (v : view) (row : nat) (current lim : Z) (admitted : bool)
| RFullConfig (q : request) (v : view) (row : nat) (current lim : Z) (ok : bool)
| RCount (v : view) (row : nat) (current lim : Z)
| RClampConfig (q : request) (row : nat)
| RClampLoad (q : request) (row : nat) (c : AdaptiveConcurrencyConfig)
| RClampCas (q : request) (row : nat) (c : AdaptiveConcurrencyConfig) (current : Z)
| RPost (q : request) (v : view) (row : nat) (k : check)
| RPostSpace (q : request) (v : view) (row : nat) (admitted : bool)
| RPostConfig (q : request) (v : view) (row : nat) (ok : bool)
| RRollback (q : request) (row : nat) (retry : bool)
| REpoch (q : request) (v : view) (row : nat)
| RRefused (e : AdaptiveConcurrencyLimitExceeded)
(* the permit *)
| RHeld (p : permit) (recorded : bool)
| RFeedback (p : permit) (r : report) (st : fstage)
| RDropped.

Inductive hold_action := KeepHolding | RecordOutcome (r : report) | DropPermit.

Record oracle := Oracle { spurious : bool; action : hold_action }.

(** [resolve_scope], [build_key], the map entry and [reserve_key_slot]. The entry
    keeps its shard locked, so no other thread sees the key in between. *)
Definition entry_step (s : shared) (q : request) (v : view) : shared * pc :=
  match spaces s !! v_space v with
  | None => (s, REntry q v)
  | Some t =>
    let '(scope, cache) := resolve_scope (scope_cache t) (q_proxy q) (key_by (v_config v)) in
    let key := build_key scope (q_proxy q) (q_target q) in
    let put (t : tracking) := set_spaces s (space s) (<[v_space v := t]> (spaces s)) in
    match inner t !! key with
    | Some row => (put (Tracking (inner t) cache (tracked_keys t) (born t)), RInFlight q v row)
    | None =>
      let row := length (rows s) in
      let fresh := state_new (initial_limit (v_config v)) in
      let s' :=
        if max_tracked_keys (v_config v) <=? tracked_keys t
        then put (Tracking (inner t) cache (tracked_keys t) (born t))
        else put (Tracking (<[key := row]> (inner t)) cache (tracked_keys t + 1) (born t)) in
      (set_rows s' (rows s ++ [fresh]), RInFlight q v row)
    end
  end.

Definition effective_limit (s : shared) (v : view) (row : nat) : Z :=
  clamp_to (min_limit (v_config v)) (max_limit (v_config v)) (limit (row_at s row)).

(** After an observation of the limit, the next turn of an update loop. *)
Definition dec_turn (p : permit) (before current : Z) : fstage :=
  match decrease_limit (p_config p) before current with Some _ => SDecCas before current | None => SExit end.
Definition min_turn (latency_us current : Z) : fstage :=
  match update_min current latency_us with Some _ => SMinCas current | None => SEwma end.

Definition latency_us (r : report) : Z := Z.max (wrap 64 (r_elapsed_us r)) 1.

(** What [record] does once the guard is held. *)
Definition classified (r : report) : fstage :=
  let o := r_outcome r in
  if client_side_no_backend_signal (error_class o) then SExit
  else if connection_error o || (500 <=? response_status o) || error_class_is_post_wire_backend_failure (error_class o)
  then SBefore
  else SMin.

Definition feedback_step (s : shared) (p : permit) (r : report) (st : fstage) : shared * pc :=
  let a := row_at s (p_row p) in
  let stay := RFeedback p r in
  match st with
  | SBlocked => (s, if feedback_blocked s then RHeld p true else stay (SCheck FkActive))
  | SCheck k =>
    (s, match fcheck_step s (p_generation p) (p_lb_generation p) k with
        | FContinue k => stay (SCheck k)
        | FVerdict true => stay SEnter
        | FVerdict false => RHeld p true
        end)
  | SEnter => (set_in_progress s (wrap 64 (feedback_in_progress s + 1)), stay SBlockedAgain)
  | SBlockedAgain => (s, stay (if feedback_blocked s then SBack else SCheckAgain FkActive))
  | SCheckAgain k =>
    (s, match fcheck_step s (p_generation p) (p_lb_generation p) k with
        | FContinue k => stay (SCheckAgain k)
        | FVerdict true => stay (classified r)
        | FVerdict false => stay SBack
        end)
  | SBack | SExit => (set_in_progress s (wrap 64 (feedback_in_progress s - 1)), RHeld p true)
  | SMin => (s, stay (min_turn (latency_us r) (baseline_latency_us a)))
  | SMinCas current =>
    if baseline_latency_us a =? current then (put_row s (p_row p) (with_baseline a (latency_us r)), stay SEwma)
    else (s, stay (min_turn (latency_us r) (baseline_latency_us a)))
  | SEwma => (s, stay (SEwmaCas (latency_ewma_us a)))
  | SEwmaCas current =>
    if latency_ewma_us a =? current
    then let next := update_ewma current (latency_us r) in (put_row s (p_row p) (with_ewma a next), stay (SSamples next))
    else (s, stay (SEwmaCas (latency_ewma_us a)))
  | SSamples ewma =>
    let n := wrap 64 (samples a + 1) in
    (put_row s (p_row p) (with_samples a n), stay (if n <? min_samples (p_config p) then SExit else SBaseline ewma))
  | SBaseline ewma =>
    let baseline := baseline_latency_us a in
    (s, stay (if baseline =? 0 then SExit else SLimit ewma (target_latency (p_config p) baseline)))
  | SLimit ewma target => (s, stay (SInFlight ewma target (limit a)))
  | SInFlight ewma target lim =>
    (s, stay (if target <? ewma then SBefore
              else if r_allow_increase r && (lim <=? in_flight a) then SIncLoad else SExit))
  | SBefore => (s, stay (SBump (limit a)))
  | SBump before => (put_row s (p_row p) (with_feedback_epoch a (wrap 64 (feedback_epoch a + 1))), stay (SDecLoad before))
  | SDecLoad before => (s, stay (dec_turn p before (limit a)))
  | SDecCas before current =>
    match decrease_limit (p_config p) before current with
    | Some next =>
      if limit a =? current then (put_row s (p_row p) (with_limit a next), stay SExit)
      else (s, stay (dec_turn p before (limit a)))
    | None => (s, stay SExit)
    end
  | SIncLoad => (s, stay (SIncEpoch (limit a)))
  | SIncEpoch current =>
    (s, stay (if negb (feedback_epoch a =? p_feedback_epoch p) then SExit
              else match increase_limit (p_config p) current with Some _ => SIncCas current | None => SExit end))
  | SIncCas current =>
    match increase_limit (p_config p) current with
    | Some next =>
      if limit a =? current then (put_row s (p_row p) (with_limit a next), stay SExit)
      else (s, stay (SIncEpoch (limit a)))
    | None => (s, stay SExit)
    end
  end.

Definition thread_step (o : oracle) (s : shared) (t : pc) : shared * pc :=
  match t with
  | RPin q => (s, RConfig q (space s))
  | RConfig q sp =>
    let '(c, g) := admission_config s (q_generation q) (q_config q) in (s, REnsure q (View sp c g) CkWord)
  | REnsure q v k =>
    (s, match check_step s (q_generation q) (q_lb_generation q) k with
        | Continue k => REnsure q v k
        | Verdict true => REntry q v
        | Verdict false => RRefused GenerationHandoff
        end)
  | REntry q v => entry_step s q v
  | RInFlight q v row => (s, RLimit q v row (in_flight (row_at s row)))
  | RLimit q v row current =>
    let lim := effective_limit s v row in
    (s, if (lim <=? current) && negb (shadow_mode (v_config v)) then RFull q v row current lim CkWord
        else RCas q v row current)
  | RCas q v row current =>
    let a := row_at s row in
    if spurious o || negb (in_flight a =? current) then (s, RInFlight q v row)
    else (put_row s row (with_in_flight a (saturating_add 64 current 1)), RPost q v row CkWord)
  | RFull q v row current lim k =>
    (s, match check_step s (q_generation q) (q_lb_generation q) k with
        | Continue k => RFull q v row current lim k
        | Verdict b => RFullSpace q v row current lim b
        end)
  | RFullSpace q v row current lim admitted =>
    (s, RFullConfig q v row current lim (admitted && tracking_space_is_current s (v_space v)))
  | RFullConfig q v row current lim ok =>
    let config_current := admission_config_current s (v_config_generation v) in
    (s, if negb ok then RRefused GenerationHandoff
        else if negb config_current then RClampConfig q row
        else RCount v row current lim)
  | RCount v row current lim =>
    let a := row_at s row in
    (put_row s row (with_rejections a (wrap 64 (rejections a + 1))),
     RRefused (TargetLimit current lim (expose_headers (v_config v))))
  | RClampConfig q row =>
    (s, match active_config s with Some (_, c) => RClampLoad q row c | None => RPin q end)
  | RClampLoad q row c =>
    let current := limit (row_at s row) in
    (s, match clamp_limit c current with Some _ => RClampCas q row c current | None => RPin q end)
  | RClampCas q row c current =>
    let a := row_at s row in
    match clamp_limit c current with
    | Some next =>
      if limit a =? current then (put_row s row (with_limit a next), RPin q)
      else (s, match clamp_limit c (limit a) with Some _ => RClampCas q row c (limit a) | None => RPin q end)
    | None => (s, RPin q)
    end
  | RPost q v row k =>
    (s, match check_step s (q_generation q) (q_lb_generation q) k with
        | Continue k => RPost q v row k
        | Verdict b => RPostSpace q v row b
        end)
  | RPostSpace q v row admitted => (s, RPostConfig q v row (admitted && tracking_space_is_current s (v_space v)))
  | RPostConfig q v row ok =>
    let config_current := admission_config_current s (v_config_generation v) in
    (s, if negb ok || negb config_current then RRollback q row (ok && negb config_current) else REpoch q v row)
  | RRollback q row retry =>
    let a := row_at s row in
    (put_row s row (with_in_flight a (wrap 64 (in_flight a - 1))),
     if retry then RClampConfig q row else RRefused GenerationHandoff)
  | REpoch q v row =>
    (s, RHeld (Permit row (v_config v) (q_generation q) (q_lb_generation q) (feedback_epoch (row_at s row))) false)
  | RHeld p recorded =>
    match action o with
    | KeepHolding => (s, t)
    | RecordOutcome r => (s, if recorded then RHeld p true else RFeedback p r SBlocked)
    | DropPermit =>
      let a := row_at s (p_row p) in
      (put_row s (p_row p) (with_in_flight a (wrap 64 (in_flight a - 1))), RDropped)
    end
  | RFeedback p r st => feedback_step s p r st
  | RRefused _ | RDropped => (s, t)
  end.

(** ** The writer *)

Inductive task :=
| Prepare (sd : side) (generation : Z) (reset : bool)
| StoreEpoch (e : epoch)
| Commit (sd : side) (generation : Z) (config : option AdaptiveConcurrencyConfig) (reset : bool).

(** The arguments of a commit. *)
Record commit := CommitJob {
  c_side : side;
  c_generation : Z;
  c_config : option AdaptiveConcurrencyConfig;
  c_reset : bool;
}.

Inductive wpc :=
| WIdle
(* prepare_policy_generation, prepare_lb_generation *)
| WPrepReset (sd : side) (generation : Z) (reset : bool)
| WPrepPending (sd : side) (generation : Z)
(* commit_policy_generation, commit_lb_generation *)
| WBlock (c : commit) (current : Z)
| WWait (c : commit) (current : Z)
| WBegin (c : commit) (current : Z)
| WBeginCas (c : commit) (current observed : Z)
| WMinimum (c : commit) (current : Z) (reset : AdaptiveConcurrencyResetEpoch)
| WRcu (c : commit) (current : Z) (reset : option AdaptiveConcurrencyResetEpoch)
| WActive (c : commit) (current : Z) (reset : option AdaptiveConcurrencyResetEpoch)
| WPendCas (c : commit) (reset : option AdaptiveConcurrencyResetEpoch)
| WPendReset (c : commit) (reset : option AdaptiveConcurrencyResetEpoch)
| WApply (c : commit) (reset : option AdaptiveConcurrencyResetEpoch)
| WFinish (reset : AdaptiveConcurrencyResetEpoch)
| WScan (cfg : AdaptiveConcurrencyConfig) (sp : nat) (rest : list nat)
| WClampLoad (cfg : AdaptiveConcurrencyConfig) (sp : nat) (rest : list nat) (row : nat)
| WClampCas (cfg : AdaptiveConcurrencyConfig) (sp : nat) (rest : list nat) (row : nat) (current : Z)
| WUnblock.

Record writer := Writer { todo : list task; at_pc : wpc }.

(** The iterator visits at least the entries present when it starts; it may also
    come across one inserted later ([extra]). *)
Record woracle := WOracle { extra : option AdaptiveConcurrencyKey }.

Definition update_gens (s : shared) (sd : side) (f : gens -> gens) : shared := set_gens s sd (f (gens_of s sd)).

Definition space_rows (s : shared) (sp : nat) : list nat :=
  match spaces s !! sp with Some t => map snd (map_to_list (inner t)) | None => [] end.

(** After the reset claim, the lifecycle's configuration is replaced on the
    policy side only. *)
Definition after_claim (c : commit) (current : Z) (reset : option AdaptiveConcurrencyResetEpoch) : wpc :=
  match c_config c with Some _ => WRcu c current reset | None => WActive c current reset end.

(** The first load of a task. *)
Definition start_task (s : shared) (k : task) : shared * wpc :=
  match k with
  | Prepare sd g r => (s, if g <=? active (gens_of s sd) then WIdle else WPrepReset sd g r)
  | StoreEpoch e => (set_published s e, WIdle)
  | Commit sd g cfg r =>
    let current := active (gens_of s sd) in
    (s, if g <=? current then WIdle else WBlock (CommitJob sd g cfg r) current)
  end.

(** [WBlock] is left to the system, which knows about the store buffer. *)
Definition writer_step (o : woracle) (s : shared) (w : wpc) : shared * wpc :=
  match w with
  | WIdle => (s, WIdle)
  | WPrepReset sd g r => (update_gens s sd (fun x => set_pending_reset x r), WPrepPending sd g)
  | WPrepPending sd g => (update_gens s sd (fun x => set_pending x g), WIdle)
  | WBlock c current => (set_blocked s true, WWait c current)
  | WWait c current =>
    (s, if negb (feedback_in_progress s =? 0) then WWait c current
        else if c_reset c then WBegin c current else after_claim c current None)
  | WBegin c current =>
    (s, match reset_claim (word s) with Some _ => WBeginCas c current (word s) | None => WBegin c current end)
  | WBeginCas c current observed =>
    match reset_claim observed with
    | Some reset =>
      if word s =? observed then (set_word s (resetting_word reset), WMinimum c current reset) else (s, WBegin c current)
    | None => (s, WBegin c current)
    end
  | WMinimum c current reset =>
    (update_gens s (c_side c) (fun x => set_minimum x (Z.max (minimum x) (c_generation c))), after_claim c current (Some reset))
  | WRcu c current reset =>
    let keep := match active_config s with Some (g, _) => c_generation c <=? g | None => false end in
    (match c_config c with
     | Some cfg => if keep then s else set_active_config s (Some (c_generation c, cfg))
     | None => s
     end, WActive c current reset)
  | WActive c current reset =>
    if c_generation c <=? current then (set_blocked s false, WIdle)
    else if active (gens_of s (c_side c)) =? current
    then (update_gens s (c_side c) (fun x => set_active x (c_generation c)), WPendCas c reset)
    else (s, WActive c (active (gens_of s (c_side c))) reset)
  | WPendCas c reset =>
    if pending (gens_of s (c_side c)) =? c_generation c
    then (update_gens s (c_side c) (fun x => set_pending x 0), WPendReset c reset)
    else (s, WApply c reset)
  | WPendReset c reset => (update_gens s (c_side c) (fun x => set_pending_reset x false), WApply c reset)
  | WApply c reset =>
    match reset, c_config c with
    | Some reset, _ =>
      (set_spaces s (length (spaces s)) (spaces s ++ [empty_space (minimum (policy_gens s), minimum (lb_gens s))]), WFinish reset)
    | None, Some cfg => (s, WScan cfg (space s) (space_rows s (space s)))
    | None, None => (s, WUnblock)
    end
  | WFinish reset => (set_word s (finish_reset (word s) reset).1, WUnblock)
  | WScan cfg sp rest =>
    (s, match extra o ≫= fun key => spaces s !! sp ≫= fun t => inner t !! key with
        | Some row => WClampLoad cfg sp rest row
        | None => match rest with row :: rest => WClampLoad cfg sp rest row | [] => WUnblock end
        end)
  | WClampLoad cfg sp rest row =>
    let current := limit (row_at s row) in
    (s, match clamp_limit cfg current with Some _ => WClampCas cfg sp rest row current | None => WScan cfg sp rest end)
  | WClampCas cfg sp rest row current =>
    let a := row_at s row in
    match clamp_limit cfg current with
    | Some next =>
      if limit a =? current then (put_row s row (with_limit a next), WScan cfg sp rest)
      else (s, match clamp_limit cfg (limit a) with Some _ => WClampCas cfg sp rest row (limit a) | None => WScan cfg sp rest end)
    | None => (s, WScan cfg sp rest)
    end
  | WUnblock => (set_blocked s false, WIdle)
  end.

(** ** Publications *)

(** What the holder of the writer lock publishes: the epoch in which the limiter
    first appears, a reload that may replace the policy and the balancers, or new
    balancers from service discovery. *)
Inductive job :=
| Create (cfg : AdaptiveConcurrencyConfig) (lb_generation : Z) (lb_reset : bool)
| Reload (policy : option (AdaptiveConcurrencyConfig * bool)) (lb : option bool)
| Discover (lb_reset : bool).

Definition bumped (n : Z) : option Z := checked_add 64 n 1.

(** The next epoch and what is done around its store; [None] when the job does
    not apply or a generation counter is exhausted. *)
Definition plan (s : shared) (j : job) : option (epoch * list task) :=
  match published s, j with
  | None, Create cfg l lr =>
    let e := Epoch 1 cfg l in
    Some (e, [Prepare PolicySide 1 false; Prepare LbSide l lr; StoreEpoch e; Commit PolicySide 1 (Some cfg) false;
              Commit LbSide l None lr])
  | Some e, Reload policy lb =>
    let '(cfg, reset) := default (e_config e, false) policy in
    g ← (match policy with Some _ => bumped (e_generation e) | None => Some (e_generation e) end);
    l ← (match lb with Some _ => bumped (e_lb_generation e) | None => Some (e_lb_generation e) end);
    let e' := Epoch g cfg l in
    let lr := default false lb in
    Some (e', [Prepare PolicySide g reset; Prepare LbSide l lr; StoreEpoch e'; Commit PolicySide g (Some cfg) reset;
               Commit LbSide l None lr])
  | Some e, Discover lr =>
    l ← bumped (e_lb_generation e);
    let e' := Epoch (e_generation e) (e_config e) l in
    Some (e', [Prepare LbSide l lr; StoreEpoch e'; Commit LbSide l None lr])
  | _, _ => None
  end.

(** ** The system *)

Record sys := Sys { sh : shared; threads : list pc; wr : writer; buffered : bool }.

Definition initial : sys := Sys limiter_new [] (Writer [] WIdle) false.

Inductive cmd :=
| Spawn (p : AdaptiveProxy) (t : option UpstreamTarget)
| Step (i : nat) (o : oracle)
| Publish (j : job)
| WriterStep (o : woracle)
| Flush.

Section system.
Context (tso : bool) (allowed : AdaptiveConcurrencyConfig -> bool).

(** [None] when the command is not enabled. Threads are fewer than 2^64. *)
Definition exec (x : sys) (k : cmd) : option sys :=
  match k with
  | Spawn p t =>
    match published (sh x) with
    | Some e =>
      if Z.of_nat (S (length (threads x))) <? umax 64
      then Some (Sys (sh x) (threads x ++ [RPin (Request p t (e_config e) (e_generation e) (e_lb_generation e))]) (wr x) (buffered x))
      else None
    | None => None
    end
  | Step i o =>
    match threads x !! i with
    | Some t => let '(s, t') := thread_step o (sh x) t in Some (Sys s (<[i := t']> (threads x)) (wr x) (buffered x))
    | None => None
    end
  | Publish j =>
    match todo (wr x), at_pc (wr x), plan (sh x) j with
    | [], WIdle, Some (e, tasks) =>
      if allowed (e_config e)
      then Some (Sys (set_configs (sh x) (<[e_generation e := e_config e]> (configs (sh x)))) (threads x) (Writer tasks WIdle) (buffered x))
      else None
    | _, _, _ => None
    end
  | WriterStep o =>
    match at_pc (wr x) with
    | WIdle =>
      match todo (wr x) with
      | task :: rest => let '(s, w) := start_task (sh x) task in Some (Sys s (threads x) (Writer rest w) (buffered x))
      | [] => None
      end
    | WBlock c current =>
      if tso then Some (Sys (sh x) (threads x) (Writer (todo (wr x)) (WWait c current)) true)
      else let '(s, w) := writer_step o (sh x) (WBlock c current) in Some (Sys s (threads x) (Writer (todo (wr x)) w) (buffered x))
    | WWait c current =>
      let '(s, w) := writer_step o (sh x) (WWait c current) in Some (Sys s (threads x) (Writer (todo (wr x)) w) (buffered x))
    | w =>
      if buffered x then None
      else let '(s, w) := writer_step o (sh x) w in Some (Sys s (threads x) (Writer (todo (wr x)) w) (buffered x))
    end
  | Flush => if buffered x then Some (Sys (set_blocked (sh x) true) (threads x) (wr x) false) else None
  end.

Inductive reachable : sys -> Prop :=
| reach_init : reachable initial
| reach_exec x k x' : reachable x -> exec x k = Some x' -> reachable x'.

Fixpoint run (x : sys) (ks : list cmd) : option sys :=
  match ks with
  | [] => Some x
  | k :: ks => exec x k ≫= fun x => run x ks
  end.

Lemma run_reachable ks : forall x x', reachable x -> run x ks = Some x' -> reachable x'.
Proof.
  induction ks as [|k ks IH]; intros x x' Hr H; cbn [run] in H; [by injection H as <-|].
  destruct (exec x k) as [y|] eqn:E; [|done]. eapply IH; [by eapply reach_exec|done].
Qed.
End system.
