(* ===== verification/AdaptiveSafety.v ===== *)
(** * Adaptive concurrency: invariants of every interleaving
    ([src/src/adaptive_concurrency.rs])

    The in-flight counts are exact, outside shadow mode the limit is never
    exceeded, a structural commit leaves no retired generation on the new tracking
    space, and under sequentially consistent memory feedback never overlaps a
    commit and trains only with the live configuration. *)

From S2P Require Import Prelude Decimal RuntimeKeys BreakerOutcome UdpAmplification Upstream AdaptiveLimiter AdaptiveSystem.
#[local] Open Scope Z_scope.

(** ** What a step of a request can touch *)

Record frame (s s' : shared) : Prop := {
  fr_policy : policy_gens s' = policy_gens s;
  fr_lb : lb_gens s' = lb_gens s;
  fr_config : active_config s' = active_config s;
  fr_blocked : feedback_blocked s' = feedback_blocked s;
  fr_word : word s' = word s;
  fr_space : space s' = space s;
  fr_published : published s' = published s;
  fr_configs : configs s' = configs s;
  fr_born : map born (spaces s') = map born (spaces s);
  fr_rows : (length (rows s) <= length (rows s'))%nat;
}.

Lemma frame_refl s : frame s s.
Proof. by constructor. Qed.

Lemma frame_put s c a : frame s (put_row s c a).
Proof. constructor; try done. cbn. by rewrite length_insert. Qed.

Lemma frame_in_progress s n : frame s (set_in_progress s n).
Proof. by constructor. Qed.

Create HintDb adaptive.
#[export] Hint Resolve frame_refl frame_put frame_in_progress : adaptive.

Lemma born_insert (l : list tracking) i t t' : l !! i = Some t -> born t' = born t -> map born (<[i := t']> l) = map born l.
Proof. intros Hi Hb. rewrite list_fmap_insert. apply list_insert_id. by rewrite list_lookup_fmap, Hi, Hb. Qed.

Lemma entry_frame s q v : frame s (entry_step s q v).1.
Proof.
  unfold entry_step. destruct (spaces s !! v_space v) as [t|] eqn:Et; [|apply frame_refl].
  destruct (resolve_scope _ _ _) as [scope cache]. destruct (inner t !! _) as [row|].
  - constructor; try done. cbn. by apply (born_insert _ _ t).
  - destruct (_ <=? _); constructor; try done; cbn; try (by apply (born_insert _ _ t)); rewrite length_app; lia.
Qed.

Lemma feedback_frame s p r st : frame s (feedback_step s p r st).1.
Proof. destruct st; cbn [feedback_step]; cbv zeta; repeat case_match; cbn [fst]; auto with adaptive. Qed.

Lemma thread_frame o s t : frame s (thread_step o s t).1.
Proof.
  destruct t; cbn [thread_step]; cbv zeta; auto using entry_frame, feedback_frame with adaptive; repeat case_match; cbn [fst]; auto with adaptive.
Qed.

(** ** Counting *)

(** The row a thread works on, and whether it has a slot there. *)
Definition row_of (t : pc) : option nat :=
  match t with
  | RInFlight _ _ row | RLimit _ _ row _ | RCas _ _ row _ | RFull _ _ row _ _ _ | RFullSpace _ _ row _ _ _
  | RFullConfig _ _ row _ _ _ | RCount _ row _ _ | RClampConfig _ row | RClampLoad _ row _ | RClampCas _ row _ _
  | RPost _ _ row _ | RPostSpace _ _ row _ | RPostConfig _ _ row _ | RRollback _ row _ | REpoch _ _ row => Some row
  | RHeld p _ | RFeedback p _ _ => Some (p_row p)
  | _ => None
  end.

Definition holding (t : pc) : bool :=
  match t with
  | RPost _ _ _ _ | RPostSpace _ _ _ _ | RPostConfig _ _ _ _ | RRollback _ _ _ | REpoch _ _ _ | RHeld _ _ | RFeedback _ _ _ => true
  | _ => false
  end.

Definition holds (c : nat) (t : pc) : bool := holding t && bool_decide (row_of t = Some c).

(** Between the increment and the decrement of [feedback_in_progress]. *)
Definition inside (t : pc) : bool :=
  match t with
  | RFeedback _ _ SBlocked | RFeedback _ _ (SCheck _) | RFeedback _ _ SEnter => false
  | RFeedback _ _ _ => true
  | _ => false
  end.

Definition row_valid (s : shared) (t : pc) : Prop := forall c, row_of t = Some c -> (c < length (rows s))%nat.

Lemma row_at_put s c a c' : (c < length (rows s))%nat -> row_at (put_row s c a) c' = if decide (c' = c) then a else row_at s c'.
Proof.
  intros Hc. unfold row_at, put_row. cbn [set_rows rows]. case_decide as E; [subst; by rewrite list_lookup_insert, decide_True by done|].
  by rewrite list_lookup_insert_ne.
Qed.

Lemma row_at_in_progress s n c : row_at (set_in_progress s n) c = row_at s c.
Proof. done. Qed.

(** In-flight counts change with the slots. *)
Definition slots_move (s s' : shared) (t t' : pc) : Prop :=
  forall c, in_flight (row_at s' c) = in_flight (row_at s c) + Z.b2z (holds c t') - Z.b2z (holds c t).

Lemma slots_same s t t' : row_of t' = row_of t -> holding t' = holding t -> slots_move s s t t'.
Proof. intros Hr Hh c. unfold holds. rewrite Hr, Hh. lia. Qed.

Lemma slots_free s t t' : holding t = false -> holding t' = false -> slots_move s s t t'.
Proof. intros Hr Hh c. unfold holds. rewrite Hr, Hh. cbn. lia. Qed.

Lemma slots_quiet s t t' c a :
  row_valid s t -> row_of t = Some c -> in_flight a = in_flight (row_at s c) ->
  row_of t' = row_of t -> holding t' = holding t -> slots_move s (put_row s c a) t t'.
Proof.
  intros Hv Hc Ha Hr Hh c'. rewrite row_at_put by auto. unfold holds. rewrite Hr, Hh. case_decide; subst; lia.
Qed.

Lemma slots_quiet_free s t t' c a :
  row_valid s t -> row_of t = Some c -> in_flight a = in_flight (row_at s c) ->
  holding t = false -> holding t' = false -> slots_move s (put_row s c a) t t'.
Proof.
  intros Hv Hc Ha Hr Hh c'. rewrite row_at_put by auto. unfold holds. rewrite Hr, Hh. cbn. case_decide; subst; lia.
Qed.

#[export] Hint Resolve slots_same slots_free : adaptive.

Lemma feedback_slots s p r st s' t' :
  feedback_step s p r st = (s', t') -> row_valid s (RFeedback p r st) -> slots_move s s' (RFeedback p r st) t'.
Proof.
  intros H Hv. assert (Hq : forall a t', in_flight a = in_flight (row_at s (p_row p)) -> row_of t' = Some (p_row p) -> holding t' = true ->
    slots_move s (put_row s (p_row p) a) (RFeedback p r st) t').
  { intros. by eapply slots_quiet. }
  destruct st; cbn [feedback_step] in H; cbv zeta in H; repeat case_match; simplify_eq; auto with adaptive;
    intros c; rewrite row_at_in_progress; apply slots_same; done.
Qed.

Lemma entry_slots s q v s' t' : entry_step s q v = (s', t') -> slots_move s s' (REntry q v) t'.
Proof.
  unfold entry_step. intros H c. assert (Hn : forall a x, in_flight a = 0 ->
    in_flight (default (state_new 0) ((rows s ++ [a]) !! x)) = in_flight (default (state_new 0) (rows s !! x))).
  { intros a x Ha. destruct (rows s !! x) as [b|] eqn:E; [by rewrite (lookup_app_l_Some _ _ _ _ E)|].
    apply lookup_ge_None in E. rewrite lookup_app_r by done. by destruct (x - length (rows s))%nat. }
  repeat case_match; simplify_eq; unfold holds; cbn [holding andb Z.b2z]; unfold row_at; cbn [set_rows rows set_spaces];
    rewrite ?Hn by done; lia.
Qed.

(** What the counts need of the current state. *)
Definition slot_ready (s : shared) (t : pc) : Prop :=
  forall c, row_of t = Some c -> Z.b2z (holds c t) <= in_flight (row_at s c) < umax 64.

Lemma thread_slots o s t s' t' :
  thread_step o s t = (s', t') -> row_valid s t -> slot_ready s t -> slots_move s s' t t'.
Proof.
  intros H Hv Hr.
  assert (Hq : forall c a t', row_of t = Some c -> in_flight a = in_flight (row_at s c) -> holding t = false -> holding t' = false ->
    slots_move s (put_row s c a) t t').
  { intros. by eapply slots_quiet_free. }
  assert (Hmove : forall c n t', row_of t = Some c -> (forall c', Z.b2z (holds c' t') - Z.b2z (holds c' t) = if decide (c' = c) then n else 0) ->
    slots_move s (put_row s c (with_in_flight (row_at s c) (in_flight (row_at s c) + n))) t t').
  { intros c n u Hc Hd c'. specialize (Hd c'). rewrite row_at_put by auto. case_decide; subst; cbn [with_in_flight in_flight]; lia. }
  assert (Hb : forall c c' : nat, Z.b2z (bool_decide (Some c = Some c')) = if decide (c' = c) then 1 else 0).
  { intros c c'. case_decide; [subst; by rewrite bool_decide_true|rewrite bool_decide_false by congruence; done]. }
  assert (Hw : forall c, row_of t = Some c -> holds c t = true -> wrap 64 (in_flight (row_at s c) - 1) = in_flight (row_at s c) + -1).
  { intros c Hc Hh. specialize (Hr c Hc). rewrite Hh in Hr. cbn in Hr. rewrite wrap_small; [lia|]. unfold umax in Hr. split; lia. }
  assert (Hh1 : forall c, row_of t = Some c -> holding t = true -> holds c t = true).
  { intros c Hc Hh. unfold holds. by rewrite Hc, Hh, bool_decide_true. }
  destruct t; cbn [thread_step] in H; cbv zeta in H; try (by eapply entry_slots); try (by eapply feedback_slots);
    repeat case_match; simplify_eq; auto with adaptive.
  all: try (rewrite Hw by auto; apply Hmove; [done|]; intros c'; unfold holds; cbn [holding row_of andb]; rewrite Hb; cbn [Z.b2z];
            case_decide; lia).
  - apply orb_false_iff in H0 as [_ E%negb_false_iff%Z.eqb_eq]. specialize (Hr row eq_refl). cbn in Hr. subst current.
    rewrite saturating_add_small by lia. apply Hmove; [done|]. intros c'. unfold holds. cbn [holding row_of andb]. rewrite Hb. cbn. lia.
Qed.

(** Entering and leaving feedback is counted. *)
Lemma thread_in_progress o s t s' t' :
  thread_step o s t = (s', t') -> Z.b2z (inside t) <= feedback_in_progress s < umax 64 ->
  feedback_in_progress s' = feedback_in_progress s + Z.b2z (inside t') - Z.b2z (inside t).
Proof.
  intros H Hn. assert (Hw1 : wrap 64 (feedback_in_progress s + 1) = feedback_in_progress s + 1).
  { apply wrap_small. unfold umax in Hn. destruct (inside t); cbn in Hn; split; lia. }
  assert (Hw2 : inside t = true -> wrap 64 (feedback_in_progress s - 1) = feedback_in_progress s - 1).
  { intros E. rewrite E in Hn. cbn in Hn. apply wrap_small. unfold umax in Hn. split; lia. }
  destruct t; cbn [thread_step] in H; unfold entry_step in H; cbv zeta in H;
    try (repeat case_match; simplify_eq; cbn [put_row set_rows set_spaces feedback_in_progress inside Z.b2z]; lia).
  destruct st; cbn [feedback_step] in H; unfold dec_turn, min_turn, classified in H; cbv zeta in H; repeat case_match; simplify_eq;
    cbn [put_row set_rows set_in_progress feedback_in_progress inside Z.b2z]; rewrite ?Hw1, ?Hw2 by done; lia.
Qed.

(** ** What each program counter knows *)

Section inv.
Context (allowed : AdaptiveConcurrencyConfig -> bool).
Hypothesis allowed_ok : forall c, allowed c = true -> config_ok c.

Definition known (s : shared) (g : Z) (c : AdaptiveConcurrencyConfig) : Prop := configs s !! g = Some c.

Definition config_generation (s : shared) : Z := match active_config s with Some (g, _) => g | None => 0 end.

(** A configuration used for generation [g]: its own, or a newer committed one. *)
Definition config_for (s : shared) (g cg : Z) (c : AdaptiveConcurrencyConfig) : Prop :=
  known s cg c /\ (cg = g \/ g < cg <= config_generation s).

Definition request_ok (s : shared) (q : request) : Prop := known s (q_generation q) (q_config q).

Definition view_ok (s : shared) (q : request) (v : view) : Prop :=
  (v_space v < length (spaces s))%nat /\ config_for s (q_generation q) (v_config_generation v) (v_config v).

(** The generations of a request against the minima its space was created with. *)
Definition above_policy (s : shared) (q : request) (v : view) : Prop :=
  forall b, map born (spaces s) !! v_space v = Some b -> b.1 <= q_generation q.
Definition above_lb (s : shared) (q : request) (v : view) : Prop :=
  forall b, map born (spaces s) !! v_space v = Some b -> b.2 <= q_lb_generation q.

Definition check_ok (s : shared) (q : request) (v : view) (k : check) : Prop :=
  match k with
  | CkWord | CkActive | CkMinimum _ | CkPending => True
  | CkPendingReset | CkLbActive | CkLbMinimum _ | CkLbPending => above_policy s q v
  | CkLbPendingReset => above_policy s q v /\ above_lb s q v
  end.

(** A row some space tracks is used only by generations that space admits. *)
Definition row_home (s : shared) (row : nat) (g l : Z) : Prop :=
  forall sp t key, spaces s !! sp = Some t -> inner t !! key = Some row -> (born t).1 <= g /\ (born t).2 <= l.

Definition row_ok (s : shared) (row : nat) (g l : Z) : Prop := (row < length (rows s))%nat /\ row_home s row g l /\ (1 <= g /\ 1 <= l).

Definition admitting (s : shared) (q : request) (v : view) (row : nat) : Prop :=
  request_ok s q /\ view_ok s q v /\ row_ok s row (q_generation q) (q_lb_generation q).

(** The count is at or above a limit within the bounds of the configuration. *)
Definition full (c : AdaptiveConcurrencyConfig) (current lim : Z) : Prop :=
  lim <= current /\ min_limit c <= lim <= max_limit c /\ shadow_mode c = false.

Definition permit_ok (s : shared) (p : permit) : Prop :=
  row_ok s (p_row p) (p_generation p) (p_lb_generation p) /\ exists cg, config_for s (p_generation p) cg (p_config p).

Definition pc_ok (s : shared) (t : pc) : Prop :=
  match t with
  | RPin q => request_ok s q
  | RConfig q sp => request_ok s q /\ (sp < length (spaces s))%nat
  | REnsure q v k => request_ok s q /\ view_ok s q v /\ check_ok s q v k
  | REntry q v => request_ok s q /\ view_ok s q v /\ above_policy s q v /\ above_lb s q v
  | RInFlight q v row | RLimit q v row _ | RPost q v row _ | RPostSpace q v row _ | RPostConfig q v row _ | REpoch q v row =>
    admitting s q v row
  | RCas q v row current => admitting s q v row /\ (shadow_mode (v_config v) = false -> current < max_limit (v_config v))
  | RFull q v row current lim _ | RFullSpace q v row current lim _ | RFullConfig q v row current lim _ =>
    admitting s q v row /\ full (v_config v) current lim
  | RCount v row current lim =>
    (row < length (rows s))%nat /\ (exists g, known s g (v_config v)) /\ full (v_config v) current lim
  | RClampConfig q row => request_ok s q /\ (row < length (rows s))%nat
  | RClampLoad q row c | RClampCas q row c _ =>
    request_ok s q /\ (row < length (rows s))%nat /\ exists g, known s g c
  | RRollback q row _ => request_ok s q /\ (row < length (rows s))%nat
  | RRefused (TargetLimit current lim _) => exists g c, known s g c /\ full c current lim
  | RRefused GenerationHandoff | RDropped => True
  | RHeld p _ | RFeedback p _ _ => permit_ok s p
  end.

(** What other threads and the writer may do meanwhile. *)
Record grow (s s' : shared) : Prop := {
  gr_configs : configs s ⊆ configs s';
  gr_generation : config_generation s <= config_generation s';
  gr_born : map born (spaces s) `prefix_of` map born (spaces s');
  gr_rows : (length (rows s) <= length (rows s'))%nat;
  gr_home : forall row g l, (row < length (rows s))%nat -> row_home s row g l -> row_home s' row g l;
}.

Lemma grow_known s s' g c : grow s s' -> known s g c -> known s' g c.
Proof. intros Hg Hk. by apply (lookup_weaken _ _ _ _ Hk), (gr_configs _ _ Hg). Qed.

Lemma grow_config_for s s' g cg c : grow s s' -> config_for s g cg c -> config_for s' g cg c.
Proof. intros Hg [Hk Hd]. split; [by eapply grow_known|]. assert (H := gr_generation _ _ Hg). lia. Qed.

Lemma grow_spaces s s' : grow s s' -> (length (spaces s) <= length (spaces s'))%nat.
Proof. intros Hg. apply gr_born, prefix_length in Hg. by rewrite !length_map in Hg. Qed.

Lemma grow_view s s' q v : grow s s' -> view_ok s q v -> view_ok s' q v.
Proof. intros Hg [Hs Hc]. split; [apply grow_spaces in Hg; lia|by eapply grow_config_for]. Qed.

Lemma born_stable s s' sp b : grow s s' -> (sp < length (spaces s))%nat ->
  map born (spaces s') !! sp = Some b -> map born (spaces s) !! sp = Some b.
Proof.
  intros Hg Hs Hb. destruct (lookup_lt_is_Some_2 (map born (spaces s)) sp) as [b' Hb']; [by rewrite length_map|].
  rewrite (prefix_lookup_Some _ _ _ _ Hb' (gr_born _ _ Hg)) in Hb. congruence.
Qed.

Lemma grow_above s s' q v : grow s s' -> view_ok s q v ->
  (above_policy s q v -> above_policy s' q v) /\ (above_lb s q v -> above_lb s' q v).
Proof. intros Hg [Hs _]. split; intros H b Hb; apply H; by eapply born_stable. Qed.

Lemma grow_row s s' row g l : grow s s' -> row_ok s row g l -> row_ok s' row g l.
Proof. intros Hg (Hr & Hh & Hl). split; [assert (H := gr_rows _ _ Hg); lia|]. split; [by apply (gr_home _ _ Hg)|done]. Qed.

Lemma grow_admitting s s' q v row : grow s s' -> admitting s q v row -> admitting s' q v row.
Proof. intros Hg (? & ? & ?). split_and!; [by eapply grow_known|by eapply grow_view|by eapply grow_row]. Qed.

Lemma grow_permit s s' p : grow s s' -> permit_ok s p -> permit_ok s' p.
Proof. intros Hg (? & cg & ?). split; [by eapply grow_row|]. exists cg. by eapply grow_config_for. Qed.

Lemma adaptive_pc_ok_stable s s' t : grow s s' -> pc_ok s t -> pc_ok s' t.
Proof.
  intros Hg. assert (Hr := gr_rows _ _ Hg).
  assert (Hk : forall g c, known s g c -> known s' g c) by (intros g c; by eapply grow_known).
  assert (Ha := grow_admitting s s'). assert (Hv := fun q v => grow_view s s' q v Hg). assert (Hp := grow_permit s s').
  assert (Hq : forall q, request_ok s q -> request_ok s' q) by (intros q; apply Hk).
  assert (Hx : forall c, (exists g, known s g c) -> exists g, known s' g c) by (intros c [g ?]; exists g; auto).
  destruct t; cbn [pc_ok]; try (by auto); try (by intros H; destruct_and? H; split_and?; eauto with lia).
  - intros [Hq1 Hsp]. split; [auto|]. apply grow_spaces in Hg. lia.
  - intros (H1 & H2 & H3). split_and!; [auto|auto|]. destruct (grow_above _ _ _ _ Hg H2) as [A1 A2].
    destruct k; cbn [check_ok] in *; naive_solver.
  - intros (H1 & H2 & H3 & H4). destruct (grow_above _ _ _ _ Hg H2) as [A1 A2]. auto.
  - destruct e; [|done]. intros (g & c & ? & ?). exists g, c. auto.
Qed.

(** ** Tracking spaces *)

Record spaces_ok (s : shared) : Prop := {
  so_rows : forall sp t key row, spaces s !! sp = Some t -> inner t !! key = Some row -> (row < length (rows s))%nat;
  so_home : forall sp t key sp' t' key' row, spaces s !! sp = Some t -> inner t !! key = Some row ->
    spaces s !! sp' = Some t' -> inner t' !! key' = Some row -> sp' = sp;
  so_tracked : forall sp t, spaces s !! sp = Some t -> tracked_keys t = Z.of_nat (size (inner t));
}.

(** What the checks of a request rely on. *)
Record minima_ok (s : shared) : Prop := {
  mo_space : (space s < length (spaces s))%nat;
  mo_born : forall sp b, map born (spaces s) !! sp = Some b -> 1 <= b.1 <= minimum (policy_gens s) /\ 1 <= b.2 <= minimum (lb_gens s);
  mo_pending : forall sd, pending (gens_of s sd) <> 0 -> minimum (gens_of s sd) <= pending (gens_of s sd);
  mo_config : forall g c, active_config s = Some (g, c) -> known s g c;
  mo_allowed : forall g c, known s g c -> allowed c = true;
}.

Lemma frame_grow s s' :
  frame s s' -> (forall row g l, (row < length (rows s))%nat -> row_home s row g l -> row_home s' row g l) -> grow s s'.
Proof.
  intros F Hh. constructor; [by rewrite (fr_configs _ _ F)|unfold config_generation; by rewrite (fr_config _ _ F)| |apply F|done].
  by rewrite (fr_born _ _ F).
Qed.

(** Replacing one space by one that tracks at most one more row, a fresh one. *)
Lemma replace_space s sp0 t t1 rs :
  let s1 := set_rows (set_spaces s (space s) (<[sp0 := t1]> (spaces s))) rs in
  spaces s !! sp0 = Some t -> born t1 = born t -> (length (rows s) <= length rs)%nat ->
  (forall k row, inner t1 !! k = Some row -> inner t !! k = Some row \/ (row = length (rows s) /\ (row < length rs)%nat)) ->
  (tracked_keys t = Z.of_nat (size (inner t)) -> tracked_keys t1 = Z.of_nat (size (inner t1))) ->
  (forall row g l, (row < length (rows s))%nat -> row_home s row g l -> row_home s1 row g l) /\ (spaces_ok s -> spaces_ok s1).
Proof.
  intros s1 Ht Hb Hlen Hin Htr.
  assert (Hold : forall sp u, spaces s1 !! sp = Some u -> exists u0, spaces s !! sp = Some u0 /\ born u = born u0
    /\ (tracked_keys u0 = Z.of_nat (size (inner u0)) -> tracked_keys u = Z.of_nat (size (inner u)))
    /\ forall k row, inner u !! k = Some row ->
         inner u0 !! k = Some row \/ (sp = sp0 /\ row = length (rows s) /\ (row < length rs)%nat)).
  { intros sp u Hu. cbn [s1 set_rows set_spaces spaces] in Hu. apply list_lookup_insert_Some in Hu as [(<- & <- & _)|[Hne Hu]].
    - exists t. split_and!; [done|done|done|]. intros k row Hk. destruct (Hin k row Hk) as [?|[? ?]]; auto.
    - exists u. split_and!; auto. }
  split.
  - intros row g l Hr Hh sp u k Hu Hk. apply Hold in Hu as (u0 & Hu & -> & _ & Hk0).
    destruct (Hk0 k row Hk) as [?|(_ & -> & _)]; [by eapply Hh|lia].
  - intros [H1 H2 H3]. constructor; cbn [s1 set_rows rows].
    + intros sp u k row Hu Hk. apply Hold in Hu as (u0 & Hu & _ & _ & Hk0). destruct (Hk0 k row Hk) as [E|(_ & _ & ?)]; [|done].
      specialize (H1 _ _ _ _ Hu E). lia.
    + intros sp u k sp' u' k' row Hu Hk Hu' Hk'. apply Hold in Hu as (u0 & Hu & _ & _ & Hk0), Hu' as (u0' & Hu' & _ & _ & Hk0').
      destruct (Hk0 k row Hk) as [E|(-> & Er & _)], (Hk0' k' row Hk') as [E'|(-> & Er' & _)].
      * by eapply (H2 sp u0 k sp' u0' k').
      * specialize (H1 _ _ _ _ Hu E). lia.
      * specialize (H1 _ _ _ _ Hu' E'). lia.
      * done.
    + intros sp u Hu. apply Hold in Hu as (u0 & Hu & _ & Htk & _). apply Htk. by eapply H3.
Qed.

(** The entry step inserts only a fresh row. *)
Lemma entry_home s q v s' t' : entry_step s q v = (s', t') ->
  (forall row g l, (row < length (rows s))%nat -> row_home s row g l -> row_home s' row g l)
  /\ (spaces_ok s -> spaces_ok s').
Proof.
  unfold entry_step. intros H. destruct (spaces s !! v_space v) as [t|] eqn:Et; [|by simplify_eq].
  destruct (resolve_scope _ _ _) as [scope cache]. set (key := build_key _ _ _) in H.
  destruct (inner t !! key) as [row|] eqn:Ek; [|destruct (_ <=? _)]; injection H as <- <-.
  - apply (replace_space s (v_space v) t _ (rows s)); auto.
  - apply (replace_space s (v_space v) t _ _); auto. rewrite length_app. lia.
  - apply (replace_space s (v_space v) t _ _); auto; rewrite ?length_app; [lia| |]; cbn [inner tracked_keys].
    + intros k row. rewrite lookup_insert_Some. cbn [length]. intros [[_ <-]|[_ ?]]; [right; lia|auto].
    + intros ->. rewrite map_size_insert_None by done. lia.
Qed.

Definition is_entry (t : pc) : bool := match t with REntry _ _ => true | _ => false end.

Lemma thread_spaces o s t s' t' : thread_step o s t = (s', t') -> is_entry t = false -> spaces s' = spaces s /\ length (rows s') = length (rows s).
Proof.
  intros H He. assert (Hp : forall c a, spaces (put_row s c a) = spaces s /\ length (rows (put_row s c a)) = length (rows s)).
  { intros c a. split; [done|]. cbn. by rewrite length_insert. }
  destruct t; [..|destruct st|]; cbn [thread_step feedback_step] in H; cbv zeta in H; try done; repeat case_match; simplify_eq; auto.
Qed.

Lemma thread_home o s t s' t' : thread_step o s t = (s', t') ->
  (forall row g l, (row < length (rows s))%nat -> row_home s row g l -> row_home s' row g l) /\ (spaces_ok s -> spaces_ok s').
Proof.
  intros H. destruct (is_entry t) eqn:E.
  - destruct t; try done. by eapply entry_home.
  - apply thread_spaces in H as [Es Er]; [|done]. split.
    + intros row g l _ Hh sp. rewrite Es. apply Hh.
    + intros [H1 H2 H3]. constructor; rewrite Es, ?Er; auto.
Qed.

Lemma thread_grow o s t s' t' : thread_step o s t = (s', t') -> grow s s'.
Proof.
  intros H. apply frame_grow; [|by apply (thread_home o s t s' t')]. assert (F := thread_frame o s t). by rewrite H in F.
Qed.

(** A check that passes has seen generations above the minima of the space. *)
Lemma check_step_ok s q v k :
  minima_ok s -> check_ok s q v k ->
  match check_step s (q_generation q) (q_lb_generation q) k with
  | Continue k' => check_ok s q v k'
  | Verdict true => above_policy s q v /\ above_lb s q v
  | Verdict false => True
  end.
Proof.
  intros [_ Hb Hp _ _] Hk. assert (Hb1 : minimum (policy_gens s) <= q_generation q -> above_policy s q v).
  { intros Hm b E. destruct (Hb _ _ E). lia. }
  assert (Hb2 : minimum (lb_gens s) <= q_lb_generation q -> above_lb s q v).
  { intros Hm b E. destruct (Hb _ _ E). lia. }
  assert (Hp1 := Hp PolicySide). assert (Hp2 := Hp LbSide). cbn [gens_of] in Hp1, Hp2.
  destruct k; cbn [check_step check_ok] in *; repeat case_match; simplify_eq; auto.
  all: apply andb_true_iff in H0 as [E1 E2].
  - apply Hb1. by apply Z.leb_le.
  - apply Z.eqb_eq in E1. apply negb_true_iff, Z.eqb_neq in E2. apply Hb1. rewrite <- E1 in *. auto.
  - split; [done|]. apply Hb2. by apply Z.leb_le.
  - apply Z.eqb_eq in E1. apply negb_true_iff, Z.eqb_neq in E2. split; [done|]. apply Hb2. rewrite <- E1 in *. auto.
Qed.

Lemma known_ok s g c : minima_ok s -> known s g c -> config_ok c.
Proof. intros Hm Hk. by eapply allowed_ok, (mo_allowed _ Hm). Qed.

Lemma admission_config_ok s q c g :
  minima_ok s -> request_ok s q -> admission_config s (q_generation q) (q_config q) = (c, g) ->
  config_for s (q_generation q) g c.
Proof.
  intros Hm Hq. unfold admission_config. destruct (active_config s) as [[g' c']|] eqn:E.
  - destruct (Z.ltb_spec (q_generation q) g'); intros [= <- <-].
    + split; [by apply Hm|]. right. unfold config_generation. rewrite E. lia.
    + split; [done|by left].
  - intros [= <- <-]. split; [done|by left].
Qed.

Lemma entry_pc_ok s q v s' t' :
  entry_step s q v = (s', t') -> minima_ok s -> spaces_ok s -> pc_ok s (REntry q v) -> pc_ok s' t'.
Proof.
  intros H Hm Hs (Hq & Hv & Ha1 & Ha2). assert (Hlb : 1 <= q_generation q /\ 1 <= q_lb_generation q).
  { destruct (lookup_lt_is_Some_2 (map born (spaces s)) (v_space v)) as [b Hb]; [rewrite length_map; apply Hv|].
    specialize (Ha1 b Hb). specialize (Ha2 b Hb). apply (mo_born _ Hm) in Hb. lia. } assert (Hg : grow s s') by (by eapply (thread_grow (Oracle false KeepHolding) s (REntry q v))).
  assert (Hs' : spaces_ok s') by (by apply (entry_home _ _ _ _ _ H)).
  assert (Hadm : forall row, row_ok s' row (q_generation q) (q_lb_generation q) -> admitting s' q v row).
  { intros row Hr. split_and!; [by eapply grow_known|by eapply grow_view|done]. }
  destruct (grow_above _ _ _ _ Hg Hv) as [A1 A2]. specialize (A1 Ha1). specialize (A2 Ha2).
  assert (Hhome : forall row key t, spaces s' !! v_space v = Some t -> inner t !! key = Some row ->
    row_ok s' row (q_generation q) (q_lb_generation q)).
  { intros row key t Ht Hk. split; [by eapply so_rows|]. split; [|done]. intros sp u k Hu Hku.
    assert (sp = v_space v) as -> by (by eapply (so_home _ Hs' (v_space v) t key)). rewrite Ht in Hu. injection Hu as <-.
    split; [apply A1|apply A2]; by rewrite list_lookup_fmap, Ht. }
  unfold entry_step in H. destruct (spaces s !! v_space v) as [t|] eqn:Et.
  2:{ apply lookup_ge_None in Et. destruct Hv. lia. }
  assert (Hlt := lookup_lt_Some _ _ _ Et). destruct (resolve_scope _ _ _) as [scope cache]. set (key := build_key _ _ _) in H.
  destruct (inner t !! key) as [row|] eqn:Ek; [|destruct (_ <=? _)]; injection H as <- <-; apply Hadm.
  - eapply (Hhome row key); [cbn [set_spaces spaces]; by rewrite list_lookup_insert, decide_True|done].
  - split; [cbn [set_rows rows]; rewrite length_app; cbn; lia|]. split; [|done]. intros sp u k Hu Hk. exfalso.
    cbn [set_rows set_spaces spaces] in Hu. apply list_lookup_insert_Some in Hu as [(<- & <- & _)|[_ Hu]].
    + assert (H1 := so_rows _ Hs _ _ _ _ Et Hk). lia.
    + assert (H1 := so_rows _ Hs _ _ _ _ Hu Hk). lia.
  - eapply (Hhome _ key); [cbn [set_rows set_spaces spaces]; by rewrite list_lookup_insert, decide_True|].
    cbn [inner]. by rewrite lookup_insert, decide_True.
Qed.

Lemma limit_verdict s q v row current :
  minima_ok s -> admitting s q v row ->
  let lim := effective_limit s v row in
  if (lim <=? current) && negb (shadow_mode (v_config v)) then full (v_config v) current lim
  else shadow_mode (v_config v) = false -> current < max_limit (v_config v).
Proof.
  intros Hm (_ & (_ & Hk & _) & _) lim. destruct (known_ok _ _ _ Hm Hk) as [_ Hi _].
  assert (Hb : min_limit (v_config v) <= lim <= max_limit (v_config v)) by (apply clamp_to_bounds; lia).
  destruct (shadow_mode (v_config v)) eqn:E; cbn [negb]; [by rewrite andb_false_r|]. rewrite andb_true_r.
  destruct (Z.leb_spec lim current); [|lia]. unfold full. rewrite E. repeat split; lia.
Qed.

Lemma feedback_target s p r st s' t' : feedback_step s p r st = (s', t') -> (exists b, t' = RHeld p b) \/ exists st', t' = RFeedback p r st'.
Proof. intros H. destruct st; cbn [feedback_step] in H; cbv zeta in H; repeat case_match; simplify_eq; eauto. Qed.

(** The next program counter, judged in the state before the step. *)
Lemma thread_pc_before o s t s' t' :
  thread_step o s t = (s', t') -> is_entry t = false -> minima_ok s -> pc_ok s t -> pc_ok s t'.
Proof.
  intros H He Hm Ht. assert (Hsp := mo_space _ Hm). destruct t; cbn [thread_step] in H; cbv zeta in H; try done.
  - by injection H as <- <-.
  - destruct (admission_config _ _ _) as [c g] eqn:E. injection H as <- <-. destruct Ht as [Hq Hs]. split_and!; [done| |done].
    split; [done|]. by apply (admission_config_ok s q).
  - destruct Ht as (Hq & Hv & Hk). assert (Hc := check_step_ok s q v k Hm Hk).
    destruct (check_step _ _ _ k) as [k'|[]]; injection H as <- <-; cbn [pc_ok]; split_and?; try done; apply Hc.
  - by injection H as <- <-.
  - assert (Hl := limit_verdict s q v row current Hm Ht). cbv zeta in Hl. destruct (_ && _); injection H as <- <-; by split.
  - destruct Ht as [Ht _]. destruct (_ || _); by injection H as <- <-.
  - destruct (check_step _ _ _ k) as [k'|[]]; by injection H as <- <-.
  - by injection H as <- <-.
  - destruct Ht as [(Hq & (_ & Hk & _) & Hr & _ & _) Hf]. repeat case_match; injection H as <- <-; cbn [pc_ok]; split_and?; try done. by eexists.
  - destruct Ht as (_ & [g Hk] & Hf). injection H as <- <-. by exists g, (v_config v).
  - destruct Ht as [Hq Hr]. destruct (active_config s) as [[g c]|] eqn:E; injection H as <- <-; cbn [pc_ok]; split_and?; try done.
    exists g. by apply (mo_config _ Hm).
  - destruct Ht as (Hq & Hr & Hk). repeat case_match; injection H as <- <-; by cbn [pc_ok].
  - destruct Ht as (Hq & Hr & Hk). repeat case_match; injection H as <- <-; by cbn [pc_ok].
  - destruct (check_step _ _ _ k) as [k'|[]]; by injection H as <- <-.
  - by injection H as <- <-.
  - destruct Ht as (Hq & Hv & Hr & Hh). repeat case_match; injection H as <- <-; by cbn [pc_ok].
  - destruct Ht as [Hq Hr]. repeat case_match; injection H as <- <-; by cbn [pc_ok].
  - destruct Ht as (Hq & (_ & Hc) & Hr). injection H as <- <-. split; [done|]. by eexists.
  - by injection H as <- <-.
  - repeat case_match; by injection H as <- <-.
  - destruct (feedback_target _ _ _ _ _ _ H) as [[b ->]|[st' ->]]; done.
  - by injection H as <- <-.
Qed.

Lemma thread_pc_ok o s t s' t' :
  thread_step o s t = (s', t') -> minima_ok s -> spaces_ok s -> pc_ok s t -> pc_ok s' t'.
Proof.
  intros H Hm Hs Ht. destruct (is_entry t) eqn:E.
  - destruct t; try done. by eapply entry_pc_ok.
  - eapply adaptive_pc_ok_stable; [by eapply thread_grow|by eapply thread_pc_before].
Qed.

Lemma thread_minima o s t s' t' : thread_step o s t = (s', t') -> minima_ok s -> minima_ok s'.
Proof.
  intros H [H1 H2 H3 H4 H5]. assert (F := thread_frame o s t). rewrite H in F. cbn [fst] in F. destruct F as [F1 F2 F3 F4 F5 F6 F7 F8 F9 F10].
  assert (Hl : length (spaces s') = length (spaces s)) by (rewrite <- !(length_map born); by rewrite F9).
  constructor; unfold known, gens_of in *; rewrite ?F1, ?F2, ?F3, ?F6, ?F8, ?F9, ?Hl; auto.
Qed.

(** ** The writer *)

(** The generation the remaining tasks commit on a side. *)
Fixpoint commit_of (sd : side) (l : list task) : option Z :=
  match l with
  | [] => None
  | Commit sd' g _ _ :: l => if decide (sd' = sd) then Some g else commit_of sd l
  | _ :: l => commit_of sd l
  end.

(** The epoch the remaining tasks store. *)
Fixpoint stored (l : list task) : option epoch :=
  match l with
  | [] => None
  | StoreEpoch e :: _ => Some e
  | _ :: l => stored l
  end.

(** What is staged is committed later, and once. *)
Fixpoint planned (l : list task) : Prop :=
  match l with
  | [] => True
  | Prepare sd g _ :: l => commit_of sd l = Some g /\ planned l
  | Commit sd _ _ _ :: l => commit_of sd l = None /\ planned l
  | StoreEpoch _ :: l => stored l = None /\ planned l
  end.

(** The commit in progress, until its generation is no longer pending. *)
Definition committing (w : wpc) : option commit :=
  match w with
  | WBlock c _ | WWait c _ | WBegin c _ | WBeginCas c _ _ | WMinimum c _ _ | WRcu c _ _ | WActive c _ _ | WPendCas c _ => Some c
  | _ => None
  end.

Definition goal (sd : side) (w : writer) : option Z :=
  match committing (at_pc w) with
  | Some c => if decide (c_side c = sd) then Some (c_generation c) else commit_of sd (todo w)
  | None => commit_of sd (todo w)
  end.

(** The minimum of a side while it runs ahead of the active generation. *)
Definition raised (sd : side) (w : wpc) : option Z :=
  match w with
  | WRcu c _ (Some _) | WActive c _ (Some _) => if decide (c_side c = sd) then Some (c_generation c) else None
  | _ => None
  end.

Definition activated (sd : side) (w : wpc) : Prop :=
  match w with WPendCas c _ => c_side c = sd | _ => False end.

Definition writer_pc_ok (s : shared) (w : writer) : Prop :=
  match at_pc w with
  | WPrepReset sd g _ | WPrepPending sd g => active (gens_of s sd) < g /\ commit_of sd (todo w) = Some g
  | WBlock c current | WWait c current | WBegin c current | WBeginCas c current _ | WMinimum c current _ | WRcu c current _
  | WActive c current _ =>
    active (gens_of s (c_side c)) = current /\ current < c_generation c /\ commit_of (c_side c) (todo w) = None
  | WPendCas c _ => active (gens_of s (c_side c)) = c_generation c /\ commit_of (c_side c) (todo w) = None
  | _ => True
  end.

Record gens_inv (s : shared) (w : writer) : Prop := {
  gi_planned : planned (todo w);
  gi_pending : forall sd, pending (gens_of s sd) <> 0 ->
    goal sd w = Some (pending (gens_of s sd)) /\ (active (gens_of s sd) < pending (gens_of s sd) \/ activated sd (at_pc w));
  gi_minimum : forall sd, minimum (gens_of s sd) <= default (active (gens_of s sd)) (raised sd (at_pc w));
  gi_pc : writer_pc_ok s w;
}.

Lemma gens_update s sd f sd' :
  gens_of (update_gens s sd f) sd' = if decide (sd' = sd) then f (gens_of s sd) else gens_of s sd'.
Proof. destruct sd, sd'; done. Qed.

(** A field the update keeps. *)
Lemma gens_update_field {A} (field : gens -> A) s sd f sd' :
  (forall x, field (f x) = field x) -> field (gens_of (update_gens s sd f) sd') = field (gens_of s sd').
Proof. intros Hf. rewrite gens_update. case_decide; subst; [apply Hf|done]. Qed.

Definition same_gens (s s' : shared) : Prop :=
  forall sd, active (gens_of s' sd) = active (gens_of s sd) /\ minimum (gens_of s' sd) = minimum (gens_of s sd)
             /\ pending (gens_of s' sd) = pending (gens_of s sd).

(** Steps that leave the generations and the commit in progress alone. *)
Lemma gens_inv_move s s' l w w' :
  same_gens s s' -> committing w' = committing w -> (forall sd, raised sd w' = raised sd w) ->
  (forall sd, activated sd w -> activated sd w') -> (writer_pc_ok s (Writer l w) -> writer_pc_ok s (Writer l w')) ->
  gens_inv s (Writer l w) -> gens_inv s' (Writer l w').
Proof.
  intros Hg Hc Hr Ha Hp [H1 H2 H3 H4]. constructor; cbn [todo at_pc] in *; [done| | |].
  - intros sd. destruct (Hg sd) as (-> & _ & ->). intros Hn. destruct (H2 sd Hn) as [G D]. split; [|naive_solver].
    unfold goal in *. cbn [at_pc todo] in *. by rewrite Hc.
  - intros sd. destruct (Hg sd) as (-> & -> & _). by rewrite Hr.
  - specialize (Hp H4). clear - Hg Hp. unfold writer_pc_ok in *. cbn [at_pc todo] in *.
    destruct w'; try done; try (destruct (Hg sd) as (-> & _); done); destruct (Hg (c_side c)) as (-> & _); done.
Qed.

Lemma same_gens_refl s : same_gens s s.
Proof. by intros sd. Qed.

Lemma same_gens_eq s s' : policy_gens s' = policy_gens s -> lb_gens s' = lb_gens s -> same_gens s s'.
Proof. intros H1 H2 []; cbn [gens_of]; by rewrite ?H1, ?H2. Qed.

Lemma same_gens_reset s sd b : same_gens s (update_gens s sd (fun x => set_pending_reset x b)).
Proof. intros sd'. rewrite gens_update. case_decide; subst; done. Qed.

#[local] Hint Resolve same_gens_refl same_gens_reset : adaptive.

Lemma start_gens s l k rest s' w' :
  l = k :: rest -> start_task s k = (s', w') -> gens_inv s (Writer l WIdle) -> gens_inv s' (Writer rest w').
Proof.
  intros -> H [Hp Hpend Hmin _]. unfold goal in Hpend. cbn [todo at_pc committing] in *.
  destruct k as [sd g r|e|sd g cfg r]; cbn [start_task planned commit_of] in *; [|injection H as <- <-; destruct Hp; by constructor|].
  - destruct Hp as [Hc Hp]. destruct (Z.leb_spec g (active (gens_of s sd))) as [Hle|Hlt]; injection H as <- <-; by constructor.
  - destruct Hp as [Hc Hp]. destruct (Z.leb_spec g (active (gens_of s sd))) as [Hle|Hlt]; injection H as <- <-; constructor;
      cbn [todo at_pc writer_pc_ok]; try done.
    + intros sd' Hn. unfold goal. cbn [at_pc committing todo]. destruct (Hpend sd' Hn) as [G D]. destruct D as [D|[]]. split; [|by left].
      case_decide as E; [|done]. injection G as Eg. rewrite E in Hle. lia.
Qed.

Lemma writer_gens o s l w s' w' :
  writer_step o s w = (s', w') -> gens_inv s (Writer l w) -> gens_inv s' (Writer l w').
Proof.
  intros H Hi. assert (Hpc := gi_pc _ _ Hi). unfold writer_pc_ok in Hpc. cbn [at_pc todo] in Hpc.
  destruct w; cbn [writer_step] in H; unfold after_claim in H; cbv zeta in H.
  all: try (solve [repeat case_match; injection H as <- <-;
            (refine (gens_inv_move s _ l _ _ _ _ _ _ _ Hi); [auto using same_gens_eq with adaptive|done|done|done|done])]).
  all: destruct Hi as [Hp Hpend Hmin _]; unfold goal in Hpend; cbn [todo at_pc committing] in *.
  - injection H as <- <-. destruct Hpc as [Hlt Hc]. constructor; cbn [todo at_pc writer_pc_ok]; try done.
    + intros sd'. unfold goal. cbn [at_pc committing todo]. rewrite gens_update. case_decide; subst; cbn [set_pending pending active]; auto.
    + intros sd'. rewrite gens_update. specialize (Hmin sd'). case_decide; subst; done.
  - destruct Hpc as (Hact & Hlt & Hc). assert (Hm := Hmin (c_side c)). cbn [raised default] in Hm. rewrite Hact in Hm.
    assert (Hgoal : forall w1, committing w1 = Some c -> (forall sd, activated sd w1 -> False) ->
      (forall sd, raised sd w1 = if decide (c_side c = sd) then Some (c_generation c) else None) ->
      writer_pc_ok s (Writer l w1) -> gens_inv (update_gens s (c_side c) (fun x => set_minimum x (Z.max (minimum x) (c_generation c)))) (Writer l w1)).
    { intros w1 Hw1 _ Hr Hpc1. constructor; cbn [todo at_pc]; [done| | |].
      - intros sd'. unfold goal. cbn [at_pc todo]. rewrite Hw1, !(gens_update_field pending), !(gens_update_field active) by done.
        intros Hn. destruct (Hpend sd' Hn) as [G [D|[]]]. auto.
      - intros sd'. rewrite gens_update, Hr. specialize (Hmin sd'). destruct (decide (c_side c = sd')) as [<-|Hne].
        + rewrite decide_True by done. cbn. lia.
        + by rewrite !decide_False by done.
      - clear - Hpc1. unfold writer_pc_ok in *. cbn [at_pc todo] in *.
        destruct w1; try done; by rewrite (gens_update_field active). }
    injection H as <- <-. destruct (c_config c); apply Hgoal; try done.
  - destruct Hpc as (Hact & Hlt & Hc). destruct (Z.leb_spec (c_generation c) current); [lia|].
    rewrite Hact, Z.eqb_refl in H. injection H as <- <-. constructor; cbn [todo at_pc writer_pc_ok]; [done| | |].
    + intros sd'. unfold goal. cbn [at_pc committing todo activated]. rewrite !(gens_update_field pending) by done.
      intros Hn. destruct (Hpend sd' Hn) as [G [D|[]]]. split; [done|]. rewrite gens_update.
      destruct (decide (sd' = c_side c)) as [->|]; [by right|by left].
    + intros sd'. rewrite gens_update. specialize (Hmin sd'). cbn [raised] in *. destruct (decide (sd' = c_side c)) as [->|Hne].
      * cbn. destruct reset; [rewrite decide_True in Hmin by done|]; cbn in Hmin; lia.
      * destruct reset; [rewrite decide_False in Hmin by done|]; done.
    + unfold writer_pc_ok. cbn [at_pc todo]. by rewrite gens_update, decide_True.
  - destruct Hpc as (Hact & Hc).
    assert (Hz : forall sd, pending (gens_of s sd) <> 0 -> pending (gens_of s (c_side c)) = 0 \/ sd <> c_side c -> commit_of sd l = Some (pending (gens_of s sd)) /\ active (gens_of s sd) < pending (gens_of s sd)).
    { intros sd Hn Hor. destruct (Hpend sd Hn) as [G D]. destruct (decide (c_side c = sd)) as [<-|Hne]; [naive_solver|]. split; [done|].
      cbn [activated] in D. naive_solver. }
    destruct (Z.eqb_spec (pending (gens_of s (c_side c))) (c_generation c)) as [E|E]; injection H as <- <-; constructor;
      cbn [todo at_pc writer_pc_ok]; try done; unfold goal; cbn [at_pc committing todo].
    + intros sd'. rewrite gens_update. case_decide; subst; cbn [set_pending pending active]; [done|]. intros Hn.
      destruct (Hz sd' Hn); auto.
    + intros sd'. rewrite gens_update. specialize (Hmin sd'). case_decide; subst; done.
    + intros sd' Hn. destruct (Hz sd' Hn); [|auto]. destruct (Z.eq_dec (pending (gens_of s (c_side c))) 0) as [|Hp0]; [by left|].
      destruct (Hpend _ Hp0) as [G _]. rewrite decide_True in G by done. injection G as G. lia.
Qed.

(** *** Resets and rotation *)

Definition reset_of (w : wpc) : option AdaptiveConcurrencyResetEpoch :=
  match w with
  | WMinimum _ _ r | WFinish r => Some r
  | WRcu _ _ r | WActive _ _ r | WPendCas _ r | WPendReset _ r | WApply _ r => r
  | _ => None
  end.

(** The minima were raised and the space is not yet replaced. *)
Definition rotating (w : wpc) : bool :=
  match w with
  | WRcu _ _ (Some _) | WActive _ _ (Some _) | WPendCas _ (Some _) | WPendReset _ (Some _) | WApply _ (Some _) => true
  | _ => false
  end.

Record reset_inv (s : shared) (w : wpc) : Prop := {
  ri_word : is_u64 (word s);
  ri_claim : forall r, reset_of w = Some r -> word s = resetting_word r /\ exists observed, is_u64 observed /\ reset_claim observed = Some r;
  ri_born : rotating w = false -> map born (spaces s) !! space s = Some (minimum (policy_gens s), minimum (lb_gens s));
}.

Lemma rotating_resetting s w : reset_inv s w -> is_active (word s) = true -> rotating w = false.
Proof.
  intros [_ Hc _] Ha. destruct (rotating w) eqn:E; [|done]. exfalso.
  assert (Hr : exists r, reset_of w = Some r) by (destruct w; try done; (destruct reset; [by eexists|done])).
  destruct Hr as [r Hr]. destruct (Hc r Hr) as (Hw & obs & Hu & Hcl). destruct (reset_claim_state _ _ Hu Hcl) as (_ & Hn & _).
  rewrite Hw in Ha. congruence.
Qed.

(** Steps that touch none of what it reads. *)
Lemma reset_inv_move s s' w w' :
  word s' = word s -> (forall r, reset_of w' = Some r -> reset_of w = Some r) -> map born (spaces s') = map born (spaces s) -> space s' = space s ->
  (forall sd, minimum (gens_of s' sd) = minimum (gens_of s sd)) -> (rotating w' = false -> rotating w = false) ->
  reset_inv s w -> reset_inv s' w'.
Proof.
  intros Hw Hr Hb Hs Hm Hd [H1 H2 H3]. assert (Hp := Hm PolicySide). assert (Hl := Hm LbSide). cbn [gens_of] in Hp, Hl.
  constructor; rewrite ?Hw, ?Hb, ?Hs, ?Hp, ?Hl; auto.
Qed.

Lemma start_reset s k s' w' : start_task s k = (s', w') -> reset_inv s WIdle -> reset_inv s' w'.
Proof. intros H Hi. destruct k; cbn [start_task] in H; repeat case_match; injection H as <- <-; by refine (reset_inv_move s _ WIdle _ _ _ _ _ _ _ Hi). Qed.

Lemma writer_reset o s l w s' w' :
  writer_step o s w = (s', w') -> gens_inv s (Writer l w) -> reset_inv s w -> reset_inv s' w'.
Proof.
  intros H Hg Hi. assert (Hpc := gi_pc _ _ Hg). unfold writer_pc_ok in Hpc. cbn [at_pc todo] in Hpc.
  assert (Hf : forall sd f, (forall x, minimum (f x) = minimum x) -> forall sd', minimum (gens_of (update_gens s sd f) sd') = minimum (gens_of s sd')).
  { intros sd f Hfx sd'. by apply gens_update_field. }
  destruct w; cbn [writer_step] in H; unfold after_claim in H; cbv zeta in H.
  all: try (solve [repeat case_match; injection H as <- <-; refine (reset_inv_move s _ _ _ _ _ _ _ _ _ Hi); auto; try done; by destruct reset]).
  - destruct (reset_claim observed) as [r|] eqn:E.
    2:{ injection H as <- <-. by refine (reset_inv_move s _ _ _ _ _ _ _ _ _ Hi). }
    destruct (Z.eqb_spec (word s) observed) as [Ew|Ew]; injection H as <- <-.
    2:{ by refine (reset_inv_move s _ _ _ _ _ _ _ _ _ Hi). }
    destruct Hi as [H1 _ H3]. subst observed. destruct (reset_claim_state _ _ H1 E) as (_ & _ & Hu & _).
    constructor; [done| |by intros _; apply H3]. intros r' [= <-]. split; [done|]. by exists (word s).
  - injection H as <- <-. destruct Hi as [H1 H2 _]. constructor; [done|destruct (c_config c); by apply H2|by destruct (c_config c)].
  - destruct Hpc as (Hact & Hlt & _). destruct (Z.leb_spec (c_generation c) current); [lia|].
    rewrite Hact, Z.eqb_refl in H. injection H as <- <-. refine (reset_inv_move s _ _ _ _ _ _ _ _ _ Hi); auto; done.
  - destruct reset as [r|]; [|destruct (c_config c); injection H as <- <-; by refine (reset_inv_move s _ _ _ _ _ _ _ _ _ Hi)].
    injection H as <- <-. destruct Hi as [H1 H2 _]. constructor; [done|by apply H2|]. intros _. cbn [set_spaces spaces space].
    rewrite map_app, lookup_app_r by (by rewrite length_map). by rewrite length_map, Nat.sub_diag.
  - injection H as <- <-. destruct Hi as [_ H2 H3]. destruct (H2 reset eq_refl) as (Hw & obs & Hu & Hc).
    destruct (reset_claim_state _ _ Hu Hc) as (_ & _ & _ & _ & _ & Hfin). constructor; [|done|by intros _; apply H3].
    cbn [set_word word]. by rewrite Hw.
Qed.

(** *** Configurations *)

Definition commit_ok (s : shared) (c : commit) : Prop :=
  match c_side c, c_config c with
  | PolicySide, Some cfg => known s (c_generation c) cfg
  | LbSide, None => True
  | _, _ => False
  end.

Definition task_ok (s : shared) (k : task) : Prop :=
  match k with Commit sd g cfg r => commit_ok s (CommitJob sd g cfg r) | _ => True end.

Definition writer_config_ok (s : shared) (w : wpc) : Prop :=
  match w with
  | WBlock c _ | WWait c _ | WBegin c _ | WBeginCas c _ _ | WMinimum c _ _ | WRcu c _ _ | WActive c _ _ | WPendCas c _
  | WPendReset c _ | WApply c _ => commit_ok s c
  | WScan cfg sp rest => (exists g, known s g cfg) /\ Forall (fun row => (row < length (rows s))%nat) rest
  | WClampLoad cfg sp rest row | WClampCas cfg sp rest row _ =>
    (exists g, known s g cfg) /\ Forall (fun row => (row < length (rows s))%nat) (row :: rest)
  | _ => True
  end.

(** The committed configuration while it runs ahead of the active generation. *)
Definition config_ahead (w : wpc) : option Z :=
  match w with WActive c _ _ => if decide (c_side c = PolicySide) then Some (c_generation c) else None | _ => None end.

Definition latest (s : shared) (w : writer) : option epoch :=
  match stored (todo w) with Some e => Some e | None => published s end.

Record config_inv (s : shared) (w : writer) : Prop := {
  ci_ahead : config_generation s <= default (active (policy_gens s)) (config_ahead (at_pc w));
  ci_tasks : Forall (task_ok s) (todo w);
  ci_pc : writer_config_ok s (at_pc w);
  ci_published : forall e, published s = Some e -> known s (e_generation e) (e_config e);
  ci_latest : match latest s w with
              | Some e => known s (e_generation e) (e_config e) /\ forall k c, known s k c -> 1 <= k <= e_generation e
              | None => configs s = ∅
              end;
}.

Lemma known_positive s w g c : config_inv s w -> known s g c -> 1 <= g.
Proof.
  intros Hi Hk. assert (H := ci_latest _ _ Hi). destruct (latest s w) as [e|]; [apply (proj2 H) in Hk; lia|].
  unfold known in Hk. by rewrite H, lookup_empty in Hk.
Qed.

Lemma grow_commit s s' c : grow s s' -> commit_ok s c -> commit_ok s' c.
Proof. intros Hg. unfold commit_ok. destruct (c_side c), (c_config c); try done. by apply grow_known. Qed.

Lemma grow_task s s' k : grow s s' -> task_ok s k -> task_ok s' k.
Proof. intros Hg. destruct k; try done. by apply grow_commit. Qed.

Lemma grow_writer_config s s' w : grow s s' -> writer_config_ok s w -> writer_config_ok s' w.
Proof.
  intros Hg. assert (Hr := gr_rows _ _ Hg).
  assert (Hc : forall c, commit_ok s c -> commit_ok s' c) by (intros c; by apply grow_commit).
  assert (Hx : forall c, (exists g, known s g c) -> exists g, known s' g c) by (intros c [g ?]; exists g; by eapply grow_known).
  assert (Hf : forall l, Forall (fun row => (row < length (rows s))%nat) l -> Forall (fun row => (row < length (rows s'))%nat) l).
  { intros l Hl. eapply Forall_impl; [exact Hl|]. cbn. lia. }
  destruct w; cbn [writer_config_ok]; auto; intros [? ?]; auto.
Qed.

Lemma space_rows_valid s sp : spaces_ok s -> Forall (fun row => (row < length (rows s))%nat) (space_rows s sp).
Proof.
  intros Hs. unfold space_rows. destruct (spaces s !! sp) as [t|] eqn:E; [|constructor]. apply Forall_forall. intros row Hin.
  apply list_elem_of_fmap in Hin as ([key row'] & -> & Hin). apply elem_of_map_to_list in Hin. by eapply so_rows.
Qed.

(** The writer only adds spaces, and the configuration only moves forward. *)
Lemma writer_grow o s l w s' w' : writer_step o s w = (s', w') -> config_inv s (Writer l w) -> grow s s'.
Proof.
  intros H Hi. assert (Hsame : forall s1, configs s1 = configs s -> active_config s1 = active_config s -> spaces s1 = spaces s ->
    length (rows s1) = length (rows s) -> grow s s1).
  { intros s1 E1 E2 E3 E4. constructor; unfold config_generation; rewrite ?E1, ?E2, ?E3, ?E4; try done.
    intros row g l0 _ Hh sp. rewrite E3. apply Hh. }
  destruct w; cbn [writer_step] in H; unfold after_claim in H; cbv zeta in H.
  all: try (solve [repeat case_match; injection H as <- <-; apply Hsame; try done; cbn; by rewrite ?length_insert]).
  - injection H as <- <-. assert (Hc := ci_pc _ _ Hi). cbn [at_pc writer_config_ok] in Hc. unfold commit_ok in Hc.
    destruct (c_config c) as [cfg|]; [|by apply Hsame]. destruct (c_side c); [|done]. assert (Hp := known_positive _ _ _ _ Hi Hc).
    destruct (active_config s) as [[g c']|] eqn:E.
    + destruct (Z.leb_spec (c_generation c) g); [by apply Hsame|]. constructor; try done.
      unfold config_generation. rewrite E. cbn. lia.
    + constructor; try done. unfold config_generation. rewrite E. cbn. lia.
  - destruct reset as [r|]; [|by destruct (c_config c); injection H as <- <-; apply Hsame]. injection H as <- <-.
    constructor; try done; cbn [set_spaces spaces].
    + rewrite map_app. by apply prefix_app_r.
    + intros row g l0 Hr Hh sp t key Ht Hk. cbn [set_spaces spaces] in Ht. apply lookup_app_Some in Ht as [Ht|[_ Ht]]; [by eapply Hh|].
      apply list_lookup_singleton_Some in Ht as [_ <-]. cbn [empty_space inner] in Hk. by rewrite lookup_empty in Hk.
Qed.

Lemma writer_spaces_ok o s w s' w' : writer_step o s w = (s', w') -> spaces_ok s -> spaces_ok s'.
Proof.
  intros H Hs. assert (Hsame : forall s1, spaces s1 = spaces s -> length (rows s1) = length (rows s) -> spaces_ok s1).
  { intros s1 E1 E2. destruct Hs as [H1 H2 H3]. constructor; rewrite E1, ?E2; auto. }
  destruct w; cbn [writer_step] in H; unfold after_claim in H; cbv zeta in H.
  all: try (solve [repeat case_match; injection H as <- <-; apply Hsame; try done; cbn; by rewrite ?length_insert]).
  destruct reset as [r|]; [|by destruct (c_config c); injection H as <- <-; apply Hsame]. injection H as <- <-.
  assert (Hold : forall sp t key row, (spaces s ++ [empty_space (minimum (policy_gens s), minimum (lb_gens s))]) !! sp = Some t ->
    inner t !! key = Some row -> spaces s !! sp = Some t).
  { intros sp t key row Ht Hk. apply lookup_app_Some in Ht as [Ht|[_ Ht]]; [done|].
    apply list_lookup_singleton_Some in Ht as [_ <-]. cbn [empty_space inner] in Hk. by rewrite lookup_empty in Hk. }
  destruct Hs as [H1 H2 H3]. constructor; cbn [set_spaces spaces rows].
  - intros sp t key row Ht Hk. eapply H1; [by eapply Hold|done].
  - intros sp t key sp' t' key' row Ht Hk Ht' Hk'. eapply (H2 sp t key sp' t' key'); eauto.
  - intros sp t Ht. apply lookup_app_Some in Ht as [Ht|[_ Ht]]; [by eapply H3|].
    apply list_lookup_singleton_Some in Ht as [_ <-]. cbn [empty_space inner tracked_keys]. by rewrite map_size_empty.
Qed.

Lemma writer_minima o s l w s' w' :
  writer_step o s w = (s', w') -> gens_inv s (Writer l w) -> reset_inv s w -> config_inv s (Writer l w) -> minima_ok s -> minima_ok s'.
Proof.
  intros H Hg Hr Hc [H1 H2 H3 H4 H5]. assert (Hpc := gi_pc _ _ Hg). unfold writer_pc_ok in Hpc. cbn [at_pc todo] in Hpc.
  assert (Hgen : forall s1, space s1 = space s -> spaces s1 = spaces s -> active_config s1 = active_config s -> configs s1 = configs s ->
    (forall sd, minimum (gens_of s sd) <= minimum (gens_of s1 sd)) ->
    (forall sd, pending (gens_of s1 sd) <> 0 -> minimum (gens_of s1 sd) <= pending (gens_of s1 sd)) -> minima_ok s1).
  { intros s1 E1 E2 E3 E4 E5 E6. constructor; unfold known in *; rewrite ?E1, ?E2, ?E3, ?E4; auto.
    intros sp b Hb. assert (Ep := E5 PolicySide). assert (El := E5 LbSide). cbn [gens_of] in Ep, El. specialize (H2 sp b Hb). lia. }
  assert (Hsame : forall s1, space s1 = space s -> spaces s1 = spaces s -> active_config s1 = active_config s -> configs s1 = configs s ->
    (forall sd, minimum (gens_of s1 sd) = minimum (gens_of s sd) /\ pending (gens_of s1 sd) = pending (gens_of s sd)) -> minima_ok s1).
  { intros s1 E1 E2 E3 E4 E5. apply Hgen; try done; intros sd; destruct (E5 sd) as [-> Ep]; rewrite ?Ep; [done|apply H3]. }
  assert (Hupd : forall sd f, (forall x, minimum (f x) = minimum x /\ pending (f x) = pending x) ->
    minima_ok (update_gens s sd f)).
  { intros sd f Hf. apply Hsame; try done. intros sd'. split; apply gens_update_field; intros x; apply Hf. }
  destruct w; cbn [writer_step] in H; unfold after_claim in H; cbv zeta in H.
  all: try (solve [repeat case_match; injection H as <- <-; (apply Hupd; done) || (apply Hsame; done)]).
  - injection H as <- <-. destruct Hpc as [Hlt _]. assert (Hm := gi_minimum _ _ Hg sd). cbn in Hm. apply Hgen; try done; intros sd'.
    + by rewrite (gens_update_field minimum).
    + rewrite gens_update. case_decide; subst; [cbn; lia|apply H3].
  - injection H as <- <-. destruct Hpc as (Hact & Hlt & _). assert (Hm := gi_minimum _ _ Hg (c_side c)). cbn in Hm.
    apply Hgen; try done; intros sd'; rewrite gens_update; case_decide; subst; cbn [set_minimum minimum pending]; try (lia || apply H3).
    intros Hn. destruct (gi_pending _ _ Hg _ Hn) as [G _]. unfold goal in G. cbn [at_pc committing] in G.
    rewrite decide_True in G by done. injection G as G. lia.
  - injection H as <- <-. assert (Hk := ci_pc _ _ Hc). cbn [at_pc writer_config_ok] in Hk. unfold commit_ok in Hk.
    destruct (c_config c) as [cfg|]; [|by apply Hsame]. destruct (c_side c); [|done]. destruct (match active_config s with Some _ => _ | None => _ end); [by apply Hsame|].
    constructor; try done. by intros g c' [= <- <-].
  - destruct (_ =? _); injection H as <- <-; [|by constructor]. apply Hgen; try done; intros sd'.
    + by rewrite (gens_update_field minimum).
    + rewrite gens_update. case_decide; subst; [done|apply H3].
  - destruct reset as [r|]; [|destruct (c_config c); injection H as <- <-; by constructor]. injection H as <- <-.
    constructor; try done; cbn [set_spaces space spaces].
    + rewrite length_app. cbn. lia.
    + intros sp b Hb. rewrite map_app in Hb. apply lookup_app_Some in Hb as [Hb|[_ Hb]]; [by apply (H2 sp)|].
      apply list_lookup_singleton_Some in Hb as [_ <-]. cbn.
      destruct (lookup_lt_is_Some_2 (map born (spaces s)) (space s)) as [b Hb]; [by rewrite length_map|]. apply H2 in Hb. lia.
Qed.

Lemma writer_config o s l w s' w' :
  writer_step o s w = (s', w') -> gens_inv s (Writer l w) -> spaces_ok s -> config_inv s (Writer l w) -> config_inv s' (Writer l w').
Proof.
  intros H Hg Hs Hi. assert (Hgr := writer_grow _ _ _ _ _ _ H Hi). assert (Hpc := gi_pc _ _ Hg). unfold writer_pc_ok in Hpc. cbn [at_pc todo] in Hpc.
  destruct Hi as [H1 H2 H3 H4 H5]. cbn [at_pc todo] in *.
  assert (Hmove : published s' = published s -> configs s' = configs s ->
    config_generation s' <= default (active (policy_gens s')) (config_ahead w') -> writer_config_ok s w' -> config_inv s' (Writer l w')).
  { intros E1 E2 Ha Hw. constructor; cbn [at_pc todo]; unfold latest, known in *; cbn [todo] in *; rewrite ?E1, ?E2; auto.
    - eapply Forall_impl; [exact H2|]. intros k. by apply grow_task.
    - by eapply grow_writer_config. }
  assert (Hact : forall sd f, (forall x, active (f x) = active x) -> active (policy_gens (update_gens s sd f)) = active (policy_gens s)).
  { intros sd f Hf. apply (gens_update_field active s sd f PolicySide Hf). }
  assert (Hlb : forall c, commit_ok s c -> c_config c = None -> c_side c = LbSide).
  { intros c Hc E. unfold commit_ok in Hc. rewrite E in Hc. by destruct (c_side c). }
  destruct w; cbn [writer_step] in H; unfold after_claim in H; cbv zeta in H; cbn [config_ahead default writer_config_ok] in *.
  all: try (solve [repeat case_match; injection H as <- <-; apply Hmove; try done; cbn [config_ahead default writer_config_ok];
                   rewrite ?Hact by done; try done; rewrite (Hlb c) by done; done]).
  - destruct Hpc as (Ha & Hlt & _). unfold commit_ok in H3. injection H as <- <-. destruct (c_side c) eqn:Es, (c_config c) as [cfg|] eqn:Ec; try done.
    + cbn [gens_of] in Ha. assert (Hle : config_generation s <= c_generation c) by (unfold config_generation in *; lia).
      destruct (match active_config s with Some _ => _ | None => _ end); apply Hmove; try done;
        cbn [config_ahead writer_config_ok]; unfold commit_ok; rewrite ?Es, ?Ec, ?decide_True by done; try done; unfold config_generation; cbn; lia.
    + apply Hmove; try done; cbn [config_ahead writer_config_ok]; unfold commit_ok; by rewrite Es, ?Ec.
  - destruct Hpc as (Ha & Hlt & _). destruct (Z.leb_spec (c_generation c) current); [lia|].
    rewrite Ha, Z.eqb_refl in H. injection H as <- <-. apply Hmove; try done; cbn [config_ahead default writer_config_ok].
    change (config_generation (update_gens _ _ _)) with (config_generation s).
    change (config_generation s <= active (gens_of (update_gens s (c_side c) (fun x => set_active x (c_generation c))) PolicySide)).
    rewrite gens_update. destruct (decide (c_side c = PolicySide)) as [Es|Es].
    + by rewrite decide_True.
    + by rewrite decide_False.
  - destruct reset as [r|]; [injection H as <- <-; by apply Hmove|]. destruct (c_config c) as [cfg|] eqn:E; injection H as <- <-; [|by apply Hmove].
    apply Hmove; try done. split; [|by apply space_rows_valid]. unfold commit_ok in H3. rewrite E in H3. destruct (c_side c); [|done]. by eexists.
  - injection H as <- <-. destruct H3 as [Hk Hf]. apply Hmove; try done; [by repeat case_match|].
    destruct (extra o ≫= _) as [row|] eqn:E.
    + split; [done|]. constructor; [|done]. apply bind_Some in E as (key & _ & E). apply bind_Some in E as (t & Ht & E). by eapply so_rows.
    + by destruct rest.
  - injection H as <- <-. destruct H3 as [Hk Hf]. apply Hmove; try done; [by case_match|]. case_match; [done|]. split; [done|]. by inversion Hf.
  - destruct H3 as [Hk Hf]. assert (Hf' := Forall_inv_tail Hf).
    repeat case_match; injection H as <- <-; apply Hmove; try done.
Qed.

Lemma start_config s k rest s' w' :
  start_task s k = (s', w') -> stored rest = None \/ (forall e, k <> StoreEpoch e) ->
  config_inv s (Writer (k :: rest) WIdle) -> config_inv s' (Writer rest w').
Proof.
  intros H Hst [H1 H2 H3 H4 H5]. cbn [at_pc todo config_ahead default] in *. apply Forall_cons in H2 as [Hk H2]. unfold latest in H5. cbn [todo] in H5.
  destruct k as [sd g r|e|sd g cfg r]; cbn [start_task stored task_ok] in *.
  - injection H as <- <-. constructor; unfold latest; cbn [at_pc todo]; try done; by destruct (_ <=? _).
  - injection H as <- <-. destruct H5 as [Hke Hall]. constructor; cbn [at_pc todo]; try done.
    + by intros e' [= <-].
    + unfold latest. cbn [todo]. destruct Hst as [-> | Hn]; [done|]. by destruct (Hn e).
  - injection H as <- <-. constructor; unfold latest; cbn [at_pc todo]; try done; by destruct (_ <=? _).
Qed.

Lemma start_shared s k s' w' : start_task s k = (s', w') -> s' = s \/ exists e, s' = set_published s e.
Proof. intros H. destruct k; cbn [start_task] in H; injection H as <- _; eauto. Qed.

(** ** The whole system *)

Record inv (x : sys) : Prop := {
  i_minima : minima_ok (sh x);
  i_spaces : spaces_ok (sh x);
  i_gens : gens_inv (sh x) (wr x);
  i_reset : reset_inv (sh x) (at_pc (wr x));
  i_config : config_inv (sh x) (wr x);
  i_threads : forall i t, threads x !! i = Some t -> pc_ok (sh x) t;
  i_slots : forall c, in_flight (row_at (sh x) c) = number (holds c) (threads x);
  i_progress : feedback_in_progress (sh x) = number inside (threads x);
  i_few : Z.of_nat (length (threads x)) < umax 64;
}.

Lemma inv_blocked s ths w b b1 b2 : inv (Sys s ths w b1) -> inv (Sys (set_blocked s b) ths w b2).
Proof.
  intros [[? ? H3 ? ?] [? ? ?] [? H7 H8 H9] [? ? ?] [? ? ? ? ?] H10 H11 H12 H13].
  constructor; try done; constructor; try done.
Qed.

Lemma pc_ok_row s t : pc_ok s t -> row_valid s t.
Proof.
  intros Ht c Hc. destruct t; cbn [row_of] in Hc; try done; injection Hc as <-; cbn [pc_ok] in Ht; unfold admitting, permit_ok, row_ok in Ht; naive_solver.
Qed.

Lemma inv_ready x i t : inv x -> threads x !! i = Some t -> slot_ready (sh x) t.
Proof.
  intros Hi Ht c _. rewrite (i_slots _ Hi). assert (H := number_bounds (holds c) (threads x)). assert (Hf := i_few _ Hi). split; [|lia].
  destruct (holds c t) eqn:E; cbn [Z.b2z]; [|lia]. by eapply number_pos.
Qed.

Lemma inv_thread x i o t s' t' :
  inv x -> threads x !! i = Some t -> thread_step o (sh x) t = (s', t') -> inv (Sys s' (<[i := t']> (threads x)) (wr x) (buffered x)).
Proof.
  intros Hi Ht H. assert (Hg := thread_grow _ _ _ _ _ H). assert (F := thread_frame o (sh x) t). rewrite H in F. cbn [fst] in F.
  assert (Hpc := i_threads _ Hi _ _ Ht). constructor; cbn [sh threads wr buffered].
  - eapply thread_minima; [exact H|apply Hi].
  - apply (thread_home _ _ _ _ _ H), Hi.
  - assert (Hgi := i_gens _ Hi). destruct (wr x) as [l w]. refine (gens_inv_move (sh x) _ l w w _ _ _ _ _ Hgi); try done.
    apply same_gens_eq; apply F.
  - refine (reset_inv_move (sh x) _ _ _ _ _ _ _ _ _ (i_reset _ Hi)); try apply F; try done.
    intros []; cbn [gens_of]; by rewrite ?(fr_policy _ _ F), ?(fr_lb _ _ F).
  - destruct (i_config _ Hi) as [C1 C2 C3 C4 C5]. constructor; unfold latest, known, config_generation in *;
      rewrite ?(fr_config _ _ F), ?(fr_policy _ _ F), ?(fr_published _ _ F), ?(fr_configs _ _ F); auto.
    + eapply Forall_impl; [exact C2|]. intros k. by apply grow_task.
    + by eapply grow_writer_config.
  - intros j u Hu. apply list_lookup_insert_Some in Hu as [(_ & <- & _)|[_ Hu]].
    + eapply thread_pc_ok; [exact H|apply Hi|apply Hi|done].
    + eapply adaptive_pc_ok_stable; [done|]. by apply (i_threads _ Hi j).
  - intros c. rewrite (number_insert _ _ _ t) by done.
    rewrite (thread_slots _ _ _ _ _ H (pc_ok_row _ _ Hpc) (inv_ready _ _ _ Hi Ht) c), (i_slots _ Hi). lia.
  - rewrite (number_insert _ _ _ t) by done. rewrite (thread_in_progress _ _ _ _ _ H), (i_progress _ Hi); [lia|].
    assert (Hb := number_bounds inside (threads x)). rewrite (i_progress _ Hi). assert (Hf := i_few _ Hi). split; [|lia].
    destruct (inside t) eqn:E; cbn [Z.b2z]; [|lia]. by eapply number_pos.
  - rewrite length_insert. apply Hi.
Qed.

Lemma in_flight_put s c n c' : in_flight (row_at (put_row s c (with_limit (row_at s c) n)) c') = in_flight (row_at s c').
Proof.
  destruct (decide (c < length (rows s))%nat) as [Hc|Hc].
  - rewrite row_at_put by done. by case_decide; subst.
  - unfold row_at, put_row. cbn [set_rows rows]. by rewrite list_insert_ge by lia.
Qed.

Lemma writer_rows o s w s' w' : writer_step o s w = (s', w') ->
  (forall c, in_flight (row_at s' c) = in_flight (row_at s c)) /\ feedback_in_progress s' = feedback_in_progress s.
Proof.
  intros H. destruct w; cbn [writer_step] in H; cbv zeta in H; repeat case_match; injection H as <- <-; try done; by split; [intros; apply in_flight_put|].
Qed.

Lemma inv_writer x o l w s' w' b :
  inv x -> wr x = Writer l w -> writer_step o (sh x) w = (s', w') -> inv (Sys s' (threads x) (Writer l w') b).
Proof.
  intros [H1 H2 H3 H4 H5 H6 H7 H8 H9] Hw H. rewrite Hw in H3, H4, H5. cbn [at_pc] in H4. destruct (writer_rows _ _ _ _ _ H) as [R1 R2].
  constructor; cbn [sh threads wr at_pc].
  - by eapply writer_minima.
  - by eapply writer_spaces_ok.
  - by eapply writer_gens.
  - by eapply writer_reset.
  - by eapply writer_config.
  - intros i t Ht. eapply adaptive_pc_ok_stable; [by eapply writer_grow|by eapply H6].
  - intros c. by rewrite R1.
  - by rewrite R2.
  - done.
Qed.

Lemma inv_start x k rest s' w' :
  inv x -> wr x = Writer (k :: rest) WIdle -> start_task (sh x) k = (s', w') -> inv (Sys s' (threads x) (Writer rest w') (buffered x)).
Proof.
  intros [H1 H2 H3 H4 H5 H6 H7 H8 H9] Hw H. rewrite Hw in H3, H4, H5. cbn [at_pc] in H4.
  assert (Hst : stored rest = None \/ forall e, k <> StoreEpoch e).
  { destruct k; try (by right). left. apply (gi_planned _ _ H3). }
  assert (Hpub : forall e, spaces_ok (set_published (sh x) e) /\ minima_ok (set_published (sh x) e)
    /\ forall i t, threads x !! i = Some t -> pc_ok (set_published (sh x) e) t).
  { intros e. split_and!; [destruct H2; by constructor|destruct H1; by constructor|]. intros i t Ht. by apply (adaptive_pc_ok_stable (sh x)), (H6 i). }
  constructor; cbn [sh threads wr at_pc]; try done; try (by eapply start_gens); try (by eapply start_reset); try (by eapply start_config).
  all: destruct (start_shared _ _ _ _ H) as [-> | [e ->]]; try done; by apply Hpub.
Qed.

Lemma adaptive_inv_spawn x p t e :
  inv x -> published (sh x) = Some e -> Z.of_nat (S (length (threads x))) < umax 64 ->
  inv (Sys (sh x) (threads x ++ [RPin (Request p t (e_config e) (e_generation e) (e_lb_generation e))]) (wr x) (buffered x)).
Proof.
  intros [H1 H2 H3 H4 H5 H6 H7 H8 H9] He Hn. constructor; cbn [sh threads wr at_pc]; try done.
  - intros i u Hu. apply lookup_app_Some in Hu as [Hu|[_ Hu]]; [by eapply H6|]. apply list_lookup_singleton_Some in Hu as [_ <-].
    by apply (ci_published _ _ H5).
  - intros c. rewrite H7, number_app. cbn. lia.
  - rewrite H8, number_app. cbn. lia.
  - rewrite length_app. cbn. lia.
Qed.

(** What a plan publishes extends the known configurations. *)
Lemma plan_ok s j e tasks :
  plan s j = Some (e, tasks) -> config_inv s (Writer [] WIdle) ->
  planned tasks /\ stored tasks = Some e
  /\ (forall c, known s (e_generation e) c -> c = e_config e)
  /\ (forall k c, known s k c -> 1 <= k <= e_generation e) /\ 1 <= e_generation e
  /\ (forall s1, known s1 (e_generation e) (e_config e) -> Forall (task_ok s1) tasks).
Proof.
  intros H [_ _ _ Hp Hl]. unfold latest in Hl. cbn [todo stored] in Hl. unfold plan in H.
  destruct (published s) as [e0|] eqn:E; destruct j as [cfg l lr|policy lb|lr]; try done.
  - destruct (default (e_config e0, false) policy) as [cfg reset] eqn:Ed.
    destruct (match policy with Some _ => _ | None => _ end) as [g|] eqn:Eg; [|done].
    destruct (match lb with Some _ => _ | None => _ end) as [l|]; [|done]. cbn [mbind option_bind] in H. injection H as <- <-.
    destruct Hl as [Hk0 Hall]. destruct (Hall _ _ Hk0) as [Hpos _]. cbn [e_generation e_config].
    split_and!; try done.
    + destruct policy as [[cfg' r']|].
      * unfold bumped, checked_add in Eg. destruct (_ <=? _); [|done]. injection Eg as <-. intros c Hc. apply Hall in Hc. lia.
      * injection Eg as <-. injection Ed as <- _. intros c Hc. unfold known in *. congruence.
    + intros k c Hc. apply Hall in Hc. destruct policy; [|injection Eg as <-; lia].
      unfold bumped, checked_add in Eg. destruct (_ <=? _); [|done]. injection Eg as <-. lia.
    + destruct policy; [|injection Eg as <-; lia]. unfold bumped, checked_add in Eg. destruct (_ <=? _); [|done]. injection Eg as <-. lia.
    + intros s1 Hs1. by repeat constructor.
  - destruct (bumped (e_lb_generation e0)) as [l|]; [|done]. cbn [mbind option_bind] in H. injection H as <- <-.
    destruct Hl as [Hk0 Hall]. destruct (Hall _ _ Hk0) as [Hpos _]. cbn [e_generation e_config]. split_and!; try done.
    + intros c Hc. unfold known in *. congruence.
    + intros s1 Hs1. by repeat constructor.
  - injection H as <- <-. cbn [e_generation e_config]. split_and!; try done.
    + intros c Hc. unfold known in Hc. by rewrite Hl, lookup_empty in Hc.
    + intros k c Hc. unfold known in Hc. by rewrite Hl, lookup_empty in Hc.
    + intros s1 Hs1. by repeat constructor.
Qed.

Lemma inv_publish x j e tasks :
  inv x -> wr x = Writer [] WIdle -> plan (sh x) j = Some (e, tasks) -> allowed (e_config e) = true ->
  inv (Sys (set_configs (sh x) (<[e_generation e := e_config e]> (configs (sh x)))) (threads x) (Writer tasks WIdle) (buffered x)).
Proof.
  intros [H1 H2 H3 H4 H5 H6 H7 H8 H9] Hw Hp Ha. rewrite Hw in H3, H4, H5. cbn [at_pc] in H4.
  destruct (plan_ok _ _ _ _ Hp H5) as (Hplan & Hst & Hsame & Hbelow & Hpos & Htask).
  set (s' := set_configs (sh x) _).
  assert (Hnew : known s' (e_generation e) (e_config e)) by (unfold known; cbn; by rewrite lookup_insert, decide_True).
  assert (Hback : forall k c, known s' k c -> (k = e_generation e /\ c = e_config e) \/ known (sh x) k c).
  { intros k c Hk. unfold known in *. cbn in Hk. apply lookup_insert_Some in Hk as [[<- <-]|[_ Hk]]; auto. }
  assert (Hsub : configs (sh x) ⊆ configs s').
  { apply map_subseteq_spec. intros k c Hk. cbn. rewrite lookup_insert. case_decide as E; [|done]. subst k. f_equal. symmetry. by apply Hsame. }
  assert (Hg : grow (sh x) s') by (constructor; try done).
  assert (Hpend : forall sd, pending (gens_of (sh x) sd) = 0).
  { intros sd. destruct (Z.eq_dec (pending (gens_of (sh x) sd)) 0) as [|Hn]; [done|]. destruct (gi_pending _ _ H3 sd Hn) as [G _]. done. }
  constructor; cbn [sh threads wr at_pc]; try done.
  - destruct H1 as [M1 M2 M3 M4 M5]. constructor; try done.
    + intros g c Hc. by apply (grow_known (sh x)), M4.
    + intros g c Hc. destruct (Hback g c Hc) as [[_ ->]|]; [done|by eapply M5].
  - destruct H2; by constructor.
  - destruct H3 as [_ _ G3 _]. constructor; try done. intros sd. change (gens_of s' sd) with (gens_of (sh x) sd). by rewrite Hpend.
  - destruct H4; by constructor.
  - destruct H5 as [C1 _ _ C4 C5]. constructor; cbn [at_pc todo]; try done.
    + by apply Htask.
    + intros e' He'. by apply (grow_known (sh x)), C4.
    + unfold latest. cbn [todo]. rewrite Hst. split; [done|]. intros k c Hk. destruct (Hback k c Hk) as [[-> _]|Hk']; [lia|by eapply Hbelow].
  - intros i t Ht. by apply (adaptive_pc_ok_stable (sh x)), (H6 i).
Qed.

Lemma adaptive_inv_initial : inv initial.
Proof.
  constructor; cbn.
  - constructor; cbn.
    + lia.
    + intros [|sp] b Hb; [injection Hb as <-; cbn; lia|by destruct sp].
    + by intros [].
    + done.
    + intros g c Hc. unfold known in Hc. cbn in Hc. by rewrite lookup_empty in Hc.
  - assert (He : forall sp t, [empty_space (1, 1)] !! sp = Some t -> t = empty_space (1, 1)).
    { intros [|sp] t Ht; [by injection Ht as <-|by destruct sp]. }
    constructor; cbn.
    + intros sp t key row Ht Hk. rewrite (He _ _ Ht) in Hk. cbn in Hk. by rewrite lookup_empty in Hk.
    + intros sp t key sp' t' key' row Ht Hk. rewrite (He _ _ Ht) in Hk. cbn in Hk. by rewrite lookup_empty in Hk.
    + intros sp t Ht. rewrite (He _ _ Ht). cbn. by rewrite map_size_empty.
  - constructor; cbn; [done| |intros []; cbn; lia|done]. by intros [].
  - constructor; cbn; [split; vm_compute; done|done|done].
  - by constructor.
  - done.
  - intros c. unfold row_at. cbn. by rewrite lookup_nil.
  - done.
  - vm_compute. done.
Qed.

Section reachability.
Context (tso : bool).

Lemma adaptive_inv_exec x k x' : inv x -> exec tso allowed x k = Some x' -> inv x'.
Proof.
  intros Hi H. destruct k as [p t|i o|j|o|]; cbn [exec] in H.
  - destruct (published (sh x)) as [e|] eqn:E; [|done]. destruct (Z.ltb_spec (Z.of_nat (S (length (threads x)))) (umax 64)); [|done].
    injection H as <-. by apply adaptive_inv_spawn.
  - destruct (threads x !! i) as [t|] eqn:E; [|done]. destruct (thread_step o (sh x) t) as [s' t'] eqn:Es. injection H as <-.
    by eapply inv_thread.
  - destruct (wr x) as [l w] eqn:Ew. cbn [todo at_pc] in H. destruct l; [|done]. destruct w; try done.
    destruct (plan (sh x) j) as [[e tasks]|] eqn:Ep; [|done]. destruct (allowed (e_config e)) eqn:Ea; [|done]. injection H as <-.
    by eapply inv_publish.
  - destruct (wr x) as [l w] eqn:Ew. cbn [todo at_pc] in H.
    assert (Hstep : forall s' w' b, writer_step o (sh x) w = (s', w') -> inv (Sys s' (threads x) (Writer l w') b)).
    { intros s' w' b Hs. by eapply inv_writer. }
    destruct w; try (destruct (buffered x); [done|]; destruct (writer_step o (sh x) _) as [s' w'] eqn:Es; injection H as <-; by apply Hstep).
    + destruct l as [|k rest]; [done|]. destruct (start_task (sh x) k) as [s' w'] eqn:Es. injection H as <-. by eapply inv_start.
    + destruct tso; [|destruct (writer_step o (sh x) _) as [s' w'] eqn:Es; injection H as <-; by apply Hstep].
      injection H as <-. specialize (Hstep _ _ true eq_refl). apply (inv_blocked _ _ _ (feedback_blocked (sh x)) _ true) in Hstep.
      by destruct x as [[]].
    + destruct (writer_step o (sh x) _) as [s' w'] eqn:Es; injection H as <-; by apply Hstep.
  - destruct (buffered x); [|done]. injection H as <-. destruct x as [s ths w b]. by eapply inv_blocked.
Qed.

Lemma adaptive_reachable_inv x : reachable tso allowed x -> inv x.
Proof. induction 1 as [|x k x' _ IH H]; [apply adaptive_inv_initial|by eapply adaptive_inv_exec]. Qed.
End reachability.

(** ** Feedback against commits *)

(** Past the second look at [feedback_blocked]. *)
Definition guarded (t : pc) : bool :=
  match t with RFeedback _ _ SBlockedAgain | RFeedback _ _ SBack => false | _ => inside t end.

(** Past the barrier of a commit, until it is lifted. *)
Definition critical (w : wpc) : bool :=
  match w with
  | WIdle | WPrepReset _ _ _ | WPrepPending _ _ | WBlock _ _ | WWait _ _ => false
  | _ => true
  end.

Definition live_policy (s : shared) (p : permit) : Prop :=
  p_generation p = active (policy_gens s) \/ p_generation p = pending (policy_gens s).
Definition live_lb (s : shared) (p : permit) : Prop :=
  p_lb_generation p = active (lb_gens s) \/ p_lb_generation p = pending (lb_gens s).

(** Nothing but the row of a permit is touched before its generations were found
    live under the guard. *)
Definition training_ok (s : shared) (t : pc) : Prop :=
  match t with
  | RFeedback _ _ (SCheckAgain FkActive) | RFeedback _ _ (SCheckAgain FkPending) => True
  | RFeedback p _ (SCheckAgain (FkLbActive c)) | RFeedback p _ (SCheckAgain (FkLbPending c)) => c = true -> live_policy s p
  | RFeedback p _ _ => guarded t = true -> live_policy s p /\ live_lb s p
  | _ => True
  end.

Record exclusion (x : sys) : Prop := {
  ex_buffer : buffered x = false;
  ex_blocked : forall c current, at_pc (wr x) = WWait c current \/ critical (at_pc (wr x)) = true -> feedback_blocked (sh x) = true;
  ex_critical : critical (at_pc (wr x)) = true -> forall i t, threads x !! i = Some t -> guarded t = false;
  ex_training : forall i t, threads x !! i = Some t -> training_ok (sh x) t;
}.

Lemma training_same s s' t : same_gens s s' -> training_ok s t -> training_ok s' t.
Proof.
  intros Hs. destruct (Hs PolicySide) as (E1 & _ & E2), (Hs LbSide) as (E3 & _ & E4). cbn [gens_of] in *.
  unfold training_ok, live_policy, live_lb. by rewrite E1, E2, E3, E4.
Qed.

Lemma unguarded_training s t : guarded t = false -> training_ok s t.
Proof. intros Hg. destruct t; try done. destruct st as [| | | |[]| | | | | | | | | | | | | | | | |]; cbn in *; try done; congruence. Qed.

Lemma thread_guarded o s t s' t' : thread_step o s t = (s', t') -> feedback_blocked s = true -> guarded t = false -> guarded t' = false.
Proof.
  intros H Hb Hg. destruct t; cbn [thread_step] in H; unfold entry_step in H; cbv zeta in H; try (repeat case_match; injection H as <- <-; done).
  destruct st; cbn [feedback_step] in H; cbv zeta in H; try done; repeat case_match; injection H as <- <-; try done; congruence.
Qed.

Lemma fcheck_training s p r k :
  training_ok s (RFeedback p r (SCheckAgain k)) ->
  match fcheck_step s (p_generation p) (p_lb_generation p) k with
  | FContinue k' => training_ok s (RFeedback p r (SCheckAgain k'))
  | FVerdict true => live_policy s p /\ live_lb s p
  | FVerdict false => True
  end.
Proof.
  unfold live_policy, live_lb. destruct k as [| |c|c]; cbn [fcheck_step training_ok]; unfold live_policy.
  - destruct (Z.eqb_spec (active (policy_gens s)) (p_generation p)); cbn [training_ok]; unfold live_policy; auto.
  - cbn [training_ok]. unfold live_policy. intros _ E%Z.eqb_eq. auto.
  - intros Hc. destruct (Z.eqb_spec (active (lb_gens s)) (p_lb_generation p)); [|done]. destruct c; auto.
  - intros Hc. destruct c; cbn [andb]; [|done]. destruct (Z.eqb_spec (pending (lb_gens s)) (p_lb_generation p)); auto.
Qed.

Lemma thread_training o s t s' t' : thread_step o s t = (s', t') -> training_ok s t -> training_ok s' t'.
Proof.
  intros H Ht. assert (F := thread_frame o s t). rewrite H in F. cbn [fst] in F.
  apply (training_same s); [apply same_gens_eq; apply F|]. clear F.
  destruct t; cbn [thread_step] in H; unfold entry_step in H; cbv zeta in H; try (repeat case_match; injection H as <- <-; done).
  destruct st; cbn [feedback_step] in H; unfold dec_turn, min_turn in H; cbv zeta in H;
    try (repeat case_match; injection H as <- <-; first [done|intros _; by apply Ht]).
  apply fcheck_training in Ht. destruct (fcheck_step _ _ _ k) as [k'|[]]; injection H as <- <-; try done.
  unfold classified. destruct (client_side_no_backend_signal _); [by intros _; apply Ht|].
  by destruct (_ || _); intros _; apply Ht.
Qed.

(** Outside its critical section the writer changes no live generation. *)
Lemma writer_training o s l w s' w' t :
  writer_step o s w = (s', w') -> gens_inv s (Writer l w) -> config_inv s (Writer l w) -> pc_ok s t -> critical w = false ->
  training_ok s t -> training_ok s' t.
Proof.
  intros H Hg Hc Hpc Hw Ht. destruct w; cbn [writer_step] in H; cbv zeta in H; try done; injection H as <- <-; try done.
  - eapply training_same; [apply same_gens_reset|done].
  - destruct (gi_pc _ _ Hg) as [_ Hcommit]. cbn [todo] in Hcommit.
    assert (Hold : pending (gens_of s sd) <> 0 -> pending (gens_of s sd) = generation).
    { intros Hn. destruct (gi_pending _ _ Hg sd Hn) as [G _]. unfold goal in G. cbn [at_pc committing todo] in G. congruence. }
    assert (Hlive : forall g, 1 <= g -> g = active (gens_of s sd) \/ g = pending (gens_of s sd) ->
      g = active (set_pending (gens_of s sd) generation) \/ g = pending (set_pending (gens_of s sd) generation)).
    { intros g Hpos [-> | ->]; cbn; [by left|]. right. apply Hold. lia. }
    destruct t; try done. destruct Hpc as [(_ & _ & Hg1 & Hl1) _].
    assert (Hpol : live_policy s p -> live_policy (update_gens s sd (fun x => set_pending x generation)) p).
    { unfold live_policy. destruct sd; [|done]. by apply Hlive. }
    assert (Hlbl : live_lb s p -> live_lb (update_gens s sd (fun x => set_pending x generation)) p).
    { unfold live_lb. destruct sd; [done|]. by apply Hlive. }
    destruct st as [| | | |[]| | | | | | | | | | | | | | | | |]; cbn [training_ok] in *; try done; intros Hx; try (by apply Hpol, Ht);
      destruct (Ht Hx); auto.
Qed.

(** Inside the critical section feedback stays blocked. *)
Lemma critical_step o s w s' w' :
  writer_step o s w = (s', w') -> critical w = true -> critical w' = true -> feedback_blocked s' = feedback_blocked s.
Proof.
  intros H Hw Hw'. destruct w; cbn [writer_step] in H; unfold after_claim in H; cbv zeta in H; try done; repeat case_match; injection H as <- <-; try done;
    by destruct (c_side c).
Qed.

Lemma critical_never_waits o s w s' w' c current : writer_step o s w = (s', w') -> critical w = true -> w' <> WWait c current.
Proof.
  intros H Hw. destruct w; cbn [writer_step] in H; unfold after_claim in H; cbv zeta in H; try done; repeat case_match; injection H as <- <-; done.
Qed.

Lemma exclusion_writer x o l w s' w' :
  inv x -> exclusion x -> wr x = Writer l w -> writer_step o (sh x) w = (s', w') ->
  exclusion (Sys s' (threads x) (Writer l w') (buffered x)).
Proof.
  intros Hi [E1 E2 E3 E4] Hw H. rewrite Hw in E2, E3. cbn [at_pc] in E2, E3.
  assert (Hg := i_gens _ Hi). assert (Hc := i_config _ Hi). rewrite Hw in Hg, Hc.
  destruct (critical w) eqn:Ecr.
  - assert (Hb : feedback_blocked (sh x) = true) by (apply (E2 (CommitJob LbSide 0 None false) 0); by right).
    constructor; cbn [sh threads wr at_pc buffered]; [done| |intros _; by apply E3|].
    + intros c current [Hx|Hx]; [by eapply critical_never_waits in Hx|]. by rewrite (critical_step _ _ _ _ _ H).
    + intros i t Ht. apply unguarded_training. by apply (E3 eq_refl i).
  - constructor; cbn [sh threads wr at_pc buffered]; [done| | |].
    + intros c current Hx. destruct w; try done; cbn [writer_step] in H; injection H as <- <-; try (by destruct Hx).
      by apply (E2 _ _ (or_introl eq_refl)).
    + intros Hx i t Ht. destruct w; try done; cbn [writer_step] in H; injection H as <- <-; try done.
      destruct (Z.eqb_spec (feedback_in_progress (sh x)) 0) as [Ez|]; [|done]. rewrite (i_progress _ Hi) in Ez.
      assert (Hin := number_zero inside _ _ _ Ez Ht). destruct t; try done. by destruct st.
    + intros i t Ht. eapply writer_training; [exact H|exact Hg|exact Hc|by apply (i_threads _ Hi i)|done|by apply (E4 i)].
Qed.

Lemma exclusion_exec x k x' : inv x -> exclusion x -> exec false allowed x k = Some x' -> exclusion x'.
Proof.
  intros Hi He H. assert (He' := He). destruct He' as [E1 E2 E3 E4]. destruct k as [p t|i o|j|o|]; cbn [exec] in H.
  - destruct (published (sh x)) as [e|]; [|done]. destruct (_ <? _); [|done]. injection H as <-. constructor; cbn [sh threads wr buffered]; try done.
    + intros Hx i u Hu. apply lookup_app_Some in Hu as [Hu|[_ Hu]]; [by apply (E3 Hx i)|]. by apply list_lookup_singleton_Some in Hu as [_ <-].
    + intros i u Hu. apply lookup_app_Some in Hu as [Hu|[_ Hu]]; [by apply (E4 i)|]. by apply list_lookup_singleton_Some in Hu as [_ <-].
  - destruct (threads x !! i) as [t|] eqn:Et; [|done]. destruct (thread_step o (sh x) t) as [s' t'] eqn:Es. injection H as <-.
    assert (F := thread_frame o (sh x) t). rewrite Es in F. cbn [fst] in F.
    constructor; cbn [sh threads wr buffered]; [done|by rewrite (fr_blocked _ _ F)| |].
    + intros Hx j u Hu. apply list_lookup_insert_Some in Hu as [(_ & <- & _)|[_ Hu]]; [|by apply (E3 Hx j)].
      eapply thread_guarded; [exact Es| |by apply (E3 Hx i)]. apply (E2 (CommitJob LbSide 0 None false) 0). by right.
    + intros j u Hu. apply list_lookup_insert_Some in Hu as [(_ & <- & _)|[_ Hu]].
      * eapply thread_training; [exact Es|by apply (E4 i)].
      * apply (training_same (sh x)); [apply same_gens_eq; apply F|by apply (E4 j)].
  - destruct (wr x) as [l w] eqn:Ew. cbn [todo at_pc] in H. destruct l; [|done]. destruct w; try done.
    destruct (plan (sh x) j) as [[e tasks]|]; [|done]. destruct (allowed (e_config e)); [|done]. injection H as <-.
    by constructor.
  - destruct (wr x) as [l w] eqn:Ew. cbn [todo at_pc] in H. rewrite E1 in H.
    assert (Hstep : forall s' w', writer_step o (sh x) w = (s', w') -> exclusion (Sys s' (threads x) (Writer l w') false)).
    { intros s' w' Hs. rewrite <- E1. by eapply exclusion_writer. }
    destruct w; try (destruct (writer_step o (sh x) _) as [s' w'] eqn:Es; injection H as <-; by apply Hstep).
    destruct l as [|k rest]; [done|]. destruct (start_task (sh x) k) as [s' w'] eqn:Es. injection H as <-.
    assert (Hw : critical w' = false /\ forall c current, w' <> WWait c current).
    { destruct k; cbn [start_task] in Es; repeat case_match; injection Es as <- <-; done. }
    destruct Hw as [Hw1 Hw2]. constructor; cbn [sh threads wr buffered at_pc]; [done| |congruence|].
    + intros c current [Hx|Hx]; [by apply Hw2 in Hx|congruence].
    + intros i t Ht. destruct (start_shared _ _ _ _ Es) as [-> | [e ->]]; by apply (E4 i).
  - by rewrite E1 in H.
Qed.

Lemma exclusion_initial : exclusion initial.
Proof. constructor; try done. by intros c current []. Qed.

Lemma reachable_exclusion x : reachable false allowed x -> inv x /\ exclusion x.
Proof.
  induction 1 as [|x k x' Hr IH H]; [split; [apply adaptive_inv_initial|apply exclusion_initial]|]. destruct IH as [Hi He].
  split; [by eapply adaptive_inv_exec|by eapply exclusion_exec].
Qed.
End inv.

(** ** The theorems *)

Definition finished (t : pc) : Prop := match t with RRefused _ | RDropped => True | _ => False end.

(** C28. Slots never leak: in every interleaving of admissions, rollbacks, feedback,
    drops and reloads, the in-flight count of every row is exactly the number of
    permits and provisional admissions on it, the count of running feedback
    callbacks is exact, every tracking space counts its keys exactly, and once all
    requests have finished every row is back at zero. *)
Theorem adaptive_slots_exact (tso : bool) (allowed : AdaptiveConcurrencyConfig -> bool) (x : sys) :
  (forall c, allowed c = true -> config_ok c) -> reachable tso allowed x ->
  (forall c a, rows (sh x) !! c = Some a -> in_flight a = number (holds c) (threads x))
  /\ feedback_in_progress (sh x) = number inside (threads x)
  /\ (forall t, t ∈ spaces (sh x) -> tracked_keys t = Z.of_nat (size (inner t)))
  /\ (Forall finished (threads x) -> Forall (fun a => in_flight a = 0) (rows (sh x))).
Proof.
  intros Hok Hr. assert (Hi := adaptive_reachable_inv allowed Hok tso x Hr).
  assert (Hrow : forall c a, rows (sh x) !! c = Some a -> in_flight a = number (holds c) (threads x)).
  { intros c a Ha. rewrite <- (i_slots _ _ Hi c). unfold row_at. by rewrite Ha. }
  split_and!; [done|apply Hi| |].
  - intros t [sp Ht]%list_elem_of_lookup. by eapply (so_tracked _ (i_spaces _ _ Hi)).
  - intros Hf. apply Forall_lookup. intros c a Ha. rewrite (Hrow c a Ha). clear - Hf.
    induction Hf as [|t l Ht _ IH]; [done|]. cbn [number]. rewrite IH. by destruct t.
Qed.

(** A step that takes a slot found the count it read. *)
Lemma slot_taken o s t s' t' c : thread_step o s t = (s', t') -> holds c t = false -> holds c t' = true ->
  exists q v current, t = RCas q v c current /\ in_flight (row_at s c) = current.
Proof.
  intros H Ht Ht'. unfold holds in *. destruct t; cbn [thread_step] in H; unfold entry_step in H; cbv zeta in H;
    try (repeat case_match; injection H as <- <-; done);
    try (repeat case_match; injection H as <- <-; cbn [holding row_of andb p_row] in *; congruence).
  - destruct (spurious o || _) eqn:E; injection H as <- <-; [done|]. cbn [holding row_of andb] in Ht'. apply bool_decide_eq_true in Ht' as [= ->].
    apply orb_false_iff in E as [_ E%negb_false_iff%Z.eqb_eq]. by exists q, v, current.
  - destruct (feedback_target _ _ _ _ _ _ H) as [[b ->]|[st' ->]]; cbn [holding row_of andb p_row] in *; congruence.
Qed.

Lemma reachable_capped tso allowed M x :
  (forall c, allowed c = true -> config_ok c /\ shadow_mode c = false /\ max_limit c <= M) -> 0 <= M -> reachable tso allowed x ->
  forall c, in_flight (row_at (sh x) c) <= M.
Proof.
  intros Hok HM Hr. assert (Hok1 : forall c, allowed c = true -> config_ok c) by (intros c Hc; by apply Hok).
  induction Hr as [|x k x' Hr IH H]; intros c; [unfold row_at; cbn; by rewrite lookup_nil|].
  assert (Hi := adaptive_reachable_inv allowed Hok1 tso x Hr). destruct k as [p t|i o|j|o|]; cbn [exec] in H.
  - repeat case_match; simplify_eq. apply IH.
  - destruct (threads x !! i) as [t|] eqn:Et; [|done]. destruct (thread_step o (sh x) t) as [s' t'] eqn:Es. injection H as <-. cbn [sh].
    assert (Hpc := i_threads _ _ Hi _ _ Et). rewrite (thread_slots _ _ _ _ _ Es (pc_ok_row _ _ Hpc) (inv_ready _ _ _ _ Hi Et) c). specialize (IH c).
    destruct (holds c t') eqn:E1, (holds c t) eqn:E2; cbn [Z.b2z]; try lia.
    destruct (slot_taken _ _ _ _ _ c Es E2 E1) as (q & v & cur & -> & Hcur). destruct Hpc as [(_ & (_ & Hk & _) & _) Hcap].
    destruct (Hok (v_config v)) as (_ & Hs & Hm); [by apply (mo_allowed _ _ (i_minima _ _ Hi) _ _ Hk)|]. specialize (Hcap Hs). lia.
  - repeat case_match; simplify_eq. apply IH.
  - assert (Hw : forall w s' w', writer_step o (sh x) w = (s', w') -> in_flight (row_at s' c) <= M).
    { intros w s' w' Hs. rewrite (proj1 (writer_rows _ _ _ _ _ Hs)). apply IH. }
    assert (Hs : forall k s' w', start_task (sh x) k = (s', w') -> in_flight (row_at s' c) <= M).
    { intros k s' w' Hs. destruct (start_shared _ _ _ _ Hs) as [-> | [e ->]]; apply IH. }
    destruct (at_pc (wr x)) eqn:Ew; try (destruct (buffered x); [done|]; destruct (writer_step o (sh x) _) as [s' w'] eqn:Es; injection H as <-; by eapply Hw).
    + destruct (todo (wr x)); [done|]. destruct (start_task _ _) as [s' w'] eqn:Es. injection H as <-. by eapply Hs.
    + destruct tso; [injection H as <-; apply IH|]. destruct (writer_step o (sh x) _) as [s' w'] eqn:Es; injection H as <-; by eapply Hw.
    + destruct (writer_step o (sh x) _) as [s' w'] eqn:Es; injection H as <-; by eapply Hw.
  - repeat case_match; simplify_eq. apply IH.
Qed.

(** C29. Outside shadow mode the learned limit caps concurrency and refusals are
    truthful: when no allowed configuration is in shadow mode (which admits above
    the limit by design) and none allows more than [M], no row ever has more than
    [M] requests in flight, across every reload; and a request refused
    for the target limit reports a count at or above a limit that lies within the
    bounds of one of the published configurations. *)
Theorem adaptive_limit_enforced (tso : bool) (allowed : AdaptiveConcurrencyConfig -> bool) (M : Z) (x : sys) :
  (forall c, allowed c = true -> config_ok c /\ shadow_mode c = false /\ max_limit c <= M) -> 0 <= M -> reachable tso allowed x ->
  (forall a, a ∈ rows (sh x) -> 0 <= in_flight a <= M)
  /\ forall i current lim expose, threads x !! i = Some (RRefused (TargetLimit current lim expose)) ->
       exists c, allowed c = true /\ full c current lim.
Proof.
  intros Hok HM Hr. assert (Hok1 : forall c, allowed c = true -> config_ok c) by (intros c Hc; by apply Hok).
  assert (Hi := adaptive_reachable_inv allowed Hok1 tso x Hr). assert (Hcap := reachable_capped tso allowed M x Hok HM Hr). split.
  - intros a [c Hc]%list_elem_of_lookup. specialize (Hcap c). assert (Hs := i_slots _ _ Hi c). unfold row_at in *. rewrite Hc in *. cbn in *.
    assert (Hb := number_bounds (holds c) (threads x)). lia.
  - intros i current lim expose Ht. destruct (i_threads _ _ Hi _ _ Ht) as (g & c & Hk & Hf). exists c.
    split; [by apply (mo_allowed _ _ (i_minima _ _ Hi) _ _ Hk)|done].
Qed.

(** A row the current tracking space knows. *)
Definition tracked_now (s : shared) (row : nat) : Prop :=
  exists t key, spaces s !! space s = Some t /\ inner t !! key = Some row.

Definition permit_of (t : pc) : option permit := match t with RHeld p _ | RFeedback p _ _ => Some p | _ => None end.

(** C10. A structural commit leaves nothing of a retired generation behind: whenever
    admission is open, every permit that counts on a row of the current tracking
    space belongs to a policy generation and a balancer generation not below the
    committed minima; permits of retired generations count on detached rows only. *)
Theorem retired_generations_detached (tso : bool) (allowed : AdaptiveConcurrencyConfig -> bool) (x : sys) :
  (forall c, allowed c = true -> config_ok c) -> reachable tso allowed x -> is_active (word (sh x)) = true ->
  forall i t p, threads x !! i = Some t -> permit_of t = Some p -> tracked_now (sh x) (p_row p) ->
    minimum (policy_gens (sh x)) <= p_generation p /\ minimum (lb_gens (sh x)) <= p_lb_generation p.
Proof.
  intros Hok Hr Ha i t p Ht Hp (u & key & Hu & Hk). assert (Hi := adaptive_reachable_inv allowed Hok tso x Hr).
  assert (Hpc := i_threads _ _ Hi _ _ Ht). assert (Hpo : permit_ok (sh x) p) by (destruct t; try done; by injection Hp as <-).
  destruct Hpo as [(_ & Hh & _) _]. destruct (Hh _ _ _ Hu Hk) as [B1 B2].
  assert (Hb := ri_born _ _ (i_reset _ _ Hi) (rotating_resetting _ _ (i_reset _ _ Hi) Ha)).
  rewrite list_lookup_fmap, Hu in Hb. injection Hb as Hb. by rewrite Hb in B1, B2.
Qed.

(** Past both generation checks. *)
Definition trains (t : pc) : bool := match t with RFeedback _ _ (SCheckAgain _) => false | _ => guarded t end.

(** C11. On sequentially consistent memory feedback never crosses a commit: no
    callback is inside its guard while a commit is past its barrier; and whatever a
    callback learns is learnt for a policy generation and a balancer generation that
    are active or staged at that moment, with the configuration published for that
    generation. Sequential consistency is an assumption here and not given by the
    source, which stores the barrier flag with [Release] and then loads the count:
    with a store buffer the exclusion fails ([store_buffer_breaks_barrier]). *)
Theorem feedback_excluded_from_commit (allowed : AdaptiveConcurrencyConfig -> bool) (x : sys) :
  (forall c, allowed c = true -> config_ok c) -> reachable false allowed x ->
  (critical (at_pc (wr x)) = true -> Forall (fun t => guarded t = false) (threads x))
  /\ forall i p r st, threads x !! i = Some (RFeedback p r st) -> trains (RFeedback p r st) = true ->
       live_policy (sh x) p /\ live_lb (sh x) p /\ configs (sh x) !! p_generation p = Some (p_config p).
Proof.
  intros Hok Hr. destruct (reachable_exclusion allowed Hok x Hr) as [Hi He]. split.
  - intros Hc. apply Forall_lookup. intros i t. by apply (ex_critical _ He Hc).
  - intros i p r st Ht Htr. assert (Hg : guarded (RFeedback p r st) = true) by (by destruct st).
    assert (Hnc : critical (at_pc (wr x)) = false).
    { destruct (critical (at_pc (wr x))) eqn:Ec; [|done]. by rewrite (ex_critical _ He Ec _ _ Ht) in Hg. }
    assert (Hl : live_policy (sh x) p /\ live_lb (sh x) p).
    { assert (H := ex_training _ He _ _ Ht). destruct st; try done; by apply H. }
    split; [apply Hl|]. split; [apply Hl|]. destruct Hl as [Hlp _].
    destruct (i_threads _ _ Hi _ _ Ht) as [(_ & _ & Hpos & _) (cg & Hk & Hcg)]. destruct Hcg as [->|Hcg]; [done|]. exfalso.
    assert (Ha := ci_ahead _ _ (i_config _ _ Hi)). replace (config_ahead (at_pc (wr x))) with (@None Z) in Ha by (by destruct (at_pc (wr x))). cbn in Ha.
    destruct Hlp as [E|E]; [lia|]. destruct (gi_pending _ _ (i_gens _ _ Hi) PolicySide) as [_ [Hlt|Hact]]; cbn [gens_of] in *; [lia|lia|].
    by destruct (at_pc (wr x)).
Qed.
