(* ===== verification/AdaptiveExamples.v ===== *)
(** * Concrete interleavings of the adaptive limiter

    The theorems at concrete runs, and three runs that show what the code does
    not prevent: a compatible reload that refuses a request of the staged
    generation, a clamp to a retired configuration, and feedback that crosses a
    commit when the store of the barrier is still in the store buffer. *)

From S2P Require Import Prelude Decimal RuntimeKeys BreakerOutcome UdpAmplification Upstream AdaptiveLimiter AdaptiveSystem AdaptiveSafety.
#[local] Open Scope Z_scope.

Definition sample_config (lo initial hi : Z) : AdaptiveConcurrencyConfig :=
  AdaptiveConfig KeyByProxy 100 lo initial hi 1 (Dyadic 3 (-1)) (Dyadic 1 (-1)) 5 false false.

Definition narrow : AdaptiveConcurrencyConfig := sample_config 1 1 10.
Definition tight : AdaptiveConcurrencyConfig := sample_config 1 1 1.
Definition middle : AdaptiveConcurrencyConfig := sample_config 1 5 10.
Definition low : AdaptiveConcurrencyConfig := sample_config 1 3 3.
Definition high : AdaptiveConcurrencyConfig := sample_config 50 50 100.

Definition cart : AdaptiveProxy := AProxy (bs "prod") (bs "cart") None (bs "10.0.0.1") 80.

(** Well-formed, live, and at most 100. *)
Definition modest (c : AdaptiveConcurrencyConfig) : bool :=
  (0 <? min_limit c) && (min_limit c <=? initial_limit c) && (initial_limit c <=? max_limit c) && (max_limit c <=? 100) && negb (shadow_mode c).

Lemma modest_ok c : modest c = true -> config_ok c /\ shadow_mode c = false /\ max_limit c <= 100.
Proof.
  unfold modest. rewrite !andb_true_iff, negb_true_iff, Z.ltb_lt, !Z.leb_le. intros ((((? & ?) & ?) & ?) & ?).
  split; [constructor; unfold umax; lia|done].
Qed.

(** [n] steps of the writer, of a thread, and the actions of a permit. *)
Definition writer (n : nat) : list cmd := replicate n (WriterStep (WOracle None)).
Definition thread (i n : nat) : list cmd := replicate n (Step i (Oracle false KeepHolding)).
Definition fast_answer : report := Report (Outcome 200 false None) 1 true.
Definition record_it : list cmd := [Step 0 (Oracle false (RecordOutcome fast_answer))].

Definition spawn : list cmd := [Spawn cart None].
Definition create (c : AdaptiveConcurrencyConfig) : list cmd := Publish (Create c 1 false) :: writer 5.
Definition reload (c : AdaptiveConcurrencyConfig) (reset : bool) : list cmd := [Publish (Reload (Some (c, reset)) None)].

(** Create the limiter and admit one request. *)
Definition admission : list cmd := create narrow ++ spawn ++ thread 0 20.

Definition admitted : option sys := run false modest initial admission.

Definition limits (x : sys) : list (Z * Z) := map (fun a => (in_flight a, limit a)) (rows (sh x)).

Example admitted_state : (fun x => (limits x, map holding (threads x))) <$> admitted = Some ([(1, 1)], [true]).
Proof. vm_compute. reflexivity. Qed.

(** The state a run ends in. *)
Definition after (tso : bool) (ks : list cmd) : sys := default initial (run tso modest initial ks).

Definition completes (tso : bool) (ks : list cmd) : bool := match run tso modest initial ks with Some _ => true | None => false end.

Lemma adaptive_after_reachable tso ks : completes tso ks = true -> reachable tso modest (after tso ks).
Proof.
  unfold completes, after. destruct (run tso modest initial ks) as [x|] eqn:E; [|done]. intros _.
  eapply run_reachable; [constructor|exact E].
Qed.

Lemma admission_completes : completes false admission = true.
Proof. vm_compute. reflexivity. Qed.

Lemma adaptive_slots_exact_witness :
  exists a, rows (sh (after false admission)) !! 0%nat = Some a /\ in_flight a = number (holds 0) (threads (after false admission)) /\ in_flight a = 1.
Proof.
  assert (Ha : exists a, rows (sh (after false admission)) !! 0%nat = Some a /\ in_flight a = 1) by (eexists; split; vm_compute; reflexivity).
  destruct Ha as (a & Ha & Ha1). exists a. split_and!; [done| |done].
  apply (adaptive_slots_exact false modest (after false admission) (fun c Hc => proj1 (modest_ok c Hc)) (adaptive_after_reachable false admission admission_completes)).
  exact Ha.
Defined.

Lemma adaptive_limit_enforced_witness : Forall (fun a => 0 <= in_flight a <= 100) (rows (sh (after false admission))).
Proof.
  apply Forall_forall.
  apply (adaptive_limit_enforced false modest 100 (after false admission) modest_ok ltac:(lia) (adaptive_after_reachable false admission admission_completes)).
Defined.

(** A structural reload between two requests: 19 steps of the writer. *)
Definition replaced : list cmd := admission ++ reload tight true ++ writer 19 ++ spawn ++ thread 1 20.

Lemma replaced_completes : completes false replaced = true.
Proof. vm_compute. reflexivity. Qed.

Lemma replaced_open : is_active (word (sh (after false replaced))) = true.
Proof. vm_compute. reflexivity. Qed.

Lemma replaced_minimum : minimum (policy_gens (sh (after false replaced))) = 2.
Proof. vm_compute. reflexivity. Qed.

Lemma replaced_permit :
  exists t p, threads (after false replaced) !! 1%nat = Some t /\ permit_of t = Some p /\ p_row p = 1%nat.
Proof. do 2 eexists. split_and!; vm_compute; reflexivity. Qed.

Lemma replaced_tracked : tracked_now (sh (after false replaced)) 1.
Proof.
  assert (E : (spaces (sh (after false replaced)) !! space (sh (after false replaced)) ≫= fun t =>
    inner t !! AKey (bs "proxy:prod:cart") (bs "10.0.0.1") 80) = Some 1%nat) by (vm_compute; reflexivity).
  apply bind_Some in E as (t & Ht & Hk). exists t, (AKey (bs "proxy:prod:cart") (bs "10.0.0.1") 80).
  split; [exact Ht|exact Hk].
Qed.

(** The first permit keeps its detached row; the second is on the new space. *)
Lemma retired_generations_detached_witness :
  exists t p, threads (after false replaced) !! 1%nat = Some t /\ permit_of t = Some p /\ 2 <= p_generation p.
Proof.
  destruct replaced_permit as (t & p & Ht & Hp & Hrow). exists t, p. split; [exact Ht|]. split; [exact Hp|]. rewrite <- replaced_minimum.
  apply (retired_generations_detached false modest (after false replaced) (fun c Hc => proj1 (modest_ok c Hc))
    (adaptive_after_reachable false replaced replaced_completes) replaced_open 1%nat t p Ht Hp). rewrite Hrow. exact replaced_tracked.
Defined.

(** The admitted request reports, up to the point where it is about to learn. *)
Definition reporting : list cmd := admission ++ record_it ++ thread 0 7.

Lemma reporting_completes : completes false reporting = true.
Proof. vm_compute. reflexivity. Qed.

Lemma feedback_excluded_from_commit_witness :
  exists p r, threads (after false reporting) !! 0%nat = Some (RFeedback p r SMin)
    /\ configs (sh (after false reporting)) !! p_generation p = Some (p_config p).
Proof.
  assert (Ht : exists p r, threads (after false reporting) !! 0%nat = Some (RFeedback p r SMin)) by (do 2 eexists; vm_compute; reflexivity).
  destruct Ht as (p & r & Ht). exists p, r. split; [done|].
  apply (feedback_excluded_from_commit modest (after false reporting) (fun c Hc => proj1 (modest_ok c Hc))
    (adaptive_after_reachable false reporting reporting_completes)) in Ht as (_ & _ & H); done.
Defined.

(** ** Three runs *)

(** Stage and publish a compatible generation; a request of it has loaded the
    active generation when the commit activates it and clears the staged one. *)
Definition handoff : list cmd :=
  create narrow ++ reload narrow false ++ writer 5 ++ spawn ++ thread 0 4 ++ writer 6 ++ thread 0 2.

(** C30. A compatible reload is not free of refusals: the generation check reads the
    active and the staged generation one after the other, so a request of the
    generation being committed that reads the first before and the second after
    the commit moves it from one to the other is refused, although the reload
    needs no reset, the request's generation is active and no request is in
    flight. *)
Theorem compatible_handoff_refuses :
  let x := after false handoff in
  reachable false modest x
  /\ threads x = [RRefused GenerationHandoff]
  /\ published (sh x) = Some (Epoch 2 narrow 1)
  /\ active (policy_gens (sh x)) = 2 /\ minimum (policy_gens (sh x)) = 1
  /\ is_active (word (sh x)) = true /\ rows (sh x) = [].
Proof. cbn zeta. split; [apply adaptive_after_reachable; vm_compute; reflexivity|]. vm_compute. split_and!; reflexivity. Qed.

(** An admission with a superseded configuration loads the committed one to clamp
    by, and stalls while the next generation is committed. *)
Definition stalled_clamp : list cmd :=
  create middle ++ spawn ++ thread 0 7 ++ reload low false ++ writer 16 ++ thread 0 14 ++ reload high false ++ writer 19 ++ thread 0 25.

(** The commit is complete and no admission is in progress, yet the row has the
    maximum of a retired configuration, below the active minimum of 50. *)
Theorem stale_clamp_escapes_bounds :
  let x := after false stalled_clamp in
  reachable false modest x
  /\ (todo (wr x), at_pc (wr x)) = ([], WIdle) /\ map holding (threads x) = [true]
  /\ active_config (sh x) = Some (3, high) /\ limits x = [(1, 3)].
Proof. cbn zeta. split; [apply adaptive_after_reachable; vm_compute; reflexivity|]. vm_compute. split_and!; reflexivity. Qed.

(** The store of the barrier is buffered while the commit finds no feedback in
    progress and the callback finds no barrier. *)
Definition crossing : list cmd := admission ++ reload tight false ++ writer 8 ++ record_it ++ thread 0 7.
Definition crossed : list cmd := crossing ++ [Flush] ++ writer 10 ++ thread 0 12.

(** With a store buffer the barrier fails: a callback is inside its guard while a
    commit is past its barrier, and it then raises the limit by the retired
    configuration after the commit has clamped it to the new maximum of 1. *)
Theorem store_buffer_breaks_barrier :
  let x := after true crossing in let y := after true crossed in
  reachable true modest x /\ critical (at_pc (wr x)) = true /\ map guarded (threads x) = [true]
  /\ reachable true modest y /\ (todo (wr y), at_pc (wr y)) = ([], WIdle)
  /\ active_config (sh y) = Some (2, tight) /\ limits y = [(1, 6)].
Proof.
  cbn zeta. split_and!; try (apply adaptive_after_reachable; vm_compute; reflexivity); vm_compute; reflexivity.
Qed.
