(* ===== verification/Retry.v ===== *)
(** * Retry policy ([src/src/retry.rs], [src/src/config/types.rs],
    [src/src/proxy/mod.rs])

    The retry configuration, the wire boundary of the error classes, the
    decision whether a finished attempt may be replayed, the per-target budget
    of a DestinationRule, and the backoff delay. The static jitter counter of
    [retry_delay] is an argument and a result. *)

From S2P Require Import Prelude Upstream CircuitBreaker BreakerOutcome.

Inductive BackoffStrategy :=
| Fixed (delay_ms : Z)
| Exponential (base_ms max_ms : Z).

Record RetryConfig := Retries {
  max_retries : Z;
  retryable_status_codes : list Z;
  retryable_methods : list bytes;
  backoff : BackoffStrategy;
  retry_on_connect_failure : bool;
}.

Definition default_backoff : BackoffStrategy := Fixed 100.

Definition default_retryable_methods : list bytes :=
  [bs "GET"; bs "HEAD"; bs "OPTIONS"; bs "PUT"; bs "DELETE"].

Definition default_retry_config : RetryConfig :=
  Retries 3 [] default_retryable_methods default_backoff true.

(** What the retry decision and the accounting read of a [BackendResponse];
    of its body only whether it streams over HTTP/2 or HTTP/3. *)
Record BackendResponse := Resp {
  status_code : Z;
  resp_connection_error : bool;
  resp_error_class : option ErrorClass;
  streams_h2_h3 : bool;
}.

Definition outcome_of (r : BackendResponse) : outcome :=
  Outcome (status_code r) (resp_connection_error r) (resp_error_class r).

Definition request_reached_wire (c : ErrorClass) : bool :=
  match c with
  | ConnectionRefused | ConnectionTimeout | DnsLookupError | TlsError | PortExhaustion
  | ConnectionPoolError | BackendConnectionLimit | TrustWithdrawn => false
  | _ => true
  end.

Definition error_class_log_kind (c : ErrorClass) : bytes :=
  match c with
  | ConnectionRefused => bs "connect_failure"
  | ConnectionTimeout => bs "connect_timeout"
  | ConnectionReset => bs "connection_reset"
  | ConnectionClosed => bs "connection_closed"
  | DnsLookupError => bs "dns_failure"
  | TlsError => bs "tls_error"
  | ReadWriteTimeout => bs "read_timeout"
  | ProtocolError => bs "protocol_error"
  | PortExhaustion => bs "port_exhaustion"
  | ConnectionPoolError => bs "pool_error"
  | ClientDisconnect => bs "client_disconnect"
  | RequestBodyTooLarge => bs "request_body_too_large"
  | ResponseBodyTooLarge => bs "response_body_too_large"
  | GatewayBufferCapacity => bs "gateway_buffer_capacity"
  | GracefulRemoteClose => bs "graceful_remote_close"
  | DispatchPolicyRejected => bs "dispatch_policy_rejected"
  | BackendConnectionLimit => bs "backend_connection_limit"
  | TrustWithdrawn => bs "trust_withdrawn"
  | RequestError => bs "request_error"
  end.

(** The classes [should_retry] refuses whatever the configuration says. *)
Definition terminal_class (c : option ErrorClass) : bool :=
  match c with
  | Some ClientDisconnect | Some DispatchPolicyRejected | Some RequestBodyTooLarge
  | Some ResponseBodyTooLarge | Some GatewayBufferCapacity => true
  | _ => false
  end.

Definition method_retryable (config : RetryConfig) (method : bytes) : bool :=
  existsb (fun m => eq_ignore_ascii_case m method) (retryable_methods config).

Definition should_retry (config : RetryConfig) (method : bytes) (response : BackendResponse)
    (attempt : Z) : bool :=
  if max_retries config <=? attempt then false
  else if terminal_class (resp_error_class response) then false
  else if resp_connection_error response then retry_on_connect_failure config
  else if negb (method_retryable config method) then false
  else bool_decide (status_code response ∈ retryable_status_codes config).

Definition is_some_and {A} (o : option A) (f : A -> bool) : bool :=
  match o with Some x => f x | None => false end.

Definition can_retry_connection_failures (config : option RetryConfig) : bool :=
  is_some_and config (fun c => (0 <? max_retries c) && retry_on_connect_failure c).

Definition can_retry_http_statuses (config : option RetryConfig) (method : bytes) : bool :=
  is_some_and config (fun c =>
    (0 <? max_retries c) && negb (bool_decide (retryable_status_codes c = []))
    && method_retryable c method).

Definition has_effective_http_retries (config : option RetryConfig) (method : bytes) : bool :=
  can_retry_connection_failures config || can_retry_http_statuses config method.

(** [2u64.saturating_pow(attempt)]. *)
Definition saturating_pow2 (attempt : Z) : Z := Z.min (2 ^ attempt) (umax 64).

(** The delay in milliseconds and the next value of the jitter counter. *)
Definition retry_delay (config : RetryConfig) (attempt counter : Z) : Z * Z :=
  match backoff config with
  | Fixed delay_ms => (delay_ms, counter)
  | Exponential base_ms max_ms =>
    let delay := saturating_mul 64 base_ms (saturating_pow2 attempt) in
    let capped := Z.min delay max_ms in
    let hash :=
      wrapping_add 64 (wrapping_mul 64 counter 6364136223846793005) 1442695040888963407 in
    let jitter_offset := if 0 <? capped then hash mod capped else 0 in
    let jittered := saturating_add 64 (capped / 2) jitter_offset in
    (Z.min jittered max_ms, wrapping_add 64 counter 1)
  end.

(** ** DestinationRule budgets

    The retry-related fields of a [Proxy]: its retry policy and the
    [max_retries] of each projected port override and of their fallback. *)
Record RetryPolicy := Policy {
  retry : option RetryConfig;
  dispatch_port_overrides : option (gmap Z (option Z));
  dispatch_port_override_fallback : option (option Z);
}.

Definition resolve_target_retry_max_retries (p : RetryPolicy) (target : UpstreamTarget) : option Z :=
  match
    (overrides ← dispatch_port_overrides p; o ← overrides !! dispatch_policy_port target; o)
  with
  | Some cap => Some cap
  | None => o ← dispatch_port_override_fallback p; o
  end.

Definition route_retry_ceiling (p : RetryPolicy) : option Z := max_retries <$> retry p.

Definition effective_retry_max_retries_for_target (route_max_retries : Z) (p : RetryPolicy)
    (target : UpstreamTarget) : Z :=
  match resolve_target_retry_max_retries p target with
  | Some cap => if cap <? route_max_retries then cap else route_max_retries
  | None => route_max_retries
  end.

Definition retry_attempt_allowed_for_target (route_max_retries : Z) (p : RetryPolicy)
    (target : UpstreamTarget) (attempt : Z) : bool :=
  attempt <? effective_retry_max_retries_for_target route_max_retries p target.

Definition current_retry_attempt_allowed (route_max_retries : Z) (p : RetryPolicy)
    (current_target : option UpstreamTarget) (attempt : Z) : bool :=
  match current_target with
  | None => true
  | Some target => retry_attempt_allowed_for_target route_max_retries p target attempt
  end.

Definition retry_port_override_dispatch_port (p : RetryPolicy) (prev_target : UpstreamTarget)
    : option Z :=
  let dispatch_port := dispatch_policy_port prev_target in
  if is_some_and (dispatch_port_overrides p) (fun overrides =>
       bool_decide (is_Some (overrides !! dispatch_port)))
  then Some dispatch_port else None.

(** The seam after target selection: the route ceiling stays as it is. *)
Definition cap_proxy_retry_for_target (p : RetryPolicy) (upstream_target : option UpstreamTarget)
    : RetryPolicy := p.

Definition retry_replay_preserves_request_body (inbound_declares_body retained_body_present : bool)
    : bool := retained_body_present || negb inbound_declares_body.

(** ** Facts *)

Lemma should_retry_within config method r attempt :
  should_retry config method r attempt = true -> attempt < max_retries config.
Proof. unfold should_retry. destruct (Z.leb_spec (max_retries config) attempt); [done|lia]. Qed.

(** What a replay rests on: budget left, no terminal class, and either a
    connection-level failure the configuration retries, or a listed method
    together with a listed status. *)
Lemma should_retry_spec config method r attempt :
  should_retry config method r attempt = true <->
  attempt < max_retries config
  /\ terminal_class (resp_error_class r) = false
  /\ (resp_connection_error r = true /\ retry_on_connect_failure config = true
      \/ resp_connection_error r = false /\ method_retryable config method = true
         /\ status_code r ∈ retryable_status_codes config).
Proof.
  unfold should_retry.
  destruct (Z.leb_spec (max_retries config) attempt), (terminal_class (resp_error_class r)),
    (resp_connection_error r), (method_retryable config method); simpl;
    rewrite ?bool_decide_eq_true; naive_solver lia.
Qed.

Lemma effective_le_route ceiling p t : effective_retry_max_retries_for_target ceiling p t <= ceiling.
Proof.
  unfold effective_retry_max_retries_for_target.
  destruct (resolve_target_retry_max_retries p t) as [cap|]; [destruct (Z.ltb_spec cap ceiling)|]; lia.
Qed.

Lemma effective_le_cap ceiling p t cap :
  resolve_target_retry_max_retries p t = Some cap ->
  effective_retry_max_retries_for_target ceiling p t <= cap.
Proof.
  unfold effective_retry_max_retries_for_target. intros ->.
  destruct (Z.ltb_spec cap ceiling); lia.
Qed.

(** [has_effective_http_retries] decides exactly whether some response to
    the first attempt would be retried, so a request whose body is streamed
    instead of retained is one the retry loop can never replay. *)
Lemma effective_retries_decide config method :
  has_effective_http_retries (Some config) method = true
  <-> exists r, should_retry config method r 0 = true.
Proof.
  unfold has_effective_http_retries, can_retry_connection_failures, can_retry_http_statuses. simpl.
  rewrite orb_true_iff, !andb_true_iff, negb_true_iff, !Z.ltb_lt, bool_decide_eq_false. split.
  - intros [[Hm Hc]|[[Hm Hs] Hmeth]].
    + exists (Resp 502 true None false). apply should_retry_spec. simpl. naive_solver.
    + destruct (retryable_status_codes config) as [|s ss] eqn:Es; [done|].
      exists (Resp s false None false). apply should_retry_spec. simpl. rewrite Es.
      split_and!; [lia|done|]. right. split_and!; [done..|]. apply elem_of_cons. by left.
  - intros [r (Hm & _ & [[_ Hc]|(_ & Hmeth & Hs)])%should_retry_spec]; [by left|].
    right. split_and!; [done| |done]. intros E. rewrite E in Hs. set_solver.
Qed.

Lemma should_retry_monotone config method r a b :
  a <= b -> should_retry config method r b = true -> should_retry config method r a = true.
Proof. rewrite !should_retry_spec. intros ? (? & ? & ?). split_and!; [lia|done..]. Qed.

Lemma exponential_delay_exact base max attempt :
  0 <= base -> 0 <= max <= umax 64 -> 0 <= attempt ->
  Z.min (saturating_mul 64 base (saturating_pow2 attempt)) max = Z.min (base * 2 ^ attempt) max.
Proof.
  intros Hb Hm Ha. unfold saturating_mul, saturating_pow2.
  assert (0 < 2 ^ attempt) by (apply Z.pow_pos_nonneg; lia).
  destruct (Z.le_ge_cases (2 ^ attempt) (umax 64)) as [H1|H1].
  - rewrite (Z.min_l (2 ^ attempt)) by done. lia.
  - rewrite (Z.min_r (2 ^ attempt)) by done.
    assert (0 < umax 64) by (unfold umax; lia).
    destruct (Z.eq_dec base 0) as [->|]; [rewrite !Z.mul_0_l; lia|].
    assert (umax 64 <= base * umax 64) by nia.
    assert (umax 64 <= base * 2 ^ attempt) by nia. lia.
Qed.

(** The exponential backoff never overflows its arithmetic into a wrong
    delay: for any attempt number the delay lies between half of the ideal
    step [min (base * 2^attempt) max] and one and a half times it, and never
    above the configured maximum, whatever the jitter counter holds; a fixed
    backoff is the configured delay. *)
Theorem retry_delay_bounds config attempt counter :
  0 <= attempt -> 0 <= counter <= umax 64 ->
  match backoff config with
  | Fixed delay_ms => (retry_delay config attempt counter).1 = delay_ms
  | Exponential base_ms max_ms =>
    0 <= base_ms <= umax 64 -> 0 <= max_ms <= umax 64 ->
    let step := Z.min (base_ms * 2 ^ attempt) max_ms in
    let d := (retry_delay config attempt counter).1 in
    step / 2 <= d <= max_ms /\ 2 * d <= 3 * step
    /\ 0 <= (retry_delay config attempt counter).2 <= umax 64
  end.
Proof.
  intros Ha Hc. unfold retry_delay. destruct (backoff config) as [d|base max]; [done|].
  intros Hb Hm. cbn zeta. rewrite exponential_delay_exact by lia. cbn [fst snd].
  set (step := Z.min (base * 2 ^ attempt) max).
  assert (Hs : 0 <= step <= max).
  { assert (0 < 2 ^ attempt) by (apply Z.pow_pos_nonneg; lia). subst step. nia. }
  set (hash := wrapping_add 64 _ _).
  assert (Hoff : 0 <= (if 0 <? step then hash mod step else 0) /\
                 (if 0 <? step then hash mod step else 0) <= Z.max 0 (step - 1)).
  { destruct (Z.ltb_spec 0 step); [|lia]. pose proof (Z.mod_pos_bound hash step). lia. }
  assert (H2 : 2 * (step / 2) <= step < 2 * (step / 2) + 2) by (pose proof (Z.div_mod step 2); pose proof (Z.mod_pos_bound step 2); lia).
  assert (0 <= wrapping_add 64 counter 1 <= umax 64).
  { unfold wrapping_add, wrap, umax. pose proof (Z.mod_pos_bound (counter + 1) (2 ^ 64)). lia. }
  clearbody step hash. set (off := if 0 <? step then _ else _) in *. clearbody off.
  unfold saturating_add. split_and!; lia.
Qed.

(** Attempt 70 of a policy of 100 ms steps capped at two seconds. *)
Lemma retry_delay_bounds_witness :
  1000 <= (retry_delay (Retries 80 [] [] (Exponential 100 2000) true) 70 7).1 <= 2000.
Proof.
  destruct (retry_delay_bounds (Retries 80 [] [] (Exponential 100 2000) true) 70 7
              ltac:(lia) ltac:(unfold umax; lia) ltac:(unfold umax; lia) ltac:(unfold umax; lia)) as [H _].
  exact H.
Defined.
