(* ===== verification/BackendPath.v ===== *)
(** * Backend paths and URLs ([src/src/proxy/mod.rs])

    How the path put on the wire is assembled from the listen path the router
    stripped, the proxy's backend path and the target's own, and the check
    that a retry keeps the path the policy plugins authorized. *)

From S2P Require Import Prelude Utf8 PolicyPath RoutePath Decimal Upstream.

Inductive DispatchKind := HttpPool | HttpsPool | TcpRaw | TcpTls | UdpRaw | UdpDtls.

(** The fields of a [Proxy] path construction reads. *)
Record PathProxy := PathFields {
  strip_listen_path : bool;
  backend_path : option bytes;
  dispatch_kind : DispatchKind;
}.

Inductive path_error := InvalidBackendPath.

Record BackendPathLayout := Layout {
  is_root : bool;
  needs_leading_slash : bool;
  needs_between_slash : bool;
  layout_len : Z;
}.

Definition starts_with_slash (s : bytes) : bool :=
  match s with b :: _ => b =? 47 | [] => false end.

Definition ends_with_slash (s : bytes) : bool :=
  match last s with Some b => b =? 47 | None => false end.

Definition is_empty (s : bytes) : bool := match s with [] => true | _ => false end.

Definition backend_path_layout (backend_path remaining_path : bytes) : BackendPathLayout :=
  let is_root := is_empty backend_path && is_empty remaining_path in
  let combined_starts_with_slash :=
    if negb (is_empty backend_path) then starts_with_slash backend_path
    else starts_with_slash remaining_path in
  let needs_leading_slash := negb is_root && negb combined_starts_with_slash in
  let needs_between_slash :=
    negb (is_empty backend_path) && negb (is_empty remaining_path)
    && negb (ends_with_slash backend_path) && negb (starts_with_slash remaining_path) in
  let len :=
    if is_root then 1
    else (if needs_leading_slash then 1 else 0) + Z.of_nat (length backend_path)
         + (if needs_between_slash then 1 else 0) + Z.of_nat (length remaining_path) in
  Layout is_root needs_leading_slash needs_between_slash len.

(** Appends to the buffer. *)
Definition push_backend_path (url backend_path remaining_path : bytes) : bytes :=
  let layout := backend_path_layout backend_path remaining_path in
  if is_root layout then url ++ bs "/"
  else
    let url := if needs_leading_slash layout then url ++ bs "/" else url in
    let url := url ++ backend_path in
    let url := if needs_between_slash layout then url ++ bs "/" else url in
    url ++ remaining_path.

(** [str::is_char_boundary] and [str::get(n..)]. *)
Definition is_char_boundary (s : bytes) (n : Z) : bool :=
  (n =? 0) || (n =? Z.of_nat (length s))
  || match s !! Z.to_nat n with Some b => negb (is_cont b) | None => false end.

Definition str_get_from (s : bytes) (n : Z) : option bytes :=
  if is_char_boundary s n then Some (drop (Z.to_nat n) s) else None.

Definition with_backend_path_parts {R} (proxy : PathProxy) (incoming_path : bytes) (strip_len : Z)
    (target_path : option bytes) (use_parts : bytes -> bytes -> R) : result R path_error :=
  let normalized_path :=
    if strip_listen_path proxy then Some (cow_str (normalize_encoded_slashes incoming_path))
    else None in
  let remaining_path :=
    match normalized_path with
    | Some normalized =>
      match str_get_from normalized strip_len with
      | Some rest => Ok rest
      | None => Err InvalidBackendPath
      end
    | None => Ok incoming_path
    end in
  match remaining_path with
  | Err e => Err e
  | Ok remaining_path =>
    let bp := default [] (match target_path with Some p => Some p | None => backend_path proxy end) in
    Ok (use_parts bp remaining_path)
  end.

Definition build_backend_effective_path (proxy : PathProxy) (incoming_path : bytes) (strip_len : Z)
    (target_path : option bytes) : result bytes path_error :=
  with_backend_path_parts proxy incoming_path strip_len target_path
    (fun backend_path remaining_path => push_backend_path [] backend_path remaining_path).

Definition or_else {A} (a b : option A) : option A := match a with Some x => Some x | None => b end.

Definition retry_target_preserves_backend_path (backend_path_is_policy_bound : bool)
    (proxy : PathProxy) (incoming_path : bytes) (strip_len : Z) (previous next : UpstreamTarget)
    : bool :=
  if negb backend_path_is_policy_bound then true
  else
    let previous_path := or_else (path previous) (backend_path proxy) in
    let next_path := or_else (path next) (backend_path proxy) in
    if bool_decide (previous_path = next_path) then
      match with_backend_path_parts proxy incoming_path strip_len None (fun _ _ => tt) with
      | Ok _ => true
      | Err _ => false
      end
    else
      match build_backend_effective_path proxy incoming_path strip_len (path previous),
            build_backend_effective_path proxy incoming_path strip_len (path next) with
      | Ok previous, Ok next => eqb_bytes previous next
      | _, _ => false
      end.

Definition url_render_host (host : bytes) : bytes :=
  if existsb (Z.eqb 58) host && negb (match host with b :: _ => b =? 91 | [] => false end)
  then bs "[" ++ host ++ bs "]" else host.

Definition backend_url_scheme_for_dispatch (proxy : PathProxy) : bytes :=
  match dispatch_kind proxy with
  | HttpPool | TcpRaw | UdpRaw => bs "http"
  | HttpsPool | TcpTls | UdpDtls => bs "https"
  end.

Definition build_backend_url_with_target (proxy : PathProxy) (incoming_path query_string host : bytes)
    (port strip_len : Z) (target_path : option bytes) : result bytes path_error :=
  let scheme := backend_url_scheme_for_dispatch proxy in
  with_backend_path_parts proxy incoming_path strip_len target_path (fun backend_path remaining_path =>
    let url := scheme ++ bs "://" ++ url_render_host host ++ bs ":" ++ show_dec port in
    let url := push_backend_path url backend_path remaining_path in
    if negb (is_empty query_string) then url ++ bs "?" ++ query_string else url).

Example url_examples :
  let p := PathFields true (Some (bs "/v1")) HttpsPool in
  build_backend_url_with_target p (bs "/api%2Fx") (bs "q=1") (bs "::1") 8443 4 None
    = Ok (bs "https://[::1]:8443/v1/x?q=1")
  /\ build_backend_url_with_target p (bs "/api") [] (bs "h") 80 4 (Some []) = Ok (bs "https://h:80/")
  /\ build_backend_url_with_target p (bs "/api") [] (bs "h") 80 9 None = Err InvalidBackendPath.
Proof. vm_compute. done. Qed.

(** ** Facts *)

Lemma push_backend_path_app url bp rp : push_backend_path url bp rp = url ++ push_backend_path [] bp rp.
Proof.
  unfold push_backend_path.
  destruct (backend_path_layout bp rp) as [[] [] [] len]; cbn; rewrite <- ?app_assoc; done.
Qed.

Lemma push_backend_path_rooted bp rp : starts_with_slash (push_backend_path [] bp rp) = true.
Proof.
  unfold push_backend_path, backend_path_layout. cbn [is_root needs_leading_slash needs_between_slash].
  destruct bp as [|b bp], rp as [|r rp]; cbn [is_empty andb negb starts_with_slash]; [done|..].
  - destruct (Z.eqb_spec r 47) as [->|]; done.
  - destruct (Z.eqb_spec b 47) as [->|]; done.
  - destruct (negb (ends_with_slash (b :: bp)) && negb (r =? 47)), (Z.eqb_spec b 47) as [->|]; done.
Qed.

Lemma push_backend_path_length bp rp :
  Z.of_nat (length (push_backend_path [] bp rp)) = layout_len (backend_path_layout bp rp).
Proof.
  unfold push_backend_path, backend_path_layout. cbn [is_root needs_leading_slash needs_between_slash layout_len].
  destruct (is_empty bp && is_empty rp); [done|]. cbn [negb andb].
  repeat match goal with |- context [if ?b then _ else _] => destruct b end; rewrite ?length_app; simpl length; lia.
Qed.

(** The part of the path left after stripping, when it exists. *)
Definition remaining (proxy : PathProxy) (incoming_path : bytes) (strip_len : Z) : option bytes :=
  if strip_listen_path proxy
  then str_get_from (cow_str (normalize_encoded_slashes incoming_path)) strip_len
  else Some incoming_path.

Definition configured (proxy : PathProxy) (target_path : option bytes) : bytes :=
  default [] (or_else target_path (backend_path proxy)).

Lemma parts_spec {R} proxy incoming n tp (f : bytes -> bytes -> R) :
  with_backend_path_parts proxy incoming n tp f
    = match remaining proxy incoming n with
      | Some rest => Ok (f (configured proxy tp) rest)
      | None => Err InvalidBackendPath
      end.
Proof.
  unfold with_backend_path_parts, remaining, configured, or_else.
  destruct (strip_listen_path proxy); [|done]. destruct (str_get_from (cow_str _) n); done.
Qed.

Lemma preserves_spec proxy incoming n previous next :
  retry_target_preserves_backend_path true proxy incoming n previous next = true
  <-> exists p, build_backend_effective_path proxy incoming n (path previous) = Ok p
      /\ build_backend_effective_path proxy incoming n (path next) = Ok p.
Proof.
  unfold retry_target_preserves_backend_path, build_backend_effective_path. cbn [negb].
  rewrite !parts_spec. destruct (remaining proxy incoming n) as [rest|].
  - case_bool_decide as Heq.
    + unfold configured. rewrite Heq. split; [by eexists|done].
    + rewrite eqb_bytes_spec. split; [intros ->; by eexists|]. intros (p & E1 & E2). congruence.
  - case_bool_decide; (split; [done|by intros (p & ? & _)]).
Qed.

(** C35. A retry whose path is bound by policy is allowed exactly when both
    targets assemble to the same path: the shortcut on equal configured paths
    and the general comparison agree, and a path that cannot be assembled
    refuses the retry. The URL then dispatched is the scheme, the host and
    the port followed by exactly that path and the query, and the path is
    rooted. *)
Theorem retry_path_exact proxy incoming query strip_len previous next :
  (retry_target_preserves_backend_path true proxy incoming strip_len previous next = true
   <-> exists p, build_backend_effective_path proxy incoming strip_len (path previous) = Ok p
       /\ build_backend_effective_path proxy incoming strip_len (path next) = Ok p)
  /\ match build_backend_effective_path proxy incoming strip_len (path next) with
     | Ok p =>
       build_backend_url_with_target proxy incoming query (host next) (port next) strip_len (path next)
         = Ok (backend_url_scheme_for_dispatch proxy ++ bs "://" ++ url_render_host (host next) ++ bs ":"
               ++ show_dec (port next) ++ p ++ (if is_empty query then [] else bs "?" ++ query))
       /\ starts_with_slash p = true
     | Err e =>
       build_backend_url_with_target proxy incoming query (host next) (port next) strip_len (path next)
         = Err e
     end.
Proof.
  split; [apply preserves_spec|].
  unfold build_backend_effective_path, build_backend_url_with_target. rewrite !parts_spec.
  destruct (remaining proxy incoming strip_len) as [rest|]; [|done].
  rewrite push_backend_path_app. split; [|apply push_backend_path_rooted].
  destruct (is_empty query); cbn [negb]; rewrite ?app_nil_r, <- ?app_assoc; done.
Qed.
