(* ===== verification/RetryLoop.v ===== *)
(** * The HTTP dispatch and retry loop ([src/src/proxy/mod.rs],
    [handle_proxy_request_inner]; [src/src/proxy/backend_dispatch.rs])

    One request from breaker admission through the retry loop to its final
    accounting, on the shared breaker cache. What the handler learns from
    components outside this file (the balancer's candidate, the transports'
    capabilities, the admission plugins, the backend's answer) and what other
    requests do to the cache meanwhile are the fields of [first_round],
    [round] and [closing]; every read of the handler is a field, so a
    sequence of rounds is one execution. The future of a request may be
    dropped at each of its awaits, which runs the destructor of the probe
    guard. Transport choice (HTTP/3, HBONE, mTLS), logging and response
    bodies are not part of the state. *)

From S2P Require Import Prelude Decimal RuntimeKeys CircuitBreaker BreakerOutcome BreakerCache Upstream Retry BackendPath.

(** ** Mesh transport tags of a target *)

Definition matches_boolish_true (value : bytes) : bool :=
  eq_ignore_ascii_case value (bs "true") || eq_ignore_ascii_case value (bs "yes")
  || eq_ignore_ascii_case value (bs "on") || eqb_bytes value (bs "1").

Definition HBONE_TARGET_TAG : bytes := bs "mesh.hbone".
Definition MESH_MTLS_TARGET_TAG : bytes := bs "mesh.mtls".
Definition MESH_CROSS_CLUSTER_TAG : bytes := bs "mesh.cross_cluster".
Definition MESH_UNIX_SOCKET_TAG : bytes := bs "mesh.unix_socket".
Definition MESH_UNIX_SOCKET_H2C_TAG : bytes := bs "mesh.unix_socket_h2c".

Definition target_hbone_enabled (t : UpstreamTarget) : bool :=
  is_some_and (tags t !! HBONE_TARGET_TAG) matches_boolish_true.

Definition target_mesh_mtls_enabled (t : UpstreamTarget) : bool :=
  is_some_and (tags t !! MESH_MTLS_TARGET_TAG) matches_boolish_true.

Definition target_hbone_cross_cluster (t : UpstreamTarget) : bool :=
  is_some_and (tags t !! MESH_CROSS_CLUSTER_TAG) matches_boolish_true.

Definition target_mesh_mtls_cross_cluster (t : UpstreamTarget) : bool :=
  is_some_and (tags t !! MESH_CROSS_CLUSTER_TAG) matches_boolish_true.

Definition target_is_unix_backend (t : UpstreamTarget) : bool :=
  bool_decide (is_Some (tags t !! MESH_UNIX_SOCKET_TAG))
  || bool_decide (is_Some (tags t !! MESH_UNIX_SOCKET_H2C_TAG)).

(** Whether a direct dial is refused; the reason text is not kept. *)
Definition direct_http_mesh_transport_refusal (target : option UpstreamTarget) : bool :=
  is_some_and target (fun t =>
    let hbone := target_hbone_enabled t in
    let mesh_mtls := target_mesh_mtls_enabled t in
    let cross_cluster := target_hbone_cross_cluster t || target_mesh_mtls_cross_cluster t in
    cross_cluster || hbone || mesh_mtls).

(** ** The handler's inputs *)

Record Proxy := ProxyView {
  p_namespace : bytes;
  p_id : bytes;
  upstream_id : option bytes;
  backend_host : bytes;
  backend_port : Z;
  circuit_breaker : option CircuitBreakerConfig;
  policy : RetryPolicy;
  paths : PathProxy;
}.

Record request := Request {
  proxy : Proxy;
  method : bytes;
  req_path : bytes;
  query_string : bytes;
  strip_len : Z;
  backend_path_is_policy_bound : bool;
  upstream_target : option UpstreamTarget;
  has_lb_hash_key : bool;
  is_grpc_request : bool;
  (** [request_uses_grpc_content_type || grpc_request_is_web_translated] *)
  native_grpc : bool;
  has_grpc_deadline : bool;
  declares_body : bool;
}.

Record first_round := First {
  first_now : Z;
  after_admission : cache -> cache;
  first_rejected : bool;
  first_dropped : bool;
  first_permits : bool;
  retained_body : bool;
  during_first : cache -> cache;
  first_response : BackendResponse;
}.

Record round := Round {
  candidate : option UpstreamTarget;
  record_clocks : Z * Z;
  (** the value [JITTER_COUNTER.fetch_add] returns *)
  jitter_counter : Z;
  during_backoff : cache -> cache;
  backoff_dropped : bool;
  deadline_elapsed : bool;
  peer_auth_mismatch : bool;
  hbone_available : bool;
  mesh_mtls_available : bool;
  admission_now : Z;
  admission_rejected : bool;
  granted_permits : bool;
  during_dispatch : cache -> cache;
  dispatch_dropped : bool;
  response : BackendResponse;
}.

Record closing := Closing {
  precommit_authorization_terminal : bool;
  recorded_backend_status : Z;
  streaming_should_defer : bool;
  is_streaming_response : bool;
  has_active_hc : bool;
  has_balancer : bool;
  upstream_known : bool;
  final_clocks : Z * Z;
}.

(** ** Observable actions *)

Record dispatch := Dispatch {
  d_attempt : Z;
  d_target : option UpstreamTarget;
  d_url : bytes;
  d_key : option bytes;
  d_response : BackendResponse;
}.

Inductive event :=
| EvAdmit (a : nat) (key : option bytes) (probe : bool)
| EvDispatch (d : dispatch)
| EvPermit (o : outcome)
| EvRecord (a : nat) (key : option bytes) (call : record_call) (probe : bool)
| EvRelease (a : nat)
| EvDefer (key : option bytes) (epoch : Z)
| EvSleep (ms : Z)
| EvSample (t : UpstreamTarget) (failed : bool)
| EvPassive (t : UpstreamTarget) (status : Z) (backend_failure : bool).

(** ** The probe guard *)

Record HalfOpenProbeGuard := Guard { guard_cb : option nat; armed : bool }.

Record world := World {
  store : cache;
  guard : HalfOpenProbeGuard;
  trace : list event;
}.

Definition emit (e : event) (w : world) : world := World (store w) (guard w) (trace w ++ [e]).
Definition with_store (w : world) (c : cache) : world := World c (guard w) (trace w).
Definition with_guard (w : world) (g : HalfOpenProbeGuard) : world := World (store w) g (trace w).

Definition guard_none : HalfOpenProbeGuard := Guard None false.

Definition for_admitted_probe (cb : nat) (is_half_open_probe : bool) : HalfOpenProbeGuard :=
  Guard (if is_half_open_probe then Some cb else None) is_half_open_probe.

(** [HalfOpenProbeGuard::new]: the breaker is looked up again by key. *)
Definition guard_new (p : Proxy) (key : option bytes) (is_half_open_probe : bool) (w : world) : world :=
  if negb is_half_open_probe then with_guard w guard_none
  else
    match circuit_breaker p with
    | None => with_guard w guard_none
    | Some cfg =>
      let '(cb, c) := get_or_create (p_namespace p) (p_id p) key cfg (store w) in
      with_guard (with_store w c) (Guard (Some cb) true)
    end.

Definition holds_slot (w : world) : bool := armed (guard w).

Definition disarm (w : world) : world := with_guard w (Guard (guard_cb (guard w)) false).

Definition take_slot (w : world) : bool * world := (armed (guard w), disarm w).

(** Run a method of the breaker at [a] on its own configuration. *)
Definition on_breaker (a : nat) (f : CircuitBreakerConfig -> breaker -> breaker) (c : cache) : cache :=
  match heap c !! a with
  | Some cl => update_breaker c a (f (cell_config cl) (cell_breaker cl))
  | None => c
  end.

Definition release_neutral (w : world) : world :=
  let '(slot, w') := take_slot w in
  if slot then
    match guard_cb (guard w) with
    | Some cb => emit (EvRelease cb) (with_store w' (on_breaker cb (fun _ => record_neutral true) (store w')))
    | None => w'
    end
  else w'.

(** [Drop for HalfOpenProbeGuard]. *)
Definition drop_guard (w : world) : world := release_neutral w.

Definition rearm (cb : nat) (is_half_open_probe : bool) (w : world) : world :=
  with_guard (release_neutral w) (for_admitted_probe cb is_half_open_probe).

(** ** Breaker calls of the handler *)

Definition circuit_breaker_target_key (p : Proxy) (upstream_target : option UpstreamTarget) : option bytes :=
  match upstream_target with
  | Some t => Some (target_key (host t) (port t))
  | None =>
    if negb (bool_decide (is_Some (upstream_id p))) && negb (is_empty (backend_host p))
       && negb (backend_port p =? 0)
    then Some (target_key (backend_host p) (backend_port p)) else None
  end.

(** The key, whether the request is a probe, and the open generation it was
    admitted at. *)
Definition check_circuit_breaker (p : Proxy) (upstream_target : option UpstreamTarget) (now : Z) (w : world)
    : result (option bytes * bool * Z) unit * world :=
  let key := circuit_breaker_target_key p upstream_target in
  match circuit_breaker p with
  | None => (Ok (key, false, 0), w)
  | Some cfg =>
    match can_execute_with_admission_epoch (p_namespace p) (p_id p) key cfg now (store w) with
    | (Ok (a, probe, epoch), c) => (Ok (key, probe, epoch), emit (EvAdmit a key probe) (with_store w c))
    | (Err _, c) => (Err tt, with_store w c)
    end
  end.

Definition record_on (a : nat) (key : option bytes) (call : record_call) (slot : bool) (clocks : Z * Z)
    (w : world) : world :=
  emit (EvRecord a key call slot)
    (with_store w (on_breaker a (fun cfg => apply_call cfg call slot clocks) (store w))).

(** ** The loop *)

Record loop_state := Loop {
  attempt : Z;
  result_of : BackendResponse;
  current_target : option UpstreamTarget;
  current_url : bytes;
  current_cb_target_key : option bytes;
  final_upstream_target : option UpstreamTarget;
  permits : bool;
  skip_final_cb_record : bool;
  sticky_dispatch_refused : bool;
  cb_admission_open_epoch : Z;
}.

Definition set_result (s : loop_state) (r : BackendResponse) : loop_state :=
  Loop (attempt s) r (current_target s) (current_url s) (current_cb_target_key s) (final_upstream_target s)
    (permits s) (skip_final_cb_record s) (sticky_dispatch_refused s) (cb_admission_open_epoch s).

Definition set_permits (s : loop_state) (b : bool) : loop_state :=
  Loop (attempt s) (result_of s) (current_target s) (current_url s) (current_cb_target_key s)
    (final_upstream_target s) b (skip_final_cb_record s) (sticky_dispatch_refused s) (cb_admission_open_epoch s).

Definition set_epoch (s : loop_state) (e : Z) : loop_state :=
  Loop (attempt s) (result_of s) (current_target s) (current_url s) (current_cb_target_key s)
    (final_upstream_target s) (permits s) (skip_final_cb_record s) (sticky_dispatch_refused s) e.

Definition ceiling (q : request) : Z := default 0 (route_retry_ceiling (policy (proxy q))).

Inductive gate := Refuse | Proceed (next : option (UpstreamTarget * bytes)).

(** The checks ahead of any accounting: the current target's budget, the
    retained body, and the rotation candidate's path, budget and URL. *)
Definition retry_gate (q : request) (retained : bool) (cand : option UpstreamTarget) (s : loop_state) : gate :=
  let pol := policy (proxy q) in
  if negb (current_retry_attempt_allowed (ceiling q) pol (current_target s) (attempt s)) then Refuse
  else if negb (retry_replay_preserves_request_body (declares_body q) retained) then Refuse
  else
    match upstream_id (proxy q), current_target s with
    | Some _, Some prev_target =>
      match (if has_lb_hash_key q then cand else None) with
      | None => Proceed None
      | Some next =>
        if negb (retry_target_preserves_backend_path (backend_path_is_policy_bound q) (paths (proxy q))
                   (req_path q) (strip_len q) prev_target next) then Refuse
        else if negb (retry_attempt_allowed_for_target (ceiling q) pol next (attempt s)) then Refuse
        else
          match build_backend_url_with_target (paths (proxy q)) (req_path q) (query_string q) (host next)
                  (port next) (strip_len q) (path next) with
          | Ok url => Proceed (Some (next, url))
          | Err _ => Refuse
          end
      end
    | _, _ => Proceed None
    end.

(** Settling the failed attempt: its admission permits and its breaker. *)
Definition record_intermediate (q : request) (clocks : Z * Z) (s : loop_state) (w : world) : world :=
  let r := result_of s in
  let w := if permits s then emit (EvPermit (outcome_of r)) w else w in
  match circuit_breaker (proxy q) with
  | None => w
  | Some cfg =>
    let '(cb, c) := get_or_create (p_namespace (proxy q)) (p_id (proxy q)) (current_cb_target_key s) cfg (store w) in
    let '(retry_probe_slot, w) := take_slot (with_store w c) in
    let call :=
      if client_side_no_backend_signal (resp_error_class r) then CallNeutral
      else CallFailure (status_code r) (resp_connection_error r) in
    record_on cb (current_cb_target_key s) call retry_probe_slot clocks w
  end.

Definition client_grpc_deadline_exceeded_response : BackendResponse :=
  Resp 200 false (Some ClientDisconnect) false.

Definition mesh_grpc_unavailable_response (c : ErrorClass) : BackendResponse :=
  Resp 200 (negb (request_reached_wire c)) (Some c) false.

Definition refusal_response (is_grpc : bool) : BackendResponse :=
  if is_grpc then mesh_grpc_unavailable_response DispatchPolicyRejected
  else Resp 502 false (Some DispatchPolicyRejected) false.

(** The move to the next attempt, and to the candidate when there is one. *)
Definition rotate (next : option (UpstreamTarget * bytes)) (s : loop_state) : loop_state :=
  match next with
  | Some (t, url) =>
    Loop (attempt s + 1) (result_of s) (Some t) url (Some (target_key (host t) (port t)))
      (final_upstream_target s) (permits s) (skip_final_cb_record s) (sticky_dispatch_refused s)
      (cb_admission_open_epoch s)
  | None =>
    Loop (attempt s + 1) (result_of s) (current_target s) (current_url s) (current_cb_target_key s)
      (final_upstream_target s) (permits s) (skip_final_cb_record s) (sticky_dispatch_refused s)
      (cb_admission_open_epoch s)
  end.

(** The screens of a candidate that has no transport here: Unix sockets, a
    mesh transport that is not available, a direct dial that would bypass
    one, and native gRPC leaving the mesh. *)
Definition transport_refusal (q : request) (rd : round) (target : option UpstreamTarget) : option BackendResponse :=
  let retry_hbone_required := is_some_and target target_hbone_enabled in
  let retry_mesh_mtls_required := is_some_and target target_mesh_mtls_enabled in
  let retry_dispatch_hbone := retry_hbone_required && hbone_available rd in
  let retry_dispatch_mesh_mtls := retry_mesh_mtls_required && mesh_mtls_available rd in
  if is_some_and target target_is_unix_backend then Some (refusal_response (is_grpc_request q))
  else if (retry_hbone_required && negb retry_dispatch_hbone)
          || (retry_mesh_mtls_required && negb retry_dispatch_mesh_mtls)
  then Some (refusal_response (is_grpc_request q))
  else if negb retry_dispatch_hbone && negb retry_dispatch_mesh_mtls
          && direct_http_mesh_transport_refusal target
  then Some (refusal_response (is_grpc_request q))
  else if native_grpc q && negb retry_dispatch_mesh_mtls
  then Some (mesh_grpc_unavailable_response DispatchPolicyRejected)
  else None.

Definition refuse_candidate (r : BackendResponse) (s : loop_state) : loop_state :=
  Loop (attempt s) r (current_target s) (current_url s) (current_cb_target_key s) (current_target s)
    (permits s) true true (cb_admission_open_epoch s).

(** The breaker of the rotated target refused: the key goes back to the
    target that produced the response, whose outcome is already recorded. *)
Definition breaker_refused (pre_rotation_cb_key : option bytes) (s : loop_state) : loop_state :=
  Loop (attempt s) (result_of s) (current_target s) (current_url s) pre_rotation_cb_key
    (final_upstream_target s) (permits s) true (sticky_dispatch_refused s) (cb_admission_open_epoch s).

Definition dispatched (r : BackendResponse) (s : loop_state) : loop_state :=
  Loop (attempt s) r (current_target s) (current_url s) (current_cb_target_key s) (current_target s)
    (permits s) (skip_final_cb_record s) (bool_decide (resp_error_class r = Some DispatchPolicyRejected))
    (cb_admission_open_epoch s).

(** [Gone]: the handler returned another response, or its future was
    dropped; both run the destructor of the guard. *)
Inductive flow :=
| Continue (s : loop_state) (w : world)
| Break (s : loop_state) (w : world)
| Gone (w : world).

(** The breaker gate of the attempt. *)
Definition admit_attempt (q : request) (now : Z) (s : loop_state) (w : world) : option loop_state * world :=
  match circuit_breaker (proxy q) with
  | None => (Some s, w)
  | Some cfg =>
    match can_execute_with_admission_epoch (p_namespace (proxy q)) (p_id (proxy q))
            (current_cb_target_key s) cfg now (store w) with
    | (Ok (cb, probe, epoch), c) =>
      (Some (set_epoch s epoch), rearm cb probe (emit (EvAdmit cb (current_cb_target_key s) probe) (with_store w c)))
    | (Err _, c) => (None, with_store w c)
    end
  end.

(** Admission plugins and the dispatch itself. *)
Definition dispatch_attempt (rd : round) (s : loop_state) (w : world) : flow :=
  if admission_rejected rd then Gone (drop_guard (release_neutral w))
  else if dispatch_dropped rd then Gone (drop_guard (with_store w (during_dispatch rd (store w))))
  else
    let w := with_store w (during_dispatch rd (store w)) in
    let w := emit (EvDispatch (Dispatch (attempt s) (current_target s) (current_url s)
                                 (current_cb_target_key s) (response rd))) w in
    Continue (dispatched (response rd) (set_permits s (granted_permits rd))) w.

Definition retry_iteration (q : request) (config : RetryConfig) (retained : bool) (rd : round)
    (s : loop_state) (w : world) : flow :=
  match retry_gate q retained (candidate rd) s with
  | Refuse => Break s w
  | Proceed next =>
    let w := record_intermediate q (record_clocks rd) s w in
    let s := set_permits s false in
    let w := emit (EvSleep (retry_delay config (attempt s) (jitter_counter rd)).1) w in
    let w := with_store w (during_backoff rd (store w)) in
    if backoff_dropped rd then Gone (drop_guard w)
    else if has_grpc_deadline q && deadline_elapsed rd
    then Break (set_result s client_grpc_deadline_exceeded_response) w
    else
      let pre_rotation_cb_key := current_cb_target_key s in
      let s := rotate next s in
      if peer_auth_mismatch rd then Gone (drop_guard w)
      else
        match transport_refusal q rd (current_target s) with
        | Some r => Break (refuse_candidate r s) w
        | None =>
          match admit_attempt q (admission_now rd) s w with
          | (None, w) => Break (breaker_refused pre_rotation_cb_key s) w
          | (Some s, w) => dispatch_attempt rd s w
          end
        end
  end.

(** The [while] loop over the rounds of an execution. *)
Inductive loop_end := Ended (s : loop_state) (w : world) | Left (w : world) | OutOfRounds.

Fixpoint retry_loop (q : request) (config : RetryConfig) (retained : bool) (rounds : list round)
    (s : loop_state) (w : world) : loop_end :=
  if negb (should_retry config (method q) (result_of s) (attempt s)) then Ended s w
  else
    match rounds with
    | [] => OutOfRounds
    | rd :: rounds =>
      match retry_iteration q config retained rd s w with
      | Continue s w => retry_loop q config retained rounds s w
      | Break s w => Ended s w
      | Gone w => Left w
      end
    end.

(** ** Final accounting *)

(** [record_backend_outcome_inner] without the end of connection tracking. *)
Definition record_backend_outcome_no_conn_end (q : request) (cl : closing) (s : loop_state) (r : BackendResponse)
    (slot skip : bool) (w : world) : world :=
  let o := Outcome (recorded_backend_status cl) (resp_connection_error r) (resp_error_class r) in
  let no_signal := client_side_no_backend_signal (resp_error_class r) in
  let backend_failure :=
    resp_connection_error r || error_class_is_post_wire_backend_failure (resp_error_class r) in
  let w :=
    match upstream_id (proxy q), final_upstream_target s with
    | Some _, Some t =>
      if negb no_signal && negb (has_active_hc cl) && has_balancer cl
      then emit (EvSample t (backend_failure || (500 <=? recorded_backend_status cl))) w else w
    | _, _ => w
    end in
  let w :=
    match circuit_breaker (proxy q) with
    | Some cfg =>
      if skip then w
      else
        let '(cb, c) := get_or_create (p_namespace (proxy q)) (p_id (proxy q)) (current_cb_target_key s) cfg (store w) in
        record_on cb (current_cb_target_key s) (classify (failure_status_codes cfg) o) slot (final_clocks cl)
          (with_store w c)
    | None => w
    end in
  match upstream_id (proxy q), final_upstream_target s with
  | Some _, Some t =>
    if negb no_signal && upstream_known cl
    then emit (EvPassive t (recorded_backend_status cl) backend_failure) w else w
  | _, _ => w
  end.

Definition finish (q : request) (cl : closing) (s : loop_state) (w : world) : world :=
  let r := result_of s in
  let r := if precommit_authorization_terminal cl then Resp (status_code r) false (Some ClientDisconnect) false else r in
  let w :=
    if streams_h2_h3 r && streaming_should_defer cl then
      if skip_final_cb_record s then w
      else
        let w := release_neutral w in
        match circuit_breaker (proxy q) with
        | Some _ => emit (EvDefer (current_cb_target_key s) (cb_admission_open_epoch s)) w
        | None => w
        end
    else
      let '(final_probe_slot, w) := if skip_final_cb_record s then (false, w) else take_slot w in
      record_backend_outcome_no_conn_end q cl s r final_probe_slot (skip_final_cb_record s) w in
  let w :=
    if negb (is_streaming_response cl) && permits s
    then emit (EvPermit (Outcome (recorded_backend_status cl) (resp_connection_error r) (resp_error_class r))) w
    else w in
  drop_guard w.

(** ** The whole request *)

Definition has_retry (q : request) : bool :=
  has_effective_http_retries (retry (policy (proxy q))) (method q)
  && current_retry_attempt_allowed (ceiling q) (policy (proxy q)) (upstream_target q) 0.

Inductive served := Rejected (w : world) | Completed (s : loop_state) (w : world) | Abandoned (w : world) | Unfinished.

Definition effective_endpoint (q : request) : bytes * Z :=
  match upstream_target q with
  | Some t => (host t, port t)
  | None => (backend_host (proxy q), backend_port (proxy q))
  end.

Definition initial_state (q : request) (key : option bytes) (url : bytes) (epoch : Z) (f : first_round) : loop_state :=
  Loop 0 (first_response f) (upstream_target q) url key (upstream_target q) (first_permits f) false false epoch.

Definition serve (q : request) (f : first_round) (rounds : list round) (cl : closing) (c : cache) : served :=
  match check_circuit_breaker (proxy q) (upstream_target q) (first_now f) (World c guard_none []) with
  | (Err _, w) => Rejected w
  | (Ok (key, probe, epoch), w) =>
    let w := guard_new (proxy q) key probe (with_store w (after_admission f (store w))) in
    let '(effective_host, effective_port) := effective_endpoint q in
    match build_backend_url_with_target (paths (proxy q)) (req_path q) (query_string q) effective_host
            effective_port (strip_len q) (t ← upstream_target q; path t) with
    | Err _ => Abandoned (drop_guard (release_neutral w))
    | Ok url =>
      if first_dropped f then Abandoned (drop_guard (with_store w (during_first f (store w))))
      else if first_rejected f
      then Abandoned (drop_guard (release_neutral (with_store w (during_first f (store w)))))
      else
        let w := with_store w (during_first f (store w)) in
        let w := emit (EvDispatch (Dispatch 0 (upstream_target q) url key (first_response f))) w in
        let s := initial_state q key url epoch f in
        match (if has_retry q then retry (policy (proxy q)) else None) with
        | None => let w := finish q cl s w in Completed s w
        | Some config =>
          match retry_loop q config (retained_body f) rounds s w with
          | Ended s w => Completed s (finish q cl s w)
          | Left w => Abandoned w
          | OutOfRounds => Unfinished
          end
        end
    end
  end.
