(* ===== verification/RetrySafety.v ===== *)
(** * What the retry loop guarantees

    Proofs about [RetryLoop]: every half-open slot the request takes is given
    back exactly once however the request ends, every replay was authorized,
    every response is charged to the breaker of the target that gave it, and
    the loop ends. *)

From S2P Require Import Prelude Decimal RuntimeKeys CircuitBreaker BreakerOutcome BreakerCache Upstream Retry BackendPath RetryLoop.

(** ** Reading a trace *)

Definition slot_delta (e : event) : Z :=
  match e with
  | EvAdmit _ _ true => 1
  | EvRecord _ _ _ true | EvRelease _ => -1
  | _ => 0
  end.

Fixpoint slots (l : list event) : Z :=
  match l with [] => 0 | e :: l => slot_delta e + slots l end.

Definition dispatch_of (e : event) : option dispatch :=
  match e with EvDispatch d => Some d | _ => None end.

Definition dispatches (l : list event) : list dispatch := omap dispatch_of l.

(** The key an attempt's outcome is charged to, now or, for a streaming
    response, when its body completes. *)
Definition charge_of (e : event) : option (option bytes) :=
  match e with EvRecord _ key _ _ => Some key | EvDefer key _ => Some key | _ => None end.

Definition charged (l : list event) : list (option bytes) := omap charge_of l.

Definition passive_of (e : event) : option UpstreamTarget :=
  match e with EvPassive t _ _ => Some t | _ => None end.

(** The targets reported to the passive health checker. *)
Definition passives (l : list event) : list UpstreamTarget := omap passive_of l.

Lemma slots_app l l' : slots (l ++ l') = slots l + slots l'.
Proof. induction l; simpl; lia. Qed.

Lemma dispatches_app l l' : dispatches (l ++ l') = dispatches l ++ dispatches l'.
Proof. apply omap_app. Qed.

Lemma charged_app l l' : charged (l ++ l') = charged l ++ charged l'.
Proof. apply omap_app. Qed.

Lemma passives_app l l' : passives (l ++ l') = passives l ++ passives l'.
Proof. apply omap_app. Qed.

(** ** Slots *)

(** At every point of the trace the request holds no slot or one, and at its
    end it holds [n]. *)
Definition holding (n : Z) (l : list event) : Prop :=
  slots l = n /\ forall k, 0 <= slots (take k l) <= 1.

Lemma holding_nil : holding 0 [].
Proof. split; [done|]. intros k. rewrite take_nil. simpl. lia. Qed.

Lemma holding_snoc n l e :
  holding n l -> 0 <= n + slot_delta e <= 1 -> holding (n + slot_delta e) (l ++ [e]).
Proof.
  intros [Hn Hp] He. split; [rewrite slots_app; simpl; lia|].
  intros k. destruct (decide (k <= length l)%nat).
  - rewrite take_app_le by done. apply Hp.
  - rewrite take_ge by (rewrite length_app; simpl; lia). rewrite slots_app. simpl. lia.
Qed.

Lemma holding_bounds n l : holding n l -> 0 <= n <= 1.
Proof. intros [Hn Hp]. specialize (Hp (length l)). rewrite firstn_all in Hp. lia. Qed.

(** The guard is armed exactly when the trace holds a slot. *)
Definition guarded (w : world) : Prop :=
  holding (Z.b2z (armed (guard w))) (trace w) /\ (armed (guard w) = true -> is_Some (guard_cb (guard w))).

Definition settled (w : world) : Prop := guarded w /\ armed (guard w) = false.

Lemma guarded_emit e w : slot_delta e = 0 -> guarded w -> guarded (emit e w).
Proof.
  intros He [Hh Hg]. split; [|done]. simpl.
  rewrite <- (Z.add_0_r (Z.b2z _)), <- He. apply holding_snoc; [done|].
  pose proof (holding_bounds _ _ Hh). lia.
Qed.

Lemma settled_emit e w : slot_delta e = 0 -> settled w -> settled (emit e w).
Proof. intros He [Hg Ha]. split; [by apply guarded_emit|done]. Qed.

Lemma guarded_store w c : guarded (with_store w c) <-> guarded w.
Proof. done. Qed.

Lemma settled_store w c : settled (with_store w c) <-> settled w.
Proof. done. Qed.

Lemma release_settles w : guarded w -> settled (release_neutral w).
Proof.
  intros [Hh Hg]. unfold release_neutral, take_slot. destruct (armed (guard w)) eqn:Ea.
  - destruct (Hg eq_refl) as [cb Hcb]. rewrite Hcb. split; [|done]. split; [|done]. simpl.
    apply (holding_snoc 1 _ (EvRelease cb)); [done|simpl; lia].
  - split; [|done]. split; [done|]. simpl. congruence.
Qed.

(** Handing the slot to a record settles it. *)
Lemma record_settles a key call clocks w :
  guarded w -> settled (record_on a key call (take_slot w).1 clocks (take_slot w).2).
Proof.
  intros [Hh Hg]. unfold record_on, take_slot, disarm. simpl. split; [|done]. split; [|done]. simpl.
  destruct (armed (guard w)).
  - apply (holding_snoc 1 _ (EvRecord a key call true)); [done|simpl; lia].
  - apply (holding_snoc 0 _ (EvRecord a key call false)); [done|simpl; lia].
Qed.

Lemma admit_guarded a key probe w :
  settled w -> guarded (rearm a probe (emit (EvAdmit a key probe) w)).
Proof.
  intros [[Hh Hg] Ha]. unfold rearm, release_neutral, take_slot. simpl. rewrite Ha. simpl.
  rewrite Ha in Hh. split; [|by destruct probe; simpl; eauto]. simpl.
  destruct probe; [apply (holding_snoc 0 _ (EvAdmit a key true))|apply (holding_snoc 0 _ (EvAdmit a key false))];
    simpl; by auto with lia.
Qed.

Create HintDb slots.
#[export] Hint Resolve guarded_emit settled_emit release_settles : slots.

Lemma settled_guarded w : settled w -> guarded w.
Proof. by intros []. Qed.
#[export] Hint Resolve settled_guarded : slots.

(** Without a breaker no slot is ever taken. *)
Definition quiet (q : request) (w : world) : Prop := circuit_breaker (proxy q) = None -> armed (guard w) = false.

Definition sound (q : request) (w : world) : Prop := guarded w /\ quiet q w.

Lemma settled_sound q w : settled w -> sound q w.
Proof. intros [Hg Ha]. split; [done|]. by intros _. Qed.

Lemma sound_settles q w : sound q w -> circuit_breaker (proxy q) = None -> settled w.
Proof. intros [Hg Hq] Hc. split; [done|by apply Hq]. Qed.

Lemma sound_emit q e w : slot_delta e = 0 -> sound q w -> sound q (emit e w).
Proof. intros He [Hg Hq]. split; [by apply guarded_emit|done]. Qed.
#[export] Hint Resolve settled_sound sound_emit : slots.

Lemma record_intermediate_settles q clocks s w :
  sound q w -> settled (record_intermediate q clocks s w).
Proof.
  intros Hw. unfold record_intermediate. set (w' := if permits s then _ else _).
  assert (Hw' : sound q w') by (subst w'; destruct (permits s); auto with slots).
  clearbody w'. destruct (circuit_breaker (proxy q)) as [cfg|] eqn:Ec; [|by apply (sound_settles q)].
  destruct (get_or_create _ _ _ _ _) as [cb c]. apply record_settles. by destruct Hw'.
Qed.

Lemma admit_attempt_sound q now s w :
  settled w -> let '(o, w') := admit_attempt q now s w in
  sound q w' /\ (o = None -> settled w').
Proof.
  intros Hw. unfold admit_attempt. destruct (circuit_breaker (proxy q)) as [cfg|] eqn:Ec.
  - destruct (can_execute_with_admission_epoch _ _ _ _ _ _) as [[[[cb probe] epoch]|e] c]; [|by auto with slots].
    split; [|done]. split; [|intros Hc; congruence]. by apply admit_guarded.
  - split; [by apply settled_sound|done].
Qed.

Definition flow_sound (q : request) (f : flow) : Prop :=
  match f with Continue _ w | Break _ w => sound q w | Gone w => settled w end.

Lemma dispatch_attempt_sound q rd s w : sound q w -> flow_sound q (dispatch_attempt rd s w).
Proof.
  intros [Hg Hq]. unfold dispatch_attempt, drop_guard.
  destruct (admission_rejected rd); [by simpl; auto with slots|].
  destruct (dispatch_dropped rd); simpl; [by apply release_settles|].
  apply sound_emit; done.
Qed.

Lemma retry_iteration_sound q config retained rd s w :
  sound q w -> flow_sound q (retry_iteration q config retained rd s w).
Proof.
  intros Hw. unfold retry_iteration. destruct (retry_gate q retained (candidate rd) s) as [|next]; [done|].
  cbv zeta. set (w1 := with_store _ _).
  assert (H1 : settled w1).
  { subst w1. apply settled_store, settled_emit; [done|]. by apply record_intermediate_settles. }
  clearbody w1. unfold drop_guard.
  destruct (backoff_dropped rd); [by simpl; auto with slots|].
  destruct (_ && deadline_elapsed rd); [by simpl; auto with slots|].
  destruct (peer_auth_mismatch rd); [by simpl; auto with slots|].
  destruct (transport_refusal q rd _); [by simpl; auto with slots|].
  pose proof (admit_attempt_sound q (admission_now rd) (rotate next (set_permits s false)) w1 H1) as H2.
  destruct (admit_attempt _ _ _ _) as [[s'|] w2]; destruct H2 as [H2 H3]; [|done].
  by apply dispatch_attempt_sound.
Qed.

Definition end_sound (q : request) (e : loop_end) : Prop :=
  match e with Ended _ w => sound q w | Left w => settled w | OutOfRounds => True end.

Lemma retry_loop_sound q config retained rounds s w :
  sound q w -> end_sound q (retry_loop q config retained rounds s w).
Proof.
  revert s w. induction rounds as [|rd rounds IH]; intros s w Hw; simpl;
    destruct (should_retry _ _ _ _); try done; simpl.
  pose proof (retry_iteration_sound q config retained rd s w Hw) as Hf.
  destruct (retry_iteration _ _ _ _ _ _); [by apply IH|done..].
Qed.

(** The slot is out of the guard and in the hands of one record. *)
Definition pending (slot : bool) (w : world) : Prop :=
  holding (Z.b2z slot) (trace w) /\ armed (guard w) = false.

Lemma pending_emit slot e w : slot_delta e = 0 -> pending slot w -> pending slot (emit e w).
Proof.
  intros He [Hh Ha]. split; [|done]. simpl.
  rewrite <- (Z.add_0_r (Z.b2z _)), <- He. apply holding_snoc; [done|].
  pose proof (holding_bounds _ _ Hh). lia.
Qed.

Lemma take_slot_pending w : guarded w -> pending (take_slot w).1 (take_slot w).2.
Proof. by intros [Hh _]. Qed.

Lemma pending_settled w : pending false w <-> settled w.
Proof.
  split.
  - intros [Hh Ha]. split; [|done]. split; rewrite Ha; [done|done].
  - intros [[Hh _] Ha]. rewrite Ha in Hh. done.
Qed.

Lemma record_on_pending a key call slot clocks w :
  pending slot w -> settled (record_on a key call slot clocks w).
Proof.
  intros [Hh Ha]. apply pending_settled. split; [|done]. simpl.
  destruct slot; [apply (holding_snoc 1 _ (EvRecord a key call true))|
                  apply (holding_snoc 0 _ (EvRecord a key call false))]; simpl; auto with lia.
Qed.

Lemma record_backend_outcome_settles q cl s r slot skip w :
  pending slot w -> (circuit_breaker (proxy q) = None \/ skip = true -> slot = false) ->
  settled (record_backend_outcome_no_conn_end q cl s r slot skip w).
Proof.
  intros Hw Hs. unfold record_backend_outcome_no_conn_end. cbv zeta.
  set (w1 := match upstream_id (proxy q) with Some _ => _ | None => w end).
  assert (H1 : pending slot w1) by (subst w1; repeat case_match; auto using pending_emit).
  clearbody w1. set (w2 := match circuit_breaker (proxy q) with Some _ => _ | None => w1 end).
  assert (H2 : settled w2).
  { subst w2. destruct (circuit_breaker (proxy q)) as [cfg|].
    - destruct skip; [apply pending_settled; by rewrite <- Hs by auto|].
      destruct (get_or_create _ _ _ _ _). by apply record_on_pending.
    - apply pending_settled. by rewrite <- Hs by auto. }
  clearbody w2. repeat case_match; auto with slots.
Qed.

Lemma record_backend_outcome_skipped q cl s r slot w :
  guarded w -> guarded (record_backend_outcome_no_conn_end q cl s r slot true w).
Proof. intros Hw. unfold record_backend_outcome_no_conn_end. repeat case_match; auto with slots. Qed.

Lemma finish_settles q cl s w : sound q w -> settled (finish q cl s w).
Proof.
  intros [Hg Hq]. unfold finish. cbv zeta. apply release_settles. set (r := if precommit_authorization_terminal cl then _ else _).
  set (w1 := if streams_h2_h3 r && _ then _ else _).
  assert (H1 : guarded w1).
  { subst w1. destruct (streams_h2_h3 r && _), (skip_final_cb_record s); [done|..].
    - case_match; auto with slots.
    - by apply record_backend_outcome_skipped.
    - apply settled_guarded, record_backend_outcome_settles; [by apply take_slot_pending|].
      intros [Hc|]; [by apply Hq|done]. }
  clearbody w1. destruct (_ && permits s); auto with slots.
Qed.

Lemma guard_new_sound q key probe w :
  pending probe w -> (circuit_breaker (proxy q) = None -> probe = false) ->
  sound q (guard_new (proxy q) key probe w).
Proof.
  intros [Hh Ha] Hp. unfold guard_new. destruct probe; simpl.
  - destruct (circuit_breaker (proxy q)) as [cfg|] eqn:Ec; [|by specialize (Hp eq_refl)].
    destruct (get_or_create _ _ _ _ _). split; [split; simpl; eauto|]. intros Hc. congruence.
  - split; [by split|done].
Qed.

Lemma check_circuit_breaker_pending p t now c :
  match check_circuit_breaker p t now (World c guard_none []) with
  | (Ok (_, probe, _), w) => pending probe w /\ (circuit_breaker p = None -> probe = false)
  | (Err _, w) => settled w
  end.
Proof.
  assert (H0 : forall c', settled (World c' guard_none [])) by (intros; split; [split; [apply holding_nil|done]|done]).
  unfold check_circuit_breaker. destruct (circuit_breaker p) as [cfg|]; [|split; [by apply pending_settled|done]].
  destruct (can_execute_with_admission_epoch _ _ _ _ _ _) as [[[[cb probe] epoch]|e] c']; [|by apply H0].
  split; [|done]. split; [|done]. simpl.
  destruct probe; [apply (holding_snoc 0 [] (EvAdmit cb _ true))|apply (holding_snoc 0 [] (EvAdmit cb _ false))];
    simpl; auto using holding_nil with lia.
Qed.

(** The count of slots is settled however the request ends. *)
Lemma slots_settled q f rounds cl c :
  match serve q f rounds cl c with
  | Rejected w | Completed _ w | Abandoned w =>
    slots (trace w) = 0 /\ forall k, 0 <= slots (take k (trace w)) <= 1
  | Unfinished => True
  end.
Proof.
  assert (Hend : forall w, settled w -> slots (trace w) = 0 /\ forall k, 0 <= slots (take k (trace w)) <= 1)
    by (intros w Hw; apply pending_settled in Hw; by destruct Hw).
  unfold serve, drop_guard. pose proof (check_circuit_breaker_pending (proxy q) (upstream_target q) (first_now f) c) as Hc.
  destruct (check_circuit_breaker _ _ _ _) as [[[[key probe] epoch]|e] w]; [|by apply Hend]. destruct Hc as [Hp Hn].
  set (w1 := guard_new _ _ _ _).
  assert (H1 : sound q w1) by (by apply guard_new_sound). clearbody w1. destruct (effective_endpoint q) as [h p].
  destruct (build_backend_url_with_target _ _ _ _ _ _ _) as [url|]; [|by apply Hend; destruct H1; auto with slots].
  destruct (first_dropped f); [by apply Hend, release_settles; destruct H1|].
  destruct (first_rejected f); [by apply Hend; destruct H1; auto using release_settles with slots|].
  set (w2 := emit _ _). assert (H2 : sound q w2) by (by apply sound_emit). clearbody w2. cbv zeta.
  destruct (if has_retry q then _ else _) as [config|]; [|by apply Hend, finish_settles].
  pose proof (retry_loop_sound q config (retained_body f) rounds (initial_state q key url epoch f) w2 H2) as H3.
  destruct (retry_loop _ _ _ _ _ _); [by apply Hend, finish_settles|by apply Hend|done].
Qed.

(** ** Dispatches and charges *)

Definition dispatch_state (s : loop_state) : dispatch :=
  Dispatch (attempt s) (current_target s) (current_url s) (current_cb_target_key s) (result_of s).

(** What every replay [d'] after [d] rests on. *)
Record link (q : request) (config : RetryConfig) (retained : bool) (d d' : dispatch) : Prop := {
  link_attempt : d_attempt d' = d_attempt d + 1;
  link_budget : d_attempt d' <= max_retries config;
  link_cap : forall t cap, d_target d' = Some t ->
    resolve_target_retry_max_retries (policy (proxy q)) t = Some cap -> d_attempt d' <= cap;
  link_replay :
    terminal_class (resp_error_class (d_response d)) = false
    /\ (resp_connection_error (d_response d) = true /\ retry_on_connect_failure config = true
        \/ resp_connection_error (d_response d) = false /\ method_retryable config (method q) = true
           /\ status_code (d_response d) ∈ retryable_status_codes config);
  link_body : declares_body q = true -> retained = true;
  link_path : backend_path_is_policy_bound q = true -> forall t t', d_target d = Some t -> d_target d' = Some t' ->
    build_backend_effective_path (paths (proxy q)) (req_path q) (strip_len q) (path t)
      = build_backend_effective_path (paths (proxy q)) (req_path q) (strip_len q) (path t');
  link_dialable : forall t', d_target d' = Some t' -> target_is_unix_backend t' = false;
}.

Definition key_charged (q : request) (s : loop_state) : list (option bytes) :=
  match circuit_breaker (proxy q) with Some _ => [current_cb_target_key s] | None => [] end.

(** A trace grown by events that are neither dispatches nor charges. *)
Definition silent (w w' : world) : Prop :=
  exists es, trace w' = trace w ++ es /\ dispatches es = [] /\ passives es = [] /\ charged es = [].

Lemma silent_refl w : silent w w.
Proof. exists []. by rewrite app_nil_r. Qed.

Lemma silent_trans w w' w'' : silent w w' -> silent w' w'' -> silent w w''.
Proof.
  intros (es & H1 & H2 & P1 & H3) (es' & H4 & H5 & P2 & H6). exists (es ++ es').
  by rewrite H4, H1, app_assoc, dispatches_app, charged_app, passives_app, H2, H3, H5, H6, P1, P2.
Qed.

Lemma silent_emit e w :
  dispatch_of e = None -> charge_of e = None -> passive_of e = None -> silent w (emit e w).
Proof. intros Hd Hc Hp. exists [e]. cbn. by rewrite Hd, Hc, Hp. Qed.

Lemma silent_store w c : silent w (with_store w c).
Proof. exists []. by rewrite app_nil_r. Qed.

Lemma silent_release w : silent w (release_neutral w).
Proof.
  unfold release_neutral, take_slot. destruct (armed (guard w)); [destruct (guard_cb (guard w))|].
  - by eexists [_].
  - exists []. by rewrite app_nil_r.
  - exists []. by rewrite app_nil_r.
Qed.
#[export] Hint Resolve silent_refl silent_emit silent_store silent_release : slots.

Lemma admit_attempt_silent q now s w : silent w (admit_attempt q now s w).2.
Proof.
  unfold admit_attempt. destruct (circuit_breaker (proxy q)) as [cfg|]; [|apply silent_refl].
  destruct (can_execute_with_admission_epoch _ _ _ _ _ _) as [[[[cb probe] epoch]|e] c]; [|apply silent_store].
  simpl. unfold rearm.
  apply (silent_trans _ (release_neutral (emit (EvAdmit cb (current_cb_target_key s) probe) (with_store w c)))).
  - eapply silent_trans; [|apply silent_release]. exists [EvAdmit cb (current_cb_target_key s) probe]. done.
  - exists []. by rewrite app_nil_r.
Qed.

Lemma admit_attempt_state q now s w s' :
  (admit_attempt q now s w).1 = Some s' -> dispatch_state s' = dispatch_state s /\ skip_final_cb_record s' = skip_final_cb_record s.
Proof.
  unfold admit_attempt. destruct (circuit_breaker (proxy q)) as [cfg|]; [|by intros [= <-]].
  destruct (can_execute_with_admission_epoch _ _ _ _ _ _) as [[[[cb probe] epoch]|e] c]; [|done].
  by intros [= <-].
Qed.

(** A trace grown by the record of the attempt that just failed. *)
Definition recorded (q : request) (s : loop_state) (w w' : world) : Prop :=
  exists es, trace w' = trace w ++ es /\ dispatches es = [] /\ passives es = [] /\ charged es = key_charged q s.

Lemma recorded_silent q s w w' w'' : recorded q s w w' -> silent w' w'' -> recorded q s w w''.
Proof.
  intros (es & H1 & H2 & P1 & H3) (es' & H4 & H5 & P2 & H6). exists (es ++ es').
  rewrite H4, H1, dispatches_app, charged_app, passives_app, H2, H3, H5, H6, P1, P2, !app_nil_r.
  by rewrite app_assoc.
Qed.

Lemma record_intermediate_recorded q clocks s w : recorded q s w (record_intermediate q clocks s w).
Proof.
  unfold record_intermediate, recorded, key_charged. set (w' := if permits s then _ else _).
  assert (Hs : silent w w') by (subst w'; destruct (permits s); auto with slots).
  clearbody w'. destruct Hs as (es & H1 & H2 & P1 & H3). destruct (circuit_breaker (proxy q)) as [cfg|].
  - destruct (get_or_create _ _ _ _ _) as [cb c]. eexists (es ++ [_]). simpl.
    rewrite H1, <- app_assoc. split; [done|]. by rewrite dispatches_app, charged_app, passives_app, H2, H3, P1.
  - by exists es.
Qed.

(** ** One iteration *)

Definition proceeds (q : request) (retained : bool) (s : loop_state) (next : option (UpstreamTarget * bytes)) : Prop :=
  current_retry_attempt_allowed (ceiling q) (policy (proxy q)) (current_target s) (attempt s) = true
  /\ retry_replay_preserves_request_body (declares_body q) retained = true
  /\ forall t url, next = Some (t, url) ->
     retry_attempt_allowed_for_target (ceiling q) (policy (proxy q)) t (attempt s) = true
     /\ exists prev, current_target s = Some prev
        /\ retry_target_preserves_backend_path (backend_path_is_policy_bound q) (paths (proxy q))
             (req_path q) (strip_len q) prev t = true.

Lemma retry_gate_proceeds q retained cand s next :
  retry_gate q retained cand s = Proceed next -> proceeds q retained s next.
Proof.
  unfold retry_gate, proceeds. cbv zeta.
  destruct (current_retry_attempt_allowed _ _ _ _); [|done]. simpl.
  destruct (retry_replay_preserves_request_body _ _); [|done]. simpl.
  destruct (upstream_id (proxy q)); [|intros [= <-]; naive_solver].
  destruct (current_target s) as [prev|]; [|intros [= <-]; naive_solver].
  destruct (if has_lb_hash_key q then cand else None) as [t|]; [|intros [= <-]; naive_solver].
  destruct (retry_target_preserves_backend_path _ _ _ _ _ _) eqn:Ep; [|done]. simpl.
  destruct (retry_attempt_allowed_for_target _ _ t _) eqn:Ea; [|done]. simpl.
  destruct (build_backend_url_with_target _ _ _ _ _ _ _); [|done]. intros [= <-].
  split_and!; [done..|]. intros t' url' [= <- <-]. eauto.
Qed.

Lemma allowed_within_cap m p t k cap :
  retry_attempt_allowed_for_target m p t k = true ->
  resolve_target_retry_max_retries p t = Some cap -> k + 1 <= cap.
Proof.
  unfold retry_attempt_allowed_for_target. rewrite Z.ltb_lt. intros H Hc.
  pose proof (effective_le_cap m p t cap Hc). lia.
Qed.

Lemma rotate_links q config retained rd s next u k r :
  should_retry config (method q) (result_of s) (attempt s) = true ->
  proceeds q retained s next ->
  transport_refusal q rd (current_target (rotate next s)) = None ->
  link q config retained (dispatch_state s) (Dispatch (attempt s + 1) (current_target (rotate next s)) u k r).
Proof.
  intros (Hm & Hc & Hr)%should_retry_spec (Hb & Hp & Hn) Ht. constructor; cbn [d_attempt d_target d_response dispatch_state].
  - done.
  - lia.
  - intros t cap Et Hcap. destruct next as [[t' url]|]; cbn in Et.
    + injection Et as ->. destruct (Hn _ _ eq_refl) as [Ha _]. by eapply allowed_within_cap.
    + rewrite Et in Hb. by eapply allowed_within_cap.
  - done.
  - intros Hd. unfold retry_replay_preserves_request_body in Hp. rewrite Hd in Hp. by destruct retained.
  - intros Hbound t t' Et Et'. destruct next as [[t'' url]|]; cbn in Et'; [|congruence].
    injection Et' as ->. destruct (Hn _ _ eq_refl) as [_ (prev & Eprev & Hpath)].
    rewrite Hbound in Hpath. apply preserves_spec in Hpath as (p & Hp1 & Hp2). congruence.
  - intros t' Et'. unfold transport_refusal in Ht. cbv zeta in Ht. rewrite Et' in Ht. cbn [is_some_and] in Ht.
    by destruct (target_is_unix_backend t').
Qed.

(** How one pass through the body of the loop ends. *)
Inductive iterated (q : request) (config : RetryConfig) (retained : bool) (s : loop_state) (w : world) : flow -> Prop :=
| it_refused : iterated q config retained s w (Break s w)
| it_next s' w' wm :
    recorded q s w wm -> trace w' = trace wm ++ [EvDispatch (dispatch_state s')] ->
    link q config retained (dispatch_state s) (dispatch_state s') ->
    skip_final_cb_record s' = skip_final_cb_record s ->
    iterated q config retained s w (Continue s' w')
| it_stop s' w' :
    recorded q s w w' -> armed (guard w') = false ->
    (skip_final_cb_record s' = true
     \/ skip_final_cb_record s' = skip_final_cb_record s
        /\ result_of s' = client_grpc_deadline_exceeded_response
        /\ current_cb_target_key s' = current_cb_target_key s) ->
    iterated q config retained s w (Break s' w')
| it_gone w' : recorded q s w w' -> iterated q config retained s w (Gone w').

Lemma dispatch_attempt_iterated q config retained rd s0 s w0 w :
  recorded q s0 w0 w -> skip_final_cb_record s = skip_final_cb_record s0 ->
  (forall u k r, link q config retained (dispatch_state s0) (Dispatch (attempt s) (current_target s) u k r)) ->
  iterated q config retained s0 w0 (dispatch_attempt rd s w).
Proof.
  intros Hr Hskip Hl. unfold dispatch_attempt, drop_guard.
  destruct (admission_rejected rd); [apply it_gone|destruct (dispatch_dropped rd)].
  - eapply recorded_silent; [done|]. eapply silent_trans; apply silent_release.
  - apply it_gone. eapply recorded_silent; [done|].
    eapply silent_trans; [apply silent_store|apply silent_release].
  - cbv zeta. apply (it_next _ _ _ _ _ _ _ w); [done|done|apply Hl|done].
Qed.

Lemma retry_iteration_iterated q config retained rd s w :
  sound q w -> should_retry config (method q) (result_of s) (attempt s) = true ->
  iterated q config retained s w (retry_iteration q config retained rd s w).
Proof.
  intros Hw Hs. unfold retry_iteration.
  destruct (retry_gate q retained (candidate rd) s) as [|next] eqn:Eg; [apply it_refused|].
  apply retry_gate_proceeds in Eg. cbv zeta. set (w1 := with_store _ _).
  assert (H1 : settled w1).
  { subst w1. apply settled_store, settled_emit; [done|]. by apply record_intermediate_settles. }
  assert (Hr : recorded q s w w1).
  { subst w1. eapply recorded_silent; [apply (record_intermediate_recorded q (record_clocks rd))|].
    eapply silent_trans; [|apply silent_store]. by apply silent_emit. }
  clearbody w1. unfold drop_guard.
  assert (Hrel : recorded q s w (release_neutral w1)) by (eapply recorded_silent; [done|apply silent_release]).
  destruct (backoff_dropped rd); [by apply it_gone|].
  destruct (_ && deadline_elapsed rd); [apply it_stop; [done|apply H1|by right]|].
  destruct (peer_auth_mismatch rd); [by apply it_gone|].
  set (s1 := rotate next (set_permits s false)).
  assert (E1 : attempt s1 = attempt s + 1 /\ current_target s1 = current_target (rotate next s)
               /\ skip_final_cb_record s1 = skip_final_cb_record s) by (subst s1; by destruct next as [[]|]).
  destruct E1 as (E1 & E2 & E3). rewrite E2.
  destruct (transport_refusal q rd _) eqn:Et; [apply it_stop; [done|apply H1|by left]|].
  pose proof (recorded_silent q s w w1 _ Hr (admit_attempt_silent q (admission_now rd) s1 w1)) as Hsil.
  pose proof (admit_attempt_sound q (admission_now rd) s1 w1 H1) as Hsound.
  pose proof (admit_attempt_state q (admission_now rd) s1 w1) as Hst.
  destruct (admit_attempt _ _ _ _) as [[s2|] w2]; destruct Hsound as [_ Hset];
    [|apply it_stop; [exact Hsil|by apply Hset|by left]].
  destruct (Hst s2 eq_refl) as [[= E4 E5 E6 E7 E8] Hskip].
  apply dispatch_attempt_iterated; [exact Hsil|congruence|].
  intros u k r. rewrite E4, E5, E1, E2. by apply (rotate_links q config retained rd).
Qed.

(** ** The loop *)

Definition chained (q : request) (config : RetryConfig) (retained : bool) (ds : list dispatch) : Prop :=
  forall i d d', ds !! i = Some d -> ds !! S i = Some d' -> link q config retained d d'.

Lemma chained_snoc q config retained ds d d' :
  chained q config retained ds -> last ds = Some d -> link q config retained d d' ->
  chained q config retained (ds ++ [d']).
Proof.
  intros Hc Hl Hd i a b Ha Hb. rewrite last_lookup in Hl.
  destruct (decide (S i < length ds)%nat) as [Hi|Hi].
  - rewrite lookup_app_l in Ha, Hb by lia. by apply (Hc i).
  - pose proof (lookup_lt_Some _ _ _ Hb) as Hlen. rewrite length_app in Hlen. simpl in Hlen.
    rewrite lookup_app_r in Hb by lia. rewrite lookup_app_l in Ha by lia.
    replace (S i - length ds)%nat with 0%nat in Hb by lia. injection Hb as <-.
    replace (pred (length ds)) with i in Hl by lia. congruence.
Qed.

(** The keys the attempts so far have to be charged to. *)
Definition expected (q : request) (ds : list dispatch) : list (option bytes) :=
  match circuit_breaker (proxy q) with Some _ => map d_key ds | None => [] end.

Lemma expected_snoc q ds s : expected q (ds ++ [dispatch_state s]) = expected q ds ++ key_charged q s.
Proof. unfold expected, key_charged. destruct (circuit_breaker (proxy q)); [apply map_app|done]. Qed.

(** The attempts carry the numbers 0, 1, 2, and so on. *)
Definition numbered (ds : list dispatch) : Prop := forall i d, ds !! i = Some d -> d_attempt d = Z.of_nat i.

Lemma numbered_snoc ds d : numbered ds -> d_attempt d = Z.of_nat (length ds) -> numbered (ds ++ [d]).
Proof.
  intros Hn Hd i d' Hi. apply lookup_app_Some in Hi as [Hi|[Hle Hi]]; [by apply Hn|].
  apply list_lookup_singleton_Some in Hi as [Hi <-]. rewrite Hd. f_equal. lia.
Qed.

Record running (q : request) (config : RetryConfig) (retained : bool) (s : loop_state) (w : world) : Prop := {
  run_sound : sound q w;
  run_last : exists ds, dispatches (trace w) = ds ++ [dispatch_state s] /\ charged (trace w) = expected q ds
                        /\ Z.of_nat (length ds) = attempt s;
  run_chained : chained q config retained (dispatches (trace w));
  run_numbered : numbered (dispatches (trace w));
  run_passives : passives (trace w) = [];
  run_budget : attempt s <= Z.max 0 (max_retries config);
  run_skip : skip_final_cb_record s = false;
}.

(** All attempts charged, chained and within the budget. *)
Record paid (q : request) (config : RetryConfig) (retained : bool) (w : world) : Prop := {
  paid_charged : charged (trace w) = expected q (dispatches (trace w));
  paid_chained : chained q config retained (dispatches (trace w));
  paid_numbered : numbered (dispatches (trace w));
  paid_length : Z.of_nat (length (dispatches (trace w))) <= 1 + Z.max 0 (max_retries config);
  paid_passives : passives (trace w) = [];
}.

Lemma recorded_paid q config retained s w w' :
  running q config retained s w -> recorded q s w w' ->
  paid q config retained w' /\ dispatches (trace w') = dispatches (trace w).
Proof.
  intros [Hs (ds & Hd & Hch & Hlen) Hc Hnum Hp Hb Hsk] (es & E1 & E2 & E3 & E4).
  assert (Hd' : dispatches (trace w') = dispatches (trace w)) by (by rewrite E1, dispatches_app, E2, app_nil_r).
  split; [|done]. constructor; rewrite ?Hd'; [..|by rewrite E1, passives_app, Hp, E3].
  - by rewrite E1, charged_app, Hch, E4, Hd, expected_snoc.
  - done.
  - done.
  - rewrite Hd, length_app. simpl. lia.
Qed.

Lemma next_running q config retained s w s' w' wm :
  running q config retained s w -> recorded q s w wm ->
  trace w' = trace wm ++ [EvDispatch (dispatch_state s')] ->
  link q config retained (dispatch_state s) (dispatch_state s') ->
  skip_final_cb_record s' = skip_final_cb_record s -> sound q w' ->
  running q config retained s' w'.
Proof.
  intros Hrun Hrec Ht Hl Hsk Hw'. destruct (recorded_paid _ _ _ _ _ _ Hrun Hrec) as [Hpaid Hd].
  destruct Hrun as [Hs (ds & Hds & Hch & Hlen) Hc Hnum Hp Hb Hk].
  assert (E : dispatches (trace w') = dispatches (trace w) ++ [dispatch_state s']) by (by rewrite Ht, dispatches_app, Hd).
  constructor; [done|..|congruence].
  - exists (dispatches (trace w)). rewrite Ht, charged_app, (paid_charged _ _ _ _ Hpaid), Hd. simpl.
    split_and!; [by rewrite <- Hd, dispatches_app|by rewrite app_nil_r|].
    rewrite Hds, length_app. simpl. apply link_attempt in Hl. cbn in Hl. lia.
  - rewrite E. eapply chained_snoc; [done|by rewrite Hds, last_snoc|done].
  - rewrite E. apply numbered_snoc; [done|]. rewrite (link_attempt _ _ _ _ _ Hl), Hds, length_app. cbn. lia.
  - rewrite Ht, passives_app, (paid_passives _ _ _ _ Hpaid). done.
  - pose proof (link_budget _ _ _ _ _ Hl). cbn in *. lia.
Qed.

(** How the loop ends: with the last response still to be charged, with all
    charged and the final record skipped or empty, or without a response. *)
Inductive loop_ended (q : request) (config : RetryConfig) (retained : bool) : loop_end -> Prop :=
| le_due s w : running q config retained s w -> loop_ended q config retained (Ended s w)
| le_paid s w :
    paid q config retained w -> armed (guard w) = false -> sound q w ->
    (skip_final_cb_record s = true
     \/ skip_final_cb_record s = false /\ result_of s = client_grpc_deadline_exceeded_response) ->
    loop_ended q config retained (Ended s w)
| le_left w : paid q config retained w -> loop_ended q config retained (Left w)
| le_rounds : loop_ended q config retained OutOfRounds.

Lemma retry_loop_ended q config retained rounds s w :
  running q config retained s w -> loop_ended q config retained (retry_loop q config retained rounds s w).
Proof.
  revert s w. induction rounds as [|rd rounds IH]; intros s w Hr; simpl;
    destruct (should_retry _ _ _ _) eqn:Es; simpl; try constructor; try done.
  pose proof (retry_iteration_iterated q config retained rd s w (run_sound _ _ _ _ _ Hr) Es) as Hit.
  pose proof (retry_iteration_sound q config retained rd s w (run_sound _ _ _ _ _ Hr)) as Hs.
  destruct Hit as [|s' w' wm|s' w' Hrec Ha Hk|w' Hrec].
  - by constructor.
  - apply IH. by eapply next_running.
  - destruct (recorded_paid _ _ _ _ _ _ Hr Hrec) as [Hp _]. apply le_paid; [done..|].
    rewrite (run_skip _ _ _ _ _ Hr) in Hk. naive_solver.
  - destruct (recorded_paid _ _ _ _ _ _ Hr Hrec) as [Hp _]. by apply le_left.
Qed.

(** Enough rounds for the budget always reach an end. *)
Lemma retry_loop_ends q config retained rounds s w :
  0 <= attempt s -> max_retries config - attempt s <= Z.of_nat (length rounds) ->
  sound q w -> retry_loop q config retained rounds s w <> OutOfRounds.
Proof.
  revert s w. induction rounds as [|rd rounds IH]; intros s w H0 Hn Hw; simpl;
    destruct (should_retry _ _ _ _) eqn:Es; simpl; try done.
  - apply should_retry_within in Es. simpl in Hn. lia.
  - pose proof (retry_iteration_iterated q config retained rd s w Hw Es) as Hit.
    pose proof (retry_iteration_sound q config retained rd s w Hw) as Hs.
    destruct Hit as [|s' w' wm Hr Ht Hl Hk|s' w' Hrec Ha Hk|w' Hrec]; try done.
    apply link_attempt in Hl. cbn in Hl. simpl in Hn. apply IH; [lia|lia|done].
Qed.

(** ** Final accounting *)

Definition final_result (cl : closing) (s : loop_state) : BackendResponse :=
  if precommit_authorization_terminal cl
  then Resp (status_code (result_of s)) false (Some ClientDisconnect) false else result_of s.

(** Events that are neither dispatches, charges nor passive reports. *)
Definition hush (es : list event) : Prop := dispatches es = [] /\ charged es = [] /\ passives es = [].

(** Nor dispatches nor charges, and at most one passive report. *)
Definition report (es : list event) : Prop :=
  dispatches es = [] /\ charged es = [] /\ (length (passives es) <= 1)%nat.

Lemma hush_report es es' : report es -> hush es' -> report (es ++ es').
Proof.
  intros (H1 & H2 & H3) (H4 & H5 & H6). unfold report.
  rewrite dispatches_app, charged_app, passives_app, H1, H2, H4, H5, H6, !app_nil_r. by split_and!.
Qed.

Lemma report_hush es es' : hush es -> report es' -> report (es ++ es').
Proof.
  intros (H1 & H2 & H3) (H4 & H5 & H6). unfold report.
  rewrite dispatches_app, charged_app, passives_app, H1, H2, H3, H4, H5. by split_and!.
Qed.

Lemma report_nil : report [].
Proof. repeat split; simpl; lia. Qed.

Lemma silent_hush w w' : silent w w' -> exists es, trace w' = trace w ++ es /\ hush es.
Proof. intros (es & H1 & H2 & H3 & H4). by exists es. Qed.

(** The record of the final attempt. *)
Lemma record_backend_outcome_trace q cl s r slot skip w :
  exists pre mid post,
    trace (record_backend_outcome_no_conn_end q cl s r slot skip w) = trace w ++ pre ++ mid ++ post
    /\ hush pre /\ report post
    /\ (skip = true \/ circuit_breaker (proxy q) = None -> mid = [])
    /\ (skip = false -> forall cfg, circuit_breaker (proxy q) = Some cfg ->
        exists a, mid = [EvRecord a (current_cb_target_key s)
                           (classify (failure_status_codes cfg)
                              (Outcome (recorded_backend_status cl) (resp_connection_error r) (resp_error_class r))) slot]).
Proof.
  unfold record_backend_outcome_no_conn_end. cbv zeta.
  set (w1 := match upstream_id (proxy q) with Some _ => _ | None => w end).
  assert (H1 : exists pre, trace w1 = trace w ++ pre /\ hush pre).
  { apply silent_hush. subst w1. repeat case_match; auto with slots. }
  clearbody w1. destruct H1 as (pre & E1 & Hpre).
  set (w2 := match circuit_breaker (proxy q) with Some _ => _ | None => w1 end).
  assert (H2 : exists mid, trace w2 = trace w1 ++ mid
    /\ (skip = true \/ circuit_breaker (proxy q) = None -> mid = [])
    /\ (skip = false -> forall cfg, circuit_breaker (proxy q) = Some cfg ->
        exists a, mid = [EvRecord a (current_cb_target_key s)
                           (classify (failure_status_codes cfg)
                              (Outcome (recorded_backend_status cl) (resp_connection_error r) (resp_error_class r))) slot])).
  { subst w2. destruct (circuit_breaker (proxy q)) as [cfg|]; [destruct skip|].
    - exists []. by rewrite app_nil_r.
    - destruct (get_or_create _ _ _ _ _) as [cb c]. eexists [_]. split; [done|]. split; [by intros []|].
      intros _ cfg' [= <-]. by exists cb.
    - exists []. by rewrite app_nil_r. }
  clearbody w2. destruct H2 as (mid & E2 & Hmid & Hmid').
  match goal with |- context [trace ?x] => set (w3 := x) end.
  assert (H3 : exists post, trace w3 = trace w2 ++ post /\ report post).
  { subst w3. repeat case_match; try (exists []; rewrite app_nil_r; by repeat split; simpl; lia).
    eexists [_]. split; [done|]. repeat split; simpl; lia. }
  clearbody w3. destruct H3 as (post & E3 & Hpost).
  exists pre, mid, post. by rewrite E3, E2, E1, <- !app_assoc.
Qed.

(** What [finish] appends: nothing charged when the record is skipped, one
    charge of the current key otherwise, and at most one passive report. *)
Inductive closed (q : request) (s : loop_state) (w : world) : world -> Prop :=
| closed_skipped w' es :
    trace w' = trace w ++ es -> report es ->
    skip_final_cb_record s = true \/ circuit_breaker (proxy q) = None -> closed q s w w'
| closed_charged w' pre e post :
    trace w' = trace w ++ pre ++ e :: post -> hush pre -> report post ->
    charge_of e = Some (current_cb_target_key s) -> dispatch_of e = None -> passive_of e = None ->
    is_Some (circuit_breaker (proxy q)) -> skip_final_cb_record s = false ->
    (result_of s = client_grpc_deadline_exceeded_response ->
     exists a, e = EvRecord a (current_cb_target_key s) CallNeutral (armed (guard w))) ->
    closed q s w w'.

Lemma closed_hush q s w w' w'' : closed q s w w' -> silent w' w'' -> closed q s w w''.
Proof.
  intros H (es' & E & H1 & H2 & H3)%silent_hush. destruct H as [w' es Et Hr Hs|w' pre e post Et Hpre Hpost ? ? ? ? ? ?].
  - eapply (closed_skipped _ _ _ _ (es ++ es')); [by rewrite E, Et, app_assoc|by apply hush_report|done].
  - eapply (closed_charged _ _ _ _ pre e (post ++ es')); try done.
    + rewrite E, Et. rewrite <- !app_assoc. by rewrite <- app_comm_cons.
    + by apply hush_report.
Qed.

Lemma finish_record_closed q cl s w :
  closed q s w
    (let '(slot, w1) := if skip_final_cb_record s then (false, w) else take_slot w in
     record_backend_outcome_no_conn_end q cl s (final_result cl s) slot (skip_final_cb_record s) w1).
Proof.
  destruct (skip_final_cb_record s) eqn:Ek; [|unfold take_slot];
    match goal with |- context [record_backend_outcome_no_conn_end q cl s ?r ?slot ?skip ?w1] =>
      destruct (record_backend_outcome_trace q cl s r slot skip w1) as (pre & mid & post & E & Hpre & Hpost & Hm & Hm')
    end.
  - rewrite Hm in E by auto. eapply closed_skipped; [exact E| |by auto].
    by apply report_hush.
  - destruct (circuit_breaker (proxy q)) as [cfg|] eqn:Ec.
    + destruct (Hm' eq_refl cfg eq_refl) as [a ->]. eapply closed_charged; [exact E|done|done|done|done|done|by eauto|done|].
      intros Hr. exists a. unfold final_result. rewrite Hr. by destruct (precommit_authorization_terminal cl).
    + rewrite Hm in E by auto. eapply closed_skipped; [exact E| |by auto].
      by apply report_hush.
Qed.

Lemma finish_closed q cl s w : closed q s w (finish q cl s w).
Proof.
  unfold finish, drop_guard. cbv zeta. fold (final_result cl s).
  eapply closed_hush; [|apply silent_release].
  eapply closed_hush; [|case_match; [by apply silent_emit|apply silent_refl]].
  destruct (streams_h2_h3 (final_result cl s) && _) eqn:Es; [|apply finish_record_closed].
  destruct (skip_final_cb_record s) eqn:Ek.
  - eapply (closed_skipped _ _ _ _ []); [by rewrite app_nil_r|apply report_nil|by auto].
  - destruct (silent_hush _ _ (silent_release w)) as (es & E & Hes). destruct (circuit_breaker (proxy q)) as [cfg|] eqn:Ec.
    + eapply (closed_charged _ _ _ _ es (EvDefer _ _) []); [|done|apply report_nil|done|done|done|by eauto|done|].
      * simpl. by rewrite E, <- app_assoc.
      * intros Hr. exfalso. unfold final_result in Es. rewrite Hr in Es. by destruct (precommit_authorization_terminal cl).
    + eapply closed_skipped; [exact E| |by auto]. rewrite <- (app_nil_r es). apply report_hush; [done|apply report_nil].
Qed.

(** ** The request *)

Lemma guard_new_trace p key probe w : trace (guard_new p key probe w) = trace w.
Proof. unfold guard_new. destruct probe; [|done]. simpl. case_match; [|done]. by destruct (get_or_create _ _ _ _ _). Qed.

Lemma hush_nil : hush [].
Proof. done. Qed.

Lemma check_circuit_breaker_hush p t now c : hush (trace (check_circuit_breaker p t now (World c guard_none [])).2).
Proof.
  unfold check_circuit_breaker. case_match; [|done].
  by destruct (can_execute_with_admission_epoch _ _ _ _ _ _) as [[[[? ?] ?]|?] ?].
Qed.

Lemma silent_keeps_hush w w' : hush (trace w) -> silent w w' -> hush (trace w').
Proof.
  intros (H1 & H2 & H3) (es & E & H4 & H5 & H6)%silent_hush. unfold hush.
  by rewrite E, dispatches_app, charged_app, passives_app, H1, H2, H3, H4, H5, H6.
Qed.

Lemma first_running q config retained key url epoch f w :
  hush (trace w) -> sound q w ->
  running q config retained (initial_state q key url epoch f)
    (emit (EvDispatch (Dispatch 0 (upstream_target q) url key (first_response f))) w).
Proof.
  intros (H1 & H2 & H3) Hw. set (d := Dispatch _ _ _ _ _).
  assert (E : dispatches (trace (emit (EvDispatch d) w)) = [d]) by (simpl; by rewrite dispatches_app, H1).
  constructor; rewrite ?E; [by apply sound_emit|..].
  - exists []. simpl. rewrite charged_app, H2. split_and!; try done.
    unfold expected. by destruct (circuit_breaker (proxy q)).
  - intros i a b Ha Hb. by apply list_lookup_singleton_Some in Hb as [? _].
  - intros i a Ha. by apply list_lookup_singleton_Some in Ha as [-> <-].
  - simpl. by rewrite passives_app, H3.
  - simpl. lia.
  - done.
Qed.

(** How a request ends. *)
Inductive concluded (q : request) (f : first_round) (rounds : list round) : served -> Prop :=
| con_rejected w : hush (trace w) -> concluded q f rounds (Rejected w)
| con_abandoned w : hush (trace w) -> concluded q f rounds (Abandoned w)
| con_single s w w' :
    (forall config, running q config (retained_body f) s w) -> closed q s w w' -> concluded q f rounds (Completed s w')
| con_looped config s w w' :
    retry (policy (proxy q)) = Some config ->
    loop_ended q config (retained_body f) (Ended s w) -> closed q s w w' -> concluded q f rounds (Completed s w')
| con_left config w :
    retry (policy (proxy q)) = Some config -> paid q config (retained_body f) w -> concluded q f rounds (Abandoned w)
| con_unfinished config :
    retry (policy (proxy q)) = Some config -> Z.of_nat (length rounds) < max_retries config ->
    concluded q f rounds Unfinished.

Lemma serve_concluded q f rounds cl c : concluded q f rounds (serve q f rounds cl c).
Proof.
  unfold serve, drop_guard.
  pose proof (check_circuit_breaker_pending (proxy q) (upstream_target q) (first_now f) c) as Hc.
  pose proof (check_circuit_breaker_hush (proxy q) (upstream_target q) (first_now f) c) as Hh.
  destruct (check_circuit_breaker _ _ _ _) as [[[[key probe] epoch]|e] w]; [|by apply con_rejected]. destruct Hc as [Hp Hn].
  simpl in Hh. set (w1 := guard_new _ _ _ _).
  assert (H1 : sound q w1) by (by apply guard_new_sound).
  assert (Hh1 : hush (trace w1)) by (subst w1; by rewrite guard_new_trace).
  clearbody w1. destruct (effective_endpoint q) as [h p].
  assert (Hrel : forall w', trace w' = trace w1 -> hush (trace (release_neutral w'))).
  { intros w' E. eapply silent_keeps_hush; [|apply silent_release]. by rewrite E. }
  assert (Hrel2 : forall w', trace w' = trace w1 -> hush (trace (release_neutral (release_neutral w')))).
  { intros w' E. eapply silent_keeps_hush; [by apply Hrel|apply silent_release]. }
  destruct (build_backend_url_with_target _ _ _ _ _ _ _) as [url|]; [|by apply con_abandoned, Hrel2].
  destruct (first_dropped f); [by apply con_abandoned, Hrel|].
  destruct (first_rejected f); [by apply con_abandoned, Hrel2|]. cbv zeta.
  set (w2 := emit _ _).
  assert (H2 : forall config, running q config (retained_body f) (initial_state q key url epoch f) w2)
    by (intros config; by apply first_running).
  clearbody w2. destruct (has_retry q); [destruct (retry (policy (proxy q))) as [config|] eqn:Er|];
    [|eapply con_single; [done|apply finish_closed]..].
  specialize (H2 config).
  pose proof (retry_loop_ended q config (retained_body f) rounds _ w2 H2) as Hl.
  pose proof (retry_loop_ends q config (retained_body f) rounds (initial_state q key url epoch f) w2) as He.
  destruct (retry_loop _ _ _ _ _ _) as [s' w'|w'|].
  - eapply con_looped; [done|exact Hl|apply finish_closed].
  - inversion Hl; subst. by eapply con_left.
  - eapply con_unfinished; [done|]. destruct (Z.lt_ge_cases (Z.of_nat (length rounds)) (max_retries config)); [done|].
    exfalso. apply He; [done|simpl; lia|by destruct H2|done].
Qed.

Lemma closed_dispatches q s w w' : closed q s w w' -> dispatches (trace w') = dispatches (trace w).
Proof.
  intros [w1 es E (H1 & _) _|w1 pre e post E (H1 & _) (H2 & _) _ He _ _ _ _]; rewrite E, !dispatches_app, H1.
  - apply app_nil_r.
  - change (e :: post) with ([e] ++ post). rewrite dispatches_app, H2. cbn. rewrite He. apply app_nil_r.
Qed.

Lemma closed_passives q s w w' : closed q s w w' -> (length (passives (trace w')) <= length (passives (trace w)) + 1)%nat.
Proof.
  intros [w1 es E (_ & _ & H1) _|w1 pre e post E (_ & _ & H1) (_ & _ & H2) _ _ He _ _ _];
    rewrite E, !passives_app, !length_app; [lia|].
  change (e :: post) with ([e] ++ post). rewrite passives_app, H1. cbn. rewrite He. cbn. lia.
Qed.

(** What the dispatches of a request satisfy. *)
Definition authorized (q : request) (config : RetryConfig) (retained : bool) (ds : list dispatch) : Prop :=
  Z.of_nat (length ds) <= 1 + Z.max 0 (max_retries config) /\ numbered ds /\ chained q config retained ds.

Lemma running_authorized q config retained s w :
  running q config retained s w -> authorized q config retained (dispatches (trace w)).
Proof.
  intros [_ (ds & Hd & _ & Hl) Hc Hn _ Hb _]. split_and!; [|done..]. rewrite Hd, length_app. simpl. lia.
Qed.

Lemma paid_authorized q config retained w : paid q config retained w -> authorized q config retained (dispatches (trace w)).
Proof. by intros [_ Hc Hn Hl _]. Qed.

Lemma hush_authorized q config retained l : hush l -> authorized q config retained (dispatches l).
Proof. intros (-> & _). split_and!; [simpl; lia|by intros i d|by intros i d]. Qed.

Lemma ended_authorized q config retained s w :
  loop_ended q config retained (Ended s w) ->
  authorized q config retained (dispatches (trace w)) /\ passives (trace w) = [].
Proof.
  intros H. inversion H; subst.
  - split; [by eapply running_authorized|by eapply run_passives].
  - split; [by apply paid_authorized|by eapply paid_passives].
Qed.

(** C9. Every replay of the retry loop is authorized. However a request ends,
    it is dispatched at most once more than its retry policy allows, its
    attempts are numbered from zero, and each attempt after the first follows
    a response that is replayable (not terminal; a connection-level failure,
    or a listed method with a listed status), stays within the policy and
    within the DestinationRule cap of the target it goes to, does not lose a
    declared body, keeps the path the policy plugins authorized, and never
    dials a Unix-socket target over the network. With as many rounds as the
    policy has retries the request reaches an end. *)
Theorem retry_dispatches_authorized q f rounds cl c config :
  retry (policy (proxy q)) = Some config ->
  match serve q f rounds cl c with
  | Rejected w => dispatches (trace w) = []
  | Completed _ w | Abandoned w => authorized q config (retained_body f) (dispatches (trace w))
  | Unfinished => Z.of_nat (length rounds) < max_retries config
  end.
Proof.
  intros Hc. destruct (serve_concluded q f rounds cl c) as [w Hh|w Hh|s w w' Hr Hcl|cfg s w w' Er Hl Hcl|cfg w Er Hp|cfg Er Hn].
  - by destruct Hh.
  - by apply hush_authorized.
  - rewrite (closed_dispatches _ _ _ _ Hcl). by eapply running_authorized.
  - rewrite (closed_dispatches _ _ _ _ Hcl). replace cfg with config in Hl by congruence.
    by apply (ended_authorized q config (retained_body f) s).
  - replace cfg with config in Hp by congruence. by apply paid_authorized.
  - by replace config with cfg by congruence.
Qed.

Lemma closed_due q s w w' ds :
  is_Some (circuit_breaker (proxy q)) -> dispatches (trace w) = ds ++ [dispatch_state s] ->
  charged (trace w) = expected q ds -> skip_final_cb_record s = false -> closed q s w w' ->
  charged (trace w') = expected q (dispatches (trace w')).
Proof.
  intros [cfg Hc] Hd Hch Hk Hcl. rewrite (closed_dispatches _ _ _ _ Hcl), Hd, expected_snoc.
  destruct Hcl as [w1 es E _ [Hs|Hs]|w1 pre e post E (_ & H1 & _) (_ & H2 & _) He _ _ _ _ _]; [congruence..|].
  change (e :: post) with ([e] ++ post) in E. rewrite E, !charged_app, H1, H2, Hch. cbn. rewrite He. unfold key_charged. by rewrite Hc.
Qed.

(** A record that moves no breaker and returns no slot. *)
Definition empty_record (l : list event) (keys : list (option bytes)) : Prop :=
  exists pre a k post, l = pre ++ EvRecord a k CallNeutral false :: post /\ charged pre = keys /\ charged post = [].

Lemma closed_paid q s w w' :
  charged (trace w) = expected q (dispatches (trace w)) -> armed (guard w) = false ->
  skip_final_cb_record s = true
  \/ skip_final_cb_record s = false /\ result_of s = client_grpc_deadline_exceeded_response ->
  closed q s w w' ->
  let keys := expected q (dispatches (trace w')) in
  charged (trace w') = keys \/ empty_record (trace w') keys.
Proof.
  intros Hch Ha Hk Hcl. cbv zeta. rewrite (closed_dispatches _ _ _ _ Hcl), <- Hch.
  destruct Hcl as [w1 es E (_ & H1 & _) _|w1 pre e post E (_ & H1 & _) (_ & H2 & _) He _ _ _ Hsk Hr].
  - left. by rewrite E, charged_app, H1, app_nil_r.
  - right. destruct Hk as [Hk|[_ Hk]]; [congruence|]. destruct (Hr Hk) as [a ->]. rewrite Ha in E.
    exists (trace w ++ pre), a, (current_cb_target_key s), post.
    by rewrite E, app_assoc, charged_app, H1, app_nil_r.
Qed.

(** C34. With a breaker configured, every response a request receives is
    charged exactly once, in order, to the breaker key of the target that was
    dialled for it: intermediate failures before the backoff, the last
    response after the loop or, for a streaming body, when it completes. An
    abandoned request has charged every response it got. The one record
    beyond the dispatches, after a deadline cut the backoff, is neutral and
    returns no slot. *)
Theorem attempts_charged_once q f rounds cl c :
  is_Some (circuit_breaker (proxy q)) ->
  match serve q f rounds cl c with
  | Rejected w | Abandoned w => charged (trace w) = map d_key (dispatches (trace w))
  | Completed _ w =>
    charged (trace w) = map d_key (dispatches (trace w))
    \/ empty_record (trace w) (map d_key (dispatches (trace w)))
  | Unfinished => True
  end.
Proof.
  intros Hs. assert (He : forall ds, expected q ds = map d_key ds) by (intros ds; unfold expected; by destruct Hs as [? ->]).
  destruct (serve_concluded q f rounds cl c) as [w Hh|w Hh|s w w' Hr Hcl|cfg s w w' Er Hl Hcl|cfg w Er Hp|cfg Er Hn];
    rewrite <- ?He; [..|done].
  - destruct Hh as (-> & -> & _). by rewrite He.
  - destruct Hh as (-> & -> & _). by rewrite He.
  - left. destruct (Hr default_retry_config) as [_ (ds & Hd & Hch & _) _ _ _ _ Hk]. by eapply closed_due.
  - inversion Hl as [s' w1 Hrun|s' w1 Hp Ha Hsd Hk| |]; subst.
    + left. destruct Hrun as [_ (ds & Hd & Hch & _) _ _ _ _ Hk]. by eapply closed_due.
    + eapply closed_paid; [by eapply paid_charged|done..].
  - by eapply paid_charged.
Qed.

(** Only the last response of a request is ever reported to the passive
    health checker: a request that is served reports at most one target,
    however many attempts failed before, and an abandoned one reports none. *)
Theorem passive_health_sees_one_attempt q f rounds cl c :
  match serve q f rounds cl c with
  | Rejected w | Abandoned w => passives (trace w) = []
  | Completed _ w => (length (passives (trace w)) <= 1)%nat
  | Unfinished => True
  end.
Proof.
  destruct (serve_concluded q f rounds cl c) as [w Hh|w Hh|s w w' Hr Hcl|cfg s w w' Er Hl Hcl|cfg w Er Hp|cfg Er Hn]; [..|done].
  - by destruct Hh as (_ & _ & ->).
  - by destruct Hh as (_ & _ & ->).
  - pose proof (closed_passives _ _ _ _ Hcl). rewrite (run_passives _ _ _ _ _ (Hr default_retry_config)) in H. simpl in H. lia.
  - pose proof (closed_passives _ _ _ _ Hcl). destruct (ended_authorized _ _ _ _ _ Hl) as [_ E]. rewrite E in H. simpl in H. lia.
  - by eapply paid_passives.
Qed.
