(* ===== verification/RetrySlots.v ===== *)
(** * Which breaker a probe slot goes back to

    [RetrySafety] counts the half-open slots a request holds; here each slot is
    followed to the breaker instance it is taken from and returned to. While the
    request is in flight the proxy's cached breakers may be replaced by a reload:
    a slot is handed back under the request's key, so it reaches the breaker that
    granted it as long as the key still names that breaker, and another breaker
    otherwise. *)

From S2P Require Import Prelude Decimal RuntimeKeys BreakerWord CircuitBreaker BreakerOutcome BreakerCache Upstream Retry BackendPath RetryLoop RetrySafety.

(** ** Slots of one breaker *)

Definition slot_delta_at (a : nat) (e : event) : Z :=
  match e with
  | EvAdmit b _ true => if decide (b = a) then 1 else 0
  | EvRecord b _ _ true | EvRelease b => if decide (b = a) then -1 else 0
  | _ => 0
  end.

(** Taken minus given back at the breaker [a]. *)
Fixpoint slots_at (a : nat) (l : list event) : Z :=
  match l with [] => 0 | e :: l => slot_delta_at a e + slots_at a l end.

Lemma slots_at_app a l l' : slots_at a (l ++ l') = slots_at a l + slots_at a l'.
Proof. induction l; simpl; lia. Qed.

Definition owned (o : option nat) (a : nat) : Z := if decide (o = Some a) then 1 else 0.

(** At the end of the trace the request holds the slot [o], and at no point
    two of one breaker or one it never took. *)
Definition holding_at (o : option nat) (l : list event) : Prop :=
  forall a, slots_at a l = owned o a /\ forall k, 0 <= slots_at a (take k l) <= 1.

Lemma owned_bounds o a : 0 <= owned o a <= 1.
Proof. unfold owned. case_decide; lia. Qed.

Lemma holding_at_nil : holding_at None [].
Proof. intros a. split; [done|]. intros k. rewrite take_nil. simpl. lia. Qed.

Lemma holding_at_snoc o o' l e :
  holding_at o l -> (forall a, owned o' a = owned o a + slot_delta_at a e) -> holding_at o' (l ++ [e]).
Proof.
  intros Hl He a. destruct (Hl a) as [Hs Hk]. specialize (He a). pose proof (owned_bounds o' a).
  split; [rewrite slots_at_app; simpl; lia|].
  intros k. destruct (decide (k <= length l)%nat).
  - rewrite take_app_le by done. apply Hk.
  - rewrite take_ge by (rewrite length_app; simpl; lia). rewrite slots_at_app. simpl. lia.
Qed.

(** ** Named breakers *)

Definition key_of (p : Proxy) (tk : option bytes) : bytes := circuit_breaker_key (p_namespace p) (p_id p) tk.

(** The key names the breaker [a], built from the proxy's configuration. *)
Definition named (p : Proxy) (tk : option bytes) (a : nat) (c : cache) : Prop :=
  breakers c !! key_of p tk = Some a
  /\ exists cl, heap c !! a = Some cl /\ circuit_breaker p = Some (cell_config cl).

(** What other requests and reloads do meanwhile keeps the proxy's breakers. *)
Definition keeps_breakers (p : Proxy) (F : cache -> cache) : Prop :=
  forall c, cache_ok c -> cache_ok (F c) /\ forall tk a, named p tk a c -> named p tk a (F c).

Lemma get_named p tk a cfg c :
  named p tk a c -> circuit_breaker p = Some cfg -> get_or_create (p_namespace p) (p_id p) tk cfg c = (a, c).
Proof.
  intros [Hk (cl & Hcl & Hp)] Hc. unfold get_or_create. fold (key_of p tk). rewrite Hk.
  unfold config_matches. rewrite Hcl. by rewrite bool_decide_true by congruence.
Qed.

Lemma update_breakers c a b : breakers (update_breaker c a b) = breakers c.
Proof. unfold update_breaker. by case_match. Qed.

Lemma named_update p tk a b w c : named p tk a c -> named p tk a (update_breaker c b w).
Proof.
  intros [Hk (cl & Hcl & Hp)]. split; [by rewrite update_breakers|].
  unfold update_breaker. destruct (heap c !! b) as [cl'|] eqn:Eb; [|by eauto]. simpl.
  destruct (decide (b = a)) as [->|]; simplify_map_eq; eauto.
Qed.

Lemma named_on_breaker p tk a b f c : named p tk a c -> named p tk a (on_breaker b f c).
Proof. intros H. unfold on_breaker. case_match; [by apply named_update|done]. Qed.

(** [get_or_create] finds the named breaker or builds a closed one. *)
Lemma get_cases p tk cfg c :
  circuit_breaker p = Some cfg ->
  let '(a, c') := get_or_create (p_namespace p) (p_id p) tk cfg c in
  (c' = c /\ named p tk a c) \/ heap c' !! a = Some (Cell cfg new).
Proof.
  intros Hp. unfold get_or_create. fold (key_of p tk).
  destruct (breakers c !! key_of p tk) as [b|] eqn:Ek.
  - unfold config_matches. destruct (heap c !! b) as [cl|] eqn:Eb.
    + case_bool_decide as Hc; [left|right; simpl; by simplify_map_eq].
      split; [done|]. split; [done|]. exists cl. by rewrite Hc.
    + right. simpl. by simplify_map_eq.
  - destruct (try_reserve_entry_slot c); right; simpl; by simplify_map_eq.
Qed.

(** A probe was admitted by the breaker the key named. *)
Lemma probe_named p tk cfg now c a epoch c' :
  circuit_breaker p = Some cfg ->
  can_execute_with_admission_epoch (p_namespace p) (p_id p) tk cfg now c = (Ok (a, true, epoch), c') ->
  named p tk a c'.
Proof.
  intros Hp E. unfold can_execute_with_admission_epoch in E. pose proof (get_cases p tk cfg c Hp) as Hg.
  destruct (get_or_create _ _ tk cfg c) as [b c1]. destruct Hg as [[-> Hn]|Hf].
  - destruct (heap c !! b) as [cl|]; [|done].
    destruct (CircuitBreaker.can_execute _ _ _) as [[probe|] b']; [|done].
    injection E as <- -> _ <-. by apply named_update.
  - rewrite Hf in E. done.
Qed.

Lemma record_ok cfg call slot clocks b : wf cfg b -> wf cfg (apply_call cfg call slot clocks b).
Proof. intros Hb. destruct (record_wf cfg b Hb) as (H1 & H2 & H3). destruct call; simpl; auto. Qed.

Lemma on_breaker_ok a f c :
  cache_ok c -> (forall cfg b, wf cfg b -> wf cfg (f cfg b)) -> cache_ok (on_breaker a f c).
Proof.
  intros Hc Hf. unfold on_breaker. destruct (heap c !! a) as [cl|] eqn:E; [|done].
  eapply update_breaker_ok; [done..|]. by apply Hf, (ok_cells _ Hc a).
Qed.

Lemma named_get p tk tk' cfg c a :
  cache_ok c -> circuit_breaker p = Some cfg -> named p tk' a c ->
  named p tk' a (get_or_create (p_namespace p) (p_id p) tk cfg c).2.
Proof.
  intros Hc Hp Hn. destruct (decide (key_of p tk = key_of p tk')) as [E|E].
  { assert (Hn' : named p tk a c) by (unfold named in *; by rewrite E). by rewrite (get_named p tk a cfg c Hn' Hp). }
  destruct Hn as [Hk (cl & Hcl & Hcfg)].
  assert (Ha : next_id c <> a) by (intros <-; by rewrite (ok_fresh _ Hc) in Hcl).
  unfold get_or_create. fold (key_of p tk).
  destruct (breakers c !! key_of p tk) as [b|]; [destruct (config_matches c b cfg)|].
  - split; eauto.
  - split; simpl; [by rewrite lookup_insert_ne by done|]. exists cl. by rewrite lookup_insert_ne by done.
  - unfold try_reserve_entry_slot. destruct (_ <? _); split; simpl; rewrite ?lookup_insert_ne by done; eauto.
Qed.

(** Requests of the same proxy are such interference: their admissions and
    their reports keep every breaker the proxy's keys name. *)
Lemma admission_keeps p tk cfg now :
  circuit_breaker p = Some cfg ->
  keeps_breakers p (fun c => (can_execute_with_admission_epoch (p_namespace p) (p_id p) tk cfg now c).2).
Proof.
  intros Hp c Hc. split; [by apply can_execute_epoch_ok|]. intros tk' a Hn.
  pose proof (named_get p tk tk' cfg c a Hc Hp Hn) as Hg. unfold can_execute_with_admission_epoch.
  destruct (get_or_create _ _ tk cfg c) as [b c1]. simpl in Hg.
  destruct (heap c1 !! b) as [cl|]; [|done].
  destruct (CircuitBreaker.can_execute _ _ _) as [[probe|] b']; by apply named_update.
Qed.

Lemma report_keeps p a call slot clocks :
  keeps_breakers p (on_breaker a (fun cfg => apply_call cfg call slot clocks)).
Proof.
  intros c Hc. split; [apply on_breaker_ok; [done|intros; by apply record_ok]|].
  intros tk b. apply named_on_breaker.
Qed.

(** ** Following the slot *)

Section Following.
Context (q : request).
Let p := proxy q.

(** The request holds the slot [o], under the key [key]. *)
Record owns (key : option bytes) (o : option nat) (w : world) : Prop := {
  owns_ok : cache_ok (store w);
  owns_trace : holding_at o (trace w);
  owns_named : forall a, o = Some a -> named p key a (store w);
}.

Definition owner (w : world) : option nat := if armed (guard w) then guard_cb (guard w) else None.

Definition tracked (key : option bytes) (w : world) : Prop :=
  owns key (owner w) w /\ (armed (guard w) = true -> is_Some (guard_cb (guard w)))
  /\ (circuit_breaker p = None -> armed (guard w) = false).

(** No slot held and none in the guard. *)
Definition free (w : world) : Prop := (forall key, owns key None w) /\ armed (guard w) = false.

Lemma free_tracked key w : free w -> tracked key w.
Proof. intros [Ho Ha]. unfold tracked, owner. rewrite Ha. by split_and!. Qed.

Lemma owns_none key w : owns key None w -> forall key', owns key' None w.
Proof. intros [H1 H2 _] key'. by constructor. Qed.

Lemma owns_emit key o e w : (forall a, slot_delta_at a e = 0) -> owns key o w -> owns key o (emit e w).
Proof.
  intros He [H1 H2 H3]. constructor; [done| |done]. simpl.
  apply (holding_at_snoc o); [done|]. intros a. rewrite He. lia.
Qed.

Lemma tracked_emit key e w : (forall a, slot_delta_at a e = 0) -> tracked key w -> tracked key (emit e w).
Proof. intros He [Ho Hg]. split; [by apply owns_emit|done]. Qed.

Lemma free_emit e w : (forall a, slot_delta_at a e = 0) -> free w -> free (emit e w).
Proof. intros He [Ho Ha]. split; [|done]. intros key. by apply owns_emit. Qed.

Lemma owns_store key o F w : keeps_breakers p F -> owns key o w -> owns key o (with_store w (F (store w))).
Proof.
  intros HF [H1 H2 H3]. destruct (HF _ H1) as [Hc Hn]. constructor; simpl; [done|done|].
  intros a Ha. by apply Hn, H3.
Qed.

Lemma tracked_store key F w : keeps_breakers p F -> tracked key w -> tracked key (with_store w (F (store w))).
Proof. intros HF [Ho Hg]. split; [by apply (owns_store key _ F)|done]. Qed.

Lemma free_store F w : keeps_breakers p F -> free w -> free (with_store w (F (store w))).
Proof. intros HF [Ho Ha]. split; [|done]. intros key. by apply owns_store. Qed.

Lemma release_free key w : tracked key w -> free (release_neutral w).
Proof.
  intros ([H1 H2 H3] & Hg & _). unfold release_neutral, take_slot, owner in *.
  destruct (armed (guard w)); [|split; [|done]; intros key'; by constructor].
  destruct (Hg eq_refl) as [a Ha]. rewrite Ha in *. split; [|done]. intros key'. constructor; simpl; [| |done].
  - apply on_breaker_ok; [done|]. intros cfg b Hb. by apply record_wf.
  - apply (holding_at_snoc (Some a)); [done|]. intros b. unfold owned. simpl.
    repeat case_decide; simplify_eq; lia.
Qed.

(** A record under the key of the slot returns it to its breaker. *)
Lemma record_returns key o cfg call slot clocks w :
  circuit_breaker p = Some cfg -> owns key o w -> slot = bool_decide (is_Some o) ->
  let '(cb, c) := get_or_create (p_namespace p) (p_id p) key cfg (store w) in
  forall key', owns key' None (record_on cb key call slot clocks (with_store w c)).
Proof.
  intros Hp [H1 H2 H3] ->. destruct (get_or_create_ok (p_namespace p) (p_id p) key cfg (store w) H1) as [Hok _].
  destruct o as [a|].
  - rewrite (get_named p key a cfg (store w) (H3 a eq_refl) Hp). intros key'. constructor; simpl; [| |done].
    + apply on_breaker_ok; [done|]. intros. by apply record_ok.
    + apply (holding_at_snoc (Some a)); [done|]. intros b. unfold owned. simpl.
      repeat case_decide; simplify_eq; lia.
  - destruct (get_or_create _ _ key cfg (store w)) as [cb c]. intros key'. constructor; simpl; [| |done].
    + apply on_breaker_ok; [done|]. intros. by apply record_ok.
    + apply (holding_at_snoc None); [done|]. intros b. simpl. lia.
Qed.

Lemma owns_ext key o w w' : store w' = store w -> trace w' = trace w -> owns key o w -> owns key o w'.
Proof. intros E1 E2 [H1 H2 H3]. constructor; rewrite ?E1, ?E2; done. Qed.

Lemma owner_slot w :
  (armed (guard w) = true -> is_Some (guard_cb (guard w))) -> armed (guard w) = bool_decide (is_Some (owner w)).
Proof.
  intros Hg. unfold owner. destruct (armed (guard w)); [|done]. by rewrite bool_decide_true by auto.
Qed.

Lemma record_intermediate_free clocks s w :
  tracked (current_cb_target_key s) w -> free (record_intermediate q clocks s w).
Proof.
  intros Hw. unfold record_intermediate. set (w' := if permits s then _ else _).
  assert (Hw' : tracked (current_cb_target_key s) w') by (subst w'; destruct (permits s); [by apply tracked_emit|done]).
  clearbody w'. destruct Hw' as (Ho & Hg & Hn). fold p.
  destruct (circuit_breaker p) as [cfg|] eqn:Ec.
  - pose proof (record_returns (current_cb_target_key s) (owner w') cfg
      (if client_side_no_backend_signal (resp_error_class (result_of s)) then CallNeutral
       else CallFailure (status_code (result_of s)) (resp_connection_error (result_of s)))
      (armed (guard w')) clocks w' Ec Ho (owner_slot w' Hg)) as Hr.
    destruct (get_or_create _ _ _ cfg (store w')) as [cb c]. unfold take_slot.
    split; [|done]. intros key'. eapply owns_ext; [| |exact (Hr key')]; done.
  - unfold owner in Ho. rewrite Hn in Ho by done. split; [|by apply Hn]. by eapply owns_none.
Qed.

Lemma admit_tracked now s w :
  free w -> let '(o, w') := admit_attempt q now s w in
  tracked (current_cb_target_key s) w'
  /\ match o with None => free w' | Some s' => current_cb_target_key s' = current_cb_target_key s end.
Proof.
  intros [Ho Ha]. unfold admit_attempt. fold p.
  destruct (circuit_breaker p) as [cfg|] eqn:Ec; [|by split; [apply free_tracked; split|]].
  pose proof (can_execute_epoch_ok (p_namespace p) (p_id p) (current_cb_target_key s) cfg now (store w)
                (owns_ok _ _ _ (Ho None))) as Hok.
  pose proof (fun a e c => probe_named p (current_cb_target_key s) cfg now (store w) a e c Ec) as Hpn.
  destruct (can_execute_with_admission_epoch _ _ _ cfg now (store w)) as [[[[cb probe] epoch]|e] c]; simpl in Hok.
  - split; [|done]. unfold tracked, rearm, release_neutral, take_slot, owner. simpl. rewrite Ha. simpl.
    split_and!; [|by destruct probe; simpl; eauto|congruence].
    destruct (Ho None) as [_ Ht _]. destruct probe; constructor; simpl; try done.
    + apply (holding_at_snoc None); [done|]. intros b. unfold owned; simpl. repeat case_decide; simplify_eq; lia.
    + intros a [= <-]. by eapply Hpn.
    + apply (holding_at_snoc None); [done|]. intros b. simpl. lia.
  - assert (Hf : free (with_store w c)).
    { split; [|done]. intros key. destruct (Ho None) as [_ Ht _]. by constructor. }
    split; [by apply free_tracked|done].
Qed.

Definition flow_tracked (f : flow) : Prop :=
  match f with
  | Continue s w | Break s w => tracked (current_cb_target_key s) w
  | Gone w => free w
  end.

Definition round_keeps (rd : round) : Prop :=
  keeps_breakers p (during_backoff rd) /\ keeps_breakers p (during_dispatch rd).

Lemma dispatch_tracked rd s w :
  round_keeps rd -> tracked (current_cb_target_key s) w -> flow_tracked (dispatch_attempt rd s w).
Proof.
  intros [_ Hk] Hw. unfold dispatch_attempt, drop_guard.
  assert (Hw' := tracked_store _ _ _ Hk Hw).
  destruct (admission_rejected rd); [simpl; eapply (release_free None), free_tracked, release_free, Hw|].
  destruct (dispatch_dropped rd); simpl; [by eapply release_free|]. by apply tracked_emit.
Qed.

Lemma iteration_tracked config retained rd s w :
  round_keeps rd -> tracked (current_cb_target_key s) w ->
  flow_tracked (retry_iteration q config retained rd s w).
Proof.
  intros Hk Hw. unfold retry_iteration. destruct (retry_gate q retained (candidate rd) s) as [|next]; [done|].
  cbv zeta. set (w1 := with_store _ _).
  assert (H1 : free w1).
  { subst w1. apply free_store; [apply Hk|]. apply free_emit; [done|]. by apply record_intermediate_free. }
  clearbody w1. unfold drop_guard. pose proof (fun key => free_tracked key w1 H1) as Ht.
  destruct (backoff_dropped rd); [simpl; by eapply (release_free None)|].
  destruct (_ && deadline_elapsed rd); [by apply Ht|].
  destruct (peer_auth_mismatch rd); [simpl; by eapply (release_free None)|].
  destruct (transport_refusal q rd _); [by apply Ht|].
  set (s1 := rotate next (set_permits s false)).
  pose proof (admit_tracked (admission_now rd) s1 w1 H1) as H2.
  destruct (admit_attempt q _ s1 w1) as [[s'|] w2]; destruct H2 as [H2 H3].
  - apply dispatch_tracked; [done|]. by rewrite H3.
  - by apply free_tracked.
Qed.

Lemma loop_tracked config retained rounds : forall s w,
  Forall round_keeps rounds -> tracked (current_cb_target_key s) w ->
  match retry_loop q config retained rounds s w with
  | Ended s' w' => tracked (current_cb_target_key s') w'
  | Left w' => free w'
  | OutOfRounds => True
  end.
Proof.
  induction rounds as [|rd rounds IH]; intros s w Hk Hw; simpl; destruct (should_retry _ _ _ _); try done; simpl.
  apply Forall_cons in Hk as [Hrd Hk]. pose proof (iteration_tracked config retained rd s w Hrd Hw) as Hf.
  destruct (retry_iteration _ _ _ _ _ _); [by apply IH|done..].
Qed.

(** The final record. *)
Lemma outcome_free cl s r slot o w :
  owns (current_cb_target_key s) o w -> armed (guard w) = false -> slot = bool_decide (is_Some o) ->
  (circuit_breaker p = None -> o = None) ->
  free (record_backend_outcome_no_conn_end q cl s r slot false w).
Proof.
  intros Ho Ha Hs Hn. unfold record_backend_outcome_no_conn_end. cbv zeta. fold p.
  set (w1 := match upstream_id p with Some _ => _ | None => w end).
  assert (H1 : owns (current_cb_target_key s) o w1 /\ armed (guard w1) = false)
    by (subst w1; repeat case_match; try done; split; [by apply owns_emit|done]).
  clearbody w1. destruct H1 as [H1 Ha1]. set (w2 := match circuit_breaker p with Some _ => _ | None => w1 end).
  assert (H2 : free w2).
  { subst w2. destruct (circuit_breaker p) as [cfg|] eqn:Ec.
    - pose proof (record_returns (current_cb_target_key s) o cfg
        (classify (failure_status_codes cfg)
           (Outcome (recorded_backend_status cl) (resp_connection_error r) (resp_error_class r)))
        slot (final_clocks cl) w1 Ec H1 Hs) as Hr.
      destruct (get_or_create _ _ _ cfg (store w1)) as [cb c]. by split.
    - rewrite Hn in H1 by done. split; [by eapply owns_none|done]. }
  clearbody w2. repeat case_match; try done; by apply free_emit.
Qed.

Lemma outcome_skipped cl s r slot key w :
  tracked key w -> tracked key (record_backend_outcome_no_conn_end q cl s r slot true w).
Proof.
  intros Hw. unfold record_backend_outcome_no_conn_end. repeat case_match; repeat (apply tracked_emit; [done|]); done.
Qed.

Lemma finish_free cl s w : tracked (current_cb_target_key s) w -> free (finish q cl s w).
Proof.
  intros Hw. unfold finish. cbv zeta. set (r := if precommit_authorization_terminal cl then _ else _).
  set (w1 := if streams_h2_h3 r && _ then _ else _).
  assert (H1 : exists key, tracked key w1).
  { subst w1. destruct (streams_h2_h3 r && _), (skip_final_cb_record s).
    - by eexists.
    - exists None. pose proof (release_free _ _ Hw) as Hf.
      case_match; apply free_tracked; [by apply free_emit|done].
    - eexists. by apply outcome_skipped.
    - destruct Hw as (Ho & Hg & Hn). exists None. apply free_tracked. unfold take_slot.
      apply (outcome_free cl s r (armed (guard w)) (owner w)); [by eapply owns_ext; [| |exact Ho]|done|by apply owner_slot|].
      intros Hc. unfold owner. by rewrite Hn. }
  clearbody w1. destruct H1 as [key H1]. unfold drop_guard. apply (release_free key).
  destruct (_ && permits s); [by apply tracked_emit|done].
Qed.

End Following.

(** ** The whole request *)

(** Nothing replaces or removes the proxy's breakers while the request is in
    flight. *)
Definition undisturbed (q : request) (f : first_round) (rounds : list round) : Prop :=
  keeps_breakers (proxy q) (after_admission f) /\ keeps_breakers (proxy q) (during_first f)
  /\ Forall (round_keeps q) rounds.

(** Admission of the first attempt and the guard it installs. *)
Lemma first_tracked q now F c :
  cache_ok c -> keeps_breakers (proxy q) F ->
  match check_circuit_breaker (proxy q) (upstream_target q) now (World c guard_none []) with
  | (Ok (key, probe, _), w) => tracked q key (guard_new (proxy q) key probe (with_store w (F (store w))))
  | (Err _, w) => holding_at None (trace w)
  end.
Proof.
  intros Hc HF. unfold check_circuit_breaker. set (key := circuit_breaker_target_key _ _).
  assert (H0 : forall c', cache_ok c' -> free q (World c' guard_none [])).
  { intros c' Hc'. split; [|done]. intros k. constructor; [done|apply holding_at_nil|done]. }
  destruct (circuit_breaker (proxy q)) as [cfg|] eqn:Ec.
  2: { unfold guard_new; simpl. apply free_tracked. apply (free_store q F (World c guard_none [])); [done|]. by apply H0. }
  simpl. pose proof (can_execute_epoch_ok (p_namespace (proxy q)) (p_id (proxy q)) key cfg now c Hc) as Hok.
  pose proof (fun a e c' => probe_named (proxy q) key cfg now c a e c' Ec) as Hpn.
  destruct (can_execute_with_admission_epoch _ _ key cfg now c) as [[[[a probe] epoch]|e] c']; simpl in Hok;
    [|apply holding_at_nil].
  destruct (HF c' Hok) as [Hok' Hkeep]. unfold guard_new. simpl. destruct probe; simpl.
  - assert (Hn : named (proxy q) key a (F c')) by (by apply Hkeep; eapply Hpn).
    rewrite Ec. rewrite (get_named (proxy q) key a cfg (F c') Hn Ec).
    unfold tracked, owner; simpl. split_and!; [|by eauto|congruence].
    constructor; simpl; [done| |by intros ? [= <-]].
    apply (holding_at_snoc None _ []); [apply holding_at_nil|].
    intros b. unfold owned; simpl. repeat case_decide; simplify_eq; lia.
  - apply free_tracked. split; [|done]. intros k. constructor; simpl; [done| |done].
    apply (holding_at_snoc None _ []); [apply holding_at_nil|]. intros b. simpl. lia.
Qed.

Lemma slots_returned q f rounds cl c :
  cache_ok c -> undisturbed q f rounds ->
  match serve q f rounds cl c with
  | Rejected w | Completed _ w | Abandoned w => holding_at None (trace w)
  | Unfinished => True
  end.
Proof.
  intros Hc (Ha & Hd & Hr). assert (Hend : forall w, free q w -> holding_at None (trace w))
    by (intros w [Ho _]; apply (Ho None)).
  unfold serve, drop_guard. pose proof (first_tracked q (first_now f) (after_admission f) c Hc Ha) as H1.
  destruct (check_circuit_breaker _ _ _ _) as [[[[key probe] epoch]|e] w]; [|done].
  set (w1 := guard_new _ _ _ _) in *. clearbody w1. destruct (effective_endpoint q) as [h p].
  assert (H2 := tracked_store q key _ _ Hd H1).
  assert (Hrr : forall w, tracked q key w -> holding_at None (trace (release_neutral (release_neutral w)))).
  { intros w' Hw'. apply Hend. eapply (release_free q None), free_tracked, release_free, Hw'. }
  destruct (build_backend_url_with_target _ _ _ _ _ _ _) as [url|]; [|by apply Hrr].
  destruct (first_dropped f); [by eapply Hend, release_free|].
  destruct (first_rejected f); [by apply Hrr|]. cbv zeta.
  assert (H3 : forall e, (forall a, slot_delta_at a e = 0) ->
            tracked q key (emit e (with_store w1 (during_first f (store w1)))))
    by (intros e He; by apply tracked_emit).
  destruct (if has_retry q then _ else _) as [config|]; [|by apply Hend, finish_free, (H3 (EvDispatch _))].
  pose proof (loop_tracked q config (retained_body f) rounds (initial_state q key url epoch f) _ Hr
    (H3 (EvDispatch (Dispatch 0 (upstream_target q) url key (first_response f))) (fun _ => eq_refl))) as H4.
  destruct (retry_loop _ _ _ _ _ _); [by apply Hend, finish_free|by apply Hend|done].
Qed.

(** C8. Every half-open probe slot a request takes is given back exactly once,
    however the request ends: served with or without retries, refused by a
    screen, a breaker or an admission plugin, cut by its deadline, or dropped by
    its client at any await. Whatever other requests and reloads do to the breakers
    meanwhile, the request never holds two slots, gives back none it did not take,
    and ends with none. And as long as no reload replaces or removes the proxy's
    breakers while the request is in flight, each slot goes back to the breaker
    instance that granted it: at every breaker the request's takes and returns
    balance at the end, and at no point has it returned more than it took. *)
Theorem probe_slots_settled q f rounds cl c :
  match serve q f rounds cl c with
  | Rejected w | Completed _ w | Abandoned w =>
    (slots (trace w) = 0 /\ forall k, 0 <= slots (take k (trace w)) <= 1)
    /\ (cache_ok c -> undisturbed q f rounds ->
        forall a, slots_at a (trace w) = 0 /\ forall k, 0 <= slots_at a (take k (trace w)) <= 1)
  | Unfinished => True
  end.
Proof.
  pose proof (slots_settled q f rounds cl c) as H1.
  pose proof (fun Hc Hu => slots_returned q f rounds cl c Hc Hu) as H2.
  destruct (serve q f rounds cl c); try done; (split; [done|]); intros Hc Hu; exact (H2 Hc Hu).
Qed.

(** ** A slot that outlives its breaker *)

(** Worlds that differ in events that move no slot. *)
Definition same_slots (w w' : world) : Prop :=
  store w' = store w /\ guard w' = guard w /\ forall a, slots_at a (trace w') = slots_at a (trace w).

Lemma same_slots_refl w : same_slots w w.
Proof. by split_and!. Qed.

Lemma same_slots_emit e w w' :
  (forall a, slot_delta_at a e = 0) -> same_slots w w' -> same_slots w (emit e w').
Proof.
  intros He (H1 & H2 & H3). split_and!; [done|done|]. intros a. simpl. rewrite slots_at_app; simpl.
  rewrite He, H3. lia.
Qed.

(** The final record goes to the breaker the key names at that moment. *)
Lemma outcome_record q cl s r slot w cfg cb :
  circuit_breaker (proxy q) = Some cfg -> named (proxy q) (current_cb_target_key s) cb (store w) ->
  exists call,
    let w' := record_backend_outcome_no_conn_end q cl s r slot false w in
    same_slots (record_on cb (current_cb_target_key s) call slot (final_clocks cl) w) w'.
Proof.
  intros Hp Hn. unfold record_backend_outcome_no_conn_end. cbv zeta.
  set (w1 := match upstream_id (proxy q) with Some _ => _ | None => w end).
  assert (H1 : same_slots w w1).
  { subst w1. repeat case_match; try apply same_slots_emit; by try apply same_slots_refl. }
  clearbody w1. rewrite Hp. destruct H1 as (E1 & E2 & E3).
  rewrite E1, (get_named (proxy q) _ cb cfg (store w) Hn Hp).
  eexists. set (w2 := record_on cb _ _ slot _ (with_store w1 (store w))).
  assert (H2 : same_slots (record_on cb (current_cb_target_key s) (classify (failure_status_codes cfg)
      (Outcome (recorded_backend_status cl) (resp_connection_error r) (resp_error_class r))) slot (final_clocks cl) w) w2).
  { split_and!; [done|exact E2|]. intros b. simpl. rewrite !slots_at_app. by rewrite E3. }
  clearbody w2. repeat case_match; try apply same_slots_emit; done.
Qed.

(** C36. A probe slot may be returned to a breaker that never granted it. Take
    any request that is admitted as a probe by a breaker [a] and whose first
    response is final (not a deferred stream, not retried), and anything that,
    while the request is in flight, leaves its key naming another breaker [a'] of
    the same configuration, as removing and adding the proxy does. When the
    response is recorded at the end of the request, the record goes to [a'] with
    the slot, which [a'] never granted, while the slot of [a] is never returned
    and [a] stays as the reload left it. *)
Theorem slot_returned_to_replacement q f rounds cl c cfg key epoch w a a' cl' url :
  circuit_breaker (proxy q) = Some cfg ->
  check_circuit_breaker (proxy q) (upstream_target q) (first_now f) (World c guard_none [])
    = (Ok (key, true, epoch), w) ->
  trace w = [EvAdmit a key true] ->
  build_backend_url_with_target (paths (proxy q)) (req_path q) (query_string q) (effective_endpoint q).1
    (effective_endpoint q).2 (strip_len q) (t ← upstream_target q; path t) = Ok url ->
  first_dropped f = false -> first_rejected f = false ->
  (forall config, retry (policy (proxy q)) = Some config ->
     should_retry config (method q) (first_response f) 0 = false) ->
  streaming_should_defer cl = false ->
  let w1 := guard_new (proxy q) key true (with_store w (after_admission f (store w))) in
  let c1 := during_first f (store w1) in
  breakers c1 !! key_of (proxy q) key = Some a' -> heap c1 !! a' = Some cl' -> cell_config cl' = cfg -> a' <> a ->
  exists s w' call,
    serve q f rounds cl c = Completed s w'
    /\ slots_at a (trace w') = 1 /\ slots_at a' (trace w') = -1
    /\ heap (store w') !! a = heap c1 !! a
    /\ heap (store w') !! a' = Some (Cell cfg (apply_call cfg call true (final_clocks cl) (cell_breaker cl'))).
Proof.
  intros Hp Hadm Htr Hurl Hfd Hfr Hnr Hdef w1 c1 Hk Hcl Hcfg Hne.
  assert (Hw1 : trace w1 = [EvAdmit a key true] /\ armed (guard w1) = true).
  { subst w1. unfold guard_new. simpl. rewrite Hp. destruct (get_or_create _ _ _ _ _). by rewrite <- Htr. }
  destruct Hw1 as [Ht1 Hg1].
  unfold serve. rewrite Hadm. fold w1. clearbody w1.
  destruct (effective_endpoint q) as [h pt]. cbn [fst snd] in Hurl.
  rewrite Hurl, Hfd, Hfr. cbv zeta. fold c1. set (s := initial_state q key url epoch f).
  set (w2 := emit (EvDispatch (Dispatch 0 (upstream_target q) url key (first_response f))) (with_store w1 c1)).
  assert (Hn : named (proxy q) (current_cb_target_key s) a' (store (disarm w2)))
    by (split; [exact Hk|]; exists cl'; by rewrite Hcfg).
  destruct (outcome_record q cl s (if precommit_authorization_terminal cl
      then Resp (status_code (result_of s)) false (Some ClientDisconnect) false else result_of s)
    true (disarm w2) cfg a' Hp Hn) as (call & E1 & E2 & E3).
  exists s, (finish q cl s w2), call. split.
  { destruct (has_retry q); [|done]. destruct (retry (policy (proxy q))) as [config|]; [|done].
    specialize (Hnr config eq_refl).
    destruct rounds; cbn [retry_loop]; change (result_of s) with (first_response f); change (attempt s) with 0;
      by rewrite Hnr. }
  unfold finish. rewrite Hdef, andb_false_r. change (skip_final_cb_record s) with false.
  unfold take_slot. change (armed (guard w2)) with (armed (guard w1)). rewrite Hg1.
  set (w3 := record_backend_outcome_no_conn_end q cl s _ true false (disarm w2)) in *.
  set (w4 := if negb (is_streaming_response cl) && permits s then _ else w3).
  assert (H4 : same_slots w3 w4).
  { subst w4. destruct (_ && permits s); [apply same_slots_emit; [done|]|]; apply same_slots_refl. }
  destruct H4 as (F1 & F2 & F3). clearbody w4. unfold drop_guard, release_neutral, take_slot. rewrite F2, E2.
  cbn [armed guard disarm with_guard record_on emit with_store store trace] in *.
  assert (Ht2 : forall b, slots_at b (trace w2) = slots_at b [EvAdmit a key true])
    by (intros b; subst w2; cbn; rewrite slots_at_app, Ht1; cbn; lia).
  rewrite F1, !F3, E1, !E3, !slots_at_app, !Ht2. unfold on_breaker, update_breaker.
  change (store w2) with c1. rewrite Hcl. cbn. rewrite Hcfg.
  repeat case_decide; try congruence. split_and!; [lia|lia|by rewrite lookup_insert_ne|by rewrite lookup_insert_eq].
Qed.
