(* ===== verification/RetryExamples.v ===== *)
(** * Executions of the retry loop

    Concrete requests, to which the theorems are applied: a failing target
    rotated away from, and a probe slot that outlives the breaker that granted
    it. *)

From S2P Require Import Prelude Decimal RuntimeKeys CircuitBreaker BreakerOutcome BreakerCache Upstream Retry BackendPath RetryLoop RetrySafety RetrySlots.

Definition demo_breaker : CircuitBreakerConfig := {|
  failure_threshold := 1; success_threshold := 2; timeout_seconds := 1;
  failure_status_codes := [500; 502; 503]; half_open_max_requests := 1; trip_on_connection_errors := true |}.

Definition demo_retries : RetryConfig :=
  Retries 2 [503] default_retryable_methods (Exponential 100 2000) true.

Definition demo_target (name : string) : UpstreamTarget := Target (bs name) 80 None 1 ∅ None None.

(** Port 80 carries a cap of one retry in the second policy. *)
Definition demo_policy (cap : option Z) : RetryPolicy :=
  Policy (Some demo_retries) (Some {[ 80 := cap ]}) None.

Definition demo_proxy (cap : option Z) : Proxy :=
  ProxyView (bs "ns") (bs "p1") (Some (bs "u1")) [] 0 (Some demo_breaker) (demo_policy cap)
    (PathFields true (Some (bs "/v1")) HttpPool).

Definition demo_request (cap : option Z) : request :=
  Request (demo_proxy cap) (bs "GET") (bs "/api/x") [] 4 true (Some (demo_target "a")) true false false false true.

Definition unavailable : BackendResponse := Resp 503 false None false.
Definition fine : BackendResponse := Resp 200 false None false.

Definition demo_first (during : cache -> cache) (r : BackendResponse) : first_round :=
  First 5000 (fun c => c) false false true true during r.

Definition demo_round (to : string) (r : BackendResponse) : round :=
  Round (Some (demo_target to)) (6000, 6000) 0 (fun c => c) false false false false false 6000 false true
    (fun c => c) false r.

Definition demo_closing : closing := Closing false 200 false false false true true (7000, 7000).

Definition empty_cache : cache := with_max_entries 10.

Definition rotating (cap : option Z) : served :=
  serve (demo_request cap) (demo_first (fun c => c) unavailable)
    [demo_round "b" unavailable; demo_round "c" fine] demo_closing empty_cache.

Definition trace_of (s : served) : list event :=
  match s with Rejected w | Completed _ w | Abandoned w => trace w | Unfinished => [] end.

Definition hosts_dialled (s : served) : list bytes :=
  omap (fun d => host <$> d_target d) (dispatches (trace_of s)).

(** The uncapped request fails over twice; a cap of one retry stops it after
    the first, and a cap of zero lets no replay out. *)
Example rotations :
  hosts_dialled (rotating None) = [bs "a"; bs "b"; bs "c"]
  /\ hosts_dialled (rotating (Some 1)) = [bs "a"; bs "b"]
  /\ hosts_dialled (rotating (Some 0)) = [bs "a"]
  /\ passives (trace_of (rotating None)) = [demo_target "c"].
Proof. vm_compute. done. Qed.

Definition completed (s : served) : bool := match s with Completed _ _ => true | _ => false end.

Definition final_world (s : served) : world :=
  match s with Rejected w | Completed _ w | Abandoned w => w | Unfinished => World empty_cache guard_none [] end.

Lemma rotating_completes : exists s, rotating None = Completed s (final_world (rotating None)).
Proof. eexists. vm_compute. reflexivity. Qed.

Lemma rotating_dispatches : length (dispatches (trace (final_world (rotating None)))) = 3%nat.
Proof. vm_compute. reflexivity. Qed.

Lemma retry_dispatches_authorized_witness :
  authorized (demo_request None) demo_retries true (dispatches (trace (final_world (rotating None))))
  /\ length (dispatches (trace (final_world (rotating None)))) = 3%nat.
Proof.
  split; [|exact rotating_dispatches].
  destruct rotating_completes as [s Hs].
  pose proof (retry_dispatches_authorized (demo_request None) (demo_first (fun c => c) unavailable)
    [demo_round "b" unavailable; demo_round "c" fine] demo_closing empty_cache demo_retries eq_refl) as H.
  change (serve _ _ _ _ _) with (rotating None) in H. rewrite Hs in H. exact H.
Defined.

Lemma rotating_charges :
  charged (trace (final_world (rotating None))) = [Some (bs "a:80"); Some (bs "b:80"); Some (bs "c:80")].
Proof. vm_compute. reflexivity. Qed.

Lemma attempts_charged_once_witness :
  (charged (trace (final_world (rotating None))) = map d_key (dispatches (trace (final_world (rotating None))))
   \/ empty_record (trace (final_world (rotating None))) (map d_key (dispatches (trace (final_world (rotating None))))))
  /\ charged (trace (final_world (rotating None))) = [Some (bs "a:80"); Some (bs "b:80"); Some (bs "c:80")].
Proof.
  split; [|exact rotating_charges].
  destruct rotating_completes as [s Hs].
  pose proof (attempts_charged_once (demo_request None) (demo_first (fun c => c) unavailable)
    [demo_round "b" unavailable; demo_round "c" fine] demo_closing empty_cache (ex_intro _ demo_breaker eq_refl)) as H.
  change (serve _ _ _ _ _) with (rotating None) in H. rewrite Hs in H. exact H.
Defined.

(** ** A reload during the probe *)

Definition demo_key : option bytes := Some (bs "a:80").

(** Trip the breaker of target [a] at time [now]. *)
Definition trip (now : Z) (c : cache) : cache :=
  let '(a, c) := get_or_create (bs "ns") (bs "p1") demo_key demo_breaker c in
  on_breaker a (fun cfg => record_failure cfg 503 false false (now, now)) c.

(** Another request admitted at time [now]. *)
Definition another_admitted (now : Z) (c : cache) : cache :=
  (can_execute_with_admission_epoch (bs "ns") (bs "p1") demo_key demo_breaker now c).2.

(** The proxy is removed and added again, its new breaker trips, and another
    request is admitted as the probe of the new breaker. *)
Definition reload_and_probe (c : cache) : cache :=
  another_admitted 7000 (trip 5500 (prune [NsId (bs "ns") (bs "p1")] c)).

Definition single_request : request :=
  Request (demo_proxy None) (bs "POST") (bs "/api/x") [] 4 true (Some (demo_target "a")) true false false false true.

Definition outlived : served :=
  serve single_request (demo_first reload_and_probe fine) [] demo_closing (trip 0 empty_cache).

Definition in_flight_at (a : nat) (c : cache) : option Z := half_open_in_flight ∘ cell_breaker <$> heap c !! a.

(** The first request's success is recorded under its key with its slot: it
    takes the in-flight count of the second breaker to zero while its probe is
    still out, so a further request is admitted beyond the limit of one, and the
    slot of the first breaker is never returned. *)
Example outlived_run :
  trace_of outlived
    = [EvAdmit 0 demo_key true;
       EvDispatch (Dispatch 0 (Some (demo_target "a")) (bs "http://a:80/v1/x") demo_key fine);
       EvSample (demo_target "a") false; EvRecord 1 demo_key CallSuccess true;
       EvPassive (demo_target "a") 200 false; EvPermit (Outcome 200 false None)]
  /\ in_flight_at 1 (reload_and_probe (trip 0 empty_cache)) = Some 1
  /\ in_flight_at 1 (store (final_world outlived)) = Some 0
  /\ in_flight_at 0 (store (final_world outlived)) = Some 1
  /\ (can_execute_with_admission_epoch (bs "ns") (bs "p1") demo_key demo_breaker 7100 (store (final_world outlived))).1
       = Ok (1%nat, true, 1).
Proof. vm_compute. done. Qed.

Definition admitted_probe : world :=
  (check_circuit_breaker (demo_proxy None) (Some (demo_target "a")) 5000 (World (trip 0 empty_cache) guard_none [])).2.

Lemma probe_admitted :
  check_circuit_breaker (demo_proxy None) (Some (demo_target "a")) 5000 (World (trip 0 empty_cache) guard_none [])
  = (Ok (demo_key, true, 1), admitted_probe) /\ trace admitted_probe = [EvAdmit 0 demo_key true].
Proof. vm_compute. done. Qed.

Definition reloaded : cache :=
  reload_and_probe (store (guard_new (demo_proxy None) demo_key true (with_store admitted_probe (store admitted_probe)))).

Lemma reloaded_entry :
  breakers reloaded !! key_of (demo_proxy None) demo_key = Some 1%nat
  /\ exists cl, heap reloaded !! 1%nat = Some cl /\ cell_config cl = demo_breaker.
Proof. vm_compute. split; [done|]. by eexists. Qed.

Lemma single_not_retried config :
  retry (policy (proxy single_request)) = Some config -> should_retry config (method single_request) fine 0 = false.
Proof. intros [= <-]. by vm_compute. Qed.

Lemma slot_returned_to_replacement_witness :
  exists s w', outlived = Completed s w' /\ slots_at 0 (trace w') = 1 /\ slots_at 1 (trace w') = -1.
Proof.
  destruct probe_admitted as [Ha Ht]. destruct reloaded_entry as [Hk (cl & Hcl & Hcfg)].
  destruct (slot_returned_to_replacement single_request (demo_first reload_and_probe fine) [] demo_closing
    (trip 0 empty_cache) demo_breaker demo_key 1 admitted_probe 0 1 cl (bs "http://a:80/v1/x")
    eq_refl Ha Ht eq_refl eq_refl eq_refl single_not_retried eq_refl Hk Hcl Hcfg ltac:(discriminate))
    as (s & w' & call & E & H0 & H1 & _).
  exists s, w'. split; [exact E|]. split; [exact H0|exact H1].
Defined.

(** Without the reload: the other request is refused and the slot goes back to
    the breaker that granted it. *)
Definition undisturbed_run : served :=
  serve single_request (demo_first (another_admitted 7000) fine) [] demo_closing (trip 0 empty_cache).

Lemma tripped_ok now c : cache_ok c -> cache_ok (trip now c).
Proof.
  intros Hc. unfold trip. destruct (get_or_create_ok (bs "ns") (bs "p1") demo_key demo_breaker c Hc) as [H _].
  destruct (get_or_create _ _ _ _ c) as [a c']. apply on_breaker_ok; [done|]. intros cfg b Hb. by apply record_wf.
Qed.

Lemma demo_undisturbed : undisturbed single_request (demo_first (another_admitted 7000) fine) [].
Proof.
  split_and!; [done| |done]. apply (admission_keeps (demo_proxy None) demo_key demo_breaker 7000). done.
Qed.

Lemma undisturbed_completes :
  exists s, undisturbed_run = Completed s (final_world undisturbed_run)
            /\ slots_at 0 (take 1 (trace (final_world undisturbed_run))) = 1.
Proof. eexists. vm_compute. done. Qed.

Lemma probe_slots_settled_witness :
  slots_at 0 (take 1 (trace (final_world undisturbed_run))) = 1
  /\ slots_at 0 (trace (final_world undisturbed_run)) = 0.
Proof.
  destruct undisturbed_completes as (s & E & H1). split; [exact H1|].
  pose proof (probe_slots_settled single_request (demo_first (another_admitted 7000) fine) [] demo_closing
    (trip 0 empty_cache)) as H.
  change (serve _ _ _ _ _) with undisturbed_run in H. rewrite E in H. destruct H as [_ H].
  apply H; [apply tripped_ok, with_max_entries_ok; discriminate|exact demo_undisturbed].
Defined.
