(* ===== verification/Overload.v ===== *)
(** * Overload control and shutdown drain ([src/src/overload.rs])

    The action flags the monitor writes, the connection and request guards,
    the drain of a shutdown and the waiter for its completion, one atomic
    access per step, as interleaved threads. The readings of the monitor
    (which ratio is above which threshold, the event-loop latency, the three
    RED probabilities) are the inputs of its tick; the floating-point
    computation of the ratios and the sampling of descriptors are not
    modelled. Atomic accesses are sequentially consistent. *)

From S2P Require Import Prelude.

(** ** Pure decisions *)

Inductive OverloadLevel := Normal | Pressure | Critical.

Definition RED_PROBABILITY_SCALE : Z := 1024.
Definition FD_LIMIT_MAX_ENFORCEABLE : Z := Z.shiftl 1 31.
Definition FD_COUNT_TIMEOUT_WARN_INTERVAL_TICKS : Z := 60.

Inductive FdLimitVerdict := Enforced (limit : Z) | ClampedToPlatformCeiling (ceiling : Z) | NotEnforceable.

Definition verdict_fd_max (v : FdLimitVerdict) : Z :=
  match v with Enforced limit | ClampedToPlatformCeiling limit => limit | NotEnforceable => 0 end.

Definition is_enforced (v : FdLimitVerdict) : bool := match v with NotEnforceable => false | _ => true end.

Definition classify_fd_limit_with_ceiling (limit : Z) (platform_ceiling : option Z) : FdLimitVerdict :=
  if limit =? 0 then NotEnforceable
  else if limit <? FD_LIMIT_MAX_ENFORCEABLE then Enforced limit
  else
    match platform_ceiling with
    | Some ceiling =>
      if (0 <? ceiling) && (ceiling <? FD_LIMIT_MAX_ENFORCEABLE) then ClampedToPlatformCeiling ceiling
      else NotEnforceable
    | None => NotEnforceable
    end.

Definition classify_fd_limit (limit : Z) (platform_ceiling : option Z) : FdLimitVerdict :=
  if negb (limit =? 0) && (limit <? FD_LIMIT_MAX_ENFORCEABLE) then Enforced limit
  else classify_fd_limit_with_ceiling limit platform_ceiling.

Definition fd_count_timeout_warn_should_fire (tick : Z) (last_warn_tick : option Z) : bool :=
  match last_warn_tick with
  | None => true
  | Some last => FD_COUNT_TIMEOUT_WARN_INTERVAL_TICKS <=? wrap 64 (tick - last)
  end.

Inductive ShutdownSignalAction := InitiateDrain | Escalate | AlreadyEscalated.

Definition classify_shutdown_signal (observed_count : Z) : ShutdownSignalAction :=
  if observed_count <=? 1 then InitiateDrain
  else if observed_count =? 2 then Escalate else AlreadyEscalated.

(** Whether this response closes its connection, and the next value of the
    request counter. *)
Definition should_disable_keepalive_red (red_drop_probability red_request_counter : Z) : bool * Z :=
  if red_drop_probability =? 0 then (false, red_request_counter)
  else if RED_PROBABILITY_SCALE <=? red_drop_probability then (true, red_request_counter)
  else
    let hash := Z.shiftr (wrapping_mul 64 red_request_counter 11400714819323198485) 54 in
    (hash <? red_drop_probability, wrapping_add 64 red_request_counter 1).

(** ** Threads *)

Inductive kind := Conn | Req.

(** A guard and how far its drop has got: the counter is decremented, the
    drain flag is to be read, the waiter is to be notified. *)
Inductive stage := Live | Decide | Notifying | Freed.

Record guard := Guard { g_kind : kind; g_stage : stage }.

(** One tick's readings. *)
Record readings := Readings {
  fd_over_pressure : bool; fd_over_critical : bool;
  conn_over_pressure : bool; conn_over_critical : bool;
  req_over_pressure : bool; req_over_critical : bool;
  loop_us : Z;
  fd_red_prob : Z; conn_red_prob : Z; req_red_prob : Z;
}.

(** What does not change: [max_requests] and [loop_critical_us]. *)
Record settings := Settings { max_requests : Z; loop_critical_us : Z }.

Inductive monitor_pc :=
| MIdle
| MLoad (r : readings)
| MRed (r : readings) (drain_seen : bool)
| MKeepalive (r : readings) (drain_seen : bool)
| MPublish (r : readings) (drain_seen : bool)
| MConnections (r : readings) (drain_seen : bool)
| MRequests (r : readings) (drain_seen : bool)
| MExited.

Inductive drain_pc :=
| DIdle | DReject | DCancel
| DFirstConns | DFirstReqs (active_conns : Z)
| DCheckConns | DCheckReqs
| DPark | DParked (woken : bool)
| DDone (drained : bool).

Record sys := Sys {
  active_connections : Z;
  active_requests : Z;
  draining : bool;
  drain_started : bool;
  reject_new_requests : bool;
  reject_new_connections : bool;
  disable_keepalive : bool;
  keepalive_published : bool;
  red_drop_probability : Z;
  (** the stored permit of [drain_complete] *)
  permit : bool;
  (** the shutdown channel has fired *)
  shutdown : bool;
  guards : list guard;
  monitor : monitor_pc;
  drain : drain_pc;
}.

Definition initial : sys :=
  Sys 0 0 false false false false false false 0 false false [] MIdle DIdle.

Definition level (s : sys) : OverloadLevel :=
  if reject_new_connections s || reject_new_requests s then Critical
  else if disable_keepalive s then Pressure else Normal.

(** Updates of the fields a step writes. *)
Definition with_counts (s : sys) (c r : Z) (gs : list guard) : sys :=
  Sys c r (draining s) (drain_started s) (reject_new_requests s) (reject_new_connections s)
    (disable_keepalive s) (keepalive_published s) (red_drop_probability s) (permit s) (shutdown s) gs
    (monitor s) (drain s).

Definition with_drain (s : sys) (d : drain_pc) : sys :=
  Sys (active_connections s) (active_requests s) (draining s) (drain_started s) (reject_new_requests s)
    (reject_new_connections s) (disable_keepalive s) (keepalive_published s) (red_drop_probability s)
    (permit s) (shutdown s) (guards s) (monitor s) d.

Definition with_permit (s : sys) (b : bool) : sys :=
  Sys (active_connections s) (active_requests s) (draining s) (drain_started s) (reject_new_requests s)
    (reject_new_connections s) (disable_keepalive s) (keepalive_published s) (red_drop_probability s)
    b (shutdown s) (guards s) (monitor s) (drain s).

Definition with_flags (s : sys) (dr ds rr rc dk kp : bool) (red : Z) (m : monitor_pc) (d : drain_pc) : sys :=
  Sys (active_connections s) (active_requests s) dr ds rr rc dk kp red (permit s) (shutdown s) (guards s) m d.

Definition with_monitor (s : sys) (m : monitor_pc) : sys :=
  with_flags s (draining s) (drain_started s) (reject_new_requests s) (reject_new_connections s)
    (disable_keepalive s) (keepalive_published s) (red_drop_probability s) m (drain s).

Definition with_shutdown (s : sys) : sys :=
  Sys (active_connections s) (active_requests s) (draining s) (drain_started s) (reject_new_requests s)
    (reject_new_connections s) (disable_keepalive s) (keepalive_published s) (red_drop_probability s)
    (permit s) true (guards s) (monitor s) (drain s).

(** [ConnectionGuard::new], [RequestGuard::new]. *)
Definition guard_new (k : kind) (s : sys) : sys :=
  let gs := guards s ++ [Guard k Live] in
  match k with
  | Conn => with_counts s (wrapping_add 64 (active_connections s) 1) (active_requests s) gs
  | Req => with_counts s (active_connections s) (wrapping_add 64 (active_requests s) 1) gs
  end.

(** [Notify::notify_one]: wake the parked waiter, or store the permit. *)
Definition notify_one (s : sys) : sys :=
  match drain s with
  | DParked false => with_drain s (DParked true)
  | _ => with_permit s true
  end.

Definition set_stage (s : sys) (i : nat) (k : kind) (st : stage) : sys :=
  with_counts s (active_connections s) (active_requests s) (<[i := Guard k st]> (guards s)).

(** The next step of the drop of guard [i]. *)
Definition guard_step (i : nat) (s : sys) : option sys :=
  match guards s !! i with
  | Some (Guard k Live) =>
    let prev := match k with Conn => active_connections s | Req => active_requests s end in
    let next := wrap 64 (prev - 1) in
    let gs := <[i := Guard k (if prev =? 1 then Decide else Freed)]> (guards s) in
    Some (match k with
          | Conn => with_counts s next (active_requests s) gs
          | Req => with_counts s (active_connections s) next gs
          end)
  | Some (Guard k Decide) => Some (set_stage s i k (if draining s then Notifying else Freed))
  | Some (Guard k Notifying) => Some (notify_one (set_stage s i k Freed))
  | _ => None
  end.

(** [begin_drain] and then [wait_for_drain_with_escalation]. The listeners
    have exited, so the shutdown channel has fired. *)
Definition drain_step (s : sys) : option sys :=
  match drain s with
  | DIdle =>
    if shutdown s then
      Some (with_flags s true (drain_started s) (reject_new_requests s) (reject_new_connections s)
              (disable_keepalive s) (keepalive_published s) (red_drop_probability s) (monitor s) DReject)
    else None
  | DReject =>
    Some (with_flags s (draining s) (drain_started s) true (reject_new_connections s)
            (disable_keepalive s) (keepalive_published s) (red_drop_probability s) (monitor s) DCancel)
  | DCancel =>
    Some (with_flags s (draining s) true (reject_new_requests s) (reject_new_connections s)
            (disable_keepalive s) (keepalive_published s) (red_drop_probability s) (monitor s) DFirstConns)
  | DFirstConns => Some (with_drain s (DFirstReqs (active_connections s)))
  | DFirstReqs c =>
    Some (with_drain s (if (c =? 0) && (active_requests s =? 0) then DDone true else DCheckConns))
  | DCheckConns => Some (with_drain s (if active_connections s =? 0 then DCheckReqs else DPark))
  | DCheckReqs => Some (with_drain s (if active_requests s =? 0 then DDone true else DPark))
  | DPark => Some (if permit s then with_drain (with_permit s false) DCheckConns else with_drain s (DParked false))
  | DParked true => Some (with_drain s DCheckConns)
  | DParked false | DDone _ => None
  end.

(** The timeout or a second signal ends the wait. *)
Definition drain_leave (s : sys) : option sys :=
  match drain s with
  | DCheckConns | DCheckReqs | DPark | DParked _ => Some (with_drain s (DDone false))
  | _ => None
  end.

(** The decisions of a tick. *)
Definition should_disable_keepalive (cfg : settings) (r : readings) : bool :=
  fd_over_pressure r || conn_over_pressure r || ((0 <? max_requests cfg) && req_over_pressure r).

Definition should_reject (cfg : settings) (r : readings) : bool :=
  fd_over_critical r || conn_over_critical r || (loop_critical_us cfg <=? loop_us r).

Definition should_reject_requests (cfg : settings) (r : readings) (drain_seen : bool) : bool :=
  drain_seen || ((0 <? max_requests cfg) && req_over_critical r).

Definition red_prob (cfg : settings) (r : readings) : Z :=
  Z.max (Z.max (fd_red_prob r) (conn_red_prob r)) (if 0 <? max_requests cfg then req_red_prob r else 0).

Definition monitor_step (cfg : settings) (s : sys) : option sys :=
  let flags rr rc dk kp red m :=
    Some (with_flags s (draining s) (drain_started s) rr rc dk kp red m (drain s)) in
  let rr := reject_new_requests s in
  let rc := reject_new_connections s in
  let dk := disable_keepalive s in
  let kp := keepalive_published s in
  let red := red_drop_probability s in
  match monitor s with
  | MIdle => if shutdown s then Some (with_monitor s MExited) else None
  | MLoad r => Some (with_monitor s (MRed r (draining s)))
  | MRed r d => flags rr rc dk kp (red_prob cfg r) (MKeepalive r d)
  | MKeepalive r d => flags rr rc (should_disable_keepalive cfg r) kp red (MPublish r d)
  | MPublish r d => flags rr rc dk (should_disable_keepalive cfg r) red (MConnections r d)
  | MConnections r d => flags rr (should_reject cfg r) dk kp red (MRequests r d)
  | MRequests r d => flags (should_reject_requests cfg r d) rc dk kp red MIdle
  | MExited => None
  end.

(** The timer fired and the readings were taken. *)
Definition monitor_tick (r : readings) (s : sys) : option sys :=
  match monitor s with MIdle => Some (with_monitor s (MLoad r)) | _ => None end.

Inductive cmd :=
| CNew (k : kind) | CDrop (i : nat) | CShutdown | CDrain | CLeave | CTick (r : readings) | CMonitor.

(** A live guard is an object in memory: there are never [2^64] of them. *)
Definition room (k : kind) (s : sys) : bool :=
  (match k with Conn => active_connections s | Req => active_requests s end) <? umax 64.

Definition exec (cfg : settings) (c : cmd) (s : sys) : option sys :=
  match c with
  | CNew k => if room k s then Some (guard_new k s) else None
  | CDrop i => guard_step i s
  | CShutdown => Some (with_shutdown s)
  | CDrain => drain_step s
  | CLeave => drain_leave s
  | CTick r => monitor_tick r s
  | CMonitor => monitor_step cfg s
  end.

Inductive steps (cfg : settings) : sys -> sys -> Prop :=
| steps_refl s : steps cfg s s
| steps_cons c s s' s'' : exec cfg c s = Some s' -> steps cfg s' s'' -> steps cfg s s''.

Definition reachable (cfg : settings) (s : sys) : Prop := steps cfg initial s.

Fixpoint run (cfg : settings) (cs : list cmd) (s : sys) : option sys :=
  match cs with [] => Some s | c :: cs => s' ← exec cfg c s; run cfg cs s' end.

Lemma run_steps cfg cs s s' : run cfg cs s = Some s' -> steps cfg s s'.
Proof.
  revert s. induction cs as [|c cs IH]; intros s H; simpl in H.
  - injection H as <-. apply steps_refl.
  - destruct (exec cfg c s) as [s1|] eqn:E; [|done]. eapply steps_cons; [done|by apply IH].
Qed.

Lemma steps_ind_r cfg (P : sys -> Prop) s s' :
  P s -> (forall c a b, P a -> exec cfg c a = Some b -> P b) -> steps cfg s s' -> P s'.
Proof. intros H0 Hstep Hs. induction Hs; eauto. Qed.

(** ** Counters and notifications *)

Definition live (k : kind) (g : guard) : bool :=
  match g_stage g, k, g_kind g with
  | Live, Conn, Conn | Live, Req, Req => true
  | _, _, _ => false
  end.

(** A drop that has still to look at the drain flag or to notify. *)
Definition settling (g : guard) : bool := match g_stage g with Decide | Notifying => true | _ => false end.

Definition waiting (d : drain_pc) : bool := match d with DPark | DParked false => true | _ => false end.

Record inv (s : sys) : Prop := {
  inv_conns : active_connections s = number (live Conn) (guards s);
  inv_reqs : active_requests s = number (live Req) (guards s);
  inv_width : active_connections s <= umax 64 /\ active_requests s <= umax 64;
  inv_draining : drain s <> DIdle -> draining s = true;
  inv_parked : drain s = DParked false -> permit s = false;
  inv_wakeup : waiting (drain s) = true ->
    1 <= active_connections s \/ 1 <= active_requests s \/ permit s = true \/ 1 <= number settling (guards s);
}.

Lemma overload_inv_start : inv initial.
Proof. by constructor. Qed.

Lemma inv_new k s : room k s = true -> inv s -> inv (guard_new k s).
Proof.
  unfold room. rewrite Z.ltb_lt. intros Hr [H1 H2 [Hw1 Hw2] H3 H4 H5].
  pose proof (number_bounds (live Conn) (guards s)). pose proof (number_bounds (live Req) (guards s)).
  unfold guard_new, wrapping_add. destruct k; constructor; cbn; rewrite ?number_app; cbn;
    rewrite ?wrap_small by (unfold in_width, umax in *; lia); try done; try (unfold umax in *; lia);
    intros Hw; destruct (H5 Hw) as [?|[?|[?|?]]]; auto with lia.
Qed.

(** Replacing a guard of kind [k]. *)
Lemma live_insert k (gs : list guard) i j st st' :
  gs !! i = Some (Guard j st) ->
  number (live k) (<[i := Guard j st']> gs)
    = number (live k) gs - Z.b2z (live k (Guard j st)) + Z.b2z (live k (Guard j st')).
Proof. apply number_insert. Qed.

Lemma settling_insert (gs : list guard) i j st st' :
  gs !! i = Some (Guard j st) ->
  number settling (<[i := Guard j st']> gs)
    = number settling gs - Z.b2z (settling (Guard j st)) + Z.b2z (settling (Guard j st')).
Proof. apply number_insert. Qed.

Lemma inv_decrement k i s :
  guards s !! i = Some (Guard k Live) -> inv s ->
  exists s', guard_step i s = Some s' /\ inv s'.
Proof.
  intros Hi [H1 H2 [Hw1 Hw2] H3 H4 H5]. unfold guard_step. rewrite Hi. eexists. split; [done|].
  set (prev := match k with Conn => active_connections s | Req => active_requests s end).
  assert (Hp : 1 <= prev <= umax 64).
  { pose proof (number_pos (live k) _ _ _ Hi). subst prev. destruct k; cbn in *; lia. }
  rewrite wrap_small by (unfold in_width, umax in *; lia).
  set (st := if prev =? 1 then Decide else Freed).
  assert (Hst : st = Decide /\ prev = 1 \/ st = Freed /\ 1 < prev) by (subst st; destruct (Z.eqb_spec prev 1); auto with lia).
  pose proof (live_insert Conn _ _ _ _ st Hi) as Hc. pose proof (live_insert Req _ _ _ _ st Hi) as Hr.
  pose proof (settling_insert _ _ _ _ st Hi) as Hs. pose proof (number_bounds settling (guards s)) as Hn.
  clearbody st. subst prev.
  destruct k, Hst as [[-> Hst]|[-> Hst]]; cbn in Hc, Hr, Hs; (constructor; cbn; [lia|lia|lia|done|done|]);
    intros Hw; destruct (H5 Hw) as [?|[?|[?|?]]]; auto with lia.
Qed.

Lemma inv_read_flag k i s :
  guards s !! i = Some (Guard k Decide) -> inv s ->
  inv (set_stage s i k (if draining s then Notifying else Freed)).
Proof.
  intros Hi [H1 H2 [Hw1 Hw2] H3 H4 H5]. set (st := if draining s then _ else _).
  pose proof (live_insert Conn _ _ _ _ st Hi) as Hc. pose proof (live_insert Req _ _ _ _ st Hi) as Hr.
  pose proof (settling_insert _ _ _ _ st Hi) as Hs.
  assert (Hl : live Conn (Guard k st) = false /\ live Req (Guard k st) = false) by (subst st; by destruct k, (draining s)).
  destruct Hl as [E1 E2]. rewrite E1 in Hc. rewrite E2 in Hr. cbn in Hc, Hr, Hs.
  constructor; cbn; [lia|lia|done|done|done|]. intros Hw.
  assert (Hd : draining s = true) by (apply H3; intros E; by rewrite E in Hw).
  subst st. rewrite Hd in Hs |- *. cbn in Hs. rewrite Hs. destruct (H5 Hw) as [?|[?|[?|?]]]; auto with lia.
Qed.

Lemma inv_notify k i s :
  guards s !! i = Some (Guard k Notifying) -> inv s -> inv (notify_one (set_stage s i k Freed)).
Proof.
  intros Hi [H1 H2 [Hw1 Hw2] H3 H4 H5].
  pose proof (live_insert Conn _ _ _ _ Freed Hi) as Hc. pose proof (live_insert Req _ _ _ _ Freed Hi) as Hr.
  assert (E1 : forall j st, st <> Live -> live j (Guard k st) = false) by (by intros [] []; destruct k).
  rewrite !E1 in Hc, Hr by done. cbn in Hc, Hr. unfold notify_one. cbn.
  destruct (drain s) as [| | | | | | | |[]|] eqn:Ed; constructor; cbn; rewrite ?Ed; try done; try lia; auto.
Qed.

Lemma inv_drop i s s' : guard_step i s = Some s' -> inv s -> inv s'.
Proof.
  intros Hs Hinv. destruct (guards s !! i) as [[k []]|] eqn:Hi.
  - destruct (inv_decrement k i s Hi Hinv) as (s2 & E & H). congruence.
  - unfold guard_step in Hs. rewrite Hi in Hs. injection Hs as <-. by apply inv_read_flag.
  - unfold guard_step in Hs. rewrite Hi in Hs. injection Hs as <-. by apply inv_notify.
  - unfold guard_step in Hs. by rewrite Hi in Hs.
  - unfold guard_step in Hs. by rewrite Hi in Hs.
Qed.

Lemma inv_drain s s' : drain_step s = Some s' -> inv s -> inv s'.
Proof.
  unfold drain_step. intros Hs [H1 H2 Hw H3 H4 H5].
  pose proof (number_bounds (live Conn) (guards s)). pose proof (number_bounds (live Req) (guards s)).
  assert (Hd : drain s <> DIdle -> draining s = true) by done.
  destruct (drain s) as [| | | |c| | | |[]|] eqn:Ed; try done; try (destruct (shutdown s); [|done]);
    injection Hs as <-; try (constructor; cbn; auto; done).
  - destruct (_ && _); constructor; cbn; auto; done.
  - destruct (Z.eqb_spec (active_connections s) 0); constructor; cbn; auto; try done. intros _. left. lia.
  - destruct (Z.eqb_spec (active_requests s) 0); constructor; cbn; auto; try done. intros _. right; left. lia.
  - destruct (permit s) eqn:Ep; constructor; cbn; auto; try done. intros _. rewrite Ep. by apply H5.
Qed.

Lemma inv_monitor cfg s s' : monitor_step cfg s = Some s' -> inv s -> inv s'.
Proof.
  unfold monitor_step. intros Hs [H1 H2 Hw H3 H4 H5].
  destruct (monitor s); try done; try (destruct (shutdown s); [|done]); injection Hs as <-; by constructor.
Qed.

Lemma overload_inv_exec cfg c s s' : inv s -> exec cfg c s = Some s' -> inv s'.
Proof.
  intros Hi Hs. destruct c; simpl in Hs.
  - destruct (room k s) eqn:Er; [|done]. injection Hs as <-. by apply inv_new.
  - by eapply inv_drop.
  - injection Hs as <-. destruct Hi. by constructor.
  - by eapply inv_drain.
  - unfold drain_leave in Hs. destruct Hi as [H1 H2 Hw H3 H4 H5].
    assert (Hd : drain s <> DIdle -> draining s = true) by done.
    destruct (drain s) eqn:Ed; try done; injection Hs as <-; constructor; cbn; auto; done.
  - unfold monitor_tick in Hs. destruct (monitor s); try done. injection Hs as <-. destruct Hi. by constructor.
  - by eapply inv_monitor.
Qed.

Lemma inv_reachable cfg s : reachable cfg s -> inv s.
Proof. apply steps_ind_r; [apply overload_inv_start|]. intros c a b. apply overload_inv_exec. Qed.

(** ** Completion of the drain *)

(** Every guard is gone and its drop has finished. *)
Definition quiesced (s : sys) : Prop := Forall (fun g => g_stage g = Freed) (guards s).

Lemma quiesced_number (f : guard -> bool) gs :
  (forall k, f (Guard k Freed) = false) -> Forall (fun g => g_stage g = Freed) gs -> number f gs = 0.
Proof.
  intros Hf. induction 1 as [|[k st] gs Hg _ IH]; [done|]. cbn in Hg |- *. subst st. by rewrite Hf, IH.
Qed.

Lemma quiesced_idle s : inv s -> quiesced s ->
  active_connections s = 0 /\ active_requests s = 0 /\ (waiting (drain s) = true -> permit s = true).
Proof.
  intros [H1 H2 _ _ _ H5] Hq.
  rewrite (quiesced_number (live Conn)) in H1 by (done || by intros []).
  rewrite (quiesced_number (live Req)) in H2 by (done || by intros []).
  split_and!; [done..|]. intros Hw. destruct (H5 Hw) as [?|[?|[?|Hs]]]; [lia|lia|done|].
  rewrite (quiesced_number settling) in Hs by (done || by intros []). lia.
Qed.

Definition in_drain (d : drain_pc) : bool := match d with DIdle | DDone _ => false | _ => true end.

(** C31. A shutdown drain never hangs on a lost notification. In every
    interleaving of connections and requests beginning and ending, of the
    drain and of the monitor, the two counters are the numbers of live
    guards, and once every guard is gone the waiter reports a complete drain
    within four of its own steps; it is never left parked. *)
Theorem drain_never_hangs cfg s :
  reachable cfg s ->
  active_connections s = number (live Conn) (guards s)
  /\ active_requests s = number (live Req) (guards s)
  /\ (quiesced s -> in_drain (drain s) = true ->
      exists n s', (n <= 4)%nat /\ run cfg (replicate n CDrain) s = Some s' /\ drain s' = DDone true).
Proof.
  intros Hr%inv_reachable. split_and!; [by destruct Hr..|]. intros Hq Hd.
  destruct (quiesced_idle s Hr Hq) as (Hc & Hreq & Hp). pose proof (inv_parked s Hr) as Hk.
  destruct (drain s) as [| | | |c| | | |[]|] eqn:Ed; try done.
  - exists 4%nat. eexists. split; [lia|]. cbn. unfold drain_step. rewrite Ed. cbn. rewrite Hc, Hreq. done.
  - exists 3%nat. eexists. split; [lia|]. cbn. unfold drain_step. rewrite Ed. cbn. rewrite Hc, Hreq. done.
  - exists 2%nat. eexists. split; [lia|]. cbn. unfold drain_step. rewrite Ed. cbn. rewrite Hc, Hreq. done.
  - destruct (Z.eqb_spec c 0) as [->|Hne].
    + exists 1%nat. eexists. split; [lia|]. cbn. unfold drain_step. rewrite Ed, Hreq. done.
    + exists 3%nat. eexists. split; [lia|]. cbn. unfold drain_step. rewrite Ed. destruct (Z.eqb_spec c 0); [done|].
      cbn. rewrite Hc. cbn. rewrite Hreq. done.
  - exists 2%nat. eexists. split; [lia|]. cbn. unfold drain_step. rewrite Ed. cbn. rewrite Hc. cbn. rewrite Hreq. done.
  - exists 1%nat. eexists. split; [lia|]. cbn. unfold drain_step. rewrite Ed. cbn. rewrite Hreq. done.
  - exists 3%nat. eexists. split; [lia|]. cbn. unfold drain_step. rewrite Ed, (Hp eq_refl). cbn. rewrite Hc. cbn. rewrite Hreq. done.
  - exists 3%nat. eexists. split; [lia|]. cbn. unfold drain_step. rewrite Ed. cbn. rewrite Hc. cbn. rewrite Hreq. done.
  - specialize (Hp eq_refl). rewrite (Hk eq_refl) in Hp. done.
Qed.

Definition demo_settings : settings := Settings 100 500000.

Definition calm : readings := Readings false false false false false false 0 0 0 0.

(** A connection and its request end while the waiter is parked. *)
Definition parked_run : list cmd :=
  [CNew Conn; CNew Req; CShutdown] ++ replicate 7 CDrain ++ [CDrop 1; CDrop 0; CDrop 1; CDrop 0; CDrop 1; CDrop 0].

Definition parked_state : sys := default initial (run demo_settings parked_run initial).

Lemma parked_runs : run demo_settings parked_run initial = Some parked_state.
Proof. vm_compute. reflexivity. Qed.

Lemma parked_quiesced : quiesced parked_state.
Proof. by repeat constructor. Qed.

Lemma drain_never_hangs_witness :
  exists n s', (n <= 4)%nat /\ run demo_settings (replicate n CDrain) parked_state = Some s' /\ drain s' = DDone true.
Proof.
  destruct (drain_never_hangs demo_settings parked_state (run_steps _ _ _ _ parked_runs)) as (_ & _ & H).
  exact (H parked_quiesced eq_refl).
Defined.

(** ** Admission during the drain *)

(** The monitor is past its read of the drain flag and read [false]. *)
Definition stale (m : monitor_pc) : bool :=
  match m with
  | MRed _ d | MKeepalive _ d | MPublish _ d | MConnections _ d | MRequests _ d => negb d
  | _ => false
  end.

Definition past_reject (d : drain_pc) : bool := match d with DIdle | DReject => false | _ => true end.

Record rejecting (s : sys) : Prop := {
  rej_draining : draining s = true;
  rej_fresh : stale (monitor s) = false;
  rej_begun : drain s <> DIdle;
  rej_flag : past_reject (drain s) = true -> reject_new_requests s = true;
}.

Lemma notify_keeps s :
  draining (notify_one s) = draining s /\ monitor (notify_one s) = monitor s
  /\ reject_new_requests (notify_one s) = reject_new_requests s
  /\ (drain s <> DIdle -> drain (notify_one s) <> DIdle) /\ past_reject (drain (notify_one s)) = past_reject (drain s).
Proof. unfold notify_one. destruct (drain s) as [| | | | | | | |[]|] eqn:Ed; cbn; rewrite ?Ed; done. Qed.

Lemma rejecting_drop i s s' : guard_step i s = Some s' -> rejecting s -> rejecting s'.
Proof.
  unfold guard_step. intros Hs [H1 H2 H3 H4].
  destruct (guards s !! i) as [[k []]|]; try done; injection Hs as <-.
  - by destruct k.
  - done.
  - destruct (notify_keeps (set_stage s i k Freed)) as (E1 & E2 & E3 & E4 & E5).
    constructor; [by rewrite E1|by rewrite E2|by apply E4|rewrite E3, E5; done].
Qed.

Lemma rejecting_exec cfg c s s' : rejecting s -> exec cfg c s = Some s' -> rejecting s'.
Proof.
  intros Hr Hs. destruct c; simpl in Hs.
  - destruct (room k s); [|done]. injection Hs as <-. by destruct k, Hr.
  - by eapply rejecting_drop.
  - injection Hs as <-. by destruct Hr.
  - unfold drain_step in Hs. destruct Hr as [H1 H2 H3 H4].
    destruct (drain s) as [| | | |n| | | |[]|]; try done; injection Hs as <-; constructor; cbn; repeat case_match; auto.
  - unfold drain_leave in Hs. destruct Hr as [H1 H2 H3 H4].
    destruct (drain s) as [| | | |n| | | |[]|]; try done; injection Hs as <-; constructor; cbn; auto.
  - unfold monitor_tick in Hs. destruct (monitor s); try done. injection Hs as <-. by destruct Hr.
  - unfold monitor_step in Hs. destruct Hr as [H1 H2 H3 H4].
    destruct (monitor s) as [|r|r d|r d|r d|r d|r d|] eqn:Em; try done;
      try (destruct (shutdown s); [|done]); injection Hs as <-; constructor; cbn; rewrite ?H1; auto.
    intros _. cbn in H2. apply negb_false_iff in H2 as ->. done.
Qed.

(** C32. Once a drain has begun, request admission stays refused: from the
    moment the drain flag is set, provided the monitor is not then between
    its read of that flag and its write of the decision, every later state in
    which [begin_drain] has done its second store rejects new requests,
    whatever the monitor measures afterwards. *)
Theorem drain_keeps_rejecting cfg s s' :
  reachable cfg s -> drain s = DReject -> stale (monitor s) = false -> steps cfg s s' ->
  past_reject (drain s') = true -> reject_new_requests s' = true.
Proof.
  intros Hr%inv_reachable Hd Hm Hs. apply rej_flag. revert Hs. apply steps_ind_r.
  - constructor; [by apply Hr; rewrite Hd|done|by rewrite Hd|by rewrite Hd].
  - intros c a b. apply rejecting_exec.
Qed.

(** The monitor ticks twice around the beginning of a drain. *)
Definition draining_state : sys :=
  default initial (run demo_settings [CTick calm; CMonitor; CMonitor; CMonitor; CMonitor; CMonitor; CMonitor; CTick calm; CShutdown; CDrain] initial).

Definition later_state : sys :=
  default initial (run demo_settings ([CDrain; CMonitor; CMonitor; CMonitor; CMonitor; CMonitor; CMonitor; CMonitor; CDrain]) draining_state).

Lemma draining_runs :
  run demo_settings [CTick calm; CMonitor; CMonitor; CMonitor; CMonitor; CMonitor; CMonitor; CTick calm; CShutdown; CDrain] initial
    = Some draining_state.
Proof. vm_compute. reflexivity. Qed.

Lemma later_runs :
  run demo_settings ([CDrain; CMonitor; CMonitor; CMonitor; CMonitor; CMonitor; CMonitor; CMonitor; CDrain]) draining_state
    = Some later_state.
Proof. vm_compute. reflexivity. Qed.

Lemma drain_keeps_rejecting_witness :
  reject_new_requests later_state = true /\ monitor later_state = MExited.
Proof.
  split; [|reflexivity].
  exact (drain_keeps_rejecting demo_settings draining_state later_state (run_steps _ _ _ _ draining_runs) eq_refl eq_refl
           (run_steps _ _ _ _ later_runs) eq_refl).
Defined.

(** After the monitor has exited nothing writes the flag again. *)
Lemma flag_frozen cfg s s' b :
  monitor s = MExited -> past_reject (drain s) = true -> reject_new_requests s = b -> steps cfg s s' ->
  reject_new_requests s' = b.
Proof.
  intros Hm Hd Hb Hs.
  assert (H : monitor s' = MExited /\ past_reject (drain s') = true /\ reject_new_requests s' = b); [|by destruct H as (_ & _ & ?)].
  apply (steps_ind_r cfg (fun s => monitor s = MExited /\ past_reject (drain s) = true /\ reject_new_requests s = b) s s');
    [done| |done].
  clear. intros c s s' (Hm & Hd & Hb) Hs. destruct c; simpl in Hs.
  - destruct (room k s); [|done]. injection Hs as <-. by destruct k.
  - unfold guard_step in Hs. destruct (guards s !! i) as [[k []]|]; try done; injection Hs as <-; [by destruct k|done|].
    destruct (notify_keeps (set_stage s i k Freed)) as (E1 & E2 & E3 & E4 & E5). rewrite E2, E3, E5. done.
  - by injection Hs as <-.
  - unfold drain_step in Hs. destruct (drain s) as [| | | |n| | | |[]|]; try done; injection Hs as <-; cbn; repeat case_match; done.
  - unfold drain_leave in Hs. destruct (drain s) as [| | | |n| | | |[]|]; try done; injection Hs as <-; done.
  - unfold monitor_tick in Hs. by rewrite Hm in Hs.
  - unfold monitor_step in Hs. by rewrite Hm in Hs.
Qed.

Definition racing_run : list cmd :=
  [CTick calm; CMonitor; CShutdown; CDrain; CDrain; CMonitor; CMonitor; CMonitor; CMonitor; CMonitor; CMonitor; CDrain].

Definition racing_state : sys := default initial (run demo_settings racing_run initial).

Lemma racing_runs : run demo_settings racing_run initial = Some racing_state.
Proof. vm_compute. reflexivity. Qed.

(** C33. The condition on the monitor is needed. There is an execution in
    which a tick reads the drain flag just before [begin_drain] sets it and
    writes its decision just after: the drain has begun, the monitor has
    exited with the shutdown, and new requests are admitted in every later
    state, for the rest of the drain. *)
Theorem stale_tick_reopens_admission :
  exists s, reachable demo_settings s /\ draining s = true /\ drain_started s = true
    /\ monitor s = MExited /\ drain s = DFirstConns
    /\ forall s', steps demo_settings s s' -> reject_new_requests s' = false.
Proof.
  exists racing_state. split; [exact (run_steps _ _ _ _ racing_runs)|]. split_and!; [done..|].
  intros s'. by apply flag_frozen.
Qed.
